(* ===== verification/_CoqProject ===== *)
-Q . S2P
Prelude.v
BlockStore.v
TreeCore.v
TreeFacts.v
TreePaths.v
TreeSearch.v
TreeEdit.v
TreeMap.v
AvlTree.v
AvlSpec.v
AvlFacts.v
AvlOps.v
AvlMap.v
AvlDeferred.v
BinaryTree.v
BinaryFacts.v
BinaryMap.v
ShaSpec.v
Sha256.v
Commitment.v
Sha1.v
HostSha1.v
HostSha256.v
Arith.v
Ridge.v
Queries.v
CqlTree.v
SyncQueue.v
Gmp.v
MapReduce.v
MrApps.v
Substring.v
Genotyper.v
Lcs.v
Ram.v
KmpSearch.v
Horspool.v
HashMap.v
Merge.v
ExternalSort.v
DbBuild.v
DbStore.v
DbIndex.v
Numeric.v
Sorting.v
Rle.v
Bits.v
LevelDb.v
AsyncStore.v
GghHash.v
MerkleRam.v
KyotoStore.v
Exo.v
Mpq.v
Waksman.v
WakColor.v
WakLevel.v
WakRoute.v
WakSort.v
WakNet.v
Prover.v
Worksheet.v
ProverFacts.v
Poly.v
Gadgets.v
Constraints.v
ProverProps.v
ProverStore.v
ProverWaksman.v
Program.v
