(* ===== verification/Prelude.v ===== *)
(** * Pequin: a verification library

    Pequin is a toolchain for verified computation.  A C program is compiled
    (frontend in Java, backend [compiler/backend/zcc_parser.py]) to constraints
    over a prime field and to a worksheet; the prover
    ([pepper/libv/computation_p.cpp]) runs the worksheet, which assigns a value
    to every variable, and proves that the values satisfy the constraints.
    Programs keep state in blocks that are named by their hash: a program calls
    [hashput], [hashget], [ramput] and [ramget], and the prover answers from the
    block store of [pepper/storage].  The library models the C code that
    programs are built from ([compiler/cstdinc]), the programs
    ([pepper/apps]), the prover's storage and interpreter, and the part of the
    compiler that ties the interpreter to the constraints.

    ** Conventions

    This file holds what the others share: machine integers ([wrapu], [wraps]
    and their conversions; a C object of integer type is a [Z] that every
    assignment reduces to its width), checked array access, results, loops
    and the automation.

    - [res A] is the outcome of code: [Ok a]; [Fault] for an access outside an
      array or a failed assertion or an exit; [NoFuel] for a loop of the model
      that ran out of fuel.  Theorems that state an [Ok] therefore also state
      that no access is out of bounds and that the fuel was enough.
    - Counted loops are folds ([for_up], [for_upM]) and need no fuel.  Fuel is
      only used where the code loops until a condition: the walks of trees
      (fuel: the depth of the tree, 10 or 4), the readers of a worksheet (one
      more than the words left; [worksheet_ends] shows it is enough for a
      worksheet whose lists and formats are closed, and [unclosed_loops] that
      no fuel is enough otherwise, where the code itself loops), quicksort
      (two more than the entries), the merge of chunks and the [while] loops
      of [Horspool.v] and [Rle.v] (an argument, with a bound in the theorems),
      the rounds of the router (one per packet; [route_packets_Ok]) and the
      bitwise loops of [Arith.v] (the width of the type).
    - The attribute [buffet::fsm(n)], by which the compiler flattens a loop to
      [n] rounds, is modelled for [kmpsearch_flat.c]; [horspool_flat.c],
      [rle_*_flat.c] and [sparse_matvec_flat.c] are taken as plain C.
    - State is passed explicitly.  [prog] in [Prover.v] is a state and error
      monad over the fields of the C++ object.

    ** Components

    1. Storage for programs, [compiler/cstdinc].  [BlockStore.v]: the interface
       [BlockStore] of the primitives [hashput]/[hashget] with its laws, an
       instance, and the list of [list.h].  [TreeCore.v] to [TreeMap.v]: the
       code and facts the two search trees share, over a node interface.
       [AvlTree.v], [AvlSpec.v], [AvlFacts.v], [AvlOps.v], [AvlMap.v],
       [AvlDeferred.v]: [avl_tree.h]; the stored tree refines a functional AVL
       tree, which refines a finite map.  [BinaryTree.v], [BinaryFacts.v],
       [BinaryMap.v]: [binary_tree.h].  [Ram.v]: [ramget]/[ramput] and the
       naive memory of [db.h].  [HashMap.v]: [hashmap.h].
       [CqlTree.v]: the tree of [compiler/cql/cql.h] over a heap of nodes,
       where reading freed memory is a fault, and its array of blocks.
    2. Numbers and hashes for programs.  [ShaSpec.v]: SHA-256 and SHA-1 of
       FIPS 180-4, the reference.  [Sha256.v], [Sha1.v], [Commitment.v]: the
       C versions ([prover_knows_hash_preimage.c], [sha_1.c], the commitment
       hash of [db.h]).  [HostSha1.v], [HostSha256.v]: the hashes of the drivers
       ([pepper/common]), SHA-256 at any width of its words.  [Arith.v]: [fix_t.h] and the bounded integer
       programs.  [Gmp.v]: [gmp.h].
    3. Programs, [pepper/apps].  [MapReduce.v]: the frame of
       [mapred_map.h]/[mapred_red.h], and the shuffle of [common/utility.cpp]
       that routes the files of the mappers to the reducers.  [run_job], all
       mappers, the shuffle, all reducers, is a composition of the
       development: nothing under [src/] runs the three.  [MrApps.v],
       [Substring.v], [Genotyper.v]: the applications.  [Lcs.v],
       [Merge.v], [Sorting.v], [Rle.v]: longest common subsequence, four
       sorts, run-length coding.  [KmpSearch.v], [Horspool.v]: the string
       searches [kmpsearch*.c], [horspool*.c] and [boyer_occur_*.c].
       [Numeric.v]: [binary_search*.c], [sparse_matvec*.c], [mm*.c] and
       [face_detect_hamming.c], a Module each.  [Ridge.v]:
       [ridge_regression.c] in fixed-point numbers.  [Queries.v]: [tolling.c],
       [email_history.c], [genome_snp_freq.c] and [cql_test.c].
    4. The prover's storage, [pepper/storage].  [Bits.v]: bit vectors and
       bytes.  [LevelDb.v]: the block store on disk and the interface
       [HashBlockStore].  [GghHash.v]: the GGH hash, the null hash and the
       class [Hasher].  [MerkleRam.v]: the memory with a Merkle tree over its
       cells, proved against [HashBlockStore].  [KyotoStore.v]: the store on
       Kyoto Cabinet and the choice of a store.  [Exo.v]: [exo.cpp], through
       which code outside the constraints uses all of them.
    5. The prover.  [Mpq.v]: what it uses of the GMP library.  [Prover.v]:
       every statement of a worksheet, as [computation_p.cpp] has them.
       [Worksheet.v]: locations, operands and the rules by which a proof runs
       a statement.  At the end of the worksheet a reader keeps the word it
       read before, as the buffer of the code does.  [ProverFacts.v]:
       termination, and the worksheets on which there is none.  [Poly.v], [Gadgets.v],
       [ProverProps.v], [ProverStore.v]: what the statements compute.
    6. The compiler's side.  [Constraints.v]: the constraints of comparisons
       and splits and what they mean.  [Program.v]: programs of several lines,
       from the specification to the worksheet and the constraints.
    7. The memory of a program.  The operations on the fast memory are sorted
       by address and time in a permutation network.  [Waksman.v]: the router
       of [common/waksman_router.cpp], one definition per part of its loop.
       [WakColor.v]: a level routed is a colouring of the packets (bottom or
       top network); why the walk from left to right and back never meets a
       switch set the other way.  [WakLevel.v]: one level of the router follows
       that colouring, the arrays of wires and switches included.  [WakRoute.v]:
       the network in the order of the arrays, and the recursion.  [WakSort.v]:
       the router as a whole.  [WakNet.v]: the network [wak.py] builds, the
       numbers the compiler gives its nodes, and its constraints.
       [ProverWaksman.v]: the statement [WAKSMAN_NETWORK] of the prover, whose
       variables satisfy those constraints.
    8. The database of the prover, [pepper/storage].  [ExternalSort.v]:
       [external_sort.cpp], over comparators that are orders (class
       [Comparator]).  [DbBuild.v]: the search tree over a sorted index that
       [db_util.cpp] builds from the bottom up into [index.db] and [hash.db]
       ([crep] says what the two files hold).  [DbStore.v]:
       [db_block_store.cpp], the store that reads nodes and rows from these
       files, with its caches ([db_inv]), and the search of
       [include/avl_tree.cpp] on it.  [DbIndex.v]: [create_compressed_db] from
       the random keys to the sorted indices, and what an index finds.
    9. Threads.  [SyncQueue.v]: [synchronized_queue.h] as steps of threads that
       interleave, over a mutex and a condition variable; a state records the
       queue, the holder of the mutex, where every thread is and the calls
       that ended.  [AsyncStore.v]: the block store compiled to write behind,
       a caller and a writer that interleave over such a queue.

    ** What the theorems show

    - Whole programs: the prover runs the worksheet the compiler writes and
      its values satisfy every constraint ([program_complete]); whatever
      satisfies the constraints has the results of the program
      ([program_sound]).  The same for single comparisons, inequalities and
      splits, with the exact values each statement leaves.
    - Sorting networks: for every width the router sets every switch and wire,
      its outputs are sorted, and every switch holds ([wak_route_sorts]); the
      compiler's network is the router's ([compiled_network_is]); the prover's
      variables satisfy the constraints ([waksman_statement_complete]), which
      do not bind the outputs to the inputs ([waksman_network_unsound]).
    - Termination: a worksheet whose lists and formats are closed, whatever
      its other words, is read to its end or stops at a fault
      ([worksheet_ends]); one that ends inside a list or a format makes the
      interpreter loop ([unclosed_loops]).
    - Refinement: sequences of AVL operations refine a finite map; the plain
      tree its map of at most four values; the deferred insertion plain
      insertion.
    - Memory: the Merkle memory keeps its invariant over any sequence of puts
      and gets, and paths of sibling hashes verify ([merkle_ram_invariant],
      [merkle_path_correct], [merkle_ram_edges]); blocks come back bit for bit
      ([leveldb_put_get], [block_put_get]).  Blocks under hashes, commitments
      and the memory share one store and do not disturb each other
      ([host_storage_refines]).
    - The database: the indices are sorted and lead to the rows
      ([create_tables_correct], [external_sort_correct]); a search in the tree
      over a single index ([create_index], the build without [READONLY]) finds
      every key and its row ([index_search_correct]), but in the build with
      [READONLY] ([create_indices]) the trees of the three indices overwrite
      each other, as the example [index_trees_overwrite] shows; rows and nodes that are put are got back
      ([db_put_get_correct]).
    - Concurrency: the thread-safe queue is a sequential queue to its callers
      ([sync_queue_linearizable]) and loses no wakeup ([sync_queue_settles]).
      The store that writes behind finds what was put, but for the one block
      the writer holds ([async_store_correct], [async_store_races]).
    - A tree with pointers: insertion and searches are right
      ([cql_insert_correct], [cql_find_correct]); deletion leaves freed nodes
      in the tree unless the node has two children ([cql_remove_spec]).
    - Searches: the first occurrence, where it is found: by
      [kmpsearch_flat.c] exactly when the comparisons stay within the rounds
      its loop has ([kmpsearch_flat_correct], [kmpsearch_flat_rounds]), by
      Horspool's search ([horspool_correct]), and where not
      ([kmpsearch_dfa_wrong]); a sorted array without its last place
      ([binary_search_correct]).
    - Equivalence with a reference: SHA-256 however the message is cut, SHA-1,
      both again for the drivers ([host_sha1_correct], [host_sha256_correct];
      not with 64-bit words, [long_words_wrong]), the GGH hash; the three merge
      sorts; big-integer arithmetic and the integers ([mpz_ring_correct]; the
      product only where the products of limbs fit the 32 bits that C gives
      them, [mpz_mul_iso_c]); the longest common subsequence is longest.
    - Ridge regression: the factor is found and both substitutions solve their
      systems ([ridge_solve_spec]), in the wrong order for the normal equations
      ([ridge_wrong_solution]).
    - Jobs: what whole MapReduce jobs return, for all sizes the hypotheses
      allow.
    - Behaviour on errors and at bounds: what a search reports when nothing is
      in range, addresses at the end of the memory, outputs shorter than what
      they are to hold, deferred balancing that reads a null link.

    ** Interfaces

    Code outside the repository's sources is an interface with its documented laws
    and an instance that witnesses them: [LevelDB] (the LevelDB database; a
    finite map), [CacheDB] (Kyoto Cabinet; a finite map), [Gmp] with [GmpLaws]
    (the GMP library; [GmpZ]).  Parameters without laws are the table of the
    GGH hash ([AMat], half a million numbers), the process that
    [execute_command] starts and, in the test of [Gmp.v], [mpz_set_str], a
    primitive of the compiler.  Between components, [BlockStore],
    [HashBlockStore], [Hasher], [Ram] and the tree's node interface state what
    one promises to the other.

    ** Not modelled

    - The frontend in Java, and of the backend all but the parts named
      above: they are not C, and the constraints matter here for the
      statements of the prover they belong to.
    - The protocol ([pepper/libv/libsnark] glue, the verifier, the
      experiment drivers), which calls the library libsnark; MPI, timing and
      measurement; reading and writing of files.
    - [pepper/apps/*_p_exo.cpp] and [exogenous_checker.h], which run on the
      side of a program to check it; drivers and input generators.
    - [compiler/buffetfsm], a source transformation on the clang library.
    - Of [pepper/storage/db_util.cpp] the database without compression
      ([create_db], which never writes its subtrees;
      [build_one_subtree_not_written]) but for its subtrees, and the merge
      into one database.  [pepper/include/avl_tree.cpp] but for its search:
      it repeats [avl_tree.h], with two locals set to zero.
      [binary_tree.cpp], and the programs of [pepper/apps] that call the
      trees, several of them written in macros another tool expands.

    ** What could follow

    The comparison of rationals ([<F]) and division in [Program.v]; the
    constraints between neighbours of the sorted memory; the updates of
    [avl_tree.cpp] on the compressed store. *)
From Stdlib Require Import ZArith Lia.
From stdpp Require Import base numbers list.

Local Open Scope Z_scope.

(** ** Machine integers

    A C object of integer type is a [Z]; an assignment to a [w]-bit object
    is one of the conversions below.  Unsigned conversions are reduction
    modulo [2^w]; signed ones pick the two's-complement representative. *)

Definition wrapu (w z : Z) : Z := z mod 2 ^ w.
Definition wraps (w z : Z) : Z := (z + 2 ^ (w - 1)) mod 2 ^ w - 2 ^ (w - 1).

Abbreviation u8 := (wrapu 8).
Abbreviation u16 := (wrapu 16).
Abbreviation u32 := (wrapu 32).
Abbreviation u64 := (wrapu 64).
Abbreviation s32 := (wraps 32).
Abbreviation s64 := (wraps 64).

(** [in_u w z]: [z] is a value of the unsigned [w]-bit type. *)
Definition in_u (w z : Z) : Prop := 0 <= z < 2 ^ w.
Definition in_s (w z : Z) : Prop := - 2 ^ (w - 1) <= z < 2 ^ (w - 1).

(** C truth values. *)
Definition b2z (b : bool) : Z := if b then 1 else 0.

(** ** Outcomes

    [Fault] is an access outside an array (undefined behaviour in C);
    [NoFuel] marks a loop cut off by the fuel given to it. *)
Inductive res (A : Type) : Type :=
| Ok (a : A)
| Fault
| NoFuel.
Arguments Ok {A} a.
Arguments Fault {A}.
Arguments NoFuel {A}.

#[export] Instance res_ret : MRet res := fun A a => Ok a.
#[export] Instance res_bind : MBind res :=
  fun A B f m => match m with Ok a => f a | Fault => Fault | NoFuel => NoFuel end.

Lemma res_bind_Ok {A B} (a : A) (f : A -> res B) : (Ok a ≫= f) = f a.
Proof. reflexivity. Qed.

(** ** Arrays *)

Definition rd {A} (l : list A) (i : Z) : res A :=
  if 0 <=? i then match l !! Z.to_nat i with Some a => Ok a | None => Fault end
  else Fault.

Definition wr {A} (l : list A) (i : Z) (a : A) : res (list A) :=
  if (0 <=? i) && (i <? Z.of_nat (length l)) then Ok (<[Z.to_nat i := a]> l) else Fault.

Lemma rd_Ok {A} `{Inhabited A} (l : list A) i :
  0 <= i < Z.of_nat (length l) -> rd l i = Ok (l !!! Z.to_nat i).
Proof.
  intros Hi. unfold rd. rewrite (proj2 (Z.leb_le 0 i)) by lia.
  rewrite list_lookup_lookup_total_lt by lia. reflexivity.
Qed.

Lemma rd_Fault {A} (l : list A) i :
  i < 0 \/ Z.of_nat (length l) <= i -> rd l i = Fault.
Proof.
  intros Hi. unfold rd. destruct (Z.leb_spec 0 i); [|reflexivity].
  rewrite lookup_ge_None_2 by lia. reflexivity.
Qed.

Lemma rd_lookup {A} (l : list A) (i : nat) a :
  l !! i = Some a -> rd l (Z.of_nat i) = Ok a.
Proof.
  intros Hl. unfold rd. rewrite (proj2 (Z.leb_le 0 _)) by lia.
  rewrite Nat2Z.id, Hl. reflexivity.
Qed.

Lemma wr_Ok {A} (l : list A) i a :
  0 <= i < Z.of_nat (length l) -> wr l i a = Ok (<[Z.to_nat i := a]> l).
Proof.
  intros Hi. unfold wr.
  rewrite (proj2 (Z.leb_le 0 i)), (proj2 (Z.ltb_lt i _)) by lia. reflexivity.
Qed.

(** ** Loops

    [for_up lo hi body]   is  [for (i = lo; i < hi; i++) body];
    [for_down lo hi body] is  [for (i = hi - 1; i >= lo; i--) body].
    The versions in [res] stop at the first fault. *)

Definition for_up {S} (lo hi : nat) (body : nat -> S -> S) (s : S) : S :=
  foldl (fun s i => body i s) s (seq lo (hi - lo)).

Definition for_down {S} (lo hi : nat) (body : nat -> S -> S) (s : S) : S :=
  foldr body s (seq lo (hi - lo)).

Fixpoint for_upM_n {S} (n i : nat) (body : nat -> S -> res S) (s : S) : res S :=
  match n with
  | O => Ok s
  | Datatypes.S n' => s' ← body i s; for_upM_n n' (Datatypes.S i) body s'
  end.

Definition for_upM {S} (lo hi : nat) (body : nat -> S -> res S) (s : S) : res S :=
  for_upM_n (hi - lo) lo body s.

Definition for_downM {S} (lo hi : nat) (body : nat -> S -> res S) (s : S) : res S :=
  foldr (fun i m => s ← m; body i s) (Ok s) (seq lo (hi - lo)).

(** A loop with a data-dependent exit: [step] either continues with a new
    state or leaves the loop with a result. *)
Fixpoint loop {S R} (fuel : nat) (step : S -> res (S + R)) (s : S) : res R :=
  match fuel with
  | O => NoFuel
  | Datatypes.S fuel' =>
      o ← step s;
      match o with inl s' => loop fuel' step s' | inr r => Ok r end
  end.

Lemma for_up_step {S} lo hi (body : nat -> S -> S) s :
  (lo < hi)%nat -> for_up lo hi body s = for_up (Datatypes.S lo) hi body (body lo s).
Proof.
  intros H. unfold for_up. replace (hi - lo)%nat with (Datatypes.S (hi - Datatypes.S lo)) by lia.
  reflexivity.
Qed.

Lemma for_up_done {S} lo hi (body : nat -> S -> S) s :
  (hi <= lo)%nat -> for_up lo hi body s = s.
Proof. intros H. unfold for_up. replace (hi - lo)%nat with O by lia. reflexivity. Qed.

Lemma for_down_step {S} lo hi (body : nat -> S -> S) s :
  (lo < hi)%nat -> for_down lo hi body s = body lo (for_down (Datatypes.S lo) hi body s).
Proof.
  intros H. unfold for_down. replace (hi - lo)%nat with (Datatypes.S (hi - Datatypes.S lo)) by lia.
  reflexivity.
Qed.

Lemma for_down_done {S} lo hi (body : nat -> S -> S) s :
  (hi <= lo)%nat -> for_down lo hi body s = s.
Proof. intros H. unfold for_down. replace (hi - lo)%nat with O by lia. reflexivity. Qed.

(** Hoare-style rules: an indexed invariant carried through the loop. *)
Lemma for_up_ind {S} (P : nat -> S -> Prop) lo hi body s :
  (lo <= hi)%nat -> P lo s ->
  (forall i s, (lo <= i < hi)%nat -> P i s -> P (Datatypes.S i) (body i s)) ->
  P hi (for_up lo hi body s).
Proof.
  intros Hle HP Hstep. remember (hi - lo)%nat as n eqn:Hn. revert lo s Hle HP Hstep Hn.
  induction n as [|n IH]; intros lo s Hle HP Hstep Hn.
  - rewrite for_up_done by lia. by replace hi with lo by lia.
  - rewrite for_up_step by lia. apply IH; [lia|apply Hstep; [lia|done]| |lia].
    intros i t Hi. apply Hstep. lia.
Qed.

Lemma for_up_last {S} lo hi (body : nat -> S -> S) s :
  (lo <= hi)%nat -> for_up lo (Datatypes.S hi) body s = body hi (for_up lo hi body s).
Proof.
  intros H. unfold for_up. replace (Datatypes.S hi - lo)%nat with ((hi - lo) + 1)%nat by lia.
  rewrite seq_app, foldl_app. cbn. by replace (lo + (hi - lo))%nat with hi by lia.
Qed.

Lemma for_up_ext {S} lo hi (f g : nat -> S -> S) s :
  (forall i s, (lo <= i < hi)%nat -> f i s = g i s) -> for_up lo hi f s = for_up lo hi g s.
Proof.
  intros Hfg. destruct (le_lt_dec lo hi) as [Hle|?]; [|by rewrite !for_up_done by lia].
  cut (forall k, (lo <= k <= hi)%nat -> for_up lo k f s = for_up lo k g s); [intros H; apply H; lia|].
  intros k Hk. remember (k - lo)%nat as n eqn:Hn. revert k Hk Hn.
  induction n as [|n IH]; intros k Hk Hn; [by rewrite !for_up_done by lia|].
  destruct k as [|k]; [lia|]. rewrite !for_up_last by lia. rewrite IH by lia. apply Hfg. lia.
Qed.

Lemma for_upM_step {S} lo hi (body : nat -> S -> res S) s :
  (lo < hi)%nat -> for_upM lo hi body s = (s' ← body lo s; for_upM (Datatypes.S lo) hi body s').
Proof.
  intros H. unfold for_upM. replace (hi - lo)%nat with (Datatypes.S (hi - Datatypes.S lo)) by lia.
  reflexivity.
Qed.

Lemma for_upM_done {S} lo hi (body : nat -> S -> res S) s :
  (hi <= lo)%nat -> for_upM lo hi body s = Ok s.
Proof. intros H. unfold for_upM. replace (hi - lo)%nat with O by lia. reflexivity. Qed.

Lemma for_downM_step {S} lo hi (body : nat -> S -> res S) s :
  (lo < hi)%nat -> for_downM lo hi body s = (s' ← for_downM (Datatypes.S lo) hi body s; body lo s').
Proof.
  intros H. unfold for_downM. replace (hi - lo)%nat with (Datatypes.S (hi - Datatypes.S lo)) by lia.
  reflexivity.
Qed.

Lemma for_downM_done {S} lo hi (body : nat -> S -> res S) s :
  (hi <= lo)%nat -> for_downM lo hi body s = Ok s.
Proof. intros H. unfold for_downM. replace (hi - lo)%nat with O by lia. reflexivity. Qed.

Lemma for_upM_ind {S} (P : nat -> S -> Prop) lo hi body s :
  (lo <= hi)%nat -> P lo s ->
  (forall i s, (lo <= i < hi)%nat -> P i s ->
     exists s', body i s = Ok s' /\ P (Datatypes.S i) s') ->
  exists s', for_upM lo hi body s = Ok s' /\ P hi s'.
Proof.
  intros Hle HP Hstep. remember (hi - lo)%nat as n eqn:Hn. revert lo s Hle HP Hstep Hn.
  induction n as [|n IH]; intros lo s Hle HP Hstep Hn.
  - rewrite for_upM_done by lia. exists s. by replace hi with lo by lia.
  - rewrite for_upM_step by lia. destruct (Hstep lo s) as (s1 & -> & HP1); [lia|done|].
    rewrite res_bind_Ok. apply IH; [lia|done| |lia]. intros i t Hi. apply Hstep. lia.
Qed.

Lemma for_down_ind {S} (P : nat -> S -> Prop) lo hi body s :
  (lo <= hi)%nat -> P hi s ->
  (forall i s, (lo <= i < hi)%nat -> P (Datatypes.S i) s -> P i (body i s)) ->
  P lo (for_down lo hi body s).
Proof.
  intros Hle HP Hstep. remember (hi - lo)%nat as n eqn:Hn. revert lo Hle Hstep Hn.
  induction n as [|n IH]; intros lo Hle Hstep Hn.
  - rewrite for_down_done by lia. by replace lo with hi by lia.
  - rewrite for_down_step by lia. apply Hstep; [lia|]. apply IH; [lia| |lia]. intros i t Hi. apply Hstep. lia.
Qed.

Lemma for_downM_ind {S} (P : nat -> S -> Prop) lo hi body s :
  (lo <= hi)%nat -> P hi s ->
  (forall i s, (lo <= i < hi)%nat -> P (Datatypes.S i) s -> exists s', body i s = Ok s' /\ P i s') ->
  exists s', for_downM lo hi body s = Ok s' /\ P lo s'.
Proof.
  intros Hle HP Hstep. remember (hi - lo)%nat as n eqn:Hn. revert lo Hle Hstep Hn.
  induction n as [|n IH]; intros lo Hle Hstep Hn.
  - rewrite for_downM_done by lia. exists s. by replace lo with hi by lia.
  - rewrite for_downM_step by lia. destruct (IH (Datatypes.S lo)) as (s1 & -> & HP1); [lia| |lia|].
    { intros i t Hi. apply Hstep. lia. }
    rewrite res_bind_Ok. apply Hstep; [lia|done].
Qed.

Lemma for_down_const {S} lo hi (body : nat -> S -> S) s :
  (forall i, (lo <= i < hi)%nat -> body i s = s) -> for_down lo hi body s = s.
Proof.
  intros Hb. remember (hi - lo)%nat as n eqn:Hn. revert lo Hb Hn.
  induction n as [|n IH]; intros lo Hb Hn; [by apply for_down_done; lia|].
  rewrite for_down_step, IH by (try lia; intros; apply Hb; lia). apply Hb. lia.
Qed.

Lemma for_downM_const {S} lo hi (body : nat -> S -> res S) s :
  (forall i, (lo <= i < hi)%nat -> body i s = Ok s) -> for_downM lo hi body s = Ok s.
Proof.
  intros Hb. remember (hi - lo)%nat as n eqn:Hn. revert lo Hb Hn.
  induction n as [|n IH]; intros lo Hb Hn; [by apply for_downM_done; lia|].
  rewrite for_downM_step, IH by (try lia; intros; apply Hb; lia). apply Hb. lia.
Qed.

Lemma for_upM_const {S} lo hi (body : nat -> S -> res S) s :
  (forall i, (lo <= i < hi)%nat -> body i s = Ok s) -> for_upM lo hi body s = Ok s.
Proof.
  intros Hb. destruct (le_lt_dec lo hi) as [Hle|Hlt]; [|by apply for_upM_done; lia].
  destruct (for_upM_ind (fun _ s' => s' = s) lo hi body s Hle eq_refl) as (s' & -> & ->); [|done].
  intros i s' Hi ->. exists s. auto.
Qed.

Lemma for_upM_split {S} lo mid hi (body : nat -> S -> res S) s :
  (lo <= mid <= hi)%nat ->
  for_upM lo hi body s = (s' ← for_upM lo mid body s; for_upM mid hi body s').
Proof.
  intros Hm. remember (mid - lo)%nat as n eqn:Hn. revert lo s Hm Hn.
  induction n as [|n IH]; intros lo s Hm Hn.
  - replace lo with mid by lia. by rewrite (for_upM_done mid mid) by lia.
  - rewrite (for_upM_step lo hi), (for_upM_step lo mid) by lia.
    destruct (body lo s) as [s1| |]; [|done|done]. rewrite !res_bind_Ok. apply IH; lia.
Qed.

Lemma for_upM_ext {S} lo hi (f g : nat -> S -> res S) s :
  (forall i s, (lo <= i < hi)%nat -> f i s = g i s) -> for_upM lo hi f s = for_upM lo hi g s.
Proof.
  intros Hfg. remember (hi - lo)%nat as n eqn:Hn. revert lo s Hfg Hn.
  induction n as [|n IH]; intros lo s Hfg Hn; [by rewrite !for_upM_done by lia|].
  rewrite !for_upM_step, Hfg by lia. destruct (g lo s) as [s1| |]; [|done|done].
  rewrite !res_bind_Ok. apply IH; [|lia]. intros i t Hi. apply Hfg. lia.
Qed.

(** A loop that acts on the one index [t s] its state designates. *)
Lemma for_up_once {S} n (t : S -> Z) (f : nat -> S -> S) s :
  (forall i s, t (f i s) = t s) ->
  for_up 0 n (fun i s => if Z.of_nat i =? t s then f i s else s) s
  = if (0 <=? t s) && (t s <? Z.of_nat n) then f (Z.to_nat (t s)) s else s.
Proof.
  intros Ht.
  pose proof (for_up_ind
    (fun i s' => s' = if (0 <=? t s) && (t s <? Z.of_nat i) then f (Z.to_nat (t s)) s else s)
    0 n (fun i s => if Z.of_nat i =? t s then f i s else s) s) as H.
  apply H; clear H; [lia| |].
  - destruct (Z.leb_spec 0 (t s)), (Z.ltb_spec (t s) (Z.of_nat 0)); try done. lia.
  - intros i s' Hi ->.
    destruct (Z.leb_spec 0 (t s)), (Z.ltb_spec (t s) (Z.of_nat i)),
      (Z.ltb_spec (t s) (Z.of_nat (Datatypes.S i))); cbn -[Z.of_nat]; rewrite ?Ht;
      destruct (Z.eqb_spec (Z.of_nat i) (t s)); try done; try lia.
    by replace (Z.to_nat (t s)) with i by lia.
Qed.

(** A loop that reads an array in order is a fold over it. *)
Lemma for_up_foldl {S A} `{Inhabited A} (l : list A) (f : A -> S -> S) s :
  for_up 0 (length l) (fun i s => f (l !!! i) s) s = foldl (fun s a => f a s) s l.
Proof.
  cut (forall n, (n <= length l)%nat ->
    for_up 0 n (fun i s => f (l !!! i) s) s = foldl (fun s a => f a s) s (take n l)).
  { intros Hn. by rewrite Hn, firstn_all by lia. }
  induction n as [|n IH]; intros Hn; [by rewrite for_up_done|].
  rewrite for_up_last, IH by lia.
  destruct (lookup_lt_is_Some_2 l n) as [a Ha]; [lia|].
  by rewrite (list_lookup_total_correct _ _ _ Ha), (take_S_r _ _ _ Ha), foldl_app.
Qed.

(** Filling an array: when each step stores what [ws] has next, the array
    ends as [ws] followed by what was there. *)
Lemma for_up_fill {A} `{Inhabited A} lo (g : nat -> list A -> A) (l ws : list A) :
  (lo <= length ws <= length l)%nat -> take lo l = take lo ws ->
  (forall i l', (lo <= i < length ws)%nat -> length l' = length l ->
     take i l' = take i ws -> g i l' = ws !!! i) ->
  for_up lo (length ws) (fun i l => <[i := g i l]> l) l = ws ++ drop (length ws) l.
Proof.
  intros Hlen Hpre Hg. set (n := length ws) in *.
  destruct (for_up_ind (fun i l' => length l' = length l /\ take i l' = take i ws /\ drop n l' = drop n l)
    lo n (fun i l => <[i := g i l]> l) l) as (Hl & Ht & Hd); [lia|done| |].
  - intros i l' Hi (Hl & Ht & Hd). rewrite length_insert. split; [done|]. split.
    + rewrite (take_S_r _ _ (g i l')) by (apply list_lookup_insert_eq; lia).
      rewrite take_insert_ge by lia. rewrite Ht, Hg by (done || lia).
      symmetry. apply take_S_r. apply list_lookup_lookup_total_lt. unfold n in Hi. lia.
    + by rewrite drop_insert_lt by lia.
  - rewrite <- (take_drop n (for_up _ _ _ _)), Ht, Hd. f_equal. unfold n. by rewrite firstn_all.
Qed.

Lemma combine_lookup {A B} (l1 : list A) (l2 : list B) i x y :
  l1 !! i = Some x -> l2 !! i = Some y -> combine l1 l2 !! i = Some (x, y).
Proof.
  revert i l2. induction l1 as [|a l1 IH]; intros i l2 Hx Hy; [done|].
  destruct l2 as [|b l2]; [done|]. destruct i as [|i]; cbn in *; [congruence|]. by apply IH.
Qed.

(** [for (i = lo; i < hi; i = next(i)) body]; the fuel is enough when
    [next] grows, since then at most [hi - lo] rounds are left. *)
Fixpoint for_next_n {S} (fuel i hi : nat) (next : nat -> nat) (body : nat -> S -> S) (s : S) : S :=
  match fuel with
  | O => s
  | Datatypes.S fuel =>
      if (i <? hi)%nat then for_next_n fuel (next i) hi next body (body i s) else s
  end.

Definition for_next {S} (lo hi : nat) (next : nat -> nat) (body : nat -> S -> S) (s : S) : S :=
  for_next_n (hi - lo) lo hi next body s.

Lemma for_next_fuel {S} fuel i hi next (body : nat -> S -> S) s :
  (forall k, (i <= k < hi)%nat -> (k < next k)%nat) -> (hi - i <= fuel)%nat ->
  for_next_n fuel i hi next body s = for_next i hi next body s.
Proof.
  revert i s. induction fuel as [fuel IH] using lt_wf_ind. intros i s Hnext Hf. unfold for_next.
  destruct (decide (hi <= i)%nat).
  - replace (hi - i)%nat with O by lia. destruct fuel as [|fuel]; [done|]. cbn [for_next_n].
    destruct (Nat.ltb_spec i hi); [lia|done].
  - destruct fuel as [|fuel]; [lia|]. destruct (hi - i)%nat as [|g] eqn:Hg; [lia|]. cbn [for_next_n].
    destruct (Nat.ltb_spec i hi); [|done]. pose proof (Hnext i ltac:(lia)).
    rewrite (IH fuel), (IH g) by (lia || (intros; apply Hnext; lia)). done.
Qed.

Lemma for_next_step {S} lo hi next (body : nat -> S -> S) s :
  (forall k, (lo <= k < hi)%nat -> (k < next k)%nat) -> (lo < hi)%nat ->
  for_next lo hi next body s = for_next (next lo) hi next body (body lo s).
Proof.
  intros Hnext Hlt. unfold for_next at 1. destruct (hi - lo)%nat as [|f] eqn:Hf; [lia|]. cbn [for_next_n].
  destruct (Nat.ltb_spec lo hi); [|lia]. pose proof (Hnext lo ltac:(lia)).
  apply for_next_fuel; [|lia]. intros k Hk. apply Hnext. lia.
Qed.

Lemma for_next_done {S} lo hi next (body : nat -> S -> S) s : (hi <= lo)%nat -> for_next lo hi next body s = s.
Proof. intros H. unfold for_next. by replace (hi - lo)%nat with O by lia. Qed.

Lemma for_next_ind {S} (P : nat -> S -> Prop) lo hi next body s :
  (forall k, (lo <= k < hi)%nat -> (k < next k)%nat) -> P lo s ->
  (forall i s, (lo <= i < hi)%nat -> P i s -> P (next i) (body i s)) ->
  exists i, (hi <= i)%nat /\ P i (for_next lo hi next body s).
Proof.
  intros Hnext HP Hstep. remember (hi - lo)%nat as n eqn:Hn. revert lo s Hnext HP Hstep Hn.
  induction n as [n IH] using lt_wf_ind. intros lo s Hnext HP Hstep Hn.
  destruct (decide (hi <= lo)%nat).
  - exists lo. rewrite for_next_done by done. done.
  - rewrite for_next_step by (done || lia). pose proof (Hnext lo ltac:(lia)).
    apply (IH (hi - next lo)%nat); [lia| | | |done].
    + intros k Hk. apply Hnext. lia.
    + apply Hstep; [lia|done].
    + intros i t Hi. apply Hstep. lia.
Qed.

(** A loop that touches one of two objects. *)
Lemma for_next_pair_r {S T} lo hi next (f : nat -> S -> T -> S * T) (g : nat -> T -> T) s t :
  (forall i t, f i s t = (s, g i t)) ->
  for_next lo hi next (fun i '(s, t) => f i s t) (s, t) = (s, for_next lo hi next g t).
Proof.
  intros Hf. unfold for_next. generalize (hi - lo)%nat. intros fuel. revert lo t.
  induction fuel as [|fuel IH]; intros lo t; [done|]. cbn [for_next_n].
  destruct (lo <? hi)%nat; [|done]. rewrite Hf. apply IH.
Qed.

Lemma for_next_pair_l {S T} lo hi next (f : nat -> S -> T -> S * T) (g : nat -> S -> S) s t :
  (forall i s, f i s t = (g i s, t)) ->
  for_next lo hi next (fun i '(s, t) => f i s t) (s, t) = (for_next lo hi next g s, t).
Proof.
  intros Hf. unfold for_next. generalize (hi - lo)%nat. intros fuel. revert lo s.
  induction fuel as [|fuel IH]; intros lo s; [done|]. cbn [for_next_n].
  destruct (lo <? hi)%nat; [|done]. rewrite Hf. apply IH.
Qed.

(** Two loops in step. *)
Lemma for_next_rel {S T} (P : nat -> S -> T -> Prop) lo hi next (f : nat -> S -> S) (g : nat -> T -> T) s t :
  (forall k, (lo <= k < hi)%nat -> (k < next k)%nat) -> P lo s t ->
  (forall i s t, (lo <= i < hi)%nat -> P i s t -> P (next i) (f i s) (g i t)) ->
  exists i, (hi <= i)%nat /\ P i (for_next lo hi next f s) (for_next lo hi next g t).
Proof.
  intros Hnext HP Hstep. remember (hi - lo)%nat as n eqn:Hn. revert lo s t HP Hstep Hnext Hn.
  induction n as [n IH] using lt_wf_ind. intros lo s t HP Hstep Hnext Hn.
  destruct (decide (hi <= lo)%nat); [exists lo; by rewrite !for_next_done by done|].
  rewrite (for_next_step lo hi next f), (for_next_step lo hi next g) by (done || lia). pose proof (Hnext lo ltac:(lia)).
  apply (IH (hi - next lo)%nat ltac:(lia) (next lo) (f lo s) (g lo t)); [| | |done].
  - apply Hstep; [lia|done].
  - intros i s' t' Hi. apply Hstep. lia.
  - intros k Hk. apply Hnext. lia.
Qed.

(** A measured loop: the invariant holds, every iteration stays within it
    and decreases the measure, so fuel above the measure suffices. *)
Lemma loop_ind {S R} (I : S -> Prop) (Q : R -> Prop) (mu : S -> nat) (step : S -> res (S + R)) :
  (forall s, I s ->
     (exists s', step s = Ok (inl s') /\ I s' /\ (mu s' < mu s)%nat) \/
     (exists r, step s = Ok (inr r) /\ Q r)) ->
  forall fuel s, I s -> (mu s < fuel)%nat -> exists r, loop fuel step s = Ok r /\ Q r.
Proof.
  intros Hstep. induction fuel as [|fuel IH]; intros s HI Hmu; [lia|].
  cbn. destruct (Hstep s HI) as [(s' & -> & HI' & Hlt)|(r & -> & HQ)]; rewrite res_bind_Ok.
  - apply IH; [done|lia].
  - eauto.
Qed.

(** ** Integer lemmas *)

Lemma wrapu_small w z : in_u w z -> wrapu w z = z.
Proof. unfold in_u, wrapu. intros H. apply Z.mod_small. lia. Qed.

Lemma wrapu_range w z : 0 <= w -> in_u w (wrapu w z).
Proof. unfold in_u, wrapu. intros H. apply Z.mod_pos_bound. by apply Z.pow_pos_nonneg. Qed.

Lemma wraps_small w z : 0 < w -> in_s w z -> wraps w z = z.
Proof.
  unfold in_s, wraps. intros Hw H.
  assert (2 ^ w = 2 * 2 ^ (w - 1)) as Hp.
  { rewrite <- Z.pow_succ_r by lia. f_equal. lia. }
  rewrite Z.mod_small by lia. lia.
Qed.

Lemma wraps_range w z : 0 < w -> in_s w (wraps w z).
Proof.
  unfold in_s, wraps. intros Hw.
  assert (2 ^ w = 2 * 2 ^ (w - 1)) as Hp.
  { rewrite <- Z.pow_succ_r by lia. f_equal. lia. }
  pose proof (Z.mod_pos_bound (z + 2 ^ (w - 1)) (2 ^ w)) as Hb.
  assert (0 < 2 ^ (w - 1)) by (apply Z.pow_pos_nonneg; lia). lia.
Qed.

Lemma wrapu_mod_l w a b : wrapu w (wrapu w a + b) = wrapu w (a + b).
Proof. unfold wrapu. apply Zplus_mod_idemp_l. Qed.

Lemma wrapu_mod_r w a b : wrapu w (a + wrapu w b) = wrapu w (a + b).
Proof. unfold wrapu. apply Zplus_mod_idemp_r. Qed.

Lemma wraps_mod w z : 0 < w -> (wraps w z) mod 2 ^ w = z mod 2 ^ w.
Proof.
  intros Hw. unfold wraps. rewrite Zminus_mod_idemp_l. f_equal. lia.
Qed.

Lemma wraps_eqm w a b : 0 < w -> a mod 2 ^ w = b mod 2 ^ w -> wraps w a = wraps w b.
Proof.
  intros Hw H. unfold wraps. rewrite <- (Zplus_mod_idemp_l a), <- (Zplus_mod_idemp_l b), H.
  reflexivity.
Qed.

#[export] Hint Resolve wrapu_range wraps_range : core.

(** Placing [b] below the bits of [a]. *)
Lemma lor_shiftl_add a b n : 0 <= n -> 0 <= b < 2 ^ n -> Z.lor (Z.shiftl a n) b = a * 2 ^ n + b.
Proof.
  intros Hn Hb. assert (Z.land (Z.shiftl a n) b = 0) as Hland.
  { apply Z.bits_inj'. intros i Hi. rewrite Z.land_spec, Z.bits_0, Z.shiftl_spec by done.
    destruct (Z.ltb_spec i n).
    + by rewrite Z.testbit_neg_r by lia.
    + destruct (Z.eq_dec b 0) as [->|]; [by rewrite Z.bits_0, andb_false_r|].
      rewrite (Z.bits_above_log2 b), andb_false_r; [done|lia|]. apply Z.log2_lt_pow2; [lia|].
      eapply Z.lt_le_trans; [apply Hb|]. by apply Z.pow_le_mono_r. }
  by rewrite <- Z.lxor_lor, <- Z.add_nocarry_lxor, Z.shiftl_mul_pow2.
Qed.

(** ** Finite sums *)

(** [zsum n f] is the sum of [f 0], ..., [f (n - 1)]. *)
Fixpoint zsum (n : nat) (f : nat -> Z) : Z :=
  match n with O => 0 | Datatypes.S n => zsum n f + f n end.

Lemma zsum_ext n f g : (forall i, (i < n)%nat -> f i = g i) -> zsum n f = zsum n g.
Proof.
  induction n as [|n IH]; intros Hfg; cbn; [done|]. rewrite IH, Hfg; auto.
Qed.

Lemma zsum_add n f g : zsum n (fun i => f i + g i) = zsum n f + zsum n g.
Proof. induction n as [|n IH]; cbn; [done|]. rewrite IH. lia. Qed.

Lemma zsum_mul_l n f c : zsum n (fun i => c * f i) = c * zsum n f.
Proof. induction n as [|n IH]; cbn; [lia|]. rewrite IH. lia. Qed.

Lemma zsum_const n c : zsum n (fun _ => c) = Z.of_nat n * c.
Proof. induction n as [|n IH]; [done|]. cbn [zsum]. rewrite IH. lia. Qed.

Lemma zsum_le n f g : (forall i, (i < n)%nat -> f i <= g i) -> zsum n f <= zsum n g.
Proof.
  induction n as [|n IH]; intros Hfg; cbn; [lia|].
  assert (zsum n f <= zsum n g) by (apply IH; auto). specialize (Hfg n (Nat.lt_succ_diag_r n)). lia.
Qed.

Lemma zsum_nonneg n f : (forall i, (i < n)%nat -> 0 <= f i) -> 0 <= zsum n f.
Proof.
  intros Hf. pose proof (zsum_le n (fun _ => 0) f Hf) as H. rewrite zsum_const in H. lia.
Qed.

Lemma zsum_split n m f : zsum (n + m) f = zsum n f + zsum m (fun i => f (n + i)%nat).
Proof.
  induction m as [|m IH]; [by rewrite Nat.add_0_r, Z.add_0_r|].
  rewrite Nat.add_succ_r. cbn. rewrite IH. lia.
Qed.

(** A loop that adds into an accumulator. *)
Lemma for_up_zsum n f s : for_up 0 n (fun i s => s + f i) s = s + zsum n f.
Proof.
  induction n as [|n IH]; [rewrite for_up_done by lia; cbn; lia|].
  rewrite for_up_last, IH by lia. cbn. lia.
Qed.

(** The same in an object of machine type. *)
Lemma for_up_usum w n f s : 0 <= w -> in_u w s -> for_up 0 n (fun i s => wrapu w (s + f i)) s = wrapu w (s + zsum n f).
Proof.
  intros Hw Hs. induction n as [|n IH]; [rewrite for_up_done by lia; cbn; rewrite Z.add_0_r; by rewrite wrapu_small|].
  rewrite for_up_last, IH by lia. rewrite wrapu_mod_l. cbn. f_equal. lia.
Qed.

Lemma wraps_mod_l w a b : 0 < w -> wraps w (wraps w a + b) = wraps w (a + b).
Proof.
  intros Hw. apply wraps_eqm; [done|]. by rewrite <- Zplus_mod_idemp_l, wraps_mod, Zplus_mod_idemp_l.
Qed.

Lemma wraps_mod_r w a b : 0 < w -> wraps w (a + wraps w b) = wraps w (a + b).
Proof. intros Hw. rewrite Z.add_comm, wraps_mod_l by done. f_equal. lia. Qed.

Lemma wraps_wrapu w z : 0 < w -> wraps w (wrapu w z) = wraps w z.
Proof. intros Hw. apply wraps_eqm; [done|]. unfold wrapu. by rewrite Z.mod_mod by (apply Z.pow_nonzero; lia). Qed.

Lemma for_up_ssum w n f s : 0 < w -> in_s w s -> for_up 0 n (fun i s => wraps w (s + f i)) s = wraps w (s + zsum n f).
Proof.
  intros Hw Hs. induction n as [|n IH]; [rewrite for_up_done by lia; cbn; rewrite Z.add_0_r; by rewrite wraps_small|].
  rewrite for_up_last, IH by lia. rewrite wraps_mod_l by done. cbn. f_equal. lia.
Qed.

(** A sum over an array cut into [m] pieces of [n]. *)
Lemma zsum_grid m n f : zsum m (fun i => zsum n (fun j => f (i * n + j)%nat)) = zsum (m * n) f.
Proof.
  induction m as [|m IH]; [done|]. cbn [zsum Nat.mul]. rewrite IH, (Nat.add_comm n), zsum_split. done.
Qed.

Lemma zsum_abs_le n f b : (forall i, (i < n)%nat -> - b <= f i <= b) -> - (Z.of_nat n * b) <= zsum n f <= Z.of_nat n * b.
Proof.
  induction n as [|n IH]; intros Hf; cbn [zsum]; [lia|]. specialize (IH ltac:(auto)). specialize (Hf n ltac:(lia)). lia.
Qed.

(** ** Loops over arrays *)

(** A loop that replaces elements by a function of each. *)
Lemma for_up_pointwise {A} `{Inhabited A} n (f : nat -> A -> A) (l : list A) :
  for_up 0 n (fun j l => <[j := f j (l !!! j)]> l) l = imap (fun j x => if (j <? n)%nat then f j x else x) l.
Proof.
  destruct (for_up_ind (fun j l' => length l' = length l /\
      forall k, l' !! k = if (k <? j)%nat then f k <$> l !! k else l !! k)
    0 n (fun j l => <[j := f j (l !!! j)]> l) l) as [Hl Hk]; [lia|by split| |].
  - intros j l' Hj [Hl Hk]. split; [by rewrite length_insert|]. intros k.
    destruct (decide (j < length l)%nat) as [Hin|Hout].
    2:{ rewrite list_insert_ge by lia. rewrite Hk.
        destruct (Nat.ltb_spec k j), (Nat.ltb_spec k (S j)); try (done || lia).
        by rewrite (lookup_ge_None_2 l k) by lia. }
    destruct (lookup_lt_is_Some_2 l j) as [x Hx]; [lia|].
    assert (l' !! j = Some x) as Hx' by (rewrite Hk, Nat.ltb_irrefl; done).
    rewrite (list_lookup_total_correct _ _ _ Hx').
    destruct (decide (j = k)) as [<-|Hne].
    + rewrite list_lookup_insert_eq by lia. rewrite Hx. by destruct (Nat.ltb_spec j (S j)); [|lia].
    + rewrite list_lookup_insert_ne by done. rewrite Hk.
      destruct (Nat.ltb_spec k j), (Nat.ltb_spec k (S j)); done || lia.
  - apply list_eq. intros k. rewrite Hk, list_lookup_imap.
    destruct (k <? n)%nat, (l !! k); done.
Qed.

Lemma for_up_imap {A} n (f : nat -> nat -> A -> A) (l : list A) :
  for_up 0 n (fun i l => imap (f i) l) l = imap (fun j x => for_up 0 n (fun i x => f i j x) x) l.
Proof.
  induction n as [|n IH].
  - rewrite for_up_done by lia. apply list_eq. intros k. rewrite list_lookup_imap.
    destruct (l !! k); [|done]. cbn [fmap option_fmap option_map]. by rewrite for_up_done by lia.
  - rewrite for_up_last, IH by lia. apply list_eq. intros k. rewrite !list_lookup_imap.
    destruct (l !! k); [|done]. cbn [fmap option_fmap option_map]. by rewrite for_up_last by lia.
Qed.

Lemma imap_replicate {A B} (f : nat -> A -> B) n x : imap f (replicate n x) = (fun i => f i x) <$> seq 0 n.
Proof.
  apply list_eq. intros k. rewrite list_lookup_imap, list_lookup_fmap.
  destruct (decide (k < n)%nat).
  - rewrite lookup_replicate_2, lookup_seq_lt by done. done.
  - rewrite (lookup_ge_None_2 (replicate _ _)), (lookup_ge_None_2 (seq _ _)) by (rewrite ?length_replicate, ?length_seq; lia). done.
Qed.

Lemma list_lookup_total_imap {A B} `{Inhabited A} `{Inhabited B} (f : nat -> A -> B) l i :
  (i < length l)%nat -> imap f l !!! i = f i (l !!! i).
Proof.
  intros Hi. destruct (lookup_lt_is_Some_2 l i Hi) as [x Hx].
  rewrite (list_lookup_total_correct l i x Hx). apply list_lookup_total_correct. by rewrite list_lookup_imap, Hx.
Qed.

(** Two-dimensional arrays: [m[i][j] = f(m[i][j])]. *)
Definition upd2 {A} `{Inhabited A} (m : list (list A)) (i j : nat) (f : A -> A) : list (list A) :=
  <[i := <[j := f ((m !!! i) !!! j)]> (m !!! i)]> m.

Definition grid {A} (n k : nat) (m : list (list A)) : Prop := length m = n /\ Forall (fun r => length r = k) m.

Lemma grid_row {A} n k (m : list (list A)) i : grid n k m -> (i < n)%nat -> length (m !!! i) = k.
Proof.
  intros [Hm Hr] Hi. destruct (lookup_lt_is_Some_2 m i) as [r Hx]; [lia|].
  rewrite (list_lookup_total_correct _ _ _ Hx). exact (Forall_lookup_1 _ _ _ _ Hr Hx).
Qed.

Lemma upd2_grid {A} `{Inhabited A} n k (m : list (list A)) i j f : grid n k m -> (i < n)%nat -> grid n k (upd2 m i j f).
Proof.
  intros Hg Hi. pose proof (grid_row _ _ _ _ Hg Hi) as Hrow. destruct Hg as [Hm Hr]. unfold upd2.
  split; [by rewrite length_insert|]. apply Forall_insert; [done|]. by rewrite length_insert.
Qed.

Lemma upd2_lookup {A} `{Inhabited A} n k (m : list (list A)) i j f i' j' :
  grid n k m -> (i < n)%nat -> (j < k)%nat ->
  (upd2 m i j f !!! i') !!! j' = if decide (i' = i /\ j' = j) then f ((m !!! i) !!! j) else (m !!! i') !!! j'.
Proof.
  intros Hg Hi Hj. pose proof (grid_row _ _ _ _ Hg Hi) as Hrow. destruct Hg as [Hm _]. unfold upd2.
  destruct (decide (i' = i)) as [->|Hne].
  - rewrite list_lookup_total_insert_eq by lia. destruct (decide (j' = j)) as [->|Hne].
    + rewrite list_lookup_total_insert_eq by lia. by rewrite decide_True.
    + rewrite list_lookup_total_insert_ne by done. by rewrite decide_False by tauto.
  - rewrite list_lookup_total_insert_ne by done. by rewrite decide_False by tauto.
Qed.

Lemma for_up_row {A} `{Inhabited A} n i (f : nat -> A -> A) (m : list (list A)) :
  for_up 0 n (fun j m => upd2 m i j (f j)) m
  = <[i := imap (fun j x => if (j <? n)%nat then f j x else x) (m !!! i)]> m.
Proof.
  rewrite <- (for_up_pointwise n f (m !!! i)). destruct (decide (i < length m)%nat) as [Hi|Hi].
  - induction n as [|n IH].
    + rewrite !for_up_done by lia. destruct (lookup_lt_is_Some_2 m i Hi) as [r Hr].
      rewrite (list_lookup_total_correct _ _ _ Hr). by rewrite list_insert_id.
    + rewrite !for_up_last by lia. rewrite IH. unfold upd2.
      rewrite list_lookup_total_insert_eq by done. by rewrite list_insert_insert_eq.
  - rewrite list_insert_ge by lia. induction n as [|n IH]; [by rewrite for_up_done|].
    rewrite for_up_last, IH by lia. unfold upd2. by rewrite list_insert_ge by lia.
Qed.

(** A loop over all elements of a two-dimensional array. *)
Lemma for_up_grid {A} `{Inhabited A} n k (f : nat -> nat -> A -> A) (m : list (list A)) :
  length m = n -> Forall (fun r => length r = k) m ->
  for_up 0 n (fun i m => for_up 0 k (fun j m => upd2 m i j (f i j)) m) m = imap (fun i r => imap (f i) r) m.
Proof.
  intros Hm Hr.
  rewrite (for_up_ext _ _ _ (fun i m => <[i := imap (fun j x => if (j <? k)%nat then f i j x else x) (m !!! i)]> m))
    by (intros i s _; apply for_up_row).
  rewrite (for_up_pointwise n (fun i r => imap (fun j x => if (j <? k)%nat then f i j x else x) r)).
  apply list_eq. intros i. rewrite !list_lookup_imap.
  destruct (m !! i) as [r|] eqn:Hi; [|done]. cbn [fmap option_fmap option_map]. f_equal.
  pose proof (lookup_lt_Some _ _ _ Hi). destruct (Nat.ltb_spec i n); [|lia].
  pose proof (Forall_lookup_1 _ _ _ _ Hr Hi) as Hlr. cbv beta in Hlr.
  apply imap_ext. intros j x Hj%lookup_lt_Some.
  by destruct (Nat.ltb_spec j k); [|lia].
Qed.

(** Copying pieces of [m] elements one after the other. *)
Lemma for_up_copy {A} (out : list A) (piece : list A) j :
  for_up 0 (length piece) (fun k '(out, j) => (match piece !! k with Some x => <[j := x]> out | None => out end, S j)) (out, j)
  = (list_inserts j piece out, (j + length piece)%nat).
Proof.
  revert out j. induction piece as [|x piece IH] using rev_ind; intros out j; [cbn; by rewrite Nat.add_0_r|].
  rewrite length_app, Nat.add_1_r, for_up_last by lia.
  rewrite (for_up_ext _ _ _ (fun k '(out, j) => (match piece !! k with Some x => <[j := x]> out | None => out end, S j))).
  - rewrite IH. rewrite lookup_app_r, Nat.sub_diag by done. cbn.
    rewrite list_inserts_app_l. cbn. rewrite (Nat.add_comm (length piece)). f_equal. lia.
  - intros k [o jj] Hk. by rewrite lookup_app_l by lia.
Qed.

Lemma for_up_concat {A} `{Inhabited A} m (pieces : list (list A)) (out : list A) :
  Forall (fun p => length p = m) pieces -> length out = (length pieces * m)%nat ->
  for_up 0 (length pieces)
    (fun i s => for_up 0 m (fun k '(out, j) => (<[j := (pieces !!! i) !!! k]> out, S j)) s) (out, O)
  = (concat pieces, (length pieces * m)%nat).
Proof.
  intros Hm Hout.
  cut (forall n, (n <= length pieces)%nat ->
    for_up 0 n (fun i s => for_up 0 m (fun k '(out, j) => (<[j := (pieces !!! i) !!! k]> out, S j)) s) (out, O)
    = (list_inserts 0 (concat (take n pieces)) out, (n * m)%nat) /\ length (concat (take n pieces)) = (n * m)%nat).
  { intros H'. destruct (H' (length pieces)) as [-> Hl]; [lia|]. rewrite firstn_all in *. f_equal.
    rewrite <- (app_nil_r (concat pieces)) at 1. apply list_inserts_0_l. lia. }
  induction n as [|n IH]; intros Hn; [by rewrite for_up_done|].
  destruct (IH ltac:(lia)) as [Heq Hl]. rewrite for_up_last, Heq by lia.
  destruct (lookup_lt_is_Some_2 pieces n) as [p Hp]; [lia|].
  pose proof (Forall_lookup_1 _ _ _ _ Hm Hp) as Hlp. cbv beta in Hlp.
  rewrite (take_S_r _ _ _ Hp), concat_app. cbn [concat]. rewrite app_nil_r. split; [|rewrite length_app; lia].
  rewrite list_inserts_app_l, Hl, Nat.add_0_r.
  rewrite (list_lookup_total_correct _ _ _ Hp). rewrite <- Hlp at 1.
  rewrite (for_up_ext _ _ _ (fun k '(out, j) => (match p !! k with Some x => <[j := x]> out | None => out end, S j))).
  - rewrite for_up_copy. f_equal. lia.
  - intros k [o j] Hk. by rewrite list_lookup_lookup_total_lt by lia.
Qed.

(** The array [f 0], ..., [f (n - 1)]. *)
Definition tabulate {A} (n : nat) (f : nat -> A) : list A := f <$> seq 0 n.

Lemma tabulate_lookup {A} `{Inhabited A} n (f : nat -> A) i : (i < n)%nat -> tabulate n f !!! i = f i.
Proof.
  intros Hi. apply list_lookup_total_correct. unfold tabulate. by rewrite list_lookup_fmap, lookup_seq_lt.
Qed.

Lemma tabulate_length {A} n (f : nat -> A) : length (tabulate n f) = n.
Proof. unfold tabulate. by rewrite length_fmap, length_seq. Qed.

Lemma tabulate_ext {A} n (f g : nat -> A) : (forall i, (i < n)%nat -> f i = g i) -> tabulate n f = tabulate n g.
Proof. intros Hfg. apply list_fmap_ext. intros ? i Hi%lookup_seq. cbn in *. apply Hfg. lia. Qed.

Lemma imap_tabulate {A B} (f : nat -> A -> B) n g : imap f (tabulate n g) = tabulate n (fun i => f i (g i)).
Proof.
  apply list_eq. intros k. unfold tabulate. rewrite list_lookup_imap, !list_lookup_fmap.
  destruct (decide (k < n)%nat).
  - by rewrite lookup_seq_lt by done.
  - by rewrite (lookup_ge_None_2 (seq _ _)) by (rewrite ?length_seq; lia).
Qed.

(** An array whose elements are all overwritten. *)
Lemma imap_const {A} (g : nat -> A) (l : list A) n : length l = n -> imap (fun i _ => g i) l = tabulate n g.
Proof.
  intros <-. apply list_eq. intros k. unfold tabulate. rewrite list_lookup_imap, list_lookup_fmap.
  destruct (decide (k < length l)%nat) as [Hk|Hk].
  - destruct (lookup_lt_is_Some_2 l k Hk) as [x ->]. by rewrite lookup_seq_lt.
  - by rewrite (lookup_ge_None_2 l), (lookup_ge_None_2 (seq _ _)) by (rewrite ?length_seq; lia).
Qed.

Lemma imap_const2 {A} (g : nat -> nat -> A) (m : list (list A)) n k :
  length m = n -> Forall (fun r => length r = k) m ->
  imap (fun i r => imap (fun j _ => g i j) r) m = tabulate n (fun i => tabulate k (g i)).
Proof.
  intros Hm Hr. rewrite <- (imap_const (fun i => tabulate k (g i)) m n Hm).
  apply imap_ext. intros i r Hi. apply imap_const. by apply (Forall_lookup_1 _ _ _ _ Hr Hi).
Qed.

(** Loops over two unrelated objects. *)
Lemma for_up_pair {S T} lo hi (f : nat -> S -> S) (g : nat -> T -> T) s t :
  for_up lo hi (fun i '(s, t) => (f i s, g i t)) (s, t) = (for_up lo hi f s, for_up lo hi g t).
Proof.
  unfold for_up. generalize (seq lo (hi - lo)). intros l. revert s t.
  induction l as [|i l IH]; intros s t; cbn; [done|apply IH].
Qed.

(** ** Tactics *)

(** Range goals at fixed widths: powers of two become numbers. *)
Ltac eval_pow :=
  repeat match goal with
  | |- context [Z.pow 2 ?n] =>
      let v := eval vm_compute in (Z.pow 2 n) in
      lazymatch v with Zpos _ => change (Z.pow 2 n) with v end
  | H : context [Z.pow 2 ?n] |- _ =>
      let v := eval vm_compute in (Z.pow 2 n) in
      lazymatch v with Zpos _ => change (Z.pow 2 n) with v in H end
  end.
Ltac ranges := unfold in_u, in_s in *; eval_pow; first [lia | Z.to_euclidean_division_equations; lia].

(** Case analysis on the boolean tests of the model. *)
Ltac bool_cases :=
  repeat match goal with
  | |- context [Z.eqb ?a ?b] => destruct (Z.eqb_spec a b)
  | |- context [Z.ltb ?a ?b] => destruct (Z.ltb_spec a b)
  | |- context [Z.leb ?a ?b] => destruct (Z.leb_spec a b)
  | |- context [Nat.eqb ?a ?b] => destruct (Nat.eqb_spec a b)
  | |- context [Nat.ltb ?a ?b] => destruct (Nat.ltb_spec a b)
  | |- context [Nat.leb ?a ?b] => destruct (Nat.leb_spec a b)
  end.

(** Turn boolean comparison hypotheses into arithmetic facts. *)
Ltac bool_hyps :=
  repeat match goal with
  | H : Z.eqb _ _ = true |- _ => apply Z.eqb_eq in H
  | H : Z.eqb _ _ = false |- _ => apply Z.eqb_neq in H
  | H : Z.ltb _ _ = true |- _ => apply Z.ltb_lt in H
  | H : Z.ltb _ _ = false |- _ => apply Z.ltb_ge in H
  | H : Z.leb _ _ = true |- _ => apply Z.leb_le in H
  | H : Z.leb _ _ = false |- _ => apply Z.leb_gt in H
  | H : Nat.eqb _ _ = true |- _ => apply Nat.eqb_eq in H
  | H : Nat.eqb _ _ = false |- _ => apply Nat.eqb_neq in H
  | H : Nat.ltb _ _ = true |- _ => apply Nat.ltb_lt in H
  | H : Nat.ltb _ _ = false |- _ => apply Nat.ltb_ge in H
  | H : andb _ _ = true |- _ => apply andb_true_iff in H; destruct H
  | H : negb _ = true |- _ => apply negb_true_iff in H
  | H : negb _ = false |- _ => apply negb_false_iff in H
  end.

Lemma tabulate_S {A} n (f : nat -> A) : tabulate (S n) f = tabulate n f ++ [f n].
Proof. unfold tabulate. by rewrite seq_S, fmap_app. Qed.

Lemma fmap_tabulate {A B} (f : A -> B) n g : f <$> tabulate n g = tabulate n (fun i => f (g i)).
Proof. unfold tabulate. by rewrite <- list_fmap_compose. Qed.

(** A range of an array written in order through checked accesses, and a
    whole array. *)
Lemma for_upM_splice {A} n start (body : nat -> list A -> res (list A)) (g : nat -> A) l :
  (start + n <= length l)%nat ->
  (forall i l', (i < n)%nat -> length l' = length l -> body i l' = Ok (<[(start + i)%nat := g i]> l')) ->
  for_upM 0 n body l = Ok (take start l ++ tabulate n g ++ drop (start + n) l).
Proof.
  intros Hl Hb.
  destruct (for_upM_ind (fun i l' => length l' = length l /\ take (start + i) l' = take start l ++ tabulate i g /\
    drop (start + n) l' = drop (start + n) l) 0 n body l) as (l' & -> & Hl' & Ht & Hd); [lia| | |].
  - rewrite Nat.add_0_r, app_nil_r. done.
  - intros i l' Hi (Hl' & Ht & Hd). rewrite Hb by (done || lia). eexists. split; [reflexivity|].
    rewrite length_insert, drop_insert_lt by lia. split; [done|]. split; [|done].
    rewrite Nat.add_succ_r, (take_S_r _ _ (g i)) by (apply list_lookup_insert_eq; lia).
    rewrite take_insert_ge, Ht, <- app_assoc by lia. f_equal. by rewrite tabulate_S.
  - rewrite <- (take_drop (start + n) l'), Ht, Hd. by rewrite <- app_assoc.
Qed.

Lemma for_upM_fill {A} n (body : nat -> list A -> res (list A)) (g : nat -> A) l :
  length l = n ->
  (forall i l', (i < n)%nat -> length l' = n -> body i l' = Ok (<[i := g i]> l')) ->
  for_upM 0 n body l = Ok (tabulate n g).
Proof.
  intros Hl Hb. rewrite (for_upM_splice n 0 body g) by (rewrite ?Hl; auto). rewrite take_0, drop_ge, app_nil_r by lia. done.
Qed.

(** A loop over the indices of a square of arrays, row after row. *)
Lemma seq_grid m n : concat (tabulate m (fun i => seq (i * n) n)) = seq 0 (m * n).
Proof.
  induction m as [|m IH]; [done|]. unfold tabulate in *. rewrite seq_S, fmap_app, concat_app, IH. cbn [fmap list_fmap concat].
  rewrite app_nil_r, Nat.add_0_l. replace (S m * n)%nat with (m * n + n)%nat by lia. by rewrite seq_app.
Qed.
