(* ===== verification/BlockStore.v ===== *)
(** Hashes and the content-addressed block store.

    [hash_t], [NULL_HASH] and [hasheq] are those of
    [compiler/cstdinc/db_shared.h] and [db.h]; the primitives [hashput] and
    [hashget], which the compiler expands into constraints and the prover
    answers from its block store, are the interface [BlockStore].  The store
    that numbers its blocks is an instance of the interface.  The linked
    list of [compiler/cstdinc/list.h] is a first client. *)
From Stdlib Require Import ZArith Lia.
From stdpp Require Import base numbers list.
From S2P Require Import Prelude.

Local Open Scope Z_scope.

(** ** Hashes *)

Definition DB_HASH_NUM_BITS : Z := 1216.
Definition NUM_HASH_CHUNKS : nat := Z.to_nat (DB_HASH_NUM_BITS / 64).

(** [struct _hash { uint64_t bit[NUM_HASH_CHUNKS]; }] *)
Definition hash_t : Type := list Z.

(** The zero-initialised global [__NULL_HASH__]. *)
Definition NULL_HASH : hash_t := replicate NUM_HASH_CHUNKS 0.

Definition hasheq (a b : hash_t) : bool :=
  for_up 0 NUM_HASH_CHUNKS
    (fun i isEq => if negb (a !!! i =? b !!! i) then false else isEq) true.

Definition hash_wf (h : hash_t) : Prop := length h = NUM_HASH_CHUNKS.

Lemma hasheq_true a b :
  hasheq a b = true <-> (forall i, (i < NUM_HASH_CHUNKS)%nat -> a !!! i = b !!! i).
Proof.
  unfold hasheq.
  pose proof (for_up_ind
    (fun n isEq => isEq = true <-> (forall i, (i < n)%nat -> a !!! i = b !!! i))
    0 NUM_HASH_CHUNKS (fun i isEq => if negb (a !!! i =? b !!! i) then false else isEq) true) as H.
  apply H; clear H; [lia| |].
  - split; [lia|done].
  - intros i s Hi IH. destruct (Z.eqb_spec (a !!! i) (b !!! i)) as [Heq|Hne]; cbn.
    + rewrite IH. split; intros Hj j Hlt; [|apply Hj; lia].
      destruct (decide (j = i)) as [->|]; [done|apply Hj; lia].
    + split; [done|]. intros Hj. exfalso. apply Hne, Hj. lia.
Qed.

(** On hashes of the declared size the loop decides equality. *)
Lemma hasheq_eq a b : hash_wf a -> hash_wf b -> hasheq a b = true <-> a = b.
Proof.
  intros Ha Hb. rewrite hasheq_true. split; [|by intros ->].
  intros H. apply list_eq_same_length with NUM_HASH_CHUNKS; [done..|].
  intros i x y Hi Hx Hy. specialize (H i Hi).
  rewrite (list_lookup_total_correct _ _ _ Hx), (list_lookup_total_correct _ _ _ Hy) in H. done.
Qed.

Lemma hasheq_refl a : hasheq a a = true.
Proof. by apply hasheq_true. Qed.

Lemma hasheq_neq a b : hash_wf a -> hash_wf b -> a <> b -> hasheq a b = false.
Proof. intros Ha Hb Hne. apply not_true_is_false. by rewrite hasheq_eq. Qed.

Arguments hasheq : simpl never.
Arguments NULL_HASH : simpl never.

(** ** The store interface *)

(** [hashput(&h, &b)] returns the digest of a block and records the block;
    [hashget(&b, &h)] looks the block up, and faults when the prover has no
    block with that digest. *)
Class BlockStore (B : Type) : Type := {
  store : Type;
  hashput : B -> store -> hash_t * store;
  hashget : hash_t -> store -> res B
}.
Arguments store B {_}.

(** What the tree code relies on: a block that was put can be got back,
    putting a block does not disturb the others (no two blocks put in the
    store collide), and no block has the null digest. *)
Class BlockStoreLaws (B : Type) `{BlockStore B} : Prop := {
  hashget_put : forall (b : B) σ h σ', hashput b σ = (h, σ') -> hashget h σ' = Ok b;
  hashget_mono : forall (b b' : B) σ h h' σ',
    hashput b σ = (h, σ') -> hashget h' σ = Ok b' -> hashget h' σ' = Ok b';
  hashput_nonnull : forall (b : B) σ h σ',
    hashput b σ = (h, σ') -> hasheq h NULL_HASH = false
}.

(** ** An instance: the store that numbers its blocks

    The digest of the [n]-th block put (from 1) has [n] in its first chunk. *)

Definition index_hash (n : Z) : hash_t := n :: replicate (pred NUM_HASH_CHUNKS) 0.

Definition log_put {B} (b : B) (σ : list B) : hash_t * list B :=
  (index_hash (Z.of_nat (length σ) + 1), σ ++ [b]).

Definition log_get {B} (h : hash_t) (σ : list B) : res B := rd σ (h !!! O - 1).

#[export] Instance LogStore (B : Type) : BlockStore B := {
  store := list B;
  hashput := log_put;
  hashget := log_get
}.

Lemma rd_app_l {A} (l l' : list A) i a : rd l i = Ok a -> rd (l ++ l') i = Ok a.
Proof.
  unfold rd. destruct (0 <=? i); [|done]. destruct (l !! Z.to_nat i) eqn:E; [|done].
  intros [= ->]. by rewrite (lookup_app_l_Some _ _ _ _ E).
Qed.

#[export] Instance LogStoreLaws (B : Type) : BlockStoreLaws B.
Proof.
  split; cbn; unfold log_put, log_get.
  - intros b σ h σ' [= <- <-]. cbn. rewrite Z.add_simpl_r. apply rd_lookup.
    rewrite lookup_app_r by done. by rewrite Nat.sub_diag.
  - intros b b' σ h h' σ' [= <- <-] Hget. by apply rd_app_l.
  - intros b σ h σ' [= <- <-]. apply not_true_is_false. rewrite hasheq_true.
    intros H. specialize (H 0%nat ltac:(vm_compute; lia)).
    change (NULL_HASH !!! 0%nat) with 0 in H. cbn in H. lia.
Qed.

(** The store after a sequence of operations extends the one before it. *)
Definition store_ext {B} `{BlockStore B} (σ σ' : store B) : Prop :=
  forall h b, hashget h σ = Ok b -> hashget h σ' = Ok b.

#[export] Instance store_ext_preorder {B} `{BlockStore B} : PreOrder (@store_ext B _).
Proof. split; unfold store_ext; repeat intro; eauto. Qed.

Lemma hashput_ext {B} `{BlockStoreLaws B} (b : B) σ h σ' :
  hashput b σ = (h, σ') -> store_ext σ σ'.
Proof. intros Hput h' b' Hget. by eapply hashget_mono. Qed.

Create HintDb store.
#[export] Hint Resolve hashput_ext hashget_put hashput_nonnull : store.

(** ** Linked lists (compiler/cstdinc/list.h) *)

Module LinkedList.

Record list_t := { value : Z; next : hash_t }.

Section List.
Context `{BlockStore list_t}.

Definition prepend (v : Z) (hash_of_list : hash_t) (σ : store list_t) : hash_t * store list_t :=
  hashput {| value := v; next := hash_of_list |} σ.

(** [chain σ h vs]: starting from [h] one reads the values [vs]. *)
Fixpoint chain (σ : store list_t) (h : hash_t) (vs : list Z) : Prop :=
  match vs with
  | [] => True
  | v :: vs' => exists d, hashget h σ = Ok d /\ value d = v /\ chain σ (next d) vs'
  end.

Lemma chain_ext σ σ' h vs : store_ext σ σ' -> chain σ h vs -> chain σ' h vs.
Proof.
  intros Hext. revert h. induction vs as [|v vs IH]; intros h; cbn; [done|].
  intros (d & Hget & Hv & Hc). exists d. auto.
Qed.

Lemma prepend_chain `{!BlockStoreLaws list_t} v h vs σ h' σ' :
  prepend v h σ = (h', σ') -> chain σ h vs -> chain σ' h' (v :: vs).
Proof.
  intros Hput Hc. exists {| value := v; next := h |}. split; [eauto with store|].
  split; [done|]. eapply chain_ext; eauto with store.
Qed.

End List.
End LinkedList.
