(* ===== verification/TreeCore.v ===== *)
(** The code that [compiler/cstdinc/avl_tree.h] and
    [compiler/cstdinc/binary_tree.h] have in common: value arrays, result
    sets, root-to-node paths, search and in-order traversal.

    The two headers spell this code out twice over different node records
    and constants; here it is written once over a node interface
    ([TreeNode]) and a record of constants ([tree_config]), which
    [AvlTree.v] and [BinaryTree.v] instantiate. *)
From Stdlib Require Import ZArith Lia.
From stdpp Require Import base numbers list.
From S2P Require Import Prelude BlockStore.

Local Open Scope Z_scope.

(** ** Constants *)

Definition TREE_PATH_LEFT : Z := -1.
Definition TREE_PATH_EQUALS : Z := 0.
Definition TREE_PATH_RIGHT : Z := 1.

Record tree_config := {
  MAX_TREE_DEPTH : nat;
  MAX_TREE_RESULTS : nat;
  MAX_TREE_NODE_VALUES : nat
}.

(** The array sizes are counted by [uint8_t] fields. *)
Record config_ok (cfg : tree_config) : Prop := {
  depth_u8 : (0 < MAX_TREE_DEPTH cfg < 256)%nat;
  results_u8 : (0 < MAX_TREE_RESULTS cfg < 256)%nat;
  values_u8 : (0 < MAX_TREE_NODE_VALUES cfg < 256)%nat
}.

(** ** Nodes *)

(** What the shared code reads and writes of a [tree_node_t]. *)
Class TreeNode (V N : Type) := {
  left : N -> hash_t;
  right : N -> hash_t;
  key : N -> Z;
  num_values : N -> Z;
  values : N -> list V;
  set_num_values : Z -> N -> N;
  set_values : list V -> N -> N
}.

Class TreeNodeLaws (V N : Type) `{TreeNode V N} : Prop := {
  left_set_values : forall (vs : list V) n, left (set_values vs n) = left n;
  right_set_values : forall (vs : list V) n, right (set_values vs n) = right n;
  key_set_values : forall (vs : list V) n, key (set_values vs n) = key n;
  num_set_values : forall (vs : list V) n, num_values (set_values vs n) = num_values n;
  values_set_values : forall (vs : list V) n, values (set_values vs n) = vs;
  left_set_num : forall k n, left (set_num_values k n) = left n;
  right_set_num : forall k n, right (set_num_values k n) = right n;
  key_set_num : forall k n, key (set_num_values k n) = key n;
  num_set_num : forall k n, num_values (set_num_values k n) = k;
  values_set_num : forall k n, values (set_num_values k n) = values n
}.

Create Rewrite HintDb tree_node.
#[export] Hint Rewrite @left_set_values @right_set_values @key_set_values @num_set_values
  @values_set_values @left_set_num @right_set_num @key_set_num @num_set_num
  @values_set_num using typeclasses eauto : tree_node.

(** ** Results and paths *)

Record tree_result_set_t (V : Type) := { num_results : Z; results : list (Z * V) }.
Arguments num_results {V}.
Arguments results {V}.
Arguments Build_tree_result_set_t {V}.

Record tree_path_t (N : Type) := { depth : Z; nodes : list N; branches : list Z }.
Arguments depth {N}.
Arguments nodes {N}.
Arguments branches {N}.
Arguments Build_tree_path_t {N}.

Definition set_depth {N} (d : Z) (p : tree_path_t N) : tree_path_t N :=
  {| depth := d; nodes := nodes p; branches := branches p |}.
Definition set_node {N} (i : nat) (n : N) (p : tree_path_t N) : tree_path_t N :=
  {| depth := depth p; nodes := <[i := n]> (nodes p); branches := branches p |}.
Definition set_branch {N} (i : nat) (b : Z) (p : tree_path_t N) : tree_path_t N :=
  {| depth := depth p; nodes := nodes p; branches := <[i := b]> (branches p) |}.

Section Operations.
Context {V N : Type} `{TreeNode V N} `{BlockStore N}.
Context (cfg : tree_config) (_value_equals : V -> V -> bool).

(** *** Value arrays *)

Definition _copy_value (node : N) (value : V) : bool * N :=
  let '(found, success, node) :=
    for_up 0 (MAX_TREE_NODE_VALUES cfg)
      (fun i '(found, success, node) =>
         if (Z.of_nat i <? num_values node)
            && match values node !! i with Some v => _value_equals v value | None => false end
         then (true, success, node)
         else if negb found && (Z.of_nat i =? num_values node)
         then (found, true, set_values (<[i := value]> (values node)) node)
         else (found, success, node))
      (false, false, node) in
  (success, if (success : bool) then set_num_values (u8 (num_values node + 1)) node else node).

Definition _replace_value (node : N) (old_value new_value : V) : bool * N :=
  let '(inserted, replaced, success, node) :=
    for_up 0 (MAX_TREE_NODE_VALUES cfg)
      (fun i '(inserted, replaced, success, node) =>
         if (Z.of_nat i <? num_values node)
            && match values node !! i with Some v => _value_equals v old_value | None => false end
         then (inserted, true, true, set_values (<[i := new_value]> (values node)) node)
         else if negb replaced && (Z.of_nat i =? num_values node)
         then (true, replaced, true, set_values (<[i := new_value]> (values node)) node)
         else (inserted, replaced, success, node))
      (false, false, false, node) in
  (success, if (inserted : bool) then set_num_values (u8 (num_values node + 1)) node else node).

(** The loop of [tree_remove_value] over the values of a node. *)
Definition _remove_value (node : N) (value : V) : bool * N :=
  let '(removed, node) :=
    for_up 0 (MAX_TREE_NODE_VALUES cfg)
      (fun i '(removed, node) =>
         if Z.of_nat i <? num_values node then
           match values node !! i with
           | Some v =>
               if _value_equals v value then (true, node)
               else if removed && (0 <? Z.of_nat i)
               then (removed, set_values (<[(i - 1)%nat := v]> (values node)) node)
               else (removed, node)
           | None => (removed, node)
           end
         else (removed, node))
      (false, node) in
  (removed, if (removed : bool) then set_num_values (u8 (num_values node - 1)) node else node).

(** *** Result sets *)

Definition _copy_result (rs : tree_result_set_t V) (k : Z) (v : V) : tree_result_set_t V :=
  let rs :=
    for_up 0 (MAX_TREE_RESULTS cfg)
      (fun i rs =>
         if Z.of_nat i =? num_results rs
         then {| num_results := num_results rs; results := <[i := (k, v)]> (results rs) |}
         else rs) rs in
  if num_results rs <? Z.of_nat (MAX_TREE_RESULTS cfg)
  then {| num_results := u8 (num_results rs + 1); results := results rs |}
  else rs.

Definition _copy_results (rs : tree_result_set_t V) (node : N) : tree_result_set_t V :=
  for_up 0 (MAX_TREE_NODE_VALUES cfg)
    (fun i rs =>
       if Z.of_nat i <? num_values node then
         match values node !! i with
         | Some v => _copy_result rs (key node) v
         | None => rs
         end
       else rs) rs.

(** *** Paths *)

(** The macros [WITH_PATH_NODE_BEGIN] and [WITH_PATH_NODE_END]: run a body
    on the last node of the path. *)
Definition with_path_node {A} (f : N -> A -> N * A) (p : tree_path_t N) (a : A)
  : tree_path_t N * A :=
  for_up 0 (MAX_TREE_DEPTH cfg)
    (fun _wpn_i '(p, a) =>
       if Z.of_nat _wpn_i =? depth p - 1 then
         match nodes p !! _wpn_i with
         | Some node => let '(node', a') := f node a in (set_node _wpn_i node' p, a')
         | None => (p, a)
         end
       else (p, a)) (p, a).

Definition _find_path_step (σ : store N) (k : Z) (i : nat)
  (s : bool * hash_t * tree_path_t N) : res (bool * hash_t * tree_path_t N) :=
  let '(found, node_hash, path) := s in
  if negb found && negb (hasheq node_hash NULL_HASH) then
    node ← hashget node_hash σ;
    let path := set_node i node (set_depth (u8 (Z.of_nat i + 1)) path) in
    if k =? key node then Ok (true, node_hash, set_branch i TREE_PATH_EQUALS path)
    else if k <? key node then Ok (found, left node, set_branch i TREE_PATH_LEFT path)
    else Ok (found, right node, set_branch i TREE_PATH_RIGHT path)
  else Ok s.

Definition _find_path (σ : store N) (root : hash_t) (k : Z) (path : tree_path_t N)
  : res (bool * tree_path_t N) :=
  s ← for_upM 0 (MAX_TREE_DEPTH cfg) (_find_path_step σ k) (false, root, path);
  let '(found, _, path) := s in Ok (found, path).

(** The body [_find_first] and [_find_next_below] share: go to the node
    and continue on its left. *)
Definition _descend_left (σ : store N) (i : nat)
  (s : bool * hash_t * tree_path_t N) : res (bool * hash_t * tree_path_t N) :=
  let '(found, node_hash, path) := s in
  if negb (hasheq node_hash NULL_HASH) then
    node ← hashget node_hash σ;
    let path := set_node i node (set_depth (u8 (Z.of_nat i + 1)) path) in
    Ok (true, left node, set_branch i TREE_PATH_LEFT path)
  else Ok s.

Definition _find_first (σ : store N) (root : hash_t) (path : tree_path_t N)
  : res (bool * tree_path_t N) :=
  s ← for_upM 0 (MAX_TREE_DEPTH cfg) (_descend_left σ) (false, root, path);
  let '(found, _, path) := s in Ok (found, path).

Definition _find_next_below (σ : store N) (path : tree_path_t N)
  : res (bool * tree_path_t N) :=
  let old_index := depth path - 1 in
  s ← for_upM 0 (MAX_TREE_DEPTH cfg)
        (fun i s =>
           let '(found, node_hash, path) := s in
           if Z.of_nat i =? old_index then
             match nodes path !! i with
             | Some node => Ok (found, right node, set_branch i TREE_PATH_RIGHT path)
             | None => Fault
             end
           else if old_index <? Z.of_nat i then _descend_left σ i s
           else Ok s)
        (false, NULL_HASH, path);
  let '(found, _, path) := s in Ok (found, path).

Definition _find_next_above_step (i : nat) (s : bool * tree_path_t N)
  : bool * tree_path_t N :=
  let '(found, path) := s in
  if negb found && (Z.of_nat i <? depth path - 1)
     && match branches path !! i with Some b => b =? TREE_PATH_LEFT | None => false end
  then (true, set_depth (u8 (Z.of_nat i + 1)) path)
  else (found, path).

Definition _find_next_above (path : tree_path_t N) : bool * tree_path_t N :=
  for_down 0 (MAX_TREE_DEPTH cfg) _find_next_above_step (false, path).

Definition _find_next (σ : store N) (path : tree_path_t N) : res (bool * tree_path_t N) :=
  s ← _find_next_below σ path;
  let '(found, path) := s in
  if (found : bool) then Ok (found, path) else Ok (_find_next_above path).

(** *** Searches *)

Definition tree_find_eq (σ : store N) (root : hash_t) (k : Z) (rs : tree_result_set_t V)
  : res (tree_result_set_t V) :=
  let rs := {| num_results := 0; results := results rs |} in
  s ← for_upM 0 (MAX_TREE_DEPTH cfg)
        (fun i s =>
           let '(found, node_hash, rs) := s in
           if negb found && negb (hasheq node_hash NULL_HASH) then
             node ← hashget node_hash σ;
             if k =? key node then Ok (true, node_hash, _copy_results rs node)
             else if k <? key node then Ok (found, left node, rs)
             else Ok (found, right node, rs)
           else Ok s)
        (false, root, rs);
  let '(_, _, rs) := s in Ok rs.

(** Copy the last node of the path when the test accepts its key. *)
Definition copy_current (test : Z -> bool) (p : tree_path_t N) (rs : tree_result_set_t V)
  : tree_result_set_t V :=
  snd (with_path_node (fun node rs => (node, if test (key node) then _copy_results rs node else rs))
         p rs).

(** The [MAX_TREE_RESULTS] steps of the traversal with which the three
    range searches end. *)
Definition collect_next (σ : store N) (test : Z -> bool)
  (p : tree_path_t N) (rs : tree_result_set_t V) : res (tree_result_set_t V) :=
  s ← for_upM 0 (MAX_TREE_RESULTS cfg)
        (fun _ s =>
           let '(p, rs) := s in
           s' ← _find_next σ p;
           let '(found, p) := s' in
           if (found : bool) then Ok (p, copy_current test p rs) else Ok (p, rs))
        (p, rs);
  Ok (snd s).

(** The local [tree_path_t path] of the callers, with [path.depth = 0]. *)
Definition empty_path `{Inhabited N} : tree_path_t N :=
  {| depth := 0; nodes := replicate (MAX_TREE_DEPTH cfg) inhabitant;
     branches := replicate (MAX_TREE_DEPTH cfg) 0 |}.

(** The three range searches, from a result set whose count the caller has
    (AVL tree) or has not (plain tree) reset. *)
Definition find_lt_into `{Inhabited N} (σ : store N) (root : hash_t) (k : Z) (equal_to : bool)
  (rs : tree_result_set_t V) : res (tree_result_set_t V) :=
  s ← _find_first σ root empty_path;
  let '(found, path) := s in
  if (found : bool) then
    let rs := copy_current (fun _ => true) path rs in
    collect_next σ (fun nk => (nk <? k) || (equal_to && (nk =? k))) path rs
  else Ok rs.

Definition find_gt_into `{Inhabited N} (σ : store N) (root : hash_t) (k : Z) (equal_to : bool)
  (rs : tree_result_set_t V) : res (tree_result_set_t V) :=
  s ← _find_path σ root k empty_path;
  let '(found, path) := s in
  if 0 <? depth path then
    let rs := copy_current (fun nk => ((found : bool) && equal_to) || (k <? nk)) path rs in
    collect_next σ (fun _ => true) path rs
  else Ok rs.

Definition find_range_into `{Inhabited N} (σ : store N) (root : hash_t)
  (low_key : Z) (low_equal_to : bool) (high_key : Z) (high_equal_to : bool)
  (rs : tree_result_set_t V) : res (tree_result_set_t V) :=
  s ← _find_path σ root low_key empty_path;
  let '(found, path) := s in
  if 0 <? depth path then
    let rs := copy_current
                (fun nk => ((found : bool) && low_equal_to)
                           || ((low_key <? nk) && (nk <? high_key))
                           || (high_equal_to && (nk =? high_key))) path rs in
    collect_next σ (fun nk => (nk <? high_key) || (high_equal_to && (nk =? high_key))) path rs
  else Ok rs.

End Operations.
