(* ===== verification/TreeFacts.v ===== *)
(** Abstract trees, the representation of a tree in the block store, and
    the specifications of the shared tree code of [TreeCore.v]: value
    arrays, result sets, search paths and the in-order traversal. *)
From Stdlib Require Import ZArith Lia Sorted.
From stdpp Require Import base numbers list.
From S2P Require Import Prelude BlockStore TreeCore.

Local Open Scope Z_scope.

(** ** Abstract trees *)

(** A node holds a key and the list of its values. *)
Inductive tree (V : Type) : Type :=
| Leaf
| Bin (l : tree V) (k : Z) (e : list V) (r : tree V).
Arguments Leaf {V}.
Arguments Bin {V} l k e r.

Fixpoint height {V} (t : tree V) : nat :=
  match t with
  | Leaf => 0
  | Bin l _ _ r => S (Nat.max (height l) (height r))
  end.

(** The in-order listing of keys with their values. *)
Fixpoint elements {V} (t : tree V) : list (Z * list V) :=
  match t with
  | Leaf => []
  | Bin l k e r => elements l ++ (k, e) :: elements r
  end.

(** Search-tree order: keys strictly increase in the in-order listing. *)
Definition bst {V} (t : tree V) : Prop := StronglySorted Z.lt (elements t).*1.

(** The values under a key. *)
Fixpoint lookup_key {V} (k : Z) (t : tree V) : option (list V) :=
  match t with
  | Leaf => None
  | Bin l k' e r => if k =? k' then Some e else if k <? k' then lookup_key k l else lookup_key k r
  end.

(** All key/value pairs, in order of their keys. *)
Definition pairs {V} (l : list (Z * list V)) : list (Z * V) :=
  flat_map (fun ke => map (pair ke.1) ke.2) l.

(** The entries whose key passes a test. *)
Definition selected {V} (test : Z -> bool) (l : list (Z * list V)) : list (Z * list V) :=
  List.filter (fun ke => test ke.1) l.

Lemma selected_nil {V} test : selected test ([] : list (Z * list V)) = [].
Proof. reflexivity. Qed.

Lemma selected_cons {V} test ke (l : list (Z * list V)) :
  selected test (ke :: l) = if test ke.1 then ke :: selected test l else selected test l.
Proof. reflexivity. Qed.

Arguments selected : simpl never.

Lemma selected_app {V} test (l l' : list (Z * list V)) :
  selected test (l ++ l') = selected test l ++ selected test l'.
Proof. apply List.filter_app. Qed.

Lemma pairs_app {V} (l l' : list (Z * list V)) : pairs (l ++ l') = pairs l ++ pairs l'.
Proof. apply flat_map_app. Qed.

Section Facts.
Context {V N : Type} `{TreeNodeLaws V N} `{BlockStoreLaws N}.
Context (cfg : tree_config) (cfg_ok : config_ok cfg).
Context (_value_equals : V -> V -> bool).

(** What a tree variant demands of the remaining fields of a node, given
    its two subtrees (the AVL tree: its cached heights). *)
Context (node_ok : N -> tree V -> tree V -> Prop).
Context (node_ok_values : forall n vs l r, node_ok n l r -> node_ok (set_values vs n) l r).
Context (node_ok_num : forall n k l r, node_ok n l r -> node_ok (set_num_values k n) l r).

Definition entry (n : N) : list V := take (Z.to_nat (num_values n)) (values n).

Definition values_wf (n : N) : Prop :=
  length (values n) = MAX_TREE_NODE_VALUES cfg
  /\ 0 <= num_values n <= Z.of_nat (MAX_TREE_NODE_VALUES cfg).

(** [rep σ h t]: the block with digest [h] is the root of a stored copy of [t]. *)
Fixpoint rep (σ : store N) (h : hash_t) (t : tree V) : Prop :=
  match t with
  | Leaf => hasheq h NULL_HASH = true
  | Bin l k e r =>
      hasheq h NULL_HASH = false /\
      exists n, hashget h σ = Ok n /\ key n = k /\ values_wf n /\ entry n = e /\
        node_ok n l r /\ rep σ (left n) l /\ rep σ (right n) r
  end.

Definition node_rep (σ : store N) (n : N) (l : tree V) (k : Z) (e : list V) (r : tree V) : Prop :=
  key n = k /\ values_wf n /\ entry n = e /\ node_ok n l r /\ rep σ (left n) l /\ rep σ (right n) r.

Lemma rep_ext σ σ' h t : store_ext σ σ' -> rep σ h t -> rep σ' h t.
Proof.
  intros Hext. revert h. induction t as [|l IHl k e r IHr]; intros h; cbn; [done|].
  intros (Hn & n & Hget & Hk & Hv & He & Hok & Hl & Hr). split; [done|]. exists n. auto 10.
Qed.

Lemma node_rep_ext σ σ' n l k e r :
  store_ext σ σ' -> node_rep σ n l k e r -> node_rep σ' n l k e r.
Proof. intros Hext (?&?&?&?&?&?). unfold node_rep. eauto 10 using rep_ext. Qed.

Lemma rep_Bin σ h l k e r :
  rep σ h (Bin l k e r) ->
  hasheq h NULL_HASH = false /\ exists n, hashget h σ = Ok n /\ node_rep σ n l k e r.
Proof.
  intros (Hn & n & Hget & ?). split; [done|]. exists n. done.
Qed.

Lemma rep_put σ n l k e r h σ' :
  node_rep σ n l k e r -> hashput n σ = (h, σ') -> rep σ' h (Bin l k e r).
Proof.
  intros Hn Hput. split; [eauto with store|].
  exists n. split; [eauto with store|]. eapply node_rep_ext; eauto with store.
Qed.

(** ** Value arrays *)

Lemma entry_length n : values_wf n -> length (entry n) = Z.to_nat (num_values n).
Proof. intros [Hl Hn]. unfold entry. rewrite length_take. lia. Qed.

Lemma entry_lookup n i :
  values_wf n -> Z.of_nat i < num_values n -> values n !! i = entry n !! i.
Proof. intros [Hl Hn] Hi. unfold entry. rewrite lookup_take. case_decide; [done|lia]. Qed.

(** [n'] differs from [n] in its values only. *)
Definition same_shape (n n' : N) : Prop :=
  left n' = left n /\ right n' = right n /\ key n' = key n /\
  forall l r, node_ok n l r -> node_ok n' l r.

Lemma same_shape_refl n : same_shape n n.
Proof. by split_and!. Qed.

Lemma same_shape_values n n' vs : same_shape n n' -> same_shape n (set_values vs n').
Proof.
  intros (Hl & Hr & Hk & Hok). unfold same_shape. autorewrite with tree_node. split_and!; auto.
Qed.

Lemma same_shape_num n n' k : same_shape n n' -> same_shape n (set_num_values k n').
Proof.
  intros (Hl & Hr & Hk & Hok). unfold same_shape. autorewrite with tree_node. split_and!; auto.
Qed.

(** What an edit of the values of [n] to [e] establishes. *)
Definition values_edit (n n' : N) (e : list V) : Prop :=
  entry n' = e /\ values_wf n' /\ same_shape n n'.

Lemma values_edit_refl n : values_wf n -> values_edit n n (entry n).
Proof. intros Hwf. split_and!; auto using same_shape_refl. Qed.

Lemma node_rep_edit σ n n' e' l k e r :
  node_rep σ n l k e r -> values_edit n n' e' -> node_rep σ n' l k e' r.
Proof.
  intros (Hk & Hwf & He & Hok & Hl & Hr) (He' & Hwf' & Hsl & Hsr & Hsk & Hsok).
  unfold node_rep. rewrite Hsl, Hsr, Hsk. auto 10.
Qed.

(** Adding a value to a node's list: refused when it is there or when the
    list is full. *)
Definition add_value (e : list V) (v : V) : bool * list V :=
  if existsb (fun x => _value_equals x v) e then (false, e)
  else if (length e <? MAX_TREE_NODE_VALUES cfg)%nat then (true, e ++ [v])
  else (false, e).

Lemma take_S_existsb (f : V -> bool) (e : list V) i x :
  e !! i = Some x -> existsb f (take (S i) e) = existsb f (take i e) || f x.
Proof.
  intros Hi. rewrite (take_S_r _ _ _ Hi), existsb_app. cbn. by rewrite orb_false_r.
Qed.

Lemma _copy_value_spec n v :
  values_wf n ->
  let '(b, n') := _copy_value cfg _value_equals n v in
  b = fst (add_value (entry n) v) /\ values_edit n n' (snd (add_value (entry n) v)).
Proof.
  intros Hwf. pose proof (entry_length n Hwf) as Hel. pose proof Hwf as [Hlen Hnum].
  destruct (values_u8 cfg cfg_ok) as [Hmax0 Hmax].
  set (m := Z.to_nat (num_values n)) in *.
  set (n1 := set_values (<[m := v]> (values n)) n).
  set (f := fun x => _value_equals x v).
  unfold _copy_value.
  match goal with |- context [for_up 0 ?M ?body ?s] =>
    pose proof (for_up_ind
      (fun i '(found, success, node) =>
         found = existsb f (take i (entry n)) /\
         success = negb (existsb f (entry n)) && (m <? i)%nat /\
         node = if success : bool then n1 else n)
      0 M body s) as Hinv;
    destruct (for_up 0 M body s) as [[found success] node]
  end.
  destruct Hinv as (_ & Hsucc & Hnode); [lia| | |].
  { cbn. rewrite andb_false_r. done. }
  { clear found success node. intros i [[found success] node] Hi (Hf & Hs & Hn).
    assert (num_values node = num_values n) as Hnn.
    { rewrite Hn. destruct success; [|done]. unfold n1. by rewrite num_set_values. }
    rewrite Hnn. destruct (Z.ltb_spec (Z.of_nat i) (num_values n)) as [Hlt|Hge].
    - assert (success = false) as ->.
      { rewrite Hs. rewrite (proj2 (Nat.ltb_ge m i)) by lia. apply andb_false_r. }
      subst node. rewrite (entry_lookup n i) by done.
      destruct (lookup_lt_is_Some_2 (entry n) i) as [x Hx]; [lia|].
      rewrite Hx, (take_S_existsb f _ _ _ Hx), <- Hf. change (_value_equals x v) with (f x).
      rewrite (proj2 (Nat.ltb_ge m (S i))), andb_false_r by lia.
      destruct (f x); cbn.
      + by rewrite orb_true_r.
      + destruct (negb found && (Z.of_nat i =? num_values n)) eqn:E; bool_hyps; [lia|].
        by rewrite orb_false_r.
    - rewrite andb_false_l.
      assert (take (S i) (entry n) = take i (entry n)) as ->.
      { rewrite !take_ge by lia. done. }
      assert (found = existsb f (entry n)) as Hfe by (rewrite Hf, take_ge by lia; done).
      rewrite <- Hfe in *. destruct (Z.eqb_spec (Z.of_nat i) (num_values n)) as [Heq|Hne].
      + rewrite andb_true_r. assert (i = m) as -> by lia. rewrite Nat.ltb_irrefl, andb_false_r in Hs.
        subst success. cbn in Hn. subst node.
        rewrite (proj2 (Nat.ltb_lt m (S m))), andb_true_r by lia.
        destruct found; cbn; [done|]. done.
      + rewrite andb_false_r. split; [done|]. split; [|done]. rewrite Hs. f_equal.
        bool_cases; try done; lia. }
  assert (num_values node = num_values n) as Hnn.
  { rewrite Hnode. destruct success; [|done]. unfold n1. by rewrite num_set_values. }
  rewrite Hnn. unfold add_value. fold f. rewrite Hel.
  destruct (existsb f (entry n)) eqn:Hex; cbn [negb andb] in Hsucc.
  - subst. cbn. auto using values_edit_refl.
  - destruct (m <? MAX_TREE_NODE_VALUES cfg)%nat eqn:Em; subst; cbn; [|by auto using values_edit_refl].
    bool_hyps. assert (u8 (num_values n + 1) = num_values n + 1) as Hu.
    { apply wrapu_small. unfold in_u. lia. }
    split; [done|]. split_and!.
    + unfold entry, n1. autorewrite with tree_node. rewrite Hu.
      replace (Z.to_nat (num_values n + 1)) with (S m) by lia.
      rewrite (take_S_r _ _ v) by (apply list_lookup_insert_eq; lia).
      by rewrite take_insert_ge by lia.
    + unfold values_wf, n1. autorewrite with tree_node. rewrite length_insert, Hu. lia.
    + unfold n1. auto using same_shape_num, same_shape_values, same_shape_refl.
Qed.

(** Replacing a value, or adding the new one when the old one is absent. *)
Definition put_value (e : list V) (old_value new_value : V) : bool * list V :=
  if existsb (fun x => _value_equals x old_value) e
  then (true, map (fun x => if _value_equals x old_value then new_value else x) e)
  else if (length e <? MAX_TREE_NODE_VALUES cfg)%nat then (true, e ++ [new_value])
  else (false, e).

Lemma _replace_value_spec n old new :
  values_wf n ->
  let '(b, n') := _replace_value cfg _value_equals n old new in
  b = fst (put_value (entry n) old new) /\ values_edit n n' (snd (put_value (entry n) old new)).
Proof.
  intros Hwf. pose proof (entry_length n Hwf) as Hel. pose proof Hwf as [Hlen Hnum].
  destruct (values_u8 cfg cfg_ok) as [Hmax0 Hmax].
  set (m := Z.to_nat (num_values n)) in *.
  set (f := fun x => _value_equals x old).
  set (g := fun x => if _value_equals x old then new else x).
  unfold _replace_value.
  match goal with |- context [for_up 0 ?M ?body ?s] =>
    pose proof (for_up_ind
      (fun i '(inserted, replaced, success, node) =>
         replaced = existsb f (take i (entry n)) /\
         inserted = negb (existsb f (entry n)) && (m <? i)%nat /\
         success = replaced || inserted /\
         num_values node = num_values n /\ same_shape n node /\
         length (values node) = length (values n) /\
         (forall j, (j < m)%nat -> values node !! j = if (j <? i)%nat then g <$> entry n !! j else entry n !! j) /\
         ((inserted : bool) = true -> values node !! m = Some new))
      0 M body s) as Hinv;
    destruct (for_up 0 M body s) as [[[ins repl] succ] nd]
  end.
  destruct Hinv as (Hr & Hi & Hs & Hn & Hsh & Hln & Hv & Hvm); [lia| | |].
  { cbn. rewrite andb_false_r. split_and!; auto using same_shape_refl; [|done].
    intros j Hj. by apply entry_lookup; [|lia]. }
  { clear ins repl succ nd. intros i [[[ins repl] succ] nd] Hi (Hr & Hins & Hs & Hn & Hsh & Hln & Hv & Hvm).
    rewrite Hn. destruct (Z.ltb_spec (Z.of_nat i) (num_values n)) as [Hlt|Hge].
    - rewrite Hv, (proj2 (Nat.ltb_ge i i)) by lia.
      destruct (lookup_lt_is_Some_2 (entry n) i) as [x Hx]; [lia|].
      rewrite Hx, (take_S_existsb f _ _ _ Hx), <- Hr. cbn [andb].
      rewrite (proj2 (Nat.ltb_ge m i)) in Hins by lia. rewrite andb_false_r in Hins.
      rewrite (proj2 (Nat.ltb_ge m (S i))), andb_false_r by lia. subst ins.
      rewrite orb_false_r in Hs.
      change (_value_equals x old) with (f x).
      destruct (f x) eqn:Hfx; cbn [andb].
      + rewrite !orb_true_r, num_set_values, values_set_values, length_insert.
        split_and!; auto using same_shape_values; [|done].
        intros j Hj. destruct (decide (j = i)) as [->|Hne].
        * rewrite list_lookup_insert_eq, (proj2 (Nat.ltb_lt i (S i))), Hx by lia. cbn. unfold g.
          change (_value_equals x old) with (f x). by rewrite Hfx.
        * rewrite list_lookup_insert_ne, Hv by done. bool_cases; try done; lia.
      + destruct (negb repl && (Z.of_nat i =? num_values n)) eqn:E; bool_hyps; [lia|].
        rewrite orb_false_r. split_and!; auto.
        intros j Hj. rewrite Hv by done. destruct (decide (j = i)) as [->|Hne].
        * rewrite (proj2 (Nat.ltb_lt i (S i))), (proj2 (Nat.ltb_ge i i)), Hx by lia. cbn. unfold g.
          change (_value_equals x old) with (f x). by rewrite Hfx.
        * bool_cases; try done; lia.
    - rewrite andb_false_l.
      assert (take (S i) (entry n) = take i (entry n)) as -> by (rewrite !take_ge by lia; done).
      assert (repl = existsb f (entry n)) as Hfe by (rewrite Hr, take_ge by lia; done).
      rewrite <- Hfe in *. destruct (Z.eqb_spec (Z.of_nat i) (num_values n)) as [Heq|Hne].
      + assert (i = m) as -> by lia. rewrite andb_true_r.
        rewrite Nat.ltb_irrefl, andb_false_r in Hins. subst ins.
        rewrite (proj2 (Nat.ltb_lt m (S m))) by lia. rewrite andb_true_r.
        destruct repl; cbn [negb orb].
        * split_and!; auto. intros j Hj. rewrite Hv by done. bool_cases; try done; lia.
        * rewrite num_set_values, values_set_values, length_insert.
          split_and!; auto using same_shape_values.
          -- intros j Hj. rewrite list_lookup_insert_ne, Hv by lia. bool_cases; try done; lia.
          -- intros _. apply list_lookup_insert_eq. lia.
      + rewrite andb_false_r. split_and!; auto.
        * rewrite Hins. f_equal. bool_cases; try done; lia.
        * intros j Hj. rewrite Hv by done. bool_cases; try done; lia. }
  rewrite take_ge in Hr by lia. unfold put_value. fold f. rewrite Hel.
  assert (entry nd = map g (entry n)) as Hend.
  { apply list_eq. intros j. unfold entry at 1. rewrite Hn. fold m.
    change (map g (entry n)) with (g <$> entry n). rewrite list_lookup_fmap, lookup_take.
    case_decide.
    - rewrite Hv by done. bool_cases; try done; lia.
    - rewrite (lookup_ge_None_2 (entry n)) by lia. done. }
  assert (values_wf nd) as Hwfd by (split; [lia|rewrite Hn; done]).
  subst repl. destruct (existsb f (entry n)) eqn:Hex; cbn [negb andb] in Hi; subst ins succ; cbn [orb].
  - cbn. split; [done|]. by split_and!.
  - assert (map g (entry n) = entry n) as Hmap.
    { rewrite <- (map_id (entry n)) at 2. apply map_ext_in. intros x Hx. unfold g.
      destruct (_value_equals x old) eqn:Hxo; [|done].
      exfalso. apply not_true_iff_false in Hex. apply Hex, existsb_exists. by exists x. }
    destruct (m <? MAX_TREE_NODE_VALUES cfg)%nat eqn:Em; cbn [fst snd].
    + rewrite Hn. bool_hyps. assert (u8 (num_values n + 1) = num_values n + 1) as Hu.
      { apply wrapu_small. unfold in_u. lia. }
      split; [done|]. split_and!.
      * unfold entry at 1. autorewrite with tree_node. rewrite Hu.
        replace (Z.to_nat (num_values n + 1)) with (S m) by lia.
        rewrite (take_S_r _ _ new) by auto. f_equal. rewrite <- Hmap, <- Hend. unfold entry.
        by rewrite Hn.
      * unfold values_wf. autorewrite with tree_node. rewrite Hu, Hln. lia.
      * auto using same_shape_num.
    + split; [done|]. rewrite <- Hmap at 1. by split_and!.
Qed.

Lemma existsb_false_lookup (f : V -> bool) e i x :
  existsb f e = false -> e !! i = Some x -> f x = false.
Proof.
  intros Hex Hi. apply not_true_is_false. intros Hf. apply not_true_iff_false in Hex.
  apply Hex, existsb_exists. exists x. split; [|done].
  by eapply list_elem_of_In, list_elem_of_lookup_2.
Qed.

(** A value that is not there is not removed. *)
Lemma _remove_value_none n v :
  values_wf n -> existsb (fun x => _value_equals x v) (entry n) = false ->
  _remove_value cfg _value_equals n v = (false, n).
Proof.
  intros Hwf Hex. pose proof (entry_length n Hwf) as Hel. pose proof Hwf as [Hlen Hnum].
  unfold _remove_value.
  match goal with |- context [for_up 0 ?M ?body ?s] =>
    assert (for_up 0 M body s = (false, n)) as ->; [|done];
    apply (for_up_ind (fun _ st => st = (false, n)) 0 M body s); [lia|done|]
  end.
  intros i s Hi ->. destruct (Z.ltb_spec (Z.of_nat i) (num_values n)) as [Hlt|]; [|done].
  rewrite entry_lookup by done. destruct (entry n !! i) as [x|] eqn:Hx; [|done].
  rewrite (existsb_false_lookup _ _ _ _ Hex Hx). done.
Qed.

(** The one occurrence of a value is cut out of the list. *)
Lemma _remove_value_some n v e1 x e2 :
  values_wf n -> entry n = e1 ++ x :: e2 -> _value_equals x v = true ->
  existsb (fun y => _value_equals y v) (e1 ++ e2) = false ->
  let '(b, n') := _remove_value cfg _value_equals n v in
  b = true /\ values_edit n n' (e1 ++ e2).
Proof.
  intros Hwf He Hx Hex. pose proof (entry_length n Hwf) as Hel. pose proof Hwf as [Hlen Hnum].
  destruct (values_u8 cfg cfg_ok) as [Hmax0 Hmax].
  remember (Z.to_nat (num_values n)) as m eqn:Hm. set (j := length e1).
  assert (j < m)%nat as Hjm by (rewrite <- Hel, He, length_app; cbn; lia).
  assert (forall q, (q < j)%nat -> entry n !! q = (e1 ++ e2) !! q) as Hlo.
  { intros q Hq. by rewrite He, !lookup_app_l by done. }
  assert (forall q, (j <= q)%nat -> entry n !! S q = (e1 ++ e2) !! q) as Hhi.
  { intros q Hq. rewrite He, !lookup_app_r by (fold j; lia). fold j.
    by replace (S q - j)%nat with (S (q - j)) by lia. }
  assert (entry n !! j = Some x) as Hj by (rewrite He; by apply list_lookup_middle).
  unfold _remove_value.
  match goal with |- context [for_up 0 ?M ?body ?s] =>
    pose proof (for_up_ind
      (fun i '(removed, node) =>
         removed = (j <? i)%nat /\ num_values node = num_values n /\ same_shape n node /\
         length (values node) = length (values n) /\
         (forall q, (q < m)%nat -> values node !! q =
            if (j <=? q)%nat && (S q <? Nat.min i m)%nat then entry n !! S q else entry n !! q))
      0 M body s) as Hinv;
    destruct (for_up 0 M body s) as [rm nd]
  end.
  destruct Hinv as (Hrm & Hn & Hsh & Hln & Hv); [lia| | |].
  { split_and!; auto using same_shape_refl. intros q Hq.
    rewrite andb_false_r. apply entry_lookup; [done|lia]. }
  { clear rm nd. intros i [rm nd] Hi (Hrm & Hn & Hsh & Hln & Hv). rewrite Hn.
    destruct (Z.ltb_spec (Z.of_nat i) (num_values n)) as [Hlt|Hge].
    2:{ split_and!; auto; [rewrite Hrm; bool_cases; try done; lia|].
        intros q Hq. rewrite Hv by done. bool_cases; try done; lia. }
    rewrite Hv by lia. rewrite (proj2 (Nat.ltb_ge (S i) (Nat.min i m))), andb_false_r by lia.
    destruct (lookup_lt_is_Some_2 (entry n) i) as [y Hy]; [lia|]. rewrite Hy.
    destruct (decide (i = j)) as [->|Hne].
    - assert (y = x) as -> by congruence. rewrite Hx. split_and!; auto.
      + symmetry. apply Nat.ltb_lt. lia.
      + intros q Hq. rewrite Hv by done. bool_cases; try done; lia.
    - assert (_value_equals y v = false) as ->.
      { destruct (decide (i < j)%nat).
        - rewrite Hlo in Hy by done. by eapply (existsb_false_lookup _ _ _ _ Hex).
        - destruct i as [|i]; [lia|]. rewrite Hhi in Hy by lia.
          by eapply (existsb_false_lookup _ _ _ _ Hex). }
      subst rm. destruct (Nat.ltb_spec j i) as [Hji|Hji]; cbn [andb].
      + destruct (Z.ltb_spec 0 (Z.of_nat i)); [|lia].
        rewrite num_set_values, values_set_values, length_insert.
        split_and!; auto using same_shape_values.
        * symmetry. apply Nat.ltb_lt. lia.
        * intros q Hq. destruct (decide (q = i - 1)%nat) as [->|Hq1].
          -- rewrite list_lookup_insert_eq by lia. replace (S (i - 1)) with i by lia.
             rewrite (proj2 (Nat.leb_le j (i - 1))), (proj2 (Nat.ltb_lt i (Nat.min (S i) m))) by lia. done.
          -- rewrite list_lookup_insert_ne, Hv by lia. bool_cases; try done; lia.
      + split_and!; auto; [bool_cases; try done; lia|].
        intros q Hq. rewrite Hv by done. bool_cases; try done; lia. }
  rewrite (proj2 (Nat.ltb_lt j (MAX_TREE_NODE_VALUES cfg))) in Hrm by lia. subst rm. rewrite Hn.
  assert (length (e1 ++ e2) = pred m) as Hlene.
  { rewrite <- Hel, He, !length_app. cbn. lia. }
  assert (u8 (num_values n - 1) = num_values n - 1) as Hu by (apply wrapu_small; unfold in_u; lia).
  split; [done|]. split_and!.
  - unfold entry at 1. autorewrite with tree_node. rewrite Hu.
    apply list_eq. intros q. rewrite lookup_take. case_decide as Hq.
    + rewrite Hv by lia. destruct (Nat.leb_spec j q).
      * rewrite (proj2 (Nat.ltb_lt (S q) _)) by lia. by apply Hhi.
      * by apply Hlo.
    + rewrite lookup_ge_None_2 by lia. done.
  - unfold values_wf. autorewrite with tree_node. rewrite Hu, Hln. lia.
  - auto using same_shape_num.
Qed.

(** ** Result sets *)

Definition rs_wf (rs : tree_result_set_t V) : Prop :=
  length (results rs) = MAX_TREE_RESULTS cfg
  /\ 0 <= num_results rs <= Z.of_nat (MAX_TREE_RESULTS cfg).

(** The valid part of a result set. *)
Definition rs_view (rs : tree_result_set_t V) : list (Z * V) :=
  take (Z.to_nat (num_results rs)) (results rs).

(** [rs_is rs l]: the result set holds exactly the first results of [l]. *)
Definition rs_is (rs : tree_result_set_t V) (l : list (Z * V)) : Prop :=
  rs_wf rs /\ rs_view rs = take (MAX_TREE_RESULTS cfg) l.

Lemma rs_is_reset rs :
  length (results rs) = MAX_TREE_RESULTS cfg ->
  rs_is {| num_results := 0; results := results rs |} [].
Proof.
  intros Hlen. split; [split; cbn; [done|lia]|]. unfold rs_view. cbn. by rewrite take_nil.
Qed.

Lemma _copy_result_spec rs k v l :
  rs_is rs l -> rs_is (_copy_result cfg rs k v) (l ++ [(k, v)]).
Proof.
  intros [[Hlen Hnum] Hview]. destruct (results_u8 cfg cfg_ok) as [Hmax0 Hmax].
  pose (f := fun (i : nat) (rs : tree_result_set_t V) =>
    {| num_results := num_results rs; results := <[i := (k, v)]> (results rs) |}).
  unfold _copy_result.
  rewrite (for_up_once _ num_results f) by done.
  assert (length (rs_view rs) = Z.to_nat (num_results rs)) as Hvl.
  { unfold rs_view. rewrite length_take. lia. }
  rewrite (proj2 (Z.leb_le 0 _)) by lia. rewrite Hview, length_take in Hvl. cbn.
  destruct (Z.ltb_spec (num_results rs) (Z.of_nat (MAX_TREE_RESULTS cfg))) as [Hlt|Hge]; cbn.
  - rewrite (proj2 (Z.ltb_lt _ _)) by done.
    assert (u8 (num_results rs + 1) = num_results rs + 1) as Hu.
    { apply wrapu_small. unfold in_u. lia. }
    unfold rs_is, rs_wf, rs_view; cbn. rewrite length_insert, Hu.
    split; [lia|]. replace (Z.to_nat (num_results rs + 1)) with (S (Z.to_nat (num_results rs))) by lia.
    rewrite (take_S_r _ _ (k, v)) by (apply list_lookup_insert_eq; lia).
    rewrite take_insert_ge by lia. fold (rs_view rs). rewrite Hview.
    rewrite !take_ge; [done|rewrite length_app; cbn; lia|lia].
  - rewrite (proj2 (Z.ltb_ge _ _)) by done. split; [done|].
    rewrite Hview, take_app_le by lia. done.
Qed.

Lemma _copy_results_spec rs n l :
  values_wf n -> rs_is rs l ->
  rs_is (_copy_results cfg rs n) (l ++ map (pair (key n)) (entry n)).
Proof.
  intros Hwf Hrs. pose proof (entry_length n Hwf) as Hel. destruct Hwf as [Hlen Hnum].
  unfold _copy_results.
  match goal with |- context [for_up 0 ?M ?body ?s] =>
    pose proof (for_up_ind
      (fun i rs => rs_is rs (l ++ map (pair (key n)) (take i (entry n)))) 0 M body s) as Hinv
  end.
  cbv beta in Hinv. rewrite (take_ge (entry n) (MAX_TREE_NODE_VALUES cfg)) in Hinv by lia. apply Hinv; [lia|by rewrite take_0, app_nil_r|].
  intros i rs' Hi Hrs'. destruct (Z.ltb_spec (Z.of_nat i) (num_values n)) as [Hlt|Hge].
  - rewrite entry_lookup by done.
    destruct (lookup_lt_is_Some_2 (entry n) i) as [x Hx]; [lia|].
    rewrite Hx, (take_S_r _ _ _ Hx), map_app, app_assoc. by apply _copy_result_spec.
  - rewrite take_ge in * by lia. done.
Qed.

End Facts.
