(* ===== verification/TreePaths.v ===== *)
(** Root-to-node paths over represented trees: what [_find_path] records,
    and why [_find_first] and [_find_next] walk a tree in key order. *)
From Stdlib Require Import ZArith Lia Sorted.
From stdpp Require Import base numbers list.
From S2P Require Import Prelude BlockStore TreeCore TreeFacts.

Local Open Scope Z_scope.

Section Paths.
Context {V N : Type} `{TreeNodeLaws V N} `{BlockStoreLaws N}.
Context (cfg : tree_config) (cfg_ok : config_ok cfg).
Context (node_ok : N -> tree V -> tree V -> Prop).

Abbreviation rep := (rep cfg node_ok).
Abbreviation node_rep := (node_rep cfg node_ok).
Abbreviation MAXD := (MAX_TREE_DEPTH cfg).

Definition path_wf (p : tree_path_t N) : Prop :=
  length (nodes p) = MAXD /\ length (branches p) = MAXD.

(** [p'] agrees with [p] on the first [i] entries. *)
Definition same_prefix (i : nat) (p p' : tree_path_t N) : Prop :=
  forall j, (j < i)%nat -> nodes p' !! j = nodes p !! j /\ branches p' !! j = branches p !! j.

Lemma same_prefix_refl i p : same_prefix i p p.
Proof. by intros j Hj. Qed.

Lemma same_prefix_trans i j p1 p2 p3 :
  same_prefix i p1 p2 -> same_prefix j p2 p3 -> (i <= j)%nat -> same_prefix i p1 p3.
Proof.
  intros Hp Hq Hij q Hlt. destruct (Hp q Hlt) as [<- <-]. destruct (Hq q) as [-> ->]; [lia|done].
Qed.

(** The path after one step down at index [i]. *)
Definition push (i : nat) (n : N) (b : Z) (p : tree_path_t N) : tree_path_t N :=
  set_branch i b (set_node i n (set_depth (u8 (Z.of_nat i + 1)) p)).

Lemma push_wf i n b p : path_wf p -> path_wf (push i n b p).
Proof. intros [Hn Hb]. split; cbn; by rewrite length_insert. Qed.

Lemma push_prefix i n b p : same_prefix i p (push i n b p).
Proof. intros j Hj. cbn. by rewrite !list_lookup_insert_ne by lia. Qed.

(** Above its depth, [p'] is what [p] was. *)
Definition same_above (p p' : tree_path_t N) : Prop :=
  forall j, depth p' <= Z.of_nat j -> nodes p' !! j = nodes p !! j.

Lemma push_above i n b p j : j <> i -> nodes (push i n b p) !! j = nodes p !! j.
Proof. intros Hj. cbn. by rewrite list_lookup_insert_ne. Qed.

Lemma push_node i n b p : path_wf p -> (i < MAXD)%nat -> nodes (push i n b p) !! i = Some n.
Proof. intros [Hn Hb] Hi. cbn. apply list_lookup_insert_eq. lia. Qed.

Lemma push_branch i n b p : path_wf p -> (i < MAXD)%nat -> branches (push i n b p) !! i = Some b.
Proof. intros [Hn Hb] Hi. cbn. apply list_lookup_insert_eq. lia. Qed.

Lemma push_depth i n b p : (i < MAXD)%nat -> depth (push i n b p) = Z.of_nat (S i).
Proof.
  intros Hi. cbn. pose proof (depth_u8 _ cfg_ok). rewrite wrapu_small by (unfold in_u; lia). lia.
Qed.

Lemma same_prefix_step i p p' :
  same_prefix (S i) p p' -> nodes p' !! i = nodes p !! i /\ branches p' !! i = branches p !! i.
Proof. intros Hp. apply Hp. lia. Qed.

(** ** The macro [WITH_PATH_NODE] *)

Lemma with_path_node_spec {A} (f : N -> A -> N * A) p a i node :
  path_wf p -> depth p = Z.of_nat (S i) -> nodes p !! i = Some node ->
  with_path_node cfg f p a = let '(node', a') := f node a in (set_node i node' p, a').
Proof.
  intros [Hn Hb] Hd Hi. apply lookup_lt_Some in Hi as Hlt. unfold with_path_node.
  pose (g := fun (i : nat) (s : tree_path_t N * A) =>
    match nodes (fst s) !! i with
    | Some node => let '(node', a') := f node (snd s) in (set_node i node' (fst s), a')
    | None => s
    end).
  rewrite (for_up_ext _ _ _
    (fun i s => if Z.of_nat i =? depth (fst s) - 1 then g i s else s)).
  2:{ intros j [q b] _. unfold g. cbn. destruct (nodes q !! j); done. }
  rewrite (for_up_once _ (fun s => depth (fst s) - 1)).
  2:{ intros j [q b]. unfold g. cbn. destruct (nodes q !! j) as [x|]; [|done].
      by destruct (f x b). }
  cbn [fst]. rewrite Hd, (proj2 (Z.leb_le _ _)), (proj2 (Z.ltb_lt _ _)) by lia. cbn [andb].
  replace (Z.to_nat (Z.of_nat (S i) - 1)) with i by lia.
  unfold g. cbn. by rewrite Hi.
Qed.

(** ** Search paths *)

(** [p] records, from index [i] on, the search for [k] in [t]. *)
Fixpoint on_path (σ : store N) (k : Z) (t : tree V) (i : nat) (p : tree_path_t N)
  (found : bool) : Prop :=
  match t with
  | Leaf => depth p = Z.of_nat i /\ found = false
  | Bin l k' e r =>
      exists n, nodes p !! i = Some n /\ node_rep σ n l k' e r /\
        if k =? k' then
          branches p !! i = Some TREE_PATH_EQUALS /\ depth p = Z.of_nat (S i) /\ found = true
        else if k <? k' then
          branches p !! i = Some TREE_PATH_LEFT /\ on_path σ k l (S i) p found
        else branches p !! i = Some TREE_PATH_RIGHT /\ on_path σ k r (S i) p found
  end.

Lemma on_path_depth σ k t i p found :
  on_path σ k t i p found -> Z.of_nat i <= depth p <= Z.of_nat (i + height t).
Proof.
  revert i. induction t as [|l IHl k' e r IHr]; intros i; cbn; [lia|].
  intros (n & _ & _ & Hcase). destruct (k =? k'); [|destruct (k <? k')].
  - lia.
  - destruct Hcase as [_ Hp%IHl]. lia.
  - destruct Hcase as [_ Hp%IHr]. lia.
Qed.

Lemma on_path_found σ k t i p found :
  on_path σ k t i p found -> found = bool_decide (is_Some (lookup_key k t)).
Proof.
  revert i. induction t as [|l IHl k' e r IHr]; intros i; cbn.
  - intros [_ ->]. done.
  - intros (n & _ & _ & Hcase). destruct (k =? k'); [|destruct (k <? k')].
    + destruct Hcase as (_ & _ & ->). done.
    + destruct Hcase as [_ Hp%IHl]. done.
    + destruct Hcase as [_ Hp%IHr]. done.
Qed.

Lemma _find_path_stuck σ k i found h p :
  found = true \/ hasheq h NULL_HASH = true ->
  for_upM i MAXD (_find_path_step σ k) (found, h, p) = Ok (found, h, p).
Proof.
  intros Hs. destruct (le_lt_dec i MAXD) as [Hi|Hi]; [|by apply for_upM_done; lia].
  destruct (for_upM_ind (fun _ s => s = (found, h, p)) i MAXD (_find_path_step σ k)
    (found, h, p) Hi eq_refl) as (s & -> & ->); [|done].
  intros j s _ ->. exists (found, h, p). split; [|done]. cbn.
  destruct Hs as [->| ->]; [done|]. by rewrite andb_false_r.
Qed.

Lemma _find_path_step_node σ k i h p n :
  hasheq h NULL_HASH = false -> hashget h σ = Ok n ->
  _find_path_step σ k i (false, h, p) =
  Ok (if k =? key n then (true, h, push i n TREE_PATH_EQUALS p)
      else if k <? key n then (false, left n, push i n TREE_PATH_LEFT p)
      else (false, right n, push i n TREE_PATH_RIGHT p)).
Proof.
  intros Hnn Hget. unfold _find_path_step. rewrite Hnn. cbn [negb andb].
  rewrite Hget, res_bind_Ok. by destruct (k =? key n); [|destruct (k <? key n)].
Qed.

Lemma _find_path_loop σ k t : forall i h p,
  rep σ h t -> path_wf p -> (i + height t <= MAXD)%nat -> depth p = Z.of_nat i ->
  exists found h' p',
    for_upM i MAXD (_find_path_step σ k) (false, h, p) = Ok (found, h', p') /\
    path_wf p' /\ same_prefix i p p' /\ on_path σ k t i p' found /\ same_above p p'.
Proof.
  induction t as [|l IHl k' e r IHr]; intros i h p Hrep Hwf Hh Hd.
  { cbn in Hrep. exists false, h, p. rewrite _find_path_stuck by auto.
    split; [done|]. split; [done|]. split; [apply same_prefix_refl|]. split; [done|]. by intros j Hj. }
  apply rep_Bin in Hrep as (Hnn & n & Hget & Hn). cbn in Hh.
  assert (i < MAXD)%nat as Hi by lia.
  pose proof Hn as (Hk & _ & _ & _ & Hl & Hr).
  rewrite for_upM_step, (_find_path_step_node _ _ _ _ _ n), res_bind_Ok, Hk by done.
  destruct (k =? k') eqn:Ekk; [|destruct (k <? k') eqn:Elt].
  - rewrite _find_path_stuck by auto. eexists _, _, _. split; [done|].
    split; [by apply push_wf|]. split; [apply push_prefix|]. split.
    + exists n. rewrite Ekk. split_and!; auto using push_node, push_branch, push_depth.
    + intros j Hj. rewrite push_depth in Hj by done. apply push_above. lia.
  - destruct (IHl (S i) (left n) (push i n TREE_PATH_LEFT p))
      as (found & h' & p' & -> & Hwf' & Hpre & Hon & Hab);
      [done|by apply push_wf|lia|by apply push_depth|].
    exists found, h', p'. split; [done|]. split; [done|].
    split; [eapply same_prefix_trans; [apply push_prefix|exact Hpre|lia]|].
    destruct (same_prefix_step _ _ _ Hpre) as [Hn' Hb']. split.
    + exists n. rewrite Ekk, Elt, Hn', Hb'. split_and!; auto using push_node, push_branch.
    + intros j Hj. rewrite Hab by done. apply on_path_depth in Hon. apply push_above. lia.
  - destruct (IHr (S i) (right n) (push i n TREE_PATH_RIGHT p))
      as (found & h' & p' & -> & Hwf' & Hpre & Hon & Hab);
      [done|by apply push_wf|lia|by apply push_depth|].
    exists found, h', p'. split; [done|]. split; [done|].
    split; [eapply same_prefix_trans; [apply push_prefix|exact Hpre|lia]|].
    destruct (same_prefix_step _ _ _ Hpre) as [Hn' Hb']. split.
    + exists n. rewrite Ekk, Elt, Hn', Hb'. split_and!; auto using push_node, push_branch.
    + intros j Hj. rewrite Hab by done. apply on_path_depth in Hon. apply push_above. lia.
Qed.

Lemma empty_path_wf `{Inhabited N} : path_wf (empty_path cfg).
Proof. split; cbn; by rewrite length_replicate. Qed.

Lemma _find_path_full σ root k t p :
  rep σ root t -> (height t <= MAXD)%nat -> path_wf p -> depth p = 0 ->
  exists found p',
    _find_path cfg σ root k p = Ok (found, p') /\ path_wf p' /\ on_path σ k t 0 p' found /\
    same_above p p'.
Proof.
  intros Hrep Hh Hwf Hd. unfold _find_path.
  destruct (_find_path_loop σ k t 0 root p) as (found & h' & p' & -> & Hwf' & _ & Hon); eauto.
Qed.

Lemma _find_path_spec σ root k t p :
  rep σ root t -> (height t <= MAXD)%nat -> path_wf p -> depth p = 0 ->
  exists found p',
    _find_path cfg σ root k p = Ok (found, p') /\ path_wf p' /\ on_path σ k t 0 p' found.
Proof.
  intros Hrep Hh Hwf Hd.
  destruct (_find_path_full σ root k t p) as (found & p' & ? & ? & ? & _); eauto.
Qed.

(** ** Positions in the in-order listing *)

(** [at_pos σ t i p c rest]: from index [i] on, [p] leads to a node of [t]
    holding [c]; [rest] is what follows it in the listing of [t]. *)
Fixpoint at_pos (σ : store N) (t : tree V) (i : nat) (p : tree_path_t N)
  (c : Z * list V) (rest : list (Z * list V)) : Prop :=
  match t with
  | Leaf => False
  | Bin l k e r =>
      exists n, nodes p !! i = Some n /\ node_rep σ n l k e r /\
        ((depth p = Z.of_nat (S i) /\ c = (k, e) /\ rest = elements r)
         \/ (Z.of_nat (S i) < depth p /\ branches p !! i = Some TREE_PATH_LEFT /\
             exists rest', at_pos σ l (S i) p c rest' /\ rest = rest' ++ (k, e) :: elements r)
         \/ (Z.of_nat (S i) < depth p /\ branches p !! i = Some TREE_PATH_RIGHT /\
             at_pos σ r (S i) p c rest))
  end.

(** The node at a position. *)
Lemma at_pos_node σ t p c rest : forall i,
  at_pos σ t i p c rest ->
  exists j n l r, depth p = Z.of_nat (S j) /\ (i <= j < i + height t)%nat /\ nodes p !! j = Some n /\
    node_rep σ n l c.1 c.2 r /\ (height r + j < i + height t)%nat.
Proof.
  revert rest. induction t as [|l IHl k e r IHr]; intros rest i; [done|].
  intros (n & Hn & Hrep & [(Hd & -> & _)|[(_ & _ & rest' & Hp & _)|(_ & _ & Hp)]]).
  - exists i, n, l, r. cbn. split; [done|]. split; [lia|]. split; [done|]. split; [done|]. lia.
  - destruct (IHl _ _ Hp) as (j & n' & l' & r' & ? & ? & ? & ? & ?). exists j, n', l', r'. cbn.
    split; [done|]. split; [lia|]. split; [done|]. split; [done|]. lia.
  - destruct (IHr _ _ Hp) as (j & n' & l' & r' & ? & ? & ? & ? & ?). exists j, n', l', r'. cbn.
    split; [done|]. split; [lia|]. split; [done|]. split; [done|]. lia.
Qed.

Lemma copy_current_spec σ t p c rest test rs l :
  path_wf p -> at_pos σ t 0 p c rest -> rs_is cfg rs l ->
  rs_is cfg (copy_current cfg test p rs) (l ++ if test c.1 then pairs [c] else []).
Proof.
  intros Hwf Hpos Hrs. destruct (at_pos_node _ _ _ _ _ _ Hpos) as (j & n & lt & rt & Hd & Hj & Hn & Hrep & _).
  unfold copy_current. rewrite (with_path_node_spec _ _ _ j n) by done. cbn.
  destruct Hrep as (<- & Hv & He & _). destruct (test (key n)); [|by rewrite app_nil_r].
  destruct c as [k e]. cbn in *. subst e. rewrite app_nil_r.
  by apply _copy_results_spec.
Qed.

(** *** Going down to the leftmost node *)

Lemma _descend_left_null σ i found h p :
  hasheq h NULL_HASH = true ->
  for_upM i MAXD (_descend_left σ) (found, h, p) = Ok (found, h, p).
Proof.
  intros Hs. destruct (le_lt_dec i MAXD) as [Hi|Hi]; [|by apply for_upM_done; lia].
  destruct (for_upM_ind (fun _ s => s = (found, h, p)) i MAXD (_descend_left σ)
    (found, h, p) Hi eq_refl) as (s & -> & ->); [|done].
  intros j s _ ->. exists (found, h, p). split; [|done]. cbn. by rewrite Hs.
Qed.

Lemma _descend_left_node σ i found h p n :
  hasheq h NULL_HASH = false -> hashget h σ = Ok n ->
  _descend_left σ i (found, h, p) = Ok (true, left n, push i n TREE_PATH_LEFT p).
Proof.
  intros Hnn Hget. unfold _descend_left. rewrite Hnn. cbn [negb]. by rewrite Hget.
Qed.

Lemma _descend_left_loop σ t : forall i h p found c rest,
  rep σ h t -> path_wf p -> (i + height t <= MAXD)%nat -> elements t = c :: rest ->
  exists h' p',
    for_upM i MAXD (_descend_left σ) (found, h, p) = Ok (true, h', p') /\
    path_wf p' /\ same_prefix i p p' /\ at_pos σ t i p' c rest.
Proof.
  induction t as [|l IHl k e r IHr]; intros i h p found c rest Hrep Hwf Hh Hel; [done|].
  apply rep_Bin in Hrep as (Hnn & n & Hget & Hn). cbn in Hh, Hel.
  assert (i < MAXD)%nat as Hi by lia. pose proof Hn as (Hk & _ & _ & _ & Hl & Hr).
  rewrite for_upM_step, (_descend_left_node _ _ _ _ _ n), res_bind_Ok by done.
  destruct (elements l) as [|c' rest'] eqn:Hell.
  - assert (l = Leaf) as -> by (destruct l; [done|]; cbn in Hell; by destruct (elements l1)).
    rewrite _descend_left_null by done. eexists _, _. split; [done|].
    split; [by apply push_wf|]. split; [apply push_prefix|].
    injection Hel as <- <-. exists n. split; [by apply push_node|]. split; [done|].
    left. by rewrite push_depth.
  - injection Hel as <- <-.
    destruct (IHl (S i) (left n) (push i n TREE_PATH_LEFT p) true c' rest')
      as (h' & p' & -> & Hwf' & Hpre & Hpos); [done|by apply push_wf|lia|done|].
    exists h', p'. split; [done|]. split; [done|].
    split; [eapply same_prefix_trans; [apply push_prefix|exact Hpre|lia]|].
    destruct (same_prefix_step _ _ _ Hpre) as [Hn' Hb'].
    exists n. rewrite Hn', Hb'. split; [by apply push_node|]. split; [done|]. right. left.
    destruct (at_pos_node _ _ _ _ _ _ Hpos) as (j & _ & _ & _ & Hd & Hj & _).
    split; [lia|]. split; [by apply push_branch|]. eauto.
Qed.

Lemma _find_first_spec σ root t p :
  rep σ root t -> (height t <= MAXD)%nat -> path_wf p ->
  match elements t with
  | [] => exists p', _find_first cfg σ root p = Ok (false, p')
  | c :: rest => exists p', _find_first cfg σ root p = Ok (true, p') /\ path_wf p' /\
      at_pos σ t 0 p' c rest
  end.
Proof.
  intros Hrep Hh Hwf. unfold _find_first. destruct (elements t) as [|c rest] eqn:Hel.
  - assert (t = Leaf) as -> by (destruct t; [done|]; cbn in Hel; by destruct (elements t1)).
    rewrite _descend_left_null by done. by exists p.
  - destruct (_descend_left_loop σ t 0 root p false c rest) as (h' & p' & -> & Hwf' & _ & Hpos); auto.
    exists p'. auto.
Qed.

(** *** The next position *)

(** What follows the current node [j] is the listing of its right subtree
    [rt], then what lies above; a path into [rt] that keeps the entries up
    to [j] is a path into the whole tree. *)
Lemma at_pos_split σ t : forall i p c rest,
  at_pos σ t i p c rest ->
  exists j n rt above,
    depth p = Z.of_nat (S j) /\ (i <= j)%nat /\ nodes p !! j = Some n /\
    rep σ (right n) rt /\ (S j + height rt <= i + height t)%nat /\ rest = elements rt ++ above /\
    forall p' c' rest',
      (forall q, (q <= j)%nat -> nodes p' !! q = nodes p !! q) ->
      (forall q, (q < j)%nat -> branches p' !! q = branches p !! q) ->
      (depth p' = depth p -> at_pos σ t i p' c rest) /\
      (branches p' !! j = Some TREE_PATH_RIGHT -> Z.of_nat (S j) < depth p' ->
       at_pos σ rt (S j) p' c' rest' -> at_pos σ t i p' c' (rest' ++ above)).
Proof.
  induction t as [|l IHl k e r IHr]; intros i p c rest Hpos; [done|].
  destruct Hpos as (n & Hi & Hrep & [(Hd & -> & ->)|[(Hlt & Hb & rest1 & Hpos & ->)|(Hlt & Hb & Hpos)]]).
  - exists i, n, r, []. pose proof Hrep as (_ & _ & _ & _ & _ & Hr).
    split_and!; [done|lia|done|done|cbn; lia|by rewrite app_nil_r|].
    intros p' c' rest' Hpn Hpb. split.
    + intros Hd'. exists n. rewrite Hpn by lia. rewrite Hd'. split; [done|]. split; [done|]. by left.
    + intros Hbr Hlt Hpos. exists n. rewrite Hpn, app_nil_r by lia.
      split; [done|]. split; [done|]. right; right. auto.
  - destruct (IHl _ _ _ _ Hpos) as (j & n' & rt & above & Hd & Hij & Hn' & Hr & Hh & -> & Hp).
    exists j, n', rt, (above ++ (k, e) :: elements r).
    split_and!; [done|lia|done|done|cbn; lia|by rewrite app_assoc|].
    intros p' c' rest' Hpn Hpb. destruct (Hp p' c' rest' Hpn Hpb) as [Hsame Hdown]. split.
    + intros Hd'. exists n. rewrite Hpn, Hpb by lia. split; [done|]. split; [done|].
      right; left. split; [lia|]. split; [done|]. eauto.
    + intros Hbr Hlt' Hpos'. exists n. rewrite Hpn, Hpb by lia. split; [done|]. split; [done|].
      right; left. split; [lia|]. split; [done|]. exists (rest' ++ above).
      split; [auto|]. by rewrite app_assoc.
  - destruct (IHr _ _ _ _ Hpos) as (j & n' & rt & above & Hd & Hij & Hn' & Hr & Hh & -> & Hp).
    exists j, n', rt, above. split_and!; [done|lia|done|done|cbn; lia|done|].
    intros p' c' rest' Hpn Hpb. destruct (Hp p' c' rest' Hpn Hpb) as [Hsame Hdown]. split.
    + intros Hd'. exists n. rewrite Hpn, Hpb by lia. split; [done|]. split; [done|].
      right; right. split; [lia|]. auto.
    + intros Hbr Hlt' Hpos'. exists n. rewrite Hpn, Hpb by lia. split; [done|]. split; [done|].
      right; right. split; [lia|]. auto.
Qed.

Lemma rep_null σ h t : rep σ h t -> hasheq h NULL_HASH = true -> t = Leaf.
Proof. destruct t; [done|]. intros (Hn & _) Hy. congruence. Qed.

Lemma rep_nonnull σ h t : rep σ h t -> hasheq h NULL_HASH = false -> elements t <> [].
Proof.
  destruct t as [|l k e r]; [intros Hy Hn; cbn in Hy; congruence|].
  cbn. by destruct (elements l).
Qed.

(** The loop of [_find_next_below] is a leftward descent from the right
    child of the current node. *)
Lemma _find_next_below_loop σ p j n :
  path_wf p -> depth p = Z.of_nat (S j) -> nodes p !! j = Some n -> (j < MAXD)%nat ->
  _find_next_below cfg σ p =
  (s ← for_upM (S j) MAXD (_descend_left σ) (false, right n, set_branch j TREE_PATH_RIGHT p);
   let '(found, _, path) := s in Ok (found, path)).
Proof.
  intros Hwf Hd Hn Hj. unfold _find_next_below. rewrite Hd.
  replace (Z.of_nat (S j) - 1) with (Z.of_nat j) by lia.
  rewrite (for_upM_split 0 j MAXD) by lia.
  rewrite for_upM_const.
  2:{ intros i Hi. rewrite (proj2 (Z.eqb_neq _ _)), (proj2 (Z.ltb_ge _ _)) by lia. done. }
  rewrite res_bind_Ok, for_upM_step, Z.eqb_refl, Hn, res_bind_Ok by done.
  f_equal. apply for_upM_ext. intros i [[found h] q] Hi.
  by rewrite (proj2 (Z.eqb_neq _ _)), (proj2 (Z.ltb_lt _ _)) by lia.
Qed.

(** [_find_next_above] goes to the nearest ancestor left behind on a left
    branch. *)
Lemma _find_next_above_loop σ t : forall i p c rest n j,
  at_pos σ t i p c rest -> (i + height t <= MAXD)%nat ->
  depth p = Z.of_nat (S j) -> nodes p !! j = Some n -> hasheq (right n) NULL_HASH = true ->
  match rest with
  | [] => for_down i MAXD _find_next_above_step (false, p) = (false, p)
  | c' :: rest' =>
      exists d, for_down i MAXD _find_next_above_step (false, p) = (true, set_depth d p)
        /\ at_pos σ t i (set_depth d p) c' rest'
  end.
Proof.
  induction t as [|l IHl k e r IHr]; intros i p c rest n j Hpos Hh Hd Hn Hnull; [done|].
  destruct Hpos as (n' & Hi & Hrep & [(Hdi & -> & ->)|[(Hlt & Hb & rest1 & Hpos & ->)|(Hlt & Hb & Hpos)]]);
    cbn in Hh.
  - assert (j = i) as -> by lia. assert (n' = n) as -> by congruence.
    destruct Hrep as (_ & _ & _ & _ & _ & Hr). rewrite (rep_null _ _ _ Hr Hnull). cbn.
    apply for_down_const. intros q Hq. unfold _find_next_above_step.
    rewrite (proj2 (Z.ltb_ge (Z.of_nat q) (depth p - 1))) by lia. done.
  - specialize (IHl (S i) p c rest1 n j Hpos ltac:(lia) Hd Hn Hnull).
    rewrite for_down_step by lia. destruct rest1 as [|c1 rest1]; cbn.
    + rewrite IHl. unfold _find_next_above_step. rewrite Hb.
      rewrite (proj2 (Z.ltb_lt (Z.of_nat i) (depth p - 1))) by lia. cbn.
      eexists. split; [done|]. exists n'. split; [done|]. split; [done|]. left. cbn.
      pose proof (depth_u8 _ cfg_ok). rewrite wrapu_small by (unfold in_u; lia).
      split; [lia|]. auto.
    + destruct IHl as (d & -> & Hpos'). exists d. split; [done|].
      exists n'. split; [done|]. split; [done|]. right; left.
      destruct (at_pos_node _ _ _ _ _ _ Hpos') as (j' & _ & _ & _ & Hd' & Hj' & _).
      cbn in Hd'. split; [cbn; lia|]. split; [done|]. eauto.
  - specialize (IHr (S i) p c rest n j Hpos ltac:(lia) Hd Hn Hnull).
    rewrite for_down_step by lia. destruct rest as [|c1 rest1].
    + rewrite IHr. unfold _find_next_above_step. rewrite Hb. by rewrite andb_false_r.
    + destruct IHr as (d & -> & Hpos'). exists d. split; [done|].
      exists n'. split; [done|]. split; [done|]. right; right.
      destruct (at_pos_node _ _ _ _ _ _ Hpos') as (j' & _ & _ & _ & Hd' & Hj' & _).
      cbn in Hd'. split; [cbn; lia|]. auto.
Qed.

(** [_find_next] moves to the next entry of the in-order listing; at the
    end it reports so and stays. *)
Lemma _find_next_spec σ t p c rest :
  at_pos σ t 0 p c rest -> path_wf p -> (height t <= MAXD)%nat ->
  match rest with
  | [] => exists p', _find_next cfg σ p = Ok (false, p') /\ path_wf p' /\ at_pos σ t 0 p' c []
  | c' :: rest' =>
      exists p', _find_next cfg σ p = Ok (true, p') /\ path_wf p' /\ at_pos σ t 0 p' c' rest'
  end.
Proof.
  intros Hpos Hwf Hh.
  destruct (at_pos_split _ _ _ _ _ _ Hpos) as (j & n & rt & above & Hd & Hij & Hn & Hrt & Hhr & -> & Hp).
  set (pr := set_branch j TREE_PATH_RIGHT p).
  assert (path_wf pr) as Hwfr by (destruct Hwf; split; cbn; by rewrite ?length_insert).
  assert (branches pr !! j = Some TREE_PATH_RIGHT) as Hbr.
  { cbn. apply list_lookup_insert_eq. destruct Hwf as [_ ->]. lia. }
  unfold _find_next. rewrite (_find_next_below_loop _ _ j n) by (done || lia). fold pr.
  destruct (elements rt) as [|c1 rest1] eqn:Hel.
  - assert (hasheq (right n) NULL_HASH = true) as Hnull.
    { apply not_false_iff_true. intros Hf. by apply (rep_nonnull _ _ _ Hrt Hf). }
    rewrite _descend_left_null, !res_bind_Ok by done. cbn [app] in *.
    destruct (Hp pr c above) as [Hsame _]; [done|intros q Hq; cbn; by rewrite list_lookup_insert_ne by lia|].
    specialize (Hsame eq_refl).
    pose proof (_find_next_above_loop σ t 0 pr c above n j Hsame Hh Hd Hn Hnull) as Habove.
    unfold _find_next_above. destruct above as [|c' rest'].
    + rewrite Habove. by exists pr.
    + destruct Habove as (d & -> & Hpos'). by exists (set_depth d pr).
  - destruct (_descend_left_loop σ rt (S j) (right n) pr false c1 rest1)
      as (h' & p' & -> & Hwf' & Hpre & Hpos'); [done|done|lia|done|].
    rewrite !res_bind_Ok. cbn [app]. exists p'. split; [done|]. split; [done|].
    destruct (at_pos_node _ _ _ _ _ _ Hpos') as (j' & _ & _ & _ & Hd' & Hj' & _).
    apply Hp.
    + intros q Hq. destruct (Hpre q) as [-> _]; [lia|done].
    + intros q Hq. destruct (Hpre q) as [_ ->]; [lia|]. cbn. by rewrite list_lookup_insert_ne by lia.
    + destruct (Hpre j) as [_ ->]; [lia|done].
    + lia.
    + done.
Qed.

(** The loop that ends the range searches looks at the next
    [MAX_TREE_RESULTS] entries and copies the accepted ones. *)
Lemma collect_next_spec σ t test p c rest rs l :
  at_pos σ t 0 p c rest -> path_wf p -> (height t <= MAXD)%nat -> rs_is cfg rs l ->
  exists rs', collect_next cfg σ test p rs = Ok rs' /\
    rs_is cfg rs' (l ++ pairs (selected test (take (MAX_TREE_RESULTS cfg) rest))).
Proof.
  intros Hpos Hwf Hh Hrs. unfold collect_next.
  match goal with |- context [for_upM 0 ?M ?body ?s] =>
    destruct (for_upM_ind
      (fun i '(p, rs) => exists c', path_wf p /\ at_pos σ t 0 p c' (drop i rest) /\
         rs_is cfg rs (l ++ pairs (selected test (take i rest))))
      0 M body s) as ([p' rs'] & -> & c' & _ & _ & Hrs')
  end; [lia| | |].
  - exists c. by rewrite take_0, app_nil_r.
  - intros i [q rs1] Hi (c1 & Hwf1 & Hpos1 & Hrs1).
    pose proof (_find_next_spec _ _ _ _ _ Hpos1 Hwf1 Hh) as Hnext.
    destruct (drop i rest) as [|c2 rest2] eqn:Hdrop.
    + destruct Hnext as (q' & -> & Hwf2 & Hpos2). exists (q', rs1). split; [done|].
      exists c1. assert (length rest <= i)%nat.
      { pose proof (length_drop rest i) as Hld. rewrite Hdrop in Hld. cbn in Hld. lia. }
      rewrite drop_ge, take_ge in * by lia. done.
    + destruct Hnext as (q' & -> & Hwf2 & Hpos2). exists (q', copy_current cfg test q' rs1).
      split; [done|]. exists c2. split; [done|].
      assert (rest !! i = Some c2) as Hi2.
      { rewrite <- (Nat.add_0_r i), <- lookup_drop, Hdrop. done. }
      assert (drop (S i) rest = rest2) as ->.
      { by rewrite (drop_S _ _ _ Hi2) in Hdrop; injection Hdrop. }
      split; [done|].
      pose proof (copy_current_spec _ _ _ _ _ test _ _ Hwf2 Hpos2 Hrs1) as Hcc.
      rewrite (take_S_r _ _ _ Hi2), selected_app, pairs_app, app_assoc, selected_cons.
      by destruct (test c2.1).
  - exists rs'. done.
Qed.

End Paths.
