(* ===== verification/TreeSearch.v ===== *)
(** What the searches of [TreeCore.v] return on a represented search tree. *)
From Stdlib Require Import ZArith Lia Sorted.
From stdpp Require Import base numbers list.
From S2P Require Import Prelude BlockStore TreeCore TreeFacts TreePaths.

Local Open Scope Z_scope.

(** ** Sorted listings *)

Lemma sorted_app (l1 l2 : list Z) :
  StronglySorted Z.lt (l1 ++ l2) <->
  StronglySorted Z.lt l1 /\ StronglySorted Z.lt l2 /\
  (forall x y, x ∈ l1 -> y ∈ l2 -> x < y).
Proof.
  induction l1 as [|a l1 IH]; cbn.
  - split; [|by intros (_ & ? & _)]. intros Hs. split; [constructor|]. split; [done|].
    intros x y Hx. by apply not_elem_of_nil in Hx.
  - split.
    + intros Hs. inversion Hs as [|? ? Hs' Hf]; subst. apply IH in Hs' as (Hs1 & Hs2 & Hlt).
      rewrite Forall_app in Hf. destruct Hf as [Hf1 Hf2].
      split; [by constructor|]. split; [done|]. intros x y Hx Hy.
      apply elem_of_cons in Hx as [->|Hx]; [|by apply Hlt].
      by eapply (proj1 (Forall_forall _ _) Hf2).
    + intros (Hs1 & Hs2 & Hlt). inversion Hs1 as [|? ? Hs1' Hf]; subst. constructor.
      * apply IH. split; [done|]. split; [done|]. intros x y Hx Hy. apply Hlt; [by right|done].
      * apply Forall_app. split; [done|]. apply Forall_forall. intros y Hy. apply Hlt; [by left|done].
Qed.

Lemma bst_Bin {V} (l : tree V) k e r :
  bst (Bin l k e r) <->
  bst l /\ bst r /\ Forall (fun ke => ke.1 < k) (elements l) /\ Forall (fun ke => k < ke.1) (elements r).
Proof.
  unfold bst. cbn. rewrite fmap_app, fmap_cons. cbn. rewrite sorted_app. split.
  - intros (Hl & Hr & Hlt). inversion Hr as [|? ? Hr' Hf]; subst. split; [done|]. split; [done|].
    split.
    + apply Forall_forall. intros ke Hke. apply Hlt; [by apply (list_elem_of_fmap_2 fst)|by left].
    + exact (proj1 (Forall_fmap fst (Z.lt k) (elements r)) Hf).
  - intros (Hl & Hr & Hfl & Hfr). rewrite Forall_forall in Hfl. split; [done|]. split.
    + constructor; [done|]. exact (proj2 (Forall_fmap fst (Z.lt k) (elements r)) Hfr).
    + intros x y (kx & -> & Hx)%list_elem_of_fmap_1 [->|Hy]%elem_of_cons; [by apply Hfl|].
      apply list_elem_of_fmap_1 in Hy as (ky & -> & Hy). rewrite Forall_forall in Hfr.
      specialize (Hfl _ Hx). specialize (Hfr _ Hy). lia.
Qed.

Lemma selected_all {V} test (l : list (Z * list V)) :
  Forall (fun ke => test ke.1 = true) l -> selected test l = l.
Proof. induction 1 as [|ke l Hke _ IH]; [done|]. by rewrite selected_cons, Hke, IH. Qed.

Lemma selected_none {V} test (l : list (Z * list V)) :
  Forall (fun ke => test ke.1 = false) l -> selected test l = [].
Proof. induction 1 as [|ke l Hke _ IH]; [done|]. by rewrite selected_cons, Hke. Qed.

(** A test closed downwards selects a prefix of a sorted listing. *)
Lemma selected_take {V} test (l : list (Z * list V)) n :
  StronglySorted Z.lt l.*1 ->
  (forall x y, x < y -> test y = true -> test x = true) ->
  selected test (take n l) = take n (selected test l).
Proof.
  intros Hs Hdown. revert n. induction l as [|ke l IH]; intros n; [by rewrite take_nil, selected_nil, take_nil|].
  inversion Hs as [|? ? Hs' Hf]; subst.
  destruct n as [|n]; [done|]. cbn [take]. rewrite !selected_cons.
  destruct (test ke.1) eqn:Ht; cbn [take]; [by rewrite IH|].
  assert (Forall (fun ke => test ke.1 = false) l) as Hnone.
  { apply (proj1 (Forall_fmap fst _ _)) in Hf. eapply Forall_impl; [exact Hf|]. intros ke' Hlt.
    apply not_true_is_false. intros Ht'. rewrite (Hdown _ _ Hlt Ht') in Ht. done. }
  rewrite (selected_none _ _ Hnone), selected_none by (by apply Forall_take).
  by rewrite take_nil.
Qed.

(** With no key erased, [n] entries hold at least [n] values. *)
Lemma take_pairs {V} n m (l : list (Z * list V)) :
  Forall (fun ke => ke.2 <> []) l -> (n <= m)%nat ->
  take n (pairs (take m l)) = take n (pairs l).
Proof.
  intros Hl. revert n m. induction Hl as [|[k e] l He Hl IH]; intros n m Hnm; [by rewrite take_nil|].
  destruct m as [|m]; [by replace n with 0%nat by lia|]. cbn in *.
  destruct e as [|v e]; [done|]. cbn. destruct n as [|n]; [done|]. cbn. f_equal.
  rewrite !take_app. f_equal. apply IH. lia.
Qed.

Lemma Forall_selected {V} (P : Z * list V -> Prop) test l :
  Forall P l -> Forall P (selected test l).
Proof. induction 1 as [|ke l Hke _ IH]; [done|]. rewrite selected_cons.
  destruct (test ke.1); auto. Qed.

Lemma selected_Forall {V} (P : Z * list V -> Prop) test (l : list (Z * list V)) :
  Forall P l -> Forall P (selected test l).
Proof.
  induction 1 as [|x l Hx _ IH]; [constructor|]. rewrite selected_cons.
  destruct (test x.1); [by constructor|done].
Qed.

Section Search.
Context {V N : Type} `{TreeNodeLaws V N} `{BlockStoreLaws N} `{Inhabited N}.
Context (cfg : tree_config) (cfg_ok : config_ok cfg).
Context (node_ok : N -> tree V -> tree V -> Prop).

Abbreviation rep := (rep cfg node_ok).
Abbreviation MAXD := (MAX_TREE_DEPTH cfg).
Abbreviation MAXR := (MAX_TREE_RESULTS cfg).

(** ** Lookup by key *)

Definition find_eq_step (σ : store N) (k : Z) (s : bool * hash_t * tree_result_set_t V)
  : res (bool * hash_t * tree_result_set_t V) :=
  let '(found, node_hash, rs) := s in
  if negb found && negb (hasheq node_hash NULL_HASH) then
    node ← hashget node_hash σ;
    if k =? key node then Ok (true, node_hash, _copy_results cfg rs node)
    else if k <? key node then Ok (found, left node, rs)
    else Ok (found, right node, rs)
  else Ok s.

Lemma find_eq_step_node σ k h rs n :
  hasheq h NULL_HASH = false -> hashget h σ = Ok n ->
  find_eq_step σ k (false, h, rs) =
  Ok (if k =? key n then (true, h, _copy_results cfg rs n)
      else if k <? key n then (false, left n, rs) else (false, right n, rs)).
Proof.
  intros Hnn Hget. unfold find_eq_step. rewrite Hnn. cbn [negb andb].
  rewrite Hget, res_bind_Ok. by destruct (k =? key n); [|destruct (k <? key n)].
Qed.

Lemma find_eq_loop σ k t : forall i h rs,
  rep σ h t -> (i + height t <= MAXD)%nat -> rs_is cfg rs [] ->
  exists found h' rs',
    for_upM i MAXD (fun _ => find_eq_step σ k) (false, h, rs) = Ok (found, h', rs') /\
    rs_is cfg rs' (map (pair k) (default [] (lookup_key k t))).
Proof.
  assert (forall i found h rs, found = true \/ hasheq h NULL_HASH = true ->
    for_upM i MAXD (fun _ => find_eq_step σ k) (found, h, rs) = Ok (found, h, rs)) as Hstuck.
  { intros i found h rs Hs. apply for_upM_const. intros j _. unfold find_eq_step.
    destruct Hs as [->| ->]; [done|]. by rewrite andb_false_r. }
  induction t as [|l IHl k' e r IHr]; intros i h rs Hrep Hh Hrs.
  { exists false, h, rs. rewrite Hstuck by auto. done. }
  apply rep_Bin in Hrep as (Hnn & n & Hget & Hn). cbn in Hh.
  destruct Hn as (Hk & Hv & He & _ & Hl & Hr).
  rewrite for_upM_step by lia. rewrite (find_eq_step_node _ _ _ _ n), res_bind_Ok, Hk by done. cbn.
  destruct (Z.eqb_spec k k') as [->|Hne]; [|destruct (k <? k')].
  - rewrite Hstuck by auto. eexists _, _, _. split; [done|].
    pose proof (_copy_results_spec cfg cfg_ok rs n [] Hv Hrs) as Hc. cbn in Hc. rewrite Hk, He in Hc. done.
  - apply IHl; [done|lia|done].
  - apply IHr; [done|lia|done].
Qed.

(** [tree_find_eq] returns the values under the key, whatever the result
    set held. *)
Lemma tree_find_eq_spec σ root t k rs :
  rep σ root t -> (height t <= MAXD)%nat -> length (results rs) = MAXR ->
  exists rs', tree_find_eq cfg σ root k rs = Ok rs' /\
    rs_is cfg rs' (map (pair k) (default [] (lookup_key k t))).
Proof.
  intros Hrep Hh Hlen. unfold tree_find_eq.
  destruct (find_eq_loop σ k t 0 root {| num_results := 0; results := results rs |})
    as (found & h' & rs' & Heq & Hrs'); [done|done| |].
  - by apply rs_is_reset.
  - exists rs'. split; [|done]. unfold find_eq_step in Heq. by rewrite Heq.
Qed.

(** ** Where a search path ends *)

(** The search for [k] ends at an entry [c] that splits the listing: the
    keys before it are smaller than [k] and the keys after it larger. *)
Lemma on_path_at_pos σ k t : forall i p found,
  on_path cfg node_ok σ k t i p found -> bst t -> t <> Leaf ->
  exists c rest pre,
    at_pos cfg node_ok σ t i p c rest /\ elements t = pre ++ c :: rest /\
    Forall (fun ke => ke.1 < k) pre /\ Forall (fun ke => k < ke.1) rest /\
    found = (k =? c.1).
Proof.
  induction t as [|l IHl k' e r IHr]; intros i p found Hp Hb Hne; [done|].
  destruct Hp as (n & Hn & Hrep & Hcase). apply bst_Bin in Hb as (Hbl & Hbr & Hfl & Hfr).
  destruct (Z.eqb_spec k k') as [->|Hkk]; [|destruct (Z.ltb_spec k k') as [Hlt|Hge]].
  - destruct Hcase as (_ & Hd & ->). exists (k', e), (elements r), (elements l).
    split; [exists n; split; [done|]; split; [done|]; by left|]. split; [done|]. split; [done|]. split; [done|].
    by rewrite Z.eqb_refl.
  - destruct Hcase as [Hbi Hon]. destruct l as [|ll lk le lr].
    + destruct Hon as [Hd ->]. exists (k', e), (elements r), []. split; [exists n; split; [done|]; split; [done|]; by left|].
      split; [done|]. split; [done|]. split.
      * eapply Forall_impl; [exact Hfr|]. cbn. intros; lia.
      * cbn. by rewrite (proj2 (Z.eqb_neq k k')).
    + destruct (IHl (S i) p found Hon Hbl ltac:(done)) as (c & rest & pre & Hpos & Hel & Hpre & Hrest & Hf).
      exists c, (rest ++ (k', e) :: elements r), pre.
      destruct (at_pos_node _ _ _ _ _ _ _ _ Hpos) as (j & _ & _ & _ & Hd & Hj & _).
      split; [exists n; split; [done|]; split; [done|]; right; left; split; [lia|]; eauto|].
      split; [cbn [elements] in *; rewrite Hel, <- app_assoc; done|]. split; [done|].
      split; [|done]. apply Forall_app. split; [done|]. constructor; [done|].
      eapply Forall_impl; [exact Hfr|]. cbn. intros; lia.
  - destruct Hcase as [Hbi Hon]. destruct r as [|rl rk re rr].
    + destruct Hon as [Hd ->]. exists (k', e), [], (elements l). split; [exists n; split; [done|]; split; [done|]; by left|].
      split; [done|]. split; [|split; [done|]].
      * eapply Forall_impl; [exact Hfl|]. cbn. intros; lia.
      * cbn. by rewrite (proj2 (Z.eqb_neq k k')).
    + destruct (IHr (S i) p found Hon Hbr ltac:(done)) as (c & rest & pre & Hpos & Hel & Hpre & Hrest & Hf).
      exists c, rest, (elements l ++ (k', e) :: pre).
      destruct (at_pos_node _ _ _ _ _ _ _ _ Hpos) as (j & _ & _ & _ & Hd & Hj & _).
      split; [exists n; split; [done|]; split; [done|]; right; right; split; [lia|]; eauto|].
      split; [cbn [elements] in *; rewrite Hel, <- app_assoc; done|].
      split; [|done]. apply Forall_app. split; [eapply Forall_impl; [exact Hfl|]; cbn; intros; lia|].
      constructor; [cbn; lia|done].
Qed.

(** ** Range searches *)

Definition lt_test (k : Z) (equal_to : bool) (nk : Z) : bool := (nk <? k) || (equal_to && (nk =? k)).
Definition gt_test (k : Z) (equal_to : bool) (nk : Z) : bool := (k <? nk) || (equal_to && (nk =? k)).
Definition range_test (lo : Z) (lo_eq : bool) (hi : Z) (hi_eq : bool) (nk : Z) : bool :=
  gt_test lo lo_eq nk && lt_test hi hi_eq nk.

(** Every key of the tree carries a value: nothing was removed. *)
Definition no_erased (t : tree V) : Prop := Forall (fun ke => ke.2 <> []) (elements t).

(** The first entry is always reported; the others when their key is
    below the bound. *)
Lemma find_lt_into_spec σ root t k equal_to rs l :
  rep σ root t -> (height t <= MAXD)%nat -> rs_is cfg rs l ->
  exists rs', find_lt_into cfg σ root k equal_to rs = Ok rs' /\
    rs_is cfg rs' (l ++ match elements t with
                        | [] => []
                        | c :: rest => pairs (c :: selected (lt_test k equal_to) (take MAXR rest))
                        end).
Proof.
  intros Hrep Hh Hrs. unfold find_lt_into.
  pose proof (_find_first_spec cfg cfg_ok node_ok σ root t (empty_path cfg) Hrep Hh (empty_path_wf cfg)) as Hf.
  destruct (elements t) as [|c rest].
  - destruct Hf as (p' & ->). exists rs. by rewrite app_nil_r.
  - destruct Hf as (p' & -> & Hwf & Hpos). rewrite res_bind_Ok.
    pose proof (copy_current_spec cfg cfg_ok node_ok _ _ _ _ _ (fun _ => true) _ _ Hwf Hpos Hrs) as Hc.
    destruct (collect_next_spec cfg cfg_ok node_ok σ t (lt_test k equal_to) p' c rest _ _ Hpos Hwf Hh Hc)
      as (rs' & Heq & Hrs').
    exists rs'. split; [exact Heq|]. rewrite <- app_assoc in Hrs'.
    change (c :: selected (lt_test k equal_to) (take MAXR rest))
      with ([c] ++ selected (lt_test k equal_to) (take MAXR rest)).
    by rewrite pairs_app.
Qed.

Lemma find_gt_into_spec σ root t k equal_to rs l :
  rep σ root t -> (height t <= MAXD)%nat -> bst t -> rs_is cfg rs l ->
  exists rs' n, find_gt_into cfg σ root k equal_to rs = Ok rs' /\ (MAXR <= n)%nat /\
    rs_is cfg rs' (l ++ pairs (take n (selected (gt_test k equal_to) (elements t)))).
Proof.
  intros Hrep Hh Hb Hrs. unfold find_gt_into.
  destruct (_find_path_spec cfg cfg_ok node_ok σ root k t (empty_path cfg) Hrep Hh (empty_path_wf cfg) eq_refl)
    as (found & p' & -> & Hwf & Hon).
  rewrite res_bind_Ok. assert (t = Leaf \/ t <> Leaf) as [->|Hne] by (destruct t; auto).
  { destruct Hon as [Hd _]. rewrite Hd. cbn. exists rs, MAXR. rewrite selected_nil, take_nil. cbn. by rewrite app_nil_r. }
  destruct (on_path_at_pos _ _ _ _ _ _ Hon Hb Hne) as (c & rest & pre & Hpos & Hel & Hpre & Hrest & Hfound).
  destruct (at_pos_node _ _ _ _ _ _ _ _ Hpos) as (j & _ & _ & _ & Hd & Hj & _).
  rewrite (proj2 (Z.ltb_lt 0 (depth p'))) by lia.
  pose proof (copy_current_spec cfg cfg_ok node_ok _ _ _ _ _
    (fun nk => (found && equal_to) || (k <? nk)) _ _ Hwf Hpos Hrs) as Hc.
  destruct (collect_next_spec cfg cfg_ok node_ok σ t (fun _ => true) p' c rest _ _ Hpos Hwf Hh Hc)
    as (rs' & Heq & Hrs').
  assert (selected (gt_test k equal_to) pre = []) as Hpre'.
  { apply selected_none. eapply Forall_impl; [exact Hpre|]. intros ke Hlt. cbv beta in Hlt. unfold gt_test.
    destruct (Z.ltb_spec k ke.1), (Z.eqb_spec ke.1 k); try lia; by rewrite ?andb_false_r. }
  assert (selected (gt_test k equal_to) rest = rest) as Hrest'.
  { apply selected_all. eapply Forall_impl; [exact Hrest|]. intros ke Hlt. cbv beta in Hlt. unfold gt_test.
    by rewrite (proj2 (Z.ltb_lt k ke.1)). }
  assert ((found && equal_to) || (k <? c.1) = gt_test k equal_to c.1) as Htest.
  { subst found. unfold gt_test. destruct equal_to; bool_cases; cbn; try done; lia. }
  rewrite Htest in Hrs'.
  exists rs', (if gt_test k equal_to c.1 then S MAXR else MAXR). split; [exact Heq|].
  split; [destruct (gt_test k equal_to c.1); lia|].
  rewrite Hel, selected_app, Hpre', selected_cons. cbn [app].
  rewrite (selected_all (fun _ => true)) in Hrs' by (by apply Forall_forall).
  destruct (gt_test k equal_to c.1); cbn in *; rewrite Hrest'.
  - by rewrite app_nil_r, <- app_assoc in Hrs'.
  - by rewrite app_nil_r in Hrs'.
Qed.

Lemma find_range_into_spec σ root t lo lo_eq hi hi_eq rs l :
  rep σ root t -> (height t <= MAXD)%nat -> bst t -> lo < hi -> rs_is cfg rs l ->
  exists rs' n, find_range_into cfg σ root lo lo_eq hi hi_eq rs = Ok rs' /\ (MAXR <= n)%nat /\
    rs_is cfg rs' (l ++ pairs (take n (selected (range_test lo lo_eq hi hi_eq) (elements t)))).
Proof.
  intros Hrep Hh Hb Hlohi Hrs. unfold find_range_into.
  destruct (_find_path_spec cfg cfg_ok node_ok σ root lo t (empty_path cfg) Hrep Hh (empty_path_wf cfg) eq_refl)
    as (found & p' & -> & Hwf & Hon).
  rewrite res_bind_Ok. assert (t = Leaf \/ t <> Leaf) as [->|Hne] by (destruct t; auto).
  { destruct Hon as [Hd _]. rewrite Hd. cbn. exists rs, MAXR. rewrite selected_nil, take_nil. cbn. by rewrite app_nil_r. }
  destruct (on_path_at_pos _ _ _ _ _ _ Hon Hb Hne) as (c & rest & pre & Hpos & Hel & Hpre & Hrest & Hfound).
  destruct (at_pos_node _ _ _ _ _ _ _ _ Hpos) as (j & _ & _ & _ & Hd & Hj & _).
  rewrite (proj2 (Z.ltb_lt 0 (depth p'))) by lia.
  pose proof (copy_current_spec cfg cfg_ok node_ok _ _ _ _ _
    (fun nk => (found && lo_eq) || ((lo <? nk) && (nk <? hi)) || (hi_eq && (nk =? hi)))
    _ _ Hwf Hpos Hrs) as Hc.
  destruct (collect_next_spec cfg cfg_ok node_ok σ t (lt_test hi hi_eq) p' c rest _ _ Hpos Hwf Hh Hc)
    as (rs' & Heq & Hrs').
  set (T := range_test lo lo_eq hi hi_eq) in *.
  assert (selected T pre = []) as Hpre'.
  { apply selected_none. eapply Forall_impl; [exact Hpre|]. intros ke Hlt. cbv beta in Hlt. unfold T, range_test, gt_test.
    destruct (Z.ltb_spec lo ke.1), (Z.eqb_spec ke.1 lo); try lia; by rewrite ?andb_false_r. }
  assert (selected T rest = selected (lt_test hi hi_eq) rest) as Hrest'.
  { clear -Hrest. induction Hrest as [|ke rest Hke _ IH]; [done|]. rewrite !selected_cons, IH.
    unfold T, range_test, gt_test. by rewrite (proj2 (Z.ltb_lt lo ke.1)). }
  assert ((found && lo_eq) || ((lo <? c.1) && (c.1 <? hi)) || (hi_eq && (c.1 =? hi)) = T c.1) as Htest.
  { subst found. unfold T, range_test, gt_test, lt_test.
    destruct lo_eq, hi_eq; bool_cases; cbn; try done; lia. }
  rewrite Htest in Hrs'.
  assert (StronglySorted Z.lt rest.*1) as Hsr.
  { unfold bst in Hb. rewrite Hel, fmap_app, fmap_cons in Hb.
    apply sorted_app in Hb as (_ & Hb & _). by inversion Hb. }
  rewrite selected_take, <- Hrest' in Hrs'; [|done|].
  2:{ intros x y Hxy. unfold lt_test. destruct hi_eq; bool_cases; cbn; try done; lia. }
  exists rs', (if T c.1 then S MAXR else MAXR). split; [exact Heq|].
  split; [destruct (T c.1); lia|].
  rewrite Hel, selected_app, Hpre', selected_cons. cbn [app].
  destruct (T c.1); cbn in *.
  - by rewrite app_nil_r, <- app_assoc in Hrs'.
  - by rewrite app_nil_r in Hrs'.
Qed.

End Search.
