(* ===== verification/TreeEdit.v ===== *)
(** A search path whose last node has been edited, for both trees: the
    plain change at a key, and the path that carries it. *)
From Stdlib Require Import ZArith Lia Sorted.
From stdpp Require Import base numbers list.
From S2P Require Import Prelude BlockStore TreeCore TreeFacts TreePaths TreeSearch.

Local Open Scope Z_scope.

Section Plain.
Context {V : Type}.
Implicit Types t l r : tree V.

(** ** The change at a key *)

(** The values under [k] become [f] of what they were. *)
Fixpoint alter_plain (k : Z) (f : option (list V) -> list V) t : tree V :=
  match t with
  | Leaf => Bin Leaf k (f None) Leaf
  | Bin l k' e r =>
      if k =? k' then Bin l k' (f (Some e)) r
      else if k <? k' then Bin (alter_plain k f l) k' e r
      else Bin l k' e (alter_plain k f r)
  end.

(** Length of the search path of a key. *)
Fixpoint search_depth (k : Z) t : nat :=
  match t with
  | Leaf => 0
  | Bin l k' _ r => S (if k =? k' then 0 else if k <? k' then search_depth k l else search_depth k r)
  end.

Lemma search_depth_height k t : (search_depth k t <= height t)%nat.
Proof. induction t as [|l IHl k' e r IHr]; cbn; [lia|]. destruct (k =? k'), (k <? k'); lia. Qed.

(** A key that is there leaves the heights as they are; a new one makes
    its path one longer. *)
Lemma alter_plain_height k f t D :
  (height t <= D)%nat -> is_Some (lookup_key k t) \/ (search_depth k t < D)%nat ->
  (height (alter_plain k f t) <= D)%nat.
Proof.
  revert D. induction t as [|l IHl k' e r IHr]; intros D Hh Hroom; cbn in *.
  - destruct Hroom as [[? [=]]|?]. lia.
  - destruct D as [|D]; [lia|]. destruct (k =? k'); [cbn; lia|].
    destruct (k <? k'); cbn; [specialize (IHl D)|specialize (IHr D)];
      (assert (forall a b c : nat, (a <= c)%nat -> (b <= c)%nat -> (S (Nat.max a b) <= S c)%nat) as Hm by lia);
      apply Hm; try lia; [apply IHl|apply IHr]; try lia; destruct Hroom; auto; right; lia.
Qed.

Lemma alter_plain_keys k f t ke :
  ke ∈ elements (alter_plain k f t) ->
  ke ∈ elements t \/ ke = (k, f (lookup_key k t)).
Proof.
  induction t as [|l IHl k' e r IHr]; cbn.
  - intros Hin%list_elem_of_singleton. auto.
  - destruct (Z.eqb_spec k k') as [->|]; [|destruct (k <? k')]; cbn; rewrite !elem_of_app, !elem_of_cons.
    + intros [?|[?|?]]; auto.
    + intros [Hl|?]; [apply IHl in Hl as [?|?]|]; auto.
    + intros [?|[?|Hr]]; [..|apply IHr in Hr as [?|?]]; auto.
Qed.

End Plain.

Section Edit.
Context {V N : Type} `{TreeNodeLaws V N} `{BlockStoreLaws N}.
Context (cfg : tree_config) (node_ok : N -> tree V -> tree V -> Prop).

Abbreviation node_rep := (node_rep cfg node_ok).
Abbreviation on_path := (on_path cfg node_ok).
Abbreviation path_wf := (path_wf cfg).
Implicit Types (σ : store N) (t l r : tree V) (n : N) (p : tree_path_t N).

(** ** The edited path *)

(** [p] leads from index [i] on to the place of [k] in [t], and its last
    node already has the new values [e']. *)
Fixpoint edited σ (k : Z) (e' : list V) t (i : nat) (p : tree_path_t N) : Prop :=
  match t with
  | Leaf => depth p = Z.of_nat (S i) /\ exists n b, nodes p !! i = Some n /\
              branches p !! i = Some b /\ node_rep σ n Leaf k e' Leaf
  | Bin l k' e r => exists n b, nodes p !! i = Some n /\ branches p !! i = Some b /\
      if k =? k' then depth p = Z.of_nat (S i) /\ node_rep σ n l k' e' r
      else node_rep σ n l k' e r /\
        if k <? k' then b = TREE_PATH_LEFT /\ edited σ k e' l (S i) p
        else b = TREE_PATH_RIGHT /\ edited σ k e' r (S i) p
  end.

Lemma edited_depth σ k e' t i p :
  edited σ k e' t i p -> Z.of_nat (S i) <= depth p <= Z.of_nat (S (i + height t)).
Proof.
  revert i. induction t as [|l IHl k' e r IHr]; intros i; cbn [edited height]; [lia|].
  intros (n & b & _ & _ & Hcase). destruct (k =? k'); [lia|]. destruct Hcase as [_ Hcase].
  destruct (k <? k'); destruct Hcase as [_ Hp]; [apply IHl in Hp|apply IHr in Hp]; lia.
Qed.

(** ** The place to change *)

Lemma on_path_hit σ k t e : forall i p,
  on_path σ k t i p true -> lookup_key k t = Some e ->
  exists j n l r, depth p = Z.of_nat (S j) /\ (i <= j)%nat /\ nodes p !! j = Some n /\
    node_rep σ n l k e r /\
    forall n' e', (j < length (nodes p))%nat -> node_rep σ n' l k e' r ->
      edited σ k e' t i (set_node j n' p).
Proof.
  induction t as [|l IHl k' e0 r IHr]; intros i p; [done|].
  intros (n & Hn & Hrep & Hcase) Hk. cbn [lookup_key] in Hk. destruct (k =? k') eqn:Ekk.
  - injection Hk as <-. apply Z.eqb_eq in Ekk as <-. destruct Hcase as (Hb & Hd & _).
    exists i, n, l, r. do 4 (split; [done|]). intros n' e' Hlen Hrep'.
    exists n', TREE_PATH_EQUALS. rewrite Z.eqb_refl. split; [by apply list_lookup_insert_eq|]. done.
  - destruct (k <? k') eqn:Elt; destruct Hcase as [Hb Hp];
      [destruct (IHl (S i) p Hp Hk) as (j & m & l' & r' & ? & ? & ? & ? & Hed)
      |destruct (IHr (S i) p Hp Hk) as (j & m & l' & r' & ? & ? & ? & ? & Hed)];
      exists j, m, l', r'; (split; [done|]); (split; [lia|]); (split; [done|]); (split; [done|]);
      intros n' e' Hlen Hrep'; exists n; eexists; rewrite Ekk, Elt;
      (split; [cbn; rewrite list_lookup_insert_ne by lia; done|]);
      (split; [exact Hb|]); (split; [done|]); (split; [done|]); auto.
Qed.

Lemma on_path_miss σ k t : forall i p,
  on_path σ k t i p false -> path_wf p ->
  depth p = Z.of_nat (i + search_depth k t) /\ lookup_key k t = None /\
  forall n' e', (i + search_depth k t < (MAX_TREE_DEPTH cfg))%nat -> node_rep σ n' Leaf k e' Leaf ->
      edited σ k e' t i
        (set_node (i + search_depth k t) n' (set_depth (Z.of_nat (S (i + search_depth k t))) p)).
Proof.
  induction t as [|l IHl k' e0 r IHr]; intros i p; cbn [on_path].
  - intros (Hd & _) [Hwn Hwb]. cbn in Hwn, Hwb |- *. rewrite Nat.add_0_r. split; [lia|]. split; [done|].
    intros n' e' Hi Hrep. split; [done|].
    destruct (lookup_lt_is_Some_2 (branches p) i) as [b Hb]; [lia|].
    exists n', b. split; [apply list_lookup_insert_eq; lia|]. done.
  - intros (n & Hn & Hrep & Hcase) Hwf. cbn [lookup_key search_depth].
    destruct (k =? k') eqn:Ekk; [by destruct Hcase as (_ & _ & [=])|].
    destruct (k <? k') eqn:Elt; destruct Hcase as [Hb Hp];
      [destruct (IHl (S i) p Hp Hwf) as (Hd & Hk & Hed)|destruct (IHr (S i) p Hp Hwf) as (Hd & Hk & Hed)];
      rewrite <- Nat.add_succ_comm; (split; [done|]); (split; [done|]);
      intros n' e' Hi Hrep'; exists n; eexists; rewrite Ekk, Elt;
      (split; [cbn; rewrite list_lookup_insert_ne by lia; exact Hn|]);
      (split; [exact Hb|]); (split; [done|]); (split; [done|]); by apply Hed.
Qed.

End Edit.
