(* ===== verification/TreeMap.v ===== *)
(** The finite map a search tree denotes, and the change at a key as an
    insertion into it. *)
From Stdlib Require Import ZArith Lia Sorted.
From stdpp Require Import base numbers list gmap.
From S2P Require Import Prelude BlockStore TreeCore TreeFacts TreePaths TreeSearch TreeEdit.

Local Open Scope Z_scope.

Section Map.
Context {V : Type}.
Implicit Types t l r : tree V.

(** The same change on a sorted listing. *)
Fixpoint alter_list (k : Z) (f : option (list V) -> list V) (l : list (Z * list V))
  : list (Z * list V) :=
  match l with
  | [] => [(k, f None)]
  | (k', e) :: l' =>
      if k =? k' then (k', f (Some e)) :: l'
      else if k <? k' then (k, f None) :: l
      else (k', e) :: alter_list k f l'
  end.

Lemma alter_list_app_lt k f (l1 l2 : list (Z * list V)) :
  Forall (fun ke => ke.1 < k) l1 -> alter_list k f (l1 ++ l2) = l1 ++ alter_list k f l2.
Proof.
  induction 1 as [|[k' e] l1 Hlt _ IH]; cbn in *; [done|].
  rewrite (proj2 (Z.eqb_neq k k')), (proj2 (Z.ltb_ge k k')), IH by lia. done.
Qed.

Lemma alter_list_app_gt k f (l1 l2 : list (Z * list V)) k' e :
  k < k' -> alter_list k f (l1 ++ (k', e) :: l2) = alter_list k f l1 ++ (k', e) :: l2.
Proof.
  intros Hlt. induction l1 as [|[k1 e1] l1 IH]; cbn.
  - by rewrite (proj2 (Z.eqb_neq k k')), (proj2 (Z.ltb_lt k k')) by lia.
  - destruct (k =? k1); [done|]. destruct (k <? k1); [done|]. by rewrite IH.
Qed.

Lemma alter_plain_elements k f t :
  bst t -> elements (alter_plain k f t) = alter_list k f (elements t).
Proof.
  induction t as [|l IHl k' e r IHr]; intros Hb; [done|]. cbn.
  apply bst_Bin in Hb as (Hl & Hr & Hfl & Hfr).
  destruct (Z.eqb_spec k k') as [->|Hne]; [|destruct (Z.ltb_spec k k')]; cbn.
  - rewrite alter_list_app_lt by done. cbn. by rewrite Z.eqb_refl.
  - rewrite IHl by done. by rewrite alter_list_app_gt.
  - rewrite IHr, alter_list_app_lt by (done || (eapply Forall_impl; [exact Hfl|]; cbn; lia)).
    cbn. by rewrite (proj2 (Z.eqb_neq k k')), (proj2 (Z.ltb_ge k k')) by lia.
Qed.

Lemma alter_list_keys k f (l : list (Z * list V)) x :
  x ∈ (alter_list k f l).*1 -> x = k \/ x ∈ l.*1.
Proof.
  induction l as [|[k' e] l IH]; cbn.
  - intros Hx. left. by apply list_elem_of_singleton in Hx.
  - destruct (k =? k'); cbn; [auto|]. destruct (k <? k'); cbn.
    + intros [->|Hx]%elem_of_cons; auto.
    + intros [->|Hx]%elem_of_cons; [right; by left|]. apply IH in Hx as [->|Hx]; [auto|].
      right. by right.
Qed.

Lemma alter_list_sorted k f (l : list (Z * list V)) :
  StronglySorted Z.lt l.*1 -> StronglySorted Z.lt (alter_list k f l).*1.
Proof.
  induction l as [|[k' e] l IH]; cbn; intros Hs; [by repeat constructor|].
  inversion Hs as [|? ? Hs' Hf]; subst.
  destruct (Z.eqb_spec k k'); cbn; [done|]. destruct (Z.ltb_spec k k'); cbn.
  - constructor; [done|]. constructor; [done|]. eapply Forall_impl; [exact Hf|]. lia.
  - constructor; [auto|]. apply Forall_forall. intros x Hx.
    apply alter_list_keys in Hx as [->|Hx]; [lia|]. by eapply (proj1 (Forall_forall _ _) Hf).
Qed.

Lemma alter_plain_bst k f t : bst t -> bst (alter_plain k f t).
Proof.
  intros Hb. unfold bst. rewrite alter_plain_elements by done. by apply alter_list_sorted.
Qed.

(** The finite map a tree denotes. *)
Definition contents t : gmap Z (list V) := list_to_map (elements t).

Lemma lookup_list_none (l : list (Z * list V)) k :
  (forall x, x ∈ l.*1 -> x <> k) -> (list_to_map l : gmap Z (list V)) !! k = None.
Proof. intros Hk. apply not_elem_of_list_to_map. intros Hin. by apply (Hk k). Qed.

Lemma alter_list_map k f (l : list (Z * list V)) :
  StronglySorted Z.lt l.*1 ->
  (list_to_map (alter_list k f l) : gmap Z (list V))
  = <[k := f ((list_to_map l : gmap Z (list V)) !! k)]> (list_to_map l).
Proof.
  induction l as [|[k' e] l IH]; cbn [alter_list]; intros Hs; [done|].
  inversion Hs as [|? ? Hs' Hf]; subst.
  destruct (Z.eqb_spec k k') as [->|Hne]; [|destruct (Z.ltb_spec k k')]; cbn.
  - by rewrite lookup_insert_eq, insert_insert_eq.
  - rewrite lookup_insert_ne, lookup_list_none by
      (done || (intros x Hx; apply (proj1 (Forall_forall _ _) Hf) in Hx; lia)). done.
  - rewrite IH, lookup_insert_ne by done. by rewrite insert_insert_ne.
Qed.

Lemma contents_alter_plain k f t :
  bst t -> contents (alter_plain k f t) = <[k := f (contents t !! k)]> (contents t).
Proof.
  intros Hb. unfold contents. rewrite alter_plain_elements by done. by apply alter_list_map.
Qed.

(** Searching the tree is looking up the map. *)
Lemma lookup_key_contents k t : bst t -> lookup_key k t = contents t !! k.
Proof.
  unfold contents. induction t as [|l IHl k' e r IHr]; intros Hb; [done|]. cbn.
  apply bst_Bin in Hb as (Hl & Hr & Hfl & Hfr).
  rewrite list_to_map_app. cbn.
  assert (forall k, k' <= k -> (list_to_map (elements l) : gmap Z (list V)) !! k = None) as Hnl.
  { intros q Hq. apply lookup_list_none. intros x (kx & -> & Hx)%list_elem_of_fmap_1.
    apply (proj1 (Forall_forall _ _) Hfl) in Hx. lia. }
  assert (forall k, k <= k' -> (list_to_map (elements r) : gmap Z (list V)) !! k = None) as Hnr.
  { intros q Hq. apply lookup_list_none. intros x (kx & -> & Hx)%list_elem_of_fmap_1.
    apply (proj1 (Forall_forall _ _) Hfr) in Hx. lia. }
  destruct (Z.eqb_spec k k') as [->|Hne]; [|destruct (Z.ltb_spec k k')].
  - by rewrite lookup_union_r, lookup_insert_eq by (apply Hnl; lia).
  - rewrite IHl by done. rewrite lookup_union, lookup_insert_ne, Hnr by lia.
    by destruct (_ !! k).
  - rewrite IHr by done. by rewrite lookup_union_r, lookup_insert_ne by (apply Hnl || lia; lia).
Qed.

Lemma sorted_NoDup (l : list Z) : StronglySorted Z.lt l -> NoDup l.
Proof.
  induction 1 as [|a l _ IH Hf]; constructor; [|done].
  intros Hin. apply (proj1 (Forall_forall _ _) Hf) in Hin. lia.
Qed.

Lemma contents_size t : bst t -> size (contents t) = length (elements t).
Proof. intros Hb. apply map_size_list_to_map. by apply sorted_NoDup. Qed.

End Map.
