(* ===== verification/AvlTree.v ===== *)
(** The AVL tree of [compiler/cstdinc/avl_tree.h]: rotations, the rewrite of
    a path from the bottom up, and the operations on a tree in the block
    store.

    A tree is a root digest; each operation takes the store and the root
    and returns the store it leaves behind with the new root, next to its C
    result.  Locals start zeroed. *)
From Stdlib Require Import ZArith Lia.
From stdpp Require Import base numbers list.
From S2P Require Import Prelude BlockStore TreeCore.

Local Open Scope Z_scope.

(** [MAX_TREE_DEPTH], [MAX_TREE_RESULTS], [MAX_TREE_NODE_VALUES] *)
Definition avl_config : tree_config :=
  {| MAX_TREE_DEPTH := 12; MAX_TREE_RESULTS := 5; MAX_TREE_NODE_VALUES := 1 |}.

(** [struct tree_node]; keys are [int], values are [hash_t]. *)
Record tree_node_t := {
  n_left : hash_t;
  n_right : hash_t;
  n_key : Z;
  n_num_values : Z;
  n_values : list hash_t;
  n_height : Z;
  n_height_left : Z;
  n_height_right : Z
}.

Definition set_left (h : hash_t) (n : tree_node_t) : tree_node_t :=
  {| n_left := h; n_right := n_right n; n_key := n_key n;
     n_num_values := n_num_values n; n_values := n_values n;
     n_height := n_height n; n_height_left := n_height_left n;
     n_height_right := n_height_right n |}.
Definition set_right (h : hash_t) (n : tree_node_t) : tree_node_t :=
  {| n_left := n_left n; n_right := h; n_key := n_key n;
     n_num_values := n_num_values n; n_values := n_values n;
     n_height := n_height n; n_height_left := n_height_left n;
     n_height_right := n_height_right n |}.
(** Stores into the three [uint8_t] height fields. *)
Definition set_heights (h hl hr : Z) (n : tree_node_t) : tree_node_t :=
  {| n_left := n_left n; n_right := n_right n; n_key := n_key n;
     n_num_values := n_num_values n; n_values := n_values n;
     n_height := u8 h; n_height_left := u8 hl; n_height_right := u8 hr |}.

#[export] Instance avl_node : TreeNode hash_t tree_node_t := {
  left := n_left;
  right := n_right;
  key := n_key;
  num_values := n_num_values;
  values := n_values;
  set_num_values := fun k n =>
    {| n_left := n_left n; n_right := n_right n; n_key := n_key n;
       n_num_values := k; n_values := n_values n; n_height := n_height n;
       n_height_left := n_height_left n; n_height_right := n_height_right n |};
  set_values := fun vs n =>
    {| n_left := n_left n; n_right := n_right n; n_key := n_key n;
       n_num_values := n_num_values n; n_values := vs; n_height := n_height n;
       n_height_left := n_height_left n; n_height_right := n_height_right n |}
}.

#[export] Instance avl_node_laws : TreeNodeLaws hash_t tree_node_t.
Proof. split; reflexivity. Qed.

(** A zeroed node. *)
#[export] Instance avl_node_zero : Inhabited tree_node_t := populate
  {| n_left := NULL_HASH; n_right := NULL_HASH; n_key := 0; n_num_values := 0;
     n_values := [NULL_HASH]; n_height := 0; n_height_left := 0; n_height_right := 0 |}.

Definition MAX (a b : Z) : Z := if b >? a then b else a.

Definition _value_equals (v1 v2 : hash_t) : bool := hasheq v1 v2.

Section Avl.
Context {BS : BlockStore tree_node_t}.

Abbreviation tree_path_t := (tree_path_t tree_node_t).
Abbreviation tree_result_set_t := (tree_result_set_t hash_t).
Abbreviation store := (store tree_node_t).

(** ** Rotations *)

Definition _rotate_left_left (root : tree_node_t) (σ : store) : res (tree_node_t * store) :=
  let old_root := root in
  root ← hashget (n_left root) σ;
  let old_root := set_left (n_right root) old_root in
  let old_root := set_heights (MAX (n_height_right root) (n_height_right old_root) + 1)
                    (n_height_right root) (n_height_right old_root) old_root in
  let '(h, σ) := hashput old_root σ in
  let root := set_right h root in
  Ok (set_heights (MAX (n_height_left root) (n_height old_root) + 1)
        (n_height_left root) (n_height old_root) root, σ).

Definition _rotate_right_right (root : tree_node_t) (σ : store) : res (tree_node_t * store) :=
  let old_root := root in
  root ← hashget (n_right root) σ;
  let old_root := set_right (n_left root) old_root in
  let old_root := set_heights (MAX (n_height_left old_root) (n_height_left root) + 1)
                    (n_height_left old_root) (n_height_left root) old_root in
  let '(h, σ) := hashput old_root σ in
  let root := set_left h root in
  Ok (set_heights (MAX (n_height old_root) (n_height_right root) + 1)
        (n_height old_root) (n_height_right root) root, σ).

Definition _rotate_left_right (root : tree_node_t) (σ : store) : res (tree_node_t * store) :=
  let old_root := root in
  left ← hashget (n_left root) σ;
  left_right ← hashget (n_right left) σ;
  let old_root := set_left (n_right left_right) old_root in
  let old_root := set_heights (MAX (n_height_right left_right) (n_height_right old_root) + 1)
                    (n_height_right left_right) (n_height_right old_root) old_root in
  let left := set_right (n_left left_right) left in
  let left := set_heights (MAX (n_height_left left) (n_height_left left_right) + 1)
                (n_height_left left) (n_height_left left_right) left in
  let root := left_right in
  let root := set_heights (MAX (n_height left) (n_height old_root) + 1)
                (n_height left) (n_height old_root) root in
  let '(hl, σ) := hashput left σ in
  let root := set_left hl root in
  let '(hr, σ) := hashput old_root σ in
  Ok (set_right hr root, σ).

Definition _rotate_right_left (root : tree_node_t) (σ : store) : res (tree_node_t * store) :=
  let old_root := root in
  right ← hashget (n_right root) σ;
  right_left ← hashget (n_left right) σ;
  let old_root := set_right (n_left right_left) old_root in
  let old_root := set_heights (MAX (n_height_left right_left) (n_height_left old_root) + 1)
                    (n_height_left old_root) (n_height_left right_left) old_root in
  let right := set_left (n_right right_left) right in
  let right := set_heights (MAX (n_height_right right) (n_height_right right_left) + 1)
                 (n_height_right right_left) (n_height_right right) right in
  let root := right_left in
  let root := set_heights (MAX (n_height right) (n_height old_root) + 1)
                (n_height old_root) (n_height right) root in
  let '(hr, σ) := hashput right σ in
  let root := set_right hr root in
  let '(hl, σ) := hashput old_root σ in
  Ok (set_left hl root, σ).

(** ** From a changed path to a new root *)

(** The two branches of the rebalancing: [previous_node] is the child on
    the path, [node] its parent with the new height. *)
Definition _rebalance_left (previous_node node : tree_node_t) (σ : store)
  : res (tree_node_t * store) :=
  if n_height_left node - n_height_right node =? 2 then
    if n_height_left previous_node - n_height_right previous_node =? 1
    then _rotate_left_left node σ
    else _rotate_left_right node σ
  else Ok (node, σ).

Definition _rebalance_right (previous_node node : tree_node_t) (σ : store)
  : res (tree_node_t * store) :=
  if n_height_left node - n_height_right node =? -2 then
    if n_height_left previous_node - n_height_right previous_node =? -1
    then _rotate_right_right node σ
    else _rotate_right_left node σ
  else Ok (node, σ).

(** The new link and heights of a node on the path, for a left and for a
    right branch. *)
Definition _relink_left (node_hash : hash_t) (previous_node node : tree_node_t) : tree_node_t :=
  let node := set_left node_hash node in
  set_heights (MAX (n_height previous_node) (n_height_right node) + 1)
    (n_height previous_node) (n_height_right node) node.

Definition _relink_right (node_hash : hash_t) (previous_node node : tree_node_t) : tree_node_t :=
  let node := set_right node_hash node in
  set_heights (MAX (n_height_left node) (n_height previous_node) + 1)
    (n_height_left node) (n_height previous_node) node.

(** The loop state: [previous_node], [node_hash], the path, the store. *)
Abbreviation climb_state := (tree_node_t * hash_t * tree_path_t * store)%type.

Definition _recompute_step (i : nat) (s : climb_state) : res climb_state :=
  let '(previous_node, node_hash, path, σ) := s in
  if Z.of_nat i <? depth path then
    match nodes path !! i, branches path !! i with
    | Some node, Some branch =>
        r ← (if Z.of_nat i <? depth path - 1 then
               if branch =? TREE_PATH_LEFT then
                 _rebalance_left previous_node (_relink_left node_hash previous_node node) σ
               else if branch =? TREE_PATH_RIGHT then
                 _rebalance_right previous_node (_relink_right node_hash previous_node node) σ
               else Ok (node, σ)
             else Ok (node, σ));
        let '(node, σ) := r in
        let '(node_hash, σ) := hashput node σ in
        Ok (node, node_hash, set_node i node path, σ)
    | _, _ => Fault
    end
  else Ok s.

Definition _recompute_path (path : tree_path_t) (σ : store) : res (hash_t * store) :=
  s ← for_downM 0 (MAX_TREE_DEPTH avl_config) _recompute_step (inhabitant, NULL_HASH, path, σ);
  let '(_, node_hash, _, σ) := s in Ok (node_hash, σ).

(** The same without rotations; it also reports the path taken, a bit per
    level (0 left, 1 right). *)
Definition _recompute_no_balance_step (i : nat) (s : climb_state * Z) : res (climb_state * Z) :=
  let '(previous_node, node_hash, path, σ, tree_path) := s in
  if Z.of_nat i <? depth path then
    match nodes path !! i, branches path !! i with
    | Some node, Some branch =>
        let '(node, tree_path) :=
          if Z.of_nat i <? depth path - 1 then
            if branch =? TREE_PATH_LEFT then
              (_relink_left node_hash previous_node node, tree_path)
            else if branch =? TREE_PATH_RIGHT then
              (_relink_right node_hash previous_node node,
               u32 (Z.lor tree_path (Z.shiftl 1 (Z.of_nat i))))
            else (node, tree_path)
          else (node, tree_path) in
        let '(node_hash, σ) := hashput node σ in
        Ok (node, node_hash, set_node i node path, σ, tree_path)
    | _, _ => Fault
    end
  else Ok s.

Definition _recompute_path_no_balance (path : tree_path_t) (σ : store)
  : res (hash_t * store * Z * Z) :=
  s ← for_downM 0 (MAX_TREE_DEPTH avl_config) _recompute_no_balance_step
        (inhabitant, NULL_HASH, path, σ, 0);
  let '(_, node_hash, path, σ, tree_path) := s in
  Ok (node_hash, σ, depth path, tree_path).

(** ** The operations *)

Definition tree_init : hash_t := NULL_HASH.

(** The stores into the node that a new key gets. *)
Definition init_node (k : Z) (value : hash_t) (node : tree_node_t) : tree_node_t :=
  {| n_left := NULL_HASH; n_right := NULL_HASH; n_key := k;
     n_num_values := 1; n_values := <[0%nat := value]> (n_values node);
     n_height := 1; n_height_left := 0; n_height_right := 0 |}.

Abbreviation path_node := (with_path_node avl_config).

(** What [tree_insert], [tree_update] and their [_no_balance] variants do
    before the path is rewritten; they differ in the change [edit] of the
    values of an existing key. *)
Definition _insert_path (σ : store) (root : hash_t) (k : Z)
  (edit : tree_node_t -> bool * tree_node_t) (value : hash_t) : res (bool * tree_path_t) :=
  s ← _find_path avl_config σ root k (empty_path avl_config);
  let '(found, path) := s in
  if (found : bool) then
    let '(path, success) :=
      path_node (fun node _ => let '(b, node) := edit node in (node, b)) path false in
    Ok (success, path)
  else if depth path <? Z.of_nat (MAX_TREE_DEPTH avl_config) then
    let path := set_depth (u8 (depth path + 1)) path in
    let '(path, success) := path_node (fun node _ => (init_node k value node, true)) path false in
    Ok (success, path)
  else Ok (false, path).

Definition tree_insert (σ : store) (root : hash_t) (k : Z) (value : hash_t)
  : res (bool * hash_t * store) :=
  s ← _insert_path σ root k (fun node => _copy_value avl_config _value_equals node value) value;
  let '(success, path) := s in
  if (success : bool) then
    r ← _recompute_path path σ;
    let '(root, σ) := r in Ok (success, root, σ)
  else Ok (success, root, σ).

Definition tree_update (σ : store) (root : hash_t) (k : Z) (old_value new_value : hash_t)
  : res (bool * hash_t * store) :=
  s ← _insert_path σ root k
        (fun node => _replace_value avl_config _value_equals node old_value new_value) new_value;
  let '(success, path) := s in
  if (success : bool) then
    r ← _recompute_path path σ;
    let '(root, σ) := r in Ok (success, root, σ)
  else Ok (success, root, σ).

(** The [_no_balance] variants also write [*path_depth] and [*tree_path],
    when they succeed. *)
Definition tree_insert_no_balance (σ : store) (root : hash_t) (k : Z) (value : hash_t)
  (path_depth tree_path : Z) : res (bool * hash_t * store * Z * Z) :=
  s ← _insert_path σ root k (fun node => _copy_value avl_config _value_equals node value) value;
  let '(success, path) := s in
  if (success : bool) then
    r ← _recompute_path_no_balance path σ;
    let '(root, σ, path_depth, tree_path) := r in Ok (success, root, σ, path_depth, tree_path)
  else Ok (success, root, σ, path_depth, tree_path).

Definition tree_update_no_balance (σ : store) (root : hash_t) (k : Z) (old_value new_value : hash_t)
  (path_depth tree_path : Z) : res (bool * hash_t * store * Z * Z) :=
  s ← _insert_path σ root k
        (fun node => _replace_value avl_config _value_equals node old_value new_value) new_value;
  let '(success, path) := s in
  if (success : bool) then
    r ← _recompute_path_no_balance path σ;
    let '(root, σ, path_depth, tree_path) := r in Ok (success, root, σ, path_depth, tree_path)
  else Ok (success, root, σ, path_depth, tree_path).

Definition tree_remove (σ : store) (root : hash_t) (k : Z) : res (bool * hash_t * store) :=
  s ← _find_path avl_config σ root k (empty_path avl_config);
  let '(found, path) := s in
  if (found : bool) then
    let '(path, _) := path_node (fun node a => (set_num_values 0 node, a)) path tt in
    r ← _recompute_path path σ;
    let '(root, σ) := r in Ok (found, root, σ)
  else Ok (found, root, σ).

Definition tree_remove_value (σ : store) (root : hash_t) (k : Z) (value : hash_t)
  : res (bool * hash_t * store) :=
  s ← _find_path avl_config σ root k (empty_path avl_config);
  let '(found, path) := s in
  if (found : bool) then
    let '(path, removed) :=
      path_node (fun node _ =>
        let '(removed, node) := _remove_value avl_config _value_equals node value in
        (node, removed)) path false in
    if (removed : bool) then
      r ← _recompute_path path σ;
      let '(root, σ) := r in Ok (found, root, σ)
    else Ok (found, root, σ)
  else Ok (found, root, σ).

Definition tree_find_eq (σ : store) (root : hash_t) (k : Z) (rs : tree_result_set_t)
  : res tree_result_set_t := TreeCore.tree_find_eq avl_config σ root k rs.

Definition reset_results (rs : tree_result_set_t) : tree_result_set_t :=
  {| num_results := 0; results := results rs |}.

Definition tree_find_lt (σ : store) (root : hash_t) (k : Z) (equal_to : bool)
  (rs : tree_result_set_t) : res tree_result_set_t :=
  find_lt_into avl_config σ root k equal_to (reset_results rs).

Definition tree_find_gt (σ : store) (root : hash_t) (k : Z) (equal_to : bool)
  (rs : tree_result_set_t) : res tree_result_set_t :=
  find_gt_into avl_config σ root k equal_to (reset_results rs).

Definition tree_find_range (σ : store) (root : hash_t) (low_key : Z) (low_equal_to : bool)
  (high_key : Z) (high_equal_to : bool) (rs : tree_result_set_t) : res tree_result_set_t :=
  find_range_into avl_config σ root low_key low_equal_to high_key high_equal_to (reset_results rs).

(** ** Deferred balancing *)

Definition _reconstruct_path (σ : store) (root : hash_t) (path_depth tree_path : Z)
  (path : tree_path_t) : res tree_path_t :=
  s ← for_upM 0 (MAX_TREE_DEPTH avl_config)
        (fun i s =>
           let '(node_hash, path) := s in
           if Z.of_nat i <? path_depth then
             node ← hashget node_hash σ;
             let path := set_node i node (set_depth (u8 (Z.of_nat i + 1)) path) in
             if Z.of_nat i <? path_depth - 1 then
               let branch := Z.land (Z.shiftr tree_path (Z.of_nat i)) 1 in
               if branch =? 0
               then Ok (n_left node, set_branch i TREE_PATH_LEFT path)
               else Ok (n_right node, set_branch i TREE_PATH_RIGHT path)
             else Ok (node_hash, path)
           else Ok s)
        (root, path);
  Ok (snd s).

Definition _balance_step (i : nat) (s : climb_state) : res climb_state :=
  let '(previous_node, node_hash, path, σ) := s in
  if Z.of_nat i <? depth path then
    match nodes path !! i, branches path !! i with
    | Some node, Some branch =>
        r ← (if Z.of_nat i <? depth path - 1 then
               if branch =? TREE_PATH_LEFT then _rebalance_left previous_node node σ
               else if branch =? TREE_PATH_RIGHT then _rebalance_right previous_node node σ
               else Ok (node, σ)
             else Ok (node, σ));
        let '(node, σ) := r in
        let '(node_hash, σ) := hashput node σ in
        Ok (node, node_hash, set_node i node path, σ)
    | _, _ => Fault
    end
  else Ok s.

Definition tree_balance (σ : store) (root : hash_t) (path_depth tree_path : Z)
  : res (hash_t * store) :=
  path ← _reconstruct_path σ root (s32 path_depth) (s32 tree_path) (empty_path avl_config);
  s ← for_downM 0 (MAX_TREE_DEPTH avl_config) _balance_step (inhabitant, NULL_HASH, path, σ);
  let '(_, node_hash, _, σ) := s in Ok (node_hash, σ).

End Avl.
