(* ===== verification/AvlSpec.v ===== *)
(** The functional AVL tree that the stored tree refines: insertion at a
    key with the rotations of [avl_tree.h], its balance and its contents. *)
From Stdlib Require Import ZArith Lia Sorted.
From stdpp Require Import base numbers list gmap.
From S2P Require Import Prelude BlockStore TreeCore TreeFacts TreePaths TreeSearch TreeEdit TreeMap.

Local Open Scope Z_scope.

Section Spec.
Context {V : Type}.
Implicit Types t l r : tree V.

(** ** Rotations *)

Definition rot_right l k e r : tree V :=
  match l with Bin ll lk le lr => Bin ll lk le (Bin lr k e r) | Leaf => Bin l k e r end.

Definition rot_left l k e r : tree V :=
  match r with Bin rl rk re rr => Bin (Bin l k e rl) rk re rr | Leaf => Bin l k e r end.

Definition rot_left_right l k e r : tree V :=
  match l with
  | Bin ll lk le (Bin lrl lrk lre lrr) => Bin (Bin ll lk le lrl) lrk lre (Bin lrr k e r)
  | _ => Bin l k e r
  end.

Definition rot_right_left l k e r : tree V :=
  match r with
  | Bin (Bin rll rlk rle rlr) rk re rr => Bin (Bin l k e rll) rlk rle (Bin rlr rk re rr)
  | _ => Bin l k e r
  end.

(** Does the left (right) side of the root outgrow the other by one? *)
Definition left_heavy t : bool :=
  match t with Bin l _ _ r => Nat.eqb (height l) (S (height r)) | Leaf => false end.
Definition right_heavy t : bool :=
  match t with Bin l _ _ r => Nat.eqb (height r) (S (height l)) | Leaf => false end.

Definition bal_left l k e r : tree V :=
  if Nat.eqb (height l) (2 + height r) then
    if left_heavy l then rot_right l k e r else rot_left_right l k e r
  else Bin l k e r.

Definition bal_right l k e r : tree V :=
  if Nat.eqb (height r) (2 + height l) then
    if right_heavy r then rot_left l k e r else rot_right_left l k e r
  else Bin l k e r.

(** ** The change at a key *)

Fixpoint alter_at (k : Z) (f : option (list V) -> list V) t : tree V :=
  match t with
  | Leaf => Bin Leaf k (f None) Leaf
  | Bin l k' e r =>
      if k =? k' then Bin l k' (f (Some e)) r
      else if k <? k' then bal_left (alter_at k f l) k' e r
      else bal_right l k' e (alter_at k f r)
  end.

(** ** Balance *)

Fixpoint avl t : Prop :=
  match t with
  | Leaf => True
  | Bin l _ _ r => avl l /\ avl r /\ (height l <= S (height r))%nat /\ (height r <= S (height l))%nat
  end.

Lemma bal_left_avl l k e r :
  avl l -> avl r -> (height r <= S (height l))%nat -> (height l <= 2 + height r)%nat ->
  (height l = 2 + height r -> left_heavy l = true \/ right_heavy l = true)%nat ->
  avl (bal_left l k e r) /\
  (height l <> 2 + height r /\ height (bal_left l k e r) = height (Bin l k e r) \/
   (height l = 2 + height r /\ height (bal_left l k e r) = height l))%nat.
Proof.
  intros Hl Hr H1 H2 Hheavy. unfold bal_left.
  destruct (Nat.eqb_spec (height l) (2 + height r)) as [Heq|Hne].
  - specialize (Hheavy Heq). destruct l as [|ll lk le lr]; cbn in *; [lia|].
    destruct Hl as (Hll & Hlr & Hd1 & Hd2).
    destruct (Nat.eqb_spec (height ll) (S (height lr))) as [Hlh|Hlh]; cbn.
    + split_and!; auto; lia.
    + destruct Hheavy as [?|Hrh]; [done|]. apply Nat.eqb_eq in Hrh.
      destruct lr as [|lrl lrk lre lrr]; cbn in *; [lia|].
      destruct Hlr as (Hlrl & Hlrr & Hd3 & Hd4). split_and!; auto; lia.
  - cbn. split_and!; auto; lia.
Qed.

Lemma bal_right_avl l k e r :
  avl l -> avl r -> (height l <= S (height r))%nat -> (height r <= 2 + height l)%nat ->
  (height r = 2 + height l -> left_heavy r = true \/ right_heavy r = true)%nat ->
  avl (bal_right l k e r) /\
  (height r <> 2 + height l /\ height (bal_right l k e r) = height (Bin l k e r) \/
   (height r = 2 + height l /\ height (bal_right l k e r) = height r))%nat.
Proof.
  intros Hl Hr H1 H2 Hheavy. unfold bal_right.
  destruct (Nat.eqb_spec (height r) (2 + height l)) as [Heq|Hne].
  - specialize (Hheavy Heq). destruct r as [|rl rk re rr]; cbn in *; [lia|].
    destruct Hr as (Hrl & Hrr & Hd1 & Hd2).
    destruct (Nat.eqb_spec (height rr) (S (height rl))) as [Hrh|Hrh]; cbn.
    + split_and!; auto; lia.
    + destruct Hheavy as [Hlh|?]; [|done]. apply Nat.eqb_eq in Hlh.
      destruct rl as [|rll rlk rle rlr]; cbn in *; [lia|].
      destruct Hrl as (Hrll & Hrlr & Hd3 & Hd4). split_and!; auto; lia.
  - cbn. split_and!; auto; lia.
Qed.

(** An AVL tree stays one; it grows by at most one level, and then either
    it was empty or its root leans to one side. *)
Lemma alter_at_avl k f t :
  avl t ->
  avl (alter_at k f t) /\ (height t <= height (alter_at k f t) <= S (height t))%nat /\
  (height (alter_at k f t) = S (height t) ->
   t = Leaf \/ left_heavy (alter_at k f t) = true \/ right_heavy (alter_at k f t) = true).
Proof.
  induction t as [|l IHl k' e r IHr]; intros Ht; cbn [alter_at].
  { cbn. split_and!; auto; lia. }
  destruct Ht as (Hl & Hr & Hd1 & Hd2). destruct (k =? k'); [|destruct (k <? k')].
  - cbn. split_and!; auto; lia.
  - destruct (IHl Hl) as (Ha & Hh & Hg). clear IHl IHr. set (l' := alter_at k f l) in *.
    destruct (bal_left_avl l' k' e r) as [Hba Hbh]; auto; try lia.
    { intros Heq. destruct Hg as [Hlf|Hg']; [lia|apply (f_equal height) in Hlf; cbn in *; lia|done]. }
    split; [done|]. cbn [height] in *. split; [lia|].
    intros Hgrow. right. unfold bal_left in *.
    destruct (Nat.eqb_spec (height l') (2 + height r)) as [Heq|Hne]; [exfalso; lia|].
    left. cbn in *. apply Nat.eqb_eq. lia.
  - destruct (IHr Hr) as (Ha & Hh & Hg). clear IHl IHr. set (r' := alter_at k f r) in *.
    destruct (bal_right_avl l k' e r') as [Hba Hbh]; auto; try lia.
    { intros Heq. destruct Hg as [Hlf|Hg']; [lia|apply (f_equal height) in Hlf; cbn in *; lia|done]. }
    split; [done|]. cbn [height] in *. split; [lia|].
    intros Hgrow. right. unfold bal_right in *.
    destruct (Nat.eqb_spec (height r') (2 + height l)) as [Heq|Hne]; [exfalso; lia|].
    right. cbn in *. apply Nat.eqb_eq. lia.
Qed.

(** A key that is there keeps every height. *)
Lemma alter_at_present k f t e :
  avl t -> lookup_key k t = Some e -> alter_at k f t = alter_plain k f t /\
  height (alter_at k f t) = height t.
Proof.
  induction t as [|l IHl k' e' r IHr]; intros Ht Hk; [done|]. cbn in *.
  destruct Ht as (Hl & Hr & Hd1 & Hd2). destruct (k =? k'); [done|]. destruct (k <? k').
  - destruct (IHl Hl Hk) as [<- Hh]. unfold bal_left. rewrite Hh.
    destruct (Nat.eqb_spec (height l) (2 + height r)); [lia|]. cbn. by rewrite Hh.
  - destruct (IHr Hr Hk) as [<- Hh]. unfold bal_right. rewrite Hh.
    destruct (Nat.eqb_spec (height r) (2 + height l)); [lia|]. cbn. by rewrite Hh.
Qed.

Lemma alter_at_height_depth k f t :
  avl t -> (height (alter_at k f t) <= Nat.max (height t) (S (search_depth k t)))%nat.
Proof.
  induction t as [|l IHl k' e r IHr]; intros Ht; cbn [alter_at search_depth]; [cbn; lia|].
  destruct Ht as (Hl & Hr & Hd1 & Hd2). destruct (k =? k'); [cbn; lia|]. destruct (k <? k').
  - specialize (IHl Hl). pose proof (alter_at_avl k f l Hl) as (Ha & Hh & Hg).
    destruct (bal_left_avl (alter_at k f l) k' e r) as [_ Hbh]; auto; try lia.
    { intros Heq. destruct Hg as [Hlf|Hg]; [lia|apply (f_equal height) in Hlf; cbn in *; lia|done]. }
    cbn in *. lia.
  - specialize (IHr Hr). pose proof (alter_at_avl k f r Hr) as (Ha & Hh & Hg).
    destruct (bal_right_avl l k' e (alter_at k f r)) as [_ Hbh]; auto; try lia.
    { intros Heq. destruct Hg as [Hlf|Hg]; [lia|apply (f_equal height) in Hlf; cbn in *; lia|done]. }
    cbn in *. lia.
Qed.

(** ** Contents *)

Lemma bal_left_elements l k e r : elements (bal_left l k e r) = elements (Bin l k e r).
Proof.
  unfold bal_left. destruct (_ =? _)%nat; [|done]. destruct (left_heavy l).
  - destruct l; cbn; [done|]. by rewrite <- app_assoc.
  - destruct l as [|ll lk le [|]]; cbn; try done. by repeat (rewrite <- app_assoc; cbn).
Qed.

Lemma bal_right_elements l k e r : elements (bal_right l k e r) = elements (Bin l k e r).
Proof.
  unfold bal_right. destruct (_ =? _)%nat; [|done]. destruct (right_heavy r).
  - destruct r; cbn; [done|]. by rewrite <- app_assoc.
  - destruct r as [|[|] rk re rr]; cbn; try done. by repeat (rewrite <- app_assoc; cbn).
Qed.

Lemma alter_at_elements k f t : elements (alter_at k f t) = elements (alter_plain k f t).
Proof.
  induction t as [|l IHl k' e r IHr]; cbn; [done|].
  destruct (k =? k'); [done|]. destruct (k <? k').
  - rewrite bal_left_elements. cbn. by rewrite IHl.
  - rewrite bal_right_elements. cbn. by rewrite IHr.
Qed.

Lemma alter_at_bst k f t : bst t -> bst (alter_at k f t).
Proof.
  intros Hb. unfold bst. rewrite alter_at_elements. by apply alter_plain_bst.
Qed.


(** The change at a key is an insertion into the map. *)
Lemma contents_alter_at k f t :
  bst t -> contents (alter_at k f t) = <[k := f (contents t !! k)]> (contents t).
Proof.
  intros Hb. unfold contents. rewrite alter_at_elements, alter_plain_elements by done.
  by apply alter_list_map.
Qed.


End Spec.
