(* ===== verification/AvlFacts.v ===== *)
(** The stored AVL tree refines the functional one: rotations, the climb
    back from a changed node, and the search for the place to change. *)
From Stdlib Require Import ZArith Lia Sorted.
From stdpp Require Import base numbers list.
From S2P Require Import Prelude BlockStore TreeCore TreeFacts TreePaths TreeSearch TreeEdit TreeMap AvlTree AvlSpec.

Local Open Scope Z_scope.

Lemma avl_config_ok : config_ok avl_config.
Proof. split; cbn; lia. Qed.

(** The cached heights of a node are those of its subtrees. *)
Definition avl_node_ok (n : tree_node_t) (l r : tree hash_t) : Prop :=
  n_height n = Z.of_nat (S (Nat.max (height l) (height r))) /\
  n_height_left n = Z.of_nat (height l) /\ n_height_right n = Z.of_nat (height r).

Section Facts.
Context {BS : BlockStore tree_node_t} {BSL : BlockStoreLaws tree_node_t}.

Abbreviation rep := (rep avl_config avl_node_ok).
Abbreviation node_rep := (node_rep avl_config avl_node_ok).
Abbreviation MAXD := (MAX_TREE_DEPTH avl_config).
Abbreviation edited := (edited avl_config avl_node_ok).
Abbreviation edited_depth := (edited_depth avl_config avl_node_ok).
Abbreviation tree_path_t := (tree_path_t tree_node_t).
Abbreviation tree := (tree hash_t).
Implicit Types (σ : store tree_node_t) (t l r : tree) (n : tree_node_t) (p : tree_path_t).

(** [n] is the root node of a stored copy of [t]. *)
Definition root_rep σ n t : Prop :=
  match t with Leaf => False | Bin l k e r => node_rep σ n l k e r end.

Lemma rep_root σ h t n :
  rep σ h t -> hashget h σ = Ok n -> t <> Leaf -> root_rep σ n t.
Proof.
  destruct t as [|l k e r]; [done|]. intros (_ & n' & Hget & Hn)%rep_Bin Hget' _.
  rewrite Hget in Hget'. by injection Hget' as <-.
Qed.

Lemma root_rep_height σ n t :
  root_rep σ n t -> n_height n = Z.of_nat (height t) /\
  match t with Bin l _ _ r => n_height_left n = Z.of_nat (height l) /\
                              n_height_right n = Z.of_nat (height r) | Leaf => True end.
Proof. destruct t as [|l k e r]; [done|]. intros (_ & _ & _ & (-> & -> & ->) & _). done. Qed.

Lemma MAX_max a b : MAX a b = Z.max a b.
Proof. unfold MAX. rewrite Z.gtb_ltb. destruct (Z.ltb_spec a b); lia. Qed.

(** New links and heights on a node with the key and values of [n]. *)
Lemma relink_rep σ n n' l k e r l0 r0 :
  node_rep σ n l0 k e r0 ->
  n_key n' = n_key n -> n_values n' = n_values n -> n_num_values n' = n_num_values n ->
  rep σ (n_left n') l -> rep σ (n_right n') r -> avl_node_ok n' l r ->
  node_rep σ n' l k e r.
Proof.
  intros (Hk & Hv & He & _ & _ & _) Hk' Hv' Hm' Hl Hr Hok.
  unfold node_rep, TreeFacts.node_rep, values_wf, entry in *. cbn in *.
  rewrite Hk', Hv', Hm'. done.
Qed.

Lemma avl_node_ok_heights n l r h hl hr :
  (height l < 255)%nat -> (height r < 255)%nat ->
  hl = Z.of_nat (height l) -> hr = Z.of_nat (height r) -> h = Z.max hl hr + 1 ->
  avl_node_ok (set_heights h hl hr n) l r.
Proof.
  intros Hl Hr -> -> ->. unfold avl_node_ok. cbn -[Z.of_nat].
  rewrite !wrapu_small by (unfold in_u; lia). lia.
Qed.

Lemma avl_node_ok_ext n n' l r :
  n_height n' = n_height n -> n_height_left n' = n_height_left n ->
  n_height_right n' = n_height_right n -> avl_node_ok n l r -> avl_node_ok n' l r.
Proof. intros H1 H2 H3. unfold avl_node_ok. by rewrite H1, H2, H3. Qed.

(** ** Rotations *)

Lemma node_rep_left σ n l k e r : node_rep σ n l k e r -> rep σ (n_left n) l.
Proof. by intros (_ & _ & _ & _ & ? & _). Qed.
Lemma node_rep_right σ n l k e r : node_rep σ n l k e r -> rep σ (n_right n) r.
Proof. by intros (_ & _ & _ & _ & _ & ?). Qed.
Lemma node_rep_ok σ n l k e r : node_rep σ n l k e r -> avl_node_ok n l r.
Proof. by intros (_ & _ & _ & ? & _). Qed.

(** A subtree of a node at hand, perhaps in an extended store. *)
Ltac sub_rep :=
  match goal with
  | Hn : node_rep _ _ _ _ _ _ |- _ => exact (node_rep_left _ _ _ _ _ _ Hn)
  | Hn : node_rep _ _ _ _ _ _ |- _ => exact (node_rep_right _ _ _ _ _ _ Hn)
  | Hx : store_ext ?s ?s', Hn : node_rep ?s _ _ _ _ _ |- _ =>
      exact (rep_ext _ _ _ _ _ _ Hx (node_rep_left _ _ _ _ _ _ Hn))
  | Hx : store_ext ?s ?s', Hn : node_rep ?s _ _ _ _ _ |- _ =>
      exact (rep_ext _ _ _ _ _ _ Hx (node_rep_right _ _ _ _ _ _ Hn))
  | Hn : node_rep ?s ?n _ _ _ _, Hput : hashput ?n ?s = _ |- _ =>
      exact (rep_put _ _ _ _ _ _ _ _ _ _ Hn Hput)
  | Hn : node_rep ?s ?n _ _ _ _, Hput : hashput ?n ?s = _, Hx : store_ext _ _ |- _ =>
      exact (rep_ext _ _ _ _ _ _ Hx (rep_put _ _ _ _ _ _ _ _ _ _ Hn Hput))
  end.

(** A node relinked from the node of [Hn]. *)
Ltac relink Hn :=
  apply (relink_rep _ _ _ _ _ _ _ _ _ Hn); try reflexivity;
  [ sub_rep | sub_rep
  | first [ apply avl_node_ok_heights
          | eapply avl_node_ok_ext; [..|apply avl_node_ok_heights]; try reflexivity ];
    cbn [n_height_left n_height_right set_left set_right height];
    rewrite ?MAX_max; cbn [height]; lia ].

Lemma _rotate_left_left_spec σ n ll lk le lr k e r :
  node_rep σ n (Bin ll lk le lr) k e r -> (height (Bin ll lk le lr) < 250)%nat -> (height r < 250)%nat ->
  exists n' σ', _rotate_left_left n σ = Ok (n', σ') /\ store_ext σ σ' /\
    node_rep σ' n' ll lk le (Bin lr k e r).
Proof.
  intros Hn Hhl Hhr. cbn [height] in Hhl.
  pose proof (node_rep_left _ _ _ _ _ _ Hn) as (_ & n1 & Hget & Hn1)%rep_Bin.
  pose proof (node_rep_ok _ _ _ _ _ _ Hn) as (Hh & Hh1 & Hh2).
  pose proof (node_rep_ok _ _ _ _ _ _ Hn1) as (Gh & Gh1 & Gh2).
  unfold _rotate_left_left. rewrite Hget, res_bind_Ok. cbn [n_height_right set_left].
  match goal with |- context [hashput ?o σ] => set (old := o) end.
  assert (node_rep σ old lr k e r) as Hold by relink Hn.
  pose proof (node_rep_ok _ _ _ _ _ _ Hold) as (Fh & _ & _).
  destruct (hashput old σ) as [h σ'] eqn:Hput.
  assert (store_ext σ σ') as Hext by eauto with store.
  pose proof (node_rep_ext _ _ _ _ _ _ _ _ _ Hext Hn1) as Hn1'.
  eexists _, σ'. split; [reflexivity|]. split; [done|]. relink Hn1'.
Qed.

Lemma _rotate_right_right_spec σ n l k e rl rk re rr :
  node_rep σ n l k e (Bin rl rk re rr) -> (height (Bin rl rk re rr) < 250)%nat -> (height l < 250)%nat ->
  exists n' σ', _rotate_right_right n σ = Ok (n', σ') /\ store_ext σ σ' /\
    node_rep σ' n' (Bin l k e rl) rk re rr.
Proof.
  intros Hn Hhr Hhl. cbn [height] in Hhr.
  pose proof (node_rep_right _ _ _ _ _ _ Hn) as (_ & n1 & Hget & Hn1)%rep_Bin.
  pose proof (node_rep_ok _ _ _ _ _ _ Hn) as (Hh & Hh1 & Hh2).
  pose proof (node_rep_ok _ _ _ _ _ _ Hn1) as (Gh & Gh1 & Gh2).
  unfold _rotate_right_right. rewrite Hget, res_bind_Ok. cbn [n_height_left set_right].
  match goal with |- context [hashput ?o σ] => set (old := o) end.
  assert (node_rep σ old l k e rl) as Hold by relink Hn.
  pose proof (node_rep_ok _ _ _ _ _ _ Hold) as (Fh & _ & _).
  destruct (hashput old σ) as [h σ'] eqn:Hput.
  assert (store_ext σ σ') as Hext by eauto with store.
  pose proof (node_rep_ext _ _ _ _ _ _ _ _ _ Hext Hn1) as Hn1'.
  eexists _, σ'. split; [reflexivity|]. split; [done|]. relink Hn1'.
Qed.

Lemma _rotate_left_right_spec σ n ll lk le lrl lrk lre lrr k e r :
  node_rep σ n (Bin ll lk le (Bin lrl lrk lre lrr)) k e r ->
  (height (Bin ll lk le (Bin lrl lrk lre lrr)) < 250)%nat -> (height r < 250)%nat ->
  exists n' σ', _rotate_left_right n σ = Ok (n', σ') /\ store_ext σ σ' /\
    node_rep σ' n' (Bin ll lk le lrl) lrk lre (Bin lrr k e r).
Proof.
  intros Hn Hhl Hhr. cbn [height] in Hhl.
  pose proof (node_rep_left _ _ _ _ _ _ Hn) as (_ & n1 & Hget1 & Hn1)%rep_Bin.
  pose proof (node_rep_right _ _ _ _ _ _ Hn1) as (_ & n2 & Hget2 & Hn2)%rep_Bin.
  pose proof (node_rep_ok _ _ _ _ _ _ Hn) as (Hh & Hh1 & Hh2).
  pose proof (node_rep_ok _ _ _ _ _ _ Hn1) as (Gh & Gh1 & Gh2).
  pose proof (node_rep_ok _ _ _ _ _ _ Hn2) as (Fh & Fh1 & Fh2).
  unfold _rotate_left_right. rewrite Hget1, res_bind_Ok, Hget2, res_bind_Ok.
  cbn [n_height_right n_height_left set_left set_right].
  match goal with |- context [set_heights ?a ?b ?c (set_left (n_right n2) n)] =>
    set (old := set_heights a b c (set_left (n_right n2) n)) end.
  match goal with |- context [hashput ?o σ] => set (left := o) end.
  assert (node_rep σ old lrr k e r) as Hold by relink Hn.
  assert (node_rep σ left ll lk le lrl) as Hleft by relink Hn1.
  pose proof (node_rep_ok _ _ _ _ _ _ Hold) as (Eh & _ & _).
  pose proof (node_rep_ok _ _ _ _ _ _ Hleft) as (Dh & _ & _).
  destruct (hashput left σ) as [hl σ1] eqn:Hput1.
  destruct (hashput old σ1) as [hr σ2] eqn:Hput2.
  assert (store_ext σ σ1) as Hext1 by eauto with store.
  assert (store_ext σ1 σ2) as Hext2 by eauto with store.
  pose proof (node_rep_ext _ _ _ _ _ _ _ _ _ Hext1 Hold) as Hold'.
  pose proof (node_rep_ext _ _ _ _ _ _ _ _ _ Hext2 (node_rep_ext _ _ _ _ _ _ _ _ _ Hext1 Hn2)) as Hn2'.
  eexists _, σ2. split; [reflexivity|]. split; [by etrans|].
  relink Hn2'.
Qed.

Lemma _rotate_right_left_spec σ n l k e rll rlk rle rlr rk re rr :
  node_rep σ n l k e (Bin (Bin rll rlk rle rlr) rk re rr) ->
  (height (Bin (Bin rll rlk rle rlr) rk re rr) < 250)%nat -> (height l < 250)%nat ->
  exists n' σ', _rotate_right_left n σ = Ok (n', σ') /\ store_ext σ σ' /\
    node_rep σ' n' (Bin l k e rll) rlk rle (Bin rlr rk re rr).
Proof.
  intros Hn Hhr Hhl. cbn [height] in Hhr.
  pose proof (node_rep_right _ _ _ _ _ _ Hn) as (_ & n1 & Hget1 & Hn1)%rep_Bin.
  pose proof (node_rep_left _ _ _ _ _ _ Hn1) as (_ & n2 & Hget2 & Hn2)%rep_Bin.
  pose proof (node_rep_ok _ _ _ _ _ _ Hn) as (Hh & Hh1 & Hh2).
  pose proof (node_rep_ok _ _ _ _ _ _ Hn1) as (Gh & Gh1 & Gh2).
  pose proof (node_rep_ok _ _ _ _ _ _ Hn2) as (Fh & Fh1 & Fh2).
  unfold _rotate_right_left. rewrite Hget1, res_bind_Ok, Hget2, res_bind_Ok.
  cbn [n_height_right n_height_left set_left set_right].
  match goal with |- context [set_heights ?a ?b ?c (set_right (n_left n2) n)] =>
    set (old := set_heights a b c (set_right (n_left n2) n)) end.
  match goal with |- context [hashput ?o σ] => set (right := o) end.
  assert (node_rep σ old l k e rll) as Hold by relink Hn.
  assert (node_rep σ right rlr rk re rr) as Hright by relink Hn1.
  pose proof (node_rep_ok _ _ _ _ _ _ Hold) as (Eh & _ & _).
  pose proof (node_rep_ok _ _ _ _ _ _ Hright) as (Dh & _ & _).
  destruct (hashput right σ) as [hl σ1] eqn:Hput1.
  destruct (hashput old σ1) as [hr σ2] eqn:Hput2.
  assert (store_ext σ σ1) as Hext1 by eauto with store.
  assert (store_ext σ1 σ2) as Hext2 by eauto with store.
  pose proof (node_rep_ext _ _ _ _ _ _ _ _ _ Hext1 Hold) as Hold'.
  pose proof (node_rep_ext _ _ _ _ _ _ _ _ _ Hext2 (node_rep_ext _ _ _ _ _ _ _ _ _ Hext1 Hn2)) as Hn2'.
  eexists _, σ2. split; [reflexivity|]. split; [by etrans|].
  relink Hn2'.
Qed.

(** ** Rebalancing one node *)

Lemma _rebalance_left_spec σ n1 n l k e r :
  root_rep σ n1 l -> node_rep σ n l k e r -> (height l < 250)%nat -> (height r < 250)%nat ->
  (height l = 2 + height r -> left_heavy l = true \/ right_heavy l = true)%nat ->
  exists n' σ', _rebalance_left n1 n σ = Ok (n', σ') /\ store_ext σ σ' /\
    root_rep σ' n' (bal_left l k e r).
Proof.
  intros Hn1 Hn Hhl Hhr Hheavy. unfold _rebalance_left, bal_left.
  pose proof (node_rep_ok _ _ _ _ _ _ Hn) as (_ & -> & ->).
  destruct (Nat.eqb_spec (height l) (2 + height r)) as [Heq|Hne].
  2:{ rewrite (proj2 (Z.eqb_neq _ _)) by lia. exists n, σ. by split_and!. }
  rewrite (proj2 (Z.eqb_eq _ _)) by lia. specialize (Hheavy Heq).
  destruct l as [|ll lk le lr]; [done|]. apply root_rep_height in Hn1 as (_ & -> & ->).
  cbn [left_heavy right_heavy] in *. destruct (Nat.eqb_spec (height ll) (S (height lr))) as [Hll|Hll].
  - rewrite (proj2 (Z.eqb_eq _ _)) by lia. by apply _rotate_left_left_spec.
  - rewrite (proj2 (Z.eqb_neq _ _)) by lia. destruct Hheavy as [?|Hr%Nat.eqb_eq]; [done|].
    destruct lr as [|lrl lrk lre lrr]; [cbn in Hr; lia|]. by apply _rotate_left_right_spec.
Qed.

Lemma _rebalance_right_spec σ n1 n l k e r :
  root_rep σ n1 r -> node_rep σ n l k e r -> (height l < 250)%nat -> (height r < 250)%nat ->
  (height r = 2 + height l -> left_heavy r = true \/ right_heavy r = true)%nat ->
  exists n' σ', _rebalance_right n1 n σ = Ok (n', σ') /\ store_ext σ σ' /\
    root_rep σ' n' (bal_right l k e r).
Proof.
  intros Hn1 Hn Hhl Hhr Hheavy. unfold _rebalance_right, bal_right.
  pose proof (node_rep_ok _ _ _ _ _ _ Hn) as (_ & -> & ->).
  destruct (Nat.eqb_spec (height r) (2 + height l)) as [Heq|Hne].
  2:{ rewrite (proj2 (Z.eqb_neq _ _)) by lia. exists n, σ. by split_and!. }
  rewrite (proj2 (Z.eqb_eq _ _)) by lia. specialize (Hheavy Heq).
  destruct r as [|rl rk re rr]; [done|]. apply root_rep_height in Hn1 as (_ & -> & ->).
  cbn [left_heavy right_heavy] in *. destruct (Nat.eqb_spec (height rr) (S (height rl))) as [Hrr|Hrr].
  - rewrite (proj2 (Z.eqb_eq _ _)) by lia. by apply _rotate_right_right_spec.
  - rewrite (proj2 (Z.eqb_neq _ _)) by lia. destruct Hheavy as [Hl%Nat.eqb_eq|?]; [|done].
    destruct rl as [|rll rlk rle rlr]; [cbn in Hl; lia|]. by apply _rotate_right_left_spec.
Qed.

Lemma _relink_left_spec σ n1 n h l l' k e r :
  rep σ h l' -> root_rep σ n1 l' -> node_rep σ n l k e r ->
  (height l' < 250)%nat -> (height r < 250)%nat ->
  node_rep σ (_relink_left h n1 n) l' k e r.
Proof.
  intros Hl' Hn1 Hn Hhl Hhr. unfold _relink_left.
  pose proof (node_rep_ok _ _ _ _ _ _ Hn) as (_ & _ & Hr).
  apply root_rep_height in Hn1 as (Hh & _).
  apply (relink_rep _ _ _ _ _ _ _ _ _ Hn); try reflexivity; [done|sub_rep|].
  cbn [n_height_right set_left]. apply avl_node_ok_heights; rewrite ?MAX_max; lia.
Qed.

Lemma _relink_right_spec σ n1 n h l r r' k e :
  rep σ h r' -> root_rep σ n1 r' -> node_rep σ n l k e r ->
  (height l < 250)%nat -> (height r' < 250)%nat ->
  node_rep σ (_relink_right h n1 n) l k e r'.
Proof.
  intros Hr' Hn1 Hn Hhl Hhr. unfold _relink_right.
  pose proof (node_rep_ok _ _ _ _ _ _ Hn) as (_ & Hl & _).
  apply root_rep_height in Hn1 as (Hh & _).
  apply (relink_rep _ _ _ _ _ _ _ _ _ Hn); try reflexivity; [sub_rep|done|].
  cbn [n_height_left set_right]. apply avl_node_ok_heights; rewrite ?MAX_max; lia.
Qed.

(** ** The climb *)

(** What the climb has established when it reaches index [i]: the subtree
    below is stored as [t'], with root node [n]. *)
Definition climbed σ p (i : nat) t' (s : tree_node_t * hash_t * tree_path_t * store tree_node_t) : Prop :=
  let '(n, h, p', σ') := s in
  store_ext σ σ' /\ rep σ' h t' /\ root_rep σ' n t' /\ hashget h σ' = Ok n /\
  depth p' = depth p /\ branches p' = branches p /\
  forall j, (j < i)%nat -> nodes p' !! j = nodes p !! j.

Lemma climbed_put σ p p' σ' i n h t' σ'' :
  store_ext σ σ' -> root_rep σ' n t' -> hashput n σ' = (h, σ'') ->
  depth p' = depth p -> branches p' = branches p ->
  (forall j, (j < i)%nat -> nodes p' !! j = nodes p !! j) ->
  climbed σ p i t' (n, h, set_node i n p', σ'').
Proof.
  intros Hext Hn Hput Hd Hb Hpre. destruct t' as [|l k e r]; [done|].
  assert (store_ext σ' σ'') as Hext' by eauto with store. split_and!; auto.
  - by etrans.
  - exact (rep_put _ _ _ _ _ _ _ _ _ _ Hn Hput).
  - exact (node_rep_ext _ _ _ _ _ _ _ _ _ Hext' Hn).
  - eauto with store.
  - intros j Hj. cbn. rewrite list_lookup_insert_ne by lia. auto.
Qed.

Lemma climbed_le σ p i j t' s : (j <= i)%nat -> climbed σ p i t' s -> climbed σ p j t' s.
Proof.
  intros Hj. destruct s as [[[n h] p'] σ']. intros (? & ? & ? & ? & ? & ? & Hpre).
  split_and!; auto. intros q Hq. apply Hpre. lia.
Qed.

Lemma recompute_skip p n h σ lo :
  depth p <= Z.of_nat lo ->
  for_downM lo MAXD _recompute_step (n, h, p, σ) = Ok (n, h, p, σ).
Proof.
  intros Hd. apply for_downM_const. intros i Hi. cbn.
  by rewrite (proj2 (Z.ltb_ge _ _)) by lia.
Qed.

Lemma _recompute_step_last n b i p n1 h1 σ :
  depth p = Z.of_nat (S i) -> nodes p !! i = Some n -> branches p !! i = Some b ->
  _recompute_step i (n1, h1, p, σ) =
  let '(h, σ') := hashput n σ in Ok (n, h, set_node i n p, σ').
Proof.
  intros Hd Hn Hb. unfold _recompute_step. rewrite Hd, Hn, Hb.
  by rewrite (proj2 (Z.ltb_lt _ _)), (proj2 (Z.ltb_ge _ _)) by lia.
Qed.

Lemma _recompute_step_left n i p n1 h1 σ :
  Z.of_nat (S i) < depth p -> nodes p !! i = Some n -> branches p !! i = Some TREE_PATH_LEFT ->
  _recompute_step i (n1, h1, p, σ) =
  (r ← _rebalance_left n1 (_relink_left h1 n1 n) σ;
   let '(n', σ') := r in let '(h, σ'') := hashput n' σ' in Ok (n', h, set_node i n' p, σ'')).
Proof.
  intros Hd Hn Hb. unfold _recompute_step. rewrite Hn, Hb.
  rewrite !(proj2 (Z.ltb_lt _ _)) by lia. reflexivity.
Qed.

Lemma _recompute_step_right n i p n1 h1 σ :
  Z.of_nat (S i) < depth p -> nodes p !! i = Some n -> branches p !! i = Some TREE_PATH_RIGHT ->
  _recompute_step i (n1, h1, p, σ) =
  (r ← _rebalance_right n1 (_relink_right h1 n1 n) σ;
   let '(n', σ') := r in let '(h, σ'') := hashput n' σ' in Ok (n', h, set_node i n' p, σ'')).
Proof.
  intros Hd Hn Hb. unfold _recompute_step. rewrite Hn, Hb.
  rewrite !(proj2 (Z.ltb_lt _ _)) by lia. reflexivity.
Qed.

Lemma recompute_loop σ k e' t : forall i p,
  edited σ k e' t i p -> depth p <= Z.of_nat MAXD -> avl t -> (height t < 240)%nat ->
  exists s, for_downM i MAXD _recompute_step (inhabitant, NULL_HASH, p, σ) = Ok s /\
    climbed σ p i (alter_at k (fun _ => e') t) s.
Proof.
  induction t as [|l IHl k' e r IHr]; intros i p Hed Hd Havl Hh;
    pose proof (edited_depth _ _ _ _ _ _ Hed) as Hdi; rewrite for_downM_step by lia;
    cbn [alter_at].
  { destruct Hed as (Hdp & n & b & Hn & Hb & Hrep). rewrite recompute_skip, res_bind_Ok by lia.
    rewrite (_recompute_step_last n b) by done. destruct (hashput n σ) as [h σ'] eqn:Hput.
    eexists. split; [reflexivity|]. by apply (climbed_put _ _ _ σ). }
  destruct Hed as (n & b & Hn & Hb & Hcase). destruct Havl as (Hal & Har & Hb1 & Hb2). cbn [height] in Hh.
  destruct (k =? k') eqn:Ekk; [|destruct Hcase as [Hrep Hcase]; destruct (k <? k') eqn:Elt].
  - destruct Hcase as [Hdp Hrep]. rewrite recompute_skip, res_bind_Ok by lia.
    rewrite (_recompute_step_last n b) by done. destruct (hashput n σ) as [h σ'] eqn:Hput.
    eexists. split; [reflexivity|]. by apply (climbed_put _ _ _ σ).
  - destruct Hcase as [-> Hed]. pose proof (edited_depth _ _ _ _ _ _ Hed) as Hdl.
    destruct (IHl (S i) p Hed Hd Hal) as ([[[n1 h1] p1] σ1] & -> & Hext1 & Hl' & Hn1 & _ & Hd1 & Hb1' & Hpre); [lia|].
    destruct (alter_at_avl k (fun _ => e') l Hal) as (_ & Hhl & Hheavy).
    rewrite res_bind_Ok, (_recompute_step_left n) by (rewrite ?Hb1', ?Hpre, ?Hd1; done || lia).
    pose proof (node_rep_ext _ _ _ _ _ _ _ _ _ Hext1 Hrep) as Hrep1.
    pose proof (_relink_left_spec _ _ _ _ _ _ _ _ _ Hl' Hn1 Hrep1 ltac:(lia) ltac:(lia)) as Hrel.
    destruct (_rebalance_left_spec _ _ _ _ _ _ _ Hn1 Hrel) as (n2 & σ2 & -> & Hext2 & Hn2); [lia|lia| |].
    { intros Heq. destruct Hheavy as [->|?]; [lia|cbn in *; lia|done]. }
    rewrite res_bind_Ok. destruct (hashput n2 σ2) as [h σ'] eqn:Hput.
    eexists. split; [reflexivity|]. apply (climbed_put _ _ _ σ2); auto; by etrans.
  - destruct Hcase as [-> Hed]. pose proof (edited_depth _ _ _ _ _ _ Hed) as Hdl.
    destruct (IHr (S i) p Hed Hd Har) as ([[[n1 h1] p1] σ1] & -> & Hext1 & Hr' & Hn1 & _ & Hd1 & Hb1' & Hpre); [lia|].
    destruct (alter_at_avl k (fun _ => e') r Har) as (_ & Hhr & Hheavy).
    rewrite res_bind_Ok, (_recompute_step_right n) by (rewrite ?Hb1', ?Hpre, ?Hd1; done || lia).
    pose proof (node_rep_ext _ _ _ _ _ _ _ _ _ Hext1 Hrep) as Hrep1.
    pose proof (_relink_right_spec _ _ _ _ _ _ _ _ _ Hr' Hn1 Hrep1 ltac:(lia) ltac:(lia)) as Hrel.
    destruct (_rebalance_right_spec _ _ _ _ _ _ _ Hn1 Hrel) as (n2 & σ2 & -> & Hext2 & Hn2); [lia|lia| |].
    { intros Heq. destruct Hheavy as [->|?]; [lia|cbn in *; lia|done]. }
    rewrite res_bind_Ok. destruct (hashput n2 σ2) as [h σ'] eqn:Hput.
    eexists. split; [reflexivity|]. apply (climbed_put _ _ _ σ2); auto; by etrans.
Qed.

(** ** The climb without rotations *)

(** The branches taken on the way to [k] in [t], from level [i] down: bit
    [j] is set when the path goes right at level [j]. *)
Fixpoint path_bits (k : Z) t (i : nat) : Z :=
  match t with
  | Leaf => 0
  | Bin l k' _ r =>
      if k =? k' then 0
      else if k <? k' then path_bits k l (S i)
      else Z.lor (path_bits k r (S i)) (Z.shiftl 1 (Z.of_nat i))
  end.

Lemma lor_shift_u32 a i : in_u 32 a -> (i < 32)%nat -> in_u 32 (Z.lor a (Z.shiftl 1 (Z.of_nat i))).
Proof.
  unfold in_u. intros [Ha Hlt] Hi. rewrite Z.shiftl_1_l.
  assert (0 <= Z.lor a (2 ^ Z.of_nat i)) as Hnn by (apply Z.lor_nonneg; lia).
  split; [done|]. destruct (Z.eq_dec (Z.lor a (2 ^ Z.of_nat i)) 0) as [->|]; [lia|].
  apply Z.log2_lt_pow2; [lia|]. rewrite Z.log2_lor, Z.log2_pow2 by lia.
  assert (a = 0 \/ 0 < a) as [->|Hpos] by lia; [cbn; lia|].
  apply Z.log2_lt_pow2 in Hlt; lia.
Qed.

Lemma path_bits_u32 k t i : (i + height t <= 32)%nat -> in_u 32 (path_bits k t i).
Proof.
  revert i. induction t as [|l IHl k' e r IHr]; intros i Hh; cbn [path_bits height] in *; [done|].
  destruct (k =? k'); [done|]. destruct (k <? k'); [apply IHl; lia|].
  apply lor_shift_u32; [apply IHr; lia|lia].
Qed.

Lemma plain_skip p n h σ b lo :
  depth p <= Z.of_nat lo ->
  for_downM lo MAXD _recompute_no_balance_step (n, h, p, σ, b) = Ok (n, h, p, σ, b).
Proof.
  intros Hd. apply for_downM_const. intros i Hi. cbn.
  by rewrite (proj2 (Z.ltb_ge _ _)) by lia.
Qed.

Lemma plain_step_last n b i p n1 h1 σ tp :
  depth p = Z.of_nat (S i) -> nodes p !! i = Some n -> branches p !! i = Some b ->
  _recompute_no_balance_step i (n1, h1, p, σ, tp) =
  let '(h, σ') := hashput n σ in Ok (n, h, set_node i n p, σ', tp).
Proof.
  intros Hd Hn Hb. unfold _recompute_no_balance_step. rewrite Hd, Hn, Hb.
  by rewrite (proj2 (Z.ltb_lt _ _)), (proj2 (Z.ltb_ge _ _)) by lia.
Qed.

Lemma plain_step_left n i p n1 h1 σ tp :
  Z.of_nat (S i) < depth p -> nodes p !! i = Some n -> branches p !! i = Some TREE_PATH_LEFT ->
  _recompute_no_balance_step i (n1, h1, p, σ, tp) =
  let n' := _relink_left h1 n1 n in
  let '(h, σ') := hashput n' σ in Ok (n', h, set_node i n' p, σ', tp).
Proof.
  intros Hd Hn Hb. unfold _recompute_no_balance_step. rewrite Hn, Hb.
  rewrite !(proj2 (Z.ltb_lt _ _)) by lia. reflexivity.
Qed.

Lemma plain_step_right n i p n1 h1 σ tp :
  Z.of_nat (S i) < depth p -> nodes p !! i = Some n -> branches p !! i = Some TREE_PATH_RIGHT ->
  _recompute_no_balance_step i (n1, h1, p, σ, tp) =
  let n' := _relink_right h1 n1 n in
  let '(h, σ') := hashput n' σ in
  Ok (n', h, set_node i n' p, σ', u32 (Z.lor tp (Z.shiftl 1 (Z.of_nat i)))).
Proof.
  intros Hd Hn Hb. unfold _recompute_no_balance_step. rewrite Hn, Hb.
  rewrite !(proj2 (Z.ltb_lt _ _)) by lia. reflexivity.
Qed.

Lemma plain_height k f t : (height (alter_plain k f t) <= S (height t))%nat.
Proof.
  induction t as [|l IHl k' e r IHr]; cbn; [lia|].
  destruct (k =? k'); [cbn; lia|]. destruct (k <? k'); cbn; lia.
Qed.

Lemma plain_loop σ k e' t : forall i p,
  edited σ k e' t i p -> depth p <= Z.of_nat MAXD -> (i + height t <= MAXD)%nat ->
  exists s, for_downM i MAXD _recompute_no_balance_step (inhabitant, NULL_HASH, p, σ, 0)
              = Ok (s, path_bits k t i) /\
    climbed σ p i (alter_plain k (fun _ => e') t) s.
Proof.
  induction t as [|l IHl k' e r IHr]; intros i p Hed Hd Hh;
    pose proof (edited_depth _ _ _ _ _ _ Hed) as Hdi; rewrite for_downM_step by lia;
    cbn [alter_plain path_bits].
  { destruct Hed as (Hdp & n & b & Hn & Hb & Hrep). rewrite plain_skip, res_bind_Ok by lia.
    rewrite (plain_step_last n b) by done. destruct (hashput n σ) as [h σ'] eqn:Hput.
    eexists. split; [reflexivity|]. by apply (climbed_put _ _ _ σ). }
  destruct Hed as (n & b & Hn & Hb & Hcase). cbn [height] in Hh. change MAXD with 12%nat in Hh.
  destruct (k =? k') eqn:Ekk; [|destruct Hcase as [Hrep Hcase]; destruct (k <? k') eqn:Elt].
  - destruct Hcase as [Hdp Hrep]. rewrite plain_skip, res_bind_Ok by lia.
    rewrite (plain_step_last n b) by done. destruct (hashput n σ) as [h σ'] eqn:Hput.
    eexists. split; [reflexivity|]. by apply (climbed_put _ _ _ σ).
  - destruct Hcase as [-> Hed]. pose proof (edited_depth _ _ _ _ _ _ Hed) as Hdl.
    destruct (IHl (S i) p Hed Hd) as ([[[n1 h1] p1] σ1] & -> & Hext1 & Hl' & Hn1 & _ & Hd1 & Hb1' & Hpre);
      [change MAXD with 12%nat; lia|].
    pose proof (plain_height k (fun _ => e') l) as Hhl.
    rewrite res_bind_Ok, (plain_step_left n) by (rewrite ?Hb1', ?Hpre, ?Hd1; done || lia).
    pose proof (node_rep_ext _ _ _ _ _ _ _ _ _ Hext1 Hrep) as Hrep1.
    pose proof (_relink_left_spec _ _ _ _ _ _ _ _ _ Hl' Hn1 Hrep1 ltac:(lia) ltac:(lia)) as Hrel.
    cbv zeta. destruct (hashput (_relink_left h1 n1 n) σ1) as [h σ'] eqn:Hput.
    eexists. split; [reflexivity|]. apply (climbed_put _ _ _ σ1); auto.
  - destruct Hcase as [-> Hed]. pose proof (edited_depth _ _ _ _ _ _ Hed) as Hdl.
    destruct (IHr (S i) p Hed Hd) as ([[[n1 h1] p1] σ1] & -> & Hext1 & Hr' & Hn1 & _ & Hd1 & Hb1' & Hpre);
      [change MAXD with 12%nat; lia|].
    pose proof (plain_height k (fun _ => e') r) as Hhr.
    rewrite res_bind_Ok, (plain_step_right n) by (rewrite ?Hb1', ?Hpre, ?Hd1; done || lia).
    pose proof (node_rep_ext _ _ _ _ _ _ _ _ _ Hext1 Hrep) as Hrep1.
    pose proof (_relink_right_spec _ _ _ _ _ _ _ _ _ Hr' Hn1 Hrep1 ltac:(lia) ltac:(lia)) as Hrel.
    cbv zeta. destruct (hashput (_relink_right h1 n1 n) σ1) as [h σ'] eqn:Hput.
    eexists. rewrite wrapu_small by (apply lor_shift_u32; [apply path_bits_u32|]; lia).
    split; [reflexivity|]. apply (climbed_put _ _ _ σ1); auto.
Qed.


End Facts.
