(* ===== verification/AvlOps.v ===== *)
(** The operations of [avl_tree.h] on the tree level: each computes the
    corresponding change of the functional AVL tree. *)
From Stdlib Require Import ZArith Lia Sorted.
From stdpp Require Import base numbers list gmap.
From S2P Require Import Prelude BlockStore TreeCore TreeFacts TreePaths TreeSearch TreeEdit TreeMap AvlTree AvlSpec AvlFacts.

Local Open Scope Z_scope.

Section Ops.
Context {BS : BlockStore tree_node_t} {BSL : BlockStoreLaws tree_node_t}.

Abbreviation rep := (rep avl_config avl_node_ok).
Abbreviation node_rep := (node_rep avl_config avl_node_ok).
Abbreviation MAXD := (MAX_TREE_DEPTH avl_config).
Abbreviation tree_path_t := (tree_path_t tree_node_t).
Abbreviation edited := (edited avl_config avl_node_ok).
Abbreviation tree := (tree hash_t).
Abbreviation on_path := (on_path avl_config avl_node_ok).
Abbreviation add_value := (add_value avl_config _value_equals).
Abbreviation put_value := (put_value avl_config _value_equals).
Implicit Types (σ : store tree_node_t) (t l r : tree) (n : tree_node_t) (p : tree_path_t).

(** A stored AVL search tree within the depth limit. *)
Definition avl_rep σ (root : hash_t) t : Prop :=
  rep σ root t /\ bst t /\ avl t /\ (height t <= MAXD)%nat.

Lemma avl_rep_ext σ σ' root t : store_ext σ σ' -> avl_rep σ root t -> avl_rep σ' root t.
Proof. intros Hext (Hrep & ?). split; [by eapply rep_ext|done]. Qed.

Lemma tree_init_rep σ : avl_rep σ tree_init Leaf.
Proof. split; [apply hasheq_refl|]. split; [constructor|]. split; [done|cbn; lia]. Qed.

(** An edit of the values of a node and the edit of the list they form. *)
Definition edits (edit : tree_node_t -> bool * tree_node_t)
  (E : list hash_t -> bool * list hash_t) : Prop :=
  forall n, values_wf avl_config n ->
    let '(b, n') := edit n in
    b = fst (E (entry n)) /\ values_edit avl_config avl_node_ok n n' (snd (E (entry n))).

Lemma avl_node_ok_values n vs l r : avl_node_ok n l r -> avl_node_ok (set_values vs n) l r.
Proof. done. Qed.
Lemma avl_node_ok_num n q l r : avl_node_ok n l r -> avl_node_ok (set_num_values q n) l r.
Proof. done. Qed.

Lemma edits_copy v :
  edits (fun n => _copy_value avl_config _value_equals n v) (fun e => add_value e v).
Proof.
  intros n Hwf. apply (_copy_value_spec avl_config avl_config_ok _value_equals avl_node_ok);
    auto using avl_node_ok_values, avl_node_ok_num.
Qed.

Lemma edits_replace old new :
  edits (fun n => _replace_value avl_config _value_equals n old new) (fun e => put_value e old new).
Proof.
  intros n Hwf. apply (_replace_value_spec avl_config avl_config_ok _value_equals avl_node_ok);
    auto using avl_node_ok_values, avl_node_ok_num.
Qed.

(** The node given to a new key. *)
Lemma init_node_rep σ n k v :
  length (n_values n) = 1%nat -> node_rep σ (init_node k v n) Leaf k [v] Leaf.
Proof.
  intros Hlen. destruct n as [? ? ? ? vs ? ? ?]; cbn in Hlen. destruct vs as [|x [|]]; done.
Qed.

(** The outcome of an insertion or update, from the values of its key. *)
Definition entry_edit (E : list hash_t -> bool * list hash_t) (k : Z) (v : hash_t) t
  : bool * list hash_t :=
  match lookup_key k t with
  | Some e => E e
  | None => ((search_depth k t <? MAXD)%nat, [v])
  end.

Lemma _insert_path_spec σ root t k edit E v :
  rep σ root t -> (height t <= MAXD)%nat -> edits edit E ->
  exists p, _insert_path σ root k edit v = Ok (fst (entry_edit E k v t), p) /\
    (fst (entry_edit E k v t) = true ->
     edited σ k (snd (entry_edit E k v t)) t 0 p /\ depth p <= Z.of_nat MAXD).
Proof.
  intros Hrep Hh HE. unfold _insert_path.
  destruct (_find_path_full avl_config avl_config_ok avl_node_ok σ root k t (empty_path avl_config)
              Hrep Hh (empty_path_wf avl_config) eq_refl) as (found & p & -> & Hwf & Hon & Hab).
  rewrite res_bind_Ok. unfold entry_edit. pose proof (on_path_depth _ _ _ _ _ _ _ _ Hon) as Hdp.
  destruct found.
  - pose proof (on_path_found _ _ _ _ _ _ _ _ Hon) as Hfound. symmetry in Hfound.
    apply bool_decide_eq_true_1 in Hfound as [e He]. rewrite He.
    destruct (on_path_hit avl_config avl_node_ok _ _ _ _ _ _ Hon He) as (j & n & l & r & Hd & _ & Hn & Hnrep & Hed).
    rewrite (with_path_node_spec avl_config _ _ _ j n Hwf Hd Hn).
    pose proof Hnrep as (_ & Hv & Hentry & _). specialize (HE n Hv).
    destruct (edit n) as [b n']. destruct HE as [-> Hval]. rewrite Hentry in *.
    eexists. split; [reflexivity|]. intros _. split; [|cbn [depth set_node]; lia].
    apply Hed; [by eapply lookup_lt_Some|]. by eapply node_rep_edit.
  - destruct (on_path_miss avl_config avl_node_ok _ _ _ _ _ Hon Hwf) as (Hd & -> & Hed). cbn [fst snd].
    rewrite Hd, Nat.add_0_l in *. destruct (Nat.ltb_spec (search_depth k t) MAXD) as [Hlt|Hge].
    + rewrite (proj2 (Z.ltb_lt _ _)) by lia.
      set (d := search_depth k t) in *. set (p1 := set_depth (u8 (Z.of_nat d + 1)) p).
      assert (u8 (Z.of_nat d + 1) = Z.of_nat (S d)) as Hu.
      { cbn in Hlt. rewrite wrapu_small by (unfold in_u; lia). lia. }
      assert (nodes p !! d = Some inhabitant) as Hnode.
      { rewrite (Hab d) by lia. cbn [nodes empty_path]. by apply lookup_replicate_2. }
      rewrite (with_path_node_spec avl_config _ p1 false d inhabitant) by (done || cbn [depth p1 set_depth]; done).
      eexists. split; [reflexivity|]. intros _. split; [|cbn -[Z.of_nat]; rewrite Hu; cbn in Hlt |- *; lia].
      unfold p1. rewrite Hu. apply Hed; [done|]. by apply init_node_rep.
    + rewrite (proj2 (Z.ltb_ge _ _)) by lia. eexists. split; [reflexivity|]. done.
Qed.

Lemma _recompute_path_spec σ k e' t p :
  edited σ k e' t 0 p -> depth p <= Z.of_nat MAXD -> bst t -> avl t ->
  (height t <= MAXD)%nat -> (search_depth k t < MAXD \/ is_Some (lookup_key k t))%nat ->
  exists root' σ', _recompute_path p σ = Ok (root', σ') /\ store_ext σ σ' /\
    avl_rep σ' root' (alter_at k (fun _ => e') t).
Proof.
  intros Hed Hd Hbst Havl Hh Hroom. unfold _recompute_path. cbn in Hh.
  destruct (recompute_loop _ _ _ _ _ _ Hed Hd Havl) as ([[[n h] p'] σ'] & -> & Hext & Hrep & _); [lia|].
  rewrite res_bind_Ok. exists h, σ'. split; [done|]. split; [done|].
  split; [done|]. split; [by apply alter_at_bst|]. split; [by apply alter_at_avl|].
  destruct Hroom as [Hlt|[e He]].
  - pose proof (alter_at_height_depth k (fun _ => e') t Havl). cbn in *. lia.
  - by destruct (alter_at_present k (fun _ => e') t e Havl He) as [_ ->].
Qed.

Lemma entry_edit_room E k v t :
  fst (entry_edit E k v t) = true -> (search_depth k t < MAXD \/ is_Some (lookup_key k t))%nat.
Proof.
  unfold entry_edit. destruct (lookup_key k t); [eauto|]. cbn [fst]. intros Hlt%Nat.ltb_lt. by left.
Qed.

(** What every changing operation does: it reports success exactly when
    the new values are accepted, and then the returned root holds the
    altered tree; the tree under the old root is still there. *)
Definition alters σ root t (k : Z) (out : bool * list hash_t)
  (r : res (bool * hash_t * store tree_node_t)) : Prop :=
  exists root' σ', r = Ok (fst out, root', σ') /\ store_ext σ σ' /\ avl_rep σ' root t /\
    (fst out = false -> root' = root /\ σ' = σ) /\
    avl_rep σ' root' (if fst out then alter_at k (fun _ => snd out) t else t).

Lemma alters_insert σ root t k edit E v :
  avl_rep σ root t -> edits edit E ->
  alters σ root t k (entry_edit E k v t)
    (s ← _insert_path σ root k edit v;
     let '(success, path) := s in
     if (success : bool) then
       r ← _recompute_path path σ;
       let '(root, σ) := r in Ok (success, root, σ)
     else Ok (success, root, σ)).
Proof.
  intros Hrep HE. pose proof Hrep as (Hr & Hbst & Havl & Hh).
  destruct (_insert_path_spec σ root t k edit E v Hr Hh HE) as (p & -> & Hp).
  rewrite res_bind_Ok. pose proof (entry_edit_room E k v t) as Hroom.
  destruct (entry_edit E k v t) as [[|] e']; cbn [fst snd] in *.
  - destruct (Hp eq_refl) as [Hed Hd].
    destruct (_recompute_path_spec σ k e' t p) as (root' & σ' & -> & Hext & Hrep'); auto.
    exists root', σ'. split_and!; try done. by eapply avl_rep_ext.
  - exists root, σ. by split_and!.
Qed.

Lemma tree_insert_spec σ root t k v :
  avl_rep σ root t ->
  alters σ root t k (entry_edit (fun e => add_value e v) k v t) (tree_insert σ root k v).
Proof. intros Hrep. apply alters_insert; [done|apply edits_copy]. Qed.

Lemma tree_update_spec σ root t k old new :
  avl_rep σ root t ->
  alters σ root t k (entry_edit (fun e => put_value e old new) k new t)
    (tree_update σ root k old new).
Proof. intros Hrep. apply alters_insert; [done|apply edits_replace]. Qed.

(** The removals find the key or change nothing. *)
Lemma found_key σ root t k e :
  avl_rep σ root t -> lookup_key k t = Some e ->
  exists p j n l r, _find_path avl_config σ root k (empty_path avl_config) = Ok (true, p) /\
    node_rep σ n l k e r /\
    (forall A (f : tree_node_t -> A -> tree_node_t * A) a,
       with_path_node avl_config f p a = let '(n', a') := f n a in (set_node j n' p, a')) /\
    forall n' e', node_rep σ n' l k e' r ->
      exists root' σ', _recompute_path (set_node j n' p) σ = Ok (root', σ') /\ store_ext σ σ' /\
        avl_rep σ' root' (alter_at k (fun _ => e') t).
Proof.
  intros (Hrep & Hbst & Havl & Hh) He.
  destruct (_find_path_spec avl_config avl_config_ok avl_node_ok σ root k t (empty_path avl_config)
              Hrep Hh (empty_path_wf avl_config) eq_refl) as (found & p & -> & Hwf & Hon).
  pose proof (on_path_found _ _ _ _ _ _ _ _ Hon) as Hfound.
  rewrite He in Hfound. cbn in Hfound. subst found.
  pose proof (on_path_depth _ _ _ _ _ _ _ _ Hon) as Hdp.
  destruct (on_path_hit avl_config avl_node_ok _ _ _ _ _ _ Hon He) as (j & n & l & r & Hd & _ & Hn & Hnrep & Hed).
  exists p, j, n, l, r. split; [done|]. split; [done|]. split.
  - intros A f a. exact (with_path_node_spec avl_config f p a j n Hwf Hd Hn).
  - intros n' e' Hn'. apply _recompute_path_spec; eauto.
    + apply Hed; [by eapply lookup_lt_Some|done].
    + cbn [depth set_node]. lia.
Qed.

Lemma missing_key σ root t k :
  avl_rep σ root t -> lookup_key k t = None ->
  exists p, _find_path avl_config σ root k (empty_path avl_config) = Ok (false, p).
Proof.
  intros (Hrep & Hbst & Havl & Hh) He.
  destruct (_find_path_spec avl_config avl_config_ok avl_node_ok σ root k t (empty_path avl_config)
              Hrep Hh (empty_path_wf avl_config) eq_refl) as (found & p & -> & Hwf & Hon).
  pose proof (on_path_found _ _ _ _ _ _ _ _ Hon) as Hfound.
  rewrite He in Hfound. cbn in Hfound. subst found. by exists p.
Qed.

(** [tree_remove] empties the value list of a key; the key stays. *)
Definition remove_edit (k : Z) t : bool * list hash_t := (bool_decide (is_Some (lookup_key k t)), []).

Lemma tree_remove_spec σ root t k :
  avl_rep σ root t -> alters σ root t k (remove_edit k t) (tree_remove σ root k).
Proof.
  intros Hrep. unfold tree_remove, remove_edit. destruct (lookup_key k t) as [e|] eqn:He.
  - destruct (found_key _ _ _ _ _ Hrep He) as (p & j & n & l & r & -> & Hn & Hw & Hrec).
    rewrite res_bind_Ok, Hw. cbn [bool_decide_reflect fst snd].
    destruct (Hrec (set_num_values 0 n) []) as (root' & σ' & -> & Hext & Hrep').
    { eapply node_rep_edit; [exact Hn|]. pose proof Hn as (_ & [Hlen _] & _). split; [done|].
      split; [done|]. apply same_shape_num; [exact avl_node_ok_num|apply same_shape_refl]. }
    exists root', σ'. rewrite bool_decide_eq_true_2 by eauto. cbn.
    split_and!; try done. by eapply avl_rep_ext.
  - destruct (missing_key _ _ _ _ Hrep He) as (p & ->). rewrite res_bind_Ok.
    exists root, σ. by split_and!.
Qed.

(** A stored entry has at most one value. *)
Lemma entry_short n : values_wf avl_config n -> (length (entry n) <= 1)%nat.
Proof. intros Hv. rewrite entry_length with (cfg := avl_config) by done. destruct Hv as [_ Hn]. cbn in Hn |- *. lia. Qed.

(** [tree_remove_value] drops the value when it is there; in both cases it
    reports whether the key was found. *)
Definition drop_value (e : list hash_t) (v : hash_t) : list hash_t :=
  List.filter (fun x => negb (_value_equals x v)) e.

Lemma _remove_value_avl n v :
  values_wf avl_config n ->
  let '(b, n') := _remove_value avl_config _value_equals n v in
  if b then values_edit avl_config avl_node_ok n n' (drop_value (entry n) v) /\
    drop_value (entry n) v <> entry n
  else drop_value (entry n) v = entry n.
Proof.
  intros Hv. pose proof (entry_short n Hv) as Hlen.
  destruct (entry n) as [|x [|]] eqn:He; [| |cbn in Hlen; lia].
  - by rewrite _remove_value_none by (done || rewrite He; done).
  - destruct (_value_equals x v) eqn:Ex; cbn; rewrite Ex; cbn.
    + pose proof (_remove_value_some avl_config avl_config_ok _value_equals avl_node_ok
        avl_node_ok_values avl_node_ok_num n v [] x [] Hv He Ex eq_refl) as Hs.
      destruct (_remove_value avl_config _value_equals n v) as [b n']. by destruct Hs as [-> Hs]. 
    + rewrite _remove_value_none by (done || rewrite He; cbn; by rewrite Ex). done.
Qed.

Lemma tree_remove_value_spec σ root t k v :
  avl_rep σ root t ->
  exists root' σ', tree_remove_value σ root k v
      = Ok (bool_decide (is_Some (lookup_key k t)), root', σ') /\
    store_ext σ σ' /\ avl_rep σ' root t /\
    match lookup_key k t with
    | None => root' = root /\ σ' = σ
    | Some e =>
        if decide (drop_value e v = e) then avl_rep σ' root' t
        else avl_rep σ' root' (alter_at k (fun _ => drop_value e v) t)
    end.
Proof.
  intros Hrep. unfold tree_remove_value. destruct (lookup_key k t) as [e|] eqn:He.
  - destruct (found_key _ _ _ _ _ Hrep He) as (p & j & n & l & r & -> & Hn & Hw & Hrec).
    rewrite res_bind_Ok, Hw. pose proof Hn as (_ & Hv & Hentry & _).
    pose proof (_remove_value_avl n v Hv) as Hrv. rewrite Hentry in Hrv.
    destruct (_remove_value avl_config _value_equals n v) as [[|] n'].
    + destruct (Hrec n' (drop_value e v)) as (root' & σ' & -> & Hext & Hrep').
      { eapply node_rep_edit; [exact Hn|apply Hrv]. }
      exists root', σ'. split; [done|]. split; [done|]. split; [by eapply avl_rep_ext|].
      destruct (decide (drop_value e v = e)) as [Heq|]; [|done]. exfalso.
      by destruct Hrv.
    + exists root, σ. split; [done|]. split; [done|]. split; [done|].
      by destruct (decide (drop_value e v = e)).
  - destruct (missing_key _ _ _ _ Hrep He) as (p & ->). rewrite res_bind_Ok.
    exists root, σ. by split_and!.
Qed.

End Ops.
