(* ===== verification/AvlMap.v ===== *)
(** The stored AVL tree as a finite map: every operation of [avl_tree.h]
    refines an operation on maps from keys to value lists, any sequence of
    operations included. *)
From Stdlib Require Import ZArith Lia Sorted.
From stdpp Require Import base numbers list gmap.
From S2P Require Import Prelude BlockStore TreeCore TreeFacts TreePaths TreeSearch TreeEdit TreeMap AvlTree AvlSpec AvlFacts AvlOps.

Local Open Scope Z_scope.

(** ** The abstract operations *)

Abbreviation index := (gmap Z (list hash_t)).

(** The operations that change a tree. *)
Inductive tree_op : Type :=
| OpInsert (k : Z) (v : hash_t)
| OpUpdate (k : Z) (old new : hash_t)
| OpRemove (k : Z)
| OpRemoveValue (k : Z) (v : hash_t).

(** A key has at most one value: a second one is refused. *)
Definition index_insert (k : Z) (v : hash_t) (m : index) : bool * index :=
  match m !! k with
  | None => (true, <[k := [v]]> m)
  | Some e => let '(b, e') := add_value avl_config _value_equals e v in
              (b, if b then <[k := e']> m else m)
  end.

Definition index_update (k : Z) (old new : hash_t) (m : index) : bool * index :=
  match m !! k with
  | None => (true, <[k := [new]]> m)
  | Some e => let '(b, e') := put_value avl_config _value_equals e old new in
              (b, if b then <[k := e']> m else m)
  end.

Definition index_remove (k : Z) (m : index) : bool * index :=
  match m !! k with None => (false, m) | Some _ => (true, <[k := []]> m) end.

Definition index_remove_value (k : Z) (v : hash_t) (m : index) : bool * index :=
  match m !! k with None => (false, m) | Some e => (true, <[k := drop_value e v]> m) end.

Definition index_op (o : tree_op) : index -> bool * index :=
  match o with
  | OpInsert k v => index_insert k v
  | OpUpdate k old new => index_update k old new
  | OpRemove k => index_remove k
  | OpRemoveValue k v => index_remove_value k v
  end.

Fixpoint index_run (os : list tree_op) (m : index) : list bool * index :=
  match os with
  | [] => ([], m)
  | o :: os => let '(b, m) := index_op o m in
               let '(bs, m) := index_run os m in (b :: bs, m)
  end.

(** ** How many keys twelve levels hold *)

(** The least number of keys of an AVL tree of a given height. *)
Fixpoint min_keys (h : nat) : nat :=
  match h with
  | O => 0
  | S h' => match h' with O => 1 | S h'' => S (min_keys h' + min_keys h'') end
  end.

Lemma min_keys_mono h h' : (h <= h')%nat -> (min_keys h <= min_keys h')%nat.
Proof.
  induction 1 as [|h' Hle IH]; [done|]. destruct h' as [|h']; [cbn in *; lia|].
  change (min_keys (S (S h'))) with (S (min_keys (S h') + min_keys h')). lia.
Qed.

Lemma avl_min_keys {V} (t : tree V) : avl t -> (min_keys (height t) <= length (elements t))%nat.
Proof.
  induction t as [|l IHl k e r IHr]; [done|]. intros (Hl & Hr & H1 & H2).
  specialize (IHl Hl). specialize (IHr Hr). cbn [elements height]. rewrite length_app. cbn [length].
  destruct (le_lt_dec (height l) (height r)) as [Hle|Hlt].
  - rewrite Nat.max_r by lia. destruct (height r) as [|h]; [cbn; lia|].
    change (min_keys (S (S h))) with (S (min_keys (S h) + min_keys h)).
    pose proof (min_keys_mono h (height l) ltac:(lia)). lia.
  - rewrite Nat.max_l by lia. destruct (height l) as [|h]; [cbn; lia|].
    change (min_keys (S (S h))) with (S (min_keys (S h) + min_keys h)).
    pose proof (min_keys_mono h (height r) ltac:(lia)). lia.
Qed.

(** [min_keys] of the [MAX_TREE_DEPTH] levels. *)
Definition capacity : nat := min_keys (MAX_TREE_DEPTH avl_config).

Section Refinement.
Context {BS : BlockStore tree_node_t} {BSL : BlockStoreLaws tree_node_t}.

Abbreviation edited := (edited avl_config avl_node_ok).
Abbreviation tree := (tree hash_t).
Implicit Types (σ : store tree_node_t) (root : hash_t) (t : tree) (m : index).

(** The tree under [root] is a balanced search tree with contents [m]. *)
Definition stored σ root m : Prop := exists t, avl_rep σ root t /\ contents t = m.

Definition exec_op (o : tree_op) σ root : res (bool * hash_t * store tree_node_t) :=
  match o with
  | OpInsert k v => tree_insert σ root k v
  | OpUpdate k old new => tree_update σ root k old new
  | OpRemove k => tree_remove σ root k
  | OpRemoveValue k v => tree_remove_value σ root k v
  end.

Fixpoint exec_run (os : list tree_op) σ root : res (list bool * hash_t * store tree_node_t) :=
  match os with
  | [] => Ok ([], root, σ)
  | o :: os =>
      r ← exec_op o σ root;
      let '(b, root, σ) := r in
      r ← exec_run os σ root;
      let '(bs, root, σ) := r in Ok (b :: bs, root, σ)
  end.

(** A tree with room has no search path of full length. *)
Lemma search_depth_room σ root t k :
  avl_rep σ root t -> (size (contents t) < capacity)%nat ->
  (search_depth k t < MAX_TREE_DEPTH avl_config)%nat.
Proof.
  intros (_ & Hb & Havl & Hh) Hsz. rewrite contents_size in Hsz by done.
  pose proof (avl_min_keys t Havl) as Hmin. pose proof (search_depth_height k t) as Hsd.
  destruct (decide (height t = MAX_TREE_DEPTH avl_config)) as [Heq|]; [|lia].
  rewrite Heq in Hmin. unfold capacity in Hsz. lia.
Qed.

Lemma stored_alter σ root t k e :
  avl_rep σ root (alter_at k (fun _ => e) t) -> bst t ->
  stored σ root (<[k := e]> (contents t)).
Proof. intros Hrep Hb. eexists. split; [exact Hrep|]. by rewrite contents_alter_at. Qed.

(** From the tree-level specification of an operation to the map. *)
Lemma alters_stored σ root t k out r :
  avl_rep σ root t -> alters σ root t k out r ->
  exists root' σ', r = Ok (fst out, root', σ') /\ store_ext σ σ' /\ stored σ' root (contents t) /\
    stored σ' root' (if fst out then <[k := snd out]> (contents t) else contents t).
Proof.
  intros (_ & Hb & _) (root' & σ' & -> & Hext & Hold & _ & Hnew).
  exists root', σ'. split; [done|]. split; [done|]. split; [by exists t|].
  destruct (fst out); [by apply stored_alter|by exists t].
Qed.

Lemma exec_op_stored o σ root m :
  stored σ root m -> (size m < capacity)%nat ->
  exists root' σ', exec_op o σ root = Ok (fst (index_op o m), root', σ') /\
    store_ext σ σ' /\ stored σ' root' (snd (index_op o m)).
Proof.
  intros (t & Hrep & <-) Hsz. pose proof Hrep as (_ & Hb & _).
  assert (forall k, lookup_key k t = contents t !! k) as Hlk by (intros; by apply lookup_key_contents).
  assert (forall k, (search_depth k t <? MAX_TREE_DEPTH avl_config)%nat = true) as Hroom.
  { intros k. apply Nat.ltb_lt. by eapply search_depth_room. }
  destruct o as [k v|k old new|k|k v]; cbn [exec_op index_op].
  - destruct (alters_stored _ _ _ _ _ _ Hrep (tree_insert_spec _ _ _ k v Hrep))
      as (root' & σ' & -> & Hext & _ & Hnew).
    exists root', σ'. unfold entry_edit, index_insert in *. rewrite Hroom, Hlk in *.
    destruct (contents t !! k) as [e|]; [|done]. by destruct (add_value _ _ e v) as [[|] e'].
  - destruct (alters_stored _ _ _ _ _ _ Hrep (tree_update_spec _ _ _ k old new Hrep))
      as (root' & σ' & -> & Hext & _ & Hnew).
    exists root', σ'. unfold entry_edit, index_update in *. rewrite Hroom, Hlk in *.
    destruct (contents t !! k) as [e|]; [|done]. by destruct (put_value _ _ e old new) as [[|] e'].
  - destruct (alters_stored _ _ _ _ _ _ Hrep (tree_remove_spec _ _ _ k Hrep))
      as (root' & σ' & -> & Hext & _ & Hnew).
    exists root', σ'. unfold remove_edit, index_remove in *. rewrite Hlk in *.
    by destruct (contents t !! k) as [e|].
  - destruct (tree_remove_value_spec _ _ _ k v Hrep) as (root' & σ' & -> & Hext & Hold & Hnew).
    exists root', σ'. unfold index_remove_value. rewrite Hlk in *.
    destruct (contents t !! k) as [e|] eqn:He; cbn [fst snd].
    + split; [done|]. split; [done|]. destruct (decide (drop_value e v = e)) as [->|].
      * rewrite insert_id by done. by exists t.
      * by apply stored_alter.
    + split; [done|]. split; [done|]. destruct Hnew as [-> ->]. by exists t.
Qed.

Lemma index_op_size o m : (size (snd (index_op o m)) <= S (size m))%nat.
Proof.
  assert (forall k (e : list hash_t), (size (<[k := e]> m) <= S (size m))%nat) as Hins.
  { intros k e. rewrite map_size_insert. destruct (m !! k); cbn; lia. }
  destruct o as [k v|k old new|k|k v]; cbn [index_op];
    unfold index_insert, index_update, index_remove, index_remove_value;
    destruct (m !! k) as [e|]; cbn [snd]; auto.
  - destruct (add_value _ _ e v) as [[|] e']; cbn [snd]; auto.
  - destruct (put_value _ _ e old new) as [[|] e']; cbn [snd]; auto.
Qed.

Lemma exec_run_stored os : forall σ root m,
  stored σ root m -> (size m + length os <= capacity)%nat ->
  exists root' σ', exec_run os σ root = Ok (fst (index_run os m), root', σ') /\
    store_ext σ σ' /\ stored σ' root' (snd (index_run os m)).
Proof.
  induction os as [|o os IH]; intros σ root m Hst Hsz; cbn [exec_run index_run length] in *.
  { exists root, σ. by split_and!. }
  destruct (exec_op_stored o σ root m Hst) as (r1 & σ1 & -> & Hext1 & Hst1); [lia|].
  rewrite res_bind_Ok. pose proof (index_op_size o m) as Hsz1.
  destruct (index_op o m) as [b m1]. cbn [fst snd] in *.
  destruct (IH σ1 r1 m1 Hst1) as (r2 & σ2 & -> & Hext2 & Hst2); [lia|]. rewrite res_bind_Ok.
  exists r2, σ2. destruct (index_run os m1) as [bs m2]. split; [done|]. split; [by etrans|done].
Qed.

Lemma stored_ext σ σ' root m : store_ext σ σ' -> stored σ root m -> stored σ' root m.
Proof. intros Hext (t & Hrep & <-). exists t. split; [by eapply avl_rep_ext|done]. Qed.

(** C7: Any sequence of [tree_insert], [tree_update], [tree_remove] and
    [tree_remove_value] calls on a stored AVL tree gives the answers of the
    same operations on a finite map from keys to value lists, and leaves a
    balanced tree of at most 12 levels that holds the resulting map, as long
    as no more than [capacity] (376) keys can be reached.  No call faults,
    and the tree under the old root is still stored. *)
Theorem avl_run_refines os σ root m :
  stored σ root m -> (size m + length os <= capacity)%nat ->
  exists root' σ', exec_run os σ root = Ok (fst (index_run os m), root', σ') /\
    stored σ' root' (snd (index_run os m)) /\ stored σ' root m.
Proof.
  intros Hst Hsz. destruct (exec_run_stored os σ root m Hst Hsz) as (root' & σ' & -> & Hext & Hst').
  exists root', σ'. eauto using stored_ext.
Qed.

(** A lookup returns exactly the values the map has under the key, at
    most [MAX_TREE_RESULTS] of them, and none when the key is absent. *)
Theorem avl_find_eq_map σ root m k rs :
  stored σ root m -> length (results rs) = MAX_TREE_RESULTS avl_config ->
  exists rs', tree_find_eq σ root k rs = Ok rs' /\
    rs_is avl_config rs' (map (pair k) (default [] (m !! k))).
Proof.
  intros (t & (Hrep & Hb & _ & Hh) & <-) Hlen. rewrite <- lookup_key_contents by done.
  exact (tree_find_eq_spec avl_config avl_config_ok avl_node_ok σ root t k rs Hrep Hh Hlen).
Qed.

(** The pairs a search is after, in key order. *)
Definition pairs_where (test : Z -> bool) t : list (Z * hash_t) := pairs (selected test (elements t)).

(** What the search for the keys below a bound collects: the smallest key
    is not tested, and no more than [MAX_TREE_RESULTS] further keys are. *)
Definition lt_collected (test : Z -> bool) t : list (Z * hash_t) :=
  match elements t with
  | [] => []
  | c :: rest => pairs (c :: selected test (take (MAX_TREE_RESULTS avl_config) rest))
  end.

(** The search for the keys above a bound returns the first
    [MAX_TREE_RESULTS] key/value pairs above it, in key order, provided
    every key has a value. *)
Theorem avl_find_gt_first σ root t k equal_to rs :
  avl_rep σ root t -> no_erased t -> length (results rs) = MAX_TREE_RESULTS avl_config ->
  exists rs', tree_find_gt σ root k equal_to rs = Ok rs' /\
    rs_is avl_config rs' (pairs_where (gt_test k equal_to) t).
Proof.
  intros (Hrep & Hb & _ & Hh) Hne Hlen. unfold tree_find_gt, reset_results.
  destruct (find_gt_into_spec avl_config avl_config_ok avl_node_ok σ root t k equal_to _ []
    Hrep Hh Hb (rs_is_reset avl_config rs Hlen)) as (rs' & n & -> & Hn & Hwf & Hview).
  exists rs'. split; [done|]. split; [done|]. rewrite Hview. cbn [app].
  apply take_pairs; [|done]. by apply selected_Forall.
Qed.

(** C40: In a tree without erased nodes, where every key has a value, and for
    a lower bound below the upper one, the search for the keys between the
    bounds returns the first [MAX_TREE_RESULTS] key/value pairs between them,
    in key order.  (The node of a removed key stays in the tree without a
    value and uses up one of the rounds of the search.) *)
Theorem avl_find_range_first σ root t lo lo_eq hi hi_eq rs :
  avl_rep σ root t -> no_erased t -> lo < hi -> length (results rs) = MAX_TREE_RESULTS avl_config ->
  exists rs', tree_find_range σ root lo lo_eq hi hi_eq rs = Ok rs' /\
    rs_is avl_config rs' (pairs_where (range_test lo lo_eq hi hi_eq) t).
Proof.
  intros (Hrep & Hb & _ & Hh) Hne Hlh Hlen. unfold tree_find_range, reset_results.
  destruct (find_range_into_spec avl_config avl_config_ok avl_node_ok σ root t lo lo_eq hi hi_eq _ []
    Hrep Hh Hb Hlh (rs_is_reset avl_config rs Hlen)) as (rs' & n & -> & Hn & Hwf & Hview).
  exists rs'. split; [done|]. split; [done|]. rewrite Hview. cbn [app].
  apply take_pairs; [|done]. by apply selected_Forall.
Qed.

(** The search for the keys below a bound returns the smallest key's
    values whatever the bound, and then those of the next
    [MAX_TREE_RESULTS] keys that are below the bound. *)
Theorem avl_find_lt_all σ root t k equal_to rs :
  avl_rep σ root t -> length (results rs) = MAX_TREE_RESULTS avl_config ->
  exists rs', tree_find_lt σ root k equal_to rs = Ok rs' /\
    rs_is avl_config rs' (lt_collected (lt_test k equal_to) t).
Proof.
  intros (Hrep & _ & _ & Hh) Hlen. unfold tree_find_lt, reset_results.
  destruct (find_lt_into_spec avl_config avl_config_ok avl_node_ok σ root t k equal_to _ []
    Hrep Hh (rs_is_reset avl_config rs Hlen)) as (rs' & -> & Hrs).
  by exists rs'.
Qed.

End Refinement.

(** ** Uses at concrete inputs, on the store of numbered blocks *)

Definition sample_ops : list tree_op :=
  [OpInsert 5 (index_hash 50); OpInsert 3 (index_hash 30); OpInsert 1 (index_hash 10);
   OpInsert 3 (index_hash 31); OpUpdate 3 (index_hash 30) (index_hash 31);
   OpRemoveValue 5 (index_hash 50); OpRemove 9].

Definition no_blocks : list tree_node_t := [].

Lemma stored_init : stored (BS := LogStore tree_node_t) no_blocks tree_init ∅.
Proof. exists Leaf. split; [exact (tree_init_rep (BS := LogStore _) no_blocks)|reflexivity]. Qed.

Lemma avl_run_refines_witness :
  exists root' σ',
    exec_run (BS := LogStore tree_node_t) sample_ops no_blocks tree_init
      = Ok ([true; true; true; false; true; true; false], root', σ') /\
    stored (BS := LogStore _) σ' root' (<[1 := [index_hash 10]]> (<[3 := [index_hash 31]]> (<[5 := []]> ∅))).
Proof.
  destruct (avl_run_refines (BS := LogStore _) sample_ops no_blocks tree_init ∅ stored_init ltac:(vm_compute; lia))
    as (root' & σ' & Heq & Hst & _).
  exists root', σ'. split; [exact Heq|]. exact Hst.
Defined.

(** Removal leaves the node of the key in the tree, and a range search looks at
    six nodes: after seven removals it does not reach the key that is left. *)
Definition erased_ops : list tree_op :=
  ((fun k => OpInsert k (index_hash k)) <$> [4; 2; 6; 1; 3; 5; 7; 8]) ++ (OpRemove <$> [1; 2; 3; 4; 5; 6; 7]).

(** A node on its own in the store. *)
Definition sample_node (k v : Z) : tree_node_t := init_node k (index_hash v) inhabitant.
Definition sample_rs : tree_result_set_t hash_t :=
  {| num_results := 0; results := replicate 5 (0, NULL_HASH) |}.
Definition sample_store : list tree_node_t :=
  [sample_node 4 40; sample_node 9 90;
   set_heights 2 1 1 (set_left (index_hash 1) (set_right (index_hash 2) (sample_node 7 70)))].
Definition sample_tree : tree hash_t :=
  Bin (Bin Leaf 4 [index_hash 40] Leaf) 7 [index_hash 70] (Bin Leaf 9 [index_hash 90] Leaf).

Example avl_find_range_erased :
  exists root σ rs, exec_run (BS := LogStore tree_node_t) erased_ops no_blocks tree_init = Ok (replicate 15 true, root, σ) /\
    tree_find_range (BS := LogStore _) σ root 0 false 9 false sample_rs = Ok rs /\ rs_view rs = [] /\
    exists rs', tree_find_eq (BS := LogStore _) σ root 8 sample_rs = Ok rs' /\ rs_view rs' = [(8, index_hash 8)].
Proof.
  destruct (exec_run (BS := LogStore tree_node_t) erased_ops no_blocks tree_init) as [[[bs root] σ]| |] eqn:He; vm_compute in He; [|discriminate..].
  injection He as <- <- <-. eexists _, _, _. split; [reflexivity|]. split; [vm_compute; reflexivity|]. split; [reflexivity|].
  eexists. split; [vm_compute; reflexivity|]. reflexivity.
Qed.

Lemma sample_rep : avl_rep (BS := LogStore tree_node_t) sample_store (index_hash 3) sample_tree.
Proof.
  split; [|split; [repeat constructor|cbn; lia]].
  cbn. split; [reflexivity|]. eexists. split; [reflexivity|]. split; [reflexivity|].
  split; [vm_compute; split; [reflexivity|split; discriminate]|]. split; [reflexivity|].
  split; [vm_compute; auto|].
  split; (split; [reflexivity|]; eexists; split; [reflexivity|]; split; [reflexivity|];
    split; [vm_compute; split; [reflexivity|split; discriminate]|]; split; [reflexivity|];
    split; [vm_compute; auto|]; split; reflexivity).
Qed.

Lemma sample_no_erased : no_erased sample_tree.
Proof. repeat constructor; discriminate. Qed.

Lemma avl_find_eq_map_witness :
  exists rs', tree_find_eq (BS := LogStore _) sample_store (index_hash 3) 9 sample_rs = Ok rs' /\
    rs_is avl_config rs' [(9, index_hash 90)].
Proof.
  exact (avl_find_eq_map (BS := LogStore _) sample_store (index_hash 3) (contents sample_tree) 9 sample_rs
    (ex_intro _ sample_tree (conj sample_rep eq_refl)) eq_refl).
Defined.

Lemma avl_find_gt_first_witness :
  exists rs', tree_find_gt (BS := LogStore _) sample_store (index_hash 3) 4 false sample_rs = Ok rs' /\
    rs_is avl_config rs' [(7, index_hash 70); (9, index_hash 90)].
Proof.
  exact (avl_find_gt_first (BS := LogStore _) sample_store (index_hash 3) sample_tree 4 false sample_rs
    sample_rep sample_no_erased eq_refl).
Defined.

Lemma avl_find_range_first_witness :
  exists rs', tree_find_range (BS := LogStore _) sample_store (index_hash 3) 4 true 9 false sample_rs
      = Ok rs' /\
    rs_is avl_config rs' [(4, index_hash 40); (7, index_hash 70)].
Proof.
  exact (avl_find_range_first (BS := LogStore _) sample_store (index_hash 3) sample_tree 4 true 9 false sample_rs
    sample_rep sample_no_erased ltac:(lia) eq_refl).
Defined.

(** The key 4 is reported although it is not below 2. *)
Lemma avl_find_lt_all_witness :
  exists rs', tree_find_lt (BS := LogStore _) sample_store (index_hash 3) 2 false sample_rs = Ok rs' /\
    rs_is avl_config rs' [(4, index_hash 40)].
Proof.
  exact (avl_find_lt_all (BS := LogStore _) sample_store (index_hash 3) sample_tree 2 false sample_rs sample_rep eq_refl).
Defined.
