(* ===== verification/AvlDeferred.v ===== *)
(** The [_no_balance] operations and [tree_balance] of [avl_tree.h]. *)
From Stdlib Require Import ZArith Lia Sorted.
From stdpp Require Import base numbers list gmap.
From S2P Require Import Prelude BlockStore TreeCore TreeFacts TreePaths TreeSearch TreeEdit TreeMap AvlTree AvlSpec AvlFacts AvlOps.

Local Open Scope Z_scope.

(** Read a stored tree back. *)
Fixpoint load {BS : BlockStore tree_node_t} (fuel : nat) (h : hash_t) (σ : store tree_node_t)
  : res (tree hash_t) :=
  if hasheq h NULL_HASH then Ok Leaf
  else match fuel with
       | O => NoFuel
       | S fuel =>
           n ← hashget h σ;
           l ← load fuel (n_left n) σ;
           r ← load fuel (n_right n) σ;
           Ok (Bin l (n_key n) (entry n) r)
       end.

(** Is every node within one level of balance? *)
Fixpoint balanced {V} (t : tree V) : bool :=
  match t with
  | Leaf => true
  | Bin l _ _ r => balanced l && balanced r
      && (height l <=? S (height r))%nat && (height r <=? S (height l))%nat
  end.

Lemma balanced_avl {V} (t : tree V) : balanced t = true <-> avl t.
Proof.
  induction t as [|l IHl k e r IHr]; cbn; [done|].
  rewrite !andb_true_iff, IHl, IHr, !Nat.leb_le. tauto.
Qed.

Section Deferred.
Context {BS : BlockStore tree_node_t} {BSL : BlockStoreLaws tree_node_t}.

Abbreviation rep := (rep avl_config avl_node_ok).
Abbreviation MAXD := (MAX_TREE_DEPTH avl_config).
Abbreviation edited := (edited avl_config avl_node_ok).
Abbreviation tree := (tree hash_t).
Abbreviation add_value := (add_value avl_config _value_equals).
Abbreviation put_value := (put_value avl_config _value_equals).
Implicit Types (σ : store tree_node_t) (t l r : tree).

(** The nodes on the path to [k], the new one included. *)
Fixpoint path_len (k : Z) t : nat :=
  match t with
  | Leaf => 1
  | Bin l k' _ r => if k =? k' then 1 else S (if k <? k' then path_len k l else path_len k r)
  end.

Lemma edited_len σ k e' t : forall i p,
  edited σ k e' t i p -> depth p = Z.of_nat (i + path_len k t).
Proof.
  induction t as [|l IHl k' e r IHr]; intros i p; cbn [edited path_len].
  - intros [-> _]. lia.
  - intros (n & b & _ & _ & Hcase). destruct (k =? k'); [lia|]. destruct Hcase as [_ Hcase].
    destruct (k <? k'); destruct Hcase as [_ Hp]; [apply IHl in Hp|apply IHr in Hp]; lia.
Qed.

(** What the deferred operations do: the plain search-tree change, with
    the path it took. *)
Definition defers σ root t (k : Z) (out : bool * list hash_t) (d tp : Z)
  (r : res (bool * hash_t * store tree_node_t * Z * Z)) : Prop :=
  if fst out then
    exists root' σ', r = Ok (true, root', σ', Z.of_nat (path_len k t), path_bits k t 0) /\
      store_ext σ σ' /\ rep σ' root' (alter_plain k (fun _ => snd out) t)
  else r = Ok (false, root, σ, d, tp).

Lemma defers_insert σ root t k edit E v d tp :
  rep σ root t -> (height t <= MAXD)%nat -> edits edit E ->
  defers σ root t k (entry_edit E k v t) d tp
    (s ← _insert_path σ root k edit v;
     let '(success, path) := s in
     if (success : bool) then
       r ← _recompute_path_no_balance path σ;
       let '(root, σ, d, tp) := r in Ok (success, root, σ, d, tp)
     else Ok (success, root, σ, d, tp)).
Proof.
  intros Hrep Hh HE. destruct (_insert_path_spec σ root t k edit E v Hrep Hh HE) as (p & -> & Hp).
  rewrite res_bind_Ok. unfold defers.
  destruct (entry_edit E k v t) as [[|] e']; cbn [fst snd] in *; [|done].
  destruct (Hp eq_refl) as [Hed Hd]. unfold _recompute_path_no_balance.
  destruct (plain_loop σ k e' t 0 p Hed Hd Hh)
    as ([[[n h] p'] σ'] & -> & Hext & Hrep' & _ & _ & Hdp & _).
  rewrite !res_bind_Ok. rewrite Hdp, (edited_len _ _ _ _ _ _ Hed).
  exists h, σ'. by split_and!.
Qed.

(** The deferred insertion is insertion into a plain search tree; it
    reports the length of the path to the key and a bit per level of it. *)
Theorem tree_insert_no_balance_spec σ root t k v d tp :
  rep σ root t -> (height t <= MAXD)%nat ->
  defers σ root t k (entry_edit (fun e => add_value e v) k v t) d tp
    (tree_insert_no_balance σ root k v d tp).
Proof. intros Hrep Hh. apply defers_insert; [done..|apply edits_copy]. Qed.

Theorem tree_update_no_balance_spec σ root t k old new d tp :
  rep σ root t -> (height t <= MAXD)%nat ->
  defers σ root t k (entry_edit (fun e => put_value e old new) k new t) d tp
    (tree_update_no_balance σ root k old new d tp).
Proof. intros Hrep Hh. apply defers_insert; [done..|apply edits_replace]. Qed.

End Deferred.

(** ** Deferred rebalancing loses rotations *)

(** A digest that stands for a value. *)
Definition value_hash (n : Z) : hash_t := index_hash n.

(** Insert a list of keys into the store of numbered blocks, in order. *)
Fixpoint insert_all (ks : list Z) (σ : list tree_node_t) (root : hash_t)
  : res (hash_t * list tree_node_t) :=
  match ks with
  | [] => Ok (root, σ)
  | k :: ks =>
      r ← tree_insert (BS := LogStore _) σ root k (value_hash k);
      let '(_, root, σ) := r in insert_all ks σ root
  end.

(** Insert [ks], then the key [k] with deferred balancing, then balance. *)
Definition insert_then_balance (ks : list Z) (k : Z) : res (tree hash_t * tree hash_t) :=
  s ← insert_all ks [] tree_init;
  let '(root, σ) := s in
  r ← tree_insert_no_balance (BS := LogStore _) σ root k (value_hash k) 0 0;
  let '(_, root, σ, d, tp) := r in
  t ← load (BS := LogStore _) 12 root σ;
  r ← tree_balance (BS := LogStore _) σ root d tp;
  let '(root, σ) := r in
  t' ← load (BS := LogStore _) 12 root σ;
  Ok (t, t').

(** Balancing after a deferred insertion can leave the tree as it was:
    after inserting 10 below 50, 30, 20 the node 30 is out of balance, and
    the tree that [tree_balance] returns is the same unbalanced tree,
    because the rotated node is not linked to its parent. *)
Theorem tree_balance_keeps_imbalance :
  exists t, insert_then_balance [50; 30; 70; 20; 80] 10 = Ok (t, t) /\ balanced t = false.
Proof. eexists. vm_compute. split; reflexivity. Qed.

(** When the root is out of balance too, [tree_balance] takes the
    rotated child for the stored one and reads the block of a null digest. *)
Theorem tree_balance_reads_null : insert_then_balance [50; 30; 60; 20] 10 = Fault.
Proof. vm_compute. reflexivity. Qed.

(** A concrete use of [tree_insert_no_balance_spec]. *)
Lemma tree_insert_no_balance_witness :
  defers (BS := LogStore tree_node_t) (@nil tree_node_t) tree_init Leaf 7 (true, [value_hash 7]) 0 0
    (tree_insert_no_balance (BS := LogStore _) (@nil tree_node_t) tree_init 7 (value_hash 7) 0 0).
Proof.
  apply (tree_insert_no_balance_spec (BS := LogStore _) (@nil tree_node_t) tree_init Leaf 7 (value_hash 7) 0 0).
  - vm_compute. reflexivity.
  - cbn. lia.
Defined.
