(* ===== verification/BinaryTree.v ===== *)
(** The unbalanced tree of [compiler/cstdinc/binary_tree.h]: four levels,
    four values under a key, four results.  Its node arrays, paths and
    searches are those of [TreeCore.v]; the tests of the two trees differ in
    their keys ([uint32_t] here), the values ([uint32_t]) and the rewrite of
    the path, which only relinks. *)
From Stdlib Require Import ZArith Lia.
From stdpp Require Import base numbers list.
From S2P Require Import Prelude BlockStore TreeCore.

Local Open Scope Z_scope.

(** [MAX_TREE_DEPTH], [MAX_TREE_RESULTS], [MAX_TREE_NODE_VALUES] *)
Definition bin_config : tree_config :=
  {| MAX_TREE_DEPTH := 4; MAX_TREE_RESULTS := 4; MAX_TREE_NODE_VALUES := 4 |}.

(** [struct tree_node] *)
Record bin_node_t := {
  b_left : hash_t;
  b_right : hash_t;
  b_key : Z;
  b_num_values : Z;
  b_values : list Z
}.

#[export] Instance bin_node : TreeNode Z bin_node_t := {
  left := b_left;
  right := b_right;
  key := b_key;
  num_values := b_num_values;
  values := b_values;
  set_num_values := fun k n =>
    {| b_left := b_left n; b_right := b_right n; b_key := b_key n;
       b_num_values := k; b_values := b_values n |};
  set_values := fun vs n =>
    {| b_left := b_left n; b_right := b_right n; b_key := b_key n;
       b_num_values := b_num_values n; b_values := vs |}
}.

#[export] Instance bin_node_laws : TreeNodeLaws Z bin_node_t.
Proof. split; reflexivity. Qed.

(** A zeroed node. *)
#[export] Instance bin_node_zero : Inhabited bin_node_t := populate
  {| b_left := NULL_HASH; b_right := NULL_HASH; b_key := 0; b_num_values := 0;
     b_values := replicate 4 0 |}.

Definition b_set_left (h : hash_t) (n : bin_node_t) : bin_node_t :=
  {| b_left := h; b_right := b_right n; b_key := b_key n;
     b_num_values := b_num_values n; b_values := b_values n |}.
Definition b_set_right (h : hash_t) (n : bin_node_t) : bin_node_t :=
  {| b_left := b_left n; b_right := h; b_key := b_key n;
     b_num_values := b_num_values n; b_values := b_values n |}.

Definition _value_equals (v1 v2 : Z) : bool := v1 =? v2.

Section BinaryTree.
Context {BS : BlockStore bin_node_t}.

Abbreviation tree_path_t := (tree_path_t bin_node_t).
Abbreviation tree_result_set_t := (tree_result_set_t Z).
Abbreviation store := (store bin_node_t).

(** ** The shared code at this configuration *)

Definition _copy_value (node : bin_node_t) (value : Z) : bool * bin_node_t :=
  TreeCore._copy_value bin_config _value_equals node value.
Definition _copy_result (rs : tree_result_set_t) (k v : Z) : tree_result_set_t :=
  TreeCore._copy_result bin_config rs k v.
Definition _copy_results (rs : tree_result_set_t) (node : bin_node_t) : tree_result_set_t :=
  TreeCore._copy_results bin_config rs node.
Definition _find_path (σ : store) (root : hash_t) (k : Z) (path : tree_path_t)
  : res (bool * tree_path_t) := TreeCore._find_path bin_config σ root k path.
Definition _find_first (σ : store) (root : hash_t) (path : tree_path_t)
  : res (bool * tree_path_t) := TreeCore._find_first bin_config σ root path.
Definition _find_next_below (σ : store) (path : tree_path_t) : res (bool * tree_path_t) :=
  TreeCore._find_next_below bin_config σ path.
Definition _find_next_above (path : tree_path_t) : bool * tree_path_t :=
  TreeCore._find_next_above bin_config path.
Definition _find_next (σ : store) (path : tree_path_t) : res (bool * tree_path_t) :=
  TreeCore._find_next bin_config σ path.

(** ** The rewrite of the path *)

Definition _recompute_step (i : nat) (s : hash_t * tree_path_t * store)
  : res (hash_t * tree_path_t * store) :=
  let '(node_hash, path, σ) := s in
  if Z.of_nat i <? depth path then
    match nodes path !! i, branches path !! i with
    | Some node, Some branch =>
        let node :=
          if Z.of_nat i <? depth path - 1 then
            if branch =? TREE_PATH_LEFT then b_set_left node_hash node
            else if branch =? TREE_PATH_RIGHT then b_set_right node_hash node
            else node
          else node in
        let '(node_hash, σ) := hashput node σ in
        Ok (node_hash, set_node i node path, σ)
    | _, _ => Fault
    end
  else Ok s.

Definition _recompute_path (path : tree_path_t) (σ : store) : res (hash_t * store) :=
  s ← for_downM 0 (MAX_TREE_DEPTH bin_config) _recompute_step (NULL_HASH, path, σ);
  let '(node_hash, _, σ) := s in Ok (node_hash, σ).

(** ** The operations *)

Definition tree_init : hash_t := NULL_HASH.

Definition tree_find_eq (σ : store) (root : hash_t) (k : Z) (rs : tree_result_set_t)
  : res tree_result_set_t := TreeCore.tree_find_eq bin_config σ root k rs.

(** Unlike [tree_find_eq], the three searches below append to the result
    set they are given. *)
Definition tree_find_lt (σ : store) (root : hash_t) (k : Z) (equal_to : bool)
  (rs : tree_result_set_t) : res tree_result_set_t :=
  find_lt_into bin_config σ root k equal_to rs.

Definition tree_find_gt (σ : store) (root : hash_t) (k : Z) (equal_to : bool)
  (rs : tree_result_set_t) : res tree_result_set_t :=
  find_gt_into bin_config σ root k equal_to rs.

Definition tree_find_range (σ : store) (root : hash_t) (low_key : Z) (low_equal_to : bool)
  (high_key : Z) (high_equal_to : bool) (rs : tree_result_set_t) : res tree_result_set_t :=
  find_range_into bin_config σ root low_key low_equal_to high_key high_equal_to rs.

Definition tree_insert (σ : store) (root : hash_t) (k value : Z) : res (bool * hash_t * store) :=
  s ← _find_path σ root k (empty_path bin_config);
  let '(found, path) := s in
  let '(path, success) :=
    if (found : bool) then
      with_path_node bin_config
        (fun node _ => let '(success, node) := _copy_value node value in (node, success)) path false
    else if depth path <? Z.of_nat (MAX_TREE_DEPTH bin_config) then
      let path := set_depth (u8 (depth path + 1)) path in
      with_path_node bin_config
        (fun node _ =>
           let node := {| b_left := NULL_HASH; b_right := NULL_HASH; b_key := k;
                          b_num_values := 0; b_values := b_values node |} in
           let '(success, node) := _copy_value node value in (node, success)) path false
    else (path, false) in
  if (success : bool) then
    r ← _recompute_path path σ;
    let '(root, σ) := r in Ok (success, root, σ)
  else Ok (success, root, σ).

Definition tree_remove (σ : store) (root : hash_t) (k : Z) : res (bool * hash_t * store) :=
  s ← _find_path σ root k (empty_path bin_config);
  let '(found, path) := s in
  if (found : bool) then
    let '(path, _) := with_path_node bin_config (fun node a => (set_num_values 0 node, a)) path tt in
    r ← _recompute_path path σ;
    let '(root, σ) := r in Ok (found, root, σ)
  else Ok (found, root, σ).

Definition tree_remove_value (σ : store) (root : hash_t) (k value : Z)
  : res (bool * hash_t * store) :=
  s ← _find_path σ root k (empty_path bin_config);
  let '(found, path) := s in
  if (found : bool) then
    let '(path, removed) :=
      with_path_node bin_config
        (fun node _ =>
           let '(removed, node) := _remove_value bin_config _value_equals node value in
           (node, removed)) path false in
    if (removed : bool) then
      r ← _recompute_path path σ;
      let '(root, σ) := r in Ok (found, root, σ)
    else Ok (found, root, σ)
  else Ok (found, root, σ).

End BinaryTree.
