(* ===== verification/BinaryFacts.v ===== *)
(** The stored plain tree of [binary_tree.h]: its operations refine those
    of a finite map from keys to at most four distinct values. *)
From Stdlib Require Import ZArith Lia Sorted.
From stdpp Require Import base numbers list gmap.
From S2P Require Import Prelude BlockStore TreeCore TreeFacts TreePaths TreeSearch TreeEdit TreeMap BinaryTree.

Local Open Scope Z_scope.

Lemma bin_config_ok : config_ok bin_config.
Proof. split; cbn; lia. Qed.

(** A plain node has no further field. *)
Definition bin_node_ok (n : bin_node_t) (l r : tree Z) : Prop := True.

Section Facts.
Context {BS : BlockStore bin_node_t} {BSL : BlockStoreLaws bin_node_t}.

Abbreviation rep := (rep bin_config bin_node_ok).
Abbreviation node_rep := (node_rep bin_config bin_node_ok).
Abbreviation edited := (edited bin_config bin_node_ok).
Abbreviation MAXD := (MAX_TREE_DEPTH bin_config).
Abbreviation path := (TreeCore.tree_path_t bin_node_t).
Abbreviation add_value := (add_value bin_config _value_equals).
Implicit Types (σ : store bin_node_t) (t l r : tree Z) (n : bin_node_t) (p : path).

Lemma relink_left_rep σ n h l l' k e r :
  node_rep σ n l k e r -> rep σ h l' -> node_rep σ (b_set_left h n) l' k e r.
Proof. intros (Hk & Hv & He & _ & _ & Hr) Hl. by split_and!. Qed.

Lemma relink_right_rep σ n h l r r' k e :
  node_rep σ n l k e r -> rep σ h r' -> node_rep σ (b_set_right h n) l k e r'.
Proof. intros (Hk & Hv & He & _ & Hl & _) Hr. by split_and!. Qed.

(** ** The climb *)

Definition climbed σ p (i : nat) t' (s : hash_t * path * store bin_node_t) : Prop :=
  let '(h, p', σ') := s in
  store_ext σ σ' /\ rep σ' h t' /\ depth p' = depth p /\ branches p' = branches p /\
  forall j, (j < i)%nat -> nodes p' !! j = nodes p !! j.

Lemma bin_climbed_put σ p p' σ' i n l k e r h σ'' :
  store_ext σ σ' -> node_rep σ' n l k e r -> hashput n σ' = (h, σ'') ->
  depth p' = depth p -> branches p' = branches p ->
  (forall j, (j < i)%nat -> nodes p' !! j = nodes p !! j) ->
  climbed σ p i (Bin l k e r) (h, set_node i n p', σ'').
Proof.
  intros Hext Hn Hput Hd Hb Hpre.
  assert (store_ext σ' σ'') as Hext' by eauto with store. split_and!; auto.
  - by etrans.
  - exact (rep_put _ _ _ _ _ _ _ _ _ _ Hn Hput).
  - intros j Hj. cbn. rewrite list_lookup_insert_ne by lia. auto.
Qed.

Lemma bin_recompute_skip p h σ lo :
  depth p <= Z.of_nat lo -> for_downM lo MAXD _recompute_step (h, p, σ) = Ok (h, p, σ).
Proof.
  intros Hd. apply for_downM_const. intros i Hi. cbn.
  by rewrite (proj2 (Z.ltb_ge _ _)) by lia.
Qed.

(** One step of the climb, by the position of the node on the path. *)
Lemma recompute_step_put n b i p h1 σ :
  Z.of_nat i < depth p -> nodes p !! i = Some n -> branches p !! i = Some b ->
  _recompute_step i (h1, p, σ) =
  let n' := if Z.of_nat i <? depth p - 1 then
              if b =? TREE_PATH_LEFT then b_set_left h1 n
              else if b =? TREE_PATH_RIGHT then b_set_right h1 n else n
            else n in
  let '(h, σ') := hashput n' σ in Ok (h, set_node i n' p, σ').
Proof.
  intros Hd Hn Hb. unfold _recompute_step. by rewrite Hn, Hb, (proj2 (Z.ltb_lt _ _)) by lia.
Qed.

Lemma bin_recompute_loop σ k e' t : forall i p,
  edited σ k e' t i p -> depth p <= Z.of_nat MAXD ->
  exists s, for_downM i MAXD _recompute_step (NULL_HASH, p, σ) = Ok s /\
    climbed σ p i (alter_plain k (fun _ => e') t) s.
Proof.
  induction t as [|l IHl k' e r IHr]; intros i p Hed Hd;
    pose proof (edited_depth _ _ _ _ _ _ _ _ Hed) as Hdi; rewrite for_downM_step by lia;
    cbn [alter_plain].
  { destruct Hed as (Hdp & n & b & Hn & Hb & Hrep). rewrite bin_recompute_skip, res_bind_Ok by lia.
    rewrite (recompute_step_put n b), (proj2 (Z.ltb_ge _ _)) by (done || lia).
    cbv zeta. destruct (hashput n σ) as [h σ'] eqn:Hput.
    eexists. split; [reflexivity|]. by apply (bin_climbed_put _ _ _ σ). }
  destruct Hed as (n & b & Hn & Hb & Hcase).
  destruct (k =? k') eqn:Ekk; [|destruct Hcase as [Hrep Hcase]; destruct (k <? k') eqn:Elt].
  - destruct Hcase as [Hdp Hrep]. rewrite bin_recompute_skip, res_bind_Ok by lia.
    rewrite (recompute_step_put n b), (proj2 (Z.ltb_ge _ _)) by (done || lia).
    cbv zeta. destruct (hashput n σ) as [h σ'] eqn:Hput.
    eexists. split; [reflexivity|]. by apply (bin_climbed_put _ _ _ σ).
  - destruct Hcase as [-> Hed]. pose proof (edited_depth _ _ _ _ _ _ _ _ Hed) as Hdl.
    destruct (IHl (S i) p Hed Hd) as ([[h1 p1] σ1] & -> & Hext1 & Hl' & Hd1 & Hb1 & Hpre).
    rewrite res_bind_Ok, (recompute_step_put n TREE_PATH_LEFT) by (rewrite ?Hb1, ?Hpre, ?Hd1; done || lia).
    rewrite Hd1, (proj2 (Z.ltb_lt _ _)) by lia. cbn zeta beta iota.
    change (TREE_PATH_LEFT =? TREE_PATH_LEFT) with true. cbv beta iota.
    destruct (hashput (b_set_left h1 n) σ1) as [h σ'] eqn:Hput.
    eexists. split; [reflexivity|]. apply (bin_climbed_put _ _ _ σ1); auto.
    eapply relink_left_rep; [by eapply node_rep_ext|done].
  - destruct Hcase as [-> Hed]. pose proof (edited_depth _ _ _ _ _ _ _ _ Hed) as Hdl.
    destruct (IHr (S i) p Hed Hd) as ([[h1 p1] σ1] & -> & Hext1 & Hr' & Hd1 & Hb1 & Hpre).
    rewrite res_bind_Ok, (recompute_step_put n TREE_PATH_RIGHT) by (rewrite ?Hb1, ?Hpre, ?Hd1; done || lia).
    rewrite Hd1, (proj2 (Z.ltb_lt _ _)) by lia. cbn zeta beta iota.
    change (TREE_PATH_RIGHT =? TREE_PATH_LEFT) with false.
    change (TREE_PATH_RIGHT =? TREE_PATH_RIGHT) with true. cbv beta iota.
    destruct (hashput (b_set_right h1 n) σ1) as [h σ'] eqn:Hput.
    eexists. split; [reflexivity|]. apply (bin_climbed_put _ _ _ σ1); auto.
    eapply relink_right_rep; [by eapply node_rep_ext|done].
Qed.

(** ** The tree with distinct values *)

Definition bin_rep σ (root : hash_t) t : Prop :=
  rep σ root t /\ bst t /\ (height t <= MAXD)%nat /\
  Forall (fun ke => NoDup ke.2) (elements t).

Lemma bin_rep_ext σ σ' root t : store_ext σ σ' -> bin_rep σ root t -> bin_rep σ' root t.
Proof. intros Hext (Hrep & ?). split; [by eapply rep_ext|done]. Qed.

(** The values of a key are distinct. *)
Lemma lookup_NoDup t k e :
  Forall (fun ke => NoDup ke.2) (elements t) -> lookup_key k t = Some e -> NoDup e.
Proof.
  induction t as [|l IHl k' e' r IHr]; cbn; [done|].
  rewrite Forall_app, Forall_cons. intros (Hl & He & Hr).
  destruct (k =? k'); [by intros [= <-]|]. destruct (k <? k'); auto.
Qed.

Lemma alter_plain_rep σ root t k e' σ' root' :
  bin_rep σ root t -> rep σ' root' (alter_plain k (fun _ => e') t) -> NoDup e' ->
  is_Some (lookup_key k t) \/ (search_depth k t < MAXD)%nat ->
  bin_rep σ' root' (alter_plain k (fun _ => e') t).
Proof.
  intros (_ & Hb & Hh & Hnd) Hrep He Hroom. split; [done|]. split; [by apply alter_plain_bst|].
  split; [by apply alter_plain_height|]. apply Forall_forall. intros ke Hin.
  apply alter_plain_keys in Hin as [Hin| ->]; [|done]. by apply (proj1 (Forall_forall _ _) Hnd).
Qed.

(** Rewriting an edited path. *)
Lemma bin_recompute_path_spec σ root k e' t p :
  bin_rep σ root t -> edited σ k e' t 0 p -> depth p <= Z.of_nat MAXD -> NoDup e' ->
  is_Some (lookup_key k t) \/ (search_depth k t < MAXD)%nat ->
  exists root' σ', _recompute_path p σ = Ok (root', σ') /\ store_ext σ σ' /\
    bin_rep σ' root' (alter_plain k (fun _ => e') t).
Proof.
  intros Hrep Hed Hd He Hroom. unfold _recompute_path.
  destruct (bin_recompute_loop _ _ _ _ _ _ Hed Hd) as ([[h p'] σ'] & -> & Hext & Hrep' & _).
  rewrite res_bind_Ok. exists h, σ'. split; [done|]. split; [done|]. by eapply alter_plain_rep.
Qed.

(** What the search that starts each operation finds. *)
Lemma search_spec σ root t k :
  bin_rep σ root t ->
  exists p, _find_path σ root k (empty_path bin_config)
      = Ok (bool_decide (is_Some (lookup_key k t)), p) /\ path_wf bin_config p /\
    match lookup_key k t with
    | Some e => exists j n l r, depth p = Z.of_nat (S j) /\ nodes p !! j = Some n /\
        depth p <= Z.of_nat MAXD /\ node_rep σ n l k e r /\
        forall n' e', node_rep σ n' l k e' r -> edited σ k e' t 0 (set_node j n' p)
    | None => depth p = Z.of_nat (search_depth k t) /\
        nodes p !! search_depth k t = (if (search_depth k t <? MAXD)%nat then Some inhabitant else None) /\
        forall n' e', (search_depth k t < MAXD)%nat -> node_rep σ n' Leaf k e' Leaf ->
          edited σ k e' t 0
            (set_node (search_depth k t) n' (set_depth (Z.of_nat (S (search_depth k t))) p))
    end.
Proof.
  intros (Hrep & _ & Hh & _). unfold _find_path.
  destruct (_find_path_full bin_config bin_config_ok bin_node_ok σ root k t (empty_path bin_config)
              Hrep Hh (empty_path_wf bin_config) eq_refl) as (found & p & -> & Hwf & Hon & Hab).
  pose proof (on_path_found _ _ _ _ _ _ _ _ Hon) as Hfound.
  pose proof (on_path_depth _ _ _ _ _ _ _ _ Hon) as Hdp.
  exists p. rewrite <- Hfound. split; [done|]. split; [done|].
  destruct (lookup_key k t) as [e|] eqn:He; cbn in Hfound; subst found.
  - destruct (on_path_hit _ _ _ _ _ _ _ _ Hon He) as (j & n & l & r & Hd & _ & Hn & Hnrep & Hed).
    exists j, n, l, r. split; [done|]. split; [done|]. split; [lia|]. split; [done|].
    intros n' e' Hn'. apply Hed; [by eapply lookup_lt_Some|done].
  - destruct (on_path_miss _ _ _ _ _ _ _ Hon Hwf) as (Hd & _ & Hed). cbn [Nat.add] in *.
    split; [done|]. split; [|done]. rewrite (Hab (search_depth k t)) by lia.
    cbn [nodes empty_path]. destruct (Nat.ltb_spec (search_depth k t) MAXD).
    + by apply lookup_replicate_2.
    + apply lookup_ge_None_2. rewrite length_replicate. lia.
Qed.

End Facts.
