(* ===== verification/BinaryMap.v ===== *)
(** The operations of [binary_tree.h] as operations on a finite map from
    keys to at most four distinct values. *)
From Stdlib Require Import ZArith Lia Sorted.
From stdpp Require Import base numbers list gmap.
From S2P Require Import Prelude BlockStore TreeCore TreeFacts TreePaths TreeSearch TreeEdit TreeMap BinaryTree BinaryFacts.

Local Open Scope Z_scope.

Section Ops.
Context {BS : BlockStore bin_node_t} {BSL : BlockStoreLaws bin_node_t}.

Abbreviation rep := (rep bin_config bin_node_ok).
Abbreviation node_rep := (node_rep bin_config bin_node_ok).
Abbreviation MAXD := (MAX_TREE_DEPTH bin_config).
Abbreviation MAXV := (MAX_TREE_NODE_VALUES bin_config).
Abbreviation add_value := (add_value bin_config _value_equals).
Implicit Types (σ : store bin_node_t) (t : tree Z) (n : bin_node_t).

(** Distinct values, at most four of them. *)
Lemma existsb_equals (e : list Z) v : existsb (fun x => _value_equals x v) e = bool_decide (v ∈ e).
Proof.
  unfold _value_equals. induction e as [|x e IH]; cbn; [done|]. rewrite IH.
  destruct (Z.eqb_spec x v) as [->|Hne]; cbn.
  - symmetry. apply bool_decide_eq_true. by left.
  - apply bool_decide_ext. rewrite elem_of_cons. split; [auto|]. by intros [->|].
Qed.

Lemma add_value_set (e : list Z) v :
  add_value e v = (bool_decide ((v ∉ e) /\ (length e < MAXV)%nat),
                   if bool_decide ((v ∉ e) /\ (length e < MAXV)%nat) then e ++ [v] else e).
Proof.
  unfold TreeFacts.add_value. rewrite existsb_equals. destruct (bool_decide_reflect (v ∈ e)) as [Hin|Hni].
  - by rewrite bool_decide_eq_false_2 by tauto.
  - destruct (Nat.ltb_spec (length e) MAXV).
    + by rewrite bool_decide_eq_true_2.
    + rewrite bool_decide_eq_false_2 by (intros [_ Hl]; lia). done.
Qed.

Lemma filter_ne (e : list Z) v : v ∉ e -> filter (fun x => x <> v) e = e.
Proof.
  induction e as [|x e IH]; [done|]. rewrite not_elem_of_cons. intros [Hne Hni].
  by rewrite filter_cons_True, IH by congruence.
Qed.

Lemma add_value_NoDup (e : list Z) v : NoDup e -> NoDup (snd (add_value e v)).
Proof.
  intros He. rewrite add_value_set. case_bool_decide as Hv; cbn; [|done].
  apply NoDup_app. split; [done|]. split; [|apply NoDup_singleton].
  intros x Hx Hs%list_elem_of_singleton. subst. by destruct Hv.
Qed.

Lemma edit_ok n (v : Z) :
  values_wf bin_config n ->
  let '(b, n') := _copy_value n v in
  b = fst (add_value (entry n) v) /\
  values_edit bin_config bin_node_ok n n' (snd (add_value (entry n) v)).
Proof. intros Hv. by apply (_copy_value_spec bin_config bin_config_ok _value_equals bin_node_ok). Qed.

(** The outcome of an operation: its answer, and the values it leaves
    under the key when it changes them. *)
Definition changes σ root t (k : Z) (ans : bool) (new : option (list Z))
  (r : res (bool * hash_t * store bin_node_t)) : Prop :=
  exists root' σ', r = Ok (ans, root', σ') /\ store_ext σ σ' /\ bin_rep σ' root t /\
    exists t', bin_rep σ' root' t' /\
      contents t' = match new with Some e => <[k := e]> (contents t) | None => contents t end.

Lemma changes_none σ root t k ans :
  bin_rep σ root t -> changes σ root t k ans None (Ok (ans, root, σ)).
Proof. intros Hrep. exists root, σ. split_and!; try done. by exists t. Qed.

Lemma changes_some σ root t k e' ans p :
  bin_rep σ root t -> edited bin_config bin_node_ok σ k e' t 0 p -> depth p <= Z.of_nat MAXD ->
  NoDup e' -> is_Some (lookup_key k t) \/ (search_depth k t < MAXD)%nat ->
  changes σ root t k ans (Some e')
    (r ← _recompute_path p σ; let '(root, σ) := r in Ok (ans, root, σ)).
Proof.
  intros Hrep Hed Hd He Hroom.
  destruct (bin_recompute_path_spec _ _ _ _ _ _ Hrep Hed Hd He Hroom) as (root' & σ' & -> & Hext & Hrep').
  rewrite res_bind_Ok. exists root', σ'. split; [done|]. split; [done|].
  split; [by eapply bin_rep_ext|]. eexists. split; [exact Hrep'|].
  destruct Hrep as (_ & Hb & _). by rewrite contents_alter_plain.
Qed.

(** [tree_insert] adds a value to the distinct values of a key, up to
    four; it is refused when the value is there, when the four places are
    taken, or when a new key would lie below the fourth level.  The tree
    under the old root stays stored. *)
Theorem bin_insert_correct σ root t k v :
  bin_rep σ root t ->
  let old := default [] (contents t !! k) in
  let fits := bool_decide ((v ∉ old) /\ (length old < MAXV)%nat
                           /\ (is_Some (contents t !! k) \/ (search_depth k t < MAXD)%nat)) in
  changes σ root t k fits (if fits then Some (old ++ [v]) else None) (tree_insert σ root k v).
Proof.
  intros Hrep. unfold tree_insert. pose proof Hrep as (_ & Hb & _ & Hnd).
  destruct (search_spec σ root t k Hrep) as (p & -> & Hwf & Hp). rewrite <- lookup_key_contents by done.
  rewrite res_bind_Ok. destruct (lookup_key k t) as [e|] eqn:He; cbn [default].
  - rewrite (bool_decide_eq_true_2 (is_Some (Some e))) by eauto. destruct Hp as (j & n & l & r & Hd & Hn & Hmax & Hnrep & Hed).
    rewrite (with_path_node_spec bin_config _ p false j n Hwf Hd Hn).
    pose proof Hnrep as (_ & Hv & Hentry & _). pose proof (edit_ok n v Hv) as Hok.
    destruct (_copy_value n v) as [b n']. destruct Hok as [-> Hval]. rewrite Hentry in *.
    pose proof (add_value_NoDup e v (lookup_NoDup _ _ _ Hnd He)) as Hnd'. rewrite add_value_set in *.
    cbn zeta. rewrite (bool_decide_ext ((v ∉ e) /\ (length e < MAXV)%nat
      /\ (is_Some (Some e) \/ (search_depth k t < MAXD)%nat)) ((v ∉ e) /\ (length e < MAXV)%nat))
      by (split; [tauto|intros [? ?]; eauto]).
    case_bool_decide; cbn [fst snd] in *; [|by apply changes_none].
    apply changes_some; eauto. apply Hed. by eapply node_rep_edit.
  - rewrite (bool_decide_eq_false_2 (is_Some None)) by (by intros [? [=]]). destruct Hp as (Hd & Hnode & Hed).
    rewrite Hd. cbn zeta.
    rewrite (bool_decide_ext ((v ∉ []) /\ (length [] < MAXV)%nat
      /\ (is_Some None \/ (search_depth k t < MAXD)%nat)) (search_depth k t < MAXD)%nat).
    2:{ cbn [length]. split; [intros (_ & _ & [[? [=]]|?]); done|].
        intros Hlt. split; [apply not_elem_of_nil|]. split; [cbn; lia|by right]. }
    case_bool_decide as Hlt.
    + rewrite (proj2 (Z.ltb_lt _ _)) by lia. rewrite (proj2 (Nat.ltb_lt _ _)) in Hnode by done.
      assert (u8 (Z.of_nat (search_depth k t) + 1) = Z.of_nat (S (search_depth k t))) as Hu.
      { cbn in Hlt. rewrite wrapu_small by (unfold in_u; lia). lia. }
      rewrite (with_path_node_spec bin_config _ _ false (search_depth k t) inhabitant) by (done || cbn; done).
      rewrite Hu. set (n1 := {| b_left := NULL_HASH |}).
      assert (node_rep σ n1 Leaf k [] Leaf) as Hn1.
      { split; [done|]. split; [split; cbn; lia|]. by split_and!. }
      pose proof Hn1 as (_ & Hv & Hentry & _). pose proof (edit_ok n1 v Hv) as Hok.
      destruct (_copy_value n1 v) as [b n']. destruct Hok as [-> Hval]. rewrite Hentry in *. change (add_value [] v) with (true, [v]) in *. cbn [fst snd] in Hval |- *.
      apply changes_some; eauto.
      * apply Hed; [done|]. by eapply node_rep_edit.
      * cbn -[Z.of_nat]. cbn in Hlt. lia.
      * apply NoDup_singleton.
    + rewrite (proj2 (Z.ltb_ge _ _)) by lia. by apply changes_none.
Qed.

(** [tree_remove] erases the values of a key and reports whether the
    key was there. *)
Theorem bin_remove_correct σ root t k :
  bin_rep σ root t ->
  changes σ root t k (bool_decide (is_Some (contents t !! k)))
    ((fun _ => []) <$> contents t !! k) (tree_remove σ root k).
Proof.
  intros Hrep. unfold tree_remove. pose proof Hrep as (_ & Hb & _ & Hnd).
  destruct (search_spec σ root t k Hrep) as (p & -> & Hwf & Hp). rewrite <- lookup_key_contents by done.
  rewrite res_bind_Ok. destruct (lookup_key k t) as [e|] eqn:He.
  - rewrite (bool_decide_eq_true_2 (is_Some (Some e))) by eauto. destruct Hp as (j & n & l & r & Hd & Hn & Hmax & Hnrep & Hed).
    rewrite (with_path_node_spec bin_config _ p tt j n Hwf Hd Hn).
    apply changes_some; eauto; [|apply NoDup_nil_2]. apply Hed.
    eapply node_rep_edit; [exact Hnrep|]. pose proof Hnrep as (_ & [Hlen _] & _). split; [done|].
    split; [split; [done|cbn; lia]|]. by apply same_shape_num, same_shape_refl.
  - rewrite (bool_decide_eq_false_2 (is_Some None)) by (by intros [? [=]]). by apply changes_none.
Qed.

(** [tree_remove_value] drops a value from the values of a key,
    keeping the order of the others, and reports whether the key was
    there, be the value there or not. *)
Theorem bin_remove_value_correct σ root t k v :
  bin_rep σ root t ->
  changes σ root t k (bool_decide (is_Some (contents t !! k)))
    (e ← contents t !! k; if decide (v ∈ e) then Some (filter (fun x => x <> v) e) else None)
    (tree_remove_value σ root k v).
Proof.
  intros Hrep. unfold tree_remove_value. pose proof Hrep as (_ & Hb & _ & Hnd).
  destruct (search_spec σ root t k Hrep) as (p & -> & Hwf & Hp). rewrite <- lookup_key_contents by done.
  rewrite res_bind_Ok. destruct (lookup_key k t) as [e|] eqn:He; cbn [mbind option_bind].
  - rewrite (bool_decide_eq_true_2 (is_Some (Some e))) by eauto. destruct Hp as (j & n & l & r & Hd & Hn & Hmax & Hnrep & Hed).
    rewrite (with_path_node_spec bin_config _ p false j n Hwf Hd Hn).
    pose proof Hnrep as (_ & Hv & Hentry & _). pose proof (lookup_NoDup _ _ _ Hnd He) as Hnde.
    destruct (decide (v ∈ e)) as [(e1 & e2 & ->)%list_elem_of_split|Hni].
    + apply NoDup_app in Hnde as (Hn1 & Hdisj & Hn2). apply NoDup_cons in Hn2 as [Hv2 Hn2].
      assert (v ∉ e1) as Hv1 by (intros Hin; apply (Hdisj v Hin); by left).
      assert (filter (fun x => x <> v) (e1 ++ v :: e2) = e1 ++ e2) as ->.
      { rewrite filter_app, filter_cons_False by tauto.
        by rewrite !filter_ne. }
      assert (existsb (fun y => _value_equals y v) (e1 ++ e2) = false) as Hex.
      { rewrite existsb_equals. apply bool_decide_eq_false_2. rewrite elem_of_app. tauto. }
      pose proof (_remove_value_some bin_config bin_config_ok _value_equals bin_node_ok
        (fun _ _ _ _ _ => I) (fun _ _ _ _ _ => I) n v e1 v e2 Hv Hentry (Z.eqb_refl v) Hex) as Hrv.
      destruct (TreeCore._remove_value bin_config _value_equals n v) as [b n'].
      destruct Hrv as [-> Hval]. apply changes_some; eauto.
      * apply Hed. by eapply node_rep_edit.
      * apply NoDup_app. split; [done|]. split; [|done]. intros x Hx Hx2. apply (Hdisj x Hx). by right.
    + rewrite _remove_value_none by (done || (rewrite Hentry, existsb_equals; by apply bool_decide_eq_false_2)).
      by apply changes_none.
  - rewrite (bool_decide_eq_false_2 (is_Some None)) by (by intros [? [=]]). by apply changes_none.
Qed.

(** The pairs with keys in a range, in key order. *)
Definition pairs_in (lo : Z) (lo_eq : bool) (hi : Z) (hi_eq : bool) t : list (Z * Z) :=
  pairs (selected (range_test lo lo_eq hi hi_eq) (elements t)).

(** The range search appends to the results it is given, without
    clearing them: the first four of the old results followed by the
    pairs between the bounds, provided every key has a value. *)
Theorem bin_find_range_appends σ root t lo lo_eq hi hi_eq rs l :
  bin_rep σ root t -> no_erased t -> lo < hi -> rs_is bin_config rs l ->
  exists rs', tree_find_range σ root lo lo_eq hi hi_eq rs = Ok rs' /\
    rs_is bin_config rs' (l ++ pairs_in lo lo_eq hi hi_eq t).
Proof.
  intros (Hrep & Hb & Hh & _) Hne Hlh Hrs. unfold tree_find_range.
  destruct (find_range_into_spec bin_config bin_config_ok bin_node_ok σ root t lo lo_eq hi hi_eq _ _
    Hrep Hh Hb Hlh Hrs) as (rs' & n & -> & Hn & Hwf & Hview).
  exists rs'. split; [done|]. split; [done|]. rewrite Hview, !take_app. f_equal.
  apply take_pairs; [by apply selected_Forall|lia].
Qed.

End Ops.

(** ** Uses at concrete inputs, on the store of numbered blocks *)

Definition bin_sample_store : list bin_node_t :=
  [{| b_left := NULL_HASH; b_right := NULL_HASH; b_key := 5; b_num_values := 2;
      b_values := [7; 8; 0; 0] |}].
Definition bin_sample_tree : tree Z := Bin Leaf 5 [7; 8] Leaf.

Lemma bin_sample_rep : bin_rep (BS := LogStore bin_node_t) bin_sample_store (index_hash 1) bin_sample_tree.
Proof.
  split.
  - cbn. split; [reflexivity|]. eexists. split; [reflexivity|]. split; [reflexivity|].
    split; [vm_compute; split; [reflexivity|split; discriminate]|]. split; [reflexivity|].
    split; [exact I|]. split; reflexivity.
  - split; [repeat constructor|]. split; [cbn; lia|].
    constructor; [|constructor]. cbn. repeat constructor; set_solver.
Qed.

Lemma bin_insert_witness :
  changes (BS := LogStore bin_node_t) bin_sample_store (index_hash 1) bin_sample_tree 5 true (Some [7; 8; 9])
    (tree_insert (BS := LogStore bin_node_t) bin_sample_store (index_hash 1) 5 9).
Proof.
  exact (bin_insert_correct (BS := LogStore _) bin_sample_store (index_hash 1) bin_sample_tree 5 9 bin_sample_rep).
Defined.

Lemma bin_remove_witness :
  changes (BS := LogStore bin_node_t) bin_sample_store (index_hash 1) bin_sample_tree 5 true (Some [])
    (tree_remove (BS := LogStore bin_node_t) bin_sample_store (index_hash 1) 5).
Proof.
  exact (bin_remove_correct (BS := LogStore _) bin_sample_store (index_hash 1) bin_sample_tree 5 bin_sample_rep).
Defined.

Lemma bin_remove_value_witness :
  changes (BS := LogStore bin_node_t) bin_sample_store (index_hash 1) bin_sample_tree 5 true (Some [8])
    (tree_remove_value (BS := LogStore bin_node_t) bin_sample_store (index_hash 1) 5 7).
Proof.
  exact (bin_remove_value_correct (BS := LogStore _) bin_sample_store (index_hash 1) bin_sample_tree 5 7 bin_sample_rep).
Defined.

(** A count left over from an earlier search stays in front. *)
Lemma bin_find_range_appends_witness :
  exists rs', tree_find_range (BS := LogStore bin_node_t) bin_sample_store (index_hash 1) 0 true 9 true
      {| num_results := 1; results := [(1, 1); (0, 0); (0, 0); (0, 0)] |} = Ok rs' /\
    rs_is bin_config rs' [(1, 1); (5, 7); (5, 8)].
Proof.
  apply (bin_find_range_appends (BS := LogStore _) bin_sample_store (index_hash 1) bin_sample_tree
    0 true 9 true _ [(1, 1)] bin_sample_rep).
  - repeat constructor; discriminate.
  - lia.
  - split; [split; cbn; [reflexivity|lia]|reflexivity].
Defined.
