(* ===== verification/ShaSpec.v ===== *)
(** SHA-256 and SHA-1 as their standard (FIPS 180-4) defines them: word
    functions, message schedule, compression of a block, padding and the
    digest of a byte string.  The C versions are in [Sha256.v], [Sha1.v]
    and [Commitment.v]. *)
From Stdlib Require Import ZArith Lia.
From stdpp Require Import base numbers list.
From S2P Require Import Prelude.

Local Open Scope Z_scope.

(** ** Words *)

Definition rotr (n x : Z) : Z := Z.lor (Z.shiftr x n) (u32 (Z.shiftl x (32 - n))).
Definition rotl (n x : Z) : Z := rotr (32 - n) x.

(** Big-endian words of a byte string. *)
Fixpoint be_words (bs : list Z) : list Z :=
  match bs with
  | b0 :: b1 :: b2 :: b3 :: bs => (b0 * 2 ^ 24 + b1 * 2 ^ 16 + b2 * 2 ^ 8 + b3) :: be_words bs
  | _ => []
  end.

(** Big-endian bytes of a word. *)
Definition be_bytes (n : nat) (w : Z) : list Z :=
  map (fun i => u8 (Z.shiftr w (8 * (Z.of_nat n - 1 - Z.of_nat i)))) (seq 0 n).

Lemma be_words_length n bs : length bs = (4 * n)%nat -> length (be_words bs) = n.
Proof.
  revert bs. induction n as [|n IH]; intros bs Hl.
  - by destruct bs.
  - destruct bs as [|b0 [|b1 [|b2 [|b3 bs]]]]; cbn in Hl; try lia. cbn. f_equal. apply IH. lia.
Qed.

Lemma be_words_lookup i bs :
  (4 * i + 3 < length bs)%nat ->
  be_words bs !!! i = bs !!! (4 * i)%nat * 2 ^ 24 + bs !!! (4 * i + 1)%nat * 2 ^ 16
                      + bs !!! (4 * i + 2)%nat * 2 ^ 8 + bs !!! (4 * i + 3)%nat.
Proof.
  revert bs. induction i as [|i IH]; intros bs Hl;
    destruct bs as [|b0 [|b1 [|b2 [|b3 bs]]]]; cbn in Hl; try lia; [done|].
  replace (4 * S i)%nat with (S (S (S (S (4 * i))))) by lia.
  cbn [be_words lookup_total list_lookup_total Nat.add]. change (be_words (b0 :: b1 :: b2 :: b3 :: bs) !!! S i)
    with (be_words bs !!! i). rewrite IH by lia. reflexivity.
Qed.

(** Bytes shifted into place and joined are the number they spell. *)
Lemma word_of_bytes b0 b1 b2 b3 :
  in_u 8 b0 -> in_u 8 b1 -> in_u 8 b2 -> in_u 8 b3 ->
  u32 (Z.lor (Z.lor (Z.lor (Z.shiftl b0 24) (Z.shiftl b1 16)) (Z.shiftl b2 8)) b3)
  = b0 * 2 ^ 24 + b1 * 2 ^ 16 + b2 * 2 ^ 8 + b3.
Proof.
  unfold in_u. intros H0 H1 H2 H3.
  replace (Z.lor (Z.lor (Z.lor (Z.shiftl b0 24) (Z.shiftl b1 16)) (Z.shiftl b2 8)) b3)
    with (b0 * 2 ^ 24 + (b1 * 2 ^ 16 + (b2 * 2 ^ 8 + b3))).
  2:{ rewrite <- !Z.lor_assoc. rewrite (lor_shiftl_add b2), (lor_shiftl_add b1), (lor_shiftl_add b0) by lia. done. }
  rewrite wrapu_small by (unfold in_u; lia). lia.
Qed.

(** A table of 32-bit words, written eight words to a number. *)
Definition table (rows : list Z) : list Z :=
  flat_map (fun r => map (fun i => u32 (Z.shiftr r (32 * (7 - Z.of_nat i)))) (seq 0 8)) rows.

(** ** Blocks *)

(** The complete blocks of [n] elements of a list; a shorter rest is dropped. *)
Fixpoint chunks_fuel {A} (fuel n : nat) (l : list A) : list (list A) :=
  match fuel with
  | O => []
  | S fuel => if (length l <? n)%nat then [] else take n l :: chunks_fuel fuel n (drop n l)
  end.
Definition chunks {A} (n : nat) (l : list A) : list (list A) := chunks_fuel (length l) n l.

Lemma chunks_fuel_enough {A} n (l : list A) fuel fuel' :
  (0 < n)%nat -> (length l <= fuel)%nat -> (length l <= fuel')%nat ->
  chunks_fuel fuel n l = chunks_fuel fuel' n l.
Proof.
  intros Hn. revert fuel' l. induction fuel as [|fuel IH]; intros fuel' l H1 H2.
  - destruct l as [|x l]; [|cbn in H1; lia]. destruct fuel' as [|fuel']; [done|]. cbn [chunks_fuel length].
    by rewrite (proj2 (Nat.ltb_lt 0 n)).
  - destruct fuel' as [|fuel'].
    { destruct l as [|x l]; [|cbn in H2; lia]. cbn [chunks_fuel length]. by rewrite (proj2 (Nat.ltb_lt 0 n)). }
    cbn [chunks_fuel]. destruct (Nat.ltb_spec (length l) n); [done|]. f_equal.
    apply IH; rewrite length_drop; lia.
Qed.

Lemma chunks_cons {A} n (b l : list A) :
  (0 < n)%nat -> length b = n -> chunks n (b ++ l) = b :: chunks n l.
Proof.
  intros Hn Hb. unfold chunks. destruct (length (b ++ l)) as [|m] eqn:E.
  { rewrite length_app in E. lia. }
  cbn [chunks_fuel]. rewrite (proj2 (Nat.ltb_ge _ _)) by (rewrite length_app; lia).
  rewrite take_app_length', drop_app_length' by done. f_equal.
  apply chunks_fuel_enough; [done| |lia]. rewrite length_app in E. lia.
Qed.

Lemma chunks_short {A} n (l : list A) : (length l < n)%nat -> chunks n l = [].
Proof.
  intros Hl. unfold chunks. destruct l as [|x l]; [done|]. cbn [chunks_fuel length] in *.
  by rewrite (proj2 (Nat.ltb_lt _ n)) by lia.
Qed.

Lemma chunks_concat {A} n (bs : list (list A)) l :
  (0 < n)%nat -> Forall (fun b => length b = n) bs -> chunks n (concat bs ++ l) = bs ++ chunks n l.
Proof.
  intros Hn. induction 1 as [|b bs Hb _ IH]; [done|]. cbn [concat app].
  by rewrite <- app_assoc, chunks_cons, IH.
Qed.

Lemma chunks_whole {A} n m (l : list A) :
  (0 < n)%nat -> length l = (n * m)%nat ->
  length (chunks n l) = m /\
  forall i, (i < m)%nat -> chunks n l !! i = Some (take n (drop (n * i) l)).
Proof.
  intros Hn. revert l. induction m as [|m IH]; intros l Hl.
  - rewrite chunks_short by lia. split; [done|lia].
  - rewrite <- (take_drop n l), chunks_cons by (done || rewrite length_take; lia).
    destruct (IH (drop n l)) as [Hlen Hlk]; [rewrite length_drop; lia|].
    split; [cbn; by rewrite Hlen|]. intros [|i] Hi; cbn [lookup list_lookup].
    + by rewrite Nat.mul_0_r, drop_0, take_drop.
    + rewrite Hlk by lia. rewrite take_drop, drop_drop. do 2 f_equal. f_equal. lia.
Qed.

(** ** Message schedules

    Words computed one after the other, each from those before it. *)
Section Extend.
Context (next_word : list Z -> Z).

Fixpoint extend (n : nat) (ws : list Z) : list Z :=
  match n with O => ws | S n => extend n (ws ++ [next_word ws]) end.

Lemma extend_length n ws : length (extend n ws) = (n + length ws)%nat.
Proof.
  revert ws. induction n as [|n IH]; intros ws; cbn; [done|]. rewrite IH, length_app. cbn. lia.
Qed.

Lemma extend_prefix n ws : take (length ws) (extend n ws) = ws.
Proof.
  revert ws. induction n as [|n IH]; intros ws; cbn; [by rewrite firstn_all|].
  assert (take (length ws) (take (length (ws ++ [next_word ws])) (extend n (ws ++ [next_word ws]))) = ws) as Hw.
  { by rewrite IH, take_app_length. }
  rewrite take_take in Hw. rewrite length_app in Hw. cbn in Hw. by rewrite Nat.min_l in Hw by lia.
Qed.

(** Every extend word is computed from the words before it. *)
Lemma extend_word n ws i :
  (length ws <= i < n + length ws)%nat ->
  extend n ws !!! i = next_word (take i (extend n ws)).
Proof.
  revert ws. induction n as [|n IH]; intros ws Hi; [lia|]. cbn.
  set (ws' := ws ++ [next_word ws]). assert (length ws' = S (length ws)) as Hl.
  { unfold ws'. rewrite length_app. cbn. lia. }
  destruct (decide (i = length ws)) as [->|Hne]; [|apply IH; lia].
  pose proof (extend_prefix n ws') as Hp. rewrite Hl in Hp.
  assert (take (length ws) (extend n ws') = ws) as Ht.
  { transitivity (take (length ws) ws'); [|by unfold ws'; rewrite take_app_length].
    rewrite <- Hp at 2. rewrite take_take. f_equal. lia. }
  rewrite Ht. rewrite <- (lookup_total_take_lt _ (S (length ws))) by lia. rewrite Hp.
  unfold ws'. apply list_lookup_total_correct. by rewrite lookup_app_r, Nat.sub_diag.
Qed.

End Extend.

(** ** SHA-256 *)

Module SHA256.

(** The constants are the first 32 bits of the fractional parts of the
    cube roots of the first 64 primes, and the initial hash value that of
    the square roots of the first eight. *)
Definition is_prime (n : nat) : bool :=
  (2 <=? n)%nat && forallb (fun d => negb (n mod d =? 0)%nat) (seq 2 (n - 2)).
Definition primes (n : nat) : list Z := map Z.of_nat (List.filter is_prime (seq 0 n)).

(** The integer cube root, from the bits of its [n] lowest places. *)
Fixpoint cube_root (n : nat) (r x : Z) : Z :=
  match n with
  | O => r
  | S n => let r' := r + 2 ^ Z.of_nat n in cube_root n (if r' ^ 3 <=? x then r' else r) x
  end.

Definition K : list Z := map (fun p => u32 (cube_root 36 0 (p * 2 ^ 96))) (primes 312).
Definition H0 : list Z := map (fun p => u32 (Z.sqrt (p * 2 ^ 64))) (primes 20).

Definition Ch (x y z : Z) : Z := Z.lxor (Z.land x y) (Z.land (u32 (Z.lnot x)) z).
Definition Maj (x y z : Z) : Z := Z.lxor (Z.lxor (Z.land x y) (Z.land x z)) (Z.land y z).
Definition Sigma0 (x : Z) : Z := Z.lxor (Z.lxor (rotr 2 x) (rotr 13 x)) (rotr 22 x).
Definition Sigma1 (x : Z) : Z := Z.lxor (Z.lxor (rotr 6 x) (rotr 11 x)) (rotr 25 x).
Definition sigma0 (x : Z) : Z := Z.lxor (Z.lxor (rotr 7 x) (rotr 18 x)) (Z.shiftr x 3).
Definition sigma1 (x : Z) : Z := Z.lxor (Z.lxor (rotr 17 x) (rotr 19 x)) (Z.shiftr x 10).

(** The next schedule word after the words [ws]. *)
Definition next_word (ws : list Z) : Z :=
  let t := length ws in
  u32 (sigma1 (ws !!! (t - 2)%nat) + ws !!! (t - 7)%nat + sigma0 (ws !!! (t - 15)%nat)
       + ws !!! (t - 16)%nat).

Lemma next_word_eq ws :
  let t := length ws in
  next_word ws = u32 (sigma1 (ws !!! (t - 2)%nat) + ws !!! (t - 7)%nat + sigma0 (ws !!! (t - 15)%nat)
                      + ws !!! (t - 16)%nat).
Proof. reflexivity. Qed.

Abbreviation schedule := (extend next_word).

Abbreviation regs := (Z * Z * Z * Z * Z * Z * Z * Z)%type.

Definition round (kt wt : Z) (r : regs) : regs :=
  let '(a, b, c, d, e, f, g, h) := r in
  let T1 := u32 (h + Sigma1 e + Ch e f g + kt + wt) in
  let T2 := u32 (Sigma0 a + Maj a b c) in
  (u32 (T1 + T2), a, b, c, u32 (d + T1), e, f, g).

Definition load_regs (H : list Z) : regs :=
  (H !!! 0%nat, H !!! 1%nat, H !!! 2%nat, H !!! 3%nat, H !!! 4%nat, H !!! 5%nat, H !!! 6%nat, H !!! 7%nat).

Definition add_regs (H : list Z) (r : regs) : list Z :=
  let '(a, b, c, d, e, f, g, h) := r in zip_with (fun x y => u32 (x + y)) H [a; b; c; d; e; f; g; h].

Lemma add_regs_lookup H a b c d e f g h :
  length H = 8%nat ->
  add_regs H (a, b, c, d, e, f, g, h)
  = [u32 (H !!! 0%nat + a); u32 (H !!! 1%nat + b); u32 (H !!! 2%nat + c); u32 (H !!! 3%nat + d);
     u32 (H !!! 4%nat + e); u32 (H !!! 5%nat + f); u32 (H !!! 6%nat + g); u32 (H !!! 7%nat + h)].
Proof.
  intros Hl. destruct H as [|s0 [|s1 [|s2 [|s3 [|s4 [|s5 [|s6 [|s7 [|s8 H]]]]]]]]]; try discriminate Hl.
  reflexivity.
Qed.

(** Compression of a block of 16 words, from the words of the block. *)
Definition compress_with (rnd : Z -> Z -> regs -> regs) (H block : list Z) : list Z :=
  add_regs H (foldl (fun r kw => rnd kw.1 kw.2 r) (load_regs H) (combine K (schedule 48 block))).

Definition compress (H : list Z) (block : list Z) : list Z := compress_with round H (be_words block).

Definition pad (msg : list Z) : list Z :=
  msg ++ [0x80] ++ replicate ((119 - length msg mod 64) mod 64) 0
      ++ be_bytes 8 (8 * Z.of_nat (length msg)).

Definition digest (H : list Z) : list Z := flat_map (be_bytes 4) H.

Definition sha256 (msg : list Z) : list Z := digest (foldl compress H0 (chunks 64 (pad msg))).

(** The digest of "abc", from the standard. *)
Example sha256_abc :
  be_words (sha256 [97; 98; 99]) =
  [0xba7816bf; 0x8f01cfea; 0x414140de; 0x5dae2223; 0xb00361a3; 0x96177a9c; 0xb410ff61; 0xf20015ad].
Proof. vm_compute. reflexivity. Qed.

End SHA256.
