(* ===== verification/Sha256.v ===== *)
(** The streaming SHA-256 of [pepper/apps/prover_knows_hash_preimage.c] and
    the computation that checks a preimage with it. *)
From Stdlib Require Import ZArith Lia.
From stdpp Require Import base numbers list.
From S2P Require Import Prelude ShaSpec.

Local Open Scope Z_scope.

(** ** The code *)

(** [SHA256_CTX] *)
Record SHA256_CTX := { data : list Z; datalen : Z; bitlen : Z; state : list Z }.

Definition set_data (d : list Z) (c : SHA256_CTX) : SHA256_CTX :=
  {| data := d; datalen := datalen c; bitlen := bitlen c; state := state c |}.

Definition ROTRIGHT (a b : Z) : Z := Z.lor (Z.shiftr a b) (u32 (Z.shiftl a (32 - b))).
Definition CH (x y z : Z) : Z := Z.lxor (Z.land x y) (Z.land (u32 (Z.lnot x)) z).
Definition MAJ (x y z : Z) : Z := Z.lxor (Z.lxor (Z.land x y) (Z.land x z)) (Z.land y z).
Definition EP0 (x : Z) : Z := Z.lxor (Z.lxor (ROTRIGHT x 2) (ROTRIGHT x 13)) (ROTRIGHT x 22).
Definition EP1 (x : Z) : Z := Z.lxor (Z.lxor (ROTRIGHT x 6) (ROTRIGHT x 11)) (ROTRIGHT x 25).
Definition SIG0 (x : Z) : Z := Z.lxor (Z.lxor (ROTRIGHT x 7) (ROTRIGHT x 18)) (Z.shiftr x 3).
Definition SIG1 (x : Z) : Z := Z.lxor (Z.lxor (ROTRIGHT x 17) (ROTRIGHT x 19)) (Z.shiftr x 10).

(** [static const uint32_t k[64]] *)
Definition k : list Z :=
  table
  [0x428a2f98_71374491_b5c0fbcf_e9b5dba5_3956c25b_59f111f1_923f82a4_ab1c5ed5;
   0xd807aa98_12835b01_243185be_550c7dc3_72be5d74_80deb1fe_9bdc06a7_c19bf174;
   0xe49b69c1_efbe4786_0fc19dc6_240ca1cc_2de92c6f_4a7484aa_5cb0a9dc_76f988da;
   0x983e5152_a831c66d_b00327c8_bf597fc7_c6e00bf3_d5a79147_06ca6351_14292967;
   0x27b70a85_2e1b2138_4d2c6dfc_53380d13_650a7354_766a0abb_81c2c92e_92722c85;
   0xa2bfe8a1_a81a664b_c24b8b70_c76c51a3_d192e819_d6990624_f40e3585_106aa070;
   0x19a4c116_1e376c08_2748774c_34b0bcb5_391c0cb3_4ed8aa4a_5b9cca4f_682e6ff3;
   0x748f82ee_78a5636f_84c87814_8cc70208_90befffa_a4506ceb_bef9a3f7_c67178f2].

(** One iteration of the main loop: [t1], [t2] and the eight variables. *)
Definition sha256_round (ki mi : Z) (r : SHA256.regs) : SHA256.regs :=
  let '(a, b, c, d, e, f, g, h) := r in
  let t1 := u32 (h + EP1 e + CH e f g + ki + mi) in
  let t2 := u32 (EP0 a + MAJ a b c) in
  (u32 (t1 + t2), a, b, c, u32 (d + t1), e, f, g).

Definition sha256_transform (ctx : SHA256_CTX) (block : list Z) : SHA256_CTX :=
  let m := replicate 64 0 in
  let m := for_up 0 16
    (fun i m =>
       let j := (4 * i)%nat in
       <[i := u32 (Z.lor (Z.lor (Z.lor (Z.shiftl (block !!! j) 24) (Z.shiftl (block !!! (j + 1)%nat) 16))
                                (Z.shiftl (block !!! (j + 2)%nat) 8)) (block !!! (j + 3)%nat))]> m) m in
  let m := for_up 16 64
    (fun i m =>
       <[i := u32 (SIG1 (m !!! (i - 2)%nat) + m !!! (i - 7)%nat + SIG0 (m !!! (i - 15)%nat)
                   + m !!! (i - 16)%nat)]> m) m in
  let st := state ctx in
  let '(a, b, c, d, e, f, g, h) :=
    for_up 0 64 (fun i r => sha256_round (k !!! i) (m !!! i) r)
      (st !!! 0%nat, st !!! 1%nat, st !!! 2%nat, st !!! 3%nat,
       st !!! 4%nat, st !!! 5%nat, st !!! 6%nat, st !!! 7%nat) in
  {| data := data ctx; datalen := datalen ctx; bitlen := bitlen ctx;
     state := [u32 (st !!! 0%nat + a); u32 (st !!! 1%nat + b); u32 (st !!! 2%nat + c);
               u32 (st !!! 3%nat + d); u32 (st !!! 4%nat + e); u32 (st !!! 5%nat + f);
               u32 (st !!! 6%nat + g); u32 (st !!! 7%nat + h)] |}.

(** The context on the stack, initialised; [data] is not. *)
Definition sha256_init (ctx : SHA256_CTX) : SHA256_CTX :=
  {| data := data ctx; datalen := 0; bitlen := 0;
     state := [0x6a09e667; 0xbb67ae85; 0x3c6ef372; 0xa54ff53a;
               0x510e527f; 0x9b05688c; 0x1f83d9ab; 0x5be0cd19] |}.

(** One byte of [sha256_update]. *)
Definition sha256_push (ctx : SHA256_CTX) (b : Z) : res SHA256_CTX :=
  buf ← wr (data ctx) (datalen ctx) b;
  let ctx := {| data := buf; datalen := u32 (datalen ctx + 1); bitlen := bitlen ctx;
                state := state ctx |} in
  if datalen ctx =? 64 then
    let ctx := sha256_transform ctx (data ctx) in
    Ok {| data := data ctx; datalen := 0; bitlen := u64 (bitlen ctx + 512); state := state ctx |}
  else Ok ctx.

Definition sha256_update (ctx : SHA256_CTX) (msg : list Z) (len : nat) : res SHA256_CTX :=
  for_upM 0 len (fun i ctx => b ← rd msg (Z.of_nat i); sha256_push ctx b) ctx.

(** [while (i < n) ctx->data[i++] = 0x00;] *)
Definition zero_fill (i n : nat) (d : list Z) : res (list Z) :=
  for_upM i n (fun i d => wr d (Z.of_nat i) 0) d.

(** The length bytes at the end of the last block. *)
Definition store_length (bits : Z) (d : list Z) : list Z :=
  let d := <[63%nat := u8 bits]> d in
  let d := <[62%nat := u8 (Z.shiftr bits 8)]> d in
  let d := <[61%nat := u8 (Z.shiftr bits 16)]> d in
  let d := <[60%nat := u8 (Z.shiftr bits 24)]> d in
  let d := <[59%nat := u8 (Z.shiftr bits 32)]> d in
  let d := <[58%nat := u8 (Z.shiftr bits 40)]> d in
  let d := <[57%nat := u8 (Z.shiftr bits 48)]> d in
  <[56%nat := u8 (Z.shiftr bits 56)]> d.

(** The state as 32 bytes. *)
Definition store_digest (st hash : list Z) : list Z :=
  let byte s i := Z.land (Z.shiftr (st !!! s) (24 - Z.of_nat i * 8)) 0xff in
  for_up 0 4
    (fun i h => <[i := byte 0%nat i]> (<[(i + 4)%nat := byte 1%nat i]> (<[(i + 8)%nat := byte 2%nat i]>
       (<[(i + 12)%nat := byte 3%nat i]> (<[(i + 16)%nat := byte 4%nat i]> (<[(i + 20)%nat := byte 5%nat i]>
       (<[(i + 24)%nat := byte 6%nat i]> (<[(i + 28)%nat := byte 7%nat i]> h)))))))) hash.

Definition sha256_final (ctx : SHA256_CTX) (hash : list Z) : res (SHA256_CTX * list Z) :=
  let i := Z.to_nat (datalen ctx) in
  ctx ← (if datalen ctx <? 56 then
           d ← wr (data ctx) (Z.of_nat i) 0x80;
           d ← zero_fill (i + 1) 56 d;
           Ok (set_data d ctx)
         else
           d ← wr (data ctx) (Z.of_nat i) 0x80;
           d ← zero_fill (i + 1) 64 d;
           let ctx := set_data d ctx in
           let ctx := sha256_transform ctx (data ctx) in
           Ok (set_data (for_up 0 56 (fun i d => <[i := 0]> d) (data ctx)) ctx));
  let bits := u64 (bitlen ctx + u32 (datalen ctx * 8)) in
  let ctx := {| data := store_length bits (data ctx); datalen := datalen ctx; bitlen := bits;
                state := state ctx |} in
  let ctx := sha256_transform ctx (data ctx) in
  Ok (ctx, store_digest (state ctx) hash).

(** [compute] of the app; [exo_compute] gives the prover's preimage for
    the hash it is asked about. *)
Definition PREIMAGE_LEN : nat := 4.
Definition SHA256_BLOCK_SIZE : nat := 32.

Definition zero_ctx : SHA256_CTX :=
  {| data := replicate 64 0; datalen := 0; bitlen := 0; state := replicate 8 0 |}.

Definition compute (exo_compute : list Z -> list Z) (input_hash : list Z) : res Z :=
  let preimage := exo_compute input_hash in
  let ctx := sha256_init zero_ctx in
  ctx ← sha256_update ctx preimage PREIMAGE_LEN;
  r ← sha256_final ctx (replicate SHA256_BLOCK_SIZE 0);
  let '(_, prover_hash) := r in
  Ok (for_up 0 SHA256_BLOCK_SIZE
        (fun i knows => if negb (input_hash !!! i =? prover_hash !!! i) then 0 else knows) 1).

(** The table and the initial state are the standard's. *)
Lemma k_standard : k = SHA256.K.
Proof. vm_compute. reflexivity. Qed.

Lemma init_standard ctx : state (sha256_init ctx) = SHA256.H0.
Proof. vm_compute. reflexivity. Qed.

(** ** The block transform is the standard's compression *)

Definition bytes (l : list Z) : Prop := Forall (in_u 8) l.

Lemma bytes_lookup l i : bytes l -> (i < length l)%nat -> in_u 8 (l !!! i).
Proof.
  intros Hl Hi. destruct (lookup_lt_is_Some_2 l i Hi) as [x Hx].
  rewrite (list_lookup_total_correct _ _ _ Hx). by eapply Forall_lookup_1.
Qed.

Lemma load_words d :
  length d = 64%nat -> bytes d ->
  for_up 0 16
    (fun i m =>
       let j := (4 * i)%nat in
       <[i := u32 (Z.lor (Z.lor (Z.lor (Z.shiftl (d !!! j) 24) (Z.shiftl (d !!! (j + 1)%nat) 16))
                                (Z.shiftl (d !!! (j + 2)%nat) 8)) (d !!! (j + 3)%nat))]> m)
    (replicate 64 0) = be_words d ++ replicate 48 0.
Proof.
  intros Hd Hb. pose proof (be_words_length 16 d Hd) as Hw. rewrite <- Hw at 1.
  rewrite (for_up_fill 0 (fun i _ => u32 (Z.lor (Z.lor (Z.lor (Z.shiftl (d !!! (4 * i)%nat) 24)
      (Z.shiftl (d !!! (4 * i + 1)%nat) 16)) (Z.shiftl (d !!! (4 * i + 2)%nat) 8))
      (d !!! (4 * i + 3)%nat))) (replicate 64 0) (be_words d)).
  - by rewrite Hw.
  - rewrite Hw, length_replicate. lia.
  - done.
  - intros i _ Hi _ _. rewrite Hw in Hi. rewrite word_of_bytes by (apply bytes_lookup; [done|lia]).
    by rewrite be_words_lookup by lia.
Qed.

Lemma extend_words ws :
  length ws = 16%nat ->
  for_up 16 64
    (fun i m =>
       <[i := u32 (SIG1 (m !!! (i - 2)%nat) + m !!! (i - 7)%nat + SIG0 (m !!! (i - 15)%nat)
                   + m !!! (i - 16)%nat)]> m) (ws ++ replicate 48 0) = SHA256.schedule 48 ws.
Proof.
  intros Hw. pose proof (extend_length SHA256.next_word 48 ws) as Hs. rewrite Hw in Hs.
  change 64%nat with (48 + 16)%nat. rewrite <- Hs.
  rewrite (for_up_fill 16 (fun i m => u32 (SIG1 (m !!! (i - 2)%nat) + m !!! (i - 7)%nat
      + SIG0 (m !!! (i - 15)%nat) + m !!! (i - 16)%nat)) (ws ++ replicate 48 0) (SHA256.schedule 48 ws)).
  - rewrite Hs, drop_ge by (rewrite length_app, Hw; done). apply app_nil_r.
  - rewrite Hs, length_app, Hw. cbn. lia.
  - rewrite <- Hw, take_app_length. symmetry. apply extend_prefix.
  - intros i m Hi Hm Ht. rewrite extend_word by lia. rewrite <- Ht.
    rewrite SHA256.next_word_eq. cbv zeta. rewrite length_take, Hm, length_app, Hw. rewrite Hs in Hi.
    rewrite length_replicate. rewrite Nat.min_l by lia.
    by rewrite !lookup_total_take_lt by lia.
Qed.

(** A fold over paired lists is the loop that reads both. *)
Lemma for_up_combine {S} (f : Z -> Z -> S -> S) (l1 l2 : list Z) s :
  length l1 = length l2 ->
  for_up 0 (length l1) (fun i s => f (l1 !!! i) (l2 !!! i) s) s
  = foldl (fun s kw => f kw.1 kw.2 s) s (combine l1 l2).
Proof.
  intros Hl. rewrite <- (for_up_foldl (combine l1 l2) (fun kw s => f kw.1 kw.2 s)).
  rewrite length_combine, <- Hl, Nat.min_id. apply for_up_ext. intros i t Hi.
  destruct (lookup_lt_is_Some_2 l1 i) as [x Hx]; [lia|].
  destruct (lookup_lt_is_Some_2 l2 i) as [y Hy]; [lia|].
  rewrite (list_lookup_total_correct _ _ _ Hx), (list_lookup_total_correct _ _ _ Hy).
  by rewrite (list_lookup_total_correct _ _ _ (combine_lookup _ _ _ _ _ Hx Hy)).
Qed.

Lemma sha256_transform_spec ctx d :
  length (state ctx) = 8%nat -> length d = 64%nat -> bytes d ->
  sha256_transform ctx d =
  {| data := data ctx; datalen := datalen ctx; bitlen := bitlen ctx;
     state := SHA256.compress (state ctx) d |}.
Proof.
  intros Hst Hd Hb. unfold sha256_transform. cbv zeta. rewrite load_words by done.
  pose proof (be_words_length 16 d Hd) as Hw. rewrite extend_words by done.
  set (W := SHA256.schedule 48 (be_words d)).
  assert (length W = 64%nat) as HW by (unfold W; rewrite extend_length, Hw; done).
  unfold SHA256.compress, SHA256.compress_with, SHA256.load_regs. fold W.
  rewrite k_standard. assert (length SHA256.K = 64%nat) as HK by (vm_compute; reflexivity).
  pose proof (for_up_combine sha256_round SHA256.K W) as Hfc. rewrite HK, HW in Hfc. rewrite Hfc by done.
  change (fun s (kw : Z * Z) => sha256_round kw.1 kw.2 s)
    with (fun s (kw : Z * Z) => SHA256.round kw.1 kw.2 s).
  destruct (foldl _ _ _) as [[[[[[[a b] c] d'] e] f] g] h]. by rewrite SHA256.add_regs_lookup.
Qed.

(** ** Streaming *)

Lemma compress_length H b : length H = 8%nat -> length (SHA256.compress H b) = 8%nat.
Proof.
  intros Hl. unfold SHA256.compress, SHA256.compress_with.
  destruct (foldl _ _ _) as [[[[[[[? ?] ?] ?] ?] ?] ?] ?]. by rewrite SHA256.add_regs_lookup.
Qed.

Lemma absorb_length bs H : length H = 8%nat -> length (foldl SHA256.compress H bs) = 8%nat.
Proof. revert H. induction bs as [|b bs IH]; intros H Hl; cbn; [done|]. by apply IH, compress_length. Qed.

#[local] Opaque SHA256.compress SHA256.K SHA256.H0.

(** [ctx] has absorbed [msg]: its full blocks are in the state, the rest is
    at the start of the buffer. *)
Definition absorbed (msg : list Z) (ctx : SHA256_CTX) : Prop :=
  exists bs rest, msg = concat bs ++ rest /\ Forall (fun b => length b = 64%nat) bs /\
    (length rest < 64)%nat /\ state ctx = foldl SHA256.compress SHA256.H0 bs /\
    length (data ctx) = 64%nat /\ bytes (data ctx) /\ take (length rest) (data ctx) = rest /\
    datalen ctx = Z.of_nat (length rest) /\ bitlen ctx = u64 (512 * Z.of_nat (length bs)).

Lemma absorbed_init ctx :
  length (data ctx) = 64%nat -> bytes (data ctx) -> absorbed [] (sha256_init ctx).
Proof. intros Hl Hb. exists [], []. split_and!; try done. cbn; lia. Qed.

Lemma bytes_insert l i b : bytes l -> in_u 8 b -> bytes (<[i := b]> l).
Proof. intros Hl Hb. by apply Forall_insert. Qed.

Lemma sha256_push_spec msg ctx b :
  absorbed msg ctx -> in_u 8 b ->
  exists ctx', sha256_push ctx b = Ok ctx' /\ absorbed (msg ++ [b]) ctx'.
Proof.
  intros (bs & rest & -> & Hbs & Hr & Hst & Hl & Hby & Ht & Hdl & Hbl) Hb. unfold sha256_push.
  rewrite wr_Ok, res_bind_Ok by (rewrite Hdl, Hl; lia). cbn [datalen data state bitlen].
  rewrite Hdl, Nat2Z.id. rewrite wrapu_small by (unfold in_u; lia).
  set (r := length rest) in *. set (buf := <[r := b]> (data ctx)).
  assert (length buf = 64%nat) as Hbuf by (unfold buf; by rewrite length_insert).
  assert (bytes buf) as Hbb by (by apply bytes_insert).
  assert (take (S r) buf = rest ++ [b]) as Hnew.
  { unfold buf. rewrite (take_S_r _ _ b) by (apply list_lookup_insert_eq; lia).
    by rewrite take_insert_ge, Ht by lia. }
  destruct (Z.eqb_spec (Z.of_nat r + 1) 64) as [Heq|Hne].
  - assert (r = 63%nat) as -> by lia.
    rewrite sha256_transform_spec by (try done; cbn; rewrite Hst; by apply absorb_length).
    eexists. split; [reflexivity|]. exists (bs ++ [buf]), []. cbn [state data datalen bitlen].
    rewrite take_ge in Hnew by lia. rewrite concat_app. cbn [concat]. rewrite !app_nil_r.
    split; [by rewrite <- app_assoc, Hnew|]. split; [by apply Forall_app; auto|]. split; [cbn; lia|].
    split; [rewrite foldl_app; cbn [foldl]; by rewrite Hst|]. split_and!; try done.
    rewrite Hbl, wrapu_mod_l, length_app. f_equal. cbn. lia.
  - eexists. split; [reflexivity|]. exists bs, (rest ++ [b]). cbn [state data datalen bitlen].
    assert (length (rest ++ [b]) = S r) as Hlr by (rewrite length_app; cbn; lia).
    rewrite Hlr. split_and!; try done; try lia. by rewrite app_assoc.
Qed.

Lemma sha256_update_absorbed msg ctx l len :
  absorbed msg ctx -> bytes l -> (len <= length l)%nat ->
  exists ctx', sha256_update ctx l len = Ok ctx' /\ absorbed (msg ++ take len l) ctx'.
Proof.
  intros Hctx Hl Hlen. unfold sha256_update.
  apply (for_upM_ind (fun i ctx => absorbed (msg ++ take i l) ctx)); [lia|by rewrite app_nil_r|].
  intros i c Hi Hc. rewrite rd_Ok, res_bind_Ok, Nat2Z.id by lia.
  assert (l !! i = Some (l !!! i)) as Hli by (apply list_lookup_lookup_total_lt; lia).
  rewrite (take_S_r _ _ _ Hli), app_assoc. apply sha256_push_spec; [done|].
  by apply bytes_lookup; [|lia].
Qed.

Lemma zero_fill_spec i n d :
  (i <= n <= length d)%nat ->
  zero_fill i n d = Ok (take i d ++ replicate (n - i) 0 ++ drop n d).
Proof.
  intros Hi. unfold zero_fill.
  destruct (for_upM_ind (fun j d' => d' = take i d ++ replicate (j - i) 0 ++ drop j d)
    i n (fun i d => wr d (Z.of_nat i) 0) d) as (d' & -> & ->); [lia| | |done].
  - rewrite Nat.sub_diag. cbn [replicate app]. by rewrite take_drop.
  - intros j d' Hj ->. eexists. split.
    + apply wr_Ok. rewrite !length_app, length_take, length_replicate, length_drop. lia.
    + rewrite Nat2Z.id. rewrite insert_app_r_alt by (rewrite length_take; lia).
      rewrite insert_app_r_alt by (rewrite length_take, length_replicate; lia).
      rewrite length_take, length_replicate, Nat.min_l by lia.
      replace (j - i - (j - i))%nat with 0%nat by lia. f_equal.
      destruct (lookup_lt_is_Some_2 d j) as [x Hx]; [lia|].
      rewrite (drop_S _ _ _ Hx). cbn [insert list_insert].
      replace (S j - i)%nat with ((j - i) + 1)%nat by lia.
      by rewrite replicate_add, <- app_assoc.
Qed.

Lemma store_length_spec bits d :
  length d = 64%nat -> store_length bits d = take 56 d ++ be_bytes 8 bits.
Proof.
  intros Hd. rewrite <- (take_drop 56 d) at 1. set (p := take 56 d).
  assert (length p = 56%nat) as Hp by (unfold p; rewrite length_take, Hd; lia).
  pose proof (length_drop d 56) as Hq. rewrite Hd in Hq. set (q := drop 56 d) in *.
  destruct q as [|x0 [|x1 [|x2 [|x3 [|x4 [|x5 [|x6 [|x7 [|]]]]]]]]]; try discriminate Hq.
  unfold store_length. rewrite !insert_app_r_alt by (rewrite Hp; lia). by rewrite Hp.
Qed.

Lemma land_ff x : Z.land x 0xff = u8 x.
Proof. change 0xff with (Z.ones 8). by rewrite Z.land_ones by lia. Qed.

Lemma store_digest_spec st hash :
  length st = 8%nat -> length hash = 32%nat -> store_digest st hash = SHA256.digest st.
Proof.
  intros Hs Hh.
  destruct st as [|s0 [|s1 [|s2 [|s3 [|s4 [|s5 [|s6 [|s7 [|]]]]]]]]]; try discriminate Hs.
  do 32 (destruct hash as [|? hash]; [discriminate Hh|]). destruct hash; [|discriminate Hh].
  unfold store_digest. cbn -[Z.shiftr Z.land Z.sub Z.of_nat Z.mul].
  unfold SHA256.digest, be_bytes. cbn -[Z.shiftr Z.land wrapu].
  rewrite !land_ff. reflexivity.
Qed.

Lemma bytes_pad msg : bytes (be_bytes 8 msg).
Proof. apply Forall_map, Forall_forall. intros i _. apply wrapu_range. lia. Qed.

(** The last block or the last two blocks, from the rest of the message. *)
Lemma pad_rest bs rest :
  Forall (fun b => length b = 64%nat) bs -> (length rest < 64)%nat ->
  let len := be_bytes 8 (8 * Z.of_nat (length (concat bs ++ rest))) in
  SHA256.pad (concat bs ++ rest) =
  if (length rest <? 56)%nat
  then concat bs ++ rest ++ [0x80] ++ replicate (55 - length rest) 0 ++ len
  else concat (bs ++ [rest ++ [0x80] ++ replicate (63 - length rest) 0]) ++ replicate 56 0 ++ len.
Proof.
  intros Hbs Hr. cbv zeta. unfold SHA256.pad.
  assert (length (concat bs) = 64 * length bs)%nat as Hc.
  { clear Hr. induction Hbs as [|b bs Hb _ IH]; [done|]. cbn. rewrite length_app, IH, Hb. lia. }
  assert (length (concat bs ++ rest) mod 64 = length rest)%nat as ->.
  { rewrite length_app, Hc, Nat.add_comm, Nat.mul_comm, Nat.Div0.mod_add. by apply Nat.mod_small. }
  destruct (Nat.ltb_spec (length rest) 56) as [Hlt|Hge].
  - replace ((119 - length rest) mod 64)%nat with (55 - length rest)%nat.
    + by rewrite <- app_assoc.
    + replace (119 - length rest)%nat with (55 - length rest + 1 * 64)%nat by lia.
      rewrite Nat.Div0.mod_add. symmetry. apply Nat.mod_small. lia.
  - rewrite Nat.mod_small by lia. rewrite concat_app. cbn [concat]. rewrite app_nil_r.
    replace (119 - length rest)%nat with (63 - length rest + 56)%nat by lia.
    rewrite replicate_add, <- !app_assoc. reflexivity.
Qed.

Lemma sha256_final_spec msg ctx hash :
  absorbed msg ctx -> length hash = 32%nat -> 8 * Z.of_nat (length msg) < 2 ^ 64 ->
  exists ctx', sha256_final ctx hash = Ok (ctx', SHA256.sha256 msg).
Proof.
  intros (bs & rest & -> & Hbs & Hr & Hst & Hl & Hby & Ht & Hdl & Hbl) Hh Hlen.
  assert (length (concat bs ++ rest) = 64 * length bs + length rest)%nat as Hn.
  { rewrite length_app. f_equal. clear -Hbs. induction Hbs as [|b bs Hb _ IH]; [done|].
    cbn. rewrite length_app, IH, Hb. lia. }
  assert (u64 (bitlen ctx + u32 (datalen ctx * 8)) = 8 * Z.of_nat (length (concat bs ++ rest))) as Hbits.
  { rewrite Hbl, Hdl, Hn in *. rewrite (wrapu_small 32) by (unfold in_u; lia).
    rewrite wrapu_mod_l, wrapu_small by (unfold in_u; lia). lia. }
  set (len := be_bytes 8 (8 * Z.of_nat (length (concat bs ++ rest)))) in *.
  pose proof (pad_rest bs rest Hbs Hr) as Hpad. cbv zeta in Hpad. fold len in Hpad.
  assert (length (state ctx) = 8%nat) as Hst8 by (rewrite Hst; by apply absorb_length).
  set (r := length rest) in *. unfold sha256_final. rewrite Hdl, Nat2Z.id.
  rewrite wr_Ok, res_bind_Ok, Nat2Z.id by lia. set (d1 := <[r := 0x80]> (data ctx)).
  assert (length d1 = 64%nat) as Hd1 by (unfold d1; by rewrite length_insert).
  assert (take (r + 1) d1 = rest ++ [0x80]) as Ht1.
  { unfold d1. rewrite Nat.add_1_r, (take_S_r _ _ 0x80) by (apply list_lookup_insert_eq; lia).
    by rewrite take_insert_ge, Ht by lia. }
  assert (bytes rest) as Hbr by (rewrite <- Ht; by apply Forall_take).
  assert (length len = 8%nat) as Hlenl by done.
  unfold SHA256.sha256. rewrite Hpad. rewrite Hdl in Hbits.
  destruct (Nat.ltb_spec r 56) as [Hlt|Hge].
  - rewrite (proj2 (Z.ltb_lt _ _)), zero_fill_spec, !res_bind_Ok by lia. cbn [set_data data datalen bitlen state].
    rewrite ?Hdl, Hbits. fold len. rewrite store_length_spec.
    2:{ rewrite !length_app, length_take, length_replicate, length_drop, Hd1. lia. }
    fold len. rewrite Ht1.
    set (blk := rest ++ [0x80] ++ replicate (55 - r) 0 ++ len).
    assert (take 56 ((rest ++ [0x80]) ++ replicate (56 - (r + 1)) 0 ++ drop 56 d1) ++ len = blk) as ->.
    { unfold blk. rewrite (app_assoc (rest ++ [0x80])), take_app_length'.
      - replace (56 - (r + 1))%nat with (55 - r)%nat by lia. by rewrite <- !app_assoc.
      - rewrite !length_app, length_replicate. cbn. fold r. lia. }
    assert (length blk = 64%nat) as Hblk.
    { unfold blk. rewrite !length_app, length_replicate, Hlenl. cbn. fold r. lia. }
    rewrite sha256_transform_spec; [|done|done|].
    2:{ unfold blk. repeat apply Forall_app_2; try done; [by repeat constructor| |by apply bytes_pad].
        by apply Forall_replicate. }
    cbn [state]. eexists. rewrite store_digest_spec; [|by apply compress_length|done].
    rewrite chunks_concat by (done || lia). rewrite <- (app_nil_r blk), chunks_cons by (done || lia).
    rewrite chunks_short, foldl_app, app_nil_r, Hst by (cbn; lia). reflexivity.
  - rewrite (proj2 (Z.ltb_ge _ _)), res_bind_Ok, zero_fill_spec, !res_bind_Ok by lia. rewrite Ht1.
    rewrite (drop_ge d1 64), app_nil_r by lia.
    replace (64 - (r + 1))%nat with (63 - r)%nat by lia. rewrite <- app_assoc.
    set (blk1 := rest ++ [0x80] ++ replicate (63 - r) 0).
    assert (length blk1 = 64%nat) as Hblk1.
    { unfold blk1. rewrite !length_app, length_replicate. cbn. fold r. lia. }
    assert (bytes blk1) as Hby1.
    { unfold blk1. repeat apply Forall_app_2; try done; [by repeat constructor|]. by apply Forall_replicate. }
    cbv zeta. rewrite (sha256_transform_spec (set_data blk1 ctx)) by (cbn [state set_data data]; done).
    cbn [set_data data datalen bitlen state].
    replace (for_up 0 56 (fun i d => <[i := 0]> d) blk1) with (replicate 56 0 ++ drop 56 blk1).
    2:{ symmetry. apply (for_up_fill 0 (fun _ _ => 0) blk1 (replicate 56 0)).
        - rewrite length_replicate. lia.
        - done.
        - intros i _ Hi _ _. rewrite length_replicate in Hi. by rewrite lookup_total_replicate_2 by lia. }
    rewrite ?Hdl, Hbits. rewrite store_length_spec by (rewrite length_app, length_replicate, length_drop; lia).
    fold len. rewrite take_app_length' by (by rewrite length_replicate).
    set (blk2 := replicate 56 0 ++ len).
    assert (length blk2 = 64%nat) as Hblk2 by done.
    rewrite sha256_transform_spec; [|by apply compress_length|done|].
    2:{ apply Forall_app_2; [by apply Forall_replicate|by apply bytes_pad]. }
    cbn [state]. eexists. rewrite store_digest_spec; [|by do 2 apply compress_length|done].
    rewrite chunks_concat by (lia || (by apply Forall_app_2; [|repeat constructor])).
    rewrite <- (app_nil_r blk2), chunks_cons by (done || lia).
    rewrite chunks_short, !foldl_app by (cbn; lia). cbn [foldl]. rewrite app_nil_r, Hst. reflexivity.
Qed.

Lemma digest_length st : length st = 8%nat -> length (flat_map (be_bytes 4) st) = 32%nat.
Proof.
  intros Hs. destruct st as [|s0 [|s1 [|s2 [|s3 [|s4 [|s5 [|s6 [|s7 [|]]]]]]]]]; try discriminate Hs.
  reflexivity.
Qed.

(** ** Results *)

(** Several calls of [sha256_update], each with a whole array. *)
Fixpoint update_all (ctx : SHA256_CTX) (ms : list (list Z)) : res SHA256_CTX :=
  match ms with
  | [] => Ok ctx
  | m :: ms => ctx ← sha256_update ctx m (length m); update_all ctx ms
  end.

Definition sha256_stream (ctx : SHA256_CTX) (ms : list (list Z)) (hash : list Z) : res (list Z) :=
  ctx ← update_all (sha256_init ctx) ms;
  r ← sha256_final ctx hash;
  Ok (snd r).

(** C22: However a message is cut into [sha256_update] calls, [sha256_init],
    the updates and [sha256_final] compute the SHA-256 digest of the whole
    message, without an access outside the 64-byte buffer, for messages
    below [2^64] bits. *)
Theorem sha256_stream_correct ctx ms hash :
  length (data ctx) = 64%nat -> bytes (data ctx) -> length hash = 32%nat ->
  Forall bytes ms -> 8 * Z.of_nat (length (concat ms)) < 2 ^ 64 ->
  sha256_stream ctx ms hash = Ok (SHA256.sha256 (concat ms)).
Proof.
  intros Hl Hb Hh Hms Hlen. unfold sha256_stream.
  assert (forall pre c, absorbed pre c ->
    exists c', update_all c ms = Ok c' /\ absorbed (pre ++ concat ms) c') as Hall.
  { clear Hlen. induction Hms as [|m ms Hm _ IH]; intros pre c Hc; cbn [update_all concat].
    - exists c. by rewrite app_nil_r.
    - destruct (sha256_update_absorbed pre c m (length m) Hc Hm (le_n _)) as (c1 & -> & Hc1).
      rewrite res_bind_Ok. rewrite firstn_all in Hc1. rewrite app_assoc. by apply IH. }
  destruct (Hall [] _ (absorbed_init ctx Hl Hb)) as (c & -> & Hc). rewrite res_bind_Ok.
  destruct (sha256_final_spec (concat ms) c hash Hc Hh Hlen) as (c' & ->). done.
Qed.

Lemma sha256_stream_witness :
  sha256_stream zero_ctx [[97]; [98; 99]] (replicate 32 0) = Ok (SHA256.sha256 [97; 98; 99]).
Proof.
  apply (sha256_stream_correct zero_ctx [[97]; [98; 99]] (replicate 32 0)).
  - reflexivity.
  - repeat constructor; cbn; lia.
  - reflexivity.
  - repeat constructor; cbn; lia.
  - vm_compute. reflexivity.
Defined.

Lemma check_bytes h h' :
  length h = SHA256_BLOCK_SIZE -> length h' = SHA256_BLOCK_SIZE ->
  for_up 0 SHA256_BLOCK_SIZE (fun i knows => if negb (h !!! i =? h' !!! i) then 0 else knows) 1
  = b2z (bool_decide (h = h')).
Proof.
  intros Hh Hh'.
  pose proof (for_up_ind (fun i s => s = b2z (bool_decide (take i h = take i h'))) 0 SHA256_BLOCK_SIZE
    (fun i knows => if negb (h !!! i =? h' !!! i) then 0 else knows) 1 ltac:(lia) eq_refl) as H.
  rewrite H; [by rewrite !take_ge by lia|]. clear H. intros i s Hi ->.
  destruct (lookup_lt_is_Some_2 h i) as [x Hx]; [lia|].
  destruct (lookup_lt_is_Some_2 h' i) as [y Hy]; [lia|].
  rewrite (list_lookup_total_correct _ _ _ Hx), (list_lookup_total_correct _ _ _ Hy).
  rewrite (take_S_r _ _ _ Hx), (take_S_r _ _ _ Hy). destruct (Z.eqb_spec x y) as [->|Hne]; cbn [negb].
  - f_equal. apply bool_decide_ext. split; [by intros ->|]. by intros [? _]%app_inj_tail.
  - rewrite bool_decide_eq_false_2; [done|]. by intros [_ ?]%app_inj_tail.
Qed.

(** The computation accepts exactly when the SHA-256 digest of the
    first four bytes the prover supplies is the public hash. *)
Theorem compute_accepts_preimage exo_compute h :
  length h = SHA256_BLOCK_SIZE ->
  bytes (exo_compute h) -> (PREIMAGE_LEN <= length (exo_compute h))%nat ->
  compute exo_compute h
  = Ok (b2z (bool_decide (h = SHA256.sha256 (take PREIMAGE_LEN (exo_compute h))))).
Proof.
  intros Hh Hb Hl. unfold compute.
  assert (absorbed [] (sha256_init zero_ctx)) as H0.
  { apply absorbed_init; [done|]. by apply Forall_replicate. }
  destruct (sha256_update_absorbed [] _ _ _ H0 Hb Hl) as (c & -> & Hc). rewrite res_bind_Ok.
  destruct (sha256_final_spec _ c (replicate SHA256_BLOCK_SIZE 0) Hc) as (c' & ->); [done| |].
  { cbn [app]. rewrite length_take. unfold PREIMAGE_LEN in *. lia. }
  rewrite res_bind_Ok. cbn [app]. f_equal. apply check_bytes; [done|].
  unfold SHA256.sha256, SHA256.digest. apply digest_length. by apply absorb_length.
Qed.

(** The prover that knows "abcd". *)
Lemma compute_accepts_preimage_witness :
  compute (fun _ => [97; 98; 99; 100]) (SHA256.sha256 [97; 98; 99; 100]) = Ok 1.
Proof.
  rewrite (compute_accepts_preimage (fun _ => [97; 98; 99; 100]) (SHA256.sha256 [97; 98; 99; 100])).
  - cbn [take PREIMAGE_LEN]. by rewrite bool_decide_eq_true_2.
  - vm_compute. reflexivity.
  - repeat constructor; cbn; lia.
  - vm_compute. lia.
Defined.
