(* ===== verification/Commitment.v ===== *)
(** The commitment hash of [compiler/cstdinc/db.h]: [commitment_hash_H]
    over three byte strings, the key [__db_commitment_CK] and the keyed
    [commitment_hash].  The hash has the structure of SHA-256; what it
    computes is stated with the standard's parts of [ShaSpec.v]. *)
From Stdlib Require Import ZArith Lia.
From stdpp Require Import base numbers list.
From S2P Require Import Prelude ShaSpec Sha256.

Local Open Scope Z_scope.

(** ** The code *)

Definition NUM_COMMITMENT_CHUNKS : nat := 32.
Definition NUM_COMMITMENT_BITS : Z := 256.
Definition NUM_CK_BITS : Z := 160.
Definition NUM_COMMITMENT_WORDS_PER_BLOCK : nat := 16.
Definition NUM_COMMITMENT_BITS_PER_BLOCK : Z := 512.

(** [dest] points at index [off] of an array. *)
Definition wordToBytes (off : nat) (val : Z) (dest : list Z) : list Z :=
  for_up 0 4 (fun i d => <[(off + i)%nat := Z.land (Z.shiftr val (8 * Z.of_nat i)) 0xff]> d) dest.

Definition RROT (x m : Z) : Z :=
  Z.land (Z.lor (Z.shiftr x m) (u32 (Z.shiftl x (32 - m)))) 0xffffffff.

(** [assert_zero] adds a constraint; without a solution there is no run. *)
Definition assert_zero (x : Z) : res unit := if x =? 0 then Ok tt else Fault.

(** The table [k] and the initial values of [commitment_hash_H]. *)
Definition k : list Z :=
  table
  [0x428a2f98_71374491_b5c0fbcf_e9b5dba5_3956c25b_59f111f1_923f82a4_ab1c5ed5;
   0xd807aa98_12835b01_243185be_550c7dc3_72be5d74_80deb1fe_9bdc06a7_c19bf174;
   0xe49b69c1_efbe4786_0fc19dc6_240ca1cc_2de92c6f_4a7484aa_5cb0a9dc_76f988da;
   0x983e5152_a831c66d_b00327c8_bf597fc7_c6e00bf3_d5a79147_06ca6351_14292967;
   0x27b70a85_2e1b2138_4d2c6dfc_53380d13_650a7354_766a0abb_81c2c92e_92722c85;
   0xa2bfe8a1_a81a664b_c24b8b70_c76c51a3_d192e819_d6990624_f40e3585_106aa070;
   0x19a4c116_1e376c08_2748774c_34b0bcb5_391c0cb3_4ed8aa4a_5b9cca4f_682e6ff3;
   0x748f82ee_78a5636f_84c87814_8cc70208_90befffa_a4506ceb_bef9a3f7_c67178f2].
Definition h_init : list Z :=
  [0x6a09e667; 0xbb67ae85; 0x3c6ef372; 0xa54ff53a; 0x510e527f; 0x9b05688c; 0x1f83d9ab; 0x5be0cd19].

(** The [byteptr]'th byte of the padded message. *)
Definition padded_byte (m1 : list Z) (num_bits_m1 : Z) (m2 : list Z) (num_bits_m2 : Z) (m3 : list Z)
  (length_bits num_blocks byteptr : Z) : res Z :=
  if byteptr <? num_bits_m1 / 8 then rd m1 byteptr
  else if byteptr <? u32 (num_bits_m1 + num_bits_m2) / 8 then rd m2 (byteptr - num_bits_m1 / 8)
  else if byteptr <? length_bits / 8 then rd m3 (byteptr - u32 (num_bits_m1 + num_bits_m2) / 8)
  else if byteptr =? length_bits / 8 then Ok 0x80
  else if num_blocks * NUM_COMMITMENT_BITS_PER_BLOCK / 8 - 8 <=? byteptr then
    let bytes_into_length := byteptr - (num_blocks * NUM_COMMITMENT_BITS_PER_BLOCK / 8 - 8) in
    Ok (Z.land (Z.shiftr length_bits (bytes_into_length * 8)) 0xff)
  else Ok 0.

(** The first sixteen words of a block; the state is [byteptr] and [w]. *)
Definition block_words (byte : Z -> res Z) (s : Z * list Z) : res (Z * list Z) :=
  for_upM 0 NUM_COMMITMENT_WORDS_PER_BLOCK
    (fun j '(byteptr, w) =>
       for_upM 0 4
         (fun u '(byteptr, w) =>
            cbyte ← byte byteptr;
            Ok (u32 (byteptr + 1), <[j := u32 (Z.lor (w !!! j) (Z.shiftl cbyte (Z.of_nat u * 8)))]> w))
         (byteptr, <[j := 0]> w)) s.

(** The remaining words. *)
Definition next_w (j : nat) (w : list Z) : Z :=
  let s0 := Z.lxor (Z.lxor (RROT (w !!! (j - 15)%nat) 7) (RROT (w !!! (j - 15)%nat) 18))
              (Z.shiftr (w !!! (j - 15)%nat) 3) in
  let s1 := Z.lxor (Z.lxor (RROT (w !!! (j - 2)%nat) 17) (RROT (w !!! (j - 2)%nat) 19))
              (Z.shiftr (w !!! (j - 2)%nat) 10) in
  Z.land (u32 (w !!! (j - 16)%nat + s0 + w !!! (j - 7)%nat + s1)) 0xffffffff.

Definition extend_words (w : list Z) : list Z :=
  for_up NUM_COMMITMENT_WORDS_PER_BLOCK 64 (fun j w => <[j := next_w j w]> w) w.

(** One iteration of the compression loop. *)
Definition commitment_round (kj wj : Z) (r : SHA256.regs) : SHA256.regs :=
  let '(a, b, c, d, e, f, g, h) := r in
  let S1 := Z.lxor (Z.lxor (RROT e 6) (RROT e 11)) (RROT e 25) in
  let ch := Z.lxor (Z.land e f) (Z.land (u32 (Z.lnot e)) g) in
  let temp1 := Z.land (u32 (h + S1 + ch + kj + wj)) 0xffffffff in
  let S0 := Z.lxor (Z.lxor (RROT a 2) (RROT a 13)) (RROT a 22) in
  let maj := Z.lxor (Z.lxor (Z.land a b) (Z.land a c)) (Z.land b c) in
  let temp2 := Z.land (u32 (S0 + maj)) 0xffffffff in
  let h := g in
  let g := f in
  let f := e in
  let e := Z.land (u32 (e + temp1)) 0xffffffff in
  let d := c in
  let c := b in
  let b := a in
  let a := Z.land (u32 (temp1 + temp2)) 0xffffffff in
  (a, b, c, d, e, f, g, h).

Definition commitment_hash_H (m1 : list Z) (num_bits_m1 : Z) (m2 : list Z) (num_bits_m2 : Z)
  (m3 : list Z) (num_bits_m3 : Z) (hash : list Z) : res (list Z) :=
  _ ← assert_zero (num_bits_m1 mod 8);
  _ ← assert_zero (num_bits_m2 mod 8);
  _ ← assert_zero (num_bits_m3 mod 8);
  let length_bits := u32 (num_bits_m1 + num_bits_m2 + num_bits_m3) in
  let num_blocks := ((length_bits + 8 + 64) + (NUM_COMMITMENT_BITS_PER_BLOCK - 1))
                    / NUM_COMMITMENT_BITS_PER_BLOCK in
  let byte := padded_byte m1 num_bits_m1 m2 num_bits_m2 m3 length_bits num_blocks in
  s ← for_upM 0 (Z.to_nat num_blocks)
        (fun _ '(byteptr, H) =>
           s ← block_words byte (byteptr, replicate 64 0);
           let '(byteptr, w) := s in
           let w := extend_words w in
           let '(a, b, c, d, e, f, g, h) :=
             for_up 0 64 (fun j r => commitment_round (k !!! j) (w !!! j) r)
               (H !!! 0%nat, H !!! 1%nat, H !!! 2%nat, H !!! 3%nat,
                H !!! 4%nat, H !!! 5%nat, H !!! 6%nat, H !!! 7%nat) in
           let add x y := Z.land (u32 (x + y)) 0xffffffff in
           Ok (byteptr, [add (H !!! 0%nat) a; add (H !!! 1%nat) b; add (H !!! 2%nat) c;
                         add (H !!! 3%nat) d; add (H !!! 4%nat) e; add (H !!! 5%nat) f;
                         add (H !!! 6%nat) g; add (H !!! 7%nat) h]))
        (0, h_init);
  let '(_, H) := s in
  let hash := wordToBytes 0 (H !!! 0%nat) hash in
  let hash := wordToBytes 4 (H !!! 1%nat) hash in
  let hash := wordToBytes 8 (H !!! 2%nat) hash in
  let hash := wordToBytes 12 (H !!! 3%nat) hash in
  let hash := wordToBytes 16 (H !!! 4%nat) hash in
  let hash := wordToBytes 20 (H !!! 5%nat) hash in
  let hash := wordToBytes 24 (H !!! 6%nat) hash in
  Ok (wordToBytes 28 (H !!! 7%nat) hash).

(** The new value of the global [__db_commitment_CK]. *)
Definition setcommitmentCK (ck in_ : list Z) : res (list Z) :=
  for_upM 0 (Z.to_nat (NUM_CK_BITS / 8)) (fun i ck => b ← rd in_ (Z.of_nat i); wr ck (Z.of_nat i) b) ck.

Definition commitment_hash (ck message : list Z) (num_bits_message : Z) (key hash : list Z)
  : res (list Z) :=
  let n := Z.to_nat (NUM_COMMITMENT_BITS_PER_BLOCK / 8) in
  s ← for_upM 0 n
        (fun i '(o_key, i_key) =>
           b ← rd key (Z.of_nat i);
           Ok (<[i := Z.lxor 0x5c b]> o_key, <[i := Z.lxor 0x36 b]> i_key))
        (replicate n 0, replicate n 0);
  let '(o_key, i_key) := s in
  inner_hash ← commitment_hash_H i_key NUM_COMMITMENT_BITS_PER_BLOCK ck NUM_CK_BITS
                 message (u32 num_bits_message) (replicate NUM_COMMITMENT_CHUNKS 0);
  commitment_hash_H o_key NUM_COMMITMENT_BITS_PER_BLOCK inner_hash NUM_COMMITMENT_BITS
    [0] 0 hash.

(** ** What it computes *)

(** Little-endian words and bytes. *)
Fixpoint le_words (bs : list Z) : list Z :=
  match bs with
  | b0 :: b1 :: b2 :: b3 :: bs => (b3 * 2 ^ 24 + b2 * 2 ^ 16 + b1 * 2 ^ 8 + b0) :: le_words bs
  | _ => []
  end.

Definition le_bytes (n : nat) (w : Z) : list Z :=
  map (fun i => u8 (Z.shiftr w (8 * Z.of_nat i))) (seq 0 n).

(** The standard's padding with a little-endian length. *)
Definition le_pad (msg : list Z) : list Z :=
  msg ++ [0x80] ++ replicate ((119 - length msg mod 64) mod 64) 0
      ++ le_bytes 8 (8 * Z.of_nat (length msg)).

(** The standard's round but for one register: the new [e] is the old [e],
    not [d], plus [T1]. *)
Definition e_round (kt wt : Z) (r : SHA256.regs) : SHA256.regs :=
  let '(a, b, c, d, e, f, g, h) := r in
  let T1 := u32 (h + SHA256.Sigma1 e + SHA256.Ch e f g + kt + wt) in
  let T2 := u32 (SHA256.Sigma0 a + SHA256.Maj a b c) in
  (u32 (T1 + T2), a, b, c, u32 (e + T1), e, f, g).

Definition e_compress (H block : list Z) : list Z :=
  SHA256.compress_with e_round H (le_words block).

Definition le_hash (msg : list Z) : list Z :=
  flat_map (le_bytes 4) (foldl e_compress SHA256.H0 (chunks 64 (le_pad msg))).

(** The tables are the standard's. *)
Lemma commitment_k_standard : k = SHA256.K.
Proof. vm_compute. reflexivity. Qed.

Lemma h_init_standard : h_init = SHA256.H0.
Proof. vm_compute. reflexivity. Qed.

(** *** Ranges *)

Lemma land_mask x : Z.land x 0xffffffff = u32 x.
Proof. change 0xffffffff with (Z.ones 32). by rewrite Z.land_ones by lia. Qed.

Lemma u32_u32 x : u32 (u32 x) = u32 x.
Proof. apply wrapu_small, wrapu_range. lia. Qed.

Lemma lor_u32 a b : in_u 32 a -> in_u 32 b -> in_u 32 (Z.lor a b).
Proof.
  unfold in_u. intros Ha Hb. assert (0 <= Z.lor a b) as Hn by (apply Z.lor_nonneg; lia).
  split; [done|]. destruct (Z.eq_dec (Z.lor a b) 0) as [->|]; [lia|].
  apply Z.log2_lt_pow2; [lia|]. rewrite Z.log2_lor by lia.
  assert (forall x, 0 <= x < 2 ^ 32 -> Z.log2 x < 32) as Hlog.
  { intros x Hx. destruct (Z.eq_dec x 0) as [->|]; [cbn; lia|]. apply Z.log2_lt_pow2; lia. }
  pose proof (Hlog a Ha). pose proof (Hlog b Hb). lia.
Qed.

Lemma shiftr_u32 x n : 0 <= n -> in_u 32 x -> in_u 32 (Z.shiftr x n).
Proof.
  unfold in_u. intros Hn Hx. rewrite Z.shiftr_div_pow2 by done.
  pose proof (Z.pow_pos_nonneg 2 n ltac:(lia) Hn). split; [apply Z.div_pos; lia|].
  apply Z.div_lt_upper_bound; nia.
Qed.

Lemma RROT_rotr x m : 0 <= m -> in_u 32 x -> RROT x m = rotr m x.
Proof.
  intros Hm Hx. unfold RROT, rotr. rewrite land_mask. apply wrapu_small.
  apply lor_u32; [by apply shiftr_u32|]. apply wrapu_range. lia.
Qed.

Definition regs_u32 (r : SHA256.regs) : Prop :=
  let '(a, b, c, d, e, f, g, h) := r in
  in_u 32 a /\ in_u 32 b /\ in_u 32 c /\ in_u 32 d /\ in_u 32 e /\ in_u 32 f /\ in_u 32 g /\ in_u 32 h.

Lemma commitment_round_spec kj wj r :
  regs_u32 r -> commitment_round kj wj r = e_round kj wj r /\ regs_u32 (e_round kj wj r).
Proof.
  destruct r as [[[[[[[a b] c] d] e] f] g] h]. intros (Ha & Hb & Hc & Hd & He & Hf & Hg & Hh).
  unfold commitment_round, e_round. rewrite !RROT_rotr, !land_mask, !u32_u32 by (done || lia).
  split; [reflexivity|]. unfold regs_u32. assert (forall x, in_u 32 (u32 x)) as Hu by (intros; apply wrapu_range; lia).
  auto 20.
Qed.

Lemma foldl_rounds (kw : list (Z * Z)) r :
  regs_u32 r ->
  foldl (fun r kw => commitment_round kw.1 kw.2 r) r kw = foldl (fun r kw => e_round kw.1 kw.2 r) r kw.
Proof.
  revert r. induction kw as [|x kw IH]; intros r Hr; cbn; [done|].
  destruct (commitment_round_spec x.1 x.2 r Hr) as [-> Hr']. by apply IH.
Qed.

Lemma schedule_u32 n ws : Forall (in_u 32) ws -> Forall (in_u 32) (SHA256.schedule n ws).
Proof.
  revert ws. induction n as [|n IH]; intros ws Hws; cbn; [done|]. apply IH, Forall_app_2; [done|].
  constructor; [|constructor]. apply wrapu_range. lia.
Qed.

Lemma u32_lookup ws i : Forall (in_u 32) ws -> in_u 32 (ws !!! i).
Proof.
  intros Hws. destruct (ws !! i) as [x|] eqn:Hx.
  - rewrite (list_lookup_total_correct _ _ _ Hx). by eapply Forall_lookup_1.
  - rewrite list_lookup_total_alt, Hx. by unfold in_u.
Qed.

Lemma extend_words_spec ws :
  length ws = 16%nat -> Forall (in_u 32) ws ->
  extend_words (ws ++ replicate 48 0) = SHA256.schedule 48 ws.
Proof.
  intros Hw Hu. unfold extend_words. pose proof (extend_length SHA256.next_word 48 ws) as Hs. rewrite Hw in Hs.
  pose proof (schedule_u32 48 ws Hu) as Hsu.
  change 64%nat with (48 + 16)%nat. rewrite <- Hs.
  change NUM_COMMITMENT_WORDS_PER_BLOCK with 16%nat.
  rewrite (for_up_fill 16 next_w (ws ++ replicate 48 0) (SHA256.schedule 48 ws)).
  - rewrite Hs, drop_ge by (rewrite length_app, Hw; done). apply app_nil_r.
  - rewrite Hs, length_app, Hw. cbn. lia.
  - rewrite <- Hw, take_app_length. symmetry. apply extend_prefix.
  - intros i m Hi Hm Ht. rewrite extend_word by lia. rewrite Hs in Hi.
    assert (forall d, (0 < d <= 16)%nat -> m !!! (i - d)%nat = SHA256.schedule 48 ws !!! (i - d)%nat) as Hmd.
    { intros d Hd. rewrite <- (lookup_total_take_lt m i), Ht by lia. by apply lookup_total_take_lt; lia. }
    unfold next_w. rewrite !Hmd by lia. rewrite !RROT_rotr, land_mask, u32_u32 by (lia || by apply u32_lookup).
    rewrite SHA256.next_word_eq. cbv zeta. rewrite length_take, Hs, Nat.min_l by lia.
    rewrite !lookup_total_take_lt by lia. unfold SHA256.sigma0, SHA256.sigma1. f_equal. lia.
Qed.

(** *** Reading the padded message *)

Lemma le_words_length n bs : length bs = (4 * n)%nat -> length (le_words bs) = n.
Proof.
  revert bs. induction n as [|n IH]; intros bs Hl.
  - by destruct bs.
  - destruct bs as [|b0 [|b1 [|b2 [|b3 bs]]]]; cbn in Hl; try lia. cbn. f_equal. apply IH. lia.
Qed.

Lemma le_words_lookup i bs :
  (4 * i + 3 < length bs)%nat ->
  le_words bs !!! i = bs !!! (4 * i + 3)%nat * 2 ^ 24 + bs !!! (4 * i + 2)%nat * 2 ^ 16
                      + bs !!! (4 * i + 1)%nat * 2 ^ 8 + bs !!! (4 * i)%nat.
Proof.
  revert bs. induction i as [|i IH]; intros bs Hl;
    destruct bs as [|b0 [|b1 [|b2 [|b3 bs]]]]; cbn in Hl; try lia; [done|].
  replace (4 * S i)%nat with (S (S (S (S (4 * i))))) by lia.
  cbn [le_words Nat.add]. change ((b3 * 2 ^ 24 + b2 * 2 ^ 16 + b1 * 2 ^ 8 + b0 :: le_words bs) !!! S i)
    with (le_words bs !!! i). rewrite IH by lia. reflexivity.
Qed.

Lemma le_words_u32 bs : bytes bs -> Forall (in_u 32) (le_words bs).
Proof.
  assert (forall n bs, (length bs <= n)%nat -> bytes bs -> Forall (in_u 32) (le_words bs)) as Hn;
    [|intros H; by apply (Hn (length bs))].
  induction n as [|n IH]; intros l Hl Hb; [by destruct l; [constructor|cbn in Hl; lia]|].
  destruct l as [|b0 [|b1 [|b2 [|b3 l]]]]; try by constructor. unfold bytes in Hb.
  rewrite !Forall_cons in Hb. destruct Hb as (H0 & H1 & H2 & H3 & Hb). cbn in Hl |- *. constructor.
  - unfold in_u in *. lia.
  - apply IH; [lia|done].
Qed.

(** One word, from four bytes in little-endian order. *)
Lemma word_le b0 b1 b2 b3 :
  in_u 8 b0 -> in_u 8 b1 -> in_u 8 b2 -> in_u 8 b3 ->
  u32 (Z.lor (u32 (Z.lor (u32 (Z.lor (u32 (Z.lor 0 (Z.shiftl b0 0))) (Z.shiftl b1 8)))
    (Z.shiftl b2 16))) (Z.shiftl b3 24)) = b3 * 2 ^ 24 + b2 * 2 ^ 16 + b1 * 2 ^ 8 + b0.
Proof.
  unfold in_u. intros H0 H1 H2 H3.
  assert (forall a b n, 0 <= n -> 0 <= b < 2 ^ n -> Z.lor b (Z.shiftl a n) = a * 2 ^ n + b) as Hlor.
  { intros a b n Hn Hb. rewrite Z.lor_comm. by apply lor_shiftl_add. }
  rewrite Z.shiftl_0_r, Z.lor_0_l. rewrite (wrapu_small 32 b0) by (unfold in_u; lia).
  rewrite (Hlor b1), (wrapu_small 32 (b1 * _ + _)) by (unfold in_u; lia).
  rewrite (Hlor b2), (wrapu_small 32 (b2 * _ + _)) by (unfold in_u; lia).
  rewrite (Hlor b3), wrapu_small by (unfold in_u; lia). lia.
Qed.

Section Reading.
(** A padded message [P] of whole blocks, read by [byte]. *)
Context (P : list Z) (byte : Z -> res Z) (nb : nat).
Context (HP : bytes P) (HPlen : length P = (64 * nb)%nat) (Hnb : Z.of_nat (64 * nb) < 2 ^ 32).
Context (Hbyte : forall p, (p < length P)%nat -> byte (Z.of_nat p) = Ok (P !!! p)).

Lemma read_word q j w :
  (q + 4 <= length P)%nat -> (j < length w)%nat ->
  for_upM 0 4
    (fun u '(byteptr, w) =>
       cbyte ← byte byteptr;
       Ok (u32 (byteptr + 1), <[j := u32 (Z.lor (w !!! j) (Z.shiftl cbyte (Z.of_nat u * 8)))]> w))
    (Z.of_nat q, <[j := 0]> w)
  = Ok (Z.of_nat (q + 4),
        <[j := P !!! (q + 3)%nat * 2 ^ 24 + P !!! (q + 2)%nat * 2 ^ 16
               + P !!! (q + 1)%nat * 2 ^ 8 + P !!! q]> w).
Proof.
  intros Hq Hj. assert (forall i, (i < length P)%nat -> in_u 8 (P !!! i)) as Hb by (intros; by apply bytes_lookup).
  assert (forall i, (i < 4)%nat -> u32 (Z.of_nat (q + i) + 1) = Z.of_nat (q + S i)) as Hinc.
  { intros i Hi. rewrite wrapu_small by (unfold in_u; lia). lia. }
  pose proof (Hinc 0%nat ltac:(lia)) as I0. pose proof (Hinc 1%nat ltac:(lia)) as I1.
  pose proof (Hinc 2%nat ltac:(lia)) as I2. pose proof (Hinc 3%nat ltac:(lia)) as I3.
  rewrite Nat.add_0_r in I0. clear Hinc.
  do 4 (rewrite for_upM_step by lia; rewrite Hbyte, ?res_bind_Ok by lia;
        rewrite ?I0, ?I1, ?I2, ?I3).
  rewrite for_upM_done by lia. rewrite !list_insert_insert_eq.
  rewrite !list_lookup_total_insert_eq by (rewrite ?length_insert; lia).
  change (Z.of_nat 0 * 8) with 0. change (Z.of_nat 1 * 8) with 8.
  change (Z.of_nat 2 * 8) with 16. change (Z.of_nat 3 * 8) with 24.
  by rewrite word_le by (apply Hb; lia).
Qed.

Lemma block_words_spec i :
  (i < nb)%nat ->
  block_words byte (Z.of_nat (64 * i), replicate 64 0)
  = Ok (Z.of_nat (64 * S i), le_words (take 64 (drop (64 * i) P)) ++ replicate 48 0).
Proof.
  intros Hi. set (B := take 64 (drop (64 * i) P)).
  assert (length B = 64%nat) as HB by (unfold B; rewrite length_take, length_drop, HPlen; lia).
  assert (length (le_words B) = 16%nat) as Hw by (by apply le_words_length).
  unfold block_words.
  match goal with |- for_upM 0 _ ?body _ = _ =>
    destruct (for_upM_ind (fun j s => s = (Z.of_nat (64 * i + 4 * j), take j (le_words B) ++ replicate (64 - j) 0))
      0 NUM_COMMITMENT_WORDS_PER_BLOCK body (Z.of_nat (64 * i), replicate 64 0))
      as (s & -> & ->); [lia| | |] end.
  - f_equal. lia.
  - intros j s Hj ->. change NUM_COMMITMENT_WORDS_PER_BLOCK with 16%nat in Hj. eexists. split.
    + rewrite read_word; [reflexivity| |].
      * rewrite HPlen. lia.
      * rewrite length_app, length_take, length_replicate. lia.
    + f_equal; [f_equal; lia|]. rewrite insert_app_r_alt by (rewrite length_take; lia).
      rewrite length_take, Nat.min_l, Nat.sub_diag by lia.
      replace (64 - j)%nat with (S (64 - S j)) by lia. cbn [replicate insert list_insert].
      assert (le_words B !! j = Some (le_words B !!! j)) as Hwj by (apply list_lookup_lookup_total_lt; lia).
      rewrite (take_S_r _ _ _ Hwj), <- app_assoc. f_equal. cbn [app]. f_equal.
      rewrite le_words_lookup by lia.
      assert (forall d, (d < 64)%nat -> B !!! d = P !!! (64 * i + d)%nat) as HBP.
      { intros d Hd. unfold B. rewrite lookup_total_take_lt by lia. by rewrite lookup_total_drop. }
      rewrite !HBP by lia. by rewrite !Nat.add_assoc.
  - change NUM_COMMITMENT_WORDS_PER_BLOCK with 16%nat. rewrite take_ge by (rewrite Hw; done).
    do 2 f_equal. lia.
Qed.

End Reading.

Section Padding.
Context (m1 m2 m3 : list Z).
Let msg := m1 ++ m2 ++ m3.
Let bits (m : list Z) : Z := 8 * Z.of_nat (length m).
Context (Hlen : bits msg < 2 ^ 32).

(** The number of blocks. *)
Definition blocks_of (n : nat) : nat := ((n + 72) / 64)%nat.

Lemma le_pad_length : length (le_pad msg) = (64 * blocks_of (length msg))%nat.
Proof.
  unfold le_pad, blocks_of. rewrite !length_app, length_replicate.
  change (length (le_bytes 8 (8 * Z.of_nat (length msg)))) with 8%nat. cbn [length].
  set (n := length msg). pose proof (Nat.div_mod_eq n 64) as Hn. pose proof (Nat.mod_upper_bound n 64) as Hr.
  set (q := (n / 64)%nat) in *. set (r := (n mod 64)%nat) in *. clearbody q r n.
  assert (forall a b, (b < 64)%nat -> (64 * a + b) / 64 = a)%nat as Hdiv.
  { intros a b Hb. rewrite Nat.mul_comm, Nat.div_add_l, (Nat.div_small b) by lia. lia. }
  assert (r < 64)%nat by lia. destruct (decide (r < 56)%nat).
  - replace (n + 72)%nat with (64 * (q + 1) + (r + 8))%nat by lia. rewrite Hdiv by lia.
    replace (119 - r)%nat with (55 - r + 1 * 64)%nat by lia. rewrite Nat.Div0.mod_add, Nat.mod_small by lia. lia.
  - replace (n + 72)%nat with (64 * (q + 2) + (r - 56))%nat by lia. rewrite Hdiv by lia.
    rewrite Nat.mod_small by lia. lia.
Qed.

Lemma num_blocks_spec :
  (bits msg + 8 + 64 + (NUM_COMMITMENT_BITS_PER_BLOCK - 1)) / NUM_COMMITMENT_BITS_PER_BLOCK
  = Z.of_nat (blocks_of (length msg)).
Proof.
  unfold bits, NUM_COMMITMENT_BITS_PER_BLOCK, blocks_of. rewrite Nat2Z.inj_div, Nat2Z.inj_add.
  change (Z.of_nat 72) with 72. change (Z.of_nat 64) with 64.
  replace (8 * Z.of_nat (length msg) + 8 + 64 + (512 - 1)) with ((Z.of_nat (length msg) + 72) * 8 + 7) by lia.
  change 512 with (8 * 64). rewrite <- Z.div_div by lia. f_equal.
  rewrite Z.div_add_l by lia. change (7 / 8) with 0. lia.
Qed.

Lemma padded_byte_spec p :
  (p < length (le_pad msg))%nat ->
  padded_byte m1 (bits m1) m2 (bits m2) m3 (bits msg) (Z.of_nat (blocks_of (length msg))) (Z.of_nat p)
  = Ok (le_pad msg !!! p).
Proof.
  intros Hp. pose proof le_pad_length as Hpl. rewrite Hpl in Hp.
  assert (forall m, bits m / 8 = Z.of_nat (length m)) as H8.
  { intros m. unfold bits. rewrite Z.mul_comm. apply Z.div_mul. lia. }
  assert (length msg = length m1 + length m2 + length m3)%nat as Hm by (unfold msg; rewrite !length_app; lia).
  assert (u32 (bits m1 + bits m2) / 8 = Z.of_nat (length m1 + length m2)) as H12.
  { rewrite wrapu_small by (unfold in_u, bits in *; lia). unfold bits.
    rewrite <- Z.mul_add_distr_l, Z.mul_comm, Z.div_mul by lia. lia. }
  unfold padded_byte. rewrite !H8, H12.
  set (nb := blocks_of (length msg)) in *.
  replace (Z.of_nat nb * NUM_COMMITMENT_BITS_PER_BLOCK / 8 - 8) with (Z.of_nat (64 * nb - 8)).
  2:{ unfold NUM_COMMITMENT_BITS_PER_BLOCK. replace (Z.of_nat nb * 512) with (Z.of_nat nb * 64 * 8) by lia.
      rewrite Z.div_mul by lia. unfold nb, blocks_of.
      assert (1 <= (length msg + 72) / 64)%nat by (apply Nat.div_le_lower_bound; lia). lia. }
  assert (length msg + 1 + length (replicate ((119 - length msg mod 64) mod 64) 0%Z) + 8 = 64 * nb)%nat as Hz.
  { rewrite <- Hpl. unfold le_pad. rewrite !length_app. cbn [length].
    change (length (le_bytes 8 (8 * Z.of_nat (length msg)))) with 8%nat. lia. }
  unfold le_pad. set (zs := replicate _ 0) in *.
  assert (forall x l q, (l : list Z) !! q = Some x -> l !!! q = x) as Htot by (intros; by apply list_lookup_total_correct).
  destruct (Z.ltb_spec (Z.of_nat p) (Z.of_nat (length m1))) as [H1|H1].
  { rewrite rd_Ok, Nat2Z.id by lia. f_equal. unfold msg. rewrite <- !app_assoc.
    symmetry. by rewrite lookup_total_app_l by lia. }
  destruct (Z.ltb_spec (Z.of_nat p) (Z.of_nat (length m1 + length m2))) as [H2|H2].
  { rewrite rd_Ok by lia. f_equal. unfold msg. rewrite <- !app_assoc.
    rewrite lookup_total_app_r, lookup_total_app_l by lia. f_equal. lia. }
  destruct (Z.ltb_spec (Z.of_nat p) (Z.of_nat (length msg))) as [H3|H3].
  { rewrite rd_Ok by lia. f_equal. unfold msg. rewrite <- !app_assoc.
    rewrite lookup_total_app_r, lookup_total_app_r, lookup_total_app_l by lia. f_equal. lia. }
  rewrite lookup_total_app_r by lia.
  destruct (Z.eqb_spec (Z.of_nat p) (Z.of_nat (length msg))) as [H4|H4].
  { by replace (p - length msg)%nat with 0%nat by lia. }
  rewrite lookup_total_app_r by (cbn; lia). cbn [length].
  destruct (Z.leb_spec (Z.of_nat (64 * nb - 8)) (Z.of_nat p)) as [H5|H5].
  - rewrite lookup_total_app_r by lia. rewrite land_ff. f_equal. symmetry. apply Htot.
    unfold le_bytes. replace (p - length msg - 1 - length zs)%nat with (p - (64 * nb - 8))%nat by lia.
    rewrite list_lookup_fmap, lookup_seq_lt by lia. cbn [fmap option_fmap option_map].
    replace (8 * Z.of_nat (0 + (p - (64 * nb - 8)))) with ((Z.of_nat p - Z.of_nat (64 * nb - 8)) * 8) by lia.
    reflexivity.
  - rewrite lookup_total_app_l by lia. unfold zs. rewrite lookup_total_replicate_2; [done|].
    unfold zs in Hz. rewrite length_replicate in Hz. lia.
Qed.

End Padding.

Lemma le_pad_bytes msg : bytes msg -> bytes (le_pad msg).
Proof.
  intros Hm. unfold le_pad. apply Forall_app_2; [done|]. apply Forall_app_2; [by repeat constructor|].
  apply Forall_app_2; [by apply Forall_replicate|].
  apply Forall_map, Forall_forall. intros i _. apply wrapu_range. lia.
Qed.

Lemma e_compress_length H b : length H = 8%nat -> length (e_compress H b) = 8%nat.
Proof.
  intros Hl. unfold e_compress, SHA256.compress_with.
  destruct (foldl _ _ _) as [[[[[[[? ?] ?] ?] ?] ?] ?] ?]. by rewrite SHA256.add_regs_lookup.
Qed.

Lemma e_compress_u32 H b : length H = 8%nat -> Forall (in_u 32) (e_compress H b).
Proof.
  intros Hl. unfold e_compress, SHA256.compress_with.
  destruct (foldl _ _ _) as [[[[[[[? ?] ?] ?] ?] ?] ?] ?]. rewrite SHA256.add_regs_lookup by done.
  repeat constructor; apply Z.mod_pos_bound; lia.
Qed.

(** The work on one block. *)
Lemma compress_block H ws :
  length H = 8%nat -> Forall (in_u 32) H -> length ws = 16%nat -> Forall (in_u 32) ws ->
  (let '(a, b, c, d, e, f, g, h) :=
     for_up 0 64 (fun j r => commitment_round (k !!! j) (extend_words (ws ++ replicate 48 0) !!! j) r)
       (H !!! 0%nat, H !!! 1%nat, H !!! 2%nat, H !!! 3%nat,
        H !!! 4%nat, H !!! 5%nat, H !!! 6%nat, H !!! 7%nat) in
   let add x y := Z.land (u32 (x + y)) 0xffffffff in
   [add (H !!! 0%nat) a; add (H !!! 1%nat) b; add (H !!! 2%nat) c; add (H !!! 3%nat) d;
    add (H !!! 4%nat) e; add (H !!! 5%nat) f; add (H !!! 6%nat) g; add (H !!! 7%nat) h])
  = SHA256.compress_with e_round H ws.
Proof.
  intros Hl HH Hws Hwu. rewrite extend_words_spec by done. set (W := SHA256.schedule 48 ws).
  assert (length W = 64%nat) as HW by (unfold W; rewrite extend_length, Hws; done).
  rewrite commitment_k_standard. assert (length SHA256.K = 64%nat) as HK by (vm_compute; reflexivity).
  pose proof (for_up_combine commitment_round SHA256.K W) as Hfc. rewrite HK, HW in Hfc. rewrite Hfc by done.
  rewrite foldl_rounds by (unfold regs_u32; split_and!; by apply u32_lookup).
  unfold SHA256.compress_with, SHA256.load_regs. fold W.
  destruct (foldl _ _ _) as [[[[[[[a b] c] d] e] f] g] h].
  rewrite SHA256.add_regs_lookup by done. cbv zeta. by rewrite !land_mask, !u32_u32.
Qed.

(** The digest, word by word. *)
Lemma words_to_bytes H hash :
  length H = 8%nat -> length hash = 32%nat ->
  wordToBytes 28 (H !!! 7%nat) (wordToBytes 24 (H !!! 6%nat) (wordToBytes 20 (H !!! 5%nat)
    (wordToBytes 16 (H !!! 4%nat) (wordToBytes 12 (H !!! 3%nat) (wordToBytes 8 (H !!! 2%nat)
    (wordToBytes 4 (H !!! 1%nat) (wordToBytes 0 (H !!! 0%nat) hash)))))))
  = flat_map (le_bytes 4) H.
Proof.
  intros HH Hh.
  destruct H as [|s0 [|s1 [|s2 [|s3 [|s4 [|s5 [|s6 [|s7 [|]]]]]]]]]; try discriminate HH.
  do 32 (destruct hash as [|? hash]; [discriminate Hh|]). destruct hash; [|discriminate Hh].
  unfold wordToBytes. cbn -[Z.shiftr Z.land].
  unfold le_bytes. cbn -[Z.shiftr Z.land wrapu]. rewrite !land_ff. reflexivity.
Qed.

(** ** Results *)

(** [commitment_hash_H] hashes the concatenation of its three messages:
    the standard's padding and compression with little-endian words,
    little-endian length and the changed round [e_round]; no array is read
    out of bounds. *)
Theorem commitment_hash_H_correct m1 m2 m3 hash :
  bytes m1 -> bytes m2 -> bytes m3 -> length hash = NUM_COMMITMENT_CHUNKS ->
  8 * Z.of_nat (length (m1 ++ m2 ++ m3)) < 2 ^ 32 ->
  commitment_hash_H m1 (8 * Z.of_nat (length m1)) m2 (8 * Z.of_nat (length m2))
    m3 (8 * Z.of_nat (length m3)) hash = Ok (le_hash (m1 ++ m2 ++ m3)).
Proof.
  intros H1 H2 H3 Hh Hlen. set (msg := m1 ++ m2 ++ m3) in *.
  assert (bytes msg) as Hmsg by (by repeat apply Forall_app_2).
  assert (forall m : list Z, assert_zero ((8 * Z.of_nat (length m)) mod 8) = Ok tt) as Hz.
  { intros m. unfold assert_zero. by rewrite Z.mul_comm, Z.mod_mul. }
  unfold commitment_hash_H. rewrite !Hz, !res_bind_Ok.
  assert (u32 (8 * Z.of_nat (length m1) + 8 * Z.of_nat (length m2) + 8 * Z.of_nat (length m3))
          = 8 * Z.of_nat (length msg)) as ->.
  { unfold msg in *. rewrite !length_app in *. rewrite wrapu_small by (unfold in_u; lia). lia. }
  cbv zeta. pose proof (num_blocks_spec m1 m2 m3) as Hblocks. fold msg in Hblocks.
  rewrite Hblocks, Nat2Z.id.
  set (nb := blocks_of (length msg)). set (P := le_pad msg).
  pose proof (le_pad_length m1 m2 m3) as HP. fold msg in HP. fold nb P in HP.
  assert (Z.of_nat (64 * nb) < 2 ^ 32) as Hnb.
  { unfold nb, blocks_of. pose proof (Nat.div_mod_eq (length msg + 72) 64). lia. }
  assert (forall p, (p < length P)%nat ->
    padded_byte m1 (8 * Z.of_nat (length m1)) m2 (8 * Z.of_nat (length m2)) m3
      (8 * Z.of_nat (length msg)) (Z.of_nat nb) (Z.of_nat p) = Ok (P !!! p)) as Hbyte.
  { intros p Hp. by apply (padded_byte_spec m1 m2 m3 Hlen). }
  pose proof (chunks_whole 64 nb P ltac:(lia) HP) as [Hclen Hclk].
  match goal with |- context [for_upM 0 nb ?body ?s0] =>
    destruct (for_upM_ind (fun i s => s = (Z.of_nat (64 * i), foldl e_compress h_init (take i (chunks 64 P))))
      0 nb body s0) as (s' & -> & ->); [lia|done| |] end.
  - intros i s Hi ->. set (H := foldl e_compress h_init (take i (chunks 64 P))).
    assert (length H = 8%nat /\ Forall (in_u 32) H) as [HHl HHu].
    { unfold H. clear. induction (take i (chunks 64 P)) as [|c l IH] using rev_ind; [split; [done|]|].
      - cbn. unfold h_init. repeat constructor; cbn; lia.
      - rewrite foldl_app. cbn [foldl]. destruct IH as [IH _].
        split; [by apply e_compress_length|by apply e_compress_u32]. }
    assert (bytes (take 64 (drop (64 * i) P))) as HB.
    { by apply Forall_take, Forall_drop, le_pad_bytes. }
    assert (length (take 64 (drop (64 * i) P)) = 64%nat) as HBl.
    { rewrite length_take, length_drop. lia. }
    rewrite (block_words_spec P _ nb (le_pad_bytes _ Hmsg) HP Hnb Hbyte) by lia. rewrite res_bind_Ok.
    pose proof (compress_block H (le_words (take 64 (drop (64 * i) P))) HHl HHu
      (le_words_length 16 _ HBl) (le_words_u32 _ HB)) as Hc.
    destruct (for_up 0 64 _ _) as [[[[[[[a b] c] d] e] f] g] h]. cbv zeta in Hc. rewrite Hc.
    eexists. split; [reflexivity|]. rewrite (take_S_r _ _ _ (Hclk i ltac:(lia))), foldl_app.
    cbn [foldl]. fold H. unfold e_compress at 1. f_equal.
  - rewrite res_bind_Ok. rewrite <- Hclen, firstn_all. f_equal. unfold le_hash. rewrite <- h_init_standard. fold msg P.
    apply words_to_bytes; [|done]. clear. induction (chunks 64 P) as [|c l IH] using rev_ind; [done|].
    rewrite foldl_app. by apply e_compress_length.
Qed.

Lemma commitment_hash_H_witness :
  commitment_hash_H [97] 8 [98; 99] 16 [] 0 (replicate 32 0) = Ok (le_hash [97; 98; 99]).
Proof.
  apply (commitment_hash_H_correct [97] [98; 99] [] (replicate 32 0)).
  - repeat constructor; cbn; lia.
  - repeat constructor; cbn; lia.
  - constructor.
  - reflexivity.
  - vm_compute. reflexivity.
Defined.

(** Although a comment calls the function an implementation of
    SHA-256, its digest of "abc" is not the standard's, not even with the
    bytes of every word reversed. *)
Theorem commitment_hash_H_not_sha256 :
  exists d, commitment_hash_H [97; 98; 99] 24 [] 0 [] 0 (replicate 32 0) = Ok d /\
    d <> SHA256.sha256 [97; 98; 99] /\ le_words d <> be_words (SHA256.sha256 [97; 98; 99]).
Proof. eexists. split; [vm_compute; reflexivity|]. split; vm_compute; discriminate. Qed.

(** A round does not use the register [d]: states that differ in it
    alone have the same successor, so that, unlike the standard's, the
    compression loses 32 bits of its state in the first round. *)
Theorem commitment_round_forgets kj wj a b c d d' e f g h :
  commitment_round kj wj (a, b, c, d, e, f, g, h) = commitment_round kj wj (a, b, c, d', e, f, g, h).
Proof. reflexivity. Qed.

Lemma lxor_u8 a b : in_u 8 a -> in_u 8 b -> in_u 8 (Z.lxor a b).
Proof.
  unfold in_u. intros Ha Hb. assert (0 <= Z.lxor a b) as Hn by (apply Z.lxor_nonneg; lia).
  split; [done|]. destruct (Z.eq_dec (Z.lxor a b) 0) as [->|]; [lia|].
  apply Z.log2_lt_pow2; [lia|]. pose proof (Z.log2_lxor a b ltac:(lia) ltac:(lia)).
  assert (forall x, 0 <= x < 2 ^ 8 -> Z.log2 x < 8) as Hlog.
  { intros x Hx. destruct (Z.eq_dec x 0) as [->|]; [cbn; lia|]. apply Z.log2_lt_pow2; lia. }
  pose proof (Hlog a Ha). pose proof (Hlog b Hb). lia.
Qed.

Lemma le_hash_wf msg : length (le_hash msg) = 32%nat /\ bytes (le_hash msg).
Proof.
  unfold le_hash. rewrite <- h_init_standard. set (H := foldl _ _ _). assert (length H = 8%nat) as Hl.
  { unfold H. clear. induction (chunks 64 _) as [|c l IH] using rev_ind; [done|].
    rewrite foldl_app. by apply e_compress_length. }
  destruct H as [|s0 [|s1 [|s2 [|s3 [|s4 [|s5 [|s6 [|s7 [|]]]]]]]]]; try discriminate Hl.
  split; [done|]. cbn [flat_map le_bytes map seq app].
  repeat constructor; apply Z.mod_pos_bound; lia.
Qed.

Lemma xor_keys key :
  length key = 64%nat ->
  for_upM 0 64
    (fun i '(o_key, i_key) =>
       b ← rd key (Z.of_nat i);
       Ok (<[i := Z.lxor 0x5c b]> o_key, <[i := Z.lxor 0x36 b]> i_key))
    (replicate 64 0, replicate 64 0)
  = Ok (map (Z.lxor 0x5c) key, map (Z.lxor 0x36) key).
Proof.
  intros Hk.
  destruct (for_upM_ind (fun i s => s = (map (Z.lxor 0x5c) (take i key) ++ replicate (64 - i) 0,
                                         map (Z.lxor 0x36) (take i key) ++ replicate (64 - i) 0))
    0 64 (fun i '(o_key, i_key) =>
       b ← rd key (Z.of_nat i);
       Ok (<[i := Z.lxor 0x5c b]> o_key, <[i := Z.lxor 0x36 b]> i_key))
    (replicate 64 0, replicate 64 0)) as (s & -> & ->); [lia|done| |].
  - intros i s Hi ->. rewrite rd_Ok, res_bind_Ok, Nat2Z.id by lia. eexists. split; [reflexivity|].
    assert (key !! i = Some (key !!! i)) as Hki by (apply list_lookup_lookup_total_lt; lia).
    assert (forall x, <[i := Z.lxor x (key !!! i)]> (map (Z.lxor x) (take i key) ++ replicate (64 - i) 0)
      = map (Z.lxor x) (take (S i) key) ++ replicate (64 - S i) 0) as Hins.
    { intros x. rewrite insert_app_r_alt by (rewrite length_map, length_take; lia).
      rewrite length_map, length_take, Nat.min_l, Nat.sub_diag by lia.
      replace (64 - i)%nat with (S (64 - S i)) by lia. cbn [replicate insert list_insert].
      by rewrite (take_S_r _ _ _ Hki), map_app, <- app_assoc. }
    by rewrite !Hins.
  - by rewrite take_ge, !app_nil_r by lia.
Qed.

Lemma block_words_ext f g s : (forall p, f p = g p) -> block_words f s = block_words g s.
Proof.
  intros Hfg. unfold block_words. apply for_upM_ext. intros j [p w] _.
  apply for_upM_ext. intros u [q w'] _. by rewrite Hfg.
Qed.

(** A third message of no bits is not read. *)
Lemma commitment_hash_H_empty m1 n1 m2 n2 m3 m3' hash :
  commitment_hash_H m1 n1 m2 n2 m3 0 hash = commitment_hash_H m1 n1 m2 n2 m3' 0 hash.
Proof.
  unfold commitment_hash_H. destruct (assert_zero (n1 mod 8)); [|done|done].
  destruct (assert_zero (n2 mod 8)); [|done|done]. rewrite !res_bind_Ok.
  change (assert_zero (0 mod 8)) with (Ok tt). rewrite !res_bind_Ok, Z.add_0_r. cbv zeta.
  match goal with |- (?x ≫= ?F) = (?y ≫= _) => assert (x = y) as -> ; [|done] end.
  apply for_upM_ext. intros i [p H] _.
  erewrite block_words_ext; [reflexivity|]. intros q. unfold padded_byte.
  destruct (q <? n1 / 8); [done|].
  by destruct (q <? u32 (n1 + n2) / 8) eqn:E; cbn.
Qed.

(** The keyed hash is the nested construction of HMAC over
    [commitment_hash_H], with the commitment key hashed in front of the
    message. *)
Theorem commitment_hash_nested ck message key hash :
  bytes ck -> length ck = 20%nat -> bytes message -> bytes key -> length key = 64%nat ->
  length hash = NUM_COMMITMENT_CHUNKS ->
  8 * Z.of_nat (84 + length message) < 2 ^ 31 ->
  commitment_hash ck message (8 * Z.of_nat (length message)) key hash
  = Ok (le_hash (map (Z.lxor 0x5c) key ++ le_hash (map (Z.lxor 0x36) key ++ ck ++ message))).
Proof.
  intros Hck Hckl Hm Hk Hkl Hh Hlen. unfold commitment_hash.
  change (Z.to_nat (NUM_COMMITMENT_BITS_PER_BLOCK / 8)) with 64%nat. cbv zeta.
  rewrite xor_keys, res_bind_Ok by done.
  assert (forall x, in_u 8 x -> bytes (map (Z.lxor x) key)) as Hx.
  { intros x Hx. apply Forall_map. eapply Forall_impl; [exact Hk|]. intros b Hb. by apply lxor_u8. }
  rewrite wrapu_small by (unfold in_u; lia).
  pose proof (commitment_hash_H_correct (map (Z.lxor 0x36) key) ck message (replicate NUM_COMMITMENT_CHUNKS 0)) as Hin.
  rewrite length_map, Hkl, Hckl in Hin.
  change (8 * Z.of_nat 64) with NUM_COMMITMENT_BITS_PER_BLOCK in Hin. change (8 * Z.of_nat 20) with NUM_CK_BITS in Hin.
  rewrite Hin; try done.
  2:{ apply Hx. unfold in_u. lia. }
  2:{ rewrite !length_app, length_map, Hkl, Hckl. lia. }
  rewrite res_bind_Ok. set (inner := le_hash _). destruct (le_hash_wf (map (Z.lxor 0x36) key ++ ck ++ message)) as [Hil Hib].
  fold inner in Hil, Hib.
  assert (commitment_hash_H (map (Z.lxor 0x5c) key) NUM_COMMITMENT_BITS_PER_BLOCK inner NUM_COMMITMENT_BITS [0] 0 hash
    = commitment_hash_H (map (Z.lxor 0x5c) key) NUM_COMMITMENT_BITS_PER_BLOCK inner NUM_COMMITMENT_BITS [] 0 hash) as ->.
  { apply commitment_hash_H_empty. }
  pose proof (commitment_hash_H_correct (map (Z.lxor 0x5c) key) inner [] hash) as Hout.
  rewrite length_map, Hkl, Hil, app_nil_r in Hout.
  change (8 * Z.of_nat 64) with NUM_COMMITMENT_BITS_PER_BLOCK in Hout. change (8 * Z.of_nat 32) with NUM_COMMITMENT_BITS in Hout.
  apply Hout; try done.
  - apply Hx. unfold in_u. lia.
  - constructor.
  - rewrite length_app, length_map, Hkl, Hil. lia.
Qed.

Lemma commitment_hash_nested_witness :
  commitment_hash (replicate 20 2) [1; 2; 3] 24 (replicate 64 7) (replicate 32 0)
  = Ok (le_hash (replicate 64 0x5b ++ le_hash (replicate 64 0x31 ++ replicate 20 2 ++ [1; 2; 3]))).
Proof.
  apply (commitment_hash_nested (replicate 20 2) [1; 2; 3] (replicate 64 7) (replicate 32 0)).
  - apply Forall_replicate. unfold in_u. lia.
  - reflexivity.
  - repeat constructor; cbn; lia.
  - apply Forall_replicate. unfold in_u. lia.
  - reflexivity.
  - reflexivity.
  - vm_compute. reflexivity.
Defined.

(** [setcommitmentCK] copies the key. *)
Lemma setcommitmentCK_spec ck in_ :
  length ck = 20%nat -> length in_ = 20%nat -> setcommitmentCK ck in_ = Ok in_.
Proof.
  intros Hck Hin. unfold setcommitmentCK. change (Z.to_nat (NUM_CK_BITS / 8)) with 20%nat.
  destruct (for_upM_ind (fun i s => length s = 20%nat /\ take i s = take i in_) 0 20
    (fun i ck => b ← rd in_ (Z.of_nat i); wr ck (Z.of_nat i) b) ck) as (s & -> & Hs & Ht); [lia|done| |].
  - intros i s Hi [Hs Ht]. rewrite rd_Ok, res_bind_Ok, Nat2Z.id by lia.
    rewrite wr_Ok, Nat2Z.id by lia. eexists. split; [reflexivity|]. rewrite length_insert. split; [done|].
    rewrite (take_S_r _ _ (in_ !!! i)) by (apply list_lookup_insert_eq; lia).
    rewrite take_insert_ge, Ht by lia. symmetry. apply take_S_r. apply list_lookup_lookup_total_lt. lia.
  - by rewrite !take_ge in Ht by lia; subst.
Qed.
