(* ===== verification/Sha1.v ===== *)
(** [pepper/apps/sha_1.c]: SHA-1 of one padded block. *)
From Stdlib Require Import ZArith Lia.
From stdpp Require Import base numbers list.
From S2P Require Import Prelude ShaSpec.

Local Open Scope Z_scope.

(** ** The code *)

Definition LROT (x m : Z) : Z := Z.lor (u32 (Z.shiftl x m)) (Z.shiftr x (32 - m)).

(** The message schedule: sixteen words copied, sixty-four computed. *)
Definition sha1_words (msg : list Z) : list Z :=
  let w := for_up 0 16 (fun i w => <[i := msg !!! i]> w) (replicate 80 0) in
  for_up 16 80
    (fun i w => <[i := LROT (Z.lxor (Z.lxor (Z.lxor (w !!! (i - 3)%nat) (w !!! (i - 8)%nat))
                                       (w !!! (i - 14)%nat)) (w !!! (i - 16)%nat)) 1]> w) w.

Abbreviation sha1_regs := (Z * Z * Z * Z * Z)%type.

(** The locals [f] and [k] keep their values when no test holds. *)
Definition sha1_step (w : list Z) (i : nat) (s : sha1_regs * Z * Z) : sha1_regs * Z * Z :=
  let '((a, b, c, d, e), f, k) := s in
  let n := Z.of_nat i in
  let '(f, k) := if (0 <=? n) && (n <=? 19)
                 then (Z.lor (Z.land b c) (Z.land (u32 (Z.lnot b)) d), 0x5A827999) else (f, k) in
  let '(f, k) := if (20 <=? n) && (n <=? 39)
                 then (Z.lxor (Z.lxor b c) d, 0x6ED9EBA1) else (f, k) in
  let '(f, k) := if (40 <=? n) && (n <=? 59)
                 then (Z.lor (Z.lor (Z.land b c) (Z.land b d)) (Z.land c d), 0x8F1BBCDC) else (f, k) in
  let '(f, k) := if (60 <=? n) && (n <=? 79)
                 then (Z.lxor (Z.lxor b c) d, 0xCA62C1D6) else (f, k) in
  let temp := u32 (LROT a 5 + f + e + k + w !!! i) in
  let e := d in
  let d := c in
  let c := LROT b 30 in
  let b := a in
  let a := temp in
  ((a, b, c, d, e), f, k).

Definition compute (msg : list Z) : list Z :=
  let w := sha1_words msg in
  let h := [0x67452301; 0xEFCDAB89; 0x98BADCFE; 0x10325476; 0xC3D2E1F0] in
  let '((a, b, c, d, e), _, _) :=
    for_up 0 80 (sha1_step w) ((h !!! 0%nat, h !!! 1%nat, h !!! 2%nat, h !!! 3%nat, h !!! 4%nat), 0, 0) in
  [u32 (h !!! 0%nat + a); u32 (h !!! 1%nat + b); u32 (h !!! 2%nat + c);
   u32 (h !!! 3%nat + d); u32 (h !!! 4%nat + e)].

(** ** The standard *)

Module SHA1.

Definition ROTL (n x : Z) : Z := Z.lor (u32 (Z.shiftl x n)) (Z.shiftr x (32 - n)).

(** The word before last by 3, 8, 14 and 16 places. *)
Definition next_word (ws : list Z) : Z :=
  let t := length ws in
  ROTL 1 (Z.lxor (Z.lxor (Z.lxor (ws !!! (t - 3)%nat) (ws !!! (t - 8)%nat)) (ws !!! (t - 14)%nat))
            (ws !!! (t - 16)%nat)).

Lemma sha1_next_word_eq ws :
  let t := length ws in
  next_word ws = ROTL 1 (Z.lxor (Z.lxor (Z.lxor (ws !!! (t - 3)%nat) (ws !!! (t - 8)%nat))
                                   (ws !!! (t - 14)%nat)) (ws !!! (t - 16)%nat)).
Proof. reflexivity. Qed.

Abbreviation schedule := (extend next_word).

(** The logical function and the constant of each step, as the standard
    tabulates them (Parity in the second and fourth twenty steps). *)
Definition Ch (x y z : Z) : Z := Z.lxor (Z.land x y) (Z.land (u32 (Z.lnot x)) z).
Definition Parity (x y z : Z) : Z := Z.lxor (Z.lxor x y) z.
Definition Maj (x y z : Z) : Z := Z.lxor (Z.lxor (Z.land x y) (Z.land x z)) (Z.land y z).

Definition steps : list ((Z -> Z -> Z -> Z) * Z) :=
  replicate 20 (Ch, 0x5A827999) ++ replicate 20 (Parity, 0x6ED9EBA1)
  ++ replicate 20 (Maj, 0x8F1BBCDC) ++ replicate 20 (Parity, 0xCA62C1D6).

Definition step (r : sha1_regs) (x : (Z -> Z -> Z -> Z) * Z * Z) : sha1_regs :=
  let '(a, b, c, d, e) := r in
  let '(f, k, w) := x in
  (u32 (ROTL 5 a + f b c d + e + k + w), a, ROTL 30 b, c, d).

Definition H0 : list Z := [0x67452301; 0xEFCDAB89; 0x98BADCFE; 0x10325476; 0xC3D2E1F0].

(** One block from the initial hash value. *)
Definition block (msg : list Z) : list Z :=
  let '(a, b, c, d, e) := foldl step (0x67452301, 0xEFCDAB89, 0x98BADCFE, 0x10325476, 0xC3D2E1F0)
                            (combine steps (schedule 64 msg)) in
  zip_with (fun x y => u32 (x + y)) H0 [a; b; c; d; e].

(** The digest of "abc", from the standard. *)
Example block_abc :
  block [0x61626380; 0; 0; 0; 0; 0; 0; 0; 0; 0; 0; 0; 0; 0; 0; 24]
  = [0xa9993e36; 0x4706816a; 0xba3e2571; 0x7850c26c; 0x9cd0d89d].
Proof. vm_compute. reflexivity. Qed.

End SHA1.

(** ** They agree *)

Lemma testbit_u32 x i : Z.testbit (u32 x) i = Z.testbit x i && (i <? 32).
Proof.
  unfold wrapu. destruct (Z.ltb_spec i 32).
  - by rewrite Z.mod_pow2_bits_low, andb_true_r.
  - rewrite Z.mod_pow2_bits_high by lia. by rewrite andb_false_r.
Qed.

Lemma choose_eq b c d :
  Z.lor (Z.land b c) (Z.land (u32 (Z.lnot b)) d) = SHA1.Ch b c d.
Proof.
  unfold SHA1.Ch. apply Z.bits_inj'. intros i Hi.
  rewrite Z.lor_spec, Z.lxor_spec, !Z.land_spec, testbit_u32, Z.lnot_spec by done.
  by destruct (Z.testbit b i), (Z.testbit c i), (Z.testbit d i), (i <? 32).
Qed.

Lemma majority_eq b c d :
  Z.lor (Z.lor (Z.land b c) (Z.land b d)) (Z.land c d) = SHA1.Maj b c d.
Proof.
  unfold SHA1.Maj. apply Z.bits_inj'. intros i Hi.
  rewrite !Z.lor_spec, !Z.lxor_spec, !Z.land_spec.
  by destruct (Z.testbit b i), (Z.testbit c i), (Z.testbit d i).
Qed.

Lemma sha1_words_spec msg : length msg = 16%nat -> sha1_words msg = SHA1.schedule 64 msg.
Proof.
  intros Hm. unfold sha1_words.
  pose proof (for_up_fill 0 (fun i _ => msg !!! i) (replicate 80 0) msg) as Hcopy. rewrite Hm in Hcopy.
  rewrite Hcopy; [|rewrite length_replicate; lia|done|done].
  pose proof (extend_length SHA1.next_word 64 msg) as Hs. rewrite Hm in Hs.
  change (for_up 16 80) with (for_up (S := list Z) 16 (64 + 16)). rewrite <- Hs.
  change (drop 16 (replicate 80 0)) with (replicate 64 0).
  rewrite (for_up_fill 16 (fun i w => LROT (Z.lxor (Z.lxor (Z.lxor (w !!! (i - 3)%nat) (w !!! (i - 8)%nat))
    (w !!! (i - 14)%nat)) (w !!! (i - 16)%nat)) 1) (msg ++ replicate 64 0) (SHA1.schedule 64 msg)).
  - rewrite Hs, drop_ge by (rewrite length_app, Hm; done). apply app_nil_r.
  - rewrite Hs, length_app, Hm. cbn. lia.
  - rewrite <- Hm, take_app_length. symmetry. apply extend_prefix.
  - intros i w Hi Hw Ht. rewrite extend_word by lia. rewrite <- Ht. rewrite Hs in Hi.
    rewrite SHA1.sha1_next_word_eq. cbv zeta. rewrite length_take, Hw, length_app, Hm, length_replicate.
    rewrite Nat.min_l by lia. by rewrite !lookup_total_take_lt by lia.
Qed.

(** The tests of the loop select the function and the constant of the step. *)
Lemma sha1_step_spec w i r f k :
  (i < 80)%nat ->
  exists f' k', sha1_step w i (r, f, k)
    = (SHA1.step r (SHA1.steps !!! i, w !!! i), f', k').
Proof.
  destruct r as [[[[a b] c] d] e]. intros Hi. unfold sha1_step.
  assert (i < 20 \/ 20 <= i < 40 \/ 40 <= i < 60 \/ 60 <= i < 80)%nat as Hc by lia.
  destruct Hc as [Hc|[Hc|[Hc|Hc]]];
    repeat match goal with
    | |- context [?x <=? ?y] => first [rewrite (proj2 (Z.leb_le x y)) by lia | rewrite (proj2 (Z.leb_gt x y)) by lia]
    end; cbn [andb]; eexists _, _; unfold SHA1.steps.
  - rewrite lookup_total_app_l by (rewrite length_replicate; lia).
    rewrite lookup_total_replicate_2 by lia. by rewrite choose_eq.
  - rewrite lookup_total_app_r by (rewrite length_replicate; lia). rewrite length_replicate.
    rewrite lookup_total_app_l by (rewrite length_replicate; lia).
    by rewrite lookup_total_replicate_2 by lia.
  - rewrite !lookup_total_app_r by (rewrite ?length_replicate; lia). rewrite !length_replicate.
    rewrite lookup_total_app_l by (rewrite length_replicate; lia).
    rewrite lookup_total_replicate_2 by lia. by rewrite majority_eq.
  - rewrite !lookup_total_app_r by (rewrite ?length_replicate; lia). rewrite !length_replicate.
    by rewrite lookup_total_replicate_2 by lia.
Qed.

(** The computation is the standard's SHA-1 of one block of sixteen
    words: same schedule, same eighty steps with the function and constant
    of their range, same final addition. *)
Theorem sha1_compute_correct msg : length msg = 16%nat -> compute msg = SHA1.block msg.
Proof.
  intros Hm. unfold compute. rewrite sha1_words_spec by done. set (w := SHA1.schedule 64 msg).
  assert (length w = 80%nat) as Hw by (unfold w; rewrite extend_length, Hm; done).
  cbn [lookup_total list_lookup_total]. cbv zeta. unfold SHA1.block. fold w.
  set (r0 := (0x67452301, 0xEFCDAB89, 0x98BADCFE, 0x10325476, 0xC3D2E1F0)).
  assert (exists f k, for_up 0 80 (sha1_step w) (r0, 0, 0)
    = (foldl SHA1.step r0 (take 80 (combine SHA1.steps w)), f, k)) as (f & k & ->).
  { assert (length (combine SHA1.steps w) = 80%nat) as Hc by (rewrite length_combine, Hw; done).
    apply (for_up_ind (fun i s => exists f k, s = (foldl SHA1.step r0 (take i (combine SHA1.steps w)), f, k)));
      [lia|by exists 0, 0|].
    intros i s Hi (f & k & ->). destruct (sha1_step_spec w i (foldl SHA1.step r0 (take i (combine SHA1.steps w))) f k)
      as (f' & k' & ->); [lia|]. exists f', k'.
    assert (combine SHA1.steps w !! i = Some (SHA1.steps !!! i, w !!! i)) as Hci.
    { apply combine_lookup; [apply list_lookup_lookup_total_lt; cbn; lia|].
      apply list_lookup_lookup_total_lt. lia. }
    by rewrite (take_S_r _ _ _ Hci), foldl_app. }
  rewrite take_ge by (rewrite length_combine, Hw; cbn; lia).
  by destruct (foldl SHA1.step r0 _) as [[[[a b] c] d] e].
Qed.

Lemma sha1_compute_witness :
  compute [0x61626380; 0; 0; 0; 0; 0; 0; 0; 0; 0; 0; 0; 0; 0; 0; 24]
  = SHA1.block [0x61626380; 0; 0; 0; 0; 0; 0; 0; 0; 0; 0; 0; 0; 0; 0; 24].
Proof. apply sha1_compute_correct. reflexivity. Defined.
