(* ===== verification/HostSha1.v ===== *)
(** The hash class of the drivers, [pepper/common/sha1.cpp]: SHA-1 of a byte
    string of any length, and its hexadecimal digits. *)
From Stdlib Require Import ZArith Lia.
From stdpp Require Import base numbers list.
From S2P Require Import Prelude ShaSpec Sha1.

Local Open Scope Z_scope.

(** ** The code *)

Definition rol (value steps : Z) : Z := Z.lor (u32 (Z.shiftl value steps)) (Z.shiftr value (32 - steps)).

Definition clearWBuffert (buffert : list Z) : list Z := for_down 0 16 (fun pos buffert => <[pos := 0]> buffert) buffert.

(** [sha1macro(func,val)] *)
Definition sha1macro (func : Z -> Z -> Z -> Z) (val : Z) (w : list Z) (round : nat) (r : sha1_regs) : sha1_regs :=
  let '(a, b, c, d, e) := r in
  let t := u32 (rol a 5 + func b c d + e + val + w !!! round) in
  (t, a, rol b 30, c, d).

(** The word of a round from 16 on. *)
Definition next_w (w : list Z) (round : nat) : list Z :=
  <[round := rol (Z.lxor (Z.lxor (Z.lxor (w !!! (round - 3)%nat) (w !!! (round - 8)%nat)) (w !!! (round - 14)%nat)) (w !!! (round - 16)%nat)) 1]> w.

(** A loop of rounds that computes its words. *)
Definition rounds (lo hi : nat) (func : Z -> Z -> Z -> Z) (val : Z) (st : list Z * sha1_regs) : list Z * sha1_regs :=
  for_up lo hi (fun round '(w, r) => let w := next_w w round in (w, sha1macro func val w round r)) st.

Definition func_choose (b c d : Z) : Z := Z.lor (Z.land b c) (Z.land (u32 (Z.lnot b)) d).
Definition func_parity (b c d : Z) : Z := Z.lxor (Z.lxor b c) d.
Definition func_majority (b c d : Z) : Z := Z.lor (Z.lor (Z.land b c) (Z.land b d)) (Z.land c d).

Definition innerHash (result w : list Z) : list Z * list Z :=
  let r := (result !!! 0%nat, result !!! 1%nat, result !!! 2%nat, result !!! 3%nat, result !!! 4%nat) in
  let r := for_up 0 16 (fun round r => sha1macro func_choose 0x5a827999 w round r) r in
  let st := rounds 16 20 func_choose 0x5a827999 (w, r) in
  let st := rounds 20 40 func_parity 0x6ed9eba1 st in
  let st := rounds 40 60 func_majority 0x8f1bbcdc st in
  let '(w, (a, b, c, d, e)) := rounds 60 80 func_parity 0xca62c1d6 st in
  ([u32 (result !!! 0%nat + a); u32 (result !!! 1%nat + b); u32 (result !!! 2%nat + c);
    u32 (result !!! 3%nat + d); u32 (result !!! 4%nat + e)], w).

(** The sixteen words of the complete block that starts at [block]. *)
Definition load_block (sarray : list Z) (block : nat) (w : list Z) : res (list Z) :=
  for_upM 0 16 (fun roundPos w =>
    let currentBlock := (block + 4 * roundPos)%nat in
    b3 ← rd sarray (Z.of_nat (currentBlock + 3));
    b2 ← rd sarray (Z.of_nat (currentBlock + 2));
    b1 ← rd sarray (Z.of_nat (currentBlock + 1));
    b0 ← rd sarray (Z.of_nat currentBlock);
    wr w (Z.of_nat roundPos) (Z.lor (Z.lor (Z.lor b3 (u32 (Z.shiftl b2 8))) (u32 (Z.shiftl b1 16))) (u32 (Z.shiftl b0 24)))) w.

(** [(3 - (n & 3)) << 3] *)
Definition byte_shift (n : nat) : Z := Z.shiftl (3 - Z.land (Z.of_nat n) 3) 3.

(** [w[n >> 2] |= v] *)
Definition or_word (n : nat) (v : Z) (w : list Z) : res (list Z) :=
  x ← rd w (Z.shiftr (Z.of_nat n) 2); wr w (Z.shiftr (Z.of_nat n) 2) (u32 (Z.lor x v)).

(** The words of the result in the bytes of the hash. *)
Definition store_hash (result hash : list Z) : res (list Z) :=
  for_downM 0 20 (fun hashByte hash =>
    let n := Z.of_nat hashByte in
    r ← rd result (Z.shiftr n 2);
    wr hash n (u8 (Z.land (Z.shiftr r (Z.shiftl (Z.land (3 - n) 3) 3)) 0xff))) hash.

Definition calc (src : list Z) (bytelength : nat) (w hash : list Z) : res (list Z) :=
  let result := [0x67452301; 0xefcdab89; 0x98badcfe; 0x10325476; 0xc3d2e1f0] in
  '(result, w) ← for_upM 0 (bytelength / 64) (fun n '(result, w) =>
      w ← load_block src (64 * n) w;
      Ok (innerHash result w)) (result, w);
  let currentBlock := (64 * (bytelength / 64))%nat in
  let endCurrentBlock := (bytelength - currentBlock)%nat in
  let w := clearWBuffert w in
  w ← for_upM 0 endCurrentBlock (fun lastBlockBytes w =>
        b ← rd src (Z.of_nat (lastBlockBytes + currentBlock));
        or_word lastBlockBytes (u32 (Z.shiftl b (byte_shift lastBlockBytes))) w) w;
  w ← or_word endCurrentBlock (s32 (Z.shiftl 0x80 (byte_shift endCurrentBlock))) w;
  let '(result, w) := if (56 <=? endCurrentBlock)%nat then let '(result, w) := innerHash result w in (result, clearWBuffert w) else (result, w) in
  w ← wr w 15 (u32 (s32 (Z.shiftl (Z.of_nat bytelength) 3)));
  let '(result, w) := innerHash result w in
  store_hash result hash.

Definition hexDigits : list Z := [48; 49; 50; 51; 52; 53; 54; 55; 56; 57; 97; 98; 99; 100; 101; 102].

Definition toHexString (hash hexstring : list Z) : res (list Z) :=
  hexstring ← for_downM 0 20 (fun hashByte hexstring =>
    h ← rd hash (Z.of_nat hashByte);
    hi ← rd hexDigits (Z.land (Z.shiftr h 4) 0xf);
    hexstring ← wr hexstring (Z.of_nat (2 * hashByte)) hi;
    lo ← rd hexDigits (Z.land h 0xf);
    wr hexstring (Z.of_nat (2 * hashByte + 1)) lo) hexstring;
  wr hexstring 40 0.

(** ** The standard *)

(** SHA-1 of a byte string: the blocks of the padded string, one after the
    other. *)
Definition compress_words (H ws : list Z) : list Z :=
  let '(a, b, c, d, e) := foldl SHA1.step (H !!! 0%nat, H !!! 1%nat, H !!! 2%nat, H !!! 3%nat, H !!! 4%nat) (combine SHA1.steps (SHA1.schedule 64 ws)) in
  zip_with (fun x y => u32 (x + y)) H [a; b; c; d; e].

Definition sha1 (msg : list Z) : list Z :=
  flat_map (be_bytes 4) (foldl (fun H b => compress_words H (be_words b)) SHA1.H0 (chunks 64 (SHA256.pad msg))).

(** The digests of "abc" and of the two-block string of the standard. *)
Example sha1_abc : be_words (sha1 [97; 98; 99]) = [0xa9993e36; 0x4706816a; 0xba3e2571; 0x7850c26c; 0x9cd0d89d].
Proof. vm_compute. reflexivity. Qed.

(** The digits of a byte string. *)
Definition hex (bs : list Z) : list Z := flat_map (fun b => [hexDigits !!! Z.to_nat (b / 16); hexDigits !!! Z.to_nat (b mod 16)]) bs.

Example calc_two_blocks : calc (replicate 70 97) 70 (replicate 80 0) (replicate 20 0) = Ok (sha1 (replicate 70 97)).
Proof. vm_compute. reflexivity. Qed.

(** ** The rounds *)

Lemma steps_range i lo f k : (lo <= i < lo + 20)%nat -> drop lo SHA1.steps = replicate 20 (f, k) ++ drop (lo + 20) SHA1.steps -> SHA1.steps !!! i = (f, k).
Proof.
  intros Hi Hd. replace i with (lo + (i - lo))%nat by lia. rewrite <- lookup_total_drop, Hd, lookup_total_app_l by (rewrite length_replicate; lia).
  apply lookup_total_replicate_2. lia.
Qed.

Section Rounds.
Context (ws : list Z) (r0 : sha1_regs).
Hypothesis ws_length : length ws = 16%nat.

Definition sched : list Z := SHA1.schedule 64 ws.
Definition after (i : nat) : sha1_regs := foldl SHA1.step r0 (take i (combine SHA1.steps sched)).

Lemma sched_length : length sched = 80%nat.
Proof. unfold sched. by rewrite extend_length, ws_length. Qed.

Lemma sched_prefix : take 16 sched = ws.
Proof. unfold sched. rewrite <- ws_length. apply extend_prefix. Qed.

Lemma sched_word i : (16 <= i < 80)%nat -> sched !!! i = SHA1.next_word (take i sched).
Proof. intros Hi. apply extend_word. rewrite ws_length. lia. Qed.

Lemma after_step i f k : (i < 80)%nat -> SHA1.steps !!! i = (f, k) -> after (S i) = SHA1.step (after i) (f, k, sched !!! i).
Proof.
  intros Hi Hs. unfold after. assert (combine SHA1.steps sched !! i = Some (f, k, sched !!! i)) as Hc.
  { apply combine_lookup; [rewrite <- Hs|]; apply list_lookup_lookup_total_lt; [cbn; lia|rewrite sched_length; lia]. }
  by rewrite (take_S_r _ _ _ Hc), foldl_app.
Qed.

Lemma macro_step func f k w i : (i < 80)%nat -> SHA1.steps !!! i = (f, k) -> (forall x y z, func x y z = f x y z) -> w !!! i = sched !!! i ->
  sha1macro func k w i (after i) = after (S i).
Proof.
  intros Hi Hs Hf Hw. rewrite (after_step i f k Hi Hs). unfold sha1macro, SHA1.step. destruct (after i) as [[[[a b] c] d] e]. by rewrite Hf, Hw.
Qed.

(** After the rounds below [i], of which the first sixteen take the words as
    they are. *)
Definition reached (i : nat) (st : list Z * sha1_regs) : Prop :=
  length st.1 = 80%nat /\ take i st.1 = take i sched /\ st.2 = after i.

Lemma next_w_spec w i : (16 <= i < 80)%nat -> length w = 80%nat -> take i w = take i sched -> take (S i) (next_w w i) = take (S i) sched /\ length (next_w w i) = 80%nat.
Proof.
  intros Hi Hw Ht. unfold next_w. rewrite length_insert. split; [|done].
  assert (forall j, (j < i)%nat -> w !!! j = sched !!! j) as Hj by (intros j Hj; rewrite <- (lookup_total_take_lt w i), Ht, lookup_total_take_lt by lia; done).
  rewrite !Hj by lia.
  assert (sched !! i = Some (sched !!! i)) as Hs by (apply list_lookup_lookup_total_lt; rewrite sched_length; lia).
  erewrite take_S_r by (apply list_lookup_insert_eq; lia). rewrite take_insert_ge, Ht, (take_S_r _ _ _ Hs) by lia. do 2 f_equal.
  rewrite (sched_word i), SHA1.sha1_next_word_eq by lia. cbv zeta. rewrite length_take, sched_length, Nat.min_l by lia. rewrite !lookup_total_take_lt by lia. unfold rol, SHA1.ROTL. reflexivity.
Qed.

Lemma rounds_reached lo hi func f k st : (16 <= lo <= hi)%nat -> (hi <= 80)%nat -> (forall i, (lo <= i < hi)%nat -> SHA1.steps !!! i = (f, k)) ->
  (forall x y z, func x y z = f x y z) -> reached lo st -> reached hi (rounds lo hi func k st).
Proof.
  intros Hlo Hhi Hsteps Hf Hst. unfold rounds. apply (for_up_ind reached); [lia|done|].
  intros i [w r] Hi (Hw & Ht & Hr). cbn [fst snd] in *. destruct (next_w_spec w i) as [Ht' Hw']; [lia|done|done|].
  split; [done|]. split; [done|]. cbn [snd]. rewrite Hr. apply (macro_step _ f); [lia|by apply Hsteps|done|].
  rewrite <- (lookup_total_take_lt _ (S i)), Ht', lookup_total_take_lt by lia. done.
Qed.

End Rounds.

(** The registers of the hash value, and the addition at the end. *)
Definition regs_of (H : list Z) : sha1_regs := (H !!! 0%nat, H !!! 1%nat, H !!! 2%nat, H !!! 3%nat, H !!! 4%nat).
Definition add_to (H : list Z) (r : sha1_regs) : list Z := let '(a, b, c, d, e) := r in zip_with (fun x y => u32 (x + y)) H [a; b; c; d; e].

Lemma compress_after H ws : length ws = 16%nat -> compress_words H ws = add_to H (after ws (regs_of H) 80).
Proof.
  intros Hws. unfold after. rewrite take_ge; [unfold compress_words, add_to, regs_of, sched; reflexivity|]. rewrite length_combine, (sched_length ws Hws). cbn. lia.
Qed.

Lemma first_rounds ws r0 w : length ws = 16%nat -> length w = 80%nat -> take 16 w = ws ->
  reached ws r0 16 (w, for_up 0 16 (fun round r => sha1macro func_choose 0x5a827999 w round r) r0).
Proof.
  intros Hws Hw Ht. split; [done|]. split; [by rewrite sched_prefix|]. cbn [snd]. apply (for_up_ind (fun i r => r = after ws r0 i)); [lia|reflexivity|].
  intros i r Hi ->. apply (macro_step ws r0 Hws _ SHA1.Ch); [lia|apply (steps_range i 0); [lia|reflexivity]|apply choose_eq|].
  rewrite <- (lookup_total_take_lt w 16), <- (lookup_total_take_lt (sched ws) 16) by lia. by rewrite (sched_prefix ws Hws), Ht.
Qed.

Lemma all_rounds ws r0 st : length ws = 16%nat -> reached ws r0 16 st ->
  reached ws r0 80 (rounds 60 80 func_parity 0xca62c1d6 (rounds 40 60 func_majority 0x8f1bbcdc
    (rounds 20 40 func_parity 0x6ed9eba1 (rounds 16 20 func_choose 0x5a827999 st)))).
Proof.
  intros Hws H16.
  apply (rounds_reached ws r0 Hws 60 80 func_parity SHA1.Parity 0xca62c1d6); [lia|lia|intros i Hi; apply (steps_range i 60); [lia|reflexivity]|reflexivity|].
  apply (rounds_reached ws r0 Hws 40 60 func_majority SHA1.Maj 0x8f1bbcdc); [lia|lia|intros i Hi; apply (steps_range i 40); [lia|reflexivity]|apply majority_eq|].
  apply (rounds_reached ws r0 Hws 20 40 func_parity SHA1.Parity 0x6ed9eba1); [lia|lia|intros i Hi; apply (steps_range i 20); [lia|reflexivity]|reflexivity|].
  apply (rounds_reached ws r0 Hws 16 20 func_choose SHA1.Ch 0x5a827999); [lia|lia|intros i Hi; apply (steps_range i 0); [lia|reflexivity]|apply choose_eq|done].
Qed.

Lemma innerHash_spec result w : length result = 5%nat -> length w = 80%nat ->
  exists w', innerHash result w = (compress_words result (take 16 w), w') /\ length w' = 80%nat.
Proof.
  intros Hres Hw. assert (length (take 16 w) = 16%nat) as Hws by (rewrite length_take; lia). rewrite (compress_after _ _ Hws).
  pose proof (all_rounds (take 16 w) (regs_of result) _ Hws (first_rounds _ (regs_of result) w Hws Hw eq_refl)) as Hall.
  unfold innerHash. fold (regs_of result). destruct (rounds 60 80 _ _ _) as [w' r]. destruct Hall as (Hw' & _ & Hr). cbn [fst snd] in *. rewrite <- Hr.
  exists w'. split; [|done]. destruct r as [[[[a b] c] d] e]. destruct result as [|h0 [|h1 [|h2 [|h3 [|h4 [|]]]]]]; try discriminate Hres. reflexivity.
Qed.

Lemma compress_words_length H ws : length H = 5%nat -> length (compress_words H ws) = 5%nat.
Proof. intros HH. unfold compress_words. destruct (foldl _ _ _) as [[[[a b] c] d] e]. by rewrite length_zip_with, HH. Qed.

(** ** Bytes into words *)

Definition bytes (l : list Z) : Prop := Forall (in_u 8) l.

Lemma byte_at l i : bytes l -> (i < length l)%nat -> in_u 8 (l !!! i).
Proof. intros Hl Hi. eapply Forall_lookup_1; [exact Hl|]. by apply list_lookup_lookup_total_lt. Qed.

Lemma word_lor b0 b1 b2 b3 : in_u 8 b0 -> in_u 8 b1 -> in_u 8 b2 -> in_u 8 b3 ->
  Z.lor (Z.lor (Z.lor (Z.shiftl b0 24) (Z.shiftl b1 16)) (Z.shiftl b2 8)) b3 = b0 * 2 ^ 24 + b1 * 2 ^ 16 + b2 * 2 ^ 8 + b3.
Proof.
  unfold in_u. intros H0 H1 H2 H3. rewrite <- !Z.lor_assoc. rewrite (lor_shiftl_add b2), (lor_shiftl_add b1), (lor_shiftl_add b0) by lia. lia.
Qed.

Lemma be_words_app n a b : length a = (4 * n)%nat -> be_words (a ++ b) = be_words a ++ be_words b.
Proof.
  revert a. induction n as [|n IH]; intros a Ha; [by destruct a|]. destruct a as [|b0 [|b1 [|b2 [|b3 a]]]]; cbn in Ha; try lia. cbn. f_equal. apply IH. lia.
Qed.

Lemma u32_shift b n : in_u 8 b -> 0 <= n <= 24 -> u32 (Z.shiftl b n) = Z.shiftl b n.
Proof.
  unfold in_u. intros Hb Hn. apply wrapu_small. unfold in_u. rewrite Z.shiftl_mul_pow2 by lia. split; [nia|].
  assert (2 ^ n <= 2 ^ 24) by (apply Z.pow_le_mono_r; lia). nia.
Qed.

Lemma load_block_spec sarray block w : bytes sarray -> (block + 64 <= length sarray)%nat -> length w = 80%nat ->
  exists w', load_block sarray block w = Ok w' /\ length w' = 80%nat /\ take 16 w' = be_words (take 64 (drop block sarray)).
Proof.
  intros Hb Hlen Hw. set (blk := take 64 (drop block sarray)). assert (length blk = 64%nat) as Hblk by (unfold blk; rewrite length_take, length_drop; lia).
  pose proof (be_words_length 16 blk Hblk) as Hws. unfold load_block.
  match goal with |- context [for_upM 0 16 ?body w] =>
    destruct (for_upM_ind (fun i w' => length w' = 80%nat /\ take i w' = take i (be_words blk)) 0 16 body w) as (w' & -> & Hw' & Ht); [lia|done| |] end.
  - intros i w' Hi [Hw' Ht]. cbv zeta. rewrite !rd_Ok, !res_bind_Ok, wr_Ok by lia. eexists. split; [reflexivity|]. rewrite length_insert. split; [done|].
    rewrite !Nat2Z.id. set (j := (block + 4 * i)%nat).
    assert (forall m, (m < 4)%nat -> sarray !!! (j + m)%nat = blk !!! (4 * i + m)%nat) as Hj.
    { intros m Hm. unfold blk. rewrite lookup_total_take_lt, lookup_total_drop by lia. f_equal. lia. }
    assert (forall m, (m < 4)%nat -> in_u 8 (sarray !!! (j + m)%nat)) as Hin by (intros m Hm; apply byte_at; [done|lia]).
    assert (be_words blk !! i = Some (be_words blk !!! i)) as Hwi by (apply list_lookup_lookup_total_lt; lia).
    erewrite take_S_r by (apply list_lookup_insert_eq; lia). rewrite take_insert_ge, Ht, (take_S_r _ _ _ Hwi) by lia. do 2 f_equal.
    pose proof (Hin 0%nat ltac:(lia)) as H0. pose proof (Hj 0%nat ltac:(lia)) as J0. rewrite (Nat.add_0_r j) in H0, J0. rewrite (Nat.add_0_r (4 * i)) in J0. rewrite !u32_shift by (try lia; apply Hin || apply H0; lia).
    rewrite be_words_lookup by lia. rewrite <- J0, <- (Hj 1%nat), <- (Hj 2%nat), <- (Hj 3%nat) by lia. rewrite <- word_lor by (apply Hin || apply H0; lia).
    rewrite (Z.lor_comm _ (Z.shiftl (sarray !!! j) 24)), (Z.lor_comm (Z.lor _ _) (Z.shiftl _ 16)), (Z.lor_comm _ (Z.shiftl _ 8)), !Z.lor_assoc. done.
  - exists w'. split; [done|]. split; [done|]. rewrite Ht. apply take_ge. lia.
Qed.

(** One more byte in the word of its place, which held 0. *)
Lemma byte_shift_spec n : byte_shift n = 8 * (3 - Z.of_nat (n mod 4)).
Proof.
  unfold byte_shift. change 3 with (Z.ones 2) at 2. rewrite Z.land_ones by lia. change (2 ^ 2) with (Z.of_nat 4). rewrite <- Nat2Z.inj_mod, Z.shiftl_mul_pow2 by lia. lia.
Qed.

Lemma lor_into r b0 b1 b2 b3 b : (r < 4)%nat -> in_u 8 b0 -> in_u 8 b1 -> in_u 8 b2 -> in_u 8 b3 -> in_u 8 b -> [b0; b1; b2; b3] !!! r = 0 ->
  let c := <[r := b]> [b0; b1; b2; b3] in
  Z.lor (b0 * 2 ^ 24 + b1 * 2 ^ 16 + b2 * 2 ^ 8 + b3) (Z.shiftl b (8 * (3 - Z.of_nat r))) = c !!! 0%nat * 2 ^ 24 + c !!! 1%nat * 2 ^ 16 + c !!! 2%nat * 2 ^ 8 + c !!! 3%nat.
Proof.
  intros Hr H0 H1 H2 H3 Hb Hz. rewrite <- (word_lor b0 b1 b2 b3) by done.
  destruct r as [|[|[|[|r]]]]; [..|lia]; cbn in Hz; subst; cbn -[Z.mul Z.add Z.pow Z.shiftl Z.lor];
    rewrite <- word_lor by done; rewrite Z.shiftl_0_l || idtac; apply Z.bits_inj'; intros i Hi; rewrite !Z.lor_spec, ?Z.bits_0.
  - change (8 * (3 - Z.of_nat 0)) with 24. by destruct (Z.testbit (Z.shiftl b1 16) i), (Z.testbit (Z.shiftl b2 8) i), (Z.testbit b3 i), (Z.testbit (Z.shiftl b 24) i).
  - change (8 * (3 - Z.of_nat 1)) with 16. by destruct (Z.testbit (Z.shiftl b0 24) i), (Z.testbit (Z.shiftl b2 8) i), (Z.testbit b3 i), (Z.testbit (Z.shiftl b 16) i).
  - change (8 * (3 - Z.of_nat 2)) with 8. by destruct (Z.testbit (Z.shiftl b0 24) i), (Z.testbit (Z.shiftl b1 16) i), (Z.testbit b3 i), (Z.testbit (Z.shiftl b 8) i).
  - change (8 * (3 - Z.of_nat 3)) with 0. rewrite Z.shiftl_0_r. by destruct (Z.testbit (Z.shiftl b0 24) i), (Z.testbit (Z.shiftl b1 16) i), (Z.testbit (Z.shiftl b2 8) i), (Z.testbit b i).
Qed.

Lemma be_words_insert B n b : length B = 64%nat -> bytes B -> (n < 64)%nat -> in_u 8 b -> B !!! n = 0 ->
  be_words (<[n := b]> B) = <[(n / 4)%nat := Z.lor (be_words B !!! (n / 4)%nat) (Z.shiftl b (byte_shift n))]> (be_words B).
Proof.
  intros HB Hbytes Hn Hb Hz. pose proof (be_words_length 16 B HB) as Hw. pose proof (be_words_length 16 (<[n := b]> B) ltac:(by rewrite length_insert)) as Hw'.
  apply (list_eq_same_length _ _ 16); [by rewrite length_insert|done|]. intros i x y Hi Hx Hy. apply list_lookup_total_correct in Hx as <-, Hy as <-.
  rewrite be_words_lookup by (rewrite length_insert; lia). pose proof (Nat.div_mod_eq n 4) as Hdm. pose proof (Nat.mod_upper_bound n 4 ltac:(lia)) as Hmod.
  destruct (decide (i = n / 4)%nat) as [->|Hne].
  - rewrite list_lookup_total_insert_eq by lia. rewrite be_words_lookup, byte_shift_spec by lia. set (q := (n / 4)%nat) in *. set (r := (n mod 4)%nat) in *.
    assert (forall m, (m < 4)%nat -> [B !!! (4 * q)%nat; B !!! (4 * q + 1)%nat; B !!! (4 * q + 2)%nat; B !!! (4 * q + 3)%nat] !!! m = B !!! (4 * q + m)%nat) as Hb4.
    { intros m Hm. destruct m as [|[|[|[|m]]]]; [by rewrite Nat.add_0_r|done..|lia]. }
    rewrite (lor_into r); [|done|apply byte_at; [done|lia]..|done|by rewrite Hb4, <- Hdm by done]. cbv zeta.
    assert (forall m, (m < 4)%nat -> <[n := b]> B !!! (4 * q + m)%nat = <[r := b]> [B !!! (4 * q)%nat; B !!! (4 * q + 1)%nat; B !!! (4 * q + 2)%nat; B !!! (4 * q + 3)%nat] !!! m) as Hc.
    { intros m Hm. destruct (decide (m = r)) as [->|Hmr].
      - rewrite <- Hdm, !list_lookup_total_insert_eq by (cbn; lia). done.
      - rewrite !list_lookup_total_insert_ne by lia. by rewrite Hb4. }
    rewrite <- !Hc by lia. by rewrite Nat.add_0_r.
  - rewrite !list_lookup_total_insert_ne by lia. rewrite be_words_lookup by lia. done.
Qed.

Definition packed (w B : list Z) : Prop := length w = 80%nat /\ length B = 64%nat /\ bytes B /\ take 16 w = be_words B.

Lemma word_range B i : length B = 64%nat -> bytes B -> (i < 16)%nat -> in_u 32 (be_words B !!! i).
Proof.
  intros HB Hb Hi. rewrite be_words_lookup by lia.
  pose proof (byte_at B (4 * i) Hb ltac:(lia)). pose proof (byte_at B (4 * i + 1) Hb ltac:(lia)). pose proof (byte_at B (4 * i + 2) Hb ltac:(lia)). pose proof (byte_at B (4 * i + 3) Hb ltac:(lia)).
  unfold in_u in *. lia.
Qed.

Lemma or_word_spec n v b w B : packed w B -> (n < 64)%nat -> in_u 8 b -> B !!! n = 0 ->
  (forall x, u32 (Z.lor x v) = u32 (Z.lor x (Z.shiftl b (byte_shift n)))) ->
  exists w', or_word n v w = Ok w' /\ packed w' (<[n := b]> B).
Proof.
  intros (Hw & HB & Hb & Ht) Hn Hin Hz Hv. unfold or_word. rewrite Z.shiftr_div_pow2 by lia. change (2 ^ 2) with (Z.of_nat 4). rewrite <- Nat2Z.inj_div.
  assert (n / 4 < 16)%nat as Hq by (apply Nat.Div0.div_lt_upper_bound; lia).
  rewrite rd_Ok, res_bind_Ok, wr_Ok by lia. eexists. split; [reflexivity|]. rewrite !Nat2Z.id, Hv.
  rewrite <- (lookup_total_take_lt w 16), Ht by lia. split; [by rewrite length_insert|]. split; [by rewrite length_insert|]. split; [by apply Forall_insert|].
  rewrite be_words_insert by done. rewrite take_insert_lt by lia. rewrite Ht. f_equal. apply wrapu_small.
  pose proof (be_words_insert B n b HB Hb Hn Hin Hz) as Hins.
  pose proof (word_range (<[n := b]> B) (n / 4) ltac:(by rewrite length_insert) ltac:(by apply Forall_insert) Hq) as Hr.
  rewrite Hins, list_lookup_total_insert_eq in Hr by (rewrite (be_words_length 16 B HB); lia). done.
Qed.

(** ** The last block *)

Lemma testbit_u32_low x i : 0 <= i < 32 -> Z.testbit (u32 x) i = Z.testbit x i.
Proof. intros Hi. rewrite testbit_u32. rewrite (proj2 (Z.ltb_lt _ _)) by lia. by rewrite andb_true_r. Qed.

Lemma u32_s32 x : u32 (s32 x) = u32 x.
Proof. unfold wrapu. by rewrite wraps_mod by lia. Qed.

Lemma u32_lor x y y' : u32 y = u32 y' -> u32 (Z.lor x y) = u32 (Z.lor x y').
Proof.
  intros Hy. apply Z.bits_inj'. intros i Hi. rewrite !testbit_u32, !Z.lor_spec. destruct (Z.ltb_spec i 32); [|by rewrite !andb_false_r].
  rewrite <- (testbit_u32_low y i), <- (testbit_u32_low y' i), Hy by lia. done.
Qed.

Lemma clear_spec w : length w = 80%nat -> packed (clearWBuffert w) (replicate 64 0).
Proof.
  intros Hw. assert (length (clearWBuffert w) = 80%nat /\ forall j, (0 <= j < 16)%nat -> clearWBuffert w !!! j = 0) as [Hl Hz].
  { unfold clearWBuffert. apply (for_down_ind (fun i w' => length w' = 80%nat /\ forall j, (i <= j < 16)%nat -> w' !!! j = 0)); [lia|split; [done|intros j Hj; lia]|].
    intros i w' Hi [Hw' Hz]. rewrite length_insert. split; [done|]. intros j Hj. destruct (decide (j = i)) as [->|Hne]; [by rewrite list_lookup_total_insert_eq by lia|].
    rewrite list_lookup_total_insert_ne by lia. apply Hz. lia. }
  split; [done|]. split; [done|]. split; [by apply Forall_replicate|]. change (be_words (replicate 64 0)) with (replicate 16 0).
  apply (list_eq_same_length _ _ 16); [done|rewrite length_take; lia|]. intros i x y Hi Hx Hy. apply list_lookup_total_correct in Hx as <-, Hy as <-.
  rewrite lookup_total_take_lt, lookup_total_replicate_2 by lia. apply Hz. lia.
Qed.

Definition partial (rest : list Z) (m : nat) : list Z := take m rest ++ replicate (64 - m) 0.

Lemma partial_insert rest m b : (m < 64)%nat -> rest !! m = Some b -> <[m := b]> (partial rest m) = partial rest (S m).
Proof.
  intros Hm Hb. pose proof (lookup_lt_Some _ _ _ Hb). unfold partial. rewrite insert_app_r_alt by (rewrite length_take; lia). rewrite length_take, Nat.min_l, Nat.sub_diag by lia.
  replace (64 - m)%nat with (S (64 - S m)) by lia. cbn [replicate insert list_insert]. by rewrite (take_S_r _ _ _ Hb), <- app_assoc.
Qed.

Lemma partial_zero rest m : (m < 64)%nat -> (m <= length rest)%nat -> partial rest m !!! m = 0.
Proof.
  intros Hm Hl. unfold partial. rewrite lookup_total_app_r by (rewrite length_take; lia). rewrite length_take, Nat.min_l, Nat.sub_diag by lia.
  by rewrite lookup_total_replicate_2 by lia.
Qed.

(** The rest of the message and the bit after it. *)
Lemma last_bytes_spec src cb w : bytes src -> (cb <= length src)%nat -> (length src - cb < 64)%nat -> packed w (replicate 64 0) ->
  let rest := drop cb src in
  exists w1 w2, for_upM 0 (length rest) (fun lastBlockBytes w =>
      b ← rd src (Z.of_nat (lastBlockBytes + cb)); or_word lastBlockBytes (u32 (Z.shiftl b (byte_shift lastBlockBytes))) w) w = Ok w1 /\
    or_word (length rest) (s32 (Z.shiftl 0x80 (byte_shift (length rest)))) w1 = Ok w2 /\ packed w2 (rest ++ [0x80] ++ replicate (63 - length rest) 0).
Proof.
  intros Hsrc Hcb Hr Hw rest. assert (length rest = length src - cb)%nat as Hrest by (unfold rest; by rewrite length_drop).
  assert (forall m, 0 <= byte_shift m <= 24) as Hshift by (intros m; rewrite byte_shift_spec; pose proof (Nat.mod_upper_bound m 4 ltac:(lia)); lia).
  destruct (for_upM_ind (fun m w => packed w (partial rest m)) 0 (length rest) (fun lastBlockBytes w =>
      b ← rd src (Z.of_nat (lastBlockBytes + cb)); or_word lastBlockBytes (u32 (Z.shiftl b (byte_shift lastBlockBytes))) w) w) as (w1 & -> & Hw1); [lia|done| |].
  - intros m w1 Hm Hw1. rewrite rd_Ok, res_bind_Ok, Nat2Z.id by lia. assert (in_u 8 (src !!! (m + cb)%nat)) as Hin by (apply byte_at; [done|lia]).
    assert (rest !! m = Some (src !!! (m + cb)%nat)) as Hm'. { unfold rest. rewrite lookup_drop, Nat.add_comm. apply list_lookup_lookup_total_lt. lia. }
    destruct (or_word_spec m (u32 (Z.shiftl (src !!! (m + cb)%nat) (byte_shift m))) (src !!! (m + cb)%nat) w1 (partial rest m) Hw1) as (w2 & Heq & Hw2); [lia|done|apply partial_zero; lia|intros x; by rewrite u32_shift|].
    exists w2. split; [done|]. by rewrite (partial_insert rest m _ ltac:(lia) Hm') in Hw2.
  - destruct (or_word_spec (length rest) (s32 (Z.shiftl 0x80 (byte_shift (length rest)))) 0x80 w1 (partial rest (length rest)) Hw1) as (w2 & Heq & Hw2); [lia|done|apply partial_zero; lia|intros x; apply u32_lor, u32_s32|].
    exists w1, w2. split; [done|]. split; [done|]. replace (rest ++ [0x80] ++ replicate (63 - length rest) 0) with (<[length rest := 0x80]> (partial rest (length rest))); [done|].
    unfold partial. rewrite take_ge by lia. rewrite insert_app_r_alt, Nat.sub_diag by lia. by replace (64 - length rest)%nat with (S (63 - length rest)) by lia.
Qed.

(** The last two words of a block that ends with a length below 2^32. *)
Lemma be_words_length_bytes pre n : length pre = 56%nat -> 0 <= n < 2 ^ 32 ->
  be_words (pre ++ be_bytes 8 n) = <[15%nat := n]> (be_words (pre ++ replicate 8 0)).
Proof.
  intros Hpre Hn. rewrite !(be_words_app 14) by done. rewrite insert_app_r_alt by (rewrite (be_words_length 14) by done; lia). rewrite (be_words_length 14) by done. f_equal.
  cbn [be_words replicate Nat.sub insert list_insert]. unfold be_bytes. cbn [seq map be_words].
  assert (forall k, u8 (Z.shiftr n k) = Z.shiftr n k mod 256) as Hu by done. rewrite !Hu, !Z.shiftr_div_pow2 by (cbn; lia). cbn -[Z.div Z.modulo Z.mul Z.add Z.pow].
  change (2 ^ (8 * 7)) with (2 ^ 56). f_equal; [|f_equal].
  - rewrite !Z.div_small by (cbn; lia). done.
  - rewrite Z.pow_0_r, Z.div_1_r. cbn in *. Z.to_euclidean_division_equations. nia.
Qed.

(** ** The digest *)

Lemma digest_byte st j : length st = 5%nat -> (j < 20)%nat -> flat_map (be_bytes 4) st !!! j = u8 (Z.shiftr (st !!! (j / 4)%nat) (byte_shift j)).
Proof.
  intros Hst Hj. destruct st as [|s0 [|s1 [|s2 [|s3 [|s4 [|]]]]]]; try discriminate Hst.
  do 20 (destruct j as [|j]; [reflexivity|]). lia.
Qed.

Lemma low_byte x : u8 (Z.land x 0xff) = u8 x.
Proof. change 0xff with (Z.ones 8). rewrite Z.land_ones by lia. unfold wrapu. by rewrite Z.mod_mod by lia. Qed.

(** [(3 - n) & 3] is the distance of byte [n] from the end of its word. *)
Lemma end_shift n : Z.shiftl (Z.land (3 - Z.of_nat n) 3) 3 = byte_shift n.
Proof.
  rewrite byte_shift_spec. rewrite (Z.land_ones (3 - Z.of_nat n) 2 ltac:(lia) : Z.land (3 - Z.of_nat n) 3 = _), Z.shiftl_mul_pow2 by lia. change (2 ^ 2) with 4. pose proof (Nat.div_mod_eq n 4) as Hdm. pose proof (Nat.mod_upper_bound n 4 ltac:(lia)).
  replace (3 - Z.of_nat n) with (3 - Z.of_nat (n mod 4) + (- Z.of_nat (n / 4)) * 4) by lia. rewrite Z.mod_add, Z.mod_small by lia. lia.
Qed.

Lemma store_spec result hash : length result = 5%nat -> length hash = 20%nat ->
  store_hash result hash = Ok (flat_map (be_bytes 4) result).
Proof.
  intros Hres Hhash. unfold store_hash. match goal with |- for_downM 0 20 ?body hash = _ =>
    destruct (for_downM_ind (fun i h => length h = 20%nat /\ forall j, (i <= j < 20)%nat -> h !!! j = flat_map (be_bytes 4) result !!! j) 0 20 body hash) as (h & -> & Hh & Heq) end; [lia|split; [done|intros j Hj; lia]| |].
  - intros i h Hi [Hh Heq]. cbv zeta. rewrite Z.shiftr_div_pow2 by lia. change (2 ^ 2) with (Z.of_nat 4). rewrite <- Nat2Z.inj_div.
    assert (i / 4 < 5)%nat as Hq by (apply Nat.Div0.div_lt_upper_bound; lia). rewrite rd_Ok, res_bind_Ok, wr_Ok by lia. eexists. split; [reflexivity|]. rewrite length_insert. split; [done|].
    intros j Hj. rewrite !Nat2Z.id. destruct (decide (j = i)) as [->|Hne]; [|rewrite list_lookup_total_insert_ne by lia; apply Heq; lia].
    rewrite list_lookup_total_insert_eq, digest_byte, low_byte, end_shift by (done || lia). done.
  - f_equal. apply (list_eq_same_length _ _ 20); [|done|].
    + destruct result as [|s0 [|s1 [|s2 [|s3 [|s4 [|]]]]]]; try discriminate Hres. done.
    + intros i x y Hi Hx Hy. apply list_lookup_total_correct in Hx as <-, Hy as <-. apply Heq. lia.
Qed.

(** ** Results *)

Lemma absorb_words_length bs H : length H = 5%nat -> length (foldl (fun H b => compress_words H (be_words b)) H bs) = 5%nat.
Proof. revert H. induction bs as [|b bs IH]; intros H HH; cbn; [done|]. by apply IH, compress_words_length. Qed.

#[local] Opaque compress_words.

(** The complete blocks. *)
Lemma blocks_spec src w : bytes src -> length w = 80%nat ->
  let q := (length src / 64)%nat in
  exists w', for_upM 0 q (fun n '(result, w) => w ← load_block src (64 * n) w; Ok (innerHash result w)) (SHA1.H0, w) =
    Ok (foldl (fun H b => compress_words H (be_words b)) SHA1.H0 (chunks 64 (take (64 * q) src)), w') /\ length w' = 80%nat.
Proof.
  intros Hsrc Hw q. assert (64 * q <= length src)%nat as Hq by (unfold q; apply Nat.Div0.mul_div_le).
  destruct (chunks_whole 64 q (take (64 * q) src)) as [Hlen Hlk]; [lia|rewrite length_take; lia|]. set (bs := chunks 64 (take (64 * q) src)) in *.
  destruct (for_upM_ind (fun n '(result, w) => result = foldl (fun H b => compress_words H (be_words b)) SHA1.H0 (take n bs) /\ length w = 80%nat) 0 q
    (fun n '(result, w) => w ← load_block src (64 * n) w; Ok (innerHash result w)) (SHA1.H0, w)) as ([result w'] & -> & -> & Hw'); [lia|done| |].
  - intros n [result w'] Hn [-> Hw']. destruct (load_block_spec src (64 * n) w' Hsrc) as (w1 & -> & Hw1 & Ht1); [lia|done|]. rewrite res_bind_Ok.
    destruct (innerHash_spec (foldl (fun H b => compress_words H (be_words b)) SHA1.H0 (take n bs)) w1) as (w2 & -> & Hw2); [by apply absorb_words_length|done|].
    eexists. split; [reflexivity|]. split; [|done]. rewrite Ht1. rewrite (take_S_r _ _ _ (Hlk n ltac:(lia))), foldl_app. cbn [foldl]. do 2 f_equal.
    replace (64 * q)%nat with (64 * n + 64 * (q - n))%nat by lia. rewrite <- take_drop_commute, take_take. do 2 f_equal. lia.
  - exists w'. split; [|done]. by rewrite take_ge by lia.
Qed.

(** The padded string: its complete blocks, and one or two more. *)
Lemma chunks_pad msg : let q := (length msg / 64)%nat in let rest := drop (64 * q) msg in
  chunks 64 (SHA256.pad msg) = chunks 64 (take (64 * q) msg) ++
    (if (length rest <? 56)%nat then [rest ++ [0x80] ++ replicate (55 - length rest) 0 ++ be_bytes 8 (8 * Z.of_nat (length msg))]
     else [rest ++ [0x80] ++ replicate (63 - length rest) 0; replicate 56 0 ++ be_bytes 8 (8 * Z.of_nat (length msg))]).
Proof.
  intros q rest. pose proof (Nat.div_mod_eq (length msg) 64) as Hdm. pose proof (Nat.mod_upper_bound (length msg) 64 ltac:(lia)) as Hmod. fold q in Hdm.
  assert (length (take (64 * q) msg) = 64 * q)%nat as Hpre by (rewrite length_take; lia). assert (length rest = length msg mod 64)%nat as Hrest by (unfold rest; rewrite length_drop; lia).
  destruct (chunks_whole 64 q (take (64 * q) msg)) as [Hlen Hlk]; [lia|done|]. set (bs := chunks 64 (take (64 * q) msg)) in *.
  assert (Forall (fun b => length b = 64%nat) bs) as Hbs.
  { apply Forall_lookup_2. intros i b Hb. pose proof (lookup_lt_Some _ _ _ Hb) as Hi. rewrite Hlk in Hb by lia. injection Hb as <-. rewrite length_take, length_drop, length_take. lia. }
  assert (SHA256.pad msg = take (64 * q) msg ++ rest ++ [0x80] ++ replicate ((119 - length msg mod 64) mod 64) 0 ++ be_bytes 8 (8 * Z.of_nat (length msg))) as ->.
  { unfold SHA256.pad, rest. rewrite (app_assoc (take _ _)), take_drop. done. }
  assert (forall l, chunks 64 (take (64 * q) msg ++ l) = bs ++ chunks 64 l) as ->.
  { intros l. clear Hbs Hlk. revert l. unfold bs. clear bs Hlen Hdm Hmod Hrest rest. intros l. generalize dependent (take (64 * q) msg). intros pre Hpre.
    revert pre Hpre. generalize q as n. induction n as [|n IH]; intros pre Hpre; [destruct pre; [done|cbn in Hpre; lia]|].
    rewrite <- (take_drop 64 pre), <- app_assoc, (chunks_cons 64 (take 64 pre) (drop 64 pre ++ l)), (chunks_cons 64 (take 64 pre) (drop 64 pre)) by (lia || (rewrite length_take; lia)). cbn [app]. f_equal. apply IH. rewrite length_drop. lia. }
  f_equal. rewrite <- Hrest. set (r := length rest) in *. set (len := be_bytes 8 _). assert (length len = 8%nat) as Hl by done.
  destruct (Nat.ltb_spec r 56) as [Hlt|Hge].
  - replace ((119 - r) mod 64)%nat with (55 - r)%nat.
    + rewrite <- (app_nil_r (rest ++ _)) at 1. rewrite chunks_cons, chunks_short; [done|cbn; lia|lia|]. rewrite !length_app, length_replicate, Hl. cbn [length]; unfold r in *; lia.
    + replace (119 - r)%nat with (55 - r + 1 * 64)%nat by lia. rewrite Nat.Div0.mod_add. symmetry. apply Nat.mod_small. lia.
  - rewrite Nat.mod_small by lia. replace (119 - r)%nat with (63 - r + 56)%nat by lia. rewrite replicate_add, <- !app_assoc.
    rewrite (app_assoc [0x80]), (app_assoc rest), chunks_cons; [|lia|rewrite !length_app, length_replicate; cbn [length]; unfold r in *; lia].
    f_equal.
Qed.

Lemma packed_inner result w B : length result = 5%nat -> packed w B -> exists w', innerHash result w = (compress_words result (be_words B), w') /\ length w' = 80%nat.
Proof. intros Hres (Hw & _ & _ & Ht). rewrite <- Ht. by apply innerHash_spec. Qed.

(** The block that ends with the length, from one whose last eight bytes are 0. *)
Lemma length_block result w pre n : length result = 5%nat -> packed w (pre ++ replicate 8 0) -> length pre = 56%nat -> 0 <= n < 2 ^ 32 ->
  exists w1 w', wr w 15 (u32 (s32 n)) = Ok w1 /\ innerHash result w1 = (compress_words result (be_words (pre ++ be_bytes 8 n)), w').
Proof.
  intros Hres (Hw & _ & _ & Ht) Hpre Hn. rewrite wr_Ok by lia. rewrite u32_s32, wrapu_small by done. change (Z.to_nat 15) with 15%nat.
  destruct (innerHash_spec result (<[15%nat := n]> w) Hres) as (w' & Hih & _); [by rewrite length_insert|]. eexists _, w'. split; [done|]. rewrite Hih.
  rewrite (be_words_length_bytes pre n Hpre Hn), take_insert_lt, Ht by lia. reflexivity.
Qed.

(** C31: The class computes SHA-1 of every byte string below 2^32 bits, without
    leaving an array. *)
Theorem host_sha1_correct msg w hash : bytes msg -> 8 * Z.of_nat (length msg) < 2 ^ 32 -> length w = 80%nat -> length hash = 20%nat ->
  calc msg (length msg) w hash = Ok (sha1 msg).
Proof.
  intros Hmsg Hlen Hw Hhash. unfold calc. cbv zeta. change [0x67452301; 0xefcdab89; 0x98badcfe; 0x10325476; 0xc3d2e1f0] with SHA1.H0. destruct (blocks_spec msg w Hmsg Hw) as (w1 & -> & Hw1). rewrite res_bind_Ok.
  pose proof (Nat.div_mod_eq (length msg) 64) as Hdm. pose proof (Nat.mod_upper_bound (length msg) 64 ltac:(lia)) as Hmod.
  unfold sha1. rewrite chunks_pad. set (q := (length msg / 64)%nat) in *. set (bs := chunks 64 (take (64 * q) msg)).
  rewrite foldl_app. set (H1 := foldl _ SHA1.H0 bs). assert (length H1 = 5%nat) as HH1 by exact (absorb_words_length bs SHA1.H0 eq_refl).
  destruct (last_bytes_spec msg (64 * q) (clearWBuffert w1) Hmsg) as (w2 & w3 & Hloop & Hone & Hpacked); [lia|lia|by apply clear_spec|]. rewrite length_drop in Hloop, Hone.
  set (rest := drop (64 * q) msg) in *. assert (length rest = length msg - 64 * q)%nat as Hrest by (unfold rest; by rewrite length_drop). rewrite Hloop, res_bind_Ok, Hone, res_bind_Ok, <- Hrest.
  rewrite Z.shiftl_mul_pow2 by lia. replace (Z.of_nat (length msg) * 2 ^ 3) with (8 * Z.of_nat (length msg)) by lia.
  destruct (Nat.ltb_spec (length rest) 56) as [Hlt|Hge].
  - rewrite (proj2 (Nat.leb_gt _ _)) by lia.
    destruct (length_block H1 w3 (rest ++ [0x80] ++ replicate (55 - length rest) 0) (8 * Z.of_nat (length msg)) HH1) as (w4 & w5 & -> & Hih); [| |lia|].
    + rewrite <- !app_assoc, <- replicate_add. by replace (55 - length rest + 8)%nat with (63 - length rest)%nat by lia.
    + rewrite !length_app, length_replicate. cbn [length]. lia.
    + rewrite res_bind_Ok, Hih. rewrite (store_spec _ hash (compress_words_length H1 _ HH1) Hhash). cbn [foldl]. rewrite <- !app_assoc. reflexivity.
  - rewrite (proj2 (Nat.leb_le _ _)) by lia. destruct (packed_inner H1 w3 _ HH1 Hpacked) as (w4 & -> & Hw4). set (H2 := compress_words H1 _).
    pose proof (compress_words_length H1 (be_words (rest ++ [0x80] ++ replicate (63 - length rest) 0)) HH1) as HH2. fold H2 in HH2.
    destruct (length_block H2 (clearWBuffert w4) (replicate 56 0) (8 * Z.of_nat (length msg)) HH2) as (w5 & w6 & -> & Hih); [by apply clear_spec|done|lia|].
    rewrite res_bind_Ok, Hih. rewrite (store_spec _ hash (compress_words_length H2 _ HH2) Hhash). reflexivity.
Qed.

Lemma host_sha1_witness : calc [97; 98; 99] 3 (replicate 80 0) (replicate 20 0) = Ok (sha1 [97; 98; 99]).
Proof. apply (host_sha1_correct [97; 98; 99]); [repeat constructor; lia|reflexivity..]. Defined.

(** From 2^32 bits on the length written is not that of the string. *)
Lemma length_word_wraps : u32 (s32 (Z.shiftl (2 ^ 29) 3)) = 0.
Proof. reflexivity. Qed.

(** The digits of a digest, with the zero that ends the string; the array
    has a place more, which is left alone. *)
Lemma toHexString_correct hash hexstring : bytes hash -> length hash = 20%nat -> (40 < length hexstring)%nat ->
  toHexString hash hexstring = Ok (hex hash ++ 0 :: drop 41 hexstring).
Proof.
  intros Hb Hlen Hs. unfold toHexString.
  assert (length (hex hash) = 40%nat) as Hhex by (do 20 (destruct hash as [|? hash]; [discriminate Hlen|]); destruct hash; [reflexivity|discriminate Hlen]).
  assert (forall i, (i < 20)%nat -> hex hash !!! (2 * i)%nat = hexDigits !!! Z.to_nat (hash !!! i / 16) /\ hex hash !!! (2 * i + 1)%nat = hexDigits !!! Z.to_nat (hash !!! i mod 16)) as Hdig.
  { intros i Hi. do 20 (destruct hash as [|? hash]; [discriminate Hlen|]). destruct hash; [|discriminate Hlen]. do 20 (destruct i as [|i]; [split; reflexivity|]). lia. }
  match goal with |- context [for_downM 0 20 ?body hexstring] =>
    destruct (for_downM_ind (fun i s => length s = length hexstring /\ drop 40 s = drop 40 hexstring /\ forall j, (2 * i <= j < 40)%nat -> s !!! j = hex hash !!! j) 0 20 body hexstring) as (s & -> & Hl & Hd & Heq) end; [lia|split; [done|split; [done|intros j Hj; lia]]| |].
  - intros i s Hi (Hl & Hd & Heq). pose proof (byte_at hash i Hb ltac:(lia)) as Hin. unfold in_u in Hin. rewrite rd_Ok, res_bind_Ok, Nat2Z.id by lia.
    change 0xf with (Z.ones 4). rewrite !Z.land_ones, Z.shiftr_div_pow2 by lia. change (2 ^ 4) with 16. set (h := hash !!! i) in *.
    assert (0 <= h / 16 < 16) by (split; [apply Z.div_pos; lia|apply Z.div_lt_upper_bound; lia]). pose proof (Z.mod_pos_bound h 16 ltac:(lia)).
    rewrite (Z.mod_small (h / 16)) by lia. rewrite (rd_Ok hexDigits (h / 16)), res_bind_Ok by (cbn; lia).
    rewrite (wr_Ok s), res_bind_Ok, (rd_Ok hexDigits (h mod 16)), res_bind_Ok, wr_Ok by (rewrite ?length_insert; cbn; lia).
    eexists. split; [reflexivity|]. rewrite !length_insert, !Nat2Z.id. split; [done|]. split; [by rewrite !drop_insert_lt by lia|].
    intros j Hj. destruct (Hdig i ltac:(lia)) as [D0 D1]. fold h in D0, D1. destruct (decide (j = 2 * i + 1)%nat) as [->|H1]; [by rewrite list_lookup_total_insert_eq, D1 by (rewrite length_insert; lia)|].
    rewrite list_lookup_total_insert_ne by lia. destruct (decide (j = 2 * i)%nat) as [->|H2]; [by rewrite list_lookup_total_insert_eq, D0 by lia|].
    rewrite list_lookup_total_insert_ne by lia. apply Heq. lia.
  - rewrite res_bind_Ok, wr_Ok by lia. change (Z.to_nat 40) with 40%nat. f_equal. assert (take 40 s = hex hash) as Ht.
    { apply (list_eq_same_length _ _ 40); [done|rewrite length_take; lia|]. intros j x y Hj Hx Hy. apply list_lookup_total_correct in Hx as <-, Hy as <-. rewrite lookup_total_take_lt by lia. apply Heq. lia. }
    rewrite <- (take_drop 40 s), Ht, insert_app_r_alt, Hhex, Nat.sub_diag, Hd by lia. f_equal.
    destruct (lookup_lt_is_Some_2 hexstring 40) as [x Hx]; [lia|]. by rewrite (drop_S _ _ _ Hx).
Qed.
