(* ===== verification/HostSha256.v ===== *)
(** The hash of the drivers, [pepper/common/sha256.cpp]: the streaming SHA-256
    with the message length in two words, and [sha256] of [common/utility.cpp].

    The header names [unsigned long] as its 32-bit word; the width [w] of that
    type is a parameter of the model, 32 or 64 on today's machines. *)
From Stdlib Require Import ZArith Lia.
From stdpp Require Import base numbers list.
From S2P Require Import Prelude ShaSpec Sha256.

Local Open Scope Z_scope.

Module Host.

(** ** The code *)

Section Code.
Context (w : Z).

(** [SHA256_CTX] *)
Record SHA256_CTX := { data : list Z; datalen : Z; bitlen0 : Z; bitlen1 : Z; state : list Z }.

Definition set_data (d : list Z) (c : SHA256_CTX) : SHA256_CTX :=
  {| data := d; datalen := datalen c; bitlen0 := bitlen0 c; bitlen1 := bitlen1 c; state := state c |}.
Definition set_state (st : list Z) (c : SHA256_CTX) : SHA256_CTX :=
  {| data := data c; datalen := datalen c; bitlen0 := bitlen0 c; bitlen1 := bitlen1 c; state := st |}.

(** [DBL_INT_ADD(ctx->bitlen[0], ctx->bitlen[1], c)] *)
Definition DBL_INT_ADD (c : Z) (ctx : SHA256_CTX) : SHA256_CTX :=
  {| data := data ctx; datalen := datalen ctx;
     bitlen0 := wrapu w (bitlen0 ctx + c);
     bitlen1 := if bitlen0 ctx >? 0xffffffff - c then wrapu w (bitlen1 ctx + 1) else bitlen1 ctx;
     state := state ctx |}.

Definition ROTRIGHT (a b : Z) : Z := Z.lor (Z.shiftr a b) (wrapu w (Z.shiftl a (32 - b))).
Definition CH (x y z : Z) : Z := Z.lxor (Z.land x y) (Z.land (wrapu w (Z.lnot x)) z).
Definition MAJ (x y z : Z) : Z := Z.lxor (Z.lxor (Z.land x y) (Z.land x z)) (Z.land y z).
Definition EP0 (x : Z) : Z := Z.lxor (Z.lxor (ROTRIGHT x 2) (ROTRIGHT x 13)) (ROTRIGHT x 22).
Definition EP1 (x : Z) : Z := Z.lxor (Z.lxor (ROTRIGHT x 6) (ROTRIGHT x 11)) (ROTRIGHT x 25).
Definition SIG0 (x : Z) : Z := Z.lxor (Z.lxor (ROTRIGHT x 7) (ROTRIGHT x 18)) (Z.shiftr x 3).
Definition SIG1 (x : Z) : Z := Z.lxor (Z.lxor (ROTRIGHT x 17) (ROTRIGHT x 19)) (Z.shiftr x 10).

Definition sha256_key : list Z :=
  table
  [0x428a2f98_71374491_b5c0fbcf_e9b5dba5_3956c25b_59f111f1_923f82a4_ab1c5ed5;
   0xd807aa98_12835b01_243185be_550c7dc3_72be5d74_80deb1fe_9bdc06a7_c19bf174;
   0xe49b69c1_efbe4786_0fc19dc6_240ca1cc_2de92c6f_4a7484aa_5cb0a9dc_76f988da;
   0x983e5152_a831c66d_b00327c8_bf597fc7_c6e00bf3_d5a79147_06ca6351_14292967;
   0x27b70a85_2e1b2138_4d2c6dfc_53380d13_650a7354_766a0abb_81c2c92e_92722c85;
   0xa2bfe8a1_a81a664b_c24b8b70_c76c51a3_d192e819_d6990624_f40e3585_106aa070;
   0x19a4c116_1e376c08_2748774c_34b0bcb5_391c0cb3_4ed8aa4a_5b9cca4f_682e6ff3;
   0x748f82ee_78a5636f_84c87814_8cc70208_90befffa_a4506ceb_bef9a3f7_c67178f2].

Definition round (ki mi : Z) (r : SHA256.regs) : SHA256.regs :=
  let '(a, b, c, d, e, f, g, h) := r in
  let t1 := wrapu w (h + EP1 e + CH e f g + ki + mi) in
  let t2 := wrapu w (EP0 a + MAJ a b c) in
  (wrapu w (t1 + t2), a, b, c, wrapu w (d + t1), e, f, g).

(** The bytes are promoted to [int] before the shifts. *)
Definition load_word (block : list Z) (j : nat) : Z :=
  wrapu w (s32 (Z.lor (Z.lor (Z.lor (Z.shiftl (block !!! j) 24) (Z.shiftl (block !!! (j + 1)%nat) 16)) (Z.shiftl (block !!! (j + 2)%nat) 8)) (block !!! (j + 3)%nat))).

Definition sha256_transform (ctx : SHA256_CTX) (block : list Z) : SHA256_CTX :=
  let m := replicate 64 0 in
  let m := for_up 0 16 (fun i m => <[i := load_word block (4 * i)]> m) m in
  let m := for_up 16 64 (fun i m =>
    <[i := wrapu w (SIG1 (m !!! (i - 2)%nat) + m !!! (i - 7)%nat + SIG0 (m !!! (i - 15)%nat) + m !!! (i - 16)%nat)]> m) m in
  let st := state ctx in
  let '(a, b, c, d, e, f, g, h) :=
    for_up 0 64 (fun i r => round (sha256_key !!! i) (m !!! i) r)
      (st !!! 0%nat, st !!! 1%nat, st !!! 2%nat, st !!! 3%nat, st !!! 4%nat, st !!! 5%nat, st !!! 6%nat, st !!! 7%nat) in
  set_state [wrapu w (st !!! 0%nat + a); wrapu w (st !!! 1%nat + b); wrapu w (st !!! 2%nat + c); wrapu w (st !!! 3%nat + d);
             wrapu w (st !!! 4%nat + e); wrapu w (st !!! 5%nat + f); wrapu w (st !!! 6%nat + g); wrapu w (st !!! 7%nat + h)] ctx.

Definition sha256_init (ctx : SHA256_CTX) : SHA256_CTX :=
  {| data := data ctx; datalen := 0; bitlen0 := 0; bitlen1 := 0;
     state := [0x6a09e667; 0xbb67ae85; 0x3c6ef372; 0xa54ff53a; 0x510e527f; 0x9b05688c; 0x1f83d9ab; 0x5be0cd19] |}.

Definition push (ctx : SHA256_CTX) (b : Z) : res SHA256_CTX :=
  buf ← wr (data ctx) (datalen ctx) b;
  let ctx := {| data := buf; datalen := wrapu w (datalen ctx + 1); bitlen0 := bitlen0 ctx; bitlen1 := bitlen1 ctx; state := state ctx |} in
  if datalen ctx =? 64 then
    let ctx := sha256_transform ctx (data ctx) in
    let ctx := DBL_INT_ADD 512 ctx in
    Ok {| data := data ctx; datalen := 0; bitlen0 := bitlen0 ctx; bitlen1 := bitlen1 ctx; state := state ctx |}
  else Ok ctx.

Definition sha256_update (ctx : SHA256_CTX) (msg : list Z) (len : nat) : res SHA256_CTX :=
  for_upM 0 len (fun i ctx => b ← rd msg (Z.of_nat i); push ctx b) ctx.

Definition zero_fill (i n : nat) (d : list Z) : res (list Z) := for_upM i n (fun i d => wr d (Z.of_nat i) 0) d.

Definition store_length (lo hi : Z) (d : list Z) : list Z :=
  let d := <[63%nat := u8 lo]> d in
  let d := <[62%nat := u8 (Z.shiftr lo 8)]> d in
  let d := <[61%nat := u8 (Z.shiftr lo 16)]> d in
  let d := <[60%nat := u8 (Z.shiftr lo 24)]> d in
  let d := <[59%nat := u8 hi]> d in
  let d := <[58%nat := u8 (Z.shiftr hi 8)]> d in
  let d := <[57%nat := u8 (Z.shiftr hi 16)]> d in
  <[56%nat := u8 (Z.shiftr hi 24)]> d.

Definition store_digest (st hash : list Z) : list Z :=
  let byte s i := Z.land (Z.shiftr (st !!! s) (24 - Z.of_nat i * 8)) 0xff in
  for_up 0 4
    (fun i h => <[i := byte 0%nat i]> (<[(i + 4)%nat := byte 1%nat i]> (<[(i + 8)%nat := byte 2%nat i]>
       (<[(i + 12)%nat := byte 3%nat i]> (<[(i + 16)%nat := byte 4%nat i]> (<[(i + 20)%nat := byte 5%nat i]>
       (<[(i + 24)%nat := byte 6%nat i]> (<[(i + 28)%nat := byte 7%nat i]> h)))))))) hash.

(** A block that has no room for the length. *)
Definition full_block (ctx : SHA256_CTX) : SHA256_CTX :=
  let ctx := sha256_transform ctx (data ctx) in
  set_data (for_up 0 56 (fun i d => <[i := 0]> d) (data ctx)) ctx.

(** The length after the padding. *)
Definition append_length (ctx : SHA256_CTX) : SHA256_CTX :=
  let ctx := DBL_INT_ADD (wrapu w (datalen ctx * 8)) ctx in
  set_data (store_length (bitlen0 ctx) (bitlen1 ctx) (data ctx)) ctx.

Definition last_block (ctx : SHA256_CTX) (hash : list Z) : SHA256_CTX * list Z :=
  let ctx := sha256_transform ctx (data ctx) in
  (ctx, store_digest (state ctx) hash).

Definition sha256_final (ctx : SHA256_CTX) (hash : list Z) : res (SHA256_CTX * list Z) :=
  let i := Z.to_nat (datalen ctx) in
  ctx ← (if datalen ctx <? 56 then
           d ← wr (data ctx) (Z.of_nat i) 0x80;
           d ← zero_fill (i + 1) 56 d;
           Ok (set_data d ctx)
         else
           d ← wr (data ctx) (Z.of_nat i) 0x80;
           d ← zero_fill (i + 1) 64 d;
           Ok (full_block (set_data d ctx)));
  Ok (last_block (append_length ctx) hash).

(** [sha256] of [utility.cpp], with the context on its stack. *)
Definition sha256 (ctx : SHA256_CTX) (len : nat) (input hash : list Z) : res (list Z) :=
  let ctx := sha256_init ctx in
  ctx ← sha256_update ctx input len;
  '(_, hash) ← sha256_final ctx hash;
  Ok hash.

End Code.

(** With a 64-bit [unsigned long] the bits shifted out of the low half stay
    in the word, and the digest of "abc" is not that of the standard. *)
Definition zero_ctx : SHA256_CTX := {| data := replicate 64 0; datalen := 0; bitlen0 := 0; bitlen1 := 0; state := replicate 8 0 |}.

Lemma long_words_wrong : exists h, sha256 64 zero_ctx 3 [97; 98; 99] (replicate 32 0) = Ok h /\ h <> SHA256.sha256 [97; 98; 99].
Proof. eexists. split; [vm_compute; reflexivity|vm_compute; discriminate]. Qed.

(** ** With 32-bit words *)

(** The context of the program that checks a preimage, whose length is one
    64-bit number. *)
Definition joined (c : SHA256_CTX) : Sha256.SHA256_CTX :=
  {| Sha256.data := data c; Sha256.datalen := datalen c; Sha256.bitlen := bitlen0 c + 2 ^ 32 * bitlen1 c; Sha256.state := state c |}.
Definition lengths_fit (c : SHA256_CTX) : Prop := in_u 32 (bitlen0 c) /\ in_u 32 (bitlen1 c).

Lemma load_word_32 block j :
  load_word 32 block j = u32 (Z.lor (Z.lor (Z.lor (Z.shiftl (block !!! j) 24) (Z.shiftl (block !!! (j + 1)%nat) 16)) (Z.shiftl (block !!! (j + 2)%nat) 8)) (block !!! (j + 3)%nat)).
Proof. unfold load_word, wrapu. by rewrite wraps_mod by lia. Qed.

Lemma transform_joined c block : joined (sha256_transform 32 c block) = Sha256.sha256_transform (joined c) block.
Proof.
  unfold sha256_transform, Sha256.sha256_transform. cbv zeta. cbn [joined Sha256.state].
  rewrite (for_up_ext 0 16 (fun i m => <[i := load_word 32 block (4 * i)]> m) (fun i m =>
     <[i := u32 (Z.lor (Z.lor (Z.lor (Z.shiftl (block !!! (4 * i)%nat) 24) (Z.shiftl (block !!! (4 * i + 1)%nat) 16)) (Z.shiftl (block !!! (4 * i + 2)%nat) 8)) (block !!! (4 * i + 3)%nat))]> m))
    by (intros i m Hi; by rewrite load_word_32).
  change (round 32) with Sha256.sha256_round. change sha256_key with Sha256.k. change (SIG0 32) with Sha256.SIG0. change (SIG1 32) with Sha256.SIG1.
  destruct (for_up 0 64 _ _) as [[[[[[[a b] e] d] f] g] h] j]. reflexivity.
Qed.

Lemma transform_lengths c block : lengths_fit c -> lengths_fit (sha256_transform 32 c block).
Proof. intros Hfit. unfold sha256_transform. by destruct (for_up 0 64 _ _) as [[[[[[[a b] e] d] f] g] h] j]. Qed.

Lemma transform_datalen c block : datalen (sha256_transform 32 c block) = datalen c.
Proof. unfold sha256_transform. by destruct (for_up 0 64 _ _) as [[[[[[[a b] e] d] f] g] h] j]. Qed.

#[local] Opaque sha256_transform Sha256.sha256_transform.

Lemma add_joined n c : lengths_fit c -> 0 <= n < 2 ^ 32 ->
  joined (DBL_INT_ADD 32 n c) = {| Sha256.data := data c; Sha256.datalen := datalen c; Sha256.bitlen := u64 (Sha256.bitlen (joined c) + n); Sha256.state := state c |} /\
  lengths_fit (DBL_INT_ADD 32 n c).
Proof.
  intros [H0 H1] Hn. unfold DBL_INT_ADD, joined, lengths_fit. cbn [data datalen bitlen0 bitlen1 state Sha256.bitlen]. unfold in_u in *. split.
  - f_equal. destruct (Z.gtb_spec (bitlen0 c) (0xffffffff - n)) as [Hgt|Hle].
    + assert (wrapu 32 (bitlen0 c + n) = bitlen0 c + n - 2 ^ 32) as ->.
      { unfold wrapu. rewrite <- (Z_mod_plus_full _ (-1)), Z.mod_small by lia. lia. }
      destruct (decide (bitlen1 c + 1 = 2 ^ 32)) as [Heq|Hne].
      * rewrite Heq. change (wrapu 32 (2 ^ 32)) with 0. symmetry. unfold wrapu. rewrite <- (Z_mod_plus_full _ (-1)), Z.mod_small by lia. lia.
      * rewrite (wrapu_small 32) by (unfold in_u; lia). rewrite wrapu_small by (unfold in_u; lia). lia.
    + rewrite !wrapu_small by (unfold in_u; lia). lia.
  - split; [apply wrapu_range; lia|]. destruct (_ >? _); [apply wrapu_range; lia|done].
Qed.

Lemma push_joined c b : lengths_fit c ->
  match push 32 c b with
  | Ok c' => Sha256.sha256_push (joined c) b = Ok (joined c') /\ lengths_fit c'
  | r => Sha256.sha256_push (joined c) b = match r with NoFuel => NoFuel | _ => Fault end
  end.
Proof.
  intros Hfit. unfold push, Sha256.sha256_push. cbn [joined Sha256.data Sha256.datalen]. destruct (wr (data c) (datalen c) b) as [buf| |]; [|done..].
  rewrite !res_bind_Ok. cbn [datalen data Sha256.datalen Sha256.data]. set (c1 := {| data := buf; datalen := _; bitlen0 := _; bitlen1 := _; state := _ |}).
  change ({| Sha256.data := buf; Sha256.datalen := u32 (datalen c + 1); Sha256.bitlen := Sha256.bitlen (joined c); Sha256.state := Sha256.state (joined c) |}) with (joined c1).
  destruct (u32 (datalen c + 1) =? 64); [|by split].
  change (Sha256.data (joined c1)) with buf. rewrite <- (transform_joined c1 buf). pose proof (transform_lengths c1 buf Hfit) as Hfit1.
  generalize dependent (sha256_transform 32 c1 buf). intros c2 Hfit2. destruct (add_joined 512 c2 Hfit2) as [Hj Hf]; [lia|]. split; [|exact Hf].
  pose proof (f_equal Sha256.bitlen Hj) as Hb. cbn [Sha256.bitlen] in Hb. rewrite <- Hb. reflexivity.
Qed.

Lemma update_joined c msg len : lengths_fit c -> bytes msg -> (len <= length msg)%nat ->
  forall c', Sha256.sha256_update (joined c) msg len = Ok c' -> exists c1, sha256_update 32 c msg len = Ok c1 /\ joined c1 = c' /\ lengths_fit c1.
Proof.
  intros Hfit Hmsg Hlen. unfold sha256_update, Sha256.sha256_update. revert c Hfit.
  assert (forall n lo, (lo + n = len)%nat -> forall c, lengths_fit c -> forall c', for_upM lo len (fun i ctx => b ← rd msg (Z.of_nat i); sha256_push ctx b) (joined c) = Ok c' ->
    exists c1, for_upM lo len (fun i ctx => b ← rd msg (Z.of_nat i); push 32 ctx b) c = Ok c1 /\ joined c1 = c' /\ lengths_fit c1) as Hgen; [|intros c Hfit; by apply (Hgen len 0%nat)].
  induction n as [|n IH]; intros lo Hlo c Hfit c'.
  - rewrite !for_upM_done by lia. intros [= <-]. by exists c.
  - rewrite !(for_upM_step lo) by lia. rewrite rd_Ok, !res_bind_Ok by lia. pose proof (push_joined c (msg !!! Z.to_nat (Z.of_nat lo)) Hfit) as Hp.
    destruct (push 32 c _) as [c1| |]; [destruct Hp as [-> Hf]; rewrite !res_bind_Ok; apply IH; [lia|done]|rewrite Hp; done..].
Qed.

Lemma store_length_joined lo hi d : in_u 32 lo -> in_u 32 hi -> store_length lo hi d = Sha256.store_length (lo + 2 ^ 32 * hi) d.
Proof.
  unfold in_u. intros Hlo Hhi. unfold store_length, Sha256.store_length.
  assert (forall k, 0 <= k <= 24 -> u8 (Z.shiftr (lo + 2 ^ 32 * hi) k) = u8 (Z.shiftr lo k)) as Hl.
  { intros k Hk. unfold wrapu. rewrite !Z.shiftr_div_pow2 by lia. replace (2 ^ 32 * hi) with (2 ^ (24 - k) * hi * 2 ^ 8 * 2 ^ k).
    - rewrite Z.div_add by (apply Z.pow_nonzero; lia). apply Z_mod_plus_full.
    - replace (2 ^ 32) with (2 ^ (24 - k) * 2 ^ 8 * 2 ^ k); [lia|]. rewrite <- !Z.pow_add_r by lia. f_equal. lia. }
  assert (forall k, 0 <= k -> Z.shiftr (lo + 2 ^ 32 * hi) (32 + k) = Z.shiftr hi k) as Hh.
  { intros k Hk. rewrite !Z.shiftr_div_pow2, Z.pow_add_r, <- Z.div_div by lia. rewrite (Z.mul_comm (2 ^ 32)), Z.div_add, (Z.div_small lo) by lia. done. }
  pose proof (Hl 0 ltac:(lia)) as Hl0. rewrite !Z.shiftr_0_r in Hl0. pose proof (Hh 0 ltac:(lia)) as Hh0. rewrite Z.shiftr_0_r, Z.add_0_r in Hh0.
  pose proof (Hh 8 ltac:(lia)) as H8. pose proof (Hh 16 ltac:(lia)) as H16. pose proof (Hh 24 ltac:(lia)) as H24. change (32 + 8) with 40 in H8. change (32 + 16) with 48 in H16. change (32 + 24) with 56 in H24.
  rewrite Hl0, Hh0, (Hl 8), (Hl 16), (Hl 24), H8, H16, H24 by lia. reflexivity.
Qed.

(** The same end of the hash with one number for the length. *)
Definition append_joined (ctx : Sha256.SHA256_CTX) : Sha256.SHA256_CTX :=
  let bits := u64 (Sha256.bitlen ctx + u32 (Sha256.datalen ctx * 8)) in
  {| Sha256.data := Sha256.store_length bits (Sha256.data ctx); Sha256.datalen := Sha256.datalen ctx; Sha256.bitlen := bits; Sha256.state := Sha256.state ctx |}.

Definition last_joined (ctx : Sha256.SHA256_CTX) (hash : list Z) : Sha256.SHA256_CTX * list Z :=
  let ctx := Sha256.sha256_transform ctx (Sha256.data ctx) in
  (ctx, Sha256.store_digest (Sha256.state ctx) hash).

Definition full_joined (ctx : Sha256.SHA256_CTX) : Sha256.SHA256_CTX :=
  let ctx := Sha256.sha256_transform ctx (Sha256.data ctx) in
  Sha256.set_data (for_up 0 56 (fun i d => <[i := 0]> d) (Sha256.data ctx)) ctx.

Lemma clear_joined c1 c2 : c1 = joined c2 ->
  Sha256.set_data (for_up 0 56 (fun i d => <[i := 0]> d) (Sha256.data c1)) c1 = joined (set_data (for_up 0 56 (fun i d => <[i := 0]> d) (data c2)) c2).
Proof. intros ->. reflexivity. Qed.

Lemma full_block_joined c : full_joined (joined c) = joined (full_block 32 c).
Proof. exact (clear_joined _ _ (eq_sym (transform_joined c (data c)))). Qed.

Lemma set_data_fits d c n : lengths_fit c -> datalen c = n -> lengths_fit (set_data d c) /\ datalen (set_data d c) = n.
Proof. by destruct c. Qed.

Lemma full_block_fits c : lengths_fit c -> lengths_fit (full_block 32 c) /\ datalen (full_block 32 c) = datalen c.
Proof. intros Hf. exact (set_data_fits _ _ _ (transform_lengths c (data c) Hf) (transform_datalen c (data c))). Qed.

Lemma append_length_joined c : lengths_fit c -> 0 <= datalen c <= 64 -> append_joined (joined c) = joined (append_length 32 c).
Proof.
  intros Hfit Hdl. unfold append_joined, append_length. destruct (add_joined (u32 (datalen c * 8)) c Hfit) as [Hj [H0 H1]]; [apply wrapu_range; lia|].
  set (c1 := DBL_INT_ADD 32 _ c) in *. change (Sha256.datalen (joined c)) with (datalen c).
  pose proof (f_equal Sha256.bitlen Hj) as Hbits. cbn [Sha256.bitlen] in Hbits. rewrite <- Hbits. change (Sha256.bitlen (joined c1)) with (bitlen0 c1 + 2 ^ 32 * bitlen1 c1).
  rewrite <- store_length_joined by done. reflexivity.
Qed.

Lemma digest_joined c1 c2 hash : c1 = joined c2 ->
  (c1, Sha256.store_digest (Sha256.state c1) hash) = (joined (c2, store_digest (state c2) hash).1, (c2, store_digest (state c2) hash).2).
Proof. intros ->. reflexivity. Qed.

Lemma last_block_joined c hash : last_joined (joined c) hash = (joined (last_block 32 c hash).1, (last_block 32 c hash).2).
Proof. exact (digest_joined _ _ hash (eq_sym (transform_joined c (data c)))). Qed.

Lemma final_unfold ctx hash : Sha256.sha256_final ctx hash =
  (let i := Z.to_nat (Sha256.datalen ctx) in
   ctx ← (if Sha256.datalen ctx <? 56 then
           d ← wr (Sha256.data ctx) (Z.of_nat i) 0x80;
           d ← Sha256.zero_fill (i + 1) 56 d;
           Ok (Sha256.set_data d ctx)
         else
           d ← wr (Sha256.data ctx) (Z.of_nat i) 0x80;
           d ← Sha256.zero_fill (i + 1) 64 d;
           Ok (full_joined (Sha256.set_data d ctx)));
   Ok (last_joined (append_joined ctx) hash)).
Proof. reflexivity. Qed.

Lemma final_joined c hash : lengths_fit c -> 0 <= datalen c < 64 ->
  Sha256.sha256_final (joined c) hash = ('(c', h) ← sha256_final 32 c hash; Ok (joined c', h)).
Proof.
  intros Hfit Hdl.
  assert (forall c1, lengths_fit c1 -> datalen c1 = datalen c ->
    Ok (last_joined (append_joined (joined c1)) hash) = ('(c', h) ← Ok (last_block 32 (append_length 32 c1) hash); Ok (joined c', h))) as Hend.
  { intros c1 Hf Hd. rewrite append_length_joined by (done || lia). rewrite res_bind_Ok, last_block_joined. by destruct (last_block 32 (append_length 32 c1) hash). }
  rewrite final_unfold. unfold sha256_final. cbv zeta. change (Sha256.datalen (joined c)) with (datalen c). change (Sha256.data (joined c)) with (data c).
  destruct (datalen c <? 56).
  - destruct (wr (data c) _ _) as [d| |]; [|done..]. rewrite !res_bind_Ok. change zero_fill with Sha256.zero_fill. destruct (Sha256.zero_fill _ 56 d) as [d'| |]; [|done..]. rewrite !res_bind_Ok.
    by apply (Hend (set_data d' c)).
  - destruct (wr (data c) _ _) as [d| |]; [|done..]. rewrite !res_bind_Ok. change zero_fill with Sha256.zero_fill. destruct (Sha256.zero_fill _ 64 d) as [d'| |]; [|done..]. rewrite !res_bind_Ok.
    change (Sha256.set_data d' (joined c)) with (joined (set_data d' c)). rewrite full_block_joined.
    destruct (full_block_fits (set_data d' c) Hfit) as [Hf Hd]. by apply Hend.
Qed.

(** C32: With 32-bit words the drivers hash with SHA-256. *)
Theorem host_sha256_correct ctx input hash : length (data ctx) = 64%nat -> bytes (data ctx) -> length hash = 32%nat -> bytes input ->
  8 * Z.of_nat (length input) < 2 ^ 64 -> sha256 32 ctx (length input) input hash = Ok (SHA256.sha256 input).
Proof.
  intros Hd Hb Hh Hin Hlen. unfold sha256. set (c0 := sha256_init ctx). assert (lengths_fit c0) as Hfit by done.
  destruct (sha256_update_absorbed [] (joined c0) input (length input)) as (c' & Hup & Habs); [by apply (absorbed_init (joined ctx))|done|lia|]. rewrite firstn_all in Habs.
  destruct (update_joined c0 input (length input) Hfit Hin (le_n _) c' Hup) as (c1 & -> & <- & Hf1). rewrite res_bind_Ok.
  destruct (sha256_final_spec input (joined c1) hash Habs Hh Hlen) as (c2 & Hfin). destruct Habs as (bs & rest & _ & _ & Hr & _ & _ & _ & _ & Hdl & _). cbn [joined Sha256.datalen] in Hdl.
  rewrite final_joined in Hfin by (done || lia). destruct (sha256_final 32 c1 hash) as [[c3 h]| |]; [|done..]. rewrite !res_bind_Ok in *. by injection Hfin as _ ->.
Qed.

Lemma host_sha256_witness : sha256 32 zero_ctx 3 [97; 98; 99] (replicate 32 0) = Ok (SHA256.sha256 [97; 98; 99]).
Proof. apply (host_sha256_correct zero_ctx [97; 98; 99]); [reflexivity|by apply Forall_replicate|reflexivity|repeat constructor; lia|reflexivity]. Defined.

End Host.
