(* ===== verification/Arith.v ===== *)
(** Machine arithmetic: the fixed-point type of
    [compiler/cstdinc/fix_t.h] and the integer computations
    [pepper/apps/uintsqrt.c], [base_2_log.c] and [bounded_loop.c]. *)
From Stdlib Require Import ZArith Lia.
From stdpp Require Import base numbers list.
From S2P Require Import Prelude.

Local Open Scope Z_scope.

(** ** Bitwise square roots *)

(** One decision: with the root between [lo] and [lo + 2 p], the next bit
    halves the interval. *)
Lemma root_step a lo p :
  0 <= lo -> 0 < p -> lo * lo <= a < (lo + 2 * p) * (lo + 2 * p) ->
  let lo' := if (lo + p) * (lo + p) >? a then lo else lo + p in
  lo' * lo' <= a < (lo' + p) * (lo' + p) /\ 0 <= lo'.
Proof.
  intros Hlo Hp Ha. cbv zeta. rewrite Z.gtb_ltb. destruct (Z.ltb_spec a ((lo + p) * (lo + p))); nia.
Qed.

Lemma root_done a r : 0 <= r -> r * r <= a < (r + 1) * (r + 1) -> r = Z.sqrt a.
Proof. intros Hr Ha. symmetry. apply Z.sqrt_unique. unfold Z.succ. lia. Qed.

(** ** [fix_t.h] *)

Module FixT.

Definition FIX_SCALE : Z := 0x10000.
Definition FIX_SCALE_LOG2 : Z := 16.

Definition fix_add (a b : Z) : Z := s32 (a + b).

Definition fix_mul (a b : Z) : Z :=
  let prod := s64 (a * b) in
  s32 (Z.shiftr prod FIX_SCALE_LOG2).

(** Division by zero has no value. *)
Definition fix_div (a b : Z) : option Z :=
  let quotient := s64 (Z.shiftl a FIX_SCALE_LOG2) in
  if b =? 0 then None else Some (s32 (s64 (Z.quot quotient b))).

Definition uint64sqrt (a : Z) (bits : nat) : Z :=
  for_down 0 bits
    (fun i lo =>
       let mid := u64 (lo + u64 (Z.shiftl 1 (Z.of_nat i))) in
       if u64 (mid * mid) >? a then lo else mid) 0.

Definition fix_sqrt (a : Z) : Z :=
  let tosqrt := u64 (Z.shiftl (u64 a) FIX_SCALE_LOG2) in
  s32 (uint64sqrt tosqrt (Z.to_nat ((32 + FIX_SCALE_LOG2) / 2))).

Definition int_to_fix (val : Z) : Z := s32 (u64 (Z.shiftl (u64 val) FIX_SCALE_LOG2)).
Definition fix_to_int (val : Z) : Z := s32 (Z.shiftr val FIX_SCALE_LOG2).
Definition fix_ceil (val : Z) : Z :=
  let val := fix_add val (FIX_SCALE - 1) in
  int_to_fix (fix_to_int val).

(** The bitwise search is the integer square root of every number of
    at most twice as many bits, up to the whole 64-bit range. *)
Theorem uint64sqrt_correct a bits :
  (bits <= 32)%nat -> 0 <= a < 2 ^ (2 * Z.of_nat bits) -> uint64sqrt a bits = Z.sqrt a.
Proof.
  intros Hbits Ha. unfold uint64sqrt.
  set (body := fun (i : nat) lo => _).
  assert (forall j, (j <= bits)%nat ->
    let lo := for_down (bits - j) bits body 0 in
    lo * lo <= a < (lo + 2 ^ Z.of_nat (bits - j)) * (lo + 2 ^ Z.of_nat (bits - j)) /\
    0 <= lo /\ lo + 2 ^ Z.of_nat (bits - j) <= 2 ^ Z.of_nat bits) as Hinv.
  { induction j as [|j IH]; intros Hj; cbv zeta.
    - rewrite Nat.sub_0_r, for_down_done by lia.
      replace (2 * Z.of_nat bits) with (Z.of_nat bits + Z.of_nat bits) in Ha by lia.
      rewrite Z.pow_add_r in Ha by lia. lia.
    - specialize (IH ltac:(lia)). cbv zeta in IH.
      rewrite for_down_step by lia. replace (S (bits - S j)) with (bits - j)%nat by lia.
      set (lo := for_down (bits - j) bits body 0) in *. set (i := (bits - S j)%nat).
      replace (bits - j)%nat with (S i) in IH by lia.
      rewrite Nat2Z.inj_succ, Z.pow_succ_r in IH by lia.
      set (p := 2 ^ Z.of_nat i) in *. assert (0 < p) as Hp by (apply Z.pow_pos_nonneg; lia).
      assert (2 ^ Z.of_nat bits <= 2 ^ 32) as Hb32 by (apply Z.pow_le_mono_r; lia).
      unfold body. rewrite Z.shiftl_1_l. fold p.
      rewrite (wrapu_small 64 p), (wrapu_small 64 (lo + p)) by (unfold in_u; lia).
      rewrite (wrapu_small 64 ((lo + p) * (lo + p))) by (unfold in_u; nia).
      pose proof (root_step a lo p ltac:(lia) Hp ltac:(lia)) as Hstep. cbv zeta in Hstep.
      split; [apply Hstep|]. split; [apply Hstep|]. destruct (_ >? a); lia. }
  specialize (Hinv bits (le_n _)). rewrite Nat.sub_diag in Hinv. cbv zeta in Hinv.
  apply root_done; [lia|]. cbn in Hinv. lia.
Qed.

Lemma uint64sqrt_witness : uint64sqrt 1000000 24 = 1000.
Proof. rewrite (uint64sqrt_correct 1000000 24) by (lia || (vm_compute; split; [discriminate|reflexivity])). reflexivity. Defined.

(** The fixed-point square root is the largest fixed-point number
    whose square does not exceed the argument, for every nonnegative
    argument. *)
Theorem fix_sqrt_correct a :
  0 <= a < 2 ^ 31 ->
  let r := fix_sqrt a in
  0 <= r < 2 ^ 24 /\ r * r <= a * FIX_SCALE < (r + 1) * (r + 1).
Proof.
  intros Ha. unfold fix_sqrt, FIX_SCALE, FIX_SCALE_LOG2.
  rewrite (wrapu_small 64 a), Z.shiftl_mul_pow2 by (unfold in_u; lia).
  rewrite (wrapu_small 64) by (unfold in_u; lia). change (Z.to_nat ((32 + 16) / 2)) with 24%nat.
  rewrite uint64sqrt_correct by lia.
  pose proof (Z.sqrt_spec (a * 2 ^ 16) ltac:(lia)) as Hs. pose proof (Z.sqrt_nonneg (a * 2 ^ 16)) as Hn.
  set (r := Z.sqrt (a * 2 ^ 16)) in *. cbv zeta in Hs.
  assert (r < 2 ^ 24) as Hr by nia.
  rewrite wraps_small by (ranges). unfold Z.succ in Hs. lia.
Qed.

Lemma fix_sqrt_witness : let r := fix_sqrt (4 * FIX_SCALE) in r * r <= 4 * FIX_SCALE * FIX_SCALE < (r + 1) * (r + 1).
Proof. apply fix_sqrt_correct. vm_compute. split; [discriminate|reflexivity]. Defined.

(** Converting an integer of 16 bits to fixed point and back is the
    identity; the other way round rounds down, and [fix_ceil] rounds up. *)
Theorem fix_roundtrip :
  (forall v, in_s 16 v -> fix_to_int (int_to_fix v) = v) /\
  (forall x, in_s 32 x -> fix_to_int x = x / FIX_SCALE) /\
  (forall x, - 2 ^ 31 <= x <= 2 ^ 31 - FIX_SCALE -> fix_ceil x = - ((- x) / FIX_SCALE) * FIX_SCALE).
Proof.
  assert (forall v, in_s 16 v -> int_to_fix v = v * FIX_SCALE) as Hto.
  { intros v Hv. unfold int_to_fix, FIX_SCALE, FIX_SCALE_LOG2.
    transitivity (s32 (v * 2 ^ 16)).
    - apply wraps_eqm; [lia|]. rewrite Z.shiftl_mul_pow2 by lia. unfold wrapu.
      assert (forall z, (z mod 2 ^ 64) mod 2 ^ 32 = z mod 2 ^ 32) as Hmm.
      { intros z. apply Z.mod_mod_divide. by exists (2 ^ 32). }
      rewrite Hmm. rewrite Zmult_mod, Hmm, <- Zmult_mod. reflexivity.
    - apply wraps_small; [lia|]. ranges. }
  assert (forall x, in_s 32 x -> fix_to_int x = x / FIX_SCALE) as Hfrom.
  { intros x Hx. unfold fix_to_int, FIX_SCALE_LOG2. rewrite Z.shiftr_div_pow2 by lia.
    change (2 ^ 16) with FIX_SCALE. apply wraps_small; [lia|]. unfold FIX_SCALE in *; ranges. }
  split; [|split; [done|]].
  - intros v Hv. rewrite Hto, Hfrom by (done || (unfold FIX_SCALE in *; ranges)).
    apply Z.div_mul. unfold FIX_SCALE. lia.
  - intros x Hx. unfold fix_ceil, fix_add. rewrite (wraps_small 32) by (unfold FIX_SCALE in *; ranges).
    rewrite Hfrom by (unfold FIX_SCALE in *; ranges).
    rewrite Hto by (unfold FIX_SCALE in *; ranges). f_equal. unfold FIX_SCALE. Z.to_euclidean_division_equations. lia.
Qed.

(** A product is the exact product rounded down, so a negative
    inexact product moves away from zero although the header says that the
    routines truncate towards zero; division does truncate towards zero. *)
Theorem fix_mul_floor a b :
  in_s 32 a -> in_s 32 b -> in_s 32 (a * b / FIX_SCALE) -> fix_mul a b = a * b / FIX_SCALE.
Proof.
  unfold fix_mul, FIX_SCALE_LOG2. intros Ha Hb Hab.
  rewrite (wraps_small 64) by (unfold in_s in *; eval_pow; nia).
  rewrite Z.shiftr_div_pow2 by lia. by apply wraps_small.
Qed.

Lemma fix_mul_floor_witness : fix_mul (-1) 1 = -1 /\ Z.quot (-1 * 1) FIX_SCALE = 0.
Proof.
  split; [|reflexivity]. rewrite (fix_mul_floor (-1) 1); [reflexivity|..];
    vm_compute; split; (discriminate || reflexivity).
Defined.

(** Division truncates the exact quotient towards zero. *)
Theorem fix_div_truncates a b :
  in_s 32 a -> b <> 0 -> in_s 32 b -> in_s 32 (Z.quot (a * FIX_SCALE) b) ->
  fix_div a b = Some (Z.quot (a * FIX_SCALE) b).
Proof.
  intros Ha Hnz Hb Hq. unfold fix_div, FIX_SCALE_LOG2. rewrite (proj2 (Z.eqb_neq b 0)) by done.
  rewrite Z.shiftl_mul_pow2 by lia. change (2 ^ 16) with FIX_SCALE.
  rewrite (wraps_small 64 (a * FIX_SCALE)) by (unfold FIX_SCALE in *; ranges).
  rewrite (wraps_small 64) by (ranges). by rewrite wraps_small.
Qed.

Lemma fix_div_witness : fix_div (-1 * FIX_SCALE) (3 * FIX_SCALE) = Some (-21845).
Proof.
  rewrite (fix_div_truncates (-1 * FIX_SCALE) (3 * FIX_SCALE)); [reflexivity|..];
    vm_compute; try split; discriminate || reflexivity.
Defined.

End FixT.

(** ** [uintsqrt.c] *)

Module UintSqrt.

Definition uintsqrt (x : Z) : Z :=
  fst (for_up 0 16
    (fun _ '(lo, bit) =>
       let mid := u32 (lo + bit) in
       let lo := if u32 (mid * mid) >? x then lo else mid in
       (lo, bit / 2)) (0, 0x8000)).

Definition compute (a : Z) : Z := uintsqrt a.

(** The computation is the integer square root of every 32-bit number. *)
Theorem uintsqrt_correct x : in_u 32 x -> compute x = Z.sqrt x.
Proof.
  intros Hx. unfold compute, uintsqrt.
  set (body := fun (_ : nat) (s : Z * Z) => _).
  destruct (for_up_ind (fun i s => exists p, snd s = p / 2 /\ p = 2 ^ Z.of_nat (16 - i) /\
      fst s * fst s <= x < (fst s + p) * (fst s + p) /\ 0 <= fst s /\ fst s + p <= 2 ^ 16)
    0 16 body (0, 0x8000)) as (p & _ & -> & Hroot & Hlo & _).
  - lia.
  - exists (2 ^ 16). unfold in_u in Hx. cbn [fst snd]. split; [reflexivity|]. split; [reflexivity|]. lia.
  - intros i [lo bit] Hi (p & Hbit & Hp & Hroot & Hlo & Hmax). cbn [fst snd] in *.
    replace (16 - i)%nat with (S (16 - S i)) in Hp by lia.
    rewrite Nat2Z.inj_succ, Z.pow_succ_r in Hp by lia. set (q := 2 ^ Z.of_nat (16 - S i)) in *.
    assert (0 < q) as Hq by (apply Z.pow_pos_nonneg; lia).
    assert (bit = q) as -> by (rewrite Hbit, Hp, Z.mul_comm; apply Z.div_mul; lia).
    exists q. unfold body. subst p. rewrite (wrapu_small 32 (lo + q)) by ranges.
    rewrite (wrapu_small 32) by (unfold in_u in *; nia).
    pose proof (root_step x lo q Hlo Hq Hroot) as Hstep. cbv zeta in Hstep. cbn [fst snd].
    split; [done|]. split; [done|]. split; [apply Hstep|]. split; [apply Hstep|].
    destruct (_ >? x); lia.
  - cbn [Nat.sub Z.of_nat] in Hroot. change (2 ^ 0) with 1 in Hroot. by apply root_done.
Qed.

Lemma uintsqrt_witness : compute 4294967295 = 65535.
Proof. rewrite (uintsqrt_correct 4294967295) by (vm_compute; split; [discriminate|reflexivity]). reflexivity. Defined.

End UintSqrt.

(** ** [base_2_log.c] *)

Module Base2Log.

Definition uintlog2 (a : Z) : Z :=
  let '(_, bits) :=
    for_up 0 32 (fun i '(a, bits) => (Z.shiftr a 1, <[i := b2z (negb (Z.land a 1 =? 0))]> bits))
      (a, replicate 32 0) in
  fst (for_down 1 32
    (fun i '(log, found) =>
       if found =? 0 then
         if negb (bits !!! i =? 0) then (Z.of_nat i, 1) else (log, found)
       else (log, found)) (0, 0)).

Definition compute (a : Z) : Z := uintlog2 a.

(** The loop that spreads the bits over the array. *)
Lemma spread_bits a :
  snd (for_up 0 32 (fun i '(a, bits) => (Z.shiftr a 1, <[i := b2z (negb (Z.land a 1 =? 0))]> bits))
      (a, replicate 32 0))
  = map (fun i => b2z (Z.testbit a (Z.of_nat i))) (seq 0 32).
Proof.
  pose proof (for_up_ind
    (fun i s => s = (Z.shiftr a (Z.of_nat i),
       map (fun i => b2z (Z.testbit a (Z.of_nat i))) (seq 0 i) ++ replicate (32 - i) 0))
    0 32 (fun i '(a, bits) => (Z.shiftr a 1, <[i := b2z (negb (Z.land a 1 =? 0))]> bits))
    (a, replicate 32 0)) as H.
  rewrite H; clear H; [by rewrite app_nil_r|lia|by rewrite Z.shiftr_0_r|].
  intros i s Hi ->. rewrite Z.shiftr_shiftr by lia. f_equal; [f_equal; lia|].
  rewrite insert_app_r_alt by (rewrite length_map, length_seq; lia).
  rewrite length_map, length_seq, Nat.sub_diag, seq_S, map_app, <- app_assoc. f_equal.
  replace (32 - i)%nat with (S (32 - S i)) by lia. cbn [replicate insert list_insert map app]. f_equal.
  change 1 with (Z.ones 1). rewrite Z.land_ones by lia.
  change (2 ^ 1) with 2. rewrite <- (Z.bit0_mod), Z.shiftr_spec by lia.
  rewrite Z.add_0_l, Nat.add_0_l. by destruct (Z.testbit a (Z.of_nat i)).
Qed.

(** The computation is the floor of the base-two logarithm of every
    nonzero 32-bit number. *)
Theorem uintlog2_correct a : in_u 32 a -> a <> 0 -> compute a = Z.log2 a.
Proof.
  intros Ha Hnz. unfold compute, uintlog2. pose proof (spread_bits a) as Hbits.
  destruct (for_up 0 32 _ _) as [a' bits]. cbn [snd] in Hbits. subst bits.
  set (bits := map _ _). assert (forall i, (i < 32)%nat -> bits !!! i = b2z (Z.testbit a (Z.of_nat i))) as Hb.
  { intros i Hi. apply list_lookup_total_correct. unfold bits.
    by rewrite list_lookup_fmap, lookup_seq_lt. }
  assert (Z.log2 a < 32) as Hlog by (apply Z.log2_lt_pow2; unfold in_u in Ha; lia).
  pose proof (Z.log2_nonneg a) as Hlog0. unfold in_u in Ha.
  set (body := fun (i : nat) '(log, found) => _).
  assert (forall j, (j <= 31)%nat -> for_down (32 - j) 32 body (0, 0)
    = if Z.of_nat (32 - j) <=? Z.log2 a then (Z.log2 a, 1) else (0, 0)) as Hinv.
  { induction j as [|j IH]; intros Hj.
    - rewrite for_down_done by lia. by rewrite (proj2 (Z.leb_gt _ _)) by lia.
    - rewrite for_down_step by lia. replace (S (32 - S j)) with (32 - j)%nat by lia.
      rewrite IH by lia. unfold body.
      destruct (Z.leb_spec (Z.of_nat (32 - j)) (Z.log2 a)) as [Hle|Hgt]; cbn [Z.eqb].
      + by rewrite (proj2 (Z.leb_le _ _)) by lia.
      + rewrite Hb by lia. destruct (Z.leb_spec (Z.of_nat (32 - S j)) (Z.log2 a)).
        * replace (Z.of_nat (32 - S j)) with (Z.log2 a) by lia. rewrite Z.bit_log2 by lia. done.
        * rewrite Z.bits_above_log2 by lia. done. }
  specialize (Hinv 31%nat (le_n _)). change (32 - 31)%nat with 1%nat in Hinv. rewrite Hinv.
  destruct (Z.leb_spec (Z.of_nat 1) (Z.log2 a)); cbn [fst]; lia.
Qed.

Lemma uintlog2_witness : compute 1000 = 9.
Proof.
  rewrite (uintlog2_correct 1000); [reflexivity| |discriminate].
  vm_compute. split; [discriminate|reflexivity].
Defined.

End Base2Log.

(** ** [bounded_loop.c] *)

Module BoundedLoop.

Definition SIZE : nat := 25.

Definition compute (vector : list Z) : res Z :=
  loop (S SIZE)
    (fun '(a, subSum) =>
       if Z.of_nat a <? Z.of_nat SIZE then
         v ← rd vector (Z.of_nat a);
         if v >? -1 then Ok (inl (S a, s64 (subSum + v))) else Ok (inr subSum)
       else Ok (inr subSum)) (0%nat, 0).

(** The elements before the first negative one. *)
Fixpoint nonneg_prefix (l : list Z) : list Z :=
  match l with [] => [] | x :: l => if 0 <=? x then x :: nonneg_prefix l else [] end.

Definition sum (l : list Z) : Z := foldr Z.add 0 l.

(** The loop ends within its bound and returns the sum of the elements
    before the first negative one; the 64-bit sum does not overflow. *)
Theorem bounded_loop_correct vector :
  length vector = SIZE -> Forall (in_s 32) vector -> compute vector = Ok (sum (nonneg_prefix vector)).
Proof.
  intros Hlen Hr. unfold compute.
  set (P := fun s : nat * Z => (s.1 <= SIZE)%nat /\ - 2 ^ 31 * Z.of_nat s.1 <= s.2 <= 2 ^ 31 * Z.of_nat s.1 /\
     sum (nonneg_prefix vector) = s.2 + sum (nonneg_prefix (drop s.1 vector))).
  destruct (loop_ind P (fun r => r = sum (nonneg_prefix vector)) (fun s => SIZE - s.1)%nat
    (fun '(a, subSum) =>
       if Z.of_nat a <? Z.of_nat SIZE then
         v ← rd vector (Z.of_nat a);
         if v >? -1 then Ok (inl (S a, s64 (subSum + v))) else Ok (inr subSum)
       else Ok (inr subSum))) with (fuel := S SIZE) (s := (0%nat, 0)) as (r & -> & ->); [|..|done].
  - intros [a t] (Ha & Ht & Hs). cbn [fst snd] in *.
    destruct (Z.ltb_spec (Z.of_nat a) (Z.of_nat SIZE)) as [Hlt|Hge].
    + destruct (lookup_lt_is_Some_2 vector a) as [v Hv]; [lia|].
      rewrite (rd_lookup _ _ _ Hv), res_bind_Ok. pose proof (Forall_lookup_1 _ _ _ _ Hr Hv) as Hvr.
      rewrite (drop_S _ _ _ Hv) in Hs. cbn [nonneg_prefix] in Hs.
      rewrite Z.gtb_ltb. destruct (Z.ltb_spec (-1) v).
      * left. eexists. split; [reflexivity|]. rewrite (proj2 (Z.leb_le 0 v)) in Hs by lia.
        assert (s64 (t + v) = t + v) as ->.
        { apply wraps_small; [lia|]. unfold SIZE in *. ranges. }
        cbn [fst snd]. split; [|lia]. unfold P. cbn [fst snd]. split; [lia|].
        split; [unfold SIZE in *; ranges|]. rewrite Hs. cbn [sum foldr]. unfold sum. cbn [foldr]. lia.
      * right. eexists. split; [reflexivity|]. rewrite (proj2 (Z.leb_gt 0 v)) in Hs by lia. cbn in Hs. lia.
    + right. eexists. split; [reflexivity|]. rewrite drop_ge in Hs by lia. cbn in Hs. lia.
  - unfold P. cbn [fst snd]. rewrite drop_0. cbn. lia.
  - cbn [fst]. lia.
Qed.

Lemma bounded_loop_witness :
  compute (3 :: 4 :: -1 :: replicate 22 5) = Ok 7.
Proof.
  rewrite (bounded_loop_correct (3 :: 4 :: -1 :: replicate 22 5)); [reflexivity|reflexivity|].
  repeat constructor; vm_compute; discriminate.
Defined.

End BoundedLoop.
