(* ===== verification/Ridge.v ===== *)
(** Ridge regression: [pepper/apps/ridge_regression.c], in the fixed-point
    numbers of [fix_t.h].

    A matrix is the flat array of its rows, as in the code, and every access
    is checked.  The number of records and of variables, the columns of the
    variables and the regularization are parameters. *)
From Stdlib Require Import ZArith Lia.
From stdpp Require Import base numbers list.
From S2P Require Import Prelude BlockStore Commitment Arith.
Import FixT.

Local Open Scope Z_scope.

(** ** The code *)

Section Code.

(** Division by zero stops the program. *)
Definition div (a b : Z) : res Z := match fix_div a b with Some q => Ok q | None => Fault end.

Definition cell (d i j : nat) : Z := Z.of_nat (i * d + j).

(** [x -= fix_mul(a, b)] for an element of an array *)
Definition sub_mul (i a b : Z) (x : list Z) : res (list Z) := xi ← rd x i; wr x i (s32 (xi - fix_mul a b)).

Definition addMat (A B : list Z) (m n : nat) : res (list Z) :=
  for_upM 0 m (fun i A => for_upM 0 n (fun j A => a ← rd A (cell n i j); b ← rd B (cell n i j); wr A (cell n i j) (fix_add a b)) A) A.

Definition cholesky_update (d j : nat) (A : list Z) : res (list Z) :=
  for_upM 0 j (fun k A =>
    for_upM j d (fun i A =>
      aik ← rd A (cell d i k);
      ajk ← rd A (cell d j k);
      sub_mul (cell d i j) aik ajk A) A) A.

Definition cholesky_column (d j : nat) (A : list Z) : res (list Z) :=
  A ← cholesky_update d j A;
  ajj ← rd A (cell d j j);
  A ← wr A (cell d j j) (fix_sqrt ajj);
  for_upM (j + 1) d (fun k A =>
    akj ← rd A (cell d k j);
    ajj ← rd A (cell d j j);
    q ← div akj ajj;
    wr A (cell d k j) q) A.

Definition cholesky (d : nat) (A : list Z) : res (list Z) := for_upM 0 d (cholesky_column d) A.

Definition backsubstituteUT (x A b : list Z) (d : nat) : res (list Z * list Z) :=
  for_downM 0 d (fun i '(x, b) =>
    b ← for_upM (i + 1) d (fun j b => xj ← rd x (Z.of_nat j); aij ← rd A (cell d i j); sub_mul (Z.of_nat i) xj aij b) b;
    bi ← rd b (Z.of_nat i);
    aii ← rd A (cell d i i);
    q ← div bi aii;
    x ← wr x (Z.of_nat i) q;
    Ok (x, b)) (x, b).

Definition backsubstituteLT (x A b : list Z) (d : nat) : res (list Z * list Z) :=
  for_upM 0 d (fun i '(x, b) =>
    b ← for_upM 0 i (fun j b => xj ← rd x (Z.of_nat j); aij ← rd A (cell d i j); sub_mul (Z.of_nat i) xj aij b) b;
    bi ← rd b (Z.of_nat i);
    aii ← rd A (cell d i i);
    q ← div bi aii;
    x ← wr x (Z.of_nat i) q;
    Ok (x, b)) (x, b).

(** The two sums over the records; the products are not shifted yet. *)
Definition add_record (d : nat) (a : list Z) (dependent_var : Z) (st : list Z * list Z) : res (list Z * list Z) :=
  let '(M, y) := st in
  M ← for_upM 0 d (fun j M => for_upM 0 d (fun k M =>
    aj ← rd a (Z.of_nat j);
    ak ← rd a (Z.of_nat k);
    m ← rd M (cell d j k);
    wr M (cell d j k) (s32 (m + s32 (aj * ak)))) M) M;
  y ← for_upM 0 d (fun j y =>
    aj ← rd a (Z.of_nat j);
    yj ← rd y (Z.of_nat j);
    wr y (Z.of_nat j) (s32 (yj + s32 (dependent_var * aj)))) y;
  Ok (M, y).

Definition shift_right (n : nat) (x : list Z) : res (list Z) :=
  for_upM 0 n (fun i x => xi ← rd x (Z.of_nat i); wr x (Z.of_nat i) (s32 (Z.shiftr xi FIX_SCALE_LOG2))) x.

Definition add_diagonal (d : nat) (k : Z) (M : list Z) : res (list Z) :=
  for_upM 0 d (fun i M => m ← rd M (cell d i i); wr M (cell d i i) (s32 (m + k))) M.

Definition transpose (d : nat) (L LT : list Z) : res (list Z) :=
  for_upM 0 d (fun i LT => for_upM 0 d (fun j LT => l ← rd L (cell d j i); wr LT (cell d i j) l) LT) LT.

(** The solution of the normal equations, as the end of the code has it:
    [x], [LT] and [beta] hold anything before. *)
Definition solve (d : nat) (M y LT x beta : list Z) : res (list Z) :=
  L ← cholesky d M;
  LT ← transpose d L LT;
  '(x, y) ← backsubstituteUT x LT y d;
  '(beta, x) ← backsubstituteLT beta L x d;
  Ok beta.

Definition ridge_regression (d : nat) (INDEPENDENT_VARS : list nat) (DEPENDENT_VAR : nat) (regularization_k : Z) (records : list (list Z))
  (LT x beta : list Z) : res (list Z) :=
  '(M, y) ← for_upM 0 (length records) (fun i st =>
      match records !! i with
      | None => Fault
      | Some p =>
          a ← mapM (fun v => rd p (Z.of_nat v)) INDEPENDENT_VARS;
          dependent_var ← rd p (Z.of_nat DEPENDENT_VAR);
          add_record d a dependent_var st
      end) (replicate (d * d) 0, replicate d 0);
  M ← shift_right (d * d) M;
  y ← shift_right d y;
  M ← add_diagonal d regularization_k M;
  solve d M y LT x beta.

(** The error [M beta - y] the code can report. *)
Definition mvmul (y A x : list Z) (d : nat) : res (list Z) :=
  for_upM 0 d (fun i y => for_upM 0 d (fun j y =>
    aij ← rd A (cell d i j);
    xj ← rd x (Z.of_nat j);
    yi ← rd y (Z.of_nat i);
    wr y (Z.of_nat i) (s32 (yi + fix_mul aij xj))) y) y.

Definition solnerror (d : nat) (M y beta : list Z) : res (list Z) := mvmul (map (fun v => s32 (- v)) y) M beta d.

(** The whole program: the block is found by the hash the commitment opens to
    under the key.  What [commitmentget] answers is a parameter. *)
Definition compute `{BlockStore (list (list Z))} {commitment_t : Type} (commitmentget : list Z -> commitment_t -> store (list (list Z)) -> res hash_t)
  (d : nat) (INDEPENDENT_VARS : list nat) (DEPENDENT_VAR : nat) (ck commitmentCK : list Z) (commitment : commitment_t) (k : Z)
  (LT x beta : list Z) (σ : store (list (list Z))) : res (list Z) :=
  ck ← setcommitmentCK ck commitmentCK;
  hash ← commitmentget ck commitment σ;
  records ← hashget hash σ;
  ridge_regression d INDEPENDENT_VARS DEPENDENT_VAR k records LT x beta.

End Code.

(** ** Triangular systems *)

Section Matrix.
Context (d : nat).

Definition at2 (A : list Z) (i j : nat) : Z := A !!! (i * d + j)%nat.

Lemma cell_lt i j : (i < d)%nat -> (j < d)%nat -> (i * d + j < d * d)%nat.
Proof. nia. Qed.

Lemma cell_inj i j i' j' : (j < d)%nat -> (j' < d)%nat -> (i * d + j = i' * d + j')%nat -> i = i' /\ j = j'.
Proof.
  intros Hj Hj' Heq. assert (i = i') as ->; [|lia]. destruct (Nat.lt_trichotomy i i') as [Hlt|[Hlt|Hlt]]; [nia|done|nia].
Qed.

Lemma rd_cell (A : list Z) i j : length A = (d * d)%nat -> (i < d)%nat -> (j < d)%nat -> rd A (cell d i j) = Ok (at2 A i j).
Proof. intros HA Hi Hj. apply rd_lookup, list_lookup_lookup_total_lt. rewrite HA. by apply cell_lt. Qed.

Lemma wr_cell (A : list Z) i j (v : Z) : length A = (d * d)%nat -> (i < d)%nat -> (j < d)%nat -> wr A (cell d i j) v = Ok (<[(i * d + j)%nat := v]> A).
Proof. intros HA Hi Hj. pose proof (cell_lt i j Hi Hj). unfold cell. rewrite wr_Ok by lia. by rewrite Nat2Z.id. Qed.

Lemma at2_insert A i j (v : Z) i' j' : length A = (d * d)%nat -> (i < d)%nat -> (j < d)%nat -> (i' < d)%nat -> (j' < d)%nat ->
  at2 (<[(i * d + j)%nat := v]> A) i' j' = if decide (i' = i /\ j' = j) then v else at2 A i' j'.
Proof.
  intros HA Hi Hj Hi' Hj'. unfold at2. case_decide as Hd.
  - destruct Hd as [-> ->]. apply list_lookup_total_insert_eq. rewrite HA. by apply cell_lt.
  - apply list_lookup_total_insert_ne. intros Heq. apply cell_inj in Heq; try done. destruct Heq. subst. by apply Hd.
Qed.

Lemma rd_vec (x : list Z) i : length x = d -> (i < d)%nat -> rd x (Z.of_nat i) = Ok (x !!! i).
Proof. intros Hx Hi. apply rd_lookup, list_lookup_lookup_total_lt. lia. Qed.

Lemma wr_vec (x : list Z) i (v : Z) : length x = d -> (i < d)%nat -> wr x (Z.of_nat i) v = Ok (<[i := v]> x).
Proof. intros Hx Hi. rewrite wr_Ok by lia. by rewrite Nat2Z.id. Qed.

Lemma div_some a b : b <> 0 -> exists q, div a b = Ok q /\ fix_div a b = Some q.
Proof. intros Hb. unfold div, fix_div. destruct (Z.eqb_spec b 0); [done|]. by eexists. Qed.

(** Subtracting products from one element. *)
Lemma sub_loop (f : nat -> Z) lo n hi (body : nat -> list Z -> res (list Z)) i (b : list Z) : hi = (lo + n)%nat ->
  length b = d -> (i < d)%nat -> in_s 32 (b !!! i) ->
  (forall k b', (k < n)%nat -> length b' = d -> body (lo + k)%nat b' = Ok (<[i := s32 (b' !!! i - f k)]> b')) ->
  for_upM lo hi body b = Ok (<[i := s32 (b !!! i - zsum n f)]> b).
Proof.
  intros -> Hb Hi Hin Hbody. induction n as [|n IH].
  - rewrite for_upM_done by lia. cbn [zsum]. rewrite Z.sub_0_r, wraps_small by done.
    rewrite list_insert_id by (rewrite list_lookup_lookup_total_lt by lia; done). done.
  - rewrite (for_upM_split lo (lo + n)) by lia. rewrite IH, res_bind_Ok by (intros; apply Hbody; lia). rewrite for_upM_step by lia.
    rewrite Hbody, res_bind_Ok, for_upM_done by (rewrite ?length_insert; lia). rewrite list_lookup_total_insert_eq, list_insert_insert_eq by lia.
    do 2 f_equal. cbn [zsum]. rewrite <- !Z.add_opp_r, wraps_mod_l by done. f_equal. lia.
Qed.

(** The equations of a triangular system, in fixed-point arithmetic. *)
Definition solves_upper (A b x : list Z) : Prop :=
  forall i, (i < d)%nat -> fix_div (s32 (b !!! i - zsum (d - S i) (fun k => fix_mul (x !!! (S i + k)%nat) (at2 A i (S i + k))))) (at2 A i i) = Some (x !!! i).
Definition solves_lower (A b x : list Z) : Prop :=
  forall i, (i < d)%nat -> fix_div (s32 (b !!! i - zsum i (fun k => fix_mul (x !!! k) (at2 A i k)))) (at2 A i i) = Some (x !!! i).

Definition words (x : list Z) : Prop := length x = d /\ Forall (in_s 32) x.

Lemma words_at x i : words x -> (i < d)%nat -> in_s 32 (x !!! i).
Proof. intros [Hx Hf] Hi. rewrite Forall_forall in Hf. apply Hf. apply list_elem_of_lookup_total_2. lia. Qed.

Section Backsubstitution.
Context (A b x : list Z).
Hypothesis size : length A = (d * d)%nat.
Hypothesis b_words : words b.
Hypothesis x_length : length x = d.
Hypothesis diagonal : forall i, (i < d)%nat -> at2 A i i <> 0.

Lemma fix_div_word u v q : fix_div u v = Some q -> in_s 32 q.
Proof. clear. unfold fix_div. destruct (v =? 0); [done|]. intros [= <-]. by apply wraps_range. Qed.

Lemma backsubstituteUT_spec : exists x' b', backsubstituteUT x A b d = Ok (x', b') /\ words x' /\ solves_upper A b x'.
Proof.
  unfold backsubstituteUT.
  match goal with |- context [for_downM 0 d ?body ?s] =>
    destruct (for_downM_ind (fun i '(x', b') => length x' = d /\ length b' = d /\ (forall k, (k < i)%nat -> b' !!! k = b !!! k) /\
      forall k, (i <= k < d)%nat -> fix_div (s32 (b !!! k - zsum (d - S k) (fun j => fix_mul (x' !!! (S k + j)%nat) (at2 A k (S k + j))))) (at2 A k k) = Some (x' !!! k))
      0 d body s) as ([x' b'] & -> & Hx' & Hb' & _ & Heqs) end.
  - lia.
  - split; [done|]. split; [apply b_words|]. split; [done|]. intros k Hk. lia.
  - intros i [x1 b1] Hi (Hx1 & Hb1 & Hkeep & Heqs).
    rewrite Nat.add_1_r.
    rewrite (sub_loop (fun k => fix_mul (x1 !!! (S i + k)%nat) (at2 A i (S i + k))) (S i) (d - S i) d _ i b1); [|lia|done|lia|rewrite Hkeep by lia; apply words_at; [done|lia]|].
    2:{ intros k b2 Hk Hb2. rewrite rd_vec, res_bind_Ok, rd_cell, res_bind_Ok by lia. unfold sub_mul. rewrite rd_vec, res_bind_Ok by lia. rewrite wr_vec by lia. done. }
    rewrite res_bind_Ok, rd_vec, res_bind_Ok, rd_cell, res_bind_Ok by (rewrite ?length_insert; lia).
    rewrite list_lookup_total_insert_eq by lia. rewrite (Hkeep i) by lia.
    destruct (div_some (s32 (b !!! i - zsum (d - S i) (fun k => fix_mul (x1 !!! (S i + k)%nat) (at2 A i (S i + k))))) (at2 A i i)) as (q & -> & Hq); [apply diagonal; lia|].
    rewrite res_bind_Ok, wr_vec, res_bind_Ok by lia. eexists. split; [reflexivity|]. cbv beta iota. rewrite !length_insert. split; [done|]. split; [done|]. split.
    + intros k Hk. rewrite list_lookup_total_insert_ne by lia. apply Hkeep. lia.
    + intros k Hk. rewrite (zsum_ext _ _ (fun j => fix_mul (x1 !!! (S k + j)%nat) (at2 A k (S k + j)))) by (intros j Hj; rewrite list_lookup_total_insert_ne by lia; done).
      destruct (decide (k = i)) as [->|Hne]; [by rewrite list_lookup_total_insert_eq by lia|]. rewrite list_lookup_total_insert_ne by done. apply Heqs. lia.
  - exists x', b'. split; [done|]. split; [split; [done|]|intros i Hi; apply Heqs; lia]. apply Forall_lookup_2. intros i v Hv.
    pose proof (lookup_lt_Some _ _ _ Hv). apply list_lookup_total_correct in Hv as <-. eapply fix_div_word, Heqs. lia.
Qed.

Lemma backsubstituteLT_spec : exists x' b', backsubstituteLT x A b d = Ok (x', b') /\ words x' /\ solves_lower A b x'.
Proof.
  unfold backsubstituteLT.
  match goal with |- context [for_upM 0 d ?body ?s] =>
    destruct (for_upM_ind (fun i '(x', b') => length x' = d /\ length b' = d /\ (forall k, (i <= k)%nat -> b' !!! k = b !!! k) /\
      forall k, (k < i)%nat -> fix_div (s32 (b !!! k - zsum k (fun j => fix_mul (x' !!! j) (at2 A k j)))) (at2 A k k) = Some (x' !!! k))
      0 d body s) as ([x' b'] & -> & Hx' & Hb' & _ & Heqs) end.
  - lia.
  - split; [done|]. split; [apply b_words|]. split; [done|]. intros k Hk. lia.
  - intros i [x1 b1] Hi (Hx1 & Hb1 & Hkeep & Heqs).
    rewrite (sub_loop (fun k => fix_mul (x1 !!! k) (at2 A i k)) 0 i i _ i b1); [|lia|done|lia|rewrite Hkeep by lia; apply words_at; [done|lia]|].
    2:{ intros k b2 Hk Hb2. cbn [Nat.add]. rewrite rd_vec, res_bind_Ok, rd_cell, res_bind_Ok by lia. unfold sub_mul. rewrite rd_vec, res_bind_Ok by lia. rewrite wr_vec by lia. done. }
    rewrite res_bind_Ok, rd_vec, res_bind_Ok, rd_cell, res_bind_Ok by (rewrite ?length_insert; lia).
    rewrite list_lookup_total_insert_eq by lia. rewrite (Hkeep i) by lia.
    destruct (div_some (s32 (b !!! i - zsum i (fun k => fix_mul (x1 !!! k) (at2 A i k)))) (at2 A i i)) as (q & -> & Hq); [apply diagonal; lia|].
    rewrite res_bind_Ok, wr_vec, res_bind_Ok by lia. eexists. split; [reflexivity|]. cbv beta iota. rewrite !length_insert. split; [done|]. split; [done|]. split.
    + intros k Hk. rewrite list_lookup_total_insert_ne by lia. apply Hkeep. lia.
    + intros k Hk. rewrite (zsum_ext _ _ (fun j => fix_mul (x1 !!! j) (at2 A k j))) by (intros j Hj; rewrite list_lookup_total_insert_ne by lia; done).
      destruct (decide (k = i)) as [->|Hne]; [by rewrite list_lookup_total_insert_eq by lia|]. rewrite list_lookup_total_insert_ne by done. apply Heqs. lia.
  - exists x', b'. split; [done|]. split; [split; [done|]|intros i Hi; apply Heqs; lia]. apply Forall_lookup_2. intros i v Hv.
    pose proof (lookup_lt_Some _ _ _ Hv). apply list_lookup_total_correct in Hv as <-. eapply fix_div_word, Heqs. lia.
Qed.

End Backsubstitution.

(** ** The factor *)

(** [A] is the array of [f]. *)
Definition agrees (A : list Z) (f : nat -> nat -> Z) : Prop :=
  length A = (d * d)%nat /\ forall i j, (i < d)%nat -> (j < d)%nat -> at2 A i j = f i j.

Definition upd (f : nat -> nat -> Z) i j v : nat -> nat -> Z := fun i' j' => if decide (i' = i /\ j' = j) then v else f i' j'.

Lemma agrees_rd B f i j : agrees B f -> (i < d)%nat -> (j < d)%nat -> rd B (cell d i j) = Ok (f i j).
Proof. intros [HB Hf] Hi Hj. by rewrite rd_cell, Hf. Qed.

Lemma agrees_wr B f i j v : agrees B f -> (i < d)%nat -> (j < d)%nat -> exists B', wr B (cell d i j) v = Ok B' /\ agrees B' (upd f i j v).
Proof.
  intros [HB Hf] Hi Hj. exists (<[(i * d + j)%nat := v]> B). split; [by apply wr_cell|]. split; [by rewrite length_insert|].
  intros i' j' Hi' Hj'. rewrite at2_insert by done. unfold upd. case_decide; [done|]. by apply Hf.
Qed.

Lemma agrees_ext B f g : (forall i j, (i < d)%nat -> (j < d)%nat -> f i j = g i j) -> agrees B f -> agrees B g.
Proof. intros Hfg [HB Hf]. split; [done|]. intros i j Hi Hj. by rewrite Hf, Hfg. Qed.

Lemma agrees_eq B C f : agrees B f -> agrees C f -> B = C.
Proof.
  intros [HB Hf] [HC Hg]. apply list_eq_same_length with (d * d)%nat; [done|done|]. intros i x y Hi Hx Hy.
  assert (i = (i / d) * d + i mod d)%nat as Heq by (rewrite (Nat.div_mod_eq i d) at 1; lia).
  assert (i / d < d)%nat by (apply Nat.Div0.div_lt_upper_bound; lia). assert (i mod d < d)%nat by (apply Nat.mod_upper_bound; nia).
  specialize (Hf (i / d)%nat (i mod d)%nat ltac:(done) ltac:(done)). specialize (Hg (i / d)%nat (i mod d)%nat ltac:(done) ltac:(done)).
  unfold at2 in Hf, Hg. rewrite <- Heq in Hf, Hg. apply list_lookup_total_correct in Hx. apply list_lookup_total_correct in Hy. congruence.
Qed.

Section Factor.
Context (M L : list Z).

(** The equations of the factor below the diagonal; above it the matrix keeps
    its elements. *)
Definition dot (i j : nat) : Z := zsum j (fun k => fix_mul (at2 L i k) (at2 L j k)).

Record is_factor : Prop := {
  factor_size : length L = (d * d)%nat;
  factor_upper : forall i j, (i < j < d)%nat -> at2 L i j = at2 M i j;
  factor_diagonal : forall j, (j < d)%nat -> at2 L j j = fix_sqrt (s32 (at2 M j j - dot j j));
  factor_lower : forall i j, (j < i < d)%nat -> fix_div (s32 (at2 M i j - dot i j)) (at2 L j j) = Some (at2 L i j)
}.

Context (M_size : length M = (d * d)%nat) (M_words : forall i j, (i < d)%nat -> (j < d)%nat -> in_s 32 (at2 M i j)) (HL : is_factor).

(** After [j] columns. *)
Definition columns (j : nat) (i c : nat) : Z := if (c <? j)%nat then at2 L i c else at2 M i c.

(** After [k] updates of column [j]. *)
Definition updated (j k : nat) (i c : nat) : Z :=
  if decide (c = j /\ (j <= i)%nat) then s32 (at2 M i j - zsum k (fun k => fix_mul (at2 L i k) (at2 L j k))) else columns j i c.

Lemma cholesky_update_spec j B : (j < d)%nat -> agrees B (columns j) -> exists B', cholesky_update d j B = Ok B' /\ agrees B' (updated j j).
Proof.
  intros Hj HB. unfold cholesky_update. apply (for_upM_ind (fun k B => agrees B (updated j k))); [lia| |].
  - revert HB. apply agrees_ext. intros i c Hi Hc. unfold updated, columns. case_decide as Hd; [|done]. destruct Hd as [-> Hji].
    rewrite (proj2 (Nat.ltb_ge _ _)) by lia. cbn [zsum]. rewrite Z.sub_0_r, wraps_small; [done|lia|by apply M_words].
  - intros k B1 Hk HB1.
    destruct (for_upM_ind (fun i B => agrees B (fun i' c => if decide (c = j /\ (j <= i' < i)%nat) then updated j (S k) i' c else updated j k i' c)) j d
      (fun i A => aik ← rd A (cell d i k); ajk ← rd A (cell d j k); sub_mul (cell d i j) aik ajk A) B1) as (B2 & -> & HB2); [lia| | |].
    + revert HB1. apply agrees_ext. intros i' c _ _. case_decide; [lia|done].
    + intros i B3 Hi HB3.
      assert (forall r c, (c < j)%nat -> (if decide (c = j /\ (j <= r < i)%nat) then updated j (S k) r c else updated j k r c) = at2 L r c) as Hcol.
      { intros r c Hc. rewrite decide_False by lia. unfold updated. rewrite decide_False by lia. unfold columns. by rewrite (proj2 (Nat.ltb_lt _ _)). }
      rewrite (agrees_rd _ _ i k HB3), res_bind_Ok, (agrees_rd _ _ j k HB3), res_bind_Ok by lia. rewrite !Hcol by lia. unfold sub_mul.
      rewrite (agrees_rd _ _ i j HB3), res_bind_Ok by lia. rewrite decide_False by lia.
      destruct (agrees_wr _ _ i j (s32 (updated j k i j - fix_mul (at2 L i k) (at2 L j k))) HB3) as (B4 & Hw & HB4); [lia..|]. exists B4. split; [exact Hw|].
      revert HB4. apply agrees_ext. intros i' c Hi' Hc. unfold upd. destruct (decide (i' = i /\ c = j)) as [[-> ->]|Hne].
      * rewrite decide_True by lia. unfold updated. rewrite !decide_True by lia. cbn [zsum]. rewrite <- !Z.add_opp_r, wraps_mod_l by done. f_equal. lia.
      * destruct (decide (c = j /\ (j <= i' < i)%nat)) as [H1|H1], (decide (c = j /\ (j <= i' < S i)%nat)) as [H2|H2]; done || lia || (exfalso; apply Hne; lia).
    + exists B2. split; [done|]. revert HB2. apply agrees_ext. intros i' c Hi' Hc. case_decide as H1; [done|]. unfold updated. rewrite !decide_False by lia. done.
Qed.

Lemma cholesky_column_spec j B : (j < d)%nat -> agrees B (columns j) -> exists B', cholesky_column d j B = Ok B' /\ agrees B' (columns (S j)).
Proof.
  intros Hj HB. unfold cholesky_column. destruct (cholesky_update_spec j B Hj HB) as (B1 & -> & HB1). rewrite res_bind_Ok, (agrees_rd _ _ j j HB1), res_bind_Ok by done.
  destruct (agrees_wr _ _ j j (fix_sqrt (updated j j j j)) HB1) as (B2 & -> & HB2); [done..|]. rewrite res_bind_Ok.
  assert (fix_sqrt (updated j j j j) = at2 L j j) as Hdiag by (unfold updated; rewrite decide_True by lia; symmetry; by apply (factor_diagonal HL)). rewrite Hdiag in HB2.
  rewrite Nat.add_1_r.
  destruct (for_upM_ind (fun k B => agrees B (fun i c => if decide (c = j /\ (j <= i < k)%nat) then at2 L i c else updated j j i c)) (S j) d
    (fun k A => akj ← rd A (cell d k j); ajj ← rd A (cell d j j); q ← div akj ajj; wr A (cell d k j) q) B2) as (B3 & -> & HB3); [lia| | |].
  - revert HB2. apply agrees_ext. intros i c Hi Hc. unfold upd. destruct (decide (i = j /\ c = j)) as [[-> ->]|Hne]; [by rewrite decide_True by lia|]. rewrite decide_False by lia. done.
  - intros k B3 Hk HB3. rewrite (agrees_rd _ _ k j HB3), res_bind_Ok, (agrees_rd _ _ j j HB3), res_bind_Ok by lia.
    rewrite (decide_False (P := j = j /\ (j <= k < k)%nat)), (decide_True (P := j = j /\ (j <= j < k)%nat)) by lia.
    unfold updated at 1. rewrite decide_True by lia. unfold div. pose proof (factor_lower HL k j ltac:(lia)) as Hdiv. unfold dot in Hdiv. rewrite Hdiv, res_bind_Ok.
    destruct (agrees_wr _ _ k j (at2 L k j) HB3) as (B4 & Hw & HB4); [lia..|]. exists B4. split; [exact Hw|].
    revert HB4. apply agrees_ext. intros i c Hi Hc. unfold upd. destruct (decide (i = k /\ c = j)) as [[-> ->]|Hne]; [by rewrite decide_True by lia|].
    destruct (decide (c = j /\ (j <= i < k)%nat)), (decide (c = j /\ (j <= i < S k)%nat)); done || lia.
  - exists B3. split; [done|]. revert HB3. apply agrees_ext. intros i c Hi Hc. unfold updated, columns.
    destruct (decide (c = j /\ (j <= i < d)%nat)) as [[-> Hi']|Hno]; [by rewrite (proj2 (Nat.ltb_lt _ _)) by lia|].
    rewrite decide_False by lia. destruct (Nat.ltb_spec c j), (Nat.ltb_spec c (S j)); try done; try lia.
    assert (c = j) as -> by lia. symmetry. apply (factor_upper HL). lia.
Qed.

(** The code computes the factor, whenever there is one. *)
Lemma cholesky_spec : cholesky d M = Ok L.
Proof.
  unfold cholesky. destruct (for_upM_ind (fun j B => agrees B (columns j)) 0 d (cholesky_column d) M) as (B & -> & HB).
  - lia.
  - by split.
  - intros j B Hj HB. apply cholesky_column_spec; [lia|done].
  - f_equal. apply (agrees_eq _ _ (columns d)); [done|]. split; [apply (factor_size HL)|]. intros i j Hi Hj. unfold columns. by rewrite (proj2 (Nat.ltb_lt _ _)).
Qed.

End Factor.
Lemma transpose_spec L LT : length L = (d * d)%nat -> length LT = (d * d)%nat -> exists LT', transpose d L LT = Ok LT' /\ agrees LT' (fun i j => at2 L j i).
Proof.
  intros HL HLT. unfold transpose.
  destruct (for_upM_ind (fun n B => agrees B (fun i j => if (i <? n)%nat then at2 L j i else at2 LT i j)) 0 d
    (fun i LT => for_upM 0 d (fun j LT => l ← rd L (cell d j i); wr LT (cell d i j) l) LT) LT) as (B & -> & HB); [lia|by split| |].
  - intros n B Hn HB.
    destruct (for_upM_ind (fun m B => agrees B (fun i j => if decide ((i < n)%nat \/ (i = n /\ (j < m)%nat)) then at2 L j i else at2 LT i j)) 0 d
      (fun j LT => l ← rd L (cell d j n); wr LT (cell d n j) l) B) as (B1 & -> & HB1); [lia| | |].
    + revert HB. apply agrees_ext. intros i j _ _. destruct (Nat.ltb_spec i n); case_decide; done || lia.
    + intros m B1 Hm HB1. rewrite rd_cell, res_bind_Ok by (done || lia). destruct (agrees_wr _ _ n m (at2 L m n) HB1) as (B2 & Hw & HB2); [lia..|].
      exists B2. split; [done|]. revert HB2. apply agrees_ext. intros i j Hi Hj. unfold upd. destruct (decide (i = n /\ j = m)) as [[-> ->]|Hne]; [by rewrite decide_True by lia|].
      destruct (decide ((i < n)%nat \/ (i = n /\ (j < m)%nat))), (decide ((i < n)%nat \/ (i = n /\ (j < S m)%nat))); done || lia.
    + exists B1. split; [done|]. revert HB1. apply agrees_ext. intros i j _ Hj. destruct (Nat.ltb_spec i (S n)); case_decide; done || lia.
  - exists B. split; [done|]. revert HB. apply agrees_ext. intros i j Hi _. by rewrite (proj2 (Nat.ltb_lt _ _)).
Qed.

(** C36: The code factors the matrix into [L] times its transpose, solves the
    system of the transpose for the given vector and then that of [L] for the
    solution: every coefficient satisfies its equation in fixed-point
    arithmetic, and no array is left.  The two systems are in the wrong order for
    the normal equations. *)
Theorem ridge_solve_spec (M L y LT x beta : list Z) :
  length M = (d * d)%nat -> (forall i j, (i < d)%nat -> (j < d)%nat -> in_s 32 (at2 M i j)) -> is_factor M L -> (forall i, (i < d)%nat -> at2 L i i <> 0) ->
  words y -> length LT = (d * d)%nat -> length x = d -> length beta = d ->
  exists LT' z beta', solve d M y LT x beta = Ok beta' /\ words beta' /\
    (forall i j, (i < d)%nat -> (j < d)%nat -> at2 LT' i j = at2 L j i) /\ solves_upper LT' y z /\ solves_lower L z beta'.
Proof.
  intros HM Hwords HL Hdiag Hy HLT Hx Hbeta. unfold solve. rewrite (cholesky_spec M L HM Hwords HL), res_bind_Ok.
  destruct (transpose_spec L LT (factor_size M L HL) HLT) as (LT' & -> & Hsize & Hat). rewrite res_bind_Ok.
  destruct (backsubstituteUT_spec LT' y x Hsize Hy Hx) as (z & y' & -> & Hz & Hupper); [intros i Hi; rewrite Hat by done; by apply Hdiag|]. rewrite res_bind_Ok.
  destruct (backsubstituteLT_spec L z beta (factor_size M L HL) Hz Hbeta Hdiag) as (beta' & z' & -> & Hb' & Hlower). rewrite res_bind_Ok.
  exists LT', z, beta'. done.
Qed.

End Matrix.

(** ** Examples *)

(** The system of [[4, 2], [2, 2]] for [8, 6] has the solution [1, 2], but the
    code returns [0.5, 5.5], whose error is [5, 6]. *)
Definition one : Z := FIX_SCALE.
Definition sample_M : list Z := [4 * one; 2 * one; 2 * one; 2 * one].
Definition sample_L : list Z := [2 * one; 2 * one; one; one].
Definition sample_y : list Z := [8 * one; 6 * one].

Theorem ridge_wrong_solution :
  solve 2 sample_M sample_y (replicate 4 0) [0; 0] [0; 0] = Ok [one / 2; 5 * one + one / 2] /\
  solnerror 2 sample_M sample_y [one / 2; 5 * one + one / 2] = Ok [5 * one; 6 * one] /\
  solnerror 2 sample_M sample_y [one; 2 * one] = Ok [0; 0].
Proof. vm_compute. split; [|split]; reflexivity. Qed.

(** One record whose variable and outcome are both 1: the product is 2^32, so the
    matrix is 0 and the division stops the program; the coefficient is 1. *)
Theorem ridge_product_overflows : ridge_regression 1 [0%nat] 1 0 [[one; one]] [0] [0] [0] = Fault.
Proof. vm_compute. reflexivity. Qed.

Lemma sample_factor : is_factor 2 sample_M sample_L.
Proof.
  split; [done|..].
  - intros i j Hij. assert (i = 0 /\ j = 1)%nat as [-> ->] by lia. done.
  - intros j Hj. assert (j = 0 \/ j = 1)%nat as [-> | ->] by lia; vm_compute; done.
  - intros i j Hij. assert (i = 1 /\ j = 0)%nat as [-> ->] by lia. vm_compute. done.
Qed.

Lemma ridge_solve_witness : exists beta', solve 2 sample_M sample_y (replicate 4 0) [0; 0] [0; 0] = Ok beta' /\ length beta' = 2%nat.
Proof.
  destruct (ridge_solve_spec 2 sample_M sample_L sample_y (replicate 4 0) [0; 0] [0; 0]) as (LT' & z & beta' & Heq & [Hlen _] & _).
  - reflexivity.
  - intros i j Hi Hj. assert (i = 0 \/ i = 1)%nat as [-> | ->] by lia; assert (j = 0 \/ j = 1)%nat as [-> | ->] by lia; vm_compute; split; discriminate || reflexivity.
  - apply sample_factor.
  - intros i Hi. assert (i = 0 \/ i = 1)%nat as [-> | ->] by lia; vm_compute; discriminate.
  - split; [reflexivity|]. repeat constructor; vm_compute; discriminate || reflexivity.
  - reflexivity.
  - reflexivity.
  - reflexivity.
  - exists beta'. exact (conj Heq Hlen).
Defined.
