(* ===== verification/Queries.v ===== *)
(** Queries over a whole database: [pepper/apps/tolling.c], [email_history.c],
    [genome_snp_freq.c] and [cql_test.c].

    Each program gets its database from the block store by its hash, which
    [tolling.c] opens a commitment for, and walks through it;
    [cql_test.c] reads the memory. *)
From Stdlib Require Import ZArith Lia.
From stdpp Require Import base numbers list.
From S2P Require Import Prelude BlockStore Commitment.

Local Open Scope Z_scope.

(** ** Tolls *)

Module Tolling.

Record t_tuple_t : Type := Tuple { time : Z; toll_booth_id : Z; toll : Z }.
Record VerifierSideIn : Type := SideIn { spotchecks : list t_tuple_t; time_threshold : Z }.
Record Out : Type := Result { rejected : Z; cost : Z }.

Definition compute_cost (path : list t_tuple_t) : Z :=
  for_up 0 (length path) (fun i toRet => match path !! i with Some here => u32 (toRet + toll here) | None => toRet end) 0.

Definition close_match (s v : t_tuple_t) (threshold : Z) : bool :=
  let time_diff := time s - time v in
  (time_diff <? threshold) && (time_diff >? s32 (- threshold)) && (toll_booth_id s =? toll_booth_id v).

Definition verified_tolling (path : list t_tuple_t) (input : VerifierSideIn) : Out :=
  let cost := compute_cost path in
  let failed_spotchecks := for_up 0 (length (spotchecks input)) (fun i failed =>
    match spotchecks input !! i with
    | Some s =>
        let found := for_up 0 (length path) (fun j found =>
          match path !! j with Some v => if close_match s v (time_threshold input) then 1 else found | None => found end) 0 in
        if found =? 0 then 1 else failed
    | None => failed
    end) 0 in
  Result failed_spotchecks (if failed_spotchecks =? 0 then cost else 0).

(** What [commitmentget] answers is a parameter. *)
Definition compute `{BlockStore (list t_tuple_t)} {commitment_t : Type} (commitmentget : list Z -> commitment_t -> store (list t_tuple_t) -> res hash_t)
  (ck commitmentCK : list Z) (commitment : commitment_t) (verifier_in : VerifierSideIn) (σ : store (list t_tuple_t)) : res Out :=
  ck ← setcommitmentCK ck commitmentCK;
  hash_of_db ← commitmentget ck commitment σ;
  db ← hashget hash_of_db σ;
  Ok (verified_tolling db verifier_in).

(** A flag that an element sets. *)
Lemma flag_loop {A} (p : A -> bool) (l : list A) b :
  for_up 0 (length l) (fun i flag => match l !! i with Some x => if p x then 1 else flag | None => flag end) b = if existsb p l then 1 else b.
Proof.
  revert b. induction l as [|x l IH] using rev_ind; intros b; [done|]. rewrite length_app. cbn [length]. rewrite Nat.add_1_r, for_up_last by lia.
  rewrite (for_up_ext 0 (length l) _ (fun i flag => match l !! i with Some x => if p x then 1 else flag | None => flag end))
    by (intros i flag Hi; by rewrite lookup_app_l by lia).
  rewrite IH, existsb_app, lookup_app_r, Nat.sub_diag by lia. cbn. destruct (p x), (existsb p l); done.
Qed.

Definition total (path : list t_tuple_t) : Z := foldr (fun v s => toll v + s) 0 path.

Lemma compute_cost_spec path : compute_cost path = u32 (total path).
Proof.
  unfold compute_cost. induction path as [|v path IH] using rev_ind; [done|]. rewrite length_app. cbn [length]. rewrite Nat.add_1_r, for_up_last by lia.
  rewrite (for_up_ext 0 (length path) _ (fun i toRet => match path !! i with Some here => u32 (toRet + toll here) | None => toRet end))
    by (intros i s Hi; by rewrite lookup_app_l by lia).
  rewrite IH, lookup_app_r, Nat.sub_diag by lia. cbn. rewrite wrapu_mod_l. f_equal. unfold total. rewrite foldr_app. cbn.
  assert (forall x, foldr (fun v s => toll v + s) x path = foldr (fun v s => toll v + s) 0 path + x) as Hacc; [|rewrite (Hacc (toll v + 0)); lia].
  intros x. clear IH. induction path as [|u path IH']; cbn; [lia|]. rewrite IH'. lia.
Qed.

(** The toll is charged when every spot check has a tuple of its booth less
    than the threshold away; otherwise the statement is rejected and shows no
    toll. *)
Lemma verified_tolling_spec path input : in_s 32 (time_threshold input) -> - 2 ^ 31 < time_threshold input ->
  let ok := forallb (fun s => existsb (fun v => (Z.abs (time s - time v) <? time_threshold input) && (toll_booth_id s =? toll_booth_id v)) path) (spotchecks input) in
  verified_tolling path input = if ok then Result 0 (u32 (total path)) else Result 1 0.
Proof.
  intros Hin Hmin ok. unfold verified_tolling. rewrite compute_cost_spec.
  assert (forall s, for_up 0 (length path) (fun j found => match path !! j with Some v => if close_match s v (time_threshold input) then 1 else found | None => found end) 0
    = if existsb (fun v => (Z.abs (time s - time v) <? time_threshold input) && (toll_booth_id s =? toll_booth_id v)) path then 1 else 0) as Hfound.
  { intros s. rewrite (flag_loop (fun v => close_match s v (time_threshold input)) path 0). assert (forall l, existsb (fun v => close_match s v (time_threshold input)) l =
      existsb (fun v => (Z.abs (time s - time v) <? time_threshold input) && (toll_booth_id s =? toll_booth_id v)) l) as ->; [|done].
    induction l as [|v l IH]; [done|]. cbn. rewrite IH. f_equal. unfold close_match. rewrite wraps_small by (unfold in_s in *; lia). f_equal. lia. }
  rewrite (for_up_ext 0 (length (spotchecks input)) _ (fun i failed => match spotchecks input !! i with Some s =>
    if negb (existsb (fun v => (Z.abs (time s - time v) <? time_threshold input) && (toll_booth_id s =? toll_booth_id v)) path) then 1 else failed | None => failed end)).
  - rewrite flag_loop. assert (existsb (fun s => negb (existsb (fun v => (Z.abs (time s - time v) <? time_threshold input) && (toll_booth_id s =? toll_booth_id v)) path)) (spotchecks input) = negb ok) as ->; [|by destruct ok].
    unfold ok. clear. induction (spotchecks input) as [|s l IH]; [done|]. cbn. rewrite IH. by destruct (existsb _ path).
  - intros i failed Hi. destruct (spotchecks input !! i) as [s|]; [|done]. rewrite Hfound. by destruct (existsb _ path).
Qed.

(** The tolls of the committed tuples do not enter the check: a customer who
    writes 0 in every tuple is charged nothing and passes. *)
Lemma tolls_unchecked path input : rejected (verified_tolling path input) = 0 ->
  verified_tolling (map (fun v => Tuple (time v) (toll_booth_id v) 0) path) input = Result 0 0.
Proof.
  unfold verified_tolling. cbn [rejected]. rewrite !compute_cost_spec.
  assert (total (map (fun v => Tuple (time v) (toll_booth_id v) 0) path) = 0) as -> by (induction path as [|v path IH]; [done|]; exact IH).
  rewrite length_map. intros Hrej.
  match type of Hrej with ?flag = 0 => match goal with |- Result ?flag' _ = _ => assert (flag' = flag) as ->; [|rewrite Hrej; reflexivity] end end.
  apply for_up_ext. intros i failed Hi. destruct (spotchecks input !! i) as [s|]; [|done].
  rewrite (for_up_ext 0 (length path) _ (fun j found => match path !! j with Some v => if close_match s v (time_threshold input) then 1 else found | None => found end)); [done|].
  intros j found Hj. rewrite list_lookup_fmap. by destruct (path !! j).
Qed.

End Tolling.

(** ** Mail *)

Module Email.

Definition MAX_RESULTS : nat := 5.
Record email : Type := Email { timestamp : Z; sender : Z; receiver : Z }.
Record resultList : Type := ResultList { length_ : Z; emails : list email }.
#[export] Instance email_inhabited : Inhabited email := populate (Email 0 0 0).

Definition resultList_clear (r : resultList) : resultList := ResultList 0 (emails r).

Definition resultList_add (r : resultList) (toAdd : email) : resultList :=
  if length_ r <? Z.of_nat MAX_RESULTS then
    ResultList (length_ r + 1) (for_up 0 MAX_RESULTS (fun i es => if Z.of_nat i =? length_ r then <[i := toAdd]> es else es) (emails r))
  else r.

Definition search_db (db : list email) (t_1 search : Z) (was_sender was_receiver : resultList) : resultList * resultList :=
  for_up 0 (length db) (fun i '(s, r) =>
    let e := db !!! i in
    if timestamp e >=? t_1 then
      let s := if sender e =? search then resultList_add s e else s in
      let r := if receiver e =? search then resultList_add r e else r in
      (s, r)
    else (s, r)) (resultList_clear was_sender, resultList_clear was_receiver).

Definition compute `{BlockStore (list email)} (digest_of_db : hash_t) (t_1 search : Z) (was_sender was_receiver : resultList) (σ : store (list email))
  : res (resultList * resultList) :=
  db ← hashget digest_of_db σ;
  Ok (search_db db t_1 search was_sender was_receiver).

(** [r] holds the first [MAX_RESULTS] of [xs]. *)
Definition first_of (xs : list email) (r : resultList) : Prop :=
  length (emails r) = MAX_RESULTS /\ length_ r = Z.of_nat (Nat.min MAX_RESULTS (length xs)) /\
  take (Nat.min MAX_RESULTS (length xs)) (emails r) = take MAX_RESULTS xs.

Lemma add_first xs r e : first_of xs r -> first_of (xs ++ [e]) (resultList_add r e).
Proof.
  intros (Hl & Hn & Ht). unfold resultList_add. rewrite Hn. destruct (Z.ltb_spec (Z.of_nat (Nat.min MAX_RESULTS (length xs))) (Z.of_nat MAX_RESULTS)) as [Hlt|Hge].
  - set (n := length xs) in *. assert (Nat.min MAX_RESULTS n = n) as Hmin by lia. rewrite Hmin in *.
    pose proof (for_up_once MAX_RESULTS (fun _ => Z.of_nat n) (fun i es => <[i := e]> es) (emails r)) as Honce. cbn beta in Honce. rewrite Honce by done. clear Honce.
    rewrite (proj2 (Z.leb_le _ _)), (proj2 (Z.ltb_lt _ _)) by lia. cbn [andb]. rewrite Nat2Z.id. unfold first_of. cbn [emails length_]. rewrite length_insert, length_app. cbn [length]. fold n.
    split; [done|]. split; [lia|]. rewrite Nat.min_r by lia. rewrite (take_ge (xs ++ [e])) by (rewrite length_app; cbn; lia). rewrite Nat.add_1_r.
    erewrite take_S_r by (apply list_lookup_insert_eq; lia). rewrite take_insert_ge, Ht, take_ge by lia. done.
  - unfold first_of. rewrite length_app. cbn [length]. split; [done|]. split; [lia|]. rewrite Nat.min_l in Ht by lia. rewrite Nat.min_l by lia. rewrite take_app_le by lia. done.
Qed.

Definition sent (t_1 search : Z) (e : email) : bool := (t_1 <=? timestamp e) && (sender e =? search).
Definition received (t_1 search : Z) (e : email) : bool := (t_1 <=? timestamp e) && (receiver e =? search).

(** The first five mails from the time on that the person sent, and received. *)
Lemma search_db_spec db t_1 search s r : length (emails s) = MAX_RESULTS -> length (emails r) = MAX_RESULTS ->
  first_of (List.filter (sent t_1 search) db) (search_db db t_1 search s r).1 /\ first_of (List.filter (received t_1 search) db) (search_db db t_1 search s r).2.
Proof.
  intros Hs Hr. unfold search_db.
  pose proof (for_up_ind (fun i '(s, r) => first_of (List.filter (sent t_1 search) (take i db)) s /\ first_of (List.filter (received t_1 search) (take i db)) r) 0 (length db)
    (fun i '(s, r) => let e := db !!! i in if timestamp e >=? t_1 then
      let s := if sender e =? search then resultList_add s e else s in let r := if receiver e =? search then resultList_add r e else r in (s, r) else (s, r))
    (resultList_clear s, resultList_clear r)) as Hloop.
  destruct (for_up 0 _ _ _) as [s' r']. rewrite firstn_all in Hloop. apply Hloop; [lia|by split|]. clear Hloop. intros i [s1 r1] Hi [Hs1 Hr1]. assert (db !! i = Some (db !!! i)) as He by (apply list_lookup_lookup_total_lt; lia).
  rewrite (take_S_r _ _ _ He), !List.filter_app. cbn [List.filter]. set (e := db !!! i). unfold sent at 2, received at 2. rewrite Z.geb_leb.
  destruct (t_1 <=? timestamp e); cbn [andb]; [|by rewrite !app_nil_r]. split; [destruct (sender e =? search)|destruct (receiver e =? search)]; rewrite ?app_nil_r; try done; by apply add_first.
Qed.

(** A search in a stored database. *)
Lemma email_history_correct `{BlockStoreLaws (list email)} db h σ σ' t_1 search s r : hashput db σ = (h, σ') ->
  length (emails s) = MAX_RESULTS -> length (emails r) = MAX_RESULTS ->
  exists s' r', compute h t_1 search s r σ' = Ok (s', r') /\ first_of (List.filter (sent t_1 search) db) s' /\ first_of (List.filter (received t_1 search) db) r'.
Proof.
  intros Hput Hs Hr. unfold compute. rewrite (hashget_put _ _ _ _ Hput), res_bind_Ok. destruct (search_db_spec db t_1 search s r Hs Hr).
  destruct (search_db db t_1 search s r) as [s' r']. by exists s', r'.
Qed.

End Email.

(** ** Genomes *)

Module Genome.

Record SNP_DB : Type := SnpDb { snps : list Z; num_individuals : Z }.

Definition count (db : SNP_DB) (search : Z) : Z * Z :=
  (for_up 0 (length (snps db)) (fun i matched => if snps db !!! i =? search then s32 (matched + 1) else matched) 0, num_individuals db).

Definition compute `{BlockStore SNP_DB} (digest_of_db : hash_t) (search : Z) (σ : store SNP_DB) : res (Z * Z) :=
  db ← hashget digest_of_db σ;
  Ok (count db search).

Lemma snp_count snps n search : Z.of_nat (length snps) < 2 ^ 31 ->
  count (SnpDb snps n) search = (Z.of_nat (length (List.filter (fun x => x =? search) snps)), n).
Proof.
  intros Hlen. unfold count. cbn [Genome.snps num_individuals]. f_equal.
  pose proof (for_up_ind (fun i c => c = Z.of_nat (length (List.filter (fun x => x =? search) (take i snps)))) 0 (length snps) (fun i matched => if snps !!! i =? search then s32 (matched + 1) else matched) 0) as Hloop.
  cbn beta in Hloop. rewrite firstn_all in Hloop. apply Hloop; [lia|done|]. clear Hloop. intros i c Hi ->. assert (snps !! i = Some (snps !!! i)) as Hx by (apply list_lookup_lookup_total_lt; lia).
  rewrite (take_S_r _ _ _ Hx), List.filter_app, length_app. cbn [List.filter]. destruct (snps !!! i =? search); cbn [length]; [|lia].
  assert (length (List.filter (fun x : Z => (x =? search)%Z) (take i snps)) <= i)%nat as Hle by (etransitivity; [apply List.filter_length_le|]; rewrite length_take; lia).
  rewrite wraps_small by (unfold in_s; lia). lia.
Qed.

End Genome.

(** ** A query over an index *)

Module Cql.

Definition logSIZE : nat := 5.

(** [ramget] gives 32-bit words. *)
Definition search_step (ram : Z -> Z) (lr : Z * Z) : Z * Z :=
  let '(left_, right_) := lr in
  let mid := Z.shiftr (u32 (left_ + right_)) 1 in
  if ram mid <? 8 then (u32 (mid + 1), right_) else (left_, u32 (mid - 1)).

Definition compute (ram : Z -> Z) (output : list Z) : res (list Z) :=
  let lower_bound := 64 in
  let '(left_, right_) := for_up 0 logSIZE (fun _ lr => search_step ram lr) (64, 79) in
  let upper_bound := right_ in
  for_upM 0 3 (fun i output =>
    let n := Z.of_nat i in
    if n + lower_bound <? upper_bound then
      let index := ram (n + lower_bound + 16) in
      output ← wr output (n * 2) (ram index);
      wr output (n * 2 + 1) (ram (u32 (index + 16)))
    else
      output ← wr output (n * 2) 0;
      wr output (n * 2 + 1) 0) output.

(** The first [c] keys of the index, at addresses 64 to 79, are below 8. *)
Definition index_split (ram : Z -> Z) (c : Z) : Prop :=
  0 <= c <= 16 /\ forall a, 64 <= a <= 79 -> (ram a <? 8) = (a <? 64 + c).

Lemma bound_spec ram c : index_split ram c ->
  let right_ := (for_up 0 logSIZE (fun _ lr => search_step ram lr) (64, 79)).2 in
  if c =? 0 then right_ < 64 else right_ = 63 + c.
Proof.
  intros [Hc Hkeys].
  pose proof (for_up_ind (fun k '(left_, right_) => 62 <= right_ <= 79 /\
      ((64 <= left_ <= 64 + c /\ 63 + c <= right_ /\ (right_ + 1 - left_) * 2 ^ Z.of_nat k <= 16) \/ (c = 0 /\ left_ = 64 /\ right_ < 64)))
    0 logSIZE (fun _ lr => search_step ram lr) (64, 79)) as Hloop.
  destruct (for_up 0 logSIZE _ _) as [left_ right_]. cbn [snd].
  assert (62 <= right_ <= 79 /\ ((64 <= left_ <= 64 + c /\ 63 + c <= right_ /\ (right_ + 1 - left_) * 2 ^ Z.of_nat logSIZE <= 16) \/ (c = 0 /\ left_ = 64 /\ right_ < 64))) as Hend.
  { apply Hloop; [unfold logSIZE; lia|cbn; lia|]. clear Hloop. intros k [l r] Hk (Hr & Hcase). unfold search_step. rewrite Z.shiftr_div_pow2 by lia. change (2 ^ 1) with 2.
    assert (64 <= l <= 80) by lia. rewrite (wrapu_small 32 (l + r)) by (unfold in_u; lia). set (mid := (l + r) / 2). assert (2 * mid <= l + r < 2 * mid + 2) as Hmid by (unfold mid; Z.to_euclidean_division_equations; lia).
    rewrite !wrapu_small by (unfold in_u; lia). replace (Z.of_nat (S k)) with (Z.of_nat k + 1) by lia. rewrite Z.pow_add_r by lia. change (2 ^ 1) with 2.
    assert (0 < 2 ^ Z.of_nat k) by (apply Z.pow_pos_nonneg; lia).
    destruct (decide (64 <= mid <= 79)) as [Hin|Hout].
    - rewrite (Hkeys mid Hin). destruct (Z.ltb_spec mid (64 + c)).
      + split; [lia|]. destruct Hcase as [(K1 & K2 & K3)|?]; [left|lia]. split; [lia|]. split; [lia|]. nia.
      + split; [lia|]. destruct Hcase as [(K1 & K2 & K3)|(-> & -> & ?)]; [|right; lia]. destruct (decide (l <= r)); [left; split; [lia|]; split; [lia|]; nia|]. right. lia.
    - assert (c = 0) as -> by lia. assert (l = 64) as -> by lia. assert (mid = 63) as Hm by lia. rewrite Hm in *. destruct (ram 63 <? 8); (split; [lia|]); destruct Hcase as [(K1 & K2 & K3)|(_ & _ & ?)]; right; lia. }
  destruct Hend as [Hr [(K1 & K2 & K3)|(-> & _ & K2)]]; [|done]. change (2 ^ Z.of_nat logSIZE) with 32 in K3. destruct (Z.eqb_spec c 0); lia.
Qed.
(** The rows of the matching keys but the last: the bound is the address of
    the last match, and the comparison is strict. *)
Lemma cql_drops_last ram c output : index_split ram c -> length output = 20%nat ->
  exists out, compute ram output = Ok out /\ length out = 20%nat /\
    forall i, (i < 3)%nat ->
      out !!! (2 * i)%nat = (if Z.of_nat i + 1 <? c then ram (ram (80 + Z.of_nat i)) else 0) /\
      out !!! (2 * i + 1)%nat = (if Z.of_nat i + 1 <? c then ram (u32 (ram (80 + Z.of_nat i) + 16)) else 0).
Proof.
  intros Hsplit Hout. unfold compute. pose proof (bound_spec ram c Hsplit) as Hright. destruct Hsplit as [Hc _]. destruct (for_up 0 logSIZE _ _) as [left_ right_]. cbn [snd] in Hright. cbv zeta in *.
  match goal with |- context [for_upM 0 3 ?body output] =>
    destruct (for_upM_ind (fun n out => length out = 20%nat /\ forall i, (i < n)%nat ->
      out !!! (2 * i)%nat = (if Z.of_nat i + 1 <? c then ram (ram (80 + Z.of_nat i)) else 0) /\
      out !!! (2 * i + 1)%nat = (if Z.of_nat i + 1 <? c then ram (u32 (ram (80 + Z.of_nat i) + 16)) else 0)) 0 3 body output) as (out & -> & Hl & Hrows) end; [lia|split; [done|intros i Hi; lia]| |by exists out].
  intros n out Hn [Hl Hrows].
  assert (forall u v, exists out', (output ← wr out (Z.of_nat n * 2) u; wr output (Z.of_nat n * 2 + 1) v) = Ok out' /\ length out' = 20%nat /\
    out' !!! (2 * n)%nat = u /\ out' !!! (2 * n + 1)%nat = v /\ forall j, (j < 2 * n)%nat -> out' !!! j = out !!! j) as Hw.
  { intros u v. rewrite wr_Ok, res_bind_Ok, wr_Ok by (rewrite ?length_insert; lia). eexists. split; [reflexivity|]. rewrite !length_insert. split; [done|].
    replace (Z.to_nat (Z.of_nat n * 2)) with (2 * n)%nat by lia. replace (Z.to_nat (Z.of_nat n * 2 + 1)) with (2 * n + 1)%nat by lia.
    split; [rewrite list_lookup_total_insert_ne, list_lookup_total_insert_eq by (rewrite ?length_insert; lia); done|].
    split; [rewrite list_lookup_total_insert_eq by (rewrite ?length_insert; lia); done|]. intros j Hj. by rewrite !list_lookup_total_insert_ne by lia. }
  assert ((Z.of_nat n + 64 <? right_) = (Z.of_nat n + 1 <? c)) as -> by (destruct (Z.eqb_spec c 0); lia).
  replace (Z.of_nat n + 64 + 16) with (80 + Z.of_nat n) by lia.
  destruct (Z.of_nat n + 1 <? c) eqn:Hcmp;
    match goal with |- context [wr out _ ?u ≫= (fun o => wr o _ ?v)] => destruct (Hw u v) as (out' & -> & Hl' & Hu & Hv & Hother) end;
    (exists out'; split; [done|]; split; [done|]; intros i Hi; destruct (decide (i = n)) as [->|Hne]; [by rewrite Hcmp|]; rewrite !Hother by lia; apply Hrows; lia).
Qed.

End Cql.
