(* ===== verification/CqlTree.v ===== *)
(** The host tree of the query compiler, [compiler/cql/cql.h]: an unbalanced
    search tree of [malloc]ed nodes behind pointers to pointers.

    The heap is a finite map from addresses to nodes.  Reading or writing
    through an address that is not in the map, and freeing one, is a fault, so
    a pointer that outlives its node is visible.  [malloc] is a parameter: it gives
    an address that is not in use, with whatever the memory held.  Recursion is
    bounded by a fuel that a result [NoFuel] tells from a fault. *)
From Stdlib Require Import ZArith Lia.
From stdpp Require Import base numbers list gmap.
From S2P Require Import Prelude.

Local Open Scope Z_scope.

Definition MAX_TREE_RESULTS : nat := 3.

Record tree_node_t : Type := Node {
  key : Z; value : Z;
  key_size : Z; value_size : Z;
  left : nat; right : nat
}.

Record tree_result_t : Type := Result { r_key : Z; r_value : Z; r_key_size : Z; r_value_size : Z }.
Record tree_result_set_t : Type := ResultSet { num_results : Z; results : list tree_result_t }.

Abbreviation heap := (gmap nat tree_node_t).

(** [tree_t] and the memory it points into; 0 is the null pointer. *)
Record state : Type := State { root : nat; mem : heap }.

(** What a [tree_node_t**] of the code points to. *)
Inductive slot : Type := Root | LeftOf (p : nat) | RightOf (p : nat).

Definition load (p : nat) (h : heap) : res tree_node_t := match h !! p with Some n => Ok n | None => Fault end.
Definition set_left (n : tree_node_t) (p : nat) : tree_node_t := Node (key n) (value n) (key_size n) (value_size n) p (right n).
Definition set_right (n : tree_node_t) (p : nat) : tree_node_t := Node (key n) (value n) (key_size n) (value_size n) (left n) p.
Definition set_pair (n : tree_node_t) (k v : Z) : tree_node_t := Node k v (key_size n) (value_size n) (left n) (right n).

Definition get (t : slot) (s : state) : res nat :=
  match t with
  | Root => Ok (root s)
  | LeftOf p => n ← load p (mem s); Ok (left n)
  | RightOf p => n ← load p (mem s); Ok (right n)
  end.

Definition set (t : slot) (q : nat) (s : state) : res state :=
  match t with
  | Root => Ok (State q (mem s))
  | LeftOf p => n ← load p (mem s); Ok (State (root s) (<[p := set_left n q]> (mem s)))
  | RightOf p => n ← load p (mem s); Ok (State (root s) (<[p := set_right n q]> (mem s)))
  end.

Definition free (p : nat) (s : state) : res state :=
  if (p =? 0)%nat then Ok s else n ← load p (mem s); Ok (State (root s) (delete p (mem s))).

Definition s_load (p : nat) (s : state) : res tree_node_t := load p (mem s).

(** ** The code *)

Section Code.
Context (malloc : heap -> nat * tree_node_t).

Definition tree_init (s : state) : state := State 0 (mem s).

Fixpoint tree_insert_ (fuel : nat) (t : slot) (k v : Z) (s : state) : res state :=
  match fuel with
  | O => NoFuel
  | S fuel =>
      p ← get t s;
      if (p =? 0)%nat then
        let '(q, n) := malloc (mem s) in
        set t q (State (root s) (<[q := Node k v (key_size n) (value_size n) 0 0]> (mem s)))
      else
        n ← s_load p s;
        if key n >? k then tree_insert_ fuel (LeftOf p) k v s else tree_insert_ fuel (RightOf p) k v s
  end.

(** The [while] that looks for the leftmost node. *)
Fixpoint leftmost (fuel : nat) (min : slot) (s : state) : res slot :=
  match fuel with
  | O => NoFuel
  | S fuel =>
      p ← get min s;
      n ← s_load p s;
      if (left n =? 0)%nat then Ok min else leftmost fuel (LeftOf p) s
  end.

Fixpoint tree_delete_ (fuel : nat) (t : slot) (k : Z) (s : state) : res state :=
  match fuel with
  | O => NoFuel
  | S fuel =>
      p ← get t s;
      if (p =? 0)%nat then Ok s
      else
        n ← s_load p s;
        if key n >? k then tree_delete_ fuel (LeftOf p) k s
        else if key n <? k then tree_delete_ fuel (RightOf p) k s
        else if (left n =? 0)%nat && (right n =? 0)%nat then
          free p s
        else if (left n =? 0)%nat then
          s ← set t (right n) s; q ← get t s; free q s
        else if (right n =? 0)%nat then
          s ← set t (left n) s; q ← get t s; free q s
        else
          temp ← leftmost fuel (RightOf p) s;
          m ← get temp s;
          least ← s_load m s;
          let s := State (root s) (<[p := set_pair n (key least) (value least)]> (mem s)) in
          s ← set temp (right least) s;
          free m s
  end.

(** [var->results[i]] gets the pair of a node; the sizes stay. *)
Definition put_result (i : Z) (n : tree_node_t) (var : list tree_result_t) : res (list tree_result_t) :=
  r ← rd var i; wr var i (Result (key n) (value n) (r_key_size r) (r_value_size r)).

Definition add_result (n : tree_node_t) (var : list tree_result_t) (i : Z) : res (list tree_result_t * Z) :=
  if i <? Z.of_nat MAX_TREE_RESULTS then var ← put_result i n var; Ok (var, i + 1) else Ok (var, i).

Fixpoint tree_find_EQ_ (fuel : nat) (t : nat) (var : list tree_result_t) (k i : Z) (s : state) : res (list tree_result_t * Z) :=
  match fuel with
  | O => NoFuel
  | S fuel =>
      if (t =? 0)%nat then Ok (var, 0)
      else
        n ← s_load t s;
        if key n >? k then tree_find_EQ_ fuel (left n) var k i s
        else if key n <? k then tree_find_EQ_ fuel (right n) var k i s
        else
          '(var, c) ← tree_find_EQ_ fuel (left n) var k i s;
          let i := s32 (i + c) in
          '(var, i) ← add_result n var i;
          '(var, c) ← tree_find_EQ_ fuel (right n) var k i s;
          Ok (var, s32 (i + c))
  end.

Fixpoint tree_find_LT_ (fuel : nat) (t : nat) (var : list tree_result_t) (k : Z) (equal_to : bool) (i : Z) (s : state) : res (list tree_result_t * Z) :=
  match fuel with
  | O => NoFuel
  | S fuel =>
      if (t =? 0)%nat then Ok (var, i)
      else
        n ← s_load t s;
        if key n >? k then tree_find_LT_ fuel (left n) var k equal_to i s
        else
          '(var, i) ← tree_find_LT_ fuel (left n) var k equal_to i s;
          if equal_to || (key n <? k) then
            '(var, i) ← add_result n var i;
            tree_find_LT_ fuel (right n) var k equal_to i s
          else Ok (var, i)
  end.

Fixpoint tree_find_GT_ (fuel : nat) (t : nat) (var : list tree_result_t) (k : Z) (equal_to : bool) (i : Z) (s : state) : res (list tree_result_t * Z) :=
  match fuel with
  | O => NoFuel
  | S fuel =>
      if (t =? 0)%nat then Ok (var, i)
      else
        n ← s_load t s;
        if key n <? k then tree_find_GT_ fuel (right n) var k equal_to i s
        else
          '(var, i) ←
            (if equal_to || (key n >? k) then
               '(var, i) ← tree_find_GT_ fuel (left n) var k equal_to i s;
               add_result n var i
             else Ok (var, i));
          tree_find_GT_ fuel (right n) var k equal_to i s
  end.

(** What [tree_traverse] prints. *)
Fixpoint tree_traverse_ (fuel : nat) (t : nat) (s : state) : res (list (Z * Z)) :=
  match fuel with
  | O => NoFuel
  | S fuel =>
      if (t =? 0)%nat then Ok []
      else
        n ← s_load t s;
        l ← tree_traverse_ fuel (left n) s;
        r ← tree_traverse_ fuel (right n) s;
        Ok (l ++ (key n, value n) :: r)
  end.

Definition tree_traverse (fuel : nat) (s : state) : res (list (Z * Z)) := tree_traverse_ fuel (root s) s.
Definition tree_insert (fuel : nat) (k v : Z) (s : state) : res state := tree_insert_ fuel Root k v s.
Definition tree_remove (fuel : nat) (k : Z) (s : state) : res state := tree_delete_ fuel Root k s.
Definition tree_remove_value (k v : Z) (s : state) : state := s.
Definition tree_find_eq (fuel : nat) (k : Z) (var : tree_result_set_t) (s : state) : res tree_result_set_t :=
  '(r, i) ← tree_find_EQ_ fuel (root s) (results var) k 0 s; Ok (ResultSet i r).
Definition tree_find_lt (fuel : nat) (k : Z) (equal_to : bool) (var : tree_result_set_t) (s : state) : res tree_result_set_t :=
  '(r, i) ← tree_find_LT_ fuel (root s) (results var) k equal_to 0 s; Ok (ResultSet i r).
Definition tree_find_gt (fuel : nat) (k : Z) (equal_to : bool) (var : tree_result_set_t) (s : state) : res tree_result_set_t :=
  '(r, i) ← tree_find_GT_ fuel (root s) (results var) k equal_to 0 s; Ok (ResultSet i r).

End Code.

(** ** The tree in the heap *)

Inductive tree : Type := Leaf | Branch (p : nat) (l : tree) (k v : Z) (r : tree).

Fixpoint inorder (t : tree) : list (Z * Z) :=
  match t with Leaf => [] | Branch _ l k v r => inorder l ++ (k, v) :: inorder r end.
Fixpoint addrs (t : tree) : list nat :=
  match t with Leaf => [] | Branch p l _ _ r => p :: addrs l ++ addrs r end.
Fixpoint height (t : tree) : nat :=
  match t with Leaf => 0 | Branch _ l _ _ r => S (Nat.max (height l) (height r)) end.

(** Pointer [p] leads to the tree [t], all of whose nodes are allocated. *)
Fixpoint rep (h : heap) (p : nat) (t : tree) : Prop :=
  match t with
  | Leaf => p = 0%nat
  | Branch a l k v r => p = a /\ a <> 0%nat /\ exists n, h !! a = Some n /\ key n = k /\ value n = v /\ rep h (left n) l /\ rep h (right n) r
  end.

(** Equal keys are on the right. *)
Fixpoint ordered (t : tree) : Prop :=
  match t with
  | Leaf => True
  | Branch _ l k _ r => ordered l /\ ordered r /\ Forall (fun x => x.1 < k) (inorder l) /\ Forall (fun x => k <= x.1) (inorder r)
  end.

Record stored (s : state) (t : tree) : Prop := {
  stored_rep : rep (mem s) (root s) t;
  stored_nodup : NoDup (addrs t);
  stored_ordered : ordered t
}.

Lemma rep_frame h h' p t : (forall a, a ∈ addrs t -> h' !! a = h !! a) -> rep h p t -> rep h' p t.
Proof.
  revert p. induction t as [|a l IHl k v r IHr]; intros p Hh; [done|]. cbn in *.
  intros (-> & Ha & n & Hn & Hk & Hv & Hl & Hr). split; [done|]. split; [done|]. exists n. rewrite Hh by set_solver.
  split; [done|]. split; [done|]. split; [done|]. split; [apply IHl|apply IHr]; try done; set_solver.
Qed.

Lemma rep_alloc h p t a : rep h p t -> a ∈ addrs t -> is_Some (h !! a).
Proof.
  revert p. induction t as [|b l IHl k v r IHr]; intros p; cbn; [set_solver|].
  intros (-> & Hb & n & Hn & Hk & Hv & Hl & Hr) [->|[Ha|Ha]%elem_of_app]%elem_of_cons; [by exists n|by eapply IHl|by eapply IHr].
Qed.

Lemma rep_is_null h p t : rep h p t -> (p =? 0)%nat = match t with Leaf => true | _ => false end.
Proof. destruct t as [|a l k v r]; cbn; [by intros ->|]. intros (-> & Ha & _). by apply Nat.eqb_neq. Qed.

(** ** Searches *)

Definition pair_of (r : tree_result_t) : Z * Z := (r_key r, r_value r).
Definition with_pair (x : Z * Z) (r : tree_result_t) : tree_result_t := Result x.1 x.2 (r_key_size r) (r_value_size r).

(** Results go to the places from [i] on while there is room. *)
Fixpoint fill (xs : list (Z * Z)) (var : list tree_result_t) (i : nat) : list tree_result_t * nat :=
  match xs with
  | [] => (var, i)
  | x :: xs => if (i <? MAX_TREE_RESULTS)%nat then fill xs (alter (with_pair x) i var) (S i) else (var, i)
  end.

Definition filled (vi : list tree_result_t * nat) : list tree_result_t * Z := (vi.1, Z.of_nat vi.2).

Lemma alter_insert (f : tree_result_t -> tree_result_t) (l : list tree_result_t) (i : nat) r : l !! i = Some r -> <[i := f r]> l = alter f i l.
Proof.
  intros Hr. apply list_eq. intros j. destruct (decide (i = j)) as [->|Hne].
  - rewrite list_lookup_insert_eq by (by apply lookup_lt_Some in Hr). by rewrite list_lookup_alter_eq, Hr.
  - by rewrite list_lookup_insert_ne, list_lookup_alter_ne by done.
Qed.

Lemma fill_app xs ys var i : fill (xs ++ ys) var i = fill ys (fill xs var i).1 (fill xs var i).2.
Proof.
  revert var i. induction xs as [|x xs IH]; intros var i; [done|]. cbn [app fill]. destruct (Nat.ltb_spec i MAX_TREE_RESULTS) as [Hi|Hi]; [apply IH|].
  cbn. destruct ys as [|y ys]; [done|]. cbn [fill]. by destruct (Nat.ltb_spec i MAX_TREE_RESULTS); [lia|].
Qed.

Lemma fill_bounds xs var i : length var = MAX_TREE_RESULTS -> (i <= MAX_TREE_RESULTS)%nat ->
  length (fill xs var i).1 = MAX_TREE_RESULTS /\ (fill xs var i).2 = Nat.min MAX_TREE_RESULTS (i + length xs).
Proof.
  revert var i. induction xs as [|x xs IH]; intros var i Hv Hi; [cbn [fill fst snd length]; split; [done|lia]|]. cbn [fill].
  destruct (Nat.ltb_spec i MAX_TREE_RESULTS) as [Hlt|Hge]; [|cbn [fst snd]; split; [done|lia]].
  destruct (IH (alter (with_pair x) i var) (S i)) as [H1 H2]; [by rewrite length_alter|lia|]. split; [done|]. rewrite H2. cbn [length]. lia.
Qed.

Lemma fill_contents xs var i : length var = MAX_TREE_RESULTS -> (i <= MAX_TREE_RESULTS)%nat ->
  let n := (fill xs var i).2 in
  map pair_of (take n (fill xs var i).1) = map pair_of (take i var) ++ take (MAX_TREE_RESULTS - i) xs /\
  drop n (fill xs var i).1 = drop n var.
Proof.
  revert var i. induction xs as [|x xs IH]; intros var i Hv Hi; [cbn; by rewrite take_nil, app_nil_r|]. cbn [fill].
  destruct (Nat.ltb_spec i MAX_TREE_RESULTS) as [Hlt|Hge]; cbn [fst snd].
  - destruct (IH (alter (with_pair x) i var) (S i)) as [H1 H2]; [by rewrite length_alter|lia|]. cbn zeta in *. rewrite H1, H2. split.
    + destruct (lookup_lt_is_Some_2 var i) as [r Hr]; [lia|]. erewrite take_S_r by (by rewrite list_lookup_alter_eq, Hr).
      rewrite take_alter_ge by done. rewrite map_app, <- app_assoc. f_equal. replace (MAX_TREE_RESULTS - i)%nat with (S (MAX_TREE_RESULTS - S i)) by lia. by destruct x.
    + apply drop_alter_lt. destruct (fill_bounds xs (alter (with_pair x) i var) (S i)) as [_ ->]; [by rewrite length_alter|lia|]. lia.
  - split; [|done]. replace (MAX_TREE_RESULTS - i)%nat with 0%nat by lia. cbn. by rewrite app_nil_r.
Qed.

Lemma add_result_fill n var i : length var = MAX_TREE_RESULTS -> (i <= MAX_TREE_RESULTS)%nat ->
  add_result n var (Z.of_nat i) = Ok (filled (fill [(key n, value n)] var i)).
Proof.
  intros Hv Hi. unfold add_result, put_result. cbn [fill]. destruct (Nat.ltb_spec i MAX_TREE_RESULTS) as [Hlt|Hge].
  - rewrite (proj2 (Z.ltb_lt _ _)) by lia. destruct (lookup_lt_is_Some_2 var i) as [r Hr]; [lia|]. rewrite (rd_lookup var i r Hr), res_bind_Ok, wr_Ok by lia.
    rewrite res_bind_Ok. unfold filled. cbn [fst snd]. rewrite Nat2Z.id. rewrite <- (alter_insert _ _ _ _ Hr). do 2 f_equal. lia.
  - by rewrite (proj2 (Z.ltb_ge _ _)) by lia.
Qed.

Section Searches.
Context (s : state) (k : Z) (equal_to : bool).

Definition lt_key (x : Z * Z) : bool := (x.1 <? k) || (equal_to && (x.1 =? k)).
Definition gt_key (x : Z * Z) : bool := (k <? x.1) || (equal_to && (x.1 =? k)).
Definition eq_key (x : Z * Z) : bool := x.1 =? k.

Lemma filter_none (f : Z * Z -> bool) xs : Forall (fun x => f x = false) xs -> List.filter f xs = [].
Proof. induction 1 as [|x xs Hx _ IH]; [done|]. cbn. by rewrite Hx. Qed.

(** The keys on the far side of [k'] are not selected. *)
Lemma lt_right k' xs : k < k' -> Forall (fun x => k' <= x.1) xs -> List.filter lt_key xs = [].
Proof. intros Hk Hxs. apply filter_none. eapply Forall_impl; [exact Hxs|]. intros x Hx. unfold lt_key. cbn in Hx. destruct equal_to; cbn; lia. Qed.

Lemma lt_root xs : equal_to = false -> Forall (fun x => k <= x.1) xs -> List.filter lt_key xs = [].
Proof. intros He Hxs. apply filter_none. eapply Forall_impl; [exact Hxs|]. intros x Hx. unfold lt_key. rewrite He. cbn in *. lia. Qed.

Lemma gt_left k' xs : k' <= k -> Forall (fun x => x.1 < k') xs -> List.filter gt_key xs = [].
Proof. intros Hk Hxs. apply filter_none. eapply Forall_impl; [exact Hxs|]. intros x Hx. unfold gt_key. cbn in Hx. destruct equal_to; cbn; lia. Qed.

Lemma eq_left k' xs : k' <= k -> Forall (fun x => x.1 < k') xs -> List.filter eq_key xs = [].
Proof. intros Hk Hxs. apply filter_none. eapply Forall_impl; [exact Hxs|]. intros x Hx. unfold eq_key. cbn in Hx. lia. Qed.

Lemma eq_right k' xs : k < k' -> Forall (fun x => k' <= x.1) xs -> List.filter eq_key xs = [].
Proof. intros Hk Hxs. apply filter_none. eapply Forall_impl; [exact Hxs|]. intros x Hx. unfold eq_key. cbn in Hx. lia. Qed.

Lemma fill_one_app x xs var i : fill (x :: xs) var i = fill xs (fill [x] var i).1 (fill [x] var i).2.
Proof. apply (fill_app [x] xs). Qed.

Ltac bounds xs var i := let H1 := fresh "Hfl" in let H2 := fresh "Hfi" in destruct (fill_bounds xs var i) as [H1 H2]; [done|done || lia|].

Lemma tree_find_LT_spec fuel p t var i : rep (mem s) p t -> ordered t -> (height t < fuel)%nat ->
  length var = MAX_TREE_RESULTS -> (i <= MAX_TREE_RESULTS)%nat ->
  tree_find_LT_ fuel p var k equal_to (Z.of_nat i) s = Ok (filled (fill (List.filter lt_key (inorder t)) var i)).
Proof.
  revert p t var i. induction fuel as [|fuel IH]; intros p t var i Hrep Hord Hfuel Hv Hi; [lia|]. cbn [tree_find_LT_].
  rewrite (rep_is_null _ _ _ Hrep). destruct t as [|a l k' v r]; [done|]. destruct Hrep as (-> & Ha & n & Hn & Hk & Hval & Hl & Hr).
  destruct Hord as (Hol & Hor & Hlt & Hge). cbn [inorder height] in *.
  unfold s_load, load. rewrite Hn, res_bind_Ok, Hk, List.filter_app. cbn [List.filter].
  destruct (Z.gtb_spec k' k) as [Hgt|Hle].
  - rewrite (IH _ l) by (done || lia). rewrite (lt_right k' (inorder r)) by done. unfold lt_key at 3. cbn [fst].
    replace ((k' <? k) || equal_to && (k' =? k)) with false by (destruct equal_to; cbn; lia). by rewrite app_nil_r.
  - rewrite (IH _ l) by (done || lia). rewrite res_bind_Ok. unfold filled at 1. rewrite fill_app. bounds (List.filter lt_key (inorder l)) var i.
    destruct (fill (List.filter lt_key (inorder l)) var i) as [var1 i1]. cbn [fst snd] in *. unfold lt_key at 1. cbn [fst].
    destruct (equal_to || (k' <? k)) eqn:Hsel.
    + replace ((k' <? k) || equal_to && (k' =? k)) with true by (destruct equal_to; cbn in *; lia).
      rewrite (fill_one_app _ (List.filter lt_key (inorder r))), add_result_fill, res_bind_Ok by (done || lia). rewrite Hk, Hval. unfold filled at 1. bounds [(k', v)] var1 i1.
      rewrite (IH _ r) by (done || lia). done.
    + replace ((k' <? k) || equal_to && (k' =? k)) with false by (destruct equal_to; cbn in *; lia).
      rewrite lt_root; [done|by destruct equal_to|]. eapply Forall_impl; [exact Hge|]. cbn. intros. destruct equal_to; cbn in *; lia.
Qed.

Lemma tree_find_GT_spec fuel p t var i : rep (mem s) p t -> ordered t -> (height t < fuel)%nat ->
  length var = MAX_TREE_RESULTS -> (i <= MAX_TREE_RESULTS)%nat ->
  tree_find_GT_ fuel p var k equal_to (Z.of_nat i) s = Ok (filled (fill (List.filter gt_key (inorder t)) var i)).
Proof.
  revert p t var i. induction fuel as [|fuel IH]; intros p t var i Hrep Hord Hfuel Hv Hi; [lia|]. cbn [tree_find_GT_].
  rewrite (rep_is_null _ _ _ Hrep). destruct t as [|a l k' v r]; [done|]. destruct Hrep as (-> & Ha & n & Hn & Hk & Hval & Hl & Hr).
  destruct Hord as (Hol & Hor & Hlt & Hge). cbn [inorder height] in *.
  unfold s_load, load. rewrite Hn, res_bind_Ok, Hk, List.filter_app. cbn [List.filter].
  assert (gt_key (k', v) = negb (k' <? k) && (equal_to || (k' >? k))) as Hroot by (unfold gt_key; cbn; destruct equal_to; cbn; lia).
  rewrite Hroot. destruct (Z.ltb_spec k' k) as [Hlt'|Hge']; cbn [negb andb].
  - rewrite (IH _ r) by (done || lia). by rewrite (gt_left k' (inorder l)) by (done || lia).
  - destruct (equal_to || (k' >? k)) eqn:Hsel.
    + rewrite (IH _ l) by (done || lia). rewrite res_bind_Ok. unfold filled at 1. rewrite fill_app. bounds (List.filter gt_key (inorder l)) var i.
      destruct (fill (List.filter gt_key (inorder l)) var i) as [var1 i1]. cbn [fst snd] in *.
      rewrite (fill_one_app _ (List.filter gt_key (inorder r))), add_result_fill, res_bind_Ok by (done || lia). rewrite Hk, Hval. unfold filled at 1. bounds [(k', v)] var1 i1.
      by rewrite (IH _ r) by (done || lia).
    + rewrite res_bind_Ok, (IH _ r) by (done || lia). rewrite (gt_left k' (inorder l)); [done| |done]. destruct equal_to; cbn in *; lia.
Qed.

Lemma tree_find_EQ_none fuel p t var i : rep (mem s) p t -> ordered t -> (height t < fuel)%nat ->
  List.filter eq_key (inorder t) = [] -> tree_find_EQ_ fuel p var k i s = Ok (var, 0).
Proof.
  revert p t. induction fuel as [|fuel IH]; intros p t Hrep Hord Hfuel Hnone; [lia|]. cbn [tree_find_EQ_].
  rewrite (rep_is_null _ _ _ Hrep). destruct t as [|a l k' v r]; [done|]. destruct Hrep as (-> & Ha & n & Hn & Hk & Hval & Hl & Hr).
  destruct Hord as (Hol & Hor & Hlt & Hge). cbn [inorder height] in *. rewrite List.filter_app in Hnone. apply app_eq_nil in Hnone as [Hnl Hnr]. cbn [List.filter] in Hnr.
  unfold s_load, load. rewrite Hn, res_bind_Ok, Hk. destruct (eq_key (k', v)) eqn:Hroot; [done|]. unfold eq_key in Hroot. cbn in Hroot.
  destruct (Z.gtb_spec k' k); [by apply (IH _ l); [| |lia|]|]. rewrite (proj2 (Z.ltb_lt _ _)) by lia. apply (IH _ r); [done|done|lia|done].
Qed.

Lemma tree_find_EQ_one fuel p t var x : rep (mem s) p t -> ordered t -> (height t < fuel)%nat -> length var = MAX_TREE_RESULTS ->
  List.filter eq_key (inorder t) = [x] -> tree_find_EQ_ fuel p var k 0 s = Ok (filled (fill [x] var 0)).
Proof.
  revert p t. induction fuel as [|fuel IH]; intros p t Hrep Hord Hfuel Hv Hone; [lia|]. cbn [tree_find_EQ_].
  rewrite (rep_is_null _ _ _ Hrep). destruct t as [|a l k' v r]; [done|]. destruct Hrep as (-> & Ha & n & Hn & Hk & Hval & Hl & Hr).
  destruct Hord as (Hol & Hor & Hlt & Hge). cbn [inorder height] in *. rewrite List.filter_app in Hone. cbn [List.filter] in Hone. unfold eq_key at 2 in Hone. cbn [fst] in Hone.
  unfold s_load, load. rewrite Hn, res_bind_Ok, Hk.
  destruct (Z.gtb_spec k' k) as [Hgt|Hle].
  - rewrite (proj2 (Z.eqb_neq _ _)) in Hone by lia. rewrite (eq_right k' (inorder r)), app_nil_r in Hone by done. by apply (IH _ l); [| |lia| |].
  - rewrite (eq_left k' (inorder l)) in Hone by done. cbn [app] in Hone. destruct (Z.ltb_spec k' k) as [Hlt'|Hge'].
    + rewrite (proj2 (Z.eqb_neq _ _)) in Hone by lia. by apply (IH _ r); [| |lia| |].
    + rewrite (proj2 (Z.eqb_eq _ _)) in Hone by lia. injection Hone as <- Hnr.
      rewrite (tree_find_EQ_none fuel (left n) l), res_bind_Ok by (done || lia || (by apply (eq_left k'))). change (s32 (0 + 0)) with (Z.of_nat 0).
      rewrite add_result_fill, res_bind_Ok by (done || lia). rewrite Hk, Hval. unfold filled at 1. rewrite (tree_find_EQ_none fuel (right n) r), res_bind_Ok by (done || lia). done.
Qed.

End Searches.

(** ** What a step below a slot leaves alone *)

Definition owner (t : slot) : option nat := match t with Root => None | LeftOf p | RightOf p => Some p end.

(** Of the node that holds the slot only the slot changes; of the other
    nodes only those of [A] do. *)
Record changes (t : slot) (A : list nat) (s s' : state) : Prop := {
  ch_frame : forall a, is_Some (mem s !! a) -> a ∉ A -> owner t <> Some a -> mem s' !! a = mem s !! a;
  ch_slot : match t with
            | Root => True
            | LeftOf a => root s' = root s /\ forall n, mem s !! a = Some n -> exists p, mem s' !! a = Some (set_left n p)
            | RightOf a => root s' = root s /\ forall n, mem s !! a = Some n -> exists p, mem s' !! a = Some (set_right n p)
            end
}.

(** Slot [t] holds [p], which leads to [tr], and the slot is not in [tr]. *)
Record below (t : slot) (s : state) (p : nat) (tr : tree) : Prop := {
  below_get : get t s = Ok p;
  below_rep : rep (mem s) p tr;
  below_nodup : NoDup (addrs tr);
  below_owner : forall a, owner t = Some a -> a ∉ addrs tr
}.

Lemma load_some p h n : load p h = Ok n <-> h !! p = Some n.
Proof. unfold load. destruct (h !! p); split; congruence. Qed.

Lemma owner_alloc t s p a : get t s = Ok p -> owner t = Some a -> is_Some (mem s !! a).
Proof. destruct t as [|b|b]; cbn; [done|..]; unfold load; destruct (mem s !! b) as [n|] eqn:Hb; try done; intros _ [= <-]; by exists n. Qed.

(** A slot keeps its contents when its owner does. *)
Lemma get_same t s s' : root s' = root s -> (forall a, owner t = Some a -> mem s' !! a = mem s !! a) -> get t s' = get t s.
Proof. intros Hr Ha. destruct t as [|b|b]; cbn; [by rewrite Hr|..]; unfold load; by rewrite Ha. Qed.

Lemma set_spec t s p q : get t s = Ok p -> exists s', set t q s = Ok s' /\ get t s' = Ok q /\ changes t [] s s' /\
  (forall a, mem s' !! a = None <-> mem s !! a = None).
Proof.
  destruct t as [|a|a]; cbn; [|unfold load; destruct (mem s !! a) as [n|] eqn:Hn; [|done]..].
  - intros _. eexists. split; [reflexivity|]. done.
  - intros _. eexists. split; [reflexivity|]. cbn. unfold load. rewrite lookup_insert_eq. split; [done|]. split; [split|].
    + cbn. intros b Hb _ Hne. rewrite lookup_insert_ne by congruence. done.
    + split; [done|]. intros n' Hn'. rewrite Hn in Hn'. injection Hn' as <-. exists q. apply lookup_insert_eq.
    + intros b. destruct (decide (b = a)) as [->|Hne]; [rewrite lookup_insert_eq, Hn; done|]. by rewrite lookup_insert_ne.
  - intros _. eexists. split; [reflexivity|]. cbn. unfold load. rewrite lookup_insert_eq. split; [done|]. split; [split|].
    + cbn. intros b Hb _ Hne. rewrite lookup_insert_ne by congruence. done.
    + split; [done|]. intros n' Hn'. rewrite Hn in Hn'. injection Hn' as <-. exists q. apply lookup_insert_eq.
    + intros b. destruct (decide (b = a)) as [->|Hne]; [rewrite lookup_insert_eq, Hn; done|]. by rewrite lookup_insert_ne.
Qed.

Section Lift.
Context (t : slot) (s : state) (a : nat) (n : tree_node_t) (l r : tree).
Context (Hb : below t s a (Branch a l (key n) (value n) r)) (Hn : mem s !! a = Some n).

Lemma branch_parts : a <> 0%nat /\ rep (mem s) (left n) l /\ rep (mem s) (right n) r.
Proof. pose proof (below_rep _ _ _ _ Hb) as (_ & Ha & n' & Hn' & _ & _ & Hl & Hr). rewrite Hn in Hn'. by injection Hn' as <-. Qed.

Lemma branch_nodup : a ∉ addrs l /\ a ∉ addrs r /\ NoDup (addrs l) /\ NoDup (addrs r) /\ (forall b, b ∈ addrs l -> b ∉ addrs r).
Proof.
  pose proof (below_nodup _ _ _ _ Hb) as Hnd. cbn in Hnd. apply NoDup_cons in Hnd as [Ha [Hl [Hd Hr]]%NoDup_app].
  repeat split; [set_solver|set_solver|done|done|done].
Qed.

Lemma below_left : below (LeftOf a) s (left n) l.
Proof.
  destruct branch_parts as (_ & Hl & _). destruct branch_nodup as (Hal & _ & Hnd & _). split; [|done|done|].
  - cbn. unfold load. by rewrite Hn.
  - by intros b [= <-].
Qed.

Lemma below_right : below (RightOf a) s (right n) r.
Proof.
  destruct branch_parts as (_ & _ & Hr). destruct branch_nodup as (_ & Har & _ & Hnd & _). split; [|done|done|].
  - cbn. unfold load. by rewrite Hn.
  - by intros b [= <-].
Qed.

(** The slot itself is not among the nodes of the tree. *)
Lemma owner_apart b : owner t = Some b -> b <> a /\ b ∉ addrs l /\ b ∉ addrs r.
Proof. intros Hob. pose proof (below_owner _ _ _ _ Hb b Hob) as Hnot. cbn in Hnot. set_solver. Qed.

Lemma changes_up s' t' A : (t' = LeftOf a \/ t' = RightOf a) -> (forall b, b ∈ A -> b ∈ addrs l \/ b ∈ addrs r) -> changes t' A s s' ->
  get t s' = Ok a /\ changes t (a :: addrs l ++ addrs r) s s'.
Proof.
  intros Ht' HA Hch. assert (root s' = root s) as Hroot by (destruct Ht' as [-> | ->]; apply (ch_slot _ _ _ _ Hch)).
  assert (forall b, owner t = Some b -> mem s' !! b = mem s !! b) as Hown.
  { intros b Hob. destruct (owner_apart b Hob) as (Hba & Hbl & Hbr). apply (ch_frame _ _ _ _ Hch).
    - by apply (owner_alloc t s a b (below_get _ _ _ _ Hb)).
    - intros [?|?]%HA; done.
    - destruct Ht' as [-> | ->]; cbn; congruence. }
  split; [|split].
  - rewrite (get_same t s s' Hroot Hown). apply (below_get _ _ _ _ Hb).
  - intros b Hsome Hnot Hob. apply (ch_frame _ _ _ _ Hch); [done|intros [?|?]%HA; set_solver|]. destruct Ht' as [-> | ->]; cbn; set_solver.
  - destruct t as [|b|b]; [done|..]; cbn in Hown; split; try done; intros nb Hnb; rewrite Hown, Hnb by done; destruct nb; by eexists.
Qed.

Lemma lift_left s' p' l' : get (LeftOf a) s' = Ok p' -> rep (mem s') p' l' -> changes (LeftOf a) (addrs l) s s' ->
  get t s' = Ok a /\ rep (mem s') a (Branch a l' (key n) (value n) r) /\ changes t (a :: addrs l ++ addrs r) s s'.
Proof.
  intros Hget Hrep Hch. destruct branch_parts as (Ha & Hl & Hr). destruct branch_nodup as (Hal & Har & _ & _ & Hd).
  destruct (changes_up s' (LeftOf a) (addrs l)) as [Hg Hc]; [by left|by left|done|]. split; [done|]. split; [|done].
  split; [done|]. split; [done|]. destruct (proj2 (ch_slot _ _ _ _ Hch) n Hn) as [p Hp]. exists (set_left n p). split; [done|]. split; [done|]. split; [done|].
  cbn in Hget. unfold load in Hget. rewrite Hp in Hget. injection Hget as <-. split; [done|]. cbn.
  apply (rep_frame (mem s)); [|done]. intros b Hbr. apply (ch_frame _ _ _ _ Hch); [by eapply rep_alloc|set_solver|cbn; set_solver].
Qed.

Lemma lift_right s' p' r' : get (RightOf a) s' = Ok p' -> rep (mem s') p' r' -> changes (RightOf a) (addrs r) s s' ->
  get t s' = Ok a /\ rep (mem s') a (Branch a l (key n) (value n) r') /\ changes t (a :: addrs l ++ addrs r) s s'.
Proof.
  intros Hget Hrep Hch. destruct branch_parts as (Ha & Hl & Hr). destruct branch_nodup as (Hal & Har & _ & _ & Hd).
  destruct (changes_up s' (RightOf a) (addrs r)) as [Hg Hc]; [by right|by right|done|]. split; [done|]. split; [|done].
  split; [done|]. split; [done|]. destruct (proj2 (ch_slot _ _ _ _ Hch) n Hn) as [p Hp]. exists (set_right n p). split; [done|]. split; [done|]. split; [done|].
  cbn in Hget. unfold load in Hget. rewrite Hp in Hget. injection Hget as <-. split; [|done]. cbn.
  apply (rep_frame (mem s)); [|done]. intros b Hbl. apply (ch_frame _ _ _ _ Hch); [by apply (rep_alloc _ (left n) l)|set_solver|cbn; set_solver].
Qed.

End Lift.

(** ** Insertion *)

Fixpoint ins (q : nat) (k v : Z) (t : tree) : tree :=
  match t with
  | Leaf => Branch q Leaf k v Leaf
  | Branch a l k' v' r => if k' >? k then Branch a (ins q k v l) k' v' r else Branch a l k' v' (ins q k v r)
  end.

Lemma ins_addrs q k v t : addrs (ins q k v t) ≡ₚ q :: addrs t.
Proof.
  induction t as [|a l IHl k' v' r IHr]; [done|]. cbn. destruct (k' >? k); cbn.
  - rewrite IHl. apply Permutation_swap.
  - rewrite IHr, <- Permutation_middle. apply Permutation_swap.
Qed.

Definition up_to (k : Z) (x : Z * Z) : bool := x.1 <=? k.
Definition beyond (k : Z) (x : Z * Z) : bool := k <? x.1.

Lemma filter_all (f : Z * Z -> bool) xs : Forall (fun x => f x = true) xs -> List.filter f xs = xs.
Proof. induction 1 as [|x xs Hx _ IH]; [done|]. cbn. by rewrite Hx, IH. Qed.

Lemma ins_inorder q k v t : ordered t ->
  inorder (ins q k v t) = List.filter (up_to k) (inorder t) ++ (k, v) :: List.filter (beyond k) (inorder t).
Proof.
  induction t as [|a l IHl k' v' r IHr]; intros Hord; [done|]. destruct Hord as (Hl & Hr & Hlt & Hge). cbn [ins].
  destruct (Z.gtb_spec k' k) as [Hgt|Hle]; cbn [inorder]; rewrite !List.filter_app; cbn [List.filter]; unfold up_to at 2, beyond at 2; cbn [fst].
  - rewrite (proj2 (Z.leb_gt _ _)), (proj2 (Z.ltb_lt _ _)), IHl by (done || lia).
    rewrite (filter_none (up_to k) (inorder r)), (filter_all (beyond k) (inorder r)), app_nil_r, <- app_assoc; [done|..];
      (eapply Forall_impl; [exact Hge|]); intros x Hx; unfold up_to, beyond; cbn in Hx; lia.
  - rewrite (proj2 (Z.leb_le _ _)), (proj2 (Z.ltb_ge _ _)), IHr by (done || lia).
    rewrite (filter_all (up_to k) (inorder l)), (filter_none (beyond k) (inorder l)), <- app_assoc; [done|..];
      (eapply Forall_impl; [exact Hlt|]); intros x Hx; unfold up_to, beyond; cbn in Hx; lia.
Qed.

Lemma ins_elements q k v t x : x ∈ inorder (ins q k v t) -> x = (k, v) \/ x ∈ inorder t.
Proof.
  induction t as [|a l IHl k' v' r IHr]; cbn; [set_solver|]. destruct (k' >? k); cbn; rewrite !elem_of_app, !elem_of_cons; intuition.
Qed.

Lemma ins_ordered q k v t : ordered t -> ordered (ins q k v t).
Proof.
  induction t as [|a l IHl k' v' r IHr]; intros Hord; [done|]. destruct Hord as (Hl & Hr & Hlt & Hge). cbn [ins].
  destruct (Z.gtb_spec k' k) as [Hgt|Hle]; cbn [ordered]; split_and!; try by auto.
  - apply Forall_forall. intros x [->|Hx]%ins_elements; cbn; [lia|]. rewrite Forall_forall in Hlt. by apply Hlt.
  - apply Forall_forall. intros x [->|Hx]%ins_elements; cbn; [lia|]. rewrite Forall_forall in Hge. by apply Hge.
Qed.

Section Insert.
Context (malloc : heap -> nat * tree_node_t).
Context (malloc_fresh : forall h, (malloc h).1 <> 0%nat /\ h !! (malloc h).1 = None).

Lemma insert_below fuel t tr k v s p : below t s p tr -> (height tr < fuel)%nat ->
  exists s' p', tree_insert_ malloc fuel t k v s = Ok s' /\ get t s' = Ok p' /\ rep (mem s') p' (ins (malloc (mem s)).1 k v tr) /\ changes t (addrs tr) s s'.
Proof.
  revert t tr p. induction fuel as [|fuel IH]; intros t tr p Hb Hfuel; [lia|]. cbn [tree_insert_].
  rewrite (below_get _ _ _ _ Hb), res_bind_Ok, (rep_is_null _ _ _ (below_rep _ _ _ _ Hb)). destruct tr as [|a l k' v' r].
  - destruct (malloc_fresh (mem s)) as [Hq0 Hq]. destruct (malloc (mem s)) as [q g]. cbn [fst] in *.
    set (s1 := State (root s) (<[q := Node k v (key_size g) (value_size g) 0 0]> (mem s))).
    assert (forall b, is_Some (mem s !! b) -> b <> q) as Hne by (intros b [n Hn] ->; congruence).
    assert (forall b, is_Some (mem s !! b) -> mem s1 !! b = mem s !! b) as Hold by (intros b Hb'; apply lookup_insert_ne; pose proof (Hne b Hb'); congruence).
    destruct (set_spec t s1 p q) as (s2 & -> & Hg & Hch & _).
    { rewrite (get_same t s s1); [apply (below_get _ _ _ _ Hb)|done|]. intros b Hob. apply Hold. by apply (owner_alloc t s p b (below_get _ _ _ _ Hb)). }
    exists s2, q. split; [done|]. split; [done|]. split; [|split].
    + cbn. split; [done|]. split; [done|]. exists (Node k v (key_size g) (value_size g) 0 0). split; [|done]. rewrite (ch_frame _ _ _ _ Hch); [apply lookup_insert_eq| |set_solver|].
      * eexists. apply lookup_insert_eq.
      * intros Hob. apply (Hne q); [|done]. by apply (owner_alloc t s p q (below_get _ _ _ _ Hb)).
    + intros b Hsome _ Hob. rewrite (ch_frame _ _ _ _ Hch); [by apply Hold|by rewrite Hold|set_solver|done].
    + pose proof (ch_slot _ _ _ _ Hch) as Hs. destruct t as [|b|b]; [done|..]; destruct Hs as [Hr Hs]; split; try done; intros n Hn; apply Hs; rewrite Hold; done.
  - pose proof (below_rep _ _ _ _ Hb) as (-> & _ & n & Hn & <- & <- & _). unfold s_load, load. rewrite Hn, res_bind_Ok. cbn [ins height] in *. destruct (key n >? k).
    + destruct (IH (LeftOf a) l (left n)) as (s' & p' & Hins & Hg & Hrep & Hch); [by eapply below_left|lia|]. exists s', a. split; [done|]. by eapply lift_left.
    + destruct (IH (RightOf a) r (right n)) as (s' & p' & Hins & Hg & Hrep & Hch); [by eapply below_right|lia|]. exists s', a. split; [done|]. by eapply lift_right.
Qed.

End Insert.

(** ** Deletion *)

Fixpoint min_addr (t : tree) : nat := match t with Leaf => 0 | Branch a Leaf _ _ _ => a | Branch _ l _ _ _ => min_addr l end.
Fixpoint min_pair (t : tree) : Z * Z := match t with Leaf => (0, 0) | Branch _ Leaf k v _ => (k, v) | Branch _ l _ _ _ => min_pair l end.
Fixpoint without_min (t : tree) : tree :=
  match t with Leaf => Leaf | Branch _ Leaf _ _ r => r | Branch a l k v r => Branch a (without_min l) k v r end.

Fixpoint del (k : Z) (t : tree) : tree :=
  match t with
  | Leaf => Leaf
  | Branch a l k' v r =>
      if k' >? k then Branch a (del k l) k' v r
      else if k' <? k then Branch a l k' v (del k r)
      else Branch a l (min_pair r).1 (min_pair r).2 (without_min r)
  end.

(** The subtree at the node the deletion finds. *)
Fixpoint found (k : Z) (t : tree) : tree :=
  match t with
  | Leaf => Leaf
  | Branch a l k' v r => if k' >? k then found k l else if k' <? k then found k r else t
  end.

Definition two_children (t : tree) : bool := match t with Branch _ (Branch _ _ _ _ _) _ _ (Branch _ _ _ _ _) => true | _ => false end.

Lemma without_min_addrs t : t <> Leaf -> addrs t ≡ₚ min_addr t :: addrs (without_min t).
Proof.
  induction t as [|a l IHl k v r _]; [done|]. intros _. destruct l as [|a' l' k' v' r']; [done|].
  change (a :: addrs (Branch a' l' k' v' r') ++ addrs r ≡ₚ min_addr (Branch a' l' k' v' r') :: a :: addrs (without_min (Branch a' l' k' v' r')) ++ addrs r).
  rewrite IHl by done. apply Permutation_swap.
Qed.

Lemma without_min_inorder t : t <> Leaf -> inorder t = min_pair t :: inorder (without_min t).
Proof.
  induction t as [|a l IHl k v r _]; [done|]. intros _. destruct l as [|a' l' k' v' r']; [done|].
  change (inorder (Branch a' l' k' v' r') ++ (k, v) :: inorder r = min_pair (Branch a' l' k' v' r') :: inorder (without_min (Branch a' l' k' v' r')) ++ (k, v) :: inorder r).
  by rewrite IHl.
Qed.

Lemma without_min_elements t x : x ∈ inorder (without_min t) -> x ∈ inorder t.
Proof. destruct t as [|a l k v r]; [done|]. rewrite (without_min_inorder (Branch a l k v r)) by done. set_solver. Qed.

Lemma without_min_ordered t : ordered t -> ordered (without_min t).
Proof.
  induction t as [|a l IHl k v r _]; [done|]. intros Hord. destruct l as [|a' l' k' v' r']; [by destruct Hord as (_ & ? & _)|].
  destruct Hord as (Hl & Hr & Hlt & Hge). split; [by apply IHl|]. split; [done|]. split; [|done].
  rewrite Forall_forall in *. intros x Hx%without_min_elements. by apply Hlt.
Qed.

Lemma min_pair_least t : ordered t -> Forall (fun x => (min_pair t).1 <= x.1) (inorder t).
Proof.
  induction t as [|a l IHl k v r _]; [constructor|]. intros (Hl & Hr & Hlt & Hge). destruct l as [|a' l' k' v' r']; [by constructor|].
  cbn [min_pair inorder]. specialize (IHl Hl). pose proof (without_min_inorder (Branch a' l' k' v' r')) as Hin.
  assert ((min_pair (Branch a' l' k' v' r')).1 < k) as Hmin.
  { rewrite Forall_forall in Hlt. apply Hlt. rewrite Hin by done. apply elem_of_cons. by left. }
  apply Forall_app. split; [done|]. constructor; [change (min_pair (Branch a' l' k' v' r')) with (min_pair (Branch a' l' k' v' r')) in Hmin; cbn [fst]; cbn in *; lia|].
  eapply Forall_impl; [exact Hge|]. intros x Hx. cbn in *. lia.
Qed.

Fixpoint remove_first (k : Z) (xs : list (Z * Z)) : list (Z * Z) :=
  match xs with [] => [] | x :: xs => if x.1 =? k then xs else x :: remove_first k xs end.

Lemma remove_first_skip k xs ys : Forall (fun x => x.1 <> k) xs -> remove_first k (xs ++ ys) = xs ++ remove_first k ys.
Proof. induction 1 as [|x xs Hx _ IH]; [done|]. cbn. by rewrite (proj2 (Z.eqb_neq _ _)), IH by done. Qed.

Lemma remove_first_here k xs ys : (exists x, x ∈ xs /\ x.1 = k) -> remove_first k (xs ++ ys) = remove_first k xs ++ ys.
Proof.
  induction xs as [|x xs IH]; intros (y & Hy & Hk); [set_solver|]. cbn. destruct (Z.eqb_spec x.1 k) as [|Hne]; [done|].
  cbn. rewrite IH; [done|]. exists y. apply elem_of_cons in Hy as [->|Hy]; [done|]. done.
Qed.

Lemma found_has_key k t : found k t <> Leaf -> exists x, x ∈ inorder t /\ x.1 = k.
Proof.
  induction t as [|a l IHl k' v r IHr]; [done|]. cbn [found inorder]. destruct (Z.gtb_spec k' k); [|destruct (Z.ltb_spec k' k)].
  - intros (x & Hx & Hk)%IHl. exists x. split; [|done]. apply elem_of_app. by left.
  - intros (x & Hx & Hk)%IHr. exists x. split; [|done]. apply elem_of_app. right. apply elem_of_cons. by right.
  - intros _. exists (k', v). split; [|cbn; lia]. apply elem_of_app. right. apply elem_of_cons. by left.
Qed.

Lemma two_children_found k t : two_children (found k t) = true -> found k t <> Leaf.
Proof. by destruct (found k t). Qed.

Lemma del_inorder k t : ordered t -> two_children (found k t) = true -> inorder (del k t) = remove_first k (inorder t).
Proof.
  induction t as [|a l IHl k' v r IHr]; intros Hord H2; [done|]. destruct Hord as (Hl & Hr & Hlt & Hge). cbn [found del inorder] in *.
  destruct (Z.gtb_spec k' k) as [Hgt|Hle]; [|destruct (Z.ltb_spec k' k) as [Hlt'|Heq]].
  - cbn [inorder]. rewrite IHl by done. rewrite remove_first_here; [done|]. by apply found_has_key, two_children_found.
  - cbn [inorder]. rewrite IHr by done. rewrite remove_first_skip; [|eapply Forall_impl; [exact Hlt|]; intros x Hx; cbn in Hx; lia].
    cbn. by rewrite (proj2 (Z.eqb_neq _ _)) by lia.
  - cbn [inorder]. destruct l as [|al ll kl vl rl]; [done|]. destruct r as [|ar lr kr vr rr]; [done|].
    rewrite remove_first_skip; [|eapply Forall_impl; [exact Hlt|]; intros x Hx; cbn in Hx; lia]. cbn [remove_first fst].
    rewrite (proj2 (Z.eqb_eq _ _)) by lia. rewrite (without_min_inorder (Branch ar lr kr vr rr)) by done. by destruct (min_pair (Branch ar lr kr vr rr)).
Qed.

Lemma remove_first_elements k xs x : x ∈ remove_first k xs -> x ∈ xs.
Proof. induction xs as [|y xs IH]; cbn; [done|]. destruct (y.1 =? k); rewrite !elem_of_cons; intuition. Qed.

Lemma del_ordered k t : ordered t -> two_children (found k t) = true -> ordered (del k t).
Proof.
  induction t as [|a l IHl k' v r IHr]; intros Hord H2; [done|]. pose proof Hord as (Hl & Hr & Hlt & Hge). cbn [found del] in *.
  destruct (Z.gtb_spec k' k) as [Hgt|Hle]; [|destruct (Z.ltb_spec k' k) as [Hlt'|Heq]].
  - split; [by apply IHl|]. split; [done|]. split; [|done]. rewrite (del_inorder k l) by done. rewrite Forall_forall in *. intros x Hx%remove_first_elements. by apply Hlt.
  - split; [done|]. split; [by apply IHr|]. split; [done|]. rewrite (del_inorder k r) by done. rewrite Forall_forall in *. intros x Hx%remove_first_elements. by apply Hge.
  - destruct l as [|al ll kl vl rl]; [done|]. destruct r as [|ar lr kr vr rr]; [done|]. set (r := Branch ar lr kr vr rr) in *.
    pose proof (without_min_inorder r ltac:(done)) as Hin. pose proof (min_pair_least r Hr) as Hmin. split; [done|]. split; [by apply without_min_ordered|]. rewrite Hin in Hmin, Hge.
    apply Forall_cons in Hge as [Hk' _]. apply Forall_cons in Hmin as [_ Hmin]. split; [|done]. eapply Forall_impl; [exact Hlt|]. intros x Hx. cbn in *. lia.
Qed.

Lemma del_addrs k t : two_children (found k t) = true -> exists m, addrs t ≡ₚ m :: addrs (del k t).
Proof.
  induction t as [|a l IHl k' v r IHr]; [done|]. cbn [found del]. destruct (k' >? k); [|destruct (k' <? k)].
  - intros [m Hm]%IHl. exists m. cbn. rewrite Hm. apply Permutation_swap.
  - intros [m Hm]%IHr. exists m. cbn. rewrite Hm, <- Permutation_middle. apply Permutation_swap.
  - intros H2. exists (min_addr r). cbn. destruct l; [done|]. destruct r as [|ar lr kr vr rr]; [done|].
    rewrite (without_min_addrs (Branch ar lr kr vr rr)) by done. rewrite <- Permutation_middle. apply Permutation_swap.
Qed.

Lemma free_spec p s : p <> 0%nat -> is_Some (mem s !! p) -> free p s = Ok (State (root s) (delete p (mem s))).
Proof. intros Hp [n Hn]. unfold free, load. by rewrite (proj2 (Nat.eqb_neq _ _)), Hn by done. Qed.

(** Freeing a node of the tree keeps the slot. *)
Lemma free_changes t A s s' p : p ∈ A -> owner t <> Some p -> changes t A s s' -> changes t A s (State (root s') (delete p (mem s'))).
Proof.
  intros Hp Hown [Hf Hs]. split.
  - intros a Ha HaA Hoa. cbn. rewrite lookup_delete_ne by set_solver. by apply Hf.
  - destruct t as [|b|b]; [done|..]; destruct Hs as [Hr Hs]; (split; [done|]); intros n Hn; cbn in *; rewrite lookup_delete_ne by congruence; by apply Hs.
Qed.

Lemma changes_more t A B s s' : (forall a, a ∈ A -> a ∈ B) -> changes t A s s' -> changes t B s s'.
Proof. intros HAB [Hf Hs]. split; [|done]. intros a Ha HaB. apply Hf; [done|]. intros ?%HAB. done. Qed.

Lemma get_free t s p : owner t <> Some p -> get t (State (root s) (delete p (mem s))) = get t s.
Proof. intros Hp. apply get_same; [done|]. intros a Ha. cbn. apply lookup_delete_ne. congruence. Qed.

(** Finding, unlinking and freeing the least node; between the search and the
    rest only the node that owns the slot may have changed. *)
Lemma unlink_spec fuel t s s1 p r : below t s p r -> below t s1 p r -> (forall a, a ∈ addrs r -> mem s1 !! a = mem s !! a) ->
  r <> Leaf -> (height r <= fuel)%nat ->
  exists temp m least s2 s3 p3, leftmost fuel t s = Ok temp /\ get temp s = Ok m /\ mem s !! m = Some least /\
    (key least, value least) = min_pair r /\ set temp (right least) s1 = Ok s2 /\ free m s2 = Ok s3 /\
    get t s3 = Ok p3 /\ rep (mem s3) p3 (without_min r) /\ changes t (addrs r) s1 s3.
Proof.
  revert t p fuel. induction r as [|a l IHl k v r _]; [done|]. intros t p fuel Hb Hb1 Hsame _ Hfuel. destruct fuel as [|fuel]; [cbn in Hfuel; lia|]. cbn [leftmost].
  pose proof (below_rep _ _ _ _ Hb) as (-> & Ha & n & Hn & <- & <- & Hl & Hr). assert (mem s1 !! a = Some n) as Hn1 by (rewrite Hsame; [done|cbn; set_solver]).
  rewrite (below_get _ _ _ _ Hb), res_bind_Ok. unfold s_load, load. rewrite Hn, res_bind_Ok, (rep_is_null _ _ _ Hl). destruct l as [|al ll kl vl rl].
  - destruct (set_spec t s1 a (right n) (below_get _ _ _ _ Hb1)) as (s2 & Hset & Hg & Hch & Halloc).
    assert (owner t <> Some a) as Hown by (intros Hoa; destruct (below_owner _ _ _ _ Hb a Hoa); cbn; set_solver).
    exists t, a, n, s2, (State (root s2) (delete a (mem s2))), (right n). split; [done|]. split; [apply (below_get _ _ _ _ Hb)|]. split; [done|]. split; [done|]. split; [done|].
    split; [apply free_spec; [done|]; apply not_eq_None_Some; rewrite Halloc; congruence|]. split; [by rewrite get_free|]. cbn [without_min].
    destruct (branch_nodup t s a n Leaf r Hb Hn) as (_ & Har & _). split.
    + apply (rep_frame (mem s)); [|done]. intros b Hbr. cbn. rewrite lookup_delete_ne by set_solver. rewrite (ch_frame _ _ _ _ Hch).
      * apply Hsame. cbn. set_solver.
      * rewrite Hsame by (cbn; set_solver). by apply (rep_alloc _ (right n) r).
      * set_solver.
      * intros Hob. destruct (below_owner _ _ _ _ Hb b Hob). cbn. set_solver.
    + apply free_changes; [cbn; set_solver|done|]. eapply changes_more; [|exact Hch]. set_solver.
  - set (l := Branch al ll kl vl rl) in *. cbn [height] in Hfuel.
    destruct (IHl (LeftOf a) (left n) fuel) as (temp & m & least & s2 & s3 & p3 & Hlm & Hgm & Hm & Hpair & Hset & Hfree & Hg3 & Hrep3 & Hch3);
      [by eapply below_left|by eapply below_left|intros b Hbl; apply Hsame; cbn; set_solver|done|lia|].
    destruct (lift_left t s1 a n l r Hb1 Hn1 s3 p3 (without_min l) Hg3 Hrep3 Hch3) as (Hg & Hrep & Hch).
    exists temp, m, least, s2, s3, a. by repeat (split; [done|]).
Qed.

Definition cut (s : state) (p : nat) (n : tree_node_t) (k v : Z) : state := State (root s) (<[p := set_pair n k v]> (mem s)).

(** The state after the pair of the node is replaced. *)
Lemma below_cut t s a n l r k v : below t s a (Branch a l (key n) (value n) r) -> mem s !! a = Some n ->
  below t (cut s a n k v) a (Branch a l k v r) /\ changes t (a :: addrs l ++ addrs r) s (cut s a n k v).
Proof.
  intros Hb Hn. destruct (branch_parts t s a n l r Hb Hn) as (Ha & Hl & Hr). destruct (branch_nodup t s a n l r Hb Hn) as (Hal & Har & _ & _ & _).
  assert (forall b, b <> a -> mem (cut s a n k v) !! b = mem s !! b) as Hother by (intros b Hba; apply lookup_insert_ne; congruence).
  assert (forall b, owner t = Some b -> b <> a) as Hown by (intros b Hob; apply (owner_apart t s a n l r Hb Hn b Hob)).
  split; [split|split].
  - rewrite (get_same t s); [apply (below_get _ _ _ _ Hb)|done|]. intros b Hob. by apply Hother, Hown.
  - split; [done|]. split; [done|]. exists (set_pair n k v). split; [apply lookup_insert_eq|]. split; [done|]. split; [done|].
    split; (eapply rep_frame; [|done]); intros b Hb'; apply Hother; set_solver.
  - apply (below_nodup _ _ _ _ Hb).
  - apply (below_owner _ _ _ _ Hb).
  - intros b _ Hb' _. apply Hother. set_solver.
  - destruct t as [|b|b]; [done|..]; (split; [done|]); intros nb Hnb; rewrite Hother, Hnb by (by apply Hown); destruct nb; by eexists.
Qed.

Lemma changes_trans t A s s1 s2 : (forall a, is_Some (mem s !! a) -> a ∉ A -> is_Some (mem s1 !! a)) -> changes t A s s1 -> changes t A s1 s2 -> changes t A s s2.
Proof.
  intros Halloc [Hf Hs] [Hf' Hs']. split.
  - intros a Ha HaA Hoa. rewrite Hf' by auto. by apply Hf.
  - destruct t as [|b|b]; [done|..]; destruct Hs as [Hr Hs], Hs' as [Hr' Hs']; (split; [congruence|]); intros n Hn; destruct (Hs n Hn) as [p Hp];
      destruct (Hs' _ Hp) as [p' Hp']; exists p'; by rewrite Hp'.
Qed.

Section Delete.
Context (k : Z).

Lemma delete_absent fuel t s p tr : below t s p tr -> (height tr < fuel)%nat -> found k tr = Leaf -> tree_delete_ fuel t k s = Ok s.
Proof.
  revert t p tr. induction fuel as [|fuel IH]; intros t p tr Hb Hfuel Hf; [lia|]. cbn [tree_delete_].
  rewrite (below_get _ _ _ _ Hb), res_bind_Ok, (rep_is_null _ _ _ (below_rep _ _ _ _ Hb)). destruct tr as [|a l k' v' r]; [done|].
  pose proof (below_rep _ _ _ _ Hb) as (-> & _ & n & Hn & <- & <- & _). unfold s_load, load. rewrite Hn, res_bind_Ok. cbn [found height] in *.
  destruct (key n >? k); [apply (IH _ (left n) l); [by eapply below_left|lia|done]|].
  destruct (key n <? k); [apply (IH _ (right n) r); [by eapply below_right|lia|done]|done].
Qed.

Lemma delete_two fuel t s p tr : below t s p tr -> (height tr < fuel)%nat -> two_children (found k tr) = true ->
  exists s' p', tree_delete_ fuel t k s = Ok s' /\ get t s' = Ok p' /\ rep (mem s') p' (del k tr) /\ changes t (addrs tr) s s'.
Proof.
  revert t p tr. induction fuel as [|fuel IH]; intros t p tr Hb Hfuel Hf; [lia|]. cbn [tree_delete_].
  rewrite (below_get _ _ _ _ Hb), res_bind_Ok, (rep_is_null _ _ _ (below_rep _ _ _ _ Hb)). destruct tr as [|a l k' v' r]; [done|].
  pose proof (below_rep _ _ _ _ Hb) as (-> & Ha & n & Hn & <- & <- & Hl & Hr). unfold s_load, load. rewrite Hn, res_bind_Ok. cbn [found del height] in *.
  destruct (key n >? k); [|destruct (key n <? k)].
  - destruct (IH (LeftOf a) (left n) l) as (s' & p' & Hd & Hg & Hrep & Hch); [by eapply below_left|lia|done|]. exists s', a. split; [done|]. by eapply lift_left.
  - destruct (IH (RightOf a) (right n) r) as (s' & p' & Hd & Hg & Hrep & Hch); [by eapply below_right|lia|done|]. exists s', a. split; [done|]. by eapply lift_right.
  - rewrite (rep_is_null _ _ _ Hl), (rep_is_null _ _ _ Hr). destruct l as [|al ll kl vl rl]; [done|]. destruct r as [|ar lr kr vr rr]; [done|].
    set (l := Branch al ll kl vl rl) in *. set (r := Branch ar lr kr vr rr) in *. cbn [andb].
    destruct (below_cut t s a n l r (min_pair r).1 (min_pair r).2 Hb Hn) as [Hb1 Hch1].
    set (s1 := cut s a n (min_pair r).1 (min_pair r).2) in *. assert (mem s1 !! a = Some (set_pair n (min_pair r).1 (min_pair r).2)) as Hn1 by apply lookup_insert_eq.
    destruct (branch_nodup t s a n l r Hb Hn) as (Hal & Har & _).
    destruct (unlink_spec fuel (RightOf a) s s1 (right n) r) as (temp & m & least & s2 & s3 & p3 & Hlm & Hgm & Hm & Hpair & Hset & Hfree & Hg3 & Hrep3 & Hch3).
    + by eapply below_right.
    + by apply (below_right t s1 a (set_pair n (min_pair r).1 (min_pair r).2) l r).
    + intros b Hbr. apply lookup_insert_ne. set_solver.
    + done.
    + lia.
    + rewrite Hlm, res_bind_Ok, Hgm, res_bind_Ok, Hm, res_bind_Ok. replace (key least) with (min_pair r).1 by (by rewrite <- Hpair). replace (value least) with (min_pair r).2 by (by rewrite <- Hpair).
      change (State (root s) (<[a := set_pair n (min_pair r).1 (min_pair r).2]> (mem s))) with s1. rewrite Hset, res_bind_Ok. exists s3, a. split; [done|].
      destruct (lift_right t s1 a (set_pair n (min_pair r).1 (min_pair r).2) l r Hb1 Hn1 s3 p3 (without_min r) Hg3 Hrep3 Hch3) as (Hg & Hrep & Hch).
      split; [done|]. split; [done|]. eapply changes_trans; [|exact Hch1|exact Hch]. intros b Hsome Hnot. cbn. rewrite lookup_insert_ne; [done|]. set_solver.
Qed.

End Delete.

(** ** Deleting a node with a child missing *)

Lemma traverse_spec fuel p t s : rep (mem s) p t -> (height t < fuel)%nat -> tree_traverse_ fuel p s = Ok (inorder t).
Proof.
  revert p t. induction fuel as [|fuel IH]; intros p t Hrep Hfuel; [lia|]. cbn [tree_traverse_]. rewrite (rep_is_null _ _ _ Hrep).
  destruct t as [|a l k v r]; [done|]. destruct Hrep as (-> & _ & n & Hn & <- & <- & Hl & Hr). cbn [height inorder] in *.
  unfold s_load, load. rewrite Hn, res_bind_Ok, (IH (left n) l), res_bind_Ok, (IH (right n) r), res_bind_Ok by (done || lia). done.
Qed.

(** Whoever follows [p] reads freed memory. *)
Definition dangles (h : nat) (p : nat) (s : state) : Prop := forall fuel, (h < fuel)%nat -> tree_traverse_ fuel p s = Fault.

Lemma dangles_freed h p s : p <> 0%nat -> mem s !! p = None -> dangles h p s.
Proof.
  intros Hp Hn fuel Hfuel. destruct fuel as [|fuel]; [lia|]. cbn [tree_traverse_]. rewrite (proj2 (Nat.eqb_neq _ _)) by done.
  unfold s_load, load. by rewrite Hn.
Qed.

Lemma dangles_left a n h s : a <> 0%nat -> mem s !! a = Some n -> dangles h (left n) s -> dangles (S h) a s.
Proof.
  intros Ha Hn Hd fuel Hfuel. destruct fuel as [|fuel]; [lia|]. cbn [tree_traverse_]. rewrite (proj2 (Nat.eqb_neq _ _)) by done.
  unfold s_load, load. rewrite Hn, res_bind_Ok, Hd by lia. done.
Qed.

Lemma dangles_right a n l h s : a <> 0%nat -> mem s !! a = Some n -> rep (mem s) (left n) l -> (height l <= h)%nat -> dangles h (right n) s -> dangles (S h) a s.
Proof.
  intros Ha Hn Hl Hh Hd fuel Hfuel. destruct fuel as [|fuel]; [lia|]. cbn [tree_traverse_]. rewrite (proj2 (Nat.eqb_neq _ _)) by done.
  unfold s_load, load. rewrite Hn, res_bind_Ok, (traverse_spec fuel (left n) l), res_bind_Ok, Hd by (done || lia). done.
Qed.

Lemma dangles_more h h' p s : (h <= h')%nat -> dangles h p s -> dangles h' p s.
Proof. intros Hh Hd fuel Hfuel. apply Hd. lia. Qed.

(** Setting the slot to [c] and freeing [c], a node of the tree. *)
Lemma set_free t s a tr c : below t s a tr -> c ∈ addrs tr -> c <> 0%nat -> is_Some (mem s !! c) ->
  exists s' s'', set t c s = Ok s' /\ get t s' = Ok c /\ free c s' = Ok s'' /\ get t s'' = Ok c /\ mem s'' !! c = None /\ changes t (addrs tr) s s''.
Proof.
  intros Hb Hc Hc0 Hsome. destruct (set_spec t s a c (below_get _ _ _ _ Hb)) as (s' & Hset & Hg & Hch & Halloc).
  assert (owner t <> Some c) as Hown by (intros Hoc; by destruct (below_owner _ _ _ _ Hb c Hoc)).
  exists s', (State (root s') (delete c (mem s'))). split; [done|]. split; [done|]. split; [apply free_spec; [done|]; apply not_eq_None_Some; rewrite Halloc; by apply not_eq_None_Some|].
  split; [by rewrite get_free|]. split; [apply lookup_delete_eq|]. apply free_changes; [done|done|]. eapply changes_more; [|exact Hch]. set_solver.
Qed.

Lemma delete_dangles k fuel t s p tr : below t s p tr -> (height tr < fuel)%nat -> found k tr <> Leaf -> two_children (found k tr) = false ->
  exists s' p', tree_delete_ fuel t k s = Ok s' /\ get t s' = Ok p' /\ changes t (addrs tr) s s' /\ dangles (height tr) p' s'.
Proof.
  revert t p tr. induction fuel as [|fuel IH]; intros t p tr Hb Hfuel Hf H2; [lia|]. cbn [tree_delete_].
  rewrite (below_get _ _ _ _ Hb), res_bind_Ok, (rep_is_null _ _ _ (below_rep _ _ _ _ Hb)). destruct tr as [|a l k' v' r]; [done|].
  pose proof (below_rep _ _ _ _ Hb) as (-> & Ha & n & Hn & <- & <- & Hl & Hr). unfold s_load, load. rewrite Hn, res_bind_Ok. cbn [found height] in *.
  pose proof (branch_nodup t s a n l r Hb Hn) as (Hal & Har & _ & _ & Hd).
  destruct (key n >? k); [|destruct (key n <? k)].
  - destruct (IH (LeftOf a) (left n) l) as (s' & p' & Hdel & Hg & Hch & Hdan); [by eapply below_left|lia|done|done|]. exists s', a. split; [done|].
    destruct (changes_up t s a n l r Hb Hn s' (LeftOf a) (addrs l)) as [Hg' Hc']; [by left|by left|done|]. split; [done|]. split; [done|].
    destruct (proj2 (ch_slot _ _ _ _ Hch) n Hn) as [q Hq]. cbn in Hg. unfold load in Hg. rewrite Hq in Hg. injection Hg as <-.
    apply (dangles_left a _ _ _ Ha Hq). eapply dangles_more; [|exact Hdan]. lia.
  - destruct (IH (RightOf a) (right n) r) as (s' & p' & Hdel & Hg & Hch & Hdan); [by eapply below_right|lia|done|done|]. exists s', a. split; [done|].
    destruct (changes_up t s a n l r Hb Hn s' (RightOf a) (addrs r)) as [Hg' Hc']; [by right|by right|done|]. split; [done|]. split; [done|].
    destruct (proj2 (ch_slot _ _ _ _ Hch) n Hn) as [q Hq]. cbn in Hg. unfold load in Hg. rewrite Hq in Hg. injection Hg as <-.
    apply (dangles_right a _ l _ _ Ha Hq); [|lia|eapply dangles_more; [|exact Hdan]; lia]. cbn.
    apply (rep_frame (mem s)); [|done]. intros b Hbl. apply (ch_frame _ _ _ _ Hch); [by apply (rep_alloc _ (left n) l)|set_solver|cbn; set_solver].
  - rewrite (rep_is_null _ _ _ Hl), (rep_is_null _ _ _ Hr). destruct l as [|al ll kl vl rl]; destruct r as [|ar lr kr vr rr]; try done; cbn [andb].
    + assert (owner t <> Some a) as Hown by (intros Hoa; destruct (below_owner _ _ _ _ Hb a Hoa); cbn; set_solver).
      rewrite free_spec by (done || by exists n). exists (State (root s) (delete a (mem s))), a. split; [done|]. rewrite get_free by done. split; [apply (below_get _ _ _ _ Hb)|].
      split; [|apply dangles_freed; [done|apply lookup_delete_eq]]. apply free_changes; [cbn; set_solver|done|].
      split; [done|]. destruct t as [|b|b]; [done|..]; (split; [done|]); intros nb Hnb; rewrite Hnb; destruct nb; by eexists.
    + pose proof Hr as (Hra & Hr0 & nr & Hnr & _). destruct (set_free t s a _ (right n) Hb) as (s' & s'' & Hset & Hg & Hfr & Hg' & Hnone & Hch);
        [cbn; set_solver|congruence|exists nr; congruence|]. rewrite Hset, res_bind_Ok, Hg, res_bind_Ok. exists s'', (right n).
      split; [done|]. split; [done|]. split; [done|]. apply dangles_freed; [congruence|done].
    + pose proof Hl as (Hla & Hl0 & nl & Hnl & _). destruct (set_free t s a _ (left n) Hb) as (s' & s'' & Hset & Hg & Hfr & Hg' & Hnone & Hch);
        [cbn; set_solver|congruence|exists nl; congruence|]. rewrite Hset, res_bind_Ok, Hg, res_bind_Ok. exists s'', (left n).
      split; [done|]. split; [done|]. split; [done|]. apply dangles_freed; [congruence|done].
Qed.

(** ** What the tree promises *)

Lemma stored_below s t : stored s t -> below Root s (root s) t.
Proof. intros [Hrep Hnd _]. by split. Qed.

Lemma empty_stored s : stored (tree_init s) Leaf.
Proof. split; [done|constructor|done]. Qed.

(** C33: As long as [malloc] returns fresh memory, insertion keeps the tree a search tree over distinct, allocated nodes, in
    which the new pair comes after all those whose key is not greater. *)
Theorem cql_insert_correct malloc fuel k v s t : (forall h, (malloc h).1 <> 0%nat /\ h !! (malloc h).1 = None) ->
  stored s t -> (height t < fuel)%nat ->
  exists s' t', tree_insert malloc fuel k v s = Ok s' /\ stored s' t' /\
    inorder t' = List.filter (up_to k) (inorder t) ++ (k, v) :: List.filter (beyond k) (inorder t).
Proof.
  intros Hm Hst Hfuel. pose proof Hst as [Hrep Hnd Hord].
  destruct (insert_below malloc Hm fuel Root t k v s (root s) (stored_below s t Hst) Hfuel) as (s' & p' & Hins & Hg & Hrep' & _).
  injection Hg as <-. exists s', (ins (malloc (mem s)).1 k v t). split; [done|]. split; [|by apply ins_inorder].
  split; [done| |by apply ins_ordered]. rewrite ins_addrs. apply NoDup_cons. split; [|done].
  intros Hin. destruct (rep_alloc _ _ _ _ Hrep Hin) as [n Hn]. destruct (Hm (mem s)) as [_ Hfresh]. congruence.
Qed.

(** C34: Deleting a key that is absent does nothing; where the node has two
    children its pair is removed from the tree.  Otherwise the slot is left with,
    or set to, the address that is freed: the next walk through the tree
    reads freed memory. *)
Theorem cql_remove_spec fuel k s t : stored s t -> (height t < fuel)%nat ->
  (found k t = Leaf -> tree_remove fuel k s = Ok s) /\
  (two_children (found k t) = true ->
     exists s' t', tree_remove fuel k s = Ok s' /\ stored s' t' /\ inorder t' = remove_first k (inorder t)) /\
  (found k t <> Leaf -> two_children (found k t) = false ->
     exists s', tree_remove fuel k s = Ok s' /\ (forall fuel', (height t < fuel')%nat -> tree_traverse fuel' s' = Fault) /\ forall t', ~ stored s' t').
Proof.
  intros Hst Hfuel. pose proof (stored_below s t Hst) as Hb. pose proof Hst as [Hrep Hnd Hord]. split; [|split].
  - by apply delete_absent with (p := root s).
  - intros H2. destruct (delete_two k fuel Root s (root s) t Hb Hfuel H2) as (s' & p' & Hdel & Hg & Hrep' & _). injection Hg as <-.
    exists s', (del k t). split; [done|]. split; [|by apply del_inorder]. split; [done| |by apply del_ordered].
    destruct (del_addrs k t H2) as [m Hm]. rewrite Hm in Hnd. by apply NoDup_cons in Hnd as [_ ?].
  - intros Hf H2. destruct (delete_dangles k fuel Root s (root s) t Hb Hfuel Hf H2) as (s' & p' & Hdel & Hg & _ & Hdan). injection Hg as <-.
    exists s'. split; [done|]. split; [exact Hdan|]. intros t' [Hrep' _ _].
    assert (tree_traverse_ (S (Nat.max (height t) (height t'))) (root s') s' = Fault) as Hfault by (apply Hdan; lia).
    rewrite (traverse_spec _ _ t') in Hfault by (done || lia). done.
Qed.

(** The result holds the first [MAX_TREE_RESULTS] of the pairs [xs]. *)
Definition first_results (xs : list (Z * Z)) (var var' : tree_result_set_t) : Prop :=
  num_results var' = Z.of_nat (Nat.min MAX_TREE_RESULTS (length xs)) /\
  map pair_of (take (Nat.min MAX_TREE_RESULTS (length xs)) (results var')) = take MAX_TREE_RESULTS xs /\
  drop (Nat.min MAX_TREE_RESULTS (length xs)) (results var') = drop (Nat.min MAX_TREE_RESULTS (length xs)) (results var).

Lemma filled_results xs var : length (results var) = MAX_TREE_RESULTS ->
  first_results xs var (ResultSet (filled (fill xs (results var) 0)).2 (filled (fill xs (results var) 0)).1).
Proof.
  intros Hv. destruct (fill_bounds xs (results var) 0 Hv ltac:(lia)) as [_ Hi]. destruct (fill_contents xs (results var) 0 Hv ltac:(lia)) as [Hc Hd].
  cbn zeta in *. rewrite Hi in Hc, Hd. unfold first_results, filled. cbn [fst snd num_results results]. rewrite Hi. by split_and!.
Qed.

(** C35: The searches leave the tree alone and return the first pairs of the range
    in key order; the search for a key is right when the key occurs at most once. *)
Theorem cql_find_correct fuel k s t var : stored s t -> (height t < fuel)%nat -> length (results var) = MAX_TREE_RESULTS ->
  (forall e, exists var', tree_find_lt fuel k e var s = Ok var' /\ first_results (List.filter (lt_key k e) (inorder t)) var var') /\
  (forall e, exists var', tree_find_gt fuel k e var s = Ok var' /\ first_results (List.filter (gt_key k e) (inorder t)) var var') /\
  ((length (List.filter (eq_key k) (inorder t)) <= 1)%nat ->
     exists var', tree_find_eq fuel k var s = Ok var' /\ first_results (List.filter (eq_key k) (inorder t)) var var').
Proof.
  intros [Hrep _ Hord] Hfuel Hv. split; [|split].
  - intros e. unfold tree_find_lt. pose proof (tree_find_LT_spec s k e fuel (root s) t (results var) 0 Hrep Hord Hfuel Hv ltac:(lia)) as Hfind.
    change (Z.of_nat 0) with 0 in Hfind. rewrite Hfind, res_bind_Ok. eexists. split; [reflexivity|by apply filled_results].
  - intros e. unfold tree_find_gt. pose proof (tree_find_GT_spec s k e fuel (root s) t (results var) 0 Hrep Hord Hfuel Hv ltac:(lia)) as Hfind.
    change (Z.of_nat 0) with 0 in Hfind. rewrite Hfind, res_bind_Ok. eexists. split; [reflexivity|by apply filled_results].
  - intros Hone. unfold tree_find_eq. destruct (List.filter (eq_key k) (inorder t)) as [|x [|]] eqn:Hxs; [|clear Hone|cbn in Hone; lia].
    + rewrite (tree_find_EQ_none s k fuel (root s) t), res_bind_Ok by done. eexists. split; [reflexivity|]. by split_and!.
    + rewrite (tree_find_EQ_one s k fuel (root s) t _ x), res_bind_Ok by done. eexists. split; [reflexivity|by apply filled_results].
Qed.

(** ** The memory [ram]

    1024 blocks of [MAX_BLOCK_SIZE] integers of four bytes; the model keeps the
    bytes. *)

Definition MAX_BLOCK_SIZE : Z := 768 * 7.
Definition data_size : Z := 4 * MAX_BLOCK_SIZE.
Definition ram_size : nat := Z.to_nat (1024 * data_size).

(** [memcpy] of [size] bytes from place [from] of [src] to place [at_] of
    [dst]; a range that leaves one of the objects is a fault. *)
Definition memcpy (dst : list Z) (at_ : Z) (src : list Z) (from : Z) (size : nat) : res (list Z) :=
  if (0 <=? at_) && (at_ + Z.of_nat size <=? Z.of_nat (length dst)) && (0 <=? from) && (from + Z.of_nat size <=? Z.of_nat (length src)) then
    Ok (take (Z.to_nat at_) dst ++ take size (drop (Z.to_nat from) src) ++ drop (Z.to_nat at_ + size) dst)
  else Fault.

Definition __ramput (ram : list Z) (addr : Z) (value_ : list Z) (size : nat) : res (list Z) := memcpy ram (addr * data_size) value_ 0 size.
Definition __ramget (ram : list Z) (var : list Z) (addr : Z) (size : nat) : res (list Z) := memcpy var 0 ram (addr * data_size) size.

Lemma memcpy_Ok dst at_ src from size : 0 <= at_ -> at_ + Z.of_nat size <= Z.of_nat (length dst) -> 0 <= from -> from + Z.of_nat size <= Z.of_nat (length src) ->
  memcpy dst at_ src from size = Ok (take (Z.to_nat at_) dst ++ take size (drop (Z.to_nat from) src) ++ drop (Z.to_nat at_ + size) dst).
Proof. intros. unfold memcpy. rewrite !(proj2 (Z.leb_le _ _)) by lia. done. Qed.

(** An object of at most a block comes back, and the other blocks stay. *)
Lemma ram_put_get ram addr x var : length ram = ram_size -> 0 <= addr < 1024 -> Z.of_nat (length x) <= data_size -> length var = length x ->
  exists ram', __ramput ram addr x (length x) = Ok ram' /\ length ram' = ram_size /\ __ramget ram' var addr (length x) = Ok x /\
    forall addr', 0 <= addr' < 1024 -> addr' <> addr -> __ramget ram' var addr' (length x) = __ramget ram var addr' (length x).
Proof.
  intros Hram Haddr Hx Hvar. assert (Z.of_nat (length ram) = 1024 * data_size) as Hl by (rewrite Hram; unfold ram_size, data_size, MAX_BLOCK_SIZE; lia).
  unfold __ramput, __ramget. assert (0 < data_size) by done. set (D := data_size) in *. clearbody D.
  assert (forall a, 0 <= a < 1024 -> 0 <= a * D /\ a * D + D <= 1024 * D) as Hrange by (intros a Ha; nia). destruct (Hrange addr Haddr) as [Hlo Hhi].
  rewrite memcpy_Ok by lia. change (Z.to_nat 0) with 0%nat. rewrite drop_0, firstn_all. set (n := length x) in *. set (p := Z.to_nat (addr * D)).
  assert (length (take p ram) = p) as Hp by (rewrite length_take; lia).
  eexists. split; [reflexivity|]. assert (length (take p ram ++ x ++ drop (p + n) ram) = ram_size) as Hlen by (rewrite !length_app, length_drop, Hp; fold n; lia).
  split; [exact Hlen|]. split.
  - rewrite memcpy_Ok by (rewrite ?Hlen; lia). change (Z.to_nat 0) with 0%nat. cbn [take app Nat.add]. fold p. rewrite drop_app_length' by done. rewrite take_app_length' by done.
    by rewrite drop_ge, app_nil_r by lia.
  - intros a Ha Hne. destruct (Hrange a Ha) as [Hla Hha]. rewrite !memcpy_Ok by (rewrite ?Hlen; lia). do 2 f_equal. set (q := Z.to_nat (a * D)).
    assert (q + n <= p \/ p + n <= q)%nat as [Hq|Hq] by (destruct (decide (a < addr)); [left|right]; subst p q; nia).
    + f_equal. rewrite drop_app_le, take_app_le by (rewrite ?length_drop; lia). rewrite skipn_firstn_comm, take_take. f_equal. lia.
    + f_equal. rewrite drop_app_ge by lia. rewrite Hp, drop_app_ge by (fold n; lia). rewrite drop_drop. do 2 f_equal. fold n. lia.
Qed.

(** ** Examples *)

(** Addresses from 1 on, in order; the sizes hold anything. *)
Definition bump (h : heap) : nat * tree_node_t := (fresh (0%nat :: map fst (map_to_list h)), Node 0 0 77 77 0 0).
Definition no_results : tree_result_set_t := ResultSet 0 (replicate 3 (Result 0 0 0 0)).

Lemma bump_fresh h : (bump h).1 <> 0%nat /\ h !! (bump h).1 = None.
Proof.
  pose proof (infinite_is_fresh (0%nat :: map fst (map_to_list h))) as Hf. unfold bump. cbn [fst].
  set (q := fresh (0%nat :: map fst (map_to_list h))) in *. split; [intros Hq; apply Hf; rewrite Hq; set_solver|].
  destruct (h !! q) as [n|] eqn:Hq; [|done]. destruct Hf. apply elem_of_cons. right. apply list_elem_of_fmap. exists (q, n). split; [done|]. by apply elem_of_map_to_list.
Qed.

Fixpoint insert_all (xs : list (Z * Z)) (s : state) : res state :=
  match xs with [] => Ok s | (k, v) :: xs => s ← tree_insert bump 10 k v s; insert_all xs s end.

(** The tree with 5 at the root, 3 on its left and 8 on its right. *)
Definition sample : state := State 1 (list_to_map [(1%nat, Node 5 50 0 0 2 3); (2%nat, Node 3 30 0 0 0 0); (3%nat, Node 8 80 0 0 0 0)]).
Definition sample_tree : tree := Branch 1 (Branch 2 Leaf 3 30 Leaf) 5 50 (Branch 3 Leaf 8 80 Leaf).

Lemma sample_stored : stored sample sample_tree.
Proof.
  split.
  - cbn [rep sample_tree root sample]. split; [done|]. split; [done|]. eexists. split; [reflexivity|]. split; [done|]. split; [done|].
    split; (split; [done|]; split; [done|]; eexists; split; [reflexivity|]; done).
  - apply (bool_decide_unpack _). vm_compute. exact I.
  - cbn. repeat constructor; cbn; lia.
Qed.

(** Two pairs with the same key are counted three times. *)
Theorem cql_find_eq_overcounts :
  match insert_all [(5, 1); (5, 2)] (State 0 ∅) with
  | Ok s => match tree_find_eq 10 5 no_results s with Ok var => num_results var = 3 /\ map pair_of (results var) = [(5, 1); (5, 2); (0, 0)] | _ => False end
  | _ => False
  end.
Proof. vm_compute. split; reflexivity. Qed.

Lemma cql_insert_witness : exists s' t', tree_insert bump 3 4 40 sample = Ok s' /\ stored s' t' /\ inorder t' = [(3, 30); (4, 40); (5, 50); (8, 80)].
Proof. apply (cql_insert_correct bump 3 4 40 sample sample_tree bump_fresh sample_stored). cbn. lia. Defined.

Lemma cql_remove_witness :
  (exists s' t', tree_remove 3 5 sample = Ok s' /\ stored s' t' /\ inorder t' = [(3, 30); (8, 80)]) /\
  (exists s', tree_remove 3 3 sample = Ok s' /\ tree_traverse 3 s' = Fault).
Proof.
  split.
  - apply (cql_remove_spec 3 5 sample sample_tree sample_stored); [cbn; lia|reflexivity].
  - destruct (cql_remove_spec 3 3 sample sample_tree sample_stored) as (_ & _ & Hone); [cbn; lia|].
    destruct Hone as (s' & Hdel & Hfault & _); [done|done|]. exists s'. split; [done|]. apply Hfault. cbn. lia.
Defined.

Lemma cql_find_witness : exists var', tree_find_lt 3 5 true no_results sample = Ok var' /\ first_results [(3, 30); (5, 50)] no_results var'.
Proof. apply (cql_find_correct 3 5 sample sample_tree no_results sample_stored); [cbn; lia|done]. Defined.
