(* ===== verification/SyncQueue.v ===== *)
(** The thread-safe queue of [pepper/storage/synchronized_queue.h].

    Threads call [Push], [Pop] and [FlushQueue]; each call is a sequence of
    steps at the granularity of the [pthread] calls and of the accesses to the
    queue, and the steps of the threads interleave freely.  What the standard
    says of the primitives is part of the step function: a mutex has one
    holder, [pthread_cond_wait] releases the mutex and blocks in one step and
    takes the mutex again before it returns, [pthread_cond_signal] wakes one of
    the blocked threads, any of them, when there is one, and a blocked thread may also
    wake for no reason. *)
From Stdlib Require Import Lia.
From stdpp Require Import base list.
From S2P Require Import Prelude.

Section SyncQueue.
Context {T : Type}.
Implicit Types (q queue : list T) (t w : nat).

(** ** The code as steps *)

(** Where a thread is in the call it makes. *)
Inductive pc : Type :=
| Idle
| PushLock (element : T) | PushPush (element : T) | PushSignal (element : T) | PushUnlock (element : T)
| PopLock | PopCheck | PopBlocked | PopWoken | PopTake | PopUnlock (result : T)
| FlushLock | FlushLoop (results : list T) | FlushUnlock (results : list T).

(** What a call that has ended did. *)
Inductive call_done : Type :=
| DPush (element : T)
| DPop (result : T)
| DFlush (results : list T).

(** [holder] is the thread that has [queue_access_mutex]; [log] records the
    calls in the order in which they release it. *)
Record state : Type := State {
  queue : list T;
  holder : option nat;
  threads : list pc;
  log : list call_done
}.

Inductive outcome : Type :=
| Waits
| Goes (s : state)
| Undefined.

Definition blocked (p : pc) : bool := match p with PopBlocked => true | _ => false end.

Definition at_pc (t : nat) (p : pc) (s : state) : state := State (queue s) (holder s) (<[t := p]> (threads s)) (log s).
Definition lock (t : nat) (p : pc) (s : state) : outcome :=
  match holder s with
  | Some _ => Waits
  | None => Goes (State (queue s) (Some t) (<[t := p]> (threads s)) (log s))
  end.
Definition unlock (t : nat) (p : pc) (d : call_done) (s : state) : outcome :=
  Goes (State (queue s) None (<[t := p]> (threads s)) (log s ++ [d])).

Definition Push (t w : nat) (p : pc) (s : state) : outcome :=
  match p with
  | PushLock e => lock t (PushPush e) s
  | PushPush e => Goes (State (queue s ++ [e]) (holder s) (<[t := PushSignal e]> (threads s)) (log s))
  | PushSignal e =>
      if existsb blocked (threads s) then
        match threads s !! w with
        | Some PopBlocked => Goes (at_pc t (PushUnlock e) (at_pc w PopWoken s))
        | _ => Waits
        end
      else Goes (at_pc t (PushUnlock e) s)
  | PushUnlock e => unlock t Idle (DPush e) s
  | _ => Waits
  end.

Definition Pop (t : nat) (p : pc) (s : state) : outcome :=
  match p with
  | PopLock | PopWoken => lock t PopCheck s
  | PopCheck =>
      match queue s with
      | [] => Goes (State (queue s) None (<[t := PopBlocked]> (threads s)) (log s))
      | _ => Goes (at_pc t PopTake s)
      end
  | PopTake =>
      match queue s with
      | [] => Undefined
      | result :: rest => Goes (State rest (holder s) (<[t := PopUnlock result]> (threads s)) (log s))
      end
  | PopUnlock result => unlock t Idle (DPop result) s
  | _ => Waits
  end.

Definition FlushQueue (t : nat) (p : pc) (s : state) : outcome :=
  match p with
  | FlushLock => lock t (FlushLoop []) s
  | FlushLoop results =>
      match queue s with
      | [] => Goes (at_pc t (FlushUnlock results) s)
      | result :: rest => Goes (State rest (holder s) (<[t := FlushLoop (results ++ [result])]> (threads s)) (log s))
      end
  | FlushUnlock results => unlock t Idle (DFlush results) s
  | _ => Waits
  end.

(** One step of thread [t]; [w] is the thread a signal would wake. *)
Definition run (t w : nat) (s : state) : outcome :=
  match threads s !! t with
  | None | Some Idle | Some PopBlocked => Waits
  | Some (PushLock _ | PushPush _ | PushSignal _ | PushUnlock _) as op => Push t w (default Idle op) s
  | Some (PopLock | PopCheck | PopWoken | PopTake | PopUnlock _) as op => Pop t (default Idle op) s
  | Some (FlushLock | FlushLoop _ | FlushUnlock _) as op => FlushQueue t (default Idle op) s
  end.

(** A thread that is idle makes a call, a blocked one wakes for no reason. *)
Inductive call : Type := CallPush (e : T) | CallPop | CallFlush.
Definition start (c : call) : pc := match c with CallPush e => PushLock e | CallPop => PopLock | CallFlush => FlushLock end.

Inductive event : Type :=
| Runs (t w : nat)
| Calls (t : nat) (c : call)
| Spurious (t : nat).

Definition exec (e : event) (s : state) : outcome :=
  match e with
  | Runs t w => run t w s
  | Calls t c => match threads s !! t with Some Idle => Goes (at_pc t (start c) s) | _ => Waits end
  | Spurious t => match threads s !! t with Some PopBlocked => Goes (at_pc t PopWoken s) | _ => Waits end
  end.

(** The constructor, with [n] threads that use the queue. *)
Definition SynchronizedQueue (n : nat) : state := State [] None (replicate n Idle) [].

Fixpoint exec_all (es : list event) (s : state) : outcome :=
  match es with
  | [] => Goes s
  | e :: es => match exec e s with Goes s => exec_all es s | o => o end
  end.

Inductive reachable (n : nat) : state -> Prop :=
| reach_init : reachable n (SynchronizedQueue n)
| reach_step e s s' : reachable n s -> exec e s = Goes s' -> reachable n s'.

(** ** The specification: a sequential queue *)

Inductive fifo : list call_done -> list T -> Prop :=
| fifo_nil : fifo [] []
| fifo_push l q e : fifo l q -> fifo (l ++ [DPush e]) (q ++ [e])
| fifo_pop l q e : fifo l (e :: q) -> fifo (l ++ [DPop e]) q
| fifo_flush l q : fifo l q -> fifo (l ++ [DFlush q]) [].

(** ** The invariant *)

(** The queue of the specification while the holder of the mutex is at [p]. *)
Definition within (q : list T) (p : pc) (queue : list T) : Prop :=
  match p with
  | PushPush _ | PopCheck => queue = q
  | PushSignal e | PushUnlock e => queue = q ++ [e]
  | PopTake => queue = q /\ q <> []
  | PopUnlock result => q = result :: queue
  | FlushLoop results => q = results ++ queue
  | FlushUnlock results => q = results /\ queue = []
  | _ => False
  end.

Definition holding (p : pc) : bool :=
  match p with
  | PushPush _ | PushSignal _ | PushUnlock _ | PopCheck | PopTake | PopUnlock _ | FlushLoop _ | FlushUnlock _ => true
  | _ => false
  end.

(** Threads that will look at the queue again, or wake one that will. *)
Definition owes (p : pc) : nat := match p with PushSignal _ | PopCheck | PopWoken | PopTake => 1 | _ => 0 end.
Definition sleeps (p : pc) : nat := if blocked p then 1 else 0.

Definition total (f : pc -> nat) (s : state) : nat := sum_list_with f (threads s).

Record inv (s : state) : Prop := {
  inv_holder : forall t p, threads s !! t = Some p -> holding p = true -> holder s = Some t;
  inv_fifo : exists q, fifo (log s) q /\
    match holder s with
    | None => queue s = q
    | Some t => exists p, threads s !! t = Some p /\ within q p (queue s)
    end;
  inv_wake : total sleeps s = 0 \/ length (queue s) <= total owes s
}.

Lemma within_holding q p queue : within q p queue -> holding p = true.
Proof. by destruct p. Qed.

Lemma total_insert (f : pc -> nat) (l : list pc) t p p' : l !! t = Some p ->
  sum_list_with f (<[t := p']> l) + f p = sum_list_with f l + f p'.
Proof.
  revert t. induction l as [|x l IH]; intros [|t]; [done..| |].
  - intros [= ->]. change (<[0 := p']> (p :: l)) with (p' :: l). cbn. lia.
  - intros Hl. change (<[S t := p']> (x :: l)) with (x :: <[t := p']> l). cbn. specialize (IH t Hl). lia.
Qed.

Lemma total_ge (f : pc -> nat) (l : list pc) t p : l !! t = Some p -> f p <= sum_list_with f l.
Proof. revert t. induction l as [|x l IH]; intros [|t]; [done..| |]; cbn; [intros [= ->]; lia|intros Hl; specialize (IH t Hl); lia]. Qed.

Lemma total_none (l : list pc) : existsb blocked l = false <-> sum_list_with sleeps l = 0.
Proof. induction l as [|x l IH]; [done|]. cbn. unfold sleeps at 1. destruct (blocked x); cbn; [split; [done|lia]|]. by rewrite IH. Qed.

(** A step that moves thread [t] from [p] to [p']. *)
Lemma moved_holder s t p p' h : inv s -> threads s !! t = Some p ->
  (h = holder s \/ (holder s = None /\ h = Some t) \/ (holder s = Some t /\ h = None)) ->
  holding p' = match h with Some t' => bool_decide (t' = t) | None => false end ->
  forall t' r', <[t := p']> (threads s) !! t' = Some r' -> holding r' = true -> h = Some t'.
Proof.
  intros Hinv Hp Hh Hp' t' r' Hr Hhold. pose proof (lookup_lt_Some _ _ _ Hp). destruct (decide (t' = t)) as [->|Hne].
  - rewrite list_lookup_insert_eq in Hr by done. injection Hr as <-. rewrite Hhold in Hp'. destruct h as [t'|]; [|done]. by destruct (bool_decide_eq_true_1 _ (eq_sym Hp')).
  - rewrite list_lookup_insert_ne in Hr by done. pose proof (inv_holder s Hinv t' r' Hr Hhold) as Hs. destruct Hh as [->|[[Hn _]|[Hn _]]]; congruence.
Qed.

(** A step of thread [t] inside, into or out of its critical section. *)
Lemma inv_move s t p p' h queue' log' : inv s -> threads s !! t = Some p ->
  (h = holder s \/ (holder s = None /\ h = Some t) \/ (holder s = Some t /\ h = None)) ->
  holding p' = match h with Some t' => bool_decide (t' = t) | None => false end ->
  (exists q, fifo log' q /\ match h with None => queue' = q | Some t' => t' = t /\ within q p' queue' end) ->
  (total sleeps s = 0 /\ sleeps p' = 0 \/ sleeps p' <= sleeps p /\ length queue' + owes p <= length (queue s) + owes p' \/ queue' = []) ->
  inv (State queue' h (<[t := p']> (threads s)) log').
Proof.
  intros Hinv Hp Hh Hp' (q & Hq & Hwithin) Hwake. split; cbn.
  - by apply (moved_holder s t p p' h).
  - exists q. split; [done|]. destruct h as [t'|]; [|done]. destruct Hwithin as [-> Hwithin]. exists p'. split; [|done].
    apply list_lookup_insert_eq. by apply lookup_lt_Some in Hp.
  - pose proof (total_insert sleeps _ _ _ p' Hp) as Hs. pose proof (total_insert owes _ _ _ p' Hp) as Ho.
    pose proof (total_ge sleeps _ _ _ Hp) as Hsp. pose proof (inv_wake s Hinv) as Hw. unfold total in *. cbn [threads] in *.
    destruct Hwake as [Hwake|[Hwake|Hwake]]; [left; lia| |subst; cbn; right; lia]. destruct Hw; [left|right]; lia.
Qed.

(** A step of a thread outside any critical section. *)
Lemma inv_outside s t p p' : inv s -> threads s !! t = Some p -> holding p = false -> holding p' = false ->
  sleeps p' <= sleeps p -> owes p <= owes p' -> inv (at_pc t p' s).
Proof.
  intros Hinv Hp Hhold Hhold' Hsl How. split; cbn.
  - intros t' r' Hr Hrh. destruct (decide (t' = t)) as [->|Hne].
    + rewrite list_lookup_insert_eq in Hr by (by apply lookup_lt_Some in Hp). congruence.
    + rewrite list_lookup_insert_ne in Hr by done. by eapply inv_holder.
  - destruct (inv_fifo s Hinv) as (q & Hq & Hwithin). exists q. split; [done|]. destruct (holder s) as [t'|]; [|done].
    destruct Hwithin as (r & Hr & Hw). exists r. split; [|done]. rewrite list_lookup_insert_ne; [done|]. intros ->.
    apply within_holding in Hw. congruence.
  - pose proof (total_insert sleeps _ _ _ p' Hp) as Hs. pose proof (total_insert owes _ _ _ p' Hp) as Ho.
    pose proof (inv_wake s Hinv) as Hw. unfold total in *. cbn [threads] in *. destruct Hw; [left|right]; lia.
Qed.

(** What the holder of the mutex knows. *)
Lemma inv_held s t p : inv s -> threads s !! t = Some p -> holding p = true ->
  holder s = Some t /\ exists q, fifo (log s) q /\ within q p (queue s).
Proof.
  intros Hinv Hp Hhold. pose proof (inv_holder s Hinv t p Hp Hhold) as Hh. split; [done|].
  destruct (inv_fifo s Hinv) as (q & Hq & Hw). rewrite Hh in Hw. destruct Hw as (r & Hr & Hw). rewrite Hp in Hr. injection Hr as <-. by exists q.
Qed.

Lemma inv_free s : inv s -> holder s = None -> fifo (log s) (queue s).
Proof. intros Hinv Hh. destruct (inv_fifo s Hinv) as (q & Hq & Hw). rewrite Hh in Hw. by subst. Qed.


Ltac held Hinv Hp Hh q Hq Hw := destruct (inv_held _ _ _ Hinv Hp eq_refl) as (Hh & q & Hq & Hw); cbn in Hw.
Ltac own_id := first [left; done|right; left; done|right; right; done].

Lemma lock_inv s s' t p p' : inv s -> threads s !! t = Some p -> holding p = false -> holding p' = true -> within (queue s) p' (queue s) ->
  sleeps p' <= sleeps p -> owes p <= owes p' -> lock t p' s = Goes s' -> inv s'.
Proof.
  intros Hinv Hp Hhold Hhold' Hw Hs Ho. unfold lock. destruct (holder s) as [?|] eqn:Hh; [done|]. intros [= <-].
  apply (inv_move s t p p' (Some t)); [done|done|by right; left| |exists (queue s); split; [by apply inv_free|done]|right; left; lia].
  by rewrite bool_decide_true.
Qed.

Lemma unlock_inv s s' t p d : inv s -> threads s !! t = Some p -> holding p = true -> owes p = 0 ->
  fifo (log s ++ [d]) (queue s) -> unlock t Idle d s = Goes s' -> inv s'.
Proof.
  intros Hinv Hp Hhold Ho Hf [= <-]. destruct (inv_held _ _ _ Hinv Hp Hhold) as (Hh & _).
  apply (inv_move s t p Idle None); [done|done|by right; right|done|by exists (queue s)|right; left; cbn; lia].
Qed.

(** A step of the holder that keeps the mutex. *)
Lemma hold_inv s t p p' q queue' : inv s -> threads s !! t = Some p -> holding p = true -> holding p' = true ->
  fifo (log s) q -> within q p' queue' ->
  (total sleeps s = 0 /\ sleeps p' = 0 \/ sleeps p' <= sleeps p /\ length queue' + owes p <= length (queue s) + owes p' \/ queue' = []) ->
  inv (State queue' (holder s) (<[t := p']> (threads s)) (log s)).
Proof.
  intros Hinv Hp Hhold Hhold' Hq Hw Hwake. destruct (inv_held _ _ _ Hinv Hp Hhold) as (Hh & _). rewrite Hh.
  apply (inv_move s t p p' (Some t)); [done|done|by left| |exists q; done|done]. by rewrite bool_decide_true.
Qed.

Lemma Push_inv s s' t w p : inv s -> threads s !! t = Some p -> Push t w p s = Goes s' -> inv s'.
Proof.
  intros Hinv Hp. destruct p; try done; cbn.
  - by apply (lock_inv s s' t _ _ Hinv Hp).
  - intros [= <-]. held Hinv Hp Hh q Hq Hw. apply (hold_inv s t (PushPush element) _ q); try done; [by rewrite Hw|]. right; left. rewrite length_app. cbn. lia.
  - held Hinv Hp Hh q Hq Hw. destruct (existsb blocked (threads s)) eqn:Hb.
    + destruct (threads s !! w) as [[]|] eqn:Hwp; try done. intros [= <-].
      assert (t <> w) as Htw by congruence.
      assert (inv (at_pc w PopWoken s)) as Hinv'. { apply (inv_outside s w PopBlocked); try done; cbn; lia. }
      pose proof (total_insert owes _ _ _ PopWoken Hwp) as Ho. pose proof (total_insert sleeps _ _ _ PopWoken Hwp) as Hs.
      split.
      * apply (moved_holder (at_pc w PopWoken s) t (PushSignal element) (PushUnlock element) (holder s)); [done| |by left|by rewrite Hh, bool_decide_true].
        cbn. by rewrite list_lookup_insert_ne.
      * exists q. split; [done|]. cbn. rewrite Hh. exists (PushUnlock element). split; [|done]. apply list_lookup_insert_eq. rewrite length_insert. by apply lookup_lt_Some in Hp.
      * assert (threads (at_pc w PopWoken s) !! t = Some (PushSignal element)) as Hp' by (cbn; by rewrite list_lookup_insert_ne).
        pose proof (total_insert owes _ _ _ (PushUnlock element) Hp') as Ho'. pose proof (total_insert sleeps _ _ _ (PushUnlock element) Hp') as Hs'.
        pose proof (inv_wake s Hinv) as Hwk. unfold total in *. cbn in *. destruct Hwk; [left|right]; lia.
    + intros [= <-]. apply (hold_inv s t (PushSignal element) _ q); try done. left. split; [|done]. by apply total_none.
  - held Hinv Hp Hh q Hq Hw. apply (unlock_inv s s' t _ _ Hinv Hp); [done|done|]. rewrite Hw. by apply fifo_push.
Qed.

Lemma Pop_inv s s' t p : inv s -> threads s !! t = Some p -> Pop t p s = Goes s' -> inv s'.
Proof.
  intros Hinv Hp. destruct p; try done; cbn.
  - apply (lock_inv s s' t _ _ Hinv Hp); try done; cbn; lia.
  - held Hinv Hp Hh q Hq Hw. destruct (queue s) as [|r rest] eqn:Hqu; intros [= <-].
    + apply (inv_move s t PopCheck PopBlocked None); [done|done|by right; right|done|exists q; done|by right; right].
    + unfold at_pc. rewrite Hqu. apply (hold_inv s t PopCheck _ q); try done; [subst; done|]. right; left. rewrite Hqu. cbn. lia.
  - apply (lock_inv s s' t _ _ Hinv Hp); try done; cbn; lia.
  - held Hinv Hp Hh q Hq Hw. destruct (queue s) as [|r rest] eqn:Hqu; intros [= <-].
    apply (hold_inv s t PopTake _ q); try done; [by destruct Hw as [<- _]|]. right; left. rewrite Hqu. cbn. lia.
  - held Hinv Hp Hh q Hq Hw. subst q. apply (unlock_inv s s' t _ _ Hinv Hp); [done|done|]. by apply fifo_pop.
Qed.

Lemma FlushQueue_inv s s' t p : inv s -> threads s !! t = Some p -> FlushQueue t p s = Goes s' -> inv s'.
Proof.
  intros Hinv Hp. destruct p; try done; cbn.
  - apply (lock_inv s s' t _ _ Hinv Hp); try done; cbn; lia.
  - held Hinv Hp Hh q Hq Hw. destruct (queue s) as [|r rest] eqn:Hqu; intros [= <-].
    + unfold at_pc. rewrite Hqu. apply (hold_inv s t (FlushLoop results) _ q); try done; [by rewrite app_nil_r in Hw|by right; right].
    + apply (hold_inv s t (FlushLoop results) _ q); try done; [cbn; by rewrite <- app_assoc|]. right; left. rewrite Hqu. cbn. lia.
  - held Hinv Hp Hh q Hq Hw. destruct Hw as [-> Hnil]. apply (unlock_inv s s' t _ _ Hinv Hp); [done|done|]. rewrite Hnil. by apply fifo_flush.
Qed.

Lemma run_inv s s' t w : inv s -> run t w s = Goes s' -> inv s'.
Proof.
  intros Hinv. unfold run. destruct (threads s !! t) as [p|] eqn:Hp; [|done].
  destruct p; try done; cbn [default]; first [by apply Push_inv|by apply Pop_inv|by apply FlushQueue_inv].
Qed.

Lemma exec_inv e s s' : inv s -> exec e s = Goes s' -> inv s'.
Proof.
  intros Hinv. destruct e as [t w|t c|t]; cbn; [by apply run_inv| |]; destruct (threads s !! t) as [[]|] eqn:Hp; try done; intros [= <-].
  - apply (inv_outside s t Idle); [done|done|done|by destruct c|destruct c; cbn; lia|cbn; lia].
  - apply (inv_outside s t PopBlocked); try done; cbn; lia.
Qed.

Lemma reachable_inv n s : reachable n s -> inv s.
Proof.
  induction 1 as [|e s s' _ IH He]; [|by eapply exec_inv]. split; cbn.
  - intros t p [-> _]%lookup_replicate. done.
  - exists []. split; [constructor|done].
  - right. lia.
Qed.
(** ** Threads settle *)

(** A bound on the steps that are left when no call is made and no thread
    wakes for no reason. *)
Definition weight (p : pc) : nat :=
  match p with
  | Idle => 0
  | PushLock _ => 8 | PushPush _ => 7 | PushSignal _ => 5 | PushUnlock _ => 1
  | PopLock | PopWoken => 5 | PopCheck => 4 | PopBlocked => 3 | PopTake => 2 | PopUnlock _ => 1
  | FlushLock => 3 | FlushLoop _ => 2 | FlushUnlock _ => 1
  end.
Definition work (s : state) : nat := total weight s + length (queue s).

Lemma move_work s t p p' h queue' log' : threads s !! t = Some p ->
  weight p' + length queue' < weight p + length (queue s) ->
  work (State queue' h (<[t := p']> (threads s)) log') < work s.
Proof. intros Hp Hlt. pose proof (total_insert weight _ _ _ p' Hp) as Hw. unfold work, total. cbn. lia. Qed.

Lemma lock_work s s' t p p' : threads s !! t = Some p -> weight p' < weight p -> lock t p' s = Goes s' -> work s' < work s.
Proof. intros Hp Hlt. unfold lock. destruct (holder s); [done|]. intros [= <-]. apply (move_work s t p); [done|lia]. Qed.

Lemma run_work s s' t w : run t w s = Goes s' -> work s' < work s.
Proof.
  unfold run. destruct (threads s !! t) as [p|] eqn:Hp; [|done].
  destruct p; try done; cbn;
    try (by apply (lock_work s s' t _ _ Hp); cbn; lia);
    try (intros [= <-]; apply (move_work s t _ _ _ _ _ Hp); rewrite ?length_app; cbn; lia);
    try (destruct (queue s) as [|r rest] eqn:Hqu; intros [= <-]; apply (move_work s t _ _ _ _ _ Hp); rewrite Hqu; cbn; lia).
  destruct (existsb blocked (threads s)).
  - destruct (threads s !! w) as [[]|] eqn:Hwp; try done. intros [= <-].
    assert (threads (at_pc w PopWoken s) !! t = Some (PushSignal element)) as Hp' by (cbn; rewrite list_lookup_insert_ne; congruence).
    pose proof (total_insert weight _ _ _ PopWoken Hwp) as Hw. pose proof (total_insert weight _ _ _ (PushUnlock element) Hp') as Hw'.
    unfold work, total. cbn in *. lia.
  - intros [= <-]. apply (move_work s t _ _ _ _ _ Hp). cbn. lia.
Qed.

Definition settled (s : state) : Prop := forall t w, run t w s = Waits.

(** The holder of the mutex can always go on. *)
Lemma holder_runs s t p : inv s -> threads s !! t = Some p -> holding p = true -> exists w s', run t w s = Goes s'.
Proof.
  intros Hinv Hp Hhold. destruct (inv_held _ _ _ Hinv Hp Hhold) as (_ & q & Hq & Hw). unfold run. rewrite Hp.
  destruct p; try done; cbn; try (exists 0; by eexists).
  - destruct (existsb blocked (threads s)) eqn:Hb; [|by exists 0; eexists]. apply existsb_exists in Hb as (p & (w & Hwp)%list_elem_of_In%list_elem_of_lookup & Hpb).
    exists w. rewrite Hwp. destruct p; try done. by eexists.
  - exists 0. destruct (queue s); by eexists.
  - exists 0. destruct (queue s) eqn:Hqu; [|by eexists]. by destruct Hw as [<- ?].
  - exists 0. destruct (queue s); by eexists.
Qed.

Lemma run_defined s t w : inv s -> run t w s <> Undefined.
Proof.
  intros Hinv. unfold run. destruct (threads s !! t) as [p|] eqn:Hp; [|done].
  destruct p; try done; cbn; unfold lock; try (by destruct (holder s)); try (by destruct (queue s)).
  - destruct (existsb blocked (threads s)); [|done]. by destruct (threads s !! w) as [[]|].
  - held Hinv Hp Hh q Hq Hw. destruct (queue s); [|done]. by destruct Hw as [<- ?].
Qed.

Lemma settled_spec s : inv s -> settled s ->
  holder s = None /\ forall t p, threads s !! t = Some p -> p = Idle \/ (p = PopBlocked /\ queue s = []).
Proof.
  intros Hinv Hset.
  assert (forall t p, threads s !! t = Some p -> holding p = false) as Hnone.
  { intros t p Hp. destruct (holding p) eqn:Hhold; [|done]. destruct (holder_runs s t p Hinv Hp Hhold) as (w & s' & Hrun). by rewrite Hset in Hrun. }
  assert (holder s = None) as Hh.
  { destruct (holder s) as [t|] eqn:Hh; [|done]. destruct (inv_fifo s Hinv) as (q & Hq & Hw). rewrite Hh in Hw. destruct Hw as (p & Hp & Hw%within_holding).
    rewrite (Hnone t p Hp) in Hw. done. }
  split; [done|].
  assert (forall t p, threads s !! t = Some p -> p = Idle \/ p = PopBlocked) as Hidle.
  { intros t p Hp. specialize (Hnone t p Hp). specialize (Hset t 0). unfold run in Hset. rewrite Hp in Hset.
    destruct p; try done; cbn in Hset; unfold lock in Hset; rewrite ?Hh in Hset; first [done|by left|by right]. }
  intros t p Hp. destruct (Hidle t p Hp) as [->| ->]; [by left|right]. split; [done|].
  assert (total owes s = 0) as Ho.
  { unfold total. clear -Hidle. induction (threads s) as [|p l IH]; [done|]. cbn. rewrite IH by (intros t r Hr; by apply (Hidle (S t))). by destruct (Hidle 0 p eq_refl) as [->| ->]. }
  pose proof (total_ge sleeps _ _ _ Hp) as Hs. cbn in Hs. destruct (inv_wake s Hinv) as [Hw|Hw]; unfold total in *; [lia|]. destruct (queue s); [done|cbn in Hw; lia].
Qed.

Definition is_run (e : event) : Prop := match e with Runs _ _ => True | _ => False end.

Lemma runs_work es s s' : Forall is_run es -> exec_all es s = Goes s' -> length es + work s' <= work s.
Proof.
  intros Hes. revert s. induction Hes as [|e es He Hes IH]; intros s; cbn; [intros [= ->]; lia|].
  destruct e as [t w| |]; try done. cbn. destruct (run t w s) as [|s1|] eqn:Hrun; try done. intros Hall. apply run_work in Hrun. apply IH in Hall. lia.
Qed.

Lemma progress s : inv s -> settled s \/ exists t w s', run t w s = Goes s'.
Proof.
  intros Hinv. destruct (holder s) as [t|] eqn:Hh.
  - right. destruct (inv_fifo s Hinv) as (q & Hq & Hw). rewrite Hh in Hw. destruct Hw as (p & Hp & Hw%within_holding). exists t. by apply (holder_runs s t p).
  - destruct (existsb (fun p => match p with Idle | PopBlocked => false | _ => true end) (threads s)) eqn:Hb.
    + right. apply existsb_exists in Hb as (p & (t & Hp)%list_elem_of_In%list_elem_of_lookup & Hpb). exists t.
      destruct (holding p) eqn:Hhold; [by apply (holder_runs s t p)|]. exists 0. unfold run. rewrite Hp. destruct p; try done; cbn; unfold lock; rewrite Hh; by eexists.
    + left. intros t w. unfold run. destruct (threads s !! t) as [p|] eqn:Hp; [|done].
      assert (match p with Idle | PopBlocked => false | _ => true end = false) as Hpb; [|by destruct p].
      apply not_true_iff_false. intros Htrue. apply not_true_iff_false in Hb. apply Hb. apply existsb_exists. exists p. split; [|done].
      by apply list_elem_of_In, (list_elem_of_lookup_2 _ t).
Qed.

Lemma settles s : inv s -> exists es s', Forall is_run es /\ exec_all es s = Goes s' /\ settled s'.
Proof.
  remember (work s) as m eqn:Hm. revert s Hm. induction m as [m IH] using (well_founded_ind Nat.lt_wf_0). intros s -> Hinv.
  destruct (progress s Hinv) as [Hset|(t & w & s1 & Hrun)]; [by exists [], s|].
  destruct (IH (work s1) (run_work s s1 t w Hrun) s1 eq_refl (run_inv s s1 t w Hinv Hrun)) as (es & s' & Hes & Hall & Hset).
  exists (Runs t w :: es), s'. split; [by constructor|]. split; [|done]. cbn. by rewrite Hrun.
Qed.

(** ** What the class promises *)

(** C28: The queue is linearizable: the ended calls, in the order in which they
    released the mutex, are a run of a sequential first-in first-out queue whose
    contents are those of the queue whenever the mutex is free; at most one
    thread is in a critical section, and no step takes from an empty queue. *)
Theorem sync_queue_linearizable n s : reachable n s ->
  (exists q, fifo (log s) q /\ (holder s = None -> queue s = q)) /\
  (forall t t' p p', threads s !! t = Some p -> threads s !! t' = Some p' -> holding p = true -> holding p' = true -> t = t') /\
  (forall e, exec e s <> Undefined).
Proof.
  intros Hinv%reachable_inv. split; [|split].
  - destruct (inv_fifo s Hinv) as (q & Hq & Hw). exists q. split; [done|]. intros Hh. by rewrite Hh in Hw.
  - intros t t' p p' Hp Hp' Hhold Hhold'. apply (inv_holder s Hinv) in Hp; [|done]. apply (inv_holder s Hinv) in Hp'; [|done]. congruence.
  - intros [t w|t c|t]; cbn; [by apply run_defined|..]; by destruct (threads s !! t) as [[]|].
Qed.

(** C29: From every reachable state the threads come to rest within [work s] of
    their own steps, whatever the order in which they run, and then every call has
    ended or is a [Pop] that is blocked while the queue is empty: no wakeup
    is lost. *)
Theorem sync_queue_settles n s : reachable n s ->
  (forall es s', Forall is_run es -> exec_all es s = Goes s' -> length es <= work s) /\
  (exists es s', Forall is_run es /\ exec_all es s = Goes s' /\ settled s') /\
  (settled s -> holder s = None /\ forall t p, threads s !! t = Some p -> p = Idle \/ (p = PopBlocked /\ queue s = [])).
Proof.
  intros Hinv%reachable_inv. split; [|split; [by apply settles|by apply settled_spec]].
  intros es s' Hes Hall. pose proof (runs_work es s s' Hes Hall). lia.
Qed.
End SyncQueue.

(** ** Examples *)

Lemma reachable_exec {T : Type} n es : forall s s' : @state T, reachable n s -> exec_all es s = Goes s' -> reachable n s'.
Proof.
  induction es as [|e es IH]; intros s s' Hs; cbn; [by intros [= <-]|].
  destruct (exec e s) as [|s1|] eqn:He; try done. apply IH. by eapply reach_step.
Qed.

(** A [Pop] blocks on the empty queue; a [Push] wakes it, but a second [Pop]
    takes the element first, so the first blocks again. *)
Definition stolen : list event :=
  [Calls 0 CallPop; Runs 0 0; Runs 0 0; Calls 1 (CallPush 7); Runs 1 0; Runs 1 0; Runs 1 0; Calls 2 CallPop; Runs 1 0;
   Runs 2 0; Runs 2 0; Runs 2 0; Runs 2 0; Runs 0 0; Runs 0 0].
Definition stolen_state : state := State [] None [PopBlocked; Idle; Idle] [DPush 7; DPop 7].

Lemma stolen_reachable : reachable 3 stolen_state.
Proof. apply (reachable_exec 3 stolen (SynchronizedQueue 3)); [constructor|reflexivity]. Qed.

Lemma sync_queue_linearizable_witness : fifo [DPush 7; DPop 7] (queue stolen_state) /\ exec (Runs 0 0) stolen_state <> Undefined.
Proof.
  destruct (sync_queue_linearizable 3 stolen_state stolen_reachable) as ((q & Hq & Hfree) & _ & Hdef).
  split; [by rewrite (Hfree eq_refl)|apply Hdef].
Defined.

(** The [Push] has signalled and the first [Pop] is about to take the mutex. *)
Definition woken_state : state := State [7] (Some 1) [PopWoken; PushUnlock 7; Idle] [].

Lemma woken_reachable : reachable 3 woken_state.
Proof. apply (reachable_exec 3 (take 7 stolen) (SynchronizedQueue 3)); [constructor|reflexivity]. Qed.

Lemma sync_queue_settles_witness : exists es s', Forall is_run es /\ exec_all es woken_state = Goes s' /\ settled s'.
Proof. apply (sync_queue_settles 3 woken_state woken_reachable). Defined.
