(* ===== verification/Gmp.v ===== *)
(** The big integers of [compiler/cstdinc/gmp.h]: two's-complement numbers
    of 72 limbs of 32 bits.

    Every operation has the widths its types have in C: a product of two limbs
    is a [uint32_t], a column sum and a carry are [uint64_t].  Only
    [mpz_mul_infield], which no code calls, is written for the compiler, whose
    unsigned integers are elements of a field until a bit operation cuts them
    ("We're going to overflow some unsigned ints"): it is modelled so. *)
From Stdlib Require Import ZArith Lia.
From stdpp Require Import base numbers list.
From S2P Require Import Prelude.

Local Open Scope Z_scope.

Definition LIMBS_IN_FIELD : nat := 7.
Definition MPZ_LENGTH : nat := 72.

(** [struct mpz_t] *)
Abbreviation mpz_t := (list Z).

(** A number that is not initialised reads as zero. *)
Definition mpz_zero : mpz_t := replicate MPZ_LENGTH 0.

(** ** The code *)

Definition mpz_set_si (num : Z) (a : mpz_t) : mpz_t :=
  let val := u64 num in
  let a := <[0%nat := Z.land val 0xFFFFFFFF]> a in
  let a := <[1%nat := Z.land (Z.shiftr val 32) 0xFFFFFFFF]> a in
  if negb (Z.land (Z.shiftr val 63) 1 =? 0)
  then for_up 2 MPZ_LENGTH (fun i a => <[i := 0xFFFFFFFF]> a) a
  else for_up 2 MPZ_LENGTH (fun i a => <[i := 0]> a) a.

Definition mpz_set (c a : mpz_t) : mpz_t :=
  for_up 0 MPZ_LENGTH (fun i c => <[i := a !!! i]> c) c.

Definition mpz_get_si (a : mpz_t) : Z :=
  let upper := Z.lor (Z.land (a !!! 1%nat) 0x7FFFFFFF) (Z.land (a !!! (MPZ_LENGTH - 1)%nat) 0x80000000) in
  s64 (Z.lor (u64 (Z.shiftl (u64 upper) 32)) (a !!! 0%nat)).

(** [c] may be [a] or [b]: limb [i] is written after it was read. *)
Definition mpz_add_limb (a b : nat -> mpz_t -> Z) (i : nat) (s : Z * mpz_t) : Z * mpz_t :=
  let '(carry, c) := s in
  let sum := u64 (a i c + b i c + carry) in
  (Z.land (Z.shiftr sum 32) 1, <[i := Z.land sum 0xFFFFFFFF]> c).

Definition mpz_add (c a b : mpz_t) : mpz_t :=
  snd (for_up 0 MPZ_LENGTH (mpz_add_limb (fun i _ => a !!! i) (fun i _ => b !!! i)) (0, c)).

(** The calls [mpz_add(c, c, b)]. *)
Definition mpz_add_to (c b : mpz_t) : mpz_t :=
  snd (for_up 0 MPZ_LENGTH (mpz_add_limb (fun i c => c !!! i) (fun i _ => b !!! i)) (0, c)).

Definition mpz_neg (c a : mpz_t) : mpz_t :=
  let c := for_up 0 MPZ_LENGTH (fun i c => <[i := u32 (Z.lnot (a !!! i))]> c) c in
  let one := mpz_set_si 1 mpz_zero in
  mpz_add_to c one.

(** [a + b * 2^(32 offset_limbs)] *)
Definition mpz_add_ (c_ a b : mpz_t) (offset_limbs : nat) : mpz_t :=
  let c := mpz_set mpz_zero a in
  let '(_, c) :=
    for_up offset_limbs MPZ_LENGTH
      (mpz_add_limb (fun i c => c !!! i) (fun i _ => b !!! (i - offset_limbs)%nat)) (0, c) in
  mpz_set c_ c.

Definition mpz_sub (c_ a b : mpz_t) : mpz_t :=
  let c := mpz_neg mpz_zero b in
  let c := mpz_add_to c a in
  mpz_set c_ c.

Definition mpz_mul_ (c_ a b : mpz_t) (size : Z) : mpz_t :=
  let c := mpz_zero in
  let '(_, c) :=
    for_up 0 MPZ_LENGTH
      (fun column '(carry, c) =>
         let column_sum :=
           for_up 0 (S column)
             (fun i column_sum => u64 (column_sum + u32 (a !!! (column - i)%nat * b !!! i))) carry in
         (u64 (Z.shiftr column_sum 32), <[column := Z.land column_sum 0xFFFFFFFF]> c)) (0, c) in
  mpz_set c_ c.

(** Its other branch, under [if (1)], is never taken. *)
Definition mpz_mul_karatsuba (c a b : mpz_t) (size : Z) : mpz_t := mpz_mul_ c a b size.

Definition mpz_mul (c a b : mpz_t) : mpz_t := mpz_mul_ c a b (Z.of_nat MPZ_LENGTH).

(** One field multiplication of [size] limbs; the constraint
    [assert_zero(1)] has no solution. *)
Definition mpz_mul_infield (c a : mpz_t) (a_offset : nat) (b : mpz_t) (b_offset size : nat) : res mpz_t :=
  if (LIMBS_IN_FIELD <? size * 2)%nat then Fault
  else
    let '(a_, b_) :=
      for_down 0 size
        (fun i '(a_, b_) => (a_ * 0x100000000 + a !!! (i + a_offset)%nat,
                             b_ * 0x100000000 + b !!! (i + b_offset)%nat)) (0, 0) in
    let c_ := a_ * b_ in
    Ok (for_up 0 (Nat.min (size * 2) MPZ_LENGTH)
          (fun i c => <[i := Z.land (Z.shiftr c_ (32 * Z.of_nat i)) 0xFFFFFFFF]> c) c).

(** [gmp_test.c]: the product of an input with a number given as a decimal
    string; [__INT_STRING_TO_BITS] is a compiler primitive. *)
Definition gmp_test (mpz_set_str : mpz_t -> mpz_t) (data : list Z) : mpz_t :=
  let a := mpz_set_si (data !!! 0%nat) mpz_zero in
  let b := mpz_set_str mpz_zero in
  mpz_set mpz_zero (mpz_mul mpz_zero a b).

(** ** Values *)

Definition B : Z := 2 ^ 32.

(** The unsigned value of the first [n] limbs. *)
Definition value (n : nat) (a : mpz_t) : Z := zsum n (fun i => a !!! i * B ^ Z.of_nat i).
Definition uval (a : mpz_t) : Z := value MPZ_LENGTH a.
(** The signed value. *)
Definition sval (a : mpz_t) : Z := wraps (32 * Z.of_nat MPZ_LENGTH) (uval a).

Definition limbs_wf (a : mpz_t) : Prop := length a = MPZ_LENGTH /\ Forall (in_u 32) a.

Lemma limb_range a i : limbs_wf a -> (i < MPZ_LENGTH)%nat -> 0 <= a !!! i < B.
Proof.
  intros [Hl Ha] Hi. destruct (lookup_lt_is_Some_2 a i) as [x Hx]; [lia|].
  rewrite (list_lookup_total_correct _ _ _ Hx). by apply (Forall_lookup_1 _ _ _ _ Ha Hx).
Qed.

Lemma B_pos i : 0 < B ^ Z.of_nat i.
Proof. apply Z.pow_pos_nonneg; [done|lia]. Qed.

Lemma B_S i : B ^ Z.of_nat (S i) = B * B ^ Z.of_nat i.
Proof. rewrite Nat2Z.inj_succ. apply Z.pow_succ_r. lia. Qed.

Lemma value_range a n : limbs_wf a -> (n <= MPZ_LENGTH)%nat -> 0 <= value n a < B ^ Z.of_nat n.
Proof.
  intros Ha. induction n as [|n IH]; intros Hn; [cbn; lia|].
  unfold value in *. cbn [zsum]. rewrite B_S. pose proof (limb_range a n Ha ltac:(lia)).
  pose proof (B_pos n). specialize (IH ltac:(lia)). nia.
Qed.

(** The value of the first limbs depends on them only. *)
Lemma value_ext n a b : (forall i, (i < n)%nat -> a !!! i = b !!! i) -> value n a = value n b.
Proof. intros Hab. apply zsum_ext. intros i Hi. by rewrite Hab. Qed.

Lemma value_insert n a i x :
  (n <= i)%nat -> value n (<[i := x]> a) = value n a.
Proof. intros Hi. apply value_ext. intros j Hj. by rewrite list_lookup_total_insert_ne by lia. Qed.

Lemma mask32 x : Z.land x 0xFFFFFFFF = x mod B.
Proof. change 0xFFFFFFFF with (Z.ones 32). by rewrite Z.land_ones. Qed.

(** A limb loop that splits what it is given into a limb and a carry. *)
Lemma limb_insert_wf a i x :
  length a = MPZ_LENGTH -> Forall (in_u 32) a -> limbs_wf (<[i := x mod B]> a).
Proof.
  intros Hl Ha. split; [by rewrite length_insert|]. apply Forall_insert; [done|].
  apply Z.mod_pos_bound. done.
Qed.

(** ** Addition *)

(** The carry chain of the three additions: [X i] and [Y i] are the limbs
    read at index [i], from the place [lo] on. *)
Lemma add_loop f g X Y lo c0 :
  (lo <= MPZ_LENGTH)%nat -> limbs_wf c0 ->
  (forall i c, (lo <= i < MPZ_LENGTH)%nat -> (forall j, (i <= j)%nat -> c !!! j = c0 !!! j) ->
     f i c = X i /\ g i c = Y i) ->
  (forall i, (lo <= i < MPZ_LENGTH)%nat -> 0 <= X i < B /\ 0 <= Y i < B) ->
  exists carry c, for_up lo MPZ_LENGTH (mpz_add_limb f g) (0, c0) = (carry, c) /\
    limbs_wf c /\ 0 <= carry <= 1 /\
    uval c + carry * B ^ Z.of_nat MPZ_LENGTH
    = value lo c0 + zsum (MPZ_LENGTH - lo) (fun i => (X (lo + i)%nat + Y (lo + i)%nat) * B ^ Z.of_nat (lo + i)).
Proof.
  intros Hlo Hc0 Hread Hrange.
  destruct (for_up_ind (fun i s =>
      limbs_wf s.2 /\ 0 <= s.1 <= 1 /\ (forall j, (i <= j)%nat -> s.2 !!! j = c0 !!! j) /\
      value i s.2 + s.1 * B ^ Z.of_nat i
      = value lo c0 + zsum (i - lo) (fun i => (X (lo + i)%nat + Y (lo + i)%nat) * B ^ Z.of_nat (lo + i)))
    lo MPZ_LENGTH (mpz_add_limb f g) (0, c0)) as (Hwf & Hcarry & _ & Hval); [done| | |].
  - cbn [fst snd]. rewrite Nat.sub_diag. cbn. split; [done|]. split; [lia|]. split; [done|lia].
  - intros i [carry c] Hi (Hwf & Hcarry & Hrest & Hval). cbn [fst snd] in *. unfold mpz_add_limb.
    destruct (Hread i c Hi Hrest) as [-> ->]. destruct (Hrange i Hi) as [HX HY].
    rewrite (wrapu_small 64) by (unfold B in *; ranges).
    set (sum := X i + Y i + carry). assert (0 <= sum < 2 * B) as Hsum by (unfold sum; lia).
    assert (Z.land (Z.shiftr sum 32) 1 = sum / B) as Hc.
    { rewrite Z.shiftr_div_pow2 by lia. change (2 ^ 32) with B. change 1 with (Z.ones 1).
      rewrite Z.land_ones by lia. apply Z.mod_small. split; [apply Z.div_pos; unfold B; lia|].
      apply Z.div_lt_upper_bound; unfold B in *; lia. }
    rewrite Hc, mask32. cbn [fst snd]. destruct Hwf as [Hl Ha].
    split; [by apply limb_insert_wf|].
    assert (0 <= sum / B <= 1) as Hq.
    { split; [apply Z.div_pos; unfold B; lia|]. apply Zlt_succ_le, Z.div_lt_upper_bound; unfold B in *; lia. }
    split; [done|]. split.
    + intros j Hj. rewrite list_lookup_total_insert_ne by lia. apply Hrest. lia.
    + unfold value in *. cbn [zsum]. rewrite list_lookup_total_insert_eq by lia.
      replace (S i - lo)%nat with (S (i - lo)) by lia. cbn [zsum]. replace (lo + (i - lo))%nat with i by lia.
      pose proof (value_insert i c i (sum mod B) (le_n _)) as Hins. unfold value in Hins. rewrite Hins.
      rewrite B_S. pose proof (Z.div_mod sum B ltac:(unfold B; lia)) as Hdm. unfold sum in *. nia.
  - destruct (for_up lo MPZ_LENGTH (mpz_add_limb f g) (0, c0)) as [carry c]. cbn [fst snd] in *.
    exists carry, c. split; [done|]. split; [done|]. split; [done|]. exact Hval.
Qed.

Definition M : Z := B ^ Z.of_nat MPZ_LENGTH.

Lemma M_pow : M = 2 ^ (32 * Z.of_nat MPZ_LENGTH).
Proof. unfold M, B. rewrite <- Z.pow_mul_r by lia. reflexivity. Qed.

Lemma M_pos : 0 < M.
Proof. apply Z.pow_pos_nonneg; [done|lia]. Qed.

Lemma uval_range a : limbs_wf a -> 0 <= uval a < M.
Proof. intros Ha. by apply value_range. Qed.

(** A number plus a carry out is a number modulo [M]. *)
Lemma drop_carry u carry s : 0 <= u < M -> u + carry * M = s -> u = s mod M.
Proof. intros Hu <-. pose proof M_pos. rewrite Z.mod_add by lia. symmetry. by apply Z.mod_small. Qed.

(** Signed values agree when unsigned ones agree modulo [M]. *)
Lemma sval_eqm a z : uval a mod M = z mod M -> sval a = wraps (32 * Z.of_nat MPZ_LENGTH) z.
Proof. intros Ha. apply wraps_eqm; [done|]. by rewrite <- M_pow. Qed.

Lemma sval_mod a : sval a mod M = uval a mod M.
Proof. unfold sval. rewrite M_pow. by apply wraps_mod. Qed.

Lemma mpz_add_uval c a b :
  limbs_wf c -> limbs_wf a -> limbs_wf b ->
  limbs_wf (mpz_add c a b) /\ uval (mpz_add c a b) = (uval a + uval b) mod M.
Proof.
  intros Hc Ha Hb. unfold mpz_add.
  destruct (add_loop (fun i _ => a !!! i) (fun i _ => b !!! i) (fun i => a !!! i) (fun i => b !!! i) 0 c)
    as (carry & c' & -> & Hwf & _ & Hval); [lia|done|done| |].
  { intros i Hi. split; apply limb_range; done || lia. }
  cbn [snd]. split; [done|]. apply (drop_carry _ carry); [by apply uval_range|].
  rewrite <- M_pow in * || idtac. unfold M. rewrite Hval. unfold uval, value. cbn [zsum].
  rewrite Nat.sub_0_r, Z.add_0_l, <- zsum_add. apply zsum_ext. intros i _. cbn [Nat.add]. lia.
Qed.

Lemma mpz_add_to_uval c b :
  limbs_wf c -> limbs_wf b ->
  limbs_wf (mpz_add_to c b) /\ uval (mpz_add_to c b) = (uval c + uval b) mod M.
Proof.
  intros Hc Hb. unfold mpz_add_to.
  destruct (add_loop (fun i c => c !!! i) (fun i _ => b !!! i) (fun i => c !!! i) (fun i => b !!! i) 0 c)
    as (carry & c' & -> & Hwf & _ & Hval); [lia|done| | |].
  { intros i c' Hi Heq. split; [by apply Heq|done]. }
  { intros i Hi. split; apply limb_range; done || lia. }
  cbn [snd]. split; [done|]. apply (drop_carry _ carry); [by apply uval_range|].
  unfold M. rewrite Hval. unfold uval, value. cbn [zsum].
  rewrite Nat.sub_0_r, Z.add_0_l, <- zsum_add. apply zsum_ext. intros i _. cbn [Nat.add]. lia.
Qed.

Lemma mpz_set_eq c a : limbs_wf a -> length c = MPZ_LENGTH -> mpz_set c a = a.
Proof.
  intros [Ha _] Hc. unfold mpz_set.
  pose proof (for_up_fill 0 (fun i _ => a !!! i) c a) as H. rewrite Ha in H. rewrite H; try done; [|lia].
  by rewrite drop_ge, app_nil_r by lia.
Qed.

Lemma mpz_zero_wf : limbs_wf mpz_zero.
Proof. split; [done|]. apply Forall_replicate. unfold in_u. lia. Qed.

(** Each limb of a complement is what is missing to [B - 1]. *)
Lemma lnot_limb x : 0 <= x < B -> u32 (Z.lnot x) = B - 1 - x.
Proof. intros Hx. unfold Z.lnot, wrapu, B in *. rewrite <- (Z.mod_add _ 1) by lia. rewrite Z.mod_small; lia. Qed.

Lemma complement_value n a : value n a + zsum n (fun i => (B - 1 - a !!! i) * B ^ Z.of_nat i) = B ^ Z.of_nat n - 1.
Proof.
  induction n as [|n IH]; [done|]. unfold value in *. cbn [zsum]. rewrite B_S. lia.
Qed.

Lemma for_up_limbs lo n (f : nat -> Z) c :
  (lo <= n)%nat -> n = length c ->
  let c' := for_up lo n (fun i c => <[i := f i]> c) c in
  length c' = n /\ forall i, (i < n)%nat -> c' !!! i = if (i <? lo)%nat then c !!! i else f i.
Proof.
  intros Hlo Hn.
  destruct (for_up_ind (fun k c' => length c' = n /\ forall i, (i < n)%nat ->
      c' !!! i = if (i <? lo)%nat || (k <=? i)%nat then c !!! i else f i) lo n (fun i c => <[i := f i]> c) c)
    as [Hl Hv]; [done| | |].
  - split; [done|]. intros i Hi. destruct (Nat.ltb_spec i lo), (Nat.leb_spec lo i); done || lia.
  - intros k c' Hk [Hl Hv]. split; [by rewrite length_insert|]. intros i Hi.
    destruct (decide (i = k)) as [->|Hne].
    + rewrite list_lookup_total_insert_eq by lia.
      destruct (Nat.ltb_spec k lo), (Nat.leb_spec (S k) k); done || lia.
    + rewrite list_lookup_total_insert_ne by done. rewrite Hv by done.
      destruct (Nat.ltb_spec i lo), (Nat.leb_spec k i), (Nat.leb_spec (S k) i); cbn; done || lia.
  - split; [done|]. intros i Hi. rewrite Hv by done.
    destruct (Nat.ltb_spec i lo), (Nat.leb_spec n i); cbn; done || lia.
Qed.

Lemma limbs_wf_lookup a :
  length a = MPZ_LENGTH -> (forall i, (i < MPZ_LENGTH)%nat -> 0 <= a !!! i < B) -> limbs_wf a.
Proof.
  intros Hl Ha. split; [done|]. apply Forall_lookup. intros i x Hx.
  pose proof (lookup_lt_Some _ _ _ Hx). specialize (Ha i ltac:(lia)).
  by rewrite (list_lookup_total_correct _ _ _ Hx) in Ha.
Qed.

(** The value of a number whose limbs from [lo] on are all [x]. *)
Lemma fill_value a c x (lo : nat) :
  (forall i, (i < MPZ_LENGTH)%nat -> c !!! i = if (i <? lo)%nat then a !!! i else x) -> (lo <= MPZ_LENGTH)%nat ->
  (B - 1) * uval c = (B - 1) * value lo a + x * (M - B ^ Z.of_nat lo).
Proof.
  intros Hc Hlo. unfold M.
  cut (forall n, (lo <= n <= MPZ_LENGTH)%nat ->
    (B - 1) * value n c = (B - 1) * value lo a + x * (B ^ Z.of_nat n - B ^ Z.of_nat lo)).
  { intros H. apply H. lia. }
  induction n as [|n IH]; intros Hn.
  - replace lo with O by lia. cbn. lia.
  - destruct (decide (lo = S n)) as [<-|Hne].
    + rewrite (value_ext lo c a); [lia|]. intros i Hi. rewrite Hc by lia.
      by destruct (Nat.ltb_spec i lo); [|lia].
    + unfold value in *. cbn [zsum]. rewrite Z.mul_add_distr_l, IH by lia. rewrite Hc by lia.
      destruct (Nat.ltb_spec n lo); [lia|]. rewrite B_S. lia.
Qed.

Lemma mpz_set_si_uval num a :
  in_s 64 num -> length a = MPZ_LENGTH ->
  limbs_wf (mpz_set_si num a) /\ uval (mpz_set_si num a) = num mod M.
Proof.
  intros Hnum Ha. unfold mpz_set_si. set (v := u64 num).
  assert (0 <= v < B * B) as Hv by (exact (wrapu_range 64 num ltac:(lia))).
  assert (Z.land (Z.shiftr v 63) 1 = b2z (num <? 0)) as Hsign.
  { rewrite Z.shiftr_div_pow2 by lia. change (Z.land ?x 1) with (Z.land x (Z.ones 1)). rewrite Z.land_ones by lia.
    unfold v, wrapu, in_s in *. eval_pow.
    destruct (Z.ltb_spec num 0); cbn [b2z].
    - rewrite <- (Z.mod_add num 1) by lia. rewrite (Z.mod_small (num + _)) by lia.
      Z.to_euclidean_division_equations; lia.
    - rewrite (Z.mod_small num) by lia. Z.to_euclidean_division_equations; lia. }
  rewrite Hsign, !mask32, Z.shiftr_div_pow2 by lia. change (2 ^ 32) with B.
  set (a0 := <[1%nat := (v / B) mod B]> (<[0%nat := v mod B]> a)).
  assert (length a0 = MPZ_LENGTH) as Hl0 by (unfold a0; by rewrite !length_insert).
  set (x := if num <? 0 then 0xFFFFFFFF else 0).
  match goal with |- context [if ?b then ?c1 else ?c2] =>
    assert ((if b then c1 else c2) = for_up 2 MPZ_LENGTH (fun i a => <[i := x]> a) a0) as -> by
      (unfold x; destruct (num <? 0); reflexivity) end.
  destruct (for_up_limbs 2 MPZ_LENGTH (fun _ => x) a0) as [Hl Hc]; [unfold MPZ_LENGTH; lia|done|].
  set (c := for_up _ _ _ _) in *.
  assert (value 2 a0 = v) as Hlow.
  { unfold value, a0. cbn [zsum]. rewrite list_lookup_total_insert_ne by lia.
    rewrite !list_lookup_total_insert_eq by (rewrite ?length_insert, ?Ha; unfold MPZ_LENGTH; lia).
    rewrite (Z.mod_small (v / B)).
    - pose proof (Z.div_mod v B ltac:(unfold B; lia)). change (Z.of_nat 0) with 0. change (Z.of_nat 1) with 1.
      rewrite Z.pow_0_r, Z.pow_1_r. lia.
    - split; [apply Z.div_pos; unfold B; lia|]. apply Z.div_lt_upper_bound; unfold B in *; lia. }
  assert (limbs_wf c) as Hwf.
  { apply limbs_wf_lookup; [done|]. intros i Hi. rewrite Hc by done.
    destruct (Nat.ltb_spec i 2).
    - assert (i = 0 \/ i = 1)%nat as [-> | ->] by lia; unfold a0.
      + rewrite list_lookup_total_insert_ne by lia.
        rewrite list_lookup_total_insert_eq by (rewrite Ha; unfold MPZ_LENGTH; lia). apply Z.mod_pos_bound. done.
      + rewrite list_lookup_total_insert_eq by (rewrite length_insert, Ha; unfold MPZ_LENGTH; lia).
        apply Z.mod_pos_bound. done.
    - unfold x, B. destruct (num <? 0); lia. }
  split; [done|]. apply (drop_carry _ (- b2z (num <? 0))); [by apply uval_range|].
  pose proof (fill_value a0 c x 2 Hc ltac:(unfold MPZ_LENGTH; lia)) as Hval. rewrite Hlow in Hval.
  change (B ^ Z.of_nat 2) with (2 ^ 64) in Hval.
  unfold v, wrapu, x, in_s in *. clear Hlow Hc Hl. revert Hval. generalize (uval c) M. intros u m Hval.
  change 0xFFFFFFFF with (B - 1) in Hval. assert (0 < B - 1) by (unfold B; lia).
  destruct (Z.ltb_spec num 0); cbn [b2z].
  - rewrite <- (Z.mod_add num 1) in Hval by lia. rewrite (Z.mod_small (num + _)) in Hval by lia. nia.
  - rewrite (Z.mod_small num) in Hval by lia. nia.
Qed.

Lemma mpz_neg_uval c a :
  limbs_wf c -> limbs_wf a -> limbs_wf (mpz_neg c a) /\ uval (mpz_neg c a) = (- uval a) mod M.
Proof.
  intros [Hc _] Ha. unfold mpz_neg.
  destruct (for_up_limbs 0 MPZ_LENGTH (fun i => u32 (Z.lnot (a !!! i))) c) as [Hl Hv]; [lia|done|].
  set (c' := for_up _ _ _ _) in *.
  assert (forall i, (i < MPZ_LENGTH)%nat -> c' !!! i = B - 1 - a !!! i) as Hlim.
  { intros i Hi. rewrite Hv by done. cbn. apply lnot_limb. by apply limb_range. }
  assert (limbs_wf c') as Hwf.
  { apply limbs_wf_lookup; [done|]. intros i Hi. rewrite Hlim by done. pose proof (limb_range a i Ha Hi). lia. }
  destruct (mpz_set_si_uval 1 mpz_zero) as [Hwf1 H1]; [unfold in_s; lia|done|].
  destruct (mpz_add_to_uval c' (mpz_set_si 1 mpz_zero)) as [? ->]; [done|done|]. split; [done|].
  rewrite H1, Zplus_mod_idemp_r. pose proof (complement_value MPZ_LENGTH a) as Hcv.
  rewrite <- (zsum_ext MPZ_LENGTH (fun i => c' !!! i * B ^ Z.of_nat i)) in Hcv
    by (intros i Hi; by rewrite Hlim).
  assert (uval a + uval c' = M - 1) as Hsum by exact Hcv.
  replace (uval c' + 1) with (- uval a + 1 * M) by lia. pose proof M_pos. apply Z.mod_add. lia.
Qed.

Lemma mpz_sub_uval c a b :
  limbs_wf c -> limbs_wf a -> limbs_wf b ->
  limbs_wf (mpz_sub c a b) /\ uval (mpz_sub c a b) = (uval a - uval b) mod M.
Proof.
  intros Hc Ha Hb. unfold mpz_sub.
  destruct (mpz_neg_uval mpz_zero b mpz_zero_wf Hb) as [Hwf Hn].
  destruct (mpz_add_to_uval _ a Hwf Ha) as [Hwf' Hs]. rewrite (mpz_set_eq c) by (exact Hwf' || apply Hc). split; [exact Hwf'|].
  rewrite Hs, Hn, Zplus_mod_idemp_l. f_equal. lia.
Qed.

Lemma mpz_add__uval c a b offset :
  limbs_wf c -> limbs_wf a -> limbs_wf b -> (offset <= MPZ_LENGTH)%nat ->
  limbs_wf (mpz_add_ c a b offset) /\
  uval (mpz_add_ c a b offset) = (uval a + uval b * B ^ Z.of_nat offset) mod M.
Proof.
  intros [Hc _] Ha Hb Ho. unfold mpz_add_. rewrite (mpz_set_eq mpz_zero a Ha eq_refl).
  destruct (add_loop (fun i c => c !!! i) (fun i _ => b !!! (i - offset)%nat)
    (fun i => a !!! i) (fun i => b !!! (i - offset)%nat) offset a)
    as (carry & c' & -> & Hwf & _ & Hval); [exact Ho|exact Ha| | |].
  { intros i c' Hi Heq. split; [by apply Heq|done]. }
  { intros i Hi. split; apply limb_range; done || lia. }
  rewrite (mpz_set_eq c) by (exact Hwf || exact Hc). split; [exact Hwf|].
  set (n := (MPZ_LENGTH - offset)%nat) in *.
  assert (value offset a + zsum n (fun i => a !!! (offset + i)%nat * B ^ Z.of_nat (offset + i)) = uval a) as Hua.
  { unfold value, uval. rewrite <- zsum_split. unfold n, value. by replace (offset + (_ - offset))%nat with MPZ_LENGTH by lia. }
  assert (value n b * B ^ Z.of_nat offset + B ^ Z.of_nat offset * B ^ Z.of_nat n *
    zsum offset (fun i => b !!! (n + i)%nat * B ^ Z.of_nat i) = uval b * B ^ Z.of_nat offset) as Hub.
  { unfold uval, value. replace MPZ_LENGTH with (n + offset)%nat by (unfold n; lia). rewrite zsum_split.
    rewrite (zsum_ext offset (fun i => b !!! (n + i)%nat * B ^ Z.of_nat (n + i))
      (fun i => B ^ Z.of_nat n * (b !!! (n + i)%nat * B ^ Z.of_nat i))); [rewrite zsum_mul_l; lia|].
    intros i _. rewrite Nat2Z.inj_add, Z.pow_add_r by lia. lia. }
  rewrite <- Z.pow_add_r in Hub by lia.
  replace (Z.of_nat offset + Z.of_nat n) with (Z.of_nat MPZ_LENGTH) in Hub by (unfold n; lia). fold M in Hub.
  rewrite <- Hub.
  set (w := zsum offset _) in Hub |- *.
  rewrite (drop_carry (uval c') carry (uval a + value n b * B ^ Z.of_nat offset)).
  - rewrite Z.add_assoc. rewrite (Z.mul_comm M), Z.mod_add by (pose proof M_pos; lia). done.
  - by apply uval_range.
  - unfold M. rewrite Hval, <- Hua, <- Z.add_assoc. f_equal. unfold value.
    rewrite (Z.mul_comm (zsum n _)), <- zsum_mul_l, <- zsum_add. apply zsum_ext. intros i _.
    replace (offset + i - offset)%nat with i by lia. rewrite Nat2Z.inj_add, Z.pow_add_r by lia. lia.
Qed.

(** ** Multiplication *)

(** Sums over a triangle, by columns and by rows. *)
Lemma zsum_triangle n (f : nat -> nat -> Z) :
  zsum n (fun j => zsum (S j) (fun i => f i (j - i)%nat)) = zsum n (fun i => zsum (n - i) (fun l => f i l)).
Proof.
  induction n as [|n IH]; [done|].
  transitivity (zsum n (fun i => zsum (n - i) (fun l => f i l)) + zsum (S n) (fun i => f i (n - i)%nat)).
  { cbn [zsum] in *. by rewrite IH. }
  rewrite (zsum_ext (S n) (fun i => zsum (S n - i) (fun l => f i l))
    (fun i => zsum (n - i) (fun l => f i l) + f i (n - i)%nat)).
  - rewrite zsum_add. f_equal. cbn [zsum]. rewrite Nat.sub_diag. cbn. lia.
  - intros i Hi. by replace (S n - i)%nat with (S (n - i)) by lia.
Qed.

Definition column (a b : mpz_t) (j : nat) : Z := zsum (S j) (fun i => a !!! (j - i)%nat * b !!! i).

Lemma columns_product a b n :
  exists q, value n a * value n b = zsum n (fun j => column a b j * B ^ Z.of_nat j) + q * B ^ Z.of_nat n.
Proof.
  set (f := fun i l => b !!! i * B ^ Z.of_nat i * (a !!! l * B ^ Z.of_nat l)).
  rewrite (zsum_ext n _ (fun j => zsum (S j) (fun i => f i (j - i)%nat))).
  2:{ intros j Hj. unfold column, f. rewrite Z.mul_comm, <- zsum_mul_l. apply zsum_ext. intros i Hi.
      replace (Z.of_nat j) with (Z.of_nat i + Z.of_nat (j - i)) by lia. rewrite Z.pow_add_r by lia. lia. }
  rewrite zsum_triangle.
  rewrite (zsum_ext n _ (fun i => b !!! i * B ^ Z.of_nat i * value (n - i) a))
    by (intros i Hi; unfold f; by rewrite zsum_mul_l).
  exists (zsum n (fun i => b !!! i * zsum i (fun l => a !!! (n - i + l)%nat * B ^ Z.of_nat l))).
  rewrite (Z.mul_comm (zsum n (fun i => b !!! i * zsum _ _))), <- zsum_mul_l, <- zsum_add.
  unfold value at 2. rewrite <- zsum_mul_l. apply zsum_ext. intros i Hi.
  assert (value n a = value (n - i) a + B ^ Z.of_nat (n - i) * zsum i (fun l => a !!! (n - i + l)%nat * B ^ Z.of_nat l)) as ->.
  { unfold value. rewrite <- (zsum_mul_l i). rewrite (zsum_ext i (fun l => B ^ Z.of_nat (n - i) * _)
      (fun l => a !!! (n - i + l)%nat * B ^ Z.of_nat (n - i + l))).
    - rewrite <- zsum_split. by replace (n - i + i)%nat with n by lia.
    - intros l Hl. rewrite Nat2Z.inj_add, Z.pow_add_r by lia. lia. }
  replace (B ^ Z.of_nat n) with (B ^ Z.of_nat i * B ^ Z.of_nat (n - i))
    by (rewrite <- Z.pow_add_r by lia; f_equal; lia). lia.
Qed.

Lemma uval_product a b :
  exists q, uval a * uval b = zsum MPZ_LENGTH (fun j => column a b j * B ^ Z.of_nat j) + q * M.
Proof. unfold uval, M. apply columns_product. Qed.

(** The limbs that meet in a column have products of 32 bits. *)
Definition limbs_fit (a b : mpz_t) : Prop := forall i j, (i + j < MPZ_LENGTH)%nat -> a !!! i * b !!! j < B.

(** The sum of a column is then exact. *)
Lemma column_sum_exact a b k carry : limbs_wf a -> limbs_wf b -> limbs_fit a b -> (k < MPZ_LENGTH)%nat -> 0 <= carry < B ->
  for_up 0 (S k) (fun i column_sum => u64 (column_sum + u32 (a !!! (k - i)%nat * b !!! i))) carry = carry + column a b k /\
  0 <= column a b k <= 72 * B.
Proof.
  intros Ha Hb Hfit Hk Hc. unfold column.
  assert (Hprod : forall i, (i < S k)%nat -> 0 <= a !!! (k - i)%nat * b !!! i < B).
  { intros i Hi. split; [|apply Hfit; lia]. pose proof (limb_range a (k - i) Ha ltac:(lia)). pose proof (limb_range b i Hb ltac:(lia)). nia. }
  assert (Hsum : forall n, (n <= S k)%nat -> 0 <= zsum n (fun i => a !!! (k - i)%nat * b !!! i) <= Z.of_nat n * B).
  { induction n as [|n IH]; intros Hn; [cbn; lia|]. cbn [zsum]. specialize (IH ltac:(lia)). pose proof (Hprod n ltac:(lia)). lia. }
  split.
  - destruct (for_up_ind (fun n s => s = carry + zsum n (fun i => a !!! (k - i)%nat * b !!! i)) 0 (S k)
      (fun i column_sum => u64 (column_sum + u32 (a !!! (k - i)%nat * b !!! i))) carry); [lia|cbn; lia| |done].
    intros n s Hn ->. pose proof (Hprod n ltac:(lia)) as Hp. pose proof (Hsum n ltac:(lia)) as Hs. unfold MPZ_LENGTH in Hk.
    rewrite (wrapu_small 32) by (unfold in_u, B in *; lia). rewrite (wrapu_small 64) by (unfold in_u, B in *; nia). cbn [zsum]. lia.
  - specialize (Hsum (S k) (le_n _)). unfold MPZ_LENGTH in Hk. nia.
Qed.

(** The columns are then added up to the product. *)
Lemma mpz_mul_exact c a b size :
  limbs_wf c -> limbs_wf a -> limbs_wf b -> limbs_fit a b ->
  limbs_wf (mpz_mul_ c a b size) /\ uval (mpz_mul_ c a b size) = (uval a * uval b) mod M.
Proof.
  intros [Hc _] Ha Hb Hfit. unfold mpz_mul_.
  match goal with |- context [for_up 0 MPZ_LENGTH ?f (0, mpz_zero)] =>
    destruct (for_up_ind (fun k s => limbs_wf s.2 /\ 0 <= s.1 < B /\
        value k s.2 + s.1 * B ^ Z.of_nat k = zsum k (fun j => column a b j * B ^ Z.of_nat j))
      0 MPZ_LENGTH f (0, mpz_zero)) as (Hwf & _ & Hval); [lia| | |destruct (for_up 0 MPZ_LENGTH f (0, mpz_zero)) as [carry c']]
  end.
  - split; [exact mpz_zero_wf|]. split; [unfold B; cbn; lia|done].
  - intros k [carry c'] Hk (Hwf & Hcarry & Hval). cbn [fst snd] in *.
    destruct (column_sum_exact a b k carry Ha Hb Hfit ltac:(lia) Hcarry) as [-> Hr].
    set (sum := carry + column a b k). rewrite mask32, Z.shiftr_div_pow2 by lia. change (2 ^ 32) with B.
    assert (0 <= sum / B < B) as Hq.
    { split; [apply Z.div_pos; unfold sum, B; lia|]. apply Z.div_lt_upper_bound; unfold sum, B in *; lia. }
    rewrite wrapu_small by (unfold in_u, B in *; lia). destruct Hwf as [Hl Hf]. split; [by apply limb_insert_wf|]. split; [done|].
    unfold value in *. cbn [zsum]. rewrite list_lookup_total_insert_eq by lia.
    pose proof (value_insert k c' k (sum mod B) (le_n _)) as Hins. unfold value in Hins. rewrite Hins.
    rewrite B_S. pose proof (Z.div_mod sum B ltac:(unfold B; lia)) as Hdm.
    transitivity (zsum k (fun i => c' !!! i * B ^ Z.of_nat i) + sum * B ^ Z.of_nat k); [rewrite Hdm at 3; lia|].
    unfold sum. lia.
  - cbn [fst snd] in *. rewrite (mpz_set_eq c) by (exact Hwf || exact Hc). split; [exact Hwf|].
    destruct (uval_product a b) as [q Hq].
    rewrite Hq, Z.mod_add by (apply Z.neq_sym, Z.lt_neq, M_pos).
    apply (drop_carry _ carry); [by apply uval_range|]. exact Hval.
Qed.

(** ** Conversion to a machine integer *)

Lemma last_limb a :
  M = B * B ^ Z.of_nat (MPZ_LENGTH - 1) /\
  uval a = value (MPZ_LENGTH - 1) a + a !!! (MPZ_LENGTH - 1)%nat * B ^ Z.of_nat (MPZ_LENGTH - 1).
Proof.
  assert (forall n m, n = S m ->
    B ^ Z.of_nat n = B * B ^ Z.of_nat m /\ value n a = value m a + a !!! m * B ^ Z.of_nat m) as H.
  { intros n m ->. split; [apply B_S|reflexivity]. }
  unfold uval, M. apply H. reflexivity.
Qed.

Lemma sval_cases a : limbs_wf a -> sval a = uval a - M * b2z (2 ^ 31 <=? a !!! (MPZ_LENGTH - 1)%nat).
Proof.
  intros Ha. unfold sval, wraps. rewrite <- M_pow.
  set (top := a !!! (MPZ_LENGTH - 1)%nat). set (P := B ^ Z.of_nat (MPZ_LENGTH - 1)).
  destruct (last_limb a) as [HM Hu]. fold P top in HM, Hu.
  assert (2 ^ (32 * Z.of_nat MPZ_LENGTH - 1) = 2 ^ 31 * P) as ->.
  { unfold P, B. rewrite <- Z.pow_mul_r, <- Z.pow_add_r by lia. reflexivity. }
  pose proof (value_range a (MPZ_LENGTH - 1) Ha ltac:(lia)) as Hlow. fold P in Hlow.
  pose proof (limb_range a (MPZ_LENGTH - 1) Ha ltac:(unfold MPZ_LENGTH; lia)) as Htop. fold top in Htop.
  clearbody P. rewrite Hu, HM. generalize dependent (value (MPZ_LENGTH - 1) a). intros v _ Hv.
  unfold B in *. destruct (Z.leb_spec (2 ^ 31) top); cbn [b2z].
  - rewrite <- (Z.mod_add _ (-1)) by nia. rewrite Z.mod_small by nia. nia.
  - rewrite Z.mod_small by nia. nia.
Qed.

(** The value of a number and its two low limbs. *)
Lemma uval_low a : exists q, uval a = a !!! 0%nat + B * a !!! 1%nat + q * (B * B).
Proof.
  assert (forall n m, n = (2 + m)%nat -> exists q, value n a = a !!! 0%nat + B * a !!! 1%nat + q * (B * B)) as H.
  { intros n m ->. exists (zsum m (fun i => a !!! (2 + i)%nat * B ^ Z.of_nat i)). unfold value.
    rewrite zsum_split.
    rewrite (zsum_ext m _ (fun i => (B * B) * (a !!! (2 + i)%nat * B ^ Z.of_nat i))).
    - rewrite zsum_mul_l. cbn [zsum]. change (Z.of_nat 0) with 0. change (Z.of_nat 1) with 1.
      rewrite Z.pow_0_r, Z.pow_1_r. lia.
    - intros i _. rewrite Nat2Z.inj_add, Z.pow_add_r by lia. change (B ^ Z.of_nat 2) with (B * B). lia. }
  unfold uval. apply (H MPZ_LENGTH 70%nat). reflexivity.
Qed.

Lemma land_top x : in_u 32 x -> Z.land x 0x80000000 = Z.shiftl (b2z (2 ^ 31 <=? x)) 31.
Proof.
  intros Hx. apply Z.bits_inj'. intros i Hi. rewrite Z.land_spec. rewrite Z.shiftl_spec by done.
  change 0x80000000 with (2 ^ 31). rewrite Z.pow2_bits_eqb by lia.
  destruct (Z.eqb_spec 31 i) as [<-|Hne].
  - rewrite andb_true_r, Z.testbit_eqb by lia. change (31 - 31) with 0.
    assert (x / 2 ^ 31 = b2z (2 ^ 31 <=? x)) as ->
      by (destruct (Z.leb_spec (2 ^ 31) x); cbn [b2z]; ranges).
    by destruct (2 ^ 31 <=? x).
  - rewrite andb_false_r. destruct (2 ^ 31 <=? x); cbn [b2z]; [|by rewrite Z.testbit_0_l].
    destruct (Z.ltb_spec i 31); [by rewrite Z.testbit_neg_r by lia|].
    change 1 with (2 ^ 0). rewrite Z.pow2_bits_eqb by lia. symmetry. apply Z.eqb_neq. lia.
Qed.

(** The conversion to a 64-bit integer is, as its comment says, the 63
    low bits of the number with the sign of the number; a number in the
    range of the type converts to itself. *)
Theorem mpz_get_si_correct a :
  limbs_wf a ->
  mpz_get_si a = sval a mod 2 ^ 63 - (if sval a <? 0 then 2 ^ 63 else 0) /\
  (in_s 64 (sval a) -> mpz_get_si a = sval a).
Proof.
  intros Ha.
  assert (mpz_get_si a = sval a mod 2 ^ 63 - (if sval a <? 0 then 2 ^ 63 else 0)) as Heq.
  { pose proof (sval_cases a Ha) as Hs. pose proof (uval_range a Ha) as Hu. pose proof M_pos as HMp.
    assert (exists m, M = m * 2 ^ 64) as [m Hm] by (exists (2 ^ 2240); rewrite M_pow; rewrite <- Z.pow_add_r by lia; reflexivity).
    destruct (uval_low a) as [q Hq].
    pose proof (limb_range a 0 Ha ltac:(unfold MPZ_LENGTH; lia)) as H0.
    pose proof (limb_range a 1 Ha ltac:(unfold MPZ_LENGTH; lia)) as H1.
    pose proof (limb_range a (MPZ_LENGTH - 1) Ha ltac:(unfold MPZ_LENGTH; lia)) as Ht.
    unfold mpz_get_si. generalize dependent (a !!! (MPZ_LENGTH - 1)%nat). intros t Hs Ht.
    assert ((sval a <? 0) = (2 ^ 31 <=? t)) as ->.
    { rewrite Hs. destruct (2 ^ 31 <=? t); cbn [b2z]; [apply Z.ltb_lt|apply Z.ltb_ge]; lia. }
    rewrite land_top by exact Ht. change 0x7FFFFFFF with (Z.ones 31). rewrite Z.land_ones by lia.
    rewrite (Z.lor_comm (_ mod _)), (lor_shiftl_add _ (_ mod _)) by (lia || apply Z.mod_pos_bound; lia).
    set (y := a !!! 1%nat) in *. set (x := a !!! 0%nat) in *.
    set (h := b2z (2 ^ 31 <=? t)) in *. assert (0 <= h <= 1) as Hh by (unfold h; destruct (2 ^ 31 <=? t); cbn; lia).
    assert (0 <= y mod 2 ^ 31 < 2 ^ 31) as Hy by (apply Z.mod_pos_bound; lia).
    set (up := h * 2 ^ 31 + y mod 2 ^ 31). assert (0 <= up < 2 ^ 32) as Hup by (unfold up; lia).
    rewrite (wrapu_small 64 up) by (unfold in_u; lia).
    rewrite (wrapu_small 64) by (unfold in_u; rewrite Z.shiftl_mul_pow2 by lia; lia).
    rewrite lor_shiftl_add by (unfold B in *; lia).
    assert (sval a mod 2 ^ 63 = (y mod 2 ^ 31) * 2 ^ 32 + x) as ->.
    { rewrite Hs, Hq, Hm. unfold B in *.
      replace (x + 2 ^ 32 * y + q * (2 ^ 32 * 2 ^ 32) - m * 2 ^ 64 * h)
        with ((y mod 2 ^ 31) * 2 ^ 32 + x + (y / 2 ^ 31 + 2 * q - 2 * (m * h)) * 2 ^ 63)
        by (pose proof (Z.div_mod y (2 ^ 31) ltac:(lia)); lia).
      rewrite Z.mod_add by lia. apply Z.mod_small. lia. }
    unfold B in *. destruct (2 ^ 31 <=? t); cbn [b2z] in h; unfold up, h.
    - rewrite <- (wraps_small 64 (y mod 2 ^ 31 * 2 ^ 32 + x - 2 ^ 63)) by (unfold in_s; lia).
      apply wraps_eqm; [lia|]. rewrite <- (Z.mod_add (y mod 2 ^ 31 * 2 ^ 32 + x - 2 ^ 63) 1) by lia. f_equal. lia.
    - rewrite wraps_small by (unfold in_s; lia). lia. }
  split; [exact Heq|]. intros Hin. rewrite Heq. unfold in_s in Hin.
  destruct (Z.ltb_spec (sval a) 0).
  - rewrite <- (Z.mod_add _ 1) by lia. rewrite Z.mod_small by lia. lia.
  - rewrite Z.mod_small by lia. lia.
Qed.

(** ** Correctness *)

Lemma sval_result r z z' :
  uval r = z mod M -> z mod M = z' mod M -> sval r = wraps (32 * Z.of_nat MPZ_LENGTH) z'.
Proof. intros Hr Hz. apply sval_eqm. rewrite Hr, Z.mod_mod by (apply Z.neq_sym, Z.lt_neq, M_pos). exact Hz. Qed.

(** C38: Sum, difference and negation of well-formed numbers are well formed
    and, as signed numbers, what integer arithmetic gives, wrapped to 2304
    bits; so is the sum with the second operand shifted by whole limbs.  The
    product is when the limbs that meet have products of 32 bits, the width of
    a product of limbs in C (in general it is not, see [mpz_mul_iso_c]). *)
Theorem mpz_ring_correct c a b offset :
  limbs_wf c -> limbs_wf a -> limbs_wf b -> (offset <= MPZ_LENGTH)%nat ->
  let wrap := wraps (32 * Z.of_nat MPZ_LENGTH) in
  (limbs_wf (mpz_add c a b) /\ sval (mpz_add c a b) = wrap (sval a + sval b)) /\
  (limbs_wf (mpz_sub c a b) /\ sval (mpz_sub c a b) = wrap (sval a - sval b)) /\
  (limbs_wf (mpz_neg c a) /\ sval (mpz_neg c a) = wrap (- sval a)) /\
  (limbs_fit a b -> limbs_wf (mpz_mul c a b) /\ sval (mpz_mul c a b) = wrap (sval a * sval b)) /\
  (limbs_wf (mpz_add_ c a b offset) /\
   sval (mpz_add_ c a b offset) = wrap (sval a + sval b * 2 ^ (32 * Z.of_nat offset))).
Proof.
  intros Hc Ha Hb Ho wrap.
  destruct (mpz_add_uval c a b) as [? Hadd]; [assumption..|].
  destruct (mpz_sub_uval c a b) as [? Hsub]; [assumption..|].
  destruct (mpz_neg_uval c a) as [? Hneg]; [assumption..|].
  destruct (mpz_add__uval c a b offset) as [? Hoff]; [assumption..|].
  split; [split; [assumption|]|split; [split; [assumption|]|split; [split; [assumption|]|split; [|split; [assumption|]]]]].
  4:{ intros Hfit. destruct (mpz_mul_exact c a b (Z.of_nat MPZ_LENGTH)) as [Hwf Hmul]; [assumption..|]. split; [exact Hwf|].
      eapply sval_result; [exact Hmul|]. by rewrite Zmult_mod, <- !sval_mod, <- Zmult_mod. }
  all: eapply sval_result; try eassumption.
  - by rewrite Zplus_mod, <- !sval_mod, <- Zplus_mod.
  - by rewrite Zminus_mod, <- !sval_mod, <- Zminus_mod.
  - rewrite <- !Z.sub_0_l. by rewrite Zminus_mod, <- !sval_mod, <- Zminus_mod.
  - unfold B. rewrite <- Z.pow_mul_r by lia.
    by rewrite Zplus_mod, (Zmult_mod (uval b)), <- !sval_mod, <- Zmult_mod, <- Zplus_mod.
Qed.

Lemma mpz_set_si_wf n : in_s 64 n -> limbs_wf (mpz_set_si n mpz_zero).
Proof. intros Hn. by apply (mpz_set_si_uval n mpz_zero Hn). Qed.

(** [-3] times [2^32]: a limb of 1 meets limbs of all ones. *)
Lemma mpz_ring_witness :
  let a := mpz_set_si (-3) mpz_zero in let b := mpz_set_si (2 ^ 32) mpz_zero in
  sval (mpz_sub mpz_zero a b) = wraps (32 * Z.of_nat MPZ_LENGTH) (sval a - sval b) /\
  sval (mpz_mul mpz_zero a b) = wraps (32 * Z.of_nat MPZ_LENGTH) (sval a * sval b).
Proof.
  intros a b. assert (limbs_wf a /\ limbs_wf b) as [Ha Hb] by (split; apply mpz_set_si_wf; unfold in_s; lia).
  destruct (mpz_ring_correct mpz_zero a b 2) as (_ & [_ Hsub] & _ & Hmul & _); [apply mpz_zero_wf|exact Ha|exact Hb|apply Nat.leb_le; reflexivity|].
  split; [exact Hsub|]. apply Hmul. intros i j Hij. pose proof (limb_range a i Ha ltac:(lia)) as Hr.
  assert (0 <= b !!! j <= 1) as Hb1; [|nia].
  assert (Forall (fun x => 0 <= x <= 1) b) as HF by (apply (bool_decide_unpack _); vm_compute; exact I).
  destruct (lookup_lt_is_Some_2 b j) as [x Hx]; [rewrite (proj1 Hb); lia|]. rewrite (list_lookup_total_correct _ _ _ Hx).
  by apply (Forall_lookup_1 _ _ _ _ HF Hx).
Defined.

(** A 64-bit integer survives being stored in a number and read back. *)
Theorem mpz_si_roundtrip num a :
  in_s 64 num -> length a = MPZ_LENGTH ->
  limbs_wf (mpz_set_si num a) /\ sval (mpz_set_si num a) = num /\ mpz_get_si (mpz_set_si num a) = num.
Proof.
  intros Hnum Ha. destruct (mpz_set_si_uval num a Hnum Ha) as [Hwf Hu].
  assert (sval (mpz_set_si num a) = num) as Hs.
  { rewrite (sval_result _ num num Hu eq_refl). apply wraps_small; [done|].
    assert (2 ^ 63 <= 2 ^ (32 * Z.of_nat MPZ_LENGTH - 1)) by (apply Z.pow_le_mono_r; [lia|unfold MPZ_LENGTH; lia]).
    unfold in_s in *. lia. }
  split; [exact Hwf|]. split; [exact Hs|].
  destruct (mpz_get_si_correct _ Hwf) as [_ Hget]. rewrite Hget; rewrite Hs; done.
Qed.

Lemma mpz_si_roundtrip_witness : mpz_get_si (mpz_set_si (- 2 ^ 63) mpz_zero) = - 2 ^ 63.
Proof. apply (mpz_si_roundtrip (- 2 ^ 63) mpz_zero); [unfold in_s; lia|reflexivity]. Defined.

Lemma infield_gather (a : mpz_t) off n lo :
  (lo <= n)%nat ->
  for_down lo n (fun i a_ => a_ * 0x100000000 + a !!! (i + off)%nat) 0
  = zsum (n - lo) (fun i => a !!! (lo + i + off)%nat * B ^ Z.of_nat i).
Proof.
  intros Hlo. remember (n - lo)%nat as k eqn:Hk. revert lo Hlo Hk.
  induction k as [|k IH]; intros lo Hlo Hk; [by rewrite for_down_done by lia|].
  rewrite for_down_step, IH by lia. change 0x100000000 with B.
  change (S k) with (1 + k)%nat. rewrite zsum_split. cbn [zsum].
  rewrite (zsum_ext k (fun i => _ * B ^ Z.of_nat (1 + i)) (fun i => B * (a !!! (S lo + i + off)%nat * B ^ Z.of_nat i))).
  - rewrite zsum_mul_l, Nat.add_0_r, Z.pow_0_r. lia.
  - intros i _. rewrite B_S. replace (lo + (1 + i) + off)%nat with (S lo + i + off)%nat by lia. lia.
Qed.

Lemma infield_gather2 (a b : mpz_t) oa ob n :
  for_down 0 n (fun i '(a_, b_) => (a_ * 0x100000000 + a !!! (i + oa)%nat, b_ * 0x100000000 + b !!! (i + ob)%nat)) (0, 0)
  = (for_down 0 n (fun i a_ => a_ * 0x100000000 + a !!! (i + oa)%nat) 0,
     for_down 0 n (fun i b_ => b_ * 0x100000000 + b !!! (i + ob)%nat) 0).
Proof.
  unfold for_down. generalize (seq 0 (n - 0)). intros l. induction l as [|i l IH]; [done|].
  cbn [foldr]. by rewrite IH.
Qed.

(** The limbs of a number, read off by shifts, spell it. *)
Lemma split_limbs z (c : mpz_t) n :
  0 <= z -> (forall i, (i < n)%nat -> c !!! i = Z.land (Z.shiftr z (32 * Z.of_nat i)) 0xFFFFFFFF) ->
  value n c = z mod B ^ Z.of_nat n.
Proof.
  intros Hz. induction n as [|n IH]; intros Hc; [by rewrite Z.mod_1_r|].
  unfold value in *. cbn [zsum]. rewrite IH by auto. rewrite Hc, mask32 by lia.
  rewrite Z.shiftr_div_pow2 by lia. rewrite Z.pow_mul_r by lia. fold B. rewrite B_S, (Z.mul_comm B).
  rewrite Z.rem_mul_r by (pose proof (B_pos n); lia || done). lia.
Qed.

(** A field multiplication of [size] limbs writes the exact product of
    the two groups of limbs into the first [2 size] limbs of the result and
    leaves the others alone; more limbs than the field holds are refused. *)
Theorem mpz_mul_infield_correct c a a_offset b b_offset size :
  limbs_wf c -> limbs_wf a -> limbs_wf b ->
  (a_offset + size <= MPZ_LENGTH)%nat -> (b_offset + size <= MPZ_LENGTH)%nat ->
  if (LIMBS_IN_FIELD <? size * 2)%nat then mpz_mul_infield c a a_offset b b_offset size = Fault
  else exists c', mpz_mul_infield c a a_offset b b_offset size = Ok c' /\ limbs_wf c' /\
    value (size * 2) c' = value size (drop a_offset a) * value size (drop b_offset b) /\
    forall i, (size * 2 <= i < MPZ_LENGTH)%nat -> c' !!! i = c !!! i.
Proof.
  intros Hc Ha Hb Hoa Hob. unfold mpz_mul_infield.
  destruct (Nat.ltb_spec LIMBS_IN_FIELD (size * 2)) as [Hbig|Hsmall]; [done|].
  assert (size * 2 <= MPZ_LENGTH)%nat as Hfit by (unfold LIMBS_IN_FIELD, MPZ_LENGTH in *; lia).
  rewrite infield_gather2, !infield_gather, Nat.min_l by lia.
  set (av := zsum _ _). set (bv := zsum (size - 0) _).
  assert (forall a off, limbs_wf a -> (off + size <= MPZ_LENGTH)%nat ->
    value size (drop off a) = zsum (size - 0) (fun i => a !!! (0 + i + off)%nat * B ^ Z.of_nat i) /\
    0 <= value size (drop off a) < B ^ Z.of_nat size) as Hdrop.
  { clear. intros a off Ha Hoff.
    assert (forall i, (i < size)%nat -> drop off a !!! i = a !!! (i + off)%nat) as Hd.
    { intros i Hi. rewrite !list_lookup_total_alt, lookup_drop. by rewrite Nat.add_comm. }
    split.
    - rewrite Nat.sub_0_r. apply zsum_ext. intros i Hi. by rewrite Hd.
    - clear -Ha Hoff Hd. revert Hoff Hd. generalize (drop off a). intros d Hoff Hd. induction size as [|n IH]; [cbn; lia|].
      unfold value in *. cbn [zsum]. rewrite B_S, Hd by lia.
      pose proof (limb_range a (n + off) Ha ltac:(lia)). pose proof (B_pos n).
      assert (0 <= zsum n (fun i => d !!! i * B ^ Z.of_nat i) < B ^ Z.of_nat n)
        by (apply IH; [lia|intros; apply Hd; lia]). nia. }
  destruct (Hdrop a a_offset Ha Hoa) as [Hav Hra]. destruct (Hdrop b b_offset Hb Hob) as [Hbv Hrb].
  fold av in Hav. fold bv in Hbv. rewrite Hav, Hbv in *.
  destruct Hc as [Hcl Hcf].
  set (f := fun i => Z.land (Z.shiftr (av * bv) (32 * Z.of_nat i)) 0xFFFFFFFF).
  destruct (for_up_ind (fun k c' => limbs_wf c' /\ (forall i, (i < k)%nat -> c' !!! i = f i) /\
      forall i, (k <= i)%nat -> c' !!! i = c !!! i) 0 (size * 2) (fun i c => <[i := f i]> c) c)
    as (Hwf & Hlow & Hhigh); [lia|split; [done|]; split; [intros i Hi; lia|done]| |].
  - intros k s Hk ([Hl Hf] & Hlow & Hhigh). split; [|split].
    + unfold f. rewrite mask32. by apply limb_insert_wf.
    + intros i Hi. destruct (decide (i = k)) as [->|]; [apply list_lookup_total_insert_eq; lia|].
      rewrite list_lookup_total_insert_ne by done. apply Hlow. lia.
    + intros i Hi. rewrite list_lookup_total_insert_ne by lia. apply Hhigh. lia.
  - eexists. split; [reflexivity|]. split; [exact Hwf|]. split; [|intros i Hi; apply Hhigh; lia].
    rewrite (split_limbs (av * bv)); [|nia|exact Hlow]. apply Z.mod_small.
    replace (Z.of_nat (size * 2)) with (Z.of_nat size + Z.of_nat size) by lia. rewrite Z.pow_add_r by lia. nia.
Qed.

Lemma mpz_mul_infield_witness :
  exists c', mpz_mul_infield mpz_zero (mpz_set_si (-1) mpz_zero) 0 (mpz_set_si (-1) mpz_zero) 1 3 = Ok c' /\
    value 6 c' = value 3 (drop 0 (mpz_set_si (-1) mpz_zero)) * value 3 (drop 1 (mpz_set_si (-1) mpz_zero)).
Proof.
  assert (limbs_wf (mpz_set_si (-1) mpz_zero)) as Hw by (apply mpz_set_si_wf; unfold in_s; lia).
  destruct (mpz_mul_infield_correct mpz_zero _ 0 _ 1 3 mpz_zero_wf Hw Hw) as (c' & Hc & _ & Hv & _);
    [apply Nat.leb_le; reflexivity|apply Nat.leb_le; reflexivity|].
  exists c'. split; [exact Hc|exact Hv].
Defined.

(** The 32-bit products lose the high half: [2^31] squared is 0, where the
    comment in the code counts on column sums of 96 bits. *)
Example mpz_mul_iso_c :
  let a := mpz_set_si (2 ^ 31) mpz_zero in
  mpz_get_si a = 2 ^ 31 /\ mpz_get_si (mpz_mul mpz_zero a a) = 0.
Proof. vm_compute. split; reflexivity. Qed.
