(* ===== verification/MapReduce.v ===== *)
(** The MapReduce frame of [compiler/cstdinc/mapred_map.h] and
    [mapred_red.h].

    A mapper and a reducer are computations on digests: each fetches its
    inputs from the block store, calls the application's [map] or [reduce],
    and stores what they return.  Between them, [run_mapred_shuffle_phase]
    of [common/utility.cpp] routes the files the mappers write to the files
    the reducers read.  [run_job] is the development's own composition of
    the three, as no program of the repository runs them all: one mapper
    after the other, the shuffle, one reducer after the other. *)
From Stdlib Require Import ZArith Lia.
From stdpp Require Import base numbers list.
From S2P Require Import Prelude BlockStore.

Local Open Scope Z_scope.

(** ** The shuffle

    [output_b_i] of mapper [i] and [input_b_k] of reducer [k] are lists of
    scalars; [output_q_b_i] and [input_q_b_k] hold the same numbers as
    rationals and take the same way, so that a scalar [A] stands for both. *)

Section Shuffle.
Context {A : Type}.

(** [mpz_inp_raw] leaves the number alone at the end of the file. *)
Definition load_scalar (fp : list A) (s : A) : A * list A :=
  match fp with [] => (s, []) | x :: fp => (x, fp) end.

(** The body of the loops: one scalar from mapper [i] to reducer [k]. *)
Definition move_scalar (k i : nat) '(fp_m, fp_r, temp) : list (list A) * list (list A) * A :=
  let '(temp, fp) := load_scalar (fp_m !!! i) temp in
  (<[i := fp]> fp_m, <[k := fp_r !!! k ++ [temp]]> fp_r, temp).

(** [temp] is what [mpz_init] leaves in it.  There is at least one mapper:
    the headers declare an array of [NUM_MAPPERS] digests. *)
Definition run_mapred_shuffle_phase (num_mappers num_reducers size_input_red : nat) (fp_m : list (list A)) (temp : A) : list (list A) :=
  let '(fp_m, temp) :=
    for_up 0 num_mappers (fun i '(fp_m, temp) => let '(temp, fp) := load_scalar (fp_m !!! i) temp in (<[i := fp]> fp_m, temp)) (fp_m, temp) in
  let size_input_each_mapper := (size_input_red / num_mappers)%nat in
  let '(_, fp_r, _) :=
    for_up 0 num_reducers (fun k s =>
      for_up 0 num_mappers (fun i s =>
        for_up 0 size_input_each_mapper (fun _ s => move_scalar k i s) s) s)
      (fp_m, replicate num_reducers [], temp) in
  fp_r.

Lemma move_scalars k i q rest acc (fp_m fp_r : list (list A)) temp :
  fp_m !! i = Some (q ++ rest) -> fp_r !! k = Some acc ->
  exists temp', for_up 0 (length q) (fun _ s => move_scalar k i s) (fp_m, fp_r, temp) = (<[i := rest]> fp_m, <[k := acc ++ q]> fp_r, temp').
Proof.
  intros Hm Hr.
  enough (forall n, (n <= length q)%nat -> exists temp', for_up 0 n (fun _ s => move_scalar k i s) (fp_m, fp_r, temp) = (<[i := drop n q ++ rest]> fp_m, <[k := acc ++ take n q]> fp_r, temp')) as H.
  { destruct (H (length q)) as [t' Ht']; [lia|]. exists t'. by rewrite Ht', drop_all, firstn_all. }
  induction n as [|n IH]; intros Hn.
  - rewrite for_up_done by lia. exists temp. cbn [drop take]. rewrite app_nil_r, !list_insert_id by done. done.
  - destruct IH as [t' Ht']; [lia|]. rewrite for_up_last, Ht' by lia. cbn [move_scalar].
    destruct (lookup_lt_is_Some_2 q n) as [x Hx]; [lia|].
    rewrite (list_lookup_total_insert_eq _ i) by (by eapply lookup_lt_Some).
    rewrite (drop_S _ _ _ Hx). cbn [app load_scalar].
    rewrite (list_lookup_total_insert_eq _ k) by (by eapply lookup_lt_Some).
    rewrite !list_insert_insert_eq, <- app_assoc, <- (take_S_r _ _ _ Hx). by eexists.
Qed.

(** [pieces] has a row for each mapper and a piece of [c] scalars for each
    reducer: reducer [k] is sent piece [k] of every mapper, in the order of
    the mappers. *)
Section Pieces.
Context (num_mappers num_reducers c : nat) (pieces : list (list (list A))).
Hypothesis pieces_grid : grid num_mappers num_reducers pieces.
Hypothesis pieces_length : Forall (Forall (fun q => length q = c)) pieces.

Definition sent (k : nat) : list A := concat ((fun ps => ps !!! k) <$> pieces).

(** What is left of the files when mapper [i] is to serve reducer [k]. *)
Definition files_left (k i : nat) : list (list A) :=
  imap (fun i' ps => concat (drop (if (i' <? i)%nat then S k else k) ps)) pieces.

Lemma files_left_step k i ps : pieces !! i = Some ps -> <[i := concat (drop (S k) ps)]> (files_left k i) = files_left k (S i).
Proof.
  intros Hps. apply list_eq. intros i'. unfold files_left. destruct (decide (i' = i)) as [->|Hne].
  - rewrite list_lookup_insert_eq by (rewrite length_imap; by eapply lookup_lt_Some).
    rewrite list_lookup_imap, Hps, (proj2 (Nat.ltb_lt i (S i))) by lia. done.
  - rewrite list_lookup_insert_ne by done. rewrite !list_lookup_imap.
    replace (i' <? S i)%nat with (i' <? i)%nat; [done|]. destruct (Nat.ltb_spec i' i), (Nat.ltb_spec i' (S i)); done || lia.
Qed.

Lemma files_left_next k : files_left k num_mappers = files_left (S k) 0.
Proof.
  apply imap_ext. intros i ps Hi%lookup_lt_Some. rewrite (proj1 pieces_grid) in Hi. by replace (i <? num_mappers)%nat with true by (symmetry; by apply Nat.ltb_lt).
Qed.

Lemma serve_reducer k (fp_r : list (list A)) temp : (k < num_reducers)%nat -> fp_r !! k = Some [] ->
  exists temp', for_up 0 num_mappers (fun i s => for_up 0 c (fun _ s => move_scalar k i s) s) (files_left k 0, fp_r, temp)
    = (files_left (S k) 0, <[k := sent k]> fp_r, temp').
Proof.
  intros Hk Hr.
  match goal with |- exists t, for_up 0 _ ?b ?s = _ =>
    pose proof (for_up_ind (fun i '(fp_m, fp_r', _) => fp_m = files_left k i /\ fp_r' = <[k := concat ((fun ps => ps !!! k) <$> take i pieces)]> fp_r)
      0 num_mappers b s) as H; destruct (for_up 0 num_mappers b s) as [[fp_m fp_r'] temp'] end.
  destruct H as [-> ->]; [lia|hnf; split; [done|]; cbn; by rewrite list_insert_id| |].
  - clear fp_m fp_r'. intros i [[fp_m fp_r'] t] Hi [-> ->]. destruct (lookup_lt_is_Some_2 pieces i) as [ps Hps]; [rewrite (proj1 pieces_grid); lia|].
    assert (length ps = num_reducers) as Hl by (exact (proj1 (Forall_lookup _ _) (proj2 pieces_grid) i ps Hps)).
    destruct (lookup_lt_is_Some_2 ps k) as [q Hq]; [lia|].
    assert (length q = c) as Hc by (exact (proj1 (Forall_lookup _ _) (proj1 (Forall_lookup _ _) pieces_length i ps Hps) k q Hq)).
    destruct (move_scalars k i q (concat (drop (S k) ps)) (concat ((fun ps => ps !!! k) <$> take i pieces)) (files_left k i)
      (<[k := concat ((fun ps => ps !!! k) <$> take i pieces)]> fp_r) t) as [t' Ht'].
    + unfold files_left. rewrite list_lookup_imap, Hps, Nat.ltb_irrefl. cbn [fmap option_fmap option_map]. by rewrite (drop_S _ _ _ Hq).
    + apply list_lookup_insert_eq. by eapply lookup_lt_Some.
    + rewrite Hc in Ht'. rewrite Ht', (files_left_step k i ps Hps). split; [done|]. rewrite list_insert_insert_eq, (take_S_r _ _ _ Hps), fmap_app, concat_app.
      cbn. by rewrite app_nil_r, (list_lookup_total_correct _ _ _ Hq).
  - exists temp'. rewrite files_left_next. unfold sent. by rewrite firstn_all2 by (rewrite (proj1 pieces_grid); lia).
Qed.

(** The exit status of every mapper is skipped. *)
Lemma skip_status (fs : list (list A)) temp : length fs = num_mappers -> Forall (fun f => f <> []) fs ->
  exists temp', for_up 0 num_mappers (fun i '(fp_m, temp) => let '(temp, fp) := load_scalar (fp_m !!! i) temp in (<[i := fp]> fp_m, temp)) (fs, temp) = (tail <$> fs, temp').
Proof.
  intros Hl Hne.
  match goal with |- exists t, for_up 0 _ ?b ?s = _ =>
    pose proof (for_up_ind (fun n '(fp_m, _) => fp_m = (tail <$> take n fs) ++ drop n fs) 0 num_mappers b s) as H; destruct (for_up 0 num_mappers b s) as [fp_m temp'] end.
  exists temp'. rewrite H; [by rewrite firstn_all2, drop_ge, app_nil_r by lia|lia|done|].
  clear H fp_m. intros i [fp_m t] Hi ->. destruct (lookup_lt_is_Some_2 fs i) as [f Hf]; [lia|].
  assert (length (tail <$> take i fs) = i) as Hli by (rewrite length_fmap, length_take; lia).
  rewrite (drop_S _ _ _ Hf), list_lookup_total_middle by done.
  destruct f as [|x f]; [by destruct (proj1 (Forall_lookup _ _) Hne i [] Hf)|]. cbn [load_scalar].
  rewrite insert_app_r_alt, Hli, Nat.sub_diag by lia. cbn. by rewrite (take_S_r _ _ _ Hf), fmap_app, <- app_assoc.
Qed.

Lemma shuffle_pieces (status : list A) temp : length status = num_mappers ->
  run_mapred_shuffle_phase num_mappers num_reducers (num_mappers * c) (zip_with (fun x ps => x :: concat ps) status pieces) temp
    = tabulate num_reducers sent.
Proof.
  intros Hs. unfold run_mapred_shuffle_phase. set (fs := zip_with _ _ _).
  assert (length fs = num_mappers) as Hfs by (unfold fs; rewrite length_zip_with, Hs, (proj1 pieces_grid); lia).
  destruct (skip_status fs temp Hfs) as [t1 ->].
  { apply Forall_lookup. intros i f. unfold fs. rewrite lookup_zip_with_Some. by intros (x & ps & -> & _). }
  assert (tail <$> fs = files_left 0 0) as ->.
  { apply list_eq. intros i. unfold files_left, fs. rewrite list_lookup_fmap, lookup_zip_with, list_lookup_imap.
    destruct (pieces !! i) eqn:Hp; [|by destruct (status !! i)]. destruct (lookup_lt_is_Some_2 status i) as [x ->]; [|done].
    rewrite Hs, <- (proj1 pieces_grid). by eapply lookup_lt_Some. }
  match goal with |- context [for_up 0 num_reducers ?b ?s] =>
    pose proof (for_up_ind (fun k '(fp_m, fp_r, _) => fp_m = files_left k 0 /\ fp_r = tabulate k sent ++ replicate (num_reducers - k) [])
      0 num_reducers b s) as H; destruct (for_up 0 num_reducers b s) as [[fp_m fp_r] t2] end.
  destruct H as [_ ->]; [lia|split; [done|by rewrite Nat.sub_0_r]| |by rewrite Nat.sub_diag, app_nil_r].
  intros k [[fp_m' fp_r'] t] Hk [-> ->]. replace (num_reducers - k)%nat with (S (num_reducers - S k)) by lia. cbn [replicate].
  rewrite (for_up_ext 0 num_mappers _ (fun i s => for_up 0 c (fun _ s => move_scalar k i s) s))
    by (intros i s Hi; by rewrite Nat.mul_comm, Nat.div_mul by lia).
  match goal with |- context [for_up 0 num_mappers _ (_, ?r, _)] => destruct (serve_reducer k r t) as [t' Ht'] end; [lia| |].
  - by rewrite list_lookup_middle by (by rewrite tabulate_length).
  - rewrite Ht'. split; [done|]. rewrite insert_app_r_alt, tabulate_length, Nat.sub_diag, tabulate_S, <- app_assoc by (by rewrite tabulate_length). done.
Qed.
End Pieces.

(** One scalar per reducer: the matrix of the values is transposed. *)
Lemma shuffle_columns `{Inhabited A} num_mappers num_reducers (status temp : A) (rows : list (list A)) : grid num_mappers num_reducers rows ->
  run_mapred_shuffle_phase num_mappers num_reducers num_mappers (cons status <$> rows) temp = tabulate num_reducers (fun k => (fun row => row !!! k) <$> rows).
Proof.
  intros [Hl Hr]. pose proof (shuffle_pieces num_mappers num_reducers 1 ((fun row : list A => (fun x => [x]) <$> row) <$> rows)) as Hp.
  assert (forall l : list A, concat ((fun x : A => [x]) <$> l) = l) as Hone by (induction l as [|x l IH]; [done|cbn; by f_equal]).
  replace (cons status <$> rows) with (zip_with (fun x ps => x :: concat ps) (replicate num_mappers status) ((fun row : list A => (fun x => [x]) <$> row) <$> rows)).
  - rewrite Nat.mul_1_r in Hp. rewrite Hp.
    + apply tabulate_ext. intros k Hk. unfold sent. rewrite <- (Hone ((fun row => row !!! k) <$> rows)), <- !list_fmap_compose. f_equal.
      apply list_fmap_ext. intros i row Hrow. unfold compose. rewrite (list_lookup_total_fmap (fun x : A => [x])); [done|].
      rewrite (proj1 (Forall_lookup _ _) Hr i row Hrow). lia.
    + split; [by rewrite length_fmap|]. apply Forall_fmap. eapply Forall_impl; [exact Hr|]. intros row Hrow. unfold compose. by rewrite length_fmap.
    + apply Forall_fmap, Forall_true. intros row. unfold compose. by apply Forall_fmap, Forall_true.
    + apply length_replicate.
  - clear Hp. rewrite <- Hl. clear Hl Hr. induction rows as [|row rows IH]; [done|]. cbn. by rewrite Hone, IH.
Qed.
End Shuffle.

(** The shuffle of the scalars of the digests, [c] to a digest, is the
    shuffle of the digests. *)
Lemma shuffle_digests num_mappers num_reducers c (status temp : Z) (ds : list (list hash_t)) :
  grid num_mappers num_reducers ds -> Forall (Forall (fun h => length h = c)) ds ->
  run_mapred_shuffle_phase num_mappers num_reducers (num_mappers * c) ((fun d => status :: concat d) <$> ds) temp
    = (fun input => concat input) <$> run_mapred_shuffle_phase num_mappers num_reducers num_mappers (cons [status] <$> ds) [temp].
Proof.
  intros Hg Hc. rewrite shuffle_columns, fmap_tabulate by done.
  etransitivity; [|exact (shuffle_pieces num_mappers num_reducers c ds Hg Hc (replicate num_mappers status) temp (length_replicate _ _))].
  f_equal. destruct Hg as [<- _]. clear Hc. induction ds as [|d ds IH]; [done|]. cbn. by rewrite IH.
Qed.

Section MapReduce.
Context {ServersideIn ClientsideIn Chunk ReducerOut : Type} `{Inhabited Chunk}.

(** What the two headers exchange through the store. *)
Inductive block :=
| Server (i : ServersideIn)
| Client (i : ClientsideIn)
| ChunkOf (c : Chunk)
| Result (r : ReducerOut).

Context {BS : BlockStore block}.

Definition get_server (h : hash_t) (σ : store block) : res ServersideIn :=
  b ← hashget h σ; match b with Server i => Ok i | _ => Fault end.
Definition get_client (h : hash_t) (σ : store block) : res ClientsideIn :=
  b ← hashget h σ; match b with Client i => Ok i | _ => Fault end.
Definition get_chunk (h : hash_t) (σ : store block) : res Chunk :=
  b ← hashget h σ; match b with ChunkOf c => Ok c | _ => Fault end.
Definition get_result (h : hash_t) (σ : store block) : res ReducerOut :=
  b ← hashget h σ; match b with Result r => Ok r | _ => Fault end.

Section Frame.
Context (NUM_MAPPERS NUM_REDUCERS : nat).

(** [struct In] of a mapper. *)
Record map_in := { serverside_in_d : option hash_t; clientside_in_d : hash_t }.

Section Mapper.
Context (map : option ServersideIn -> ClientsideIn -> res (list Chunk)).

(** [serverside_in_d] is there under [HAS_SERVERSIDE_INPUT]. *)
Definition map_compute (input : map_in) (output : list hash_t) (σ : store block)
    : res (list hash_t * store block) :=
  server ← match serverside_in_d input with
           | Some d => i ← get_server d σ; Ok (Some i)
           | None => Ok None
           end;
  client ← get_client (clientside_in_d input) σ;
  mapper_output ← map server client;
  for_upM 0 NUM_REDUCERS
    (fun i '(d, σ) =>
       c ← rd mapper_output (Z.of_nat i);
       let '(h, σ) := hashput (ChunkOf c) σ in
       Ok (<[i := h]> d, σ)) (output, σ).
End Mapper.

Section Reducer.
Context (reduce : list Chunk -> res ReducerOut).

Definition red_compute (input : list hash_t) (σ : store block) : res (hash_t * store block) :=
  reducer_input ←
    for_upM 0 NUM_MAPPERS
      (fun i r => h ← rd input (Z.of_nat i); c ← get_chunk h σ; Ok (r ++ [c])) [];
  reducer_output ← reduce reducer_input;
  Ok (hashput (Result reducer_output) σ).
End Reducer.

(** The job: all mappers, the shuffle, all reducers. *)
Fixpoint run_mappers (map : option ServersideIn -> ClientsideIn -> res (list Chunk))
    (inputs : list map_in) (σ : store block) : res (list (list hash_t) * store block) :=
  match inputs with
  | [] => Ok ([], σ)
  | i :: inputs =>
      '(d, σ) ← map_compute map i (replicate NUM_REDUCERS NULL_HASH) σ;
      '(ds, σ) ← run_mappers map inputs σ;
      Ok (d :: ds, σ)
  end.

Fixpoint run_reducers (reduce : list Chunk -> res ReducerOut) (inputs : list (list hash_t))
    (σ : store block) : res (list hash_t * store block) :=
  match inputs with
  | [] => Ok ([], σ)
  | i :: inputs =>
      '(h, σ) ← red_compute reduce i σ;
      '(hs, σ) ← run_reducers reduce inputs σ;
      Ok (h :: hs, σ)
  end.

(** The files hold the scalars of the digests, [NUM_HASH_CHUNKS] to each,
    after the exit status of the mapper; the shuffle moves those of a digest
    together (the lemma [shuffle_digests]), so a digest is one scalar here. *)
Definition run_job map reduce (inputs : list map_in) (σ : store block) : res (list hash_t * store block) :=
  '(ds, σ) ← run_mappers map inputs σ;
  run_reducers reduce (run_mapred_shuffle_phase NUM_MAPPERS NUM_REDUCERS NUM_MAPPERS (cons [0] <$> ds) [0]) σ.

(** ** Correctness of the frame *)

Context {BSL : BlockStoreLaws block}.

Lemma get_ext (σ σ' : store block) {A} (f : block -> res A) h a :
  store_ext σ σ' -> (b ← hashget h σ; f b) = Ok a -> (b ← hashget h σ'; f b) = Ok a.
Proof.
  intros Hext Hget. destruct (hashget h σ) as [b| |] eqn:Hb; [|done|done].
  rewrite (Hext _ _ Hb). exact Hget.
Qed.

(** [stored_input i σ s c]: the store holds the input [i] describes. *)
Definition stored_input (i : map_in) (σ : store block) (s : option ServersideIn) (c : ClientsideIn) : Prop :=
  match serverside_in_d i, s with
  | Some d, Some s => get_server d σ = Ok s
  | None, None => True
  | _, _ => False
  end /\ get_client (clientside_in_d i) σ = Ok c.

Lemma stored_input_ext i σ σ' s c : store_ext σ σ' -> stored_input i σ s c -> stored_input i σ' s c.
Proof.
  intros Hext [Hs Hc]. split; [|by eapply get_ext].
  destruct (serverside_in_d i), s; try done. by eapply get_ext.
Qed.

(** A digest of every chunk a mapper returns ends up in its output. *)
Lemma map_compute_spec map i output σ s c chunks :
  length output = NUM_REDUCERS -> stored_input i σ s c ->
  map s c = Ok chunks -> length chunks = NUM_REDUCERS ->
  exists d σ', map_compute map i output σ = Ok (d, σ') /\ store_ext σ σ' /\ length d = NUM_REDUCERS /\
    forall r, (r < NUM_REDUCERS)%nat -> get_chunk (d !!! r) σ' = Ok (chunks !!! r).
Proof.
  intros Hlen [Hs Hc] Hmap Hch. unfold map_compute.
  assert ((match serverside_in_d i with Some d => i ← get_server d σ; Ok (Some i) | None => Ok None end) = Ok s) as ->.
  { destruct (serverside_in_d i), s; try done. by rewrite Hs. }
  rewrite res_bind_Ok, Hc, res_bind_Ok, Hmap, res_bind_Ok.
  match goal with |- context [for_upM 0 NUM_REDUCERS ?f (output, σ)] =>
    destruct (for_upM_ind (fun k '(d, σ') => store_ext σ σ' /\ length d = NUM_REDUCERS /\
        forall r, (r < k)%nat -> get_chunk (d !!! r) σ' = Ok (chunks !!! r)) 0 NUM_REDUCERS f (output, σ))
      as ([d σ'] & -> & Hext & Hl & Hd); [lia| | |by exists d, σ']
  end.
  - split; [reflexivity|]. split; [done|]. intros r Hr. lia.
  - intros k [d σ1] Hk (Hext & Hl & Hd). rewrite rd_Ok, res_bind_Ok, Nat2Z.id by lia.
    destruct (hashput (ChunkOf (chunks !!! k)) σ1) as [h σ2] eqn:Hput.
    exists (<[k := h]> d, σ2). split; [done|]. split; [|split].
    + etransitivity; [exact Hext|]. by eapply hashput_ext.
    + by rewrite length_insert.
    + intros r Hr. destruct (decide (r = k)) as [->|Hne].
      * rewrite list_lookup_total_insert_eq by lia. unfold get_chunk.
        by rewrite (hashget_put _ _ _ _ Hput).
      * rewrite list_lookup_total_insert_ne by done. eapply get_ext; [by eapply hashput_ext|].
        apply Hd. lia.
Qed.

Lemma red_compute_spec reduce hs σ chunks out :
  length hs = NUM_MAPPERS -> Forall2 (fun h c => get_chunk h σ = Ok c) hs chunks -> reduce chunks = Ok out ->
  exists h σ', red_compute reduce hs σ = Ok (h, σ') /\ store_ext σ σ' /\ get_result h σ' = Ok out.
Proof.
  intros Hlen Hcs Hred. unfold red_compute.
  assert (length chunks = NUM_MAPPERS) as Hlc by (by rewrite <- (Forall2_length _ _ _ Hcs)).
  match goal with |- context [for_upM 0 NUM_MAPPERS ?f []] =>
    destruct (for_upM_ind (fun k r => r = take k chunks) 0 NUM_MAPPERS f []) as (r & -> & ->); [lia|done| |]
  end.
  - intros k r Hk ->. destruct (lookup_lt_is_Some_2 hs k) as [h Hh]; [lia|].
    destruct (lookup_lt_is_Some_2 chunks k) as [c Hc]; [lia|].
    rewrite (rd_lookup _ _ _ Hh), res_bind_Ok. rewrite (Forall2_lookup_lr _ _ _ _ _ _ Hcs Hh Hc), res_bind_Ok.
    eexists. split; [done|]. symmetry. by apply take_S_r.
  - rewrite res_bind_Ok, firstn_all2 by lia. rewrite Hred, res_bind_Ok.
    destruct (hashput (Result out) σ) as [h σ'] eqn:Hput. exists h, σ'. split; [done|].
    split; [by eapply hashput_ext|]. unfold get_result. by rewrite (hashget_put _ _ _ _ Hput).
Qed.

Definition column (outs : list (list Chunk)) (r : nat) : list Chunk := (fun o => o !!! r) <$> outs.

Definition input_of (σ : store block) (i : map_in) (sc : option ServersideIn * ClientsideIn) : Prop :=
  stored_input i σ sc.1 sc.2.
Definition maps_to (map : option ServersideIn -> ClientsideIn -> res (list Chunk))
    (sc : option ServersideIn * ClientsideIn) (o : list Chunk) : Prop :=
  map sc.1 sc.2 = Ok o /\ length o = NUM_REDUCERS.

Lemma run_mappers_spec map inputs σ scs outs :
  Forall2 (input_of σ) inputs scs -> Forall2 (maps_to map) scs outs ->
  exists ds σ', run_mappers map inputs σ = Ok (ds, σ') /\ store_ext σ σ' /\ grid (length inputs) NUM_REDUCERS ds /\
    forall r, (r < NUM_REDUCERS)%nat ->
      Forall2 (fun h c => get_chunk h σ' = Ok c) ((fun d => d !!! r) <$> ds) (column outs r).
Proof.
  revert scs outs σ. induction inputs as [|i inputs IH]; intros scs outs σ Hin.
  - apply Forall2_nil_inv_l in Hin as ->. intros ->%Forall2_nil_inv_l.
    exists [], σ. split; [done|]. split; [reflexivity|]. split; [done|]. intros r _. constructor.
  - apply Forall2_cons_inv_l in Hin as ([s c] & scs' & Hi & Hin & ->).
    intros (o & outs' & [Hmap Hlen] & Hout & ->)%Forall2_cons_inv_l. cbn [run_mappers].
    destruct (map_compute_spec map i (replicate NUM_REDUCERS NULL_HASH) σ s c o) as (d & σ1 & -> & Hext1 & Hld & Hd);
      [apply length_replicate|done|done|done|].
    rewrite res_bind_Ok.
    destruct (IH scs' outs' σ1) as (ds & σ2 & -> & Hext2 & Hlds & Hds); [|done|].
    { eapply Forall2_impl; [exact Hin|]. intros i' sc' Hi'. by eapply stored_input_ext. }
    rewrite res_bind_Ok. exists (d :: ds), σ2. split; [done|]. split; [by etransitivity|].
    destruct Hlds as [Hlds Hrow]. split; [split; [cbn; lia|by constructor]|]. intros r Hr. cbn. constructor; [|by apply Hds].
    eapply get_ext; [exact Hext2|]. by apply Hd.
Qed.

Lemma run_reducers_spec reduce ins σ chunks results :
  Forall2 (fun hs cs => length hs = NUM_MAPPERS /\ Forall2 (fun h c => get_chunk h σ = Ok c) hs cs) ins chunks ->
  Forall2 (fun cs x => reduce cs = Ok x) chunks results ->
  exists hs σ', run_reducers reduce ins σ = Ok (hs, σ') /\ store_ext σ σ' /\
    Forall2 (fun h x => get_result h σ' = Ok x) hs results.
Proof.
  revert σ chunks results. induction ins as [|i ins IH]; intros σ chunks results Hin.
  - apply Forall2_nil_inv_l in Hin as ->. intros ->%Forall2_nil_inv_l. exists [], σ. split; [done|]. split; [reflexivity|]. constructor.
  - apply Forall2_cons_inv_l in Hin as (cs & chunks' & [Hlen Hcs] & Hin & ->).
    intros (x & results' & Hx & Hres & ->)%Forall2_cons_inv_l. cbn [run_reducers].
    destruct (red_compute_spec reduce i σ cs x Hlen Hcs Hx) as (h & σ1 & -> & Hext1 & Hh). rewrite res_bind_Ok.
    destruct (IH σ1 chunks' results') as (hs & σ2 & -> & Hext2 & Hhs); [|done|].
    { eapply Forall2_impl; [exact Hin|]. intros hs cs' [Hl Hall]. split; [done|]. eapply Forall2_impl; [exact Hall|]. intros h' c' Hc'. by eapply get_ext. }
    rewrite res_bind_Ok. exists (h :: hs), σ2. split; [done|]. split; [by etransitivity|]. constructor; [by eapply get_ext|done].
Qed.

(** [job_computes map reduce scs results]: whatever the store, a job whose
    inputs are stored as [scs] returns digests of [results] and keeps the
    blocks that were there. *)
Definition job_computes (map : option ServersideIn -> ClientsideIn -> res (list Chunk))
    (reduce : list Chunk -> res ReducerOut)
    (scs : list (option ServersideIn * ClientsideIn)) (results : list ReducerOut) : Prop :=
  forall inputs σ, Forall2 (input_of σ) inputs scs ->
  exists hs σ', run_job map reduce inputs σ = Ok (hs, σ') /\ store_ext σ σ' /\
    Forall2 (fun h x => get_result h σ' = Ok x) hs results.

Lemma job_computes_intro map reduce scs outs results :
  length scs = NUM_MAPPERS -> Forall2 (maps_to map) scs outs ->
  (forall r, (r < NUM_REDUCERS)%nat -> reduce (column outs r) = Ok (results r)) ->
  job_computes map reduce scs (tabulate NUM_REDUCERS results).
Proof.
  intros Hlen Hout Hres inputs σ Hin. unfold run_job.
  destruct (run_mappers_spec map inputs σ scs outs Hin Hout) as (ds & σ1 & -> & Hext1 & Hlds & Hds).
  rewrite res_bind_Ok, shuffle_columns by (by rewrite <- Hlen, <- (Forall2_length _ _ _ Hin)).
  match goal with |- context [run_reducers reduce ?ins σ1] =>
    destruct (run_reducers_spec reduce ins σ1 (tabulate NUM_REDUCERS (column outs)) (tabulate NUM_REDUCERS results)) as (hs & σ2 & -> & Hext2 & Hhs) end.
  - apply Forall2_fmap, Forall_Forall2_diag, Forall_forall. intros r Hr%elem_of_seq. split; [|apply Hds; lia].
    rewrite length_fmap, <- Hlen, <- (Forall2_length _ _ _ Hin). apply Hlds.
  - apply Forall2_fmap, Forall_Forall2_diag, Forall_forall. intros r Hr%elem_of_seq. apply Hres. lia.
  - exists hs, σ2. split; [done|]. split; [by etransitivity|done].
Qed.

(** A job of one reducer whose functions cannot fail. *)
Lemma one_reducer_job map reduce (scs : list (option ServersideIn * ClientsideIn)) :
  NUM_REDUCERS = 1%nat -> length scs = NUM_MAPPERS -> (forall s c, length (map s c) = 1%nat) ->
  job_computes (fun s c => Ok (map s c)) (fun cs => Ok (reduce cs)) scs
    [reduce ((fun sc => map sc.1 sc.2 !!! 0%nat) <$> scs)].
Proof.
  intros HR Hlen Hone.
  pose proof (job_computes_intro (fun s c => Ok (map s c)) (fun cs => Ok (reduce cs)) scs
    ((fun sc => map sc.1 sc.2) <$> scs) (fun _ => reduce ((fun sc => map sc.1 sc.2 !!! 0%nat) <$> scs))) as Hjob.
  replace [_] with (tabulate NUM_REDUCERS (fun _ => reduce ((fun sc => map sc.1 sc.2 !!! 0%nat) <$> scs))) by (by rewrite HR).
  apply Hjob; [done| |].
  - apply Forall2_fmap_r, Forall_Forall2_diag, Forall_forall. intros [s c] _. split; [done|]. cbn. rewrite HR. apply Hone.
  - intros r Hr. replace r with O by lia. unfold column. by rewrite <- list_fmap_compose.
Qed.

(** C25: A job whose inputs are stored computes, for every reducer, the
    reduction of what the mappers return for it, and the digests it returns
    are those of the results; the blocks stored before stay readable. *)
Theorem mapreduce_job_correct map reduce scs outs results :
  length scs = NUM_MAPPERS -> Forall2 (maps_to map) scs outs ->
  (forall r, (r < NUM_REDUCERS)%nat -> reduce (column outs r) = Ok (results r)) ->
  job_computes map reduce scs (tabulate NUM_REDUCERS results).
Proof. apply job_computes_intro. Qed.

End Frame.
End MapReduce.

(** A job of two mappers and two reducers: each mapper sends its number to
    the first reducer and its double to the second, which add. *)
Lemma mapreduce_job_witness :
  job_computes (ServersideIn := Empty_set) (ClientsideIn := Z) (Chunk := Z) (ReducerOut := Z) (BS := LogStore _) 2 2
    (fun _ z => Ok [z; 2 * z]) (fun cs => Ok (foldr Z.add 0 cs)) [(None, 3); (None, 4)] [7; 14].
Proof.
  apply (mapreduce_job_correct (BS := LogStore _) (BSL := LogStoreLaws _) 2 2
    (fun _ z => Ok [z; 2 * z]) (fun cs => Ok (foldr Z.add 0 cs)) [(None, 3); (None, 4)] [[3; 6]; [4; 8]]
    (fun r => if (r =? 0)%nat then 7 else 14)); [reflexivity| |].
  - repeat constructor.
  - intros r Hr. destruct r as [|[|r]]; [reflexivity|reflexivity|lia].
Defined.
