(* ===== verification/MrApps.v ===== *)
(** MapReduce applications over numbers: [pepper/apps/mr_bstore_dotp],
    [mr_f2], [mr_vecadd], [mr_bstore_vecadd], [mr_matvec], [mr_dist_search]
    and [mr_cov].

    The sizes are those the headers define, as parameters: a theorem holds
    for every choice of them its hypotheses allow.  Each module gives the
    mapper and the reducer and shows what the whole job computes. *)
From Stdlib Require Import ZArith Lia.
From stdpp Require Import base numbers list.
From S2P Require Import Prelude BlockStore MapReduce.

Local Open Scope Z_scope.

(** Jobs without server-side input. *)
Definition clients {A} (ins : list A) : list (option Empty_set * A) := (fun i => (None, i)) <$> ins.

(** A reducer that adds what the mappers return, one number each. *)
Definition add_up (NUM_MAPPERS : nat) (input : list Z) : Z :=
  for_up 0 NUM_MAPPERS (fun i output => u32 (output + input !!! i)) 0.

Lemma add_up_spec n input :
  add_up n input = u32 (zsum n (fun i => input !!! i)).
Proof. unfold add_up. rewrite (for_up_usum 32) by (unfold in_u; lia). by rewrite Z.add_0_l. Qed.

Lemma zsum_u32 n f : u32 (zsum n (fun i => u32 (f i))) = u32 (zsum n f).
Proof.
  induction n as [|n IH]; [done|]. cbn [zsum].
  rewrite wrapu_mod_r, <- wrapu_mod_l, IH, wrapu_mod_l. done.
Qed.

(** A mapper that adds up terms, and the job it is part of. *)
Definition sum_terms (n : nat) (term : nat -> Z) : list Z :=
  [for_up 0 n (fun i output => u32 (output + u32 (term i))) 0].

Lemma sum_terms_spec n term : sum_terms n term = [u32 (zsum n term)].
Proof.
  unfold sum_terms. rewrite (for_up_usum 32 n (fun i => u32 (term i))) by (unfold in_u; lia).
  by rewrite Z.add_0_l, zsum_u32.
Qed.

Lemma sum_job {A} `{Inhabited A} {BS : BlockStore (block (ServersideIn := Empty_set))} {BSL : BlockStoreLaws _}
    n NUM_MAPPERS (term : A -> nat -> Z) (ins : list A) :
  length ins = NUM_MAPPERS ->
  job_computes (BS := BS) NUM_MAPPERS 1 (fun _ i => Ok (sum_terms n (term i))) (fun cs => Ok (add_up NUM_MAPPERS cs))
    (clients ins) [u32 (zsum NUM_MAPPERS (fun m => zsum n (term (ins !!! m))))].
Proof.
  intros Hlen.
  pose proof (one_reducer_job NUM_MAPPERS 1 (fun (_ : option Empty_set) i => sum_terms n (term i)) (add_up NUM_MAPPERS)
    (clients ins) eq_refl) as Hjob.
  unfold clients in *. rewrite length_fmap in Hjob. specialize (Hjob Hlen (fun _ _ => eq_refl)).
  rewrite <- list_fmap_compose in Hjob. rewrite add_up_spec in Hjob.
  rewrite <- zsum_u32.
  rewrite (zsum_ext _ _ (fun m => ((fun i => sum_terms n (term i) !!! 0%nat) <$> ins) !!! m)); [exact Hjob|].
  intros m Hm. destruct (lookup_lt_is_Some_2 ins m) as [x Hx]; [lia|].
  rewrite (list_lookup_total_correct _ _ _ Hx). symmetry. apply list_lookup_total_correct.
  rewrite list_lookup_fmap, Hx. cbn [fmap option_fmap option_map]. by rewrite sum_terms_spec.
Qed.

(** ** Dot product *)

Module Dotp.

Record MapperIn := { vec_a : list Z; vec_b : list Z }.

Definition map (SIZE_INPUT : nat) (mapper_input : MapperIn) : list Z :=
  [for_up 0 SIZE_INPUT
     (fun i output => u32 (output + u32 (vec_a mapper_input !!! i * vec_b mapper_input !!! i))) 0].

Definition reduce (NUM_MAPPERS : nat) (input : list Z) : Z :=
  for_up 0 NUM_MAPPERS (fun i output => u32 (output + input !!! i)) 0.

#[export] Instance MapperIn_inhabited : Inhabited MapperIn := populate {| vec_a := []; vec_b := [] |}.

(** The job computes, modulo [2^32], the dot product of the vectors the
    mappers hold parts of. *)
Theorem dotp_job_correct {BS : BlockStore (block (ServersideIn := Empty_set))} {BSL : BlockStoreLaws _}
    SIZE_INPUT NUM_MAPPERS ins :
  length ins = NUM_MAPPERS ->
  job_computes (BS := BS) NUM_MAPPERS 1 (fun _ i => Ok (map SIZE_INPUT i)) (fun cs => Ok (reduce NUM_MAPPERS cs)) (clients ins)
    [u32 (zsum NUM_MAPPERS (fun m => zsum SIZE_INPUT (fun i => vec_a (ins !!! m) !!! i * vec_b (ins !!! m) !!! i)))].
Proof. apply (sum_job SIZE_INPUT NUM_MAPPERS (fun (i : MapperIn) j => vec_a i !!! j * vec_b i !!! j)). Qed.

Lemma dotp_job_witness :
  job_computes (BS := LogStore _) 2 1 (fun _ i => Ok (map 2 i)) (fun cs => Ok (reduce 2 cs))
    (clients [{| vec_a := [1; 2]; vec_b := [3; 4] |}; {| vec_a := [5; 6]; vec_b := [7; 2 ^ 31] |}]) [46].
Proof. apply (dotp_job_correct (BS := LogStore _) 2 2 [{| vec_a := [1; 2]; vec_b := [3; 4] |}; {| vec_a := [5; 6]; vec_b := [7; 2 ^ 31] |}]). reflexivity. Defined.

End Dotp.

(** ** Second frequency moment *)

Module F2.

Definition map (SIZE_INPUT : nat) (vec : list Z) : list Z :=
  [for_up 0 SIZE_INPUT (fun i output => u32 (output + u32 (vec !!! i * vec !!! i))) 0].

Definition reduce (NUM_MAPPERS : nat) (input : list Z) : Z :=
  for_up 0 NUM_MAPPERS (fun i output => u32 (output + input !!! i)) 0.

Lemma f2_job_correct {BS : BlockStore (block (ServersideIn := Empty_set))} {BSL : BlockStoreLaws _}
    SIZE_INPUT NUM_MAPPERS ins :
  length ins = NUM_MAPPERS ->
  job_computes (BS := BS) NUM_MAPPERS 1 (fun _ i => Ok (map SIZE_INPUT i)) (fun cs => Ok (reduce NUM_MAPPERS cs)) (clients ins)
    [u32 (zsum NUM_MAPPERS (fun m => zsum SIZE_INPUT (fun i => (ins !!! m) !!! i * (ins !!! m) !!! i)))].
Proof. apply (sum_job SIZE_INPUT NUM_MAPPERS (fun (i : list Z) j => i !!! j * i !!! j)). Qed.

End F2.

(** ** Vector addition *)

Module VecAdd.

Definition map (NUM_REDUCERS : nat) (input : list Z) (output : list Z) : list Z :=
  for_up 0 NUM_REDUCERS (fun i output => <[i := input !!! i]> output) output.

Definition reduce (NUM_MAPPERS : nat) (input : list Z) : Z :=
  for_up 0 NUM_MAPPERS (fun i out => u32 (out + input !!! i)) 0.

Lemma vecadd_map_spec n input output : length output = n -> map n input output = tabulate n (fun i => input !!! i).
Proof.
  intros Hlen. unfold map. rewrite (for_up_pointwise n (fun i _ => input !!! i)).
  rewrite <- (imap_const (fun i => input !!! i) output n Hlen). apply imap_ext.
  intros i x Hi%lookup_lt_Some. by destruct (Nat.ltb_spec i n); [|lia].
Qed.

(** Reducer [r] returns the sum, modulo [2^32], of the [r]-th
    components of the mappers' vectors. *)
Theorem vecadd_job_correct {BS : BlockStore (block (ServersideIn := Empty_set))} {BSL : BlockStoreLaws _}
    NUM_MAPPERS NUM_REDUCERS ins output :
  length ins = NUM_MAPPERS -> length output = NUM_REDUCERS ->
  job_computes (BS := BS) NUM_MAPPERS NUM_REDUCERS (fun _ i => Ok (map NUM_REDUCERS i output))
    (fun cs => Ok (reduce NUM_MAPPERS cs)) (clients ins)
    (tabulate NUM_REDUCERS (fun r => u32 (zsum NUM_MAPPERS (fun m => (ins !!! m) !!! r)))).
Proof.
  intros Hlen Hout.
  apply (job_computes_intro NUM_MAPPERS NUM_REDUCERS _ _ _
    ((fun i => tabulate NUM_REDUCERS (fun k => i !!! k)) <$> ins)).
  - unfold clients. by rewrite length_fmap.
  - unfold clients. apply Forall2_fmap_l, Forall2_fmap_r, Forall_Forall2_diag, Forall_forall.
    intros i _. split; [cbn; by rewrite vecadd_map_spec|apply tabulate_length].
  - intros r Hr. unfold reduce. f_equal. rewrite add_up_spec || rewrite (for_up_usum 32) by (unfold in_u; lia).
    rewrite Z.add_0_l || idtac. f_equal. apply zsum_ext. intros m Hm.
    destruct (lookup_lt_is_Some_2 ins m) as [x Hx]; [lia|]. rewrite (list_lookup_total_correct _ _ _ Hx).
    apply list_lookup_total_correct. unfold column. rewrite !list_lookup_fmap, Hx.
    cbn [fmap option_fmap option_map]. by rewrite tabulate_lookup.
Qed.

Lemma vecadd_job_witness :
  job_computes (BS := LogStore _) 2 3 (fun _ i => Ok (map 3 i [0; 0; 0])) (fun cs => Ok (reduce 2 cs))
    (clients [[1; 2; 3]; [10; 20; 2 ^ 32 - 1]]) [11; 22; 2].
Proof. apply (vecadd_job_correct (BS := LogStore _) 2 3 [[1; 2; 3]; [10; 20; 2 ^ 32 - 1]] [0; 0; 0]); reflexivity. Defined.

End VecAdd.

Module BstoreVecAdd.

(** Each chunk is an array of one number. *)
Definition map (NUM_REDUCERS : nat) (input : list Z) (output : list (list Z)) : list (list Z) :=
  for_up 0 NUM_REDUCERS (fun i output => upd2 output i 0 (fun _ => input !!! i)) output.

Definition reduce (NUM_MAPPERS : nat) (input : list Z) : Z :=
  for_up 0 NUM_MAPPERS (fun i output => u32 (output + input !!! i)) 0.

(** The chunks are those of the plain vector addition. *)
Lemma map_chunks n input output :
  length output = n -> Forall (fun c => length c = 1%nat) output ->
  map n input output = (fun x => [x]) <$> VecAdd.map n input (replicate n 0).
Proof.
  intros Hlen Hone. rewrite VecAdd.vecadd_map_spec by apply length_replicate. unfold map, upd2.
  rewrite (for_up_pointwise n (fun i c => <[0%nat := input !!! i]> c)).
  unfold tabulate. rewrite <- list_fmap_compose.
  change (imap (fun j x => if (j <? n)%nat then <[0%nat := input !!! j]> x else x) output
    = tabulate n (fun i => [input !!! i])).
  rewrite <- (imap_const (fun i => [input !!! i]) output n Hlen). apply imap_ext.
  intros i c Hi. pose proof (lookup_lt_Some _ _ _ Hi). destruct (Nat.ltb_spec i n); [|lia].
  pose proof (Forall_lookup_1 _ _ _ _ Hone Hi) as Hc. cbv beta in Hc.
  destruct c as [|x [|]]; cbn in Hc; try lia. done.
Qed.

End BstoreVecAdd.

(** ** Matrix-vector product *)

Module MatVec.

Record MapperIn := { matrix : list (list Z); vector : list Z }.

#[export] Instance MapperIn_inhabited : Inhabited MapperIn := populate {| matrix := []; vector := [] |}.

Definition map (NUM_ROWS_PER_MAPPER NUM_VARS : nat) (mapper_input : MapperIn) (product : list Z) : list (list Z) :=
  [for_up 0 NUM_ROWS_PER_MAPPER
     (fun i product =>
        let product := <[i := 0]> product in
        for_up 0 NUM_VARS
          (fun j product =>
             <[i := u32 (product !!! i + u32 ((matrix mapper_input !!! i) !!! j * vector mapper_input !!! j))]> product)
          product) product].

Definition reduce (NUM_ROWS_PER_MAPPER NUM_MAPPERS : nat) (input : list (list Z)) (product : list Z) : list Z :=
  fst (for_up 0 NUM_MAPPERS
         (fun i s => for_up 0 NUM_ROWS_PER_MAPPER
            (fun k '(product, j) => (<[j := (input !!! i) !!! k]> product, S j)) s) (product, O)).

(** One row of the product. *)
Definition row_product (NUM_VARS : nat) (i : MapperIn) (r : nat) : Z :=
  u32 (zsum NUM_VARS (fun j => (matrix i !!! r) !!! j * vector i !!! j)).

Lemma accumulate_at n i (f : nat -> Z) (l : list Z) :
  (i < length l)%nat ->
  for_up 0 n (fun j l => <[i := u32 (l !!! i + u32 (f j))]> l) (<[i := 0]> l) = <[i := u32 (zsum n f)]> l.
Proof.
  intros Hi. induction n as [|n IH]; [by rewrite for_up_done by lia|].
  rewrite for_up_last, IH by lia. rewrite list_lookup_total_insert_eq, list_insert_insert_eq by done.
  cbn [zsum]. by rewrite wrapu_mod_r, wrapu_mod_l.
Qed.

Lemma matvec_map_spec rows vars i product :
  length product = rows -> map rows vars i product = [tabulate rows (row_product vars i)].
Proof.
  intros Hlen. unfold map. f_equal.
  match goal with |- for_up 0 rows ?f product = _ =>
    destruct (for_up_ind (fun k p => length p = rows /\ p = for_up 0 k (fun r p => <[r := row_product vars i r]> p) product)
      0 rows f product) as [_ ->]; [lia|by rewrite for_up_done| |]
  end.
  - intros r p Hr [Hl Hp]. cbv zeta. rewrite accumulate_at by lia. rewrite length_insert. split; [done|].
    rewrite for_up_last by lia. by rewrite <- Hp.
  - rewrite (for_up_pointwise rows (fun r _ => row_product vars i r)).
    rewrite <- (imap_const (row_product vars i) product rows Hlen). apply imap_ext.
    intros r x Hr%lookup_lt_Some. by destruct (Nat.ltb_spec r rows); [|lia].
Qed.

(** The job computes the product of the matrix whose rows the mappers
    hold, one block each, with their vectors. *)
Theorem matvec_job_correct {BS : BlockStore (block (ServersideIn := Empty_set))} {BSL : BlockStoreLaws _}
    rows vars NUM_MAPPERS ins part product :
  length ins = NUM_MAPPERS -> length part = rows -> length product = (NUM_MAPPERS * rows)%nat ->
  job_computes (BS := BS) NUM_MAPPERS 1 (fun _ i => Ok (map rows vars i part))
    (fun cs => Ok (reduce rows NUM_MAPPERS cs product)) (clients ins)
    [concat ((fun i => tabulate rows (row_product vars i)) <$> ins)].
Proof.
  intros Hlen Hpart Hprod.
  apply (job_computes_intro NUM_MAPPERS 1 _ _ _ ((fun i => [tabulate rows (row_product vars i)]) <$> ins)
    (fun _ => concat ((fun i => tabulate rows (row_product vars i)) <$> ins))).
  - unfold clients. by rewrite length_fmap.
  - unfold clients. apply Forall2_fmap_l, Forall2_fmap_r, Forall_Forall2_diag, Forall_forall.
    intros i _. split; [cbn; by rewrite matvec_map_spec|done].
  - intros r Hr. replace r with O by lia. unfold column. rewrite <- list_fmap_compose. unfold reduce. f_equal.
    pose proof (for_up_concat rows ((fun i => tabulate rows (row_product vars i)) <$> ins) product) as Hc.
    rewrite length_fmap, Hlen in Hc. change (((fun o => o !!! 0%nat) ∘ (fun i => [tabulate rows (row_product vars i)])) <$> ins)
      with ((fun i => tabulate rows (row_product vars i)) <$> ins). rewrite Hc; [done| |done].
    apply Forall_fmap, Forall_forall. intros i _. apply tabulate_length.
Qed.

Lemma matvec_job_witness :
  job_computes (BS := LogStore _) 2 1 (fun _ i => Ok (map 1 2 i [0])) (fun cs => Ok (reduce 1 2 cs [0; 0]))
    (clients [{| matrix := [[1; 2]]; vector := [5; 6] |}; {| matrix := [[3; 4]]; vector := [5; 6] |}]) [[17; 39]].
Proof.
  apply (matvec_job_correct (BS := LogStore _) 1 2 2
    [{| matrix := [[1; 2]]; vector := [5; 6] |}; {| matrix := [[3; 4]]; vector := [5; 6] |}] [0] [0; 0]); reflexivity.
Defined.

End MatVec.

(** ** Nearest window *)

Module DistSearch.

Record MapperIn := { haystack : list Z; needle : list Z }.

#[export] Instance MapperIn_inhabited : Inhabited MapperIn := populate {| haystack := []; needle := [] |}.

Section Sizes.
Context (SIZE_HAYSTACK SIZE_NEEDLE NUM_MAPPERS : nat).

Definition windows : nat := (SIZE_HAYSTACK / SIZE_NEEDLE)%nat.

Definition map (mapper_input : MapperIn) (output : list Z) : list (list Z) :=
  [fst (for_up 0 windows
     (fun i '(output, k) =>
        for_up 0 SIZE_NEEDLE
          (fun j '(output, k) =>
             let d := u32 (haystack mapper_input !!! k - needle mapper_input !!! j) in
             (<[i := s32 (u32 (output !!! i + u32 (d * d)))]> output, S k)) (<[i := 0]> output, k)) (output, O))].

Definition reduce (input : list (list Z)) : Z :=
  for_up 0 NUM_MAPPERS
    (fun i output => for_up 0 windows
       (fun j output => if (input !!! i) !!! j <? output then (input !!! i) !!! j else output) output)
    ((input !!! 0%nat) !!! 0%nat).

(** The squared distance of the needle and the [w]-th window. *)
Definition distance (i : MapperIn) (w : nat) : Z :=
  zsum SIZE_NEEDLE (fun j => (haystack i !!! (w * SIZE_NEEDLE + j)%nat - needle i !!! j) ^ 2).

Lemma square_u32 a : u32 (u32 a * u32 a) = u32 (a ^ 2).
Proof. unfold wrapu. rewrite <- Zmult_mod. f_equal. lia. Qed.

Lemma window_loop i (f : nat -> nat -> Z) (output : list Z) k n :
  (i < length output)%nat ->
  for_up 0 n (fun j '(output, k) => let d := f k j in
     (<[i := s32 (u32 (output !!! i + u32 (u32 d * u32 d)))]> output, S k)) (<[i := 0]> output, k)
  = (<[i := s32 (zsum n (fun j => f (k + j)%nat j ^ 2))]> output, (k + n)%nat).
Proof.
  intros Hi. induction n as [|n IH]; [rewrite for_up_done by lia; by rewrite Nat.add_0_r|].
  rewrite for_up_last, IH by lia. cbv zeta. rewrite list_lookup_total_insert_eq, list_insert_insert_eq by done.
  rewrite Nat.add_succ_r. do 2 f_equal. cbn [zsum].
  rewrite square_u32, wrapu_mod_r, wraps_wrapu, wraps_mod_l by lia. done.
Qed.

Lemma dist_map_spec i output :
  length output = windows -> map i output = [tabulate windows (fun w => s32 (distance i w))].
Proof.
  intros Hlen. unfold map. f_equal.
  match goal with |- fst (for_up 0 windows ?f (output, O)) = _ =>
    destruct (for_up_ind (fun w s => length s.1 = windows /\
        s = (for_up 0 w (fun r p => <[r := s32 (distance i r)]> p) output, (w * SIZE_NEEDLE)%nat))
      0 windows f (output, O)) as [_ ->]; [lia|by rewrite for_up_done| |]
  end.
  - intros w [out k] Hw [Hl [= Hout ->]]. cbn [fst] in Hl.
    change (let d := ?x in ?y) with (let d := x in y).
    pose proof (window_loop w (fun k j => haystack i !!! k - needle i !!! j) out (w * SIZE_NEEDLE) SIZE_NEEDLE) as Hloop.
    cbv zeta in Hloop |- *. rewrite Hloop by lia. cbn [fst]. rewrite length_insert. split; [done|].
    rewrite for_up_last by lia. rewrite <- Hout. f_equal. cbn. lia.
  - cbn [fst]. rewrite (for_up_pointwise windows (fun r _ => s32 (distance i r))).
    rewrite <- (imap_const (fun r => s32 (distance i r)) output windows Hlen). apply imap_ext.
    intros r x Hr%lookup_lt_Some. by destruct (Nat.ltb_spec r windows); [|lia].
Qed.

Lemma dist_reduce_spec input :
  (0 < NUM_MAPPERS)%nat -> (0 < windows)%nat ->
  (exists m w, (m < NUM_MAPPERS)%nat /\ (w < windows)%nat /\ reduce input = (input !!! m) !!! w) /\
  forall m w, (m < NUM_MAPPERS)%nat -> (w < windows)%nat -> reduce input <= (input !!! m) !!! w.
Proof.
  intros Hm Hw. unfold reduce.
  set (is_in := fun r => exists m w, (m < NUM_MAPPERS)%nat /\ (w < windows)%nat /\ r = (input !!! m) !!! w).
  apply (for_up_ind (fun i r => is_in r /\ forall m w, (m < i)%nat -> (w < windows)%nat -> r <= (input !!! m) !!! w)
    0 NUM_MAPPERS); [lia| |].
  - split; [by exists O, O|]. lia.
  - intros i r Hi [Hin Hle].
    destruct (for_up_ind (fun j r' => is_in r' /\ r' <= r /\ forall w, (w < j)%nat -> r' <= (input !!! i) !!! w)
      0 windows (fun j output => if (input !!! i) !!! j <? output then (input !!! i) !!! j else output) r)
      as (Hin' & Hr & Hle'); [lia| | |].
    + split; [done|]. split; [lia|]. lia.
    + intros j r' Hj (Hin' & Hr & Hle'). destruct (Z.ltb_spec ((input !!! i) !!! j) r').
      * split; [by exists i, j; repeat split; lia|]. split; [lia|]. intros w Hw'.
        destruct (decide (w = j)) as [->|]; [lia|]. specialize (Hle' w ltac:(lia)). lia.
      * split; [done|]. split; [lia|]. intros w Hw'. destruct (decide (w = j)) as [->|]; [done|]. apply Hle'. lia.
    + split; [done|]. intros m w Hm' Hw'. destruct (decide (m = i)) as [->|]; [by apply Hle'|].
      specialize (Hle m w ltac:(lia) Hw'). lia.
Qed.

(** The job returns the least squared distance of the needle and a
    window of any mapper's haystack, when all of them fit an [int]. *)
Theorem dist_search_job_correct {BS : BlockStore (block (ServersideIn := Empty_set))} {BSL : BlockStoreLaws _} ins output :
  length ins = NUM_MAPPERS -> (0 < NUM_MAPPERS)%nat -> (0 < windows)%nat -> length output = windows ->
  (forall m w, (m < NUM_MAPPERS)%nat -> (w < windows)%nat -> distance (ins !!! m) w < 2 ^ 31) ->
  exists least,
    job_computes (BS := BS) NUM_MAPPERS 1 (fun _ i => Ok (map i output)) (fun cs => Ok (reduce cs)) (clients ins) [least] /\
    (exists m w, (m < NUM_MAPPERS)%nat /\ (w < windows)%nat /\ least = distance (ins !!! m) w) /\
    forall m w, (m < NUM_MAPPERS)%nat -> (w < windows)%nat -> least <= distance (ins !!! m) w.
Proof.
  intros Hlen Hm Hw Hout Hfit.
  set (chunks := (fun i => tabulate windows (fun w => s32 (distance i w))) <$> ins).
  assert (forall m w, (m < NUM_MAPPERS)%nat -> (w < windows)%nat ->
    (chunks !!! m) !!! w = distance (ins !!! m) w) as Hch.
  { intros m w Hm' Hw'. destruct (lookup_lt_is_Some_2 ins m) as [x Hx]; [lia|].
    pose proof (Hfit m w Hm' Hw') as Hd. rewrite (list_lookup_total_correct _ _ _ Hx) in *.
    rewrite (list_lookup_total_correct chunks m (tabulate windows (fun w => s32 (distance x w)))).
    - rewrite tabulate_lookup by done. apply wraps_small; [lia|]. unfold in_s. split; [|lia].
      assert (0 <= distance x w); [|lia]. apply zsum_nonneg. intros j _. nia.
    - unfold chunks. rewrite list_lookup_fmap, Hx. done. }
  destruct (dist_reduce_spec chunks Hm Hw) as [(m & w & Hm' & Hw' & Hr) Hle]. exists (reduce chunks). split; [|split].
  - apply (job_computes_intro NUM_MAPPERS 1 _ _ _ ((fun c => [c]) <$> chunks) (fun _ => reduce chunks)).
    + unfold clients. by rewrite length_fmap.
    + unfold clients, chunks. rewrite <- list_fmap_compose.
      apply Forall2_fmap_l, Forall2_fmap_r, Forall_Forall2_diag, Forall_forall.
      intros i _. split; [cbn; by rewrite dist_map_spec|done].
    + intros r Hr'. replace r with O by lia. unfold column. rewrite <- list_fmap_compose. by rewrite list_fmap_id.
  - exists m, w. split; [done|]. split; [done|]. by rewrite Hr, Hch.
  - intros m' w' Hm'' Hw''. rewrite <- Hch by done. by apply Hle.
Qed.

End Sizes.

Lemma dist_search_job_witness :
  let ins := [{| haystack := [1; 2; 3; 4]; needle := [3; 5] |}; {| haystack := [9; 9; 2; 2]; needle := [3; 5] |}] in
  exists least,
    job_computes (BS := LogStore _) 2 1 (fun _ i => Ok (map 4 2 i [0; 0])) (fun cs => Ok (reduce 4 2 2 cs)) (clients ins) [least] /\
    (exists m w, (m < 2)%nat /\ (w < windows 4 2)%nat /\ least = distance 2 (ins !!! m) w) /\
    forall m w, (m < 2)%nat -> (w < windows 4 2)%nat -> least <= distance 2 (ins !!! m) w.
Proof.
  intros ins. apply (dist_search_job_correct (BS := LogStore _) 4 2 2 ins [0; 0]); [reflexivity|lia|cbv; lia|reflexivity|].
  intros [|[|m]] [|[|w]] Hm Hw; first [reflexivity|cbv in Hm, Hw; lia].
Defined.

End DistSearch.

(** ** Covariance matrix *)

Module Cov.

Section Sizes.
Context (NUM_DATAPOINTS_PER_MAPPER NUM_VARS NUM_MAPPERS : nat).

(** Also [struct _ReducerChunkIn]. *)
Record MapperChunkOut := { sum_x : list Z; sum_x_times_y : list (list Z) }.

#[export] Instance MapperChunkOut_inhabited : Inhabited MapperChunkOut :=
  populate {| sum_x := []; sum_x_times_y := [] |}.

(** The first loops of the mapper and of the reducer. *)
Definition zero_out (out : MapperChunkOut) : MapperChunkOut :=
  for_up 0 NUM_VARS
    (fun i out =>
       {| sum_x := <[i := 0]> (sum_x out);
          sum_x_times_y := for_up 0 NUM_VARS (fun j m => upd2 m i j (fun _ => 0)) (sum_x_times_y out) |}) out.

Definition map (data : list (list Z)) (out : MapperChunkOut) : list MapperChunkOut :=
  let out := zero_out out in
  [for_up 0 NUM_DATAPOINTS_PER_MAPPER
     (fun i out =>
        for_up 0 NUM_VARS
          (fun j out =>
             {| sum_x := <[j := s64 (sum_x out !!! j + (data !!! i) !!! j)]> (sum_x out);
                sum_x_times_y :=
                  for_up 0 NUM_VARS
                    (fun k m => upd2 m j k (fun s => s64 (s + s32 ((data !!! i) !!! j * (data !!! i) !!! k))))
                    (sum_x_times_y out) |}) out) out].

(** [cov(X,Y) = E(x*y) - E(x)*E(y)], not yet divided. *)
Definition cov_entry (sum_in : MapperChunkOut) (i j : nat) : Z :=
  s64 (s64 (s64 ((sum_x_times_y sum_in !!! i) !!! j * Z.of_nat NUM_DATAPOINTS_PER_MAPPER) * Z.of_nat NUM_MAPPERS)
       - s64 (sum_x sum_in !!! i * sum_x sum_in !!! j)).

Definition reduce (input : list MapperChunkOut) (sum_in : MapperChunkOut) (scaled_cov : list (list Z)) : list (list Z) :=
  let sum_in := zero_out sum_in in
  let sum_in :=
    for_up 0 NUM_MAPPERS
      (fun i s =>
         for_up 0 NUM_VARS
           (fun j s =>
              {| sum_x := <[j := s64 (sum_x s !!! j + sum_x (input !!! i) !!! j)]> (sum_x s);
                 sum_x_times_y :=
                   for_up 0 NUM_VARS
                     (fun k m => upd2 m j k (fun x => s64 (x + (sum_x_times_y (input !!! i) !!! j) !!! k)))
                     (sum_x_times_y s) |}) s) sum_in in
  for_up 0 NUM_VARS
    (fun i m => for_up 0 NUM_VARS (fun j m => upd2 m i j (fun _ => cov_entry sum_in i j)) m) scaled_cov.

Definition square (m : list (list Z)) : Prop := length m = NUM_VARS /\ Forall (fun r => length r = NUM_VARS) m.
Definition shaped (out : MapperChunkOut) : Prop := length (sum_x out) = NUM_VARS /\ square (sum_x_times_y out).

(** Loops whose body acts on both fields. *)
Lemma for_up_fields n (f : nat -> list Z -> list Z) (g : nat -> list (list Z) -> list (list Z)) out :
  for_up 0 n (fun j out => {| sum_x := f j (sum_x out); sum_x_times_y := g j (sum_x_times_y out) |}) out
  = {| sum_x := for_up 0 n f (sum_x out); sum_x_times_y := for_up 0 n g (sum_x_times_y out) |}.
Proof.
  induction n as [|n IH]; [rewrite !for_up_done by lia; by destruct out|].
  rewrite !for_up_last, IH by lia. done.
Qed.

(** One pass that updates every element of the fields. *)
Lemma pass (f : nat -> Z -> Z) (g : nat -> nat -> Z -> Z) out :
  shaped out ->
  for_up 0 NUM_VARS
    (fun j out => {| sum_x := <[j := f j (sum_x out !!! j)]> (sum_x out);
                     sum_x_times_y := for_up 0 NUM_VARS (fun k m => upd2 m j k (g j k)) (sum_x_times_y out) |}) out
  = {| sum_x := imap f (sum_x out); sum_x_times_y := imap (fun j r => imap (g j) r) (sum_x_times_y out) |}.
Proof.
  intros (Hl & Hm & Hr).
  rewrite (for_up_fields NUM_VARS (fun j l => <[j := f j (l !!! j)]> l)
    (fun j m => for_up 0 NUM_VARS (fun k m => upd2 m j k (g j k)) m)).
  rewrite for_up_pointwise, for_up_grid by done. f_equal. apply imap_ext.
  intros j x Hj%lookup_lt_Some. by destruct (Nat.ltb_spec j NUM_VARS); [|lia].
Qed.

Lemma imap_shaped (f : nat -> Z -> Z) (g : nat -> nat -> Z -> Z) out :
  shaped out -> shaped {| sum_x := imap f (sum_x out); sum_x_times_y := imap (fun j r => imap (g j) r) (sum_x_times_y out) |}.
Proof.
  intros (Hl & Hm & Hr). split; [cbn; by rewrite length_imap|]. split; [cbn; by rewrite length_imap|].
  cbn. apply Forall_lookup. intros i r Hi. rewrite list_lookup_imap in Hi.
  destruct (sum_x_times_y out !! i) as [r0|] eqn:Hr0; [|done]. injection Hi as <-.
  rewrite length_imap. by apply (Forall_lookup_1 _ _ _ _ Hr Hr0).
Qed.

(** Both fields given by their elements. *)
Definition sums (f : nat -> Z) (g : nat -> nat -> Z) : MapperChunkOut :=
  {| sum_x := tabulate NUM_VARS f; sum_x_times_y := tabulate NUM_VARS (fun i => tabulate NUM_VARS (g i)) |}.

Lemma sums_shaped f g : shaped (sums f g).
Proof.
  split; [apply tabulate_length|]. split; [apply tabulate_length|]. cbn. unfold tabulate at 1.
  apply Forall_fmap, Forall_forall. intros i _. apply tabulate_length.
Qed.

Lemma pass_sums f g f0 g0 :
  {| sum_x := imap f (sum_x (sums f0 g0)); sum_x_times_y := imap (fun j r => imap (g j) r) (sum_x_times_y (sums f0 g0)) |}
  = sums (fun j => f j (f0 j)) (fun j k => g j k (g0 j k)).
Proof.
  unfold sums. cbn. rewrite !imap_tabulate. f_equal. apply tabulate_ext. intros i _. by rewrite imap_tabulate.
Qed.

Lemma zero_out_spec out : shaped out -> zero_out out = sums (fun _ => 0) (fun _ _ => 0).
Proof.
  intros Hs. unfold zero_out. rewrite (pass (fun _ _ => 0) (fun _ _ _ => 0)) by done.
  destruct Hs as (Hl & Hm & Hr). unfold sums. f_equal; [by apply (imap_const (fun _ => 0))|].
  by apply (imap_const2 (fun _ _ => 0)).
Qed.

(** Accumulating passes, one per data point or per mapper. *)
Lemma accumulate n (f : nat -> nat -> Z) (g : nat -> nat -> nat -> Z) :
  for_up 0 n
    (fun i out => for_up 0 NUM_VARS
       (fun j out => {| sum_x := <[j := s64 (sum_x out !!! j + f i j)]> (sum_x out);
                        sum_x_times_y := for_up 0 NUM_VARS (fun k m => upd2 m j k (fun s => s64 (s + g i j k))) (sum_x_times_y out) |}) out)
    (sums (fun _ => 0) (fun _ _ => 0))
  = sums (fun j => s64 (zsum n (fun i => f i j))) (fun j k => s64 (zsum n (fun i => g i j k))).
Proof.
  induction n as [|n IH]; [by rewrite for_up_done by lia|].
  rewrite for_up_last, IH by lia.
  rewrite (pass (fun j s => s64 (s + f n j)) (fun j k s => s64 (s + g n j k))) by apply sums_shaped.
  rewrite pass_sums. cbn [zsum]. unfold sums. f_equal.
  - apply tabulate_ext. intros j _. by rewrite wraps_mod_l.
  - apply tabulate_ext. intros j _. apply tabulate_ext. intros k _. by rewrite wraps_mod_l.
Qed.

Definition sum_of (data : list (list Z)) (j : nat) : Z :=
  zsum NUM_DATAPOINTS_PER_MAPPER (fun i => (data !!! i) !!! j).
Definition product_of (data : list (list Z)) (j k : nat) : Z :=
  zsum NUM_DATAPOINTS_PER_MAPPER (fun i => (data !!! i) !!! j * (data !!! i) !!! k).

(** [measure_t] is [int16_t]. *)
Definition measures (data : list (list Z)) : Prop :=
  forall i j, (i < NUM_DATAPOINTS_PER_MAPPER)%nat -> (j < NUM_VARS)%nat -> in_s 16 ((data !!! i) !!! j).

Lemma cov_map_spec data out :
  shaped out -> measures data ->
  map data out = [sums (fun j => s64 (sum_of data j)) (fun j k => s64 (product_of data j k))].
Proof.
  intros Hs Hd. unfold map. cbv zeta. rewrite zero_out_spec by done.
  rewrite (accumulate NUM_DATAPOINTS_PER_MAPPER (fun i j => (data !!! i) !!! j)
    (fun i j k => s32 ((data !!! i) !!! j * (data !!! i) !!! k))).
  f_equal. unfold sums. f_equal. apply tabulate_ext. intros j Hj. apply tabulate_ext. intros k Hk. f_equal.
  apply zsum_ext. intros i Hi. pose proof (Hd i j Hi Hj). pose proof (Hd i k Hi Hk). unfold in_s in *. eval_pow.
  apply wraps_small; [lia|]. unfold in_s. eval_pow. nia.
Qed.

(** The number of data points is such that nothing overflows 64 bits. *)
Definition points : Z := Z.of_nat NUM_DATAPOINTS_PER_MAPPER * Z.of_nat NUM_MAPPERS.

Definition total (ins : list (list (list Z))) (j : nat) : Z := zsum NUM_MAPPERS (fun m => sum_of (ins !!! m) j).
Definition total_product (ins : list (list (list Z))) (j k : nat) : Z := zsum NUM_MAPPERS (fun m => product_of (ins !!! m) j k).

Lemma sum_of_bound data j :
  measures data -> (j < NUM_VARS)%nat ->
  - (Z.of_nat NUM_DATAPOINTS_PER_MAPPER * 2 ^ 15) <= sum_of data j <= Z.of_nat NUM_DATAPOINTS_PER_MAPPER * 2 ^ 15.
Proof. intros Hd Hj. apply zsum_abs_le. intros i Hi. pose proof (Hd i j Hi Hj). unfold in_s in *. eval_pow. lia. Qed.

Lemma product_of_bound data j k :
  measures data -> (j < NUM_VARS)%nat -> (k < NUM_VARS)%nat ->
  - (Z.of_nat NUM_DATAPOINTS_PER_MAPPER * 2 ^ 30) <= product_of data j k <= Z.of_nat NUM_DATAPOINTS_PER_MAPPER * 2 ^ 30.
Proof.
  intros Hd Hj Hk. apply zsum_abs_le. intros i Hi. pose proof (Hd i j Hi Hj). pose proof (Hd i k Hi Hk).
  unfold in_s in *. eval_pow. nia.
Qed.

(** Nothing overflows with fewer than [2^16] points. *)
Lemma cov_entry_spec x y p D N sx sxy i j :
  0 <= points < 2 ^ 16 -> sum_x sx !!! i = s64 x -> sum_x sx !!! j = s64 y ->
  (sum_x_times_y sx !!! i) !!! j = s64 p -> sxy = p ->
  D = Z.of_nat NUM_DATAPOINTS_PER_MAPPER -> N = Z.of_nat NUM_MAPPERS ->
  - (points * 2 ^ 15) <= x <= points * 2 ^ 15 -> - (points * 2 ^ 15) <= y <= points * 2 ^ 15 ->
  - (points * 2 ^ 30) <= p <= points * 2 ^ 30 ->
  cov_entry sx i j = p * points - x * y.
Proof.
  intros Hpt Hx Hy Hp _ HD HN Hbx Hby Hbp. unfold cov_entry. rewrite Hx, Hy, Hp, <- HD, <- HN.
  assert (- 2 ^ 31 < x < 2 ^ 31) as Hx' by lia. assert (- 2 ^ 31 < y < 2 ^ 31) as Hy' by lia.
  assert (- 2 ^ 46 < p < 2 ^ 46) as Hp' by lia.
  rewrite (wraps_small 64 x), (wraps_small 64 y), (wraps_small 64 p) by (lia || (unfold in_s; lia)).
  assert (- 2 ^ 62 <= x * y <= 2 ^ 62) as Hxy by nia.
  assert (- 2 ^ 62 < p * points < 2 ^ 62) as Hpp by nia.
  rewrite (wraps_small 64 (x * y)) by (lia || (unfold in_s; lia)).
  rewrite (wraps_eqm 64 (s64 (p * D) * N) (p * points)); [|lia|].
  - rewrite (wraps_small 64 (p * points)) by (lia || (unfold in_s; lia)). apply wraps_small; [lia|]. unfold in_s. lia.
  - rewrite <- Zmult_mod_idemp_l, wraps_mod, Zmult_mod_idemp_l by lia. f_equal. unfold points. subst. lia.
Qed.

Definition mapped (ins : list (list (list Z))) : list MapperChunkOut :=
  (fun data => sums (fun j => s64 (sum_of data j)) (fun j k => s64 (product_of data j k))) <$> ins.

Lemma cov_reduce_spec ins sum_in scaled_cov :
  length ins = NUM_MAPPERS -> shaped sum_in -> square scaled_cov -> Forall measures ins -> points < 2 ^ 16 ->
  reduce (mapped ins) sum_in scaled_cov
  = tabulate NUM_VARS (fun i => tabulate NUM_VARS (fun j =>
      total_product ins i j * points - total ins i * total ins j)).
Proof.
  intros Hlen Hs [Hc Hcr] Hd Hpts. unfold reduce. cbv zeta. rewrite zero_out_spec by done.
  rewrite (accumulate NUM_MAPPERS (fun i j => sum_x (mapped ins !!! i) !!! j)
    (fun i j k => (sum_x_times_y (mapped ins !!! i) !!! j) !!! k)).
  match goal with |- context [cov_entry ?s] => set (sum_all := s) end.
  rewrite (for_up_grid NUM_VARS NUM_VARS (fun i j _ => cov_entry sum_all i j)) by done.
  rewrite (imap_const2 (cov_entry sum_all) scaled_cov NUM_VARS NUM_VARS) by done.
  assert (forall m, (m < NUM_MAPPERS)%nat -> measures (ins !!! m) /\
    mapped ins !!! m = sums (fun j => s64 (sum_of (ins !!! m) j)) (fun j k => s64 (product_of (ins !!! m) j k))) as Hm.
  { intros m Hm. destruct (lookup_lt_is_Some_2 ins m) as [d Hi]; [lia|].
    rewrite (list_lookup_total_correct _ _ _ Hi). split; [by apply (Forall_lookup_1 _ _ _ _ Hd Hi)|].
    apply list_lookup_total_correct. unfold mapped. by rewrite list_lookup_fmap, Hi. }
  assert (forall j, (j < NUM_VARS)%nat -> sum_x sum_all !!! j = s64 (total ins j) /\
    - (points * 2 ^ 15) <= total ins j <= points * 2 ^ 15) as Hsum.
  { intros j Hj. split.
    - unfold sum_all, sums. cbn [sum_x]. rewrite tabulate_lookup by done. f_equal. apply zsum_ext. intros m Hlt.
      destruct (Hm m Hlt) as [Hme ->]. unfold sums. cbn [sum_x]. rewrite tabulate_lookup by done.
      pose proof (sum_of_bound (ins !!! m) j Hme Hj). apply wraps_small; [lia|]. unfold points in *.
      unfold in_s. eval_pow. nia.
    - unfold points. rewrite (Z.mul_comm (Z.of_nat _)), <- Z.mul_assoc. apply zsum_abs_le. intros m Hlt.
      apply sum_of_bound; [by apply Hm|done]. }
  apply tabulate_ext. intros i Hi. apply tabulate_ext. intros j Hj.
  destruct (Hsum i Hi) as [Hxi Hbi]. destruct (Hsum j Hj) as [Hxj Hbj].
  apply (cov_entry_spec _ _ _ _ _ _ _ _ _ ltac:(unfold points in *; lia) Hxi Hxj) with (2 := eq_refl) (3 := eq_refl) (4 := eq_refl);
    [|done|done|].
  - unfold sum_all, sums. cbn [sum_x_times_y]. rewrite !tabulate_lookup by done. f_equal. apply zsum_ext. intros m Hlt.
    destruct (Hm m Hlt) as [Hme ->]. unfold sums. cbn [sum_x_times_y]. rewrite !tabulate_lookup by done.
    pose proof (product_of_bound (ins !!! m) i j Hme Hi Hj). apply wraps_small; [lia|]. unfold points in *.
    unfold in_s. eval_pow. nia.
  - unfold points. rewrite (Z.mul_comm (Z.of_nat _)), <- Z.mul_assoc. apply zsum_abs_le. intros m Hlt.
    apply product_of_bound; [by apply Hm|done|done].
Qed.

(** For 16-bit measures and fewer than [2^16] points the job returns
    the covariance matrix scaled by the square of the number of points, with
    no overflow on the way. *)
Theorem cov_job_correct {BS : BlockStore (block (ServersideIn := Empty_set))} {BSL : BlockStoreLaws _} ins out sum_in scaled_cov :
  length ins = NUM_MAPPERS -> Forall measures ins -> points < 2 ^ 16 ->
  shaped out -> shaped sum_in -> square scaled_cov ->
  job_computes (BS := BS) NUM_MAPPERS 1 (fun _ i => Ok (map i out)) (fun cs => Ok (reduce cs sum_in scaled_cov)) (clients ins)
    [tabulate NUM_VARS (fun i => tabulate NUM_VARS (fun j =>
       total_product ins i j * points - total ins i * total ins j))].
Proof.
  intros Hlen Hd Hpts Ho Hs Hc.
  match goal with |- job_computes _ _ _ _ _ [?r] =>
    apply (job_computes_intro NUM_MAPPERS 1 _ _ _ ((fun c => [c]) <$> mapped ins) (fun _ => r)) end.
  - unfold clients. by rewrite length_fmap.
  - unfold clients, mapped. rewrite <- list_fmap_compose.
    apply Forall2_fmap_l, Forall2_fmap_r, Forall_Forall2_diag.
    eapply Forall_impl; [exact Hd|]. intros i Hi. split; [cbn; by rewrite cov_map_spec|done].
  - intros r Hr. replace r with O by lia. unfold column. rewrite <- list_fmap_compose. f_equal.
    rewrite <- (cov_reduce_spec ins sum_in scaled_cov) by done. f_equal. apply list_fmap_id.
Qed.

End Sizes.

Lemma cov_job_witness :
  let zero := sums 2 (fun _ => 0) (fun _ _ => 0) in
  job_computes (BS := LogStore _) 2 1 (fun _ i => Ok (map 2 2 i zero))
    (fun cs => Ok (reduce 2 2 2 cs zero [[0; 0]; [0; 0]])) (clients [[[1; 2]; [3; -4]]; [[5; 6]; [7; 8]]])
    [[[80; 112]; [112; 336]]].
Proof.
  intros zero.
  apply (cov_job_correct (BS := LogStore _) 2 2 2 [[[1; 2]; [3; -4]]; [[5; 6]; [7; 8]]] zero zero [[0; 0]; [0; 0]]);
    [reflexivity| |reflexivity|apply sums_shaped|apply sums_shaped|repeat constructor].
  apply Forall_cons; split; [|apply Forall_cons; split; [|apply Forall_nil; exact I]];
    intros [|[|i]] [|[|j]] Hi Hj; first [lia|split; cbn; lia].
Defined.

End Cov.
