(* ===== verification/Substring.v ===== *)
(** The DNA substring search of [pepper/apps/mr_substring_search]: the
    three implementations of the mapper that the header chooses from, the
    reducer, and the job.

    The sizes of the header are parameters; as configured there
    [NUM_NEEDLES] is 1, [SIZE_NEEDLE] 4 and [SIZE_HAYSTACK] 600000.  The
    haystack is server-side input. *)
From Stdlib Require Import ZArith Lia.
From stdpp Require Import base numbers list.
From S2P Require Import Prelude BlockStore MapReduce.

Local Open Scope Z_scope.

Section Substring.
Context (NUM_NEEDLES SIZE_NEEDLE SIZE_HAYSTACK NUM_MAPPERS : nat).

(** Nucleotides of two bits, 32 in a word. *)
Definition NUCS_PER_INT : nat := 32.
Definition SIZE_HAYSTACK_INTS : nat := ((SIZE_HAYSTACK + NUCS_PER_INT - 1) / NUCS_PER_INT)%nat.
Definition SIZE_NEEDLE_INTS : nat := ((SIZE_NEEDLE + NUCS_PER_INT - 1) / NUCS_PER_INT)%nat.

(** ** The mappers *)

(** [BOOLEAN_IMPL]: one [bool] per bit. *)
Definition map_boolean (haystack : list bool) (needles : list (list bool)) (position : list Z) : list (list Z) :=
  let position := for_up 0 NUM_NEEDLES (fun i position => <[i := -1]> position) position in
  [for_up 0 (SIZE_HAYSTACK - (SIZE_NEEDLE - 1))
     (fun i position =>
        for_up 0 NUM_NEEDLES
          (fun needle position =>
             let '(match_target, match_counter) :=
               for_up 0 SIZE_NEEDLE
                 (fun j s => for_up 0 2
                    (fun k '(match_target, match_counter) =>
                       (match_target + 1,
                        match_counter + b2z (Bool.eqb ((needles !!! needle) !!! (j * 2 + k)%nat)
                                                      (haystack !!! ((i + j) * 2 + k)%nat)))) s) (0, 0) in
             if match_counter =? match_target then <[needle := Z.of_nat i]> position else position)
          position) position].

(** The window of [SIZE_NEEDLE] nucleotides from [base] on, packed anew. *)
Definition window (words : list Z) (base : nat) : Z :=
  for_up 0 SIZE_NEEDLE
    (fun j w =>
       let i_base := ((base + j) / NUCS_PER_INT)%nat in
       let i_offset := ((base + j) mod NUCS_PER_INT)%nat in
       Z.lor w (u64 (Z.shiftl (Z.land (Z.shiftr (words !!! i_base) (Z.of_nat (i_offset * 2))) 3) (Z.of_nat (j * 2))))) 0.

(** [STD_IMPL]: packed nucleotides, a window of at most one word. *)
Definition map_std (haystack : list Z) (needles : list (list Z)) (position needles_as_ints : list Z) : res (list (list Z)) :=
  if (32 <? SIZE_NEEDLE)%nat then Fault
  else if (SIZE_HAYSTACK <? SIZE_NEEDLE)%nat then Fault
  else
    let '(position, needles_as_ints) :=
      for_up 0 NUM_NEEDLES
        (fun needle '(position, needles_as_ints) =>
           (<[needle := -1]> position, <[needle := window (needles !!! needle) 0]> needles_as_ints))
        (position, needles_as_ints) in
    Ok [for_up 0 (SIZE_HAYSTACK - (SIZE_NEEDLE - 1))
          (fun i position =>
             let needle_checking_window := window haystack i in
             for_up 0 NUM_NEEDLES
               (fun needle position =>
                  if needle_checking_window =? needles_as_ints !!! needle
                  then <[needle := Z.of_nat i]> position else position) position) position].

(** [WORD_ALIGNED_IMPL]: whole words at word positions. *)
Definition map_word_aligned (haystack : list Z) (needles : list (list Z)) (position : list Z) : list (list Z) :=
  let position := for_up 0 NUM_NEEDLES (fun i position => <[i := -1]> position) position in
  [for_up 0 (SIZE_HAYSTACK_INTS - (SIZE_NEEDLE_INTS - 1))
     (fun i position =>
        for_up 0 NUM_NEEDLES
          (fun j position =>
             let '(match_target, match_counter) :=
               for_up 0 SIZE_NEEDLE_INTS
                 (fun k '(match_target, match_counter) =>
                    (match_target + 1, match_counter + b2z ((needles !!! j) !!! k =? haystack !!! (i + k)%nat))) (0, 0) in
             if match_target =? match_counter then <[j := Z.of_nat i]> position else position) position) position].

(** ** The reducer *)

Definition reduce (input : list (list Z)) (position : list Z) : list Z :=
  let position := for_up 0 NUM_NEEDLES (fun i position => <[i := -1]> position) position in
  for_up 0 NUM_MAPPERS
    (fun i position =>
       for_up 0 NUM_NEEDLES
         (fun j position =>
            let found := (input !!! i) !!! j in
            if negb (found =? -1) then <[j := found]> position else position) position) position.

(** ** Last occurrences *)

(** The last [i < n] at which [p] holds, or -1. *)
Definition last_such (n : nat) (p : nat -> bool) : Z :=
  for_up 0 n (fun i position => if p i then Z.of_nat i else position) (-1).

Lemma last_such_spec n p :
  (last_such n p = -1 /\ forall i, (i < n)%nat -> p i = false) \/
  (exists i, (i < n)%nat /\ last_such n p = Z.of_nat i /\ p i = true /\ forall k, (i < k < n)%nat -> p k = false).
Proof.
  unfold last_such. induction n as [|n IH]; [left; split; [done|lia]|].
  rewrite for_up_last by lia. destruct (p n) eqn:Hp.
  - right. exists n. split; [lia|]. split; [done|]. split; [done|]. lia.
  - destruct IH as [[-> Hno]|(i & Hi & -> & Hpi & Hlast)].
    + left. split; [done|]. intros i Hi. destruct (decide (i = n)) as [->|]; [done|apply Hno; lia].
    + right. exists i. split; [lia|]. split; [done|]. split; [done|]. intros k Hk.
      destruct (decide (k = n)) as [->|]; [done|apply Hlast; lia].
Qed.

Lemma last_such_ext n p q : (forall i, (i < n)%nat -> p i = q i) -> last_such n p = last_such n q.
Proof. intros Hpq. apply for_up_ext. intros i s Hi. by rewrite Hpq by lia. Qed.

(** The loops that record matches, for every needle at once. *)
Lemma record_matches n (p : nat -> nat -> bool) (position : list Z) :
  length position = NUM_NEEDLES ->
  for_up 0 n
    (fun i position => for_up 0 NUM_NEEDLES
       (fun needle position => if p i needle then <[needle := Z.of_nat i]> position else position) position)
    (for_up 0 NUM_NEEDLES (fun i position => <[i := -1]> position) position)
  = tabulate NUM_NEEDLES (fun needle => last_such n (fun i => p i needle)).
Proof.
  intros Hlen.
  rewrite (for_up_pointwise NUM_NEEDLES (fun _ _ => -1)).
  assert (imap (fun j x => if (j <? NUM_NEEDLES)%nat then -1 else x) position = tabulate NUM_NEEDLES (fun _ => -1)) as ->.
  { rewrite <- (imap_const (fun _ => -1) position NUM_NEEDLES Hlen). apply imap_ext.
    intros j x Hj%lookup_lt_Some. by destruct (Nat.ltb_spec j NUM_NEEDLES); [|lia]. }
  unfold last_such. induction n as [|n IH]; [by rewrite for_up_done by lia|].
  rewrite for_up_last, IH by lia.
  rewrite (for_up_ext _ _ _ (fun needle position =>
    <[needle := if p n needle then Z.of_nat n else position !!! needle]> position)).
  - rewrite (for_up_pointwise NUM_NEEDLES (fun needle x => if p n needle then Z.of_nat n else x)).
    rewrite imap_tabulate. apply tabulate_ext. intros j Hj. rewrite for_up_last by lia.
    by destruct (Nat.ltb_spec j NUM_NEEDLES); [|lia].
  - intros j s Hj. destruct (p n j); [done|].
    destruct (decide (j < length s)%nat) as [Hs|Hs].
    + symmetry. apply list_insert_id. by apply list_lookup_lookup_total_lt.
    + by rewrite list_insert_ge by lia.
Qed.

(** ** What a match is *)

(** The [i]-th nucleotide of an array of words. *)
Definition nucleotide (words : list Z) (i : nat) : Z :=
  Z.land (Z.shiftr (words !!! (i / NUCS_PER_INT)%nat) (Z.of_nat (i mod NUCS_PER_INT * 2))) 3.

Lemma nucleotide_range words i : 0 <= nucleotide words i < 4.
Proof. unfold nucleotide. change 3 with (Z.ones 2). rewrite Z.land_ones by lia. by apply Z.mod_pos_bound. Qed.

(** The needle occurs at [i]. *)
Definition occurs (haystack needle : list Z) (i : nat) : bool :=
  forallb (fun j => nucleotide haystack (i + j) =? nucleotide needle j) (seq 0 SIZE_NEEDLE).

(** Numbers written in base four. *)
Definition digits (n : nat) (d : nat -> Z) : Z := zsum n (fun j => d j * 2 ^ Z.of_nat (j * 2)).

Lemma digits_range n d : (forall j, 0 <= d j < 4) -> 0 <= digits n d < 2 ^ Z.of_nat (n * 2).
Proof.
  intros Hd. unfold digits. induction n as [|n IH]; [cbn; lia|].
  cbn [zsum]. replace (Z.of_nat (S n * 2)) with (2 + Z.of_nat (n * 2)) by lia. rewrite Z.pow_add_r by lia.
  change (2 ^ 2) with 4. specialize (Hd n). pose proof (Z.pow_pos_nonneg 2 (Z.of_nat (n * 2)) ltac:(lia) ltac:(lia)). nia.
Qed.

Lemma digits_inj n d d' :
  (forall j, 0 <= d j < 4) -> (forall j, 0 <= d' j < 4) -> digits n d = digits n d' ->
  forall j, (j < n)%nat -> d j = d' j.
Proof.
  intros Hd Hd'. induction n as [|n IH]; [lia|]. intros Heq j Hj.
  pose proof (digits_range n d Hd) as Hr. pose proof (digits_range n d' Hd') as Hr'.
  unfold digits in Heq. cbn [zsum] in Heq. fold (digits n d) (digits n d') in Heq.
  pose proof (Z.pow_pos_nonneg 2 (Z.of_nat (n * 2)) ltac:(lia) ltac:(lia)) as Hp.
  assert (d n = d' n) as Hn.
  { destruct (Z.lt_trichotomy (d n) (d' n)) as [Hlt|[?|Hlt]]; [nia|done|nia]. }
  destruct (decide (j = n)) as [->|]; [done|]. apply IH; [nia|lia].
Qed.

Lemma window_spec words base :
  (SIZE_NEEDLE <= 32)%nat -> window words base = digits SIZE_NEEDLE (fun j => nucleotide words (base + j)).
Proof.
  intros Hle. unfold window, digits.
  cut (forall n, (n <= SIZE_NEEDLE)%nat ->
    for_up 0 n (fun j w => Z.lor w (u64 (Z.shiftl (nucleotide words (base + j)) (Z.of_nat (j * 2))))) 0
    = zsum n (fun j => nucleotide words (base + j) * 2 ^ Z.of_nat (j * 2))); [intros H; apply H; lia|].
  induction n as [|n IH]; intros Hn; [done|].
  rewrite for_up_last, IH by lia. cbn [zsum].
  pose proof (nucleotide_range words (base + n)) as Hr.
  pose proof (digits_range n (fun j => nucleotide words (base + j)) (fun j => nucleotide_range words _)) as Hd.
  unfold digits in Hd. rewrite wrapu_small.
  - rewrite Z.lor_comm, lor_shiftl_add by lia. lia.
  - unfold in_u. rewrite Z.shiftl_mul_pow2 by lia.
    assert (2 ^ Z.of_nat (n * 2) <= 2 ^ 62) by (apply Z.pow_le_mono_r; lia).
    pose proof (Z.pow_pos_nonneg 2 (Z.of_nat (n * 2)) ltac:(lia) ltac:(lia)). nia.
Qed.

Lemma window_occurs haystack needle i :
  (SIZE_NEEDLE <= 32)%nat -> (window haystack i =? window needle 0) = occurs haystack needle i.
Proof.
  intros Hle. rewrite !window_spec by done. apply Bool.eq_iff_eq_true. rewrite Z.eqb_eq. unfold occurs.
  rewrite forallb_forall. split.
  - intros Heq j Hj%in_seq. apply Z.eqb_eq.
    exact (digits_inj SIZE_NEEDLE _ _ (fun j => nucleotide_range _ _) (fun j => nucleotide_range _ _) Heq j ltac:(lia)).
  - intros Hall. apply zsum_ext. intros j Hj. f_equal. apply Z.eqb_eq, Hall, in_seq. lia.
Qed.

(** Counting loops that compare everything decide that all is equal. *)
Lemma count_matches n (p : nat -> bool) t c :
  let '(t', c') := for_up 0 n (fun k '(t, c) => (t + 1, c + b2z (p k))) (t, c) in
  c' - c <= t' - t /\ (c' - c =? t' - t) = forallb p (seq 0 n).
Proof.
  induction n as [|n IH]; [cbn; rewrite !Z.sub_diag; by split|].
  rewrite for_up_last by lia. destruct (for_up 0 n _ (t, c)) as [t' c']. destruct IH as [Hle Heq].
  rewrite seq_S, forallb_app, <- Heq. cbn [forallb Nat.add]. destruct (p n); cbn [b2z andb].
  - split; [lia|]. rewrite !andb_true_r. bool_cases; try done; lia.
  - split; [lia|]. rewrite andb_false_r. bool_cases; try done; lia.
Qed.

Lemma count_matches2 n (p : nat -> nat -> bool) t c :
  let '(t', c') := for_up 0 n (fun j s => for_up 0 2 (fun k '(t, c) => (t + 1, c + b2z (p j k))) s) (t, c) in
  c' - c <= t' - t /\ (c' - c =? t' - t) = forallb (fun j => p j 0%nat && p j 1%nat) (seq 0 n).
Proof.
  induction n as [|n IH]; [cbn; rewrite !Z.sub_diag; by split|].
  rewrite for_up_last by lia. destruct (for_up 0 n _ (t, c)) as [t' c']. destruct IH as [Hle Heq].
  rewrite seq_S, forallb_app, <- Heq. unfold for_up. cbn [foldl seq Nat.sub forallb Nat.add].
  destruct (p n 0%nat), (p n 1%nat); cbn [b2z andb]; rewrite ?andb_true_r, ?andb_false_r;
    (split; [lia|]); bool_cases; try done; lia.
Qed.

(** ** The mappers find last occurrences *)

(** What the configured mapper returns. *)
Definition occurrences (haystack : list Z) (needles : list (list Z)) : list Z :=
  tabulate NUM_NEEDLES (fun needle =>
    last_such (SIZE_HAYSTACK - (SIZE_NEEDLE - 1)) (occurs haystack (needles !!! needle))).

Lemma map_std_spec haystack needles position ints :
  (SIZE_NEEDLE <= 32)%nat -> (SIZE_NEEDLE <= SIZE_HAYSTACK)%nat ->
  length position = NUM_NEEDLES -> length ints = NUM_NEEDLES ->
  map_std haystack needles position ints = Ok [occurrences haystack needles].
Proof.
  intros Hn Hh Hp Hi. unfold map_std.
  destruct (Nat.ltb_spec 32 SIZE_NEEDLE); [lia|]. destruct (Nat.ltb_spec SIZE_HAYSTACK SIZE_NEEDLE); [lia|].
  rewrite (for_up_pair 0 NUM_NEEDLES (fun needle position => <[needle := -1]> position)
    (fun needle ints => <[needle := window (needles !!! needle) 0]> ints)).
  rewrite (for_up_pointwise NUM_NEEDLES (fun needle _ => window (needles !!! needle) 0)).
  assert (imap (fun j x => if (j <? NUM_NEEDLES)%nat then window (needles !!! j) 0 else x) ints
    = tabulate NUM_NEEDLES (fun j => window (needles !!! j) 0)) as ->.
  { rewrite <- (imap_const (fun j => window (needles !!! j) 0) ints NUM_NEEDLES Hi). apply imap_ext.
    intros j x Hj%lookup_lt_Some. by destruct (Nat.ltb_spec j NUM_NEEDLES); [|lia]. }
  cbv zeta. do 2 f_equal.
  rewrite (record_matches _ (fun i needle => window haystack i =? tabulate NUM_NEEDLES (fun j => window (needles !!! j) 0) !!! needle))
    by done.
  apply tabulate_ext. intros j Hj. apply last_such_ext. intros i _. rewrite tabulate_lookup by done. by apply window_occurs.
Qed.

(** The configured mapper returns, for every needle, the last position
    of the haystack at which its nucleotides occur, or -1 when there is
    none; a needle longer than a word or than the haystack is refused. *)
Theorem substring_map_correct haystack needles position ints needle :
  length position = NUM_NEEDLES -> length ints = NUM_NEEDLES -> (needle < NUM_NEEDLES)%nat ->
  if (32 <? SIZE_NEEDLE)%nat || (SIZE_HAYSTACK <? SIZE_NEEDLE)%nat
  then map_std haystack needles position ints = Fault
  else exists out, map_std haystack needles position ints = Ok [out] /\
    let occurs_at i := forall j, (j < SIZE_NEEDLE)%nat ->
      nucleotide haystack (i + j) = nucleotide (needles !!! needle) j in
    let last := (SIZE_HAYSTACK - (SIZE_NEEDLE - 1))%nat in
    (out !!! needle = -1 /\ (forall i, (i < last)%nat -> ~ occurs_at i)) \/
    (exists i, (i < last)%nat /\ out !!! needle = Z.of_nat i /\ occurs_at i /\
       forall k, (i < k < last)%nat -> ~ occurs_at k).
Proof.
  intros Hp Hi Hneedle.
  destruct (Nat.ltb_spec 32 SIZE_NEEDLE) as [Hn|Hn]; cbn [orb].
  { unfold map_std. by destruct (Nat.ltb_spec 32 SIZE_NEEDLE); [|lia]. }
  destruct (Nat.ltb_spec SIZE_HAYSTACK SIZE_NEEDLE) as [Hh|Hh].
  { unfold map_std. destruct (Nat.ltb_spec 32 SIZE_NEEDLE); [lia|].
    by destruct (Nat.ltb_spec SIZE_HAYSTACK SIZE_NEEDLE); [|lia]. }
  exists (occurrences haystack needles). split; [by apply map_std_spec|].
  assert (forall i, occurs haystack (needles !!! needle) i = true <->
    forall j, (j < SIZE_NEEDLE)%nat -> nucleotide haystack (i + j) = nucleotide (needles !!! needle) j) as Hocc.
  { intros i. unfold occurs. rewrite forallb_forall. split.
    - intros Hall j Hj. apply Z.eqb_eq, Hall, in_seq. lia.
    - intros Hall j Hj%in_seq. apply Z.eqb_eq, Hall. lia. }
  assert (forall i, occurs haystack (needles !!! needle) i = false ->
    ~ forall j, (j < SIZE_NEEDLE)%nat -> nucleotide haystack (i + j) = nucleotide (needles !!! needle) j) as Hnot.
  { intros i Hf Hall. apply Hocc in Hall. congruence. }
  cbv zeta. unfold occurrences. rewrite tabulate_lookup by done.
  destruct (last_such_spec (SIZE_HAYSTACK - (SIZE_NEEDLE - 1)) (occurs haystack (needles !!! needle)))
    as [[-> Hno]|(i & Hlt & -> & Ho & Hlast)].
  - left. split; [done|]. intros i Hlt. apply Hnot. by apply Hno.
  - right. exists i. split; [done|]. split; [done|]. split; [by apply Hocc|]. intros k Hk. apply Hnot. by apply Hlast.
Qed.

Definition bits_occur (bits_h bits_n : list bool) (i : nat) : bool :=
  forallb (fun j => Bool.eqb (bits_n !!! (j * 2 + 0)%nat) (bits_h !!! ((i + j) * 2 + 0)%nat) &&
                    Bool.eqb (bits_n !!! (j * 2 + 1)%nat) (bits_h !!! ((i + j) * 2 + 1)%nat)) (seq 0 SIZE_NEEDLE).

Lemma map_boolean_spec bits_h bits_n position :
  length position = NUM_NEEDLES ->
  map_boolean bits_h bits_n position
  = [tabulate NUM_NEEDLES (fun needle =>
       last_such (SIZE_HAYSTACK - (SIZE_NEEDLE - 1)) (bits_occur bits_h (bits_n !!! needle)))].
Proof.
  intros Hp. unfold map_boolean. f_equal.
  rewrite <- (record_matches _ (fun i needle => bits_occur bits_h (bits_n !!! needle) i) position Hp).
  apply for_up_ext. intros i s Hlt. apply for_up_ext. intros needle s' Hne.
  pose proof (count_matches2 SIZE_NEEDLE (fun j k =>
    Bool.eqb ((bits_n !!! needle) !!! (j * 2 + k)%nat) (bits_h !!! ((i + j) * 2 + k)%nat)) 0 0) as Hc.
  cbv beta in Hc. destruct (for_up 0 SIZE_NEEDLE _ (0, 0)) as [t c]. destruct Hc as [_ Hc].
  rewrite !Z.sub_0_r in Hc. rewrite Hc. done.
Qed.

(** [bits] holds the nucleotides of [words], two bits each, low bit first. *)
Definition unpacks (n : nat) (bits : list bool) (words : list Z) : Prop :=
  forall i, (i < n)%nat -> b2z (bits !!! (i * 2 + 0)%nat) + 2 * b2z (bits !!! (i * 2 + 1)%nat) = nucleotide words i.

Lemma two_bits a b a' b' :
  Bool.eqb a' a && Bool.eqb b' b = (b2z a + 2 * b2z b =? b2z a' + 2 * b2z b').
Proof. by destruct a, b, a', b'. Qed.

(** The implementation on separate bits and the one on packed words
    return the same positions. *)
Theorem substring_boolean_std bits_h bits_n haystack needles position position' ints :
  (SIZE_NEEDLE <= 32)%nat -> (SIZE_NEEDLE <= SIZE_HAYSTACK)%nat ->
  length position = NUM_NEEDLES -> length position' = NUM_NEEDLES -> length ints = NUM_NEEDLES ->
  unpacks SIZE_HAYSTACK bits_h haystack ->
  (forall j, (j < NUM_NEEDLES)%nat -> unpacks SIZE_NEEDLE (bits_n !!! j) (needles !!! j)) ->
  map_std haystack needles position' ints = Ok (map_boolean bits_h bits_n position).
Proof.
  intros Hn Hh Hp Hp' Hi Huh Hun. rewrite map_std_spec, map_boolean_spec by done. unfold occurrences.
  do 2 f_equal. apply tabulate_ext. intros needle Hne. apply last_such_ext. intros i Hlt.
  unfold occurs, bits_occur. apply Bool.eq_iff_eq_true. rewrite !forallb_forall.
  apply forall_proper. intros j. split; intros Hall Hj; specialize (Hall Hj); apply in_seq in Hj; revert Hall;
    rewrite two_bits, (Huh (i + j)%nat), (Hun needle Hne j) by lia; done.
Qed.

(** The word-aligned implementation: last equal run of whole words. *)
Definition words_occur (haystack needle : list Z) (i : nat) : bool :=
  forallb (fun k => needle !!! k =? haystack !!! (i + k)%nat) (seq 0 SIZE_NEEDLE_INTS).

(** The word-aligned implementation returns the last word position at
    which the words of the needle occur. *)
Theorem substring_word_aligned_correct haystack needles position needle :
  length position = NUM_NEEDLES -> (needle < NUM_NEEDLES)%nat ->
  exists out, map_word_aligned haystack needles position = [out] /\
    out !!! needle = last_such (SIZE_HAYSTACK_INTS - (SIZE_NEEDLE_INTS - 1)) (words_occur haystack (needles !!! needle)).
Proof.
  intros Hp Hne. unfold map_word_aligned. eexists. split; [reflexivity|].
  pose proof (record_matches (SIZE_HAYSTACK_INTS - (SIZE_NEEDLE_INTS - 1))
    (fun i needle => words_occur haystack (needles !!! needle) i) position Hp) as Hrec.
  erewrite for_up_ext; [rewrite Hrec; by rewrite tabulate_lookup|].
  intros i s Hlt. apply for_up_ext. intros j s' Hj.
  pose proof (count_matches SIZE_NEEDLE_INTS (fun k => (needles !!! j) !!! k =? haystack !!! (i + k)%nat) 0 0) as Hc.
  cbv beta in Hc. destruct (for_up 0 SIZE_NEEDLE_INTS _ (0, 0)) as [t c]. destruct Hc as [_ Hc].
  rewrite !Z.sub_0_r in Hc. rewrite Z.eqb_sym, Hc. done.
Qed.

(** ** The job *)

(** The answer of the last mapper that found something. *)
Definition last_found (n : nat) (found : nat -> Z) : Z :=
  for_up 0 n (fun i position => if negb (found i =? -1) then found i else position) (-1).

Lemma last_found_spec n found :
  (last_found n found = -1 /\ forall m, (m < n)%nat -> found m = -1) \/
  (exists m, (m < n)%nat /\ last_found n found = found m /\ found m <> -1 /\ forall k, (m < k < n)%nat -> found k = -1).
Proof.
  unfold last_found. induction n as [|n IH]; [left; split; [done|lia]|].
  rewrite for_up_last by lia. destruct (Z.eqb_spec (found n) (-1)) as [Hf|Hf]; cbn [negb].
  - destruct IH as [[-> Hno]|(m & Hm & -> & Hfm & Hlast)].
    + left. split; [done|]. intros m Hm. destruct (decide (m = n)) as [->|]; [done|apply Hno; lia].
    + right. exists m. split; [lia|]. split; [done|]. split; [done|]. intros k Hk.
      destruct (decide (k = n)) as [->|]; [done|apply Hlast; lia].
  - right. exists n. split; [lia|]. split; [done|]. split; [done|]. lia.
Qed.

Lemma found_reduce_spec input position :
  length position = NUM_NEEDLES ->
  reduce input position = tabulate NUM_NEEDLES (fun j => last_found NUM_MAPPERS (fun m => (input !!! m) !!! j)).
Proof.
  intros Hlen. unfold reduce. cbv zeta.
  rewrite (for_up_pointwise NUM_NEEDLES (fun _ _ => -1)).
  assert (imap (fun j x => if (j <? NUM_NEEDLES)%nat then -1 else x) position = tabulate NUM_NEEDLES (fun _ => -1)) as ->.
  { rewrite <- (imap_const (fun _ => -1) position NUM_NEEDLES Hlen). apply imap_ext.
    intros j x Hj%lookup_lt_Some. by destruct (Nat.ltb_spec j NUM_NEEDLES); [|lia]. }
  unfold last_found. generalize NUM_MAPPERS. intros n. induction n as [|n IH]; [by rewrite for_up_done by lia|].
  rewrite for_up_last, IH by lia.
  rewrite (for_up_ext _ _ _ (fun j position =>
    <[j := if negb ((input !!! n) !!! j =? -1) then (input !!! n) !!! j else position !!! j]> position)).
  - rewrite (for_up_pointwise NUM_NEEDLES (fun j x => if negb ((input !!! n) !!! j =? -1) then (input !!! n) !!! j else x)).
    rewrite imap_tabulate. apply tabulate_ext. intros j Hj. rewrite for_up_last by lia.
    by destruct (Nat.ltb_spec j NUM_NEEDLES); [|lia].
  - intros j s Hj. destruct ((input !!! n) !!! j =? -1); cbn [negb]; [|done].
    destruct (decide (j < length s)%nat) as [Hs|Hs].
    + symmetry. apply list_insert_id. by apply list_lookup_lookup_total_lt.
    + by rewrite list_insert_ge by lia.
Qed.

(** The job returns, for every needle, the last occurrence in the last
    haystack that has one, as a position within that haystack, and -1 when
    no haystack has one. *)
Theorem substring_job_correct {BS : BlockStore block} {BSL : BlockStoreLaws block}
    (ins : list (list Z * list (list Z))) position ints position_r :
  (SIZE_NEEDLE <= 32)%nat -> (SIZE_NEEDLE <= SIZE_HAYSTACK)%nat ->
  length ins = NUM_MAPPERS -> length position = NUM_NEEDLES -> length ints = NUM_NEEDLES -> length position_r = NUM_NEEDLES ->
  let found m needle := last_such (SIZE_HAYSTACK - (SIZE_NEEDLE - 1))
    (occurs (ins !!! m).1 ((ins !!! m).2 !!! needle)) in
  job_computes (BS := BS) NUM_MAPPERS 1
    (fun server needles => match server with Some haystack => map_std haystack needles position ints | None => Fault end)
    (fun cs => Ok (reduce cs position_r)) ((fun i => (Some i.1, i.2)) <$> ins)
    [tabulate NUM_NEEDLES (fun needle => last_found NUM_MAPPERS (fun m => found m needle))].
Proof.
  intros Hn Hh Hlen Hp Hi Hpr found.
  match goal with |- job_computes _ _ _ _ _ [?r] =>
    apply (job_computes_intro NUM_MAPPERS 1 _ _ _ ((fun i => [occurrences i.1 i.2]) <$> ins) (fun _ => r)) end.
  - by rewrite length_fmap.
  - apply Forall2_fmap_l, Forall2_fmap_r, Forall_Forall2_diag, Forall_forall.
    intros i _. split; [cbn; by rewrite map_std_spec|done].
  - intros r Hr. replace r with O by lia. f_equal. rewrite found_reduce_spec by done.
    apply tabulate_ext. intros needle Hne. unfold last_found. apply for_up_ext. intros m s Hm.
    assert ((column ((fun i => [occurrences i.1 i.2]) <$> ins) 0 !!! m) !!! needle = found m needle) as ->; [|done].
    destruct (lookup_lt_is_Some_2 ins m) as [i Hx]; [lia|].
    unfold found. rewrite (list_lookup_total_correct _ _ _ Hx).
    rewrite (list_lookup_total_correct _ m (occurrences i.1 i.2)).
    + unfold occurrences. by rewrite tabulate_lookup.
    + unfold column. by rewrite !list_lookup_fmap, Hx.
Qed.

End Substring.

(** Needle GATA (2, 0, 1, 0 as numbers) in a haystack of eight nucleotides. *)
Lemma substring_map_witness :
  exists out, map_std 1 4 8 [0x4848] [[0x48 / 4]] [0] [0] = Ok [out] /\
    let occurs_at i := forall j, (j < 4)%nat -> nucleotide [0x4848] (i + j) = nucleotide ([[0x48 / 4]] !!! 0%nat) j in
    let last := (8 - (4 - 1))%nat in
    (out !!! 0%nat = -1 /\ (forall i, (i < last)%nat -> ~ occurs_at i)) \/
    (exists i, (i < last)%nat /\ out !!! 0%nat = Z.of_nat i /\ occurs_at i /\ forall k, (i < k < last)%nat -> ~ occurs_at k).
Proof. apply (substring_map_correct 1 4 8 [0x4848] [[0x48 / 4]] [0] [0] 0); [reflexivity|reflexivity|lia]. Defined.

Lemma substring_boolean_std_witness :
  map_std 1 2 4 [0xB4] [[0xD]] [0] [0]
  = Ok (map_boolean 1 2 4 [false; false; true; false; true; true; false; true] [[true; false; true; true]] [0]).
Proof.
  apply (substring_boolean_std 1 2 4); [lia|lia|reflexivity|reflexivity|reflexivity| |].
  - intros [|[|[|[|i]]]] Hi; first [reflexivity|lia].
  - intros [|j] Hj; [|lia]. intros [|[|i]] Hi; first [reflexivity|lia].
Defined.

Lemma substring_word_aligned_witness :
  exists out, map_word_aligned 1 40 100 [1; 2; 1; 2] [[1; 2]] [0] = [out] /\
    out !!! 0%nat = last_such (SIZE_HAYSTACK_INTS 100 - (SIZE_NEEDLE_INTS 40 - 1)) (words_occur 40 [1; 2; 1; 2] ([[1; 2]] !!! 0%nat)).
Proof. apply (substring_word_aligned_correct 1 40 100); [reflexivity|lia]. Defined.

Lemma substring_job_witness :
  job_computes (BS := LogStore _) 2 1
    (fun server needles => match server with Some haystack => map_std 1 2 4 haystack needles [0] [0] | None => Fault end)
    (fun cs => Ok (reduce 1 2 cs [0])) ((fun i => (Some i.1, i.2)) <$> [([0xB4], [[0xD]]); ([0x0], [[0xD]])]) [[1]].
Proof.
  apply (substring_job_correct (BS := LogStore _) 1 2 4 2 [([0xB4], [[0xD]]); ([0x0], [[0xD]])] [0] [0] [0]);
    first [lia|reflexivity].
Defined.
