(* ===== verification/Genotyper.v ===== *)
(** The genotyper of [pepper/apps/mr_genotyper]: from the reads piled up at
    a locus, the most likely of the ten diploid genotypes and how far it is
    ahead of the second.

    Likelihoods are fixed-point logarithms of type [fix_t], 32-bit integers.
    The numbers of loci and of mappers are parameters; a local array that is
    read before it is written ([likelihood], for a reference base that is no
    nucleotide) holds [likelihood0]. *)
From Stdlib Require Import ZArith Lia.
From stdpp Require Import base numbers list.
From S2P Require Import Prelude BlockStore MapReduce Arith.

Local Open Scope Z_scope.

(** ** Data *)

Definition FIX_T_MIN : Z := -2147483648.
Definition MAX_SIZE_PILEUP : nat := 8.
Definition NUM_GENOTYPES : nat := 10.

Definition A : Z := 0.
Definition T : Z := A + 1.
Definition G : Z := T + 1.
Definition C : Z := G + 1.

Definition GENOTYPES : list (Z * Z) :=
  [(A, A); (A, C); (A, G); (A, T); (C, C); (C, G); (C, T); (G, G); (G, T); (T, T)].

Record nucleotide_read := { quality : Z; base : Z }.
Record single_locus_genotype_call := { call : Z; call_quality : Z }.
Record MapperIn := { refseq : list Z; data : list (list nucleotide_read) }.
Record top_two_calls := { best_call : Z; qual_best_call : Z; qual_second_best_call : Z }.

#[export] Instance nucleotide_read_inhabited : Inhabited nucleotide_read := populate {| quality := 0; base := 0 |}.
#[export] Instance genotype_call_inhabited : Inhabited single_locus_genotype_call := populate {| call := 0; call_quality := 0 |}.

Definition matching_penalties : list Z :=
  [
   -1; -1; -1; -45011; -41190; -37821; -28371; -35263; -44375; -19795; -31301; -50928;
   -14448; -28506; -57482; -10818; -26466; -64036; -8232; -24944; -70589; -6333; -23790; -77143;
   -4910; -22906; -83696; -3829; -22222; -90250; -2998; -21691; -96804; -2355; -21276; -103357;
   -1854; -20950; -109911; -1462; -20695; -116464; -1155; -20493; -123018; -914; -20334; -129572;
   -723; -20208; -136125; -573; -20108; -142679; -454; -20030; -149232; -360; -19967; -155786;
   -285; -19918; -162340; -226; -19878; -168893; -179; -19847; -175447; -142; -19823; -182000;
   -113; -19803; -188554; -89; -19787; -195108; -71; -19775; -201661; -56; -19765; -208215;
   -44; -19757; -214768; -35; -19751; -221322; -27; -19746; -227876; -22; -19742; -234429;
   -17; -19739; -240983; -13; -19737; -247536; -10; -19735; -254090; -8; -19733; -260644;
   -6; -19732; -267197; -5; -19731; -273751; -4; -19730; -280304; -3; -19730; -286858;
   -2; -19729; -293412; -1; -19729; -299965; -1; -19728; -306519; 0; -19728; -313072;
   0; -19728; -319626; 0; -19728; -326180; 0; -19728; -332733; 0; -19728; -339287;
   0; -19728; -345840; 0; -19728; -352394; 0; -19727; -358948; 0; -19727; -365501;
   0; -19727; -372055; 0; -19727; -378608; 0; -19727; -385162; 0; -19727; -391716;
   0; -19727; -398269; 0; -19727; -404823; 0; -19727; -411376; 0; -19727; -417930;
   0; -19727; -424484; 0; -19727; -431037; 0; -19727; -437591; 0; -19727; -444144;
   0; -19727; -450698; 0; -19727; -457252; 0; -19727; -463805; 0; -19727; -470359;
   0; -19727; -476912; 0; -19727; -483466; 0; -19727; -490020; 0; -19727; -496573;
   0; -19727; -503127; 0; -19727; -509680; 0; -19727; -516234; 0; -19727; -522788;
   0; -19727; -529341; 0; -19727; -535895; 0; -19727; -542448; 0; -19727; -549002].

Definition reference_priors_lut : list (list Z) :=
  [ [-42; -228162; -228162; -228162; -247604; -358948; -358948; -247604; -358948; -247604];
    [-247604; -358948; -358948; -228162; -247604; -358948; -228162; -247604; -228162; -42];
    [-247604; -358948; -228162; -358948; -247604; -228162; -358948; -42; -228162; -247604];
    [-247604; -228162; -358948; -358948; -42; -228162; -228162; -247604; -358948; -247604] ].

(** ** The code *)

(** [for (i = 10; i <= 70; i += 10)] *)
Definition q_base_given_genotype (phred : Z) (mismatchA mismatchB : bool) : Z :=
  for_up 1 8
    (fun k toRet =>
       let i := (10 * k)%nat in
       let penalty :=
         if Z.of_nat i =? phred
         then if mismatchA
              then if mismatchB then matching_penalties !!! (i * 3 + 2)%nat else matching_penalties !!! (i * 3 + 1)%nat
              else if mismatchB then matching_penalties !!! (i * 3 + 1)%nat else matching_penalties !!! (i * 3 + 0)%nat
         else 0 in
       s32 (toRet + penalty)) 0.

Definition getReferencePolarizedPriors (priors : list Z) (ref : Z) : list Z :=
  for_up 0 4
    (fun i priors =>
       if Z.of_nat i =? ref
       then for_up 0 NUM_GENOTYPES (fun j priors => <[j := (reference_priors_lut !!! i) !!! j]> priors) priors
       else priors) priors.

Definition consider_possibility (caller : top_two_calls) (call likelihood : Z) : top_two_calls :=
  if qual_best_call caller <? likelihood
  then {| best_call := call; qual_best_call := likelihood; qual_second_best_call := qual_best_call caller |}
  else if qual_second_best_call caller <? likelihood
       then {| best_call := best_call caller; qual_best_call := qual_best_call caller; qual_second_best_call := likelihood |}
       else caller.

(** What one read adds to the likelihood of genotype [j]. *)
Definition add_read (j : nat) (read : nucleotide_read) (likelihood : list Z) : list Z :=
  let qual := u8 (quality read - quality read mod 10) in
  if negb (qual =? 0)
  then <[j := s32 (likelihood !!! j + q_base_given_genotype qual
                     (negb (base read =? (GENOTYPES !!! j).1)) (negb (base read =? (GENOTYPES !!! j).2)))]> likelihood
  else likelihood.

Section Sizes.
Context (NUM_LOCI_PER_MAPPER NUM_MAPPERS : nat).

Definition map (likelihood0 : list Z) (mapper_input : MapperIn) (calls : list single_locus_genotype_call)
    : list (list single_locus_genotype_call) :=
  [for_up 0 NUM_LOCI_PER_MAPPER
     (fun i calls =>
        let caller := {| best_call := 0; qual_best_call := FIX_T_MIN; qual_second_best_call := FIX_T_MIN |} in
        let ref := refseq mapper_input !!! i in
        let likelihood := getReferencePolarizedPriors likelihood0 ref in
        let '(likelihood, caller) :=
          for_up 0 NUM_GENOTYPES
            (fun j '(likelihood, caller) =>
               let likelihood :=
                 for_up 0 MAX_SIZE_PILEUP (fun u => add_read j ((data mapper_input !!! i) !!! u)) likelihood in
               (likelihood, consider_possibility caller (Z.of_nat j) (likelihood !!! j))) (likelihood, caller) in
        <[i := {| call := best_call caller;
                  call_quality := s32 (qual_best_call caller - qual_second_best_call caller) |}]> calls) calls].

Definition reduce (input : list (list single_locus_genotype_call)) (calls : list single_locus_genotype_call)
    : list single_locus_genotype_call :=
  fst (for_up 0 NUM_MAPPERS
         (fun i s => for_up 0 NUM_LOCI_PER_MAPPER
            (fun j '(calls, outp) => (<[outp := (input !!! i) !!! j]> calls, S outp)) s) (calls, O)).

End Sizes.

(** ** Penalties *)

(** What a read says about genotype [j]: the table entry of its truncated
    quality and its number of mismatches, nothing outside 10 .. 70. *)
Definition read_score (j : nat) (read : nucleotide_read) : Z :=
  let q := 10 * (quality read / 10) in
  if (10 <=? q) && (q <=? 70)
  then matching_penalties !!! Z.to_nat (q * 3 + b2z (negb (base read =? (GENOTYPES !!! j).1))
                                             + b2z (negb (base read =? (GENOTYPES !!! j).2)))
  else 0.

Lemma q_base_spec (phred : Z) (mA mB : bool) :
  phred mod 10 = 0 ->
  q_base_given_genotype phred mA mB
  = if (10 <=? phred) && (phred <=? 70) then matching_penalties !!! Z.to_nat (phred * 3 + b2z mA + b2z mB) else 0.
Proof.
  intros Hmod.
  destruct (Z.leb_spec 10 phred), (Z.leb_spec phred 70); cbn [andb].
  - assert (phred = 10 \/ phred = 20 \/ phred = 30 \/ phred = 40 \/ phred = 50 \/ phred = 60 \/ phred = 70) as Hp
      by (Z.to_euclidean_division_equations; lia).
    destruct Hp as [->|[->|[->|[->|[->|[->| ->]]]]]]; destruct mA, mB; reflexivity.
  - apply (for_up_ind (fun _ r => r = 0)); [lia|done|]. intros k s Hk ->.
    cbv zeta. destruct (Z.eqb_spec (Z.of_nat (10 * k)) phred); [lia|done].
  - apply (for_up_ind (fun _ r => r = 0)); [lia|done|]. intros k s Hk ->.
    cbv zeta. destruct (Z.eqb_spec (Z.of_nat (10 * k)) phred); [lia|done].
  - lia.
Qed.

(** Bound of the table and of the priors. *)
Definition LEAST : Z := -549002.

Lemma table_bound l i :
  (i < length l)%nat -> forallb (fun x => (LEAST <=? x) && (x <=? 0)) l = true -> LEAST <= l !!! i <= 0.
Proof.
  intros Hi Hl. destruct (lookup_lt_is_Some_2 l i Hi) as [x Hx]. rewrite (list_lookup_total_correct _ _ _ Hx).
  rewrite forallb_forall in Hl. specialize (Hl x).
  assert (In x l) as Hin by (apply list_elem_of_In; by eapply list_elem_of_lookup_2).
  specialize (Hl Hin). bool_hyps. lia.
Qed.

Lemma read_score_bound j read : LEAST <= read_score j read <= 0.
Proof.
  unfold read_score. destruct (_ && _) eqn:Hq; [|unfold LEAST; lia]. bool_hyps.
  apply table_bound; [|reflexivity]. change (length matching_penalties) with 240%nat.
  destruct (negb (base read =? _)), (negb (base read =? _)); cbn [b2z]; lia.
Qed.

Lemma prior_bound i j : (i < 4)%nat -> (j < NUM_GENOTYPES)%nat -> LEAST <= (reference_priors_lut !!! i) !!! j <= 0.
Proof.
  intros Hi Hj. unfold NUM_GENOTYPES in Hj.
  apply table_bound; destruct i as [|[|[|[|i]]]]; try lia; try reflexivity; exact Hj.
Qed.

Definition well_formed_read (read : nucleotide_read) : Prop := in_u 8 (quality read).

(** Adding a read changes one likelihood, by its score. *)
Lemma add_read_spec j read l :
  well_formed_read read -> (j < length l)%nat -> - 2 ^ 30 <= l !!! j <= 0 ->
  add_read j read l = <[j := l !!! j + read_score j read]> l.
Proof.
  intros Hq Hj Hl. unfold well_formed_read in Hq. pose proof (read_score_bound j read) as Hb. unfold LEAST in Hb.
  unfold add_read. cbv zeta. set (q := 10 * (quality read / 10)).
  assert (quality read - quality read mod 10 = q) as -> by (unfold q; Z.to_euclidean_division_equations; lia).
  rewrite wrapu_small by (unfold q; ranges).
  rewrite q_base_spec by (unfold q; rewrite Z.mul_comm; apply Z_mod_mult).
  set (mA := negb (base read =? _)). set (mB := negb (base read =? _)).
  unfold read_score in *. cbv zeta in *. fold q mA mB in Hb |- *.
  destruct (Z.eqb_spec q 0) as [Hq0|Hq0]; cbn [negb].
  - rewrite Hq0. cbn [Z.leb andb]. change (10 <=? 0) with false. cbn [andb]. rewrite Z.add_0_r. symmetry.
    apply list_insert_id. by apply list_lookup_lookup_total_lt.
  - f_equal. apply wraps_small; [lia|]. unfold in_s. lia.
Qed.

Definition reads_score (j n : nat) (reads : list nucleotide_read) : Z := zsum n (fun u => read_score j (reads !!! u)).

Lemma add_reads_spec j reads l n :
  (n <= MAX_SIZE_PILEUP)%nat -> (forall u, (u < n)%nat -> well_formed_read (reads !!! u)) ->
  (j < length l)%nat -> LEAST <= l !!! j <= 0 ->
  for_up 0 n (fun u => add_read j (reads !!! u)) l = <[j := l !!! j + reads_score j n reads]> l.
Proof.
  intros Hn Hr Hj Hl. unfold reads_score.
  assert (forall k, Z.of_nat k * LEAST <= zsum k (fun u => read_score j (reads !!! u)) <= 0) as Hb.
  { induction k as [|k IH]; cbn [zsum]; [lia|]. pose proof (read_score_bound j (reads !!! k)). lia. }
  induction n as [|n IH].
  - rewrite for_up_done by lia. cbn. rewrite Z.add_0_r. symmetry. apply list_insert_id. by apply list_lookup_lookup_total_lt.
  - rewrite for_up_last, IH by (try lia; intros; apply Hr; lia). specialize (Hb n). unfold MAX_SIZE_PILEUP, LEAST in *.
    rewrite add_read_spec.
    + rewrite list_lookup_total_insert_eq, list_insert_insert_eq by done. cbn [zsum]. f_equal. lia.
    + apply Hr. lia.
    + by rewrite length_insert.
    + rewrite list_lookup_total_insert_eq by done. lia.
Qed.

(** ** The two best *)

Definition no_call : top_two_calls := {| best_call := 0; qual_best_call := FIX_T_MIN; qual_second_best_call := FIX_T_MIN |}.

(** [c] holds the first greatest of [l 0], ..., [l (k - 1)] and the greatest
    of the others. *)
Definition top_two (l : nat -> Z) (k : nat) (c : top_two_calls) : Prop :=
  exists b, (b < k)%nat /\ best_call c = Z.of_nat b /\ qual_best_call c = l b /\
    (forall j, (j < k)%nat -> l j <= l b) /\ (forall j, (j < b)%nat -> l j < l b) /\
    qual_second_best_call c <= l b /\ FIX_T_MIN <= qual_second_best_call c /\
    (forall j, (j < k)%nat -> j <> b -> l j <= qual_second_best_call c) /\
    (qual_second_best_call c = FIX_T_MIN \/ exists j, (j < k)%nat /\ j <> b /\ l j = qual_second_best_call c).

Lemma consider_spec l k :
  (forall j, FIX_T_MIN <= l j) -> (0 < k)%nat ->
  top_two l k (for_up 0 k (fun j c => consider_possibility c (Z.of_nat j) (l j)) no_call).
Proof.
  intros Hmin Hk. destruct k as [|k]; [lia|]. clear Hk. induction k as [|k IH].
  - exists O. unfold for_up. cbn [seq Nat.sub foldl]. unfold consider_possibility, no_call. cbn.
    specialize (Hmin O). destruct (Z.ltb_spec FIX_T_MIN (l O)); cbn.
    + split_and!; try lia; intros j Hj; replace j with O by lia; lia.
    + rewrite Z.ltb_irrefl || idtac. destruct (Z.ltb_spec FIX_T_MIN (l O)); [lia|]. cbn.
      split_and!; try lia; intros j Hj; replace j with O by lia; lia.
  - rewrite for_up_last by lia. destruct IH as (b & Hb & Hbc & Hq & Hmax & Hfirst & Hs1 & Hs2 & Hs3 & Hs4).
    set (c := for_up 0 (S k) _ _) in *. clearbody c. unfold consider_possibility. rewrite Hq.
    destruct (Z.ltb_spec (l b) (l (S k))).
    + exists (S k). cbn. split_and!; try lia.
      * intros j Hj. destruct (decide (j = S k)) as [->|]; [lia|]. specialize (Hmax j ltac:(lia)). lia.
      * intros j Hj. specialize (Hmax j ltac:(lia)). lia.
      * intros j Hj Hne. apply Hmax. lia.
      * right. exists b. split_and!; lia.
    + destruct (Z.ltb_spec (qual_second_best_call c) (l (S k))).
      * exists b. cbn. split_and!; try lia.
        -- intros j Hj. destruct (decide (j = S k)) as [->|]; [lia|]. apply Hmax. lia.
        -- apply Hfirst.
        -- intros j Hj Hne. destruct (decide (j = S k)) as [->|]; [lia|]. specialize (Hs3 j ltac:(lia) Hne). lia.
        -- right. exists (S k). split_and!; lia.
      * exists b. split_and!; try lia.
        -- intros j Hj. destruct (decide (j = S k)) as [->|]; [lia|]. apply Hmax. lia.
        -- apply Hfirst.
        -- intros j Hj Hne. destruct (decide (j = S k)) as [->|]; [lia|]. apply Hs3; lia.
        -- destruct Hs4 as [?|(j & Hj & Hne & Hlj)]; [by left|]. right. exists j. split_and!; lia.
Qed.

(** ** The calls *)

(** The log-likelihood of genotype [j] at a locus. *)
Definition likelihood_of (ref : Z) (reads : list nucleotide_read) (j : nat) : Z :=
  (reference_priors_lut !!! Z.to_nat ref) !!! j + reads_score j MAX_SIZE_PILEUP reads.

Definition well_formed_locus (ref : Z) (reads : list nucleotide_read) : Prop :=
  0 <= ref < 4 /\ forall u, (u < MAX_SIZE_PILEUP)%nat -> well_formed_read (reads !!! u).

(** Both are there for every locus of the model. *)
Definition well_formed_input (n : nat) (i : MapperIn) : Prop :=
  forall l, (l < n)%nat -> well_formed_locus (refseq i !!! l) (data i !!! l).

Lemma likelihood_bound ref reads j :
  0 <= ref < 4 -> (j < NUM_GENOTYPES)%nat -> 9 * LEAST <= likelihood_of ref reads j <= 0.
Proof.
  intros Href Hj. unfold likelihood_of. pose proof (prior_bound (Z.to_nat ref) j ltac:(lia) Hj).
  assert (forall n, Z.of_nat n * LEAST <= reads_score j n reads <= 0) as Hb.
  { unfold reads_score. induction n as [|n IH]; cbn [zsum]; [lia|]. pose proof (read_score_bound j (reads !!! n)). lia. }
  specialize (Hb MAX_SIZE_PILEUP). unfold MAX_SIZE_PILEUP in *. lia.
Qed.

Lemma priors_spec l ref :
  0 <= ref < 4 -> length l = NUM_GENOTYPES ->
  getReferencePolarizedPriors l ref = tabulate NUM_GENOTYPES (fun j => (reference_priors_lut !!! Z.to_nat ref) !!! j).
Proof.
  intros Href Hl. unfold getReferencePolarizedPriors.
  assert (forall i, for_up 0 NUM_GENOTYPES (fun j l => <[j := (reference_priors_lut !!! i) !!! j]> l) l
    = tabulate NUM_GENOTYPES (fun j => (reference_priors_lut !!! i) !!! j)) as Hrow.
  { intros i. rewrite (for_up_pointwise NUM_GENOTYPES (fun j _ => (reference_priors_lut !!! i) !!! j)).
    rewrite <- (imap_const (fun j => (reference_priors_lut !!! i) !!! j) l NUM_GENOTYPES Hl).
    apply imap_ext. intros j x Hj%lookup_lt_Some. by destruct (Nat.ltb_spec j NUM_GENOTYPES); [|lia]. }
  assert (ref = 0 \/ ref = 1 \/ ref = 2 \/ ref = 3) as [->|[->|[->| ->]]] by lia;
    rewrite <- Hrow; reflexivity.
Qed.

(** The decision taken at one locus. *)
Definition decide_locus (ref : Z) (reads : list nucleotide_read) : top_two_calls :=
  for_up 0 NUM_GENOTYPES (fun j c => consider_possibility c (Z.of_nat j) (likelihood_of ref reads j)) no_call.

Definition call_of (ref : Z) (reads : list nucleotide_read) : single_locus_genotype_call :=
  let c := decide_locus ref reads in
  {| call := best_call c; call_quality := s32 (qual_best_call c - qual_second_best_call c) |}.

Lemma genotypes_loop ref reads :
  well_formed_locus ref reads ->
  exists l, for_up 0 NUM_GENOTYPES
    (fun j '(likelihood, caller) =>
       let likelihood := for_up 0 MAX_SIZE_PILEUP (fun u => add_read j (reads !!! u)) likelihood in
       (likelihood, consider_possibility caller (Z.of_nat j) (likelihood !!! j)))
    (tabulate NUM_GENOTYPES (fun j => (reference_priors_lut !!! Z.to_nat ref) !!! j), no_call)
  = (l, decide_locus ref reads).
Proof.
  intros [Href Hreads].
  match goal with |- context [for_up 0 NUM_GENOTYPES ?f (?p, no_call)] =>
    destruct (for_up_ind (fun k s => length s.1 = NUM_GENOTYPES /\
        (forall j, (k <= j < NUM_GENOTYPES)%nat -> s.1 !!! j = (reference_priors_lut !!! Z.to_nat ref) !!! j) /\
        s.2 = for_up 0 k (fun j c => consider_possibility c (Z.of_nat j) (likelihood_of ref reads j)) no_call)
      0 NUM_GENOTYPES f (p, no_call)) as (_ & _ & Hc); [lia| | |]
  end.
  - split; [apply tabulate_length|]. split; [|by rewrite for_up_done]. intros j Hj. cbn [fst]. by rewrite tabulate_lookup by lia.
  - intros k [l c] Hk (Hl & Hp & Hc). cbn [fst snd] in *. cbv zeta.
    pose proof (prior_bound (Z.to_nat ref) k ltac:(lia) ltac:(lia)) as Hb.
    rewrite add_reads_spec; [|lia|done|lia|rewrite Hp by lia; exact Hb]. cbn [fst snd].
    rewrite length_insert, list_lookup_total_insert_eq by lia. split; [done|]. split.
    + intros j Hj. rewrite list_lookup_total_insert_ne by lia. apply Hp. lia.
    + rewrite for_up_last by lia. rewrite <- Hc, Hp by lia. done.
  - destruct (for_up 0 NUM_GENOTYPES _ _) as [l c]. exists l. cbn [snd] in Hc. unfold decide_locus. rewrite <- Hc. exact eq_refl.
Qed.

Section Job.
Context (NUM_LOCI_PER_MAPPER NUM_MAPPERS : nat) (likelihood0 : list Z).

Definition calls_of (i : MapperIn) : list single_locus_genotype_call :=
  tabulate NUM_LOCI_PER_MAPPER (fun l => call_of (refseq i !!! l) (data i !!! l)).

Lemma genotyper_map_spec i calls :
  length likelihood0 = NUM_GENOTYPES -> length calls = NUM_LOCI_PER_MAPPER -> well_formed_input NUM_LOCI_PER_MAPPER i ->
  map NUM_LOCI_PER_MAPPER likelihood0 i calls = [calls_of i].
Proof.
  intros Hl0 Hc Hwf. unfold map. f_equal.
  rewrite (for_up_ext _ _ _ (fun l calls => <[l := call_of (refseq i !!! l) (data i !!! l)]> calls)).
  - rewrite (for_up_pointwise NUM_LOCI_PER_MAPPER (fun l _ => call_of (refseq i !!! l) (data i !!! l))).
    unfold calls_of. rewrite <- (imap_const (fun l => call_of (refseq i !!! l) (data i !!! l)) calls _ Hc).
    apply imap_ext. intros j x Hj%lookup_lt_Some. by destruct (Nat.ltb_spec j NUM_LOCI_PER_MAPPER); [|lia].
  - intros l s Hlt. cbv zeta. destruct (Hwf l ltac:(lia)) as [Href Hr]. rewrite priors_spec by done.
    destruct (genotypes_loop (refseq i !!! l) (data i !!! l)) as [l' Heq]; [done|].
    cbv zeta in Heq. unfold no_call in Heq at 1. rewrite Heq. reflexivity.
Qed.

(** C39: At every locus with a known reference base the mapper calls the
    first genotype of greatest likelihood, prior and scores of the reads
    added up without overflow, and the quality of the call is its lead over
    the best of the other genotypes. *)
Theorem genotyper_map_correct i calls l :
  length likelihood0 = NUM_GENOTYPES -> length calls = NUM_LOCI_PER_MAPPER ->
  well_formed_input NUM_LOCI_PER_MAPPER i -> (l < NUM_LOCI_PER_MAPPER)%nat ->
  exists out b, map NUM_LOCI_PER_MAPPER likelihood0 i calls = [out] /\
    let L := likelihood_of (refseq i !!! l) (data i !!! l) in
    (b < NUM_GENOTYPES)%nat /\ call (out !!! l) = Z.of_nat b /\
    (forall j, (j < NUM_GENOTYPES)%nat -> L j <= L b) /\ (forall j, (j < b)%nat -> L j < L b) /\
    (forall j, (j < NUM_GENOTYPES)%nat -> j <> b -> call_quality (out !!! l) <= L b - L j) /\
    exists j, (j < NUM_GENOTYPES)%nat /\ j <> b /\ call_quality (out !!! l) = L b - L j.
Proof.
  intros Hl0 Hc Hwf Hl. exists (calls_of i). destruct (Hwf l Hl) as [Href Hr].
  set (L := likelihood_of (refseq i !!! l) (data i !!! l)).
  assert (forall j, (j < NUM_GENOTYPES)%nat -> 9 * LEAST <= L j <= 0) as HL by (intros j Hj; by apply likelihood_bound).
  destruct (consider_spec (fun j => if (j <? NUM_GENOTYPES)%nat then L j else 0) NUM_GENOTYPES) as
    (b & Hb & Hbc & Hq & Hmax & Hfirst & Hs1 & Hs2 & Hs3 & Hs4).
  { intros j. destruct (Nat.ltb_spec j NUM_GENOTYPES) as [Hj|]; [specialize (HL j Hj)|]; unfold FIX_T_MIN, LEAST in *; lia. }
  { unfold NUM_GENOTYPES. lia. }
  assert (for_up 0 NUM_GENOTYPES (fun j c => consider_possibility c (Z.of_nat j) (if (j <? NUM_GENOTYPES)%nat then L j else 0)) no_call
    = decide_locus (refseq i !!! l) (data i !!! l)) as Heq.
  { apply for_up_ext. intros j c Hj. by destruct (Nat.ltb_spec j NUM_GENOTYPES); [|lia]. }
  rewrite Heq in *.
  clear Heq. remember (decide_locus (refseq i !!! l) (data i !!! l)) as c eqn:Hdef.
  exists b. split; [by apply genotyper_map_spec|]. intros L'. fold L in L'. unfold L'. clear L'.
  assert (forall j, (j < NUM_GENOTYPES)%nat -> (if (j <? NUM_GENOTYPES)%nat then L j else 0) = L j) as Hif
    by (intros j Hj; by destruct (Nat.ltb_spec j NUM_GENOTYPES); [|lia]).
  rewrite (Hif b Hb) in *. unfold calls_of. rewrite tabulate_lookup by done. unfold call_of. cbv zeta. rewrite <- Hdef. cbn [call call_quality].
  assert (qual_second_best_call c <> FIX_T_MIN) as Hne.
  { assert (exists j, (j < NUM_GENOTYPES)%nat /\ j <> b) as (j & Hj & Hjb).
    { unfold NUM_GENOTYPES in *. destruct (decide (b = 0%nat)) as [->|]; [exists 1%nat|exists 0%nat]; lia. }
    specialize (Hs3 j Hj Hjb). rewrite Hif in Hs3 by done. specialize (HL j Hj). unfold FIX_T_MIN, LEAST in *. lia. }
  pose proof (HL b Hb) as HLb. unfold LEAST in HLb.
  destruct Hs4 as [?|(j & Hj & Hjb & Hlj)]; [done|]. rewrite (Hif j Hj) in Hlj.
  pose proof (HL j Hj) as HLj. unfold LEAST in HLj.
  rewrite Hq, wraps_small by (lia || (unfold in_s; lia)).
  split; [done|]. split; [done|]. split; [intros k Hk; specialize (Hmax k Hk); by rewrite Hif in Hmax|].
  split; [intros k Hk; specialize (Hfirst k Hk); by rewrite Hif in Hfirst by lia|]. split.
  - intros k Hk Hkb. specialize (Hs3 k Hk Hkb). rewrite Hif in Hs3 by done. lia.
  - exists j. split; [done|]. split; [done|]. lia.
Qed.

(** The job returns the calls of all mappers, one after the other. *)
Theorem genotyper_job_correct {BS : BlockStore (block (ServersideIn := Empty_set))} {BSL : BlockStoreLaws _} ins calls calls_r :
  length likelihood0 = NUM_GENOTYPES -> length calls = NUM_LOCI_PER_MAPPER ->
  length calls_r = (NUM_MAPPERS * NUM_LOCI_PER_MAPPER)%nat -> length ins = NUM_MAPPERS ->
  Forall (well_formed_input NUM_LOCI_PER_MAPPER) ins ->
  job_computes (BS := BS) NUM_MAPPERS 1 (fun _ i => Ok (map NUM_LOCI_PER_MAPPER likelihood0 i calls))
    (fun cs => Ok (reduce NUM_LOCI_PER_MAPPER NUM_MAPPERS cs calls_r)) ((fun i => (None, i)) <$> ins)
    [concat (calls_of <$> ins)].
Proof.
  intros Hl0 Hc Hcr Hlen Hwf.
  apply (job_computes_intro NUM_MAPPERS 1 _ _ _ ((fun i => [calls_of i]) <$> ins) (fun _ => concat (calls_of <$> ins))).
  - by rewrite length_fmap.
  - apply Forall2_fmap_l, Forall2_fmap_r, Forall_Forall2_diag.
    eapply Forall_impl; [exact Hwf|]. intros i Hi. split; [cbn; by rewrite genotyper_map_spec|done].
  - intros r Hr. replace r with O by lia. unfold column. rewrite <- list_fmap_compose. unfold reduce. f_equal.
    pose proof (for_up_concat NUM_LOCI_PER_MAPPER (calls_of <$> ins) calls_r) as Hcat.
    rewrite length_fmap, Hlen in Hcat.
    change (((fun o => o !!! 0%nat) ∘ (fun i => [calls_of i])) <$> ins) with (calls_of <$> ins). rewrite Hcat; [done| |done].
    apply Forall_fmap, Forall_forall. intros i _. apply tabulate_length.
Qed.

End Job.

(** A locus with reference base G and eight reads, five of them C. *)
Definition sample : MapperIn :=
  {| refseq := [G];
     data := [[{| quality := 31; base := C |}; {| quality := 25; base := C |}; {| quality := 40; base := C |};
               {| quality := 33; base := C |}; {| quality := 9; base := A |}; {| quality := 20; base := C |};
               {| quality := 47; base := G |}; {| quality := 30; base := G |}]] |}.

Lemma sample_well_formed : well_formed_input 1 sample.
Proof.
  intros [|l] Hl; [|lia]. split; [cbv; split; [discriminate|reflexivity]|].
  intros u Hu. unfold MAX_SIZE_PILEUP in Hu.
  do 8 (destruct u as [|u]; [split; cbn; lia|]). lia.
Qed.

Lemma genotyper_map_witness :
  exists out b, map 1 (replicate 10 0) sample [{| call := 0; call_quality := 0 |}] = [out] /\
    let L := likelihood_of (refseq sample !!! 0%nat) (data sample !!! 0%nat) in
    (b < NUM_GENOTYPES)%nat /\ call (out !!! 0%nat) = Z.of_nat b /\
    (forall j, (j < NUM_GENOTYPES)%nat -> L j <= L b) /\ (forall j, (j < b)%nat -> L j < L b) /\
    (forall j, (j < NUM_GENOTYPES)%nat -> j <> b -> call_quality (out !!! 0%nat) <= L b - L j) /\
    exists j, (j < NUM_GENOTYPES)%nat /\ j <> b /\ call_quality (out !!! 0%nat) = L b - L j.
Proof.
  apply (genotyper_map_correct 1 (replicate 10 0) sample [{| call := 0; call_quality := 0 |}] 0);
    [reflexivity|reflexivity|apply sample_well_formed|lia].
Defined.

(** The call is the genotype CG, the sixth of the list. *)
Example sample_call : call <$> concat (map 1 (replicate 10 0) sample [{| call := 0; call_quality := 0 |}]) = [5].
Proof. vm_compute. reflexivity. Qed.

Lemma genotyper_job_witness :
  job_computes (BS := LogStore _) 1 1 (fun _ i => Ok (map 1 (replicate 10 0) i [{| call := 0; call_quality := 0 |}]))
    (fun cs => Ok (reduce 1 1 cs [{| call := 0; call_quality := 0 |}])) ((fun i => (None : option Empty_set, i)) <$> [sample])
    [concat (calls_of 1 <$> [sample])].
Proof.
  apply (genotyper_job_correct (BS := LogStore _) 1 1 (replicate 10 0) [sample]);
    [reflexivity|reflexivity|reflexivity|reflexivity|].
  apply Forall_cons. split; [apply sample_well_formed|apply Forall_nil; exact I].
Defined.
