(* ===== verification/Lcs.v ===== *)
(** Longest common subsequence: [pepper/apps/dna_align.c].

    The memo is filled backwards; [choices] then leads a walk from the
    origin that marks the characters of the first string that belong to the
    subsequence, and a last pass moves them to the front.  [A_LEN] and
    [B_LEN] are the parameters [m] and [n]. *)
From Stdlib Require Import ZArith Lia.
From stdpp Require Import base numbers list.
From S2P Require Import Prelude.

Local Open Scope Z_scope.

Section Lcs.
Context (m n : nat).

(** ** The code *)

Definition checkIndex2 (i j a b : nat) : bool :=
  (0 <=? i)%nat && (i <? a)%nat && (0 <=? j)%nat && (j <? b)%nat.

Definition memo : Type := list (list Z) * list (list Z).

(** The body of the loops that fill [LL] and [choices]. *)
Definition fill (A B : list Z) (i j : nat) (s : memo) : memo :=
  let '(LL, choices) := s in
  if A !!! i =? B !!! j then
    let diag := if checkIndex2 (i + 1) (j + 1) m n then (LL !!! (i + 1)%nat) !!! (j + 1)%nat else 0 in
    (upd2 LL i j (fun _ => 1 + diag), upd2 choices i j (fun _ => 0))
  else
    let down := if checkIndex2 (i + 1) j m n then (LL !!! (i + 1)%nat) !!! j else 0 in
    let right := if checkIndex2 i (j + 1) m n then (LL !!! i) !!! (j + 1)%nat else 0 in
    if down =? right + 1
    then (upd2 LL i j (fun _ => down), upd2 choices i j (fun _ => 1))
    else (upd2 LL i j (fun _ => right), upd2 choices i j (fun _ => 2)).

(** One step of the walk. *)
Definition walk (A : list Z) (choices : list (list Z)) (i j : nat) (s : list Z * nat * nat) : list Z * nat * nat :=
  let '(LCS, iPtr, jPtr) := s in
  if (i =? iPtr)%nat && (j =? jPtr)%nat then
    if (choices !!! i) !!! j =? 0 then (<[i := A !!! i]> LCS, (iPtr + 1)%nat, (jPtr + 1)%nat)
    else if (choices !!! i) !!! j =? 1 then (LCS, (iPtr + 1)%nat, jPtr)
    else (LCS, iPtr, (jPtr + 1)%nat)
  else (LCS, iPtr, jPtr).

(** One step of the final pass. *)
Definition move (i j : nat) (s : list Z * bool) : list Z * bool :=
  let '(LCS, inserted) := s in
  if (LCS !!! j =? 0) && negb inserted then (<[i := 0]> (<[j := LCS !!! i]> LCS), true)
  else (LCS, inserted).

Definition compute (A B : list Z) (LL choices : list (list Z)) (LCS : list Z) : list Z :=
  let '(LL, choices) := for_down 0 m (fun i => for_down 0 n (fill A B i)) (LL, choices) in
  let '(LCS, _, _) :=
    for_up 0 m
      (fun i '(LCS, iPtr, jPtr) => for_up 0 n (walk A choices i) (<[i := 0]> LCS, iPtr, jPtr)) (LCS, O, O) in
  for_up 1 m (fun i LCS => fst (for_up 0 i (move i) (LCS, false))) LCS.

(** ** Common subsequences *)

(** The length of a longest common subsequence. *)
Fixpoint lcs (a b : list Z) : nat :=
  match a with
  | [] => O
  | x :: a' =>
      (fix inner (b : list Z) : nat :=
         match b with
         | [] => O
         | y :: b' => if x =? y then S (lcs a' b') else Nat.max (lcs a' b) (inner b')
         end) b
  end.

Lemma lcs_cons x a y b :
  lcs (x :: a) (y :: b) = if x =? y then S (lcs a b) else Nat.max (lcs a (y :: b)) (lcs (x :: a) b).
Proof. reflexivity. Qed.

Lemma lcs_nil_r a : lcs a [] = O.
Proof. by destruct a. Qed.

Lemma lcs_cons_r a y b : (lcs a b <= lcs a (y :: b) <= S (lcs a b))%nat.
Proof.
  revert y b. induction a as [|x a IH]; intros y b; [cbn; lia|].
  rewrite lcs_cons. destruct (Z.eqb_spec x y) as [->|Hne].
  - destruct b as [|z b]; [rewrite !lcs_nil_r; lia|]. rewrite lcs_cons.
    pose proof (IH z b). destruct (Z.eqb_spec y z); [lia|].
    split; [|].
    + assert (lcs (y :: a) b <= S (lcs a b))%nat; [|lia].
      clear -IH. induction b as [|w b IHb]; [rewrite lcs_nil_r; lia|].
      rewrite lcs_cons. pose proof (IH w b). destruct (y =? w); lia.
    + lia.
  - pose proof (IH y b) as H1.
    assert (lcs a b <= lcs (x :: a) b)%nat as H2.
    { clear -IH. induction b as [|w b IHb]; [rewrite lcs_nil_r; lia|].
      rewrite lcs_cons. pose proof (IH w b). destruct (x =? w); lia. }
    lia.
Qed.

Lemma lcs_cons_l x a b : (lcs a b <= lcs (x :: a) b <= S (lcs a b))%nat.
Proof.
  induction b as [|w b IHb]; [rewrite !lcs_nil_r; lia|].
  rewrite lcs_cons. pose proof (lcs_cons_r a w b). destruct (x =? w); lia.
Qed.

(** No common subsequence is longer. *)
Lemma lcs_max s a b : sublist s a -> sublist s b -> (length s <= lcs a b)%nat.
Proof.
  intros Ha. revert b. induction Ha as [|x s a Ha IH|x s a Ha IH]; intros b Hb; [cbn; lia| |].
  - remember (x :: s) as xs eqn:Hxs. induction Hb as [|y s' b Hb IHb|y s' b Hb IHb]; [done| |].
    + injection Hxs as -> ->. rewrite lcs_cons, Z.eqb_refl. cbn [length]. specialize (IH b Hb). lia.
    + specialize (IHb Hxs). pose proof (lcs_cons_r (x :: a) y b). lia.
  - specialize (IH b Hb). pose proof (lcs_cons_l x a b). lia.
Qed.

(** ** The memo *)

Section Strings.
Context (A B : list Z) (HA : length A = m) (HB : length B = n).

(** What remains from position [i] of the one and [j] of the other. *)
Definition rest (i j : nat) : nat := lcs (drop i A) (drop j B).

Lemma rest_done i j : (m <= i)%nat \/ (n <= j)%nat -> rest i j = O.
Proof.
  intros [Hi|Hj]; unfold rest; [by rewrite drop_ge by lia|].
  rewrite (drop_ge B) by lia. apply lcs_nil_r.
Qed.

Lemma drop_head (l : list Z) i : (i < length l)%nat -> drop i l = l !!! i :: drop (S i) l.
Proof. intros Hi. apply drop_S. by apply list_lookup_lookup_total_lt. Qed.

Lemma rest_step i j :
  (i < m)%nat -> (j < n)%nat ->
  rest i j = if A !!! i =? B !!! j then S (rest (S i) (S j)) else Nat.max (rest (S i) j) (rest i (S j)).
Proof.
  intros Hi Hj. unfold rest. rewrite (drop_head A i), (drop_head B j) by lia. apply lcs_cons.
Qed.

(** Moving down costs at most one character. *)
Lemma rest_down i j : (i < m)%nat -> (j < n)%nat -> (rest (S i) j <= S (rest i (S j)))%nat.
Proof.
  intros Hi Hj. unfold rest. rewrite (drop_head A i), (drop_head B j) by lia.
  pose proof (lcs_cons_r (drop (S i) A) (B !!! j) (drop (S j) B)).
  pose proof (lcs_cons_l (A !!! i) (drop (S i) A) (drop (S j) B)). lia.
Qed.

Definition choice (i j : nat) : Z :=
  if A !!! i =? B !!! j then 0
  else if (rest (S i) j =? rest i (S j) + 1)%nat then 1 else 2.

(** The memo is right at [(i, j)]. *)
Definition right_at (s : memo) (i j : nat) : Prop :=
  (s.1 !!! i) !!! j = Z.of_nat (rest i j) /\ (s.2 !!! i) !!! j = choice i j.

Lemma checkIndex2_spec i j : checkIndex2 i j m n = (i <? m)%nat && (j <? n)%nat.
Proof. unfold checkIndex2. cbn. by rewrite andb_true_r. Qed.

(** A neighbour is read, or is outside and counts as zero. *)
Lemma neighbour (LL choices : list (list Z)) i j :
  ((i < m)%nat -> (j < n)%nat -> right_at (LL, choices) i j) ->
  (if checkIndex2 i j m n then (LL !!! i) !!! j else 0) = Z.of_nat (rest i j).
Proof.
  intros Hs. rewrite checkIndex2_spec. destruct (Nat.ltb_spec i m), (Nat.ltb_spec j n); cbn [andb];
    [by apply Hs|by rewrite rest_done by lia..].
Qed.

Lemma fill_spec i j (s : memo) :
  (i < m)%nat -> (j < n)%nat -> grid m n s.1 -> grid m n s.2 ->
  (forall i' j', (i' < m)%nat -> (j' < n)%nat -> (i < i' \/ i' = i /\ j < j')%nat -> right_at s i' j') ->
  grid m n (fill A B i j s).1 /\ grid m n (fill A B i j s).2 /\ right_at (fill A B i j s) i j /\
  forall i' j', ~ (i' = i /\ j' = j) -> right_at s i' j' -> right_at (fill A B i j s) i' j'.
Proof.
  intros Hi Hj Hg1 Hg2 Hs. destruct s as [LL choices]. cbn [fst snd] in *.
  assert (forall v c, v = Z.of_nat (rest i j) -> c = choice i j ->
    let s' := (upd2 LL i j (fun _ => v), upd2 choices i j (fun _ => c)) in
    grid m n s'.1 /\ grid m n s'.2 /\ right_at s' i j /\
    forall i' j', ~ (i' = i /\ j' = j) -> right_at (LL, choices) i' j' -> right_at s' i' j') as Hput.
  { intros v c -> ->. cbn [fst snd]. split; [by apply upd2_grid|]. split; [by apply upd2_grid|]. unfold right_at. cbn [fst snd].
    split; [by rewrite !(upd2_lookup m n), !decide_True by done|].
    intros i' j' Hne. by rewrite !(upd2_lookup m n), !decide_False by done. }
  unfold fill. rewrite !Nat.add_1_r. pose proof (rest_step i j Hi Hj) as Hrest. pose proof (rest_down i j Hi Hj) as Hdown.
  rewrite (neighbour LL choices (S i) (S j)), (neighbour LL choices (S i) j), (neighbour LL choices i (S j))
    by (intros; apply Hs; lia).
  unfold choice in Hput. destruct (A !!! i =? B !!! j).
  - apply Hput; [lia|done].
  - destruct (Z.eqb_spec (Z.of_nat (rest (S i) j)) (Z.of_nat (rest i (S j)) + 1)) as [He|He];
      (apply Hput; [lia|]); destruct (Nat.eqb_spec (rest (S i) j) (rest i (S j) + 1)); done || lia.
Qed.

Lemma memo_spec LL choices :
  grid m n LL -> grid m n choices ->
  let s := for_down 0 m (fun i => for_down 0 n (fill A B i)) (LL, choices) in
  grid m n s.1 /\ grid m n s.2 /\ forall i j, (i < m)%nat -> (j < n)%nat -> right_at s i j.
Proof.
  intros Hg1 Hg2.
  destruct (for_down_ind (fun i s => grid m n s.1 /\ grid m n s.2 /\
    forall i' j', (i <= i' < m)%nat -> (j' < n)%nat -> right_at s i' j')
    0 m (fun i => for_down 0 n (fill A B i)) (LL, choices)) as (H1 & H2 & H3); [lia| | |].
  - split; [done|]. split; [done|]. lia.
  - intros i s Hi (Hs1 & Hs2 & Hs).
    destruct (for_down_ind (fun j s => grid m n s.1 /\ grid m n s.2 /\
      forall i' j', (i' < m)%nat -> (j' < n)%nat -> (i < i' \/ i' = i /\ j <= j')%nat -> right_at s i' j')
      0 n (fill A B i) s) as (H1 & H2 & H3); [lia| | |].
    + split; [done|]. split; [done|]. intros i' j' Hi' Hj' [?|?]; [apply Hs; lia|lia].
    + intros j t Hj (Ht1 & Ht2 & Ht).
      destruct (fill_spec i j t) as (Hf1 & Hf2 & Hf3 & Hf4); [lia|lia|done|done| |].
      { intros i' j' Hi' Hj' Hor. apply Ht; lia. }
      split; [done|]. split; [done|]. intros i' j' Hi' Hj' Hor.
      destruct (decide (i' = i /\ j' = j)) as [[-> ->]|Hne]; [done|]. apply Hf4; [done|]. apply Ht; lia.
    + split; [done|]. split; [done|]. intros i' j' Hi' Hj'. apply H3; lia.
  - split; [done|]. split; [done|]. intros i j Hi Hj. apply H3; lia.
Qed.

(** ** The walk *)

(** [s] is what the walk has taken when it stands at [(p, q)]. *)
Definition taken (s : list Z) (p q : nat) : Prop :=
  sublist s (take p A) /\ sublist s (take q B) /\ (length s + rest p q = lcs A B)%nat.

Definition nonzero (l : list Z) : list Z := filter (fun x => x <> 0) l.

Lemma nonzero_app l l' : nonzero (l ++ l') = nonzero l ++ nonzero l'.
Proof. apply filter_app. Qed.

Lemma take_last (l : list Z) i : (i < length l)%nat -> take (S i) l = take i l ++ [l !!! i].
Proof. intros Hi. apply take_S_r. by apply list_lookup_lookup_total_lt. Qed.

Lemma sublist_take_S s (l : list Z) i : sublist s (take i l) -> sublist s (take (S i) l).
Proof.
  intros Hs. destruct (decide (i < length l)%nat).
  - rewrite take_last by done. by apply sublist_inserts_r.
  - rewrite !firstn_all2 in * by lia. done.
Qed.

(** Where the walk is within row [i], about to look at column [j]. *)
Definition walking (i j : nat) (s : list Z * nat * nat) : Prop :=
  let '(LCS, p, q) := s in
  length LCS = m /\ (q <= n)%nat /\ (p <= m)%nat /\ taken (nonzero (take (S i) LCS)) p q /\
  ((p = i /\ (j <= q)%nat /\ LCS !!! i = 0) \/ p = S i \/ ((p <= i)%nat /\ q = n)).

Context (Hchars : Forall (fun x => x <> 0) A).

Lemma walk_spec choices i j s :
  (i < m)%nat -> (j < n)%nat -> (choices !!! i) !!! j = choice i j ->
  walking i j s -> walking i (S j) (walk A choices i j s).
Proof.
  intros Hi Hj Hch. destruct s as [[LCS p] q]. intros (Hl & Hq & Hp & Htaken & Hpos). unfold walk. rewrite Hch.
  destruct (Nat.eqb_spec i p) as [<-|Hne]; cbn [andb].
  2:{ repeat (split; [done|]). destruct Hpos as [?|[?|?]]; [lia|by right; left|by right; right]. }
  destruct (Nat.eqb_spec j q) as [<-|Hne].
  2:{ repeat (split; [done|]). destruct Hpos as [(? & ? & ?)|[?|?]]; [left; split_and!; [done|lia|done]|lia|by right; right]. }
  assert (LCS !!! i = 0) as H0 by (destruct Hpos as [(? & ? & ?)|[?|?]]; [done|lia|lia]).
  destruct Htaken as (HsA & HsB & Hlen). pose proof (rest_step i j Hi Hj) as Hrest. pose proof (rest_down i j Hi Hj) as Hdown.
  assert (nonzero (take (S i) LCS) = nonzero (take i LCS)) as Hnz.
  { rewrite take_last, nonzero_app, H0 by lia. apply app_nil_r. }
  unfold choice in *. destruct (Z.eqb_spec (A !!! i) (B !!! j)) as [Heq|Hneq].
  - change (0 =? 0) with true. cbv iota.
    assert (nonzero (take (S i) (<[i := A !!! i]> LCS)) = nonzero (take (S i) LCS) ++ [A !!! i]) as Hnew.
    { rewrite Hnz, take_last by (rewrite length_insert; lia). rewrite list_lookup_total_insert_eq by lia.
      rewrite nonzero_app, take_insert_ge by lia. f_equal. unfold nonzero.
      assert (A !!! i <> 0) as HAi.
      { destruct (lookup_lt_is_Some_2 A i) as [x Hx]; [lia|]. rewrite (list_lookup_total_correct _ _ _ Hx).
        exact (Forall_lookup_1 _ _ _ _ Hchars Hx). }
      by rewrite filter_cons_True. }
    split; [by rewrite length_insert|]. split; [lia|]. split; [lia|]. split; [|right; left; lia].
    rewrite Hnew, !Nat.add_1_r. split; [|split].
    + rewrite (take_last A i) by lia. by apply sublist_app.
    + rewrite (take_last B j), <- Heq by lia. by apply sublist_app.
    + rewrite length_app. cbn. lia.
  - destruct (Nat.eqb_spec (rest (S i) j) (rest i (S j) + 1)).
    + change (1 =? 0) with false. change (1 =? 1) with true. cbv iota. rewrite Nat.add_1_r.
      split; [done|]. split; [done|]. split; [lia|]. split; [|by right; left].
      split; [by apply sublist_take_S|]. split; [done|lia].
    + change (2 =? 0) with false. change (2 =? 1) with false. cbv iota. rewrite Nat.add_1_r.
      split; [done|]. split; [lia|]. split; [done|]. split; [|left; split_and!; [done|lia|done]].
      split; [done|]. split; [by apply sublist_take_S|lia].
Qed.

Lemma backtrack_spec choices LCS :
  length LCS = m -> (forall i j, (i < m)%nat -> (j < n)%nat -> (choices !!! i) !!! j = choice i j) ->
  let '(LCS', _, _) :=
    for_up 0 m (fun i '(LCS, iPtr, jPtr) => for_up 0 n (walk A choices i) (<[i := 0]> LCS, iPtr, jPtr)) (LCS, O, O) in
  length LCS' = m /\ sublist (nonzero LCS') A /\ sublist (nonzero LCS') B /\ length (nonzero LCS') = lcs A B.
Proof.
  intros Hl Hch.
  match goal with |- context [for_up 0 m ?f (LCS, O, O)] =>
    pose proof (for_up_ind (fun i s => let '(LCS, p, q) := s in
      length LCS = m /\ (q <= n)%nat /\ (p <= m)%nat /\ taken (nonzero (take i LCS)) p q /\ (p = i \/ ((p <= i)%nat /\ q = n)))
      0 m f (LCS, O, O)) as Hind; destruct (for_up 0 m f (LCS, O, O)) as [[LCS' pf] qf]
  end.
  destruct Hind as (Hl' & Hq & Hp & (HsA & HsB & Hlen) & Hpos); [lia| | |].
  - split; [done|]. split; [lia|]. split; [lia|]. split; [|by left].
    split; [apply sublist_nil_l|]. split; [apply sublist_nil_l|]. unfold rest. by rewrite !drop_0.
  - intros i [[L p] q] Hi (HlL & Hq & Hp & Htaken & Hpos).
    pose proof (for_up_ind (walking i) 0 n (walk A choices i) (<[i := 0]> L, p, q)) as Hrow.
    assert (walking i 0 (<[i := 0]> L, p, q)) as Hstart.
    { split; [by rewrite length_insert|]. split; [done|]. split; [done|].
      rewrite take_last by (rewrite length_insert; lia). rewrite list_lookup_total_insert_eq by lia.
      rewrite nonzero_app, take_insert_ge by lia. split; [by rewrite app_nil_r|].
      destruct Hpos as [->|[? ->]]; [left; split_and!; [done|lia|done]|right; right; by split]. }
    specialize (Hrow ltac:(lia) Hstart).
    destruct (for_up 0 n (walk A choices i) _) as [[L' p'] q'].
    destruct Hrow as (H1 & H2 & H3 & H4 & H5).
    { intros j s Hj Hs. apply walk_spec; [lia|lia|apply Hch; lia|done]. }
    split; [done|]. split; [done|]. split; [done|]. split; [done|].
    destruct H5 as [(-> & ? & ?)|[->|[? ->]]]; [right; lia|by left|right; lia].
  - rewrite firstn_all2 in * by lia. rewrite rest_done in Hlen by lia. split; [done|].
    split; [|split; [|lia]].
    + etrans; [exact HsA|]. apply sublist_take.
    + etrans; [exact HsB|]. apply sublist_take.
Qed.

End Strings.

(** ** The final pass *)

(** One round: with the zeros of the first [i] characters at their end, the
    next character takes the place of the first zero. *)
Lemma move_round s k x r :
  Forall (fun c => c <> 0) s ->
  exists k', fst (for_up 0 (length s + k) (move (length s + k)) (s ++ replicate k 0 ++ x :: r, false))
    = nonzero (s ++ [x]) ++ replicate k' 0 ++ r.
Proof.
  intros Hs. set (i := (length s + k)%nat). set (L := s ++ replicate k 0 ++ x :: r).
  assert (forall l, Forall (fun c => c <> 0) l -> nonzero l = l) as Hnz.
  { intros l Hl. induction Hl as [|c l Hc Hl IH]; [done|]. unfold nonzero. rewrite filter_cons_True by done. by f_equal. }
  assert (forall j, (j < length s)%nat -> L !!! j <> 0) as Hlow.
  { intros j Hj. destruct (lookup_lt_is_Some_2 s j Hj) as [c Hc].
    rewrite (list_lookup_total_correct L j c) by (unfold L; by rewrite lookup_app_l).
    exact (Forall_lookup_1 _ _ _ _ Hs Hc). }
  assert (nonzero (s ++ [x]) = if decide (x = 0) then s else s ++ [x]) as Hlast.
  { rewrite nonzero_app, (Hnz s Hs). unfold nonzero. destruct (decide (x = 0)) as [->|Hx].
    - rewrite filter_cons_False by (intros H; by apply H). by rewrite app_nil_r.
    - by rewrite filter_cons_True. }
  destruct k as [|k].
  - replace i with (length s) by (unfold i; lia).
    assert (for_up 0 (length s) (move (length s)) (L, false) = (L, false)) as ->.
    { apply (for_up_ind (fun _ t => t = (L, false))); [lia|done|]. intros j t Hj ->. unfold move.
      specialize (Hlow j ltac:(lia)). by destruct (Z.eqb_spec (L !!! j) 0). }
    cbn [fst]. unfold L. cbn. rewrite Hlast. destruct (decide (x = 0)) as [->|].
    + by exists 1%nat.
    + exists O. by rewrite <- app_assoc.
  - set (L' := <[i := 0]> (<[length s := L !!! i]> L)).
    assert (L !!! length s = 0) as Hzero.
    { apply list_lookup_total_correct. unfold L. rewrite lookup_app_r, Nat.sub_diag by done. done. }
    assert (for_up 0 i (move i) (L, false) = (L', true)) as ->.
    { transitivity (if (i <=? length s)%nat then (L, false) else (L', true));
        [|destruct (Nat.leb_spec i (length s)); [unfold i in *; lia|done]].
      apply (for_up_ind (fun j t => t = if (j <=? length s)%nat then (L, false) else (L', true)));
        [lia|done|].
      intros j t Hj ->. unfold move. destruct (Nat.leb_spec j (length s)), (Nat.leb_spec (S j) (length s)); try lia.
      - specialize (Hlow j ltac:(lia)). by destruct (Z.eqb_spec (L !!! j) 0).
      - replace j with (length s) by lia. by rewrite Hzero.
      - by rewrite andb_false_r. }
    cbn [fst].
    assert (L !!! i = x) as Hx.
    { apply list_lookup_total_correct. unfold L, i. rewrite app_assoc, lookup_app_r, length_app, length_replicate
        by (rewrite length_app, length_replicate; lia).
      by replace (length s + S k - (length s + S k))%nat with O by lia. }
    assert (L' = s ++ x :: replicate (S k) 0 ++ r) as ->.
    { unfold L'. rewrite Hx. unfold L, i. cbn [replicate app].
      assert (forall (l1 l2 : list Z) y z, <[length l1 := y]> (l1 ++ z :: l2) = l1 ++ y :: l2) as Hins.
      { intros l1 l2 y z. pose proof (insert_app_r l1 (z :: l2) 0 y) as H. by rewrite Nat.add_0_r in H. }
      rewrite Hins, insert_app_r. f_equal.
      pose proof (Hins (x :: replicate k 0) r 0 x) as Htail. cbn [length app] in Htail. rewrite length_replicate in Htail.
      rewrite Htail. f_equal. change (replicate k 0 ++ [0] ++ r = replicate (S k) 0 ++ r).
      by rewrite app_assoc, <- replicate_S_end. }
    rewrite Hlast. destruct (decide (x = 0)) as [->|].
    + by exists (S (S k)).
    + exists (S k). by rewrite <- app_assoc.
Qed.

Lemma compact_spec LCS :
  length LCS = m ->
  exists k, for_up 1 m (fun i LCS => fst (for_up 0 i (move i) (LCS, false))) LCS = nonzero LCS ++ replicate k 0.
Proof.
  intros Hl. destruct LCS as [|x r]; [exists O; cbn in Hl; by rewrite for_up_done by lia|].
  assert (forall l, Forall (fun c => c <> 0) (nonzero l)) as Hnz by (intros l; apply Forall_forall; intros c Hc; by apply list_elem_of_filter in Hc as [? _]).
  destruct (for_up_ind (fun i L => exists k, L = nonzero (take i (x :: r)) ++ replicate k 0 ++ drop i (x :: r) /\
      i = (length (nonzero (take i (x :: r))) + k)%nat) 1 m
    (fun i LCS => fst (for_up 0 i (move i) (LCS, false))) (x :: r)) as (k & -> & _).
  - cbn in Hl. lia.
  - cbn [take drop]. destruct (decide (x = 0)) as [->|Hx].
    + exists 1%nat. unfold nonzero. rewrite filter_cons_False by (intros H; by apply H). done.
    + exists O. unfold nonzero. by rewrite filter_cons_True.
  - intros i L Hi (k & -> & Hlen).
    destruct (lookup_lt_is_Some_2 (x :: r) i) as [y Hy]; [lia|].
    rewrite (take_S_r _ _ _ Hy). rewrite (drop_S _ _ _ Hy).
    destruct (move_round (nonzero (take i (x :: r))) k y (drop (S i) (x :: r))) as [k' Hround]; [done|].
    rewrite <- Hlen in Hround. rewrite Hround.
    assert (nonzero (nonzero (take i (x :: r)) ++ [y]) = nonzero (take i (x :: r) ++ [y])) as Heq.
    { rewrite !nonzero_app. f_equal. unfold nonzero. rewrite list_filter_filter. apply list_filter_iff. intros c. tauto. }
    rewrite Heq. exists k'. split; [done|].
    apply (f_equal length) in Hround. rewrite Heq, !length_app, length_replicate in Hround.
    assert (length (fst (for_up 0 i (move i) (nonzero (take i (x :: r)) ++ replicate k 0 ++ y :: drop (S i) (x :: r), false)))
      = length (nonzero (take i (x :: r)) ++ replicate k 0 ++ y :: drop (S i) (x :: r))) as Hkeep.
    { apply (for_up_ind (fun _ t => length t.1 = _)); [lia|done|]. intros j [t b] _ Ht. unfold move.
      destruct (_ && _); [|done]. cbn [fst] in *. by rewrite !length_insert. }
    rewrite Hkeep, !length_app, length_replicate in Hround. cbn [length] in Hround. lia.
  - exists k. rewrite firstn_all2, drop_ge, app_nil_r by lia. done.
Qed.

(** ** Correctness *)

(** C24: The output is a common subsequence of the two strings, followed by
    zeros only, and no common subsequence is longer. *)
Theorem lcs_correct A B LL choices LCS :
  length A = m -> length B = n -> Forall (fun c => c <> 0) A ->
  grid m n LL -> grid m n choices -> length LCS = m ->
  exists s k, compute A B LL choices LCS = s ++ replicate k 0 /\ sublist s A /\ sublist s B /\
    forall t, sublist t A -> sublist t B -> (length t <= length s)%nat.
Proof.
  intros HA HB Hchars Hg1 Hg2 Hl. unfold compute.
  destruct (memo_spec A B HA HB LL choices Hg1 Hg2) as (_ & _ & Hmemo).
  match goal with |- context [for_down 0 m ?f (LL, choices)] => destruct (for_down 0 m f (LL, choices)) as [LL' choices'] end.
  pose proof (backtrack_spec A B HA HB Hchars choices' LCS Hl (fun i j Hi Hj => proj2 (Hmemo i j Hi Hj))) as Hwalk.
  match goal with |- context [for_up 0 m ?f (LCS, O, O)] => destruct (for_up 0 m f (LCS, O, O)) as [[LCS' p] q] end. destruct Hwalk as (Hl' & HsA & HsB & Hlen).
  destruct (compact_spec LCS' Hl') as [k ->]. exists (nonzero LCS'), k. split; [done|]. split; [done|]. split; [done|].
  intros t HtA HtB. rewrite Hlen. by apply lcs_max.
Qed.

End Lcs.

(** Strings "abcbdab" and "bdcaba". *)
Lemma lcs_witness :
  exists s k, compute 7 6 [97; 98; 99; 98; 100; 97; 98] [98; 100; 99; 97; 98; 97]
      (replicate 7 (replicate 6 0)) (replicate 7 (replicate 6 0)) (replicate 7 0) = s ++ replicate k 0 /\
    sublist s [97; 98; 99; 98; 100; 97; 98] /\ sublist s [98; 100; 99; 97; 98; 97] /\
    forall t, sublist t [97; 98; 99; 98; 100; 97; 98] -> sublist t [98; 100; 99; 97; 98; 97] -> (length t <= length s)%nat.
Proof.
  apply lcs_correct; [reflexivity|reflexivity| |split; [reflexivity|by apply Forall_replicate]..|reflexivity].
  repeat (apply Forall_cons; split; [discriminate|]). by apply Forall_nil.
Defined.
