(* ===== verification/Ram.v ===== *)
(** Random access memory: the interface of the compiler primitives [ramget]
    and [ramput], the naive implementation of [compiler/cstdinc/db.h] and
    the choice between the two. *)
From Stdlib Require Import ZArith Lia.
From stdpp Require Import base numbers list gmap.
From S2P Require Import Prelude.

Local Open Scope Z_scope.

(** ** The interface

    [ramget(&val, addr)] overwrites [val] when the address exists and leaves
    it alone otherwise, so it is given the old value.  An address that was
    never written holds some value. *)
Class Ram (V : Type) : Type := {
  ram : Type;
  ram_addr : Z -> bool;
  ramget : Z -> V -> ram -> V;
  ramput : Z -> V -> ram -> ram
}.
Arguments ram V {_}.

Class RamLaws (V : Type) `{Ram V} : Prop := {
  ramget_put_same : forall a (v old : V) m, ram_addr a = true -> ramget a old (ramput a v m) = v;
  ramget_put_other : forall a b (v old : V) m, a <> b -> ramget b old (ramput a v m) = ramget b old m;
  ramget_old : forall a (old old' : V) m, ram_addr a = true -> ramget a old m = ramget a old' m
}.

(** ** The naive memory *)

Section Naive.
Context (DB_NUM_ADDRESSES : nat).

(** [int memory[DB_NUM_ADDRESSES]] *)
Definition init_memory (memory : list Z) : list Z :=
  for_up 0 DB_NUM_ADDRESSES (fun i memory => <[i := s32 (Z.of_nat i)]> memory) memory.

Definition ramget_naive (addr val : Z) (memory : list Z) : Z :=
  for_up 0 DB_NUM_ADDRESSES (fun i val => if Z.of_nat i =? addr then memory !!! i else val) val.

Definition ramput_naive (addr value : Z) (memory : list Z) : list Z :=
  for_up 0 DB_NUM_ADDRESSES (fun i memory => if Z.of_nat i =? addr then <[i := value]> memory else memory) memory.

Definition in_memory (a : Z) : bool := (0 <=? a) && (a <? Z.of_nat DB_NUM_ADDRESSES).

Lemma ramget_naive_spec addr val memory :
  ramget_naive addr val memory = if in_memory addr then memory !!! Z.to_nat addr else val.
Proof. apply (for_up_once DB_NUM_ADDRESSES (fun _ => addr) (fun i _ => memory !!! i) val). done. Qed.

Lemma ramput_naive_spec addr value memory :
  ramput_naive addr value memory = if in_memory addr then <[Z.to_nat addr := value]> memory else memory.
Proof. apply (for_up_once DB_NUM_ADDRESSES (fun _ => addr) (fun i m => <[i := value]> m) memory). done. Qed.

(** The scanned array is a memory of [DB_NUM_ADDRESSES] cells: arrays of
    that size are packed with the fact, so that they form an instance. *)
Definition cells : Type := { memory : list Z | length memory = DB_NUM_ADDRESSES }.

Lemma ramput_naive_length addr value memory :
  length (ramput_naive addr value memory) = length memory.
Proof. rewrite ramput_naive_spec. destruct (in_memory addr); [apply length_insert|done]. Qed.

Definition put_cells (addr value : Z) (c : cells) : cells :=
  exist _ (ramput_naive addr value (proj1_sig c)) (eq_trans (ramput_naive_length _ _ _) (proj2_sig c)).

Definition NaiveRam : Ram Z := {|
  ram := cells;
  ram_addr := in_memory;
  ramget := fun addr val c => ramget_naive addr val (proj1_sig c);
  ramput := put_cells
|}.

Lemma NaiveRamLaws : @RamLaws Z NaiveRam.
Proof.
  split; cbn; intros.
  - rewrite ramget_naive_spec, ramput_naive_spec, H. apply list_lookup_total_insert_eq.
    destruct m as [memory Hm]. cbn. unfold in_memory in H. bool_hyps. lia.
  - rewrite !ramget_naive_spec, ramput_naive_spec. destruct (in_memory b) eqn:Hb; [|done].
    destruct (in_memory a) eqn:Ha; [|done]. unfold in_memory in *. bool_hyps.
    apply list_lookup_total_insert_ne. lia.
  - by rewrite !ramget_naive_spec, H.
Qed.

(** The memory that scans all its addresses behaves as memory: a
    read after a write at an existing address gives the value written, other
    addresses keep theirs, and neither faults outside. *)
Theorem ram_naive_correct a b v val memory :
  length memory = DB_NUM_ADDRESSES ->
  (0 <= a < Z.of_nat DB_NUM_ADDRESSES -> ramget_naive a val (ramput_naive a v memory) = v) /\
  (a <> b -> ramget_naive b val (ramput_naive a v memory) = ramget_naive b val memory) /\
  (~ 0 <= a < Z.of_nat DB_NUM_ADDRESSES ->
     ramget_naive a val memory = val /\ ramput_naive a v memory = memory).
Proof.
  intros Hlen. set (c := exist _ memory Hlen : cells). split; [|split].
  - intros Ha. apply (@ramget_put_same Z NaiveRam NaiveRamLaws a v val c). cbn. unfold in_memory. bool_cases; done || lia.
  - intros Hab. exact (@ramget_put_other Z NaiveRam NaiveRamLaws a b v val c Hab).
  - intros Ha. rewrite ramget_naive_spec, ramput_naive_spec. unfold in_memory. bool_cases; done || lia.
Qed.

Lemma init_memory_spec memory :
  length memory = DB_NUM_ADDRESSES -> init_memory memory = tabulate DB_NUM_ADDRESSES (fun i => s32 (Z.of_nat i)).
Proof.
  intros Hlen. unfold init_memory. rewrite (for_up_pointwise DB_NUM_ADDRESSES (fun i _ => s32 (Z.of_nat i))).
  rewrite <- (imap_const (fun i => s32 (Z.of_nat i)) memory DB_NUM_ADDRESSES Hlen). apply imap_ext.
  intros i x Hi%lookup_lt_Some. by destruct (Nat.ltb_spec i DB_NUM_ADDRESSES); [|lia].
Qed.

End Naive.

Lemma ram_naive_witness : ramget_naive 4 2 0 (ramput_naive 4 2 7 [0; 1; 2; 3]) = 7.
Proof. destruct (ram_naive_correct 4 2 2 7 0 [0; 1; 2; 3] eq_refl) as [Hsame _]. apply Hsame. lia. Defined.

(** ** The choice between the two

    [USE_NAIVE_MEMORY] is defined for small memories. *)
Section Hybrid.
Context {R : Ram Z} {L : RamLaws Z} (DB_NUM_ADDRESSES : nat) (use_naive_memory : bool).

Definition hybrid_ram : Type := if use_naive_memory then cells DB_NUM_ADDRESSES else ram Z.

Definition ramget_hybrid (addr val : Z) : hybrid_ram -> Z :=
  match use_naive_memory as u return (if u then cells DB_NUM_ADDRESSES else ram Z) -> Z with
  | true => fun m => ramget_naive DB_NUM_ADDRESSES addr val (proj1_sig m)
  | false => ramget addr val
  end.

Definition ramput_hybrid (addr value : Z) : hybrid_ram -> hybrid_ram :=
  match use_naive_memory as u
    return (if u then cells DB_NUM_ADDRESSES else ram Z) -> (if u then cells DB_NUM_ADDRESSES else ram Z) with
  | true => put_cells DB_NUM_ADDRESSES addr value
  | false => ramput addr value
  end.

Definition HybridRam : Ram Z := {|
  ram := hybrid_ram;
  ram_addr := if use_naive_memory then in_memory DB_NUM_ADDRESSES else ram_addr;
  ramget := ramget_hybrid;
  ramput := ramput_hybrid
|}.

Lemma HybridRamLaws : @RamLaws Z HybridRam.
Proof.
  unfold HybridRam, ramget_hybrid, ramput_hybrid, hybrid_ram. destruct use_naive_memory.
  - split; cbn; intros.
    + exact (@ramget_put_same Z _ (NaiveRamLaws DB_NUM_ADDRESSES) a v old m H).
    + exact (@ramget_put_other Z _ (NaiveRamLaws DB_NUM_ADDRESSES) a b v old m H).
    + exact (@ramget_old Z _ (NaiveRamLaws DB_NUM_ADDRESSES) a old old' m H).
  - split; cbn; intros; [by apply ramget_put_same|by apply ramget_put_other|by apply ramget_old].
Qed.

End Hybrid.

(** ** An instance with blocks of any type

    A finite map; an address that was never written holds a fixed value. *)
#[export] Instance MapRam (V : Type) `{Inhabited V} : Ram V := {
  ram := gmap Z V;
  ram_addr := fun _ => true;
  ramget := fun a _ m => m !!! a;
  ramput := fun a v m => <[a := v]> m
}.

#[export] Instance MapRamLaws (V : Type) `{Inhabited V} : RamLaws V.
Proof.
  split; cbn; intros.
  - apply lookup_total_insert_eq.
  - by apply lookup_total_insert_ne.
  - done.
Qed.

(** ** Writing an array to memory *)

Section Arrays.
Context {V : Type} `{Inhabited V} {R : Ram V} {L : RamLaws V}.

Definition store_array (base n : nat) (a : list V) (m : ram V) : ram V :=
  for_up 0 n (fun i m => ramput (Z.of_nat (base + i)) (a !!! i) m) m.

Lemma store_array_get base n a old m i :
  (i < n)%nat -> (forall k, (k < n)%nat -> ram_addr (Z.of_nat (base + k)) = true) ->
  ramget (Z.of_nat (base + i)) old (store_array base n a m) = a !!! i.
Proof.
  intros Hi Haddr. unfold store_array. induction n as [|n IH]; [lia|].
  rewrite for_up_last by lia. destruct (decide (i = n)) as [->|Hne].
  - apply ramget_put_same. apply Haddr. lia.
  - rewrite ramget_put_other by lia. apply IH; [lia|]. intros k Hk. apply Haddr. lia.
Qed.

End Arrays.
