(* ===== verification/KmpSearch.v ===== *)
(** Searching a needle in a haystack: [pepper/apps/kmpsearch.c],
    [kmpsearch_flat.c] and [kmpsearch_dfa.c].

    The three programs share the shape of the search and differ in how the
    failure table is filled and how the loops are bounded.  Arrays that C
    leaves uninitialised are arguments of the definitions, every access is
    checked, and the sizes are parameters. *)
From Stdlib Require Import ZArith Lia.
From stdpp Require Import base numbers list.
From S2P Require Import Prelude.

Local Open Scope Z_scope.

(** ** What a search means *)

Definition occurs (needle haystack : list Z) (m : nat) : Prop := take (length needle) (drop m haystack) = needle.

#[export] Instance occurs_dec needle haystack m : Decision (occurs needle haystack m).
Proof. unfold occurs. apply _. Defined.

(** The first place where the needle occurs, or the length of the haystack. *)
Fixpoint strstr (needle haystack : list Z) : nat :=
  if bool_decide (take (length needle) haystack = needle) then O
  else match haystack with [] => O | _ :: haystack' => S (strstr needle haystack') end.

Lemma occurs_lookup needle haystack m :
  occurs needle haystack m <-> (forall k x, needle !! k = Some x -> haystack !! (m + k)%nat = Some x).
Proof.
  unfold occurs. split.
  - intros Heq k x Hk. rewrite <- lookup_drop. rewrite <- Heq, lookup_take in Hk. by case_decide.
  - intros Hall. apply list_eq. intros k. destruct (needle !! k) as [x|] eqn:Hk.
    + rewrite lookup_take_lt by (by eapply lookup_lt_Some). rewrite lookup_drop. by apply Hall.
    + apply lookup_ge_None_1 in Hk. by apply lookup_take_ge.
Qed.

Lemma occurs_bound needle haystack m : needle <> [] -> occurs needle haystack m -> (m + length needle <= length haystack)%nat.
Proof.
  intros Hn Ho. destruct (decide (m + length needle <= length haystack)%nat); [done|].
  unfold occurs in Ho. apply (f_equal length) in Ho. rewrite length_take, length_drop in Ho.
  destruct needle; [done|]. cbn [length] in *. lia.
Qed.

Lemma strstr_spec needle haystack r :
  needle <> [] -> (forall m, (m < r)%nat -> ~ occurs needle haystack m) ->
  (occurs needle haystack r \/ (r = length haystack)) -> strstr needle haystack = r.
Proof.
  intros Hn. revert r. induction haystack as [|c h IH]; intros r Hbefore Hr.
  - assert (r = O) as ->. { destruct Hr as [Hr| ->]; [|done]. apply occurs_bound in Hr; [|done]. cbn in Hr. lia. }
    cbn. by case_bool_decide.
  - cbn [strstr]. destruct r as [|r].
    + destruct Hr as [Hr|Hr]; [|done]. unfold occurs in Hr. rewrite drop_0 in Hr. by rewrite bool_decide_eq_true_2.
    + rewrite bool_decide_eq_false_2 by (apply (Hbefore O); lia). f_equal. apply IH.
      * intros m Hm. apply (Hbefore (S m)). lia.
      * destruct Hr as [Hr|Hr]; [by left|right]. cbn in Hr. lia.
Qed.

Lemma strstr_first needle haystack :
  (forall m, (m < strstr needle haystack)%nat -> ~ occurs needle haystack m) /\
  (occurs needle haystack (strstr needle haystack) \/ strstr needle haystack = length haystack).
Proof.
  induction haystack as [|c h [IHb IHr]]; cbn [strstr]; case_bool_decide as Hd.
  - split; [lia|]. by left.
  - split; [lia|]. by right.
  - split; [lia|]. by left.
  - split.
    + intros [|m] Hm; [done|]. apply (IHb m). lia.
    + destruct IHr as [IHr| ->]; [by left|by right].
Qed.

(** ** The code *)

Section Kmp.
Context (NEEDLE HAYSTACK : nat).

(** The table is declared and its first two entries are set. *)
Definition fail_init (fail : list Z) : res (list Z) := fail ← wr fail 0 (-1); wr fail 1 0.

(** What a mismatch does with the place in the needle and in the haystack. *)
Definition jump (fail : list Z) (i m : Z) : res (Z * Z) :=
  fi ← rd fail i;
  if 0 <? fi then fi' ← rd fail fi; Ok (fi, m + fi - fi')
  else Ok (0, m + 1).

(** [kmpsearch.c]: the inner loop jumps back at most [NEEDLE - 1] times. *)
Definition fail_back (needle fail : list Z) (nj cand : Z) : res (Z * bool) :=
  for_upM 0 (NEEDLE - 1)
    (fun _ '(cand, skip) =>
       if skip : bool then Ok (cand, skip)
       else if 0 <? cand then
         c ← rd needle cand;
         if nj =? c then Ok (cand, true) else cand ← rd fail cand; Ok (cand, false)
       else Ok (cand, true)) (cand, false).

Definition fail_set (fail : list Z) (tpos : nat) (cand : Z) : res (list Z * Z) :=
  if cand <? 1 then fail ← wr fail (Z.of_nat tpos) 0; Ok (fail, cand)
  else fail ← wr fail (Z.of_nat tpos) (cand + 1); Ok (fail, cand + 1).

Definition kmp_table (needle fail : list Z) : res (list Z) :=
  fail ← fail_init fail;
  '(fail, _) ← for_upM 2 NEEDLE
    (fun tpos '(fail, cand) =>
       nj ← rd needle (Z.of_nat tpos - 1);
       '(cand, _) ← fail_back needle fail nj cand;
       fail_set fail tpos cand) (fail, 0);
  Ok fail.

(** One comparison, as long as nothing stops the inner loop. *)
Definition kmp_compare (needle haystack : list Z) (m : Z) (st : Z * Z * bool * bool) : res (Z * Z * bool * bool) :=
  let '(i, mtch, skip, skip2) := st in
  if skip2 : bool then Ok (i, mtch, skip, skip2)
  else
    a ← rd needle i;
    b ← rd haystack (m + i);
    if a =? b then
      if i =? Z.of_nat NEEDLE - 1 then Ok (i + 1, m, true, true) else Ok (i + 1, mtch, skip, skip2)
    else Ok (i, mtch, skip, true).

Definition kmp_round (needle haystack fail : list Z) (st : Z * Z * Z * bool) : res (Z * Z * Z * bool) :=
  let '(i, m, mtch, skip) := st in
  if skip : bool then Ok (i, m, mtch, skip)
  else
    '(i, mtch, skip, _) ← for_upM 0 NEEDLE (fun _ st => kmp_compare needle haystack m st) (i, mtch, skip, false);
    '(i, m) ← jump fail i m;
    Ok (i, m, mtch, skip).

Definition kmpsearch (needle haystack fail : list Z) : res Z :=
  fail ← kmp_table needle fail;
  '(_, _, mtch, _) ← for_upM 0 (HAYSTACK - (NEEDLE - 1)) (fun _ st => kmp_round needle haystack fail st)
    (0, 0, Z.of_nat HAYSTACK, false);
  Ok mtch.

(** [kmpsearch_flat.c]: the same with [while] and [break].  The attribute
    [buffet::fsm(n)] of a loop makes the compiler turn the loop, with the loops
    in it, into one loop of [n] rounds; a round goes through the states in the
    order of the code and stops where an inner loop goes back
    ([compiler/buffetfsm/AttributedStmtVisitor.cpp]).  When the rounds run out
    the program goes on behind the loop.

    The condition of the inner loop of the table. *)
Definition flat_goes_back (needle : list Z) (nj cand : Z) : res bool :=
  if 0 <? cand then c ← rd needle cand; Ok (negb (nj =? c)) else Ok false.

(** A round of the table: [back] says that it starts in the inner loop. *)
Definition flat_table_round (needle : list Z) (st : list Z * nat * Z * bool) : res (list Z * nat * Z * bool) :=
  let '(fail, tpos, cand, back) := st in
  if (tpos <? NEEDLE)%nat then
    nj ← rd needle (Z.of_nat tpos - 1);
    back ← (if back : bool then Ok true else flat_goes_back needle nj cand);
    '(cand, back) ←
      (if back : bool then
         cand ← rd fail cand;
         back ← flat_goes_back needle nj cand;
         Ok (cand, back)
       else Ok (cand, false));
    if back : bool then Ok (fail, tpos, cand, true)
    else '(fail, cand) ← fail_set fail tpos cand; Ok (fail, S tpos, cand, false)
  else Ok st.

Definition flat_table (needle fail : list Z) : res (list Z) :=
  fail ← fail_init fail;
  '(fail, _, _, _) ← for_upM 0 (NEEDLE * 2) (fun _ st => flat_table_round needle st) (fail, 2%nat, 0, false);
  Ok fail.

(** A round of the search; [inr] holds the value of [output->match] behind the
    loop. *)
Definition flat_step (needle haystack fail : list Z) (st : Z * Z) : res ((Z * Z) + Z) :=
  let '(i, m) := st in
  if m <? Z.of_nat HAYSTACK - (Z.of_nat NEEDLE - 1) then
    a ← rd needle i;
    b ← rd haystack (m + i);
    if a =? b then
      if i =? Z.of_nat NEEDLE - 1 then Ok (inr m) else Ok (inl (i + 1, m))
    else '(i, m) ← jump fail i m; Ok (inl (i, m))
  else Ok (inr (Z.of_nat HAYSTACK)).

Definition flat_round (needle haystack fail : list Z) (st : Z * Z + Z) : res (Z * Z + Z) :=
  match st with inl st => flat_step needle haystack fail st | inr r => Ok (inr r) end.

Definition flat_search (rounds : nat) (needle haystack fail : list Z) : res Z :=
  st ← for_upM 0 rounds (fun _ st => flat_round needle haystack fail st) (inl (0, 0));
  Ok (match st with inl _ => Z.of_nat HAYSTACK | inr r => r end).

Definition kmpsearch_flat (needle haystack fail : list Z) : res Z :=
  fail ← flat_table needle fail;
  flat_search (HAYSTACK * 2) needle haystack fail.

(** [kmpsearch_dfa.c]: each loop is one loop with a bound. *)
Definition dfa_table_step (needle : list Z) (st : list Z * Z * Z) : res (list Z * Z * Z) :=
  let '(fail, tpos, cand) := st in
  if tpos <? Z.of_nat NEEDLE then
    a ← rd needle (tpos - 1);
    b ← rd needle cand;
    if a =? b then fail ← wr fail tpos (cand + 1); Ok (fail, tpos + 1, cand + 1)
    else if 0 <? cand then cand ← rd fail cand; Ok (fail, tpos, cand)
    else fail ← wr fail tpos 0; Ok (fail, tpos + 1, cand)
  else Ok st.

Definition dfa_table (needle fail : list Z) : res (list Z) :=
  fail ← fail_init fail;
  '(fail, _, _) ← for_upM 0 (2 * NEEDLE) (fun _ st => dfa_table_step needle st) (fail, 2, 0);
  Ok fail.

Definition dfa_step (needle haystack fail : list Z) (st : Z * Z * Z) : res (Z * Z * Z) :=
  let '(i, m, mtch) := st in
  let last := Z.of_nat NEEDLE - 1 in
  let stop := Z.of_nat HAYSTACK - last in
  if m <? stop then
    a ← rd needle i;
    b ← rd haystack (m + i);
    if a =? b then
      if i =? last then Ok (i + 1, stop, m) else Ok (i + 1, m, mtch)
    else '(i, m) ← jump fail i m; Ok (i, m, mtch)
  else Ok st.

(** The loop of the search with its number of rounds. *)
Definition dfa_search (rounds : nat) (needle haystack fail : list Z) : res Z :=
  '(_, _, mtch) ← for_upM 0 rounds (fun _ st => dfa_step needle haystack fail st) (0, 0, Z.of_nat HAYSTACK);
  Ok mtch.

Definition kmpsearch_dfa (needle haystack fail : list Z) : res Z :=
  fail ← dfa_table needle fail;
  dfa_search (2 * HAYSTACK) needle haystack fail.

End Kmp.

(** ** Accesses at places that are natural numbers *)

Lemma rd_at (l : list Z) (i : nat) : (i < length l)%nat -> rd l (Z.of_nat i) = Ok (l !!! i).
Proof. intros Hi. by apply rd_lookup, list_lookup_lookup_total_lt. Qed.

Lemma wr_at (l : list Z) (i : nat) x : (i < length l)%nat -> wr l (Z.of_nat i) x = Ok (<[i := x]> l).
Proof. intros Hi. rewrite wr_Ok by lia. by rewrite Nat2Z.id. Qed.

(** The first [i] characters of the needle are in the haystack from [m] on. *)
Definition agree (needle haystack : list Z) (m i : nat) : Prop :=
  forall k, (k < i)%nat -> needle !!! k = haystack !!! (m + k)%nat.

Lemma agree_0 needle haystack m : agree needle haystack m 0.
Proof. intros k Hk. lia. Qed.

Lemma agree_S needle haystack m i :
  agree needle haystack m i -> needle !!! i = haystack !!! (m + i)%nat -> agree needle haystack m (S i).
Proof. intros Ha Heq k Hk. destruct (decide (k = i)) as [->|]; [done|]. apply Ha. lia. Qed.

Lemma agree_occurs needle haystack m :
  (m + length needle <= length haystack)%nat -> agree needle haystack m (length needle) <-> occurs needle haystack m.
Proof.
  intros Hm. rewrite occurs_lookup. split.
  - intros Ha k x Hk. pose proof (lookup_lt_Some _ _ _ Hk). specialize (Ha k H).
    rewrite (list_lookup_total_correct _ _ _ Hk) in Ha. subst x. apply list_lookup_lookup_total_lt. lia.
  - intros Ho k Hk. symmetry. apply list_lookup_total_correct, Ho. by apply list_lookup_lookup_total_lt.
Qed.

Lemma mismatch_occurs needle haystack m i :
  (i < length needle)%nat -> needle !!! i <> haystack !!! (m + i)%nat -> ~ occurs needle haystack m.
Proof.
  intros Hi Hne Ho. rewrite occurs_lookup in Ho. apply Hne. symmetry. apply list_lookup_total_correct, Ho.
  by apply list_lookup_lookup_total_lt.
Qed.

(** ** Comparisons of a search that restarts at every place *)

Fixpoint common_prefix (l1 l2 : list Z) : nat :=
  match l1, l2 with
  | x :: l1, y :: l2 => if x =? y then S (common_prefix l1 l2) else O
  | _, _ => O
  end.

(** At the places before [m]: the characters that agree and the one that does
    not. *)
Fixpoint comparisons (needle haystack : list Z) (m : nat) : nat :=
  match m with
  | O => O
  | S m => comparisons needle haystack m + S (common_prefix needle (drop m haystack))
  end.

Lemma comparisons_S needle haystack m :
  comparisons needle haystack (S m) = (comparisons needle haystack m + S (common_prefix needle (drop m haystack)))%nat.
Proof. done. Qed.

Lemma comparisons_mono needle haystack m m' : (m <= m')%nat -> (comparisons needle haystack m <= comparisons needle haystack m')%nat.
Proof. induction 1 as [|m' _ IH]; [done|]. rewrite comparisons_S. lia. Qed.

Lemma common_prefix_eq l1 l2 i : (forall k, (k < i)%nat -> l1 !! k = l2 !! k) ->
  (exists x y, l1 !! i = Some x /\ l2 !! i = Some y /\ x <> y) -> common_prefix l1 l2 = i.
Proof.
  revert l1 l2. induction i as [|i IH]; intros l1 l2 Heq (x & y & Hx & Hy & Hne); destruct l1 as [|a l1], l2 as [|b l2]; try done; cbn.
  - injection Hx as ->. injection Hy as ->. by rewrite (proj2 (Z.eqb_neq _ _)).
  - pose proof (Heq O ltac:(lia)) as [= ->]. rewrite Z.eqb_refl. f_equal. apply IH; [|by exists x, y].
    intros k Hk. apply (Heq (S k)). lia.
Qed.

(** ** The searches without a failure table *)

Section Naive.
Context (NEEDLE HAYSTACK : nat) (needle haystack fail : list Z).
Hypothesis sizes : (2 <= NEEDLE <= HAYSTACK)%nat.
Hypothesis needle_length : length needle = NEEDLE.
Hypothesis haystack_length : length haystack = HAYSTACK.
Hypothesis fail_length : length fail = NEEDLE.

(** The table that [kmpsearch.c] and [kmpsearch_flat.c] make. *)
Definition no_table : list Z := -1 :: replicate (NEEDLE - 1) 0.

Definition table_zero (t : nat) (f : list Z) : Prop :=
  length f = NEEDLE /\ f !! O = Some (-1) /\ forall k, (1 <= k < t)%nat -> f !! k = Some 0.

Lemma fail_init_zero : exists f, fail_init fail = Ok f /\ table_zero 2 f.
Proof.
  unfold fail_init. rewrite (wr_at _ 0) by lia. rewrite res_bind_Ok, (wr_at _ 1) by (rewrite length_insert; lia).
  eexists. split; [reflexivity|]. unfold table_zero. rewrite !length_insert. split; [done|]. split.
  - rewrite list_lookup_insert_ne, list_lookup_insert_eq by lia. done.
  - intros k Hk. replace k with 1%nat by lia. by rewrite list_lookup_insert_eq by (rewrite length_insert; lia).
Qed.

Lemma fail_set_zero t f : (2 <= t < NEEDLE)%nat -> table_zero t f ->
  exists f', fail_set f t 0 = Ok (f', 0) /\ table_zero (S t) f'.
Proof.
  intros Ht (Hl & H0 & Hz). unfold fail_set. cbn [Z.ltb Z.compare]. rewrite wr_at, res_bind_Ok by lia. eexists. split; [done|].
  unfold table_zero. rewrite length_insert. split; [done|]. rewrite list_lookup_insert_ne by lia. split; [done|].
  intros k Hk. destruct (decide (k = t)) as [->|]; [by rewrite list_lookup_insert_eq by lia|].
  rewrite list_lookup_insert_ne by done. apply Hz. lia.
Qed.

Lemma table_zero_eq f : table_zero NEEDLE f -> f = no_table.
Proof.
  intros (Hl & H0 & Hz). apply list_eq. intros [|k]; [done|]. change (no_table !! S k) with (replicate (NEEDLE - 1) 0 !! k).
  destruct (decide (k < NEEDLE - 1)%nat).
  - rewrite lookup_replicate_2 by done. apply Hz. lia.
  - rewrite !lookup_ge_None_2; rewrite ?length_replicate; done || lia.
Qed.

Lemma kmp_table_zero : kmp_table NEEDLE needle fail = Ok no_table.
Proof.
  unfold kmp_table. destruct fail_init_zero as (f & -> & Hf). rewrite res_bind_Ok.
  destruct (for_upM_ind (fun t '(f, cand) => cand = 0 /\ table_zero t f) 2 NEEDLE
    (fun tpos '(fail, cand) => nj ← rd needle (Z.of_nat tpos - 1); '(cand, _) ← fail_back NEEDLE needle fail nj cand; fail_set fail tpos cand)
    (f, 0)) as ([f' c] & -> & _ & Hf'); [lia|done| |].
  - intros t [f1 c] Ht (-> & Hf1). replace (Z.of_nat t - 1) with (Z.of_nat (pred t)) by lia. rewrite rd_at, res_bind_Ok by lia.
    assert (fail_back NEEDLE needle f1 (needle !!! pred t) 0 = Ok (0, true)) as ->.
    { unfold fail_back. rewrite for_upM_step by lia. cbn [Z.ltb Z.compare]. rewrite res_bind_Ok. by rewrite for_upM_const. }
    rewrite res_bind_Ok. destruct (fail_set_zero t f1 Ht Hf1) as (f2 & -> & Hf2). by eexists.
  - rewrite res_bind_Ok. by rewrite (table_zero_eq _ Hf').
Qed.

Lemma flat_table_zero : flat_table NEEDLE needle fail = Ok no_table.
Proof.
  unfold flat_table. destruct fail_init_zero as (f & -> & Hf). rewrite res_bind_Ok.
  destruct (for_upM_ind (fun n st => exists f t, st = (f, t, 0, false) /\ t = Nat.min (2 + n) NEEDLE /\ table_zero t f) 0 (NEEDLE * 2)
    (fun _ st => flat_table_round NEEDLE needle st) (f, 2%nat, 0, false)) as (st & -> & f' & t & -> & -> & Hf'); [lia| | |].
  - exists f, 2%nat. split; [done|]. split; [lia|done].
  - intros n st Hn (f1 & t & -> & Ht & Hf1). unfold flat_table_round. destruct (Nat.ltb_spec t NEEDLE) as [Hlt|Hge].
    + replace (Z.of_nat t - 1) with (Z.of_nat (pred t)) by lia. rewrite rd_at by lia. unfold flat_goes_back. cbn [Z.ltb Z.compare].
      destruct (fail_set_zero t f1 ltac:(lia) Hf1) as (f2 & Hset & Hf2). rewrite !res_bind_Ok, Hset, res_bind_Ok.
      eexists. split; [done|]. exists f2, (S t). split; [done|]. split; [lia|done].
    + eexists. split; [done|]. exists f1, t. split; [done|]. split; [lia|done].
  - rewrite res_bind_Ok. replace (Nat.min _ _) with NEEDLE in Hf' by lia. by rewrite (table_zero_eq _ Hf').
Qed.

(** With that table a mismatch starts over one place further. *)
Lemma jump_zero (i m : nat) : (i < NEEDLE)%nat -> jump no_table (Z.of_nat i) (Z.of_nat m) = Ok (Z.of_nat 0, Z.of_nat (S m)).
Proof.
  intros Hi. unfold jump. assert (exists x, no_table !! i = Some x /\ x <= 0) as (x & Hx & Hle).
  { destruct i as [|i]; [by exists (-1)|]. exists 0. split; [|done]. cbn. apply lookup_replicate_2. lia. }
  rewrite (rd_lookup _ _ _ Hx), res_bind_Ok. rewrite (proj2 (Z.ltb_ge 0 x)) by done. f_equal. f_equal. lia.
Qed.

(** Nothing found before [m]. *)
Definition none_before (m : nat) : Prop := forall k, (k < m)%nat -> ~ occurs needle haystack k.

Lemma none_before_S m : none_before m -> ~ occurs needle haystack m -> none_before (S m).
Proof. clear -m. intros Hb Hm k Hk. destruct (decide (k = m)) as [->|]; [done|]. apply Hb. lia. Qed.

Lemma needle_nonempty : needle <> [].
Proof. clear fail_length haystack_length. intros ->. cbn in needle_length. lia. Qed.

Lemma found_first m : none_before m -> agree needle haystack m NEEDLE -> (m + NEEDLE <= HAYSTACK)%nat -> strstr needle haystack = m.
Proof.
  clear fail_length. intros Hb Ha Hm. apply strstr_spec; [apply needle_nonempty|done|]. left. apply agree_occurs; rewrite ?needle_length; [lia|done].
Qed.

Lemma found_none m : none_before m -> (HAYSTACK < m + NEEDLE)%nat -> strstr needle haystack = HAYSTACK.
Proof.
  clear fail_length. intros Hb Hm. apply strstr_spec; [apply needle_nonempty| |by right].
  intros k Hk Ho. destruct (decide (k < m)%nat) as [Hlt|Hge]; [by apply (Hb k)|].
  apply occurs_bound in Ho; [lia|apply needle_nonempty].
Qed.

(** A round of the search with that table. *)
Lemma flat_step_zero (i m : nat) : (i < NEEDLE)%nat -> (m + NEEDLE <= HAYSTACK)%nat ->
  flat_step NEEDLE HAYSTACK needle haystack no_table (Z.of_nat i, Z.of_nat m) =
  Ok (if needle !!! i =? haystack !!! (m + i)%nat
      then (if (S i =? NEEDLE)%nat then inr (Z.of_nat m) else inl (Z.of_nat (S i), Z.of_nat m))
      else inl (0, Z.of_nat (S m))).
Proof.
  intros Hi Hm. unfold flat_step. rewrite (proj2 (Z.ltb_lt _ _)) by lia. rewrite <- Nat2Z.inj_add, !rd_at, !res_bind_Ok by lia.
  destruct (_ =? _); [|by rewrite jump_zero, res_bind_Ok by done].
  destruct (Nat.eqb_spec (S i) NEEDLE); [rewrite (proj2 (Z.eqb_eq _ _)) by lia; done|].
  rewrite (proj2 (Z.eqb_neq _ _)) by lia. do 3 f_equal. lia.
Qed.

(** Comparisons at a place end at the first mismatch. *)
Lemma prefix_agree m i : agree needle haystack m i -> (i < NEEDLE)%nat -> (m + i < HAYSTACK)%nat -> needle !!! i <> haystack !!! (m + i)%nat ->
  common_prefix needle (drop m haystack) = i.
Proof.
  intros Ha Hi Hm Hne. apply common_prefix_eq.
  - intros k Hk. rewrite lookup_drop, !list_lookup_lookup_total_lt by lia. f_equal. by apply Ha.
  - exists (needle !!! i), (haystack !!! (m + i)%nat). rewrite lookup_drop, !list_lookup_lookup_total_lt by lia. done.
Qed.

(** The search after [n] rounds. *)
Definition flat_at (n : nat) (st : Z * Z + Z) : Prop :=
  (exists i m, st = inl (Z.of_nat i, Z.of_nat m) /\ (i < NEEDLE)%nat /\ (m + NEEDLE <= HAYSTACK + 1)%nat /\ agree needle haystack m i /\
     none_before m /\ (m + NEEDLE = HAYSTACK + 1 \/ n = comparisons needle haystack m + i)%nat) \/
  (exists r, st = inr (Z.of_nat r) /\ strstr needle haystack = r /\ (r = HAYSTACK \/ comparisons needle haystack r + NEEDLE <= n)%nat).

Lemma flat_round_at n st : flat_at n st -> exists st', flat_round NEEDLE HAYSTACK needle haystack no_table st = Ok st' /\ flat_at (S n) st'.
Proof.
  intros [(i & m & -> & Hi & Hm & Ha & Hb & Hn)|(r & -> & Hr & Hn)]; cbn [flat_round].
  2:{ eexists. split; [done|]. right. exists r. split; [done|]. split; [done|]. lia. }
  destruct (decide (m + NEEDLE = HAYSTACK + 1)%nat) as [He|Hne].
  - unfold flat_step. rewrite (proj2 (Z.ltb_ge _ _)) by lia. eexists. split; [done|]. right. exists HAYSTACK.
    split; [done|]. split; [apply (found_none m); [done|lia]|by left].
  - destruct Hn as [|Hn]; [done|]. rewrite flat_step_zero by lia. eexists. split; [done|].
    destruct (Z.eqb_spec (needle !!! i) (haystack !!! (m + i)%nat)) as [Heq|Hd].
    + pose proof (agree_S _ _ _ _ Ha Heq) as HaS. destruct (Nat.eqb_spec (S i) NEEDLE) as [He|Hlt].
      * right. exists m. split; [done|]. split; [apply found_first; [done|by rewrite <- He|lia]|right; lia].
      * left. exists (S i), m. repeat (split; [done || lia|]). right. lia.
    + left. exists O, (S m). split; [done|]. split; [lia|]. split; [lia|]. split; [apply agree_0|].
      split; [apply none_before_S; [done|]; apply (mismatch_occurs _ _ _ i); [lia|done]|].
      right. rewrite comparisons_S, (prefix_agree m i) by (done || lia). lia.
Qed.

Lemma flat_search_zero rounds : flat_search NEEDLE HAYSTACK rounds needle haystack no_table =
  Ok (Z.of_nat (if (comparisons needle haystack (strstr needle haystack) + NEEDLE <=? rounds)%nat then strstr needle haystack else HAYSTACK)).
Proof.
  unfold flat_search.
  destruct (for_upM_ind flat_at 0 rounds (fun _ st => flat_round NEEDLE HAYSTACK needle haystack no_table st) (inl (0, 0))) as (st & -> & Hst); [lia| | |].
  - left. exists O, O. split; [done|]. split; [lia|]. split; [lia|]. split; [apply agree_0|]. split; [intros k Hk; lia|by right].
  - intros n st _. apply flat_round_at.
  - rewrite res_bind_Ok. do 2 f_equal. destruct Hst as [(i & m & -> & Hi & Hm & Ha & Hb & Hn)|(r & -> & -> & Hn)].
    + destruct (strstr_first needle haystack) as [_ [Ho|Hl]]; [|by rewrite Hl, haystack_length; case_match].
      pose proof (occurs_bound _ _ _ needle_nonempty Ho). assert (m <= strstr needle haystack)%nat as Hle.
      { destruct (decide (m <= strstr needle haystack)%nat); [done|]. destruct (Hb (strstr needle haystack)); [lia|done]. }
      pose proof (comparisons_mono needle haystack _ _ Hle). destruct (Nat.leb_spec (comparisons needle haystack (strstr needle haystack) + NEEDLE) rounds); [lia|done].
    + destruct Hn as [->|Hn]; [by case_match|]. by rewrite (proj2 (Nat.leb_le _ _)) by lia.
Qed.

(** The inner loop of [kmpsearch.c]. *)
Lemma compare_loop m : (m + NEEDLE <= HAYSTACK)%nat ->
  exists i, (i < NEEDLE)%nat /\
    for_upM 0 NEEDLE (fun _ st => kmp_compare NEEDLE needle haystack (Z.of_nat m) st) (0, Z.of_nat HAYSTACK, false, false) =
    Ok (if decide (occurs needle haystack m) then (Z.of_nat NEEDLE, Z.of_nat m, true, true) else (Z.of_nat i, Z.of_nat HAYSTACK, false, true)).
Proof.
  intros Hm.
  destruct (for_upM_ind (fun j st =>
      (st = (Z.of_nat j, Z.of_nat HAYSTACK, false, false) /\ (j < NEEDLE)%nat /\ agree needle haystack m j) \/
      (st = (Z.of_nat NEEDLE, Z.of_nat m, true, true) /\ occurs needle haystack m) \/
      (exists i, st = (Z.of_nat i, Z.of_nat HAYSTACK, false, true) /\ (i < NEEDLE)%nat /\ ~ occurs needle haystack m))
    0 NEEDLE (fun _ st => kmp_compare NEEDLE needle haystack (Z.of_nat m) st) (0, Z.of_nat HAYSTACK, false, false))
    as (st & -> & [(-> & Hlt & _)|[(-> & Ho)|(i & -> & Hi & Ho)]]); [lia| | |lia| |].
  - left. split; [done|]. split; [lia|apply agree_0].
  - intros j st Hj [(-> & _ & Ha)|[(-> & Ho)|(i & -> & Hi & Ho)]]; unfold kmp_compare.
    + rewrite <- Nat2Z.inj_add, !rd_at, !res_bind_Ok by lia. destruct (Z.eqb_spec (needle !!! j) (haystack !!! (m + j)%nat)) as [Heq|Hne].
      * pose proof (agree_S _ _ _ _ Ha Heq) as HaS. destruct (Z.eqb_spec (Z.of_nat j) (Z.of_nat NEEDLE - 1)); (eexists; split; [reflexivity|]).
        -- right. left. replace (S j) with (length needle) in HaS by lia. split; [f_equal; f_equal; f_equal; lia|]. by apply agree_occurs; [lia|].
        -- left. split; [f_equal; f_equal; f_equal; lia|]. split; [lia|done].
      * eexists. split; [done|]. right. right. exists j. split; [done|]. split; [lia|]. apply (mismatch_occurs _ _ _ j); [lia|done].
    + eexists. split; [done|]. right. by left.
    + eexists. split; [done|]. right. right. by exists i.
  - exists O. split; [lia|]. by rewrite decide_True.
  - exists i. split; [done|]. by rewrite decide_False.
Qed.

Lemma kmp_round_none m : (m + NEEDLE <= HAYSTACK)%nat -> ~ occurs needle haystack m ->
  kmp_round NEEDLE needle haystack no_table (0, Z.of_nat m, Z.of_nat HAYSTACK, false) = Ok (0, Z.of_nat (S m), Z.of_nat HAYSTACK, false).
Proof.
  intros Hm Ho. unfold kmp_round. destruct (compare_loop m Hm) as (i & Hi & ->). rewrite decide_False, res_bind_Ok by done.
  by rewrite jump_zero, res_bind_Ok.
Qed.

(** A match leaves the place in the needle behind its end, where the table
    is read next. *)
Lemma kmp_round_found m : (m + NEEDLE <= HAYSTACK)%nat -> occurs needle haystack m ->
  kmp_round NEEDLE needle haystack no_table (0, Z.of_nat m, Z.of_nat HAYSTACK, false) = Fault.
Proof.
  intros Hm Ho. unfold kmp_round. destruct (compare_loop m Hm) as (i & Hi & ->). rewrite decide_True, res_bind_Ok by done.
  unfold jump. rewrite rd_Fault; [done|]. right. unfold no_table. cbn [length]. rewrite length_replicate. lia.
Qed.

Lemma kmp_rounds_none m : (m + NEEDLE <= HAYSTACK + 1)%nat -> none_before m ->
  for_upM 0 m (fun _ st => kmp_round NEEDLE needle haystack no_table st) (0, 0, Z.of_nat HAYSTACK, false) =
  Ok (0, Z.of_nat m, Z.of_nat HAYSTACK, false).
Proof.
  intros Hm Hb.
  destruct (for_upM_ind (fun k st => st = (0, Z.of_nat k, Z.of_nat HAYSTACK, false)) 0 m
    (fun _ st => kmp_round NEEDLE needle haystack no_table st) (0, 0, Z.of_nat HAYSTACK, false)) as (st & -> & ->); [lia|done| |done].
  intros k st Hk ->. eexists. split; [|reflexivity]. apply kmp_round_none; [lia|]. apply Hb. lia.
Qed.

Lemma kmp_rounds : 
  for_upM 0 (HAYSTACK - (NEEDLE - 1)) (fun _ st => kmp_round NEEDLE needle haystack no_table st) (0, 0, Z.of_nat HAYSTACK, false) =
  if decide (strstr needle haystack = HAYSTACK) then Ok (0, Z.of_nat (HAYSTACK - (NEEDLE - 1)), Z.of_nat HAYSTACK, false) else Fault.
Proof.
  destruct (strstr_first needle haystack) as [Hb Hr]. case_decide as Hs.
  - apply kmp_rounds_none; [lia|]. intros k Hk. apply Hb. lia.
  - destruct Hr as [Ho|Hl]; [|by rewrite haystack_length in Hl]. pose proof (occurs_bound _ _ _ needle_nonempty Ho) as Hm.
    rewrite (for_upM_split 0 (strstr needle haystack)) by lia. rewrite kmp_rounds_none by (done || lia). rewrite res_bind_Ok.
    rewrite for_upM_step by lia. by rewrite kmp_round_found by (done || lia).
Qed.

End Naive.

(** C37: [kmpsearch_flat.c], for every needle of two characters or more and
    every haystack that is not shorter, whatever the uninitialised table
    holds: it returns the first place where the needle occurs if the
    comparisons up to that place (at each place before it, the characters that
    agree and the one that does not), with those of the needle itself, are at
    most twice the length of the haystack, the bound of its loop; otherwise,
    and when there is no such place, it returns the length of the haystack. *)
Theorem kmpsearch_flat_correct needle haystack fail :
  (2 <= length needle <= length haystack)%nat -> length fail = length needle ->
  let place := strstr needle haystack in
  kmpsearch_flat (length needle) (length haystack) needle haystack fail =
  Ok (Z.of_nat (if (comparisons needle haystack place + length needle <=? length haystack * 2)%nat then place else length haystack)).
Proof.
  intros Hs Hl. unfold kmpsearch_flat. rewrite (flat_table_zero _ (length haystack) needle haystack fail), res_bind_Ok by done.
  by apply (flat_search_zero _ _ _ _ fail).
Qed.

(** [kmpsearch.c] reads the table behind its end exactly when the needle
    occurs; otherwise it returns the length of the haystack. *)
Theorem kmpsearch_faults needle haystack fail :
  (2 <= length needle <= length haystack)%nat -> length fail = length needle ->
  kmpsearch (length needle) (length haystack) needle haystack fail =
  if decide (strstr needle haystack = length haystack) then Ok (Z.of_nat (length haystack)) else Fault.
Proof.
  intros Hs Hl. unfold kmpsearch. rewrite (kmp_table_zero _ (length haystack) needle haystack fail), res_bind_Ok by done. rewrite (kmp_rounds _ _ _ _ fail) by done. by case_decide.
Qed.

(** ** The failure table of [kmpsearch_dfa.c]

    [border needle j t]: the first [j] characters of the needle are also the
    last [j] of its first [t]. *)
Definition border (needle : list Z) (j t : nat) : Prop :=
  (j < t)%nat /\ forall k, (k < j)%nat -> needle !!! k = needle !!! (t - j + k)%nat.

(** An entry of the table is the longest border. *)
Definition longest_border (needle : list Z) (t : nat) (x : Z) : Prop :=
  exists j, x = Z.of_nat j /\ border needle j t /\ forall j', border needle j' t -> (j' <= j)%nat.

Definition failure_table (needle f : list Z) (t : nat) : Prop :=
  length f = length needle /\ f !! O = Some (-1) /\
  forall k, (1 <= k < t)%nat -> exists x, f !! k = Some x /\ longest_border needle k x.

Section Borders.
Context (needle : list Z).

Lemma border_0 t : (0 < t)%nat -> border needle 0 t.
Proof. intros Ht. split; [done|]. intros k Hk. lia. Qed.

Lemma border_grow j t : border needle j t -> needle !!! j = needle !!! t -> border needle (S j) (S t).
Proof.
  intros [Hj Hk] Heq. split; [lia|]. intros k Hlt. destruct (decide (k = j)) as [->|].
  - replace (S t - S j + j)%nat with t by lia. done.
  - replace (S t - S j + k)%nat with (t - j + k)%nat by lia. apply Hk. lia.
Qed.

Lemma border_shrink j t : border needle (S j) (S t) -> border needle j t /\ needle !!! j = needle !!! t.
Proof.
  intros [Hj Hk]. split; [split; [lia|]|].
  - intros k Hlt. by rewrite (Hk k) by lia.
  - rewrite (Hk j) by lia. f_equal. lia.
Qed.

Lemma border_trans i j t : border needle i j -> border needle j t -> border needle i t.
Proof.
  intros [Hi Hki] [Hj Hkj]. split; [lia|]. intros k Hk. rewrite (Hki k), (Hkj (j - i + k)%nat) by lia. f_equal. lia.
Qed.

Lemma border_inside i j t : border needle i t -> border needle j t -> (i < j)%nat -> border needle i j.
Proof.
  intros [Hi Hki] [Hj Hkj] Hlt. split; [done|]. intros k Hk. rewrite (Hki k), (Hkj (j - i + k)%nat) by lia. f_equal. lia.
Qed.

(** The candidates that may still be extended by the next character. *)
Definition candidate (c t : nat) : Prop :=
  border needle c t /\ forall j, border needle j t -> needle !!! j = needle !!! t -> (j <= c)%nat.

Lemma candidate_match c t : candidate c t -> needle !!! c = needle !!! t ->
  longest_border needle (S t) (Z.of_nat (S c)) /\ candidate (S c) (S t).
Proof.
  intros [Hb Hmax] Heq. pose proof (border_grow _ _ Hb Heq) as Hg.
  assert (forall j', border needle j' (S t) -> (j' <= S c)%nat) as Hm.
  { intros [|j'] Hj'; [lia|]. apply border_shrink in Hj' as [Hj' He]. specialize (Hmax _ Hj' He). lia. }
  split; [by exists (S c)|]. split; [done|]. intros j Hj _. by apply Hm.
Qed.

Lemma candidate_back c c' t : candidate c t -> needle !!! c <> needle !!! t -> longest_border needle c (Z.of_nat c') ->
  candidate c' t /\ (c' < c)%nat.
Proof.
  intros [Hb Hmax] Hne (j & Hj & Hbj & Hlong). apply Nat2Z.inj in Hj as <-. split; [|apply Hbj]. split; [by eapply border_trans|].
  intros j Hj He. apply Hlong. apply (border_inside _ _ t); [done|done|]. specialize (Hmax _ Hj He).
  destruct (decide (j = c)) as [->|]; [done|lia].
Qed.

Lemma candidate_none t : candidate 0 t -> needle !!! O <> needle !!! t ->
  longest_border needle (S t) (Z.of_nat 0) /\ candidate 0 (S t).
Proof.
  intros [Hb Hmax] Hne.
  assert (forall j', border needle j' (S t) -> (j' <= 0)%nat) as Hm.
  { intros [|j'] Hj'; [lia|]. apply border_shrink in Hj' as [Hj' He]. specialize (Hmax _ Hj' He). replace j' with O in He by lia. done. }
  split; [exists O; split; [done|]; split; [|done]; apply border_0; lia|]. split; [apply border_0; lia|]. intros j Hj _. by apply Hm.
Qed.

Lemma failure_table_write f t x : failure_table needle f t -> (1 <= t < length needle)%nat -> longest_border needle t x ->
  failure_table needle (<[t := x]> f) (S t).
Proof.
  intros (Hl & H0 & Hf) Ht Hx. split; [by rewrite length_insert|]. rewrite list_lookup_insert_ne by lia. split; [done|].
  intros k Hk. destruct (decide (k = t)) as [->|]; [exists x; by rewrite list_lookup_insert_eq by lia|].
  rewrite list_lookup_insert_ne by done. apply Hf. lia.
Qed.

Lemma fail_init_table fail : (2 <= length needle)%nat -> length fail = length needle ->
  exists f, fail_init fail = Ok f /\ failure_table needle f 2.
Proof.
  intros Hn Hl. unfold fail_init. rewrite (wr_at _ 0) by lia. rewrite res_bind_Ok, (wr_at _ 1) by (rewrite length_insert; lia).
  eexists. split; [reflexivity|]. apply failure_table_write; [|lia|].
  - split; [by rewrite length_insert|]. split; [apply list_lookup_insert_eq; lia|]. intros k Hk. lia.
  - exists O. split; [done|]. split; [apply border_0; lia|]. intros j' [Hj' _]. lia.
Qed.

Definition table_state (n : nat) (st : list Z * Z * Z) : Prop :=
  exists f t c, st = (f, Z.of_nat (S t), Z.of_nat c) /\ (1 <= t < length needle)%nat /\ failure_table needle f (S t) /\ candidate c t /\
    (S t = length needle \/ 4 + n <= 2 * S t - c)%nat.

Lemma dfa_table_step_state n st : (n < 2 * length needle)%nat -> table_state n st ->
  exists st', dfa_table_step (length needle) needle st = Ok st' /\ table_state (S n) st'.
Proof.
  intros Hn (f & t & c & -> & Ht & Hf & Hc & Hp). pose proof Hc as [[Hct _] _]. unfold dfa_table_step.
  destruct (Z.ltb_spec (Z.of_nat (S t)) (Z.of_nat (length needle))).
  2:{ eexists. split; [done|]. exists f, t, c. repeat (split; [done|]). left. lia. }
  assert (length f = length needle) as Hlf by apply Hf.
  replace (Z.of_nat (S t) - 1) with (Z.of_nat t) by lia. rewrite !rd_at, !res_bind_Ok by lia.
  destruct (Z.eqb_spec (needle !!! t) (needle !!! c)) as [Heq|Hne].
  - rewrite wr_at, res_bind_Ok by lia. eexists. split; [reflexivity|]. destruct (candidate_match c t Hc (eq_sym Heq)) as [Hlong Hc'].
    exists (<[S t := Z.of_nat (S c)]> f), (S t), (S c). split; [f_equal; [f_equal; [f_equal|]|]; lia|].
    split; [lia|]. split; [apply failure_table_write; done || lia|]. split; [done|]. lia.
  - destruct (Z.ltb_spec 0 (Z.of_nat c)).
    + destruct Hf as (Hl & Hf0 & Hf). destruct (Hf c) as (x & Hx & Hlong); [lia|]. rewrite ?res_bind_Ok, (list_lookup_total_correct _ _ _ Hx).
      eexists. split; [done|]. pose proof Hlong as (c' & -> & _). destruct (candidate_back c c' t Hc (not_eq_sym Hne) Hlong) as [Hc' Hlt].
      exists f, t, c'. split; [done|]. split; [lia|]. split; [done|]. split; [done|]. lia.
    + assert (c = O) as -> by lia. rewrite wr_at, res_bind_Ok by lia. eexists. split; [reflexivity|].
      destruct (candidate_none t Hc (not_eq_sym Hne)) as [Hlong Hc'].
      exists (<[S t := Z.of_nat 0]> f), (S t), O. split; [repeat f_equal; lia|].
      split; [lia|]. split; [apply failure_table_write; done || lia|]. split; [done|]. lia.
Qed.

Lemma dfa_table_failure fail : (2 <= length needle)%nat -> length fail = length needle ->
  exists f, dfa_table (length needle) needle fail = Ok f /\ failure_table needle f (length needle).
Proof.
  intros Hn Hl. unfold dfa_table. destruct (fail_init_table fail Hn Hl) as (f & -> & Hf). rewrite res_bind_Ok.
  destruct (for_upM_ind table_state 0 (2 * length needle) (fun _ st => dfa_table_step (length needle) needle st) (f, 2, 0))
    as (st & -> & (f' & t & c & -> & Ht & Hf' & Hc & Hp)); [lia| | |].
  - exists f, 1%nat, O. split; [done|]. split; [lia|]. split; [done|]. split; [|lia]. split; [apply border_0; lia|]. intros j [Hj _]. lia.
  - intros n st Hk. apply dfa_table_step_state. lia.
  - rewrite res_bind_Ok. exists f'. split; [done|]. destruct Hp as [<-|Hp]; [done|]. lia.
Qed.

End Borders.

(** ** The search of [kmpsearch_dfa.c] with a needle of four characters

    A jump moves by the difference of two table entries, not by the length of
    what was matched less an entry.  For four characters the only jump that
    lands in a wrong place has no effect but one comparison that fails. *)
Section Four.
Context (needle haystack f : list Z).
Hypothesis four : length needle = 4%nat.
Hypothesis haystack_four : (4 <= length haystack)%nat.
Hypothesis table : failure_table needle f 4.

Lemma entry (k : nat) : (1 <= k < 4)%nat -> exists j, rd f (Z.of_nat k) = Ok (Z.of_nat j) /\ border needle j k /\ forall j', border needle j' k -> (j' <= j)%nat.
Proof.
  intros Hk. destruct table as (_ & _ & Ht). destruct (Ht k Hk) as (x & Hx & j & -> & Hj). exists j. split; [by apply rd_lookup|done].
Qed.

Definition restart (m : nat) : Z * Z := (0, Z.of_nat (S m)).

Lemma jump_not_positive (i m : nat) x : rd f (Z.of_nat i) = Ok x -> x <= 0 -> jump f (Z.of_nat i) (Z.of_nat m) = Ok (restart m).
Proof. intros Hx Hle. unfold jump. rewrite Hx, res_bind_Ok, (proj2 (Z.ltb_ge 0 x)) by done. unfold restart. do 2 f_equal. lia. Qed.

Lemma jump_positive (i m j j' : nat) : rd f (Z.of_nat i) = Ok (Z.of_nat j) -> (0 < j)%nat -> rd f (Z.of_nat j) = Ok (Z.of_nat j') -> (j' <= j)%nat ->
  jump f (Z.of_nat i) (Z.of_nat m) = Ok (Z.of_nat j, Z.of_nat (m + (j - j'))).
Proof. intros Hi Hj Hj' Hle. unfold jump. rewrite Hi, res_bind_Ok, (proj2 (Z.ltb_lt 0 _)), Hj', res_bind_Ok by lia. do 2 f_equal. lia. Qed.

(** A place that was reached: the needle agrees so far, or the next
    comparison is the second one and fails. *)
Definition reached (m i : nat) : Prop :=
  agree needle haystack m i \/ (i = 1%nat /\ needle !!! 1%nat <> haystack !!! (m + 1)%nat).

Lemma jump_restart (i m : nat) : (i < 4)%nat -> (exists x, rd f (Z.of_nat i) = Ok x /\ x <= 0) ->
  exists i' m', jump f (Z.of_nat i) (Z.of_nat m) = Ok (Z.of_nat i', Z.of_nat m') /\ (i' < 4)%nat /\ m' = S m /\ (4 * m + i < 4 * m' + i')%nat /\ reached m' i'.
Proof.
  intros Hi (x & Hx & Hle). exists O, (S m). rewrite (jump_not_positive i m x) by done. repeat (split; [done || lia|]). left. apply agree_0.
Qed.

Lemma jump_1 : exists x, rd f (Z.of_nat 1) = Ok x /\ x <= 0.
Proof. destruct (entry 1) as (j & Hj & [Hb _] & _); [lia|]. exists (Z.of_nat j). split; [done|lia]. Qed.

(** A jump by one place to the second character. *)
Lemma jump_to_1 (i m : nat) : rd f (Z.of_nat i) = Ok (Z.of_nat 1) -> jump f (Z.of_nat i) (Z.of_nat m) = Ok (Z.of_nat 1, Z.of_nat (S m)).
Proof.
  intros Hi. destruct (entry 1) as (j & Hj & [Hb _] & _); [lia|]. rewrite (jump_positive i m 1 j) by (done || lia). do 3 f_equal. lia.
Qed.

Lemma jump_reached (i m : nat) : (i < 4)%nat -> reached m i -> needle !!! i <> haystack !!! (m + i)%nat ->
  exists i' m', jump f (Z.of_nat i) (Z.of_nat m) = Ok (Z.of_nat i', Z.of_nat m') /\ (i' < 4)%nat /\ m' = S m /\ (4 * m + i < 4 * m' + i')%nat /\ reached m' i'.
Proof.
  intros Hi Hr Hne. destruct i as [|[|[|[|i]]]]; [| | | |lia].
  - apply jump_restart; [lia|]. exists (-1). split; [|done]. apply rd_lookup, table.
  - apply jump_restart; [lia|]. by apply jump_1.
  - destruct Hr as [Ha|[? _]]; [|done]. destruct (entry 2) as ([|[|j]] & Hj & [Hb Hk] & _); [lia| | |lia].
    + apply jump_restart; [lia|]. by exists 0.
    + exists 1%nat, (S m). rewrite jump_to_1 by done. repeat (split; [done || lia|]). left.
      apply agree_S; [apply agree_0|]. rewrite (Hk O) by lia. change (2 - 1 + 0)%nat with 1%nat. rewrite (Ha 1%nat) by lia. f_equal. lia.
  - destruct Hr as [Ha|[? _]]; [|done]. destruct (entry 3) as ([|[|[|j]]] & Hj & [Hb Hk] & Hmax); [lia| | | |lia].
    + apply jump_restart; [lia|]. by exists 0.
    + exists 1%nat, (S m). rewrite jump_to_1 by done. repeat (split; [done || lia|]).
      right. split; [done|]. replace (S m + 1)%nat with (m + 2)%nat by lia. rewrite <- (Ha 2%nat) by lia. intros Heq.
      assert (border needle 2 3) as Hb2; [|specialize (Hmax _ Hb2); lia]. split; [lia|]. intros [|[|k]] Hk2; [|done|lia].
      rewrite (Hk O) by lia. done.
    + destruct (entry 2) as (j2 & Hj2 & [Hb2 Hk2] & Hmax2); [lia|].
      assert (1 <= j2)%nat as Hj1. { apply Hmax2. split; [lia|]. intros k Hk1. replace k with O by lia. apply (Hk O). lia. }
      exists 2%nat, (S m). rewrite (jump_positive 3 m 2 j2) by (done || lia). split; [do 3 f_equal; lia|]. repeat (split; [done || lia|]). left.
      intros k Hlt. rewrite (Hk k) by lia. rewrite (Ha (3 - 2 + k)%nat) by lia. f_equal. lia.
Qed.

Definition searching (n : nat) (st : Z * Z * Z) : Prop :=
  (exists i m, st = (Z.of_nat i, Z.of_nat m, Z.of_nat (length haystack)) /\ (i < 4)%nat /\ (m + 4 <= (length haystack) + 1)%nat /\ reached m i /\ none_before needle haystack m /\
     (m + 4 = (length haystack) + 1 \/ n <= 4 * m + i)%nat) \/
  st = (4, Z.of_nat (length haystack) - 3, Z.of_nat (strstr needle haystack)).

Lemma dfa_step_searching n st : searching n st -> exists st', dfa_step 4 (length haystack) needle haystack f st = Ok st' /\ searching (S n) st'.
Proof.
  intros [(i & m & -> & Hi & Hm & Hr & Hb & Hp)| ->]; unfold dfa_step; change (Z.of_nat 4 - 1) with 3.
  2:{ rewrite Z.ltb_irrefl. eexists. split; [done|]. by right. }
  destruct (Z.ltb_spec (Z.of_nat m) (Z.of_nat (length haystack) - 3)).
  2:{ eexists. split; [done|]. left. exists i, m. repeat (split; [done|]). left. lia. }
  rewrite <- Nat2Z.inj_add, !rd_at, !res_bind_Ok by lia. destruct (Z.eqb_spec (needle !!! i) (haystack !!! (m + i)%nat)) as [Heq|Hne].
  - assert (agree needle haystack m i) as Ha by (destruct Hr as [Ha|[-> Hne]]; done).
    pose proof (agree_S _ _ _ _ Ha Heq) as HaS. destruct (Z.eqb_spec (Z.of_nat i) 3); (eexists; split; [done|]).
    + right. replace (S i) with 4%nat in HaS by lia. rewrite (found_first 4 (length haystack) needle haystack) with (m := m) by (done || lia). do 2 f_equal. lia.
    + left. exists (S i), m. split; [do 2 f_equal; lia|]. repeat (split; [done || lia|]). split; [by left|]. split; [done|]. lia.
  - destruct (jump_reached i m Hi Hr Hne) as (i' & m' & -> & Hi' & -> & Hpot & Hr'). rewrite res_bind_Ok. eexists. split; [done|].
    left. exists i', (S m). repeat (split; [done || lia|]). split; [|lia].
    apply none_before_S; [done|]. apply (mismatch_occurs _ _ _ i); [lia|done].
Qed.

End Four.

Section Rounds.
Context (needle haystack f : list Z).
Hypothesis four : length needle = 4%nat.
Hypothesis haystack_four : (4 <= length haystack)%nat.
Hypothesis table : failure_table needle f 4.

Lemma dfa_search_rounds rounds : exists r, dfa_search 4 (length haystack) rounds needle haystack f = Ok r /\
  (r = Z.of_nat (strstr needle haystack) \/ (r = Z.of_nat (length haystack) /\ (rounds < 4 * length haystack)%nat)).
Proof.
  unfold dfa_search.
  destruct (for_upM_ind (searching needle haystack) 0 rounds (fun _ st => dfa_step 4 (length haystack) needle haystack f st)
    (0, 0, Z.of_nat (length haystack))) as (st & -> & Hst); [lia| | |].
  - left. exists O, O. repeat (split; [done || lia|]). split; [left; apply agree_0|]. split; [intros k Hk; lia|]. lia.
  - intros n st _. by apply dfa_step_searching.
  - destruct Hst as [(i & m & -> & Hi & Hm & Hr & Hb & Hp)| ->]; rewrite res_bind_Ok; (eexists; split; [done|]); [|by left].
    destruct (decide (m + 4 = length haystack + 1)%nat) as [He|Hne]; [left|right; split; [done|]; lia].
    by rewrite (found_none 4 (length haystack) needle haystack) with (m := m) by (done || lia).
Qed.

End Rounds.

(** [kmpsearch_dfa.c] makes the failure table of any needle within the stated
    number of rounds. *)
Theorem dfa_table_correct needle fail :
  (2 <= length needle)%nat -> length fail = length needle ->
  exists f, dfa_table (length needle) needle fail = Ok f /\ failure_table needle f (length needle).
Proof. apply dfa_table_failure. Qed.

Lemma dfa_table_correct_witness : exists f, dfa_table 6 [1; 2; 2; 1; 2; 2] (replicate 6 7) = Ok f /\ failure_table [1; 2; 2; 1; 2; 2] f 6.
Proof. apply (dfa_table_correct [1; 2; 2; 1; 2; 2]); [cbn; lia|reflexivity]. Defined.

(** [kmpsearch_dfa.c] with its needle of four characters: twice as many rounds
    as the program makes would find the first place where the needle occurs
    in any haystack; with the program's rounds no wrong place is returned. *)
Theorem kmpsearch_dfa_sound needle haystack fail :
  length needle = 4%nat -> (4 <= length haystack)%nat -> length fail = 4%nat ->
  (exists f, dfa_table 4 needle fail = Ok f /\
    dfa_search 4 (length haystack) (4 * length haystack) needle haystack f = Ok (Z.of_nat (strstr needle haystack))) /\
  exists r, kmpsearch_dfa 4 (length haystack) needle haystack fail = Ok r /\
    (r = Z.of_nat (strstr needle haystack) \/ r = Z.of_nat (length haystack)).
Proof.
  intros Hn Hh Hf. destruct (dfa_table_failure needle fail) as (f & Ht & Hft); [lia|congruence|].
  rewrite Hn in Ht, Hft. unfold kmpsearch_dfa. rewrite Ht, res_bind_Ok. split.
  - exists f. split; [done|]. destruct (dfa_search_rounds needle haystack f Hn Hh Hft (4 * length haystack)) as (r & -> & [->|[_ Hlt]]); [done|lia].
  - destruct (dfa_search_rounds needle haystack f Hn Hh Hft (2 * length haystack)) as (r & -> & Hr). exists r. split; [done|]. tauto.
Qed.

Lemma kmpsearch_dfa_sound_witness :
  exists r, kmpsearch_dfa 4 8 [1; 2; 1; 3] [1; 2; 1; 2; 1; 3; 1; 1] (replicate 4 7) = Ok r /\
    (r = Z.of_nat (strstr [1; 2; 1; 3] [1; 2; 1; 2; 1; 3; 1; 1]) \/ r = 8).
Proof. apply (kmpsearch_dfa_sound [1; 2; 1; 3] [1; 2; 1; 2; 1; 3; 1; 1] (replicate 4 7)); [reflexivity|cbn; lia|reflexivity]. Defined.

(** At the sizes of [kmpsearch_dfa.c] the rounds run out before the needle
    [abac] is found at 12; and for needles of six characters the wrong jump
    makes the search report a place where the needle does not occur. *)
Theorem kmpsearch_dfa_wrong :
  (let haystack := [1; 2; 1; 2; 1; 2; 1; 2; 1; 2; 1; 2; 1; 2; 1; 3] in
   strstr [1; 2; 1; 3] haystack = 12%nat /\ kmpsearch_dfa 4 16 [1; 2; 1; 3] haystack (replicate 4 0) = Ok 16) /\
  (let haystack := [1; 2; 2; 1; 2; 1; 2; 2] in
   strstr [1; 2; 2; 1; 2; 2] haystack = 8%nat /\ kmpsearch_dfa 6 8 [1; 2; 2; 1; 2; 2] haystack (replicate 6 0) = Ok 2).
Proof. split; split; vm_compute; reflexivity. Qed.

(** The rounds that [kmpsearch_flat.c] states for its search are not enough:
    its table has no positive entry, and on this input at its own sizes it
    misses the needle at the end of the haystack. *)
Theorem kmpsearch_flat_rounds :
  let needle := replicate 15 1 ++ [2] in
  let haystack := replicate 63 1 ++ [2] in
  flat_table 16 needle (replicate 16 0) = Ok (-1 :: replicate 15 0) /\
  strstr needle haystack = 48%nat /\ comparisons needle haystack 48 = 768%nat /\
  kmpsearch_flat 16 64 needle haystack (replicate 16 0) = Ok 64.
Proof. repeat split; vm_compute; reflexivity. Qed.

Lemma kmpsearch_flat_correct_witness :
  kmpsearch_flat 4 8 [1; 2; 1; 3] [1; 2; 1; 2; 1; 3; 1; 1] (replicate 4 7) = Ok 2.
Proof. apply (kmpsearch_flat_correct [1; 2; 1; 3] [1; 2; 1; 2; 1; 3; 1; 1] (replicate 4 7)); [cbn; lia|reflexivity]. Defined.

Lemma kmpsearch_faults_witness :
  kmpsearch 4 8 [1; 2; 1; 3] [1; 2; 1; 2; 1; 3; 1; 1] (replicate 4 7) = Fault /\
  kmpsearch 4 8 [1; 2; 1; 4] [1; 2; 1; 2; 1; 3; 1; 1] (replicate 4 7) = Ok 8.
Proof.
  split.
  - apply (kmpsearch_faults [1; 2; 1; 3] [1; 2; 1; 2; 1; 3; 1; 1] (replicate 4 7)); [cbn; lia|reflexivity].
  - apply (kmpsearch_faults [1; 2; 1; 4] [1; 2; 1; 2; 1; 3; 1; 1] (replicate 4 7)); [cbn; lia|reflexivity].
Defined.
