(* ===== verification/Horspool.v ===== *)
(** Searching with an occurrence table: [pepper/apps/horspool.c],
    [horspool_flat.c], and the programs that only make the table,
    [boyer_occur_benes.c] and [boyer_occur_merkle.c].

    The table says how far the needle can move when the haystack shows a
    character under its last place.  All variables of [horspool.c] are bytes,
    the output of all programs too; the sizes are parameters.
    [horspool_flat.c] is taken as plain C, where the attribute [buffet::fsm] of
    its loop means nothing; the rounds the attribute allows the compiled loop
    (fewer than the places of the haystack) are not modelled. *)
From Stdlib Require Import ZArith Lia.
From stdpp Require Import base numbers list.
From S2P Require Import Prelude Ram KmpSearch.

Local Open Scope Z_scope.

Section Horspool.
Context (ALPHABET_LENGTH PATTERN_LENGTH HAYSTACK_LENGTH : nat).

(** ** The code *)

(** The table, and [boyer_occur_benes.c]. *)
Definition occ_table (needle table : list Z) : res (list Z) :=
  table ← for_upM 0 ALPHABET_LENGTH (fun i table => wr table (Z.of_nat i) (u8 (Z.of_nat PATTERN_LENGTH))) table;
  for_upM 0 (PATTERN_LENGTH - 1)
    (fun i table => addr ← rd needle (Z.of_nat i); wr table addr (u8 (Z.of_nat PATTERN_LENGTH - 1 - Z.of_nat i))) table.

Definition boyer_occur_benes (input output : list Z) : res (list Z) := occ_table input output.

(** The same in random access memory. *)
Definition boyer_occur_merkle `{Ram Z} (input output : list Z) (m : ram Z) : res (list Z * ram Z) :=
  let m := for_up 0 ALPHABET_LENGTH (fun i m => ramput (Z.of_nat i) (u8 (Z.of_nat PATTERN_LENGTH)) m) m in
  m ← for_upM 0 (PATTERN_LENGTH - 1)
    (fun i m => addr ← rd input (Z.of_nat i); Ok (ramput addr (u8 (Z.of_nat PATTERN_LENGTH - 1 - Z.of_nat i)) m)) m;
  output ← for_upM 0 ALPHABET_LENGTH (fun i output => old ← rd output (Z.of_nat i); wr output (Z.of_nat i) (ramget (Z.of_nat i) old m)) output;
  Ok (output, m).

(** [horspool.c] *)
Definition all_equal (needle haystack : list Z) (hoff : Z) : res bool :=
  mismatch ← for_upM 0 PATTERN_LENGTH
    (fun i mismatch =>
       a ← rd haystack (u8 (hoff + Z.of_nat i));
       b ← rd needle (Z.of_nat i);
       Ok (if a =? b then mismatch else true)) false;
  Ok (negb mismatch).

Definition horspool_round (needle haystack table : list Z) (st : Z * bool * Z) : res (Z * bool * Z) :=
  let '(hoff, done, output) := st in
  if done : bool then Ok st
  else
    found ← all_equal needle haystack hoff;
    if found : bool then Ok (hoff, true, u8 hoff)
    else
      rchar ← rd haystack (u8 (hoff + (Z.of_nat PATTERN_LENGTH - 1)));
      shift ← rd table rchar;
      let hoff := u8 (hoff + shift) in
      Ok (hoff, Z.of_nat HAYSTACK_LENGTH <? hoff + Z.of_nat PATTERN_LENGTH, output).

Definition horspool (needle haystack table : list Z) : res Z :=
  table ← occ_table needle table;
  '(_, _, output) ← for_upM 0 (1 + HAYSTACK_LENGTH - PATTERN_LENGTH) (fun _ st => horspool_round needle haystack table st)
    (0, false, u8 (Z.of_nat HAYSTACK_LENGTH));
  Ok output.

(** [horspool_flat.c]: the comparison goes from the last character to the
    first, and the offsets are [int]. *)
Fixpoint back_compare (needle haystack : list Z) (i : nat) (hoff_i : Z) : res bool :=
  a ← rd haystack hoff_i;
  b ← rd needle (Z.of_nat i);
  if a =? b then match i with O => Ok true | S i' => back_compare needle haystack i' (hoff_i - 1) end
  else Ok false.

Definition horspool_flat_step (needle haystack table : list Z) (st : Z * Z) : res ((Z * Z) + Z) :=
  let '(hlen, hoff) := st in
  if 0 <=? hlen then
    found ← back_compare needle haystack (PATTERN_LENGTH - 1) (hoff + (Z.of_nat PATTERN_LENGTH - 1));
    if found : bool then Ok (inr (u8 hoff))
    else
      rchar ← rd haystack (hoff + (Z.of_nat PATTERN_LENGTH - 1));
      shift ← rd table rchar;
      Ok (inl (hlen - shift, hoff + shift))
  else Ok (inr (u8 (Z.of_nat HAYSTACK_LENGTH))).

Definition horspool_flat (fuel : nat) (needle haystack table : list Z) : res Z :=
  table ← occ_table needle table;
  loop fuel (horspool_flat_step needle haystack table) (Z.of_nat HAYSTACK_LENGTH - Z.of_nat PATTERN_LENGTH, 0).

End Horspool.

(** ** What the table holds

    The distance from the last place of the needle back to the nearest place
    before it that has the character. *)

Definition distance (needle : list Z) (i : nat) (c : Z) : nat :=
  match list_find (fun x => x = c) (reverse (take i needle)) with
  | Some (k, _) => length needle - i + k
  | None => length needle
  end.

Definition occurrence (needle : list Z) (c : Z) : nat := distance needle (length needle - 1) c.

Lemma u8_len (z : Z) : 0 <= z < 256 -> u8 z = z.
Proof. intros Hz. apply wrapu_small. split; [lia|]. cbn. lia. Qed.

Section Table.
Context (A : nat) (needle : list Z).
Hypothesis needle_size : (1 <= length needle <= 255)%nat.

Lemma distance_0 c : distance needle 0 c = length needle.
Proof. done. Qed.

Lemma distance_S i c : (i < length needle)%nat ->
  distance needle (S i) c = if decide (needle !!! i = c) then (length needle - S i)%nat else distance needle i c.
Proof.
  intros Hi. unfold distance. rewrite (take_S_r _ _ (needle !!! i)) by (by apply list_lookup_lookup_total_lt).
  rewrite reverse_app. cbn [reverse app rev_append list_find]. change (reverse [needle !!! i] ++ reverse (take i needle)) with (needle !!! i :: reverse (take i needle)).
  cbn [list_find]. case_decide; [lia|]. destruct (list_find _ (reverse (take i needle))) as [[k x]|]; cbn; [lia|done].
Qed.

Lemma distance_range i c : (i < length needle)%nat -> (1 <= distance needle i c <= length needle)%nat.
Proof.
  induction i as [|i IH]; intros Hi; [rewrite distance_0; lia|]. rewrite distance_S by lia. case_decide; [lia|]. apply IH. lia.
Qed.

Lemma occurrence_range c : (1 <= occurrence needle c <= length needle)%nat.
Proof. apply distance_range. lia. Qed.

(** A place that has the character is at least that far away. *)
Lemma distance_le n i : (i < n)%nat -> (n <= length needle)%nat -> (distance needle n (needle !!! i) <= length needle - 1 - i)%nat.
Proof.
  induction n as [|n IH]; intros Hi Hn; [lia|]. rewrite distance_S by lia. case_decide as Hc; [lia|].
  apply IH; [|lia]. destruct (decide (i = n)) as [->|]; [done|lia].
Qed.

Lemma tabulate_insert {B} n (f : nat -> B) i x : <[i := x]> (tabulate n f) = tabulate n (fun k => if decide (k = i) then x else f k).
Proof.
  apply list_eq. intros k. destruct (decide (i < n)%nat).
  - destruct (decide (k = i)) as [->|Hne].
    + rewrite list_lookup_insert_eq by (by rewrite tabulate_length). unfold tabulate. rewrite list_lookup_fmap, lookup_seq_lt by lia. cbn. by rewrite decide_True.
    + rewrite list_lookup_insert_ne by done. unfold tabulate. rewrite !list_lookup_fmap. destruct (decide (k < n)%nat).
      * rewrite lookup_seq_lt by lia. cbn. by rewrite decide_False.
      * by rewrite lookup_seq_ge by lia.
  - rewrite list_insert_ge by (rewrite tabulate_length; lia). unfold tabulate. rewrite !list_lookup_fmap. destruct (decide (k < n)%nat).
    + rewrite lookup_seq_lt by lia. cbn. rewrite decide_False by lia. done.
    + by rewrite lookup_seq_ge by lia.
Qed.

Definition in_alphabet (c : Z) : Prop := 0 <= c < Z.of_nat A.

Definition occ_entries (i : nat) : list Z := tabulate A (fun c => Z.of_nat (distance needle i (Z.of_nat c))).

Lemma occ_table_entries table : length table = A -> Forall in_alphabet needle ->
  occ_table A (length needle) needle table = Ok (occ_entries (length needle - 1)).
Proof.
  intros Hl Hc. unfold occ_table.
  rewrite (for_upM_fill A _ (fun _ => Z.of_nat (length needle))) by (try done; intros i l' Hi Hl'; rewrite wr_at by lia; by rewrite u8_len by lia).
  rewrite res_bind_Ok.
  destruct (for_upM_ind (fun i table => table = occ_entries i) 0 (length needle - 1)
    (fun i table => addr ← rd needle (Z.of_nat i); wr table addr (u8 (Z.of_nat (length needle) - 1 - Z.of_nat i)))
    (tabulate A (fun _ => Z.of_nat (length needle)))) as (t & -> & ->); [lia|done| |done].
  intros i t Hi ->. assert (in_alphabet (needle !!! i)) as Hci.
  { rewrite Forall_lookup in Hc. apply (Hc i). apply list_lookup_lookup_total_lt. lia. }
  rewrite rd_at, res_bind_Ok, u8_len by lia. rewrite wr_Ok by (unfold occ_entries; rewrite tabulate_length; apply Hci).
  eexists. split; [done|]. unfold occ_entries. rewrite tabulate_insert. apply tabulate_ext. intros c Hclt.
  rewrite distance_S by lia. unfold in_alphabet in Hci. do 2 case_decide; lia.
Qed.

(** [boyer_occur_merkle.c] computes the same table when the memory has a
    cell for every character. *)
Lemma merkle_entries `{RamLaws Z} output m : length output = A -> Forall in_alphabet needle ->
  (forall c, in_alphabet c -> ram_addr c = true) ->
  exists m', boyer_occur_merkle A (length needle) needle output m = Ok (occ_entries (length needle - 1), m').
Proof.
  intros Hl Hc Haddr. unfold boyer_occur_merkle.
  set (m0 := for_up 0 A (fun i m => ramput (Z.of_nat i) (u8 (Z.of_nat (length needle))) m) m).
  assert (forall c old, (c < A)%nat -> ramget (Z.of_nat c) old m0 = Z.of_nat (length needle)) as Hm0.
  { unfold m0. apply (for_up_ind (fun i m => forall c old, (c < i)%nat -> ramget (Z.of_nat c) old m = Z.of_nat (length needle))); [lia|lia|].
    intros i m1 Hi IH c old Hlt. destruct (decide (c = i)) as [->|Hne].
    - rewrite ramget_put_same by (apply Haddr; unfold in_alphabet; lia). apply u8_len. lia.
    - rewrite ramget_put_other by lia. apply IH. lia. }
  destruct (for_upM_ind (fun i m => forall c old, (c < A)%nat -> ramget (Z.of_nat c) old m = Z.of_nat (distance needle i (Z.of_nat c))) 0 (length needle - 1)
    (fun i m => addr ← rd needle (Z.of_nat i); Ok (ramput addr (u8 (Z.of_nat (length needle) - 1 - Z.of_nat i)) m)) m0) as (m1 & -> & Hm1); [lia|done| |].
  - intros i m1 Hi IH. assert (in_alphabet (needle !!! i)) as Hci.
    { rewrite Forall_lookup in Hc. apply (Hc i). apply list_lookup_lookup_total_lt. lia. }
    rewrite rd_at, res_bind_Ok, u8_len by lia. eexists. split; [done|]. intros c old Hlt. rewrite distance_S by lia. case_decide as Heq.
    + rewrite Heq, ramget_put_same by (apply Haddr; rewrite <- Heq; done). lia.
    + rewrite ramget_put_other by done. by apply IH.
  - rewrite res_bind_Ok. exists m1.
    rewrite (for_upM_fill A _ (fun c => Z.of_nat (distance needle (length needle - 1) (Z.of_nat c)))); [done|done|].
    intros i l Hi Hll. rewrite rd_at, res_bind_Ok, wr_at by lia. by rewrite Hm1.
Qed.

End Table.

(** ** The searches *)

Section Search.
Context (A : nat) (needle haystack : list Z).
Hypothesis needle_size : (1 <= length needle <= 255)%nat.
Hypothesis haystack_size : (length needle <= length haystack <= 256)%nat.
Hypothesis haystack_chars : Forall (in_alphabet A) haystack.
#[local] Abbreviation P := (length needle).
#[local] Abbreviation H := (length haystack).
#[local] Abbreviation table := (occ_entries A needle (length needle - 1)).

Lemma haystack_char i : (i < H)%nat -> in_alphabet A (haystack !!! i).
Proof. intros Hi. rewrite Forall_lookup in haystack_chars. apply (haystack_chars i). by apply list_lookup_lookup_total_lt. Qed.

Lemma table_at c : in_alphabet A c -> rd table c = Ok (Z.of_nat (occurrence needle c)).
Proof.
  intros Hc. unfold in_alphabet in Hc. replace c with (Z.of_nat (Z.to_nat c)) at 1 by lia.
  assert (length table = A) by apply tabulate_length. rewrite rd_at by lia. unfold occ_entries. rewrite tabulate_lookup by lia.
  rewrite Z2Nat.id by lia. done.
Qed.

(** Moving the needle passes no occurrence. *)
Lemma move_none m : (m + P <= H)%nat -> none_before needle haystack m -> ~ occurs needle haystack m ->
  none_before needle haystack (m + occurrence needle (haystack !!! (m + (P - 1))%nat)).
Proof.
  intros Hm Hb Hno k Hk Ho. destruct (decide (k <= m)%nat) as [Hle|Hgt].
  - destruct (decide (k = m)) as [->|]; [done|]. apply (Hb k); [lia|done].
  - pose proof (occurrence_range needle needle_size (haystack !!! (m + (P - 1))%nat)) as Hr.
    assert (needle !!! (P - 1 - (k - m))%nat = haystack !!! (m + (P - 1))%nat) as Heq.
    { rewrite occurs_lookup in Ho. symmetry. apply list_lookup_total_correct.
      replace (m + (P - 1))%nat with (k + (P - 1 - (k - m)))%nat by lia. apply Ho. apply list_lookup_lookup_total_lt. lia. }
    assert (P - 1 - (k - m) < P - 1)%nat as Hlt by lia. unfold occurrence in Hk. rewrite <- Heq in Hk.
    pose proof (distance_le needle needle_size (P - 1) (P - 1 - (k - m)) Hlt). lia.
Qed.

Lemma all_equal_occurs (m : nat) : (m + P <= H)%nat -> all_equal P needle haystack (Z.of_nat m) = Ok (bool_decide (occurs needle haystack m)).
Proof.
  intros Hm. unfold all_equal.
  destruct (for_upM_ind (fun i mismatch => mismatch = false <-> agree needle haystack m i) 0 P
    (fun i mismatch => a ← rd haystack (u8 (Z.of_nat m + Z.of_nat i)); b ← rd needle (Z.of_nat i); Ok (if a =? b then mismatch else true)) false)
    as (mm & -> & Hmm); [lia|split; [intros _; apply agree_0|done]| |].
  - intros i mm Hi IH. rewrite u8_len, <- Nat2Z.inj_add, !rd_at, !res_bind_Ok by lia. eexists. split; [done|].
    destruct (Z.eqb_spec (haystack !!! (m + i)%nat) (needle !!! i)) as [Heq|Hne].
    + rewrite IH. split; [intros Ha; by apply agree_S|]. intros Ha k Hk. apply Ha. lia.
    + split; [done|]. intros Ha. exfalso. apply Hne. symmetry. apply Ha. lia.
  - rewrite res_bind_Ok. f_equal. rewrite agree_occurs in Hmm by done. destruct mm; cbn [negb].
    + by rewrite bool_decide_eq_false_2 by (intros Ho; by apply Hmm in Ho).
    + by rewrite bool_decide_eq_true_2 by (by apply Hmm).
Qed.

Lemma back_compare_agree i (m : nat) : (i < P)%nat -> (m + P <= H)%nat -> exists b, back_compare needle haystack i (Z.of_nat m + Z.of_nat i) = Ok b /\
  (b = true <-> agree needle haystack m (S i)).
Proof.
  intros Hi Hm. induction i as [|i IH]; cbn [back_compare].
  - rewrite <- Nat2Z.inj_add, !rd_at, !res_bind_Ok by lia. destruct (Z.eqb_spec (haystack !!! (m + 0)%nat) (needle !!! 0%nat)) as [Heq|Hne]; (eexists; split; [done|]).
    + split; [intros _|done]. apply agree_S; [apply agree_0|done].
    + split; [done|]. intros Ha. exfalso. apply Hne. symmetry. apply Ha. lia.
  - rewrite <- Nat2Z.inj_add, !rd_at, !res_bind_Ok by lia. destruct (Z.eqb_spec (haystack !!! (m + S i)%nat) (needle !!! S i)) as [Heq|Hne].
    + replace (Z.of_nat (m + S i) - 1) with (Z.of_nat m + Z.of_nat i) by lia. destruct IH as (b & -> & Hb); [lia|]. exists b. split; [done|].
      rewrite Hb. split; [intros Ha; by apply agree_S|]. intros Ha k Hk. apply Ha. lia.
    + exists false. split; [done|]. split; [done|]. intros Ha. exfalso. apply Hne. symmetry. apply Ha. lia.
Qed.

Lemma back_compare_occurs (m : nat) : (m + P <= H)%nat ->
  back_compare needle haystack (P - 1) (Z.of_nat m + (Z.of_nat P - 1)) = Ok (bool_decide (occurs needle haystack m)).
Proof.
  intros Hm. replace (Z.of_nat P - 1) with (Z.of_nat (P - 1)) by lia. destruct (back_compare_agree (P - 1) m) as (b & -> & Hb); [lia|done|].
  f_equal. replace (S (P - 1)) with P in Hb by lia. rewrite agree_occurs in Hb by done. destruct b.
  - rewrite bool_decide_eq_true_2; tauto.
  - rewrite bool_decide_eq_false_2; [done|]. intros Ho. apply Hb in Ho. done.
Qed.

Lemma found_at m : none_before needle haystack m -> occurs needle haystack m -> strstr needle haystack = m.
Proof.
  intros Hb Ho. apply strstr_spec; [|done|by left]. intros Hn. rewrite Hn in needle_size. cbn in needle_size. lia.
Qed.

Lemma found_nowhere m : none_before needle haystack m -> (H < m + P)%nat -> strstr needle haystack = H.
Proof.
  assert (needle <> []) as Hn by (intros Hn; rewrite Hn in needle_size; cbn in needle_size; lia).
  intros Hb Hm. apply strstr_spec; [done| |by right].
  intros k Hk Ho. destruct (decide (k < m)%nat) as [Hlt|Hge]; [by apply (Hb k)|]. apply occurs_bound in Ho; [lia|done].
Qed.

(** What a round of [horspool.c] finds: an offset is only compared when the
    needle fits there.  After the last place the offset may wrap around to the
    start, where the search goes on without finding anything. *)
Definition round_state (j : nat) (st : Z * bool * Z) : Prop :=
  (exists m, st = (Z.of_nat m, false, u8 (Z.of_nat H)) /\ (m + P <= H)%nat /\ none_before needle haystack m /\
     ((j <= m)%nat \/ strstr needle haystack = H)) \/
  (exists x, st = (x, true, u8 (Z.of_nat (strstr needle haystack)))).

Lemma horspool_round_state j st : round_state j st ->
  exists st', horspool_round P H needle haystack table st = Ok st' /\ round_state (S j) st'.
Proof.
  intros [(m & -> & Hm & Hb & Hj)|(x & ->)]; unfold horspool_round; [|eexists; split; [done|right; by exists x]].
  rewrite all_equal_occurs, res_bind_Ok by done. case_bool_decide as Ho; (eexists; split; [|]).
  - done.
  - right. eexists. by rewrite (found_at m).
  - rewrite (u8_len (Z.of_nat m + (Z.of_nat P - 1))) by lia. replace (Z.of_nat m + (Z.of_nat P - 1)) with (Z.of_nat (m + (P - 1))) by lia.
    rewrite rd_at, res_bind_Ok, table_at, res_bind_Ok by (try apply haystack_char; lia). reflexivity.
  - pose proof (move_none m Hm Hb Ho) as Hmove. pose proof (occurrence_range needle needle_size (haystack !!! (m + (P - 1))%nat)) as Hr.
    set (s := occurrence needle _) in *. rewrite <- Nat2Z.inj_add. destruct (decide (m + s = 256)%nat) as [He|Hne].
    + rewrite He. change (u8 (Z.of_nat 256)) with (Z.of_nat 0). rewrite (proj2 (Z.ltb_ge _ _)) by lia.
      left. exists O. split; [done|]. split; [lia|]. split; [intros k Hk; lia|]. right. apply (found_nowhere (m + s)); [done|lia].
    + rewrite (u8_len (Z.of_nat (m + s))) by lia. destruct (Z.ltb_spec (Z.of_nat H) (Z.of_nat (m + s) + Z.of_nat P)).
      * right. eexists. by rewrite (found_nowhere (m + s)) by (done || lia).
      * left. exists (m + s)%nat. split; [done|]. split; [lia|]. split; [done|]. lia.
Qed.

Lemma horspool_rounds : exists x d,
  for_upM 0 (1 + H - P) (fun _ st => horspool_round P H needle haystack table st) (0, false, u8 (Z.of_nat H)) =
  Ok (x, d, u8 (Z.of_nat (strstr needle haystack))).
Proof.
  destruct (for_upM_ind round_state 0 (1 + H - P) (fun _ st => horspool_round P H needle haystack table st) (0, false, u8 (Z.of_nat H)))
    as (st & -> & Hst); [lia| | |].
  - left. exists O. split; [done|]. split; [lia|]. split; [intros k Hk; lia|]. by left.
  - intros j st _. apply horspool_round_state.
  - destruct Hst as [(m & -> & Hm & Hb & Hj)|(x & ->)]; [|by eauto]. do 2 eexists. f_equal. f_equal. do 2 f_equal. lia.
Qed.

Lemma horspool_flat_rounds fuel : (H + 1 < fuel)%nat ->
  loop fuel (horspool_flat_step P H needle haystack table) (Z.of_nat H - Z.of_nat P, 0) = Ok (u8 (Z.of_nat (strstr needle haystack))).
Proof.
  intros Hfuel.
  destruct (loop_ind (fun st => exists m, st = (Z.of_nat H - Z.of_nat P - Z.of_nat m, Z.of_nat m) /\ (m <= H)%nat /\ none_before needle haystack m)
    (fun r => r = u8 (Z.of_nat (strstr needle haystack))) (fun '(hlen, _) => Z.to_nat (hlen + Z.of_nat P))
    (horspool_flat_step P H needle haystack table)) with (fuel := fuel) (s := (Z.of_nat H - Z.of_nat P, 0)) as (r & -> & ->); [| | |done].
  - intros st (m & -> & Hm & Hb). unfold horspool_flat_step. destruct (Z.leb_spec 0 (Z.of_nat H - Z.of_nat P - Z.of_nat m)).
    + rewrite back_compare_occurs, res_bind_Ok by lia. case_bool_decide as Ho.
      * right. eexists. split; [done|]. by rewrite (found_at m).
      * left. replace (Z.of_nat m + (Z.of_nat P - 1)) with (Z.of_nat (m + (P - 1))) by lia.
        rewrite rd_at, res_bind_Ok, table_at, res_bind_Ok by (try apply haystack_char; lia). eexists. split; [done|].
        pose proof (occurrence_range needle needle_size (haystack !!! (m + (P - 1))%nat)) as Hr.
        split; [|lia]. exists (m + occurrence needle (haystack !!! (m + (P - 1))))%nat. split; [f_equal; lia|]. split; [lia|].
        apply move_none; [lia|done..].
    + right. eexists. split; [done|]. by rewrite (found_nowhere m) by (done || lia).
  - exists O. split; [f_equal; lia|]. split; [lia|]. intros k Hk. lia.
  - lia.
Qed.

End Search.

(** Both Horspool searches return the first place of the needle in a haystack
    over the alphabet, or the length of the haystack, as a byte: they agree
    with each other and with the search by comparison at every place.  (The
    counters of the loops are bytes too, so the loops end for alphabets of up
    to 255 characters and needles of two characters or more.) *)
Theorem horspool_correct A needle haystack table fuel :
  (A <= 255)%nat -> (2 <= length needle <= 255)%nat -> (length needle <= length haystack <= 256)%nat ->
  Forall (in_alphabet A) needle -> Forall (in_alphabet A) haystack -> length table = A -> (length haystack + 1 < fuel)%nat ->
  horspool A (length needle) (length haystack) needle haystack table = Ok (u8 (Z.of_nat (strstr needle haystack))) /\
  horspool_flat A (length needle) (length haystack) fuel needle haystack table = Ok (u8 (Z.of_nat (strstr needle haystack))).
Proof.
  intros HA Hn2 Hh Hnc Hhc Ht Hfuel. assert (1 <= length needle <= 255)%nat as Hn by lia. unfold horspool, horspool_flat. rewrite (occ_table_entries A needle Hn table Ht Hnc), !res_bind_Ok. split.
  - destruct (horspool_rounds A needle haystack Hn Hh Hhc) as (x & d & ->). done.
  - by apply horspool_flat_rounds.
Qed.

Lemma horspool_correct_witness :
  horspool 26 4 8 [1; 2; 1; 3] [1; 2; 1; 2; 1; 3; 1; 1] (replicate 26 7) = Ok 2 /\
  horspool_flat 26 4 8 10 [1; 2; 1; 3] [1; 2; 1; 2; 1; 3; 1; 1] (replicate 26 7) = Ok 2.
Proof.
  apply (horspool_correct 26 [1; 2; 1; 3] [1; 2; 1; 2; 1; 3; 1; 1] (replicate 26 7) 10); try (cbn; lia); try reflexivity.
  all: apply (bool_decide_unpack _); vm_compute; exact I.
Defined.

(** At the size of the programs the output byte of a haystack without the
    needle is the one of a haystack that starts with it. *)
Theorem horspool_not_found :
  let needle := [1; 2; 3; 4] in
  strstr needle (replicate 256 0) = 256%nat /\ strstr needle (needle ++ replicate 252 0) = 0%nat /\
  horspool 26 4 256 needle (replicate 256 0) (replicate 26 0) = horspool 26 4 256 needle (needle ++ replicate 252 0) (replicate 26 0) /\
  horspool_flat 26 4 256 1000 needle (replicate 256 0) (replicate 26 0) = horspool_flat 26 4 256 1000 needle (needle ++ replicate 252 0) (replicate 26 0).
Proof. repeat split; vm_compute; reflexivity. Qed.

(** [boyer_occur_benes.c] and [boyer_occur_merkle.c] compute the same table:
    for every character the distance from the last place of the pattern back
    to the nearest earlier place that has it, or the length of the pattern. *)
Theorem boyer_occur_correct `{RamLaws Z} A input output m :
  (1 <= length input <= 255)%nat -> Forall (in_alphabet A) input -> length output = A ->
  (forall c, in_alphabet A c -> ram_addr c = true) ->
  boyer_occur_benes A (length input) input output = Ok (tabulate A (fun c => Z.of_nat (occurrence input (Z.of_nat c)))) /\
  exists m', boyer_occur_merkle A (length input) input output m = Ok (tabulate A (fun c => Z.of_nat (occurrence input (Z.of_nat c))), m').
Proof.
  intros Hn Hc Hl Ha. split; [by apply occ_table_entries|]. by apply merkle_entries.
Qed.
