(* ===== verification/HashMap.v ===== *)
(** The hash map of [compiler/cstdinc/hashmap.h], buckets of three pairs in
    memory.

    The caller computes the hash.  A put looks for the slot [list.size] and
    then sets the size to one more than the index its loop ended at, which
    is always 4: a bucket takes one pair, and later puts into it change
    nothing. *)
From Stdlib Require Import ZArith Lia.
From stdpp Require Import base numbers list gmap.
From S2P Require Import Prelude Ram.

Local Open Scope Z_scope.

Definition HASHMAP_MAX_COLLISIONS : nat := 3.

Record key_value_pair_t := { key : Z; value : Z }.
Record collision_list_t := { pairs : list key_value_pair_t; size : Z }.
Record hashmap_t := { memLoc : Z; hashmap_size : Z }.

#[export] Instance key_value_pair_inhabited : Inhabited key_value_pair_t := populate {| key := 0; value := 0 |}.

#[export] Instance collision_list_inhabited : Inhabited collision_list_t :=
  populate {| pairs := replicate 3 inhabitant; size := 0 |}.

Section HashMap.
Context {R : Ram collision_list_t}.

Definition hashmap_put_ (h : hashmap_t) (address : Z) (c : collision_list_t) (m : ram collision_list_t) :=
  ramput (u32 (memLoc h + address)) c m.

Definition hashmap_get_ (h : hashmap_t) (c : collision_list_t) (address : Z) (m : ram collision_list_t) :=
  ramget (u32 (memLoc h + address)) c m.

(** [garbage] is what the local [data.pairs] holds. *)
Definition hashmap_init (garbage : list key_value_pair_t) (mem_loc sz : Z) (m : ram collision_list_t)
    : hashmap_t * ram collision_list_t :=
  let data := {| pairs := garbage; size := 0 |} in
  let h := {| memLoc := mem_loc; hashmap_size := sz |} in
  (h, for_up 0 (Z.to_nat sz) (fun i m => hashmap_put_ h (Z.of_nat i) data m) m).

(** [list0] is what the local [list] holds before it is read. *)
Definition hashmap_put (list0 : collision_list_t) (h : hashmap_t) (k address v : Z) (m : ram collision_list_t)
    : ram collision_list_t :=
  let l := hashmap_get_ h list0 address m in
  let ps := for_up 0 HASHMAP_MAX_COLLISIONS
              (fun i ps => if Z.of_nat i =? size l then <[i := {| key := k; value := v |}]> ps else ps) (pairs l) in
  let i := HASHMAP_MAX_COLLISIONS in
  hashmap_put_ h address {| pairs := ps; size := u32 (Z.of_nat i + 1) |} m.

Definition hashmap_get (list0 : collision_list_t) (h : hashmap_t) (val k address : Z) (m : ram collision_list_t) : Z :=
  let l := hashmap_get_ h list0 address m in
  for_up 0 HASHMAP_MAX_COLLISIONS
    (fun i val => if Z.of_nat i <? size l
                  then if key (pairs l !!! i) =? k then value (pairs l !!! i) else val
                  else val) val.

(** ** Properties *)

Context {L : RamLaws collision_list_t}.

(** Where bucket [a] of [h] is. *)
Definition cell (h : hashmap_t) (a : Z) : Z := u32 (memLoc h + a).

Lemma put_bucket list0 h k a v m :
  hashmap_put list0 h k a v m
  = ramput (cell h a)
      {| pairs := if (0 <=? size (ramget (cell h a) list0 m)) && (size (ramget (cell h a) list0 m) <? 3)
                  then <[Z.to_nat (size (ramget (cell h a) list0 m)) := {| key := k; value := v |}]>
                         (pairs (ramget (cell h a) list0 m))
                  else pairs (ramget (cell h a) list0 m);
         size := 4 |} m.
Proof.
  unfold hashmap_put, hashmap_put_, hashmap_get_. cbv zeta. fold (cell h a).
  rewrite (for_up_once HASHMAP_MAX_COLLISIONS (fun _ => size (ramget (cell h a) list0 m))
    (fun i ps => <[i := {| key := k; value := v |}]> ps)) by done.
  reflexivity.
Qed.

(** The first pair put in an empty bucket is found again, unless one of
    the two slots behind it, which nothing initialises, happens to hold the
    key; every later put into the bucket leaves the lookups of all keys as
    they were, so its pair is lost.  Other buckets are not touched. *)
Theorem hashmap_first_put_only list0 list1 list2 h k a v k' v' k'' val m :
  ram_addr (cell h a) = true ->
  size (ramget (cell h a) list0 m) = 0 -> (0 < length (pairs (ramget (cell h a) list0 m)))%nat ->
  let m1 := hashmap_put list0 h k a v m in
  let ps := pairs (ramget (cell h a) list0 m) in
  (key (ps !!! 1%nat) <> k -> key (ps !!! 2%nat) <> k -> hashmap_get list1 h val k a m1 = v) /\
  hashmap_get list2 h val k'' a (hashmap_put list1 h k' a v' m1) = hashmap_get list2 h val k'' a m1 /\
  (forall b, cell h b <> cell h a -> hashmap_get list1 h val k'' b m1 = hashmap_get list1 h val k'' b m).
Proof.
  intros Haddr Hsize Hlen m1 ps. unfold m1.
  assert (forall l, ramget (cell h a) l (hashmap_put list0 h k a v m)
    = {| pairs := <[0%nat := {| key := k; value := v |}]> ps; size := 4 |}) as Hread.
  { intros l. rewrite put_bucket, Hsize, ramget_put_same by done. done. }
  split; [|split].
  - intros H1 H2. unfold hashmap_get, hashmap_get_. fold (cell h a). rewrite Hread. cbv zeta. cbn [pairs size].
    unfold for_up. cbn [seq foldl Nat.sub HASHMAP_MAX_COLLISIONS]. cbn [Z.of_nat].
    rewrite list_lookup_total_insert_eq by done. rewrite !list_lookup_total_insert_ne by done. cbn [key value].
    rewrite Z.eqb_refl. destruct (Z.eqb_spec (key (ps !!! 1%nat)) k); [done|].
    destruct (Z.eqb_spec (key (ps !!! 2%nat)) k); done.
  - unfold hashmap_get, hashmap_get_. fold (cell h a). rewrite (put_bucket list1), !Hread. cbn [pairs size].
    rewrite ramget_put_same by done. reflexivity.
  - intros b Hb. unfold hashmap_get, hashmap_get_. fold (cell h b). rewrite put_bucket, ramget_put_other by done. done.
Qed.

(** After the initialisation every bucket is empty: a lookup leaves its
    result variable alone. *)
Theorem hashmap_init_empty list0 garbage mem_loc sz k a val m :
  0 <= a < sz -> 0 <= mem_loc -> mem_loc + sz <= 2 ^ 32 ->
  (forall i, 0 <= i < sz -> ram_addr (mem_loc + i) = true) ->
  let '(h, m1) := hashmap_init garbage mem_loc sz m in hashmap_get list0 h val k a m1 = val.
Proof.
  intros Ha Hloc Hfit Haddr. unfold hashmap_init.
  set (h := {| memLoc := mem_loc; hashmap_size := sz |}). set (data := {| pairs := garbage; size := 0 |}).
  assert (forall i, 0 <= i < sz -> cell h i = mem_loc + i) as Hcell.
  { intros i Hi. unfold cell. cbn [memLoc h]. apply wrapu_small. unfold in_u. lia. }
  assert (forall n l, (Z.to_nat a < n <= Z.to_nat sz)%nat ->
    ramget (cell h a) l (for_up 0 n (fun i m => hashmap_put_ h (Z.of_nat i) data m) m) = data) as Hread.
  { induction n as [|n IH]; intros l Hn; [lia|]. rewrite for_up_last by lia. unfold hashmap_put_ at 1. fold (cell h (Z.of_nat n)).
    destruct (decide (n = Z.to_nat a)) as [->|Hne].
    - rewrite Z2Nat.id by lia. apply ramget_put_same. rewrite Hcell by lia. by apply Haddr.
    - rewrite ramget_put_other by (rewrite !Hcell by lia; lia). apply IH. lia. }
  unfold hashmap_get, hashmap_get_. fold (cell h a). rewrite Hread by lia. reflexivity.
Qed.

End HashMap.

Definition no_list : collision_list_t := {| pairs := replicate 3 {| key := 0; value := 0 |}; size := 0 |}.

Lemma hashmap_first_put_witness :
  let h := {| memLoc := 10; hashmap_size := 4 |} in
  let m1 := hashmap_put no_list h 7 2 70 (∅ : gmap Z collision_list_t) in
  hashmap_get no_list h 1 8 2 (hashmap_put no_list h 8 2 80 m1) = hashmap_get no_list h 1 8 2 m1.
Proof.
  intros h m1.
  destruct (hashmap_first_put_only (R := MapRam _) no_list no_list no_list h 7 2 70 8 80 8 1 ∅) as (_ & Hlost & _);
    [reflexivity|reflexivity|apply Nat.ltb_lt; reflexivity|exact Hlost].
Defined.

Lemma hashmap_init_witness :
  let '(h, m1) := hashmap_init (R := MapRam _) [] 10 4 ∅ in hashmap_get no_list h 5 7 2 m1 = 5.
Proof. apply (hashmap_init_empty (R := MapRam _) no_list [] 10 4 7 2 5 ∅); [lia|lia|lia|reflexivity]. Defined.
