(* ===== verification/Merge.v ===== *)
(** Merging neighbouring pieces of an array: what the merge sorts of
    [pepper/apps] share.

    [slice a b l] is the piece of [l] from [a] to [b].  [merge] is the list
    function the loops compute; the invariant [merging] says what is written
    and what is left, and has one lemma for each way a loop can move. *)
From Stdlib Require Import ZArith Lia Sorting.Sorted.
From stdpp Require Import base numbers list sorting.
From S2P Require Import Prelude.

Local Open Scope Z_scope.

(** ** Pieces of arrays *)

Definition slice {A} (a b : nat) (l : list A) : list A := take (b - a) (drop a l).

Section Slice.
Context {A : Type} `{Inhabited A}.
Implicit Types l : list A.

Lemma slice_nil a b l : (b <= a)%nat -> slice a b l = [].
Proof. intros Hab. unfold slice. by replace (b - a)%nat with O by lia. Qed.

Lemma slice_cons a b l : (a < b)%nat -> (a < length l)%nat -> slice a b l = l !!! a :: slice (S a) b l.
Proof.
  intros Hab Hl. unfold slice. destruct (lookup_lt_is_Some_2 l a Hl) as [x Hx].
  rewrite (list_lookup_total_correct _ _ _ Hx), (drop_S _ _ _ Hx).
  replace (b - a)%nat with (S (b - S a)) by lia. done.
Qed.

Lemma slice_app a b c l : (a <= b <= c)%nat -> slice a b l ++ slice b c l = slice a c l.
Proof.
  intros Habc. unfold slice. replace (c - a)%nat with ((b - a) + (c - b))%nat by lia.
  rewrite <- take_take_drop, drop_drop. by replace (a + (b - a))%nat with b by lia.
Qed.

Lemma slice_snoc a b l : (a <= b)%nat -> (b < length l)%nat -> slice a (S b) l = slice a b l ++ [l !!! b].
Proof.
  intros Hab Hb. rewrite <- (slice_app a b (S b)) by lia. f_equal. rewrite slice_cons by lia.
  by rewrite slice_nil by lia.
Qed.

Lemma slice_full l n : (length l <= n)%nat -> slice 0 n l = l.
Proof. intros Hl. unfold slice. rewrite Nat.sub_0_r, drop_0. by apply firstn_all2. Qed.

Lemma slice_length a b l : (b <= length l)%nat -> length (slice a b l) = (b - a)%nat.
Proof. intros Hb. unfold slice. rewrite length_take, length_drop. lia. Qed.

(** Past its end an array has no elements. *)
Lemma slice_clip a b l : slice a b l = slice a (Nat.min b (length l)) l.
Proof.
  unfold slice. destruct (decide (a <= length l)%nat).
  - destruct (decide (b <= length l)%nat); [by rewrite Nat.min_l by lia|]. rewrite Nat.min_r by lia.
    rewrite !firstn_all2; rewrite ?length_drop; done || lia.
  - rewrite drop_ge by lia. by rewrite !take_nil.
Qed.

Lemma slice_ext a b l l' : (forall i, (a <= i < b)%nat -> l !! i = l' !! i) -> slice a b l = slice a b l'.
Proof.
  intros Heq. apply list_eq. intros i. unfold slice. destruct (decide (i < b - a)%nat).
  - rewrite !lookup_take_lt, !lookup_drop by done. apply Heq. lia.
  - rewrite !lookup_take_ge by lia. done.
Qed.

Lemma slice_insert_out a b l i x : (i < a \/ b <= i)%nat -> slice a b (<[i := x]> l) = slice a b l.
Proof. intros Hi. apply slice_ext. intros j Hj. apply list_lookup_insert_ne. lia. Qed.

Lemma slice_insert_last a b l x : (a <= b)%nat -> (b < length l)%nat -> slice a (S b) (<[b := x]> l) = slice a b l ++ [x].
Proof.
  intros Hab Hb. rewrite slice_snoc by (rewrite ?length_insert; lia).
  by rewrite slice_insert_out, list_lookup_total_insert_eq by lia.
Qed.

(** Copying a piece. *)
Lemma for_up_slice lo hi (src dst : list A) :
  (lo <= hi)%nat -> length src = length dst ->
  let dst' := for_up lo hi (fun k dst => <[k := src !!! k]> dst) dst in
  length dst' = length dst /\ forall i, dst' !! i = if (lo <=? i)%nat && (i <? hi)%nat then src !! i else dst !! i.
Proof.
  intros Hlo Hlen. apply (for_up_ind (fun k dst' => length dst' = length dst /\
    forall i, dst' !! i = if (lo <=? i)%nat && (i <? k)%nat then src !! i else dst !! i)); [done| |].
  - split; [done|]. intros i. destruct (Nat.leb_spec lo i), (Nat.ltb_spec i lo); done || lia.
  - intros k d Hk [Hl Hd]. rewrite length_insert. split; [done|]. intros i.
    destruct (decide (k < length dst)%nat) as [Hin|Hout].
    + destruct (decide (i = k)) as [->|Hne].
      * rewrite list_lookup_insert_eq by lia. destruct (Nat.leb_spec lo k), (Nat.ltb_spec k (S k)); try lia. cbn.
        symmetry. apply list_lookup_lookup_total_lt. lia.
      * rewrite list_lookup_insert_ne, Hd by done. destruct (Nat.leb_spec lo i), (Nat.ltb_spec i k), (Nat.ltb_spec i (S k)); done || lia.
    + rewrite list_insert_ge by lia. rewrite Hd.
      destruct (Nat.leb_spec lo i), (Nat.ltb_spec i k), (Nat.ltb_spec i (S k)); cbn; try (done || lia).
      rewrite !lookup_ge_None_2 by lia. done.
Qed.

End Slice.

(** An array from which a middle piece was replaced by a permutation. *)
Lemma perm_middle a b (l l' : list Z) :
  (a <= b)%nat -> length l = length l' -> slice a b l ≡ₚ slice a b l' ->
  (forall i, (i < a \/ b <= i)%nat -> l !! i = l' !! i) -> l ≡ₚ l'.
Proof.
  intros Hab Hlen Hmid Hout. rewrite <- (slice_full l (Nat.max b (length l))), <- (slice_full l' (Nat.max b (length l))) by lia.
  rewrite <- (slice_app 0 a), <- (slice_app a b) by lia. rewrite <- (slice_app 0 a _ l'), <- (slice_app a b _ l') by lia.
  rewrite (slice_ext 0 a l l'), (slice_ext b _ l l') by (intros i Hi; apply Hout; lia).
  by rewrite Hmid.
Qed.

(** ** Merging *)

(** Of equal elements the right one comes first. *)
Fixpoint merge (l1 l2 : list Z) : list Z :=
  match l1 with
  | [] => l2
  | x :: l1' =>
      (fix inner (l2 : list Z) : list Z :=
         match l2 with
         | [] => x :: l1'
         | y :: l2' => if x <? y then x :: merge l1' l2 else y :: inner l2'
         end) l2
  end.

Lemma merge_nil_r l : merge l [] = l.
Proof. by destruct l. Qed.

Lemma merge_left x l1 l2 : (forall y l2', l2 = y :: l2' -> x < y) -> merge (x :: l1) l2 = x :: merge l1 l2.
Proof.
  intros Hy. destruct l2 as [|y l2]; [by rewrite !merge_nil_r|]. cbn.
  by rewrite (proj2 (Z.ltb_lt x y)) by (by eapply Hy).
Qed.

Lemma merge_right y l1 l2 : (forall x l1', l1 = x :: l1' -> y <= x) -> merge l1 (y :: l2) = y :: merge l1 l2.
Proof.
  intros Hx. destruct l1 as [|x l1]; [done|]. cbn.
  by rewrite (proj2 (Z.ltb_ge x y)) by (by eapply Hx).
Qed.

Lemma merge_perm l1 l2 : merge l1 l2 ≡ₚ l1 ++ l2.
Proof.
  revert l2. induction l1 as [|x l1 IH]; intros l2; [done|].
  induction l2 as [|y l2 IHr]; [by rewrite app_nil_r|].
  destruct (Z.lt_ge_cases x y) as [Hlt|Hge].
  - rewrite merge_left by (by intros ? ? [= <- _]). cbn. by rewrite IH.
  - rewrite merge_right by (by intros ? ? [= <- _]). rewrite IHr. by rewrite <- Permutation_middle.
Qed.

Lemma merge_sorted l1 l2 : StronglySorted Z.le l1 -> StronglySorted Z.le l2 -> StronglySorted Z.le (merge l1 l2).
Proof.
  intros H1. revert l2. induction H1 as [|x l1 H1 IH Hx]; intros l2 H2; [done|].
  induction H2 as [|y l2 H2 IHr Hy]; [by constructor|].
  destruct (Z.lt_ge_cases x y) as [Hlt|Hge].
  - rewrite merge_left by (by intros ? ? [= <- _]). constructor; [apply IH; by constructor|].
    rewrite merge_perm. apply Forall_app. split; [done|]. constructor; [lia|].
    eapply Forall_impl; [exact Hy|]. cbn. lia.
  - rewrite merge_right by (by intros ? ? [= <- _]). constructor; [done|].
    rewrite merge_perm. apply Forall_app. split; [|done]. constructor; [lia|].
    eapply Forall_impl; [exact Hx|]. cbn. lia.
Qed.

(** Merging the pieces of [src] from [b] to [m] and from [m] to [e] into
    [dst]: [l] and [r] are the places to read from, [i] the place to write to. *)
Record merging (src : list Z) (b m e i : nat) (dst : list Z) (l r : nat) : Prop := {
  merging_len : length dst = length src;
  merging_pos : (l + r = i + m)%nat;
  merging_l : (b <= l <= m)%nat;
  merging_r : (m <= r <= e)%nat;
  merging_rest : slice b i dst ++ merge (slice l m src) (slice r e src) = merge (slice b m src) (slice m e src)
}.

Lemma merging_start src b m e dst :
  (b <= m <= e)%nat -> length dst = length src -> merging src b m e b dst b m.
Proof. intros Hbe Hl. split; [done|lia|lia|lia|]. by rewrite slice_nil by lia. Qed.

Lemma merging_take_left src b m e i dst l r :
  merging src b m e i dst l r -> (e <= length src)%nat -> (l < m)%nat -> (r = e \/ src !!! l < src !!! r) ->
  merging src b m e (S i) (<[i := src !!! l]> dst) (S l) r.
Proof.
  intros [Hlen Hpos Hl Hr Hrest] He Hlm Hcmp. split; [by rewrite length_insert|lia|lia|lia|].
  rewrite slice_insert_last by lia. rewrite <- Hrest, <- app_assoc. f_equal. cbn [app].
  rewrite (slice_cons l m) by lia. symmetry. apply merge_left. intros y l2 Hy.
  destruct Hcmp as [->|?]; [by rewrite slice_nil in Hy by lia|].
  destruct (decide (r < e)%nat); [|by rewrite slice_nil in Hy by lia].
  rewrite slice_cons in Hy by lia. by injection Hy as <- _.
Qed.

Lemma merging_take_right src b m e i dst l r :
  merging src b m e i dst l r -> (e <= length src)%nat -> (r < e)%nat -> (l = m \/ src !!! r <= src !!! l) ->
  merging src b m e (S i) (<[i := src !!! r]> dst) l (S r).
Proof.
  intros [Hlen Hpos Hl Hr Hrest] He Hre Hcmp. split; [by rewrite length_insert|lia|lia|lia|].
  rewrite slice_insert_last by lia. rewrite <- Hrest, <- app_assoc. f_equal. cbn [app].
  rewrite (slice_cons r e) by lia. symmetry. apply merge_right. intros x l1 Hx.
  destruct Hcmp as [->|?]; [by rewrite slice_nil in Hx by lia|].
  destruct (decide (l < m)%nat); [|by rewrite slice_nil in Hx by lia].
  rewrite slice_cons in Hx by lia. by injection Hx as <- _.
Qed.

Lemma merging_done src b m e dst l r :
  merging src b m e e dst l r -> l = m /\ r = e /\ slice b e dst = merge (slice b m src) (slice m e src).
Proof.
  intros [Hlen Hpos Hl Hr Hrest]. assert (l = m) by lia. assert (r = e) by lia. subst l r.
  rewrite (slice_nil m m), (slice_nil e e) in Hrest by lia. cbn [merge] in Hrest. by rewrite app_nil_r in Hrest.
Qed.

(** ** Sorted runs *)

(** Every block of [w] elements, from the start of the array on, is sorted. *)
Definition runs (w : nat) (l : list Z) : Prop := forall k, StronglySorted Z.le (slice (k * w) (S k * w) l).

Lemma runs_1 l : runs 1 l.
Proof.
  intros k. rewrite !Nat.mul_1_r. destruct (decide (k < length l)%nat).
  - rewrite slice_cons, slice_nil by lia. repeat constructor.
  - unfold slice. rewrite drop_ge, take_nil by lia. constructor.
Qed.

Lemma runs_sorted w l : runs w l -> (length l <= w)%nat -> StronglySorted Z.le l.
Proof. intros Hr Hl. specialize (Hr O). rewrite Nat.mul_0_l, Nat.mul_1_l, slice_full in Hr by done. done. Qed.

(** The block that two neighbouring runs make. *)
Lemma runs_merge w l k :
  runs w l -> StronglySorted Z.le (merge (slice (k * (2 * w)) (k * (2 * w) + w) l) (slice (k * (2 * w) + w) (k * (2 * w) + 2 * w) l)).
Proof.
  intros Hr. apply merge_sorted.
  - specialize (Hr (2 * k)%nat). by replace (k * (2 * w))%nat with (2 * k * w)%nat by lia;
      replace (2 * k * w + w)%nat with (S (2 * k) * w)%nat by lia.
  - specialize (Hr (S (2 * k))%nat). by replace (k * (2 * w) + w)%nat with (S (2 * k) * w)%nat by lia;
      replace (k * (2 * w) + 2 * w)%nat with (S (S (2 * k)) * w)%nat by lia.
Qed.
