(* ===== verification/ExternalSort.v ===== *)
(** External sorting: [pepper/storage/external_sort.cpp].

    A file is the list of its entries and a buffer the list of the entries in
    it; [entry_size] and the offsets in bytes are the positions in these
    lists.  The folder holds the file to sort and its chunks, named by their
    number.  A missing file makes the program exit, which is a [Fault]. *)
From Stdlib Require Import ZArith Lia Sorting.Sorted.
From stdpp Require Import base numbers list sorting gmap.
From S2P Require Import Prelude Merge.

Local Open Scope Z_scope.

(** ** Comparators

    [ok] says on which entries the comparator is an order. *)
Class Comparator {A : Type} (comparator : A -> A -> Z) (ok : A -> Prop) : Prop := {
  comparator_flip : forall x y, ok x -> ok y -> (comparator x y < 0 <-> 0 < comparator y x);
  comparator_trans : forall x y z, ok x -> ok y -> ok z -> comparator x y <= 0 -> comparator y z <= 0 -> comparator x z <= 0
}.

(** ** The code *)

Section ExternalSort.
Context {A : Type} (comparator : A -> A -> Z) (BUFSIZE : nat).

(** The two inner loops of a partition. *)
Definition scan_up (buffer : list A) (pivot : A) (i : Z) : res (Z + Z) :=
  x ← rd buffer i; if comparator x pivot <? 0 then Ok (inl (i + 1)) else Ok (inr i).

Definition scan_down (buffer : list A) (pivot : A) (j : Z) : res (Z + Z) :=
  x ← rd buffer j; if 0 <? comparator x pivot then Ok (inl (j - 1)) else Ok (inr j).

Definition partition_step (fuel : nat) (pivot : A) (st : list A * Z * Z) : res ((list A * Z * Z) + (list A * Z * Z)) :=
  let '(buffer, i, j) := st in
  if i <=? j then
    i ← loop fuel (scan_up buffer pivot) i;
    j ← loop fuel (scan_down buffer pivot) j;
    if i <=? j then
      x ← rd buffer i;
      y ← rd buffer j;
      buffer ← wr buffer i y;
      buffer ← wr buffer j x;
      Ok (inl (buffer, i + 1, j - 1))
    else Ok (inl (buffer, i, j))
  else Ok (inr st).

Fixpoint quicksort_key_value_pairs (fuel : nat) (buffer : list A) (left right : Z) : res (list A) :=
  match fuel with
  | O => NoFuel
  | S fuel' =>
      if right <=? left then Ok buffer
      else
        pivot ← rd buffer (Z.quot (left + right) 2);
        '(buffer, i, _) ← loop fuel (partition_step fuel pivot) (buffer, left, right);
        buffer ← quicksort_key_value_pairs fuel' buffer left (i - 1);
        quicksort_key_value_pairs fuel' buffer i right
  end.

Definition quicksort (buffer : list A) : res (list A) :=
  quicksort_key_value_pairs (length buffer + 2) buffer 0 (Z.of_nat (length buffer) - 1).

(** The folder. *)
Record folder : Type := { whole : option (list A); part : gmap nat (list A) }.

Definition set_part (i : nat) (l : list A) (f : folder) : folder := {| whole := whole f; part := <[i := l]> (part f) |}.

Definition partition_one_chunk (offset chunk_id number_of_entries : nat) (f : folder) : folder :=
  set_part chunk_id (take number_of_entries (drop offset (default [] (whole f)))) f.

Definition partition_file_into_chunks (number_of_chunks : nat) (f : folder) : folder :=
  let number_of_entries := length (default [] (whole f)) in
  let entries_per_chunk := ((number_of_entries + number_of_chunks - 1) / number_of_chunks)%nat in
  snd (for_next 0 number_of_entries (fun i => i + entries_per_chunk)%nat
    (fun i '(j, f) => (S j, partition_one_chunk i j (Nat.min entries_per_chunk (number_of_entries - i)) f)) (O, f)).

Definition sort_one_chunk (i : nat) (f : folder) : res folder :=
  match part f !! i with
  | None => Fault
  | Some buffer => buffer ← quicksort buffer; Ok (set_part i buffer f)
  end.

Definition sort_chunks (number_of_chunks : nat) (f : folder) : res folder := for_upM 0 number_of_chunks sort_one_chunk f.

(** A pointer into a buffer: [Wild] is one that was never set. *)
Inductive pointer : Type := Null | Wild | At (k : nat).

Record chunk : Type := { fp : list A; buffer : list A; current_pointer : pointer }.

Definition read_buffer (file : list A) (empty : pointer) : chunk :=
  {| fp := drop BUFSIZE file; buffer := take BUFSIZE file;
     current_pointer := match take BUFSIZE file with [] => empty | _ => At 0 end |}.

(** When the first read finds nothing, [current_pointer == NULL] does not
    set the pointer. *)
Definition open_chunk (file : list A) : chunk := read_buffer file Wild.

Definition smallest (chunks : list chunk) : res (option (nat * A)) :=
  for_upM 0 (length chunks)
    (fun i best =>
       match chunks !! i with
       | None => Fault
       | Some c =>
           match current_pointer c with
           | Null => Ok best
           | Wild => Fault
           | At k =>
               e ← rd (buffer c) (Z.of_nat k);
               match best with
               | None => Ok (Some (i, e))
               | Some (_, smallest_entry) => if comparator e smallest_entry <? 0 then Ok (Some (i, e)) else Ok best
               end
           end
       end) None.

(** The chunk after its current entry was taken. *)
Definition advance (c : chunk) : chunk :=
  match current_pointer c with
  | At k =>
      if (length (buffer c) <=? S k)%nat then read_buffer (fp c) Null
      else {| fp := fp c; buffer := buffer c; current_pointer := At (S k) |}
  | _ => c
  end.

(** The state of the merge: the chunks, the used part of [sorted_buf] and
    what was written. *)
Definition merge_step (st : list chunk * list A * list A) : res ((list chunk * list A * list A) + list A) :=
  let '(chunks, sorted_buf, written) := st in
  best ← smallest chunks;
  match best with
  | None => Ok (inr (written ++ sorted_buf))
  | Some (i, e) =>
      let sorted_buf := sorted_buf ++ [e] in
      let '(sorted_buf, written) := if (BUFSIZE <=? length sorted_buf)%nat then ([], written ++ sorted_buf) else (sorted_buf, written) in
      Ok (inl (alter advance i chunks, sorted_buf, written))
  end.

Definition open_chunks (number_of_chunks : nat) (f : folder) : option (list chunk) :=
  mapM (fun i => open_chunk <$> part f !! i) (seq 0 number_of_chunks).

Definition merge_sorted_chunks (fuel number_of_chunks : nat) (f : folder) : res folder :=
  match open_chunks number_of_chunks f with
  | None => Fault
  | Some chunks =>
      written ← loop fuel merge_step (chunks, [], []);
      Ok {| whole := Some written; part := part f |}
  end.

Definition external_sort (fuel number_of_chunks : nat) (partition : bool) (f : folder) : res folder :=
  f ← sort_chunks number_of_chunks (if partition then partition_file_into_chunks number_of_chunks f else f);
  merge_sorted_chunks fuel number_of_chunks f.

End ExternalSort.
Arguments folder : clear implicits.
Arguments chunk : clear implicits.

(** The comparators of [pepper/storage/db_util.cpp]: the bytes of a hash from
    the first to the last, and integers by their difference. *)
Section HashComparator.
Context (sizeof_hash_t : nat).

Fixpoint compare_bytes (n i : nat) (a b : list Z) : Z :=
  match n with
  | O => a !!! i - b !!! i
  | S n' => if a !!! i =? b !!! i then compare_bytes n' (S i) a b else a !!! i - b !!! i
  end.

Definition hash_t_comparator (a b : list Z) : Z := compare_bytes (sizeof_hash_t - 1) 0 a b.

End HashComparator.

Definition int_comparator (a b : Z) : Z := s32 (a - b).

(** ** Comparators are orders *)

Section Bytes.
Context (sizeof_hash_t : nat).

Lemma compare_bytes_flip n i a b : compare_bytes n i b a = - compare_bytes n i a b.
Proof.
  revert i. induction n as [|n IH]; intros i; cbn [compare_bytes]; [lia|]. rewrite (Z.eqb_sym (b !!! i)), IH.
  destruct (a !!! i =? b !!! i); lia.
Qed.

Lemma compare_bytes_trans n i a b c : compare_bytes n i a b <= 0 -> compare_bytes n i b c <= 0 -> compare_bytes n i a c <= 0.
Proof.
  revert i. induction n as [|n IH]; intros i; cbn [compare_bytes]; [lia|].
  destruct (Z.eqb_spec (a !!! i) (b !!! i)), (Z.eqb_spec (b !!! i) (c !!! i)), (Z.eqb_spec (a !!! i) (c !!! i)); try lia. apply IH.
Qed.

#[export] Instance hash_t_comparator_order : Comparator (hash_t_comparator sizeof_hash_t) (fun _ => True).
Proof.
  split; unfold hash_t_comparator.
  - intros x y _ _. rewrite (compare_bytes_flip _ _ x y). lia.
  - intros x y z _ _ _. apply compare_bytes_trans.
Qed.

(** Two entries that compare as equal have the same hash. *)
Lemma compare_bytes_eq n i a b : compare_bytes n i a b = 0 -> forall k, (i <= k <= i + n)%nat -> a !!! k = b !!! k.
Proof.
  revert i. induction n as [|n IH]; intros i; cbn [compare_bytes].
  - intros Hc k Hk. replace k with i by lia. lia.
  - destruct (Z.eqb_spec (a !!! i) (b !!! i)) as [Heq|Hne]; [|lia]. intros Hc k Hk. destruct (decide (k = i)) as [->|]; [done|].
    apply (IH (S i)); [done|lia].
Qed.

End Bytes.

(** The difference of integers is their order as long as it does not
    overflow: for keys that are not negative, but not for all. *)
Lemma int_comparator_sub x y : 0 <= x < 2 ^ 31 -> 0 <= y < 2 ^ 31 -> int_comparator x y = x - y.
Proof. intros Hx Hy. apply wraps_small; [done|]. unfold in_s. ranges. Qed.

#[export] Instance int_comparator_order : Comparator int_comparator (fun x => 0 <= x < 2 ^ 31).
Proof. split; intros; rewrite !int_comparator_sub in * by done; lia. Qed.

Lemma int_comparator_overflow : int_comparator (2 ^ 31 - 1) (-1) < 0.
Proof. vm_compute. reflexivity. Qed.

(** ** Quicksort *)

Section Quicksort.
Context {A : Type} `{Inhabited A} (cmp : A -> A -> Z) (ok : A -> Prop) `{!Comparator cmp ok}.

Definition before (x y : A) : Prop := cmp x y <= 0.

Lemma before_refl x : ok x -> before x x.
Proof. intros Hx. unfold before. pose proof (comparator_flip x x Hx Hx). lia. Qed.

Lemma before_of_not_lt x p : ok x -> ok p -> ~ cmp x p < 0 -> before p x.
Proof. intros Hx Hp Hn. unfold before. pose proof (comparator_flip x p Hx Hp). lia. Qed.

Lemma before_of_gt x p : ok x -> ok p -> 0 < cmp x p -> before p x.
Proof. intros Hx Hp Hn. unfold before. pose proof (comparator_flip p x Hp Hx). lia. Qed.

Lemma before_trans x y z : ok x -> ok y -> ok z -> before x y -> before y z -> before x z.
Proof. unfold before. apply comparator_trans. Qed.

Lemma rd_entry (l : list A) (i : nat) : (i < length l)%nat -> rd l (Z.of_nat i) = Ok (l !!! i).
Proof. intros Hi. by apply rd_lookup, list_lookup_lookup_total_lt. Qed.

Lemma wr_entry (l : list A) (i : nat) x : (i < length l)%nat -> wr l (Z.of_nat i) x = Ok (<[i := x]> l).
Proof. intros Hi. rewrite wr_Ok by lia. by rewrite Nat2Z.id. Qed.

(** The entries from [l] to [s] were exchanged among each other. *)
Definition rearranged (l s : nat) (b b' : list A) : Prop :=
  b ≡ₚ b' /\ (forall k, (k < l \/ s <= k)%nat -> b' !! k = b !! k) /\
  forall Q : A -> Prop, (forall k, (l <= k < s)%nat -> Q (b !!! k)) -> forall k, (l <= k < s)%nat -> Q (b' !!! k).

Lemma rearranged_refl l s b : rearranged l s b b.
Proof. done. Qed.

Lemma rearranged_trans l s b1 b2 b3 : rearranged l s b1 b2 -> rearranged l s b2 b3 -> rearranged l s b1 b3.
Proof.
  intros (Hp1 & Ho1 & Hq1) (Hp2 & Ho2 & Hq2). split; [by etrans|]. split.
  - intros k Hk. by rewrite Ho2, Ho1.
  - intros Q HQ. by apply Hq2, Hq1.
Qed.

Lemma rearranged_out l s b b' k : rearranged l s b b' -> (k < l \/ s <= k)%nat -> b' !!! k = b !!! k.
Proof. intros (_ & Ho & _) Hk. by rewrite !list_lookup_total_alt, Ho. Qed.

Lemma rearranged_widen l s l' s' b b' : rearranged l s b b' -> (l' <= l)%nat -> (s <= s')%nat -> rearranged l' s' b b'.
Proof.
  intros Hr Hl Hs. pose proof Hr as (Hp & Ho & Hq). split; [done|]. split; [intros k Hk; apply Ho; lia|].
  intros Q HQ k Hk. destruct (decide (l <= k < s)%nat) as [Hin|Hout].
  - apply Hq; [|done]. intros k' Hk'. apply HQ. lia.
  - rewrite (rearranged_out l s b b' k Hr) by lia. by apply HQ.
Qed.

Lemma rearranged_swap l s b i j : (l <= i < s)%nat -> (l <= j < s)%nat -> (s <= length b)%nat ->
  rearranged l s b (<[j := b !!! i]> (<[i := b !!! j]> b)).
Proof.
  intros Hi Hj Hs. split; [|split].
  - symmetry. apply Permutation_insert_swap; apply list_lookup_lookup_total_lt; lia.
  - intros k Hk. by rewrite !list_lookup_insert_ne by lia.
  - intros Q HQ k Hk. destruct (decide (k = j)) as [->|Hj']; [rewrite list_lookup_total_insert_eq by (rewrite length_insert; lia); by apply HQ|].
    rewrite list_lookup_total_insert_ne by done. destruct (decide (k = i)) as [->|Hi']; [rewrite list_lookup_total_insert_eq by lia; by apply HQ|].
    rewrite list_lookup_total_insert_ne by done. by apply HQ.
Qed.

Lemma scan_up_at b p (i : nat) : (i < length b)%nat ->
  scan_up cmp b p (Z.of_nat i) = if cmp (b !!! i) p <? 0 then Ok (inl (Z.of_nat (S i))) else Ok (inr (Z.of_nat i)).
Proof. intros Hi. unfold scan_up. rewrite rd_entry, res_bind_Ok by done. by replace (Z.of_nat i + 1) with (Z.of_nat (S i)) by lia. Qed.

Lemma scan_down_at b p (j : nat) : (j < length b)%nat ->
  scan_down cmp b p (Z.of_nat j) = if 0 <? cmp (b !!! j) p then Ok (inl (Z.of_nat j - 1)) else Ok (inr (Z.of_nat j)).
Proof. intros Hj. unfold scan_down. by rewrite rd_entry, res_bind_Ok by done. Qed.

(** The two scans stop at a sentinel [q] at the latest. *)
Lemma scan_up_spec b p q i fuel : (i <= q < length b)%nat -> ~ cmp (b !!! q) p < 0 -> (q - i < fuel)%nat ->
  exists i', loop fuel (scan_up cmp b p) (Z.of_nat i) = Ok (Z.of_nat i') /\ (i <= i' <= q)%nat /\ ~ cmp (b !!! i') p < 0 /\
    forall k, (i <= k < i')%nat -> cmp (b !!! k) p < 0.
Proof.
  revert i. induction fuel as [|fuel IH]; intros i Hi Hq Hf; [lia|]. cbn [loop]. rewrite scan_up_at by lia.
  destruct (Z.ltb_spec (cmp (b !!! i) p) 0) as [Hlt|Hge]; rewrite res_bind_Ok.
  - assert (i <> q) by (intros ->; done). destruct (IH (S i)) as (i' & -> & Hi' & Hstop & Hpass); [lia|done|lia|]. exists i'. split; [done|]. split; [lia|]. split; [done|].
    intros k Hk. destruct (decide (k = i)) as [->|]; [done|]. apply Hpass. lia.
  - exists i. split; [done|]. split; [lia|]. split; [lia|]. intros k Hk. lia.
Qed.

Lemma scan_down_spec b p q j fuel : (q <= j < length b)%nat -> ~ 0 < cmp (b !!! q) p -> (j - q < fuel)%nat ->
  exists j', loop fuel (scan_down cmp b p) (Z.of_nat j) = Ok (Z.of_nat j') /\ (q <= j' <= j)%nat /\ ~ 0 < cmp (b !!! j') p /\
    forall k, (j' < k <= j)%nat -> 0 < cmp (b !!! k) p.
Proof.
  revert j. induction fuel as [|fuel IH]; intros j Hj Hq Hf; [lia|]. cbn [loop]. rewrite scan_down_at by lia.
  destruct (Z.ltb_spec 0 (cmp (b !!! j) p)) as [Hlt|Hge]; rewrite res_bind_Ok.
  - assert (j <> q) by (intros ->; done). replace (Z.of_nat j - 1) with (Z.of_nat (pred j)) by lia.
    destruct (IH (pred j)) as (j' & -> & Hj' & Hstop & Hpass); [lia|done|lia|]. exists j'. split; [done|]. split; [lia|]. split; [done|].
    intros k Hk. destruct (decide (k = j)) as [->|]; [done|]. apply Hpass. lia.
  - exists j. split; [done|]. split; [lia|]. split; [lia|]. intros k Hk. lia.
Qed.

(** ** One partition of the entries from [l] up to [s] *)

Section Partition.
Context (b0 : list A) (l s : nat) (p : A).
Hypothesis two : (l + 2 <= s)%nat.
Hypothesis inside : (s <= length b0)%nat.
Hypothesis entries_ok : forall k, (l <= k < s)%nat -> ok (b0 !!! k).
Hypothesis pivot_ok : ok p.

(** [j1] is one more than [j]. *)
Definition partitioning (b : list A) (i j1 : nat) : Prop :=
  rearranged l s b0 b /\
  (forall k, (l <= k < i)%nat -> before (b !!! k) p) /\ (forall k, (j1 <= k < s)%nat -> before p (b !!! k)).

Lemma partitioning_length b i j1 : partitioning b i j1 -> length b = length b0.
Proof. intros ((Hp & _) & _). by rewrite Hp. Qed.

Lemma partitioning_ok b i j1 k : partitioning b i j1 -> (l <= k < s)%nat -> ok (b !!! k).
Proof. intros ((_ & _ & Hq) & _) Hk. apply (Hq ok); [apply entries_ok|done]. Qed.

(** A round that finds an entry on each side, at [i'] and [j']. *)
Lemma partitioning_round b i j1 i' j' : partitioning b i j1 -> (l <= i <= i')%nat -> (j' < j1)%nat -> (j1 <= s)%nat -> (i' < s)%nat -> (l <= j')%nat ->
  ~ cmp (b !!! i') p < 0 -> (forall k, (i <= k < i')%nat -> cmp (b !!! k) p < 0) ->
  ~ 0 < cmp (b !!! j') p -> (forall k, (j' < k < j1)%nat -> 0 < cmp (b !!! k) p) ->
  partitioning b i' (S j') /\ ((i' <= j')%nat -> partitioning (<[j' := b !!! i']> (<[i' := b !!! j']> b)) (S i') j').
Proof.
  intros Hp Hi Hj Hj1 Hi' Hlj Hstop_i Hpass_i Hstop_j Hpass_j. pose proof (partitioning_length _ _ _ Hp) as Hlen.
  assert (forall k, (l <= k < s)%nat -> ok (b !!! k)) as Hok by (intros k; by apply (partitioning_ok b i j1)).
  destruct Hp as (Hr & Hlow & Hhigh).
  assert (forall k, (l <= k < i')%nat -> before (b !!! k) p) as Hlow'.
  { intros k Hk. destruct (decide (k < i)%nat); [apply Hlow; lia|]. unfold before. pose proof (Hpass_i k). lia. }
  assert (forall k, (S j' <= k < s)%nat -> before p (b !!! k)) as Hhigh'.
  { intros k Hk. destruct (decide (j1 <= k)%nat); [apply Hhigh; lia|]. apply before_of_gt; [apply Hok; lia|done|]. apply Hpass_j. lia. }
  split; [done|]. intros Hle. split; [eapply rearranged_trans; [done|]; apply rearranged_swap; lia|].
  assert (before (b !!! j') p) as Hbj by (unfold before; lia).
  assert (before p (b !!! i')) as Hbi by (apply before_of_not_lt; [apply Hok; lia|done|done]).
  split; intros k Hk; (destruct (decide (k = j')) as [->|Hnj]; [rewrite list_lookup_total_insert_eq by (rewrite length_insert; lia)|rewrite list_lookup_total_insert_ne by done]).
  - assert (j' = i') as -> by lia. done.
  - destruct (decide (k = i')) as [->|Hni]; [by rewrite list_lookup_total_insert_eq by lia|]. rewrite list_lookup_total_insert_ne by done. apply Hlow'. lia.
  - done.
  - rewrite list_lookup_total_insert_ne by lia. apply Hhigh'. lia.
Qed.

Definition partition_state (st : list A * Z * Z) : Prop :=
  exists b i j1, st = (b, Z.of_nat i, Z.of_nat j1 - 1) /\ partitioning b i j1 /\
    ((i = l /\ j1 = s /\ exists q, (l <= q)%nat /\ (q + 1 < s)%nat /\ b !!! q = p) \/ (l < i < s /\ j1 < s)%nat).

Definition partition_measure (st : list A * Z * Z) : nat := let '(_, i, j) := st in Z.to_nat (j + 1 - i).

(** An entry that stops the scan upwards and one that stops the scan
    downwards: the pivot in the first round, moved entries in a later one. *)
Lemma sentinels b i j1 : partitioning b i j1 -> (i < j1)%nat ->
  ((i = l /\ j1 = s /\ exists q, (l <= q)%nat /\ (q + 1 < s)%nat /\ b !!! q = p) \/ (l < i < s /\ j1 < s)%nat) ->
  exists qi qj, (i <= qi < s)%nat /\ (l <= qj < j1)%nat /\ (i <= qj + 1)%nat /\ ~ cmp (b !!! qi) p < 0 /\ ~ 0 < cmp (b !!! qj) p /\
    ((i = l /\ j1 = s /\ qi = qj /\ (qi + 1 < s)%nat) \/ (l < i /\ qi = j1)%nat).
Proof.
  intros Hp Hij [(-> & -> & q & Hq & Hqs & Hbq)|Hlater].
  - exists q, q. rewrite Hbq. pose proof (comparator_flip p p pivot_ok pivot_ok). repeat split; try lia.
  - exists j1, (pred i). pose proof (partitioning_ok _ _ _ j1 Hp) as Hoj. pose proof (comparator_flip (b !!! j1) p).
    destruct Hp as (_ & Hlow & Hhigh). specialize (Hlow (pred i)). specialize (Hhigh j1). unfold before in *.
    repeat split; try lia. intros Hlt. assert (ok (b !!! j1)) as Hok by (apply Hoj; lia).
    apply H0 in Hlt; [|done..]. assert (cmp p (b !!! j1) <= 0) by (apply Hhigh; lia). lia.
Qed.

Lemma partition_step_state fuel st : (s - l < fuel)%nat -> partition_state st ->
  (exists st', partition_step cmp fuel p st = Ok (inl st') /\ partition_state st' /\ (partition_measure st' < partition_measure st)%nat) \/
  (exists r, partition_step cmp fuel p st = Ok (inr r) /\ exists b i j1, r = (b, Z.of_nat i, Z.of_nat j1 - 1) /\ partitioning b i j1 /\ (l < i < s)%nat /\ (j1 <= i)%nat).
Proof.
  intros Hfuel (b & i & j1 & -> & Hp & Hphase). unfold partition_step. destruct (Z.leb_spec (Z.of_nat i) (Z.of_nat j1 - 1)) as [Hij|Hij].
  2:{ right. eexists. split; [done|]. exists b, i, j1. split; [done|]. split; [done|]. lia. }
  left. pose proof (partitioning_length _ _ _ Hp) as Hlen. assert (j1 <= s)%nat as Hj1 by lia. assert (l <= i)%nat as Hli by lia.
  destruct (sentinels b i j1 Hp) as (qi & qj & Hqi & Hqj & Hiqj & Hsi & Hsj & Hq); [lia|done|].
  destruct (scan_up_spec b p qi i fuel) as (i' & -> & Hi' & Hstop_i & Hpass_i); [lia|done|lia|]. rewrite res_bind_Ok.
  replace (Z.of_nat j1 - 1) with (Z.of_nat (pred j1)) by lia.
  destruct (scan_down_spec b p qj (pred j1) fuel) as (j' & -> & Hj' & Hstop_j & Hpass_j); [lia|done|lia|]. rewrite res_bind_Ok.
  destruct (partitioning_round b i j1 i' j' Hp) as [Hno Hyes]; try done || lia; [intros k Hk; apply Hpass_j; lia|].
  destruct (Z.leb_spec (Z.of_nat i') (Z.of_nat j')).
  - rewrite !rd_entry, !res_bind_Ok, wr_entry, res_bind_Ok, wr_entry, res_bind_Ok by (rewrite ?length_insert; lia). eexists. split; [reflexivity|]. split; [|cbn; lia].
    exists (<[j' := b !!! i']> (<[i' := b !!! j']> b)), (S i'), j'. split; [f_equal; f_equal; lia|]. split; [apply Hyes; lia|]. right. lia.
  - eexists. split; [done|]. split; [|cbn; lia]. exists b, i', (S j'). split; [f_equal; lia|]. split; [done|]. right. lia.
Qed.

Lemma partition_loop fuel : (s - l < fuel)%nat -> (exists q, (l <= q)%nat /\ (q + 1 < s)%nat /\ b0 !!! q = p) ->
  exists b i j1, loop fuel (partition_step cmp fuel p) (b0, Z.of_nat l, Z.of_nat s - 1) = Ok (b, Z.of_nat i, Z.of_nat j1 - 1) /\
    partitioning b i j1 /\ (l < i < s)%nat /\ (j1 <= i)%nat.
Proof.
  intros Hfuel Hq.
  destruct (loop_ind partition_state (fun r => exists b i j1, r = (b, Z.of_nat i, Z.of_nat j1 - 1) /\ partitioning b i j1 /\ (l < i < s)%nat /\ (j1 <= i)%nat)
    partition_measure (partition_step cmp fuel p) (fun st => partition_step_state fuel st Hfuel) fuel (b0, Z.of_nat l, Z.of_nat s - 1))
    as (r & -> & b & i & j1 & -> & Hr); [| |by exists b, i, j1].
  - exists b0, l, s. split; [done|]. split; [|by left]. split; [apply rearranged_refl|]. split; intros k Hk; lia.
  - cbn. lia.
Qed.

End Partition.

(** ** The whole sort *)

Definition sorted_on (l s : nat) (b : list A) : Prop := forall j k, (l <= j)%nat -> (j <= k)%nat -> (k < s)%nat -> before (b !!! j) (b !!! k).

Lemma middle (l s : nat) : (l + 2 <= s)%nat ->
  exists q, Z.quot (Z.of_nat l + (Z.of_nat s - 1)) 2 = Z.of_nat q /\ (l <= q)%nat /\ (q + 1 < s)%nat.
Proof.
  clear. intros Hs. exists ((l + (s - 1)) / 2)%nat. pose proof (Nat.div_mod_eq (l + (s - 1)) 2). pose proof (Nat.mod_upper_bound (l + (s - 1)) 2).
  split; [|lia]. rewrite Z.quot_div_nonneg, Nat2Z.inj_div by lia. f_equal. lia.
Qed.

(** Sorting the two sides of a partition sorts the whole. *)
Lemma sorted_join l i s p b1 b2 b3 : (l < i < s)%nat -> ok p -> (forall k, (l <= k < s)%nat -> ok (b1 !!! k)) ->
  (forall k, (l <= k < i)%nat -> before (b1 !!! k) p) -> (forall k, (i <= k < s)%nat -> before p (b1 !!! k)) ->
  rearranged l i b1 b2 -> sorted_on l i b2 -> rearranged i s b2 b3 -> sorted_on i s b3 -> sorted_on l s b3.
Proof.
  intros Hi Hp Hok Hlow Hhigh Hr12 Hs2 Hr23 Hs3 j k Hj Hjk Hk. pose proof Hr12 as (_ & _ & Hq12). pose proof Hr23 as (_ & _ & Hq23).
  destruct (decide (k < i)%nat) as [Hki|Hki].
  - rewrite !(rearranged_out i s b2 b3) by (done || lia). apply Hs2; lia.
  - destruct (decide (i <= j)%nat) as [Hij|Hij]; [apply Hs3; lia|]. rewrite (rearranged_out i s b2 b3 j) by (done || lia).
    assert (forall k, (i <= k < s)%nat -> b2 !!! k = b1 !!! k) as Hout by (intros k' Hk'; apply (rearranged_out l i); [done|lia]).
    apply (before_trans _ p).
    + apply (Hq12 ok); [intros k' Hk'; apply Hok; lia|lia].
    + done.
    + apply (Hq23 ok); [intros k' Hk'; rewrite Hout by done; apply Hok; lia|lia].
    + apply (Hq12 (fun x => before x p)); [done|lia].
    + apply (Hq23 (before p)); [intros k' Hk'; rewrite Hout by done; by apply Hhigh|lia].
Qed.

Lemma quicksort_spec fuel b (l s : nat) : (l <= s <= length b)%nat -> (forall k, (l <= k < s)%nat -> ok (b !!! k)) -> (s - l + 1 < fuel)%nat ->
  exists b', quicksort_key_value_pairs cmp fuel b (Z.of_nat l) (Z.of_nat s - 1) = Ok b' /\ rearranged l s b b' /\ sorted_on l s b'.
Proof.
  revert b l s. induction fuel as [|fuel IH]; intros b l s Hs Hok Hfuel; [lia|]. cbn [quicksort_key_value_pairs].
  destruct (Z.leb_spec (Z.of_nat s - 1) (Z.of_nat l)).
  - exists b. split; [done|]. split; [apply rearranged_refl|]. intros j k Hj Hjk Hk. replace k with j by lia. apply before_refl, Hok. lia.
  - destruct (middle l s) as (q & -> & Hlq & Hqs); [lia|]. rewrite rd_entry, res_bind_Ok by lia.
    destruct (partition_loop b l s (b !!! q)) with (fuel := S fuel) as (b1 & i & j1 & -> & Hpart & Hi & Hj1);
      [lia|lia|done|apply Hok; lia|lia|by exists q|]. rewrite res_bind_Ok.
    assert (forall k, (l <= k < s)%nat -> ok (b1 !!! k)) as Hok1 by (intros k; by apply (partitioning_ok b l s (b !!! q) Hok b1 i j1)).
    assert (length b1 = length b) as Hlen1 by exact (partitioning_length b l s (b !!! q) b1 i j1 Hpart).
    destruct Hpart as (Hr1 & Hlow & Hhigh).
    destruct (IH b1 l i) as (b2 & -> & Hr2 & Hs2); [lia|intros k Hk; apply Hok1; lia|lia|]. rewrite res_bind_Ok.
    assert (length b2 = length b) as Hlen2 by (rewrite <- Hlen1; symmetry; apply Permutation_length, Hr2).
    destruct (IH b2 i s) as (b3 & -> & Hr3 & Hs3); [lia|intros k Hk; rewrite (rearranged_out l i b1) by (done || lia); apply Hok1; lia|lia|].
    exists b3. split; [done|]. split.
    + apply (rearranged_trans l s b b1); [done|]. apply (rearranged_trans l s b1 b2); eapply rearranged_widen; done || lia.
    + apply (sorted_join l i s (b !!! q) b1 b2); try done; [apply Hok; lia|intros k Hk; apply Hhigh; lia].
Qed.

Lemma sorted_on_strongly b : sorted_on 0 (length b) b -> StronglySorted before b.
Proof.
  induction b as [|x b IH]; intros Hs; constructor.
  - apply IH. intros j k Hj Hjk Hk. apply (Hs (S j) (S k)); cbn; lia.
  - apply Forall_lookup. intros k y Hk. pose proof (lookup_lt_Some _ _ _ Hk) as Hlt.
    rewrite <- (list_lookup_total_correct b k y Hk). apply (Hs O (S k)); cbn; lia.
Qed.

Lemma quicksort_Ok b : Forall ok b -> exists b', quicksort cmp b = Ok b' /\ b ≡ₚ b' /\ StronglySorted before b'.
Proof.
  intros Hok. unfold quicksort.
  destruct (quicksort_spec (length b + 2) b 0 (length b)) as (b' & Heq & (Hp & _) & Hs); [lia| |lia|].
  - intros k Hk. rewrite Forall_lookup in Hok. apply (Hok k). apply list_lookup_lookup_total_lt. lia.
  - exists b'. split; [done|]. split; [done|]. apply sorted_on_strongly. by rewrite <- (Permutation_length Hp).
Qed.

End Quicksort.

(** ** Merging the chunks *)

Section MergeChunks.
Context {A : Type} `{Inhabited A} (cmp : A -> A -> Z) (ok : A -> Prop) `{!Comparator cmp ok} (BUFSIZE : nat).
Hypothesis bufsize_positive : (0 < BUFSIZE)%nat.
#[local] Abbreviation before := (before cmp).

(** The entries of a chunk that were not taken yet. *)
Definition remaining (c : chunk A) : list A :=
  match current_pointer c with At k => drop k (buffer c) ++ fp c | _ => [] end.

Definition chunk_ok (c : chunk A) : Prop :=
  match current_pointer c with Null => True | Wild => False | At k => (k < length (buffer c))%nat end /\
  Forall ok (remaining c) /\ StronglySorted before (remaining c).

Lemma read_buffer_remaining (file : list A) empty : (file <> [] \/ empty = Null) ->
  remaining (read_buffer BUFSIZE file empty) = file /\
  match current_pointer (read_buffer BUFSIZE file empty) with Null => True | Wild => False | At k => (k < length (buffer (read_buffer BUFSIZE file empty)))%nat end.
Proof.
  intros Hf. destruct file as [|x file].
  - destruct Hf as [?| ->]; [done|]. unfold read_buffer, remaining. cbn [current_pointer]. by rewrite take_nil.
  - destruct BUFSIZE as [|n] eqn:Hn; [lia|]. unfold read_buffer, remaining. cbn [take current_pointer buffer fp drop app length]. split; [|lia].
    by rewrite take_drop.
Qed.

(** Taking the current entry. *)
Lemma advance_remaining c x l : chunk_ok c -> remaining c = x :: l -> chunk_ok (advance BUFSIZE c) /\ remaining (advance BUFSIZE c) = l.
Proof.
  intros (Hptr & Hok & Hs) Hr. assert (remaining (advance BUFSIZE c) = l /\
    match current_pointer (advance BUFSIZE c) with Null => True | Wild => False | At k => (k < length (buffer (advance BUFSIZE c)))%nat end) as [Hl Hp].
  { unfold remaining in Hr. unfold advance. destruct (current_pointer c) as [| |k] eqn:Hc; [done..|].
    destruct (lookup_lt_is_Some_2 (buffer c) k Hptr) as [y Hy]. rewrite (drop_S _ _ _ Hy) in Hr. injection Hr as _ <-.
    destruct (Nat.leb_spec (length (buffer c)) (S k)).
    - destruct (read_buffer_remaining (fp c) Null) as [Hrem Hp]; [by right|]. rewrite drop_ge by lia. done.
    - unfold remaining. cbn [current_pointer buffer fp]. done. }
  split; [|done]. split; [done|]. rewrite Hl. rewrite Hr in Hok, Hs. split; [by inversion Hok|by inversion Hs].
Qed.

Lemma rd_current c k : current_pointer c = At k -> chunk_ok c -> exists x l, rd (buffer c) (Z.of_nat k) = Ok x /\ remaining c = x :: l.
Proof.
  intros Hc (Hk & _). rewrite Hc in Hk. destruct (lookup_lt_is_Some_2 _ _ Hk) as [x Hx]. exists x, (drop (S k) (buffer c) ++ fp c).
  split; [by apply rd_lookup|]. unfold remaining. by rewrite Hc, (drop_S _ _ _ Hx).
Qed.

Definition is_smallest (chunks : list (chunk A)) (best : option (nat * A)) : Prop :=
  match best with
  | None => Forall (fun c => remaining c = []) chunks
  | Some (i, e) => exists c l, chunks !! i = Some c /\ remaining c = e :: l /\ Forall (fun c' => Forall (before e) (remaining c')) chunks
  end.

(** The head of a chunk is before all of it. *)
Lemma head_before c x l y : chunk_ok c -> remaining c = x :: l -> ok y -> before y x -> Forall (before y) (remaining c).
Proof.
  intros (_ & Hok & Hs) Hr Hy Hyx. rewrite Hr in *. inversion Hok as [|? ? Hx Hl]; subst. inversion Hs as [|? ? _ Hb]; subst.
  constructor; [done|]. rewrite Forall_forall in Hl, Hb |- *. intros z Hz. apply (before_trans cmp ok _ x); auto.
Qed.

Lemma smallest_Ok chunks : Forall chunk_ok chunks -> exists best, smallest cmp chunks = Ok best /\ is_smallest chunks best.
Proof.
  intros Hall. unfold smallest.
  match goal with |- context [for_upM 0 _ ?b None] =>
    destruct (for_upM_ind (fun j best => is_smallest (take j chunks) best) 0 (length chunks) b None) as (best & -> & Hbest) end; [lia|constructor| |].
  2:{ rewrite firstn_all in Hbest. by eexists. }
  intros j best Hj Hb. destruct (lookup_lt_is_Some_2 chunks j) as [c Hc]; [lia|]. rewrite Hc.
  assert (chunk_ok c) as Hcok by (by eapply Forall_lookup_1).
  assert (take (S j) chunks = take j chunks ++ [c]) as Htake by (by apply take_S_r).
  destruct (current_pointer c) as [| |k] eqn:Hptr.
  - exists best. split; [done|]. rewrite Htake. assert (remaining c = []) as Hr by (unfold remaining; by rewrite Hptr).
    destruct best as [[i e]|]; cbn in *.
    + destruct Hb as (c' & l & Hc' & Hrc' & Hf). exists c', l. split; [by apply lookup_app_l_Some|]. split; [done|].
      apply Forall_app_2; [done|]. constructor; [by rewrite Hr|done].
    + apply Forall_app_2; [done|]. by constructor.
  - destruct Hcok as [Hcok _]. by rewrite Hptr in Hcok.
  - destruct (rd_current c k Hptr Hcok) as (x & l & -> & Hr). rewrite res_bind_Ok.
    assert (ok x) as Hx by (destruct Hcok as (_ & Ho & _); rewrite Hr in Ho; by inversion Ho).
    assert (is_smallest (take j chunks ++ [c]) (Some (j, x)) <-> Forall (fun c' => Forall (before x) (remaining c')) (take j chunks)) as Hnew.
    { cbn. split.
      - intros (c' & l' & _ & _ & Hf). apply Forall_app in Hf. apply Hf.
      - intros Hf. exists c, l. split; [|split; [done|]].
        + rewrite lookup_app_r by (rewrite length_take; lia). rewrite length_take_le by lia. by rewrite Nat.sub_diag.
        + apply Forall_app_2; [done|]. constructor; [|done]. apply (head_before c x l x Hcok Hr Hx). by apply (before_refl cmp ok). }
    destruct best as [[i e]|].
    + destruct Hb as (c' & l' & Hc' & Hrc' & Hf). assert (chunks !! i = Some c') as Hci.
      { rewrite lookup_take in Hc'. case_decide; done. }
      assert (chunk_ok c') as Hcok' by (by eapply Forall_lookup_1).
      assert (ok e) as He by (destruct Hcok' as (_ & Ho & _); rewrite Hrc' in Ho; by inversion Ho).
      destruct (Z.ltb_spec (cmp x e) 0) as [Hlt|Hge]; (eexists; split; [done|]); rewrite Htake.
      * apply Hnew. rewrite Forall_forall in Hf |- *. intros d Hd. specialize (Hf d Hd). rewrite Forall_forall in Hf |- *.
        intros z Hz. assert (chunk_ok d) as (_ & Hod & _).
        { rewrite Forall_forall in Hall. apply Hall. apply elem_of_take in Hd as (i0 & Hi0 & _). by eapply list_elem_of_lookup_2. }
        rewrite Forall_forall in Hod. apply (before_trans cmp ok _ e); auto. unfold ExternalSort.before. lia.
      * exists c', l'. split; [by apply lookup_app_l_Some|]. split; [done|]. apply Forall_app_2; [done|]. constructor; [|done].
        apply (head_before c x l e Hcok Hr He). apply (before_of_not_lt cmp ok); [done|done|lia].
    + eexists. split; [done|]. rewrite Htake. apply Hnew. cbn in Hb. eapply Forall_impl; [exact Hb|]. cbn. by intros d ->.
Qed.

Definition all_remaining (chunks : list (chunk A)) : list A := concat (remaining <$> chunks).

Lemma take_smallest chunks i c e l : Forall chunk_ok chunks -> chunks !! i = Some c -> remaining c = e :: l ->
  Forall chunk_ok (alter (advance BUFSIZE) i chunks) /\ all_remaining chunks ≡ₚ e :: all_remaining (alter (advance BUFSIZE) i chunks).
Proof.
  intros Hall Hc Hr. apply list_elem_of_split_length in Hc as (l1 & l2 & -> & ->).
  apply Forall_app in Hall as [Hl1 Hl2]. inversion Hl2 as [|? ? Hcok Hl2']; subst.
  destruct (advance_remaining c e l Hcok Hr) as [Hok' Hr'].
  rewrite alter_app_r_alt, Nat.sub_diag by done. change (alter (advance BUFSIZE) 0%nat (c :: l2)) with (advance BUFSIZE c :: l2). split.
  - apply Forall_app_2; [done|]. by constructor.
  - unfold all_remaining. rewrite !fmap_app, !concat_app. cbn [fmap list_fmap concat]. rewrite Hr, Hr'. cbn [app]. by rewrite <- Permutation_middle.
Qed.

(** What the merge keeps: the entries written are sorted, come before the
    entries that remain, and nothing is lost. *)
Definition merging (entries : list A) (st : list (chunk A) * list A * list A) : Prop :=
  let '(chunks, sorted_buf, written) := st in
  Forall chunk_ok chunks /\ Forall ok (all_remaining chunks) /\ StronglySorted before (written ++ sorted_buf) /\
  Forall (fun x => Forall (before x) (all_remaining chunks)) (written ++ sorted_buf) /\
  (written ++ sorted_buf) ++ all_remaining chunks ≡ₚ entries.

Lemma merge_step_merging entries st : merging entries st ->
  (exists st', merge_step cmp BUFSIZE st = Ok (inl st') /\ merging entries st' /\
     (length (all_remaining (fst (fst st'))) < length (all_remaining (fst (fst st))))%nat) \/
  (exists r, merge_step cmp BUFSIZE st = Ok (inr r) /\ r ≡ₚ entries /\ StronglySorted before r).
Proof.
  destruct st as [[chunks sorted_buf] written]. intros (Hall & Hok & Hs & Hb & Hp). unfold merge_step.
  destruct (smallest_Ok chunks Hall) as (best & -> & Hbest). rewrite res_bind_Ok. destruct best as [[i e]|]; cbn in Hbest.
  - left. destruct Hbest as (c & l & Hc & Hr & Hmin). destruct (take_smallest chunks i c e l Hall Hc Hr) as [Hall' Hp'].
    set (chunks' := alter (advance BUFSIZE) i chunks) in *.
    assert (merging entries (chunks', sorted_buf ++ [e], written)) as (_ & Hok' & Hs' & Hb' & Hp'').
    { rewrite Hp' in Hok, Hp. apply Forall_cons in Hok as [He Hok']. split; [done|]. split; [done|]. rewrite app_assoc. split; [|split].
      - apply StronglySorted_app. split; [|split; [done|by constructor; constructor]]. intros x y Hx Hy. apply list_elem_of_singleton in Hy as ->.
        rewrite Forall_forall in Hb. specialize (Hb x Hx). rewrite Hp' in Hb. by apply Forall_cons in Hb as [? _].
      - apply Forall_app_2.
        + eapply Forall_impl; [exact Hb|]. cbn. intros x Hx. rewrite Hp' in Hx. by apply Forall_cons in Hx as [_ ?].
        + constructor; [|done]. assert (Forall (before e) (all_remaining chunks)) as Hmin'.
          { unfold all_remaining. rewrite Forall_concat, Forall_fmap. exact Hmin. }
          rewrite Hp' in Hmin'. by apply Forall_cons in Hmin' as [_ ?].
      - rewrite <- app_assoc. exact Hp. }
    assert (length (all_remaining chunks') < length (all_remaining chunks))%nat as Hlen by (rewrite Hp'; cbn; lia).
    destruct (BUFSIZE <=? length (sorted_buf ++ [e]))%nat; (eexists; split; [reflexivity|]; split; [|exact Hlen]); unfold merging; rewrite ?app_nil_r; done.
  - right. eexists. split; [done|]. assert (all_remaining chunks = []) as Hnil.
    { unfold all_remaining. apply concat_nil_Forall, Forall_fmap. exact Hbest. }
    rewrite Hnil, app_nil_r in Hp. done.
Qed.

Lemma merge_loop chunks fuel : Forall chunk_ok chunks -> (length (all_remaining chunks) < fuel)%nat ->
  exists r, loop fuel (merge_step cmp BUFSIZE) (chunks, [], []) = Ok r /\ r ≡ₚ all_remaining chunks /\ StronglySorted before r.
Proof.
  intros Hall Hfuel. apply (loop_ind (merging (all_remaining chunks)) _ (fun st => length (all_remaining (fst (fst st))))); [|split; [done|]|done].
  - intros st. apply merge_step_merging.
  - split; [|split; [constructor|split; [constructor|done]]]. unfold all_remaining. rewrite Forall_concat, Forall_fmap.
    eapply Forall_impl; [exact Hall|]. intros c (_ & Hok & _). exact Hok.
Qed.

(** ** The files *)

(** The chunks of the folder. *)
Definition parts (f : folder A) (ls : list (list A)) : Prop := forall i l, ls !! i = Some l -> part f !! i = Some l.

Lemma open_chunks_parts f ls : parts f ls -> open_chunks BUFSIZE (length ls) f = Some (open_chunk BUFSIZE <$> ls).
Proof.
  intros Hf. unfold open_chunks. apply mapM_Some_2. apply Forall2_same_length_lookup. rewrite length_seq, length_fmap. split; [done|].
  intros i k c Hk Hc. apply lookup_seq in Hk as [-> Hi]. rewrite Nat.add_0_l. rewrite list_lookup_fmap in Hc.
  destruct (ls !! i) as [l|] eqn:Hl; [|done]. injection Hc as <-. by rewrite (Hf i l Hl).
Qed.

Lemma sort_chunks_parts f ls : parts f ls -> Forall (Forall ok) ls ->
  exists f' ls', sort_chunks cmp (length ls) f = Ok f' /\ parts f' ls' /\ Forall2 (fun l l' => l ≡ₚ l' /\ StronglySorted before l') ls ls' /\
    (forall i, (length ls <= i)%nat -> part f' !! i = part f !! i).
Proof.
  clear bufsize_positive BUFSIZE. intros Hf Hok. unfold sort_chunks.
  destruct (for_upM_ind (fun j f' => (forall i, (length ls <= i)%nat -> part f' !! i = part f !! i) /\
      forall i l, ls !! i = Some l -> exists l', part f' !! i = Some l' /\ if decide (i < j)%nat then l ≡ₚ l' /\ StronglySorted before l' else l' = l)
    0 (length ls) (sort_one_chunk cmp) f) as (f' & -> & Hout & Hf'); [lia| | |].
  - split; [done|]. intros i l Hl. exists l. split; [by apply Hf|]. by rewrite decide_False by lia.
  - intros j f1 Hj [Hout Hf1]. destruct (lookup_lt_is_Some_2 ls j) as [l Hl]; [lia|]. destruct (Hf1 j l Hl) as (l' & Hl' & Heq).
    rewrite decide_False in Heq by lia. subst l'. unfold sort_one_chunk. rewrite Hl'.
    destruct (quicksort_Ok cmp ok l) as (b & -> & Hp & Hs); [by eapply Forall_lookup_1|]. rewrite res_bind_Ok. eexists. split; [done|].
    cbn [set_part part]. split; [intros i Hi; rewrite lookup_insert_ne by lia; by apply Hout|].
    intros i k Hk. destruct (decide (i = j)) as [->|Hne].
    + exists b. rewrite lookup_insert_eq, decide_True by lia. split; [done|]. by replace k with l by congruence.
    + rewrite lookup_insert_ne by done. destruct (Hf1 i k Hk) as (k' & Hk' & Hi). exists k'. split; [done|]. do 2 case_decide; done || lia.
  - exists f', ((fun i => default [] (part f' !! i)) <$> seq 0 (length ls)). split; [done|]. split; [|split; [|done]].
    + intros i l Hl. apply list_lookup_fmap_Some in Hl as (k & -> & Hk). apply lookup_seq in Hk as [-> Hi]. rewrite Nat.add_0_l.
      destruct (lookup_lt_is_Some_2 ls i Hi) as [l0 Hl0]. destruct (Hf' i l0 Hl0) as (l' & -> & _). done.
    + apply Forall2_same_length_lookup. rewrite length_fmap, length_seq. split; [done|]. intros i l l' Hl Hl'.
      apply list_lookup_fmap_Some in Hl' as (k & -> & Hk). apply lookup_seq in Hk as [-> Hi]. rewrite Nat.add_0_l.
      destruct (Hf' i l Hl) as (l' & -> & Hs). by rewrite decide_True in Hs by done.
Qed.

Lemma Forall2_concat_perm (ls ls' : list (list A)) : Forall2 (fun l l' => l ≡ₚ l' /\ StronglySorted before l') ls ls' -> concat ls ≡ₚ concat ls'.
Proof. induction 1 as [|l l' ls ls' [Hp _] _ IH]; [done|]. cbn. by rewrite Hp, IH. Qed.

End MergeChunks.

Section Whole.
Context {A : Type} `{Inhabited A} (cmp : A -> A -> Z) (ok : A -> Prop) `{!Comparator cmp ok} (BUFSIZE : nat).
Hypothesis bufsize_positive : (0 < BUFSIZE)%nat.

Lemma merge_sorted_chunks_Ok f ls fuel : parts f ls -> Forall (fun l => l <> []) ls ->
  Forall (Forall ok) ls -> Forall (StronglySorted (before cmp)) ls -> (length (concat ls) < fuel)%nat ->
  exists out, merge_sorted_chunks cmp BUFSIZE fuel (length ls) f = Ok {| whole := Some out; part := part f |} /\
    out ≡ₚ concat ls /\ StronglySorted (before cmp) out.
Proof.
  intros Hf Hne Hok Hs Hfuel. unfold merge_sorted_chunks. rewrite (open_chunks_parts BUFSIZE f ls) by done.
  assert (remaining <$> (open_chunk BUFSIZE <$> ls) = ls) as Hrem.
  { clear -Hne bufsize_positive. induction Hne as [|l ls Hl _ IH]; [done|]. cbn [fmap list_fmap]. f_equal; [|exact IH].
    apply (read_buffer_remaining BUFSIZE bufsize_positive). by left. }
  destruct (merge_loop cmp ok BUFSIZE bufsize_positive (open_chunk BUFSIZE <$> ls) fuel) as (out & -> & Hp & Hsort).
  - apply Forall_fmap. rewrite Forall_forall in Hne, Hok, Hs |- *. intros l Hl. cbn.
    destruct (read_buffer_remaining BUFSIZE bufsize_positive l Wild) as [Hr Hptr]; [left; by apply Hne|].
    split; [done|]. unfold open_chunk. rewrite Hr. split; [by apply Hok|by apply Hs].
  - unfold all_remaining. by rewrite Hrem.
  - exists out. split; [done|]. split; [|done]. unfold all_remaining in Hp. by rewrite Hrem in Hp.
Qed.

(** Chunks that are there and not empty are sorted and merged. *)
Lemma external_sort_parts f ls fuel : parts f ls -> Forall (fun l => l <> []) ls -> Forall (Forall ok) ls -> (length (concat ls) < fuel)%nat ->
  exists f' out, external_sort cmp BUFSIZE fuel (length ls) false f = Ok f' /\ whole f' = Some out /\
    out ≡ₚ concat ls /\ StronglySorted (before cmp) out.
Proof.
  intros Hf Hne Hok Hfuel. unfold external_sort.
  destruct (sort_chunks_parts cmp ok f ls Hf Hok) as (f1 & ls' & -> & Hf1 & Hls & _). rewrite res_bind_Ok.
  pose proof (Forall2_concat_perm cmp ls ls' Hls) as Hp. rewrite (Forall2_length _ _ _ Hls).
  destruct (merge_sorted_chunks_Ok f1 ls' fuel) as (out & -> & Hp' & Hs); [done| | | | |].
  - clear -Hne Hls. induction Hls as [|l l' ls ls' [Hp _] _ IH]; [done|]. inversion Hne as [|? ? Hl Hne']; subst. constructor; [|by apply IH].
    intros ->. by apply Permutation_nil_r in Hp.
  - clear -Hok Hls. induction Hls as [|l l' ls ls' [Hp _] _ IH]; [done|]. inversion Hok as [|? ? Hl Hok']; subst. constructor; [by rewrite <- Hp|by apply IH].
  - clear -Hls. induction Hls as [|l l' ls ls' [_ Hs] _ IH]; by constructor.
  - by rewrite <- Hp.
  - eexists _, out. split; [done|]. split; [done|]. split; [by rewrite Hp', Hp|done].
Qed.

(** A chunk without entries: its pointer is used without being set. *)
Lemma smallest_wild chunks i c : chunks !! i = Some c -> current_pointer c = Wild ->
  (forall j d k, chunks !! j = Some d -> current_pointer d = At k -> (k < length (buffer d))%nat) -> smallest cmp chunks = Fault.
Proof.
  intros Hc Hw Hat. pose proof (lookup_lt_Some _ _ _ Hc) as Hi. unfold smallest.
  match goal with |- for_upM 0 _ ?b None = _ => set (body := b) end.
  assert (forall n lo best, (n = i - lo)%nat -> (lo <= i)%nat -> for_upM lo (length chunks) body best = Fault) as Hall; [|by apply (Hall i O); lia].
  induction n as [|n IH]; intros lo best Hn Hlo; rewrite for_upM_step by lia.
  - replace lo with i by lia. assert (body i best = Fault) as -> by (unfold body; by rewrite Hc, Hw). done.
  - destruct (lookup_lt_is_Some_2 chunks lo) as [d Hd]; [lia|].
    assert (body lo best = Fault \/ exists best', body lo best = Ok best') as [->|[best' ->]]; [|done|rewrite res_bind_Ok; apply IH; lia].
    unfold body. rewrite Hd. destruct (current_pointer d) as [| |k] eqn:Hd'; [right; by eexists|by left|].
    rewrite rd_entry, res_bind_Ok by (by eapply Hat). right. destruct best as [[? ?]|]; [case_match|]; by eexists.
Qed.

Lemma external_sort_wild f ls fuel i : parts f ls -> ls !! i = Some [] -> Forall (Forall ok) ls -> (0 < fuel)%nat ->
  external_sort cmp BUFSIZE fuel (length ls) false f = Fault.
Proof.
  intros Hf Hi Hok Hfuel. unfold external_sort.
  destruct (sort_chunks_parts cmp ok f ls Hf Hok) as (f1 & ls' & -> & Hf1 & Hls & _). rewrite res_bind_Ok, (Forall2_length _ _ _ Hls).
  unfold merge_sorted_chunks. rewrite (open_chunks_parts BUFSIZE f1 ls') by done. destruct fuel as [|fuel]; [lia|]. cbn [loop merge_step].
  assert (ls' !! i = Some []) as Hi'.
  { destruct (Forall2_lookup_l _ _ _ _ _ Hls Hi) as (l' & Hl' & Hp & _). apply Permutation_nil_l in Hp. by subst. }
  rewrite (smallest_wild _ i (open_chunk BUFSIZE [])); [done| | |].
  - by rewrite list_lookup_fmap, Hi'.
  - unfold open_chunk, read_buffer. cbn [current_pointer]. by rewrite take_nil.
  - intros j d k Hd Hk. apply list_lookup_fmap_Some in Hd as (l & -> & _). unfold open_chunk, read_buffer in Hk |- *. cbn [current_pointer buffer] in *.
    destruct (take BUFSIZE l); [done|]. injection Hk as <-. cbn. lia.
Qed.

(** ** Making the chunks *)

Definition piece (e : nat) (l : list A) (j : nat) : list A := take e (drop (j * e) l).

Lemma concat_pieces e l m : concat (tabulate m (piece e l)) = take (m * e) l.
Proof.
  clear. induction m as [|m IH]; [done|]. rewrite tabulate_S, concat_app, IH. cbn [concat]. rewrite app_nil_r. unfold piece.
  rewrite take_take_drop. f_equal. lia.
Qed.

Lemma partition_file_parts n f l : whole f = Some l -> l <> [] -> (0 < n)%nat ->
  let e := ((length l + n - 1) / n)%nat in
  exists m f', partition_file_into_chunks n f = f' /\ (0 < e)%nat /\ (length l <= m * e)%nat /\ ((m - 1) * e < length l)%nat /\ (0 < m)%nat /\
    (forall j, part f' !! j = if decide (j < m)%nat then Some (piece e l j) else part f !! j).
Proof.
  clear. intros Hw Hl Hn e. unfold partition_file_into_chunks. rewrite Hw. change (default [] (Some l)) with l. fold e.
  assert (0 < length l)%nat as Hlen by (destruct l; [done|cbn; lia]).
  assert (0 < e)%nat as He by (apply Nat.div_str_pos; lia).  clearbody e.
  match goal with |- context [for_next 0 ?hi ?next ?body ?s] =>
    destruct (for_next_ind (fun i '(j, f') => i = (j * e)%nat /\ whole f' = Some l /\ (j = 0 \/ ((j - 1) * e < length l))%nat /\
      forall k, part f' !! k = if decide (k < j)%nat then Some (piece e l k) else part f !! k) 0 hi next body s) as (i & Hi & HP) end.
  - intros k Hk. cbn. lia.
  - split; [done|]. split; [done|]. split; [by left|]. intros k. by rewrite decide_False by lia.
  - intros i [j f1] Hi (-> & Hw1 & Hj & Hk). cbn [id]. split; [cbn; lia|]. split; [done|]. split; [right; replace (S j - 1)%nat with j by lia; lia|].
    intros k. unfold partition_one_chunk, set_part. cbn [part]. rewrite Hw1. destruct (decide (k = j)) as [->|Hne].
    + rewrite lookup_insert_eq, decide_True by lia. f_equal. unfold piece. cbn [default].
      destruct (decide (e <= length l - j * e)%nat); [by rewrite Nat.min_l by lia|]. rewrite Nat.min_r by lia.
      rewrite !firstn_all2; rewrite ?length_drop; done || lia.
    + rewrite lookup_insert_ne by done. rewrite Hk. do 2 case_decide; done || lia.
  - destruct (for_next _ _ _ _ _) as [m f'] eqn:Hfor. destruct HP as (-> & Hw' & Hm & Hparts). exists m, f'. cbn [snd].
    assert (0 < m)%nat by (destruct m; lia). repeat split; try done; lia.
Qed.

End Whole.

Section Theorems.
Context {A : Type} `{Inhabited A} (cmp : A -> A -> Z) (ok : A -> Prop) `{!Comparator cmp ok} (BUFSIZE : nat).

(** C10: Sorting the chunks of the folder and merging them through buffers of any
    size gives the sorted list of all their entries; with a chunk that has no
    entries an unset pointer is used instead. *)
Theorem external_sort_correct f ls fuel :
  (0 < BUFSIZE)%nat -> parts f ls -> Forall (Forall ok) ls -> (length (concat ls) < fuel)%nat ->
  (Forall (fun l => l <> []) ls ->
     exists f' out, external_sort cmp BUFSIZE fuel (length ls) false f = Ok f' /\ whole f' = Some out /\
       out ≡ₚ concat ls /\ StronglySorted (before cmp) out) /\
  (forall i, ls !! i = Some [] -> external_sort cmp BUFSIZE fuel (length ls) false f = Fault).
Proof.
  intros Hb Hf Hok Hfuel. split.
  - intros Hne. by apply (external_sort_parts cmp ok BUFSIZE Hb).
  - intros i Hi. apply (external_sort_wild cmp ok BUFSIZE Hb f ls fuel i Hf Hi Hok). lia.
Qed.

(** Cutting a file into chunks of equal size first: the file is sorted when
    that many chunks are needed for its entries; when fewer are enough a
    chunk that was not written is opened. *)
Theorem external_sort_partition f l n fuel :
  (0 < BUFSIZE)%nat -> whole f = Some l -> part f = ∅ -> l <> [] -> (0 < n)%nat -> Forall ok l -> (length l < fuel)%nat ->
  if decide ((n - 1) * ((length l + n - 1) / n) < length l)%nat then
    exists f' out, external_sort cmp BUFSIZE fuel n true f = Ok f' /\ whole f' = Some out /\ out ≡ₚ l /\ StronglySorted (before cmp) out
  else external_sort cmp BUFSIZE fuel n true f = Fault.
Proof.
  intros Hb Hw Hpart Hl Hn Hok Hfuel.
  destruct (partition_file_parts n f l Hw Hl Hn) as (m & f1 & Hf1 & He & Hlm & Hm1 & Hm & Hparts).
  set (e := ((length l + n - 1) / n)%nat) in *. assert (m <= n)%nat as Hmn.
  { assert (length l <= n * e)%nat by (unfold e; pose proof (Nat.div_mod_eq (length l + n - 1) n); pose proof (Nat.mod_upper_bound (length l + n - 1) n); lia).
    clearbody e. destruct (decide (m <= n)%nat); [done|]. assert (n * e <= (m - 1) * e)%nat by (apply Nat.mul_le_mono_r; lia). lia. }
  set (ls := tabulate m (piece e l)). assert (concat ls = l) as Hcat by (unfold ls; rewrite concat_pieces; by apply firstn_all2).
  assert (length ls = m) as Hlen by apply tabulate_length.
  assert (parts f1 ls) as Hf1p.
  { intros i k Hk. unfold ls, tabulate in Hk. apply list_lookup_fmap_Some in Hk as (j & -> & Hj). apply lookup_seq in Hj as [-> Hi].
    by rewrite Hparts, decide_True by lia. }
  assert (Forall (Forall ok) ls) as Hoks by (apply Forall_concat; by rewrite Hcat).
  assert (external_sort cmp BUFSIZE fuel n true f = external_sort cmp BUFSIZE fuel n false f1) as -> by (unfold external_sort; by rewrite Hf1).
  case_decide as Hcase.
  - assert (m = n) as <-. { clearbody e. destruct (decide (m = n)); [done|]. assert (m * e <= (n - 1) * e)%nat by (apply Nat.mul_le_mono_r; lia). lia. }
    rewrite <- Hlen, <- Hcat. apply (external_sort_parts cmp ok BUFSIZE Hb); [done| |done|by rewrite Hcat].
    unfold ls, tabulate. apply Forall_fmap, Forall_seq. intros j Hj. cbn. unfold piece. intros Hnil. apply (f_equal length) in Hnil.
    rewrite length_take, length_drop in Hnil. cbn in Hnil. clearbody e. assert (j * e <= (m - 1) * e)%nat by (apply Nat.mul_le_mono_r; lia). lia.
  - assert (m < n)%nat as Hlt. { clearbody e. destruct (decide (m = n)) as [->|]; lia. }
    unfold external_sort, sort_chunks. rewrite (for_upM_split 0 m) by lia.
    destruct (sort_chunks_parts cmp ok f1 ls Hf1p Hoks) as (f2 & ls' & Hs & _ & _ & Hout). unfold sort_chunks in Hs. rewrite Hlen in Hs, Hout. rewrite Hs, res_bind_Ok.
    rewrite for_upM_step by lia. assert (sort_one_chunk cmp m f2 = Fault) as ->; [|done]. unfold sort_one_chunk.
    by rewrite Hout, Hparts, decide_False, Hpart, lookup_empty by lia.
Qed.

End Theorems.

Lemma external_sort_correct_witness :
  exists f' out, external_sort int_comparator 2 20 3 false {| whole := None; part := <[0%nat := [3; 1; 2]]> (<[1%nat := [5; 1]]> (<[2%nat := [4]]> ∅)) |} = Ok f' /\
    whole f' = Some out /\ out ≡ₚ [3; 1; 2; 5; 1; 4] /\ StronglySorted (before int_comparator) out.
Proof.
  apply (external_sort_correct int_comparator (fun x => 0 <= x < 2 ^ 31) 2 _ [[3; 1; 2]; [5; 1]; [4]] 20).
  - lia.
  - intros [|[|[|i]]] l; cbn; intros Hl; [injection Hl as <-; reflexivity..|done].
  - apply (bool_decide_unpack _); vm_compute; exact I.
  - cbn. lia.
  - apply (bool_decide_unpack _); vm_compute; exact I.
Defined.

Lemma external_sort_partition_witness :
  (exists f' out, external_sort int_comparator 2 20 3 true {| whole := Some [3; 1; 2; 5; 1; 4]; part := ∅ |} = Ok f' /\
    whole f' = Some out /\ out ≡ₚ [3; 1; 2; 5; 1; 4] /\ StronglySorted (before int_comparator) out) /\
  external_sort int_comparator 2 20 4 true {| whole := Some [3; 1; 2; 5; 1; 4]; part := ∅ |} = Fault.
Proof.
  split.
  - apply (external_sort_partition int_comparator (fun x => 0 <= x < 2 ^ 31) 2 {| whole := Some [3; 1; 2; 5; 1; 4]; part := ∅ |} [3; 1; 2; 5; 1; 4] 3 20);
      [lia|reflexivity|reflexivity|done|lia|apply (bool_decide_unpack _); vm_compute; exact I|cbn; lia].
  - apply (external_sort_partition int_comparator (fun x => 0 <= x < 2 ^ 31) 2 {| whole := Some [3; 1; 2; 5; 1; 4]; part := ∅ |} [3; 1; 2; 5; 1; 4] 4 20);
      [lia|reflexivity|reflexivity|done|lia|apply (bool_decide_unpack _); vm_compute; exact I|cbn; lia].
Defined.
