(* ===== verification/DbBuild.v ===== *)
(** The compressed database builder of [pepper/storage/db_util.cpp]: from the
    sorted key-value pairs of an index to the files [index.db] and [hash.db]
    of a self-certifying search tree.

    A file of records is the list of its records; writing past the end fills
    the gap with zeroes.  The tree is cut into subtrees, the subtrees are
    built from the bottom up into buffers and written, and their roots are
    merged in rounds.  The hash of a node is a parameter. *)
From Stdlib Require Import ZArith Lia Sorting.Sorted.
From stdpp Require Import base numbers list.
From S2P Require Import Prelude BlockStore TreeCore TreeFacts AvlTree AvlSpec.

Local Open Scope Z_scope.

(** ** Records *)

Record key_value_pair_t := { kv_key : Z; kv_value : hash_t; kv_offset : Z }.
#[export] Instance key_value_pair_zero : Inhabited key_value_pair_t := populate {| kv_key := 0; kv_value := NULL_HASH; kv_offset := 0 |}.

Record compressed_tree_node_t := {
  c_left : Z;
  c_right : Z;
  c_key : Z;
  c_num_values : Z;
  c_values : list Z;
  c_height : Z;
  c_height_left : Z;
  c_height_right : Z
}.
Definition c_node_zero : compressed_tree_node_t :=
  {| c_left := 0; c_right := 0; c_key := 0; c_num_values := 0; c_values := [0]; c_height := 0; c_height_left := 0; c_height_right := 0 |}.

Record subtree_info_t := { st_left : Z; st_right : Z; st_height : Z; st_root : hash_t; st_root_index : Z }.

#[export] Instance subtree_info_zero : Inhabited subtree_info_t :=
  populate {| st_left := 0; st_right := 0; st_height := 0; st_root := NULL_HASH; st_root_index := 0 |}.

(** [/block_stores/index.db] and [/block_stores/hash.db] *)
Record index_files := { index_db : list compressed_tree_node_t; hash_db : list hash_t }.

(** [dump_array] at an offset *)
Definition write_at {A} (zero : A) (i : nat) (xs l : list A) : list A :=
  take i (l ++ replicate (i - length l) zero) ++ xs ++ drop (i + length xs) l.

Definition dump_index (i : Z) (cs : list compressed_tree_node_t) (hs : list hash_t) (f : index_files) : index_files :=
  {| index_db := write_at c_node_zero (Z.to_nat i) cs (index_db f); hash_db := write_at NULL_HASH (Z.to_nat i) hs (hash_db f) |}.

(** ** The code *)

Section Build.
Context (hash_node : tree_node_t -> hash_t).

(** [partition_tree]; the first argument is [max_depth + 1 - depth]. *)
Fixpoint partition_tree (levels : nat) (left right : Z) : list (Z * Z) :=
  match levels with
  | O => [(left, right)]
  | S levels' =>
      if right <=? left then [(left, right)]
      else
        let mid := left + Z.quot (right - left) 2 in
        partition_tree levels' left (mid - 1) ++ partition_tree levels' (mid + 1) right
  end.

Definition partition_tree_to_file (tree_size : Z) (max_depth : nat) : list (Z * Z) := partition_tree max_depth 0 (tree_size - 1).

(** The node of a pair over two subtrees, and its compressed form. *)
Definition full_node (kv : key_value_pair_t) (lh rh : hash_t) (hl hr : Z) : tree_node_t :=
  {| n_left := lh; n_right := rh; n_key := kv_key kv; n_num_values := 1; n_values := [kv_value kv];
     n_height := u8 (MAX hl hr + 1); n_height_left := u8 hl; n_height_right := u8 hr |}.

Definition compressed_node (kv : key_value_pair_t) (li ri : Z) (hl hr : Z) : compressed_tree_node_t :=
  {| c_left := u32 li; c_right := u32 ri; c_key := kv_key kv; c_num_values := 1; c_values := [kv_offset kv];
     c_height := u8 (MAX hl hr + 1); c_height_left := u8 hl; c_height_right := u8 hr |}.

(** The two buffers, filled from the start, and [index_offset]. *)
Definition buffers : Type := list compressed_tree_node_t * list hash_t * Z.

Fixpoint build_compressed_subtree (fuel : nat) (kv_pairs : list key_value_pair_t) (left right : Z) (st : buffers) : res (hash_t * Z * buffers) :=
  match fuel with
  | O => NoFuel
  | S fuel' =>
      if right <? left then Ok (NULL_HASH, 0, st)
      else
        let mid := left + Z.quot (right - left) 2 in
        '(lh, hl, st) ← build_compressed_subtree fuel' kv_pairs left (mid - 1) st;
        let li := if hl =? 0 then 0 else snd st - 1 in
        '(rh, hr, st) ← build_compressed_subtree fuel' kv_pairs (mid + 1) right st;
        let ri := if hr =? 0 then 0 else snd st - 1 in
        kv ← rd kv_pairs mid;
        let node := full_node kv lh rh hl hr in
        let '(c_node_buf, hash_buf, index_offset) := st in
        Ok (hash_node node, n_height node, (c_node_buf ++ [compressed_node kv li ri hl hr], hash_buf ++ [hash_node node], index_offset + 1))
  end.

(** A subtree: its part of the sorted pairs is loaded, and its buffers are
    written behind [existing_index_entries]. *)
Definition build_one_compressed_subtree_bottom_up (existing_index_entries : Z) (kv_pairs : list key_value_pair_t) (info : Z * Z) (f : index_files)
  : res (subtree_info_t * index_files) :=
  let '(left, right) := info in
  let subtree_size := right - left + 1 in
  let part := take (Z.to_nat subtree_size) (drop (Z.to_nat left) kv_pairs) in
  if Z.of_nat (length part) =? subtree_size then
    '(root, height, (c_node_buf, hash_buf, index_offset)) ←
      build_compressed_subtree (S (length part)) part 0 (subtree_size - 1) ([], [], left + existing_index_entries);
    Ok ({| st_left := left; st_right := right; st_height := height; st_root := root; st_root_index := u32 (index_offset - 1) |},
        dump_index (left + existing_index_entries) c_node_buf hash_buf f)
  else Fault.

(** Two neighbouring subtrees become one; its root goes to [mid + 1]. *)
Definition merge_two (kv_pairs : list key_value_pair_t) (a b : subtree_info_t) (f : index_files) : res (subtree_info_t * index_files) :=
  let mid := st_right a + 1 in
  kv ← rd kv_pairs mid;
  let node := full_node kv (st_root a) (st_root b) (u8 (st_height a)) (u8 (st_height b)) in
  let c := compressed_node kv (st_root_index a) (st_root_index b) (u8 (st_height a)) (u8 (st_height b)) in
  let root_index := u32 (mid + 1) in
  Ok ({| st_left := st_left a; st_right := st_right b; st_height := n_height node; st_root := hash_node node; st_root_index := root_index |},
      dump_index root_index [c] [hash_node node] f).

(** One round over the array of subtrees. *)
Definition merge_round (kv_pairs : list key_value_pair_t) (number_of_subtrees : nat) (st : list subtree_info_t * index_files)
  : res (list subtree_info_t * index_files) :=
  for_upM 0 number_of_subtrees
    (fun i '(subtrees, f) =>
       a ← rd subtrees (Z.of_nat (i * 2));
       b ← rd subtrees (Z.of_nat (i * 2 + 1));
       '(info, f) ← merge_two kv_pairs a b f;
       subtrees ← wr subtrees (Z.of_nat i) info;
       Ok (subtrees, f)) st.

Definition merge_rounds (fuel : nat) (kv_pairs : list key_value_pair_t) (number_of_subtrees : nat) (st : list subtree_info_t * index_files)
  : res (list subtree_info_t * index_files) :=
  loop fuel
    (fun '(n, st) =>
       if (0 <? n)%nat then st ← merge_round kv_pairs n st; Ok (inl ((n / 2)%nat, st))
       else Ok (inr st)) ((number_of_subtrees / 2)%nat, st).

(** The handle and the root node of the tree. *)
Definition merge_compressed_trees (kv_pairs : list key_value_pair_t) (subtrees : list subtree_info_t) (f : index_files)
  : res (hash_t * compressed_tree_node_t * index_files) :=
  '(subtrees, f) ← merge_rounds (S (length subtrees)) kv_pairs (length subtrees) (subtrees, f);
  top ← rd subtrees 0;
  root ← rd (index_db f) (st_root_index top);
  Ok (st_root top, root, f).

Definition build_compressed_tree_bottom_up (existing_index_entries : Z) (kv_pairs : list key_value_pair_t) (tree_size : Z) (max_depth : nat) (f : index_files)
  : res (hash_t * compressed_tree_node_t * index_files) :=
  let parts := partition_tree_to_file tree_size max_depth in
  '(subtrees, f) ← for_upM 0 (length parts)
    (fun i '(subtrees, f) =>
       info ← rd parts (Z.of_nat i);
       '(info, f) ← build_one_compressed_subtree_bottom_up existing_index_entries kv_pairs info f;
       Ok (subtrees ++ [info], f)) ([], f);
  merge_compressed_trees kv_pairs subtrees f.

(** The three index trees of [build_compressed_index_trees], one behind the
    other in the two files. *)
Definition build_compressed_index_trees (number_of_rows : Z) (max_depth : nat) (average class_ age : list key_value_pair_t)
  : res (list (hash_t * compressed_tree_node_t) * index_files) :=
  let f := dump_index 0 [c_node_zero] [NULL_HASH] {| index_db := []; hash_db := [] |} in
  '(r1, c1, f) ← build_compressed_tree_bottom_up 1 average number_of_rows max_depth f;
  '(r2, c2, f) ← build_compressed_tree_bottom_up (1 + number_of_rows) class_ number_of_rows max_depth f;
  '(r3, c3, f) ← build_compressed_tree_bottom_up (1 + number_of_rows + number_of_rows) age number_of_rows max_depth f;
  Ok ([(r1, c1); (r2, c2); (r3, c3)], f).

(** The builder without compression: a subtree is an array of hashes and
    nodes, [buf]. *)
Fixpoint build_subtree (fuel : nat) (kv_pairs : list key_value_pair_t) (left right : Z) (buf : list (hash_t * tree_node_t))
  : res (hash_t * Z * list (hash_t * tree_node_t)) :=
  match fuel with
  | O => NoFuel
  | S fuel' =>
      if right <? left then Ok (NULL_HASH, 0, buf)
      else
        let mid := left + Z.quot (right - left) 2 in
        '(lh, hl, buf) ← build_subtree fuel' kv_pairs left (mid - 1) buf;
        '(rh, hr, buf) ← build_subtree fuel' kv_pairs (mid + 1) right buf;
        kv ← rd kv_pairs mid;
        let node := full_node kv lh rh hl hr in
        Ok (hash_node node, n_height node, buf ++ [(hash_node node, node)])
  end.

(** The files of a tree: the infos of its subtrees and their arrays. *)
Record tree_files := { infos : list subtree_info_t; subtree_files : list (list (hash_t * tree_node_t)) }.

(** The two [dump_array] calls stand behind [exit(1)], in the branch of the
    wrong size. *)
Definition build_one_subtree_bottom_up (subtree_id : nat) (kv_pairs : list key_value_pair_t) (f : tree_files) : res tree_files :=
  subtree_info ← rd (infos f) (Z.of_nat subtree_id);
  let subtree_size := st_right subtree_info - st_left subtree_info + 1 in
  let part := take (Z.to_nat subtree_size) (drop (Z.to_nat (st_left subtree_info)) kv_pairs) in
  if Z.of_nat (length part) =? subtree_size then
    '(root, height, buf) ← build_subtree (S (length part)) part 0 (subtree_size - 1) [];
    if Z.of_nat (length buf) =? subtree_size then Ok f else Fault
  else Fault.

End Build.

(** ** Files of records *)

Section Files.
Context {A : Type} (zero : A).

Lemma write_at_new i (xs l : list A) j : (j < length xs)%nat -> write_at zero i xs l !! (i + j)%nat = xs !! j.
Proof.
  intros Hj. unfold write_at. assert (length (take i (l ++ replicate (i - length l) zero)) = i) as Hl.
  { rewrite length_take, length_app, length_replicate. lia. }
  rewrite lookup_app_r, Hl by lia. rewrite lookup_app_l by lia. f_equal. lia.
Qed.

Lemma write_at_keep i (xs l : list A) j x : l !! j = Some x -> (j < i \/ i + length xs <= j)%nat -> write_at zero i xs l !! j = Some x.
Proof.
  intros Hx Hj. pose proof (lookup_lt_Some _ _ _ Hx) as Hlt. unfold write_at.
  assert (length (take i (l ++ replicate (i - length l) zero)) = i) as Hl.
  { rewrite length_take, length_app, length_replicate. lia. }
  destruct Hj as [Hj|Hj].
  - rewrite lookup_app_l by lia. rewrite lookup_take_lt by done. by apply lookup_app_l_Some.
  - rewrite lookup_app_r, Hl by lia. rewrite lookup_app_r by lia. rewrite lookup_drop.
    by replace (i + length xs + (j - i - length xs))%nat with j by lia.
Qed.

Lemma write_at_length i (xs l : list A) : length (write_at zero i xs l) = Nat.max (length l) (i + length xs).
Proof. unfold write_at. rewrite !length_app, length_take, length_app, length_replicate, length_drop. lia. Qed.

Lemma write_at_end (xs l : list A) : write_at zero (length l) xs l = l ++ xs.
Proof. unfold write_at. rewrite Nat.sub_diag, app_nil_r, take_ge, drop_ge, app_nil_r by lia. done. Qed.

End Files.

(** ** The tree that is built *)

Section MidTree.
Context (kvs : list key_value_pair_t).

Definition middle (l s : nat) : nat := (l + (s - 1 - l) / 2)%nat.

Fixpoint mid_tree_n (fuel l s : nat) : tree key_value_pair_t :=
  match fuel with
  | O => Leaf
  | S fuel' =>
      if (s <=? l)%nat then Leaf
      else Bin (mid_tree_n fuel' l (middle l s)) (kv_key (kvs !!! middle l s)) [kvs !!! middle l s] (mid_tree_n fuel' (S (middle l s)) s)
  end.

Definition mid_tree (l s : nat) : tree key_value_pair_t := mid_tree_n (s - l) l s.

Lemma middle_range l s : (l < s)%nat -> (l <= middle l s < s)%nat /\ (middle l s - l <= (s - l) / 2)%nat /\ (s - S (middle l s) <= (s - l) / 2)%nat.
Proof.
  intros Hls. unfold middle. pose proof (Nat.div_mod_eq (s - 1 - l) 2). pose proof (Nat.mod_upper_bound (s - 1 - l) 2).
  pose proof (Nat.div_mod_eq (s - l) 2). pose proof (Nat.mod_upper_bound (s - l) 2). lia.
Qed.

Lemma middle_Z l s : (l < s)%nat -> Z.of_nat l + Z.quot (Z.of_nat s - 1 - Z.of_nat l) 2 = Z.of_nat (middle l s).
Proof. intros Hls. unfold middle. rewrite Z.quot_div_nonneg by lia. rewrite Nat2Z.inj_add, Nat2Z.inj_div. do 2 f_equal. lia. Qed.

Lemma mid_tree_n_fuel fuel l s : (s - l <= fuel)%nat -> mid_tree_n fuel l s = mid_tree l s.
Proof.
  unfold mid_tree. revert l s. induction fuel as [fuel IH] using lt_wf_ind. intros l s Hf.
  destruct (decide (s <= l)%nat) as [Hle|Hlt].
  - replace (s - l)%nat with O by lia. destruct fuel; cbn; [done|]. destruct (Nat.leb_spec s l); [done|lia].
  - destruct fuel as [|fuel]; [lia|]. destruct (s - l)%nat as [|g] eqn:Hg; [lia|]. cbn [mid_tree_n]. destruct (Nat.leb_spec s l); [done|].
    pose proof (middle_range l s). rewrite !(IH fuel), !(IH g) by lia. done.
Qed.

Lemma mid_tree_Leaf l s : (s <= l)%nat -> mid_tree l s = Leaf.
Proof. intros Hle. unfold mid_tree. by replace (s - l)%nat with O by lia. Qed.

Lemma mid_tree_Bin l s : (l < s)%nat ->
  mid_tree l s = Bin (mid_tree l (middle l s)) (kv_key (kvs !!! middle l s)) [kvs !!! middle l s] (mid_tree (S (middle l s)) s).
Proof.
  intros Hls. unfold mid_tree at 1. destruct (s - l)%nat as [|g] eqn:Hg; [lia|]. cbn [mid_tree_n]. destruct (Nat.leb_spec s l); [lia|].
  pose proof (middle_range l s Hls). rewrite !mid_tree_n_fuel by lia. done.
Qed.

Lemma mid_tree_ind (P : nat -> nat -> Prop) :
  (forall l s, (s <= l)%nat -> P l s) ->
  (forall l s, (l < s)%nat -> P l (middle l s) -> P (S (middle l s)) s -> P l s) -> forall l s, P l s.
Proof.
  intros Hleaf Hbin l s. remember (s - l)%nat as n eqn:Hn. revert l s Hn. induction n as [n IH] using lt_wf_ind. intros l s Hn.
  destruct (decide (s <= l)%nat); [by apply Hleaf|]. pose proof (middle_range l s). apply Hbin; [lia| |]; (eapply IH; [|reflexivity]; lia).
Qed.

(** Its in-order listing is the array, it is balanced, and logarithmic. *)
Lemma mid_tree_elements l s : (s <= length kvs)%nat ->
  elements (mid_tree l s) = (fun kv => (kv_key kv, [kv])) <$> take (s - l) (drop l kvs).
Proof.
  revert l s. apply (mid_tree_ind (fun l s => (s <= length kvs)%nat -> elements (mid_tree l s) = _ <$> take (s - l) (drop l kvs))).
  - intros l s Hle _. rewrite mid_tree_Leaf by done. by replace (s - l)%nat with O by lia.
  - intros l s Hlt IHl IHr Hs. pose proof (middle_range l s Hlt). rewrite mid_tree_Bin by done. cbn [elements]. rewrite IHl, IHr by lia.
    replace (s - l)%nat with ((middle l s - l) + S (s - S (middle l s)))%nat by lia. rewrite <- take_take_drop, drop_drop, fmap_app. f_equal.
    replace (l + (middle l s - l))%nat with (middle l s) by lia.
    rewrite (drop_S kvs (kvs !!! middle l s) (middle l s)) by (apply list_lookup_lookup_total_lt; lia). done.
Qed.

Lemma mid_tree_height k l s : (s - l < 2 ^ k)%nat -> (height (mid_tree l s) <= k)%nat.
Proof.
  revert l s. induction k as [|k IH]; intros l s Hk.
  - rewrite mid_tree_Leaf by (cbn in Hk; lia). done.
  - destruct (decide (s <= l)%nat); [rewrite mid_tree_Leaf by done; cbn; lia|]. rewrite mid_tree_Bin by lia. cbn [height].
    pose proof (middle_range l s). rewrite Nat.pow_succ_r' in Hk. assert ((s - l) / 2 < 2 ^ k)%nat by (apply Nat.Div0.div_lt_upper_bound; lia).
    pose proof (IH l (middle l s)). pose proof (IH (S (middle l s)) s). lia.
Qed.

(** A range of [m] has a height that depends on [m] only and does not shrink
    when [m] grows. *)
Lemma mid_tree_height_mono l s l' s' : (s - l <= s' - l')%nat -> (height (mid_tree l s) <= height (mid_tree l' s'))%nat.
Proof.
  revert l s l' s'. apply (mid_tree_ind (fun l s => forall l' s', (s - l <= s' - l')%nat -> (height (mid_tree l s) <= height (mid_tree l' s'))%nat)).
  - intros l s Hle l' s' _. rewrite mid_tree_Leaf by done. cbn. lia.
  - intros l s Hlt IHl IHr l' s' Hle. rewrite (mid_tree_Bin l s), (mid_tree_Bin l' s') by lia. cbn [height].
    assert (middle l s - l <= middle l' s' - l' /\ s - S (middle l s) <= s' - S (middle l' s'))%nat as [Hl Hr].
    { unfold middle. pose proof (Nat.div_mod_eq (s - 1 - l) 2). pose proof (Nat.mod_upper_bound (s - 1 - l) 2).
      pose proof (Nat.div_mod_eq (s' - 1 - l') 2). pose proof (Nat.mod_upper_bound (s' - 1 - l') 2). lia. }
    specialize (IHl _ _ Hl). specialize (IHr _ _ Hr). lia.
Qed.

Lemma mid_tree_avl l s : avl (mid_tree l s).
Proof.
  revert l s. apply mid_tree_ind.
  - intros l s Hle. by rewrite mid_tree_Leaf.
  - intros l s Hlt IHl IHr. rewrite mid_tree_Bin by done. pose proof (middle_range l s Hlt) as Hm. split; [done|]. split; [done|]. split.
    + assert (middle l s - l <= s - S (middle l s))%nat as Hle.
      { unfold middle. pose proof (Nat.div_mod_eq (s - 1 - l) 2). pose proof (Nat.mod_upper_bound (s - 1 - l) 2). lia. }
      pose proof (mid_tree_height_mono _ _ _ _ Hle). lia.
    + assert (s - S (middle l s) <= S (middle l s - l))%nat as Hle.
      { unfold middle. pose proof (Nat.div_mod_eq (s - 1 - l) 2). pose proof (Nat.mod_upper_bound (s - 1 - l) 2). lia. }
      destruct (decide (S (middle l s) < s)%nat) as [Hlt'|]; [|rewrite (mid_tree_Leaf (S (middle l s))) by lia; cbn; lia].
      rewrite (mid_tree_Bin (S (middle l s)) s) by done. cbn [height].
      assert (forall l2 s2, (s2 - l2 <= middle l s - l)%nat -> (height (mid_tree l2 s2) <= height (mid_tree l (middle l s)))%nat) as Hmono
        by (intros; by apply mid_tree_height_mono).
      pose proof (middle_range (S (middle l s)) s Hlt').
      pose proof (Hmono (S (middle l s)) (middle (S (middle l s)) s)). pose proof (Hmono (S (middle (S (middle l s)) s)) s). lia.
Qed.

End MidTree.

(** ** What the files hold *)

Section Represented.
Context (hash_node : tree_node_t -> hash_t).

(** [crep f lo hi ix h t]: the record at [ix] is the root of a stored copy of
    [t] with hash [h]; all its records are between [lo] and [hi]. *)
Fixpoint crep (f : index_files) (lo hi ix : Z) (h : hash_t) (t : tree key_value_pair_t) : Prop :=
  match t with
  | Leaf => ix = 0 /\ h = NULL_HASH
  | Bin l k e r =>
      lo <= ix < hi /\ exists kv li ri lh rh,
        k = kv_key kv /\ e = [kv] /\ in_u 32 li /\ in_u 32 ri /\
        rd (index_db f) ix = Ok (compressed_node kv li ri (Z.of_nat (height l)) (Z.of_nat (height r))) /\
        rd (hash_db f) ix = Ok h /\
        h = hash_node (full_node kv lh rh (Z.of_nat (height l)) (Z.of_nat (height r))) /\
        crep f lo hi li lh l /\ crep f lo hi ri rh r
  end.

(** A record for each hash. *)
Definition aligned (f : index_files) : Prop := length (index_db f) = length (hash_db f).

(** The records from [lo] to [hi] are kept. *)
Definition keeps (lo hi : Z) (f f' : index_files) : Prop :=
  (forall i, lo <= i < hi ->
    (forall c, rd (index_db f) i = Ok c -> rd (index_db f') i = Ok c) /\ (forall h, rd (hash_db f) i = Ok h -> rd (hash_db f') i = Ok h)) /\
  (aligned f -> aligned f').

Lemma crep_frame f f' lo hi ix h t : keeps lo hi f f' -> crep f lo hi ix h t -> crep f' lo hi ix h t.
Proof.
  intros Hk. revert ix h. induction t as [|l IHl k e r IHr]; intros ix h; [done|]. cbn.
  intros (Hix & kv & li & ri & lh & rh & ? & ? & ? & ? & Hc & Hh & ? & Hl & Hr). split; [done|]. exists kv, li, ri, lh, rh.
  destruct (proj1 Hk ix Hix) as [Hkc Hkh]. repeat (split; [by auto|]). auto.
Qed.

Lemma crep_widen f lo hi lo' hi' ix h t : lo' <= lo -> hi <= hi' -> crep f lo hi ix h t -> crep f lo' hi' ix h t.
Proof.
  intros Hlo Hhi. revert ix h. induction t as [|l IHl k e r IHr]; intros ix h; [done|]. cbn.
  intros (Hix & kv & li & ri & lh & rh & ? & ? & ? & ? & Hc & Hh & ? & Hl & Hr). split; [lia|]. exists kv, li, ri, lh, rh. auto 12.
Qed.

Lemma crep_index f lo hi ix h t : 0 <= lo -> hi <= 2 ^ 32 -> crep f lo hi ix h t -> in_u 32 ix.
Proof. destruct t; cbn; [intros _ _ [-> _]; split; done|]. intros Hlo Hhi [Hix _]. unfold in_u. lia. Qed.

Lemma rd_Z_lookup {A} (l : list A) (i : Z) x : 0 <= i -> l !! Z.to_nat i = Some x -> rd l i = Ok x.
Proof. intros Hi Hl. rewrite <- (Z2Nat.id i) by done. by apply rd_lookup. Qed.

Lemma rd_Ok_lookup {A} (l : list A) (i : Z) x : rd l i = Ok x -> 0 <= i /\ l !! Z.to_nat i = Some x.
Proof. unfold rd. destruct (Z.leb_spec 0 i); [|done]. destruct (l !! Z.to_nat i); [|done]. by intros [= ->]. Qed.

Lemma dump_keeps i cs hs f lo hi : 0 <= i -> length cs = length hs -> (hi <= i \/ i + Z.of_nat (length cs) <= lo) -> keeps lo hi f (dump_index i cs hs f).
Proof.
  intros Hi Hlen Hd. split; [|unfold aligned; cbn; rewrite !write_at_length; congruence]. intros j Hj. split; intros x Hx; apply rd_Ok_lookup in Hx as [Hj0 Hx]; apply rd_Z_lookup; try done; apply write_at_keep; try done; lia.
Qed.

Lemma dump_new i cs hs f j : 0 <= i -> (j < length cs)%nat -> length cs = length hs ->
  index_db (dump_index i cs hs f) !! (Z.to_nat i + j)%nat = cs !! j /\ hash_db (dump_index i cs hs f) !! (Z.to_nat i + j)%nat = hs !! j.
Proof. intros Hi Hj Hlen. cbn. split; apply write_at_new; lia. Qed.

Lemma MAX_heights l r : u8 (MAX (Z.of_nat l) (Z.of_nat r) + 1) = u8 (Z.of_nat (S (Nat.max l r))).
Proof. f_equal. unfold MAX. rewrite Z.gtb_ltb. destruct (Z.ltb_spec (Z.of_nat l) (Z.of_nat r)); lia. Qed.

Lemma u8_height n : (n < 256)%nat -> u8 (Z.of_nat n) = Z.of_nat n.
Proof. intros Hn. apply wrapu_small. split; [lia|]. cbn. lia. Qed.

(** ** Building one subtree *)

Section Subtree.
Context (kvs : list key_value_pair_t).
#[local] Abbreviation mt := (mid_tree kvs).

Lemma height_leaf l s : (Z.of_nat (height (mt l s)) =? 0) = (s <=? l)%nat.
Proof.
  destruct (Nat.leb_spec s l); [by rewrite mid_tree_Leaf|]. rewrite mid_tree_Bin by done. cbn [height]. apply Z.eqb_neq. lia.
Qed.

(** What a file has to hold where the buffers are written. *)
Definition written (f : index_files) (io : Z) (cs : list compressed_tree_node_t) (hs : list hash_t) : Prop :=
  forall j, (j < length cs)%nat -> index_db f !! (Z.to_nat io + j)%nat = cs !! j /\ hash_db f !! (Z.to_nat io + j)%nat = hs !! j.

Lemma written_app f io cs1 cs2 hs1 hs2 : 0 <= io -> length cs1 = length hs1 -> written f io (cs1 ++ cs2) (hs1 ++ hs2) ->
  written f io cs1 hs1 /\ written f (io + Z.of_nat (length cs1)) cs2 hs2.
Proof.
  intros Hio Hl Hw. split; intros j Hj.
  - destruct (Hw j) as [Hc Hh]; [rewrite length_app; lia|]. rewrite !lookup_app_l in Hc by lia. rewrite !lookup_app_l in Hh by lia. done.
  - destruct (Hw (length cs1 + j)%nat) as [Hc Hh]; [rewrite length_app; lia|].
    rewrite lookup_app_r, Nat.add_sub' in Hc by lia. rewrite lookup_app_r in Hh by lia. rewrite <- Hl, Nat.add_sub' in Hh.
    replace (Z.to_nat (io + Z.of_nat (length cs1)) + j)%nat with (Z.to_nat io + (length cs1 + j))%nat by lia. done.
Qed.

Definition subtree_index (io : Z) (l s : nat) : Z := if (s <=? l)%nat then 0 else io + Z.of_nat (s - l) - 1.

Lemma build_spec fuel l s cb hb io : (s - l < fuel)%nat -> (s <= length kvs)%nat -> 1 <= io -> io + Z.of_nat (s - l) < 2 ^ 32 ->
  exists h cs hs, build_compressed_subtree hash_node fuel kvs (Z.of_nat l) (Z.of_nat s - 1) (cb, hb, io) =
      Ok (h, Z.of_nat (height (mt l s)), (cb ++ cs, hb ++ hs, io + Z.of_nat (s - l))) /\
    length cs = (s - l)%nat /\ length hs = (s - l)%nat /\
    forall f, written f io cs hs -> crep f io (io + Z.of_nat (s - l)) (subtree_index io l s) h (mt l s).
Proof.
  revert l s cb hb io. induction fuel as [|fuel IH]; intros l s cb hb io Hf Hs Hio Hbig; [lia|]. cbn [build_compressed_subtree].
  destruct (Z.ltb_spec (Z.of_nat s - 1) (Z.of_nat l)) as [Hle|Hlt].
  { exists NULL_HASH, [], []. rewrite mid_tree_Leaf by lia. replace (s - l)%nat with O by lia. rewrite !app_nil_r, Z.add_0_r. split; [done|]. split; [done|]. split; [done|].
    intros f _. unfold subtree_index. destruct (Nat.leb_spec s l); [done|lia]. }
  pose proof (middle_range l s) as Hm. rewrite middle_Z by lia. set (m := middle l s) in *. assert (l <= m < s)%nat as Hms by lia.
  destruct (IH l m cb hb io) as (lh & cl & hl & -> & Hcl & Hhl & Hrepl); [lia..|]. rewrite res_bind_Ok, height_leaf.
  replace (Z.of_nat m + 1) with (Z.of_nat (S m)) by lia.
  destruct (IH (S m) s (cb ++ cl) (hb ++ hl) (io + Z.of_nat (m - l))) as (rh & cr & hr & -> & Hcr & Hhr & Hrepr); [lia..|]. rewrite res_bind_Ok, height_leaf.
  cbn [snd]. rewrite (rd_lookup _ _ (kvs !!! m)), res_bind_Ok by (apply list_lookup_lookup_total_lt; lia).
  set (li := if (m <=? l)%nat then 0 else io + Z.of_nat (m - l) - 1). set (ri := if (s <=? S m)%nat then 0 else io + Z.of_nat (m - l) + Z.of_nat (s - S m) - 1).
  assert (height (mt l s) <= 32)%nat as Hh by (apply mid_tree_height; apply Nat2Z.inj_lt; rewrite Nat2Z.inj_pow; lia).
  pose proof Hh as Hh'. rewrite mid_tree_Bin in Hh' by lia. cbn [height] in Hh'. fold m in Hh'.
  eexists _, (cl ++ cr ++ [_]), (hl ++ hr ++ [_]). rewrite (mid_tree_Bin kvs l s) by lia. fold m. split; [|split; [|split]].
  - unfold full_node at 2. cbn [n_height height]. rewrite MAX_heights, u8_height by lia. rewrite !app_assoc.
    do 3 f_equal. lia.
  - rewrite !length_app. cbn [length]. lia.
  - rewrite !length_app. cbn [length]. lia.
  - intros f Hw. rewrite !app_assoc in Hw. apply written_app in Hw as [Hw Hlast]; [|lia|rewrite !length_app; lia].
    apply written_app in Hw as [Hwl Hwr]; [|lia|lia]. rewrite length_app, Hcl, Hcr in Hlast. rewrite Hcl in Hwr.
    destruct (Hlast O) as [Hc Hhs]; [cbn; lia|]. unfold subtree_index. destruct (Nat.leb_spec s l); [lia|]. cbn [crep].
    split; [lia|]. exists (kvs !!! m), li, ri, lh, rh. split; [done|]. split; [done|].
    assert (subtree_index io l m = li) as Hli by done.
    assert (subtree_index (io + Z.of_nat (m - l)) (S m) s = ri) as Hri by done.
    specialize (Hrepl f Hwl). specialize (Hrepr f Hwr). rewrite Hli in Hrepl. rewrite Hri in Hrepr.
    split; [by eapply crep_index; [| |exact Hrepl]; lia|]. split; [by eapply crep_index; [| |exact Hrepr]; lia|].
    split; [|split; [|split; [done|split]]].
    + apply rd_Z_lookup; [lia|]. rewrite Nat.add_0_r in Hc. etrans; [|exact Hc]. f_equal. lia.
    + apply rd_Z_lookup; [lia|]. rewrite Nat.add_0_r in Hhs. etrans; [|exact Hhs]. f_equal. lia.
    + eapply crep_widen; [| |exact Hrepl]; lia.
    + eapply crep_widen; [| |exact Hrepr]; lia.
Qed.

End Subtree.

Lemma mid_tree_part kvs l n a b : (b <= n)%nat -> (l + n <= length kvs)%nat ->
  mid_tree (take n (drop l kvs)) a b = mid_tree kvs (l + a) (l + b).
Proof.
  intros Hb Hn. revert a b Hb.
  apply (mid_tree_ind (fun a b => (b <= n)%nat -> mid_tree (take n (drop l kvs)) a b = mid_tree kvs (l + a) (l + b))).
  - intros a b Hle _. by rewrite !mid_tree_Leaf by lia.
  - intros a b Hlt IHl IHr Hb. pose proof (middle_range a b Hlt). rewrite (mid_tree_Bin _ a b), (mid_tree_Bin kvs) by lia.
    assert (middle (l + a) (l + b) = l + middle a b)%nat as -> by (unfold middle; replace (l + b - 1 - (l + a))%nat with (b - 1 - a)%nat by lia; lia).
    rewrite IHl, IHr by lia. replace (l + S (middle a b))%nat with (S (l + middle a b)) by lia.
    assert (take n (drop l kvs) !!! middle a b = kvs !!! (l + middle a b)%nat) as ->; [|done].
    rewrite !list_lookup_total_alt, lookup_take_lt, lookup_drop by lia. done.
Qed.

(** ** The subtrees *)

(** The ranges of the array after cutting [d] times; the middles are left
    out. *)
Fixpoint segs (d l s : nat) : list (nat * nat) :=
  match d with O => [(l, s)] | S d' => segs d' l (middle l s) ++ segs d' (S (middle l s)) s end.

Lemma segs_length d l s : length (segs d l s) = (2 ^ d)%nat.
Proof. revert l s. induction d as [|d IH]; intros l s; [done|]. cbn [segs]. rewrite length_app, !IH, Nat.pow_succ_r'. lia. Qed.

Lemma middle_split l s m : (2 * m + 1 <= s - l)%nat -> (m <= middle l s - l)%nat /\ (m <= s - S (middle l s))%nat /\ (l <= middle l s < s)%nat.
Proof.
  intros Hm. unfold middle. pose proof (Nat.div_mod_eq (s - 1 - l) 2). pose proof (Nat.mod_upper_bound (s - 1 - l) 2). lia.
Qed.

Lemma partition_tree_segs d l s : (2 ^ S d - 1 <= s - l)%nat ->
  partition_tree d (Z.of_nat l) (Z.of_nat s - 1) = (fun '(l, s) => (Z.of_nat l, Z.of_nat s - 1)) <$> segs d l s.
Proof.
  revert l s. induction d as [|d IH]; intros l s Hd; [done|]. cbn [partition_tree segs].
  assert (1 <= 2 ^ d)%nat as Hpos by (apply Nat.le_succ_l, Nat.neq_0_lt_0, Nat.pow_nonzero; done).
  rewrite !Nat.pow_succ_r' in Hd. destruct (Z.leb_spec (Z.of_nat s - 1) (Z.of_nat l)); [lia|].
  rewrite middle_Z, fmap_app by lia. destruct (middle_split l s (2 ^ S d - 1)) as (Hl & Hr & Hm); [rewrite Nat.pow_succ_r'; lia|].
  rewrite IH by done. replace (Z.of_nat (middle l s) + 1) with (Z.of_nat (S (middle l s))) by lia. by rewrite IH.
Qed.

(** A range at depth [d] and its two halves at depth [d + 1]. *)
Lemma segs_halves d l s i : (i < 2 ^ d)%nat ->
  segs (S d) l s !! (i * 2)%nat = Some ((segs d l s !!! i).1, middle (segs d l s !!! i).1 (segs d l s !!! i).2) /\
  segs (S d) l s !! (i * 2 + 1)%nat = Some (S (middle (segs d l s !!! i).1 (segs d l s !!! i).2), (segs d l s !!! i).2).
Proof.
  revert l s i. induction d as [|d IH]; intros l s i Hi; [by replace i with O by (cbn in Hi; lia)|].
  rewrite Nat.pow_succ_r' in Hi. change (segs (S (S d)) l s) with (segs (S d) l (middle l s) ++ segs (S d) (S (middle l s)) s).
  change (segs (S d) l s) with (segs d l (middle l s) ++ segs d (S (middle l s)) s).
  destruct (decide (i < 2 ^ d)%nat).
  - rewrite lookup_total_app_l by (rewrite segs_length; lia). rewrite !lookup_app_l by (rewrite segs_length, Nat.pow_succ_r'; lia). by apply IH.
  - rewrite lookup_total_app_r by (rewrite segs_length; lia). rewrite !lookup_app_r by (rewrite segs_length, Nat.pow_succ_r'; lia).
    rewrite !segs_length. destruct (IH (S (middle l s)) s (i - 2 ^ d)%nat) as [H1 H2]; [lia|].
    rewrite Nat.pow_succ_r'. replace (i * 2 - 2 * 2 ^ d)%nat with ((i - 2 ^ d) * 2)%nat by lia.
    replace (i * 2 + 1 - 2 * 2 ^ d)%nat with ((i - 2 ^ d) * 2 + 1)%nat by lia. done.
Qed.

(** The ranges are not empty and lie behind each other, with a middle in
    between. *)
Lemma segs_range d l s i : (2 ^ S d - 1 <= s - l)%nat -> (i < 2 ^ d)%nat ->
  (l <= (segs d l s !!! i).1)%nat /\ ((segs d l s !!! i).1 < (segs d l s !!! i).2)%nat /\ ((segs d l s !!! i).2 <= s)%nat.
Proof.
  revert l s i. induction d as [|d IH]; intros l s i Hd Hi; [replace i with O by (cbn in Hi; lia); cbn in Hd |- *; lia|].
  assert (1 <= 2 ^ d)%nat as Hpos by (apply Nat.le_succ_l, Nat.neq_0_lt_0, Nat.pow_nonzero; done).
  rewrite !Nat.pow_succ_r' in Hd. rewrite Nat.pow_succ_r' in Hi.
  destruct (middle_split l s (2 ^ S d - 1)) as (Hl & Hr & Hm); [rewrite Nat.pow_succ_r'; lia|]. cbn [segs].
  destruct (decide (i < 2 ^ d)%nat).
  - rewrite lookup_total_app_l by (rewrite segs_length; lia). destruct (IH l (middle l s) i) as (H1 & H2 & H3); [done|done|]. lia.
  - rewrite lookup_total_app_r, segs_length by (rewrite segs_length; lia). destruct (IH (S (middle l s)) s (i - 2 ^ d)%nat) as (H1 & H2 & H3); [done|lia|]. lia.
Qed.

Lemma segs_order d l s i j : (2 ^ S d - 1 <= s - l)%nat -> (i < j)%nat -> (j < 2 ^ d)%nat -> ((segs d l s !!! i).2 < (segs d l s !!! j).1)%nat.
Proof.
  revert l s i j. induction d as [|d IH]; intros l s i j Hd Hij Hj; [cbn in Hj; lia|].
  assert (1 <= 2 ^ d)%nat as Hpos by (apply Nat.le_succ_l, Nat.neq_0_lt_0, Nat.pow_nonzero; done).
  rewrite !Nat.pow_succ_r' in Hd. rewrite Nat.pow_succ_r' in Hj.
  destruct (middle_split l s (2 ^ S d - 1)) as (Hl & Hr & Hm); [rewrite Nat.pow_succ_r'; lia|]. cbn [segs].
  destruct (decide (j < 2 ^ d)%nat); [|destruct (decide (i < 2 ^ d)%nat)].
  - rewrite !lookup_total_app_l by (rewrite segs_length; lia). by apply IH.
  - rewrite lookup_total_app_l by (rewrite segs_length; lia). rewrite lookup_total_app_r, segs_length by (rewrite segs_length; lia).
    destruct (segs_range d l (middle l s) i) as (_ & _ & H1); [done|done|]. destruct (segs_range d (S (middle l s)) s (j - 2 ^ d)) as (H2 & _); [done|lia|]. lia.
  - rewrite !lookup_total_app_r, !segs_length by (rewrite segs_length; lia). apply IH; [done|lia|lia].
Qed.

(** ** From the subtrees to the tree *)

Section Whole.
Context (kvs : list key_value_pair_t).
#[local] Abbreviation mt := (mid_tree kvs).
Hypothesis room : Z.of_nat (length kvs) + 1 < 2 ^ 32.

(** The subtree of a range, stored in the records of the range, one further
    because of the null record. *)
Definition seg_ok (f : index_files) (seg : nat * nat) (info : subtree_info_t) : Prop :=
  st_left info = Z.of_nat seg.1 /\ st_right info = Z.of_nat seg.2 - 1 /\ st_height info = Z.of_nat (height (mt seg.1 seg.2)) /\
  crep f (Z.of_nat seg.1 + 1) (Z.of_nat seg.2 + 1) (st_root_index info) (st_root info) (mt seg.1 seg.2).

Definition null_ok (f : index_files) : Prop := rd (hash_db f) 0 = Ok NULL_HASH /\ aligned f.

Lemma keeps_null lo hi f f' : lo <= 0 < hi -> keeps lo hi f f' -> null_ok f -> null_ok f'.
Proof. clear. intros H0 [Hk Ha] [Hn Hf]. split; [by apply (Hk 0 H0)|by apply Ha]. Qed.

Lemma seg_ok_frame f f' seg info : keeps (Z.of_nat seg.1 + 1) (Z.of_nat seg.2 + 1) f f' -> seg_ok f seg info -> seg_ok f' seg info.
Proof. clear. intros Hk (? & ? & ? & Hc). repeat (split; [done|]). by eapply crep_frame. Qed.

Lemma u32_small z : 0 <= z < 2 ^ 32 -> u32 z = z.
Proof. clear. intros Hz. by apply wrapu_small. Qed.

Lemma build_one_spec f l s : (l < s)%nat -> (s <= length kvs)%nat ->
  exists info f', build_one_compressed_subtree_bottom_up hash_node 1 kvs (Z.of_nat l, Z.of_nat s - 1) f = Ok (info, f') /\ seg_ok f' (l, s) info /\
    forall lo hi, hi <= Z.of_nat l + 1 \/ Z.of_nat s + 1 <= lo -> keeps lo hi f f'.
Proof.
  intros Hls Hs. unfold build_one_compressed_subtree_bottom_up. replace (Z.to_nat (Z.of_nat s - 1 - Z.of_nat l + 1)) with (s - l)%nat by lia. rewrite Nat2Z.id.
  set (part := take (s - l) (drop l kvs)). assert (length part = (s - l)%nat) as Hlen by (unfold part; rewrite length_take, length_drop; lia).
  destruct (Z.eqb_spec (Z.of_nat (length part)) (Z.of_nat s - 1 - Z.of_nat l + 1)); [|lia].
  destruct (build_spec part (S (length part)) 0 (length part) [] [] (Z.of_nat l + 1)) as (h & cs & hs & Hb & Hcs & Hhs & Hrep); [lia..|].
  change (Z.of_nat 0) with 0 in Hb. replace (Z.of_nat s - 1 - Z.of_nat l + 1 - 1) with (Z.of_nat (length part) - 1) by lia. rewrite Hb, res_bind_Ok. cbn [app].
  rewrite Nat.sub_0_r in *. eexists _, _. split; [reflexivity|].
  assert (mid_tree part 0 (length part) = mt l s) as Hmt.
  { rewrite Hlen. unfold part. rewrite mid_tree_part by lia. f_equal; lia. }
  rewrite Hmt in *. split.
  - split; [done|]. split; [done|]. split; [done|]. cbn [fst snd st_root st_root_index].
    assert (written (dump_index (Z.of_nat l + 1) cs hs f) (Z.of_nat l + 1) cs hs) as Hw by (intros j Hj; apply dump_new; [lia|done|congruence]).
    specialize (Hrep _ Hw). unfold subtree_index in Hrep. destruct (Nat.leb_spec (length part) 0); [lia|]. rewrite Nat.sub_0_r in Hrep.
    rewrite u32_small by lia. by replace (Z.of_nat s + 1) with (Z.of_nat l + 1 + Z.of_nat (length part)) by lia.
  - intros lo hi Hd. apply dump_keeps; [lia|congruence|lia].
Qed.

Lemma merge_two_spec f l s a b : (l < s)%nat -> (s <= length kvs)%nat -> seg_ok f (l, middle l s) a -> seg_ok f (S (middle l s), s) b ->
  exists info f', merge_two hash_node kvs a b f = Ok (info, f') /\ seg_ok f' (l, s) info /\
    forall lo hi, hi <= Z.of_nat (middle l s) + 1 \/ Z.of_nat (middle l s) + 2 <= lo -> keeps lo hi f f'.
Proof.
  intros Hls Hs (Hal & Har & Hah & Hac) (Hbl & Hbr & Hbh & Hbc). pose proof (middle_range l s Hls) as Hm. set (m := middle l s) in *. cbn [fst snd] in *.
  unfold merge_two. rewrite Har. replace (Z.of_nat m - 1 + 1) with (Z.of_nat m) by lia.
  rewrite (rd_lookup _ _ (kvs !!! m)), res_bind_Ok by (apply list_lookup_lookup_total_lt; lia). rewrite u32_small by lia.
  assert (height (mt l s) <= 32)%nat as Hh by (apply mid_tree_height; apply Nat2Z.inj_lt; rewrite Nat2Z.inj_pow; lia).
  pose proof Hh as Hh'. rewrite mid_tree_Bin in Hh' by lia. cbn [height] in Hh'. fold m in Hh'.
  rewrite Hah, Hbh, !u8_height by lia. eexists _, _. split; [reflexivity|].
  assert (forall lo hi, hi <= Z.of_nat m + 1 \/ Z.of_nat m + 2 <= lo ->
    keeps lo hi f (dump_index (Z.of_nat m + 1) [compressed_node (kvs !!! m) (st_root_index a) (st_root_index b) (Z.of_nat (height (mt l m))) (Z.of_nat (height (mt (S m) s)))]
      [hash_node (full_node (kvs !!! m) (st_root a) (st_root b) (Z.of_nat (height (mt l m))) (Z.of_nat (height (mt (S m) s))))] f)) as Hkeeps
    by (intros lo hi Hd; apply dump_keeps; [lia|done|cbn; lia]).
  split; [|done]. set (f' := dump_index _ _ _ f) in *.
  unfold seg_ok. cbn [fst snd st_left st_right st_height st_root st_root_index]. split; [done|]. split; [done|].
  rewrite (mid_tree_Bin kvs l s) by lia. fold m. split.
  - unfold full_node. cbn [n_height height]. by rewrite MAX_heights, u8_height by lia.
  - cbn [crep]. split; [lia|]. exists (kvs !!! m), (st_root_index a), (st_root_index b), (st_root a), (st_root b). split; [done|]. split; [done|].
    split; [by eapply crep_index; [| |exact Hac]; lia|]. split; [by eapply crep_index; [| |exact Hbc]; lia|].
    destruct (dump_new (Z.of_nat m + 1) [compressed_node (kvs !!! m) (st_root_index a) (st_root_index b) (Z.of_nat (height (mt l m))) (Z.of_nat (height (mt (S m) s)))]
      [hash_node (full_node (kvs !!! m) (st_root a) (st_root b) (Z.of_nat (height (mt l m))) (Z.of_nat (height (mt (S m) s))))] f 0) as [Hc Hhs]; [lia|cbn; lia|done|].
    rewrite Nat.add_0_r in Hc, Hhs. split; [apply rd_Z_lookup; [lia|exact Hc]|]. split; [apply rd_Z_lookup; [lia|exact Hhs]|]. split; [done|]. split.
    + eapply crep_widen; [| |eapply crep_frame; [|exact Hac]]; [lia|lia|]. apply Hkeeps. lia.
    + eapply crep_widen; [| |eapply crep_frame; [|exact Hbc]]; [lia|lia|]. apply Hkeeps. lia.
Qed.

(** The array after cutting [d] times: its first [2 ^ d] subtrees stand for
    the ranges. *)
Definition level_ok (d : nat) (st : list subtree_info_t * index_files) : Prop :=
  (2 ^ d <= length st.1)%nat /\ null_ok st.2 /\ forall j, (j < 2 ^ d)%nat -> seg_ok st.2 (segs d 0 (length kvs) !!! j) (st.1 !!! j).

Lemma segs_halves_total d i : (i < 2 ^ d)%nat ->
  segs (S d) 0 (length kvs) !!! (i * 2)%nat = ((segs d 0 (length kvs) !!! i).1, middle (segs d 0 (length kvs) !!! i).1 (segs d 0 (length kvs) !!! i).2) /\
  segs (S d) 0 (length kvs) !!! (i * 2 + 1)%nat = (S (middle (segs d 0 (length kvs) !!! i).1 (segs d 0 (length kvs) !!! i).2), (segs d 0 (length kvs) !!! i).2).
Proof. clear. intros Hi. destruct (segs_halves d 0 (length kvs) i Hi) as [H1 H2]. split; by apply list_lookup_total_correct. Qed.

(** One round goes one level up.  Before its step [i] the ranges below [i]
    are merged and the halves of the others still there. *)
Definition round_ok (d i : nat) (st : list subtree_info_t * index_files) : Prop :=
  (2 ^ S d <= length st.1)%nat /\ null_ok st.2 /\ (forall j, (j < i)%nat -> seg_ok st.2 (segs d 0 (length kvs) !!! j) (st.1 !!! j)) /\
  (forall j, (i * 2 <= j < 2 ^ S d)%nat -> seg_ok st.2 (segs (S d) 0 (length kvs) !!! j) (st.1 !!! j)).

(** A middle of level [d] is in no other range. *)
Lemma middle_outside d i j : (2 ^ S d - 1 <= length kvs)%nat -> (i < 2 ^ d)%nat -> (j < 2 ^ d)%nat -> i <> j ->
  let m := middle (segs d 0 (length kvs) !!! i).1 (segs d 0 (length kvs) !!! i).2 in
  ((segs d 0 (length kvs) !!! j).2 <= m)%nat \/ (m < (segs d 0 (length kvs) !!! j).1)%nat.
Proof.
  clear. intros Hd Hi Hj Hne m. assert (2 ^ S d - 1 <= (length kvs) - 0)%nat as Hd' by lia. pose proof (segs_range d 0 (length kvs) i Hd' Hi) as (_ & Hlt & _).
  pose proof (middle_range _ _ Hlt) as (Hm & _). fold m in Hm. destruct (decide (i < j)%nat).
  - right. pose proof (segs_order d 0 (length kvs) i j Hd'). lia.
  - left. pose proof (segs_order d 0 (length kvs) j i Hd'). lia.
Qed.

Lemma half_range d j : (j < 2 ^ S d)%nat -> (2 ^ S (S d) - 1 <= length kvs)%nat ->
  ((segs d 0 (length kvs) !!! (j / 2)%nat).1 <= (segs (S d) 0 (length kvs) !!! j).1)%nat /\ ((segs (S d) 0 (length kvs) !!! j).2 <= (segs d 0 (length kvs) !!! (j / 2)%nat).2)%nat.
Proof.
  clear. intros Hj Hd. rewrite Nat.pow_succ_r' in Hj. assert (j / 2 < 2 ^ d)%nat as Hj2 by (apply Nat.Div0.div_lt_upper_bound; lia).
  destruct (segs_halves_total d (j / 2) Hj2) as [H1 H2]. assert (2 ^ S d - 1 <= (length kvs) - 0)%nat as Hd' by (rewrite Nat.pow_succ_r' in Hd; lia).
  pose proof (segs_range d 0 (length kvs) (j / 2) Hd' Hj2) as (_ & Hlt & _). pose proof (middle_range _ _ Hlt) as (Hm & _).
  pose proof (Nat.div_mod_eq j 2). pose proof (Nat.mod_upper_bound j 2). destruct (decide (j = j / 2 * 2)%nat) as [He|He].
  - rewrite He, H1, <- He. cbn [fst snd]. lia.
  - assert (j = j / 2 * 2 + 1)%nat as He' by lia. rewrite He', H2, <- He'. cbn [fst snd]. lia.
Qed.

Lemma merge_round_step d i st : (2 ^ S (S d) - 1 <= length kvs)%nat -> (i < 2 ^ d)%nat -> round_ok d i st ->
  exists st', (fun i '(subtrees, f) =>
       a ← rd subtrees (Z.of_nat (i * 2));
       b ← rd subtrees (Z.of_nat (i * 2 + 1));
       '(info, f) ← merge_two hash_node kvs a b f;
       subtrees ← wr subtrees (Z.of_nat i) info;
       Ok (subtrees, f)) i st = Ok st' /\ round_ok d (S i) st'.
Proof.
  destruct st as [subtrees f]. intros Hd Hi (Hlen & Hnull & Hdone & Hrest). cbn [fst snd] in *. rewrite Nat.pow_succ_r' in Hlen.
  assert (2 ^ S d - 1 <= (length kvs) - 0)%nat as Hd' by (rewrite Nat.pow_succ_r' in Hd; lia).
  rewrite (rd_lookup subtrees (i * 2) (subtrees !!! (i * 2)%nat)), res_bind_Ok by (apply list_lookup_lookup_total_lt; lia).
  rewrite (rd_lookup subtrees (i * 2 + 1) (subtrees !!! (i * 2 + 1)%nat)), res_bind_Ok by (apply list_lookup_lookup_total_lt; lia).
  destruct (segs_halves_total d i Hi) as [H1 H2]. pose proof (Hrest (i * 2)%nat) as Ha. pose proof (Hrest (i * 2 + 1)%nat) as Hb. rewrite H1 in Ha. rewrite H2 in Hb.
  rewrite Nat.pow_succ_r' in Ha, Hb. pose proof (segs_range d 0 (length kvs) i Hd' Hi) as (_ & Hlt & Hsn).
  pose proof (middle_range _ _ Hlt) as (Hm & _).
  destruct (merge_two_spec f (segs d 0 (length kvs) !!! i).1 (segs d 0 (length kvs) !!! i).2 (subtrees !!! (i * 2)%nat) (subtrees !!! (i * 2 + 1)%nat)) as (info & f' & -> & Hok & Hkeeps);
    [done|done|apply Ha; lia|apply Hb; lia|]. rewrite res_bind_Ok.
  rewrite wr_Ok, res_bind_Ok, Nat2Z.id by lia. eexists. split; [reflexivity|]. unfold round_ok. cbn [fst snd]. rewrite length_insert, Nat.pow_succ_r'.
  split; [done|]. split; [apply (keeps_null 0 1 f); [lia|apply Hkeeps; lia|done]|]. split.
  - intros j Hj. destruct (decide (j = i)) as [->|Hne].
    + rewrite list_lookup_total_insert_eq by lia. by destruct (segs d 0 (length kvs) !!! i).
    + rewrite list_lookup_total_insert_ne by done. apply (seg_ok_frame f); [|apply Hdone; lia]. apply Hkeeps.
      destruct (middle_outside d i j) as [Ho|Ho]; lia.
  - intros j Hj. rewrite list_lookup_total_insert_ne by lia. apply (seg_ok_frame f); [|apply Hrest; rewrite Nat.pow_succ_r'; lia]. apply Hkeeps.
    assert (j < 2 ^ S d)%nat as Hj' by (rewrite Nat.pow_succ_r'; lia). pose proof (half_range d j Hj' Hd) as [Hh1 Hh2].
    assert (j / 2 < 2 ^ d)%nat by (apply Nat.Div0.div_lt_upper_bound; lia). assert (i < j / 2)%nat by (apply Nat.div_le_lower_bound; lia).
    destruct (middle_outside d i (j / 2)) as [Ho|Ho]; lia.
Qed.

Lemma merge_round_level d st : (2 ^ S (S d) - 1 <= length kvs)%nat -> level_ok (S d) st ->
  exists st', merge_round hash_node kvs (2 ^ d) st = Ok st' /\ level_ok d st'.
Proof.
  intros Hd (Hlen & Hnull & Hall). unfold merge_round.
  destruct (for_upM_ind (round_ok d) 0 (2 ^ d) (fun i '(subtrees, f) =>
       a ← rd subtrees (Z.of_nat (i * 2));
       b ← rd subtrees (Z.of_nat (i * 2 + 1));
       '(info, f) ← merge_two hash_node kvs a b f;
       subtrees ← wr subtrees (Z.of_nat i) info;
       Ok (subtrees, f)) st) as (st' & Heq & Hlen' & Hnull' & Hdone & _); [lia| | |].
  - split; [done|]. split; [done|]. split; [intros j Hj; lia|]. intros j Hj. apply Hall. lia.
  - intros i st1 Hi. apply merge_round_step; [done|lia].
  - exists st'. split; [exact Heq|]. split; [rewrite Nat.pow_succ_r' in Hlen'; lia|]. split; [done|]. intros j Hj. by apply Hdone.
Qed.

Lemma merge_rounds_level d st fuel : (2 ^ S d - 1 <= length kvs)%nat -> level_ok d st -> (d < fuel)%nat ->
  exists st', merge_rounds hash_node fuel kvs (2 ^ d) st = Ok st' /\ level_ok 0 st'.
Proof.
  unfold merge_rounds. revert st fuel. induction d as [|d IH]; intros st fuel Hd Hst Hfuel; (destruct fuel as [|fuel]; [lia|]).
  - exists st. done.
  - assert (2 ^ S d / 2 = 2 ^ d)%nat as -> by (rewrite Nat.pow_succ_r', Nat.mul_comm; by apply Nat.div_mul).
    cbn [loop]. assert (0 < 2 ^ d)%nat as Hpos by (apply Nat.neq_0_lt_0, Nat.pow_nonzero; done). rewrite (proj2 (Nat.ltb_lt _ _) Hpos).
    destruct (merge_round_level d st Hd Hst) as (st1 & -> & Hst1). rewrite !res_bind_Ok. apply IH; [rewrite Nat.pow_succ_r' in Hd; lia|done|lia].
Qed.

Lemma build_leaves d f : (2 ^ S d - 1 <= length kvs)%nat -> null_ok f ->
  exists st, for_upM 0 (length (partition_tree_to_file (Z.of_nat (length kvs)) d))
    (fun i '(subtrees, f) =>
       info ← rd (partition_tree_to_file (Z.of_nat (length kvs)) d) (Z.of_nat i);
       '(info, f) ← build_one_compressed_subtree_bottom_up hash_node 1 kvs info f;
       Ok (subtrees ++ [info], f)) ([], f) = Ok st /\ level_ok d st /\ length st.1 = (2 ^ d)%nat.
Proof.
  intros Hd Hnull. assert (2 ^ S d - 1 <= length kvs - 0)%nat as Hd' by lia.
  assert (partition_tree_to_file (Z.of_nat (length kvs)) d = (fun '(l, s) => (Z.of_nat l, Z.of_nat s - 1)) <$> segs d 0 (length kvs)) as -> by (by apply (partition_tree_segs d 0)).
  rewrite length_fmap, segs_length.
  match goal with |- context [for_upM 0 _ ?b _] =>
  destruct (for_upM_ind (fun i st => length st.1 = i /\ null_ok st.2 /\ forall j, (j < i)%nat -> seg_ok st.2 (segs d 0 (length kvs) !!! j) (st.1 !!! j)) 0 (2 ^ d) b ([], f))
    as (st & -> & Hlen & Hn & Hall) end; [lia| | |].
  - split; [done|]. split; [done|]. intros j Hj. lia.
  - intros i [subtrees f1] Hi (Hlen & Hn & Hall). cbn [fst snd] in *.
    pose proof (segs_range d 0 (length kvs) i Hd') as Hr. pose proof (list_lookup_lookup_total_lt (segs d 0 (length kvs)) i) as Hseg. rewrite segs_length in Hseg.
    destruct (segs d 0 (length kvs) !!! i) as [l s] eqn:Hls. cbn [fst snd] in Hr.
    rewrite (rd_lookup _ i (Z.of_nat l, Z.of_nat s - 1)), res_bind_Ok by (rewrite list_lookup_fmap, Hseg by lia; done).
    destruct (build_one_spec f1 l s) as (info & f2 & -> & Hok & Hkeeps); [lia|lia|]. rewrite res_bind_Ok. eexists. split; [reflexivity|]. cbn [fst snd].
    split; [rewrite length_app; cbn; lia|]. split; [apply (keeps_null 0 1 f1); [lia|apply Hkeeps; lia|done]|].
    intros j Hj. destruct (decide (j = i)) as [->|Hne].
    + rewrite Hls, lookup_total_app_r, Hlen, Nat.sub_diag by lia. exact Hok.
    + rewrite lookup_total_app_l by lia. apply (seg_ok_frame f1); [|apply Hall; lia]. apply Hkeeps.
      pose proof (segs_order d 0 (length kvs) j i Hd') as Ho. rewrite Hls in Ho. cbn [fst] in Ho. lia.
  - exists st. split; [done|]. split; [|done]. split; [lia|]. split; [done|]. exact Hall.
Qed.

Lemma build_compressed_spec d f : (2 ^ S d - 1 <= length kvs)%nat -> null_ok f ->
  exists root c ix f', build_compressed_tree_bottom_up hash_node 1 kvs (Z.of_nat (length kvs)) d f = Ok (root, c, f') /\
    rd (index_db f') ix = Ok c /\ null_ok f' /\ crep f' 1 (Z.of_nat (length kvs) + 1) ix root (mid_tree kvs 0 (length kvs)).
Proof.
  intros Hd Hnull. unfold build_compressed_tree_bottom_up.
  destruct (build_leaves d f Hd Hnull) as ([subtrees f1] & -> & Hlev & Hlen). cbn [fst] in Hlen. rewrite res_bind_Ok.
  unfold merge_compressed_trees. rewrite Hlen. destruct (merge_rounds_level d (subtrees, f1) (S (2 ^ d))) as ([subtrees' f2] & -> & Hl2 & Hn2 & Hall); [done|done| |].
  { pose proof (Nat.pow_gt_lin_r 2 d). lia. }
  rewrite res_bind_Ok. cbn [fst snd] in *. cbn in Hl2.
  change (rd subtrees' 0) with (rd subtrees' (Z.of_nat 0)). rewrite (rd_lookup subtrees' 0 (subtrees' !!! 0%nat)), res_bind_Ok by (apply list_lookup_lookup_total_lt; lia).
  destruct (Hall O) as (_ & _ & _ & Hrep); [cbn; lia|]. cbn [segs fst snd] in Hrep. change (([(0, length kvs)] : list (nat * nat)) !!! 0)%nat with (0, length kvs)%nat in Hrep. cbn [fst snd] in Hrep.
  assert (exists c, rd (index_db f2) (st_root_index (subtrees' !!! 0%nat)) = Ok c) as [c Hc].
  { rewrite mid_tree_Bin in Hrep by (rewrite Nat.pow_succ_r' in Hd; assert (1 <= 2 ^ d)%nat by (apply Nat.le_succ_l, Nat.neq_0_lt_0, Nat.pow_nonzero; done); lia).
    destruct Hrep as (_ & kv & li & ri & lh & rh & _ & _ & _ & _ & Hc & _). by eexists. }
  rewrite Hc, res_bind_Ok. exists (st_root (subtrees' !!! 0%nat)), c, (st_root_index (subtrees' !!! 0%nat)), f2. done.
Qed.

End Whole.

End Represented.

(** ** The builder without compression *)

Section Plain.
Context (hash_node : tree_node_t -> hash_t).

(** A record and the entry it compresses. *)
Definition compresses (c : compressed_tree_node_t) (hn : hash_t * tree_node_t) : Prop :=
  hn.1 = hash_node hn.2 /\ c_key c = n_key hn.2 /\ c_num_values c = n_num_values hn.2 /\ length (c_values c) = length (n_values hn.2) /\
  c_height c = n_height hn.2 /\ c_height_left c = n_height_left hn.2 /\ c_height_right c = n_height_right hn.2.

(** The results of the two builders from the same arguments. *)
Definition same_subtree (buf : list (hash_t * tree_node_t)) (cb : list compressed_tree_node_t) (hb : list hash_t) (io : Z)
  (r : res (hash_t * Z * list (hash_t * tree_node_t))) (c : res (hash_t * Z * buffers)) : Prop :=
  match r, c with
  | Ok (h, height, buf'), Ok (h', height', (cb', hb', io')) =>
      h' = h /\ height' = height /\ exists nodes cs,
        buf' = buf ++ nodes /\ cb' = cb ++ cs /\ hb' = hb ++ nodes.*1 /\ io' = io + Z.of_nat (length nodes) /\ Forall2 compresses cs nodes
  | Fault, Fault | NoFuel, NoFuel => True
  | _, _ => False
  end.

(** The two builders agree: the same root and height or the same error, the
    same hashes in the same order, and records that compress the nodes. *)
Theorem build_subtree_agrees fuel kv_pairs left right buf cb hb io :
  same_subtree buf cb hb io (build_subtree hash_node fuel kv_pairs left right buf)
    (build_compressed_subtree hash_node fuel kv_pairs left right (cb, hb, io)).
Proof.
  revert left right buf cb hb io. induction fuel as [|fuel IH]; intros left right buf cb hb io; [done|]. cbn [build_subtree build_compressed_subtree].
  destruct (right <? left).
  { split; [done|]. split; [done|]. exists [], []. by rewrite !app_nil_r, Z.add_0_r. }
  set (mid := left + Z.quot (right - left) 2). specialize (IH left (mid - 1) buf cb hb io) as Hl.
  destruct (build_subtree _ _ _ left _ _) as [[[lh hl] buf1]| |], (build_compressed_subtree _ _ _ left _ _) as [[[lh' hl'] [[cb1 hb1] io1]]| |]; try done.
  destruct Hl as (-> & -> & n1 & cs1 & -> & -> & -> & -> & H1). rewrite !res_bind_Ok. cbn [snd].
  specialize (IH (mid + 1) right (buf ++ n1) (cb ++ cs1) (hb ++ n1.*1) (io + Z.of_nat (length n1))) as Hr.
  destruct (build_subtree _ _ _ (mid + 1) _ _) as [[[rh hr] buf2]| |], (build_compressed_subtree _ _ _ (mid + 1) _ _) as [[[rh' hr'] [[cb2 hb2] io2]]| |]; try done.
  destruct Hr as (-> & -> & n2 & cs2 & -> & -> & -> & -> & H2). rewrite !res_bind_Ok.
  destruct (rd kv_pairs mid) as [kv| |]; [|done..]. rewrite !res_bind_Ok. split; [done|]. split; [done|].
  eexists (n1 ++ n2 ++ [_]), (cs1 ++ cs2 ++ [_]). rewrite !fmap_app, !app_assoc. split; [reflexivity|]. split; [reflexivity|]. split; [reflexivity|].
  split; [rewrite !length_app; cbn; lia|]. apply Forall2_app; [by apply Forall2_app|]. constructor; [|done]. done.
Qed.

Lemma build_subtree_length fuel kv_pairs (l s : nat) buf : (s - l < fuel)%nat -> (s <= length kv_pairs)%nat ->
  exists h height nodes, build_subtree hash_node fuel kv_pairs (Z.of_nat l) (Z.of_nat s - 1) buf = Ok (h, height, buf ++ nodes) /\ length nodes = (s - l)%nat.
Proof.
  revert l s buf. induction fuel as [|fuel IH]; intros l s buf Hf Hs; [lia|]. cbn [build_subtree].
  destruct (Z.ltb_spec (Z.of_nat s - 1) (Z.of_nat l)).
  { exists NULL_HASH, 0, []. rewrite app_nil_r. split; [done|cbn; lia]. }
  pose proof (middle_range l s). rewrite middle_Z by lia. replace (Z.of_nat (middle l s) + 1) with (Z.of_nat (S (middle l s))) by lia.
  destruct (IH l (middle l s) buf) as (lh & hl & n1 & -> & H1); [lia..|]. rewrite res_bind_Ok.
  destruct (IH (S (middle l s)) s (buf ++ n1)) as (rh & hr & n2 & -> & H2); [lia..|]. rewrite res_bind_Ok.
  rewrite (rd_lookup _ _ (kv_pairs !!! middle l s)), res_bind_Ok by (apply list_lookup_lookup_total_lt; lia).
  eexists _, _, (n1 ++ n2 ++ [_]). rewrite !app_assoc. split; [reflexivity|]. rewrite !length_app. cbn. lia.
Qed.

(** Building a subtree without compression ends and leaves all files as they
    were: neither its nodes nor its root are written. *)
Theorem build_one_subtree_not_written kv_pairs f i info (l s : nat) :
  infos f !! i = Some info -> st_left info = Z.of_nat l -> st_right info = Z.of_nat s - 1 -> (l <= s <= length kv_pairs)%nat ->
  build_one_subtree_bottom_up hash_node i kv_pairs f = Ok f.
Proof.
  intros Hi Hl Hr Hs. unfold build_one_subtree_bottom_up. rewrite (rd_lookup _ _ _ Hi), res_bind_Ok, Hl, Hr, Nat2Z.id.
  replace (Z.of_nat s - 1 - Z.of_nat l + 1) with (Z.of_nat (s - l)) by lia. rewrite Nat2Z.id.
  assert (length (take (s - l) (drop l kv_pairs)) = (s - l)%nat) as Hlen by (rewrite length_take, length_drop; lia). rewrite Hlen, Z.eqb_refl.
  destruct (build_subtree_length (S (s - l)) (take (s - l) (drop l kv_pairs)) 0 (s - l) []) as (h & height & nodes & Heq & Hn); [lia|lia|].
  change (Z.of_nat 0) with 0 in Heq. rewrite Heq, res_bind_Ok. cbn [app]. by rewrite Hn, Nat.sub_0_r, Z.eqb_refl.
Qed.

End Plain.

Lemma build_one_subtree_not_written_witness :
  let kv k := {| kv_key := k; kv_value := NULL_HASH; kv_offset := k |} in
  let f := {| infos := [{| st_left := 0; st_right := 1; st_height := 0; st_root := NULL_HASH; st_root_index := 0 |}]; subtree_files := [] |} in
  build_one_subtree_bottom_up (fun n => [n_key n + 1]) 0 [kv 0; kv 1; kv 2] f = Ok f.
Proof.
  intros kv f. apply (build_one_subtree_not_written (fun n => [n_key n + 1]) [kv 0; kv 1; kv 2] f 0 {| st_left := 0; st_right := 1; st_height := 0; st_root := NULL_HASH; st_root_index := 0 |} 0 2);
    [reflexivity|reflexivity|reflexivity|cbn; lia].
Defined.
