(* ===== verification/DbStore.v ===== *)
(** The block store over a compressed database,
    [pepper/storage/db_block_store.cpp]: tree nodes are read from
    [index.db] and [hash.db], rows from [rows.db], and two caches remember
    under which offset the block with a hash is found.

    A value is told by its size apart from others, so a block is a sum.  A
    read behind the end of a file and a hash that should be cached and is not
    make the program exit, which is a [Fault].  The hashes of rows and nodes
    are parameters; everything else is kept in the LevelDB store, a map. *)
From Stdlib Require Import ZArith Lia Sorting.Sorted.
From stdpp Require Import base numbers list gmap.
From S2P Require Import Prelude BlockStore TreeCore TreeFacts TreeMap TreeSearch AvlTree AvlSpec AvlFacts DbBuild.

Local Open Scope Z_scope.

Section DbStore.
Context {row : Type} (hash_node : tree_node_t -> hash_t) (hash_row : row -> hash_t).

(** ** The code *)

Inductive block : Type :=
| BRow (r : row)
| BNode (n : tree_node_t)
| BCompressed (c : compressed_tree_node_t)
| BOther (bits : list bool).

Record db_store := {
  row_file : list row;
  index_file : list compressed_tree_node_t;
  hash_index_file : list hash_t;
  row_hash_cache : gmap hash_t Z;
  index_hash_cache : gmap hash_t Z;
  level_store : gmap hash_t block
}.

Definition set_caches (rows index : gmap hash_t Z) (s : db_store) : db_store :=
  {| row_file := row_file s; index_file := index_file s; hash_index_file := hash_index_file s;
     row_hash_cache := rows; index_hash_cache := index; level_store := level_store s |}.

(** [std::map::insert] keeps the value of a key that is there. *)
Definition cache_insert (h : hash_t) (o : Z) (m : gmap hash_t Z) : gmap hash_t Z :=
  match m !! h with Some _ => m | None => <[h := o]> m end.

Definition decompressTreeNode (f_tree_node : tree_node_t) (c : compressed_tree_node_t) (s : db_store) : res (tree_node_t * db_store) :=
  '(values, rows) ← for_upM 0 (Z.to_nat (c_num_values c))
    (fun i '(values, rows) =>
       o ← rd (c_values c) (Z.of_nat i);
       r ← rd (row_file s) o;
       values ← wr values (Z.of_nat i) (hash_row r);
       Ok (values, cache_insert (hash_row r) o rows)) (n_values f_tree_node, row_hash_cache s);
  lh ← rd (hash_index_file s) (c_left c);
  let index := cache_insert lh (c_left c) (index_hash_cache s) in
  rh ← rd (hash_index_file s) (c_right c);
  let index := cache_insert rh (c_right c) index in
  Ok ({| n_left := lh; n_right := rh; n_key := c_key c; n_num_values := c_num_values c; n_values := values;
         n_height := c_height c; n_height_left := c_height_left c; n_height_right := c_height_right c |},
      set_caches rows index s).

(** [get]: the row cache, then the index cache, then the store, where the
    roots of the trees are kept compressed.  [f_tree_node] is what the
    uninitialised local holds. *)
Definition db_get (f_tree_node : tree_node_t) (key : hash_t) (s : db_store) : res (option block * db_store) :=
  match row_hash_cache s !! key with
  | Some offset => r ← rd (row_file s) offset; Ok (Some (BRow r), s)
  | None =>
      match index_hash_cache s !! key with
      | Some offset =>
          c ← rd (index_file s) offset;
          '(n, s) ← decompressTreeNode f_tree_node c s;
          Ok (Some (BNode n), s)
      | None =>
          match level_store s !! key with
          | Some (BCompressed c) => '(n, s) ← decompressTreeNode f_tree_node c s; Ok (Some (BNode n), s)
          | o => Ok (o, s)
          end
      end
  end.

Definition compress_child (h : hash_t) (s : db_store) : res Z :=
  if hasheq h NULL_HASH then Ok 0 else match index_hash_cache s !! h with Some o => Ok o | None => Fault end.

Definition compressTreeNode (c_values0 : list Z) (n : tree_node_t) (s : db_store) : res compressed_tree_node_t :=
  values ← for_upM 0 (Z.to_nat (n_num_values n))
    (fun i values =>
       v ← rd (n_values n) (Z.of_nat i);
       match row_hash_cache s !! v with Some o => wr values (Z.of_nat i) o | None => Fault end) c_values0;
  left ← compress_child (n_left n) s;
  right ← compress_child (n_right n) s;
  Ok {| c_left := left; c_right := right; c_key := n_key n; c_num_values := n_num_values n; c_values := values;
        c_height := n_height n; c_height_left := n_height_left n; c_height_right := n_height_right n |}.

Definition db_put (c_values0 : list Z) (key : hash_t) (value : block) (s : db_store) : res db_store :=
  match value with
  | BRow r =>
      Ok {| row_file := row_file s ++ [r]; index_file := index_file s; hash_index_file := hash_index_file s;
            row_hash_cache := cache_insert key (u32 (Z.of_nat (length (row_file s)))) (row_hash_cache s);
            index_hash_cache := index_hash_cache s; level_store := level_store s |}
  | BNode n =>
      c ← compressTreeNode c_values0 n s;
      Ok {| row_file := row_file s; index_file := index_file s ++ [c]; hash_index_file := hash_index_file s ++ [key];
            row_hash_cache := row_hash_cache s;
            index_hash_cache := cache_insert key (u32 (Z.of_nat (length (index_file s)))) (index_hash_cache s); level_store := level_store s |}
  | _ =>
      Ok {| row_file := row_file s; index_file := index_file s; hash_index_file := hash_index_file s;
            row_hash_cache := row_hash_cache s; index_hash_cache := index_hash_cache s; level_store := <[key := value]> (level_store s) |}
  end.

Definition db_free (key : hash_t) (s : db_store) : db_store :=
  {| row_file := row_file s; index_file := index_file s; hash_index_file := hash_index_file s;
     row_hash_cache := row_hash_cache s; index_hash_cache := index_hash_cache s; level_store := delete key (level_store s) |}.

(** [tree_find_eq] of [pepper/include/avl_tree.cpp], its [hashget] answered
    by this store. *)
Definition db_find_step (f_tree_node : tree_node_t) (k : Z) (st : bool * hash_t * tree_result_set_t hash_t * db_store)
  : res (bool * hash_t * tree_result_set_t hash_t * db_store) :=
  let '(found, node_hash, rs, s) := st in
  if negb found && negb (hasheq node_hash NULL_HASH) then
    '(o, s) ← db_get f_tree_node node_hash s;
    match o with
    | Some (BNode node) =>
        if k =? n_key node then Ok (true, node_hash, _copy_results avl_config rs node, s)
        else if k <? n_key node then Ok (found, n_left node, rs, s)
        else Ok (found, n_right node, rs, s)
    | _ => Fault
    end
  else Ok st.

Definition db_tree_find_eq (f_tree_node : tree_node_t) (root : hash_t) (k : Z) (rs : tree_result_set_t hash_t) (s : db_store)
  : res (tree_result_set_t hash_t * db_store) :=
  '(_, _, rs, s) ← for_upM 0 (MAX_TREE_DEPTH avl_config) (fun _ => db_find_step f_tree_node k)
    (false, root, {| num_results := 0; results := results rs |}, s);
  Ok (rs, s).

(** ** What is stored

    A compressed node stands for a node: the row at its offset has the hash
    that is its value. *)
Definition expands (s : db_store) (c : compressed_tree_node_t) (n : tree_node_t) : Prop :=
  n_key n = c_key c /\ n_num_values n = c_num_values c /\ n_height n = c_height c /\ n_height_left n = c_height_left c /\
  n_height_right n = c_height_right c /\ c_num_values c = 1 /\
  exists o r, c_values c = [o] /\ rd (row_file s) o = Ok r /\ n_values n = [hash_row r].

Inductive stored (s : db_store) : Z -> hash_t -> Prop :=
| stored_null : rd (hash_index_file s) 0 = Ok NULL_HASH -> stored s 0 NULL_HASH
| stored_node o c n :
    rd (index_file s) o = Ok c -> rd (hash_index_file s) o = Ok (hash_node n) -> expands s c n ->
    stored s (c_left c) (n_left n) -> stored s (c_right c) (n_right n) -> stored s o (hash_node n).

(** The caches and the roots in the store are right. *)
Record db_inv (s : db_store) : Prop := {
  inv_length : length (index_file s) = length (hash_index_file s);
  inv_null : rd (hash_index_file s) 0 = Ok NULL_HASH;
  inv_index : forall h o, index_hash_cache s !! h = Some o -> stored s o h;
  inv_rows : forall h o, row_hash_cache s !! h = Some o -> exists r, rd (row_file s) o = Ok r /\ h = hash_row r;
  inv_store : forall h c, level_store s !! h = Some (BCompressed c) ->
    exists n, h = hash_node n /\ expands s c n /\ stored s (c_left c) (n_left n) /\ stored s (c_right c) (n_right n)
}.

(** The nodes and the rows that [get] can find. *)
Definition known_node (s : db_store) (h : hash_t) : Prop :=
  is_Some (index_hash_cache s !! h) \/ exists c, level_store s !! h = Some (BCompressed c).
Definition known_row (s : db_store) (h : hash_t) : Prop := is_Some (row_hash_cache s !! h).

Definition same_files (s s' : db_store) : Prop :=
  row_file s' = row_file s /\ index_file s' = index_file s /\ hash_index_file s' = hash_index_file s /\ level_store s' = level_store s.

(** ** Reading *)

Lemma same_files_refl s : same_files s s.
Proof. done. Qed.

Lemma same_files_trans s1 s2 s3 : same_files s1 s2 -> same_files s2 s3 -> same_files s1 s3.
Proof. unfold same_files. intros (-> & -> & -> & ->) (-> & -> & -> & ->). done. Qed.

Lemma expands_same s s' c n : same_files s s' -> expands s c n -> expands s' c n.
Proof. intros (Hr & _) (? & ? & ? & ? & ? & ? & o & r & ?). unfold expands. rewrite Hr. eauto 12. Qed.

Lemma stored_same s s' o h : same_files s s' -> stored s o h -> stored s' o h.
Proof.
  intros Hf Hs. pose proof Hf as (Hr & Hi & Hh & _). induction Hs as [Hn|o c n Hc Hhs He Hl IHl Hr' IHr].
  - apply stored_null. by rewrite Hh.
  - apply (stored_node s' o c n); rewrite ?Hi, ?Hh; try done. by apply (expands_same s).
Qed.

Lemma stored_hash s o h : stored s o h -> rd (hash_index_file s) o = Ok h.
Proof. by destruct 1. Qed.

Lemma cache_insert_lookup h o m h' o' : cache_insert h o m !! h' = Some o' -> (h' = h /\ o' = o) \/ m !! h' = Some o'.
Proof.
  unfold cache_insert. destruct (m !! h) eqn:Hm; [by right|]. intros [[-> ->]|[_ ?]]%lookup_insert_Some; auto.
Qed.

Lemma cache_insert_there h o m : is_Some (cache_insert h o m !! h).
Proof. unfold cache_insert. destruct (m !! h) eqn:Hm; [by rewrite Hm|]. by rewrite lookup_insert_eq. Qed.

Lemma cache_insert_old h o m h' : is_Some (m !! h') -> is_Some (cache_insert h o m !! h').
Proof. unfold cache_insert. intros Hh'. destruct (m !! h) eqn:Hm; [done|]. rewrite lookup_insert. by case_decide. Qed.

(** What a read leaves behind: the same files, and nothing forgotten. *)
Definition grows (s s' : db_store) : Prop :=
  same_files s s' /\ (forall h, known_node s h -> known_node s' h) /\ (forall h, known_row s h -> known_row s' h).

Lemma grows_refl s : grows s s.
Proof. done. Qed.

Lemma grows_trans s1 s2 s3 : grows s1 s2 -> grows s2 s3 -> grows s1 s3.
Proof. intros (Hf & Hn & Hr) (Hf' & Hn' & Hr'). split; [by eapply same_files_trans|]. auto. Qed.

Lemma decompress_spec f_tree_node c n s : length (n_values f_tree_node) = 1%nat -> db_inv s -> expands s c n ->
  stored s (c_left c) (n_left n) -> stored s (c_right c) (n_right n) ->
  exists s', decompressTreeNode f_tree_node c s = Ok (n, s') /\ db_inv s' /\ grows s s' /\
    known_node s' (n_left n) /\ known_node s' (n_right n) /\ Forall (known_row s') (n_values n).
Proof.
  intros Hlen Hinv (Hk & Hnum & Hh & Hhl & Hhr & Hone & o & r & Hcv & Hrow & Hvs) Hl Hr. unfold decompressTreeNode.
  rewrite Hone. change (Z.to_nat 1) with 1%nat. rewrite for_upM_step by lia. rewrite Hcv. cbn [rd]. change (rd [o] (Z.of_nat 0)) with (Ok o). rewrite res_bind_Ok, Hrow, res_bind_Ok.
  rewrite wr_Ok, !res_bind_Ok by lia. rewrite for_upM_done by lia. rewrite res_bind_Ok.
  rewrite (stored_hash _ _ _ Hl), res_bind_Ok, (stored_hash _ _ _ Hr), res_bind_Ok.
  assert (<[Z.to_nat (Z.of_nat 0) := hash_row r]> (n_values f_tree_node) = n_values n) as ->.
  { rewrite Hvs. destruct (n_values f_tree_node) as [|x [|y l]]; done. }
  eexists. split; [f_equal; f_equal; destruct n; cbn in *; congruence|].
  set (s' := set_caches _ _ _). assert (same_files s s') as Hf by done. split; [|split; [|split; [|split]]].
  - split; cbn.
    + apply (inv_length s Hinv).
    + apply (inv_null s Hinv).
    + intros h o' Ho'. apply (stored_same s); [done|]. apply cache_insert_lookup in Ho' as [[-> ->]|Ho']; [done|].
      apply cache_insert_lookup in Ho' as [[-> ->]|Ho']; [done|]. by apply (inv_index s Hinv).
    + intros h o' Ho'. apply cache_insert_lookup in Ho' as [[-> ->]|Ho']; [by eexists|]. by apply (inv_rows s Hinv).
    + intros h c' Hc'. destruct (inv_store s Hinv h c' Hc') as (n' & ? & He & Hl' & Hr'). exists n'.
      split; [done|]. split; [by apply (expands_same s)|]. split; by apply (stored_same s).
  - split; [done|]. split.
    + intros h [Hi|Hc]; [left; cbn; by do 2 apply cache_insert_old|by right].
    + intros h Hi. unfold known_row. cbn. by apply cache_insert_old.
  - left. cbn. apply cache_insert_old, cache_insert_there.
  - left. cbn. apply cache_insert_there.
  - rewrite Hvs. constructor; [|done]. unfold known_row. cbn. apply cache_insert_there.
Qed.

Section Hashes.
Context (hash_node_nonnull : forall n, hasheq (hash_node n) NULL_HASH = false).
Context (hash_disjoint : forall n r, hash_node n <> hash_row r).

Lemma hash_node_not_null n : hash_node n <> NULL_HASH.
Proof. intros Heq. pose proof (hash_node_nonnull n) as Hn. rewrite Heq, hasheq_refl in Hn. done. Qed.

(** A known node is read: the block that is returned has the hash that was
    asked for, and its children and its row are known from then on. *)
Lemma db_get_node f_tree_node s n0 : length (n_values f_tree_node) = 1%nat -> db_inv s -> known_node s (hash_node n0) ->
  exists n s', db_get f_tree_node (hash_node n0) s = Ok (Some (BNode n), s') /\ hash_node n = hash_node n0 /\ db_inv s' /\ grows s s' /\
    known_node s' (n_left n) /\ known_node s' (n_right n) /\ Forall (known_row s') (n_values n).
Proof.
  intros Hlen Hinv Hknown. unfold db_get. destruct (row_hash_cache s !! hash_node n0) as [o|] eqn:Hrow.
  { destruct (inv_rows s Hinv _ _ Hrow) as (r & _ & Heq). by apply hash_disjoint in Heq. }
  destruct (index_hash_cache s !! hash_node n0) as [o|] eqn:Hidx.
  - apply (inv_index s Hinv) in Hidx as Hst. inversion Hst as [Hn Ho Heq|o' c n Hc Hh He Hl Hr Ho Heq].
    + symmetry in Heq. by apply hash_node_not_null in Heq.
    + subst. rewrite Hc, res_bind_Ok. destruct (decompress_spec f_tree_node c n s) as (s' & -> & Hrest); [done..|].
      rewrite res_bind_Ok. exists n, s'. done.
  - destruct Hknown as [[o Ho]|[c Hc]]; [congruence|]. rewrite Hc. destruct (inv_store s Hinv _ _ Hc) as (n & Heq & He & Hl & Hr).
    destruct (decompress_spec f_tree_node c n s) as (s' & -> & Hrest); [done..|]. rewrite res_bind_Ok. exists n, s'. done.
Qed.

Lemma db_get_row f_tree_node s h : db_inv s -> known_row s h ->
  exists r, db_get f_tree_node h s = Ok (Some (BRow r), s) /\ h = hash_row r /\ exists o, rd (row_file s) o = Ok r.
Proof.
  intros Hinv [o Ho]. unfold db_get. rewrite Ho. destruct (inv_rows s Hinv _ _ Ho) as (r & Hr & ->). rewrite Hr, res_bind_Ok. eauto.
Qed.

(** ** Searching a tree that was built *)

Context (hash_node_inj : forall n n', hash_node n = hash_node n' -> n = n').

Definition files_of (s : db_store) : index_files := {| index_db := index_file s; hash_db := hash_index_file s |}.

(** The rows of the pairs are in the row file. *)
Definition row_at (s : db_store) (kv : key_value_pair_t) : Prop := exists r, rd (row_file s) (kv_offset kv) = Ok r /\ hash_row r = kv_value kv.

Lemma crep_stored s lo hi ix h t : rd (hash_index_file s) 0 = Ok NULL_HASH ->
  crep hash_node (files_of s) lo hi ix h t -> Forall (fun ke => Forall (row_at s) ke.2) (elements t) -> stored s ix h.
Proof.
  intros Hnull. revert ix h. induction t as [|l IHl k e r IHr]; intros ix h; cbn [crep elements].
  - intros [-> ->] _. by apply stored_null.
  - intros (_ & kv & li & ri & lh & rh & -> & -> & Hli & Hri & Hc & Hh & -> & Hl & Hr) Hrows.
    apply Forall_app in Hrows as [Hrl Hrr]. apply Forall_cons in Hrr as [Hkv Hrr]. cbn in Hkv. apply Forall_cons in Hkv as [(rw & Hrw & Hhash) _].
    eapply stored_node; [exact Hc|exact Hh| | |]; cbn.
    + unfold expands. cbn. repeat (split; [done|]). exists (kv_offset kv), rw. rewrite Hhash. done.
    + rewrite u32_small by apply Hli. by apply IHl.
    + rewrite u32_small by apply Hri. by apply IHr.
Qed.

Lemma db_find_step_stuck f_tree_node k found h rs s : found = true \/ h = NULL_HASH ->
  db_find_step f_tree_node k (found, h, rs, s) = Ok (found, h, rs, s).
Proof. unfold db_find_step. intros [->| ->]; [done|]. by rewrite hasheq_refl, andb_false_r. Qed.

Lemma db_find_step_node f_tree_node k n0 rs s n s1 : db_get f_tree_node (hash_node n0) s = Ok (Some (BNode n), s1) ->
  db_find_step f_tree_node k (false, hash_node n0, rs, s) =
  Ok (if k =? n_key n then (true, hash_node n0, _copy_results avl_config rs n, s1)
      else if k <? n_key n then (false, n_left n, rs, s1) else (false, n_right n, rs, s1)).
Proof.
  intros Hget. unfold db_find_step. rewrite hash_node_nonnull. cbn [negb andb]. rewrite Hget, res_bind_Ok.
  by destruct (k =? n_key n); [|destruct (k <? n_key n)].
Qed.

Lemma db_find_loop f_tree_node f lo hi k t : length (n_values f_tree_node) = 1%nat ->
  forall i ix h rs s, db_inv s -> crep hash_node f lo hi ix h t -> known_node s h -> (i + height t <= MAX_TREE_DEPTH avl_config)%nat -> rs_is avl_config rs [] ->
  exists found h' rs' s',
    for_upM i (MAX_TREE_DEPTH avl_config) (fun _ => db_find_step f_tree_node k) (false, h, rs, s) = Ok (found, h', rs', s') /\
    rs_is avl_config rs' ((fun kv => (k, kv_value kv)) <$> default [] (lookup_key k t)) /\ db_inv s' /\ grows s s' /\
    Forall (fun kv => known_row s' (kv_value kv)) (default [] (lookup_key k t)).
Proof.
  intros Hlen. induction t as [|l IHl k' e r IHr]; intros i ix h rs s Hinv Hrep Hknown Hd Hrs; cbn [crep] in Hrep.
  - destruct Hrep as [_ ->]. exists false, NULL_HASH, rs, s. rewrite for_upM_const by (intros j _; apply db_find_step_stuck; by right).
    split; [done|]. split; [done|]. split; [done|]. split; [apply grows_refl|constructor].
  - destruct Hrep as (_ & kv & li & ri & lh & rh & -> & -> & _ & _ & _ & _ & -> & Hl & Hr). cbn [height] in Hd.
    rewrite for_upM_step by lia.
    destruct (db_get_node f_tree_node s _ Hlen Hinv Hknown) as (n & s1 & Hget & Heq & Hinv1 & Hg1 & Hkl & Hkr & Hrows).
    apply hash_node_inj in Heq as ->. rewrite (db_find_step_node _ _ _ _ _ _ _ Hget), res_bind_Ok. cbn [full_node n_key n_left n_right n_values lookup_key] in *.
    destruct (Z.eqb_spec k (kv_key kv)) as [->|Hne].
    + do 4 eexists. rewrite for_upM_const by (intros j _; apply db_find_step_stuck; by left). split; [done|]. cbn [default fmap list_fmap].
      split; [|split; [done|split; [done|]]].
      * pose proof (_copy_results_spec avl_config avl_config_ok rs (full_node kv lh rh (Z.of_nat (height l)) (Z.of_nat (height r))) []) as Hspec.
        apply Hspec; [split; cbn; lia|done].
      * by apply Forall_cons in Hrows as [? _]; constructor.
    + destruct (Z.ltb_spec k (kv_key kv)).
      * destruct (IHl (S i) li lh rs s1) as (found & h' & rs' & s2 & -> & Hrs' & Hinv2 & Hg2 & Hk2); [done|done|done|lia|done|].
        do 4 eexists. split; [done|]. split; [done|]. split; [done|]. split; [by eapply grows_trans|done].
      * destruct (IHr (S i) ri rh rs s1) as (found & h' & rs' & s2 & -> & Hrs' & Hinv2 & Hg2 & Hk2); [done|done|done|lia|done|].
        do 4 eexists. split; [done|]. split; [done|]. split; [done|]. split; [by eapply grows_trans|done].
Qed.

(** The search returns the values under the key, and their rows can be read
    after it. *)
Lemma db_tree_find_eq_spec f_tree_node f lo hi ix root k t rs s : length (n_values f_tree_node) = 1%nat ->
  db_inv s -> crep hash_node f lo hi ix root t -> known_node s root -> (height t <= MAX_TREE_DEPTH avl_config)%nat -> length (results rs) = MAX_TREE_RESULTS avl_config ->
  exists rs' s', db_tree_find_eq f_tree_node root k rs s = Ok (rs', s') /\
    rs_is avl_config rs' ((fun kv => (k, kv_value kv)) <$> default [] (lookup_key k t)) /\ db_inv s' /\ grows s s' /\
    Forall (fun kv => known_row s' (kv_value kv)) (default [] (lookup_key k t)).
Proof.
  intros Hlen Hinv Hrep Hknown Hd Hrs. unfold db_tree_find_eq.
  destruct (db_find_loop f_tree_node f lo hi k t Hlen 0 ix root {| num_results := 0; results := results rs |} s)
    as (found & h' & rs' & s' & -> & Hrest); [done|done|done|lia|by apply rs_is_reset|]. rewrite res_bind_Ok. eauto.
Qed.

(** ** Writing *)

(** The state after a block was appended to the files. *)
Definition appends (s s' : db_store) : Prop :=
  (forall o r, rd (row_file s) o = Ok r -> rd (row_file s') o = Ok r) /\
  (forall o c, rd (index_file s) o = Ok c -> rd (index_file s') o = Ok c) /\
  (forall o h, rd (hash_index_file s) o = Ok h -> rd (hash_index_file s') o = Ok h).

Lemma expands_appends s s' c n : appends s s' -> expands s c n -> expands s' c n.
Proof. intros (Hr & _) (? & ? & ? & ? & ? & ? & o & r & ? & ? & ?). unfold expands. eauto 15. Qed.

Lemma stored_appends s s' o h : appends s s' -> stored s o h -> stored s' o h.
Proof.
  intros Ha Hs. pose proof Ha as (_ & Hi & Hh). induction Hs as [Hn|o c n Hc Hhs He Hl IHl Hr IHr]; [by apply stored_null, Hh|].
  apply (stored_node s' o c n); auto. by apply (expands_appends s).
Qed.

Lemma rd_app {A} (l l' : list A) o x : rd l o = Ok x -> rd (l ++ l') o = Ok x.
Proof. apply rd_app_l. Qed.

Lemma rd_last {A} (l : list A) x : rd (l ++ [x]) (Z.of_nat (length l)) = Ok x.
Proof. apply rd_lookup. rewrite lookup_app_r, Nat.sub_diag by done. done. Qed.

(** A row that was put is got back. *)
Lemma db_put_row c_values0 f_tree_node r s : db_inv s -> Z.of_nat (length (row_file s)) < 2 ^ 32 ->
  exists s', db_put c_values0 (hash_row r) (BRow r) s = Ok s' /\ db_inv s' /\
    exists r', db_get f_tree_node (hash_row r) s' = Ok (Some (BRow r'), s') /\ hash_row r' = hash_row r.
Proof.
  intros Hinv Hbig. eexists. split; [reflexivity|]. set (s' := {| row_file := _ |}).
  assert (appends s s') as Ha by (split; [|done]; intros o r' Hr'; by apply rd_app).
  assert (db_inv s') as Hinv'.
  { split; cbn.
    - apply (inv_length s Hinv).
    - apply (inv_null s Hinv).
    - intros h o Ho. apply (stored_appends s); [done|]. by apply (inv_index s Hinv).
    - intros h o Ho. apply cache_insert_lookup in Ho as [[-> ->]|Ho].
      + rewrite u32_small by lia. exists r. split; [apply rd_last|done].
      + destruct (inv_rows s Hinv h o Ho) as (r' & Hr' & ->). exists r'. split; [by apply rd_app|done].
    - intros h c Hc. destruct (inv_store s Hinv h c Hc) as (n & ? & He & Hl & Hr). exists n. split; [done|]. split; [by apply (expands_appends s)|].
      split; by apply (stored_appends s). }
  split; [done|]. destruct (db_get_row f_tree_node s' (hash_row r) Hinv') as (r' & Hget & Heq & _).
  { unfold known_row, s'. cbn. apply cache_insert_there. }
  exists r'. by split.
Qed.

(** The child of a node to put: none, or one that was put or read before. *)
Definition child_known (s : db_store) (h : hash_t) : Prop := h = NULL_HASH \/ (is_Some (index_hash_cache s !! h) /\ hasheq h NULL_HASH = false).

Lemma compress_child_spec s h : db_inv s -> child_known s h -> exists o, compress_child h s = Ok o /\ stored s o h.
Proof.
  intros Hinv [->|[[o Ho] Hn]]; unfold compress_child.
  - rewrite hasheq_refl. exists 0. split; [done|]. by apply stored_null, (inv_null s Hinv).
  - rewrite Hn, Ho. exists o. split; [done|]. by apply (inv_index s Hinv).
Qed.

(** A tree node whose children and row are known is got back as it was put. *)
Lemma db_put_node c_values0 f_tree_node n v s : db_inv s -> Z.of_nat (length (index_file s)) < 2 ^ 32 ->
  length (n_values f_tree_node) = 1%nat -> length c_values0 = 1%nat ->
  n_num_values n = 1 -> n_values n = [v] -> known_row s v -> child_known s (n_left n) -> child_known s (n_right n) ->
  exists s' s'', db_put c_values0 (hash_node n) (BNode n) s = Ok s' /\ db_inv s' /\ db_get f_tree_node (hash_node n) s' = Ok (Some (BNode n), s'') /\ db_inv s''.
Proof.
  intros Hinv Hbig Hlen Hclen Hone Hvs [ro Hro] Hl Hr. unfold db_put, compressTreeNode. rewrite Hone. change (Z.to_nat 1) with 1%nat.
  rewrite for_upM_step by lia. rewrite Hvs. change (rd [v] (Z.of_nat 0)) with (Ok v). rewrite res_bind_Ok, Hro, wr_Ok by lia.
  rewrite res_bind_Ok, for_upM_done, res_bind_Ok by lia.
  destruct (compress_child_spec s (n_left n) Hinv Hl) as (lo & -> & Hlo). destruct (compress_child_spec s (n_right n) Hinv Hr) as (hi & -> & Hhi).
  rewrite !res_bind_Ok. assert (<[Z.to_nat (Z.of_nat 0) := ro]> c_values0 = [ro]) as -> by (destruct c_values0 as [|x [|y l]]; done).
  set (c := {| c_left := lo |}). set (s' := {| row_file := _ |}).
  assert (appends s s') as Ha by (split; [done|]; split; intros o x Hx; by apply rd_app).
  destruct (inv_rows s Hinv v ro Hro) as (rw & Hrw & Hv).
  assert (stored s' (u32 (Z.of_nat (length (index_file s)))) (hash_node n)) as Hnew.
  { rewrite u32_small by lia. apply (stored_node s' _ c n); cbn.
    - apply rd_last.
    - rewrite (inv_length s Hinv). apply rd_last.
    - unfold expands. cbn. rewrite Hone. repeat (split; [done|]). exists ro, rw. split; [done|]. split; [done|]. by rewrite Hvs, Hv.
    - by apply (stored_appends s).
    - by apply (stored_appends s). }
  assert (db_inv s') as Hinv'.
  { split; cbn.
    - rewrite !length_app, (inv_length s Hinv). done.
    - exact (rd_app _ _ _ _ (inv_null s Hinv)).
    - intros h o Ho. apply cache_insert_lookup in Ho as [[-> ->]|Ho]; [done|]. apply (stored_appends s); [done|]. by apply (inv_index s Hinv).
    - apply (inv_rows s Hinv).
    - intros h c' Hc. destruct (inv_store s Hinv h c' Hc) as (n' & ? & He & Hl' & Hr'). exists n'. split; [done|]. split; [by apply (expands_appends s)|].
      split; by apply (stored_appends s). }
  destruct (db_get_node f_tree_node s' n Hlen Hinv') as (n' & s'' & Hget & Heq & Hinv'' & _).
  { left. unfold s'. cbn. apply cache_insert_there. }
  apply hash_node_inj in Heq as ->. exists s', s''. done.
Qed.

Lemma compress_child_unknown s h : hasheq h NULL_HASH = false -> index_hash_cache s !! h = None -> compress_child h s = Fault.
Proof. intros Hn Hc. unfold compress_child. by rewrite Hn, Hc. Qed.

End Hashes.

(** C26: Blocks put into the store are got back: a row always, a tree node when
    its row and children were put or read before; when a child was not, the
    put stops the program. *)
Theorem db_put_get_correct c_values0 f_tree_node s :
  (forall n, hasheq (hash_node n) NULL_HASH = false) -> (forall n r, hash_node n <> hash_row r) ->
  (forall n n', hash_node n = hash_node n' -> n = n') -> (forall r r', hash_row r = hash_row r' -> r = r') ->
  db_inv s -> Z.of_nat (length (row_file s)) < 2 ^ 32 -> Z.of_nat (length (index_file s)) < 2 ^ 32 ->
  length (n_values f_tree_node) = 1%nat -> length c_values0 = 1%nat ->
  (forall r, exists s', db_put c_values0 (hash_row r) (BRow r) s = Ok s' /\ db_inv s' /\
     db_get f_tree_node (hash_row r) s' = Ok (Some (BRow r), s')) /\
  (forall n v, n_num_values n = 1 -> n_values n = [v] -> known_row s v ->
     (child_known s (n_left n) -> child_known s (n_right n) ->
        exists s' s'', db_put c_values0 (hash_node n) (BNode n) s = Ok s' /\ db_inv s' /\
          db_get f_tree_node (hash_node n) s' = Ok (Some (BNode n), s'') /\ db_inv s'') /\
     (hasheq (n_left n) NULL_HASH = false -> index_hash_cache s !! n_left n = None -> db_put c_values0 (hash_node n) (BNode n) s = Fault)).
Proof.
  intros Hnn Hdis Hinj Hrinj Hinv Hrows Hindex Hlen Hclen. split; [|intros n v Hone Hvs Hv; split].
  - intros r. destruct (db_put_row c_values0 f_tree_node r s Hinv Hrows) as (s' & Hput & Hinv' & r' & Hget & <-%Hrinj). by exists s'.
  - intros Hl Hr. apply (db_put_node Hnn Hdis Hinj c_values0 f_tree_node n v s); done.
  - intros Hl Hc. unfold db_put, compressTreeNode. destruct Hv as [ro Hro]. rewrite Hone. change (Z.to_nat 1) with 1%nat.
    rewrite for_upM_step by lia. rewrite Hvs. change (rd [v] (Z.of_nat 0)) with (Ok v). rewrite res_bind_Ok, Hro, wr_Ok by lia.
    rewrite res_bind_Ok, for_upM_done, res_bind_Ok by lia. rewrite (compress_child_unknown s (n_left n) Hl Hc). reflexivity.
Qed.

End DbStore.
Arguments block : clear implicits.
Arguments db_store : clear implicits.

(** ** An example of hashes without collisions: they spell out what is hashed *)

Definition pack (h : list Z) : list Z := Z.of_nat (length h) :: h.
Definition code_node (n : tree_node_t) : hash_t :=
  [1; n_key n; n_num_values n; n_height n; n_height_left n; n_height_right n] ++ pack (n_left n) ++ pack (n_right n) ++ concat (pack <$> n_values n).
Definition code_row {row} (code : row -> list Z) (r : row) : hash_t := 2 :: code r.

Lemma code_node_nonnull n : hasheq (code_node n) NULL_HASH = false.
Proof. apply not_true_is_false. rewrite hasheq_true. intros Hall. specialize (Hall O ltac:(vm_compute; lia)). vm_compute in Hall. done. Qed.

Lemma pack_app h h' l l' : pack h ++ l = pack h' ++ l' -> h = h' /\ l = l'.
Proof. unfold pack. cbn [app]. intros [= Hlen Heq]. apply app_inj_1 in Heq; [done|lia]. Qed.

Lemma pack_concat_inj vs vs' : concat (pack <$> vs) = concat (pack <$> vs') -> vs = vs'.
Proof.
  revert vs'. induction vs as [|v vs IH]; intros [|v' vs'] Heq; [done..|]. cbn [fmap list_fmap concat] in Heq.
  apply pack_app in Heq as [-> Heq]. f_equal. by apply IH.
Qed.

Lemma code_node_inj n n' : code_node n = code_node n' -> n = n'.
Proof.
  unfold code_node. intros Heq. apply app_inj_1 in Heq as [Hhead Heq]; [|done]. injection Hhead as ? ? ? ? ?. apply pack_app in Heq as [? Heq]. apply pack_app in Heq as [? Heq].
  apply pack_concat_inj in Heq. destruct n, n'. cbn in *. congruence.
Qed.

Lemma code_disjoint {row} (code : row -> list Z) n r : code_node n <> code_row code r.
Proof. done. Qed.

Lemma db_put_get_witness :
  let s := {| row_file := [] : list (list Z); index_file := [c_node_zero]; hash_index_file := [NULL_HASH]; row_hash_cache := ∅; index_hash_cache := ∅; level_store := ∅ |} in
  let r := [5; 7] in
  exists s', db_put [0] (code_row id r) (BRow r) s = Ok s' /\
    db_get (code_row id) (full_node inhabitant NULL_HASH NULL_HASH 0 0) (code_row id r) s' = Ok (Some (BRow r), s').
Proof.
  intros s r.
  destruct (db_put_get_correct code_node (code_row id) [0] (full_node inhabitant NULL_HASH NULL_HASH 0 0) s) as [Hput _].
  - exact code_node_nonnull.
  - exact (code_disjoint id).
  - exact code_node_inj.
  - by intros ? ? [= ->].
  - split; [done|done|intros h o Ho; cbn in Ho; by rewrite lookup_empty in Ho..].
  - done.
  - done.
  - done.
  - done.
  - destruct (Hput r) as (s' & Heq & _ & Hget). by exists s'.
Defined.
