(* ===== verification/DbIndex.v ===== *)
(** Making the database of [pepper/storage/db_util.cpp]: random keys, rows,
    the pairs of each index in chunks, the sorted index, its tree, and the
    store over the result; and what an index finds.

    [rand] gives the results of the calls of [rand()] in their order; the
    count of the calls is part of the state. *)
From Stdlib Require Import ZArith Lia Sorting.Sorted.
From stdpp Require Import base numbers list sorting gmap.
From S2P Require Import Prelude BlockStore TreeCore TreeFacts TreeMap TreeSearch AvlTree AvlSpec AvlFacts Merge ExternalSort DbBuild DbStore.

Local Open Scope Z_scope.

(** [pepper/apps/student_db.h] *)
Record Student_t := {
  KEY : Z; FName : Z; LName : Z; Age : Z; Major : Z; State : Z; PhoneNum : Z; Class_ : Z; Credits : Z; Average : Z; Honored : Z;
  Address : list Z
}.

Section Create.
Context (rand : nat -> Z) (hash_node : tree_node_t -> hash_t) (hash_row : Student_t -> hash_t) (BUFSIZE : nat).

(** ** The code *)

Definition generate_random_permutation (number_of_entries : nat) (keys : list Z) (c : nat) : res (list Z * nat) :=
  keys ← for_upM 0 number_of_entries (fun i keys => wr keys (Z.of_nat i) (Z.of_nat i)) keys;
  for_downM 1 number_of_entries
    (fun i '(keys, c) =>
       let j := Z.rem (rand c) (Z.of_nat i + 1) in
       tmp ← rd keys (Z.of_nat i);
       x ← rd keys j;
       keys ← wr keys (Z.of_nat i) x;
       keys ← wr keys j tmp;
       Ok (keys, S c)) (keys, c).

Definition rand64 (c : nat) : Z := Z.lor (u64 (Z.shiftl (rand c) 32)) (rand (S c)).

(** A row of the table and the number of calls after it. *)
Definition generate_row (key average class_ age : Z) (c : nat) : Student_t * nat :=
  ({| KEY := u32 key; FName := rand64 c; LName := rand64 (c + 2); Major := u32 (10 + Z.rem (rand (c + 4)) 30); State := u32 (Z.rem (rand (c + 5)) 50);
      PhoneNum := u32 (512000000 + rand (c + 6)); Credits := u32 (rand (c + 7)); Honored := 0;
      Address := tabulate 5 (fun i => rand64 (c + 8 + 2 * i)); Average := u32 average; Class_ := u32 class_; Age := u32 age |}, c + 18)%nat.

Definition index_pair (column : Student_t -> Z) (offset : Z) (s : Student_t) : key_value_pair_t :=
  {| kv_key := s32 (column s); kv_value := hash_row s; kv_offset := u32 offset |}.

(** The rows and the three indices of a chunk. *)
Record chunk_data := { rows : list Student_t; average_kv_pairs : list key_value_pair_t; class_kv_pairs : list key_value_pair_t; age_kv_pairs : list key_value_pair_t }.

Definition add_row (offset : Z) (s : Student_t) (d : chunk_data) : chunk_data :=
  {| rows := rows d ++ [s]; average_kv_pairs := average_kv_pairs d ++ [index_pair Average offset s];
     class_kv_pairs := class_kv_pairs d ++ [index_pair Class_ offset s]; age_kv_pairs := age_kv_pairs d ++ [index_pair Age offset s] |}.

Definition generate_one_chunk_of_db_row (averages classes ages : list Z) (offset number_of_entries : nat) (c : nat) : res (chunk_data * nat) :=
  for_upM 0 number_of_entries
    (fun k '(d, c) =>
       average ← rd averages (Z.of_nat (offset + k));
       class_ ← rd classes (Z.of_nat (offset + k));
       age ← rd ages (Z.of_nat (offset + k));
       let '(s, c) := generate_row (Z.of_nat (offset + k)) average class_ age c in
       Ok (add_row (Z.of_nat (offset + k)) s d, c))
    ({| rows := []; average_kv_pairs := []; class_kv_pairs := []; age_kv_pairs := [] |}, c).

(** The file of the rows, and the chunks of the index files by their number. *)
Record db_files := { rows_db : list Student_t; average_parts : gmap nat (list key_value_pair_t); class_parts : gmap nat (list key_value_pair_t); age_parts : gmap nat (list key_value_pair_t) }.

Definition student_zero : Student_t :=
  {| KEY := 0; FName := 0; LName := 0; Age := 0; Major := 0; State := 0; PhoneNum := 0; Class_ := 0; Credits := 0; Average := 0; Honored := 0; Address := replicate 5 0 |}.

Definition dump_chunk (offset chunk_id : nat) (d : chunk_data) (f : db_files) : db_files :=
  {| rows_db := write_at student_zero offset (rows d) (rows_db f); average_parts := <[chunk_id := average_kv_pairs d]> (average_parts f);
     class_parts := <[chunk_id := class_kv_pairs d]> (class_parts f); age_parts := <[chunk_id := age_kv_pairs d]> (age_parts f) |}.

Definition generate_db_rows (averages classes ages : list Z) (number_of_rows entries_per_chunk : nat) (f : db_files) (c : nat) : res (nat * db_files) :=
  loop (S number_of_rows)
    (fun '(i, finished_chunks, f, c) =>
       if (i <? number_of_rows)%nat then
         let actual_entries_per_chunk := if (number_of_rows - i <? entries_per_chunk)%nat then (number_of_rows - i)%nat else entries_per_chunk in
         '(d, c) ← generate_one_chunk_of_db_row averages classes ages i actual_entries_per_chunk c;
         Ok (inl (i + entries_per_chunk, S finished_chunks, dump_chunk i (i / entries_per_chunk) d f, c))%nat
       else Ok (inr (finished_chunks, f))) (O, O, f, c).

(** The comparator reads the key of a pair. *)
Definition kv_comparator (a b : key_value_pair_t) : Z := int_comparator (kv_key a) (kv_key b).

Definition sort_index (number_of_rows finished_chunks : nat) (parts : gmap nat (list key_value_pair_t)) : res (list key_value_pair_t) :=
  f ← external_sort kv_comparator BUFSIZE (S number_of_rows) finished_chunks false {| whole := None; part := parts |};
  Ok (default [] (whole f)).

(** [create_compressed_db] up to its trees: the sorted indices of the
    averages, classes and ages, and the rows.  [keys0] is what the arrays of
    keys hold before they are filled. *)
Definition create_tables (number_of_rows number_of_chunks : nat) (keys0 : list Z)
  : res (list key_value_pair_t * list key_value_pair_t * list key_value_pair_t * list Student_t) :=
  let entries_per_chunk := ((number_of_rows + number_of_chunks - 1) / number_of_chunks)%nat in
  '(averages, c) ← generate_random_permutation number_of_rows keys0 0;
  '(classes, c) ← generate_random_permutation number_of_rows keys0 c;
  '(ages, c) ← generate_random_permutation number_of_rows keys0 c;
  '(finished_chunks, f) ← generate_db_rows averages classes ages number_of_rows entries_per_chunk {| rows_db := []; average_parts := ∅; class_parts := ∅; age_parts := ∅ |} c;
  average_kv_pairs ← sort_index number_of_rows finished_chunks (average_parts f);
  class_kv_pairs ← sort_index number_of_rows finished_chunks (class_parts f);
  age_kv_pairs ← sort_index number_of_rows finished_chunks (age_parts f);
  Ok (average_kv_pairs, class_kv_pairs, age_kv_pairs, rows_db f).

(** The put of the root node of a tree under its hash. *)
Definition write_bootstrap_info_into_leveldb (tree : hash_t * compressed_tree_node_t) (db : gmap hash_t (block Student_t)) : gmap hash_t (block Student_t) :=
  <[tree.1 := BCompressed tree.2]> db.

(** The store opened over the two files, the rows and what was put in the
    database. *)
Definition open_index (f : index_files) (db : gmap hash_t (block Student_t)) (rows : list Student_t) : db_store Student_t :=
  {| row_file := rows; index_file := index_db f; hash_index_file := hash_db f; row_hash_cache := ∅; index_hash_cache := ∅; level_store := db |}.

(** [build_compressed_index_trees] as it is compiled, with [READONLY]: the
    three trees in the two files, then their three roots in the database; the
    handle has the three roots. *)
Definition create_indices (max_depth : nat) (average class_ age : list key_value_pair_t) (rows : list Student_t) : res (list hash_t * db_store Student_t) :=
  '(trees, f) ← build_compressed_index_trees hash_node (Z.of_nat (length rows)) max_depth average class_ age;
  Ok (fst <$> trees, open_index f (foldl (fun db t => write_bootstrap_info_into_leveldb t db) ∅ trees) rows).

(** [build_compressed_index_trees] compiled without [READONLY]: one tree, of
    the index [KEY_index], behind the bootstrap entry. *)
Definition create_index (max_depth : nat) (kvs : list key_value_pair_t) (rows : list Student_t) : res (hash_t * db_store Student_t) :=
  '(root, c, f) ← build_compressed_tree_bottom_up hash_node 1 kvs (Z.of_nat (length kvs)) max_depth
    (dump_index 0 [c_node_zero] [NULL_HASH] {| index_db := []; hash_db := [] |});
  Ok (root, open_index f (write_bootstrap_info_into_leveldb (root, c) ∅) rows).

(** ** The permutations *)

Hypothesis rand_nonneg : forall c, 0 <= rand c.

Definition keys_of (n : nat) : list Z := tabulate n Z.of_nat.

Lemma keys_of_lookup n i : (i < n)%nat -> keys_of n !! i = Some (Z.of_nat i).
Proof. clear. intros Hi. unfold keys_of, tabulate. by rewrite list_lookup_fmap, lookup_seq_lt. Qed.

Lemma permutation_spec n keys c : length keys = n ->
  exists keys' c', generate_random_permutation n keys c = Ok (keys', c') /\ keys' ≡ₚ keys_of n.
Proof.
  intros Hn. unfold generate_random_permutation.
  rewrite (for_upM_fill n _ Z.of_nat) by (done || (intros i l Hi Hl; rewrite wr_Ok, Nat2Z.id by lia; done)). rewrite res_bind_Ok.
  fold (keys_of n). destruct n as [|n]; [by eexists _, _|].
  match goal with |- context [for_downM 1 ?hi ?b ?s] =>
    destruct (for_downM_ind (fun _ '(l, _) => l ≡ₚ keys_of (S n)) 1 hi b s) as ([keys' c'] & -> & Hp); [lia|done| |by eexists _, _] end.
  intros i [l c1] Hi Hp. apply Permutation_length in Hp as Hlen. unfold keys_of in Hlen. rewrite tabulate_length in Hlen.
  set (j := Z.to_nat (Z.rem (rand c1) (Z.of_nat i + 1))).
  assert (Z.rem (rand c1) (Z.of_nat i + 1) = Z.of_nat j /\ (j <= i)%nat) as [-> Hj].
  { pose proof (Z.rem_bound_pos (rand c1) (Z.of_nat i + 1) (rand_nonneg c1) ltac:(lia)). unfold j. lia. }
  rewrite (rd_lookup l i (l !!! i)), res_bind_Ok by (apply list_lookup_lookup_total_lt; lia).
  rewrite (rd_lookup l j (l !!! j)), res_bind_Ok by (apply list_lookup_lookup_total_lt; lia).
  rewrite wr_Ok, res_bind_Ok by lia. rewrite wr_Ok, res_bind_Ok by (rewrite length_insert; lia). rewrite !Nat2Z.id.
  eexists. split; [reflexivity|]. cbn beta iota. etrans; [|exact Hp]. apply Permutation_insert_swap; apply list_lookup_lookup_total_lt; lia.
Qed.

(** ** The rows and the chunks of the indices *)

Section Rows.
Context (averages classes ages : list Z) (n : nat).
Hypothesis averages_length : length averages = n.
Hypothesis classes_length : length classes = n.
Hypothesis ages_length : length ages = n.

Definition pairs_of (column : Student_t -> Z) (offset : nat) (rs : list Student_t) : list key_value_pair_t :=
  imap (fun i => index_pair column (Z.of_nat (offset + i))) rs.

Definition chunk_of (offset : nat) (rs : list Student_t) : chunk_data :=
  {| rows := rs; average_kv_pairs := pairs_of Average offset rs; class_kv_pairs := pairs_of Class_ offset rs; age_kv_pairs := pairs_of Age offset rs |}.

(** The columns of rows that start at [offset]. *)
Definition columns_ok (offset : nat) (rs : list Student_t) : Prop :=
  KEY <$> rs = (fun i => u32 (Z.of_nat i)) <$> seq offset (length rs) /\
  Average <$> rs = u32 <$> take (length rs) (drop offset averages) /\
  Class_ <$> rs = u32 <$> take (length rs) (drop offset classes) /\
  Age <$> rs = u32 <$> take (length rs) (drop offset ages).

Lemma add_row_chunk offset s rs : add_row (Z.of_nat (offset + length rs)) s (chunk_of offset rs) = chunk_of offset (rs ++ [s]).
Proof.
  clear. unfold add_row, chunk_of, pairs_of. cbn [rows average_kv_pairs class_kv_pairs age_kv_pairs]. rewrite !imap_app. cbn [imap compose]. unfold compose. by rewrite !Nat.add_0_r.
Qed.

Lemma take_drop_snoc {A} (l : list A) o k x : l !! (o + k)%nat = Some x -> take (k + 1) (drop o l) = take k (drop o l) ++ [x].
Proof. clear. intros Hx. rewrite Nat.add_1_r. apply take_S_r. by rewrite lookup_drop. Qed.

Lemma chunk_spec offset k c : (offset + k <= n)%nat ->
  exists rs c', generate_one_chunk_of_db_row averages classes ages offset k c = Ok (chunk_of offset rs, c') /\ length rs = k /\ columns_ok offset rs.
Proof.
  intros Hk. unfold generate_one_chunk_of_db_row.
  match goal with |- context [for_upM 0 _ ?b ?s] =>
    destruct (for_upM_ind (fun i '(d, _) => exists rs, d = chunk_of offset rs /\ length rs = i /\ columns_ok offset rs) 0 k b s)
      as ([d c'] & -> & rs & -> & Hlen & Hcol); [lia| | |by eexists _, _] end.
  - exists []. done.
  - intros i [d c1] Hi (rs & -> & Hlen & HK & HA & HC & HG).
    destruct (lookup_lt_is_Some_2 averages (offset + i)) as [a Ha]; [lia|]. destruct (lookup_lt_is_Some_2 classes (offset + i)) as [cl Hcl]; [lia|].
    destruct (lookup_lt_is_Some_2 ages (offset + i)) as [ag Hag]; [lia|].
    rewrite (rd_lookup _ _ _ Ha), res_bind_Ok, (rd_lookup _ _ _ Hcl), res_bind_Ok, (rd_lookup _ _ _ Hag), res_bind_Ok.
    unfold generate_row. rewrite <- Hlen, add_row_chunk. eexists. split; [reflexivity|]. eexists. split; [reflexivity|].
    rewrite length_app, Nat.add_1_r. split; [done|]. unfold columns_ok. rewrite !fmap_app, length_app. cbn [length]. subst i.
    rewrite (take_drop_snoc averages _ _ a), (take_drop_snoc classes _ _ cl), (take_drop_snoc ages _ _ ag) by done.
    rewrite !fmap_app, <- HA, <- HC, <- HG, seq_app, fmap_app, <- HK. done.
Qed.

Definition piece_of (e : nat) (l : list key_value_pair_t) (j : nat) : list key_value_pair_t := take e (drop (j * e) l).

(** The files after some chunks. *)
Definition files_ok (e done : nat) (rs : list Student_t) (f : db_files) : Prop :=
  rows_db f = rs /\
  forall j, (j < done)%nat ->
    average_parts f !! j = Some (piece_of e (pairs_of Average 0 rs) j) /\
    class_parts f !! j = Some (piece_of e (pairs_of Class_ 0 rs) j) /\
    age_parts f !! j = Some (piece_of e (pairs_of Age 0 rs) j).

Lemma pairs_of_app column rs rs' : pairs_of column 0 (rs ++ rs') = pairs_of column 0 rs ++ pairs_of column (length rs) rs'.
Proof. clear. unfold pairs_of. rewrite imap_app. done. Qed.

Lemma pairs_of_length column offset rs : length (pairs_of column offset rs) = length rs.
Proof. clear. apply length_imap. Qed.

Lemma piece_of_old e j column rs rs' : (S j * e <= length rs)%nat -> piece_of e (pairs_of column 0 (rs ++ rs')) j = piece_of e (pairs_of column 0 rs) j.
Proof.
  clear. intros Hj. unfold piece_of. rewrite pairs_of_app, drop_app_le, take_app_le; [done|rewrite length_drop|]; rewrite pairs_of_length; cbn in Hj; lia.
Qed.

Lemma piece_of_new e j column rs rs' : length rs = (j * e)%nat -> (length rs' <= e)%nat ->
  piece_of e (pairs_of column 0 (rs ++ rs')) j = pairs_of column (j * e) rs'.
Proof.
  clear. intros Hj He. unfold piece_of. rewrite pairs_of_app, <- Hj, drop_app_length' by (by rewrite pairs_of_length).
  rewrite take_ge by (by rewrite pairs_of_length). done.
Qed.

Lemma files_ok_dump e j rs rs' f : length rs = (j * e)%nat -> (length rs' <= e)%nat -> files_ok e j rs f ->
  files_ok e (S j) (rs ++ rs') (dump_chunk (j * e) j (chunk_of (j * e) rs') f).
Proof.
  clear. intros Hj He [Hrows Hparts]. split.
  - unfold dump_chunk. cbn [rows_db rows chunk_of]. rewrite Hrows, <- Hj. apply write_at_end.
  - intros i Hi. unfold dump_chunk. cbn [average_parts class_parts age_parts average_kv_pairs class_kv_pairs age_kv_pairs chunk_of].
    destruct (decide (i = j)) as [->|Hne].
    + rewrite !lookup_insert_eq. by rewrite !piece_of_new.
    + rewrite !lookup_insert_ne by done. rewrite !piece_of_old by (rewrite Hj; apply Nat.mul_le_mono_r; lia). apply Hparts. lia.
Qed.

Lemma columns_ok_app rs rs' : columns_ok 0 rs -> columns_ok (length rs) rs' -> columns_ok 0 (rs ++ rs').
Proof.
  clear. intros (HK & HA & HC & HG) (HK' & HA' & HC' & HG'). unfold columns_ok. rewrite !drop_0 in *. rewrite !fmap_app, HK, HK', HA, HA', HC, HC', HG, HG', length_app.
  rewrite seq_app, fmap_app, Nat.add_0_l, <- !fmap_app, !take_take_drop. done.
Qed.

Lemma rows_spec e c : (0 < e)%nat ->
  exists m f rs, generate_db_rows averages classes ages n e {| rows_db := []; average_parts := ∅; class_parts := ∅; age_parts := ∅ |} c = Ok (m, f) /\
    length rs = n /\ columns_ok 0 rs /\ files_ok e m rs f /\ (n <= m * e)%nat /\ (m = 0 \/ (m - 1) * e < n)%nat.
Proof.
  intros He. unfold generate_db_rows.
  match goal with |- context [loop ?fl ?step ?st] =>
    destruct (loop_ind (fun '(i, fin, f, _) => i = (fin * e)%nat /\ (fin = 0 \/ (fin - 1) * e < n)%nat /\
        exists rs, length rs = Nat.min i n /\ columns_ok 0 rs /\ files_ok e fin rs f)
      (fun '(m, f) => exists rs, length rs = n /\ columns_ok 0 rs /\ files_ok e m rs f /\ (n <= m * e)%nat /\ (m = 0 \/ (m - 1) * e < n)%nat)
      (fun '(i, _, _, _) => n - i)%nat step) with (fuel := fl) (s := st) as ([m f] & -> & rs & Hrest) end.
  - intros [[[i fin] f] c1] (-> & Hfin & rs & Hlen & Hcol & Hfiles). destruct (Nat.ltb_spec (fin * e) n) as [Hlt|Hge].
    + left. rewrite Nat.div_mul by lia. rewrite Nat.min_l in Hlen by lia.
      set (k := if (n - fin * e <? e)%nat then (n - fin * e)%nat else e).
      assert ((fin * e + k <= n)%nat /\ (k <= e)%nat /\ Nat.min (fin * e + e) n = (fin * e + k)%nat) as (Hk1 & Hk2 & Hk3) by (unfold k; destruct (Nat.ltb_spec (n - fin * e) e); lia).
      destruct (chunk_spec (fin * e) k c1 Hk1) as (rs' & c2 & -> & Hlen' & Hcol'). rewrite res_bind_Ok.
      eexists. split; [reflexivity|]. split; [|lia]. split; [cbn; lia|]. split; [right; cbn; lia|]. exists (rs ++ rs').
      split; [rewrite length_app; lia|]. split; [apply columns_ok_app; [done|by rewrite Hlen]|]. apply files_ok_dump; [done|lia|done].
    + right. eexists. split; [reflexivity|]. exists rs. rewrite Nat.min_r in Hlen by lia. done.
  - split; [done|]. split; [by left|]. exists []. split; [done|]. split; [done|]. split; [done|]. intros j Hj. lia.
  - lia.
  - by exists m, f, rs.
Qed.

End Rows.

(** ** The sorted indices *)

Definition key_ok (kv : key_value_pair_t) : Prop := 0 <= kv_key kv < 2 ^ 31.

#[local] Instance kv_comparator_order : Comparator kv_comparator key_ok.
Proof.
  split; unfold key_ok, kv_comparator; intros.
  - by apply (comparator_flip (ok := fun x => 0 <= x < 2 ^ 31)).
  - by apply (comparator_trans (ok := fun x => 0 <= x < 2 ^ 31) _ (kv_key y)).
Qed.

(** A sorted index: its keys are 0, 1, 2, ..., and every pair leads to a row
    with its key in the column. *)
Definition index_ok (column : Student_t -> Z) (rs : list Student_t) (kvs : list key_value_pair_t) : Prop :=
  kv_key <$> kvs = keys_of (length rs) /\
  Forall (fun kv => exists r, rd rs (kv_offset kv) = Ok r /\ column r = kv_key kv /\ hash_row r = kv_value kv) kvs.

Lemma keys_of_sorted (R : relation Z) n : (forall x y, x < y -> R x y) -> StronglySorted R (keys_of n).
Proof.
  clear. intros HR. induction n as [|n IH]; [constructor|]. unfold keys_of. rewrite tabulate_S. apply StronglySorted_app. split; [|split; [exact IH|by repeat constructor]].
  intros x y Hx Hy. apply list_elem_of_singleton in Hy as ->. unfold tabulate in Hx. apply list_elem_of_fmap in Hx as (k & -> & Hk). apply elem_of_seq in Hk. apply HR. lia.
Qed.

Lemma sorted_keys kvs : Forall key_ok kvs -> StronglySorted (before kv_comparator) kvs -> StronglySorted Z.le (kv_key <$> kvs).
Proof.
  clear. induction 2 as [|kv kvs Hs IH Hkv]; [constructor|]. inversion H as [|? ? Hok Hoks]; subst. cbn. constructor; [by apply IH|].
  apply Forall_fmap. rewrite Forall_forall in Hkv, Hoks |- *. intros x Hx. specialize (Hkv x Hx). specialize (Hoks x Hx). cbn.
  unfold before, kv_comparator in Hkv. rewrite int_comparator_sub in Hkv by done. lia.
Qed.

Lemma column_keys n (column : Student_t -> Z) cs rs : Z.of_nat n < 2 ^ 31 -> length rs = n -> cs ≡ₚ keys_of n -> column <$> rs = u32 <$> cs ->
  column <$> rs ≡ₚ keys_of n /\ Forall (fun r => 0 <= column r < Z.of_nat n) rs.
Proof.
  clear. intros Hn Hlen Hp Hcol.
  assert (u32 <$> keys_of n = keys_of n) as Hu.
  { unfold keys_of. rewrite fmap_tabulate. apply tabulate_ext. intros i Hi. apply u32_small. lia. }
  assert (column <$> rs ≡ₚ keys_of n) as Hp' by (by rewrite Hcol, Hp, Hu). split; [done|].
  apply (Forall_fmap column (fun z => 0 <= z < Z.of_nat n)). rewrite Hp'. unfold keys_of, tabulate. apply Forall_fmap, Forall_seq. intros j Hj. cbn. lia.
Qed.

Lemma index_pair_key (column : Student_t -> Z) o r : 0 <= column r < 2 ^ 31 -> kv_key (index_pair column o r) = column r.
Proof. clear. intros Hr. cbn. apply wraps_small; [done|]. unfold in_s. ranges. Qed.

Lemma pairs_of_keys (column : Student_t -> Z) o rs : Forall (fun r => 0 <= column r < 2 ^ 31) rs -> kv_key <$> pairs_of column o rs = column <$> rs.
Proof.
  clear. intros Hrs. unfold pairs_of. rewrite fmap_imap. revert o. induction Hrs as [|r rs Hr _ IH]; intros o; [done|]. cbn [imap fmap list_fmap]. f_equal.
  - by apply index_pair_key.
  - rewrite <- (IH (S o)). apply imap_ext. intros i x _. cbn. repeat f_equal; lia.
Qed.

Lemma pairs_of_rows (column : Student_t -> Z) rs : Forall (fun r => 0 <= column r < 2 ^ 31) rs -> Z.of_nat (length rs) < 2 ^ 32 ->
  Forall (fun kv => exists r, rd rs (kv_offset kv) = Ok r /\ column r = kv_key kv /\ hash_row r = kv_value kv) (pairs_of column 0 rs).
Proof.
  clear. intros Hrs Hlen. apply Forall_forall. intros kv Hkv. apply list_elem_of_lookup_1 in Hkv as [i Hi]. unfold pairs_of in Hi.
  rewrite list_lookup_imap in Hi. destruct (rs !! i) as [r|] eqn:Hr; [|done]. injection Hi as <-. exists r.
  pose proof (lookup_lt_Some _ _ _ Hr). rewrite index_pair_key by (by eapply (Forall_lookup_1 _ _ _ _ Hrs)). cbn [kv_offset kv_value index_pair].
  rewrite u32_small by lia. split; [|done]. by apply rd_lookup.
Qed.

Lemma sort_index_spec (column : Student_t -> Z) cs rs e m fl parts : (0 < BUFSIZE)%nat -> (0 < e)%nat -> (length rs <= m * e)%nat -> (m = 0 \/ (m - 1) * e < length rs)%nat ->
  Z.of_nat (length rs) < 2 ^ 31 -> cs ≡ₚ keys_of (length rs) -> column <$> rs = u32 <$> cs -> fl = length rs ->
  (forall j, (j < m)%nat -> parts !! j = Some (piece_of e (pairs_of column 0 rs) j)) ->
  exists kvs, sort_index fl m parts = Ok kvs /\ index_ok column rs kvs.
Proof.
  intros Hbuf He Hlen Hm Hbig Hcs Hcol -> Hparts. destruct (column_keys _ column cs rs Hbig eq_refl Hcs Hcol) as [Hkeys Hrange].
  assert (Forall (fun r => 0 <= column r < 2 ^ 31) rs) as Hrange' by (eapply Forall_impl; [exact Hrange|]; cbn; intros; lia).
  set (pairs := pairs_of column 0 rs) in *. assert (length pairs = length rs) as Hlp by apply pairs_of_length.
  set (ls := tabulate m (piece e pairs)). assert (concat ls = pairs) as Hcat by (unfold ls; rewrite concat_pieces; apply take_ge; lia).
  assert (length ls = m) as Hlm by apply tabulate_length.
  assert (Forall key_ok pairs) as Hok.
  { apply (Forall_fmap kv_key (fun z => 0 <= z < 2 ^ 31)). unfold pairs. rewrite pairs_of_keys by done. by apply Forall_fmap. }
  unfold sort_index. rewrite <- Hlm.
  destruct (external_sort_parts kv_comparator key_ok BUFSIZE Hbuf {| whole := None; part := parts |} ls (S (length rs))) as (f & out & -> & Hw & Hp & Hs).
  - intros i l Hl. unfold ls, tabulate in Hl. apply list_lookup_fmap_Some in Hl as (j & -> & Hj). apply lookup_seq in Hj as [-> Hi]. cbn. by apply Hparts.
  - unfold ls, tabulate. apply Forall_fmap, Forall_seq. intros j Hj. cbn. unfold piece. intros Hnil. apply (f_equal length) in Hnil.
    rewrite length_take, length_drop in Hnil. cbn in Hnil. assert (j * e <= (m - 1) * e)%nat by (apply Nat.mul_le_mono_r; lia). lia.
  - apply Forall_concat. by rewrite Hcat.
  - rewrite Hcat. lia.
  - rewrite res_bind_Ok, Hw. exists out. split; [done|]. rewrite Hcat in Hp. split.
    + apply (StronglySorted_unique Z.le); [apply sorted_keys; [by rewrite Hp|done]|apply keys_of_sorted; lia|]. rewrite Hp. unfold pairs. by rewrite pairs_of_keys.
    + rewrite Hp. apply pairs_of_rows; [done|lia].
Qed.

(** C9: Making the tables: every key below the number of rows is in every column
    exactly once, and each index is sorted and leads to the rows. *)
Theorem create_tables_correct n chunks keys0 :
  (0 < BUFSIZE)%nat -> (0 < chunks)%nat -> (0 < n)%nat -> Z.of_nat n < 2 ^ 31 -> length keys0 = n ->
  exists average_kvs class_kvs age_kvs rs, create_tables n chunks keys0 = Ok (average_kvs, class_kvs, age_kvs, rs) /\
    length rs = n /\ KEY <$> rs = keys_of n /\
    index_ok Average rs average_kvs /\ index_ok Class_ rs class_kvs /\ index_ok Age rs age_kvs.
Proof.
  intros Hbuf Hch Hn Hbig Hlen. unfold create_tables.
  destruct (permutation_spec n keys0 0 Hlen) as (averages & c1 & -> & Ha). rewrite res_bind_Ok.
  destruct (permutation_spec n keys0 c1 Hlen) as (classes & c2 & -> & Hc). rewrite res_bind_Ok.
  destruct (permutation_spec n keys0 c2 Hlen) as (ages & c3 & -> & Hg). rewrite res_bind_Ok.
  assert (forall l, l ≡ₚ keys_of n -> length l = n) as Hperm by (intros l ->; apply tabulate_length).
  set (e := ((n + chunks - 1) / chunks)%nat). assert (0 < e)%nat as He by (apply Nat.div_str_pos; lia).
  destruct (rows_spec averages classes ages n (Hperm _ Ha) (Hperm _ Hc) (Hperm _ Hg) e c3 He) as (m & f & rs & -> & Hrs & (HK & HA & HC & HG) & [Hrows Hparts] & Hm1 & Hm2).
  rewrite res_bind_Ok. rewrite drop_0, take_ge in HA by (rewrite (Hperm _ Ha); lia). rewrite drop_0, take_ge in HC by (rewrite (Hperm _ Hc); lia).
  rewrite drop_0, take_ge in HG by (rewrite (Hperm _ Hg); lia). rewrite <- Hrs in *.
  destruct (sort_index_spec Average averages rs e m (length rs) (average_parts f)) as (k1 & -> & H1); try done; [by apply Hparts|]. rewrite res_bind_Ok.
  destruct (sort_index_spec Class_ classes rs e m (length rs) (class_parts f)) as (k2 & -> & H2); try done; [by apply Hparts|]. rewrite res_bind_Ok.
  destruct (sort_index_spec Age ages rs e m (length rs) (age_parts f)) as (k3 & -> & H3); try done; [by apply Hparts|]. rewrite res_bind_Ok.
  exists k1, k2, k3, rs. rewrite Hrows. split; [done|]. split; [done|]. split; [|done]. rewrite HK. unfold keys_of, tabulate.
  apply list_fmap_ext. intros i x Hx. apply lookup_seq in Hx as [-> Hi]. apply u32_small. lia.
Qed.

End Create.

(** ** Searching an index *)

Section Search.
Context (hash_node : tree_node_t -> hash_t) (hash_row : Student_t -> hash_t).

Lemma index_contents (column : Student_t -> Z) (rs : list Student_t) (kvs : list key_value_pair_t) (k : Z) : index_ok hash_row column rs kvs ->
  bst (mid_tree kvs 0 (length kvs)) /\
  lookup_key k (mid_tree kvs 0 (length kvs)) =
    if decide (0 <= k < Z.of_nat (length rs)) then (fun kv => [kv]) <$> kvs !! Z.to_nat k else None.
Proof.
  intros [Hkeys _]. assert (elements (mid_tree kvs 0 (length kvs)) = (fun kv => (kv_key kv, [kv])) <$> kvs) as Hel.
  { rewrite mid_tree_elements by done. by rewrite drop_0, Nat.sub_0_r, take_ge. }
  assert ((elements (mid_tree kvs 0 (length kvs))).*1 = keys_of (length rs)) as Hfst by (rewrite Hel, <- list_fmap_compose; exact Hkeys).
  assert (bst (mid_tree kvs 0 (length kvs))) as Hbst by (unfold bst; rewrite Hfst; by apply keys_of_sorted).
  split; [done|]. rewrite lookup_key_contents by done. unfold contents. case_decide as Hk.
  - assert (length kvs = length rs) as Hlen.
    { apply (f_equal length) in Hkeys. rewrite length_fmap in Hkeys. unfold keys_of in Hkeys. by rewrite tabulate_length in Hkeys. }
    destruct (lookup_lt_is_Some_2 kvs (Z.to_nat k)) as [kv Hkv]; [lia|]. rewrite Hkv. cbn [fmap option_fmap option_map].
    apply elem_of_list_to_map_1; [by apply sorted_NoDup|]. rewrite Hel. apply list_elem_of_fmap. exists kv. split; [|by eapply list_elem_of_lookup_2].
    f_equal. assert ((kv_key <$> kvs) !! Z.to_nat k = Some (kv_key kv)) as Hkk by (by rewrite list_lookup_fmap, Hkv).
    rewrite Hkeys, keys_of_lookup in Hkk by lia. injection Hkk as <-. lia.
  - apply lookup_list_none. intros x Hx. rewrite Hfst in Hx. unfold keys_of, tabulate in Hx. apply list_elem_of_fmap in Hx as (j & -> & Hj). apply elem_of_seq in Hj. lia.
Qed.

Lemma open_index_inv f lo hi ix root c rs l k e r :
  rd (index_db f) ix = Ok c -> rd (hash_db f) 0 = Ok NULL_HASH -> aligned f -> crep hash_node f lo hi ix root (Bin l k e r) ->
  Forall (fun ke => Forall (row_at hash_row (open_index f (write_bootstrap_info_into_leveldb (root, c) ∅) rs)) ke.2) (elements (Bin l k e r)) ->
  db_inv hash_node hash_row (open_index f (write_bootstrap_info_into_leveldb (root, c) ∅) rs).
Proof.
  destruct f as [index hashes]. intros Hc Hnull Hal (_ & kv & li & ri & lh & rh & -> & -> & Hli & Hri & Hc' & Hh & Hroot & Hl & Hr) Hrows. rewrite Hc in Hc'. injection Hc' as ->.
  cbn [elements] in Hrows. apply Forall_app in Hrows as [Hrl Hrr]. apply Forall_cons in Hrr as [Hkv Hrr]. cbn in Hkv. apply Forall_cons in Hkv as [(rw & Hrw & Hhash) _].
  set (s := open_index _ _ _) in *. split; cbn.
  - done.
  - done.
  - intros h o Ho. by rewrite lookup_empty in Ho.
  - intros h o Ho. by rewrite lookup_empty in Ho.
  - intros h c' Hcc. apply lookup_singleton_Some in Hcc as [<- [= <-]]. eexists. split; [exact Hroot|]. split; [|split]; cbn.
    + unfold expands. cbn. repeat (split; [done|]). exists (kv_offset kv), rw. by rewrite Hhash.
    + rewrite u32_small by apply Hli. eapply crep_stored; [done|exact Hl|exact Hrl].
    + rewrite u32_small by apply Hri. eapply crep_stored; [done|exact Hr|exact Hrr].
Qed.

(** C8: The index tree over a sorted index: every key is found with the hash of
    its row, which is then read from the store; no other key is found. *)
Theorem index_search_correct (column : Student_t -> Z) (rs : list Student_t) (kvs : list key_value_pair_t) (d : nat) f_tree_node rset (k : Z) :
  (forall n, hasheq (hash_node n) NULL_HASH = false) -> (forall n r, hash_node n <> hash_row r) ->
  (forall n n', hash_node n = hash_node n' -> n = n') -> (forall r r', hash_row r = hash_row r' -> r = r') ->
  (2 ^ S d - 1 <= length rs < 2 ^ 12)%nat -> index_ok hash_row column rs kvs ->
  length (n_values f_tree_node) = 1%nat -> length (results rset) = MAX_TREE_RESULTS avl_config ->
  exists root s rset' s', create_index hash_node d kvs rs = Ok (root, s) /\
    db_tree_find_eq hash_row f_tree_node root k rset s = Ok (rset', s') /\
    if decide (0 <= k < Z.of_nat (length rs)) then
      exists r, r ∈ rs /\ column r = k /\ rs_is avl_config rset' [(k, hash_row r)] /\
        db_get hash_row f_tree_node (hash_row r) s' = Ok (Some (BRow r), s')
    else rs_is avl_config rset' [].
Proof.
  intros Hnn Hdis Hinj Hrinj [Hd Hbig] Hix Hlen Hrs. destruct (index_contents column rs kvs k Hix) as [Hbst Hlook]. pose proof Hix as [Hkeys Hrows].
  assert (length kvs = length rs) as Hlk.
  { apply (f_equal length) in Hkeys. rewrite length_fmap in Hkeys. unfold keys_of in Hkeys. by rewrite tabulate_length in Hkeys. }
  assert (2 ^ 12 = 4096)%nat as Hpow by done. unfold create_index.
  destruct (build_compressed_spec hash_node kvs ltac:(lia) d (dump_index 0 [c_node_zero] [NULL_HASH] {| index_db := []; hash_db := [] |})) as (root & c & ix & f & -> & Hc & [Hnull Hal] & Hrep);
    [lia|done|]. rewrite res_bind_Ok.
  exists root, (open_index f (write_bootstrap_info_into_leveldb (root, c) ∅) rs). assert (length kvs <> 0)%nat as Hne by (pose proof (Nat.pow_nonzero 2 d); rewrite Nat.pow_succ_r' in Hd; lia).
  set (s := open_index f (write_bootstrap_info_into_leveldb (root, c) ∅) rs).
  assert (Forall (fun ke => Forall (row_at hash_row s) ke.2) (elements (mid_tree kvs 0 (length kvs)))) as Hat.
  { rewrite mid_tree_elements, drop_0, Nat.sub_0_r, take_ge by done. apply Forall_fmap. eapply Forall_impl; [exact Hrows|].
    intros kv (r & Hr & _ & Hh). constructor; [|done]. by exists r. }
  assert (db_inv hash_node hash_row s) as Hinv.
  { pose proof Hrep as Hrep'. rewrite mid_tree_Bin in Hrep', Hat by lia. by eapply open_index_inv. }
  assert (known_node s root) as Hknown by (right; exists c; apply lookup_singleton_eq).
  assert (height (mid_tree kvs 0 (length kvs)) <= MAX_TREE_DEPTH avl_config)%nat as Hheight by (apply mid_tree_height; change (2 ^ MAX_TREE_DEPTH avl_config)%nat with (2 ^ 12)%nat; lia).
  destruct (db_tree_find_eq_spec hash_node hash_row Hnn Hdis Hinj f_tree_node f _ _ ix root k _ rset s Hlen Hinv Hrep Hknown Hheight Hrs)
    as (rset' & s' & Hfind & Hres & Hinv' & Hgrows & Hknow).
  exists rset', s'. split; [done|]. split; [exact Hfind|]. rewrite Hlook in Hres, Hknow. case_decide as Hk; [|exact Hres].
  destruct (lookup_lt_is_Some_2 kvs (Z.to_nat k)) as [kv Hkv]; [lia|]. rewrite Hkv in Hres, Hknow. cbn in Hres, Hknow. apply Forall_cons in Hknow as [Hknow _].
  destruct (Forall_lookup_1 _ _ _ _ Hrows Hkv) as (r & Hr & Hcol & Hhash). rewrite <- Hhash in Hres, Hknow.
  destruct (db_get_row hash_node hash_row f_tree_node s' (hash_row r) Hinv' Hknow) as (r' & Hget & Heq%Hrinj & _). subst r'.
  exists r. split; [apply rd_Ok_lookup in Hr as [_ Hr]; by eapply list_elem_of_lookup_2|]. split; [|done].
  rewrite Hcol. assert ((kv_key <$> kvs) !! Z.to_nat k = Some (kv_key kv)) as Hkk by (by rewrite list_lookup_fmap, Hkv).
  rewrite Hkeys, keys_of_lookup in Hkk by lia. injection Hkk as <-. lia.
Qed.

End Search.

(** ** Examples *)

Definition example_row (key average class_ age : Z) : Student_t :=
  {| KEY := key; FName := 0; LName := 0; Age := age; Major := 0; State := 0; PhoneNum := 0; Class_ := class_; Credits := 0; Average := average; Honored := 0;
     Address := replicate 5 0 |}.
Definition student_code (s : Student_t) : list Z :=
  [KEY s; FName s; LName s; Age s; Major s; State s; PhoneNum s; Class_ s; Credits s; Average s; Honored s] ++ Address s.

Lemma student_code_inj r r' : code_row student_code r = code_row student_code r' -> r = r'.
Proof. destruct r, r'. unfold code_row, student_code. cbn. intros Heq. congruence. Qed.

Lemma create_tables_correct_witness :
  exists average_kvs class_kvs age_kvs rs,
    create_tables (fun c => Z.of_nat (7 * c)) (code_row student_code) 2 5 2 (replicate 5 0) = Ok (average_kvs, class_kvs, age_kvs, rs) /\
    length rs = 5%nat /\ KEY <$> rs = keys_of 5 /\ index_ok (code_row student_code) Average rs average_kvs /\
    index_ok (code_row student_code) Class_ rs class_kvs /\ index_ok (code_row student_code) Age rs age_kvs.
Proof.
  apply (create_tables_correct (fun c => Z.of_nat (7 * c)) (code_row student_code) 2); [intros c; lia|lia|lia|lia|vm_compute; reflexivity|reflexivity].
Defined.

#[local] Instance student_inhabited : Inhabited Student_t := populate student_zero.

(** Seven rows: the averages are the keys, the classes are rotated and the
    ages reversed. *)
Definition example_rows : list Student_t := tabulate 7 (fun i => example_row (Z.of_nat i) (Z.of_nat i) (Z.of_nat ((i + 1) mod 7)) (6 - Z.of_nat i)).
Definition example_index (column : Student_t -> Z) (row_of : nat -> nat) : list key_value_pair_t :=
  tabulate 7 (fun k => index_pair (code_row student_code) column (Z.of_nat (row_of k)) (example_rows !!! row_of k)).
Definition average_index := example_index Average (fun k => k).
Definition class_index := example_index Class_ (fun k => ((k + 6) mod 7)%nat).
Definition age_index := example_index Age (fun k => (6 - k)%nat).
Definition blank_node : tree_node_t := full_node inhabitant NULL_HASH NULL_HASH 0 0.
Definition blank_results : tree_result_set_t hash_t := {| num_results := 0; results := replicate 5 (0, NULL_HASH) |}.

Lemma example_index_ok :
  index_ok (code_row student_code) Average example_rows average_index /\ index_ok (code_row student_code) Class_ example_rows class_index /\
  index_ok (code_row student_code) Age example_rows age_index.
Proof.
  assert (forall column row_of, forallb (fun k => column (example_rows !!! row_of k) =? Z.of_nat k) (seq 0 7) = true -> Forall (fun k => row_of k < 7)%nat (seq 0 7) ->
    index_ok (code_row student_code) column example_rows (example_index column row_of)) as Hall.
  { intros column row_of Hc Hr. assert (forall k : nat, (k < 7)%nat -> column (example_rows !!! row_of k) = Z.of_nat k /\ (row_of k < 7)%nat) as Hk.
    { intros k Hk. rewrite Forall_forall in Hr. rewrite forallb_forall in Hc. split; [apply Z.eqb_eq, Hc, in_seq; lia|apply Hr, elem_of_seq; lia]. }
    unfold index_ok, example_index, keys_of. change (length example_rows) with 7%nat. split.
    - rewrite fmap_tabulate. apply tabulate_ext. intros i Hi. destruct (Hk i Hi) as [Hci _]. rewrite index_pair_key; rewrite Hci; lia.
    - unfold tabulate. apply Forall_fmap, Forall_seq. intros j Hj. destruct (Hk j) as [Hcj Hrj]; [lia|]. cbn [compose]. exists (example_rows !!! row_of j).
      unfold compose. rewrite index_pair_key by lia. cbn [kv_offset kv_value index_pair]. rewrite u32_small by lia. split; [|done].
      apply rd_lookup, list_lookup_lookup_total_lt. exact Hrj. }
  split; [|split]; apply Hall; try (vm_compute; reflexivity); apply (bool_decide_unpack _); vm_compute; exact I.
Qed.

Lemma index_search_correct_witness :
  exists root s rset' s', create_index code_node 2 average_index example_rows = Ok (root, s) /\
    db_tree_find_eq (code_row student_code) blank_node root 1 blank_results s = Ok (rset', s') /\
    exists r, r ∈ example_rows /\ Average r = 1 /\ rs_is avl_config rset' [(1, code_row student_code r)] /\
      db_get (code_row student_code) blank_node (code_row student_code r) s' = Ok (Some (BRow r), s').
Proof.
  apply (index_search_correct code_node (code_row student_code) Average example_rows average_index 2 blank_node blank_results 1).
  - exact code_node_nonnull.
  - exact (code_disjoint student_code).
  - exact code_node_inj.
  - exact student_code_inj.
  - vm_compute. lia.
  - apply example_index_ok.
  - reflexivity.
  - reflexivity.
Defined.

(** What the index of the averages gives for a key after the three indices
    are built. *)
Definition found_in_averages (kvs1 kvs2 kvs3 : list key_value_pair_t) (rs : list Student_t) (d : nat) (k : Z) : option (list (Z * hash_t)) :=
  match create_indices code_node d kvs1 kvs2 kvs3 rs with
  | Ok (root :: _, s) =>
      match db_tree_find_eq (code_row student_code) blank_node root k blank_results s with
      | Ok (rset, _) => Some (rs_view rset)
      | _ => None
      end
  | _ => None
  end.

Lemma found_in_averages_spec kvs1 kvs2 kvs3 rs d k l : found_in_averages kvs1 kvs2 kvs3 rs d k = Some l ->
  exists root roots s rset s', create_indices code_node d kvs1 kvs2 kvs3 rs = Ok (root :: roots, s) /\
    db_tree_find_eq (code_row student_code) blank_node root k blank_results s = Ok (rset, s') /\ rs_view rset = l.
Proof.
  unfold found_in_averages. destruct (create_indices _ _ _ _ _ _) as [[[|root roots] s]| |] eqn:Hb; try done.
  destruct (db_tree_find_eq _ _ _ _ _ _) as [[rset s']| |] eqn:Hs; try done. intros [= Hl]. by exists root, roots, s, rset, s'.
Qed.

(** An example of a defect: the three trees are written one behind the other,
    but the top nodes of every tree are written to the same records.  After
    the three indices of the table are built, the index of the averages leads
    from key 1 to the row that has 1 as its age. *)
Example index_trees_overwrite :
  exists root roots s rset s' r,
    create_indices code_node 2 average_index class_index age_index example_rows = Ok (root :: roots, s) /\
    db_tree_find_eq (code_row student_code) blank_node root 1 blank_results s = Ok (rset, s') /\
    rs_view rset = [(1, code_row student_code r)] /\ r ∈ example_rows /\ Average r = 5 /\ Age r = 1.
Proof.
  destruct (found_in_averages_spec average_index class_index age_index example_rows 2 1 [(1, code_row student_code (example_row 5 5 6 1))])
    as (root & roots & s & rset & s' & H1 & H2 & H3); [vm_compute; reflexivity|].
  exists root, roots, s, rset, s', (example_row 5 5 6 1). split; [exact H1|]. split; [exact H2|]. split; [exact H3|]. split; [|split; reflexivity].
  apply list_elem_of_lookup. exists 5%nat. vm_compute. reflexivity.
Qed.
