(* ===== verification/Numeric.v ===== *)
(** Numeric programs of [pepper/apps]: binary search ([binary_search.c],
    [binary_search_fast.c]), products with sparse matrices
    ([sparse_matvec.c], [sparse_matvec_flat.c]), products of matrices ([mm.c],
    [mm_pure_arith.c]) and the comparison of faces
    ([face_detect_hamming.c]).  The sizes are parameters.
    [sparse_matvec_flat.c] is taken as plain C: the rounds that the attribute
    [buffet::fsm] of its loop allows the compiled loop are not modelled. *)
From Stdlib Require Import ZArith Lia.
From stdpp Require Import base numbers list.
From S2P Require Import Prelude Ram.

Local Open Scope Z_scope.

(** * Binary search *)

Module BinarySearch.

Section Code.
Context (SIZE logSIZE : nat).

(** One round: [got] keeps its value when there is nothing to read. *)
Definition halve (cast : Z -> Z) (get : Z -> Z -> res Z) (search : Z) (st : Z * Z * Z * Z) : res (Z * Z * Z * Z) :=
  let '(mn, mx, present, got) := st in
  let avg := cast (Z.shiftr (mn + mx) 1) in
  got ← get avg got;
  if got =? search then Ok (avg, avg, 1, got)
  else if search <? got then Ok (mn, avg, present, got)
  else Ok (avg, mx, present, got).

Definition rounds (cast : Z -> Z) (get : Z -> Z -> res Z) (search got : Z) : res (Z * Z) :=
  '(mn, _, present, _) ← for_upM 0 logSIZE (fun _ => halve cast get search) (0, Z.of_nat SIZE - 1, 0, got);
  Ok (present, mn).

(** [binary_search_fast.c]; the result is [present] and [index]. *)
Definition binary_search_fast (array : list Z) (search got : Z) : res (Z * Z) :=
  rounds u16 (fun avg _ => rd array avg) search got.

(** [binary_search.c] *)
Definition binary_search `{Ram Z} (array : list Z) (search got : Z) (m : ram Z) : res (Z * Z * ram Z) :=
  let m := for_up 0 SIZE (fun i m => ramput (Z.of_nat i) (array !!! i) m) m in
  '(present, index) ← rounds s32 (fun avg got => Ok (ramget avg got m)) search got;
  Ok (present, index, m).

End Code.

(** ** What it finds *)

Section Search.
Context (SIZE logSIZE : nat) (array : list Z) (search : Z).
Context (cast : Z -> Z) (get : Z -> Z -> res Z).
Hypothesis size : (2 <= SIZE)%nat /\ Z.of_nat SIZE <= 2 ^ 16.
Hypothesis rounds_enough : (1 <= logSIZE)%nat /\ (SIZE - 1 <= 2 ^ (logSIZE - 1))%nat.
Hypothesis sorted : forall i j, (i <= j < SIZE)%nat -> array !!! i <= array !!! j.
Hypothesis cast_small : forall z, 0 <= z < 2 ^ 16 -> cast z = z.
Hypothesis get_array : forall i old, (i < SIZE)%nat -> get (Z.of_nat i) old = Ok (array !!! i).

(** The answer: a place that is not the last and holds what is searched; or
    that no place but the last holds it, and how the others compare. *)
Definition answer (present index : Z) : Prop :=
  exists i, index = Z.of_nat i /\ (i < SIZE - 1)%nat /\
    ((present = 1 /\ array !!! i = search) \/
     (present = 0 /\ (i = 0%nat \/ forall p, (p <= i)%nat -> array !!! p < search) /\
        (forall p, (i < p < SIZE - 1)%nat -> search < array !!! p) /\ array !!! i <> search)).

Definition searching (width : nat) (st : Z * Z * Z * Z) : Prop :=
  let '(mn, mx, present, _) := st in
  exists a b : nat, mn = Z.of_nat a /\ mx = Z.of_nat b /\ (a <= b < SIZE)%nat /\
    ((present = 1 /\ a = b /\ (a < SIZE - 1)%nat /\ array !!! a = search) \/
     (present = 0 /\ (a < SIZE - 1)%nat /\ (b - a <= width)%nat /\ (a = 0%nat \/ array !!! a < search) /\ (b = (SIZE - 1)%nat \/ search < array !!! b))).

Lemma middle_half a b : (a <= b)%nat -> Z.shiftr (Z.of_nat a + Z.of_nat b) 1 = Z.of_nat (a + (b - a) / 2).
Proof.
  clear. intros Hab. rewrite Z.shiftr_div_pow2 by lia. change (2 ^ 1) with 2. rewrite Nat2Z.inj_add, Nat2Z.inj_div.
  replace (Z.of_nat a + Z.of_nat b) with (Z.of_nat (b - a) + Z.of_nat a * 2) by lia. rewrite Z.div_add by lia. cbn. lia.
Qed.

Lemma halve_at a b present got : (a <= b < SIZE)%nat ->
  let m := (a + (b - a) / 2)%nat in
  (a <= m <= b)%nat /\ (a < b -> m < b)%nat /\
  halve cast get search (Z.of_nat a, Z.of_nat b, present, got) =
    Ok (if array !!! m =? search then (Z.of_nat m, Z.of_nat m, 1, array !!! m)
        else if search <? array !!! m then (Z.of_nat a, Z.of_nat m, present, array !!! m)
        else (Z.of_nat m, Z.of_nat b, present, array !!! m)).
Proof.
  intros Hab m. assert (a <= m <= b)%nat as Hm.
  { unfold m. pose proof (Nat.div_mod_eq (b - a) 2). pose proof (Nat.mod_upper_bound (b - a) 2). lia. }
  split; [done|]. split; [unfold m; intros Hlt; pose proof (Nat.div_lt (b - a) 2); lia|].
  unfold halve. rewrite middle_half by lia. fold m. destruct size. rewrite cast_small by lia. rewrite get_array, res_bind_Ok by lia. by destruct (_ =? _); [|destruct (_ <? _)].
Qed.

Lemma halve_step width st : searching width st -> exists st', halve cast get search st = Ok st' /\ searching (S width / 2) st'.
Proof.
  destruct st as [[[mn mx] present] got]. intros (a & b & -> & -> & Hab & Hst).
  destruct (halve_at a b present got Hab) as (Hm & Hlt & ->). set (m := (a + (b - a) / 2)%nat) in *. eexists. split; [reflexivity|].
  destruct (Z.eqb_spec (array !!! m) search) as [Heq|Hne].
  { exists m, m. split; [done|]. split; [done|]. split; [lia|]. left. split; [done|]. split; [done|]. split; [|done].
    destruct Hst as [(_ & <- & Ha & _)|(_ & Ha & _)]; [lia|]. destruct (decide (a < b)%nat); [specialize (Hlt l); lia|lia]. }
  destruct Hst as [(-> & <- & _ & Heq)|(-> & Ha & Hw & Hlo & Hhi)].
  { unfold m in Hne. rewrite Nat.sub_diag, Nat.add_0_r in Hne. done. }
  assert ((m - a <= S width / 2)%nat /\ (b - m <= S width / 2)%nat) as [Hw1 Hw2].
  { unfold m. pose proof (Nat.div_mod_eq (b - a) 2). pose proof (Nat.mod_upper_bound (b - a) 2).
    pose proof (Nat.div_mod_eq (S width) 2). pose proof (Nat.mod_upper_bound (S width) 2). lia. }
  destruct (Z.ltb_spec search (array !!! m)).
  - exists a, m. split; [done|]. split; [done|]. split; [lia|]. right. auto 10.
  - exists m, b. split; [done|]. split; [done|]. split; [lia|]. right. split; [done|]. split.
    { destruct (decide (a < b)%nat); [specialize (Hlt l); lia|lia]. }
    split; [done|]. split; [right; lia|done].
Qed.

(** The last round tests the lower end. *)
Lemma halve_last st : searching 1 st -> exists mn mx present got, halve cast get search st = Ok (mn, mx, present, got) /\ answer present mn.
Proof.
  destruct st as [[[mn mx] present] got]. intros (a & b & -> & -> & Hab & Hst).
  destruct (halve_at a b present got Hab) as (Hm & _ & ->).
  assert (b - a <= 1)%nat as Hd by (destruct Hst as [(_ & -> & _)|(_ & _ & ? & _)]; lia).
  replace (a + (b - a) / 2)%nat with a in * by (rewrite (Nat.div_small (b - a) 2) by lia; lia).
  destruct (Z.eqb_spec (array !!! a) search) as [Heq|Hne].
  { do 4 eexists. split; [reflexivity|]. exists a. split; [done|]. split; [destruct Hst as [(_ & _ & ? & _)|(_ & ? & _)]; lia|]. by left. }
  destruct Hst as [(_ & _ & _ & Heq)|(-> & Ha & _ & Hlo & Hhi)]; [done|].
  assert (answer 0 (Z.of_nat a)) as Hans.
  { exists a. split; [done|]. split; [done|]. right. split; [done|]. split; [|split; [|done]].
    - destruct Hlo as [->|Hlo]; [by left|]. right. intros p Hp. pose proof (sorted p a). lia.
    - intros p Hp. destruct Hhi as [->|Hhi]; [lia|]. pose proof (sorted b p). lia. }
  destruct (search <? array !!! a); do 4 eexists; (split; [reflexivity|done]).
Qed.

Lemma search_rounds_spec got : exists present index, rounds SIZE logSIZE cast get search got = Ok (present, index) /\ answer present index.
Proof.
  unfold rounds. destruct rounds_enough as [Hl1 Hl2].
  assert (exists st, for_upM 0 (logSIZE - 1) (fun _ => halve cast get search) (0, Z.of_nat SIZE - 1, 0, got) = Ok st /\ searching (2 ^ (logSIZE - 1 - (logSIZE - 1))) st) as (st & Hst & Hs).
  { apply (for_upM_ind (fun t => searching (2 ^ (logSIZE - 1 - t)))); [lia| |].
    - exists 0%nat, (SIZE - 1)%nat. split; [done|]. split; [lia|]. split; [lia|]. right. split; [done|]. split; [lia|]. split; [rewrite !Nat.sub_0_r; lia|].
      split; by left.
    - intros t st Ht Hst. destruct (halve_step _ _ Hst) as (st' & -> & Hst'). exists st'. split; [done|].
      replace (logSIZE - 1 - t)%nat with (S (logSIZE - 1 - S t)) in Hst' by lia. rewrite Nat.pow_succ_r' in Hst'.
      replace (S (2 * 2 ^ (logSIZE - 1 - S t)) / 2)%nat with (2 ^ (logSIZE - 1 - S t))%nat in Hst'; [done|].
      pose proof (Nat.div_mod_eq (S (2 * 2 ^ (logSIZE - 1 - S t))) 2). pose proof (Nat.mod_upper_bound (S (2 * 2 ^ (logSIZE - 1 - S t))) 2). lia. }
  rewrite Nat.sub_diag in Hs. destruct (halve_last st Hs) as (mn & mx & present & got' & Hh & Hans).
  rewrite (for_upM_split 0 (logSIZE - 1)), Hst, res_bind_Ok by lia. rewrite for_upM_step, Hh, res_bind_Ok by lia. rewrite for_upM_done by lia.
  rewrite res_bind_Ok. eauto.
Qed.

End Search.

(** The memory after the array was written. *)
Lemma ram_array `{RamLaws Z} (array : list Z) n (m : ram Z) :
  (forall i, (i < n)%nat -> ram_addr (Z.of_nat i) = true) ->
  forall i old, (i < n)%nat -> ramget (Z.of_nat i) old (for_up 0 n (fun i m => ramput (Z.of_nat i) (array !!! i) m) m) = array !!! i.
Proof.
  intros Haddr. induction n as [|n IH]; intros i old Hi; [lia|]. rewrite for_up_last by lia.
  destruct (decide (i = n)) as [->|Hne].
  - apply ramget_put_same. by apply Haddr.
  - rewrite ramget_put_other by lia. apply IH; [|lia]. intros j Hj. apply Haddr. lia.
Qed.

(** Both programs search a sorted array: a value is found exactly when it is
    at a place that is not the last, and otherwise the index is that of the
    last smaller value before the last place, or 0. *)
Theorem binary_search_correct `{RamLaws Z} SIZE logSIZE array search got (m : ram Z) :
  (2 <= SIZE)%nat /\ Z.of_nat SIZE <= 2 ^ 16 -> (1 <= logSIZE)%nat /\ (SIZE - 1 <= 2 ^ (logSIZE - 1))%nat -> length array = SIZE ->
  (forall i j, (i <= j < SIZE)%nat -> array !!! i <= array !!! j) -> (forall i, (i < SIZE)%nat -> ram_addr (Z.of_nat i) = true) ->
  (exists present index, binary_search_fast SIZE logSIZE array search got = Ok (present, index) /\ answer SIZE array search present index) /\
  (exists present index m', binary_search SIZE logSIZE array search got m = Ok (present, index, m') /\ answer SIZE array search present index).
Proof.
  intros Hsize Hlog Hlen Hsort Haddr. split.
  - destruct (search_rounds_spec SIZE logSIZE array search u16 (fun avg _ => rd array avg) Hsize Hlog Hsort) with (got := got) as (present & index & Hr & Hans).
    + intros z Hz. by apply wrapu_small.
    + intros i old Hi. apply rd_lookup, list_lookup_lookup_total_lt. lia.
    + by exists present, index.
  - unfold binary_search. set (m' := for_up _ _ _ m).
    destruct (search_rounds_spec SIZE logSIZE array search s32 (fun avg got => Ok (ramget avg got m')) Hsize Hlog Hsort) with (got := got) as (present & index & Hr & Hans).
    + intros z Hz. apply wraps_small; [done|]. unfold in_s. ranges.
    + intros i old Hi. f_equal. by apply ram_array.
    + rewrite Hr, res_bind_Ok. by exists present, index, m'.
Qed.

Lemma binary_search_correct_witness :
  (exists present index, binary_search_fast 4 3 [1; 3; 5; 7] 3 0 = Ok (present, index) /\ answer 4 [1; 3; 5; 7] 3 present index) /\
  (exists present index m', @binary_search 4 3 (NaiveRam 4) [1; 3; 5; 7] 3 0 (exist _ [0; 0; 0; 0] eq_refl) = Ok (present, index, m') /\ answer 4 [1; 3; 5; 7] 3 present index).
Proof.
  apply (@binary_search_correct (NaiveRam 4) (NaiveRamLaws 4) 4 3 [1; 3; 5; 7] 3 0 (exist _ [0; 0; 0; 0] eq_refl)).
  - lia.
  - cbn. lia.
  - reflexivity.
  - intros i j Hij. destruct i as [|[|[|[|i]]]], j as [|[|[|[|j]]]]; cbn in *; lia.
  - intros i Hi. destruct i as [|[|[|[|i]]]]; [reflexivity..|lia].
Defined.

(** The last place is never looked at, and the index of an absent value is
    not a place to insert it: with the sizes of the programs. *)
Theorem binary_search_last :
  binary_search_fast 16 5 (tabulate 16 (fun i => 10 * Z.of_nat i)) 150 0 = Ok (0, 14) /\
  binary_search_fast 16 5 (tabulate 16 (fun i => 10 * Z.of_nat i)) 45 0 = Ok (0, 4).
Proof. split; vm_compute; reflexivity. Qed.

End BinarySearch.

(** * Products with sparse matrices *)

Module Sparse.

Section Code.
Context (N K : nat).

(** [output->out[i] += iej * vij] *)
Definition accumulate (vector elms inds : list Z) (i : nat) (j : Z) (out : list Z) : res (list Z) :=
  iej ← rd elms j;
  inj ← rd inds j;
  vij ← rd vector inj;
  o ← rd out (Z.of_nat i);
  wr out (Z.of_nat i) (s32 (o + s32 (iej * vij))).

(** [sparse_matvec.c] adds to what [out] holds. *)
Definition sparse_matvec (vector elms inds ptrs out : list Z) : res (list Z) :=
  for_upM 0 N (fun i out =>
    for_upM 0 K (fun j out =>
      ip0 ← rd ptrs (Z.of_nat i);
      ip1 ← rd ptrs (Z.of_nat (i + 1));
      if negb (Z.of_nat j <? ip0) && (Z.of_nat j <? ip1) then accumulate vector elms inds i (Z.of_nat j) out else Ok out) out) out.

(** [sparse_matvec_flat.c] *)
Definition sparse_matvec_flat (vector elms inds ptrs out : list Z) : res (list Z) :=
  out ← for_upM 0 N (fun i out => wr out (Z.of_nat i) 0) out;
  for_upM 0 N (fun i out =>
    ip0 ← rd ptrs (Z.of_nat i);
    ip1 ← rd ptrs (Z.of_nat (i + 1));
    for_upM 0 (Z.to_nat (ip1 - ip0)) (fun j out => accumulate vector elms inds i (ip0 + Z.of_nat j) out) out) out.

(** The matrix in the compressed representation. *)
Definition in_row (ptrs : list Z) (i j : nat) : bool := (ptrs !!! i <=? Z.of_nat j) && (Z.of_nat j <? ptrs !!! (i + 1)%nat).

Definition dense (elms inds ptrs : list Z) (i c : nat) : Z :=
  zsum K (fun j => if in_row ptrs i j && (inds !!! j =? Z.of_nat c) then elms !!! j else 0).

Record csr (vector elms inds ptrs : list Z) : Prop := {
  csr_vector : length vector = N; csr_elms : length elms = K; csr_inds : length inds = K; csr_ptrs : length ptrs = S N;
  csr_columns : forall j, (j < K)%nat -> 0 <= inds !!! j < Z.of_nat N;
  csr_rows : forall i, (i < N)%nat -> 0 <= ptrs !!! i <= ptrs !!! (i + 1)%nat /\ ptrs !!! (i + 1)%nat <= Z.of_nat K
}.

Definition product (vector elms inds ptrs : list Z) (i : nat) : Z := zsum N (fun c => dense elms inds ptrs i c * vector !!! c).

End Code.

Section Facts.
Context (N K : nat) (vector elms inds ptrs : list Z).
Hypothesis Hcsr : csr N K vector elms inds ptrs.

Definition term (j : nat) : Z := elms !!! j * vector !!! Z.to_nat (inds !!! j).

Lemma zsum_one n k e (v : nat -> Z) : (k < n)%nat -> zsum n (fun c => (if Z.of_nat k =? Z.of_nat c then e else 0) * v c) = e * v k.
Proof.
  clear. induction n as [|n IH]; intros Hk; [lia|]. cbn [zsum]. destruct (decide (k = n)) as [->|Hne].
  - rewrite (zsum_ext n _ (fun _ => 0)), zsum_const, Z.eqb_refl; [lia|]. intros i Hi. destruct (Z.eqb_spec (Z.of_nat n) (Z.of_nat i)); lia.
  - rewrite IH by lia. destruct (Z.eqb_spec (Z.of_nat k) (Z.of_nat n)); lia.
Qed.

(** A row of the product, over the elements of the row. *)
Lemma product_row i : product N K vector elms inds ptrs i = zsum K (fun j => if in_row ptrs i j then term j else 0).
Proof.
  unfold product, dense. pose proof (csr_columns _ _ _ _ _ _ Hcsr) as Hc. revert Hc. clear. induction K as [|k IH]; intros Hc.
  - rewrite (zsum_ext N _ (fun _ => 0)) by done. rewrite zsum_const. cbn [zsum]. lia.
  - cbn [zsum]. rewrite <- IH by auto. rewrite (zsum_ext N _ (fun c => zsum k (fun j => if in_row ptrs i j && (inds !!! j =? Z.of_nat c) then elms !!! j else 0) * vector !!! c
      + (if in_row ptrs i k && (inds !!! k =? Z.of_nat c) then elms !!! k else 0) * vector !!! c)) by (intros; lia).
    rewrite zsum_add. f_equal. destruct (in_row ptrs i k); cbn [andb].
    + specialize (Hc k ltac:(lia)). unfold term. rewrite <- (zsum_one N (Z.to_nat (inds !!! k)) (elms !!! k) (fun c => vector !!! c)) by lia.
      apply zsum_ext. intros c _. by rewrite Z2Nat.id by lia.
    + rewrite (zsum_ext N _ (fun _ => 0)) by (intros; lia). rewrite zsum_const. lia.
Qed.

Lemma accumulate_spec i j out : length out = N -> (i < N)%nat -> (j < K)%nat ->
  accumulate vector elms inds i (Z.of_nat j) out = Ok (<[i := s32 (out !!! i + term j)]> out).
Proof.
  intros Hout Hi Hj. destruct Hcsr as [Hv He Hin _ Hc _]. specialize (Hc j Hj). unfold accumulate.
  rewrite (rd_lookup elms j (elms !!! j)), res_bind_Ok by (apply list_lookup_lookup_total_lt; lia).
  rewrite (rd_lookup inds j (inds !!! j)), res_bind_Ok by (apply list_lookup_lookup_total_lt; lia).
  rewrite (rd_Ok vector (inds !!! j)), res_bind_Ok by lia. rewrite (rd_lookup out i (out !!! i)), res_bind_Ok by (apply list_lookup_lookup_total_lt; lia).
  rewrite wr_Ok, Nat2Z.id by lia. by rewrite wraps_mod_r by lia.
Qed.

(** Adding some terms of a row. *)
Lemma accumulate_loop n lo (f : nat -> Z) (body : nat -> list Z -> res (list Z)) i out :
  length out = N -> (i < N)%nat -> in_s 32 (out !!! i) ->
  (forall j out, (j < n)%nat -> length out = N -> in_s 32 (out !!! i) -> body (lo + j)%nat out = Ok (<[i := s32 (out !!! i + f j)]> out)) ->
  for_upM lo (lo + n) body out = Ok (<[i := s32 (out !!! i + zsum n f)]> out).
Proof.
  clear. revert out. induction n as [|n IH]; intros out Hout Hi Hin Hb.
  - rewrite for_upM_done by lia. cbn [zsum]. rewrite Z.add_0_r. rewrite wraps_small by done. by rewrite list_insert_id' by (intros; rewrite list_lookup_lookup_total_lt by lia; done).
  - rewrite (for_upM_split lo (lo + n)) by lia. rewrite IH, res_bind_Ok by (done || (intros; apply Hb; done || lia)).
    rewrite for_upM_step by lia. rewrite Hb; [|lia|by rewrite length_insert|rewrite list_lookup_total_insert_eq by lia; apply wraps_range; lia].
    rewrite res_bind_Ok, for_upM_done by lia. rewrite list_lookup_total_insert_eq, list_insert_insert_eq by lia. cbn [zsum]. rewrite wraps_mod_l by lia.
    do 3 f_equal. lia.
Qed.

(** The sum over the elements of a row. *)
Lemma row_sum i a b : (i < N)%nat -> ptrs !!! i = Z.of_nat a -> ptrs !!! (i + 1)%nat = Z.of_nat b ->
  product N K vector elms inds ptrs i = zsum (b - a) (fun j => term (a + j)).
Proof.
  intros Hi Ha Hb. pose proof (csr_rows _ _ _ _ _ _ Hcsr i Hi) as Hr. rewrite product_row.
  replace K with (a + ((b - a) + (K - b)))%nat at 1 by lia. rewrite !zsum_split.
  rewrite (zsum_ext a _ (fun _ => 0)), (zsum_ext (K - b) _ (fun _ => 0)), !zsum_const.
  - rewrite (zsum_ext (b - a) _ (fun j => term (a + j))); [lia|]. intros j Hj. unfold in_row. rewrite Ha, Hb. bool_cases; done || lia.
  - intros j Hj. unfold in_row. rewrite Ha, Hb. bool_cases; done || lia.
  - intros j Hj. unfold in_row. rewrite Ha, Hb. bool_cases; done || lia.
Qed.

(** The rows one after the other. *)
Lemma rows_loop (body : nat -> list Z -> res (list Z)) :
  (forall i out, (i < N)%nat -> length out = N -> in_s 32 (out !!! i) -> body i out = Ok (<[i := s32 (out !!! i + product N K vector elms inds ptrs i)]> out)) ->
  for_upM 0 N body (replicate N 0) = Ok (tabulate N (fun i => s32 (product N K vector elms inds ptrs i))).
Proof.
  clear. intros Hb.
  destruct (for_upM_ind (fun i out => length out = N /\ forall k, (k < N)%nat -> out !!! k = if (k <? i)%nat then s32 (product N K vector elms inds ptrs k) else 0)
    0 N body (replicate N 0)) as (out & -> & Hlen & Hall); [lia| | |].
  - split; [apply length_replicate|]. intros k Hk. by rewrite lookup_total_replicate_2.
  - intros i out Hi (Hlen & Hall). rewrite Hb; [|lia|done|rewrite Hall, Nat.ltb_irrefl by lia; done]. eexists. split; [reflexivity|].
    split; [by rewrite length_insert|]. intros k Hk. destruct (decide (k = i)) as [->|Hne].
    + rewrite list_lookup_total_insert_eq, Hall, Nat.ltb_irrefl by lia. by destruct (Nat.ltb_spec i (S i)); [|lia].
    + rewrite list_lookup_total_insert_ne, Hall by done. destruct (Nat.ltb_spec k i), (Nat.ltb_spec k (S i)); done || lia.
  - f_equal. apply list_eq_same_length with N; [by rewrite tabulate_length|done|]. intros i x y Hi Hx Hy.
    apply list_lookup_total_correct in Hx, Hy. rewrite Hall in Hx by done. rewrite tabulate_lookup in Hy by done.
    destruct (Nat.ltb_spec i N); [congruence|lia].
Qed.

Lemma ptrs_nat i : (i < N)%nat -> exists a b, ptrs !!! i = Z.of_nat a /\ ptrs !!! (i + 1)%nat = Z.of_nat b /\ (a <= b <= K)%nat /\
  rd ptrs (Z.of_nat i) = Ok (Z.of_nat a) /\ rd ptrs (Z.of_nat (i + 1)) = Ok (Z.of_nat b).
Proof.
  intros Hi. destruct Hcsr as [_ _ _ Hp _ Hr]. destruct (Hr i Hi) as [[H0 H1] H2]. exists (Z.to_nat (ptrs !!! i)), (Z.to_nat (ptrs !!! (i + 1)%nat)).
  rewrite !Z2Nat.id by lia. split; [done|]. split; [done|]. split; [lia|]. split; apply rd_lookup, list_lookup_lookup_total_lt; lia.
Qed.

Lemma sparse_row i out : (i < N)%nat -> length out = N -> in_s 32 (out !!! i) ->
  for_upM 0 K (fun j out =>
    ip0 ← rd ptrs (Z.of_nat i);
    ip1 ← rd ptrs (Z.of_nat (i + 1));
    if negb (Z.of_nat j <? ip0) && (Z.of_nat j <? ip1) then accumulate vector elms inds i (Z.of_nat j) out else Ok out) out =
  Ok (<[i := s32 (out !!! i + product N K vector elms inds ptrs i)]> out).
Proof.
  intros Hi Hout Hin. destruct (ptrs_nat i Hi) as (a & b & Ha & Hb & Hab & Hra & Hrb). rewrite product_row.
  apply (accumulate_loop K O (fun j => if in_row ptrs i j then term j else 0)); [done|done|done|].
  intros j out1 Hj Hout1 Hin1. rewrite Nat.add_0_l, Hra, res_bind_Ok, Hrb, res_bind_Ok. unfold in_row. rewrite Ha, Hb, Z.leb_antisym.
  destruct (negb _ && _); [by apply accumulate_spec|]. rewrite Z.add_0_r, wraps_small by done.
  rewrite list_insert_id by (rewrite list_lookup_lookup_total_lt by lia; done). done.
Qed.

Lemma flat_row i out : (i < N)%nat -> length out = N -> in_s 32 (out !!! i) ->
  (ip0 ← rd ptrs (Z.of_nat i);
   ip1 ← rd ptrs (Z.of_nat (i + 1));
   for_upM 0 (Z.to_nat (ip1 - ip0)) (fun j out => accumulate vector elms inds i (ip0 + Z.of_nat j) out) out) =
  Ok (<[i := s32 (out !!! i + product N K vector elms inds ptrs i)]> out).
Proof.
  intros Hi Hout Hin. destruct (ptrs_nat i Hi) as (a & b & Ha & Hb & Hab & -> & ->). rewrite !res_bind_Ok.
  rewrite (row_sum i a b Hi Ha Hb). replace (Z.to_nat (Z.of_nat b - Z.of_nat a)) with (b - a)%nat by lia.
  apply (accumulate_loop (b - a) O (fun j => term (a + j))); [done|done|done|].
  intros j out1 Hj Hout1 Hin1. rewrite Nat.add_0_l, <- Nat2Z.inj_add. apply accumulate_spec; done || lia.
Qed.

End Facts.

(** Both programs multiply the matrix with the vector, when the first starts
    from zeros and every sum is taken modulo 2^32. *)
Theorem sparse_matvec_correct N K vector elms inds ptrs out :
  csr N K vector elms inds ptrs -> length out = N ->
  sparse_matvec N K vector elms inds ptrs (replicate N 0) = Ok (tabulate N (fun i => s32 (product N K vector elms inds ptrs i))) /\
  sparse_matvec_flat N vector elms inds ptrs out = Ok (tabulate N (fun i => s32 (product N K vector elms inds ptrs i))).
Proof.
  intros Hcsr Hout. split.
  - apply rows_loop. intros i out1 Hi Ho Hin. by apply sparse_row.
  - unfold sparse_matvec_flat. rewrite (for_upM_fill N _ (fun _ => 0)) by (done || (intros i l Hi Hl; rewrite wr_Ok, Nat2Z.id by lia; done)).
    rewrite res_bind_Ok. replace (tabulate N (fun _ => 0)) with (replicate N 0).
    + apply rows_loop. intros i out1 Hi Ho Hin. by apply flat_row with (K := K).
    + unfold tabulate. by rewrite (const_fmap (fun _ => 0) (seq 0 N) 0), length_seq.
Qed.

Lemma sparse_matvec_correct_witness :
  sparse_matvec 2 3 [5; 7] [1; 2; 3] [0; 1; 1] [0; 2; 3] (replicate 2 0) = Ok (tabulate 2 (fun i => s32 (product 2 3 [5; 7] [1; 2; 3] [0; 1; 1] [0; 2; 3] i))) /\
  sparse_matvec_flat 2 [5; 7] [1; 2; 3] [0; 1; 1] [0; 2; 3] [9; 9] = Ok (tabulate 2 (fun i => s32 (product 2 3 [5; 7] [1; 2; 3] [0; 1; 1] [0; 2; 3] i))).
Proof.
  apply (sparse_matvec_correct 2 3 [5; 7] [1; 2; 3] [0; 1; 1] [0; 2; 3] [9; 9]).
  - split; try reflexivity.
    + intros j Hj. destruct j as [|[|[|j]]]; cbn; lia.
    + intros i Hi. destruct i as [|[|i]]; cbn; lia.
  - reflexivity.
Defined.

End Sparse.

(** * Products of matrices *)

Module MatrixProduct.

Section Code.
Context (SIZE : nat).

(** [mm.c], with 32-bit elements and sums. *)
Definition mm (A B C : list (list Z)) : list (list Z) :=
  for_up 0 SIZE (fun i C =>
    for_up 0 SIZE (fun j C =>
      let C_ij := for_up 0 SIZE (fun k C_ij => s32 (C_ij + s32 ((A !!! i) !!! k * (B !!! k) !!! j))) 0 in
      upd2 C i j (fun _ => s32 C_ij)) C) C.

(** [mm_pure_arith.c]: the elements have 16 bits, their product is an [int]
    and the sum has 64 bits. *)
Definition mm_pure_arith (A B C : list (list Z)) : list (list Z) :=
  for_up 0 SIZE (fun i C =>
    for_up 0 SIZE (fun j C =>
      let C_ij := for_up 0 SIZE (fun k C_ij => s64 (C_ij + s32 ((A !!! i) !!! k * (B !!! k) !!! j))) 0 in
      upd2 C i j (fun _ => C_ij)) C) C.

(** The element of the product of two matrices of integers. *)
Definition product_entry (A B : list (list Z)) (i j : nat) : Z := zsum SIZE (fun k => (A !!! i) !!! k * (B !!! k) !!! j).

Definition entries_in (w : Z) (A : list (list Z)) : Prop := forall i j, (i < SIZE)%nat -> (j < SIZE)%nat -> in_s w ((A !!! i) !!! j).

End Code.

Lemma fill_grid {A} `{Inhabited A} n (g : nat -> nat -> A) (C : list (list A)) : grid n n C ->
  for_up 0 n (fun i C => for_up 0 n (fun j C => upd2 C i j (fun _ => g i j)) C) C = tabulate n (fun i => tabulate n (g i)).
Proof. intros [Hn Hr]. rewrite (for_up_grid n n (fun i j _ => g i j)) by done. by apply imap_const2. Qed.

(** [mm.c] computes the product modulo 2^32 and [mm_pure_arith.c] the exact
    product of matrices with 16-bit elements. *)
Theorem mm_correct SIZE A B C : grid SIZE SIZE C ->
  mm SIZE A B C = tabulate SIZE (fun i => tabulate SIZE (fun j => s32 (product_entry SIZE A B i j))) /\
  (entries_in SIZE 16 A -> entries_in SIZE 16 B -> Z.of_nat SIZE < 2 ^ 31 ->
   mm_pure_arith SIZE A B C = tabulate SIZE (fun i => tabulate SIZE (fun j => product_entry SIZE A B i j))).
Proof.
  intros Hgrid. split.
  - unfold mm. cbv zeta. rewrite fill_grid by done. apply tabulate_ext. intros i Hi. apply tabulate_ext. intros j Hj.
    rewrite (for_up_ext _ _ _ (fun k c => s32 (c + (A !!! i) !!! k * (B !!! k) !!! j))) by (intros; by rewrite wraps_mod_r).
    rewrite for_up_ssum by done. rewrite wraps_small; [done|done|]. by apply wraps_range.
  - intros HA HB Hs. unfold mm_pure_arith. cbv zeta. rewrite fill_grid by done. apply tabulate_ext. intros i Hi. apply tabulate_ext. intros j Hj.
    assert (forall k, (k < SIZE)%nat -> - 2 ^ 30 <= (A !!! i) !!! k * (B !!! k) !!! j <= 2 ^ 30) as Hp.
    { intros k Hk. specialize (HA i k Hi Hk). specialize (HB k j Hk Hj). unfold in_s in HA, HB. change (2 ^ (16 - 1)) with 32768 in HA, HB.
      change (2 ^ 30) with 1073741824. nia. }
    rewrite (for_up_ext _ _ _ (fun k c => s64 (c + (A !!! i) !!! k * (B !!! k) !!! j))).
    2:{ intros k c Hk. rewrite (wraps_small 32); [done|done|]. specialize (Hp k ltac:(lia)). unfold in_s. ranges. }
    rewrite for_up_ssum by done. rewrite Z.add_0_l. apply wraps_small; [done|].
    pose proof (zsum_abs_le SIZE (fun k => (A !!! i) !!! k * (B !!! k) !!! j) (2 ^ 30) Hp). unfold in_s.
    change (2 ^ (64 - 1)) with (8589934592 * 2 ^ 30). change (2 ^ 31) with 2147483648 in Hs. unfold product_entry in *. nia.
Qed.

Lemma mm_correct_witness :
  mm 2 [[1; 2]; [3; 4]] [[5; 6]; [7; 8]] [[0; 0]; [0; 0]] = [[19; 22]; [43; 50]] /\
  mm_pure_arith 2 [[1; 2]; [3; 4]] [[5; 6]; [7; 8]] [[0; 0]; [0; 0]] = [[19; 22]; [43; 50]].
Proof.
  destruct (mm_correct 2 [[1; 2]; [3; 4]] [[5; 6]; [7; 8]] [[0; 0]; [0; 0]]) as [H1 H2].
  - split; [reflexivity|apply (bool_decide_unpack _); vm_compute; exact I].
  - split; [exact H1|]. apply H2; [intros [|[|i]] [|[|j]]; cbn; unfold in_s; lia..|lia].
Defined.

End MatrixProduct.

(** * Comparing faces *)

Module FaceDetect.

Record Face := { data : list Z; threshold : Z }.
#[export] Instance face_zero : Inhabited Face := populate {| data := []; threshold := 0 |}.

Section Code.
Context (NUM_FACES WORDS : nat).

(** [(a >> i) & 1] of an [int32_t]. *)
Definition hdist_scalar (a b : Z) : Z :=
  let a := Z.lxor a b in
  for_up 0 32 (fun i dist => if Z.land (Z.shiftr a (Z.of_nat i)) 1 =? 0 then dist else s32 (dist + 1)) 0.

(** [LENGTH_FACE / 32] is [WORDS]. *)
Definition hdist (face1 face2 : list Z) : Z :=
  for_up 0 WORDS (fun i dist => s32 (dist + hdist_scalar (face1 !!! i) (face2 !!! i))) 0.

Definition face_detect (faces : list Face) (target : list Z) : Z :=
  for_up 0 NUM_FACES (fun i match_found =>
    if hdist target (data (faces !!! i)) <=? threshold (faces !!! i) then 1 else match_found) 0.

(** The number of bits in which two words, and two arrays of words, differ. *)
Definition bit_distance (a b : Z) : Z := zsum 32 (fun k => Z.b2z (xorb (Z.testbit a (Z.of_nat k)) (Z.testbit b (Z.of_nat k)))).
Definition distance (x y : list Z) : Z := zsum WORDS (fun i => bit_distance (x !!! i) (y !!! i)).

End Code.

Lemma bit_zero a i : (Z.land (Z.shiftr a (Z.of_nat i)) 1 =? 0) = negb (Z.testbit a (Z.of_nat i)).
Proof.
  change 1 with (Z.ones 1). rewrite Z.land_ones by lia. change (2 ^ 1) with 2. rewrite Zmod_odd, Z.testbit_odd.
  by destruct (Z.odd _).
Qed.

(** Counting and adding up without overflow. *)
Lemma sum_loop n (body : nat -> Z -> Z) (f : nat -> Z) (b : Z) :
  (forall i d, (i < n)%nat -> body i d = s32 (d + f i) \/ (body i d = d /\ f i = 0)) ->
  (forall i, (i < n)%nat -> 0 <= f i <= b) -> Z.of_nat n * b < 2 ^ 31 -> for_up 0 n body 0 = zsum n f.
Proof.
  intros Hb Hf Hn.
  assert (forall m, (m <= n)%nat -> for_up 0 m body 0 = zsum m f /\ 0 <= zsum m f <= Z.of_nat m * b) as Hall; [|by apply (Hall n)].
  induction m as [|m IH]; intros Hm; [split; [done|cbn; lia]|]. destruct IH as [IH Hs]; [lia|]. rewrite for_up_last, IH by lia. cbn [zsum].
  specialize (Hf m ltac:(lia)). split; [|lia]. destruct (Hb m (zsum m f)) as [->|[-> ->]]; [lia| |lia].
  apply wraps_small; [done|]. unfold in_s. assert (Z.of_nat (S m) * b <= Z.of_nat n * b) by nia.
  change (2 ^ (32 - 1)) with (2 ^ 31). lia.
Qed.

Lemma hdist_scalar_spec a b : hdist_scalar a b = bit_distance a b /\ 0 <= bit_distance a b <= 32.
Proof.
  assert (forall i, 0 <= Z.b2z (xorb (Z.testbit a (Z.of_nat i)) (Z.testbit b (Z.of_nat i))) <= 1) as Hbit by (intros i; destruct (xorb _ _); cbn; lia).
  split.
  - apply (sum_loop 32 _ _ 1); [|auto|lia]. intros i d _. rewrite bit_zero, Z.lxor_spec. destruct (xorb _ _); cbn [negb Z.b2z]; [by left|by right].
  - unfold bit_distance. split; [apply zsum_nonneg; intros i _; apply Hbit|]. etrans; [apply (zsum_le 32 _ (fun _ => 1)); intros; apply Hbit|]. rewrite zsum_const. lia.
Qed.

Lemma hdist_spec WORDS x y : Z.of_nat WORDS * 32 < 2 ^ 31 -> hdist WORDS x y = distance WORDS x y.
Proof.
  intros Hw. apply (sum_loop WORDS _ _ 32); [|intros; apply hdist_scalar_spec|done]. intros i d _. left. by rewrite (proj1 (hdist_scalar_spec _ _)).
Qed.

(** A match is found exactly when some face of the database differs from the
    target in at most as many bits as its threshold says. *)
Theorem face_detect_correct NUM_FACES WORDS (faces : list Face) target :
  Z.of_nat WORDS * 32 < 2 ^ 31 ->
  (face_detect NUM_FACES WORDS faces target = 1 \/ face_detect NUM_FACES WORDS faces target = 0) /\
  (face_detect NUM_FACES WORDS faces target = 1 <->
     exists i, (i < NUM_FACES)%nat /\ distance WORDS target (data (faces !!! i)) <= threshold (faces !!! i)).
Proof.
  intros Hw. unfold face_detect.
  match goal with |- context [for_up 0 NUM_FACES ?b 0] =>
    assert (forall n, (for_up 0 n b 0 = 1 \/ for_up 0 n b 0 = 0) /\
      (for_up 0 n b 0 = 1 <-> exists i, (i < n)%nat /\ distance WORDS target (data (faces !!! i)) <= threshold (faces !!! i))) as Hall; [|apply Hall] end.
  induction n as [|n [IH0 IH1]].
  - rewrite for_up_done by lia. split; [by right|]. split; [done|]. intros (i & Hi & _). lia.
  - rewrite for_up_last, hdist_spec by (done || lia). destruct (Z.leb_spec (distance WORDS target (data (faces !!! n))) (threshold (faces !!! n))).
    + split; [by left|]. split; [|done]. intros _. exists n. split; [lia|done].
    + split; [done|]. rewrite IH1. split; intros (i & Hi & Hd); exists i; (split; [|done]); [lia|].
      destruct (decide (i = n)) as [->|]; lia.
Qed.

Lemma face_detect_correct_witness :
  (face_detect 2 1 [{| data := [255]; threshold := 3 |}; {| data := [7]; threshold := 1 |}] [15] = 1 \/
   face_detect 2 1 [{| data := [255]; threshold := 3 |}; {| data := [7]; threshold := 1 |}] [15] = 0) /\
  (face_detect 2 1 [{| data := [255]; threshold := 3 |}; {| data := [7]; threshold := 1 |}] [15] = 1 <->
     exists i, (i < 2)%nat /\ distance 1 [15] (data ([{| data := [255]; threshold := 3 |}; {| data := [7]; threshold := 1 |}] !!! i)) <=
       threshold ([{| data := [255]; threshold := 3 |}; {| data := [7]; threshold := 1 |}] !!! i)).
Proof. apply (face_detect_correct 2 1 [{| data := [255]; threshold := 3 |}; {| data := [7]; threshold := 1 |}] [15]). lia. Defined.

End FaceDetect.
