(* ===== verification/Sorting.v ===== *)
(** The sorting programs of [pepper/apps]: [merge_sort.c],
    [mergesort_benes.c], [mergesort_merkle.c] and [hybrid_sort.c].

    The array sizes are parameters.  The two programs of equal-sized blocks
    ask for a power of two. *)
From Stdlib Require Import ZArith Lia Sorting.Sorted.
From stdpp Require Import base numbers list sorting gmap.
From S2P Require Import Prelude BlockStore Ram Merge.

Local Open Scope Z_scope.

(** ** merge_sort.c *)

Module MergeSort.

Section Size.
Context (MAX_SIZE : nat).

(** The body of the two outer loops: merge two runs of [input] into
    [output] and copy them back. *)
Definition merge_runs (interval left : nat) (s : list Z * list Z) : list Z * list Z :=
  let '(input, output) := s in
  let right := (left + interval)%nat in
  let rend := (right + interval)%nat in
  let rend := if (MAX_SIZE <? rend)%nat then MAX_SIZE else rend in
  let '(output, i, j, m) :=
    for_up 0 (2 * interval)
      (fun k '(output, i, j, m) =>
         if (i <? right)%nat && (j <? rend)%nat then
           let x := input !!! i in
           let y := input !!! j in
           if x <? y then (<[(k + left)%nat := x]> output, S i, j, S m)
           else (<[(k + left)%nat := y]> output, i, S j, S m)
         else (output, i, j, m)) (output, left, right, left) in
  let '(output, i, m) :=
    for_up left right
      (fun k '(output, i, m) =>
         if (i <? right)%nat then (<[m := input !!! i]> output, S i, S m) else (output, i, m)) (output, i, m) in
  let '(output, j, m) :=
    for_up right rend
      (fun k '(output, j, m) =>
         if (j <? rend)%nat then (<[m := input !!! j]> output, S j, S m) else (output, j, m)) (output, j, m) in
  (for_up left rend (fun k input => <[k := output !!! k]> input) input, output).

(** [left + interval < MAX_SIZE] bounds the inner of the outer loops. *)
Definition compute (input output : list Z) : list Z :=
  let '(input, output) :=
    for_next 1 MAX_SIZE (fun interval => (interval * 2)%nat)
      (fun interval => for_next 0 (MAX_SIZE - interval) (fun left => (left + interval * 2)%nat) (merge_runs interval))
      (input, output) in
  for_up 0 MAX_SIZE (fun i output => <[i := input !!! i]> output) output.

(** ** Correctness *)

(** One merge: the two runs are replaced by their merge. *)
Lemma merge_runs_spec interval left input output :
  (left + interval < MAX_SIZE)%nat -> length input = MAX_SIZE -> length output = MAX_SIZE ->
  let right := (left + interval)%nat in
  let rend := Nat.min (right + interval) MAX_SIZE in
  let s := merge_runs interval left (input, output) in
  length s.1 = MAX_SIZE /\ length s.2 = MAX_SIZE /\
  slice left rend s.1 = merge (slice left right input) (slice right rend input) /\
  forall i, (i < left \/ rend <= i)%nat -> s.1 !! i = input !! i.
Proof.
  intros Hlt Hin Hout right rend. unfold merge_runs. fold right.
  assert ((if (MAX_SIZE <? right + interval)%nat then MAX_SIZE else (right + interval)%nat) = rend) as ->
    by (unfold rend; destruct (Nat.ltb_spec MAX_SIZE (right + interval)); lia).
  assert (right <= rend <= MAX_SIZE)%nat as Hrend by (unfold rend, right; lia).
  assert (left <= right)%nat as Hright by (unfold right; lia).
  match goal with |- context [for_up 0 (2 * interval) ?f ?s0] =>
    pose proof (for_up_ind (fun k '(out, i, j, m) => merging input left right rend m out i j /\
        (m = left + k \/ i = right \/ j = rend)%nat) 0 (2 * interval) f s0) as H1;
    destruct (for_up 0 (2 * interval) f s0) as [[[out1 i1] j1] m1]
  end.
  destruct H1 as [Hm1 Hstop]; [lia| | |].
  { split; [apply merging_start; [lia|congruence]|left; lia]. }
  { intros k [[[out i] j] m] Hk [Hm Hor]. pose proof (merging_l _ _ _ _ _ _ _ _ Hm). pose proof (merging_r _ _ _ _ _ _ _ _ Hm).
    destruct (Nat.ltb_spec i right), (Nat.ltb_spec j rend); cbn [andb]; try (split; [done|lia]).
    assert (k + left = m)%nat as -> by lia.
    destruct (Z.ltb_spec (input !!! i) (input !!! j)).
    - split; [apply merging_take_left; [done|lia|lia|by right]|lia].
    - split; [apply merging_take_right; [done|lia|lia|by right]|lia]. }
  assert (i1 = right \/ j1 = rend) as Hone.
  { destruct Hstop as [->|[->| ->]]; [|by left|by right]. pose proof (merging_pos _ _ _ _ _ _ _ _ Hm1).
    pose proof (merging_r _ _ _ _ _ _ _ _ Hm1). pose proof (merging_l _ _ _ _ _ _ _ _ Hm1). unfold right, rend in *. lia. }
  match goal with |- context [for_up left right ?f ?s0] =>
    pose proof (for_up_ind (fun k '(out, i, m) => merging input left right rend m out i j1 /\ (k <= i)%nat /\
        (i = right \/ j1 = rend)) left right f s0) as H2;
    destruct (for_up left right f s0) as [[out2 i2] m2]
  end.
  destruct H2 as (Hm2 & Hi2 & _); [lia| | |].
  { split; [done|]. split; [apply (merging_l _ _ _ _ _ _ _ _ Hm1)|done]. }
  { intros k [[out i] m] Hk (Hm & Hki & Hor). destruct (Nat.ltb_spec i right).
    - split; [apply merging_take_left; [done|lia|lia|left; lia]|lia].
    - split; [done|]. pose proof (merging_l _ _ _ _ _ _ _ _ Hm). lia. }
  assert (i2 = right) as -> by (pose proof (merging_l _ _ _ _ _ _ _ _ Hm2); lia).
  match goal with |- context [for_up right rend ?f ?s0] =>
    pose proof (for_up_ind (fun k '(out, j, m) => merging input left right rend m out right j /\ (k <= j)%nat)
        right rend f s0) as H3;
    destruct (for_up right rend f s0) as [[out3 j3] m3]
  end.
  destruct H3 as (Hm3 & Hj3); [lia| | |].
  { split; [done|]. apply (merging_r _ _ _ _ _ _ _ _ Hm2). }
  { intros k [[out j] m] Hk (Hm & Hkj). destruct (Nat.ltb_spec j rend).
    - split; [apply merging_take_right; [done|lia|lia|by left]|lia].
    - split; [done|]. pose proof (merging_r _ _ _ _ _ _ _ _ Hm). lia. }
  assert (m3 = rend) as ->.
  { pose proof (merging_r _ _ _ _ _ _ _ _ Hm3). pose proof (merging_pos _ _ _ _ _ _ _ _ Hm3). lia. }
  destruct (merging_done _ _ _ _ _ _ _ Hm3) as (_ & _ & Hmerged). cbn [fst snd].
  destruct (for_up_slice left rend out3 input) as [Hl Hcopy]; [lia|rewrite (merging_len _ _ _ _ _ _ _ _ Hm3); done|].
  split; [congruence|]. split; [rewrite (merging_len _ _ _ _ _ _ _ _ Hm3); done|]. split.
  - rewrite <- Hmerged. apply slice_ext. intros i Hi. rewrite Hcopy.
    by destruct (Nat.leb_spec left i), (Nat.ltb_spec i rend); try lia.
  - intros i Hi. rewrite Hcopy. destruct (Nat.leb_spec left i), (Nat.ltb_spec i rend); done || lia.
Qed.

Lemma merge_round_spec interval input0 output0 :
  (0 < interval < MAX_SIZE)%nat -> length input0 = MAX_SIZE -> length output0 = MAX_SIZE -> runs interval input0 ->
  let s := for_next 0 (MAX_SIZE - interval) (fun left => (left + interval * 2)%nat) (merge_runs interval) (input0, output0) in
  length s.1 = MAX_SIZE /\ length s.2 = MAX_SIZE /\ s.1 ≡ₚ input0 /\ runs (interval * 2) s.1.
Proof.
  intros Hint Hin Hout Hruns.
  destruct (for_next_ind (fun left s => (exists q, left = q * (2 * interval))%nat /\ length s.1 = MAX_SIZE /\ length s.2 = MAX_SIZE /\
      s.1 ≡ₚ input0 /\ (forall k, (S k * (2 * interval) <= left)%nat -> StronglySorted Z.le (slice (k * (2 * interval)) (S k * (2 * interval)) s.1)) /\
      forall i, (left <= i)%nat -> s.1 !! i = input0 !! i)
    0 (MAX_SIZE - interval) (fun left => (left + interval * 2)%nat) (merge_runs interval) (input0, output0))
    as (left & Hleft & [q ->] & Hl1 & Hl2 & Hperm & Hsorted & Hrest); [lia| | |].
  - split; [by exists O|]. split; [done|]. split; [done|]. split; [done|]. split; [lia|done].
  - intros left [input output] Hlt ([q ->] & Hl1 & Hl2 & Hperm & Hsorted & Hrest). cbn [fst snd] in *.
    destruct (merge_runs_spec interval (q * (2 * interval)) input output) as (H1 & H2 & H3 & H4); [lia|done|done|].
    set (s := merge_runs _ _ _) in *. set (left := (q * (2 * interval))%nat) in *.
    set (rend := Nat.min (left + interval + interval) MAX_SIZE) in *.
    assert (forall a b, (left <= a)%nat -> slice a b input = slice a b input0) as Hsl
      by (intros a b Ha; apply slice_ext; intros i Hi; apply Hrest; lia).
    rewrite !Hsl in H3 by lia.
    split; [exists (S q); unfold left; lia|]. split; [done|]. split; [done|]. split; [|split].
    + rewrite <- Hperm. apply (perm_middle left rend); [unfold rend, left in *; lia|congruence| |done].
      rewrite H3, merge_perm. rewrite slice_app by (unfold rend, left in *; lia). by rewrite Hsl.
    + intros k Hk. destruct (decide (S k * (2 * interval) <= left)%nat) as [Hle|Hgt].
      * rewrite (slice_ext _ _ s.1 input); [by apply Hsorted|]. intros i Hi. apply H4. lia.
      * assert (k = q) as -> by (unfold left in *; nia). fold left.
        replace (S q * (2 * interval))%nat with (left + 2 * interval)%nat by (unfold left; lia).
        rewrite slice_clip, H1. replace (Nat.min (left + 2 * interval) MAX_SIZE) with rend by (unfold rend; lia).
        rewrite H3. pose proof (runs_merge interval input0 q Hruns) as Hm. fold left in Hm.
        rewrite (slice_clip (left + interval)), Hin in Hm.
        replace (Nat.min (left + 2 * interval) MAX_SIZE) with rend in Hm by (unfold rend; lia). done.
    + intros i Hi. rewrite H4 by (unfold rend; lia). apply Hrest. lia.
  - set (s := for_next _ _ _ _ _) in *. cbv zeta. split; [done|]. split; [done|]. split; [done|]. intros k.
    replace (interval * 2)%nat with (2 * interval)%nat by lia.
    destruct (decide (k < q)%nat); [apply Hsorted; nia|]. rewrite (slice_ext _ _ s.1 input0) by (intros i Hi; apply Hrest; nia).
    assert (slice (k * (2 * interval)) (S k * (2 * interval)) input0 = slice (2 * k * interval) (S (2 * k) * interval) input0) as ->;
      [|apply Hruns].
    rewrite (slice_clip (k * _)), (slice_clip (2 * k * interval)), Hin.
    replace (2 * k * interval)%nat with (k * (2 * interval))%nat by lia.
    rewrite !Nat.min_r by nia. done.
Qed.

Lemma merge_sort_spec input output :
  length input = MAX_SIZE -> length output = MAX_SIZE ->
  StronglySorted Z.le (compute input output) /\ compute input output ≡ₚ input.
Proof.
  intros Hin Hout. unfold compute.
  match goal with |- context [for_next 1 MAX_SIZE ?next ?body (input, output)] =>
    pose proof (for_next_ind (fun interval s => (0 < interval)%nat /\ length s.1 = MAX_SIZE /\ length s.2 = MAX_SIZE /\
      s.1 ≡ₚ input /\ runs interval s.1) 1 MAX_SIZE next body (input, output)) as Hind;
    destruct (for_next 1 MAX_SIZE next body (input, output)) as [input' output']
  end.
  destruct Hind as (w & Hw & Hw0 & Hl1 & Hl2 & Hperm & Hruns); [lia| | |].
  - split; [lia|]. split; [done|]. split; [done|]. split; [done|apply runs_1].
  - intros interval [inp out] Hi (Hw0 & Hl1 & Hl2 & Hperm & Hruns). cbn [fst snd] in *.
    destruct (merge_round_spec interval inp out) as (H1 & H2 & H3 & H4); [lia|done|done|done|].
    split; [lia|]. split; [done|]. split; [done|]. split; [by rewrite H3|done].
  - cbn [fst snd] in *.
    assert (for_up 0 MAX_SIZE (fun i output => <[i := input' !!! i]> output) output' = input') as ->.
    { pose proof (for_up_fill 0 (fun i _ => input' !!! i) output' input') as Hfill. rewrite Hl1 in Hfill.
      rewrite Hfill; [|lia|done|done]. rewrite drop_ge by lia. apply app_nil_r. }
    split; [|done]. apply (runs_sorted w); [done|lia].
Qed.

(** The program sorts: its output is sorted and a permutation of its
    input, whatever the size. *)
Theorem merge_sort_correct input output :
  length input = MAX_SIZE -> length output = MAX_SIZE ->
  Sorted Z.le (compute input output) /\ compute input output ≡ₚ input.
Proof.
  intros Hin Hout. destruct (merge_sort_spec input output Hin Hout) as [Hs Hp].
  split; [by apply StronglySorted_Sorted|done].
Qed.

End Size.

Lemma merge_sort_witness :
  Sorted Z.le (compute 5 [3; 1; 4; 1; 5] (replicate 5 0)) /\ compute 5 [3; 1; 4; 1; 5] (replicate 5 0) ≡ₚ [3; 1; 4; 1; 5].
Proof. apply (merge_sort_correct 5 [3; 1; 4; 1; 5] (replicate 5 0)); reflexivity. Defined.

End MergeSort.

(** ** mergesort_benes.c *)

Module Benes.

Definition innerLoop (src : list Z) (bPtr mPtr ePtr : nat) (dst : list Z) : list Z :=
  let '(dst, _, _) :=
    for_up bPtr ePtr
      (fun i '(dst, lPtr, rPtr) =>
         if (lPtr <? mPtr)%nat && (negb (rPtr <? ePtr)%nat || (src !!! lPtr <? src !!! rPtr))
         then (<[i := src !!! lPtr]> dst, S lPtr, rPtr)
         else (<[i := src !!! rPtr]> dst, lPtr, S rPtr)) (dst, bPtr, mPtr) in
  dst.

Section Size.
Context (MAX_SIZE : nat).

(** One round: [out2in] says which array is read. *)
Definition round (span : nat) (s : list Z * list Z * bool) : list Z * list Z * bool :=
  let '(input, output, out2in) := s in
  let '(input, output) :=
    for_next 0 MAX_SIZE (fun bPtr => (bPtr + 2 * span)%nat)
      (fun bPtr '(input, output) =>
         let mPtr := (bPtr + span)%nat in
         let ePtr := (mPtr + span)%nat in
         if out2in : bool then (innerLoop output bPtr mPtr ePtr input, output)
         else (input, innerLoop input bPtr mPtr ePtr output)) (input, output) in
  (input, output, negb out2in).

Definition compute (input output : list Z) : list Z :=
  let '(input, output, out2in) :=
    for_next 1 MAX_SIZE (fun span => (span * 2)%nat) round (input, output, false) in
  if negb out2in then for_up 0 MAX_SIZE (fun i output => <[i := input !!! i]> output) output else output.

(** ** Correctness *)

Lemma innerLoop_spec src dst b m e :
  (b <= m <= e)%nat -> (e <= length src)%nat -> length dst = length src ->
  let dst' := innerLoop src b m e dst in
  length dst' = length src /\ slice b e dst' = merge (slice b m src) (slice m e src) /\
  forall i, (i < b \/ e <= i)%nat -> dst' !! i = dst !! i.
Proof.
  intros Hbe He Hlen. unfold innerLoop.
  match goal with |- context [for_up b e ?f ?s0] =>
    pose proof (for_up_ind (fun i '(d, l, r) => merging src b m e i d l r /\
      forall k, (k < b \/ e <= k)%nat -> d !! k = dst !! k) b e f s0) as Hind;
    destruct (for_up b e f s0) as [[dst' lf] rf]
  end.
  destruct Hind as [Hm Hout]; [lia| | |].
  - split; [by apply merging_start|done].
  - intros i [[d l] r] Hi [Hm Hout]. pose proof (merging_l _ _ _ _ _ _ _ _ Hm) as Hl.
    pose proof (merging_r _ _ _ _ _ _ _ _ Hm) as Hr. pose proof (merging_pos _ _ _ _ _ _ _ _ Hm) as Hpos.
    assert (forall x k, (k < b \/ e <= k)%nat -> <[i := x]> d !! k = dst !! k) as Hins.
    { intros x k Hk. rewrite list_lookup_insert_ne by lia. by apply Hout. }
    destruct (Nat.ltb_spec l m), (Nat.ltb_spec r e), (Z.ltb_spec (src !!! l) (src !!! r)); cbn [andb orb negb];
      (split; [|apply Hins]); solve [apply merging_take_left; (done || lia)|apply merging_take_right; (done || lia)].
  - destruct (merging_done _ _ _ _ _ _ _ Hm) as (_ & _ & Heq). split; [apply (merging_len _ _ _ _ _ _ _ _ Hm)|done].
Qed.

(** A round merges all pairs of runs. *)
Lemma pass_spec span src dst c :
  length src = MAX_SIZE -> length dst = MAX_SIZE -> (0 < span)%nat -> MAX_SIZE = (c * (2 * span))%nat -> runs span src ->
  let dst' := for_next 0 MAX_SIZE (fun b => (b + 2 * span)%nat) (fun b => innerLoop src b (b + span) (b + span + span)) dst in
  length dst' = MAX_SIZE /\ dst' ≡ₚ src /\ runs (span * 2) dst'.
Proof.
  intros Hls Hld Hspan Hc Hruns.
  destruct (for_next_ind (fun b d => exists q, b = (q * (2 * span))%nat /\ length d = MAX_SIZE /\
      forall k, (k < q)%nat -> slice (k * (2 * span)) (S k * (2 * span)) d
        = merge (slice (k * (2 * span)) (k * (2 * span) + span) src) (slice (k * (2 * span) + span) (k * (2 * span) + 2 * span) src))
    0 MAX_SIZE (fun b => (b + 2 * span)%nat) (fun b => innerLoop src b (b + span) (b + span + span)) dst)
    as (b & Hb & q & -> & Hl & Hk); [lia|exists O; split; [done|]; split; [done|lia]| |].
  - intros b d Hb (q & -> & Hl & Hk).
    assert (q * (2 * span) + span + span <= length src)%nat as Hfit.
    { assert (q < c)%nat by (apply (Nat.mul_lt_mono_pos_r (2 * span)); lia).
      pose proof (Nat.mul_le_mono_r (S q) c (2 * span) ltac:(lia)). lia. }
    destruct (innerLoop_spec src d (q * (2 * span)) (q * (2 * span) + span) (q * (2 * span) + span + span))
      as (H1 & H2 & H3); [lia|done|congruence|].
    exists (S q). split; [lia|]. split; [congruence|]. intros k Hkq. destruct (decide (k = q)) as [->|].
    + replace (S q * (2 * span))%nat with (q * (2 * span) + span + span)%nat by lia.
      replace (q * (2 * span) + 2 * span)%nat with (q * (2 * span) + span + span)%nat by lia. exact H2.
    + rewrite <- Hk by lia. apply slice_ext. intros i Hi. apply H3. left. nia.
  - set (d := for_next _ _ _ _ _) in *. cbv zeta. split; [done|]. split.
    + cut (forall k, (k <= c)%nat -> slice 0 (k * (2 * span)) d ≡ₚ slice 0 (k * (2 * span)) src).
      { intros Hp. specialize (Hp c (le_n _)). rewrite !slice_full in Hp by lia. done. }
      induction k as [|k IH]; intros Hkc; [done|].
      rewrite <- (slice_app 0 (k * (2 * span)) _ d), <- (slice_app 0 (k * (2 * span)) _ src) by lia.
      rewrite IH by lia. apply Permutation_app_head. rewrite Hk by nia. rewrite merge_perm, slice_app by lia.
      by replace (k * (2 * span) + 2 * span)%nat with (S k * (2 * span))%nat by lia.
    + intros k. replace (span * 2)%nat with (2 * span)%nat by lia. destruct (decide (k < c)%nat).
      * rewrite Hk by nia. by apply runs_merge.
      * unfold slice. rewrite drop_ge, take_nil by nia. constructor.
Qed.

Definition power_of_two : Prop := exists p, MAX_SIZE = (2 ^ p)%nat.

(** Where the data is before a round of runs of length [span]. *)
Definition sorting (input0 : list Z) (span : nat) (s : list Z * list Z * bool) : Prop :=
  let '(input, output, out2in) := s in
  let src := if out2in : bool then output else input in
  (exists q, span = (2 ^ q)%nat) /\ length input = MAX_SIZE /\ length output = MAX_SIZE /\ src ≡ₚ input0 /\ runs span src.

Lemma benes_round_spec input0 span s :
  power_of_two -> (span < MAX_SIZE)%nat -> sorting input0 span s -> sorting input0 (span * 2) (round span s).
Proof.
  intros [p Hp] Hspan. destruct s as [[input output] out2in]. intros ((q & Hq) & Hli & Hlo & Hperm & Hruns).
  assert (0 < span)%nat as H0 by (rewrite Hq; pose proof (Nat.pow_nonzero 2 q); lia).
  assert (exists c, MAX_SIZE = (c * (2 * span))%nat) as [c Hc].
  { exists (2 ^ (p - S q))%nat. rewrite Hp, Hq. rewrite <- Nat.pow_succ_r', <- Nat.pow_add_r. f_equal.
    assert (q < p)%nat by (apply (Nat.pow_lt_mono_r_iff 2); lia). lia. }
  unfold round. destruct out2in.
  - rewrite (for_next_pair_l 0 MAX_SIZE _ (fun b i o => (innerLoop o b (b + span) (b + span + span) i, o))
      (fun b => innerLoop output b (b + span) (b + span + span))) by done.
    destruct (pass_spec span output input c) as (H1 & H2 & H3); [done..|].
    split; [exists (S q); rewrite Hq, Nat.pow_succ_r'; lia|]. split; [done|]. split; [done|]. cbn. split; [by rewrite H2|done].
  - rewrite (for_next_pair_r 0 MAX_SIZE _ (fun b i o => (i, innerLoop i b (b + span) (b + span + span) o))
      (fun b => innerLoop input b (b + span) (b + span + span))) by done.
    destruct (pass_spec span input output c) as (H1 & H2 & H3); [done..|].
    split; [exists (S q); rewrite Hq, Nat.pow_succ_r'; lia|]. split; [done|]. split; [done|]. cbn. split; [by rewrite H2|done].
Qed.

(** The rounds end with one run, in the array that would be read next. *)
Lemma rounds_spec input output :
  power_of_two -> length input = MAX_SIZE -> length output = MAX_SIZE ->
  let '(input', output', out2in) :=
    for_next 1 MAX_SIZE (fun span => (span * 2)%nat) round (input, output, false) in
  let src := if out2in : bool then output' else input' in
  length input' = MAX_SIZE /\ length output' = MAX_SIZE /\ StronglySorted Z.le src /\ src ≡ₚ input.
Proof.
  intros Hp Hin Hout.
  pose proof (for_next_ind (sorting input) 1 MAX_SIZE (fun span => (span * 2)%nat) round (input, output, false)) as Hind.
  destruct (for_next 1 MAX_SIZE _ round _) as [[input' output'] out2in].
  destruct Hind as (w & Hw & (_ & Hli & Hlo & Hperm & Hruns)); [lia| | |].
  - split; [by exists O|]. split; [done|]. split; [done|]. split; [done|apply runs_1].
  - intros span s Hs. apply benes_round_spec; [done|lia].
  - split; [done|]. split; [done|]. split; [|done]. apply (runs_sorted w); [done|]. destruct out2in; lia.
Qed.

Lemma benes_spec input output :
  power_of_two -> length input = MAX_SIZE -> length output = MAX_SIZE ->
  StronglySorted Z.le (compute input output) /\ compute input output ≡ₚ input.
Proof.
  intros Hp Hin Hout. pose proof (rounds_spec input output Hp Hin Hout) as Hr. unfold compute.
  destruct (for_next 1 MAX_SIZE _ round _) as [[input' output'] out2in]. destruct Hr as (Hli & Hlo & Hs & Hperm).
  destruct out2in; [done|]. cbn [negb].
  assert (for_up 0 MAX_SIZE (fun i output => <[i := input' !!! i]> output) output' = input') as ->; [|done].
  pose proof (for_up_fill 0 (fun i _ => input' !!! i) output' input') as Hfill. rewrite Hli in Hfill.
  rewrite Hfill; [|lia|done|done]. rewrite drop_ge by lia. apply app_nil_r.
Qed.

End Size.
End Benes.

(** ** mergesort_merkle.c *)

Module Merkle.

Section Size.
Context {R : Ram Z} {L : RamLaws Z} (MAX_SIZE : nat).

(** One element: both candidates are read, at addresses held within the
    memory, and the smaller one is written. *)
Definition step (mPtr ePtr inOffset outOffset i : nat) (s : ram Z * nat * nat * Z * Z) : ram Z * nat * nat * Z * Z :=
  let '(m, lPtr, rPtr, tmp1, tmp2) := s in
  let lPtrLim := (lPtr + inOffset)%nat in
  let lPtrLim := if (2 * MAX_SIZE <=? lPtrLim)%nat then (2 * MAX_SIZE - 1)%nat else lPtrLim in
  let rPtrLim := (rPtr + inOffset)%nat in
  let rPtrLim := if (2 * MAX_SIZE <=? rPtrLim)%nat then (2 * MAX_SIZE - 1)%nat else rPtrLim in
  let tmp1 := ramget (Z.of_nat lPtrLim) tmp1 m in
  let tmp2 := ramget (Z.of_nat rPtrLim) tmp2 m in
  if (lPtr <? mPtr)%nat && (negb (rPtr <? ePtr)%nat || (tmp1 <? tmp2))
  then (ramput (Z.of_nat (i + outOffset)) tmp1 m, S lPtr, rPtr, tmp1, tmp1)
  else (ramput (Z.of_nat (i + outOffset)) tmp2 m, lPtr, S rPtr, tmp1, tmp2).

(** The memory, the two temporaries and the two offsets. *)
Definition round (span : nat) (s : ram Z * Z * Z * nat * nat) : ram Z * Z * Z * nat * nat :=
  let '(m, tmp1, tmp2, inOffset, outOffset) := s in
  let '(m, tmp1, tmp2) :=
    for_next 0 MAX_SIZE (fun bPtr => (bPtr + 2 * span)%nat)
      (fun bPtr '(m, tmp1, tmp2) =>
         let mPtr := (bPtr + span)%nat in
         let ePtr := (mPtr + span)%nat in
         let '(m, _, _, tmp1, tmp2) := for_up bPtr ePtr (step mPtr ePtr inOffset outOffset) (m, bPtr, mPtr, tmp1, tmp2) in
         (m, tmp1, tmp2)) (m, tmp1, tmp2) in
  (m, tmp1, tmp2, outOffset, inOffset).

Definition compute (input output : list Z) (tmp1 tmp2 : Z) (m : ram Z) : list Z :=
  let m := for_up 0 MAX_SIZE (fun i m => ramput (Z.of_nat i) (input !!! i) m) m in
  let '(m, _, _, inOffset, _) :=
    for_next 1 MAX_SIZE (fun span => (span * 2)%nat) round (m, tmp1, tmp2, O, MAX_SIZE) in
  for_up 0 MAX_SIZE (fun i output => <[i := ramget (Z.of_nat (i + inOffset)) (output !!! i) m]> output) output.

(** ** The memory holds the two arrays of mergesort_benes.c *)

Definition holds (offset : nat) (a : list Z) (m : ram Z) : Prop :=
  length a = MAX_SIZE /\ forall i old, (i < MAX_SIZE)%nat -> ramget (Z.of_nat (i + offset)) old m = a !!! i.

Context (Haddr : forall i, (i < 2 * MAX_SIZE)%nat -> ram_addr (Z.of_nat i) = true).

Definition offsets (a b : nat) : Prop := (a = O /\ b = MAX_SIZE) \/ (a = MAX_SIZE /\ b = O).

Lemma holds_put offset other a b i x m :
  offsets offset other -> holds offset a m -> holds other b m -> (i < MAX_SIZE)%nat ->
  holds offset a (ramput (Z.of_nat (i + other)) x m) /\ holds other (<[i := x]> b) (ramput (Z.of_nat (i + other)) x m).
Proof.
  intros Hoff [Hla Ha] [Hlb Hb] Hi. split; (split; [rewrite ?length_insert; done|]); intros k old Hk.
  - rewrite ramget_put_other by (destruct Hoff; lia). by apply Ha.
  - destruct (decide (k = i)) as [->|Hne].
    + rewrite list_lookup_total_insert_eq by lia. apply ramget_put_same, Haddr. destruct Hoff; lia.
    + rewrite list_lookup_total_insert_ne, ramget_put_other by lia. by apply Hb.
Qed.

Lemma inner_spec inO outO src dst b span m tmp1 tmp2 :
  offsets inO outO -> holds inO src m -> holds outO dst m -> (b + span + span <= MAX_SIZE)%nat ->
  let '(m', _, _, _, _) := for_up b (b + span + span) (step (b + span) (b + span + span) inO outO) (m, b, (b + span)%nat, tmp1, tmp2) in
  holds inO src m' /\ holds outO (Benes.innerLoop src b (b + span) (b + span + span) dst) m'.
Proof.
  intros Hoff Hsrc Hdst Hfit. unfold Benes.innerLoop.
  set (mid := (b + span)%nat). set (e := (mid + span)%nat).
  match goal with |- context [for_up b e (step mid e inO outO) ?s0] => set (s1 := s0) end.
  match goal with |- context [for_up b e ?f (dst, b, mid)] => set (body := f) end.
  cut (forall i, (b <= i <= e)%nat ->
    let '(m', l, r, _, _) := for_up b i (step mid e inO outO) s1 in
    exists d, for_up b i body (dst, b, mid) = (d, l, r) /\ holds inO src m' /\ holds outO d m' /\
      (l + r = i + mid)%nat /\ (l <= mid)%nat /\ (r <= e)%nat).
  { intros Hall. specialize (Hall e ltac:(unfold e, mid; lia)). destruct (for_up b e (step mid e inO outO) s1) as [[[[m' l] r] t1] t2].
    destruct Hall as (d & -> & H1 & H2 & _). done. }
  induction i as [|i IH]; intros Hi.
  { assert (b = O) as -> by lia. rewrite !for_up_done by lia. exists dst. split; [done|]. split; [done|]. split; [done|]. lia. }
  destruct (decide (S i = b)) as [<-|Hne].
  { rewrite !for_up_done by lia. exists dst. split; [done|]. split; [done|]. split; [done|]. unfold e. lia. }
  rewrite !for_up_last by lia. specialize (IH ltac:(lia)).
  destruct (for_up b i (step mid e inO outO) s1) as [[[[m' l] r] t1] t2].
  destruct IH as (d & -> & H1 & H2 & Hpos & Hl & Hr). unfold step, body.
  assert (e <= MAX_SIZE)%nat as He by (unfold e, mid; lia).
  assert (forall k, (k < e)%nat -> (2 * MAX_SIZE <=? k + inO)%nat = false) as Hlim
    by (intros k Hk; apply Nat.leb_gt; destruct Hoff; lia).
  destruct H1 as [Hls H1]. pose proof (conj Hls H1 : holds inO src m') as H1'.
  destruct (Nat.ltb_spec l mid) as [Hlm|Hlm], (Nat.ltb_spec r e) as [Hre|Hre]; cbn [andb orb negb].
  - rewrite !Hlim, !H1 by lia. destruct (src !!! l <? src !!! r).
    + destruct (holds_put inO outO src d i (src !!! l) m' Hoff H1' H2) as [? ?]; [lia|].
      eexists; split; [reflexivity|]. split; [done|]. split; [done|]. lia.
    + destruct (holds_put inO outO src d i (src !!! r) m' Hoff H1' H2) as [? ?]; [lia|].
      eexists; split; [reflexivity|]. split; [done|]. split; [done|]. lia.
  - rewrite (Hlim l), (H1 l) by lia.
    destruct (holds_put inO outO src d i (src !!! l) m' Hoff H1' H2) as [? ?]; [lia|].
    eexists; split; [reflexivity|]. split; [done|]. split; [done|]. lia.
  - rewrite (Hlim r), (H1 r) by lia.
    destruct (holds_put inO outO src d i (src !!! r) m' Hoff H1' H2) as [? ?]; [lia|].
    eexists; split; [reflexivity|]. split; [done|]. split; [done|]. lia.
  - lia.
Qed.

(** The rounds of the two programs keep in step. *)
Definition same (s : ram Z * Z * Z * nat * nat) (t : list Z * list Z * bool) : Prop :=
  let '(m, _, _, inOffset, outOffset) := s in
  let '(input, output, out2in) := t in
  offsets inOffset outOffset /\ out2in = (inOffset =? MAX_SIZE)%nat /\
  holds inOffset (if out2in : bool then output else input) m /\ holds outOffset (if out2in : bool then input else output) m.

Lemma round_same span s t c :
  (0 < span)%nat -> MAX_SIZE = (c * (2 * span))%nat -> (0 < c)%nat ->
  same s t -> same (round span s) (Benes.round MAX_SIZE span t).
Proof.
  intros Hspan Hc Hc0. destruct s as [[[[m t1] t2] inO] outO], t as [[input output] out2in].
  intros (Hoff & Ho & Hin & Hout). unfold round, Benes.round.
  set (src := if out2in : bool then output else input) in *. set (dst := if out2in : bool then input else output) in *.
  assert (let '(m', _, _) := for_next 0 MAX_SIZE (fun b => (b + 2 * span)%nat)
      (fun b '(m, tmp1, tmp2) =>
         let mPtr := (b + span)%nat in let ePtr := (mPtr + span)%nat in
         let '(m, _, _, tmp1, tmp2) := for_up b ePtr (step mPtr ePtr inO outO) (m, b, mPtr, tmp1, tmp2) in (m, tmp1, tmp2))
      (m, t1, t2) in
    holds inO src m' /\ holds outO (for_next 0 MAX_SIZE (fun b => (b + 2 * span)%nat)
      (fun b => Benes.innerLoop src b (b + span) (b + span + span)) dst) m') as Hpass.
  { assert (forall k q, (q * (2 * span) + k = MAX_SIZE)%nat -> forall d m t1 t2, holds inO src m -> holds outO d m ->
      let '(m', _, _) := for_next (q * (2 * span)) MAX_SIZE (fun b => (b + 2 * span)%nat)
      (fun b '(m, tmp1, tmp2) =>
         let mPtr := (b + span)%nat in let ePtr := (mPtr + span)%nat in
         let '(m, _, _, tmp1, tmp2) := for_up b ePtr (step mPtr ePtr inO outO) (m, b, mPtr, tmp1, tmp2) in (m, tmp1, tmp2))
      (m, t1, t2) in
      holds inO src m' /\ holds outO (for_next (q * (2 * span)) MAX_SIZE (fun b => (b + 2 * span)%nat)
        (fun b => Benes.innerLoop src b (b + span) (b + span + span)) d) m') as Hall.
    { induction k as [k IH] using lt_wf_ind. intros q Hk d m0 u1 u2 H1 H2.
      destruct (decide (k = O)) as [->|Hk0]; [rewrite !for_next_done by lia; done|].
      assert (q < c)%nat by (apply (Nat.mul_lt_mono_pos_r (2 * span)); lia).
      pose proof (Nat.mul_le_mono_r (S q) c (2 * span) ltac:(lia)) as Hq.
      rewrite (for_next_step (q * (2 * span)) MAX_SIZE _ (fun b '(m, tmp1, tmp2) => _)) by lia.
      rewrite (for_next_step (q * (2 * span)) MAX_SIZE _ (fun b => Benes.innerLoop _ _ _ _)) by lia.
      cbv zeta. pose proof (inner_spec inO outO src d (q * (2 * span)) span m0 u1 u2 Hoff H1 H2 ltac:(lia)) as Hinner.
      destruct (for_up _ _ (step _ _ inO outO) _) as [[[[m' l] r] v1] v2]. destruct Hinner as [H3 H4].
      replace (q * (2 * span) + 2 * span)%nat with (S q * (2 * span))%nat by lia.
      apply (IH (k - 2 * span)%nat); [lia|lia|done|done]. }
    apply (Hall MAX_SIZE O); [lia|done|done]. }
  destruct (for_next 0 MAX_SIZE _ (fun b '(m, tmp1, tmp2) => _) (m, t1, t2)) as [[m' v1] v2]. destruct Hpass as [H1 H2].
  assert (MAX_SIZE <> O) as Hne by nia.
  destruct out2in.
  - rewrite (for_next_pair_l 0 MAX_SIZE _ (fun b i o => (Benes.innerLoop o b (b + span) (b + span + span) i, o))
      (fun b => Benes.innerLoop output b (b + span) (b + span + span))) by done.
    symmetry in Ho. apply Nat.eqb_eq in Ho. cbn [negb].
    split; [destruct Hoff as [[? ?]|[? ?]]; [right|left]; lia|].
    split; [symmetry; apply Nat.eqb_neq; destruct Hoff; lia|]. done.
  - rewrite (for_next_pair_r 0 MAX_SIZE _ (fun b i o => (i, Benes.innerLoop i b (b + span) (b + span + span) o))
      (fun b => Benes.innerLoop input b (b + span) (b + span + span))) by done.
    symmetry in Ho. apply Nat.eqb_neq in Ho. cbn [negb].
    split; [destruct Hoff as [[? ?]|[? ?]]; [right|left]; lia|].
    split; [symmetry; apply Nat.eqb_eq; destruct Hoff; lia|]. done.
Qed.

(** The two programs compute the same. *)
Lemma compute_same input output tmp1 tmp2 m :
  Benes.power_of_two MAX_SIZE -> length input = MAX_SIZE -> length output = MAX_SIZE ->
  exists out0', length out0' = MAX_SIZE /\ compute input output tmp1 tmp2 m = Benes.compute MAX_SIZE input out0'.
Proof.
  intros [p Hp] Hin Hout. unfold compute, Benes.compute.
  set (m1 := for_up 0 MAX_SIZE _ m).
  set (dst := tabulate MAX_SIZE (fun i => ramget (Z.of_nat (i + MAX_SIZE)) 0 m1)).
  assert (MAX_SIZE <> O) as Hne by (rewrite Hp; by apply Nat.pow_nonzero).
  assert (holds O input m1) as Hm1.
  { split; [done|]. intros i old Hi. rewrite Nat.add_0_r. apply (store_array_get O MAX_SIZE input old m i Hi).
    intros k Hk. apply Haddr. cbn. lia. }
  assert (holds MAX_SIZE dst m1) as Hm2.
  { split; [apply tabulate_length|]. intros i old Hi. unfold dst. rewrite tabulate_lookup by done.
    apply ramget_old, Haddr. lia. }
  exists dst. split; [apply tabulate_length|].
  destruct (for_next_rel (fun span s t => (exists q, span = 2 ^ q)%nat /\ same s t) 1 MAX_SIZE (fun span => (span * 2)%nat)
    round (Benes.round MAX_SIZE) (m1, tmp1, tmp2, O, MAX_SIZE) (input, dst, false)) as (w & Hw & _ & Hsame).
  - lia.
  - split; [by exists O|]. split; [by left|]. split; [symmetry; apply Nat.eqb_neq; lia|]. done.
  - intros span s t Hspan [[q Hq] Hsame]. split; [exists (S q); rewrite Hq, Nat.pow_succ_r'; lia|].
    assert (q < p)%nat by (apply (Nat.pow_lt_mono_r_iff 2); lia).
    apply (round_same span s t (2 ^ (p - S q))%nat); [lia| |apply Nat.neq_0_lt_0; by apply Nat.pow_nonzero|done].
    rewrite Hp, Hq, <- Nat.pow_succ_r', <- Nat.pow_add_r. f_equal. lia.
  - destruct (for_next 1 MAX_SIZE _ round _) as [[[[m' v1] v2] inO] outO].
    pose proof (Benes.rounds_spec MAX_SIZE input dst (ex_intro _ p Hp) Hin (tabulate_length _ _)) as Hlen.
    destruct (for_next 1 MAX_SIZE _ (Benes.round MAX_SIZE) _) as [[input' output'] out2in].
    destruct Hsame as (_ & _ & [Hl Hread] & _). destruct Hlen as (Hl1 & Hl2 & _).
    set (src := if out2in : bool then output' else input') in *.
    assert (for_up 0 MAX_SIZE (fun i output => <[i := ramget (Z.of_nat (i + inO)) (output !!! i) m']> output) output = src) as ->.
    { pose proof (for_up_fill 0 (fun i o => ramget (Z.of_nat (i + inO)) (o !!! i) m') output src) as Hfill. rewrite Hl in Hfill.
      rewrite Hfill; [rewrite drop_ge by lia; apply app_nil_r|lia|done|]. intros i l' Hi _ _. apply Hread. lia. }
    unfold src. destruct out2in; [done|]. cbn [negb].
    pose proof (for_up_fill 0 (fun i _ => input' !!! i) output' input') as Hfill. rewrite Hl1 in Hfill.
    rewrite Hfill; [|lia|done|done]. rewrite drop_ge by lia. symmetry. apply app_nil_r.
Qed.

End Size.
End Merkle.

(** Sorted lists that are permutations of each other are equal. *)
Lemma sorted_unique (l l' : list Z) : StronglySorted Z.le l -> StronglySorted Z.le l' -> l ≡ₚ l' -> l = l'.
Proof.
  intros Hl. revert l'. induction Hl as [|x l Hl IH Hx]; intros l' Hl' Hp; [symmetry; by apply Permutation_nil|].
  destruct l' as [|y l']; [by apply Permutation_sym, Permutation_nil_cons in Hp|].
  apply StronglySorted_inv in Hl' as [Hl' Hy]. rewrite Forall_forall in Hx, Hy.
  assert (x = y) as ->.
  { assert (x ∈ y :: l') as Hin by (rewrite <- Hp; left).
    assert (y ∈ x :: l) as Hin' by (rewrite Hp; left).
    apply elem_of_cons in Hin as [?|Hin], Hin' as [?|Hin']; [done..|]. specialize (Hx _ Hin'). specialize (Hy _ Hin). lia. }
  f_equal. apply IH; [done|]. by apply Permutation_cons_inv in Hp.
Qed.

(** C23: For a power of two the sort in memory, the double-buffered sort and
    the sort in place return the same array, which is sorted and a
    permutation of the input. *)
Theorem merge_sorts_agree {R : Ram Z} {L : RamLaws Z} MAX_SIZE input output output' output'' tmp1 tmp2 (m : ram Z) :
  Benes.power_of_two MAX_SIZE -> length input = MAX_SIZE ->
  length output = MAX_SIZE -> length output' = MAX_SIZE -> length output'' = MAX_SIZE ->
  (forall i, (i < 2 * MAX_SIZE)%nat -> ram_addr (Z.of_nat i) = true) ->
  let sorted := Merkle.compute MAX_SIZE input output tmp1 tmp2 m in
  Sorted Z.le sorted /\ sorted ≡ₚ input /\
  Benes.compute MAX_SIZE input output' = sorted /\ MergeSort.compute MAX_SIZE input output'' = sorted.
Proof.
  intros Hp Hin Ho Ho' Ho'' Haddr sorted. unfold sorted.
  destruct (Merkle.compute_same MAX_SIZE Haddr input output tmp1 tmp2 m Hp Hin Ho) as (out0 & Hlen & ->).
  destruct (Benes.benes_spec MAX_SIZE input out0 Hp Hin Hlen) as [Hs1 Hp1].
  destruct (Benes.benes_spec MAX_SIZE input output' Hp Hin Ho') as [Hs2 Hp2].
  destruct (MergeSort.merge_sort_spec MAX_SIZE input output'' Hin Ho'') as [Hs3 Hp3].
  split; [by apply StronglySorted_Sorted|]. split; [done|].
  split; apply sorted_unique; try done; [by rewrite Hp2|by rewrite Hp3].
Qed.

Lemma merge_sorts_witness :
  let sorted := Merkle.compute 4 [3; 1; 4; 1] [0; 0; 0; 0] 0 0 (∅ : gmap Z Z) in
  Sorted Z.le sorted /\ sorted ≡ₚ [3; 1; 4; 1] /\
  Benes.compute 4 [3; 1; 4; 1] [0; 0; 0; 0] = sorted /\ MergeSort.compute 4 [3; 1; 4; 1] [0; 0; 0; 0] = sorted.
Proof.
  apply (merge_sorts_agree (R := MapRam Z) 4 [3; 1; 4; 1] [0; 0; 0; 0] [0; 0; 0; 0] [0; 0; 0; 0] 0 0 ∅);
    [by exists 2%nat|reflexivity..].
Defined.

(** ** hybrid_sort.c *)

Module Hybrid.

Definition SORT_INSERTION : Z := 0.
Definition SORT_RADIX : Z := 1.
Definition SORT_MODE : Z := SORT_RADIX.

Definition test_bit (a : Z) (i : Z) : Z := Z.land (Z.shiftr a i) 1.

Section Size.
Context (SIZE : nat).

(** Inserts element [i] among the ones before it: [b] is written from [a]. *)
Definition insert_round (i : nat) (s : list Z * list Z) : list Z * list Z :=
  let '(a, b) := s in
  let '(b, inserted) :=
    for_up 0 i
      (fun j '(b, inserted) =>
         if b !!! i <? b !!! j
         then if inserted : bool then (<[j := a !!! (j - 1)%nat]> b, inserted) else (<[j := a !!! i]> b, true)
         else (<[j := a !!! j]> b, inserted)) (b, false) in
  let b := if inserted : bool then <[i := a !!! (i - 1)%nat]> b else <[i := a !!! i]> b in
  (for_up 0 SIZE (fun j a => <[j := b !!! j]> a) a, b).

Definition insertion_sort (a b : list Z) : list Z :=
  let b := for_up 0 SIZE (fun i b => <[i := a !!! i]> b) b in
  let '(a, b) := for_up 0 SIZE insert_round (a, b) in
  for_up 0 SIZE (fun i output => <[i := b !!! i]> output) b.

Section Radix.
Context {BS : BlockStore LinkedList.list_t}.

Definition list_to_arr (a : list Z) (l : hash_t) (num : nat) (σ : store LinkedList.list_t) : res (list Z) :=
  '(a, _) ← for_upM 0 num
    (fun i '(a, l) => data ← hashget l σ; Ok (<[i := LinkedList.value data]> a, LinkedList.next data)) (a, l);
  Ok a.

(** The loop over the bits is commented out; what is left builds a list of
    the elements and reads it back.  [l] is the variable [list], which is
    not initialised. *)
Definition radix_sort (a output : list Z) (l : hash_t) (σ : store LinkedList.list_t) : res (list Z) :=
  let '(l, σ) := for_up 0 SIZE (fun i '(l, σ) => LinkedList.prepend (a !!! i) l σ) (l, σ) in
  a ← list_to_arr a l SIZE σ;
  Ok (for_up 0 SIZE (fun i output => <[i := a !!! i]> output) output).

Definition compute (mode : Z) (input output : list Z) (l : hash_t) (σ : store LinkedList.list_t) : res (list Z) :=
  output ← (if mode =? SORT_INSERTION then Ok (insertion_sort input output) else Ok output);
  if mode =? SORT_RADIX then radix_sort input output l σ else Ok output.
End Radix.

(** *** Insertion sort *)

Lemma copy_all (src dst : list Z) :
  length src = SIZE -> length dst = SIZE -> for_up 0 SIZE (fun i dst => <[i := src !!! i]> dst) dst = src.
Proof.
  intros Hs Hd. pose proof (for_up_fill 0 (fun i _ => src !!! i) dst src) as Hfill. rewrite Hs in Hfill.
  rewrite Hfill; [|lia|done|done]. rewrite drop_ge by lia. apply app_nil_r.
Qed.

Lemma sorted_le (l : list Z) i j :
  StronglySorted Z.le l -> (i <= j < length l)%nat -> l !!! i <= l !!! j.
Proof.
  intros Hl. revert i j. induction Hl as [|x l Hl IH Hx]; intros i j Hij; [cbn in Hij; lia|].
  destruct i as [|i], j as [|j]; try lia; cbn in Hij.
  - change ((x :: l) !!! O) with x. change ((x :: l) !!! S j) with (l !!! j).
    apply (Forall_lookup_1 _ _ j _ Hx). apply list_lookup_lookup_total_lt. lia.
  - change ((x :: l) !!! S i) with (l !!! i). change ((x :: l) !!! S j) with (l !!! j). apply IH. lia.
Qed.

(** [b] is [a] with element [i] moved to place [p], as far as index [j]. *)
Definition moved (a b : list Z) (i p j : nat) : Prop :=
  length b = length a /\
  forall k, b !!! k = if (k <? p)%nat then a !!! k else if (k =? p)%nat then a !!! i
                      else if (k <? j)%nat then a !!! (k - 1)%nat else a !!! k.

Lemma insert_loop a i :
  (i < length a)%nat -> StronglySorted Z.le (slice 0 i a) ->
  let '(b, inserted) := for_up 0 i
      (fun j '(b, inserted) =>
         if b !!! i <? b !!! j
         then if inserted : bool then (<[j := a !!! (j - 1)%nat]> b, inserted) else (<[j := a !!! i]> b, true)
         else (<[j := a !!! j]> b, inserted)) (a, false) in
  if inserted : bool
  then exists p, (p < i)%nat /\ (forall k, (k < p)%nat -> a !!! k <= a !!! i) /\ a !!! i < a !!! p /\ moved a b i p i
  else b = a /\ forall k, (k < i)%nat -> a !!! k <= a !!! i.
Proof.
  intros Hi Hs.
  assert (forall j k, (j <= k < i)%nat -> a !!! j <= a !!! k) as Hle.
  { intros j k Hjk. pose proof (sorted_le _ j k Hs) as H. rewrite slice_length in H by lia.
    assert (forall n, (n < i)%nat -> slice 0 i a !!! n = a !!! n) as Hn.
    { intros n Hn. unfold slice. rewrite drop_0, !list_lookup_total_alt. f_equal. apply lookup_take_lt. lia. }
    rewrite !Hn in H by lia. apply H. lia. }
  match goal with |- context [for_up 0 i ?f (a, false)] =>
    pose proof (for_up_ind (fun j '(b, inserted) => if inserted : bool
      then exists p, (p < j)%nat /\ (forall k, (k < p)%nat -> a !!! k <= a !!! i) /\ a !!! i < a !!! p /\ moved a b i p j
      else b = a /\ forall k, (k < j)%nat -> a !!! k <= a !!! i) 0 i f (a, false)) as Hind;
    destruct (for_up 0 i f (a, false)) as [b inserted]
  end.
  apply Hind; clear Hind; [lia|split; [done|lia]|].
  intros j [b' ins] Hj. destruct ins.
  - intros (p & Hp & Hlow & Hhigh & Hl & Hb).
    assert (b' !!! i = a !!! i) as -> by (rewrite Hb; bool_cases; try lia; done).
    assert (b' !!! j = a !!! j) as -> by (rewrite Hb; bool_cases; try lia; done).
    pose proof (Hle p j ltac:(lia)). destruct (Z.ltb_spec (a !!! i) (a !!! j)); [|lia].
    exists p. split; [lia|]. split; [done|]. split; [done|]. split; [by rewrite length_insert|].
    intros k. destruct (decide (k = j)) as [->|Hne].
    + rewrite list_lookup_total_insert_eq by lia. bool_cases; done || lia.
    + rewrite list_lookup_total_insert_ne, Hb by done. bool_cases; done || lia.
  - intros [-> Hlow]. destruct (Z.ltb_spec (a !!! i) (a !!! j)).
    + exists j. split; [lia|]. split; [done|]. split; [done|]. split; [by rewrite length_insert|].
      intros k. destruct (decide (k = j)) as [->|Hne].
      * rewrite list_lookup_total_insert_eq by lia. bool_cases; done || lia.
      * rewrite list_lookup_total_insert_ne by done. bool_cases; done || lia.
    + rewrite list_insert_id by (apply list_lookup_lookup_total_lt; lia). split; [done|].
      intros k Hk. destruct (decide (k = j)) as [->|]; [done|apply Hlow; lia].
Qed.

(** A round inserts one more element. *)
Lemma insert_round_spec i a :
  length a = SIZE -> (i < SIZE)%nat -> StronglySorted Z.le (slice 0 i a) ->
  exists b, insert_round i (a, a) = (b, b) /\ length b = SIZE /\ b ≡ₚ a /\ StronglySorted Z.le (slice 0 (S i) b).
Proof.
  intros Hl Hi Hs. unfold insert_round. pose proof (insert_loop a i ltac:(lia) Hs) as Hloop.
  destruct (for_up 0 i _ (a, false)) as [b ins].
  set (b' := if ins : bool then <[i := a !!! (i - 1)%nat]> b else <[i := a !!! i]> b).
  assert (exists p, (p <= i)%nat /\ (forall k, (k < p)%nat -> a !!! k <= a !!! i) /\ (forall k, (p <= k < i)%nat -> a !!! i < a !!! k) /\
    moved a b' i p (S i)) as (p & Hp & Hlow & Hhigh & Hl' & Hb').
  { destruct ins.
    - destruct Hloop as (p & Hp & Hlow & Hhigh & Hlb & Hb). exists p. split; [lia|]. split; [done|]. split.
      + intros k Hk. assert (a !!! p <= a !!! k); [|lia].
        pose proof (sorted_le _ p k Hs) as Hle. rewrite slice_length in Hle by lia.
        assert (forall n, (n < i)%nat -> slice 0 i a !!! n = a !!! n) as Hn.
        { intros n Hn. unfold slice. rewrite drop_0, !list_lookup_total_alt. f_equal. apply lookup_take_lt. lia. }
        rewrite !Hn in Hle by lia. apply Hle. lia.
      + split; [unfold b'; by rewrite length_insert|]. intros k. unfold b'. destruct (decide (k = i)) as [->|Hne].
        * rewrite list_lookup_total_insert_eq by lia. bool_cases; done || lia.
        * rewrite list_lookup_total_insert_ne, Hb by done. bool_cases; done || lia.
    - destruct Hloop as [-> Hlow]. exists i. split; [lia|]. split; [done|]. split; [lia|].
      split; [unfold b'; by rewrite length_insert|]. intros k. unfold b'. destruct (decide (k = i)) as [->|Hne].
      + rewrite list_lookup_total_insert_eq by lia. bool_cases; done || lia.
      + rewrite list_lookup_total_insert_ne by done. bool_cases; done || lia. }
  rewrite copy_all by lia. exists b'. split; [done|]. split; [lia|].
  assert (slice 0 (S i) b' = slice 0 p a ++ a !!! i :: slice p i a) as Hslice.
  { rewrite <- (slice_app 0 p (S i)), (slice_cons p (S i)) by lia. f_equal; [|f_equal].
    - apply slice_ext. intros k Hk. rewrite !list_lookup_lookup_total_lt by lia. rewrite Hb'. bool_cases; done || lia.
    - rewrite Hb'. bool_cases; done || lia.
    - apply list_eq_same_length with (i - p)%nat; [rewrite slice_length; lia|rewrite slice_length; lia|].
      intros k x y Hk Hx Hy. unfold slice in Hx, Hy. rewrite lookup_take_lt, lookup_drop in Hx, Hy by lia.
      rewrite list_lookup_lookup_total_lt in Hx, Hy by lia. injection Hx as <-. injection Hy as <-.
      rewrite Hb'. replace (S (p + k) - 1)%nat with (p + k)%nat by lia. bool_cases; done || lia. }
  split.
  - apply (perm_middle 0 (S i)); [lia|lia| |].
    + rewrite Hslice, (slice_snoc 0 i a), <- (slice_app 0 p i) by lia.
      rewrite <- app_assoc. apply Permutation_app_head. apply Permutation_cons_append.
    + intros k Hk. destruct (decide (k < SIZE)%nat).
      * rewrite !list_lookup_lookup_total_lt by lia. rewrite Hb'. bool_cases; done || lia.
      * by rewrite !lookup_ge_None_2 by lia.
  - rewrite Hslice. rewrite <- (slice_app 0 p i) in Hs by lia.
    assert (forall lo hi x, x ∈ slice lo hi a -> exists k, (lo <= k < hi)%nat /\ a !!! k = x) as Hin.
    { intros lo hi x (k & Hk)%list_elem_of_lookup. pose proof (lookup_lt_Some _ _ _ Hk) as Hlt. unfold slice in Hk, Hlt.
      rewrite length_take in Hlt. rewrite lookup_take_lt, lookup_drop in Hk by lia. exists (lo + k)%nat. split; [lia|].
      by apply list_lookup_total_correct. }
    apply StronglySorted_app in Hs as (Hcross & Hs1 & Hs2). apply StronglySorted_app. split; [|split; [done|]].
    + intros x y Hx Hy. apply elem_of_cons in Hy as [->|Hy]; [|by apply Hcross].
      destruct (Hin _ _ _ Hx) as (k & Hk & <-). apply Hlow. lia.
    + constructor; [done|]. apply Forall_forall. intros y Hy. destruct (Hin _ _ _ Hy) as (k & Hk & <-).
      specialize (Hhigh k Hk). lia.
Qed.

(** The insertion sort sorts. *)
Theorem insertion_sort_correct a b :
  length a = SIZE -> length b = SIZE ->
  Sorted Z.le (insertion_sort a b) /\ insertion_sort a b ≡ₚ a.
Proof.
  intros Ha Hb. unfold insertion_sort. rewrite copy_all by done.
  destruct (for_up_ind (fun i s => exists c, s = (c, c) /\ length c = SIZE /\ c ≡ₚ a /\ StronglySorted Z.le (slice 0 i c))
    0 SIZE insert_round (a, a)) as (c & -> & Hl & Hp & Hs); [lia| | |].
  - exists a. split; [done|]. split; [done|]. split; [done|]. rewrite slice_nil by done. constructor.
  - intros i s Hi (c & -> & Hl & Hp & Hs). destruct (insert_round_spec i c Hl ltac:(lia) Hs) as (d & -> & Hld & Hpd & Hsd).
    exists d. split; [done|]. split; [done|]. split; [by rewrite Hpd|done].
  - rewrite copy_all by done. rewrite slice_full in Hs by lia. split; [by apply StronglySorted_Sorted|done].
Qed.

(** *** What the configured mode does *)

Context {BS : BlockStore LinkedList.list_t} {BSL : BlockStoreLaws LinkedList.list_t}.

Lemma list_to_arr_spec a l vs σ :
  length vs = length a -> LinkedList.chain σ l vs -> list_to_arr a l (length a) σ = Ok vs.
Proof.
  intros Hlen Hc. unfold list_to_arr.
  match goal with |- context [for_upM 0 (length a) ?f (a, l)] =>
    destruct (for_upM_ind (fun i '(c, h) => length c = length a /\ take i c = take i vs /\ LinkedList.chain σ h (drop i vs))
      0 (length a) f (a, l)) as ([c h] & -> & Hl & Ht & _); [lia|by rewrite drop_0| |]
  end.
  - intros i [c h] Hi (Hl & Ht & Hch). destruct (lookup_lt_is_Some_2 vs i) as [v Hv]; [lia|].
    rewrite (drop_S _ _ _ Hv) in Hch. destruct Hch as (d & Hget & Hval & Hnext). rewrite Hget, res_bind_Ok.
    eexists. split; [reflexivity|]. split; [by rewrite length_insert|]. split; [|done].
    rewrite (take_S_r _ _ v), (take_S_r vs _ v) by (rewrite ?list_lookup_insert_eq by lia; by rewrite ?Hval).
    by rewrite take_insert_ge, Ht by lia.
  - rewrite res_bind_Ok. rewrite !firstn_all2 in Ht by lia. by rewrite Ht.
Qed.

(** In the configured mode, [SORT_RADIX], the output is the input
    reversed: nothing is sorted. *)
Theorem hybrid_sort_reverses input output l σ :
  length input = SIZE -> length output = SIZE -> compute SORT_MODE input output l σ = Ok (reverse input).
Proof.
  intros Hi Ho. change (compute SORT_MODE input output l σ) with (radix_sort input output l σ). unfold radix_sort.
  assert (forall n, (n <= SIZE)%nat ->
    let '(h, τ) := for_up 0 n (fun i '(l, σ) => LinkedList.prepend (input !!! i) l σ) (l, σ) in
    LinkedList.chain τ h (reverse (take n input))) as Hchain.
  { induction n as [|n IH]; intros Hn; [by rewrite for_up_done|]. rewrite for_up_last by lia. specialize (IH ltac:(lia)).
    destruct (for_up 0 n _ (l, σ)) as [h τ]. destruct (lookup_lt_is_Some_2 input n) as [x Hx]; [lia|].
    rewrite (list_lookup_total_correct _ _ _ Hx), (take_S_r _ _ _ Hx), reverse_app.
    destruct (LinkedList.prepend x h τ) as [h' τ'] eqn:Hput. cbn [reverse rev_append app]. by eapply LinkedList.prepend_chain. }
  specialize (Hchain SIZE (le_n _)). destruct (for_up 0 SIZE _ (l, σ)) as [h τ]. rewrite firstn_all2 in Hchain by lia.
  pose proof (list_to_arr_spec input h (reverse input) τ) as Hr. rewrite Hi in Hr.
  rewrite Hr; [|by rewrite length_reverse|done]. rewrite res_bind_Ok. f_equal. apply copy_all; [by rewrite length_reverse|done].
Qed.

End Size.

Lemma insertion_sort_witness :
  Sorted Z.le (insertion_sort 4 [3; 1; 2; 1] [0; 0; 0; 0]) /\ insertion_sort 4 [3; 1; 2; 1] [0; 0; 0; 0] ≡ₚ [3; 1; 2; 1].
Proof. apply (insertion_sort_correct 4 [3; 1; 2; 1] [0; 0; 0; 0]); reflexivity. Defined.

Lemma hybrid_sort_witness :
  compute (BS := LogStore _) 2 SORT_MODE [1; 2] [0; 0] NULL_HASH [] = Ok [2; 1].
Proof. apply (hybrid_sort_reverses (BS := LogStore _) 2 [1; 2] [0; 0] NULL_HASH []); reflexivity. Defined.

End Hybrid.
