(* ===== verification/Rle.v ===== *)
(** Run-length coding: [pepper/apps/rle_codec.c], [rle_codec_flat.c],
    [rle_decode.c] and [rle_decode_flat.c].

    A run is its value and its length less one.  All accesses to the arrays
    are checked, so that a result other than [Fault] means no access outside
    them; the sizes are parameters.  The programs with [flat] in their name are
    taken as plain C, where the attribute [buffet::fsm] of their loops means
    nothing: the rounds it allows the compiled loop are not modelled. *)
From Stdlib Require Import ZArith Lia.
From stdpp Require Import base numbers list.
From S2P Require Import Prelude.

Local Open Scope Z_scope.

(** Array accesses at indices that are natural numbers. *)
Definition rdn (l : list Z) (i : nat) : res Z := rd l (Z.of_nat i).
Definition wrn (l : list Z) (i : nat) (x : Z) : res (list Z) := wr l (Z.of_nat i) x.

Lemma rdn_lookup l i x : l !! i = Some x -> rdn l i = Ok x.
Proof. apply rd_lookup. Qed.

(** ** The code *)

Section Codec.
Context (SIZE : nat).

(** The encoder, the same in both codecs. *)
Definition encode (input mid : list Z) : res (list Z) :=
  data ← rdn input 0;
  '(mid, midp, data, dcount) ← for_upM 1 SIZE
    (fun i '(mid, midp, data, dcount) =>
       x ← rdn input i;
       if x =? data then Ok (mid, midp, data, dcount + 1)
       else
         mid ← wrn mid midp data;
         mid ← wrn mid (midp + 1) dcount;
         Ok (mid, (midp + 2)%nat, x, 0)) (mid, O, data, 0);
  mid ← wrn mid midp data;
  wrn mid (midp + 1) dcount.

(** The decoder of [rle_codec.c]; the variable [i] goes up by two. *)
Definition decode (mid output : list Z) : res (list Z) :=
  '(output, _, _) ← for_upM 0 SIZE
    (fun k '(output, outp, skip) =>
       if skip : bool then Ok (output, outp, skip)
       else
         let i := (2 * k)%nat in
         data ← rdn mid i;
         dcount ← rdn mid (i + 1);
         output ← wrn output outp data;
         '(output, outp) ← for_upM 0 (SIZE - 1)
           (fun j '(output, outp) =>
              if Z.of_nat j <? dcount then output ← wrn output outp data; Ok (output, S outp)
              else Ok (output, outp)) (output, S outp);
         Ok (output, outp, (outp =? SIZE)%nat)) (output, O, false);
  Ok output.

Definition rle_codec (input output : list Z) : res (list Z) :=
  mid ← encode input (replicate (2 * SIZE) 0);
  decode mid output.

(** The decoder of [rle_codec_flat.c]. *)
Definition decode_flat (fuel : nat) (mid output : list Z) : res (list Z) :=
  loop fuel
    (fun '(output, outp, midp) =>
       if (outp <? SIZE)%nat then
         data ← rdn mid midp;
         dcount ← rdn mid (midp + 1);
         '(output, outp) ← loop fuel
           (fun '(output, outp, i) =>
              output ← wrn output outp data;
              if i + 1 <=? dcount then Ok (inl (output, S outp, i + 1)) else Ok (inr (output, S outp)))
           (output, outp, 0);
         Ok (inl (output, outp, (midp + 2)%nat))
       else Ok (inr output)) (output, O, O).

Definition rle_codec_flat (fuel : nat) (input mid output : list Z) : res (list Z) :=
  mid ← encode input mid;
  decode_flat fuel mid output.

End Codec.

Section Decode.
Context (OUTPUT_SIZE : nat).

Definition rle_decode (compressed decompressed : list Z) : res (list Z) :=
  '(decompressed, _, _) ← for_upM 0 OUTPUT_SIZE
    (fun k '(decompressed, outp, skip) =>
       if skip : bool then Ok (decompressed, outp, skip)
       else
         let i := (2 * k)%nat in
         data ← rdn compressed i;
         len ← rdn compressed (i + 1);
         '(decompressed, outp, skip, _) ← for_upM 0 OUTPUT_SIZE
           (fun j '(decompressed, outp, skip, len) =>
              if negb skip && (-1 <? len) then
                decompressed ← wrn decompressed outp data;
                Ok (decompressed, S outp, if (OUTPUT_SIZE <=? S outp)%nat then true else skip, len - 1)
              else Ok (decompressed, outp, skip, len)) (decompressed, outp, skip, len);
         Ok (decompressed, outp, skip)) (decompressed, O, false);
  Ok decompressed.

Definition rle_decode_flat (fuel : nat) (compressed decompressed : list Z) : res (list Z) :=
  loop fuel
    (fun '(decompressed, outp, i) =>
       if (outp <? OUTPUT_SIZE)%nat then
         data ← rdn compressed i;
         len ← rdn compressed (i + 1);
         '(decompressed, outp) ← loop fuel
           (fun '(decompressed, outp, j) =>
              if j <=? len then
                decompressed ← wrn decompressed outp data;
                if (OUTPUT_SIZE <=? S outp)%nat then Ok (inr (decompressed, S outp))
                else Ok (inl (decompressed, S outp, j + 1))
              else Ok (inr (decompressed, outp))) (decompressed, outp, 0);
         Ok (inl (decompressed, outp, (i + 2)%nat))
       else Ok (inr decompressed)) (decompressed, O, O).

End Decode.

(** ** Runs *)

(** The values a list of runs stands for; a negative length gives none. *)
Definition expand (rs : list (Z * Z)) : list Z :=
  concat ((fun r => replicate (Z.to_nat (r.2 + 1)) r.1) <$> rs).

Definition flat (rs : list (Z * Z)) : list Z := concat ((fun r => [r.1; r.2]) <$> rs).

Lemma expand_app rs rs' : expand (rs ++ rs') = expand rs ++ expand rs'.
Proof. unfold expand. by rewrite fmap_app, concat_app. Qed.

Lemma flat_app rs rs' : flat (rs ++ rs') = flat rs ++ flat rs'.
Proof. unfold flat. by rewrite fmap_app, concat_app. Qed.

Lemma flat_length rs : length (flat rs) = (2 * length rs)%nat.
Proof. induction rs as [|r rs IH]; [done|]. unfold flat in *. cbn in *. lia. Qed.

Lemma expand_one r : expand [r] = replicate (Z.to_nat (r.2 + 1)) r.1.
Proof. unfold expand. cbn. apply app_nil_r. Qed.

(** Reading the [k]-th run of an array that starts with [flat rs]. *)
Lemma flat_read (rs : list (Z * Z)) l k r :
  take (2 * length rs) l = flat rs -> rs !! k = Some r ->
  rdn l (2 * k) = Ok r.1 /\ rdn l (2 * k + 1) = Ok r.2.
Proof.
  intros Hl Hk. pose proof (lookup_lt_Some _ _ _ Hk) as Hlt.
  assert (flat rs !! (2 * k)%nat = Some r.1 /\ flat rs !! (2 * k + 1)%nat = Some r.2) as [H1 H2].
  { clear Hl Hlt. revert k Hk. induction rs as [|r' rs IH]; intros k Hk; [done|]. destruct k as [|k].
    - injection Hk as ->. done.
    - destruct (IH k Hk) as [IH1 IH2]. unfold flat in *. cbn [fmap list_fmap concat app].
      replace (2 * S k)%nat with (S (S (2 * k))) by lia. cbn [Nat.add]. done. }
  rewrite <- Hl in H1, H2. rewrite lookup_take_lt in H1, H2 by lia. split; by apply rd_lookup.
Qed.

(** Appending to the part of an array that is written. *)
Lemma wrn_next l p x pre :
  take p l = pre -> (p < length l)%nat ->
  exists l', wrn l p x = Ok l' /\ length l' = length l /\ take (S p) l' = pre ++ [x].
Proof.
  intros Hpre Hp. unfold wrn. rewrite wr_Ok by lia. rewrite Nat2Z.id. eexists. split; [reflexivity|].
  split; [apply length_insert|]. rewrite (take_S_r _ _ x) by (by apply list_lookup_insert_eq).
  by rewrite take_insert_ge, Hpre by lia.
Qed.

(** ** Encoding *)

Lemma encode_spec SIZE input mid :
  (0 < SIZE)%nat -> length input = SIZE -> length mid = (2 * SIZE)%nat ->
  exists rs mid', encode SIZE input mid = Ok mid' /\ length mid' = (2 * SIZE)%nat /\
    take (2 * length rs) mid' = flat rs /\ expand rs = input /\ Forall (fun r => 0 <= r.2) rs.
Proof.
  intros Hpos Hin Hmid. unfold encode. destruct (lookup_lt_is_Some_2 input 0) as [x0 Hx0]; [lia|].
  rewrite (rdn_lookup _ _ _ Hx0), res_bind_Ok.
  match goal with |- context [for_upM 1 SIZE ?f ?s0] =>
    destruct (for_upM_ind (fun i '(mid, midp, data, dcount) => exists rs,
        length mid = (2 * SIZE)%nat /\ midp = (2 * length rs)%nat /\ take midp mid = flat rs /\ 0 <= dcount /\
        Forall (fun r => 0 <= r.2) rs /\ expand (rs ++ [(data, dcount)]) = take i input /\ (S (length rs) <= i)%nat)
      1 SIZE f s0) as ([[[m p] d] c] & -> & rs & Hl & -> & Ht & Hc & Hall & Hexp & Hcount); [lia| | |]
  end.
  - exists []. split; [done|]. split; [done|]. split; [done|]. split; [lia|]. split; [constructor|]. split; [|done].
    rewrite (take_S_r _ _ _ Hx0). done.
  - intros i [[[m p] d] c] Hi (rs & Hl & -> & Ht & Hc & Hall & Hexp & Hcount).
    destruct (lookup_lt_is_Some_2 input i) as [x Hx]; [lia|]. rewrite (rdn_lookup _ _ _ Hx), res_bind_Ok.
    destruct (Z.eqb_spec x d) as [->|Hne].
    + eexists. split; [reflexivity|]. exists rs. split; [done|]. split; [done|]. split; [done|]. split; [lia|].
      split; [done|]. split; [|lia]. rewrite (take_S_r _ _ _ Hx), <- Hexp, !expand_app, <- app_assoc. f_equal.
      rewrite !expand_one. cbn [fst snd]. replace (Z.to_nat (c + 1 + 1)) with (S (Z.to_nat (c + 1))) by lia.
      by rewrite replicate_S_end.
    + destruct (wrn_next m (2 * length rs) d (flat rs) Ht) as (m1 & -> & Hl1 & Ht1); [lia|]. rewrite res_bind_Ok.
      destruct (wrn_next m1 (2 * length rs + 1) c (flat rs ++ [d])) as (m2 & -> & Hl2 & Ht2);
        [by rewrite Nat.add_1_r|lia|]. rewrite res_bind_Ok.
      eexists. split; [reflexivity|]. exists (rs ++ [(d, c)]). rewrite length_app. cbn [length].
      split; [lia|]. split; [lia|]. split.
      { replace (2 * length rs + 2)%nat with (S (2 * length rs + 1)) by lia. rewrite Ht2, flat_app, <- app_assoc. done. }
      split; [lia|]. split; [apply Forall_app; by repeat constructor|]. split; [|lia].
      rewrite (take_S_r _ _ _ Hx), <- Hexp, expand_app. done.
  - rewrite res_bind_Ok.
    destruct (wrn_next m (2 * length rs) d (flat rs) Ht) as (m1 & -> & Hl1 & Ht1); [lia|]. rewrite res_bind_Ok.
    destruct (wrn_next m1 (2 * length rs + 1) c (flat rs ++ [d])) as (m2 & -> & Hl2 & Ht2);
      [by rewrite Nat.add_1_r|lia|].
    exists (rs ++ [(d, c)]), m2. split; [done|]. split; [lia|]. split.
    { rewrite length_app. cbn [length]. replace (2 * (length rs + 1))%nat with (S (2 * length rs + 1)) by lia.
      rewrite Ht2, flat_app, <- app_assoc. done. }
    split; [|apply Forall_app; by repeat constructor]. rewrite Hexp. apply firstn_all2. lia.
Qed.

(** ** Decoding *)

Lemma expand_take_S rs k r :
  rs !! k = Some r -> expand (take (S k) rs) = expand (take k rs) ++ replicate (Z.to_nat (r.2 + 1)) r.1.
Proof. intros Hk. by rewrite (take_S_r _ _ _ Hk), expand_app, expand_one. Qed.

Lemma expand_take_le rs k : (length (expand (take k rs)) <= length (expand rs))%nat.
Proof. rewrite <- (take_drop k rs) at 2. rewrite expand_app, length_app. lia. Qed.

(** Runs of non-negative length stand for at least one value each. *)
Lemma expand_length_ge rs : Forall (fun r => 0 <= r.2) rs -> (length rs <= length (expand rs))%nat.
Proof.
  induction 1 as [|r rs Hr Hrs IH]; [done|]. change (r :: rs) with ([r] ++ rs).
  rewrite expand_app, expand_one, !length_app, length_replicate. cbn [length]. lia.
Qed.

(** Once the first runs fill the output, the others stand for nothing. *)
Lemma expand_take_full rs k : (length (expand rs) <= length (expand (take k rs)))%nat -> expand rs = expand (take k rs).
Proof.
  intros Hle. rewrite <- (take_drop k rs) at 1. rewrite expand_app.
  pose proof (f_equal length (f_equal expand (take_drop k rs))) as Hd. rewrite expand_app, length_app in Hd.
  rewrite (nil_length_inv (expand (drop k rs))) by lia. apply app_nil_r.
Qed.

Lemma take_whole (l pre : list Z) n : length l = n -> take n l = pre -> l = pre.
Proof. intros Hl Ht. by rewrite firstn_all2 in Ht by lia. Qed.

Section Decoders.
Context (N : nat) (rs : list (Z * Z)) (input : list Z) (Hread : take (2 * length rs) input = flat rs).

(** The decoder of the codec writes all runs when they fill the output. *)
Lemma decode_spec output :
  (0 < N)%nat -> Forall (fun r => 0 <= r.2) rs -> length (expand rs) = N -> length output = N ->
  decode N input output = Ok (expand rs).
Proof.
  intros HN Hall Htotal Hout. unfold decode.
  match goal with |- context [for_upM 0 N ?f ?s0] =>
    destruct (for_upM_ind (fun k '(out, outp, skip) => length out = N /\
        if skip : bool then out = expand rs
        else outp = length (expand (take k rs)) /\ (outp < N)%nat /\ take outp out = expand (take k rs))
      0 N f s0) as ([[out outp] skip] & -> & Hl & Hinv); [lia|split; [done|by split]| |]
  end.
  - intros k [[out outp] skip] Hk [Hl Hinv]. destruct skip; [by eexists|]. destruct Hinv as (Hp & Hlt & Ht).
    assert (k < length rs)%nat as Hkl.
    { destruct (decide (k < length rs)%nat); [done|]. rewrite firstn_all2 in Hp by lia. lia. }
    destruct (lookup_lt_is_Some_2 rs k Hkl) as [r Hr]. destruct (flat_read rs input k r Hread Hr) as [-> ->].
    rewrite !res_bind_Ok. pose proof (Forall_lookup_1 _ _ _ _ Hall Hr) as Hr2. cbv beta in Hr2.
    pose proof (expand_take_S rs k r Hr) as HS. pose proof (expand_take_le rs (S k)) as Hle.
    assert (outp + Z.to_nat (r.2 + 1) <= N)%nat as Hfit by (rewrite HS, length_app, length_replicate in Hle; lia).
    destruct (wrn_next out outp r.1 (expand (take k rs)) Ht) as (out1 & -> & Hl1 & Ht1); [lia|]. rewrite res_bind_Ok.
    match goal with |- context [for_upM 0 (N - 1) ?g ?s1] =>
      destruct (for_upM_ind (fun j '(out', outp') => length out' = N /\ exists w, outp' = (outp + w)%nat /\
          w = S (Nat.min j (Z.to_nat r.2)) /\ take outp' out' = expand (take k rs) ++ replicate w r.1)
        0 (N - 1) g s1) as ([out2 outp2] & -> & Hl2 & w & -> & -> & Ht2); [lia| | |]
    end.
    + split; [lia|]. exists 1%nat. split; [lia|]. split; [lia|]. exact Ht1.
    + intros j [out' outp'] Hj (Hl' & w & -> & -> & Ht'). destruct (Z.ltb_spec (Z.of_nat j) r.2).
      * destruct (wrn_next out' _ r.1 _ Ht') as (out3 & -> & Hl3 & Ht3); [lia|]. rewrite res_bind_Ok.
        eexists. split; [reflexivity|]. split; [lia|]. exists (S (S (Nat.min j (Z.to_nat r.2)))).
        split; [lia|]. split; [lia|]. match type of Ht3 with take ?p _ = _ => replace (outp + S (S (Nat.min j (Z.to_nat r.2))))%nat with p by lia end.
        rewrite Ht3, <- app_assoc. f_equal. by rewrite <- replicate_S_end.
      * eexists. split; [reflexivity|]. split; [done|]. eexists. split; [reflexivity|]. split; [lia|exact Ht'].
    + rewrite res_bind_Ok. eexists. split; [reflexivity|]. split; [done|].
      rewrite Nat.min_r in * by lia. replace (S (Z.to_nat r.2)) with (Z.to_nat (r.2 + 1)) in * by lia.
      rewrite <- HS in Ht2. destruct (Nat.eqb_spec (outp + Z.to_nat (r.2 + 1)) N) as [He|He].
      * rewrite He in Ht2. rewrite (take_whole _ _ _ Hl2 Ht2). symmetry. apply expand_take_full.
        rewrite HS, length_app, length_replicate. lia.
      * split; [rewrite HS, length_app, length_replicate; lia|]. split; [lia|done].
  - rewrite res_bind_Ok. destruct skip; [by rewrite Hinv|]. destruct Hinv as (-> & Hlt & _). exfalso.
    pose proof (expand_length_ge rs Hall). rewrite firstn_all2 in Hlt by lia. lia.
Qed.

(** Decoding any runs: as many of their values as fit are written. *)
Lemma rle_decode_spec output :
  length rs = N -> length output = N ->
  rle_decode N input output = Ok (take N (expand rs) ++ drop (length (expand rs)) output).
Proof.
  intros Hrs Hout. unfold rle_decode.
  match goal with |- context [for_upM 0 N ?f ?s0] =>
    destruct (for_upM_ind (fun k '(out, outp, skip) => length out = N /\ (outp <= N)%nat /\
        skip = (0 <? N)%nat && (N <=? outp)%nat /\
        take outp out = take N (expand (take k rs)) /\ drop outp out = drop outp output /\
        outp = Nat.min N (length (expand (take k rs))))
      0 N f s0) as ([[out outp] skip] & -> & Hl & Hle & Hskip & Ht & Hd & Hp); [lia| | |]
  end.
  - split; [done|]. split; [lia|]. split; [destruct N; done|]. split; [by destruct N|]. split; [done|symmetry; apply Nat.min_0_r].
  - intros k [[out outp] skip] Hk (Hl & Hle & Hskip & Ht & Hd & Hp).
    destruct (lookup_lt_is_Some_2 rs k) as [r Hr]; [lia|]. pose proof (expand_take_S rs k r Hr) as HS.
    assert ((0 <? N)%nat = true) as Hpos by (apply Nat.ltb_lt; lia). rewrite Hpos in *. cbn [andb] in Hskip.
    destruct skip.
    + symmetry in Hskip. apply Nat.leb_le in Hskip. eexists. split; [reflexivity|]. split; [done|]. split; [done|].
      assert (outp = N) as -> by lia. split; [symmetry; by apply Nat.leb_le|].
      rewrite HS, length_app. rewrite take_app_le by lia. split; [done|]. split; [done|lia].
    + symmetry in Hskip. apply Nat.leb_gt in Hskip. destruct (flat_read rs input k r Hread Hr) as [-> ->]. rewrite !res_bind_Ok.
      assert (outp = length (expand (take k rs))) as Hp' by lia. rewrite (firstn_all2 (expand _)) in Ht by lia.
      match goal with |- context [for_upM 0 N ?g ?s1] =>
        destruct (for_upM_ind (fun j '(out', outp', skip', len') => length out' = N /\ exists w, outp' = (outp + w)%nat /\
            (outp' <= N)%nat /\ skip' = (N <=? outp')%nat /\ len' = r.2 - Z.of_nat w /\ Z.of_nat w <= Z.max 0 (r.2 + 1) /\
            take outp' out' = expand (take k rs) ++ replicate w r.1 /\ drop outp' out' = drop outp' output /\
            (skip' = true \/ len' < 0 \/ w = j))
          0 N g s1) as ([[[out2 outp2] skip2] len2] & -> & Hl2 & w & -> & Hle2 & -> & -> & Hw & Ht2 & Hd2 & Hor); [lia| | |]
      end.
      * split; [done|]. exists O. rewrite Nat.add_0_r, app_nil_r. split; [done|]. split; [lia|].
        split; [symmetry; apply Nat.leb_gt; lia|]. split; [lia|]. split; [lia|]. split; [done|]. split; [done|]. right. by right.
      * intros j [[[out' outp'] skip'] len'] Hj (Hl' & w & -> & Hle' & -> & -> & Hw & Ht' & Hd' & Hor).
        destruct (Nat.leb_spec N (outp + w)) as [Hfull|Hroom]; cbn [negb andb].
        { eexists. split; [reflexivity|]. split; [done|]. exists w. split_and!;
            first [done|lia|by left|symmetry; apply Nat.leb_le; lia]. }
        destruct (Z.ltb_spec (-1) (r.2 - Z.of_nat w)).
        2:{ eexists. split; [reflexivity|]. split; [done|]. exists w. split_and!;
              first [done|lia|right; left; lia|symmetry; apply Nat.leb_gt; lia]. }
        unfold wrn. rewrite wr_Ok, res_bind_Ok, Nat2Z.id by lia.
        eexists. split; [reflexivity|]. split; [by rewrite length_insert|]. exists (S w).
        rewrite Nat.add_succ_r. split; [done|]. split; [lia|]. split; [by destruct (Nat.leb_spec N (S (outp + w)))|].
        split; [lia|]. split; [lia|]. split; [|split].
        -- rewrite (take_S_r _ _ r.1) by (apply list_lookup_insert_eq; lia).
           rewrite take_insert_ge, Ht', <- app_assoc by lia. f_equal. by rewrite <- replicate_S_end.
        -- rewrite drop_insert_lt by lia. replace (S (outp + w)) with (outp + w + 1)%nat by lia. by rewrite <- (drop_drop out'), <- (drop_drop output), Hd'.
        -- destruct (Nat.leb_spec N (S (outp + w))); [by left|]. right. right. destruct Hor as [?|[?|?]]; [done|lia|lia].
      * rewrite res_bind_Ok. eexists. split; [reflexivity|]. split; [done|]. split; [done|]. split; [done|].
        assert ((N <= outp + w)%nat \/ w = Z.to_nat (r.2 + 1)) as Hcase.
        { destruct (Nat.leb_spec N (outp + w)); [by left|]. right. destruct Hor as [?|[?|?]]; [done|lia|lia]. }
        rewrite HS, length_app, length_replicate. destruct Hcase as [Hfull| ->].
        -- assert (outp + w = N)%nat as Hn by lia. assert (w <= Z.to_nat (r.2 + 1))%nat as Hw2 by lia.
           split; [|split; [done|lia]]. rewrite Ht2. rewrite take_app_ge by lia. f_equal.
           rewrite take_replicate. f_equal. lia.
        -- split; [|split; [done|lia]]. rewrite Ht2. symmetry. apply firstn_all2. rewrite length_app, length_replicate. lia.
  - rewrite res_bind_Ok. f_equal. rewrite (firstn_all2 rs) in Ht, Hp by lia.
    rewrite <- (take_drop outp out), Ht, Hd. f_equal.
    destruct (decide (length (expand rs) <= N)%nat); [by replace outp with (length (expand rs)) by lia|].
    by rewrite !drop_ge by lia.
Qed.

(** [decode_flat] stops when the output is full, which the runs make happen. *)
Lemma decode_flat_spec output fuel :
  Forall (fun r => 0 <= r.2) rs -> length (expand rs) = N -> length output = N -> (N < fuel)%nat ->
  decode_flat N fuel input output = Ok (expand rs).
Proof.
  intros Hall Htotal Hout Hfuel. unfold decode_flat.
  match goal with |- loop _ ?f ?s0 = _ =>
    destruct (loop_ind (fun '(out, outp, midp) => length out = N /\ (outp <= N)%nat /\ exists k, midp = (2 * k)%nat /\
        outp = length (expand (take k rs)) /\ take outp out = expand (take k rs))
      (fun r => r = expand rs) (fun '(_, outp, _) => (N - outp)%nat) f) with (fuel := fuel) (s := s0)
      as (r & -> & ->); [|split; [done|]; split; [lia|by exists O]|lia|done]
  end.
  intros [[out outp] midp] (Hl & Hle & k & -> & Hp & Ht). destruct (Nat.ltb_spec outp N) as [Hlt|Hge].
  2:{ right. eexists. split; [reflexivity|]. assert (outp = N) as He by lia. rewrite He in *.
      rewrite (take_whole _ _ _ Hl Ht). symmetry. apply (expand_take_full rs k). lia. }
  left. assert (k < length rs)%nat as Hk.
  { destruct (decide (k < length rs)%nat); [done|]. rewrite firstn_all2 in Hp by lia. lia. }
  destruct (lookup_lt_is_Some_2 rs k Hk) as [r Hr]. destruct (flat_read rs input k r Hread Hr) as [-> ->].
  rewrite !res_bind_Ok. pose proof (Forall_lookup_1 _ _ _ _ Hall Hr) as Hr2. cbv beta in Hr2.
  pose proof (expand_take_S rs k r Hr) as HS. pose proof (expand_take_le rs (S k)) as Hle2.
  assert (outp + Z.to_nat (r.2 + 1) <= N)%nat as Hfit by (rewrite HS, length_app, length_replicate in Hle2; lia).
  match goal with |- context [loop fuel ?g ?s1] =>
    destruct (loop_ind (fun '(out', outp', i) => length out' = N /\ exists w, outp' = (outp + w)%nat /\ i = Z.of_nat w /\
        i <= r.2 /\ take outp' out' = expand (take k rs) ++ replicate w r.1)
      (fun '(out', outp') => length out' = N /\ outp' = length (expand (take (S k) rs)) /\
         take outp' out' = expand (take (S k) rs))
      (fun '(_, _, i) => Z.to_nat (r.2 - i)) g) with (fuel := fuel) (s := s1)
      as ([out2 outp2] & -> & Hl2 & -> & Ht2); [| |lia|]
  end.
  - intros [[out' outp'] i] (Hl' & w & -> & -> & Hi & Ht').
    destruct (wrn_next out' _ r.1 _ Ht') as (out3 & -> & Hl3 & Ht3); [lia|]. rewrite res_bind_Ok.
    rewrite <- app_assoc, <- replicate_S_end, <- Nat.add_succ_r in Ht3.
    destruct (Z.leb_spec (Z.of_nat w + 1) r.2).
    + left. eexists. split; [reflexivity|]. split; [|lia]. split; [lia|]. exists (S w). split; [lia|]. split; [lia|].
      split; [lia|]. by rewrite <- Nat.add_succ_r.
    + right. eexists. split; [reflexivity|]. split; [lia|]. rewrite HS, length_app, length_replicate.
      replace (Z.to_nat (r.2 + 1)) with (S w) by lia. split; [lia|]. by rewrite <- Nat.add_succ_r.
  - split; [done|]. exists O. rewrite Nat.add_0_r, app_nil_r. split; [done|]. split; [done|]. split; [lia|done].
  - rewrite res_bind_Ok. eexists. split; [reflexivity|]. split; [split; [done|]; split; [lia|]; exists (S k); split; [lia|done]|].
    rewrite HS, length_app, length_replicate. lia.
Qed.

(** [rle_decode_flat] has no bound on the runs it reads: it needs runs that
    fill the output. *)
Lemma rle_decode_flat_spec output fuel :
  (N <= length (expand rs))%nat -> length output = N -> (N < fuel)%nat -> (length rs < fuel)%nat ->
  rle_decode_flat N fuel input output = Ok (take N (expand rs)).
Proof.
  intros Htotal Hout Hfuel Hfuel2. unfold rle_decode_flat.
  match goal with |- loop _ ?f ?s0 = _ =>
    destruct (loop_ind (fun '(out, outp, i) => length out = N /\ exists k, i = (2 * k)%nat /\ (k <= length rs)%nat /\
        outp = Nat.min N (length (expand (take k rs))) /\ take outp out = take N (expand (take k rs)))
      (fun r => r = take N (expand rs)) (fun '(_, _, i) => (length rs - Nat.div2 i)%nat) f) with (fuel := fuel) (s := s0)
      as (r & -> & ->); [|split; [done|]; exists O; split; [done|]; split; [lia|]|cbn; lia|done]
  end.
  2:{ split; [symmetry; apply Nat.min_0_r|by destruct N]. }
  intros [[out outp] i] (Hl & k & -> & Hkle & Hp & Ht). destruct (Nat.ltb_spec outp N) as [Hlt|Hge].
  2:{ right. eexists. split; [reflexivity|]. rewrite <- (take_drop k rs) at 1. rewrite expand_app, take_app_le by lia.
      rewrite <- Ht. symmetry. apply firstn_all2. lia. }
  left. assert (k < length rs)%nat as Hk.
  { destruct (decide (k < length rs)%nat); [done|]. rewrite firstn_all2 in Hp by lia. lia. }
  destruct (lookup_lt_is_Some_2 rs k Hk) as [r Hr]. destruct (flat_read rs input k r Hread Hr) as [-> ->].
  rewrite !res_bind_Ok. pose proof (expand_take_S rs k r Hr) as HS. rewrite (firstn_all2 (expand _)) in Ht by lia.
  match goal with |- context [loop fuel ?g ?s1] =>
    destruct (loop_ind (fun '(out', outp', j) => length out' = N /\ exists w, outp' = (outp + w)%nat /\ j = Z.of_nat w /\
        (outp' < N)%nat /\ j <= Z.max 0 (r.2 + 1) /\ take outp' out' = expand (take k rs) ++ replicate w r.1)
      (fun '(out', outp') => length out' = N /\ outp' = Nat.min N (length (expand (take (S k) rs))) /\
         take outp' out' = take N (expand (take (S k) rs)))
      (fun '(_, outp', _) => (N - outp')%nat) g) with (fuel := fuel) (s := s1)
      as ([out2 outp2] & -> & Hl2 & -> & Ht2); [| |lia|]
  end.
  - intros [[out' outp'] j] (Hl' & w & -> & -> & Hroom & Hj & Ht'). rewrite HS, length_app, length_replicate.
    destruct (Z.leb_spec (Z.of_nat w) r.2).
    + destruct (wrn_next out' _ r.1 _ Ht') as (out3 & -> & Hl3 & Ht3); [lia|]. rewrite res_bind_Ok.
      rewrite <- app_assoc, <- replicate_S_end in Ht3. destruct (Nat.leb_spec N (S (outp + w))).
      * right. eexists. split; [reflexivity|]. split; [lia|]. split; [lia|]. rewrite Ht3, take_app_ge by lia. f_equal.
        rewrite take_replicate. f_equal. lia.
      * left. eexists. split; [reflexivity|]. split; [|lia]. split; [lia|]. exists (S w). rewrite Nat.add_succ_r.
        split; [lia|]. split; [lia|]. split; [lia|]. split; [lia|done].
    + right. eexists. split; [reflexivity|]. split; [done|]. replace (Z.to_nat (r.2 + 1)) with w by lia. split; [lia|].
      rewrite Ht'. symmetry. apply firstn_all2. rewrite length_app, length_replicate. lia.
  - split; [done|]. exists O. rewrite Nat.add_0_r, app_nil_r. split; [done|]. split; [done|]. split; [lia|]. split; [lia|done].
  - rewrite res_bind_Ok. eexists. split; [reflexivity|].
    replace (2 * k + 2)%nat with (2 * S k)%nat by lia. rewrite !Nat.div2_double. split; [|lia].
    split; [done|]. exists (S k). split; [done|]. split; [lia|done].
Qed.

End Decoders.

(** ** The programs *)

(** Both codecs return their input: what the encoder writes, in runs of
    non-negative length, the decoder of each expands again, with no access
    outside the arrays; [rle_decode] and [rle_decode_flat] invert the same
    encoder, so the four programs agree on the format. *)
Theorem rle_roundtrip SIZE input mid output fuel :
  (0 < SIZE)%nat -> length input = SIZE -> length mid = (2 * SIZE)%nat -> length output = SIZE -> (SIZE < fuel)%nat ->
  rle_codec SIZE input output = Ok input /\
  rle_codec_flat SIZE fuel input mid output = Ok input /\
  (mid' ← encode SIZE input mid; rle_decode_flat SIZE fuel mid' output) = Ok input.
Proof.
  intros Hpos Hin Hmid Hout Hfuel. unfold rle_codec, rle_codec_flat.
  destruct (encode_spec SIZE input (replicate (2 * SIZE) 0) Hpos Hin) as (rs1 & mid1 & -> & Hl1 & Ht1 & He1 & Hall1);
    [apply length_replicate|].
  destruct (encode_spec SIZE input mid Hpos Hin Hmid) as (rs2 & mid2 & -> & Hl2 & Ht2 & He2 & Hall2).
  rewrite !res_bind_Ok. pose proof (expand_length_ge rs2 Hall2). split; [|split].
  - rewrite (decode_spec SIZE rs1 mid1 Ht1) by (try done; congruence). by rewrite He1.
  - rewrite (decode_flat_spec SIZE rs2 mid2 Ht2) by (try done; congruence). by rewrite He2.
  - rewrite (rle_decode_flat_spec SIZE rs2 mid2 Ht2) by (rewrite ?He2 in *; try done; lia).
    rewrite He2, firstn_all2 by lia. done.
Qed.

Lemma rle_witness :
  rle_codec 4 [7; 7; 7; 1] (replicate 4 0) = Ok [7; 7; 7; 1] /\
  rle_codec_flat 4 5 [7; 7; 7; 1] (replicate 8 0) (replicate 4 0) = Ok [7; 7; 7; 1] /\
  (mid' ← encode 4 [7; 7; 7; 1] (replicate 8 0); rle_decode_flat 4 5 mid' (replicate 4 0)) = Ok [7; 7; 7; 1].
Proof. apply (rle_roundtrip 4 [7; 7; 7; 1] (replicate 8 0) (replicate 4 0) 5); [lia|reflexivity..|lia]. Defined.

(** On any list of runs, also of negative length (which stand for
    nothing), [rle_decode] writes as many of their values as the output holds
    and leaves the rest of it unchanged; and where the runs fill the output,
    [rle_decode_flat] terminates with the same values. *)
Theorem rle_decode_correct N rs output fuel :
  length rs = N -> length output = N -> (N < fuel)%nat ->
  rle_decode N (flat rs) output = Ok (take N (expand rs) ++ drop (length (expand rs)) output) /\
  ((N <= length (expand rs))%nat ->
   rle_decode_flat N fuel (flat rs) output = rle_decode N (flat rs) output).
Proof.
  intros Hrs Hout Hfuel.
  assert (take (2 * length rs) (flat rs) = flat rs) as Hread by (apply firstn_all2; rewrite flat_length; lia).
  rewrite (rle_decode_spec N rs _ Hread) by done. split; [done|]. intros Hfull.
  rewrite (rle_decode_flat_spec N rs _ Hread) by (done || lia). rewrite drop_ge by lia. by rewrite app_nil_r.
Qed.

Lemma rle_decode_witness :
  rle_decode 3 [5; 0; 6; -4; 8; 7] [0; 0; 0] = Ok [5; 8; 8] /\
  rle_decode_flat 3 4 [5; 0; 6; -4; 8; 7] [0; 0; 0] = Ok [5; 8; 8].
Proof.
  destruct (rle_decode_correct 3 [(5, 0); (6, -4); (8, 7)] [0; 0; 0] 4) as [H1 H2]; [reflexivity|reflexivity|lia|].
  split; [exact H1|]. rewrite H1 in H2. apply H2. apply Nat.leb_le. reflexivity.
Defined.
