(* ===== verification/Bits.v ===== *)
(** Bit vectors and their bytes: [pepper/storage/storage.h].

    [Bits] is [boost::dynamic_bitset<>], whose bit [i] is element [i] of a
    list; bytes are 8-bit integers.  A failed [assert] is [Fault]. *)
From Stdlib Require Import ZArith Lia.
From stdpp Require Import base numbers list.
From S2P Require Import Prelude.

Local Open Scope Z_scope.

Abbreviation Bits := (list bool).

(** ** The code *)

Definition BitsToByteArray (byte_arr : list Z) (size_byte : nat) (bits : Bits) (offset_input : nat) : res (list Z) :=
  if (size_byte * 8 + offset_input <=? length bits)%nat then
    for_upM 0 size_byte
      (fun i byte_arr =>
         wr byte_arr (Z.of_nat i)
           (for_up 0 8
              (fun j chunk =>
                 let num := u8 (Z.shiftl (b2z (bits !!! (i * 8 + j + offset_input)%nat)) (Z.of_nat j)) in
                 Z.lor chunk num) 0)) byte_arr
  else Fault.

Definition BitsToByteArrayReverse (byte_arr : list Z) (size_byte : nat) (bits : Bits) : res (list Z) :=
  let size_bit := (size_byte * 8)%nat in
  if (size_bit <=? length bits)%nat then
    for_upM 0 size_byte
      (fun i byte_arr =>
         wr byte_arr (Z.of_nat i)
           (for_up 0 8
              (fun j chunk => Z.lor chunk (u8 (Z.shiftl (b2z (bits !!! (size_bit - (i * 8 + j) - 1)%nat)) (Z.of_nat j)))) 0))
      byte_arr
  else Fault.

Definition ByteArrayToBits (byte_arr : list Z) (size_byte : nat) (bits : Bits) (offset_output : nat) : res Bits :=
  if (offset_output + size_byte * 8 <=? length bits)%nat then
    for_upM 0 size_byte
      (fun i bits =>
         chunk ← rd byte_arr (Z.of_nat i);
         Ok (for_up 0 8
               (fun j bits =>
                  <[(i * 8 + j + offset_output)%nat := negb (Z.land (Z.shiftr chunk (Z.of_nat j)) 1 =? 0)]> bits) bits))
      bits
  else Fault.

(** ** Bits as numbers, the low bit first *)

Fixpoint bits_val (l : list bool) : Z :=
  match l with [] => 0 | b :: l => b2z b + 2 * bits_val l end.

Lemma bits_val_range l : 0 <= bits_val l < 2 ^ Z.of_nat (length l).
Proof.
  induction l as [|b l IH]; [done|]. cbn [bits_val length]. rewrite Nat2Z.inj_succ, Z.pow_succ_r by lia.
  destruct b; cbn [b2z]; lia.
Qed.

Lemma bits_val_app l l' : bits_val (l ++ l') = bits_val l + 2 ^ Z.of_nat (length l) * bits_val l'.
Proof.
  induction l as [|b l IH]; [cbn; lia|]. cbn [app bits_val length]. rewrite IH, Nat2Z.inj_succ, Z.pow_succ_r by lia. ring.
Qed.

Lemma testbit_cons b z i : 0 <= i -> Z.testbit (b2z b + 2 * z) i = if i =? 0 then b else Z.testbit z (i - 1).
Proof.
  intros Hi. destruct (Z.eqb_spec i 0) as [->|Hne].
  - rewrite Z.add_comm. destruct b; cbn [b2z]; [apply Z.testbit_odd_0|rewrite Z.add_0_r; apply Z.testbit_even_0].
  - replace i with (Z.succ (i - 1)) at 1 by lia. rewrite Z.add_comm.
    destruct b; cbn [b2z]; [apply Z.testbit_odd_succ; lia|rewrite Z.add_0_r; apply Z.testbit_even_succ; lia].
Qed.

Lemma testbit_bits_val l i : Z.testbit (bits_val l) (Z.of_nat i) = default false (l !! i).
Proof.
  revert i. induction l as [|b l IH]; intros i; [apply Z.testbit_0_l|]. cbn [bits_val]. rewrite testbit_cons by lia.
  destruct i as [|i]; [done|]. rewrite (proj2 (Z.eqb_neq _ 0)) by lia. cbn [lookup list_lookup].
  rewrite <- IH. f_equal. lia.
Qed.

Lemma bits_val_testbit z n : 0 <= z < 2 ^ Z.of_nat n -> bits_val (tabulate n (fun i => Z.testbit z (Z.of_nat i))) = z.
Proof.
  intros Hz. apply Z.bits_inj'. intros i Hi. rewrite <- (Z2Nat.id i) by done. rewrite testbit_bits_val.
  unfold tabulate. rewrite list_lookup_fmap. destruct (decide (Z.to_nat i < n)%nat) as [Hlt|Hge].
  - by rewrite lookup_seq_lt by done.
  - rewrite lookup_seq_ge by lia. cbn. symmetry. destruct (Z.eq_dec z 0) as [->|]; [apply Z.testbit_0_l|].
    apply Z.bits_above_log2; [lia|]. apply Z.log2_lt_pow2; [lia|].
    eapply Z.lt_le_trans; [apply Hz|]. apply Z.pow_le_mono_r; lia.
Qed.

Lemma bits_val_inj l l' : length l = length l' -> bits_val l = bits_val l' -> l = l'.
Proof.
  revert l'. induction l as [|b l IH]; intros [|b' l'] Hl Hv; [done..|]. cbn [bits_val length] in *.
  assert (b = b') as -> by (destruct b, b'; cbn [b2z] in Hv; done || lia). f_equal. apply IH; lia.
Qed.

(** One bit of a number, as the code extracts it. *)
Lemma land_shiftr_1 z j : 0 <= j -> Z.land (Z.shiftr z j) 1 = b2z (Z.testbit z j).
Proof.
  intros Hj. change 1 with (Z.ones 1). rewrite Z.land_ones, Z.shiftr_div_pow2 by lia.
  rewrite <- Z.testbit_spec' by done. reflexivity.
Qed.

Lemma b2z_nonzero b : negb (b2z b =? 0) = b.
Proof. by destruct b. Qed.

(** The accumulation of a byte from its bits. *)
Lemma chunk_bits (f : nat -> bool) :
  for_up 0 8 (fun j chunk => Z.lor chunk (u8 (Z.shiftl (b2z (f j)) (Z.of_nat j)))) 0 = bits_val (tabulate 8 f).
Proof.
  set (b := f). unfold for_up, tabulate. cbn [seq Nat.sub foldl fmap list_fmap].
  destruct (b 0%nat), (b 1%nat), (b 2%nat), (b 3%nat), (b 4%nat), (b 5%nat), (b 6%nat), (b 7%nat); reflexivity.
Qed.

(** ** What the conversions do *)

Lemma BitsToByteArray_spec byte_arr n bits off :
  length byte_arr = n -> (n * 8 + off <= length bits)%nat ->
  BitsToByteArray byte_arr n bits off
  = Ok (tabulate n (fun i => bits_val (tabulate 8 (fun j => bits !!! (i * 8 + j + off)%nat)))).
Proof.
  intros Hl Hb. unfold BitsToByteArray. rewrite (proj2 (Nat.leb_le _ _)) by done.
  apply for_upM_fill; [done|]. intros i l' Hi Hl'. rewrite wr_Ok, Nat2Z.id by lia. cbv zeta. by rewrite chunk_bits.
Qed.

Lemma BitsToByteArrayReverse_spec byte_arr n bits :
  length byte_arr = n -> (n * 8 <= length bits)%nat ->
  BitsToByteArrayReverse byte_arr n bits = BitsToByteArray byte_arr n (reverse (take (n * 8) bits)) 0.
Proof.
  intros Hl Hb. rewrite BitsToByteArray_spec by (rewrite ?length_reverse, ?length_take; lia).
  unfold BitsToByteArrayReverse. cbv zeta. rewrite (proj2 (Nat.leb_le _ _)) by done.
  apply for_upM_fill; [done|]. intros i l' Hi Hl'. rewrite wr_Ok, Nat2Z.id by lia. rewrite chunk_bits.
  do 3 f_equal. apply tabulate_ext. intros j Hj. symmetry. apply list_lookup_total_correct.
  rewrite reverse_lookup by (rewrite length_take; lia). rewrite length_take, lookup_take_lt by lia.
  rewrite list_lookup_lookup_total_lt by lia. do 2 f_equal. lia.
Qed.

(** The bits of a byte array. *)
Definition byte_bits (bytes : list Z) : Bits :=
  concat ((fun c => tabulate 8 (fun j => Z.testbit c (Z.of_nat j))) <$> bytes).

Lemma byte_bits_length bytes : length (byte_bits bytes) = (8 * length bytes)%nat.
Proof. induction bytes as [|c bytes IH]; [done|]. unfold byte_bits in *. cbn in *. lia. Qed.

Lemma byte_bits_lookup bytes i j c :
  bytes !! i = Some c -> (j < 8)%nat -> byte_bits bytes !!! (i * 8 + j)%nat = Z.testbit c (Z.of_nat j).
Proof.
  revert i. induction bytes as [|c' bytes IH]; intros i Hi Hj; [done|]. unfold byte_bits. cbn [fmap list_fmap concat].
  fold (byte_bits bytes). destruct i as [|i].
  - injection Hi as ->. rewrite lookup_total_app_l by (rewrite tabulate_length; lia). by rewrite tabulate_lookup.
  - rewrite lookup_total_app_r by (rewrite tabulate_length; lia). rewrite tabulate_length.
    replace (S i * 8 + j - 8)%nat with (i * 8 + j)%nat by lia. by apply IH.
Qed.

Lemma ByteArrayToBits_spec bytes bits off :
  (off + length bytes * 8 <= length bits)%nat ->
  ByteArrayToBits bytes (length bytes) bits off
  = Ok (take off bits ++ byte_bits bytes ++ drop (off + length bytes * 8) bits).
Proof.
  intros Hb. unfold ByteArrayToBits. rewrite (proj2 (Nat.leb_le _ _)) by done.
  match goal with |- for_upM 0 ?n ?f ?s0 = _ =>
    destruct (for_upM_ind (fun i bs => length bs = length bits /\ take (off + i * 8) bs = take off bits ++ byte_bits (take i bytes) /\
      drop (off + n * 8) bs = drop (off + n * 8) bits) 0 n f s0) as (bs & -> & Hl & Ht & Hd); [lia| | |]
  end.
  - split; [done|]. rewrite Nat.mul_0_l, Nat.add_0_r, app_nil_r. done.
  - intros i bs Hi (Hl & Ht & Hd). destruct (lookup_lt_is_Some_2 bytes i) as [c Hc]; [lia|].
    rewrite (rd_lookup _ _ _ Hc), res_bind_Ok. eexists. split; [reflexivity|].
    match goal with |- context [for_up 0 8 ?g bs] =>
      pose proof (for_up_ind (fun j bs' => length bs' = length bits /\
        take (off + i * 8 + j) bs' = take off bits ++ byte_bits (take i bytes) ++ tabulate j (fun j => Z.testbit c (Z.of_nat j)) /\
        drop (off + length bytes * 8) bs' = drop (off + length bytes * 8) bits) 0 8 g bs) as Hind;
      destruct Hind as (Hl8 & Ht8 & Hd8); [lia| | |]
    end.
    + rewrite Nat.add_0_r. split; [done|]. split; [|done]. cbn [tabulate seq fmap list_fmap]. by rewrite app_nil_r.
    + intros j bs' Hj (Hl' & Ht' & Hd'). rewrite length_insert. split; [done|].
      replace (i * 8 + j + off)%nat with (off + i * 8 + j)%nat by lia. split.
      * rewrite Nat.add_succ_r. rewrite (take_S_r _ _ (Z.testbit c (Z.of_nat j))).
        -- rewrite take_insert_ge, Ht' by lia. rewrite <- !app_assoc. do 2 f_equal. unfold tabulate. by rewrite seq_S, fmap_app.
        -- rewrite list_lookup_insert_eq by lia. by rewrite land_shiftr_1, b2z_nonzero by lia.
      * rewrite drop_insert_lt by lia. done.
    + split; [done|]. split; [|done]. replace (off + S i * 8)%nat with (off + i * 8 + 8)%nat by lia. rewrite Ht8. f_equal.
      rewrite (take_S_r _ _ _ Hc). unfold byte_bits. rewrite fmap_app, concat_app. reflexivity.
  - rewrite firstn_all in Ht. rewrite <- (take_drop (off + length bytes * 8) bs), Ht, Hd. by rewrite <- app_assoc.
Qed.

(** Packing bits into bytes and unpacking them gives the bits back. *)
Lemma byte_bits_tabulate n bits :
  (n * 8 <= length bits)%nat ->
  byte_bits (tabulate n (fun i => bits_val (tabulate 8 (fun j => bits !!! (i * 8 + j + 0)%nat)))) = take (n * 8) bits.
Proof.
  intros Hn. unfold byte_bits. rewrite fmap_tabulate.
  replace (take (n * 8) bits) with (tabulate (n * 8) (fun i => bits !!! i)).
  2:{ apply list_eq. intros i. unfold tabulate. rewrite list_lookup_fmap. destruct (decide (i < n * 8)%nat) as [Hi|Hi].
      - rewrite lookup_seq_lt, lookup_take_lt by lia. cbn. by rewrite list_lookup_lookup_total_lt by lia.
      - rewrite lookup_seq_ge by lia. by rewrite lookup_take_ge by lia. }
  unfold tabulate at 4. rewrite <- seq_grid. etransitivity; [|symmetry; apply concat_map].
  change (map (map ?f) ?l) with (fmap (M := list) (fmap (M := list) f) l). rewrite fmap_tabulate. f_equal.
  apply tabulate_ext. intros i Hi.
  replace (seq (i * 8) 8) with (Nat.add (i * 8) <$> seq 0 8) by (rewrite fmap_add_seq; f_equal; lia).
  unfold tabulate. rewrite <- list_fmap_compose.
  apply list_fmap_ext. intros k' j Hj%lookup_seq. unfold compose. rewrite testbit_bits_val.
  rewrite list_lookup_fmap, lookup_seq_lt by lia. cbn. f_equal. lia.
Qed.

Lemma bits_bytes_bits bits n byte_arr :
  length bits = (n * 8)%nat -> length byte_arr = n ->
  (bytes ← BitsToByteArray byte_arr n bits 0; ByteArrayToBits bytes n (replicate (n * 8) false) 0) = Ok bits.
Proof.
  intros Hb Ha. rewrite BitsToByteArray_spec, res_bind_Ok by lia.
  match goal with |- ByteArrayToBits ?l _ _ _ = _ => pose proof (ByteArrayToBits_spec l (replicate (n * 8) false) 0) as Hs end.
  rewrite tabulate_length, length_replicate in Hs. rewrite Hs by lia.
  rewrite byte_bits_tabulate by lia. rewrite (firstn_all2 bits) by lia. rewrite Nat.add_0_l, drop_ge by (rewrite length_replicate; lia).
  by rewrite app_nil_r.
Qed.
