(* ===== verification/LevelDb.v ===== *)
(** The block store on disk: [pepper/storage/leveldb_block_store.cpp] and the
    interface [HashBlockStore] of [hash_block_store.h].

    The database of the library LevelDB is the interface [LevelDB] with its
    documented laws; a finite map is an instance.  The store is compiled
    without [ASYNC_BSTORE].  What clients of the store rely on is the class
    [HashBlockStore] with its laws, which the LevelDB store discharges. *)
From Stdlib Require Import ZArith Lia.
From stdpp Require Import base numbers list gmap.
From S2P Require Import Prelude Bits.

Local Open Scope Z_scope.

(** ** Interfaces *)

(** [leveldb::DB], from byte strings to byte strings. *)
Class LevelDB : Type := {
  db : Type;
  Get : db -> list Z -> option (list Z);
  Put : db -> list Z -> list Z -> db;
  Delete : db -> list Z -> db
}.

Class LevelDBLaws `{LevelDB} : Prop := {
  Get_Put : forall d k v, Get (Put d k v) k = Some v;
  Get_Put_ne : forall d k k' v, k <> k' -> Get (Put d k v) k' = Get d k';
  Get_Delete : forall d k, Get (Delete d k) k = None;
  Get_Delete_ne : forall d k k', k <> k' -> Get (Delete d k) k' = Get d k'
}.

#[export] Instance MapDB : LevelDB := {
  db := gmap (list Z) (list Z);
  Get d k := d !! k;
  Put d k v := <[k := v]> d;
  Delete d k := delete k d
}.

#[export] Instance MapDBLaws : LevelDBLaws.
Proof.
  split; cbn; intros.
  - apply lookup_insert_eq.
  - by apply lookup_insert_ne.
  - apply lookup_delete_eq.
  - by apply lookup_delete_ne.
Qed.

(** [class HashBlockStore]; a lookup also returns the value variable, which
    keeps what it held when nothing is found. *)
Class HashBlockStore : Type := {
  bstore : Type;
  get : bstore -> Bits -> Bits -> res (bool * Bits);
  put : bstore -> Bits -> Bits -> res bstore;
  getAddr : bstore -> Z -> Bits -> res (bool * Bits);
  putAddr : bstore -> Z -> Bits -> res bstore;
  free : bstore -> Bits -> res bstore
}.

(** The bits that make whole bytes, which are those a store keeps. *)
Definition whole (b : Bits) : Bits := take (length b / 8 * 8) b.

(** Keys of blocks are not taken for addresses, which have four bytes. *)
Definition block_key (k : Bits) : Prop := (length k / 8 <> 4)%nat.

Class HashBlockStoreLaws `{HashBlockStore} : Prop := {
  put_ok : forall s k v, block_key k -> exists s', put s k v = Ok s' /\
    (forall w, get s' k w = Ok (true, whole v)) /\
    (forall k' w, whole k' <> whole k -> get s' k' w = get s k' w) /\
    (forall a w, in_u 32 a -> getAddr s' a w = getAddr s a w);
  putAddr_ok : forall s a v, in_u 32 a -> exists s', putAddr s a v = Ok s' /\
    (forall w, getAddr s' a w = Ok (true, whole v)) /\
    (forall a' w, in_u 32 a' -> a' <> a -> getAddr s' a' w = getAddr s a' w) /\
    (forall k w, block_key k -> get s' k w = get s k w);
  free_ok : forall s k, block_key k -> exists s', free s k = Ok s' /\
    (forall w, get s' k w = Ok (false, w)) /\
    (forall k' w, whole k' <> whole k -> get s' k' w = get s k' w) /\
    (forall a w, in_u 32 a -> getAddr s' a w = getAddr s a w);
  getAddr_ok : forall s a w, in_u 32 a -> exists found v, getAddr s a w = Ok (found, v) /\ (found = false -> v = w)
}.

(** ** The code *)

Section Store.
Context `{LevelDB}.

Definition resize (b : Bits) (n : nat) : Bits := take n b ++ replicate (n - length b) false.

(** Memory of a [uint32_t], on a little-endian machine. *)
Definition addr_bytes (addr : Z) : list Z := tabulate 4 (fun i => Z.land (Z.shiftr addr (8 * Z.of_nat i)) 255).

Definition getVal (d : db) (key : list Z) (value : Bits) : res (bool * Bits) :=
  match Get d key with
  | Some vs =>
      value ← ByteArrayToBits vs (length vs) (resize value (length vs * 8)) 0;
      Ok (true, value)
  | None => Ok (false, value)
  end.

Definition putVal (d : db) (key : list Z) (value : Bits) : res db :=
  let size_byte := (length value / 8)%nat in
  value_buf ← BitsToByteArray (replicate size_byte 0) size_byte value 0;
  Ok (Put d key value_buf).

(** [key_buf] of the four functions below. *)
Definition key_bytes (key : Bits) : res (list Z) :=
  let size_byte := (length key / 8)%nat in BitsToByteArray (replicate size_byte 0) size_byte key 0.

Definition ldb_get (d : db) (key value : Bits) : res (bool * Bits) :=
  key_buf ← key_bytes key; getVal d key_buf value.

Definition synchronousPut (d : db) (key value : Bits) : res db :=
  key_buf ← key_bytes key; putVal d key_buf value.

Definition ldb_put (d : db) (key value : Bits) : res db := synchronousPut d key value.

Definition ldb_getAddr (d : db) (addr : Z) (value : Bits) : res (bool * Bits) := getVal d (addr_bytes addr) value.

Definition ldb_putAddr (d : db) (addr : Z) (value : Bits) : res db := putVal d (addr_bytes addr) value.

Definition ldb_free (d : db) (key : Bits) : res db :=
  key_buf ← key_bytes key; Ok (Delete d key_buf).

#[export] Instance LevelDbStore : HashBlockStore := {
  bstore := db; get := ldb_get; put := ldb_put; getAddr := ldb_getAddr; putAddr := ldb_putAddr; free := ldb_free
}.

(** ** Correctness *)

(** The bytes of a value. *)
Definition bytes_of (b : Bits) : list Z :=
  tabulate (length b / 8) (fun i => bits_val (tabulate 8 (fun j => b !!! (i * 8 + j + 0)%nat))).

Lemma whole_bytes (b : Bits) : (length b / 8 * 8 <= length b)%nat.
Proof. rewrite Nat.mul_comm. apply Nat.Div0.mul_div_le. Qed.

Lemma to_bytes (b : Bits) :
  BitsToByteArray (replicate (length b / 8) 0) (length b / 8) b 0 = Ok (bytes_of b).
Proof. apply BitsToByteArray_spec; [apply length_replicate|]. rewrite Nat.add_0_r. apply whole_bytes. Qed.

Lemma byte_bits_bytes_of b : byte_bits (bytes_of b) = whole b.
Proof. apply byte_bits_tabulate, whole_bytes. Qed.

Lemma bytes_of_inj b b' : whole b <> whole b' -> bytes_of b <> bytes_of b'.
Proof. intros Hne Heq. apply Hne. by rewrite <- !byte_bits_bytes_of, Heq. Qed.

Lemma resize_length b n : length (resize b n) = n.
Proof. unfold resize. rewrite length_app, length_take, length_replicate. lia. Qed.

Lemma getVal_found d k vs w : Get d k = Some vs -> getVal d k w = Ok (true, byte_bits vs).
Proof.
  intros Hg. unfold getVal. rewrite Hg. rewrite ByteArrayToBits_spec by (rewrite resize_length; lia).
  rewrite res_bind_Ok, take_0, drop_ge by (rewrite resize_length; lia). by rewrite app_nil_r.
Qed.

Lemma getVal_ext d d' k w : Get d k = Get d' k -> getVal d k w = getVal d' k w.
Proof. intros Hg. unfold getVal. by rewrite Hg. Qed.

Lemma addr_bytes_inj a a' : in_u 32 a -> in_u 32 a' -> a <> a' -> addr_bytes a <> addr_bytes a'.
Proof.
  intros Ha Ha' Hne Heq. apply Hne. apply Z.bits_inj'. intros i Hi.
  destruct (Z.ltb_spec i 32) as [Hlt|Hge].
  - assert (addr_bytes a !!! Z.to_nat (i / 8) = addr_bytes a' !!! Z.to_nat (i / 8)) as Hb by by rewrite Heq.
    assert (i / 8 < 4) by (apply Z.div_lt_upper_bound; lia). pose proof (Z.div_pos i 8 Hi ltac:(lia)).
    unfold addr_bytes in Hb. rewrite !tabulate_lookup, Z2Nat.id in Hb by lia.
    apply (f_equal (fun z => Z.testbit z (i mod 8))) in Hb. pose proof (Z.mod_pos_bound i 8 ltac:(lia)).
    change 255 with (Z.ones 8) in Hb. rewrite !Z.land_spec, !Z.ones_spec_low, !andb_true_r, !Z.shiftr_spec in Hb by lia.
    replace (i mod 8 + 8 * (i / 8)) with i in Hb by (pose proof (Z.div_mod i 8); lia). exact Hb.
  - unfold in_u in *. rewrite <- (Z.mod_small a (2 ^ 32)), <- (Z.mod_small a' (2 ^ 32)) by lia.
    by rewrite !Z.mod_pow2_bits_high by lia.
Qed.

Lemma bytes_of_length b : length (bytes_of b) = (length b / 8)%nat.
Proof. apply tabulate_length. Qed.

Lemma addr_bytes_length a : length (addr_bytes a) = 4%nat.
Proof. apply tabulate_length. Qed.

Lemma block_key_addr k a : block_key k -> bytes_of k <> addr_bytes a.
Proof. intros Hk Heq. apply Hk. by rewrite <- bytes_of_length, Heq, addr_bytes_length. Qed.

Lemma ldb_put_eq d k v : ldb_put d k v = Ok (Put d (bytes_of k) (bytes_of v)).
Proof. unfold ldb_put, synchronousPut, key_bytes, putVal. cbv zeta. by rewrite !to_bytes. Qed.

Lemma ldb_get_eq d k w : ldb_get d k w = getVal d (bytes_of k) w.
Proof. unfold ldb_get, key_bytes. cbv zeta. by rewrite to_bytes. Qed.

Lemma ldb_free_eq d k : ldb_free d k = Ok (Delete d (bytes_of k)).
Proof. unfold ldb_free, key_bytes. cbv zeta. by rewrite to_bytes. Qed.

Lemma ldb_putAddr_eq d a v : ldb_putAddr d a v = Ok (Put d (addr_bytes a) (bytes_of v)).
Proof. unfold ldb_putAddr, putVal. cbv zeta. by rewrite to_bytes. Qed.

Context `{!LevelDBLaws}.

#[export] Instance LevelDbStoreLaws : HashBlockStoreLaws.
Proof.
  split; cbn; intros.
  - eexists. split; [apply ldb_put_eq|]. split; [|split]; intros.
    + rewrite ldb_get_eq, (getVal_found _ _ _ _ (Get_Put _ _ _)). by rewrite byte_bits_bytes_of.
    + rewrite !ldb_get_eq. apply getVal_ext, Get_Put_ne. by apply bytes_of_inj, not_eq_sym.
    + apply getVal_ext, Get_Put_ne. by apply block_key_addr.
  - eexists. split; [apply ldb_putAddr_eq|]. split; [|split]; intros.
    + unfold ldb_getAddr. rewrite (getVal_found _ _ _ _ (Get_Put _ _ _)). by rewrite byte_bits_bytes_of.
    + apply getVal_ext, Get_Put_ne. apply addr_bytes_inj; [done..|]. by apply not_eq_sym.
    + rewrite !ldb_get_eq. apply getVal_ext, Get_Put_ne. intros Heq. by eapply block_key_addr.
  - eexists. split; [apply ldb_free_eq|]. split; [|split]; intros.
    + rewrite ldb_get_eq. unfold getVal. by rewrite Get_Delete.
    + rewrite !ldb_get_eq. apply getVal_ext, Get_Delete_ne. by apply bytes_of_inj, not_eq_sym.
    + apply getVal_ext, Get_Delete_ne. by apply block_key_addr.
  - unfold ldb_getAddr. destruct (Get s (addr_bytes a)) as [vs|] eqn:Hg.
    + rewrite (getVal_found _ _ _ _ Hg). by eexists _, _.
    + unfold getVal. rewrite Hg. by eexists _, _.
Qed.

Lemma whole_exact (b : Bits) : (8 | length b)%nat -> whole b = b.
Proof. intros [n Hn]. unfold whole. rewrite Hn, Nat.div_mul by done. by rewrite <- Hn, firstn_all. Qed.

(** A block that is put is got back with the bits that fill whole
    bytes: the value itself when its length is a multiple of eight, else
    without its last bits; blocks under other keys stay as they were, a freed
    block is gone, and no assertion about sizes fails. *)
Theorem leveldb_put_get d k v w :
  exists d', ldb_put d k v = Ok d' /\ ldb_get d' k w = Ok (true, whole v) /\
    ((8 | length v)%nat -> ldb_get d' k w = Ok (true, v)) /\
    (forall k', whole k' <> whole k -> ldb_get d' k' w = ldb_get d k' w) /\
    exists d'', ldb_free d' k = Ok d'' /\ ldb_get d'' k w = Ok (false, w).
Proof.
  assert (ldb_get (Put d (bytes_of k) (bytes_of v)) k w = Ok (true, whole v)) as Hget.
  { rewrite ldb_get_eq, (getVal_found _ _ _ _ (Get_Put _ _ _)). by rewrite byte_bits_bytes_of. }
  eexists. split; [apply ldb_put_eq|]. split; [exact Hget|]. split; [|split].
  - intros Hv. by rewrite Hget, whole_exact.
  - intros k' Hk. rewrite !ldb_get_eq. apply getVal_ext, Get_Put_ne. by apply bytes_of_inj, not_eq_sym.
  - eexists. split; [apply ldb_free_eq|]. rewrite ldb_get_eq. unfold getVal. by rewrite Get_Delete.
Qed.

End Store.

Lemma leveldb_put_get_witness :
  let k := replicate 8 true in
  exists d', ldb_put (H := MapDB) ∅ k (replicate 11 true) = Ok d' /\
    ldb_get (H := MapDB) d' k [] = Ok (true, replicate 8 true).
Proof.
  destruct (leveldb_put_get (H := MapDB) (∅ : gmap (list Z) (list Z)) (replicate 8 true) (replicate 11 true) [])
    as (d' & H1 & H2 & _). exists d'. split; [exact H1|exact H2].
Defined.
