(* ===== verification/AsyncStore.v ===== *)
(** The LevelDB store compiled with [ASYNC_BSTORE]:
    [pepper/storage/leveldb_block_store.cpp].

    [put] pushes the pair on a [SynchronizedQueue] and a thread of the store
    pops it and writes it to the database; [get] first takes what is left in the
    queue and writes it itself.  The steps of the two threads interleave.  The
    operations of the queue are atomic here, which [SyncQueue.v] shows they
    may be taken for. *)
From Stdlib Require Import ZArith Lia.
From stdpp Require Import base numbers list gmap.
From S2P Require Import Prelude Bits LevelDb.

(** ** The code as steps *)

Section Async.
Context `{LevelDB}.

Abbreviation pair := (Bits * Bits)%type.

(** Where the thread that writes is in [writeKVPairsToDisk]. *)
Inductive writer_pc : Type := WTest | WPop | WWrite (kv : pair) | WEnded.

(** Where the thread that calls the store is: in [get], with the pairs still
    to be written, or in the destructor. *)
Inductive client_pc : Type :=
| CIdle
| GetFlush (key value : Bits) | GetWrites (key value : Bits) (remaining : list pair)
| DestroyStop | DestroyFlush | DestroyWrites (remaining : list pair)
| CGone.

(** [answers] are those of the calls of [get], the last first. *)
Record state : Type := State {
  disk : db;
  opened : bool;
  kv_pairs_to_write : list pair;
  multi_thread_running : bool;
  writer : writer_pc;
  client : client_pc;
  answers : list (Bits * (bool * Bits))
}.

Inductive outcome : Type := Waits | Goes (s : state) | Undefined.

(** The database is deleted when it is closed. *)
Definition write (kv : pair) (s : state) (next : db -> state) : outcome :=
  if opened s then match synchronousPut (disk s) kv.1 kv.2 with Ok d => Goes (next d) | _ => Undefined end else Undefined.

Definition writeKVPairsToDisk (s : state) : outcome :=
  let '(State d o q r w c a) := s in
  match w with
  | WTest => Goes (State d o q r (if r then WPop else WEnded) c a)
  | WPop => match q with [] => Waits | kv :: q => Goes (State d o q r (WWrite kv) c a) end
  | WWrite kv => write kv s (fun d => State d o q r WTest c a)
  | WEnded => Waits
  end.

Inductive call : Type := CallPut (key value : Bits) | CallGet (key value : Bits) | CallFree (key : Bits) | CallDestroy.

(** [put] and [free] are one step. *)
Definition async_put (k v : Bits) (s : state) : outcome :=
  let '(State d o q r w _ a) := s in Goes (State d o (q ++ [(k, v)]) r w CIdle a).
Definition async_free (k : Bits) (s : state) : outcome :=
  let '(State d o q r w _ a) := s in
  if o then match ldb_free d k with Ok d => Goes (State d o q r w CIdle a) | _ => Undefined end else Undefined.

Definition at_pc (c : client_pc) (s : state) : state :=
  let '(State d o q r w _ a) := s in State d o q r w c a.

(** A call of the client. *)
Definition start (c : call) (s : state) : outcome :=
  match c with
  | CallPut k v => async_put k v s
  | CallGet k v => Goes (at_pc (GetFlush k v) s)
  | CallFree k => async_free k s
  | CallDestroy => Goes (at_pc DestroyStop s)
  end.

Definition get_step (s : state) : outcome :=
  let '(State d o q r w c a) := s in
  match c with
  | GetFlush k v => Goes (State d o [] r w (GetWrites k v q) a)
  | GetWrites k v (kv :: rest) => write kv s (fun d => State d o q r w (GetWrites k v rest) a)
  | GetWrites k v [] => if o then match ldb_get d k v with Ok x => Goes (State d o q r w CIdle ((k, x) :: a)) | _ => Undefined end else Undefined
  | _ => Waits
  end.

Definition destructor_step (s : state) : outcome :=
  let '(State d o q r w c a) := s in
  match c with
  | DestroyStop => Goes (State d o q false w DestroyFlush a)
  | DestroyFlush => Goes (State d o [] r w (DestroyWrites q) a)
  | DestroyWrites (kv :: rest) => write kv s (fun d => State d o q r w (DestroyWrites rest) a)
  | DestroyWrites [] => Goes (State d false q r w CGone a)
  | _ => Waits
  end.

Definition run_client (s : state) : outcome :=
  match client s with GetFlush _ _ | GetWrites _ _ _ => get_step s | _ => destructor_step s end.

Inductive event : Type := Writer | Client | Calls (c : call).

Definition exec (e : event) (s : state) : outcome :=
  match e with
  | Writer => writeKVPairsToDisk s
  | Client => run_client s
  | Calls c => match client s with CIdle => start c s | _ => Waits end
  end.

Fixpoint exec_all (es : list event) (s : state) : outcome :=
  match es with
  | [] => Goes s
  | e :: es => match exec e s with Goes s => exec_all es s | o => o end
  end.

(** The constructor, over what the database holds. *)
Definition LevelDBBlockStore (d : db) : state := State d true [] true WTest CIdle [].

(** ** Stores of blocks named by their contents *)

Context `{!LevelDBLaws}.

(** The block a key stands for; a client puts it under its key, and neither
    frees nor destroys. *)
Variable content : Bits -> Bits.

Definition key_ok (k : Bits) : Prop := (8 | length k) /\ block_key k.

Definition polite (e : event) : Prop :=
  match e with
  | Calls (CallPut k v) => key_ok k /\ v = content k
  | Calls (CallGet k _) => key_ok k
  | Calls _ => False
  | Writer | Client => True
  end.

(** The runs of such clients, with the keys put so far. *)
Inductive reachable (d : db) : state -> list Bits -> Prop :=
| reach_init : reachable d (LevelDBBlockStore d) []
| reach_step e s s' ks : reachable d s ks -> polite e -> exec e s = Goes s' ->
    reachable d s' (match e with Calls (CallPut k _) => k :: ks | _ => ks end).

Definition good (kv : pair) : Prop := key_ok kv.1 /\ kv.2 = content kv.1.

(** The pairs that are on their way. *)
Definition held (w : writer_pc) : list pair := match w with WWrite kv => [kv] | _ => [] end.
Definition taken (c : client_pc) : list pair := match c with GetWrites _ _ rest => rest | _ => [] end.

Definition on_disk (d : db) (k : Bits) : Prop := forall w, ldb_get d k w = Ok (true, whole (content k)).

Record inv (s : state) (ks : list Bits) : Prop := {
  inv_open : opened s = true /\ multi_thread_running s = true /\ writer s <> WEnded;
  inv_pc : match client s with CIdle | GetFlush _ _ => True | GetWrites _ _ _ => kv_pairs_to_write s = [] | _ => False end;
  inv_good : Forall good (held (writer s) ++ taken (client s) ++ kv_pairs_to_write s);
  inv_keys : Forall (fun k => key_ok k /\ (on_disk (disk s) k \/ k ∈ (held (writer s) ++ taken (client s) ++ kv_pairs_to_write s).*1)) ks
}.

Lemma write_disk d kv : good kv -> exists d', synchronousPut d kv.1 kv.2 = Ok d' /\
  (forall w, ldb_get d' kv.1 w = Ok (true, whole (content kv.1))) /\
  forall k, key_ok k -> k <> kv.1 -> forall w, ldb_get d' k w = ldb_get d k w.
Proof.
  intros [[Hdiv Hk] Hv]. destruct (put_ok (H := LevelDbStore) d kv.1 kv.2 Hk) as (d' & Hput & Hget & Hother & _).
  exists d'. split; [exact Hput|]. rewrite <- Hv. split; [exact Hget|]. intros k [Hdiv' _] Hne w. apply Hother. by rewrite !whole_exact.
Qed.

(** A pair that is written moves from those on their way to the disk. *)
Lemma written_keys d d' ks kv (before rest : list Bits) : good kv ->
  (forall w, ldb_get d' kv.1 w = Ok (true, whole (content kv.1))) ->
  (forall k, key_ok k -> k <> kv.1 -> forall w, ldb_get d' k w = ldb_get d k w) ->
  (forall k, k ∈ before -> k = kv.1 \/ k ∈ rest) ->
  Forall (fun k => key_ok k /\ (on_disk d k \/ k ∈ before)) ks ->
  Forall (fun k => key_ok k /\ (on_disk d' k \/ k ∈ rest)) ks.
Proof.
  intros Hgood Hnew Hold Hin Hks. eapply Forall_impl; [exact Hks|]. intros k [Hk Hcase]. split; [done|].
  destruct (decide (k = kv.1)) as [->|Hne]; [by left|]. destruct Hcase as [Hd|Hon]; [left|right].
  - intros w. by rewrite Hold.
  - by destruct (Hin k Hon).
Qed.

Lemma async_exec_inv e s s' ks : inv s ks -> polite e -> exec e s = Goes s' -> inv s' (match e with Calls (CallPut k _) => k :: ks | _ => ks end).
Proof.
  intros [(Ho & Hr & Hw) Hpc Hgood Hkeys] Hpol. destruct s as [d o q r w c a]. cbn [opened multi_thread_running client writer kv_pairs_to_write] in *. subst o r.
  destruct e as [| |cl]; cbn [exec client].
  - unfold writeKVPairsToDisk. destruct w as [| |kv|]; cbn [held app] in *; [intros [= <-]; by split| |unfold write; cbn [opened disk]|done].
    + destruct q as [|kv q]; [done|]. intros [= <-]. assert (taken c = []) as Hc by (by destruct c). rewrite Hc in *. split; cbn; rewrite ?Hc; try done. by destruct c.
    + apply Forall_cons in Hgood as [Hkv Hrest]. destruct (write_disk d kv Hkv) as (d' & -> & Hnew & Hold). intros [= <-]. split; cbn; try done.
      eapply written_keys; [exact Hkv|exact Hnew|exact Hold| |exact Hkeys]. intros k. cbn. rewrite elem_of_cons. tauto.
  - unfold run_client, get_step. cbn [client]. destruct c as [|k v|k v [|kv rest]| | | |]; cbn [held taken app] in *; try done.
    + intros [= <-]. split; cbn; rewrite ?app_nil_r; done.
    + destruct (ldb_get d k v) as [x| |]; [|done..]. intros [= <-]. by split.
    + unfold write. cbn [opened disk]. subst q. rewrite app_nil_r in *. apply Forall_app in Hgood as [Hheld [Hkv Hrest]%Forall_cons].
      destruct (write_disk d kv Hkv) as (d' & -> & Hnew & Hold). intros [= <-]. split; cbn; rewrite ?app_nil_r; try done; [by apply Forall_app|].
      eapply written_keys; [exact Hkv|exact Hnew|exact Hold| |exact Hkeys]. intros k'. rewrite !fmap_app, !elem_of_app. cbn. rewrite elem_of_cons. tauto.
  - destruct c; try done. unfold start, async_put, at_pc. destruct cl as [k v|k v|k|]; cbn [polite taken] in *; [|intros [= <-]; by split|done..].
    destruct Hpol as [Hk ->]. intros [= <-]. split; cbn; try done.
    + rewrite app_assoc. apply Forall_app. split; [done|]. by apply Forall_singleton.
    + rewrite !fmap_app. apply Forall_cons. split; [split; [done|right]; rewrite !elem_of_app; right; right; cbn; by apply list_elem_of_singleton|].
      eapply Forall_impl; [exact Hkeys|]. intros k' [Hk' [Hd|Hin]]; (split; [done|]); [by left|right]. cbn in Hin. rewrite fmap_app, elem_of_app in Hin. rewrite !elem_of_app. tauto.
Qed.

Lemma async_reachable_inv d s ks : reachable d s ks -> inv s ks.
Proof. induction 1 as [|e s s' ks _ IH Hpol Hstep]; [by split|]. by eapply async_exec_inv. Qed.

Lemma write_defined s kv next : opened s = true -> good kv -> write kv s next <> Undefined.
Proof. intros Ho Hkv. unfold write. rewrite Ho. by destruct (write_disk (disk s) kv Hkv) as (d' & -> & _). Qed.

(** No step of such a client or of the writer uses a closed database. *)
Lemma async_exec_defined e s ks : inv s ks -> polite e -> exec e s <> Undefined.
Proof.
  intros [(Ho & Hr & _) _ Hgood _] Hpol. destruct s as [d o q r w c a]. cbn in *. subst o r. destruct e as [| |cl]; cbn [exec client].
  - destruct w as [| |kv|]; cbn [writeKVPairsToDisk]; [done|by destruct q| |done]. apply write_defined; [done|]. by apply Forall_cons in Hgood as [? _].
  - destruct c as [|k v|k v [|kv rest]| | |rest|]; unfold run_client, get_step; cbn [client destructor_step]; try done.
    + rewrite ldb_get_eq. unfold getVal. destruct (LevelDb.Get d (bytes_of k)) as [vs|]; [|done].
      rewrite ByteArrayToBits_spec by (rewrite resize_length; lia). done.
    + apply write_defined; [done|]. by apply Forall_app in Hgood as [_ [? _]%Forall_cons].
    + destruct rest as [|kv rest]; [done|]. apply Forall_app in Hgood as [_ Hgood]. unfold write. cbn [opened disk].
      destruct (synchronousPut d kv.1 kv.2) eqn:Hp; [done|..]; unfold synchronousPut, key_bytes, putVal in Hp; cbv zeta in Hp; by rewrite !to_bytes in Hp.
  - destruct c; try done. by destruct cl.
Qed.

(** What is left for the writer to do. *)
Definition work (s : state) : nat := 3 * length (kv_pairs_to_write s) + match writer s with WTest => 1 | WWrite _ => 2 | _ => 0 end.

Lemma writer_progress s ks : inv s ks ->
  (writer s = WPop /\ kv_pairs_to_write s = []) \/
  exists s', exec Writer s = Goes s' /\ client s' = client s /\ work s' < work s.
Proof.
  intros [(Ho & Hr & Hw) _ Hgood _]. destruct s as [d o q r w c a]. cbn in *. subst o r. unfold work. cbn.
  destruct w as [| |kv|]; [right; eexists; (split; [reflexivity|]); cbn; (split; [done|lia])| |right|done].
  - destruct q as [|kv q]; [by left|right]. eexists. split; [done|]. cbn. split; [done|lia].
  - apply Forall_cons in Hgood as [Hkv _]. unfold write. cbn. destruct (write_disk d kv Hkv) as (d' & -> & _). eexists. split; [done|]. cbn. split; [done|lia].
Qed.

(** The writer alone brings every block that was put to the disk. *)
Lemma drain n : forall s ks, inv s ks -> taken (client s) = [] -> work s <= n ->
  exists m s', m <= n /\ exec_all (replicate m Writer) s = Goes s' /\ client s' = client s /\ Forall (on_disk (disk s')) ks.
Proof.
  induction n as [n IH] using lt_wf_ind. intros s ks Hinv Ht Hn. destruct (writer_progress s ks Hinv) as [[Hw Hq]|(s1 & Hrun & Hc & Hlt)].
  - exists 0, s. split; [lia|]. split; [done|]. split; [done|]. pose proof (inv_keys s ks Hinv) as Hkeys. rewrite Ht, Hq, Hw in Hkeys.
    eapply Forall_impl; [exact Hkeys|]. intros k [_ [Hd|Hin]]; [done|]. cbn in Hin. by apply elem_of_nil in Hin.
  - destruct (IH (work s1)) with (s := s1) (ks := ks) as (m & s2 & Hm & Hall & Hc2 & Hd); [lia|by apply (async_exec_inv Writer s s1 ks)|by rewrite Hc|lia|].
    exists (S m), s2. split; [lia|]. cbn [replicate exec_all]. rewrite Hrun. split; [done|]. by rewrite Hc2.
Qed.

(** C30: For clients that put blocks under their own keys, however the two threads
    interleave: no closed database is used; a [get] finds every block put before
    it unless the writer holds just this block between taking it from the queue
    and writing it; and the writer alone brings all blocks to the disk within
    three steps for each pair in the queue. *)
Theorem async_store_correct d s ks : reachable d s ks ->
  (forall e, polite e -> exec e s <> Undefined) /\
  (forall k w, client s = GetWrites k w [] -> k ∈ ks ->
     writer s = WWrite (k, content k) \/ exists s', exec Client s = Goes s' /\ answers s' = (k, (true, whole (content k))) :: answers s) /\
  (taken (client s) = [] -> exists m s', m <= 3 * length (kv_pairs_to_write s) + 2 /\ exec_all (replicate m Writer) s = Goes s' /\ Forall (on_disk (disk s')) ks).
Proof.
  intros Hinv%async_reachable_inv. split; [|split].
  - intros e He. by apply (async_exec_defined e s ks).
  - intros k w Hc Hk. destruct Hinv as [(Ho & _) Hpc Hgood Hkeys]. destruct s as [d' o q r wr c a]. cbn in *. subst c o q. rewrite app_nil_r in *. cbn in *.
    rewrite Forall_forall in Hkeys. destruct (Hkeys k Hk) as [_ [Hd|Hin]].
    + right. rewrite (Hd w). by eexists.
    + left. destruct wr as [| |kv|]; cbn in Hin; try by apply elem_of_nil in Hin. apply list_elem_of_singleton in Hin as ->. apply Forall_singleton in Hgood as [_ Hv].
      destruct kv as [k v]. cbn in *. by rewrite Hv.
  - intros Ht. destruct (drain (work s) s ks Hinv Ht (le_n _)) as (m & s' & Hm & Hall & _ & Hd). exists m, s'. split; [|done].
    unfold work in Hm. destruct (writer s); lia.
Qed.

End Async.

(** ** Runs that go wrong *)

Definition key1 : Bits := replicate 8 true.
Definition block1 : Bits := replicate 16 true.
Definition fresh_db : db (LevelDB := MapDB) := (∅ : gmap (list Z) (list Z)).
Definition outcome_answers (o : outcome (H := MapDB)) : option (list (Bits * (bool * Bits))) := match o with Goes s => Some (answers s) | _ => None end.

(** A block that was put is reported missing while the writer holds it; a
    block that was freed comes back, even with the writer asleep; and after the
    destructor the writer uses the database that was deleted. *)
Theorem async_store_races :
  outcome_answers (exec_all [Calls (CallPut key1 block1); Writer; Writer; Calls (CallGet key1 []); Client; Client] (LevelDBBlockStore fresh_db))
    = Some [(key1, (false, []))] /\
  outcome_answers (exec_all [Calls (CallPut key1 block1); Calls (CallFree key1); Calls (CallGet key1 []); Client; Client; Client] (LevelDBBlockStore fresh_db))
    = Some [(key1, (true, block1))] /\
  exec_all [Calls (CallPut key1 block1); Writer; Writer; Calls CallDestroy; Client; Client; Client; Writer] (LevelDBBlockStore fresh_db) = Undefined.
Proof. vm_compute. split; [|split]; reflexivity. Qed.

Definition waiting_state : state (H := MapDB) :=
  State fresh_db true [] true WPop (GetWrites key1 [] [(key1, block1)]) [].

Lemma reading_reachable : exists s, exec_all [Calls (CallPut key1 block1); Writer; Calls (CallGet key1 []); Client; Client] (LevelDBBlockStore fresh_db) = Goes s /\
  client s = GetWrites key1 [] [] /\ writer s = WPop /\ reachable (fun _ => block1) fresh_db s [key1].
Proof.
  eexists. split; [vm_compute; reflexivity|]. split; [reflexivity|]. split; [reflexivity|].
  assert (key_ok key1) as Hk by (split; [by exists 1|vm_compute; discriminate]).
  refine (reach_step _ _ Client waiting_state _ [key1] _ I eq_refl).
  refine (reach_step _ _ Client (State fresh_db true [(key1, block1)] true WPop (GetFlush key1 []) []) _ [key1] _ I eq_refl).
  refine (reach_step _ _ (Calls (CallGet key1 [])) (State fresh_db true [(key1, block1)] true WPop CIdle []) _ [key1] _ Hk eq_refl).
  refine (reach_step _ _ Writer (State fresh_db true [(key1, block1)] true WTest CIdle []) _ [key1] _ I eq_refl).
  refine (reach_step _ _ (Calls (CallPut key1 block1)) (LevelDBBlockStore fresh_db) _ [] (reach_init _ _) (conj Hk eq_refl) eq_refl).
Qed.

Lemma async_store_witness : exists s s', client s = GetWrites key1 [] [] /\ exec Client s = Goes s' /\ answers s' = (key1, (true, block1)) :: answers s.
Proof.
  destruct reading_reachable as (s & _ & Hc & Hw & Hr). destruct (async_store_correct (H := MapDB) (fun _ => block1) fresh_db s [key1] Hr) as (_ & Hread & _).
  destruct (Hread key1 [] Hc) as [Hwr|(s' & Hs' & Ha)]; [by apply list_elem_of_singleton|by rewrite Hw in Hwr|]. exists s, s'. done.
Defined.
