(* ===== verification/GghHash.v ===== *)
(** Hash functions of the storage layer: [pepper/storage/hasher.h],
    [hasher.cpp], [ggh_hash.cpp] and [null_hash.cpp].

    The class [Hasher] is the C++ class of that name.  The GGH hash adds up
    columns of a matrix of numbers below [Q], chosen by the bits of a block
    that holds the previous digest and the next bits of the message; the
    matrix (the table [AMat] of [gghA.h], of half a million entries) is a
    parameter, and so are the sizes, which the code fixes at the end of the
    file. *)
From Stdlib Require Import ZArith Lia.
From stdpp Require Import base numbers list.
From S2P Require Import Prelude Bits ShaSpec.

Local Open Scope Z_scope.

(** ** Digests as field elements *)

Definition FIELD_SIZE : nat := 64.

(** The constructor of [HashType]. *)
Definition HashType (hashBits : Bits) (numElts : nat) : list Z :=
  let '(fieldElts, _) :=
    for_up 0 numElts
      (fun i '(fieldElts, index) =>
         let '(elt, index) :=
           for_up 0 FIELD_SIZE
             (fun j '(elt, index) =>
                (if hashBits !!! index : bool then Z.setbit elt (Z.of_nat j) else elt, S index)) (0, index) in
         (fieldElts ++ [elt], index)) ([], O) in
  fieldElts.

Class Hasher : Type := {
  getNumHashBits : nat;
  createHash : Bits -> list Z;
  hash : Bits -> res Bits;
  hash2 : Bits -> Bits -> res Bits
}.

(** The hash functions do not fail, and their digests have the size
    announced. *)
Class HasherLaws `{Hasher} : Prop := {
  hash_ok : forall v, Z.of_nat (length v) < 2 ^ 30 -> exists h, hash v = Ok h /\ length h = getNumHashBits;
  hash2_ok : forall l r, length l = getNumHashBits -> length r = getNumHashBits ->
    exists h, hash2 l r = Ok h /\ length h = getNumHashBits
}.

(** ** The code of the GGH hash *)

Section Ggh.
Context (N : nat) (Q : Z) (Q_BITS M : nat) (GGHIV : list Z) (AMat : nat -> Z).

Definition OUTPUT_BITS : nat := N * Q_BITS.
Definition NUM_ELTS : nat := OUTPUT_BITS / FIELD_SIZE.

Definition concatBits (b1 b2 : Bits) : Bits :=
  let b := replicate (length b1 + length b2) false in
  let '(b, index) := for_up 0 (length b1) (fun i '(b, index) => (<[index := b1 !!! i]> b, S index)) (b, O) in
  let '(b, _) := for_up 0 (length b2) (fun i '(b, index) => (<[index := b2 !!! i]> b, S index)) (b, index) in
  b.

Definition copyIVBits (ivBits : Bits) : res Bits :=
  for_upM 0 (OUTPUT_BITS / 8)
    (fun i ivBits =>
       ivByte ← rd GGHIV (Z.of_nat i);
       for_upM 0 8
         (fun j ivBits => wr ivBits (Z.of_nat (i * 8 + j)) (negb (Z.land (Z.shiftr ivByte (Z.of_nat j)) 1 =? 0))) ivBits)
    ivBits.

Definition copyLengthBits (b : Bits) (start : nat) (len : Z) : res Bits :=
  for_upM 0 64
    (fun i b => wr b (Z.of_nat (start + i)) (negb (Z.land (Z.shiftr len (Z.of_nat i)) 1 =? 0))) b.

Definition copyBits (dst : Bits) (dstStart : nat) (src : Bits) (srcStart numBits : nat) : res Bits :=
  for_upM 0 numBits
    (fun i dst => b ← rd src (Z.of_nat (srcStart + i)); wr dst (Z.of_nat (dstStart + i)) b) dst.

Definition hashBlock (input : Bits) (inputSize : nat) (result : Bits) : res Bits :=
  if (inputSize <=? M)%nat then
    let '(result, _) :=
      for_up 0 N
        (fun i '(result, rIndex) =>
           let row j := AMat (i * M + j)%nat in
           let rowSum := for_up 0 inputSize (fun j rowSum => if input !!! j : bool then u32 (rowSum + row j) else rowSum) 0 in
           let rowSum := rowSum mod Q in
           for_up 0 Q_BITS
             (fun j '(result, rIndex) =>
                (<[rIndex := negb (Z.land (Z.shiftr rowSum (Z.of_nat j)) 1 =? 0)]> result, S rIndex)) (result, rIndex))
        (result, O) in
    Ok result
  else Fault.

(** [inputCopied], [numInputBits] and [spaceLeft] are [int]s. *)
Definition hashBits (fuel : nat) (input : Bits) : res Bits :=
  resultBits ← copyIVBits (replicate OUTPUT_BITS false);
  loop fuel
    (fun '(blockBits, resultBits, firstBlock, inputCopied) =>
       blockBits ← copyBits blockBits 0 resultBits 0 OUTPUT_BITS;
       let blockCopied := OUTPUT_BITS in
       '(blockBits, blockCopied) ←
         (if firstBlock : bool then
            blockBits ← copyLengthBits blockBits blockCopied (u64 (Z.of_nat (length input)));
            Ok (blockBits, (blockCopied + 64)%nat)
          else Ok (blockBits, blockCopied));
       let numInputBits := s32 (Z.of_nat (length input) - inputCopied) in
       let spaceLeft := s32 (Z.of_nat (length blockBits) - Z.of_nat blockCopied) in
       let numInputBits := if numInputBits >? spaceLeft then spaceLeft else numInputBits in
       '(blockBits, inputCopied, blockCopied) ←
         (if numInputBits >? 0 then
            blockBits ← copyBits blockBits blockCopied input (Z.to_nat inputCopied) (Z.to_nat numInputBits);
            Ok (blockBits, s32 (inputCopied + numInputBits), (blockCopied + Z.to_nat numInputBits)%nat)
          else Ok (blockBits, inputCopied, blockCopied));
       '(blockBits, blockCopied, moreBlocks) ←
         (if (blockCopied <? length blockBits)%nat then
            blockBits ← wr blockBits (Z.of_nat blockCopied) true;
            Ok (blockBits, S blockCopied, false)
          else Ok (blockBits, blockCopied, true));
       resultBits ← hashBlock blockBits blockCopied resultBits;
       if moreBlocks : bool then Ok (inl (blockBits, resultBits, false, inputCopied)) else Ok (inr resultBits))
    (replicate M false, resultBits, true, 0).

(** ** The construction *)

(** The digest of a block: for every row the sum of the columns its bits
    choose, modulo [Q], with the low bit first. *)
Definition row_sum (block : Bits) (i : nat) : Z :=
  zsum (length block) (fun j => if block !!! j : bool then AMat (i * M + j)%nat else 0) mod Q.

Definition compress (block : Bits) : Bits :=
  concat (tabulate N (fun i => tabulate Q_BITS (fun j => Z.testbit (row_sum block i) (Z.of_nat j)))).

(** The message with its length in front, an end mark, and zeros to the end
    of the last block. *)
Definition block_room : nat := M - OUTPUT_BITS.

Definition stream (input : Bits) : Bits :=
  tabulate 64 (fun i => Z.testbit (Z.of_nat (length input)) (Z.of_nat i)) ++ input ++ [true].

Definition zero_pad (s : Bits) : Bits := s ++ replicate (block_room - S ((length s - 1) mod block_room)) false.

(** The prefix-free Merkle-Damgård construction over [compress]. *)
Definition ggh (input : Bits) : Bits :=
  foldl (fun digest chunk => compress (digest ++ chunk)) (byte_bits GGHIV) (chunks block_room (zero_pad (stream input))).

Lemma ggh_compress_length block : length (compress block) = OUTPUT_BITS.
Proof.
  unfold compress, OUTPUT_BITS. generalize N. intros n. induction n as [|n IH]; [done|].
  unfold tabulate in *. rewrite seq_S, fmap_app, concat_app, length_app, IH. cbn. rewrite app_nil_r.
  rewrite length_fmap, length_seq. lia.
Qed.

(** ** The code computes it *)

Hypothesis HIV : length GGHIV = (OUTPUT_BITS / 8)%nat.
Hypothesis Hbytes : (8 | OUTPUT_BITS)%nat.
Hypothesis Hroom : (OUTPUT_BITS + 64 < M)%nat.
Hypothesis HM : Z.of_nat M < 2 ^ 30.
Hypothesis HA : forall k, 0 <= AMat k < Q.
Hypothesis Hsum : Z.of_nat M * Q < 2 ^ 32.

Lemma copyBits_spec dst dstStart src srcStart numBits :
  (srcStart + numBits <= length src)%nat -> (dstStart + numBits <= length dst)%nat ->
  copyBits dst dstStart src srcStart numBits
  = Ok (take dstStart dst ++ take numBits (drop srcStart src) ++ drop (dstStart + numBits) dst).
Proof.
  intros Hs Hd. unfold copyBits. rewrite (for_upM_splice _ dstStart _ (fun i => src !!! (srcStart + i)%nat)).
  - do 3 f_equal. apply list_eq. intros i. unfold tabulate. rewrite list_lookup_fmap. destruct (decide (i < numBits)%nat).
    + rewrite lookup_seq_lt, lookup_take_lt, lookup_drop by lia. cbn. by rewrite list_lookup_lookup_total_lt by lia.
    + by rewrite lookup_seq_ge, lookup_take_ge by lia.
  - done.
  - intros i l' Hi Hl'. rewrite rd_Ok, res_bind_Ok, Nat2Z.id, wr_Ok, Nat2Z.id by lia. done.
Qed.

Lemma copyLengthBits_spec b start len :
  (start + 64 <= length b)%nat ->
  copyLengthBits b start len
  = Ok (take start b ++ tabulate 64 (fun i => Z.testbit len (Z.of_nat i)) ++ drop (start + 64) b).
Proof.
  intros Hb. unfold copyLengthBits. apply for_upM_splice; [done|]. intros i l' Hi Hl'.
  rewrite wr_Ok, Nat2Z.id by lia. by rewrite land_shiftr_1, b2z_nonzero by lia.
Qed.

Lemma copyIVBits_spec : copyIVBits (replicate OUTPUT_BITS false) = Ok (byte_bits GGHIV).
Proof.
  assert (length GGHIV * 8 = OUTPUT_BITS)%nat as Hlen by (destruct Hbytes as [k Hk]; rewrite HIV, Hk, Nat.div_mul; lia).
  unfold copyIVBits. rewrite <- HIV.
  match goal with |- for_upM 0 ?n ?f ?s0 = _ =>
    destruct (for_upM_ind (fun i l => length l = OUTPUT_BITS /\ take (i * 8) l = byte_bits (take i GGHIV)) 0 n f s0)
      as (l & -> & Hl & Ht); [lia|split; [apply length_replicate|done]| |]
  end.
  - intros i l Hi [Hl Ht]. destruct (lookup_lt_is_Some_2 GGHIV i) as [c Hc]; [lia|].
    rewrite (rd_lookup _ _ _ Hc), res_bind_Ok.
    rewrite (for_upM_splice 8 (i * 8) _ (fun j => Z.testbit c (Z.of_nat j))); [|lia|].
    + eexists. split; [reflexivity|]. split; [rewrite !length_app, length_take, length_drop, tabulate_length; lia|].
      rewrite app_assoc, take_app_le by (rewrite length_app, length_take, tabulate_length; lia).
      rewrite firstn_all2 by (rewrite length_app, length_take, tabulate_length; lia). rewrite Ht, (take_S_r _ _ _ Hc).
      unfold byte_bits. rewrite fmap_app, concat_app. cbn [fmap list_fmap concat]. by rewrite app_nil_r.
    + intros j l' Hj Hl'. rewrite wr_Ok, Nat2Z.id by lia. by rewrite land_shiftr_1, b2z_nonzero by lia.
  - rewrite firstn_all, firstn_all2 in Ht by lia. by rewrite Ht.
Qed.

Lemma Q_pos : 0 < Q.
Proof. pose proof (HA 0). lia. Qed.

(** The part of a block that is not used counts as zeros. *)
Lemma hashBlock_spec input inputSize result :
  (inputSize <= M)%nat -> (inputSize <= length input)%nat -> length result = OUTPUT_BITS ->
  hashBlock input inputSize result = Ok (compress (take inputSize input ++ replicate (M - inputSize) false)).
Proof.
  intros Hsize Hin Hres. unfold hashBlock. rewrite (proj2 (Nat.leb_le _ _)) by done.
  set (block := take inputSize input ++ replicate (M - inputSize) false).
  set (column := fun i j => if input !!! j : bool then AMat (i * M + j)%nat else 0).
  assert (forall i, for_up 0 inputSize (fun j rowSum => if input !!! j : bool then u32 (rowSum + AMat (i * M + j)%nat) else rowSum) 0
    = zsum inputSize (column i)) as Hsums.
  { intros i. destruct (for_up_ind (fun j s => s = zsum j (column i) /\ 0 <= s <= Z.of_nat j * Q) 0 inputSize
      (fun j rowSum => if input !!! j : bool then u32 (rowSum + AMat (i * M + j)%nat) else rowSum) 0) as [-> _]; [lia|done| |done].
    intros j s Hj [Hs Hb]. cbn [zsum]. rewrite <- Hs. unfold column. pose proof (HA (i * M + j)%nat) as HAj.
    assert (Z.of_nat (S j) * Q <= Z.of_nat M * Q) as Hle by (apply Z.mul_le_mono_nonneg_r; lia).
    destruct (input !!! j); [|lia]. rewrite wrapu_small by (unfold in_u; lia). lia. }
  assert (forall i, zsum inputSize (column i) mod Q = row_sum block i) as Hrow.
  { intros i. unfold row_sum. f_equal. unfold block. rewrite length_app, length_take, length_replicate, Nat.min_l by lia.
    rewrite zsum_split. rewrite (zsum_ext (M - inputSize) _ (fun _ => 0)).
    - rewrite zsum_const, Z.mul_0_r, Z.add_0_r. apply zsum_ext. intros j Hj. unfold column.
      rewrite lookup_total_app_l by (rewrite length_take; lia). by rewrite lookup_total_take_lt by lia.
    - intros j Hj. rewrite lookup_total_app_r by (rewrite length_take; lia). rewrite length_take.
      by rewrite lookup_total_replicate_2 by lia. }
  set (pieces := tabulate N (fun i => tabulate Q_BITS (fun j => Z.testbit (row_sum block i) (Z.of_nat j)))).
  assert (length pieces = N) as Hpieces by apply tabulate_length.
  pose proof (for_up_concat Q_BITS pieces result) as Hcat. rewrite Hpieces in Hcat.
  erewrite for_up_ext; [rewrite Hcat; [reflexivity| |exact Hres]|].
  - apply Forall_forall. intros p Hp. apply list_elem_of_fmap in Hp as (i & -> & _). apply tabulate_length.
  - intros i [out k] Hi. cbv zeta. rewrite Hsums, Hrow. apply for_up_ext. intros j [out' k'] Hj. unfold pieces.
    rewrite !tabulate_lookup by lia. by rewrite land_shiftr_1, b2z_nonzero by lia.
Qed.

(** *** One block *)

Lemma zero_pad_last s : (0 < length s <= block_room)%nat -> zero_pad s = s ++ replicate (block_room - length s) false.
Proof. intros Hs. unfold zero_pad. rewrite Nat.mod_small by lia. do 2 f_equal. lia. Qed.

Lemma zero_pad_step chunk s :
  length chunk = block_room -> (0 < length s)%nat -> zero_pad (chunk ++ s) = chunk ++ zero_pad s.
Proof.
  intros Hc Hs. unfold zero_pad. rewrite <- app_assoc. do 4 f_equal. rewrite length_app, Hc.
  replace (block_room + length s - 1)%nat with (length s - 1 + 1 * block_room)%nat by lia.
  rewrite Nat.Div0.mod_add. reflexivity.
Qed.

Lemma room_pos : (64 < block_room)%nat.
Proof. unfold block_room. lia. Qed.

(** Filling the front of a block. *)
Lemma copyBits_front dst pre src from n :
  take (length pre) dst = pre -> (from + n <= length src)%nat -> (length pre + n <= length dst)%nat ->
  exists dst', copyBits dst (length pre) src from n = Ok dst' /\ length dst' = length dst /\
    take (length pre + n) dst' = pre ++ take n (drop from src).
Proof.
  intros Hpre Hs Hd. rewrite copyBits_spec by done. eexists. split; [reflexivity|]. rewrite Hpre.
  assert (length (take n (drop from src)) = n) as Hn by (rewrite length_take, length_drop; lia). split.
  - rewrite !length_app, length_drop. lia.
  - rewrite app_assoc, take_app_le by (rewrite length_app; lia). apply firstn_all2. rewrite length_app. lia.
Qed.

Context (input : Bits) (Hin : Z.of_nat (length input) < 2 ^ 30).

Definition lenbits : Bits := tabulate 64 (fun i => Z.testbit (Z.of_nat (length input)) (Z.of_nat i)).

(** What is still to be hashed. *)
Definition to_hash (firstBlock : bool) (copied : nat) : Bits :=
  (if firstBlock then lenbits else []) ++ drop copied input ++ [true].

Lemma header_spec (blockBits digest : Bits) (firstBlock : bool) :
  length blockBits = M -> length digest = OUTPUT_BITS ->
  let head := digest ++ (if firstBlock then lenbits else []) in
  exists b, (b ← copyBits blockBits 0 digest 0 OUTPUT_BITS;
     (if firstBlock : bool then
        b ← copyLengthBits b OUTPUT_BITS (u64 (Z.of_nat (length input)));
        Ok (b, (OUTPUT_BITS + 64)%nat)
      else Ok (b, OUTPUT_BITS))) = Ok (b, length head) /\ length b = M /\ take (length head) b = head.
Proof.
  intros Hb Hd head. pose proof (copyBits_front blockBits [] digest 0 OUTPUT_BITS) as Hfront.
  cbn [length Nat.add app] in Hfront. destruct Hfront as (b & -> & Hl & Ht); [done|lia|lia|]. rewrite res_bind_Ok. rewrite drop_0, (firstn_all2 digest) in Ht by lia.
  unfold head. destruct firstBlock.
  - rewrite wrapu_small by (unfold in_u; lia). rewrite copyLengthBits_spec by lia. rewrite res_bind_Ok, Ht. fold lenbits.
    assert (length lenbits = 64%nat) as H64 by apply tabulate_length.
    eexists. split; [by rewrite length_app, Hd, H64|]. split; [rewrite !length_app, length_drop; lia|].
    rewrite app_assoc. rewrite take_app_le by done. by rewrite firstn_all.
  - rewrite app_nil_r, Hd. exists b. split; [done|]. split; [lia|done].
Qed.

(** Copying the next bits of the message, as many as there are and as fit. *)
Lemma body_spec (b head : Bits) (copied : nat) :
  length b = M -> take (length head) b = head -> (length head <= M)%nat -> (copied <= length input)%nat ->
  let k := Nat.min (length input - copied) (M - length head) in
  exists b', (let numInputBits := s32 (Z.of_nat (length input) - Z.of_nat copied) in
     let spaceLeft := s32 (Z.of_nat (length b) - Z.of_nat (length head)) in
     let numInputBits := if numInputBits >? spaceLeft then spaceLeft else numInputBits in
     if numInputBits >? 0 then
       b ← copyBits b (length head) input (Z.to_nat (Z.of_nat copied)) (Z.to_nat numInputBits);
       Ok (b, s32 (Z.of_nat copied + numInputBits), (length head + Z.to_nat numInputBits)%nat)
     else Ok (b, Z.of_nat copied, length head)) = Ok (b', Z.of_nat (copied + k), (length head + k)%nat) /\
    length b' = M /\ take (length head + k) b' = head ++ take k (drop copied input).
Proof.
  intros Hb Ht Hh Hc k. cbv zeta. rewrite !(wraps_small 32) by (lia || (unfold in_s; lia)).
  replace (if _ >? Z.of_nat (length b) - _ then _ else _) with (Z.of_nat k)
    by (unfold k; destruct (Z.gtb_spec (Z.of_nat (length input) - Z.of_nat copied) (Z.of_nat (length b) - Z.of_nat (length head))); lia).
  rewrite !Nat2Z.id. destruct (Z.gtb_spec (Z.of_nat k) 0) as [Hk|Hk].
  - destruct (copyBits_front b head input copied k Ht) as (b' & -> & Hl & Ht'); [lia|lia|]. rewrite res_bind_Ok.
    rewrite wraps_small by (lia || (unfold in_s; lia)). exists b'. split; [by rewrite Nat2Z.inj_add|]. split; [lia|done].
  - assert (k = 0%nat) as -> by lia. exists b. rewrite !Nat.add_0_r, take_0, app_nil_r. done.
Qed.

Definition fold_blocks (digest s : Bits) : Bits :=
  foldl (fun digest chunk => compress (digest ++ chunk)) digest (chunks block_room (zero_pad s)).

Lemma fold_last digest s :
  (0 < length s <= block_room)%nat ->
  fold_blocks digest s = compress (digest ++ s ++ replicate (block_room - length s) false).
Proof.
  intros Hs. unfold fold_blocks. rewrite zero_pad_last by done.
  rewrite <- (app_nil_r (s ++ _)), chunks_cons by (rewrite ?length_app, ?length_replicate; lia).
  rewrite chunks_short by (cbn; lia). cbn [foldl]. by rewrite !app_nil_r.
Qed.

Lemma fold_step digest chunk s :
  length chunk = block_room -> (0 < length s)%nat ->
  fold_blocks digest (chunk ++ s) = fold_blocks (compress (digest ++ chunk)) s.
Proof.
  intros Hc Hs. pose proof room_pos. unfold fold_blocks. rewrite zero_pad_step, chunks_cons by (done || lia). reflexivity.
Qed.

Lemma hashBits_spec fuel : (length input < fuel)%nat -> hashBits fuel input = Ok (ggh input).
Proof.
  intros Hfuel. unfold hashBits. rewrite copyIVBits_spec, res_bind_Ok.
  assert (length (byte_bits GGHIV) = OUTPUT_BITS) as HIVl
    by (rewrite byte_bits_length, HIV; destruct Hbytes as [q Hq]; rewrite Hq, Nat.div_mul; lia).
  pose proof room_pos as Hroom'.
  match goal with |- loop _ ?f ?s0 = _ =>
    destruct (loop_ind (fun '(blockBits, digest, firstBlock, copied) => length blockBits = M /\ length digest = OUTPUT_BITS /\
        exists c, copied = Z.of_nat c /\ (c <= length input)%nat /\ (firstBlock = true -> c = O) /\
          fold_blocks digest (to_hash firstBlock c) = ggh input)
      (fun r => r = ggh input) (fun '(_, _, _, copied) => (length input - Z.to_nat copied)%nat) f) with (fuel := fuel) (s := s0)
      as (r & -> & ->); [| |lia|done]
  end.
  - intros [[[blockBits digest] firstBlock] copied] (Hb & Hd & c & -> & Hc & Hfirst & Hfold).
    destruct (header_spec blockBits digest firstBlock Hb Hd) as (b1 & Hhead & Hb1 & Ht1).
    set (head := digest ++ (if firstBlock then lenbits else [])) in *.
    assert (length head < M)%nat as Hhl.
    { unfold head. rewrite length_app, Hd. destruct firstBlock; [unfold lenbits; rewrite tabulate_length|cbn]; lia. }
    destruct (body_spec b1 head c Hb1 Ht1) as (b2 & Hbody & Hb2 & Ht2); [lia|done|].
    set (k := Nat.min (length input - c) (M - length head)) in *.
    destruct (copyBits blockBits 0 digest 0 OUTPUT_BITS) as [b0| |]; try discriminate Hhead.
    rewrite !res_bind_Ok in *. cbv zeta in Hbody |- *. rewrite Hhead, res_bind_Ok, Hbody, res_bind_Ok.
    assert (to_hash firstBlock c = ((if firstBlock then lenbits else []) ++ take k (drop c input)) ++
      drop (c + k) input ++ [true]) as Hsplit.
    { unfold to_hash. rewrite <- app_assoc. f_equal. rewrite <- (take_drop k (drop c input)) at 1.
      by rewrite drop_drop, <- app_assoc. }
    set (chunk := (if firstBlock then lenbits else []) ++ take k (drop c input)) in *.
    assert (length chunk = length head - OUTPUT_BITS + k)%nat as Hcl.
    { unfold chunk, head. rewrite !length_app, length_take, length_drop, Hd. lia. }
    assert (head ++ take k (drop c input) = digest ++ chunk) as Hhc by (unfold head, chunk; by rewrite <- app_assoc).
    assert (OUTPUT_BITS <= length head)%nat as Hho by (unfold head; rewrite length_app, Hd; lia).
    clear Hhead Hbody. rewrite Hhc in Ht2. rewrite Hb2. destruct (Nat.ltb_spec (length head + k) M) as [Hlt|Hge].
    + right. rewrite wr_Ok, !res_bind_Ok, Nat2Z.id by lia.
      rewrite hashBlock_spec by (rewrite ?length_insert; lia). rewrite res_bind_Ok. eexists. split; [reflexivity|].
      assert (k = length input - c)%nat as Hk by lia.
      rewrite (take_S_r _ _ true) by (apply list_lookup_insert_eq; lia). rewrite take_insert_ge, Ht2 by lia.
      rewrite <- Hfold, Hsplit, (drop_ge input) by lia. cbn [app]. rewrite fold_last; [|rewrite length_app; unfold block_room; cbn [length]; lia].
      f_equal. rewrite <- !app_assoc. do 4 f_equal. rewrite length_app. cbn [length]. unfold block_room in *. lia.
    + left. rewrite res_bind_Ok, hashBlock_spec by lia. rewrite res_bind_Ok. eexists. split; [reflexivity|].
      assert (length head + k = M)%nat as Hfull by lia.
      split; [|rewrite Nat2Z.id; unfold head in Hfull, Hhl; lia]. split; [done|]. split; [apply ggh_compress_length|].
      exists (c + k)%nat. split; [done|]. split; [lia|]. split; [done|].
      rewrite <- Hfold, Hsplit, fold_step by (rewrite ?length_app; unfold block_room; cbn [length]; lia).
      rewrite Hfull, firstn_all2 in Ht2 |- * by lia. rewrite Ht2, Nat.sub_diag, app_nil_r. reflexivity.
  - split; [apply length_replicate|]. split; [done|]. exists O. split; [done|]. split; [lia|]. split; [done|].
    unfold fold_blocks, to_hash. rewrite drop_0. reflexivity.
Qed.

End Ggh.

(** A digest as field elements holds its bits in order, so equal field
    elements mean equal digests. *)
Lemma HashType_spec h n :
  length h = (n * FIELD_SIZE)%nat ->
  HashType h n = tabulate n (fun i => bits_val (tabulate FIELD_SIZE (fun j => h !!! (i * FIELD_SIZE + j)%nat))).
Proof.
  intros Hl. unfold HashType.
  match goal with |- context [for_up 0 n ?f ?s0] =>
    pose proof (for_up_ind (fun i '(elts, index) => index = (i * FIELD_SIZE)%nat /\
      elts = tabulate i (fun i => bits_val (tabulate FIELD_SIZE (fun j => h !!! (i * FIELD_SIZE + j)%nat)))) 0 n f s0) as Hind;
    destruct (for_up 0 n f s0) as [elts index]
  end.
  apply Hind; [lia|done|]. intros i [es k] Hi [-> ->].
  match goal with |- context [for_up 0 FIELD_SIZE ?f ?s0] =>
    pose proof (for_up_ind (fun j '(elt, index) => index = (i * FIELD_SIZE + j)%nat /\
      elt = bits_val (tabulate j (fun j => h !!! (i * FIELD_SIZE + j)%nat))) 0 FIELD_SIZE f s0) as Hin;
    destruct (for_up 0 FIELD_SIZE f s0) as [elt k]
  end.
  destruct Hin as [-> ->]; [lia|split; [lia|done]| |].
  - intros j [e k'] Hj [-> ->]. split; [lia|]. unfold tabulate. rewrite seq_S, fmap_app, Nat.add_0_l. cbn [fmap list_fmap].
    rewrite bits_val_app. fold (tabulate j (fun j => h !!! (i * FIELD_SIZE + j)%nat)).
    set (l := tabulate j _). assert (length l = j) as Hlj by apply tabulate_length. rewrite Hlj. cbn [bits_val].
    pose proof (bits_val_range l) as Hr. rewrite Hlj in Hr. destruct (h !!! _); cbn [b2z]; [|lia].
    rewrite Z.setbit_spec', Z.lor_comm. rewrite <- (Z.shiftl_1_l (Z.of_nat j)).
    rewrite lor_shiftl_add, ?Z.shiftl_1_l by lia. lia.
  - split; [lia|]. unfold tabulate. by rewrite seq_S, fmap_app.
Qed.

(** ** The two hash functions *)

Module GGHHash.

Definition N : nat := 64.
Definition Q : Z := 524288.
Definition Q_BITS : nat := 19.
Definition M : nat := Z.to_nat 7296.

Definition GGHIV : list Z :=
  [109; 43; 16; 34; 84; 157; 118; 2; 85; 32; 205; 134; 9; 19; 153; 206; 122; 226; 86; 88; 197; 88; 55; 79; 18; 157;
   31; 67; 152; 145; 136; 99; 201; 94; 199; 15; 136; 175; 76; 127; 213; 253; 121; 130; 134; 97; 124; 64; 255; 159;
   114; 65; 148; 120; 13; 103; 13; 138; 57; 210; 141; 81; 28; 91; 115; 132; 140; 197; 41; 171; 10; 225; 96; 125; 48;
   26; 80; 86; 103; 177; 60; 137; 95; 232; 117; 234; 65; 218; 28; 40; 242; 210; 145; 45; 249; 126; 180; 30; 56; 18;
   67; 59; 154; 115; 241; 225; 102; 127; 8; 45; 129; 44; 60; 70; 236; 132; 79; 2; 45; 225; 0; 18; 167; 244; 178; 237;
   245; 169; 78; 168; 117; 202; 117; 240; 216; 21; 165; 214; 181; 40; 194; 181; 63; 250; 230; 217; 187; 113; 143; 245;
   251; 182].

Definition digest (AMat : nat -> Z) (v : Bits) : Bits := ggh N Q Q_BITS M GGHIV AMat v.

#[export] Instance GGHHash (AMat : nat -> Z) : Hasher := {
  getNumHashBits := OUTPUT_BITS N Q_BITS;
  createHash h := HashType h (NUM_ELTS N Q_BITS);
  hash v := hashBits N Q Q_BITS M GGHIV AMat (S (length v)) v;
  hash2 l r := hashBits N Q Q_BITS M GGHIV AMat (S (length l + length r)) (concatBits l r)
}.
End GGHHash.

Module NullHash.

Definition null_hash (numHashBits : nat) (v : Bits) : Bits :=
  let hashBits := replicate numHashBits false in
  let start := if (length v <? length hashBits)%nat then (length hashBits - length v)%nat else O in
  for_up 0 numHashBits
    (fun i hashBits =>
       let bit := if (i <? start)%nat then false else v !!! (i - start)%nat in
       <[i := bit]> hashBits) hashBits.

#[export] Instance NullHash : Hasher := {
  getNumHashBits := FIELD_SIZE * 2;
  createHash h := HashType h 2;
  hash v := Ok (null_hash (FIELD_SIZE * 2) v);
  hash2 l r := if (length l =? length r)%nat then Ok (zip_with xorb l r) else Fault
}.
End NullHash.

Lemma concatBits_eq b1 b2 : concatBits b1 b2 = b1 ++ b2.
Proof.
  unfold concatBits. cbv zeta.
  rewrite (for_up_ext 0 (length b1) _ (fun k '(out, j) => (match b1 !! k with Some x => <[j := x]> out | None => out end, S j)))
    by (intros k [o j] Hk; by rewrite list_lookup_lookup_total_lt by lia).
  rewrite for_up_copy.
  rewrite (for_up_ext 0 (length b2) _ (fun k '(out, j) => (match b2 !! k with Some x => <[j := x]> out | None => out end, S j)))
    by (intros k [o j] Hk; by rewrite list_lookup_lookup_total_lt by lia).
  rewrite for_up_copy, Nat.add_0_l.
  replace (list_inserts (length b1) b2) with (list_inserts (length b1 + 0) b2) by (f_equal; lia).
  rewrite <- list_inserts_app_l.
  rewrite <- (app_nil_r (b1 ++ b2)) at 1. apply list_inserts_0_l. rewrite length_replicate, length_app. done.
Qed.

(** ** The hashers keep what the class promises *)

Section GghCorrect.
Context (AMat : nat -> Z) (HA : forall k, 0 <= AMat k < GGHHash.Q).

Lemma ggh_sizes :
  length GGHHash.GGHIV = (OUTPUT_BITS GGHHash.N GGHHash.Q_BITS / 8)%nat /\
  (8 | OUTPUT_BITS GGHHash.N GGHHash.Q_BITS)%nat /\
  (OUTPUT_BITS GGHHash.N GGHHash.Q_BITS + 64 < GGHHash.M)%nat /\
  Z.of_nat GGHHash.M < 2 ^ 30 /\ Z.of_nat GGHHash.M * GGHHash.Q < 2 ^ 32.
Proof.
  split; [reflexivity|]. split; [by exists 152%nat|]. split; [by apply Nat.ltb_lt; vm_compute|].
  unfold GGHHash.M, GGHHash.Q. rewrite Z2Nat.id by lia. lia.
Qed.

Lemma ggh_hashBits v fuel :
  Z.of_nat (length v) < 2 ^ 30 -> (length v < fuel)%nat ->
  hashBits GGHHash.N GGHHash.Q GGHHash.Q_BITS GGHHash.M GGHHash.GGHIV AMat fuel v = Ok (GGHHash.digest AMat v).
Proof. intros Hv Hf. destruct ggh_sizes as (H1 & H2 & H3 & H4 & H5).
  unfold GGHHash.digest. by apply hashBits_spec. Qed.

Lemma ggh_length v : length (GGHHash.digest AMat v) = OUTPUT_BITS GGHHash.N GGHHash.Q_BITS.
Proof.
  unfold GGHHash.digest, ggh.
  induction (chunks _ _) as [|c cs _] using rev_ind; [reflexivity|]. rewrite foldl_app. apply ggh_compress_length.
Qed.

#[export] Instance GGHHashLaws : HasherLaws (H := GGHHash.GGHHash AMat).
Proof.
  split; cbn [hash hash2 getNumHashBits GGHHash.GGHHash].
  - intros v Hv. rewrite ggh_hashBits by (done || lia). eexists. split; [reflexivity|apply ggh_length].
  - intros l r Hl Hr. rewrite concatBits_eq, ggh_hashBits.
    + eexists. split; [reflexivity|apply ggh_length].
    + rewrite length_app, Hl, Hr. vm_compute. done.
    + rewrite length_app. lia.
Qed.

(** C19: The GGH hash of a value, and of two digests, is the prefix-free
    Merkle-Damgård construction on the message with its 64-bit length in
    front, the end mark and zeros behind: the loop ends, no access leaves a
    buffer, the 32-bit row sums do not overflow, and the unused end of the
    last block counts as zeros.  The field elements of the digest are its
    64-bit words. *)
Theorem ggh_hash_correct v l r :
  Z.of_nat (length v) < 2 ^ 30 -> Z.of_nat (length l + length r) < 2 ^ 30 ->
  hash (Hasher := GGHHash.GGHHash AMat) v = Ok (GGHHash.digest AMat v) /\
  hash2 (Hasher := GGHHash.GGHHash AMat) l r = Ok (GGHHash.digest AMat (l ++ r)) /\
  createHash (Hasher := GGHHash.GGHHash AMat) (GGHHash.digest AMat v)
  = tabulate 19 (fun i => bits_val (tabulate 64 (fun j => GGHHash.digest AMat v !!! (i * 64 + j)%nat))).
Proof.
  intros Hv Hlr. cbn [hash hash2 createHash GGHHash.GGHHash]. rewrite concatBits_eq, !ggh_hashBits; rewrite ?length_app; try done || lia.
  split; [done|]. split; [done|]. apply (HashType_spec _ 19). rewrite ggh_length. reflexivity.
Qed.

End GghCorrect.

Lemma ggh_hash_witness :
  hash (Hasher := GGHHash.GGHHash (fun k => Z.of_nat k mod 524288)) [true; false]
  = Ok (GGHHash.digest (fun k => Z.of_nat k mod 524288) [true; false]).
Proof.
  assert (forall k, 0 <= Z.of_nat k mod 524288 < GGHHash.Q) as HA by (intros k; apply Z.mod_pos_bound; reflexivity).
  destruct (ggh_hash_correct (fun k => Z.of_nat k mod 524288) HA [true; false] [] []) as [Hh _]; [reflexivity|reflexivity|].
  exact Hh.
Defined.

(** The construction evaluated at small sizes: two rows of numbers below 16,
    blocks of 80 bits. *)
Example ggh_small :
  hashBits 2 16 4 80 [165] (fun k => (Z.of_nat k * 7) mod 16) 3 [true; true]
  = Ok (ggh 2 16 4 80 [165] (fun k => (Z.of_nat k * 7) mod 16) [true; true]).
Proof. vm_compute. reflexivity. Qed.

#[export] Instance NullHashLaws : HasherLaws (H := NullHash.NullHash).
Proof.
  split; cbn [hash hash2 getNumHashBits NullHash.NullHash].
  - intros v _. eexists. split; [reflexivity|]. unfold NullHash.null_hash. cbv zeta.
    match goal with |- context [for_up 0 ?n ?f ?s0] =>
      apply (for_up_ind (fun _ h => length h = n) 0 n f s0) end; [lia|apply length_replicate|].
    intros i s _ Hs. by rewrite length_insert.
  - intros l r Hl Hr. rewrite Hl, Hr, Nat.eqb_refl. eexists. split; [reflexivity|]. rewrite length_zip_with. lia.
Qed.
