(* ===== verification/MerkleRam.v ===== *)
(** The prover's random access memory with a Merkle tree over its cells:
    [pepper/storage/ram_impl.cpp].

    The cells live in a [HashBlockStore]; the digests of the tree's nodes are
    cached in a database of strings of the library Kyoto Cabinet, which is the
    interface [CacheDB], together with the conversions between bit vectors and
    strings of Boost.  A failed assertion and [exit(1)] are [Fault]. *)
From Stdlib Require Import ZArith Lia Ascii String.
From stdpp Require Import base numbers list strings pretty gmap.
From S2P Require Import Prelude Bits LevelDb GghHash.

Local Open Scope Z_scope.

(** ** The cache *)

Class CacheDB : Type := {
  cache : Type;
  cache_new : cache;
  cache_get : cache -> string -> option string;
  cache_set : cache -> string -> string -> cache;
  cache_remove : cache -> string -> cache;
  to_string : Bits -> string;
  of_string : string -> Bits
}.

Class CacheDBLaws `{CacheDB} : Prop := {
  cache_get_new : forall k, cache_get cache_new k = None;
  cache_get_set : forall c k v, cache_get (cache_set c k v) k = Some v;
  cache_get_set_ne : forall c k k' v, k <> k' -> cache_get (cache_set c k v) k' = cache_get c k';
  cache_get_remove : forall c k, cache_get (cache_remove c k) k = None;
  cache_get_remove_ne : forall c k k', k <> k' -> cache_get (cache_remove c k) k' = cache_get c k';
  of_to_string : forall b, of_string (to_string b) = b
}.

(** An instance: a finite map, and strings of zeros and ones (with the
    highest bit first). *)
Fixpoint parse_bits (s : string) (acc : Bits) : Bits :=
  match s with
  | EmptyString => acc
  | String c s => parse_bits s (Ascii.eqb c "1"%char :: acc)
  end.

Fixpoint print_bits (b : Bits) (acc : string) : string :=
  match b with
  | [] => acc
  | x :: b => print_bits b (String (if x : bool then "1"%char else "0"%char) acc)
  end.

#[export] Instance MapCache : CacheDB := {
  cache := gmap string string;
  cache_new := ∅;
  cache_get c k := c !! k;
  cache_set c k v := <[k := v]> c;
  cache_remove c k := delete k c;
  to_string b := print_bits b "";
  of_string s := parse_bits s []
}.

Lemma parse_print b s acc : parse_bits (print_bits b s) acc = parse_bits s (b ++ acc).
Proof.
  revert s. induction b as [|x b IH]; intros s; [done|]. cbn [print_bits]. rewrite IH. cbn [parse_bits app].
  by destruct x.
Qed.

#[export] Instance MapCacheLaws : CacheDBLaws.
Proof.
  split; cbn; intros.
  - apply lookup_empty.
  - apply lookup_insert_eq.
  - by apply lookup_insert_ne.
  - apply lookup_delete_eq.
  - by apply lookup_delete_ne.
  - rewrite parse_print. cbn. apply app_nil_r.
Qed.

(** ** The code *)

Section Ram.
Context `{HashBlockStore} `{HH : Hasher} `{CacheDB}.
Context (DB_NUM_ADDRESSES : Z) (RAM_CELL_NUM_BITS : nat).

Record RAMImpl : Type := {
  blockStore : bstore;
  numLevels : nat;
  emptyHash : Bits;
  rootHash : list Z;
  hashCache : cache
}.

Definition uintToStr (i : Z) : string := pretty (Z.to_N i).

Definition RAMImpl_get (s : RAMImpl) (addr : Z) : res Bits :=
  if addr >? DB_NUM_ADDRESSES then Fault
  else
    '(found, bits) ← getAddr (blockStore s) addr [];
    Ok (if found : bool then bits else replicate RAM_CELL_NUM_BITS false).

Definition getHCIndex (s : RAMImpl) (addr : Z) (level : nat) (shift : bool) : Z :=
  let addr := if shift then Z.shiftr addr (Z.of_nat (numLevels s) - Z.of_nat level - 1) else addr in
  u32 (Z.shiftl 1 (Z.of_nat level) - 1 + addr).

Definition getHash_at (s : RAMImpl) (cacheIndex : Z) (hash : Bits) : bool * Bits :=
  match cache_get (hashCache s) (uintToStr cacheIndex) with
  | Some hashStr => (true, of_string hashStr)
  | None => (false, hash)
  end.

Definition getHash (s : RAMImpl) (addr : Z) (level : nat) (shift : bool) (hash : Bits) : bool * Bits :=
  getHash_at s (getHCIndex s addr level shift) hash.

Definition set_cache (s : RAMImpl) (c : cache) : RAMImpl :=
  {| blockStore := blockStore s; numLevels := numLevels s; emptyHash := emptyHash s; rootHash := rootHash s; hashCache := c |}.

Definition putHash (s : RAMImpl) (addr : Z) (level : nat) (hash : Bits) (shift : bool) : RAMImpl :=
  set_cache s (cache_set (hashCache s) (uintToStr (getHCIndex s addr level shift)) (to_string hash)).

Definition delHash (s : RAMImpl) (addr : Z) (level : nat) (shift : bool) : RAMImpl :=
  set_cache s (cache_remove (hashCache s) (uintToStr (getHCIndex s addr level shift))).

Definition getSiblingHash (s : RAMImpl) (addr : Z) (level : nat) (hash : Bits) : res (bool * Bits) :=
  if (0 <? level)%nat then
    let cacheIndex := getHCIndex s addr level true in
    let cacheIndex := if negb (Z.land cacheIndex 1 =? 0) then cacheIndex + 1 else cacheIndex - 1 in
    Ok (getHash_at s cacheIndex hash)
  else Fault.

Definition invalidateHashes (s : RAMImpl) (addr : Z) : RAMImpl :=
  for_up 0 (numLevels s) (fun i s => delHash s addr i true) s.

(** The recursion goes down to the last level. *)
Fixpoint updateSubtree (fuel : nat) (s : RAMImpl) (addr : Z) (level : nat) : res (Bits * RAMImpl) :=
  match fuel with
  | O => NoFuel
  | S fuel =>
      if u32 (Z.shiftl addr (Z.of_nat (numLevels s) - Z.of_nat level - 1)) >=? DB_NUM_ADDRESSES
      then Ok (emptyHash s, s)
      else
        let '(found, h) := getHash s addr level false [] in
        if found : bool then Ok (h, s)
        else
          '(h, s) ←
            (if (level =? numLevels s - 1)%nat then
               c ← RAMImpl_get s addr; h ← hash c; Ok (h, s)
             else
               '(left_, s) ← updateSubtree fuel s (u32 (Z.shiftl addr 1)) (level + 1);
               '(right_, s) ← updateSubtree fuel s (Z.lor (u32 (Z.shiftl addr 1)) 1) (level + 1);
               h ← hash2 left_ right_; Ok (h, s));
          Ok (h, putHash s addr level h false)
  end.

Definition updateHashes (s : RAMImpl) : res RAMImpl :=
  '(h, s) ← updateSubtree (S (numLevels s)) s 0 0;
  Ok {| blockStore := blockStore s; numLevels := numLevels s; emptyHash := emptyHash s; rootHash := createHash h;
        hashCache := hashCache s |}.

Definition RAMImpl_put (s : RAMImpl) (addr : Z) (val : Bits) : res RAMImpl :=
  b ← putAddr (blockStore s) addr val;
  let s := {| blockStore := b; numLevels := numLevels s; emptyHash := emptyHash s; rootHash := rootHash s;
              hashCache := hashCache s |} in
  updateHashes (invalidateHashes s addr).

Definition getRootHash (s : RAMImpl) : list Z := rootHash s.

(** The constructor; an [int] has 32 bits, so the loop for the levels ends
    within 32 rounds. *)
Definition count_levels (fuel : nat) : res nat :=
  if DB_NUM_ADDRESSES >? 0 then
    loop fuel (fun numLevels =>
      if DB_NUM_ADDRESSES >? Z.shiftl 1 (Z.of_nat numLevels - 1) then Ok (inl (S numLevels)) else Ok (inr numLevels)) 1%nat
  else Ok O.

Definition new_RAMImpl (b : bstore) : res RAMImpl :=
  e ← hash [false];
  levels ← count_levels 32;
  updateHashes {| blockStore := b; numLevels := levels; emptyHash := e; rootHash := []; hashCache := cache_new |}.

(** ** The tree of digests *)

(** What a read of a cell gives. *)
Definition cell (b : bstore) (addr : Z) : Bits :=
  match getAddr b addr [] with Ok (true, v) => v | _ => replicate RAM_CELL_NUM_BITS false end.

Definition digest_or_nil (r : res Bits) : Bits := match r with Ok h => h | _ => [] end.

(** The digest of the node with [d] levels below it that starts at cell
    [addr * 2^d]; a node without cells has the digest of a single zero bit. *)
Fixpoint node (m : Z -> Bits) (d : nat) (addr : Z) : Bits :=
  if addr * 2 ^ Z.of_nat d >=? DB_NUM_ADDRESSES then digest_or_nil (hash [false])
  else match d with
       | O => digest_or_nil (hash (m addr))
       | S d => digest_or_nil (hash2 (node m d (2 * addr)) (node m d (2 * addr + 1)))
       end.

(** Numbers of the nodes, level after level from the root. *)
Definition heap_index (level : nat) (idx : Z) : Z := 2 ^ Z.of_nat level - 1 + idx.

Definition cached (s : RAMImpl) (level : nat) (idx : Z) : option Bits :=
  of_string <$> cache_get (hashCache s) (uintToStr (heap_index level idx)).

(** The number of levels. *)
Definition L : nat := S (Z.to_nat (Z.log2_up DB_NUM_ADDRESSES)).

Definition below (level : nat) : nat := L - 1 - level.
Definition in_range (level : nat) (idx : Z) : Prop := idx * 2 ^ Z.of_nat (below level) < DB_NUM_ADDRESSES.
Definition is_node (level : nat) (idx : Z) : Prop := (level < L)%nat /\ 0 <= idx < 2 ^ Z.of_nat level.

Definition static_ok (s : RAMImpl) : Prop := numLevels s = L /\ emptyHash s = digest_or_nil (hash [false]).

Definition coherent (s : RAMImpl) : Prop :=
  forall level idx h, is_node level idx -> cached s level idx = Some h ->
    in_range level idx /\ h = node (cell (blockStore s)) (below level) idx.

Definition closed (s : RAMImpl) : Prop :=
  forall level idx c, is_node level idx -> (S level < L)%nat -> cached s level idx <> None ->
    c = 2 * idx \/ c = 2 * idx + 1 -> in_range (S level) c -> cached s (S level) c <> None.

Definition complete (s : RAMImpl) : Prop :=
  forall level idx, is_node level idx -> in_range level idx -> cached s level idx <> None.

Definition cells_ok (m : Z -> Bits) : Prop := forall a, 0 <= a < DB_NUM_ADDRESSES -> Z.of_nat (length (m a)) < 2 ^ 30.

(** ** Nodes and their numbers *)

Context `{!HashBlockStoreLaws} `{!HasherLaws} `{!CacheDBLaws}.
Hypothesis HDB : 0 < DB_NUM_ADDRESSES <= 2 ^ 30.

Lemma L_bounds : (1 <= L <= 31)%nat /\ DB_NUM_ADDRESSES <= 2 ^ Z.of_nat (L - 1).
Proof.
  unfold L. pose proof (Z.log2_up_nonneg DB_NUM_ADDRESSES) as Hn.
  pose proof (Z.log2_up_le_mono DB_NUM_ADDRESSES (2 ^ 30) ltac:(lia)) as Hm. rewrite Z.log2_up_pow2 in Hm by lia.
  replace (S _ - 1)%nat with (Z.to_nat (Z.log2_up DB_NUM_ADDRESSES)) by lia. rewrite Z2Nat.id by done.
  split; [lia|]. destruct (Z.eq_dec DB_NUM_ADDRESSES 1) as [->|]; [done|]. apply Z.log2_up_spec. lia.
Qed.

Lemma pow_le_L n : (n < L)%nat -> 2 ^ Z.of_nat n <= 2 ^ 30.
Proof. intros Hn. destruct L_bounds as [HL _]. apply Z.pow_le_mono_r; lia. Qed.

Lemma heap_index_inj l i l' i' : is_node l i -> is_node l' i' -> heap_index l i = heap_index l' i' -> l = l' /\ i = i'.
Proof.
  unfold is_node, heap_index. intros [Hl Hi] [Hl' Hi'] Heq.
  assert (l = l') as <-; [|split; [done|lia]].
  destruct (Nat.lt_trichotomy l l') as [Hlt|[?|Hlt]]; [exfalso|done|exfalso].
  - assert (2 ^ Z.of_nat (S l) <= 2 ^ Z.of_nat l') as Hp by (apply Z.pow_le_mono_r; lia).
    rewrite Nat2Z.inj_succ, Z.pow_succ_r in Hp by lia. lia.
  - assert (2 ^ Z.of_nat (S l') <= 2 ^ Z.of_nat l) as Hp by (apply Z.pow_le_mono_r; lia).
    rewrite Nat2Z.inj_succ, Z.pow_succ_r in Hp by lia. lia.
Qed.

Lemma heap_index_nonneg l i : is_node l i -> 0 <= heap_index l i.
Proof. unfold is_node, heap_index. intros [_ Hi]. pose proof (Z.pow_pos_nonneg 2 (Z.of_nat l)). lia. Qed.

Lemma uintToStr_inj i j : 0 <= i -> 0 <= j -> uintToStr i = uintToStr j -> i = j.
Proof. unfold uintToStr. intros Hi Hj Heq. apply (inj pretty) in Heq. lia. Qed.

Lemma key_ne l i l' i' :
  is_node l i -> is_node l' i' -> (l, i) <> (l', i') -> uintToStr (heap_index l i) <> uintToStr (heap_index l' i').
Proof.
  intros Hn Hn' Hne Heq. apply uintToStr_inj in Heq; [|by apply heap_index_nonneg..].
  destruct (heap_index_inj _ _ _ _ Hn Hn' Heq) as [-> ->]. done.
Qed.

Lemma getHCIndex_node s l i : is_node l i -> getHCIndex s i l false = heap_index l i.
Proof.
  intros [Hl Hi]. unfold getHCIndex, heap_index. rewrite Z.shiftl_1_l. pose proof (pow_le_L l Hl).
  apply wrapu_small. unfold in_u. lia.
Qed.

(** The node of a level a cell lies under. *)
Definition over (addr : Z) (level : nat) : Z := addr / 2 ^ Z.of_nat (below level).

Lemma pow_level l : (l < L)%nat -> 2 ^ Z.of_nat (L - 1) = 2 ^ Z.of_nat l * 2 ^ Z.of_nat (below l).
Proof. intros Hl. rewrite <- Z.pow_add_r by lia. f_equal. unfold below. lia. Qed.

Lemma over_node addr l : (l < L)%nat -> 0 <= addr < DB_NUM_ADDRESSES -> is_node l (over addr l).
Proof.
  intros Hl Ha. destruct L_bounds as [_ HL]. unfold is_node, over.
  assert (0 < 2 ^ Z.of_nat (below l)) by (apply Z.pow_pos_nonneg; lia).
  split; [done|]. split; [apply Z.div_pos; lia|]. apply Z.div_lt_upper_bound; [done|].
  rewrite Z.mul_comm, <- pow_level by done. lia.
Qed.

Lemma getHCIndex_over s addr l :
  static_ok s -> (l < L)%nat -> 0 <= addr < DB_NUM_ADDRESSES -> getHCIndex s addr l true = heap_index l (over addr l).
Proof.
  intros [Hs _] Hl Ha. unfold getHCIndex. rewrite Hs, Z.shiftr_div_pow2 by lia.
  replace (Z.of_nat L - Z.of_nat l - 1) with (Z.of_nat (below l)) by (unfold below; lia).
  apply (getHCIndex_node s l), over_node; done.
Qed.

Lemma cached_put s l i h l' i' :
  is_node l i -> is_node l' i' ->
  cached (putHash s i l h false) l' i' = if decide ((l', i') = (l, i)) then Some h else cached s l' i'.
Proof.
  intros Hn Hn'. unfold putHash, cached. cbn [hashCache set_cache]. rewrite getHCIndex_node by done. case_decide as Hd.
  - injection Hd as -> ->. rewrite cache_get_set. cbn. by rewrite of_to_string.
  - rewrite cache_get_set_ne; [done|]. apply key_ne; [done..|]. by apply not_eq_sym.
Qed.

Lemma cached_invalidate s addr l i :
  static_ok s -> 0 <= addr < DB_NUM_ADDRESSES -> is_node l i ->
  cached (invalidateHashes s addr) l i = (if decide (i = over addr l) then None else cached s l i) /\
  blockStore (invalidateHashes s addr) = blockStore s /\ static_ok (invalidateHashes s addr).
Proof.
  intros Hs Ha Hn. unfold invalidateHashes. destruct Hs as [HL He]. rewrite HL.
  match goal with |- context [for_up 0 L ?f s] =>
    pose proof (for_up_ind (fun n t => cached t l i = (if decide (i = over addr l /\ (l < n)%nat) then None else cached s l i) /\
      blockStore t = blockStore s /\ static_ok t) 0 L f s) as Hind
  end.
  destruct Hind as (Hc & Hb & Hst); [lia| | |].
  - rewrite decide_False by lia. done.
  - intros n t Hlt (Hc & Hb & Hst). unfold delHash. rewrite getHCIndex_over by (done || lia).
    split; [|split; [done|exact Hst]]. unfold cached in *. cbn [hashCache set_cache].
    destruct (decide ((n, over addr n) = (l, i))) as [He'|Hne].
    + injection He' as -> <-. rewrite cache_get_remove. by rewrite decide_True by lia.
    + rewrite cache_get_remove_ne by (apply key_ne; [apply over_node; lia|done|done]). rewrite Hc.
      apply decide_ext. split; [intros [-> ?]; split; [done|lia]|]. intros [-> Hln]. split; [done|].
      destruct (decide (l = n)) as [->|]; [done|lia].
  - split; [|split; done]. rewrite Hc. apply decide_ext. destruct Hn. tauto.
Qed.

(** ** Digests of nodes *)

Lemma hash_digest v : Z.of_nat (length v) < 2 ^ 30 -> hash v = Ok (digest_or_nil (hash v)).
Proof. intros Hv. destruct (hash_ok v Hv) as (h & -> & _). done. Qed.

Lemma hash_digest_length v : Z.of_nat (length v) < 2 ^ 30 -> length (digest_or_nil (hash v)) = getNumHashBits.
Proof. intros Hv. by destruct (hash_ok v Hv) as (h & -> & Hl). Qed.

Lemma hash2_digest l r :
  length l = getNumHashBits -> length r = getNumHashBits ->
  hash2 l r = Ok (digest_or_nil (hash2 l r)) /\ length (digest_or_nil (hash2 l r)) = getNumHashBits.
Proof. intros Hl Hr. by destruct (hash2_ok l r Hl Hr) as (h & -> & Hh). Qed.

Lemma node_stub m d i : DB_NUM_ADDRESSES <= i * 2 ^ Z.of_nat d -> node m d i = digest_or_nil (hash [false]).
Proof. intros Hi. destruct d; cbn [node]; by rewrite (proj2 (Z.geb_le _ _)) by done. Qed.

Lemma node_leaf m i : i < DB_NUM_ADDRESSES -> node m 0 i = digest_or_nil (hash (m i)).
Proof. intros Hi. cbn [node]. destruct (Z.geb_spec (i * 2 ^ Z.of_nat 0) DB_NUM_ADDRESSES); [lia|done]. Qed.

Lemma node_inner m d i :
  i * 2 ^ Z.of_nat (S d) < DB_NUM_ADDRESSES ->
  node m (S d) i = digest_or_nil (hash2 (node m d (2 * i)) (node m d (2 * i + 1))).
Proof. intros Hi. cbn [node]. destruct (Z.geb_spec (i * 2 ^ Z.of_nat (S d)) DB_NUM_ADDRESSES); [lia|done]. Qed.

Lemma node_length m d i : cells_ok m -> 0 <= i -> length (node m d i) = getNumHashBits.
Proof.
  intros Hb. revert i. induction d as [|d IH]; intros i Hi.
  - destruct (Z.ltb_spec i DB_NUM_ADDRESSES).
    + rewrite node_leaf by done. apply hash_digest_length. by apply Hb.
    + rewrite node_stub by lia. by apply hash_digest_length.
  - destruct (Z.ltb_spec (i * 2 ^ Z.of_nat (S d)) DB_NUM_ADDRESSES).
    + rewrite node_inner by done. apply hash2_digest; apply IH; lia.
    + rewrite node_stub by lia. by apply hash_digest_length.
Qed.

(** Changing a cell changes only the nodes over it. *)
Lemma node_other m m' addr d i :
  (forall a, 0 <= a < DB_NUM_ADDRESSES -> a <> addr -> m' a = m a) ->
  0 <= i -> addr / 2 ^ Z.of_nat d <> i -> node m' d i = node m d i.
Proof.
  intros Hc. revert i. induction d as [|d IH]; intros i Hi Hne.
  - rewrite Z.div_1_r in Hne. destruct (Z.ltb_spec i DB_NUM_ADDRESSES).
    + rewrite !node_leaf by done. rewrite Hc; [done|lia|by apply not_eq_sym].
    + by rewrite !node_stub by lia.
  - destruct (Z.ltb_spec (i * 2 ^ Z.of_nat (S d)) DB_NUM_ADDRESSES); [|by rewrite !node_stub by lia].
    rewrite !node_inner by done. rewrite Nat2Z.inj_succ, Z.pow_succ_r in Hne by lia.
    rewrite (Z.mul_comm 2), <- Z.div_div in Hne by lia.
    rewrite !IH; [done|lia| |lia|]; intros He; apply Hne; rewrite He.
    + rewrite Z.mul_comm, Z.add_comm, Z.div_add by lia. done.
    + by rewrite Z.mul_comm, Z.div_mul by lia.
Qed.

Lemma lor_double i : 0 <= i -> Z.lor (2 * i) 1 = 2 * i + 1.
Proof.
  intros Hi. rewrite (Z.mul_comm 2), <- (Z.pow_1_r 2), <- Z.shiftl_mul_pow2 at 1 by lia.
  rewrite lor_shiftl_add by lia. lia.
Qed.

(** ** Updating the tree *)

Definition same_ram (s s' : RAMImpl) : Prop :=
  blockStore s' = blockStore s /\ numLevels s' = numLevels s /\ emptyHash s' = emptyHash s /\ rootHash s' = rootHash s /\
  forall l i, is_node l i -> cached s l i <> None -> cached s' l i <> None.

Lemma same_ram_refl s : same_ram s s.
Proof. by repeat split. Qed.

Lemma same_ram_trans s s' s'' : same_ram s s' -> same_ram s' s'' -> same_ram s s''.
Proof.
  intros (? & ? & ? & ? & Hm) (? & ? & ? & ? & Hm'). split_and!; try congruence.
  intros l i Hn Hc. by apply Hm', Hm.
Qed.

Lemma get_cell b s addr :
  blockStore s = b -> 0 <= addr < DB_NUM_ADDRESSES -> RAMImpl_get s addr = Ok (cell b addr).
Proof.
  intros <- Ha. unfold RAMImpl_get, cell. destruct (Z.gtb_spec addr DB_NUM_ADDRESSES); [lia|].
  destruct (getAddr_ok (blockStore s) addr []) as (found & v & -> & _); [unfold in_u; lia|]. rewrite res_bind_Ok.
  by destruct found.
Qed.

(** Storing the digest of a node whose children are cached. *)
Lemma put_node s l i :
  is_node l i -> in_range l i -> coherent s -> closed s ->
  (forall c, (S l < L)%nat -> c = 2 * i \/ c = 2 * i + 1 -> in_range (S l) c -> cached s (S l) c <> None) ->
  let s' := putHash s i l (node (cell (blockStore s)) (below l) i) false in
  same_ram s s' /\ coherent s' /\ closed s' /\ cached s' l i <> None.
Proof.
  intros Hn Hrg Hco Hcl Hch s'. unfold s'. split; [|split; [|split]].
  - repeat split. intros l' i' Hn' Hc. rewrite cached_put by done. by case_decide.
  - intros l' i' h Hn'. rewrite cached_put by done. case_decide as He; [|by apply Hco].
    injection He as -> ->. by intros [= <-].
  - intros l' i' c Hn' Hl' Hp Hc Hr.
    assert (is_node (S l') c) as Hnc.
    { destruct Hn' as [_ Hi']. split; [done|]. rewrite Nat2Z.inj_succ, Z.pow_succ_r by lia. lia. }
    rewrite cached_put by done. destruct (decide ((S l', c) = (l, i))); [discriminate|].
    rewrite cached_put in Hp by done. destruct (decide ((l', i') = (l, i))) as [He|He].
    + injection He as -> ->. by apply Hch.
    + by eapply Hcl.
  - rewrite cached_put by done. by rewrite decide_True by done.
Qed.

Lemma updateSubtree_spec fuel s l i :
  (L - l < fuel)%nat -> is_node l i -> static_ok s -> cells_ok (cell (blockStore s)) -> coherent s -> closed s ->
  exists s', updateSubtree fuel s i l = Ok (node (cell (blockStore s)) (below l) i, s') /\
    same_ram s s' /\ coherent s' /\ closed s' /\ (in_range l i -> cached s' l i <> None).
Proof.
  revert s l i. induction fuel as [|fuel IH]; intros s l i Hfuel Hn Hst Hcells Hco Hcl; [lia|].
  cbn [updateSubtree]. pose proof Hst as [HL He]. destruct Hn as [Hl Hi]. destruct L_bounds as [HLb HLd].
  rewrite HL, He, Z.shiftl_mul_pow2 by lia. replace (Z.of_nat L - Z.of_nat l - 1) with (Z.of_nat (below l)) by (unfold below; lia).
  assert (i * 2 ^ Z.of_nat (below l) < 2 ^ 30) as Hsmall.
  { eapply Z.lt_le_trans; [|apply (pow_le_L (L - 1)); lia]. rewrite (pow_level l) by done.
    apply Z.mul_lt_mono_pos_r; [apply Z.pow_pos_nonneg; lia|lia]. }
  rewrite wrapu_small by (unfold in_u; split; [apply Z.mul_nonneg_nonneg; [lia|apply Z.pow_nonneg; lia]|lia]).
  destruct (Z.geb_spec (i * 2 ^ Z.of_nat (below l)) DB_NUM_ADDRESSES) as [Hge|Hlt].
  { exists s. rewrite node_stub by lia. split; [done|]. split; [apply same_ram_refl|]. split; [done|]. split; [done|].
    unfold in_range. lia. }
  unfold getHash. rewrite getHCIndex_node by done. unfold getHash_at.
  assert (cached s l i = of_string <$> cache_get (hashCache s) (uintToStr (heap_index l i))) as Hcd by done.
  destruct (cache_get (hashCache s) (uintToStr (heap_index l i))) as [str|] eqn:Hg.
  { exists s. destruct (Hco l i (of_string str)) as [_ <-]; [done..|]. split; [done|]. split; [apply same_ram_refl|].
    split; [done|]. split; [done|]. by rewrite Hcd. }
  destruct (Nat.eqb_spec l (L - 1)) as [Hlast|Hinner].
  - assert (below l = O) as Hb0 by (unfold below; lia). rewrite Hb0, Z.mul_1_r in Hlt.
    assert (Z.of_nat (length (cell (blockStore s) i)) < 2 ^ 30) as H30 by (apply Hcells; lia).
    rewrite (get_cell (blockStore s)) by (done || lia). rewrite res_bind_Ok, hash_digest, !res_bind_Ok by exact H30.
    rewrite <- node_leaf by done. rewrite <- Hb0.
    destruct (put_node s l i) as (Hsame & Hco' & Hcl' & Hp); [done| |done|done|intros; lia|];
      [unfold in_range; rewrite Hb0; lia|].
    eexists. split; [reflexivity|]. done.
  - assert (below l = S (below (S l))) as Hbl by (unfold below; lia).
    assert (is_node (S l) (2 * i) /\ is_node (S l) (2 * i + 1)) as [Hn1 Hn2].
    { unfold is_node. rewrite Nat2Z.inj_succ, Z.pow_succ_r by lia. lia. }
    assert (2 * i < 2 ^ 31) as Hi2 by (pose proof (pow_le_L l Hl); lia).
    rewrite Z.shiftl_mul_pow2, Z.pow_1_r, (Z.mul_comm i), wrapu_small by (unfold in_u; lia).
    rewrite lor_double, Nat.add_1_r by lia.
    destruct (IH s (S l) (2 * i)) as (s1 & -> & Hs1 & Hco1 & Hcl1 & Hp1); [lia|done..|]. rewrite res_bind_Ok.
    pose proof Hs1 as (Hb1 & HnL1 & He1 & _ & Hm1).
    destruct (IH s1 (S l) (2 * i + 1)) as (s2 & Heq2 & Hs2 & Hco2 & Hcl2 & Hp2);
      [lia|done|split; congruence|by rewrite Hb1|done|done|].
    rewrite Heq2, res_bind_Ok. clear Heq2. rewrite Hb1.
    pose proof (same_ram_trans _ _ _ Hs1 Hs2) as Hs02. pose proof Hs02 as (Hb2 & _). pose proof Hs2 as (_ & _ & _ & _ & Hm2).
    destruct (hash2_digest (node (cell (blockStore s)) (below (S l)) (2 * i)) (node (cell (blockStore s)) (below (S l)) (2 * i + 1)))
      as [-> _]; [apply node_length; [done|lia]..|]. rewrite !res_bind_Ok.
    rewrite <- node_inner by (rewrite <- Hbl; lia). rewrite <- Hbl, <- Hb2.
    destruct (put_node s2 l i) as (Hsame & Hco' & Hcl' & Hp); [done|done|done|done| |].
    + intros c _ [->| ->] Hr; [apply Hm2; [done|]; by apply Hp1|by apply Hp2].
    + eexists. split; [reflexivity|]. split; [by eapply same_ram_trans|]. done.
Qed.

(** ** The invariant of the memory *)

Record ram_ok (s : RAMImpl) : Prop := {
  ram_static : static_ok s;
  ram_cells : cells_ok (cell (blockStore s));
  ram_coherent : coherent s;
  ram_complete : complete s;
  ram_root : rootHash s = createHash (node (cell (blockStore s)) (L - 1) 0)
}.

Lemma root_node : is_node 0 0 /\ below 0 = (L - 1)%nat /\ in_range 0 0.
Proof. destruct L_bounds as [HL _]. unfold is_node, below, in_range. split; [lia|]. split; lia. Qed.

(** A tree with its root cached is cached whole. *)
Lemma closed_complete s : closed s -> (in_range 0 0 -> cached s 0 0 <> None) -> complete s.
Proof.
  intros Hcl Hroot. intros l. induction l as [|l IH]; intros i [Hl Hi] Hr.
  - assert (i = 0) as -> by lia. by apply Hroot.
  - rewrite Nat2Z.inj_succ, Z.pow_succ_r in Hi by lia.
    pose proof (Z.div_mod i 2 ltac:(lia)) as Hdm. pose proof (Z.mod_pos_bound i 2 ltac:(lia)) as Hmod.
    assert (is_node l (i / 2)) as Hn by (split; lia).
    eapply (Hcl l (i / 2) i); [done|done| |lia|done]. apply IH; [done|].
    unfold in_range in *. replace (below l) with (S (below (S l))) by (unfold below; lia).
    rewrite Nat2Z.inj_succ, Z.pow_succ_r by lia. pose proof (Z.pow_pos_nonneg 2 (Z.of_nat (below (S l)))). nia.
Qed.

Lemma updateHashes_spec s :
  static_ok s -> cells_ok (cell (blockStore s)) -> coherent s -> closed s ->
  exists s', updateHashes s = Ok s' /\ ram_ok s' /\ blockStore s' = blockStore s.
Proof.
  intros Hst Hcells Hco Hcl. unfold updateHashes. destruct root_node as (Hn & Hb & Hr).
  destruct (updateSubtree_spec (S (numLevels s)) s 0 0) as (s' & -> & Hs & Hco' & Hcl' & Hp); [destruct Hst; lia|done..|].
  rewrite res_bind_Ok, Hb. destruct Hs as (Hbs & HL & He & _ & _). eexists. split; [reflexivity|].
  split; [|exact Hbs]. destruct Hst as [HL0 He0]. split.
  - split; cbn; congruence.
  - cbn. by rewrite Hbs.
  - exact Hco'.
  - by apply (closed_complete s').
  - cbn. by rewrite Hbs.
Qed.

(** Writing a cell: the memory stays well formed, and reads give the value
    at this cell and what they gave before at the others. *)
Lemma put_spec_store s addr val :
  ram_ok s -> 0 <= addr < DB_NUM_ADDRESSES -> length val = RAM_CELL_NUM_BITS ->
  (8 | RAM_CELL_NUM_BITS)%nat -> Z.of_nat RAM_CELL_NUM_BITS < 2 ^ 30 ->
  exists s', RAMImpl_put s addr val = Ok s' /\ putAddr (blockStore s) addr val = Ok (blockStore s') /\ ram_ok s' /\
    cell (blockStore s') addr = val /\
    forall a, 0 <= a < DB_NUM_ADDRESSES -> a <> addr -> cell (blockStore s') a = cell (blockStore s) a.
Proof.
  intros Hok Ha Hval Hdiv Hbits. unfold RAMImpl_put.
  destruct (putAddr_ok (blockStore s) addr val) as (b & Hputb & Hget & Hother & _); [unfold in_u; lia|]. rewrite Hputb, res_bind_Ok.
  cbv zeta. set (s0 := {| blockStore := b; numLevels := _ |}).
  assert (cell b addr = val) as Hcell.
  { unfold cell. rewrite Hget. apply whole_exact. by rewrite Hval. }
  assert (forall a, 0 <= a < DB_NUM_ADDRESSES -> a <> addr -> cell b a = cell (blockStore s) a) as Hcells.
  { intros a Ha' Hne. unfold cell. rewrite Hother; [done|unfold in_u; lia|done]. }
  assert (static_ok s0) as Hst0 by apply (ram_static _ Hok).
  set (s1 := invalidateHashes s0 addr).
  assert (forall l i, is_node l i -> cached s1 l i = if decide (i = over addr l) then None else cached s l i) as Hc1.
  { intros l i Hn. by apply (cached_invalidate s0 addr l i). }
  destruct root_node as (Hn0 & _). destruct (cached_invalidate s0 addr 0 0 Hst0 Ha Hn0) as (_ & Hb1 & Hst1).
  fold s1 in Hb1, Hst1. change (blockStore s0) with b in Hb1.
  destruct (updateHashes_spec s1) as (s' & Hup & Hok' & Hb'); [done| | | |].
  - rewrite Hb1. intros a Ha'. destruct (decide (a = addr)) as [->|Hne]; [rewrite Hcell, Hval; lia|].
    rewrite Hcells by done. by apply (ram_cells _ Hok).
  - intros l i h Hn. rewrite Hc1 by done. case_decide as Hd; [done|]. intros Hh. rewrite Hb1.
    destruct (ram_coherent _ Hok l i h Hn Hh) as [Hrg ->]. split; [done|]. symmetry. apply (node_other _ _ addr); [done|destruct Hn; lia|].
    by apply not_eq_sym.
  - intros l i c Hn Hl Hp Hc Hr. rewrite Hc1 in Hp by done. case_decide as Hd; [done|].
    assert (is_node (S l) c) as Hnc.
    { destruct Hn as [_ Hi]. split; [done|]. rewrite Nat2Z.inj_succ, Z.pow_succ_r by lia. lia. }
    rewrite Hc1 by done. case_decide as Hd'.
    + exfalso. apply Hd. unfold over in *. replace (below l) with (S (below (S l))) by (unfold below; lia).
      rewrite Nat2Z.inj_succ, Z.pow_succ_r, Z.mul_comm, <- Z.div_div by lia. rewrite <- Hd'.
      destruct Hc as [->| ->]; [rewrite Z.mul_comm, Z.div_mul by lia; done|].
      rewrite (Z.mul_comm 2), Z.add_comm, Z.div_add by lia. done.
    + by apply (ram_complete _ Hok).
  - exists s'. split; [exact Hup|]. rewrite Hb', Hb1. done.
Qed.

Lemma put_spec s addr val :
  ram_ok s -> 0 <= addr < DB_NUM_ADDRESSES -> length val = RAM_CELL_NUM_BITS ->
  (8 | RAM_CELL_NUM_BITS)%nat -> Z.of_nat RAM_CELL_NUM_BITS < 2 ^ 30 ->
  exists s', RAMImpl_put s addr val = Ok s' /\ ram_ok s' /\
    cell (blockStore s') addr = val /\
    forall a, 0 <= a < DB_NUM_ADDRESSES -> a <> addr -> cell (blockStore s') a = cell (blockStore s) a.
Proof. intros Hok Ha Hval Hdiv Hbits. destruct (put_spec_store s addr val) as (s' & Hput & _ & Hs'); [done..|]. by exists s'. Qed.

(** *** Construction *)

Lemma count_levels_spec : count_levels 32 = Ok L.
Proof.
  unfold count_levels. destruct (Z.gtb_spec DB_NUM_ADDRESSES 0); [|lia]. destruct L_bounds as [HL _].
  match goal with |- loop 32 ?f ?s0 = _ =>
    destruct (loop_ind (fun n => (1 <= n <= L)%nat) (fun r => r = L) (fun n => (L - n)%nat) f) with (fuel := 32%nat) (s := s0)
      as (r & -> & ->); [|lia|lia|done]
  end.
  intros n Hn. rewrite Z.shiftl_1_l. destruct (Z.gtb_spec DB_NUM_ADDRESSES (2 ^ (Z.of_nat n - 1))) as [Hgt|Hle].
  - left. eexists. split; [reflexivity|]. cut (n < L)%nat; [lia|]. unfold L.
    apply Z.log2_up_lt_pow2 in Hgt; [lia|lia].
  - right. eexists. split; [reflexivity|]. apply Z.log2_up_le_pow2 in Hle; [|lia]. unfold L in *. lia.
Qed.

Lemma new_spec b : cells_ok (cell b) -> exists s, new_RAMImpl b = Ok s /\ ram_ok s /\ blockStore s = b.
Proof.
  intros Hcells. unfold new_RAMImpl. rewrite hash_digest by done. rewrite res_bind_Ok, count_levels_spec, res_bind_Ok.
  apply updateHashes_spec; [done|exact Hcells| |].
  - intros l i h _. unfold cached. cbn [hashCache]. by rewrite cache_get_new.
  - intros l i c _ _. unfold cached at 1. cbn [hashCache]. by rewrite cache_get_new.
Qed.

(** *** Siblings *)

Definition sibling (addr : Z) (l : nat) : Z :=
  if Z.even (over addr l) then over addr l + 1 else over addr l - 1.

Lemma sibling_node addr l : (0 < l < L)%nat -> 0 <= addr < DB_NUM_ADDRESSES -> is_node l (sibling addr l).
Proof.
  intros Hl Ha. destruct (over_node addr l) as [_ Ho]; [lia|done|]. split; [lia|]. unfold sibling.
  assert (Z.even (2 ^ Z.of_nat l) = true) as He by (apply Z.even_pow; lia).
  destruct (Z.even (over addr l)) eqn:Hev.
  - destruct (Z.eq_dec (over addr l + 1) (2 ^ Z.of_nat l)) as [Heq|]; [|lia]. exfalso.
    rewrite <- Heq, Z.even_add, Hev in He. done.
  - destruct (Z.eq_dec (over addr l) 0) as [Heq|]; [by rewrite Heq in Hev|lia].
Qed.

Lemma sibling_index addr l :
  (0 < l < L)%nat -> 0 <= addr < DB_NUM_ADDRESSES ->
  (if negb (Z.land (heap_index l (over addr l)) 1 =? 0) then heap_index l (over addr l) + 1 else heap_index l (over addr l) - 1)
  = heap_index l (sibling addr l).
Proof.
  intros Hl Ha. unfold sibling, heap_index. rewrite (Z.land_ones _ 1 ltac:(lia) : Z.land _ 1 = _), Z.pow_1_r, Zmod_even.
  assert (Z.even (2 ^ Z.of_nat l) = true) as He by (apply Z.even_pow; lia).
  rewrite Z.even_add, Z.even_sub, He. destruct (Z.even (over addr l)); cbn [Bool.eqb negb Z.even Z.eqb]; lia.
Qed.

Lemma sibling_spec s addr l h :
  ram_ok s -> (0 < l < L)%nat -> 0 <= addr < DB_NUM_ADDRESSES ->
  getSiblingHash s addr l h
  = Ok (if DB_NUM_ADDRESSES <=? sibling addr l * 2 ^ Z.of_nat (below l) then (false, h)
        else (true, node (cell (blockStore s)) (below l) (sibling addr l))).
Proof.
  intros Hok Hl Ha. unfold getSiblingHash. rewrite (proj2 (Nat.ltb_lt _ _)) by lia. cbv zeta.
  rewrite getHCIndex_over by (try apply (ram_static _ Hok); done || lia). rewrite sibling_index by done.
  pose proof (sibling_node addr l Hl Ha) as Hn. pose proof (ram_coherent _ Hok l (sibling addr l)) as Hco.
  pose proof (ram_complete _ Hok l (sibling addr l) Hn) as Hcm. unfold getHash_at, cached, in_range in *. f_equal.
  destruct (cache_get _ _) as [str|]; cbn [fmap option_fmap option_map] in *.
  - destruct (Hco (of_string str)) as [Hr ->]; [done..|]. by rewrite (proj2 (Z.leb_gt _ _)).
  - destruct (Z.leb_spec DB_NUM_ADDRESSES (sibling addr l * 2 ^ Z.of_nat (below l))); [done|]. exfalso. by apply Hcm.
Qed.

(** Recomputing the root from a leaf and the siblings on its way up. *)
Fixpoint climb (s : RAMImpl) (addr : Z) (l : nat) (h : Bits) : res Bits :=
  match l with
  | O => Ok h
  | S l' =>
      '(found, sib) ← getSiblingHash s addr l [];
      if found : bool then
        h ← (if Z.even (over addr l) then hash2 h sib else hash2 sib h);
        climb s addr l' h
      else Fault
  end.

Lemma climb_spec s addr l :
  ram_ok s -> DB_NUM_ADDRESSES = 2 ^ Z.of_nat (L - 1) -> (l < L)%nat -> 0 <= addr < DB_NUM_ADDRESSES ->
  climb s addr l (node (cell (blockStore s)) (below l) (over addr l)) = Ok (node (cell (blockStore s)) (L - 1) 0).
Proof.
  intros Hok Hpow Hl Ha. induction l as [|l IH].
  - cbn. destruct (over_node addr 0) as [_ Ho]; [lia|done|]. replace (over addr 0) with 0 by lia.
    unfold below. by rewrite Nat.sub_0_r.
  - cbn [climb]. rewrite sibling_spec by (done || lia).
    destruct (sibling_node addr (S l)) as [_ Hsib]; [lia|done|]. destruct (over_node addr (S l)) as [_ Ho]; [lia|done|].
    assert (forall i, 0 <= i < 2 ^ Z.of_nat (S l) -> i * 2 ^ Z.of_nat (below (S l)) < DB_NUM_ADDRESSES) as Hin.
    { intros i Hi. rewrite Hpow, (pow_level (S l)) by done. apply Z.mul_lt_mono_pos_r; [|lia]. apply Z.pow_pos_nonneg; lia. }
    rewrite (proj2 (Z.leb_gt _ _)) by (by apply Hin). rewrite res_bind_Ok.
    assert (below l = S (below (S l))) as Hb by (unfold below; lia).
    assert (over addr l = over addr (S l) / 2) as Hov.
    { unfold over. rewrite Hb, Nat2Z.inj_succ, Z.pow_succ_r, (Z.mul_comm 2) by lia. rewrite Z.div_div by lia. done. }
    pose proof (Z.div_mod (over addr (S l)) 2 ltac:(lia)) as Hdm. rewrite Zmod_even in Hdm.
    pose proof (ram_cells _ Hok) as Hcells.
    assert (node (cell (blockStore s)) (below l) (over addr l)
      = digest_or_nil (hash2 (node (cell (blockStore s)) (below (S l)) (2 * (over addr (S l) / 2)))
          (node (cell (blockStore s)) (below (S l)) (2 * (over addr (S l) / 2) + 1)))) as Hnode.
    { rewrite Hov, Hb. apply node_inner. rewrite Nat2Z.inj_succ, Z.pow_succ_r, Z.mul_assoc by lia.
      rewrite (Z.mul_comm _ 2). apply Hin. destruct (Z.even (over addr (S l))); lia. }
    rewrite <- (IH ltac:(lia)), Hnode. unfold sibling.
    set (d := below (S l)) in *. set (q := over addr (S l) / 2) in *.
    assert (0 <= q) by (apply Z.div_pos; lia).
    destruct (hash2_digest (node (cell (blockStore s)) d (2 * q)) (node (cell (blockStore s)) d (2 * q + 1))) as [Hh _];
      [apply node_length; [done|lia]..|].
    destruct (Z.even (over addr (S l))); rewrite Hdm.
    + rewrite Z.add_0_r, Hh, res_bind_Ok. reflexivity.
    + replace (2 * q + 1 - 1) with (2 * q) by lia. rewrite Hh, res_bind_Ok. reflexivity.
Qed.

(** *** Runs *)

(** The states a memory goes through, with the contents of its cells. *)
Inductive reachable (b : bstore) : RAMImpl -> (Z -> Bits) -> Prop :=
| reachable_new s : new_RAMImpl b = Ok s -> reachable b s (cell b)
| reachable_put s m addr val s' :
    reachable b s m -> 0 <= addr < DB_NUM_ADDRESSES -> length val = RAM_CELL_NUM_BITS ->
    RAMImpl_put s addr val = Ok s' ->
    reachable b s' (fun a => if a =? addr then val else m a).

Lemma node_ext m m' d i :
  (forall a, 0 <= a < DB_NUM_ADDRESSES -> m' a = m a) -> 0 <= i -> node m' d i = node m d i.
Proof.
  intros Hm. revert i. induction d as [|d IH]; intros i Hi; cbn [node].
  - destruct (Z.geb_spec (i * 2 ^ Z.of_nat 0) DB_NUM_ADDRESSES); [done|]. rewrite Hm; [done|lia].
  - rewrite !IH by lia. done.
Qed.

Hypothesis Hdiv : (8 | RAM_CELL_NUM_BITS)%nat.
Hypothesis Hbits : Z.of_nat RAM_CELL_NUM_BITS < 2 ^ 30.

Lemma reachable_ok b s m :
  cells_ok (cell b) -> reachable b s m ->
  ram_ok s /\ forall a, 0 <= a < DB_NUM_ADDRESSES -> cell (blockStore s) a = m a.
Proof.
  intros Hcells Hr. induction Hr as [s Hnew|s m addr val s' Hr [IHok IHm] Ha Hval Hput].
  - destruct (new_spec b Hcells) as (s0 & Hs0 & Hok & Hb). rewrite Hnew in Hs0. injection Hs0 as <-. rewrite Hb. done.
  - destruct (put_spec s addr val) as (s0 & Hs0 & Hok & Hsame & Hother); [done..|].
    rewrite Hput in Hs0. injection Hs0 as <-. split; [done|]. intros a Ha'.
    destruct (Z.eqb_spec a addr) as [->|]; [done|]. rewrite Hother by done. by apply IHm.
Qed.

(** The cache holds the digests of the nodes over cells, and no others. *)
Lemma cached_nodes b s m level idx : cells_ok (cell b) -> reachable b s m -> is_node level idx ->
  cached s level idx = if idx * 2 ^ Z.of_nat (below level) <? DB_NUM_ADDRESSES then Some (node m (below level) idx) else None.
Proof.
  intros Hcells Hr Hn. destruct (reachable_ok b s m Hcells Hr) as [Hok Hm].
  pose proof (ram_complete _ Hok level idx Hn) as Hcomplete. pose proof (ram_coherent _ Hok level idx) as Hcoherent.
  destruct (cached s level idx) as [h|].
  - destruct (Hcoherent h Hn eq_refl) as [Hin ->]. rewrite (proj2 (Z.ltb_lt _ _) Hin). f_equal.
    apply node_ext; [intros a Ha; by rewrite Hm|by apply Hn].
  - destruct (Z.ltb_spec (idx * 2 ^ Z.of_nat (below level)) DB_NUM_ADDRESSES) as [Hin|]; [by destruct (Hcomplete Hin)|done].
Qed.

(** C13: In every state the memory reaches from its construction by writes to
    its cells, a read gives the last value written, the root digest is that
    of the tree over the present contents (although only the nodes over the
    written cells are computed again), the cache holds for every node over a
    cell the digest of its subtree and nothing for the others, and the next
    write does not fail. *)
Theorem merkle_ram_invariant b s m addr val :
  cells_ok (cell b) -> reachable b s m -> 0 <= addr < DB_NUM_ADDRESSES -> length val = RAM_CELL_NUM_BITS ->
  RAMImpl_get s addr = Ok (m addr) /\
  getRootHash s = createHash (node m (L - 1) 0) /\
  (forall level idx, is_node level idx ->
     cached s level idx = if idx * 2 ^ Z.of_nat (below level) <? DB_NUM_ADDRESSES then Some (node m (below level) idx) else None) /\
  exists s', RAMImpl_put s addr val = Ok s'.
Proof.
  intros Hcells Hr Ha Hval. destruct (reachable_ok b s m Hcells Hr) as [Hok Hm]. split; [|split; [|split]].
  - rewrite (get_cell (blockStore s)) by done. by rewrite Hm.
  - unfold getRootHash. rewrite (ram_root _ Hok). f_equal. apply node_ext; [exact Hm|done].
  - intros level idx. by apply (cached_nodes b).
  - destruct (put_spec s addr val) as (s' & Hs' & _); [done..|]. by exists s'.
Qed.

(** C21: When the number of cells is a power of two, hashing a cell and then
    the digests [getSiblingHash] gives, from the last level up, yields the
    root of the tree: the verifier's path exists for every cell and is
    right. *)
Theorem merkle_path_correct b s m addr :
  cells_ok (cell b) -> reachable b s m -> 0 <= addr < DB_NUM_ADDRESSES -> DB_NUM_ADDRESSES = 2 ^ Z.of_nat (L - 1) ->
  (h ← hash (m addr); climb s addr (L - 1) h) = Ok (node m (L - 1) 0).
Proof.
  intros Hcells Hr Ha Hpow. destruct (reachable_ok b s m Hcells Hr) as [Hok Hm].
  destruct L_bounds as [HL _]. rewrite <- Hm by done. rewrite hash_digest by (by apply (ram_cells _ Hok)).
  rewrite res_bind_Ok. pose proof (climb_spec s addr (L - 1) Hok Hpow) as Hc.
  replace (below (L - 1)) with O in Hc by (unfold below; lia). unfold over in Hc.
  replace (below (L - 1)) with O in Hc by (unfold below; lia). rewrite Z.div_1_r, node_leaf in Hc by lia.
  rewrite Hc by lia. f_equal. apply node_ext; [exact Hm|done].
Qed.

(** What happens at the edges: the check of a read lets the address
    behind the last cell pass, and the digest of a sibling is found only when
    a cell lies under it, so that in a memory whose size is not a power of two
    the paths of the last cells are incomplete. *)
Theorem merkle_ram_edges b s m addr l h :
  cells_ok (cell b) -> reachable b s m -> 0 <= addr < DB_NUM_ADDRESSES -> (0 < l < L)%nat ->
  (exists v, RAMImpl_get s DB_NUM_ADDRESSES = Ok v) /\
  (forall a, DB_NUM_ADDRESSES < a -> RAMImpl_get s a = Fault) /\
  getSiblingHash s addr l h
  = Ok (if DB_NUM_ADDRESSES <=? sibling addr l * 2 ^ Z.of_nat (below l) then (false, h)
        else (true, node m (below l) (sibling addr l))).
Proof.
  intros Hcells Hr Ha Hl. destruct (reachable_ok b s m Hcells Hr) as [Hok Hm]. split; [|split].
  - unfold RAMImpl_get. rewrite Z.gtb_ltb, Z.ltb_irrefl.
    destruct (getAddr_ok (blockStore s) DB_NUM_ADDRESSES []) as (found & v & -> & _); [unfold in_u; lia|].
    rewrite res_bind_Ok. by eexists.
  - intros a Hgt. unfold RAMImpl_get. rewrite Z.gtb_ltb. by rewrite (proj2 (Z.ltb_lt _ _)).
  - rewrite sibling_spec by done. destruct (sibling_node addr l Hl Ha) as [_ Hs].
    rewrite (node_ext m (cell (blockStore s)) _ _ Hm) by lia. done.
Qed.

End Ram.

(** ** A memory of four cells of eight bits *)

Definition sample_store : bstore (HashBlockStore := LevelDbStore (H := MapDB)) := (∅ : gmap (list Z) (list Z)).

Lemma sample_cells : cells_ok 4 (cell (H := LevelDbStore (H := MapDB)) 8 sample_store).
Proof. intros a _. reflexivity. Qed.

Lemma sample_reachable :
  exists s, reachable (H := LevelDbStore (H := MapDB)) (HH := NullHash.NullHash) (H0 := MapCache) 4 8 sample_store s
    (fun a => if a =? 2 then replicate 8 true else cell (H := LevelDbStore (H := MapDB)) 8 sample_store a).
Proof.
  destruct (new_spec (H := LevelDbStore (H := MapDB)) (HH := NullHash.NullHash) (H0 := MapCache) 4 8 ltac:(lia) sample_store sample_cells)
    as (s0 & H0 & Hok & _).
  destruct (put_spec (H := LevelDbStore (H := MapDB)) (HH := NullHash.NullHash) (H0 := MapCache) 4 8 ltac:(lia) s0 2 (replicate 8 true))
    as (s1 & H1 & _); [exact Hok|lia|reflexivity|by exists 1%nat|reflexivity|].
  exists s1. eapply reachable_put; [apply reachable_new; exact H0|lia|reflexivity|exact H1].
Qed.

Lemma merkle_ram_witness :
  exists s m, reachable (H := LevelDbStore (H := MapDB)) (HH := NullHash.NullHash) (H0 := MapCache) 4 8 sample_store s m /\
    RAMImpl_get (H := LevelDbStore (H := MapDB)) 4 8 s 2 = Ok (replicate 8 true) /\
    getRootHash s = createHash (Hasher := NullHash.NullHash) (node (HH := NullHash.NullHash) 4 m 2 0).
Proof.
  destruct sample_reachable as [s Hr]. exists s. eexists. split; [exact Hr|].
  destruct (merkle_ram_invariant (H := LevelDbStore (H := MapDB)) (HH := NullHash.NullHash) (H0 := MapCache) 4 8 ltac:(lia) ltac:(by exists 1%nat) ltac:(reflexivity)
    sample_store s _ 2 (replicate 8 true) sample_cells Hr) as (Hget & Hroot & _); [lia|reflexivity|].
  split; [exact Hget|exact Hroot].
Defined.

Lemma merkle_path_witness :
  exists s m, reachable (H := LevelDbStore (H := MapDB)) (HH := NullHash.NullHash) (H0 := MapCache) 4 8 sample_store s m /\
    (h ← hash (Hasher := NullHash.NullHash) (m 3); climb (HH := NullHash.NullHash) 4 s 3 2 h)
    = Ok (node (HH := NullHash.NullHash) 4 m 2 0).
Proof.
  destruct sample_reachable as [s Hr]. exists s. eexists. split; [exact Hr|].
  apply (merkle_path_correct (H := LevelDbStore (H := MapDB)) (HH := NullHash.NullHash) (H0 := MapCache) 4 8 ltac:(lia) ltac:(by exists 1%nat) ltac:(reflexivity)
    sample_store s _ 3 sample_cells Hr); [lia|reflexivity].
Defined.

(** Three cells: the sibling of cell 2 is no cell, and its digest is missing. *)
Definition sample3 : bstore (HashBlockStore := LevelDbStore (H := MapDB)) := (∅ : gmap (list Z) (list Z)).

Lemma sample3_cells : cells_ok 3 (cell (H := LevelDbStore (H := MapDB)) 8 sample3).
Proof. intros a _. reflexivity. Qed.

Lemma merkle_ram_edges_witness :
  exists s, new_RAMImpl (H := LevelDbStore (H := MapDB)) (HH := NullHash.NullHash) (H0 := MapCache) 3 8 sample3 = Ok s /\
    getSiblingHash s 2 2 [] = Ok (false, []).
Proof.
  destruct (new_spec (H := LevelDbStore (H := MapDB)) (HH := NullHash.NullHash) (H0 := MapCache) 3 8 ltac:(lia) sample3 sample3_cells)
    as (s0 & H0 & _). exists s0. split; [exact H0|].
  destruct (merkle_ram_edges (H := LevelDbStore (H := MapDB)) (HH := NullHash.NullHash) (H0 := MapCache) 3 8 ltac:(lia)
    ltac:(by exists 1%nat) ltac:(reflexivity) sample3 s0 _ 2 2 [] sample3_cells (reachable_new 3 8 sample3 s0 H0)) as (_ & _ & Hs);
    [lia|split; [lia|apply Nat.ltb_lt; reflexivity]|].
  exact Hs.
Defined.
