(* ===== verification/KyotoStore.v ===== *)
(** The block stores beside LevelDB: [pepper/storage/kyoto_block_store.cpp]
    and the choice of a store in [configurable_block_store.cpp].

    The database is Kyoto Cabinet's, from strings to strings, through the
    interface [CacheDB] of [MerkleRam.v]; [boost::to_string] prints a bit
    vector with the digits 0 and 1, so it never prints an address. *)
From Stdlib Require Import ZArith Lia String.
From stdpp Require Import base numbers list gmap strings pretty.
From S2P Require Import Prelude Bits LevelDb MerkleRam.

Local Open Scope Z_scope.

(** ** The code *)

Section Kyoto.
Context `{CacheDB}.

Record KyotoBlockStore : Type := Kyoto { opened : bool; _blocks : cache }.

(** [on_disk] is what the file holds when it is opened. *)
Definition Open (on_disk : cache) : KyotoBlockStore := Kyoto true on_disk.
Definition Close (s : KyotoBlockStore) : KyotoBlockStore := if opened s then Kyoto false (_blocks s) else s.

Definition addrToStr (addr : Z) : string := String.append "RAM_" (pretty (Z.to_N addr)).

(** A store that is not open warns and finds nothing, or drops the value. *)
Definition kyoto_getVal (s : KyotoBlockStore) (key : string) (v : Bits) : bool * Bits :=
  if opened s then
    match cache_get (_blocks s) key with
    | Some vs => (true, of_string vs)
    | None => (false, v)
    end
  else (false, v).

Definition kyoto_putVal (s : KyotoBlockStore) (key : string) (v : Bits) : KyotoBlockStore :=
  if opened s then Kyoto true (cache_set (_blocks s) key (to_string v)) else s.

Definition kyoto_get (s : KyotoBlockStore) (k v : Bits) : res (bool * Bits) := Ok (kyoto_getVal s (to_string k) v).
Definition kyoto_put (s : KyotoBlockStore) (k v : Bits) : res KyotoBlockStore := Ok (kyoto_putVal s (to_string k) v).
Definition kyoto_getAddr (s : KyotoBlockStore) (addr : Z) (v : Bits) : res (bool * Bits) := Ok (kyoto_getVal s (addrToStr addr) v).
Definition kyoto_putAddr (s : KyotoBlockStore) (addr : Z) (v : Bits) : res KyotoBlockStore := Ok (kyoto_putVal s (addrToStr addr) v).
Definition kyoto_free (s : KyotoBlockStore) (k : Bits) : res KyotoBlockStore :=
  Ok (if opened s then Kyoto true (cache_remove (_blocks s) (to_string k)) else s).

Definition KyotoStore : HashBlockStore := {|
  bstore := KyotoBlockStore; get := kyoto_get; put := kyoto_put; getAddr := kyoto_getAddr; putAddr := kyoto_putAddr; free := kyoto_free
|}.

(** ** Correctness *)

(** What [boost::to_string] prints. *)
Class DigitKeys : Prop := { not_address : forall b a, to_string b <> addrToStr a }.
Context `{!CacheDBLaws} `{!DigitKeys}.

Lemma to_string_inj k k' : to_string k = to_string k' -> k = k'.
Proof. intros Heq. by rewrite <- (of_to_string k), <- (of_to_string k'), Heq. Qed.

Lemma addrToStr_inj a a' : 0 <= a -> 0 <= a' -> addrToStr a = addrToStr a' -> a = a'.
Proof. unfold addrToStr. intros Ha Ha' Heq. apply (inj (String.append "RAM_")) in Heq. apply (inj pretty) in Heq. lia. Qed.

Lemma getVal_put s key key' v w : opened s = true ->
  kyoto_getVal (kyoto_putVal s key v) key' w = if decide (key' = key) then (true, v) else kyoto_getVal s key' w.
Proof.
  intros Ho. unfold kyoto_putVal, kyoto_getVal. rewrite Ho. cbn [opened _blocks].
  case_decide as Hk; [subst; by rewrite cache_get_set, of_to_string|]. by rewrite cache_get_set_ne by done.
Qed.

(** An open store gives every value back bit for bit, whatever its length,
    under its key or its address, and nothing else changes; a freed block is
    gone. *)
Lemma kyoto_put_get s k v w a : opened s = true -> 0 <= a ->
  exists s', kyoto_put s k v = Ok s' /\ opened s' = true /\ kyoto_get s' k w = Ok (true, v) /\
    (forall k', k' <> k -> kyoto_get s' k' w = kyoto_get s k' w) /\
    (forall a', kyoto_getAddr s' a' w = kyoto_getAddr s a' w) /\
    exists s1, kyoto_putAddr s' a v = Ok s1 /\ kyoto_getAddr s1 a w = Ok (true, v) /\ kyoto_get s1 k w = Ok (true, v) /\
      (forall a', 0 <= a' -> a' <> a -> kyoto_getAddr s1 a' w = kyoto_getAddr s' a' w) /\
      exists s2, kyoto_free s1 k = Ok s2 /\ kyoto_get s2 k w = Ok (false, w) /\ kyoto_getAddr s2 a w = Ok (true, v).
Proof.
  intros Ho Ha. assert (opened (kyoto_putVal s (to_string k) v) = true) as Ho' by (unfold kyoto_putVal; by rewrite Ho).
  eexists. split; [reflexivity|]. split; [exact Ho'|]. unfold kyoto_get, kyoto_getAddr.
  split; [by rewrite getVal_put, decide_True by done|].
  split; [intros k' Hne; rewrite getVal_put, decide_False; [done|intros ?%to_string_inj; done|done]|].
  split; [intros a'; rewrite getVal_put, decide_False; [done|by apply not_eq_sym, not_address|done]|].
  eexists. split; [reflexivity|]. split; [by rewrite getVal_put, decide_True by done|].
  split; [rewrite getVal_put, decide_False, getVal_put, decide_True by (done || apply not_address); done|].
  split; [intros a' Ha' Hne; rewrite getVal_put, decide_False; [done|intros ?%addrToStr_inj; done|done]|].
  eexists. split; [reflexivity|].
  assert (opened (kyoto_putVal (kyoto_putVal s (to_string k) v) (addrToStr a) v) = true) as Ho2 by (unfold kyoto_putVal at 1; by rewrite Ho').
  rewrite Ho2. unfold kyoto_getVal. cbn [opened _blocks]. rewrite cache_get_remove. split; [done|].
  rewrite cache_get_remove_ne by (apply not_address). unfold kyoto_putVal at 1. rewrite Ho'. cbn [_blocks]. by rewrite cache_get_set, of_to_string.
Qed.

(** A store that is not open answers that nothing is there and forgets what
    it is given. *)
Lemma kyoto_closed s k v w : opened s = false -> kyoto_get s k w = Ok (false, w) /\ kyoto_put s k v = Ok s.
Proof. intros Ho. unfold kyoto_get, kyoto_put, kyoto_getVal, kyoto_putVal. by rewrite Ho. Qed.

(** The LevelDB store cuts a value to whole bytes, this one does not: on
    blocks of whole bytes a client cannot tell them apart. *)
Lemma kyoto_whole s k v w : opened s = true -> (8 | length v)%nat ->
  exists s', kyoto_put s k v = Ok s' /\ kyoto_get s' k w = Ok (true, whole v).
Proof. intros Ho Hv. destruct (kyoto_put_get s k v w 0 Ho) as (s' & Hput & _ & Hget & _); [done|]. exists s'. by rewrite whole_exact. Qed.

End Kyoto.

(** ** The choice of a store *)

(** [USE_KYOTO_BLOCK_STORE] and [USE_DB_BLOCK_STORE] are set when the library is
    compiled; every operation is that of the store chosen. *)
Definition ConfigurableBlockStore (USE_KYOTO_BLOCK_STORE USE_DB_BLOCK_STORE : bool) (kyoto db_store level : HashBlockStore) : HashBlockStore :=
  if USE_KYOTO_BLOCK_STORE then kyoto else if USE_DB_BLOCK_STORE then db_store else level.

(** ** A map as the database *)

#[export] Instance MapDigits : DigitKeys (H := MapCache).
Proof.
  split. intros b a Heq. cbn in Heq. unfold addrToStr in Heq. revert Heq.
  assert (forall b acc, (forall s, acc <> String (Ascii.ascii_of_nat 82) s) -> forall s, print_bits b acc <> String (Ascii.ascii_of_nat 82) s) as Hp.
  { intros b1. induction b1 as [|x b1 IH]; intros acc Hacc; [exact Hacc|]. cbn [print_bits]. apply IH. intros s. by destruct x. }
  cbn [String.append]. by apply Hp.
Qed.

Lemma kyoto_put_get_witness : exists s', kyoto_put (Open (H := MapCache) ∅) [true; false] [true; true; false] = Ok s' /\
  kyoto_get s' [true; false] [] = Ok (true, [true; true; false]).
Proof. destruct (kyoto_put_get (H := MapCache) (Open (H := MapCache) ∅) [true; false] [true; true; false] [] 0) as (s' & H1 & _ & H2 & _); [done|done|]. by exists s'. Defined.
