(* ===== verification/Exo.v ===== *)
(** The primitives for code outside the constraints: [pepper/storage/exo.cpp].

    Checkers and input generators store blocks under their hash, store
    commitments, and read and write the memory.  All of it goes through one
    [HashBlockStore] and one [MerkleRAM] over it; the models are written over
    the interfaces [HashBlockStore] and [Hasher], and the theorem shows that
    the three kinds of data do not disturb each other. *)
From Stdlib Require Import ZArith Lia.
From stdpp Require Import base numbers list gmap.
From S2P Require Import Prelude ShaSpec Sha256 Commitment Bits LevelDb GghHash MerkleRam.

Local Open Scope Z_scope.

(** ** The code *)

Section Code.
Context `{HashBlockStore} `{HH : Hasher} `{CacheDB}.
Context (DB_NUM_ADDRESSES : Z) (RAM_CELL_NUM_BITS DB_HASH_NUM_BITS : nat).

(** Objects are the bytes they occupy; [Bits(n)] is a vector of [n] zeros. *)
Definition zeros (n : nat) : Bits := replicate n false.

Definition __ramput (ram : RAMImpl) (addr : Z) (data : list Z) (size : nat) : res RAMImpl :=
  bits ← ByteArrayToBits data size (zeros RAM_CELL_NUM_BITS) 0;
  RAMImpl_put DB_NUM_ADDRESSES RAM_CELL_NUM_BITS ram addr bits.

Definition __ramget (ram : RAMImpl) (var : list Z) (addr : Z) (size : nat) : res (list Z) :=
  bits ← RAMImpl_get DB_NUM_ADDRESSES RAM_CELL_NUM_BITS ram addr;
  BitsToByteArray var size bits 0.

Definition __hashbits (hash_ data : list Z) (size : nat) : res (list Z) :=
  bits ← ByteArrayToBits data size (zeros (size * 8)) 0;
  hashBits ← hash bits;
  for_upM 0 (length hashBits / 8) (fun i hash_ =>
    hash_ ← wr hash_ (Z.of_nat i) 0;
    for_upM 0 8 (fun j hash_ =>
      b ← rd hashBits (Z.of_nat DB_HASH_NUM_BITS - Z.of_nat (i * 8 + j) - 1);
      chunk ← rd hash_ (Z.of_nat i);
      wr hash_ (Z.of_nat i) (Z.lor chunk (u8 (Z.shiftl (b2z b) (Z.of_nat j))))) hash_) hash_.

(** The bits of the hash in the order of the backend. *)
Definition hash_to_key (hashBits : Bits) : res Bits :=
  let numHashBits := getNumHashBits in
  for_upM 0 numHashBits (fun i key =>
    b ← rd hashBits (Z.of_nat numHashBits - Z.of_nat i - 1);
    wr key (Z.of_nat i) b) (zeros numHashBits).

Definition __hashput (bs : bstore) (hash_ data : list Z) (size : nat) : res (list Z * bstore) :=
  let numHashBits := getNumHashBits in
  block ← ByteArrayToBits data size (zeros (size * 8)) 0;
  hashBits ← hash block;
  key ← hash_to_key hashBits;
  hash_ ← BitsToByteArray hash_ (numHashBits / 8) key 0;
  bs ← put bs key block;
  Ok (hash_, bs).

Definition __hashget (bs : bstore) (var hash_ : list Z) (size : nat) : res (list Z) :=
  let numHashBits := getNumHashBits in
  key ← ByteArrayToBits hash_ (numHashBits / 8) (zeros numHashBits) 0;
  '(found, block) ← get bs key (zeros (size * 8));
  if (found : bool) then BitsToByteArray var size block 0 else Fault.

Definition hashfree (bs : bstore) (hash_ : list Z) : res bstore :=
  let numHashBits := getNumHashBits in
  key ← ByteArrayToBits hash_ (numHashBits / 8) (zeros numHashBits) 0;
  free bs key.

Definition key_bytes_of_commitment : nat := Z.to_nat (NUM_COMMITMENT_BITS / 8).
Definition secret_bytes : nat := Z.to_nat (NUM_COMMITMENT_BITS_PER_BLOCK / 8).
Definition secret_bits : nat := Z.to_nat NUM_COMMITMENT_BITS_PER_BLOCK.

(** [rand i] is what the [i]-th call of [rand] returns; [ck] is the global
    [__db_commitment_CK]. *)
Definition __commitmentput (bs : bstore) (ck : list Z) (rand : nat -> Z) (hash_ data : list Z) (size : nat) : res (list Z * bstore) :=
  let secretkey := for_up 0 secret_bytes (fun i secretkey => <[i := u8 (rand i)]> secretkey) (replicate secret_bytes 0) in
  hash_ ← commitment_hash ck data (u32 (Z.of_nat size * 8)) secretkey hash_;
  key ← ByteArrayToBits hash_ key_bytes_of_commitment (zeros (Z.to_nat NUM_COMMITMENT_BITS)) 0;
  block ← ByteArrayToBits secretkey secret_bytes (zeros (size * 8 + secret_bits)) 0;
  block ← ByteArrayToBits data size block secret_bits;
  bs ← put bs key block;
  Ok (hash_, bs).

Definition __commitmentget (bs : bstore) (var hash_ : list Z) (size : nat) : res (list Z) :=
  key ← ByteArrayToBits hash_ key_bytes_of_commitment (zeros (Z.to_nat NUM_COMMITMENT_BITS)) 0;
  '(found, block) ← get bs key (zeros (size * 8 + secret_bits));
  if (found : bool) then BitsToByteArray var size block secret_bits else Fault.

(** The globals: the key of the commitments and the memory, whose store is
    the block store the other primitives use. *)
Record globals : Type := Globals { ckey : list Z; ram : RAMImpl }.

Definition set_store (r : RAMImpl) (b : bstore) : RAMImpl :=
  {| blockStore := b; numLevels := numLevels r; emptyHash := emptyHash r; rootHash := rootHash r; hashCache := hashCache r |}.
Definition with_store (s : globals) (b : bstore) : globals := Globals (ckey s) (set_store (ram s) b).

(** [store] is what the block store holds when it is opened. *)
Definition initBlockStore (ck : list Z) (store : bstore) : res globals :=
  r ← new_RAMImpl DB_NUM_ADDRESSES RAM_CELL_NUM_BITS store;
  Ok (Globals ck r).

(** Called with a memory and the store under it. *)
Definition setBlockStoreAndRAM (r : RAMImpl) (s : globals) : globals := Globals (ckey s) r.

Definition ramput (addr : Z) (data : list Z) (size : nat) (s : globals) : res globals :=
  r ← __ramput (ram s) addr data size; Ok (Globals (ckey s) r).
Definition ramget (var : list Z) (addr : Z) (size : nat) (s : globals) : res (list Z) := __ramget (ram s) var addr size.
Definition hashput (hash_ data : list Z) (size : nat) (s : globals) : res (list Z * globals) :=
  '(hash_, b) ← __hashput (blockStore (ram s)) hash_ data size; Ok (hash_, with_store s b).
Definition hashget (var hash_ : list Z) (size : nat) (s : globals) : res (list Z) := __hashget (blockStore (ram s)) var hash_ size.
Definition hashfree_global (hash_ : list Z) (s : globals) : res globals :=
  b ← hashfree (blockStore (ram s)) hash_; Ok (with_store s b).
Definition commitmentput (rand : nat -> Z) (hash_ data : list Z) (size : nat) (s : globals) : res (list Z * globals) :=
  '(hash_, b) ← __commitmentput (blockStore (ram s)) (ckey s) rand hash_ data size; Ok (hash_, with_store s b).
Definition commitmentget (var hash_ : list Z) (size : nat) (s : globals) : res (list Z) := __commitmentget (blockStore (ram s)) var hash_ size.

(** ** Programs of primitives, and what they mean *)

Inductive op : Type :=
| RamPut (addr : Z) (data : list Z)
| HashPut (data : list Z)
| HashFree (hash_ : list Z)
| SetKey (ck : list Z)
| CommitmentPut (rand : nat -> Z) (data : list Z).

(** The hash an operation returns, and the state after it; the variables for
    the hashes hold zeros before. *)
Definition exec (o : op) (s : globals) : res (list Z * globals) :=
  match o with
  | RamPut addr data => s ← ramput addr data (length data) s; Ok ([], s)
  | HashPut data => hashput (replicate (getNumHashBits / 8) 0) data (length data) s
  | HashFree h => s ← hashfree_global h s; Ok ([], s)
  | SetKey ck => ck ← setcommitmentCK (ckey s) ck; Ok ([], Globals ck (ram s))
  | CommitmentPut rand data => commitmentput rand (replicate NUM_COMMITMENT_CHUNKS 0) data (length data) s
  end.

Fixpoint exec_all (os : list op) (s : globals) : res (list (list Z) * globals) :=
  match os with
  | [] => Ok ([], s)
  | o :: os => '(h, s) ← exec o s; '(hs, s) ← exec_all os s; Ok (h :: hs, s)
  end.

(** The specification: a memory of cells of whole bytes, and a map from
    hashes to blocks. *)
Record memory : Type := Memory { key_of : list Z; cells : Z -> list Z; blocks : gmap (list Z) (list Z) }.

Definition cell_bytes : nat := RAM_CELL_NUM_BITS / 8.

(** The hash of a block. *)
Definition digest (data : list Z) : list Z := bytes_of (reverse (digest_or_nil (hash (byte_bits data)))).

(** What a commitment to [data] with key [ck] is, and what is stored for it. *)
Definition secret (rand : nat -> Z) : list Z := tabulate secret_bytes (fun i => u8 (rand i)).
Definition commit (ck : list Z) (rand : nat -> Z) (data : list Z) : list Z :=
  le_hash (map (Z.lxor 0x5c) (secret rand) ++ le_hash (map (Z.lxor 0x36) (secret rand) ++ ck ++ data)).

Definition spec_step (o : op) (m : memory) : list Z * memory :=
  match o with
  | RamPut addr data =>
      ([], Memory (key_of m) (fun a => if a =? addr then data ++ replicate (cell_bytes - length data) 0 else cells m a) (blocks m))
  | HashPut data => (digest data, Memory (key_of m) (cells m) (<[digest data := data]> (blocks m)))
  | HashFree h => ([], Memory (key_of m) (cells m) (delete h (blocks m)))
  | SetKey ck => ([], Memory ck (cells m) (blocks m))
  | CommitmentPut rand data =>
      (commit (key_of m) rand data, Memory (key_of m) (cells m) (<[commit (key_of m) rand data := secret rand ++ data]> (blocks m)))
  end.

Fixpoint spec_all (os : list op) (m : memory) : list (list Z) * memory :=
  match os with
  | [] => ([], m)
  | o :: os => let '(h, m) := spec_step o m in let '(hs, m) := spec_all os m in (h :: hs, m)
  end.

(** The sizes an operation has to keep to. *)
Definition allowed (o : op) : Prop :=
  match o with
  | RamPut addr data => 0 <= addr < DB_NUM_ADDRESSES /\ bytes data /\ (length data <= cell_bytes)%nat
  | HashPut data => bytes data /\ 8 * Z.of_nat (length data) < 2 ^ 30
  | HashFree h => bytes h /\ (length h = getNumHashBits / 8)%nat
  | SetKey ck => bytes ck /\ length ck = 20%nat
  | CommitmentPut rand data => bytes data /\ 8 * Z.of_nat (84 + length data) < 2 ^ 31
  end.

(** What the reads answer in state [m]. *)
Definition block_at (m : memory) (hash_ : list Z) (skip size : nat) : res (list Z) :=
  match blocks m !! hash_ with
  | Some d => if (size + skip <=? length d)%nat then Ok (take size (drop skip d)) else Fault
  | None => Fault
  end.

End Code.

(** ** Bytes and bits *)

Lemma bytes_of_byte_bits d skip size : bytes d -> (size + skip <= length d)%nat ->
  tabulate size (fun i => bits_val (tabulate 8 (fun j => byte_bits d !!! (i * 8 + j + 8 * skip)%nat))) = take size (drop skip d).
Proof.
  intros Hd Hl. apply list_eq_same_length with size; [rewrite length_take, length_drop; lia|by rewrite tabulate_length|]. intros i x y Hi Hx Hy.
  rewrite lookup_take_lt, lookup_drop in Hy by done. apply list_lookup_total_correct in Hx as <-. rewrite tabulate_lookup by done.
  pose proof (Forall_lookup_1 _ _ _ _ Hd Hy) as Hy8. cbn beta in Hy8. rewrite <- (bits_val_testbit y 8) by exact Hy8. f_equal. apply tabulate_ext. intros j Hj.
  replace (i * 8 + j + 8 * skip)%nat with ((skip + i) * 8 + j)%nat by lia. by apply byte_bits_lookup.
Qed.

Lemma byte_bits_back d : bytes d -> bytes_of (byte_bits d) = d.
Proof.
  intros Hd. unfold bytes_of. rewrite byte_bits_length, Nat.mul_comm, Nat.div_mul by done.
  etransitivity; [exact (bytes_of_byte_bits d 0 (length d) Hd ltac:(lia))|]. by rewrite drop_0, firstn_all.
Qed.

Lemma byte_bits_inj h h' : bytes h -> bytes h' -> byte_bits h = byte_bits h' -> h = h'.
Proof. intros Hh Hh' Heq. by rewrite <- (byte_bits_back h), <- (byte_bits_back h'), Heq. Qed.

Lemma byte_bits_app a b : byte_bits (a ++ b) = byte_bits a ++ byte_bits b.
Proof. unfold byte_bits. by rewrite fmap_app, concat_app. Qed.

Lemma byte_bits_zeros n : byte_bits (replicate n 0) = zeros (n * 8).
Proof. induction n as [|n IH]; [done|]. unfold byte_bits in *. cbn [replicate fmap list_fmap concat]. rewrite IH. reflexivity. Qed.

(** An object read from a block of whole bytes. *)
Lemma read_bytes var d skip : bytes d ->
  BitsToByteArray var (length var) (byte_bits d) (8 * skip) = if (length var + skip <=? length d)%nat then Ok (take (length var) (drop skip d)) else Fault.
Proof.
  intros Hd. destruct (Nat.leb_spec (length var + skip) (length d)).
  - rewrite BitsToByteArray_spec by (rewrite ?byte_bits_length; lia). f_equal. by apply bytes_of_byte_bits.
  - unfold BitsToByteArray. rewrite byte_bits_length, (proj2 (Nat.leb_gt _ _)) by lia. done.
Qed.

(** An object written to a vector of zeros. *)
Lemma write_bytes d n : (length d <= n)%nat -> ByteArrayToBits d (length d) (zeros (n * 8)) 0 = Ok (byte_bits (d ++ replicate (n - length d) 0)).
Proof.
  intros Hn. rewrite ByteArrayToBits_spec by (unfold zeros; rewrite length_replicate; lia). f_equal. rewrite byte_bits_app, byte_bits_zeros. unfold zeros.
  rewrite drop_replicate, take_0. cbn [app]. do 2 f_equal. f_equal. lia.
Qed.

Lemma write_all d : ByteArrayToBits d (length d) (zeros (length d * 8)) 0 = Ok (byte_bits d).
Proof. rewrite write_bytes, Nat.sub_diag, app_nil_r by lia. done. Qed.

Lemma write_sized d k : length d = k -> ByteArrayToBits d k (zeros (k * 8)) 0 = Ok (byte_bits d).
Proof. intros <-. apply write_all. Qed.

(** ** The host state and its meaning *)

Section Host.
Context `{HashBlockStore} `{HH : Hasher} `{CacheDB}.
Context (DB_NUM_ADDRESSES : Z) (RAM_CELL_NUM_BITS DB_HASH_NUM_BITS : nat).
Context `{!HashBlockStoreLaws} `{!HasherLaws} `{!CacheDBLaws}.
Hypothesis HDB : 0 < DB_NUM_ADDRESSES <= 2 ^ 30.
Hypothesis Hdiv : (8 | RAM_CELL_NUM_BITS)%nat.
Hypothesis Hbits : Z.of_nat RAM_CELL_NUM_BITS < 2 ^ 30.
Hypothesis Hhash : (8 | getNumHashBits)%nat.
Hypothesis Hkey : (getNumHashBits / 8 <> 4)%nat.
Notation ram_ok := (ram_ok DB_NUM_ADDRESSES RAM_CELL_NUM_BITS).
Notation cell := (cell RAM_CELL_NUM_BITS).
Notation cell_bytes := (cell_bytes RAM_CELL_NUM_BITS).
Notation n := (getNumHashBits / 8)%nat.

Lemma hash_bits : getNumHashBits = (n * 8)%nat.
Proof. destruct Hhash as [q ->]. by rewrite Nat.div_mul. Qed.

Lemma cell_bits : RAM_CELL_NUM_BITS = (cell_bytes * 8)%nat.
Proof. destruct Hdiv as [q Hq]. unfold Exo.cell_bytes. rewrite Hq. by rewrite Nat.div_mul. Qed.

Lemma hash_to_key_spec hb : length hb = getNumHashBits -> hash_to_key hb = Ok (reverse hb).
Proof.
  intros Hl. unfold hash_to_key. rewrite (for_upM_fill _ _ (fun i => hb !!! (getNumHashBits - S i)%nat)).
  - f_equal. apply list_eq_same_length with getNumHashBits; [by rewrite length_reverse|by rewrite tabulate_length|]. intros i x y Hi Hx Hy.
    apply list_lookup_total_correct in Hx as <-. apply list_lookup_total_correct in Hy as <-. rewrite tabulate_lookup by done. symmetry. apply list_lookup_total_correct.
    rewrite reverse_lookup by lia. rewrite Hl. apply list_lookup_lookup_total_lt. lia.
  - unfold zeros. apply length_replicate.
  - intros i l Hi Hll. rewrite rd_Ok, res_bind_Ok, wr_Ok by lia. rewrite Nat2Z.id. do 2 f_equal. f_equal. lia.
Qed.

(** The hash of a block has the size of a hash, and its bits are those of
    the digest, backwards. *)
Lemma digest_spec data : 8 * Z.of_nat (length data) < 2 ^ 30 ->
  exists hb, hash (byte_bits data) = Ok hb /\ length hb = getNumHashBits /\ byte_bits (digest data) = reverse hb /\ length (digest data) = n /\ bytes (digest data).
Proof.
  intros Hlen. destruct (hash_ok (byte_bits data)) as (hb & Hh & Hl); [rewrite byte_bits_length; lia|]. exists hb. split; [done|]. split; [done|].
  unfold digest. rewrite Hh. cbn [digest_or_nil]. rewrite byte_bits_bytes_of. split; [apply whole_exact; by rewrite length_reverse, Hl|].
  split; [by rewrite bytes_of_length, length_reverse, Hl|]. unfold bytes_of, tabulate. apply Forall_fmap, Forall_forall. intros i _. unfold compose.
  pose proof (bits_val_range (tabulate 8 (fun j => reverse hb !!! (i * 8 + j + 0)%nat))) as Hr. by rewrite tabulate_length in Hr.
Qed.

Record host_ok (s : globals) (m : memory) : Prop := {
  ok_ram : ram_ok (ram s);
  ok_cells : forall a, 0 <= a < DB_NUM_ADDRESSES -> cell (blockStore (ram s)) a = byte_bits (cells m a);
  ok_sizes : forall a, 0 <= a < DB_NUM_ADDRESSES -> bytes (cells m a) /\ length (cells m a) = cell_bytes;
  ok_blocks : forall h w, bytes h -> length h <> 4%nat ->
    get (blockStore (ram s)) (byte_bits h) w = match blocks m !! h with Some d => Ok (true, byte_bits d) | None => Ok (false, w) end;
  ok_bytes : forall h d, blocks m !! h = Some d -> bytes d;
  ok_ckey : ckey s = key_of m /\ bytes (ckey s) /\ length (ckey s) = 20%nat
}.

(** Another store with the same cells does not disturb the memory. *)
Lemma ram_ok_store r b : ram_ok r -> (forall a, 0 <= a < DB_NUM_ADDRESSES -> cell b a = cell (blockStore r) a) -> ram_ok (set_store r b).
Proof.
  intros [Hst Hcells Hco Hcm Hroot] Hsame. split; [exact Hst| | |exact Hcm|].
  - intros a Ha. cbn [blockStore set_store]. rewrite Hsame by done. by apply Hcells.
  - intros l i h Hn Hc. destruct (Hco l i h Hn Hc) as [Hr ->]. split; [done|]. symmetry. cbn [blockStore set_store]. apply node_ext; [done|]. destruct Hn. lia.
  - cbn [rootHash set_store blockStore]. rewrite Hroot. f_equal. symmetry. apply node_ext; [done|lia].
Qed.

Lemma block_key_bytes h : length h <> 4%nat -> block_key (byte_bits h).
Proof. intros Hh. unfold block_key. rewrite byte_bits_length, Nat.mul_comm, Nat.div_mul by done. done. Qed.

Lemma whole_byte_bits d : whole (byte_bits d) = byte_bits d.
Proof. apply whole_exact. rewrite byte_bits_length. by exists (length d); lia. Qed.

Lemma same_cell b b' a : in_u 32 a -> (forall w, getAddr b' a w = getAddr b a w) -> cell b' a = cell b a.
Proof. intros _ Hg. unfold MerkleRam.cell. by rewrite Hg. Qed.

Lemma put_block s m k d : host_ok s m -> bytes k -> length k <> 4%nat -> bytes d ->
  exists b, put (blockStore (ram s)) (byte_bits k) (byte_bits d) = Ok b /\ host_ok (with_store s b) (Memory (key_of m) (cells m) (<[k := d]> (blocks m))).
Proof.
  intros Hok Hk Hk4 Hd. destruct (put_ok (blockStore (ram s)) (byte_bits k) (byte_bits d) (block_key_bytes k Hk4)) as (b & Hput & Hget & Hother & Haddr).
  exists b. split; [done|].
  assert (forall a, 0 <= a < DB_NUM_ADDRESSES -> cell b a = cell (blockStore (ram s)) a) as Hcell by (intros a Ha; unfold MerkleRam.cell; rewrite Haddr by (unfold in_u; lia); done).
  split; cbn [ram ckey with_store blockStore set_store cells blocks key_of].
  - apply ram_ok_store; [apply (ok_ram s m Hok)|exact Hcell].
  - intros a Ha. rewrite Hcell by done. by apply (ok_cells s m Hok).
  - apply (ok_sizes s m Hok).
  - intros h w Hh Hh4. destruct (decide (h = k)) as [->|Hne]; [by rewrite lookup_insert_eq, Hget, whole_byte_bits|].
    rewrite lookup_insert_ne, Hother by (rewrite ?whole_byte_bits; auto using byte_bits_inj). by apply (ok_blocks s m Hok).
  - intros h x. destruct (decide (h = k)) as [->|Hne]; [rewrite lookup_insert_eq; by intros [= <-]|]. rewrite lookup_insert_ne by done. apply (ok_bytes s m Hok).
  - apply (ok_ckey s m Hok).
Qed.

Lemma free_block s m k : host_ok s m -> bytes k -> length k <> 4%nat ->
  exists b, free (blockStore (ram s)) (byte_bits k) = Ok b /\ host_ok (with_store s b) (Memory (key_of m) (cells m) (delete k (blocks m))).
Proof.
  intros Hok Hk Hk4. destruct (free_ok (blockStore (ram s)) (byte_bits k) (block_key_bytes k Hk4)) as (b & Hfree & Hget & Hother & Haddr).
  exists b. split; [done|].
  assert (forall a, 0 <= a < DB_NUM_ADDRESSES -> cell b a = cell (blockStore (ram s)) a) as Hcell by (intros a Ha; unfold MerkleRam.cell; rewrite Haddr by (unfold in_u; lia); done).
  split; cbn [ram ckey with_store blockStore set_store cells blocks key_of].
  - apply ram_ok_store; [apply (ok_ram s m Hok)|exact Hcell].
  - intros a Ha. rewrite Hcell by done. by apply (ok_cells s m Hok).
  - apply (ok_sizes s m Hok).
  - intros h w Hh Hh4. destruct (decide (h = k)) as [->|Hne]; [by rewrite lookup_delete_eq, Hget|].
    rewrite lookup_delete_ne, Hother by (rewrite ?whole_byte_bits; auto using byte_bits_inj). by apply (ok_blocks s m Hok).
  - intros h x [_ Hx]%lookup_delete_Some. by apply (ok_bytes s m Hok) in Hx.
  - apply (ok_ckey s m Hok).
Qed.

Lemma update_key s m ck : host_ok s m -> bytes ck -> length ck = 20%nat -> host_ok (Globals ck (ram s)) (Memory ck (cells m) (blocks m)).
Proof. intros [] Hck Hl. by split. Qed.

Lemma put_cell s m addr data : host_ok s m -> allowed DB_NUM_ADDRESSES RAM_CELL_NUM_BITS (RamPut addr data) ->
  exists r, __ramput DB_NUM_ADDRESSES RAM_CELL_NUM_BITS (ram s) addr data (length data) = Ok r /\
    host_ok (Globals (ckey s) r) (spec_step RAM_CELL_NUM_BITS (RamPut addr data) m).2.
Proof.
  intros Hok (Ha & Hd & Hl). unfold __ramput. replace (zeros RAM_CELL_NUM_BITS) with (zeros (cell_bytes * 8)) by (by rewrite <- cell_bits). rewrite write_bytes, res_bind_Ok by done. set (d := data ++ _).
  assert (length d = cell_bytes) as Hdl by (unfold d; rewrite length_app, length_replicate; lia).
  assert (length (byte_bits d) = RAM_CELL_NUM_BITS) as Hbl by (rewrite byte_bits_length, Hdl; pose proof cell_bits; lia).
  assert (bytes d) as Hdb by (apply Forall_app_2; [done|by apply Forall_replicate]).
  destruct (putAddr_ok (blockStore (ram s)) addr (byte_bits d)) as (b & Hput & _ & _ & Hblocks); [unfold in_u; lia|].
  destruct (put_spec_store DB_NUM_ADDRESSES RAM_CELL_NUM_BITS HDB (ram s) addr (byte_bits d)) as (r & Hr & Hb & Hrok & Hsame & Hother); [apply (ok_ram s m Hok)|done..|].
  rewrite Hput in Hb. injection Hb as Hb.
  exists r. split; [done|]. split; cbn [ram ckey cells blocks key_of spec_step snd].
  - exact Hrok.
  - intros a Ha'. destruct (Z.eqb_spec a addr) as [->|Hne]; [done|]. rewrite Hother by done. by apply (ok_cells s m Hok).
  - intros a Ha'. destruct (Z.eqb_spec a addr) as [->|Hne]; [done|]. by apply (ok_sizes s m Hok).
  - intros h w Hh Hh4. rewrite <- Hb, Hblocks by (by apply block_key_bytes). by apply (ok_blocks s m Hok).
  - apply (ok_bytes s m Hok).
  - apply (ok_ckey s m Hok).
Qed.

Lemma secret_spec rand : for_up 0 secret_bytes (fun i secretkey => <[i := u8 (rand i)]> secretkey) (replicate secret_bytes 0) = secret rand.
Proof.
  pose proof (for_up_ind (fun i l => l = tabulate i (fun i => u8 (rand i)) ++ replicate (secret_bytes - i) 0) 0 secret_bytes
    (fun i secretkey => <[i := u8 (rand i)]> secretkey) (replicate secret_bytes 0)) as Hloop. rewrite Hloop; [by rewrite Nat.sub_diag, app_nil_r|lia|by rewrite Nat.sub_0_r|].
  intros i l Hi ->. rewrite insert_app_r_alt by (by rewrite tabulate_length). rewrite tabulate_length, Nat.sub_diag.
  replace (secret_bytes - i)%nat with (S (secret_bytes - S i)) by lia. cbn [replicate insert list_insert]. by rewrite tabulate_S, <- app_assoc.
Qed.

Lemma secret_bytes_ok rand : bytes (secret rand) /\ length (secret rand) = 64%nat.
Proof. split; [|apply tabulate_length]. unfold secret, tabulate. apply Forall_fmap, Forall_forall. intros i _. apply wrapu_range. lia. Qed.

Lemma commit_spec ck rand data : bytes ck -> length ck = 20%nat -> bytes data -> 8 * Z.of_nat (84 + length data) < 2 ^ 31 ->
  commitment_hash ck data (u32 (Z.of_nat (length data) * 8)) (secret rand) (replicate NUM_COMMITMENT_CHUNKS 0) = Ok (commit ck rand data).
Proof.
  intros Hck Hckl Hd Hl. destruct (secret_bytes_ok rand) as [Hsb Hsl]. rewrite wrapu_small by (unfold in_u; lia). rewrite (Z.mul_comm (Z.of_nat (length data))).
  unfold commit. by apply commitment_hash_nested.
Qed.

Lemma commit_wf ck rand data : length (commit ck rand data) = 32%nat /\ bytes (commit ck rand data).
Proof. unfold commit. apply le_hash_wf. Qed.

(** Every operation does what the specification says. *)
Lemma exec_ok o s m : host_ok s m -> allowed DB_NUM_ADDRESSES RAM_CELL_NUM_BITS o ->
  exists s', exec DB_NUM_ADDRESSES RAM_CELL_NUM_BITS o s = Ok ((spec_step RAM_CELL_NUM_BITS o m).1, s') /\ host_ok s' (spec_step RAM_CELL_NUM_BITS o m).2.
Proof.
  intros Hok Ho. destruct o as [addr data|data|h|ck|rand data]; cbn [exec].
  - destruct (put_cell s m addr data Hok Ho) as (r & Hr & Hok'). unfold ramput. rewrite Hr, !res_bind_Ok. by eexists.
  - destruct Ho as [Hd Hl]. unfold hashput, __hashput. rewrite write_all, res_bind_Ok. destruct (digest_spec data Hl) as (hb & Hh & Hhl & Hkb & Hdl & Hdb).
    rewrite Hh, res_bind_Ok, hash_to_key_spec, res_bind_Ok, <- Hkb by done.
    assert (BitsToByteArray (replicate n 0) n (byte_bits (digest data)) 0 = Ok (digest data)) as Hout.
    { pose proof (read_bytes (replicate n 0) (digest data) 0 Hdb) as Hr. rewrite length_replicate in Hr. change (8 * 0)%nat with 0%nat in Hr. rewrite Hr.
      rewrite Nat.add_0_r, Hdl, (proj2 (Nat.leb_le _ _)) by lia. f_equal. rewrite drop_0, <- Hdl. apply firstn_all. }
    rewrite Hout, res_bind_Ok. destruct (put_block s m (digest data) data Hok Hdb) as (b & -> & Hok'); [by rewrite Hdl|done|]. rewrite !res_bind_Ok. by eexists.
  - destruct Ho as [Hh Hl]. unfold hashfree_global, hashfree. replace (zeros getNumHashBits) with (zeros (n * 8)) by (by rewrite <- hash_bits). rewrite write_sized, res_bind_Ok by done.
    destruct (free_block s m h Hok Hh) as (b & -> & Hok'); [by rewrite Hl|]. rewrite !res_bind_Ok. by eexists.
  - destruct Ho as [Hck Hl]. destruct (ok_ckey s m Hok) as (_ & _ & Hl0). rewrite setcommitmentCK_spec, res_bind_Ok by done. eexists. split; [done|]. by apply update_key.
  - destruct Ho as [Hd Hl]. destruct (ok_ckey s m Hok) as (Heq & Hck & Hckl). destruct (secret_bytes_ok rand) as [Hsb Hsl]. unfold commitmentput, __commitmentput.
    rewrite secret_spec, commit_spec, res_bind_Ok, Heq by done. destruct (commit_wf (key_of m) rand data) as [Hcl Hcb]. cbn [spec_step fst snd].
    set (c := commit (key_of m) rand data) in *. clearbody c.
    change key_bytes_of_commitment with 32%nat. change (Z.to_nat NUM_COMMITMENT_BITS) with (32 * 8)%nat. rewrite write_sized, res_bind_Ok by done.
    change secret_bits with (64 * 8)%nat. change secret_bytes with 64%nat. rewrite <- Hsl, <- Nat.mul_add_distr_r.
    rewrite write_bytes, res_bind_Ok by lia. rewrite Nat.add_sub.
    rewrite ByteArrayToBits_spec by (rewrite byte_bits_length, length_app, length_replicate; lia). rewrite res_bind_Ok.
    assert (take (length (secret rand) * 8) (byte_bits (secret rand ++ replicate (length data) 0)) ++ byte_bits data ++
      drop (length (secret rand) * 8 + length data * 8) (byte_bits (secret rand ++ replicate (length data) 0)) = byte_bits (secret rand ++ data)) as ->.
    { rewrite drop_ge, app_nil_r by (rewrite byte_bits_length, length_app, length_replicate; lia).
      rewrite !byte_bits_app, take_app_length' by (rewrite byte_bits_length; lia). done. }
    destruct (put_block s m c (secret rand ++ data) Hok Hcb) as (b & -> & Hok'); [by rewrite Hcl|by apply Forall_app_2|]. rewrite !res_bind_Ok. by eexists.
Qed.

Lemma exec_all_ok os : forall s m, host_ok s m -> Forall (allowed DB_NUM_ADDRESSES RAM_CELL_NUM_BITS) os ->
  exists s', exec_all DB_NUM_ADDRESSES RAM_CELL_NUM_BITS os s = Ok ((spec_all RAM_CELL_NUM_BITS os m).1, s') /\ host_ok s' (spec_all RAM_CELL_NUM_BITS os m).2.
Proof.
  induction os as [|o os IH]; intros s m Hok Hos; cbn [exec_all spec_all]; [by exists s|].
  apply Forall_cons in Hos as [Ho Hos]. destruct (exec_ok o s m Hok Ho) as (s1 & -> & Hok1). destruct (spec_step RAM_CELL_NUM_BITS o m) as [h m1]. rewrite res_bind_Ok.
  cbn [fst snd] in *. destruct (IH s1 m1 Hok1 Hos) as (s2 & -> & Hok2). destruct (spec_all RAM_CELL_NUM_BITS os m1) as [hs m2]. rewrite res_bind_Ok. by exists s2.
Qed.

(** A store that has just been created. *)
Record empty_store (b : bstore) : Prop := {
  empty_blocks : forall k w, block_key k -> get b k w = Ok (false, w);
  empty_cells : forall a w, in_u 32 a -> getAddr b a w = Ok (false, w)
}.

Definition initial (ck : list Z) : memory := Memory ck (fun _ => replicate cell_bytes 0) ∅.

Lemma init_ok ck b : empty_store b -> bytes ck -> length ck = 20%nat ->
  exists s, initBlockStore DB_NUM_ADDRESSES RAM_CELL_NUM_BITS ck b = Ok s /\ host_ok s (initial ck).
Proof.
  intros [Hb Hc] Hck Hl.
  assert (forall a, 0 <= a < DB_NUM_ADDRESSES -> cell b a = byte_bits (replicate cell_bytes 0)) as Hcell.
  { intros a Ha. unfold MerkleRam.cell. rewrite Hc by (unfold in_u; lia). rewrite byte_bits_zeros, <- cell_bits. done. }
  destruct (new_spec DB_NUM_ADDRESSES RAM_CELL_NUM_BITS HDB b) as (r & Hr & Hrok & Hrb).
  { intros a Ha. rewrite Hcell, byte_bits_length, length_replicate by done. pose proof cell_bits. lia. }
  unfold initBlockStore. rewrite Hr, res_bind_Ok. eexists. split; [done|]. split; cbn [ram ckey cells blocks key_of initial]; rewrite ?Hrb.
  - exact Hrok.
  - exact Hcell.
  - intros a _. split; [by apply Forall_replicate|apply length_replicate].
  - intros h w Hh Hh4. rewrite lookup_empty. apply Hb. by apply block_key_bytes.
  - intros h d. by rewrite lookup_empty.
  - done.
Qed.

(** The block under a key, from byte [skip] on. *)
Lemma read_block s m var h skip w : host_ok s m -> bytes h -> length h <> 4%nat ->
  ('(found, block) ← get (blockStore (ram s)) (byte_bits h) w; if (found : bool) then BitsToByteArray var (length var) block (8 * skip) else Fault)
  = block_at m h skip (length var).
Proof.
  intros Hok Hh Hh4. rewrite (ok_blocks s m Hok) by done. unfold block_at. destruct (blocks m !! h) as [d|] eqn:Hd; [|done].
  rewrite res_bind_Ok. apply read_bytes. by apply (ok_bytes s m Hok) in Hd.
Qed.

(** C20: Whatever sequence of primitives runs on a fresh store: the hashes and
    commitments returned are those of the blocks, and afterwards the memory
    gives the last values written, the store the blocks under their hashes and
    the data behind their commitments, and the root hash is the digest of the
    memory.  Reading more than was stored, or under a hash that is not
    there, stops the program. *)
Theorem host_storage_refines ck b os : empty_store b -> bytes ck -> length ck = 20%nat -> Forall (allowed DB_NUM_ADDRESSES RAM_CELL_NUM_BITS) os ->
  let '(hs, m) := spec_all RAM_CELL_NUM_BITS os (initial ck) in
  exists s0 s, initBlockStore DB_NUM_ADDRESSES RAM_CELL_NUM_BITS ck b = Ok s0 /\ exec_all DB_NUM_ADDRESSES RAM_CELL_NUM_BITS os s0 = Ok (hs, s) /\
    (forall a var, 0 <= a < DB_NUM_ADDRESSES ->
       ramget DB_NUM_ADDRESSES RAM_CELL_NUM_BITS var a (length var) s = if (length var <=? cell_bytes)%nat then Ok (take (length var) (cells m a)) else Fault) /\
    (forall h var, bytes h -> length h = n -> hashget var h (length var) s = block_at m h 0 (length var)) /\
    (forall c var, bytes c -> length c = 32%nat -> commitmentget var c (length var) s = block_at m c 64 (length var)) /\
    getRootHash (ram s) = createHash (node DB_NUM_ADDRESSES (fun a => byte_bits (cells m a)) (L DB_NUM_ADDRESSES - 1) 0).
Proof.
  intros Hb Hck Hl Hos. destruct (init_ok ck b Hb Hck Hl) as (s0 & Hinit & Hok0). destruct (exec_all_ok os s0 (initial ck) Hok0 Hos) as (s & Hall & Hok).
  destruct (spec_all RAM_CELL_NUM_BITS os (initial ck)) as [hs m]. cbn [fst snd] in Hall, Hok. exists s0, s. split; [done|]. split; [done|]. split; [|split; [|split]].
  - intros a var Ha. unfold ramget, __ramget. rewrite (get_cell DB_NUM_ADDRESSES RAM_CELL_NUM_BITS HDB (blockStore (ram s))), res_bind_Ok by done.
    rewrite (ok_cells s m Hok a Ha). destruct (ok_sizes s m Hok a Ha) as [Hcb Hcl]. pose proof (read_bytes var (cells m a) 0 Hcb) as Hr. change (8 * 0)%nat with 0%nat in Hr.
    by rewrite Hr, Nat.add_0_r, drop_0, Hcl.
  - intros h var Hh Hhl. unfold hashget, __hashget. replace (zeros getNumHashBits) with (zeros (n * 8)) by (by rewrite <- hash_bits). rewrite write_sized, res_bind_Ok by done. apply (read_block s m var h 0); [done|done|by rewrite Hhl].
  - intros c var Hc Hcl. unfold commitmentget, __commitmentget. change key_bytes_of_commitment with 32%nat. change (Z.to_nat NUM_COMMITMENT_BITS) with (32 * 8)%nat.
    rewrite write_sized, res_bind_Ok by done. change secret_bits with (8 * 64)%nat. apply (read_block s m var c 64); [done|done|by rewrite Hcl].
  - unfold getRootHash. rewrite (ram_root _ _ _ (ok_ram s m Hok)). f_equal. symmetry. apply node_ext; [|lia]. intros a Ha. symmetry. by apply (ok_cells s m Hok).
Qed.

(** [__hashbits] computes the hash under which a block is stored, when the
    sizes of the hash in the store and in the programs agree. *)
Lemma hashbits_digest data hash_ : DB_HASH_NUM_BITS = getNumHashBits -> 8 * Z.of_nat (length data) < 2 ^ 30 -> length hash_ = n ->
  __hashbits DB_HASH_NUM_BITS hash_ data (length data) = Ok (digest data).
Proof.
  intros -> Hl Hh. unfold __hashbits. rewrite write_all, res_bind_Ok. destruct (digest_spec data Hl) as (hb & Hhb & Hhl & Hkb & Hdl & _).
  rewrite Hhb, res_bind_Ok. unfold digest. rewrite Hhb. cbn [digest_or_nil]. unfold bytes_of. rewrite length_reverse, Hhl.
  apply for_upM_fill; [done|]. intros i l Hi Hll. rewrite wr_Ok, res_bind_Ok, Nat2Z.id by lia.
  assert (forall j, (j < 8)%nat -> rd hb (Z.of_nat getNumHashBits - Z.of_nat (i * 8 + j) - 1) = Ok (reverse hb !!! (i * 8 + j + 0)%nat)) as Hrd.
  { intros j Hj. pose proof hash_bits. replace (Z.of_nat getNumHashBits - Z.of_nat (i * 8 + j) - 1) with (Z.of_nat (getNumHashBits - S (i * 8 + j + 0))) by lia.
    apply rd_lookup. rewrite <- Hhl, <- reverse_lookup by lia. apply list_lookup_lookup_total_lt. rewrite length_reverse. lia. }
  rewrite <- chunk_bits.
  match goal with |- for_upM 0 8 ?f ?l0 = Ok (<[_ := for_up 0 8 ?g 0]> _) =>
    destruct (for_upM_ind (fun j l' => l' = <[i := for_up 0 j g 0]> l) 0 8 f l0) as (l' & -> & ->); [lia|done| |done] end.
  intros j l' Hj ->. rewrite Hrd, res_bind_Ok, rd_Ok, res_bind_Ok, wr_Ok, Nat2Z.id by (rewrite ?length_insert; lia). eexists. split; [reflexivity|].
  rewrite list_insert_insert_eq, list_lookup_total_insert_eq by lia. by rewrite for_up_last by lia.
Qed.
End Host.

(** ** A run on a memory of four cells of two bytes *)

#[local] Existing Instance NullHash.NullHash.

Definition fresh_store : bstore (HashBlockStore := LevelDbStore (H := MapDB)) := (∅ : gmap (list Z) (list Z)).

Lemma fresh_store_empty : empty_store (H := LevelDbStore (H := MapDB)) fresh_store.
Proof.
  split; intros; [|reflexivity]. change (ldb_get (H := MapDB) fresh_store k w = Ok (false, w)). rewrite ldb_get_eq. reflexivity.
Qed.

Definition sample_ops : list op := [RamPut 2 [5]; HashPut [1; 2; 3]; CommitmentPut (fun i => Z.of_nat i) [9]; HashPut [4]; HashFree (digest (HH := NullHash.NullHash) [4])].
Definition sample_ck : list Z := replicate 20 2.

Lemma bytes_check xs : forallb (fun x => (0 <=? x) && (x <? 256)) xs = true -> bytes xs.
Proof.
  intros Hxs. apply Forall_forall. intros x Hx%list_elem_of_In. rewrite forallb_forall in Hxs. specialize (Hxs x Hx). unfold in_u. lia.
Qed.

Lemma sample_digest_bytes : bytes (digest [1; 2; 3]).
Proof. apply bytes_check. vm_compute. reflexivity. Qed.

Lemma sample_freed_bytes : bytes (digest [4]).
Proof. apply bytes_check. vm_compute. reflexivity. Qed.

Lemma sample_allowed : Forall (allowed (HH := NullHash.NullHash) 4 16) sample_ops.
Proof.
  repeat (apply Forall_cons; split); [| | | | |constructor]; repeat split; try lia; apply bytes_check || idtac; vm_compute; reflexivity || lia.
Qed.

Lemma host_storage_witness :
  exists s0 s hs, initBlockStore 4 16 sample_ck fresh_store = Ok s0 /\
    exec_all 4 16 sample_ops s0 = Ok (hs, s) /\
    ramget 4 16 [0; 0] 2 2 s = Ok [5; 0] /\
    hashget [0; 0; 0] (digest [1; 2; 3]) 3 s = Ok [1; 2; 3] /\
    hashget [0] (digest [4]) 1 s = Fault /\
    commitmentget [0] (commit sample_ck (fun i => Z.of_nat i) [9]) 1 s = Ok [9].
Proof.
  pose proof (host_storage_refines 4 16
    ltac:(lia) ltac:(by exists 2%nat) ltac:(lia) ltac:(by exists 16%nat) ltac:(vm_compute; discriminate)
    sample_ck fresh_store sample_ops fresh_store_empty ltac:(repeat constructor; lia) ltac:(reflexivity) sample_allowed) as Hrun.
  destruct (spec_all 16 sample_ops (initial 16 sample_ck)) as [hs m] eqn:Hspec. destruct Hrun as (s0 & s & H0 & Hall & Hram & Hget & Hcom & _).
  assert (m = (spec_all 16 sample_ops (initial 16 sample_ck)).2) as Hm by (rewrite Hspec; reflexivity).
  exists s0, s, hs. split; [exact H0|]. split; [exact Hall|]. split; [|split; [|split]].
  - etransitivity; [exact (Hram 2 [0; 0] ltac:(lia))|]. rewrite Hm. vm_compute. reflexivity.
  - etransitivity; [apply (Hget _ [0; 0; 0] sample_digest_bytes); reflexivity|]. rewrite Hm. vm_compute. reflexivity.
  - etransitivity; [apply (Hget _ [0] sample_freed_bytes); reflexivity|]. rewrite Hm. vm_compute. reflexivity.
  - etransitivity; [apply (Hcom _ [0]); apply commit_wf|]. rewrite Hm. vm_compute. reflexivity.
Defined.
