(* ===== verification/Mpq.v ===== *)
(** Rational numbers as the prover computes with them.

    The prover calls the GNU multiple precision library.  An [mpz_t] is an
    integer, with the ring operations of the integers; an [mpq_t] is its
    numerator and denominator, which the code also accesses one by one.  The
    operations of the library that are more than that are the class [Gmp],
    and what its manual says of them is [GmpLaws]; [GmpZ] is an instance. *)
From Stdlib Require Import ZArith Zcong Lia Ascii String.
From stdpp Require Import base numbers list strings pretty.
From S2P Require Import Prelude Bits.

Local Open Scope Z_scope.

Record mpq_t : Type := { numref : Z; denref : Z }.

#[export] Instance mpq_inhabited : Inhabited mpq_t := populate {| numref := 0; denref := 1 |}.

#[export] Instance mpq_eq_dec : EqDecision mpq_t.
Proof. solve_decision. Defined.

(** An integer as a rational number. *)
Definition int (z : Z) : mpq_t := {| numref := z; denref := 1 |}.

Definition canonical (q : mpq_t) : Prop := 0 < denref q /\ Z.gcd (numref q) (denref q) = 1.

(** [q] is [n / d]. *)
Definition is_quotient (q : mpq_t) (n d : Z) : Prop := canonical q /\ numref q * d = n * denref q.

(** [mpz_set_si(mpq_numref(q), n); mpz_set_ui(mpq_denref(q), 1)] and the like
    set the parts; [mpq_set_si] and [mpq_set_z] give [int]. *)
Definition set_numref (n : Z) (q : mpq_t) : mpq_t := {| numref := n; denref := denref q |}.

Class Gmp : Type := {
  mpz_tstbit : Z -> Z -> Z;
  mpz_mul_2exp : Z -> Z -> Z;
  mpz_tdiv_q_2exp : Z -> Z -> Z;
  mpz_tdiv_r_2exp : Z -> Z -> Z;
  mpz_tdiv_q : Z -> Z -> Z;
  mpz_tdiv_r : Z -> Z -> Z;
  mpz_mod : Z -> Z -> Z;
  mpz_invert : Z -> Z -> Z;
  mpz_get_ui : Z -> Z;
  mpz_get_si : Z -> Z;
  mpz_get_str : Z -> string;
  mpq_get_str : mpq_t -> string;
  mpq_canonicalize : mpq_t -> mpq_t;
  mpq_add : mpq_t -> mpq_t -> mpq_t;
  mpq_sub : mpq_t -> mpq_t -> mpq_t;
  mpq_mul : mpq_t -> mpq_t -> mpq_t;
  mpq_div : mpq_t -> mpq_t -> mpq_t;
  mpq_inv : mpq_t -> mpq_t;
  mpq_neg : mpq_t -> mpq_t;
  mpq_mul_2exp : mpq_t -> Z -> mpq_t;
  mpq_cmp : mpq_t -> mpq_t -> Z;
  mpq_equal : mpq_t -> mpq_t -> bool;
  (** [mpq_set_str(q, str, base)], with the old value of [q] *)
  mpq_set_str : string -> Z -> mpq_t -> mpq_t
}.

Class GmpLaws `{Gmp} : Prop := {
  mpz_tstbit_eq : forall n b, 0 <= b -> mpz_tstbit n b = b2z (Z.testbit n b);
  mpz_mul_2exp_eq : forall n b, 0 <= b -> mpz_mul_2exp n b = n * 2 ^ b;
  mpz_tdiv_q_2exp_eq : forall n b, 0 <= b -> mpz_tdiv_q_2exp n b = Z.quot n (2 ^ b);
  mpz_tdiv_r_2exp_eq : forall n b, 0 <= b -> mpz_tdiv_r_2exp n b = Z.rem n (2 ^ b);
  mpz_tdiv_q_eq : forall n d, d <> 0 -> mpz_tdiv_q n d = Z.quot n d;
  mpz_tdiv_r_eq : forall n d, d <> 0 -> mpz_tdiv_r n d = Z.rem n d;
  mpz_mod_eq : forall n d, 0 < d -> mpz_mod n d = n mod d;
  mpz_invert_eq : forall n p, 1 < p -> Z.gcd n p = 1 -> 0 <= mpz_invert n p < p /\ (n * mpz_invert n p) mod p = 1;
  mpz_get_ui_eq : forall n, mpz_get_ui n = Z.abs n mod 2 ^ 64;
  mpz_get_si_eq : forall n, in_s 64 n -> mpz_get_si n = n;
  mpq_canonicalize_eq : forall q, denref q <> 0 -> is_quotient (mpq_canonicalize q) (numref q) (denref q);
  mpq_add_eq : forall a b, canonical a -> canonical b ->
    is_quotient (mpq_add a b) (numref a * denref b + numref b * denref a) (denref a * denref b);
  mpq_sub_eq : forall a b, canonical a -> canonical b ->
    is_quotient (mpq_sub a b) (numref a * denref b - numref b * denref a) (denref a * denref b);
  mpq_mul_eq : forall a b, canonical a -> canonical b ->
    is_quotient (mpq_mul a b) (numref a * numref b) (denref a * denref b);
  mpq_div_eq : forall a b, canonical a -> canonical b -> numref b <> 0 ->
    is_quotient (mpq_div a b) (numref a * denref b) (denref a * numref b);
  mpq_inv_eq : forall a, canonical a -> numref a <> 0 -> is_quotient (mpq_inv a) (denref a) (numref a);
  mpq_neg_eq : forall a, canonical a -> is_quotient (mpq_neg a) (- numref a) (denref a);
  mpq_mul_2exp_law : forall a n, canonical a -> 0 <= n -> is_quotient (mpq_mul_2exp a n) (numref a * 2 ^ n) (denref a);
  mpq_cmp_eq : forall a b, canonical a -> canonical b ->
    Z.sgn (mpq_cmp a b) = Z.sgn (numref a * denref b - numref b * denref a);
  mpq_equal_eq : forall a b, canonical a -> canonical b -> mpq_equal a b = true <-> a = b;
  mpq_set_str_eq : forall z q, mpq_set_str (pretty z) 10 q = int z
}.

(** ** Integers among the rationals *)

Section Laws.
Context `{GmpLaws}.

Lemma int_canonical z : canonical (int z).
Proof. split; cbn; [lia|apply Z.gcd_1_r]. Qed.

Lemma quotient_int q z d : is_quotient q (z * d) d -> d <> 0 -> q = int z.
Proof.
  intros [[Hpos Hgcd] Heq] Hd. destruct q as [n e]. cbn in *.
  assert (n = z * e) as -> by nia. assert (e = 1) as ->; [|by rewrite Z.mul_1_r].
  rewrite Z.gcd_comm, Z.mul_comm, Z.gcd_mul_diag_l in Hgcd by lia. done.
Qed.

Lemma mpq_add_int a b : mpq_add (int a) (int b) = int (a + b).
Proof. apply (quotient_int _ _ 1); [|done]. pose proof (mpq_add_eq (int a) (int b) (int_canonical a) (int_canonical b)) as Hq. cbn in Hq. by rewrite !Z.mul_1_r in *. Qed.

Lemma mpq_sub_int a b : mpq_sub (int a) (int b) = int (a - b).
Proof. apply (quotient_int _ _ 1); [|done]. pose proof (mpq_sub_eq (int a) (int b) (int_canonical a) (int_canonical b)) as Hq. cbn in Hq. by rewrite !Z.mul_1_r in *. Qed.

Lemma mpq_mul_int a b : mpq_mul (int a) (int b) = int (a * b).
Proof. apply (quotient_int _ _ 1); [|done]. pose proof (mpq_mul_eq (int a) (int b) (int_canonical a) (int_canonical b)) as Hq. cbn in Hq. by rewrite !Z.mul_1_r in *. Qed.

Lemma mpq_neg_int a : mpq_neg (int a) = int (- a).
Proof. apply (quotient_int _ _ 1); [|done]. pose proof (mpq_neg_eq (int a) (int_canonical a)) as Hq. cbn in Hq. by rewrite !Z.mul_1_r in *. Qed.

Lemma mpq_mul_2exp_int a n : 0 <= n -> mpq_mul_2exp (int a) n = int (a * 2 ^ n).
Proof. intros Hn. apply (quotient_int _ _ 1); [|done]. pose proof (mpq_mul_2exp_law (int a) n (int_canonical a) Hn) as Hq. cbn in Hq. by rewrite !Z.mul_1_r in *. Qed.

Lemma mpq_canonicalize_int z : mpq_canonicalize (int z) = int z.
Proof. apply (quotient_int _ _ 1); [|done]. pose proof (mpq_canonicalize_eq (int z)) as Hq. cbn in Hq. rewrite Z.mul_1_r. by apply Hq. Qed.

Lemma mpq_cmp_int a b : Z.sgn (mpq_cmp (int a) (int b)) = Z.sgn (a - b).
Proof. rewrite mpq_cmp_eq by apply int_canonical. cbn. by rewrite !Z.mul_1_r. Qed.

Lemma mpq_equal_int a b : mpq_equal (int a) (int b) = (a =? b).
Proof.
  destruct (Z.eqb_spec a b) as [->|Hne].
  - by apply mpq_equal_eq; try apply int_canonical.
  - apply not_true_is_false. rewrite mpq_equal_eq by apply int_canonical. by intros [= ?].
Qed.

(** Taking the low bit off a number that is not negative. *)
Lemma low_bit z : 0 <= z -> mpz_tdiv_r_2exp z 1 = b2z (Z.odd z) /\ mpz_tdiv_q_2exp z 1 = Z.div2 z.
Proof.
  intros Hz. rewrite mpz_tdiv_r_2exp_eq, mpz_tdiv_q_2exp_eq, Z.pow_1_r by lia.
  rewrite Z.rem_mod_nonneg, Z.quot_div_nonneg, Zmod_odd, Z.div2_div by lia. by destruct (Z.odd z).
Qed.

End Laws.

(** ** An instance *)

Definition reduce (n d : Z) : mpq_t :=
  let g := Z.gcd n d in {| numref := Z.sgn d * (n / g); denref := Z.abs (d / g) |}.

(** [atoi] of the C library, on a word without leading blanks. *)
Definition digit (c : ascii) : option Z :=
  let n := Z.of_nat (nat_of_ascii c) in if (48 <=? n) && (n <=? 57) then Some (n - 48) else None.

Fixpoint digits (s : string) (acc : Z) : Z :=
  match s with
  | EmptyString => acc
  | String c s => match digit c with Some d => digits s (acc * 10 + d) | None => acc end
  end.

Definition atoi (s : string) : Z :=
  match s with
  | String "-" s => - digits s 0
  | String "+" s => digits s 0
  | _ => digits s 0
  end.

Lemma digit_pretty x : (x < 10)%N -> digit (pretty_N_char x) = Some (Z.of_N x).
Proof. intros Hx. do 10 (destruct x as [|x] using N.peano_ind; [reflexivity|clear IHx]). lia. Qed.

Lemma digits_pretty x s : exists k, 0 <= k /\ forall acc, digits (pretty_N_go x s) acc = digits s (acc * 10 ^ k + Z.of_N x).
Proof.
  revert s. induction (N.lt_wf_0 x) as [x _ IH]. intros s. destruct (decide (x = 0)%N) as [->|Hx].
  - exists 0. split; [done|]. intros acc. rewrite pretty_N_go_0. f_equal. cbn. lia.
  - rewrite pretty_N_go_step by lia.
    destruct (IH (x / 10)%N (N.div_lt x 10 ltac:(lia) ltac:(lia)) (String (pretty_N_char (x mod 10)) s)) as (k & Hk & Heq).
    exists (k + 1). split; [lia|]. intros acc. rewrite Heq. cbn [digits].
    rewrite digit_pretty by (apply N.mod_lt; done). f_equal. rewrite Z.pow_add_r, Z.pow_1_r by lia.
    rewrite N2Z.inj_div, N2Z.inj_mod. pose proof (Z.div_mod (Z.of_N x) 10 ltac:(lia)). change (Z.of_N 10) with 10. lia.
Qed.

Lemma pretty_go_digit x s : (0 < x)%N -> exists c r, pretty_N_go x s = String c r /\ digit c <> None.
Proof.
  revert s. induction (N.lt_wf_0 x) as [x _ IH]. intros s Hx. rewrite pretty_N_go_step by done.
  destruct (decide (x / 10 = 0)%N) as [->|Hd].
  - rewrite pretty_N_go_0. eexists _, _. split; [done|]. rewrite digit_pretty by (apply N.mod_lt; done). done.
  - apply IH; [apply N.div_lt; lia|]. by apply N.neq_0_lt_0.
Qed.

Lemma atoi_digit c r : digit c <> None -> atoi (String c r) = digits (String c r) 0.
Proof.
  intros Hc. unfold atoi. destruct c as [b0 b1 b2 b3 b4 b5 b6 b7].
  destruct b0, b1, b2, b3, b4, b5, b6, b7; try reflexivity; exfalso; apply Hc; reflexivity.
Qed.

Lemma digits_pos p : digits (pretty (N.pos p)) 0 = Z.pos p /\ atoi (pretty (N.pos p)) = Z.pos p.
Proof.
  unfold pretty, pretty_N. rewrite decide_False by done. destruct (digits_pretty (N.pos p) "") as (k & _ & Heq).
  rewrite Heq. split; [cbn; lia|]. destruct (pretty_go_digit (N.pos p) "") as (c & r & Hcr & Hc); [lia|].
  rewrite Hcr, atoi_digit, <- Hcr, Heq by done. cbn. lia.
Qed.

Lemma atoi_pretty z : atoi (pretty z) = z.
Proof.
  destruct z as [|p|p]; [reflexivity|apply digits_pos|]. change (pretty (Z.neg p)) with (String "-" (pretty (N.pos p))).
  cbn [atoi]. by rewrite (proj1 (digits_pos p)).
Qed.

#[export] Instance GmpZ : Gmp := {
  mpz_tstbit n b := b2z (Z.testbit n b);
  mpz_mul_2exp n b := n * 2 ^ b;
  mpz_tdiv_q_2exp n b := Z.quot n (2 ^ b);
  mpz_tdiv_r_2exp n b := Z.rem n (2 ^ b);
  mpz_tdiv_q n d := Z.quot n d;
  mpz_tdiv_r n d := Z.rem n d;
  mpz_mod n d := n mod d;
  mpz_invert n p := Z.invmod n p;
  mpz_get_ui n := Z.abs n mod 2 ^ 64;
  mpz_get_si n := wraps 64 n;
  mpz_get_str n := pretty n;
  mpq_get_str q := pretty (numref q) +:+ "/" +:+ pretty (denref q);
  mpq_canonicalize q := reduce (numref q) (denref q);
  mpq_add a b := reduce (numref a * denref b + numref b * denref a) (denref a * denref b);
  mpq_sub a b := reduce (numref a * denref b - numref b * denref a) (denref a * denref b);
  mpq_mul a b := reduce (numref a * numref b) (denref a * denref b);
  mpq_div a b := reduce (numref a * denref b) (denref a * numref b);
  mpq_inv a := reduce (denref a) (numref a);
  mpq_neg a := reduce (- numref a) (denref a);
  mpq_mul_2exp a n := reduce (numref a * 2 ^ n) (denref a);
  mpq_cmp a b := numref a * denref b - numref b * denref a;
  mpq_equal a b := bool_decide (a = b);
  mpq_set_str s _ _ := int (atoi s)
}.

Lemma reduce_quotient n d : d <> 0 -> is_quotient (reduce n d) n d.
Proof.
  intros Hd. unfold reduce, is_quotient, canonical. cbn [numref denref].
  pose proof (Z.gcd_nonneg n d) as Hg. assert (Z.gcd n d <> 0) as Hg0 by (intros Heq; apply Z.gcd_eq_0_r in Heq; done).
  destruct (Z.gcd_divide_l n d) as [a Ha], (Z.gcd_divide_r n d) as [b Hb]. set (g := Z.gcd n d) in *.
  assert (n / g = a) as -> by (rewrite Ha at 1; by apply Z.div_mul). assert (d / g = b) as -> by (rewrite Hb at 1; by apply Z.div_mul).
  assert (b <> 0) as Hb0 by nia. split; [split|].
  - lia.
  - assert (Z.gcd a b = 1) as Hab.
    { apply (Z.mul_reg_r _ _ g Hg0). rewrite Z.mul_1_l, <- Z.gcd_mul_mono_r_nonneg by done. by rewrite <- Ha, <- Hb. }
    rewrite Z.gcd_abs_r. destruct (Z.lt_trichotomy d 0) as [Hneg|[?|Hpos]]; [|done|].
    + rewrite Z.sgn_neg by done. replace (-1 * a) with (- a) by lia. by rewrite Z.gcd_opp_l.
    + by rewrite Z.sgn_pos, Z.mul_1_l by done.
  - destruct (Z.lt_trichotomy d 0) as [Hneg|[?|Hpos]]; [|done|].
    + rewrite Z.sgn_neg by done. rewrite Z.abs_neq by nia. clearbody g. subst n d. ring.
    + rewrite Z.sgn_pos, Z.abs_eq by nia. clearbody g. subst n d. ring.
Qed.

#[export] Instance GmpZLaws : GmpLaws.
Proof.
  split; cbn; try done.
  - intros n p Hp Hg. split; [apply Z.mod_pos_bound; lia|]. rewrite Z.mul_comm. apply Z.invmod_coprime; [lia|done].
  - intros n Hn. by apply wraps_small.
  - intros q Hq. by apply reduce_quotient.
  - intros a b [Ha _] [Hb _]. apply reduce_quotient. nia.
  - intros a b [Ha _] [Hb _]. apply reduce_quotient. nia.
  - intros a b [Ha _] [Hb _]. apply reduce_quotient. nia.
  - intros a b [Ha _] [Hb _] Hnz. apply reduce_quotient. nia.
  - intros a [Ha _] Hnz. by apply reduce_quotient.
  - intros a [Ha _]. apply reduce_quotient. lia.
  - intros a n [Ha _] Hn. apply reduce_quotient. lia.
  - intros a b _ _. apply bool_decide_eq_true.
  - intros z _. by rewrite atoi_pretty.
Qed.
