(* ===== verification/Waksman.v ===== *)
(** Routing through a permutation network: [pepper/common/waksman_router.cpp].

    The memory of a program with fast RAM is checked by sorting its operations
    by address and time.  The network has two columns of switches around two
    networks of half the size; the router finds, for the sorted order, the
    setting of every switch and the value of every wire between switches.

    Arrays that the code leaves uninitialised hold [None], and reading such an
    element is [Fault], like a failed assertion.  A [switch_t] is [None] until
    it is set and then its field [swap]: the code sets both fields together.
    Pointers into the arrays of wires and of switches are offsets; an index of
    -1 is [None]. *)
From Stdlib Require Import ZArith Lia.
From stdpp Require Import base numbers list.
From S2P Require Import Prelude.

Local Open Scope Z_scope.
#[local] Coercion Z.of_nat : nat >-> Z.

Record data_t : Type := { addr : Z; timestamp : Z; type_ : Z; value : Z }.

#[export] Instance data_eq_dec : EqDecision data_t.
Proof. solve_decision. Defined.

Record packet_t : Type := { data : data_t; src : nat; dst : nat; routed : bool }.

(** [data_equal] *)
Definition data_equal (d1 d2 : data_t) : bool :=
  (addr d1 =? addr d2) && (timestamp d1 =? timestamp d2) && (type_ d1 =? type_ d2) && (value d1 =? value d2).

Abbreviation switch_t := (option bool) (only parsing).

(** [ceil(log2(1)) + ... + ceil(log2(n))] *)
Definition numSwitches (n : nat) : nat := for_up 1 (S n) (fun i s => (s + Nat.log2_up i)%nat) O.

(** ** Sorting *)

Definition packet_cmp (a b : packet_t) : Z :=
  let pa := data a in let pb := data b in
  if addr pa =? addr pb then (if timestamp pa <? timestamp pb then -1 else 1)
  else if addr pa <? addr pb then -1 else 1.

Definition src_cmp (a b : packet_t) : Z := if (src a <? src b)%nat then -1 else 1.

(** [qsort] of the C library, for elements that the comparison tells apart. *)
Fixpoint insert (cmp : packet_t -> packet_t -> Z) (p : packet_t) (l : list packet_t) : list packet_t :=
  match l with
  | [] => [p]
  | q :: l' => if cmp p q <? 0 then p :: l else q :: insert cmp p l'
  end.

Definition qsort (cmp : packet_t -> packet_t -> Z) (l : list packet_t) : list packet_t := foldr (insert cmp) [] l.

Definition with_dst (d : nat) (p : packet_t) : packet_t := {| data := data p; src := src p; dst := d; routed := routed p |}.

Definition sort_packet (input : list data_t) : list packet_t :=
  let packets := imap (fun i d => {| data := d; src := i; dst := O; routed := false |}) input in
  let packets := qsort packet_cmp packets in
  let packets := imap with_dst packets in
  qsort src_cmp packets.

(** ** One level of the network *)

Record routing : Type := {
  left_pkt : list packet_t;
  right_pkt : list packet_t;
  intermediate : list (option data_t);
  switches : list switch_t;
  topLeft : list (option packet_t);
  topRight : list (option packet_t);
  botLeft : list (option packet_t);
  botRight : list (option packet_t)
}.

Definition mark (p : packet_t) : packet_t := {| data := data p; src := src p; dst := dst p; routed := true |}.

(** [left_pkt[i].routed = true] *)
Definition mark_left (i : nat) (s : routing) : res routing :=
  p ← rd (left_pkt s) i; l ← wr (left_pkt s) i (mark p);
  Ok {| left_pkt := l; right_pkt := right_pkt s; intermediate := intermediate s; switches := switches s;
        topLeft := topLeft s; topRight := topRight s; botLeft := botLeft s; botRight := botRight s |}.

Definition mark_right (i : nat) (s : routing) : res routing :=
  p ← rd (right_pkt s) i; l ← wr (right_pkt s) i (mark p);
  Ok {| left_pkt := left_pkt s; right_pkt := l; intermediate := intermediate s; switches := switches s;
        topLeft := topLeft s; topRight := topRight s; botLeft := botLeft s; botRight := botRight s |}.

Definition set_switch (k : nat) (b : bool) (s : routing) : res routing :=
  l ← wr (switches s) k (Some b);
  Ok {| left_pkt := left_pkt s; right_pkt := right_pkt s; intermediate := intermediate s; switches := l;
        topLeft := topLeft s; topRight := topRight s; botLeft := botLeft s; botRight := botRight s |}.

Definition set_intermediate (k : Z) (d : data_t) (s : routing) : res routing :=
  l ← wr (intermediate s) k (Some d);
  Ok {| left_pkt := left_pkt s; right_pkt := right_pkt s; intermediate := l; switches := switches s;
        topLeft := topLeft s; topRight := topRight s; botLeft := botLeft s; botRight := botRight s |}.

(** The packet goes through the bottom or the top network. *)
Definition pass (routeBot : bool) (tmp : packet_t) (s : routing) : res routing :=
  if routeBot then
    l ← wr (botLeft s) (src tmp) (Some tmp); r ← wr (botRight s) (dst tmp) (Some tmp);
    Ok {| left_pkt := left_pkt s; right_pkt := right_pkt s; intermediate := intermediate s; switches := switches s;
          topLeft := topLeft s; topRight := topRight s; botLeft := l; botRight := r |}
  else
    l ← wr (topLeft s) (src tmp) (Some tmp); r ← wr (topRight s) (dst tmp) (Some tmp);
    Ok {| left_pkt := left_pkt s; right_pkt := right_pkt s; intermediate := intermediate s; switches := switches s;
          topLeft := l; topRight := r; botLeft := botLeft s; botRight := botRight s |}.

(** Sets the switch, or asserts that it is set this way. *)
Definition require_switch (k : nat) (b : bool) (s : routing) : res routing :=
  sw ← rd (switches s) k;
  match sw with
  | None => set_switch k b s
  | Some b' => if Bool.eqb b' b then Ok s else Fault
  end.

(** The switch, set to no swap when it was not set. *)
Definition use_switch (k : nat) (s : routing) : res (bool * routing) :=
  sw ← rd (switches s) k;
  match sw with
  | None => s ← set_switch k false s; Ok (false, s)
  | Some b => Ok (b, s)
  end.

(** The packet to go on with, or [None] when all packets are routed. *)
Definition choose (n : nat) (pkts : list packet_t) (nextIndex : option nat) : res (option nat) :=
  routed' ← match nextIndex with None => Ok true | Some i => p ← rd pkts i; Ok (routed p) end;
  if routed' : bool then Ok (fst <$> list_find (fun p => routed p = false) (take n pkts)) else Ok nextIndex.

Section Level.
Context (n iv sb : nat).

Definition leftSwitchCt : nat := (n / 2)%nat.
Definition rightSwitchCt : nat := (leftSwitchCt - 1 + n mod 2)%nat.
Definition numLeftVars : nat := (leftSwitchCt * 2)%nat.
Definition numRightVars : nat := (rightSwitchCt * 2)%nat.
Definition topSize : nat := (n / 2)%nat.
Definition bottomSize : nat := ((n + 1) / 2)%nat.

(** Where a packet at [index] leaves a switch. *)
Definition offset (index : nat) (swap : bool) : Z :=
  if Nat.odd index && swap then -1 else if Nat.even index && swap then 1 else 0.

Definition other_side (index : nat) : nat := if Nat.odd index then (index - 1)%nat else (index + 1)%nat.

(** The bottom right packet goes back through the bottom network. *)
Definition route_last (s : routing) : res (option nat * routing) :=
  tmp ← rd (right_pkt s) (Z.of_nat n - 1);
  let other_index := src tmp in
  s ← mark_right (n - 1)%nat s;
  s ← mark_left other_index s;
  let tmp := {| data := data tmp; src := (other_index / 2)%nat; dst := (bottomSize - 1)%nat; routed := routed tmp |} in
  r ← (if Nat.odd other_index then
         s ← set_switch (sb + other_index / 2)%nat false s;
         s ← set_intermediate (Z.of_nat iv + Z.of_nat other_index) (data tmp) s;
         Ok (Some (other_index - 1)%nat, s)
       else if (other_index =? n - 1)%nat then Ok (None, s)
       else
         s ← set_switch (sb + other_index / 2)%nat true s;
         s ← set_intermediate (Z.of_nat iv + Z.of_nat other_index + 1) (data tmp) s;
         Ok (Some (other_index + 1)%nat, s));
  let '(nextIndex, s) := r in
  s ← pass true tmp s;
  Ok (nextIndex, s).

(** From left to right. *)
Definition left_to_right (index : nat) (s : routing) : res (option nat * routing) :=
  p ← rd (left_pkt s) index;
  let right_index := dst p in
  s ← mark_left index s;
  s ← mark_right right_index s;
  let tmp := {| data := data p; src := (index / 2)%nat; dst := (right_index / 2)%nat; routed := routed p |} in
  r ← (if (index =? n - 1)%nat && Nat.odd n then Ok (true, s)
       else
         u ← use_switch (sb + index / 2)%nat s;
         let '(sw, s) := u in
         s ← set_intermediate (Z.of_nat iv + (Z.of_nat index + offset index sw)) (data tmp) s;
         Ok ((Nat.even index && sw) || (Nat.odd index && negb sw), s));
  let '(routeBot, s) := r in
  r ← (if (right_index =? n - 1)%nat || ((right_index =? n - 2)%nat && Nat.even n) then Ok (None, s)
       else
         let isBot := Nat.odd right_index in
         let swap := xorb isBot routeBot in
         s ← require_switch (sb + leftSwitchCt + right_index / 2)%nat swap s;
         s ← set_intermediate (Z.of_nat iv + (Z.of_nat numLeftVars + Z.of_nat right_index + (if swap then if isBot then -1 else 1 else 0))) (data tmp) s;
         Ok (Some (other_side right_index), s));
  let '(nextIndex, s) := r in
  s ← pass routeBot tmp s;
  Ok (nextIndex, s).

(** And back from right to left. *)
Definition right_to_left (right_index : nat) (s : routing) : res (option nat * routing) :=
  p ← rd (right_pkt s) right_index;
  let left_index := src p in
  s ← mark_left left_index s;
  s ← mark_right right_index s;
  let tmp := {| data := data p; src := (left_index / 2)%nat; dst := (right_index / 2)%nat; routed := routed p |} in
  r ← (if (right_index =? n - 2)%nat && Nat.even n then Ok (false, s)
       else
         u ← use_switch (sb + leftSwitchCt + right_index / 2)%nat s;
         let '(sw, s) := u in
         let is3 := if (n =? 3)%nat then 1 else 0 in
         s ← set_intermediate (Z.of_nat iv + (Z.of_nat numLeftVars + Z.of_nat right_index + offset right_index sw - is3)) (data tmp) s;
         Ok ((Nat.even right_index && sw) || (Nat.odd right_index && negb sw), s));
  let '(routeBot, s) := r in
  r ← (if (left_index =? n - 1)%nat && Nat.odd n then Ok (None, s)
       else
         let isBot := Nat.odd left_index in
         let swap := xorb isBot routeBot in
         s ← require_switch (sb + left_index / 2)%nat swap s;
         s ← set_intermediate (Z.of_nat iv + (Z.of_nat left_index + (if swap then if isBot then -1 else 1 else 0))) (data tmp) s;
         Ok (Some (other_side left_index), s));
  let '(nextIndex, s) := r in
  s ← pass routeBot tmp s;
  Ok (nextIndex, s).

(** Every round routes a packet. *)
Fixpoint route_packets (fuel : nat) (nextIndex : option nat) (s : routing) : res routing :=
  match fuel with
  | O => NoFuel
  | S fuel =>
      c ← choose n (left_pkt s) nextIndex;
      match c with
      | None => Ok s
      | Some index =>
          r ← left_to_right index s;
          let '(nextIndex, s) := r in
          c ← choose n (right_pkt s) nextIndex;
          match c with
          | None => Ok s
          | Some right_index =>
              r ← right_to_left right_index s;
              let '(nextIndex, s) := r in
              route_packets fuel nextIndex s
          end
      end
  end.

End Level.

(** ** The network *)

Fixpoint all_packets (l : list (option packet_t)) : res (list packet_t) :=
  match l with
  | [] => Ok []
  | None :: _ => Fault
  | Some p :: l => r ← all_packets l; Ok (p :: r)
  end.

Definition wires : Type := list (option data_t) * list switch_t.

(** A single switch. *)
Definition route_switch (left_pkt right_pkt : list packet_t) (w : wires) (sb : nat) : res wires :=
  let '(inter, sws) := w in
  sw ← rd sws sb;
  match sw with
  | Some _ => Fault
  | None =>
      l0 ← rd left_pkt 0; r0 ← rd right_pkt 0;
      if data_equal (data l0) (data r0) then sws ← wr sws sb (Some false); Ok (inter, sws)
      else
        r1 ← rd right_pkt 1;
        if data_equal (data l0) (data r1) then sws ← wr sws sb (Some true); Ok (inter, sws) else Fault
  end.

Fixpoint route (fuel : nat) (left_pkt right_pkt : list packet_t) (w : wires) (iv sb n : nat) : res wires :=
  match fuel with
  | O => NoFuel
  | S fuel =>
      if (n =? 2)%nat then route_switch left_pkt right_pkt w sb
      else if (n =? 1)%nat then
        l0 ← rd left_pkt 0; r0 ← rd right_pkt 0;
        if data_equal (data l0) (data r0) then Ok w else Fault
      else
        let '(inter, sws) := w in
        let s := {| left_pkt := left_pkt; right_pkt := right_pkt; intermediate := inter; switches := sws;
                    topLeft := replicate (topSize n) None; topRight := replicate (topSize n) None;
                    botLeft := replicate (bottomSize n) None; botRight := replicate (bottomSize n) None |} in
        r ← route_last n iv sb s;
        let '(nextIndex, s) := r in
        s ← route_packets n iv sb (S n) nextIndex s;
        tl ← all_packets (topLeft s); tr ← all_packets (topRight s);
        bl ← all_packets (botLeft s); br ← all_packets (botRight s);
        let topVars := (iv + numLeftVars n + numRightVars n)%nat in
        let topSwitches := (sb + leftSwitchCt n + rightSwitchCt n)%nat in
        let topSwc := numSwitches (topSize n) in
        let topVarc := Z.of_nat (2 * topSwc) - Z.of_nat (topSize n) in
        w ← route fuel tl tr (intermediate s, switches s) topVars topSwitches (topSize n);
        route fuel bl br w (Z.to_nat (Z.of_nat topVars + topVarc)) (topSwitches + topSwc) (bottomSize n)
  end.

Definition unroute (p : packet_t) : packet_t := {| data := data p; src := src p; dst := dst p; routed := false |}.

(** [rightPackets[leftPackets[i].dst] = leftPackets[i]] *)
Definition place_right (width : nat) (leftPackets : list packet_t) : res (list (option packet_t)) :=
  for_upM 0 width (fun i r => p ← rd leftPackets i; wr r (dst p) (Some p)) (replicate width None).

(** The outputs and the wires; [None] for arrays that are not written. *)
Definition wak_route (input : list data_t) (width num_intermediate num_switches : nat) : res (list (option data_t) * wires) :=
  let unset := (replicate num_intermediate None, replicate num_switches None) in
  if (width <? 2)%nat then Ok (replicate width None, unset)
  else
    let leftPackets := unroute <$> sort_packet input in
    r ← place_right width leftPackets;
    rightPackets ← all_packets r;
    w ← route width leftPackets rightPackets unset 0 0 width;
    Ok ((fun p => Some (data p)) <$> rightPackets, w).
