(* ===== verification/WakColor.v ===== *)
(** The colours of packets at one level of the network: which half-size
    network the router sends each packet through.

    Two packets at one switch, on the left or on the right, have different
    colours.  The router follows a chain of such constraints; [Head] and [Mid]
    say where it stands before it goes right and before it goes left. *)
From Stdlib Require Import ZArith Lia.
From stdpp Require Import base numbers list.
From S2P Require Import Prelude Waksman.

(** *** The other packet at a switch *)

Lemma other_side_spec x : other_side (other_side x) = x /\ other_side x <> x /\ Nat.odd (other_side x) = negb (Nat.odd x) /\
  (other_side x / 2 = x / 2)%nat /\ (other_side x = 2 * (x / 2) + (if Nat.odd x then 0 else 1))%nat /\ (x = 2 * (x / 2) + (if Nat.odd x then 1 else 0))%nat.
Proof.
  unfold other_side. destruct (Nat.odd x) eqn:Ho.
  - apply Nat.odd_spec in Ho as [k ->]. replace (2 * k + 1 - 1)%nat with (2 * k)%nat by lia.
    rewrite Nat.odd_even. replace (2 * k + 1)%nat with (1 + k * 2)%nat by lia. rewrite (Nat.mul_comm 2 k), Nat.div_add, Nat.div_mul by lia. cbn. repeat split; lia.
  - apply (f_equal negb) in Ho. rewrite Nat.negb_odd in Ho. apply Nat.even_spec in Ho as [k ->].
    rewrite Nat.odd_odd. replace (2 * k + 1)%nat with (1 + k * 2)%nat by lia. rewrite (Nat.mul_comm 2 k), Nat.div_add, Nat.div_mul by lia. cbn. repeat split; lia.
Qed.

Lemma other_involutive x : other_side (other_side x) = x.
Proof. apply other_side_spec. Qed.

Lemma other_ne x : other_side x <> x.
Proof. apply other_side_spec. Qed.

Lemma other_range k x : Nat.even k = true -> (x < k)%nat -> (other_side x < k)%nat.
Proof.
  intros [m ->]%Nat.even_spec Hx. destruct (other_side_spec x) as (_ & _ & _ & _ & -> & Hx'). destruct (Nat.odd x); lia.
Qed.

Section Colours.
Context (n : nat) (Hn : (3 <= n)%nat) (π σ : nat -> nat).
Context (Hπ : forall i, (i < n)%nat -> (π i < n)%nat /\ σ (π i) = i) (Hσ : forall j, (j < n)%nat -> (σ j < n)%nat /\ π (σ j) = j).

(** A colour is [true] for the bottom network. *)
Abbreviation colouring := (nat -> option bool).
Abbreviation nl := (numLeftVars n).
Abbreviation nr := (numRightVars n).

Definition paintc (i : nat) (c : bool) (col : colouring) : colouring := fun x => if (x =? i)%nat then Some c else col x.

Definition rcol (col : colouring) (j : nat) : option bool := col (σ j).

(** The setting of a switch with these two colours. *)
Definition setting (c0 c1 : option bool) : option bool :=
  match c0, c1 with Some c, _ => Some c | None, Some c => Some (negb c) | None, None => None end.

(** Packets at a switch of which only one is coloured. *)
Definition half (m : nat) (f : nat -> option bool) (i : nat) : Prop := (i < m)%nat /\ is_Some (f i) /\ f (other_side i) = None.

Definition lhalf (col : colouring) : nat -> Prop := half nl col.
Definition rhalf (col : colouring) : nat -> Prop := half nr (rcol col).

Record proper (col : colouring) : Prop := {
  pr_left : forall i c, (i < nl)%nat -> col i = Some c -> col (other_side i) <> Some c;
  pr_right : forall j c, (j < n)%nat -> (other_side j < n)%nat -> rcol col j = Some c -> rcol col (other_side j) <> Some c;
  pr_last : rcol col (n - 1)%nat = Some true;
  pr_link : Nat.odd n = true -> col (n - 1)%nat <> Some false
}.

Inductive Head (col : colouring) : option nat -> Prop :=
| Head_none next : Nat.odd n = true -> (forall i, ~ lhalf col i) -> (forall j, ~ rhalf col j) -> is_Some (col (n - 1)%nat) ->
    match next with Some i => (i < n)%nat /\ is_Some (col i) | None => True end -> Head col next
| Head_path x : (x < nl)%nat -> col x = None -> col (other_side x) = Some true -> (forall i, lhalf col i <-> i = other_side x) ->
    (forall j, ~ rhalf col j) -> Head col (Some x)
| Head_odd x d c : Nat.odd n = true -> is_Some (col (n - 1)%nat) -> (x < nl)%nat -> col x = None -> col (other_side x) = Some c ->
    d <> other_side x -> col d = Some (negb c) -> (forall i, lhalf col i <-> i = other_side x \/ i = d) -> (forall j, ~ rhalf col j) -> Head col (Some x)
| Head_even x d c : Nat.even n = true -> is_Some (rcol col (n - 2)%nat) -> (x < nl)%nat -> col x = None -> col (other_side x) = Some c ->
    rcol col d = Some c -> (forall i, lhalf col i <-> i = other_side x) -> (forall j, rhalf col j <-> j = d) -> Head col (Some x).

Inductive Mid (col : colouring) : option nat -> Prop :=
| Mid_none next : Nat.even n = true -> (forall i, ~ lhalf col i) -> (forall j, ~ rhalf col j) -> is_Some (rcol col (n - 2)%nat) ->
    match next with Some j => (j < n)%nat /\ is_Some (rcol col j) | None => True end -> Mid col next
| Mid_path y : (y < nr)%nat -> rcol col y = None -> rcol col (other_side y) = Some false -> (forall j, rhalf col j <-> j = other_side y) ->
    (forall i, ~ lhalf col i) -> Mid col (Some y)
| Mid_odd y d c : Nat.odd n = true -> is_Some (col (n - 1)%nat) -> (y < nr)%nat -> rcol col y = None -> rcol col (other_side y) = Some c ->
    (n = 3%nat -> c = false) -> col d = Some c -> (forall i, lhalf col i <-> i = d) -> (forall j, rhalf col j <-> j = other_side y) -> Mid col (Some y)
| Mid_even y d c : Nat.even n = true -> is_Some (rcol col (n - 2)%nat) -> (y < nr)%nat -> rcol col y = None -> rcol col (other_side y) = Some c ->
    d <> other_side y -> rcol col d = Some (negb c) -> (forall i, ~ lhalf col i) -> (forall j, rhalf col j <-> j = other_side y \/ j = d) -> Mid col (Some y).

(** What [choose] answers. *)
Definition chosen (col : colouring) (next : option nat) (x : nat) : Prop :=
  (x < n)%nat /\ col x = None /\
  match next with
  | Some i => if col i then forall y, (y < x)%nat -> is_Some (col y) else x = i
  | None => forall y, (y < x)%nat -> is_Some (col y)
  end.

Definition left_colour (col : colouring) (x : nat) : bool :=
  if (x =? n - 1)%nat && Nat.odd n then true
  else xorb (Nat.odd x) (default false (setting (col (2 * (x / 2))) (col (2 * (x / 2) + 1))))%nat.

Definition right_colour (col : colouring) (y : nat) : bool :=
  if (y =? n - 2)%nat && Nat.even n then false
  else xorb (Nat.odd y) (default false (setting (rcol col (2 * (y / 2))) (rcol col (2 * (y / 2) + 1))))%nat.

Definition next_right (x : nat) : option nat :=
  if (π x =? n - 1)%nat || ((π x =? n - 2)%nat && Nat.even n) then None else Some (other_side (π x)).

Definition next_left (y : nat) : option nat :=
  if (σ y =? n - 1)%nat && Nat.odd n then None else Some (other_side (σ y)).

(** *** Sizes *)

Lemma sizes : (nl = if Nat.odd n then n - 1 else n)%nat /\ (nr = if Nat.odd n then n - 1 else n - 2)%nat.
Proof.
  clear Hπ Hσ.
  unfold numLeftVars, numRightVars, rightSwitchCt, leftSwitchCt. rewrite <- Nat.negb_even. destruct (Nat.even n) eqn:He; cbn [negb].
  - apply Nat.even_spec in He as [k ->]. rewrite (Nat.mul_comm 2 k), Nat.div_mul, Nat.Div0.mod_mul by lia. lia.
  - apply (f_equal negb) in He. rewrite Nat.negb_even in He. apply Nat.odd_spec in He as [k ->].
    replace (2 * k + 1)%nat with (1 + k * 2)%nat by lia. rewrite Nat.div_add, Nat.Div0.mod_add by lia. cbn. lia.
Qed.

Lemma nl_even : Nat.even nl = true.
Proof. unfold numLeftVars. rewrite Nat.even_mul. by rewrite orb_true_r. Qed.

Lemma nr_even : Nat.even nr = true.
Proof. unfold numRightVars. rewrite Nat.even_mul. by rewrite orb_true_r. Qed.

(** *** One more packet *)

Lemma half_paint m f f' x c i : Nat.even m = true -> f x = None -> (forall y, (y < m)%nat -> f' y = if (y =? x)%nat then Some c else f y) ->
  half m f' i <-> if (x <? m)%nat then (if f (other_side x) then half m f i /\ i <> other_side x else half m f i \/ i = x) else half m f i.
Proof.
  intros Hm Hx Hf. unfold half. destruct (Nat.ltb_spec x m) as [Hlt|Hge].
  - pose proof (other_range m x Hm Hlt) as Ho. destruct (f (other_side x)) as [c'|] eqn:Hc.
    + split.
      * intros (Hi & Hs & Hn'). rewrite Hf in Hs, Hn' by (done || by apply other_range).
        destruct (Nat.eqb_spec (other_side i) x) as [|Hne]; [done|]. destruct (Nat.eqb_spec i x) as [->|Hix]; [destruct Hs; congruence|].
        repeat split; try done. intros ->. by rewrite other_involutive in Hne.
      * intros ((Hi & Hs & Hn') & Hne). rewrite !Hf by (done || by apply other_range).
        destruct (Nat.eqb_spec i x) as [->|Hix]; [destruct Hs; congruence|]. destruct (Nat.eqb_spec (other_side i) x) as [<-|]; [|done].
        by rewrite other_involutive in Hne.
    + split.
      * intros (Hi & Hs & Hn'). rewrite Hf in Hs, Hn' by (done || by apply other_range).
        destruct (Nat.eqb_spec i x) as [->|Hix]; [by right|]. left. destruct (Nat.eqb_spec (other_side i) x); done.
      * intros [(Hi & Hs & Hn')| ->].
        -- rewrite !Hf by (done || by apply other_range). destruct (Nat.eqb_spec i x) as [->|Hix]; [destruct Hs; congruence|].
           destruct (Nat.eqb_spec (other_side i) x) as [<-|]; [|done]. rewrite other_involutive in Hc. destruct Hs. congruence.
        -- rewrite !Hf by done. rewrite Nat.eqb_refl, (proj2 (Nat.eqb_neq _ _) (other_ne x)). repeat split; [done|by eexists|done].
  - split; intros (Hi & Hs & Hn'); pose proof (other_range m i Hm Hi) as Ho.
    + rewrite Hf in Hs, Hn' by done. rewrite (proj2 (Nat.eqb_neq _ _)) in Hs by lia. rewrite (proj2 (Nat.eqb_neq _ _)) in Hn' by lia. done.
    + rewrite !Hf by done. rewrite !(proj2 (Nat.eqb_neq _ _)) by lia. done.
Qed.

Lemma rcol_paint i c col j : (i < n)%nat -> (j < n)%nat -> rcol (paintc i c col) j = if (j =? π i)%nat then Some c else rcol col j.
Proof.
  intros Hi Hj. unfold rcol, paintc. destruct (Nat.eqb_spec (σ j) i) as [<-|Hne].
  - by rewrite (proj2 (Hσ j Hj)), Nat.eqb_refl.
  - destruct (Nat.eqb_spec j (π i)) as [->|]; [|done]. by destruct (Hπ i Hi).
Qed.

Lemma lhalf_paint x c col i : col x = None ->
  lhalf (paintc x c col) i <-> if (x <? nl)%nat then (if col (other_side x) then lhalf col i /\ i <> other_side x else lhalf col i \/ i = x) else lhalf col i.
Proof. intros Hx. by apply (half_paint nl col (paintc x c col) x c i nl_even Hx). Qed.

Lemma rhalf_paint x c col j : (x < n)%nat -> col x = None ->
  rhalf (paintc x c col) j <-> if (π x <? nr)%nat then (if rcol col (other_side (π x)) then rhalf col j /\ j <> other_side (π x) else rhalf col j \/ j = π x) else rhalf col j.
Proof.
  intros Hx Hc. pose proof (proj2 sizes) as Hnr. apply (half_paint nr (rcol col) _ (π x) c j nr_even).
  - unfold rcol. by rewrite (proj2 (Hπ x Hx)).
  - intros y Hy. apply rcol_paint; [done|]. destruct (Nat.odd n); lia.
Qed.

(** The colour the switch asks for. *)
Lemma setting_other (f : nat -> option bool) x : f x = None ->
  xorb (Nat.odd x) (default false (setting (f (2 * (x / 2))%nat) (f (2 * (x / 2) + 1)%nat))) = match f (other_side x) with Some c => negb c | None => Nat.odd x end.
Proof.
  intros Hx. destruct (other_side_spec x) as (_ & _ & _ & _ & Ho & Hx'). destruct (Nat.odd x).
  - rewrite Nat.add_0_r in Ho. rewrite <- Hx', <- Ho, Hx. unfold setting. by destruct (f (other_side x)).
  - rewrite Nat.add_0_r in Hx'. rewrite <- Ho, <- Hx', Hx. unfold setting. cbn. destruct (f (other_side x)); [cbn|done]. by destruct (negb _).
Qed.

Lemma left_colour_eq col x : (x < nl)%nat -> col x = None ->
  left_colour col x = match col (other_side x) with Some c => negb c | None => Nat.odd x end.
Proof.
  intros Hx Hc. unfold left_colour. pose proof (proj1 sizes) as Hnl. destruct (Nat.odd n).
  - rewrite (proj2 (Nat.eqb_neq x _)) by lia. by apply setting_other.
  - rewrite andb_false_r. by apply setting_other.
Qed.

Lemma right_colour_eq col y : (y < nr)%nat -> rcol col y = None ->
  right_colour col y = match rcol col (other_side y) with Some c => negb c | None => Nat.odd y end.
Proof.
  intros Hy Hc. unfold right_colour. pose proof (proj2 sizes) as Hnr. rewrite <- Nat.negb_odd. destruct (Nat.odd n).
  - rewrite andb_false_r. by apply setting_other.
  - rewrite (proj2 (Nat.eqb_neq y _)) by lia. by apply setting_other.
Qed.

Lemma paintc_eq i c col : paintc i c col i = Some c.
Proof. unfold paintc. by rewrite Nat.eqb_refl. Qed.

Lemma paintc_ne i c col x : x <> i -> paintc i c col x = col x.
Proof. intros Hx. unfold paintc. by rewrite (proj2 (Nat.eqb_neq x i)). Qed.

Lemma paintc_some i c col x : is_Some (col x) -> is_Some (paintc i c col x).
Proof. unfold paintc. destruct (x =? i)%nat; [by eexists|done]. Qed.

Lemma proper_paint col x c : proper col -> (x < n)%nat -> col x = None -> ((x < nl)%nat -> col (other_side x) <> Some c) ->
  ((other_side (π x) < n)%nat -> rcol col (other_side (π x)) <> Some c) -> (Nat.odd n = true -> x = (n - 1)%nat -> c = true) -> proper (paintc x c col).
Proof.
  intros [P1 P2 P3 P4] Hx Hc Hl Hr Ho. destruct (Hπ x Hx) as [Hpx Hsx]. pose proof (proj1 sizes) as Hnl. split.
  - intros i c' Hi Hc'. pose proof (other_range nl i nl_even Hi). unfold paintc in *. destruct (Nat.eqb_spec i x) as [->|Hix].
    + rewrite (proj2 (Nat.eqb_neq _ _) (other_ne x)). injection Hc' as <-. by apply Hl.
    + destruct (Nat.eqb_spec (other_side i) x) as [<-|]; [|by apply P1]. intros [= <-]. rewrite other_involutive in Hl. by apply Hl.
  - intros j c' Hj Hoj Hc'. rewrite rcol_paint in * by done. destruct (Nat.eqb_spec j (π x)) as [->|Hjx].
    + rewrite (proj2 (Nat.eqb_neq _ _) (other_ne (π x))). injection Hc' as <-. by apply Hr.
    + destruct (Nat.eqb_spec (other_side j) (π x)) as [Heq|]; [|by apply P2]. intros [= <-].
      rewrite <- Heq, other_involutive in Hr. by apply Hr.
  - rewrite rcol_paint by lia. destruct (Nat.eqb_spec (n - 1) (π x)) as [Heq|]; [|done].
    exfalso. unfold rcol in P3. rewrite Heq, Hsx, Hc in P3. done.
  - intros Hodd. unfold paintc. destruct (Nat.eqb_spec (n - 1) x) as [Heq|]; [|by apply P4]. by rewrite (Ho Hodd (eq_sym Heq)).
Qed.

(** An uncoloured packet does not go to the last place on the right. *)
Lemma right_place col x : proper col -> (x < n)%nat -> col x = None -> (π x < n)%nat /\ π x <> (n - 1)%nat /\ rcol col (π x) = None.
Proof.
  intros HP Hx Hc. destruct (Hπ x Hx) as [Hpx Hsx]. unfold rcol. rewrite Hsx. repeat split; [done| |done].
  intros Heq. pose proof (pr_last _ HP) as H3. unfold rcol in H3. by rewrite <- Heq, Hsx, Hc in H3.
Qed.

Lemma not_half m f x : (x < m)%nat -> Nat.even m = true -> f x = None -> (forall i, ~ half m f i) -> f (other_side x) = None.
Proof.
  intros Hx Hm Hf Hh. destruct (f (other_side x)) eqn:Hc; [|done]. exfalso. apply (Hh (other_side x)).
  repeat split; [by apply other_range|by eexists|by rewrite other_involutive].
Qed.

Lemma only_half m f x y : (x < m)%nat -> Nat.even m = true -> f x = None -> (forall i, half m f i -> i = y) -> is_Some (f (other_side x)) -> other_side x = y.
Proof.
  intros Hx Hm Hf Hh Hs. apply Hh. repeat split; [by apply other_range|done|by rewrite other_involutive].
Qed.

Lemma chosen_next col x y : chosen col (Some x) y -> col x = None -> y = x.
Proof. intros (_ & _ & Hc) Hx. by rewrite Hx in Hc. Qed.

Lemma next_right_switch x : (π x < nr)%nat -> next_right x = Some (other_side (π x)).
Proof.
  intros Hx. unfold next_right. pose proof (proj2 sizes) as Hnr. rewrite <- Nat.negb_odd. destruct (Nat.odd n); cbn [negb].
  - rewrite andb_false_r, orb_false_r, (proj2 (Nat.eqb_neq _ _)) by lia. done.
  - rewrite !(proj2 (Nat.eqb_neq _ _)) by lia. done.
Qed.

Lemma next_left_switch y : (σ y < nl)%nat -> next_left y = Some (other_side (σ y)).
Proof.
  intros Hy. unfold next_left. pose proof (proj1 sizes) as Hnl. destruct (Nat.odd n); [by rewrite (proj2 (Nat.eqb_neq _ _)) by lia|by rewrite andb_false_r].
Qed.

(** What the packet that goes right does to the half coloured switches. *)
Lemma right_open x c col : proper col -> (x < n)%nat -> col x = None -> (π x < nr)%nat -> rcol col (other_side (π x)) = None ->
  let y := other_side (π x) in let col' := paintc x c col in
  (y < nr)%nat /\ rcol col' y = None /\ rcol col' (other_side y) = Some c /\ forall j, rhalf col' j <-> rhalf col j \/ j = other_side y.
Proof.
  intros HP Hx Hc Hr Ho. cbn zeta. pose proof (other_range nr (π x) nr_even Hr) as Hy. pose proof (proj2 sizes) as Hnr.
  assert (nr <= n)%nat by (destruct (Nat.odd n); lia). rewrite other_involutive. split; [done|split; [|split; [|intros]]].
  - rewrite rcol_paint by lia. by rewrite (proj2 (Nat.eqb_neq _ _) (other_ne (π x))).
  - rewrite rcol_paint by lia. by rewrite Nat.eqb_refl.
  - rewrite rhalf_paint, (proj2 (Nat.ltb_lt _ _) Hr), Ho by done. tauto.
Qed.

Lemma left_open x c col : (x < nl)%nat -> col x = None -> col (other_side x) = None ->
  let y := other_side x in let col' := paintc x c col in
  (y < nl)%nat /\ col' y = None /\ col' (other_side y) = Some c /\ forall i, lhalf col' i <-> lhalf col i \/ i = other_side y.
Proof.
  intros Hx Hc Ho. cbn zeta. pose proof (other_range nl x nl_even Hx) as Hy. rewrite other_involutive. split; [done|split; [|split; [|intros]]].
  - rewrite paintc_ne; [done|apply other_ne].
  - apply paintc_eq.
  - rewrite lhalf_paint, (proj2 (Nat.ltb_lt _ _) Hx), Ho by done. tauto.
Qed.

(** The switch of the packet is complete now. *)
Lemma left_closed x c c' col i : (x < nl)%nat -> col x = None -> col (other_side x) = Some c' ->
  lhalf (paintc x c col) i <-> lhalf col i /\ i <> other_side x.
Proof. intros Hx Hc Ho. by rewrite lhalf_paint, (proj2 (Nat.ltb_lt _ _) Hx), Ho. Qed.

Lemma right_closed x c c' col j : (x < n)%nat -> (π x < nr)%nat -> col x = None -> rcol col (other_side (π x)) = Some c' ->
  rhalf (paintc x c col) j <-> rhalf col j /\ j <> other_side (π x).
Proof. intros Hx Hr Hc Ho. by rewrite rhalf_paint, (proj2 (Nat.ltb_lt _ _) Hr), Ho. Qed.

Definition right_step (col : colouring) (x : nat) : Prop :=
  let c := left_colour col x in
  proper (paintc x c col) /\ Mid (paintc x c col) (next_right x) /\ (n = 3%nat -> c = false /\ rcol col (other_side (π x)) = None).

Ltac sides := try first [done | lia | intros; exfalso; lia | intros; congruence | intros; match goal with c : bool |- _ => destruct c; cbn in *; congruence end].

(** A fresh start on the left, possible when [n] is odd. *)
Lemma go_right_fresh col next x : proper col -> Nat.odd n = true -> (forall i, ~ lhalf col i) -> (forall j, ~ rhalf col j) -> is_Some (col (n - 1)%nat) ->
  match next with Some i => is_Some (col i) | None => True end -> chosen col next x -> right_step col x.
Proof.
  intros HP Hodd Hl Hr Hlink Hnext (Hx & Hc & Hfirst). destruct (right_place col x HP Hx Hc) as (Hpx & Hpn & Hrc).
  pose proof sizes as [Hnl Hnr]. rewrite Hodd in *. assert (x <> n - 1)%nat as Hxn by (intros ->; destruct Hlink; congruence).
  assert (x < nl)%nat as Hxl by lia. assert (π x < nr)%nat as Hpr by lia.
  pose proof (not_half nl col x Hxl nl_even Hc Hl) as Ho. pose proof (not_half nr (rcol col) (π x) Hpr nr_even Hrc Hr) as Hro.
  unfold right_step. rewrite left_colour_eq, Ho, next_right_switch by done.
  assert (Hfst : forall y, (y < x)%nat -> is_Some (col y)).
  { destruct next as [i|]; [|done]. destruct Hnext as [c' Hc']. by rewrite Hc' in Hfirst. }
  assert (H3 : n = 3%nat -> Nat.odd x = false).
  { intros Hn3. destruct (Nat.odd x) eqn:Hxo; [|done]. exfalso. destruct (other_side_spec x) as (_ & _ & _ & _ & Hos & Hxs). rewrite Hxo in *.
    destruct (Hfst (other_side x)) as [c' Hc']; [lia|]. congruence. }
  split; [|split; [|by intros Hn3; auto]].
  - apply proper_paint; sides.
  - destruct (right_open x (Nat.odd x) col HP Hx Hc Hpr Hro) as (Hy & Hny & Hoy & Hrh).
    apply (Mid_odd _ _ x (Nat.odd x)); try done; [by apply paintc_some|apply paintc_eq| |].
    + intros i. rewrite lhalf_paint, (proj2 (Nat.ltb_lt _ _) Hxl), Ho by done. specialize (Hl i). tauto.
    + intros j. rewrite Hrh. specialize (Hr j). tauto.
Qed.

Lemma go_right_path col x : proper col -> (x < nl)%nat -> col x = None -> col (other_side x) = Some true -> (forall i, lhalf col i <-> i = other_side x) ->
  (forall j, ~ rhalf col j) -> right_step col x.
Proof.
  intros HP Hxl Hc Ho Hl Hr. pose proof sizes as [Hnl Hnr]. assert (x < n)%nat as Hx by (destruct (Nat.odd n); lia).
  destruct (right_place col x HP Hx Hc) as (Hpx & Hpn & Hrc). unfold right_step. rewrite left_colour_eq, Ho by done. cbn [negb].
  assert (Hlh : forall i, ~ lhalf (paintc x false col) i).
  { intros i. rewrite (left_closed x false true) by done. rewrite Hl. tauto. }
  destruct (decide (π x < nr)%nat) as [Hpr|Hpr].
  - pose proof (not_half nr (rcol col) (π x) Hpr nr_even Hrc Hr) as Hro.
    destruct (right_open x false col HP Hx Hc Hpr Hro) as (Hy & Hny & Hoy & Hrh). rewrite next_right_switch by done.
    split; [|split; [|done]].
    + apply proper_paint; sides. intros Hodd. rewrite Hodd in *. lia.
    + apply Mid_path; try done. intros j. rewrite Hrh. specialize (Hr j). tauto.
  - rewrite <- Nat.negb_even in *. destruct (Nat.even n) eqn:He; cbn [negb] in *; [|lia].
    assert (π x = n - 2)%nat as Hp by lia. assert (next_right x = None) as ->.
    { unfold next_right. rewrite Hp, He, Nat.eqb_refl. by rewrite orb_true_r. }
    assert (Hon : other_side (π x) = (n - 1)%nat).
    { apply Nat.even_spec in He as [k Hk]. rewrite Hp. unfold other_side. replace (n - 2)%nat with (2 * (k - 1))%nat by lia. rewrite Nat.odd_even. lia. }
    split; [|split].
    + apply proper_paint; sides; [rewrite Hon; intros _; by rewrite (pr_last _ HP)|by rewrite <- Nat.negb_even, He].
    + apply Mid_none; try done.
      * intros j. rewrite rhalf_paint, (proj2 (Nat.ltb_nlt _ _) Hpr) by done. apply Hr.
      * rewrite rcol_paint, Hp, Nat.eqb_refl by lia. by eexists.
    + intros ->. done.
Qed.

Lemma go_right_odd col x d c : proper col -> Nat.odd n = true -> is_Some (col (n - 1)%nat) -> (x < nl)%nat -> col x = None -> col (other_side x) = Some c ->
  d <> other_side x -> col d = Some (negb c) -> (forall i, lhalf col i <-> i = other_side x \/ i = d) -> (forall j, ~ rhalf col j) -> right_step col x.
Proof.
  intros HP Hodd Hlink Hxl Hc Ho Hd Hcd Hl Hr. pose proof sizes as [Hnl Hnr]. rewrite Hodd in *. assert (x < n)%nat as Hx by lia.
  destruct (right_place col x HP Hx Hc) as (Hpx & Hpn & Hrc). assert (π x < nr)%nat as Hpr by lia.
  pose proof (not_half nr (rcol col) (π x) Hpr nr_even Hrc Hr) as Hro.
  unfold right_step. rewrite left_colour_eq, Ho, next_right_switch by done.
  destruct (right_open x (negb c) col HP Hx Hc Hpr Hro) as (Hy & Hny & Hoy & Hrh).
  assert (n <> 3%nat) as Hn3.
  { intros Hn3. assert (d < nl)%nat as Hdl by (apply (Hl d); by right). pose proof (other_range nl x nl_even Hxl). pose proof (other_ne x).
    assert (d <> x) by (intros ->; congruence). lia. }
  split; [|split; [|done]].
  - apply proper_paint; sides.
  - apply (Mid_odd _ _ d (negb c)); try done; [by apply paintc_some| | |].
    + rewrite paintc_ne; [done|]. intros ->. congruence.
    + intros i. rewrite (left_closed x (negb c) c) by done. rewrite Hl. naive_solver.
    + intros j. rewrite Hrh. specialize (Hr j). tauto.
Qed.

Lemma go_right_even col x d c : proper col -> Nat.even n = true -> is_Some (rcol col (n - 2)%nat) -> (x < nl)%nat -> col x = None -> col (other_side x) = Some c ->
  rcol col d = Some c -> (forall i, lhalf col i <-> i = other_side x) -> (forall j, rhalf col j <-> j = d) -> right_step col x.
Proof.
  intros HP He Hlink Hxl Hc Ho Hcd Hl Hr. pose proof sizes as [Hnl Hnr]. rewrite <- Nat.negb_even, He in Hnl, Hnr. cbn [negb] in Hnl, Hnr. assert (x < n)%nat as Hx by lia.
  destruct (right_place col x HP Hx Hc) as (Hpx & Hpn & Hrc).
  assert (π x < nr)%nat as Hpr.
  { enough (π x <> n - 2)%nat by lia. intros Heq. rewrite Heq in Hrc. destruct Hlink. congruence. }
  unfold right_step. rewrite left_colour_eq, Ho, next_right_switch by done.
  assert (Hlh : forall i, ~ lhalf (paintc x (negb c) col) i).
  { intros i. rewrite (left_closed x (negb c) c) by done. rewrite Hl. tauto. }
  assert (Hprop : rcol col (other_side (π x)) <> Some (negb c) -> proper (paintc x (negb c) col)).
  { intros Hro. apply proper_paint; sides. by rewrite <- Nat.negb_even, He. }
  assert (Hs2 : is_Some (rcol (paintc x (negb c) col) (n - 2)%nat)).
  { rewrite rcol_paint by lia. destruct (_ =? _)%nat; [by eexists|done]. }
  destruct (rcol col (other_side (π x))) as [c'|] eqn:Hro.
  - pose proof (only_half nr (rcol col) (π x) d Hpr nr_even Hrc (fun j => proj1 (Hr j)) ltac:(by eexists)) as Hod.
    assert (c' = c) as -> by (rewrite Hod, Hcd in Hro; congruence). split; [|split].
    + apply Hprop. by destruct c.
    + apply Mid_none; try done.
      * intros j. rewrite (right_closed x (negb c) c) by done. rewrite Hr, Hod. tauto.
      * split; [pose proof (other_range nr (π x) nr_even Hpr); lia|]. rewrite rcol_paint by (done || (pose proof (other_range nr (π x) nr_even Hpr); lia)).
        rewrite (proj2 (Nat.eqb_neq _ _) (other_ne (π x))), Hro. by eexists.
    + intros ->. done.
  - destruct (right_open x (negb c) col HP Hx Hc Hpr Hro) as (Hy & Hny & Hoy & Hrh). split; [by apply Hprop|]. split; [|by intros ->].
    apply (Mid_even _ _ d (negb c)); try done.
    + rewrite other_involutive. intros ->. congruence.
    + rewrite rcol_paint; [|done|]. 2:{ assert (d < nr)%nat by (apply (Hr d); done). lia. }
      destruct (Nat.eqb_spec d (π x)) as [->|]; [congruence|]. by rewrite negb_involutive.
    + intros j. rewrite Hrh, Hr. tauto.
Qed.

Lemma go_right col next x : proper col -> Head col next -> chosen col next x -> right_step col x.
Proof.
  intros HP HH Hch. destruct HH as [next Hodd Hl Hr Hs Hnext|x' Hx' Hc Ho Hl Hr|x' d c Hodd Hs Hx' Hc Ho Hd Hcd Hl Hr|x' d c He Hs Hx' Hc Ho Hcd Hl Hr];
    try (pose proof (chosen_next _ _ _ Hch Hc) as ->).
  - apply (go_right_fresh col next); try done. destruct next; [apply Hnext|done].
  - by apply go_right_path.
  - by apply (go_right_odd col x' d c).
  - by apply (go_right_even col x' d c).
Qed.

Definition left_step (col : colouring) (y : nat) : Prop :=
  let c := right_colour col y in
  proper (paintc (σ y) c col) /\ Head (paintc (σ y) c col) (next_left y) /\ (n = 3%nat -> c = true).

Lemma go_left_fresh col next y : proper col -> Nat.even n = true -> (forall i, ~ lhalf col i) -> (forall j, ~ rhalf col j) -> is_Some (rcol col (n - 2)%nat) ->
  chosen (rcol col) next y -> left_step col y.
Proof.
  intros HP He Hl Hr Hlink (Hy & Hc & _). pose proof sizes as [Hnl Hnr]. rewrite <- Nat.negb_even, He in Hnl, Hnr. cbn [negb] in Hnl, Hnr.
  destruct (Hσ y Hy) as [Hx Hpx]. assert (y <> n - 1)%nat by (intros ->; pose proof (pr_last _ HP); congruence).
  assert (y <> n - 2)%nat by (intros ->; destruct Hlink; congruence). assert (y < nr)%nat as Hyr by lia. assert (σ y < nl)%nat as Hxl by lia.
  pose proof (not_half nr (rcol col) y Hyr nr_even Hc Hr) as Hro. pose proof (not_half nl col (σ y) Hxl nl_even Hc Hl) as Ho.
  unfold left_step. rewrite right_colour_eq, Hro, next_left_switch by done.
  destruct (left_open (σ y) (Nat.odd y) col Hxl Hc Ho) as (Hy' & Hny & Hoy & Hlh). split; [|split].
  - apply proper_paint; rewrite ?Hpx; sides. by rewrite <- Nat.negb_even, He.
  - apply (Head_even _ _ y (Nat.odd y)); try done.
    + rewrite rcol_paint by lia. destruct (_ =? _)%nat; [by eexists|done].
    + rewrite rcol_paint, Hpx, Nat.eqb_refl by lia. done.
    + intros i. rewrite Hlh. specialize (Hl i). tauto.
    + intros j. rewrite rhalf_paint, Hpx, (proj2 (Nat.ltb_lt _ _) Hyr), Hro by done. specialize (Hr j). tauto.
  - intros ->. done.
Qed.

Lemma go_left_path col y : proper col -> (y < nr)%nat -> rcol col y = None -> rcol col (other_side y) = Some false -> (forall j, rhalf col j <-> j = other_side y) ->
  (forall i, ~ lhalf col i) -> left_step col y.
Proof.
  intros HP Hyr Hc Hro Hr Hl. pose proof sizes as [Hnl Hnr]. assert (y < n)%nat as Hy by (destruct (Nat.odd n); lia).
  destruct (Hσ y Hy) as [Hx Hpx]. unfold left_step. rewrite right_colour_eq, Hro by done. cbn [negb].
  assert (Hrh : forall j, ~ rhalf (paintc (σ y) true col) j).
  { intros j. rewrite (right_closed (σ y) true false) by (rewrite ?Hpx; done). rewrite Hpx, Hr. tauto. }
  destruct (decide (σ y < nl)%nat) as [Hxl|Hxl].
  - pose proof (not_half nl col (σ y) Hxl nl_even Hc Hl) as Ho. rewrite next_left_switch by done.
    destruct (left_open (σ y) true col Hxl Hc Ho) as (Hy' & Hny & Hoy & Hlh). split; [|split; [|done]].
    + apply proper_paint; rewrite ?Hpx; sides.
    + apply Head_path; try done. intros i. rewrite Hlh. specialize (Hl i). tauto.
  - destruct (Nat.odd n) eqn:Hodd; [|lia]. assert (σ y = n - 1)%nat as Hp by lia.
    assert (next_left y = None) as ->. { unfold next_left. by rewrite Hp, Hodd, Nat.eqb_refl. }
    split; [|split; [|done]].
    + apply proper_paint; rewrite ?Hpx; sides.
    + apply Head_none; try done.
      * intros i. rewrite lhalf_paint, (proj2 (Nat.ltb_nlt _ _) Hxl) by done. apply Hl.
      * rewrite <- Hp, paintc_eq. by eexists.
Qed.

Lemma go_left_odd col y d c : proper col -> Nat.odd n = true -> is_Some (col (n - 1)%nat) -> (y < nr)%nat -> rcol col y = None -> rcol col (other_side y) = Some c ->
  (n = 3%nat -> c = false) -> col d = Some c -> (forall i, lhalf col i <-> i = d) -> (forall j, rhalf col j <-> j = other_side y) -> left_step col y.
Proof.
  intros HP Hodd Hlink Hyr Hc Hro H3 Hcd Hl Hr. pose proof sizes as [Hnl Hnr]. rewrite Hodd in *. assert (y < n)%nat as Hy by lia.
  destruct (Hσ y Hy) as [Hx Hpx]. assert (σ y <> n - 1)%nat as Hxn. { intros Heq. unfold rcol in Hc. rewrite Heq in Hc. destruct Hlink; congruence. }
  assert (σ y < nl)%nat as Hxl by lia. unfold left_step. rewrite right_colour_eq, Hro, next_left_switch by done.
  assert (Hrh : forall j, ~ rhalf (paintc (σ y) (negb c) col) j).
  { intros j. rewrite (right_closed (σ y) (negb c) c) by (rewrite ?Hpx; done). rewrite Hpx, Hr. tauto. }
  assert (Hprop : col (other_side (σ y)) <> Some (negb c) -> proper (paintc (σ y) (negb c) col)).
  { intros Ho. apply proper_paint; rewrite ?Hpx; sides. }
  destruct (col (other_side (σ y))) as [c'|] eqn:Ho.
  - pose proof (only_half nl col (σ y) d Hxl nl_even Hc (fun i => proj1 (Hl i)) ltac:(by eexists)) as Hod.
    assert (c' = c) as -> by (rewrite Hod, Hcd in Ho; congruence). split; [apply Hprop; by destruct c|]. split; [|intros Hn3; by rewrite H3].
    apply Head_none; try done.
    + intros i. rewrite (left_closed (σ y) (negb c) c) by done. rewrite Hl, Hod. tauto.
    + by apply paintc_some.
    + pose proof (other_range nl (σ y) nl_even Hxl). split; [lia|]. apply paintc_some. rewrite Ho. by eexists.
  - destruct (left_open (σ y) (negb c) col Hxl Hc Ho) as (Hy' & Hny & Hoy & Hlh). split; [by apply Hprop|]. split; [|intros Hn3; by rewrite H3].
    apply (Head_odd _ _ d (negb c)); try done.
    + by apply paintc_some.
    + rewrite other_involutive. intros ->. unfold rcol in Hc. congruence.
    + rewrite negb_involutive, paintc_ne; [done|]. intros ->. unfold rcol in Hc. congruence.
    + intros i. rewrite Hlh, Hl. tauto.
Qed.

Lemma go_left_even col y d c : proper col -> Nat.even n = true -> is_Some (rcol col (n - 2)%nat) -> (y < nr)%nat -> rcol col y = None -> rcol col (other_side y) = Some c ->
  d <> other_side y -> rcol col d = Some (negb c) -> (forall i, ~ lhalf col i) -> (forall j, rhalf col j <-> j = other_side y \/ j = d) -> left_step col y.
Proof.
  intros HP He Hlink Hyr Hc Hro Hd Hcd Hl Hr. pose proof sizes as [Hnl Hnr]. rewrite <- Nat.negb_even, He in Hnl, Hnr. cbn [negb] in Hnl, Hnr.
  assert (y < n)%nat as Hy by lia. destruct (Hσ y Hy) as [Hx Hpx]. assert (σ y < nl)%nat as Hxl by lia.
  pose proof (not_half nl col (σ y) Hxl nl_even Hc Hl) as Ho.
  unfold left_step. rewrite right_colour_eq, Hro, next_left_switch by done.
  destruct (left_open (σ y) (negb c) col Hxl Hc Ho) as (Hy' & Hny & Hoy & Hlh). split; [|split; [|intros ->; done]].
  - apply proper_paint; rewrite ?Hpx; sides. by rewrite <- Nat.negb_even, He.
  - assert (d < nr)%nat as Hdr by (apply (Hr d); by right). apply (Head_even _ _ d (negb c)); try done.
    + rewrite rcol_paint by lia. destruct (_ =? _)%nat; [by eexists|done].
    + rewrite rcol_paint, Hpx by lia. destruct (Nat.eqb_spec d y) as [->|]; [congruence|done].
    + intros i. rewrite Hlh. specialize (Hl i). tauto.
    + intros j. rewrite (right_closed (σ y) (negb c) c) by (rewrite ?Hpx; done). rewrite Hpx, Hr. naive_solver.
Qed.

Lemma go_left col next y : proper col -> Mid col next -> chosen (rcol col) next y -> left_step col y.
Proof.
  intros HP HM Hch. destruct HM as [next He Hl Hr Hs Hnext|y' Hy' Hc Ho Hr Hl|y' d c Hodd Hs Hy' Hc Ho H3 Hcd Hl Hr|y' d c He Hs Hy' Hc Ho Hd Hcd Hl Hr];
    try (pose proof (chosen_next _ _ _ Hch Hc) as ->).
  - by apply (go_left_fresh col next).
  - by apply go_left_path.
  - by apply (go_left_odd col y' d c).
  - by apply (go_left_even col y' d c).
Qed.

(** The first packet. *)
Definition first_colouring : colouring := paintc (σ (n - 1)%nat) true (fun _ => None).

Lemma go_first : proper first_colouring /\ Head first_colouring (next_left (n - 1)%nat).
Proof.
  destruct (Hσ (n - 1)%nat ltac:(lia)) as [Hx Hpx]. pose proof sizes as [Hnl Hnr]. set (x := σ (n - 1)%nat) in *.
  assert (Hr : forall j, (j < n)%nat -> rcol first_colouring j = if (j =? n - 1)%nat then Some true else None).
  { intros j Hj. unfold first_colouring. fold x. rewrite rcol_paint by done. by rewrite Hpx. }
  assert (Hrh : forall j, ~ rhalf first_colouring j).
  { intros j (Hj & Hs & _). rewrite Hr in Hs by (destruct (Nat.odd n); lia). rewrite (proj2 (Nat.eqb_neq _ _)) in Hs by (destruct (Nat.odd n); lia). by destruct Hs. }
  split.
  - split.
    + intros i c Hi Hc. unfold first_colouring, paintc in *. destruct (Nat.eqb_spec i (σ (n - 1))) as [->|]; [|done].
      by rewrite (proj2 (Nat.eqb_neq _ _) (other_ne _)).
    + intros j c Hj Hoj. rewrite !Hr by done. destruct (Nat.eqb_spec j (n - 1)) as [->|]; [|done]. by rewrite (proj2 (Nat.eqb_neq _ _) (other_ne _)).
    + rewrite Hr by lia. by rewrite Nat.eqb_refl.
    + intros _. unfold first_colouring, paintc. by destruct (_ =? _)%nat.
  - destruct (decide (x < nl)%nat) as [Hxl|Hxl].
    + rewrite next_left_switch by done. fold x. destruct (left_open x true (fun _ => None) Hxl eq_refl eq_refl) as (Hy' & Hny & Hoy & Hlh).
      apply Head_path; try done. intros i. unfold first_colouring. fold x. rewrite Hlh. unfold lhalf, half. split; [intros [(_ & Hs & _)|]; [by destruct Hs|done]|by right].
    + destruct (Nat.odd n) eqn:Hodd; [|lia]. assert (x = n - 1)%nat as Hp by lia. unfold next_left. fold x. rewrite Hodd, Hp, Nat.eqb_refl.
      apply Head_none; try done.
      * intros i (Hi & Hs & _). unfold first_colouring, paintc in Hs. fold x in Hs. rewrite (proj2 (Nat.eqb_neq _ _)) in Hs by lia. by destruct Hs.
      * unfold first_colouring. fold x. rewrite <- Hp, paintc_eq. by eexists.
Qed.

End Colours.
