(* ===== verification/WakLevel.v ===== *)
(** One level of the router: its state follows the colours of the packets, and
    no assertion fails. *)
From Stdlib Require Import ZArith Lia.
From stdpp Require Import base numbers list.
From S2P Require Import Prelude Waksman WakColor.

#[local] Coercion Z.of_nat : nat >-> Z.

Ltac fields := cbn [left_pkt right_pkt intermediate switches topLeft topRight botLeft botRight data src dst routed mark].

(** ** The primitive steps *)

Lemma wr_nat {A} (l : list A) (i : nat) a : (i < length l)%nat -> wr l i a = Ok (<[i := a]> l).
Proof. intros Hi. rewrite wr_Ok by lia. by rewrite Nat2Z.id. Qed.

Lemma mark_left_Ok s i p : left_pkt s !! i = Some p ->
  mark_left i s = Ok {| left_pkt := <[i := mark p]> (left_pkt s); right_pkt := right_pkt s; intermediate := intermediate s; switches := switches s;
    topLeft := topLeft s; topRight := topRight s; botLeft := botLeft s; botRight := botRight s |}.
Proof.
  intros Hi. unfold mark_left. rewrite (rd_lookup _ _ _ Hi), res_bind_Ok, wr_nat by (by apply lookup_lt_Some in Hi). done.
Qed.

Lemma mark_right_Ok s i p : right_pkt s !! i = Some p ->
  mark_right i s = Ok {| left_pkt := left_pkt s; right_pkt := <[i := mark p]> (right_pkt s); intermediate := intermediate s; switches := switches s;
    topLeft := topLeft s; topRight := topRight s; botLeft := botLeft s; botRight := botRight s |}.
Proof.
  intros Hi. unfold mark_right. rewrite (rd_lookup _ _ _ Hi), res_bind_Ok, wr_nat by (by apply lookup_lt_Some in Hi). done.
Qed.

Lemma set_switch_Ok s k b : (k < length (switches s))%nat ->
  set_switch k b s = Ok {| left_pkt := left_pkt s; right_pkt := right_pkt s; intermediate := intermediate s; switches := <[k := Some b]> (switches s);
    topLeft := topLeft s; topRight := topRight s; botLeft := botLeft s; botRight := botRight s |}.
Proof. intros Hk. unfold set_switch. by rewrite wr_nat. Qed.

Lemma set_intermediate_Ok s (z : Z) (k : nat) d : z = k -> (k < length (intermediate s))%nat ->
  set_intermediate z d s = Ok {| left_pkt := left_pkt s; right_pkt := right_pkt s; intermediate := <[k := Some d]> (intermediate s); switches := switches s;
    topLeft := topLeft s; topRight := topRight s; botLeft := botLeft s; botRight := botRight s |}.
Proof. intros -> Hk. unfold set_intermediate. by rewrite wr_nat. Qed.

Lemma require_switch_Ok s k o b : switches s !! k = Some o -> o = None \/ o = Some b ->
  require_switch k b s = Ok {| left_pkt := left_pkt s; right_pkt := right_pkt s; intermediate := intermediate s; switches := <[k := Some b]> (switches s);
    topLeft := topLeft s; topRight := topRight s; botLeft := botLeft s; botRight := botRight s |}.
Proof.
  intros Hk Ho. unfold require_switch. rewrite (rd_lookup (A := switch_t) _ _ _ Hk), res_bind_Ok. destruct Ho as [->| ->].
  - apply set_switch_Ok. by apply lookup_lt_Some in Hk.
  - rewrite Bool.eqb_reflx, list_insert_id by done. by destruct s.
Qed.

Lemma use_switch_Ok s k o : switches s !! k = Some o ->
  use_switch k s = Ok (default false o, {| left_pkt := left_pkt s; right_pkt := right_pkt s; intermediate := intermediate s;
    switches := <[k := Some (default false o)]> (switches s);
    topLeft := topLeft s; topRight := topRight s; botLeft := botLeft s; botRight := botRight s |}).
Proof.
  intros Hk. unfold use_switch. rewrite (rd_lookup (A := switch_t) _ _ _ Hk), res_bind_Ok. destruct o as [b|].
  - cbn. rewrite list_insert_id by done. by destruct s.
  - rewrite set_switch_Ok by (by apply lookup_lt_Some in Hk). done.
Qed.

Lemma pass_Ok (c : bool) p s : (src p < length (if c then botLeft s else topLeft s))%nat -> (dst p < length (if c then botRight s else topRight s))%nat ->
  pass c p s = Ok {| left_pkt := left_pkt s; right_pkt := right_pkt s; intermediate := intermediate s; switches := switches s;
    topLeft := if c then topLeft s else <[src p := Some p]> (topLeft s); topRight := if c then topRight s else <[dst p := Some p]> (topRight s);
    botLeft := if c then <[src p := Some p]> (botLeft s) else botLeft s; botRight := if c then <[dst p := Some p]> (botRight s) else botRight s |}.
Proof. intros Hs Hd. unfold pass. destruct c; rewrite !wr_nat by done; done. Qed.

(** ** Halves *)

Lemma nl_2 n : numLeftVars n = (2 * leftSwitchCt n)%nat.
Proof. unfold numLeftVars. lia. Qed.

Lemma nr_2 n : numRightVars n = (2 * rightSwitchCt n)%nat.
Proof. unfold numRightVars. lia. Qed.

Lemma pair_other i i' : (i / 2 = i' / 2)%nat -> i <> i' -> i' = other_side i.
Proof.
  intros Hd Hne. destruct (other_side_spec i) as (_ & _ & _ & _ & Ho & Hi). destruct (other_side_spec i') as (_ & _ & _ & _ & Ho' & Hi').
  rewrite Ho. rewrite <- Hd in Hi'. destruct (Nat.odd i), (Nat.odd i'); lia.
Qed.

Lemma half_lt i m : (i < 2 * m)%nat -> (i / 2 < m)%nat.
Proof. intros Hi. apply Nat.Div0.div_lt_upper_bound. lia. Qed.

Lemma half_sizes n i : (i < n)%nat -> (i / 2 < bottomSize n)%nat /\ (i / 2 < topSize n \/ (Nat.odd n = true /\ i = n - 1))%nat.
Proof.
  intros Hi. unfold bottomSize, topSize. destruct (Nat.odd n) eqn:Ho.
  - apply Nat.odd_spec in Ho as [k ->]. replace (2 * k + 1 + 1)%nat with ((k + 1) * 2)%nat by lia. rewrite Nat.div_mul by lia.
    replace (2 * k + 1)%nat with (1 + k * 2)%nat by lia. rewrite Nat.div_add by lia. cbn [Nat.div]. split; [apply half_lt; lia|].
    destruct (decide (i = 2 * k)%nat) as [->|]; [right; split; [done|lia]|]. left. change (1 / 2)%nat with 0%nat. apply half_lt. lia.
  - apply (f_equal negb) in Ho. rewrite Nat.negb_odd in Ho. apply Nat.even_spec in Ho as [k ->].
    replace (2 * k + 1)%nat with (1 + k * 2)%nat by lia. rewrite Nat.div_add by lia. rewrite (Nat.mul_comm 2 k), Nat.div_mul by lia.
    change (1 / 2)%nat with 0%nat. split; [apply half_lt; lia|]. left. apply half_lt. lia.
Qed.

Section Level.
Context (n : nat) (Hn : (3 <= n)%nat) (π σ : nat -> nat).
Context (Hπ : forall i, (i < n)%nat -> (π i < n)%nat /\ σ (π i) = i) (Hσ : forall j, (j < n)%nat -> (σ j < n)%nat /\ π (σ j) = j).
Context (d : nat -> data_t) (iv sb : nat) (sws0 : list switch_t) (inter0 : list (option data_t)).

Abbreviation colouring := (nat -> option bool).
Abbreviation nl := (numLeftVars n).
Abbreviation nr := (numRightVars n).
Abbreviation lc := (leftSwitchCt n).
Abbreviation rc := (rightSwitchCt n).
Abbreviation paintc := (paintc).
Abbreviation rcol := (rcol σ).

(** The wires of the level. *)
Definition level_vars : nat := if (n =? 3)%nat then 3 else (nl + nr)%nat.

Context (Hiv : (iv + level_vars <= length inter0)%nat) (Hsb : (sb + lc + rc <= length sws0)%nat).

Definition some (o : option bool) : bool := match o with Some _ => true | None => false end.

(** The wire on which a packet leaves its switch on the left. *)
Definition left_wire (i : nat) (c : bool) : nat := (iv + (2 * (i / 2) + Nat.b2n c))%nat.
Definition right_wire (j : nat) (c : bool) : nat := (iv + (nl + (2 * (j / 2) + Nat.b2n c)))%nat.

(** The wire the network has for it; with three packets, the top input on the
    right is the top output on the left. *)
Definition right_slot (j : nat) (c : bool) : nat := if (n =? 3)%nat then (iv + 2)%nat else right_wire j c.

Definition sub_packet (i : nat) : packet_t := {| data := d i; src := (i / 2)%nat; dst := (π i / 2)%nat; routed := false |}.

Record follows (s : routing) (col : colouring) : Prop := {
  fo_left : forall i, (i < n)%nat -> left_pkt s !! i = Some {| data := d i; src := i; dst := π i; routed := some (col i) |};
  fo_right : forall j, (j < n)%nat -> right_pkt s !! j = Some {| data := d (σ j); src := σ j; dst := j; routed := some (rcol col j) |};
  fo_lengths : length (left_pkt s) = n /\ length (right_pkt s) = n /\ length (switches s) = length sws0 /\ length (intermediate s) = length inter0 /\
    length (topLeft s) = topSize n /\ length (topRight s) = topSize n /\ length (botLeft s) = bottomSize n /\ length (botRight s) = bottomSize n;
  fo_lsw : forall k, (k < lc)%nat -> switches s !! (sb + k)%nat = Some (setting (col (2 * k)%nat) (col (2 * k + 1)%nat));
  fo_rsw : forall k, (k < rc)%nat -> switches s !! (sb + lc + k)%nat = Some (setting (rcol col (2 * k)%nat) (rcol col (2 * k + 1)%nat));
  fo_sw : forall k, (k < sb \/ sb + lc + rc <= k)%nat -> switches s !! k = sws0 !! k;
  fo_lint : forall i c, (i < nl)%nat -> col i = Some c -> intermediate s !! left_wire i c = Some (Some (d i));
  fo_rint : forall j c, (j < nr)%nat -> rcol col j = Some c -> (n = 3%nat -> c = true) -> intermediate s !! right_slot j c = Some (Some (d (σ j)));
  fo_int : forall k, (k < iv \/ iv + level_vars <= k)%nat -> intermediate s !! k = inter0 !! k;
  fo_sub : forall i c, (i < n)%nat -> col i = Some c ->
    (if c then botLeft s else topLeft s) !! (i / 2)%nat = Some (Some (sub_packet i)) /\
    (if c then botRight s else topRight s) !! (π i / 2)%nat = Some (Some (sub_packet i))
}.

(** The state after a packet. *)
Definition paint (i : nat) (c : bool) (ri : nat) (s : routing) : routing := {|
  left_pkt := <[i := {| data := d i; src := i; dst := π i; routed := true |}]> (left_pkt s);
  right_pkt := <[π i := {| data := d i; src := i; dst := π i; routed := true |}]> (right_pkt s);
  intermediate := (if (π i <? nr)%nat then <[ri := Some (d i)]> else id) ((if (i <? nl)%nat then <[left_wire i c := Some (d i)]> else id) (intermediate s));
  switches := (if (π i <? nr)%nat then <[(sb + lc + π i / 2)%nat := Some (xorb (Nat.odd (π i)) c)]> else id)
    ((if (i <? nl)%nat then <[(sb + i / 2)%nat := Some (xorb (Nat.odd i) c)]> else id) (switches s));
  topLeft := if c then topLeft s else <[(i / 2)%nat := Some (sub_packet i)]> (topLeft s);
  topRight := if c then topRight s else <[(π i / 2)%nat := Some (sub_packet i)]> (topRight s);
  botLeft := if c then <[(i / 2)%nat := Some (sub_packet i)]> (botLeft s) else botLeft s;
  botRight := if c then <[(π i / 2)%nat := Some (sub_packet i)]> (botRight s) else botRight s
|}.

(** Where the right wire is written. *)
Definition wire_ok (col : colouring) (i : nat) (c : bool) (ri : nat) : Prop :=
  if (n =? 3)%nat then ri = (iv + 2)%nat /\ (c = false -> rcol col (other_side (π i)) = None) else ri = right_wire (π i) c.

Lemma left_wires i c : (i < nl)%nat -> (iv <= left_wire i c < iv + nl)%nat.
Proof. clear Hiv Hsb. intros Hi. unfold left_wire. pose proof (half_lt i lc ltac:(by rewrite <- nl_2)). rewrite nl_2 in *. destruct c; cbn [Nat.b2n]; lia. Qed.

Lemma right_wires j c : (j < nr)%nat -> (iv + nl <= right_wire j c < iv + nl + nr)%nat.
Proof. clear Hiv Hsb. intros Hj. unfold right_wire. pose proof (half_lt j rc ltac:(by rewrite <- nr_2)). rewrite nr_2 in *. destruct c; cbn [Nat.b2n]; lia. Qed.

Lemma three : n = 3%nat -> nl = 2%nat /\ nr = 2%nat.
Proof. clear. by intros ->. Qed.

Lemma level_large : (nl <= level_vars)%nat /\ (n <> 3%nat -> level_vars = nl + nr)%nat.
Proof. clear. unfold level_vars. destruct (Nat.eqb_spec n 3) as [->|]; [cbn; lia|lia]. Qed.

(** Two packets of one colour are at different switches. *)
Lemma same_pair_left col i i' c : proper n σ col -> (i < n)%nat -> (i' < n)%nat -> col i = Some c -> col i' = Some c -> (i / 2 = i' / 2)%nat -> i = i'.
Proof. clear Hiv Hsb.
  intros HP Hi Hi' Hc Hc' Hd. destruct (decide (i = i')) as [|Hne]; [done|]. exfalso. pose proof (pair_other i i' Hd Hne) as ->.
  pose proof (proj1 (sizes n Hn)) as Hnl. destruct (decide (i < nl)%nat) as [Hl|Hl]; [by apply (pr_left _ _ _ HP i c)|].
  destruct (Nat.odd n) eqn:Ho; [|lia]. assert (i = n - 1)%nat as -> by lia. apply Nat.odd_spec in Ho as [k Hk].
  unfold other_side in Hi'. replace (n - 1)%nat with (2 * k)%nat in Hi' by lia. rewrite Nat.odd_even in Hi'. lia.
Qed.

Lemma same_pair_right col j j' c : proper n σ col -> (j < n)%nat -> (j' < n)%nat -> rcol col j = Some c -> rcol col j' = Some c -> (j / 2 = j' / 2)%nat -> j = j'.
Proof. clear Hiv Hsb.
  intros HP Hj Hj' Hc Hc' Hd. destruct (decide (j = j')) as [|Hne]; [done|]. exfalso. pose proof (pair_other j j' Hd Hne) as ->.
  by apply (pr_right _ _ _ HP j c).
Qed.

(** A top packet is not the last of an odd number. *)
Lemma sub_bounds col i c : proper n σ col -> (i < n)%nat -> col i = Some c ->
  (i / 2 < if c then bottomSize n else topSize n)%nat /\ (π i / 2 < if c then bottomSize n else topSize n)%nat.
Proof. clear Hiv Hsb.
  intros HP Hi Hc. destruct (Hπ i Hi) as [Hp Hs]. destruct (half_sizes n i Hi) as [Hb Ht]. destruct (half_sizes n (π i) Hp) as [Hb' Ht'].
  destruct c; [done|]. split.
  - destruct Ht as [|[Ho ->]]; [done|]. exfalso. by apply (pr_link _ _ _ HP Ho).
  - destruct Ht' as [|[Ho Heq]]; [done|]. exfalso. pose proof (pr_last _ _ _ HP) as Hl. unfold WakColor.rcol in Hl. rewrite <- Heq, Hs, Hc in Hl. done.
Qed.

Lemma cond_insert_length {A} (b : bool) (k : nat) (x : A) (l : list A) : length ((if b then <[k := x]> else id) l) = length l.
Proof. clear Hiv Hsb. destruct b; [by rewrite length_insert|done]. Qed.

Lemma cond_insert_ne {A} (b : bool) (k k' : nat) (x : A) (l : list A) : (b = true -> k <> k') -> (if b then <[k := x]> else id) l !! k' = l !! k'.
Proof. clear Hiv Hsb. destruct b; intros Hk; [|done]. by rewrite list_lookup_insert_ne by auto. Qed.

Lemma setting_paint (f : colouring) k x c : f x = None ->
  (if (k =? x / 2)%nat then match f (other_side x) with Some c' => c = negb c' | None => True end else True) ->
  setting (if (2 * k =? x)%nat then Some c else f (2 * k)%nat) (if (2 * k + 1 =? x)%nat then Some c else f (2 * k + 1)%nat) =
  if (k =? x / 2)%nat then Some (xorb (Nat.odd x) c) else setting (f (2 * k)%nat) (f (2 * k + 1)%nat).
Proof. clear Hiv Hsb.
  intros Hx. destruct (other_side_spec x) as (_ & _ & _ & _ & Ho & Hx'). destruct (Nat.eqb_spec k (x / 2)) as [->|Hk]; intros Hc.
  - destruct (Nat.odd x).
    + rewrite Nat.add_0_r in Ho. rewrite <- Hx', <- Ho, Nat.eqb_refl, (proj2 (Nat.eqb_neq _ _)) by (apply other_ne).
      destruct (f (other_side x)) as [c'|]; cbn; [subst c; by destruct c'|done].
    + rewrite Nat.add_0_r in Hx'. rewrite <- Ho, <- Hx', Nat.eqb_refl. cbn. by destruct c.
  - rewrite !(proj2 (Nat.eqb_neq _ _)); [done|..]; intros Heq; apply Hk.
    + rewrite <- Heq. rewrite Nat.add_comm, (Nat.mul_comm 2), Nat.div_add by lia. done.
    + rewrite <- Heq. rewrite (Nat.mul_comm 2), Nat.div_mul by lia. done.
Qed.

Lemma proper_setting m (f : colouring) x c k : f x = None ->
  (other_side x < m -> f (other_side x) <> Some c)%nat -> (x < m)%nat -> Nat.even m = true ->
  if (k =? x / 2)%nat then match f (other_side x) with Some c' => c = negb c' | None => True end else True.
Proof. clear Hiv Hsb.
  intros Hx Ho Hm He. destruct (k =? x / 2)%nat; [|done]. specialize (Ho (other_range m x He Hm)).
  destruct (f (other_side x)) as [c'|]; [|done]. destruct c, c'; done.
Qed.

Lemma painted_switches s col i c ri : follows s col -> proper n σ (paintc i c col) -> (i < n)%nat -> col i = None ->
  (forall k, (k < lc)%nat -> switches (paint i c ri s) !! (sb + k)%nat = Some (setting (paintc i c col (2 * k)%nat) (paintc i c col (2 * k + 1)%nat))) /\
  (forall k, (k < rc)%nat -> switches (paint i c ri s) !! (sb + lc + k)%nat = Some (setting (rcol (paintc i c col) (2 * k)%nat) (rcol (paintc i c col) (2 * k + 1)%nat))).
Proof.
  intros HF HP Hi Hc. destruct (Hπ i Hi) as [Hpi Hsi]. pose proof (sizes n Hn) as [Hnl Hnr]. pose proof (fo_lengths _ _ HF) as (_ & _ & Hlen & _).
  assert (nr <= n /\ nl <= n)%nat as [Hnrn Hnln] by (destruct (Nat.odd n); lia). split; intros k Hk; cbn [paint switches].
  - rewrite cond_insert_ne.
    2:{ intros Hr%Nat.ltb_lt. lia. }
    assert (Hset : (i < nl)%nat -> setting (paintc i c col (2 * k)%nat) (paintc i c col (2 * k + 1)%nat) =
      if (k =? i / 2)%nat then Some (xorb (Nat.odd i) c) else setting (col (2 * k)%nat) (col (2 * k + 1)%nat)).
    { intros Hil. unfold WakColor.paintc. apply setting_paint; [done|]. apply (proper_setting nl); [done| |done|apply nl_even].
      intros Ho Heq. apply (pr_left _ _ _ HP i c Hil); [apply paintc_eq|]. rewrite paintc_ne; [done|apply other_ne]. }
    destruct (Nat.ltb_spec i nl) as [Hil|Hil].
    + rewrite Hset by done. destruct (Nat.eqb_spec k (i / 2)) as [->|Hki].
      * apply list_lookup_insert_eq. rewrite Hlen. lia.
      * rewrite list_lookup_insert_ne by lia. by apply (fo_lsw _ _ HF).
    + cbn [id]. unfold WakColor.paintc. rewrite nl_2 in *. rewrite !(proj2 (Nat.eqb_neq _ _)) by lia. by apply (fo_lsw _ _ HF).
  - rewrite !(rcol_paint n π σ Hπ Hσ) by (first [done | rewrite nr_2 in *; lia]).
    destruct (Nat.ltb_spec (π i) nr) as [Hil|Hil].
    + assert (rcol col (π i) = None) as Hrc by (unfold WakColor.rcol; by rewrite Hsi).
      rewrite setting_paint; [|done|apply (proper_setting nr); [done| |done|apply nr_even]].
      2:{ intros Ho Heq. apply (pr_right _ _ _ HP (π i) c Hpi); [lia|by rewrite (rcol_paint n π σ Hπ Hσ), Nat.eqb_refl|].
          rewrite (rcol_paint n π σ Hπ Hσ), (proj2 (Nat.eqb_neq _ _) (other_ne _)) by lia. done. }
      destruct (Nat.eqb_spec k (π i / 2)) as [->|Hki].
      * apply list_lookup_insert_eq. rewrite cond_insert_length, Hlen. lia.
      * rewrite list_lookup_insert_ne by lia. rewrite cond_insert_ne; [by apply (fo_rsw _ _ HF)|].
        intros Hl%Nat.ltb_lt. pose proof (half_lt i lc ltac:(by rewrite <- nl_2)). lia.
    + cbn [id]. rewrite nr_2 in *. rewrite !(proj2 (Nat.eqb_neq _ _)) by lia. rewrite cond_insert_ne; [by apply (fo_rsw _ _ HF)|].
      intros Hl%Nat.ltb_lt. pose proof (half_lt i lc ltac:(by rewrite <- nl_2)). lia.
Qed.

Lemma painted_wires s col i c ri : follows s col -> proper n σ (paintc i c col) -> (i < n)%nat -> col i = None -> ((π i < nr)%nat -> wire_ok col i c ri) ->
  (forall i' c', (i' < nl)%nat -> paintc i c col i' = Some c' -> intermediate (paint i c ri s) !! left_wire i' c' = Some (Some (d i'))) /\
  (forall j c', (j < nr)%nat -> rcol (paintc i c col) j = Some c' -> (n = 3%nat -> c' = true) -> intermediate (paint i c ri s) !! right_slot j c' = Some (Some (d (σ j)))).
Proof.
  intros HF HP Hi Hc Hri. destruct (Hπ i Hi) as [Hpi Hsi]. pose proof (sizes n Hn) as [Hnl Hnr]. pose proof (fo_lengths _ _ HF) as (_ & _ & _ & Hlen & _).
  pose proof level_large as [Hv1 Hv2]. assert (nr <= n /\ nl <= n)%nat as [Hnrn Hnln] by (destruct (Nat.odd n); lia).
  assert (Hrange : (π i < nr)%nat -> (iv + nl <= ri < iv + level_vars)%nat).
  { intros Hr. specialize (Hri Hr). unfold wire_ok in Hri. unfold level_vars. destruct (Nat.eqb_spec n 3) as [H3|H3].
    - pose proof (three H3) as [-> _]. lia.
    - subst ri. pose proof (right_wires (π i) c Hr). lia. }
  split.
  - intros i' c' Hi' Hc'. pose proof (left_wires i' c' Hi') as Hw. cbn [paint intermediate].
    rewrite cond_insert_ne by (intros Hr%Nat.ltb_lt; specialize (Hrange Hr); lia).
    destruct (decide (i' = i)) as [->|Hne].
    + rewrite paintc_eq in Hc'. injection Hc' as <-. rewrite (proj2 (Nat.ltb_lt _ _) Hi'). apply list_lookup_insert_eq. rewrite Hlen. lia.
    + rewrite cond_insert_ne.
      * rewrite paintc_ne in Hc' by done. by apply (fo_lint _ _ HF).
      * intros Hl%Nat.ltb_lt Heq. apply Hne. unfold left_wire in Heq.
        assert (c = c') as <- by (destruct c, c'; cbn [Nat.b2n] in Heq; done || lia).
        apply (same_pair_left (paintc i c col) i' i c); try done; [lia|apply paintc_eq|lia].
  - intros j c' Hj Hc' H3. assert (Hjn : (j < n)%nat) by lia. rewrite (rcol_paint n π σ Hπ Hσ) in Hc' by done. destruct (Nat.eqb_spec j (π i)) as [->|Hne].
    + injection Hc' as <-. rewrite Hsi. cbn [paint intermediate]. rewrite (proj2 (Nat.ltb_lt _ _) Hj). specialize (Hrange Hj). specialize (Hri Hj).
      assert (ri = right_slot (π i) c) as <-. { unfold wire_ok, right_slot in *. destruct (n =? 3)%nat; [by destruct Hri|done]. }
      apply list_lookup_insert_eq. rewrite cond_insert_length, Hlen. lia.
    + pose proof (fo_rint _ _ HF j c' Hj Hc' H3) as Hold. cbn [paint intermediate]. rewrite !cond_insert_ne; [done| |].
      * intros Hl%Nat.ltb_lt. pose proof (left_wires i c Hl). unfold right_slot. destruct (Nat.eqb_spec n 3) as [He|He].
        -- pose proof (three He) as [Hnl2 _]. lia.
        -- pose proof (right_wires j c' Hj). lia.
      * intros Hr%Nat.ltb_lt. specialize (Hri Hr). unfold wire_ok, right_slot in *. destruct (Nat.eqb_spec n 3) as [He|He].
        -- specialize (H3 He). subst c'. exfalso. pose proof (three He) as [_ Hnr2]. assert (j = other_side (π i)) as Hjo.
           { apply pair_other; [|done]. rewrite Hnr2 in *. destruct (π i) as [|[|]], j as [|[|]]; try lia; done. }
           destruct Hri as [_ Hri]. destruct c; [|rewrite <- Hjo in Hri; rewrite Hri in Hc'; done].
           apply (pr_right _ _ _ HP (π i) true Hpi); [by rewrite <- Hjo|by rewrite (rcol_paint n π σ Hπ Hσ), Nat.eqb_refl|].
           rewrite (rcol_paint n π σ Hπ Hσ) by (done || by rewrite <- Hjo). rewrite <- Hjo, (proj2 (Nat.eqb_neq j _)) by done. done.
        -- rewrite Hri. unfold right_wire. intros Heq. apply Hne.
           assert (c = c') as <- by (destruct c, c'; cbn [Nat.b2n] in Heq; done || lia).
           apply (same_pair_right (paintc i c col) j (π i) c); try done; [| |lia].
           ++ by rewrite (rcol_paint n π σ Hπ Hσ), (proj2 (Nat.eqb_neq _ _) Hne).
           ++ by rewrite (rcol_paint n π σ Hπ Hσ), Nat.eqb_refl.
Qed.

Lemma painted_sub s col i c ri i' c' : follows s col -> proper n σ (paintc i c col) -> (i < n)%nat -> (i' < n)%nat -> paintc i c col i' = Some c' ->
  (if c' then botLeft (paint i c ri s) else topLeft (paint i c ri s)) !! (i' / 2)%nat = Some (Some (sub_packet i')) /\
  (if c' then botRight (paint i c ri s) else topRight (paint i c ri s)) !! (π i' / 2)%nat = Some (Some (sub_packet i')).
Proof.
  intros HF HP Hi Hi' Hc'. pose proof (fo_lengths _ _ HF) as (_ & _ & _ & _ & L1 & L2 & L3 & L4). destruct (Hπ i Hi) as [Hpi Hsi]. destruct (Hπ i' Hi') as [Hpi' Hsi'].
  pose proof (sub_bounds _ i' c' HP Hi' Hc') as [Hb1 Hb2]. destruct (decide (i' = i)) as [->|Hne].
  - rewrite paintc_eq in Hc'. injection Hc' as <-. cbn [paint topLeft topRight botLeft botRight].
    destruct c; split; apply list_lookup_insert_eq; lia.
  - pose proof Hc' as Hold. rewrite paintc_ne in Hold by done. pose proof (fo_sub _ _ HF i' c' Hi' Hold) as [HL HR]. cbn [paint topLeft topRight botLeft botRight].
    assert (Hd : c = c' -> (i / 2 <> i' / 2 /\ π i / 2 <> π i' / 2)%nat).
    { intros ->. split; intros Heq; apply Hne.
      - symmetry. apply (same_pair_left (paintc i c' col) i i' c'); try done. apply paintc_eq.
      - rewrite <- Hsi, <- Hsi'. f_equal. symmetry. apply (same_pair_right (paintc i c' col) (π i) (π i') c'); try done.
        + by rewrite (rcol_paint n π σ Hπ Hσ), Nat.eqb_refl.
        + unfold WakColor.rcol. by rewrite Hsi'. }
    destruct c, c'; try (destruct (Hd eq_refl) as [D1 D2]; rewrite !list_lookup_insert_ne by done); done.
Qed.

Lemma follows_paint s col i c ri : follows s col -> proper n σ (paintc i c col) -> (i < n)%nat -> col i = None -> ((π i < nr)%nat -> wire_ok col i c ri) ->
  follows (paint i c ri s) (paintc i c col).
Proof.
  intros HF HP Hi Hc Hri. destruct (Hπ i Hi) as [Hpi Hsi]. pose proof (sizes n Hn) as [Hnl Hnr].
  pose proof (fo_lengths _ _ HF) as (L0 & L0' & L1 & L2 & L3 & L4 & L5 & L6). pose proof level_large as [Hv1 Hv2].
  destruct (painted_switches s col i c ri HF HP Hi Hc) as [HS1 HS2]. destruct (painted_wires s col i c ri HF HP Hi Hc Hri) as [HW1 HW2].
  split; try done.
  - intros i' Hi'. cbn [paint left_pkt]. unfold WakColor.paintc. destruct (Nat.eqb_spec i' i) as [->|Hne].
    + apply list_lookup_insert_eq. lia.
    + rewrite list_lookup_insert_ne by done. by apply (fo_left _ _ HF).
  - intros j Hj. cbn [paint right_pkt]. rewrite (rcol_paint n π σ Hπ Hσ) by done. destruct (Nat.eqb_spec j (π i)) as [->|Hne].
    + rewrite list_lookup_insert_eq by lia. by rewrite Hsi.
    + rewrite list_lookup_insert_ne by done. by apply (fo_right _ _ HF).
  - cbn [paint left_pkt right_pkt switches intermediate topLeft topRight botLeft botRight]. rewrite !cond_insert_length, !length_insert.
    destruct c; rewrite ?length_insert; done.
  - intros k Hk. cbn [paint switches]. rewrite !cond_insert_ne; [by apply (fo_sw _ _ HF)|..].
    + intros Hl%Nat.ltb_lt. pose proof (half_lt i lc ltac:(by rewrite <- nl_2)). lia.
    + intros Hl%Nat.ltb_lt. pose proof (half_lt (π i) rc ltac:(by rewrite <- nr_2)). lia.
  - intros k Hk. cbn [paint intermediate]. rewrite !cond_insert_ne; [by apply (fo_int _ _ HF)|..].
    + intros Hl%Nat.ltb_lt. pose proof (left_wires i c Hl). lia.
    + intros Hr%Nat.ltb_lt. specialize (Hri Hr). unfold wire_ok, level_vars in *. destruct (Nat.eqb_spec n 3) as [H3|H3].
      * lia.
      * pose proof (right_wires (π i) c Hr). lia.
  - intros i' c' Hi' Hc'. by apply painted_sub with col.
Qed.

(** *** The packet that goes right *)

Lemma chosen_switch (b : bool) x : (Nat.even x && b || Nat.odd x && negb b)%bool = xorb (Nat.odd x) b.
Proof. clear Hiv Hsb. rewrite <- Nat.negb_odd. by destruct (Nat.odd x), b. Qed.

Lemma offset_wire x (c : bool) : (Z.of_nat x + offset x (xorb (Nat.odd x) c))%Z = Z.of_nat (2 * (x / 2) + Nat.b2n c).
Proof. clear Hiv Hsb.
  destruct (other_side_spec x) as (_ & _ & _ & _ & _ & Hx). unfold offset. rewrite <- Nat.negb_odd.
  destruct (Nat.odd x), c; cbn [andb negb xorb Nat.b2n]; lia.
Qed.

Lemma offset_wire' x (c : bool) : (Z.of_nat x + (if xorb (Nat.odd x) c then if Nat.odd x then -1 else 1 else 0))%Z = Z.of_nat (2 * (x / 2) + Nat.b2n c).
Proof. clear Hiv Hsb.
  destruct (other_side_spec x) as (_ & _ & _ & _ & _ & Hx). destruct (Nat.odd x), c; cbn [xorb Nat.b2n]; lia.
Qed.

Lemma at_link_left x : (x < n)%nat -> ((x =? n - 1)%nat && Nat.odd n) = negb (x <? nl)%nat.
Proof. clear Hiv Hsb.
  intros Hx. pose proof (sizes n Hn) as [Hnl _]. destruct (Nat.odd n); [rewrite andb_true_r|rewrite andb_false_r].
  - destruct (Nat.eqb_spec x (n - 1)); destruct (Nat.ltb_spec x nl); done || lia.
  - destruct (Nat.ltb_spec x nl); done || lia.
Qed.

Lemma at_link_right y : (y < n)%nat -> ((y =? n - 1)%nat || ((y =? n - 2)%nat && Nat.even n)) = negb (y <? nr)%nat.
Proof. clear Hiv Hsb.
  intros Hy. pose proof (sizes n Hn) as [_ Hnr]. rewrite <- Nat.negb_odd. destruct (Nat.odd n); cbn [negb]; [rewrite andb_false_r, orb_false_r|rewrite andb_true_r].
  - destruct (Nat.eqb_spec y (n - 1)); destruct (Nat.ltb_spec y nr); done || lia.
  - destruct (Nat.eqb_spec y (n - 1)), (Nat.eqb_spec y (n - 2)); destruct (Nat.ltb_spec y nr); done || lia.
Qed.

(** A switch that the packet leaves, and one that it enters. *)
Lemma leave_left s (col : colouring) x dt : (x < n)%nat -> left_colour n col x = (if (x <? nl)%nat then xorb (Nat.odd x) (default false (setting (col (2 * (x / 2))%nat) (col (2 * (x / 2) + 1)%nat))) else true) ->
  ((x < nl)%nat -> switches s !! (sb + x / 2)%nat = Some (setting (col (2 * (x / 2))%nat) (col (2 * (x / 2) + 1)%nat))) ->
  length (intermediate s) = length inter0 ->
  let c := left_colour n col x in
  (if (x =? n - 1)%nat && Nat.odd n then Ok (true, s)
   else u ← use_switch (sb + x / 2)%nat s; let '(sw, s) := u in
        s ← set_intermediate (Z.of_nat iv + (Z.of_nat x + offset x sw)) dt s;
        Ok ((Nat.even x && sw) || (Nat.odd x && negb sw), s)) =
  Ok (c, {| left_pkt := left_pkt s; right_pkt := right_pkt s;
    intermediate := (if (x <? nl)%nat then <[left_wire x c := Some dt]> else id) (intermediate s);
    switches := (if (x <? nl)%nat then <[(sb + x / 2)%nat := Some (xorb (Nat.odd x) c)]> else id) (switches s);
    topLeft := topLeft s; topRight := topRight s; botLeft := botLeft s; botRight := botRight s |}).
Proof.
  intros Hx Hc Hsw Hlen. cbn zeta. rewrite at_link_left by done. destruct (Nat.ltb_spec x nl) as [Hxl|Hxl]; cbn [negb].
  - rewrite (use_switch_Ok _ _ _ (Hsw Hxl)), res_bind_Ok. set (o := default false (setting _ _)) in *.
    assert (o = xorb (Nat.odd x) (left_colour n col x)) as -> by (rewrite Hc; by destruct (Nat.odd x), o).
    rewrite offset_wire. rewrite (set_intermediate_Ok _ _ (left_wire x (left_colour n col x))).
    + fields. rewrite res_bind_Ok, chosen_switch. do 2 f_equal. by destruct (Nat.odd x), (left_colour n col x).
    + unfold left_wire. lia.
    + fields. rewrite Hlen. pose proof (left_wires x (left_colour n col x) Hxl). pose proof level_large as [? _]. lia.
  - rewrite Hc. cbn [id]. by destruct s.
Qed.

Lemma enter_left s x c dt : (x < n)%nat -> ((x < nl)%nat -> exists o, switches s !! (sb + x / 2)%nat = Some o /\ (o = None \/ o = Some (xorb (Nat.odd x) c))) ->
  length (intermediate s) = length inter0 ->
  (if (x =? n - 1)%nat && Nat.odd n then Ok (None, s)
   else s ← require_switch (sb + x / 2)%nat (xorb (Nat.odd x) c) s;
        s ← set_intermediate (Z.of_nat iv + (Z.of_nat x + (if xorb (Nat.odd x) c then if Nat.odd x then -1 else 1 else 0)))%Z dt s;
        Ok (Some (other_side x), s)) =
  Ok (if (x <? nl)%nat then Some (other_side x) else None, {| left_pkt := left_pkt s; right_pkt := right_pkt s;
    intermediate := (if (x <? nl)%nat then <[left_wire x c := Some dt]> else id) (intermediate s);
    switches := (if (x <? nl)%nat then <[(sb + x / 2)%nat := Some (xorb (Nat.odd x) c)]> else id) (switches s);
    topLeft := topLeft s; topRight := topRight s; botLeft := botLeft s; botRight := botRight s |}).
Proof.
  intros Hx Hsw Hlen. rewrite at_link_left by done. destruct (Nat.ltb_spec x nl) as [Hxl|Hxl]; cbn [negb]; [|cbn [id]; by destruct s].
  destruct (Hsw Hxl) as (o & Ho & Hb). rewrite (require_switch_Ok _ _ _ _ Ho Hb), res_bind_Ok, offset_wire'.
  rewrite (set_intermediate_Ok _ _ (left_wire x c)); [done| |].
  - unfold left_wire. lia.
  - fields. rewrite Hlen. pose proof (left_wires x c Hxl). pose proof level_large as [? _]. lia.
Qed.

Lemma right_in_bounds (s : routing) y c : (y < nr)%nat -> (n = 3%nat -> c = false) -> length (intermediate s) = length inter0 -> (right_wire y c < length (intermediate s))%nat.
Proof.
  intros Hy H3 Hlen. rewrite Hlen. pose proof (right_wires y c Hy). pose proof level_large as [_ Hv]. destruct (decide (n = 3%nat)) as [He|He]; [|specialize (Hv He); lia].
  rewrite (H3 He). pose proof (three He) as [Hnl2 Hnr2]. assert (level_vars = 3%nat) as Hv3 by (unfold level_vars; by rewrite He).
  unfold right_wire. pose proof (half_lt y 1 ltac:(lia)). cbn [Nat.b2n]. lia.
Qed.

Lemma enter_right s y c dt : (y < n)%nat -> (n = 3%nat -> c = false) ->
  ((y < nr)%nat -> exists o, switches s !! (sb + lc + y / 2)%nat = Some o /\ (o = None \/ o = Some (xorb (Nat.odd y) c))) ->
  length (intermediate s) = length inter0 ->
  (if (y =? n - 1)%nat || ((y =? n - 2)%nat && Nat.even n) then Ok (None, s)
   else s ← require_switch (sb + lc + y / 2)%nat (xorb (Nat.odd y) c) s;
        s ← set_intermediate (Z.of_nat iv + (Z.of_nat nl + Z.of_nat y + (if xorb (Nat.odd y) c then if Nat.odd y then -1 else 1 else 0)))%Z dt s;
        Ok (Some (other_side y), s)) =
  Ok (if (y <? nr)%nat then Some (other_side y) else None, {| left_pkt := left_pkt s; right_pkt := right_pkt s;
    intermediate := (if (y <? nr)%nat then <[right_wire y c := Some dt]> else id) (intermediate s);
    switches := (if (y <? nr)%nat then <[(sb + lc + y / 2)%nat := Some (xorb (Nat.odd y) c)]> else id) (switches s);
    topLeft := topLeft s; topRight := topRight s; botLeft := botLeft s; botRight := botRight s |}).
Proof.
  intros Hy H3 Hsw Hlen. rewrite at_link_right by done. destruct (Nat.ltb_spec y nr) as [Hyr|Hyr]; cbn [negb]; [|cbn [id]; by destruct s].
  destruct (Hsw Hyr) as (o & Ho & Hb). rewrite (require_switch_Ok _ _ _ _ Ho Hb), res_bind_Ok.
  rewrite <- Z.add_assoc, offset_wire'. rewrite (set_intermediate_Ok _ _ (right_wire y c)); [done| |].
  - unfold right_wire. lia.
  - by apply right_in_bounds.
Qed.

Lemma setting_half (f : colouring) x : f x = None ->
  setting (f (2 * (x / 2))%nat) (f (2 * (x / 2) + 1)%nat) = match f (other_side x) with Some c => Some (xorb (Nat.odd x) (negb c)) | None => None end.
Proof.
  clear. intros Hx. destruct (other_side_spec x) as (_ & _ & _ & _ & Ho & Hx'). destruct (Nat.odd x).
  - rewrite Nat.add_0_r in Ho. rewrite <- Hx', <- Ho, Hx. destruct (f (other_side x)) as [c|]; [|done]. by destruct c.
  - rewrite Nat.add_0_r in Hx'. rewrite <- Ho, <- Hx', Hx. destruct (f (other_side x)) as [c|]; [|done]. by destruct c.
Qed.

(** The switch on the way in is not set, or set by the packet beside. *)
Lemma right_switch s col x c : follows s col -> proper n σ (paintc x c col) -> (x < n)%nat -> col x = None -> (π x < nr)%nat ->
  exists o, switches s !! (sb + lc + π x / 2)%nat = Some o /\ (o = None \/ o = Some (xorb (Nat.odd (π x)) c)).
Proof.
  intros HF HP Hx Hc Hpr. destruct (Hπ x Hx) as [Hpx Hsx]. pose proof (half_lt (π x) rc ltac:(by rewrite <- nr_2)) as Hh.
  exists (setting (rcol col (2 * (π x / 2))%nat) (rcol col (2 * (π x / 2) + 1)%nat)). split; [by apply (fo_rsw _ _ HF)|].
  rewrite setting_half by (unfold WakColor.rcol; by rewrite Hsx). destruct (rcol col (other_side (π x))) as [c'|] eqn:Ho; [right|by left].
  pose proof (other_range nr (π x) (nr_even n) Hpr). pose proof (proj2 (sizes n Hn)) as Hnr. assert (nr <= n)%nat by (destruct (Nat.odd n); lia).
  pose proof (pr_right _ _ _ HP (π x) c Hpx ltac:(lia)) as Hne. rewrite !(rcol_paint n π σ Hπ Hσ), Nat.eqb_refl, (proj2 (Nat.eqb_neq _ _) (other_ne _)), Ho in Hne by lia.
  specialize (Hne eq_refl). destruct c, c'; done.
Qed.

Lemma left_switch s col x c : follows s col -> proper n σ (paintc x c col) -> (x < n)%nat -> col x = None -> (x < nl)%nat ->
  exists o, switches s !! (sb + x / 2)%nat = Some o /\ (o = None \/ o = Some (xorb (Nat.odd x) c)).
Proof.
  intros HF HP Hx Hc Hxl. pose proof (half_lt x lc ltac:(by rewrite <- nl_2)) as Hh.
  exists (setting (col (2 * (x / 2))%nat) (col (2 * (x / 2) + 1)%nat)). split; [by apply (fo_lsw _ _ HF)|].
  rewrite setting_half by done. destruct (col (other_side x)) as [c'|] eqn:Ho; [right|by left].
  pose proof (pr_left _ _ _ HP x c Hxl (paintc_eq x c col)) as Hne. rewrite paintc_ne, Ho in Hne by (apply other_ne). destruct c, c'; done.
Qed.

Lemma colour_cases col x : (x < n)%nat -> left_colour n col x =
  (if (x <? nl)%nat then xorb (Nat.odd x) (default false (setting (col (2 * (x / 2))%nat) (col (2 * (x / 2) + 1)%nat))) else true).
Proof. intros Hx. unfold left_colour. rewrite at_link_left by done. by destruct (x <? nl)%nat. Qed.

Lemma left_to_right_Ok s col x : follows s col -> proper n σ (paintc x (left_colour n col x) col) -> (x < n)%nat -> col x = None ->
  (n = 3%nat -> left_colour n col x = false) ->
  left_to_right n iv sb x s = Ok (next_right n π x, paint x (left_colour n col x) (right_wire (π x) (left_colour n col x)) s).
Proof.
  intros HF HP Hx Hc H3. destruct (Hπ x Hx) as [Hpx Hsx]. pose proof (fo_lengths _ _ HF) as (L0 & L0' & L1 & L2 & L3 & L4 & L5 & L6).
  destruct (sub_bounds _ x _ HP Hx (paintc_eq _ _ _)) as [Hb1 Hb2].
  pose proof (fo_left _ _ HF x Hx) as HL. pose proof (fo_right _ _ HF (π x) Hpx) as HR. unfold WakColor.rcol in HR. rewrite Hsx, Hc in HR. rewrite Hc in HL.
  unfold left_to_right. rewrite (rd_lookup _ _ _ HL), res_bind_Ok. fields. rewrite (mark_left_Ok _ _ _ HL), res_bind_Ok.
  rewrite (mark_right_Ok _ _ {| data := d x; src := x; dst := π x; routed := false |}), res_bind_Ok by done. fields.
  rewrite (leave_left _ col x (d x)); [|done|by apply colour_cases| |done].
  2:{ intros Hxl. fields. apply (fo_lsw _ _ HF). apply half_lt. by rewrite <- nl_2. }
  set (c := left_colour n col x) in *. rewrite res_bind_Ok.
  rewrite (enter_right _ (π x) c (d x)); [|done|done| |by fields; rewrite cond_insert_length].
  2:{ intros Hpr. fields. destruct (right_switch s col x c HF HP Hx Hc Hpr) as (o & Ho & Hb). exists o. split; [|done].
      rewrite cond_insert_ne; [done|]. intros Hxl%Nat.ltb_lt. pose proof (half_lt x lc ltac:(by rewrite <- nl_2)). lia. }
  rewrite res_bind_Ok, pass_Ok, res_bind_Ok; [|fields; destruct c; lia..]. fields. unfold paint, next_right. rewrite at_link_right by done.
  f_equal. f_equal. by destruct (π x <? nr)%nat.
Qed.

(** *** And the one that goes left *)

Lemma cond_insert_commute {A} (b b' : bool) (k k' : nat) (x x' : A) (l : list A) : (b = true -> b' = true -> k <> k') ->
  (if b then <[k := x]> else id) ((if b' then <[k' := x']> else id) l) = (if b' then <[k' := x']> else id) ((if b then <[k := x]> else id) l).
Proof. clear. destruct b, b'; intros Hk; [|done..]. apply list_insert_insert_ne. auto. Qed.

Lemma right_link y : (y < n)%nat -> y <> (n - 1)%nat -> ((y =? n - 2)%nat && Nat.even n) = negb (y <? nr)%nat.
Proof. intros Hy Hne. rewrite <- at_link_right by done. by rewrite (proj2 (Nat.eqb_neq y (n - 1))). Qed.

Lemma right_colour_cases col y : (y < n)%nat -> y <> (n - 1)%nat -> right_colour n σ col y =
  (if (y <? nr)%nat then xorb (Nat.odd y) (default false (setting (rcol col (2 * (y / 2))%nat) (rcol col (2 * (y / 2) + 1)%nat))) else false).
Proof. intros Hy Hne. unfold right_colour. rewrite right_link by done. by destruct (y <? nr)%nat. Qed.

Lemma leave_right s (col : colouring) y dt : (y < n)%nat -> y <> (n - 1)%nat -> (n = 3%nat -> right_colour n σ col y = true) ->
  ((y < nr)%nat -> switches s !! (sb + lc + y / 2)%nat = Some (setting (rcol col (2 * (y / 2))%nat) (rcol col (2 * (y / 2) + 1)%nat))) ->
  length (intermediate s) = length inter0 ->
  let c := right_colour n σ col y in
  (if (y =? n - 2)%nat && Nat.even n then Ok (false, s)
   else u ← use_switch (sb + lc + y / 2)%nat s; let '(sw, s) := u in
        let is3 := if (n =? 3)%nat then 1%Z else 0%Z in
        s ← set_intermediate (Z.of_nat iv + (Z.of_nat nl + Z.of_nat y + offset y sw - is3)) dt s;
        Ok ((Nat.even y && sw) || (Nat.odd y && negb sw), s)) =
  Ok (c, {| left_pkt := left_pkt s; right_pkt := right_pkt s;
    intermediate := (if (y <? nr)%nat then <[right_slot y c := Some dt]> else id) (intermediate s);
    switches := (if (y <? nr)%nat then <[(sb + lc + y / 2)%nat := Some (xorb (Nat.odd y) c)]> else id) (switches s);
    topLeft := topLeft s; topRight := topRight s; botLeft := botLeft s; botRight := botRight s |}).
Proof.
  intros Hy Hne H3 Hsw Hlen. cbn zeta. pose proof (right_colour_cases col y Hy Hne) as Hc. rewrite right_link by done.
  destruct (Nat.ltb_spec y nr) as [Hyr|Hyr]; cbn [negb].
  - rewrite (use_switch_Ok _ _ _ (Hsw Hyr)), res_bind_Ok. set (o := default false (setting _ _)) in *.
    assert (o = xorb (Nat.odd y) (right_colour n σ col y)) as -> by (rewrite Hc; by destruct (Nat.odd y), o).
    rewrite <- (Z.add_assoc (Z.of_nat nl)), offset_wire. rewrite (set_intermediate_Ok _ _ (right_slot y (right_colour n σ col y))).
    + fields. rewrite res_bind_Ok, chosen_switch. do 2 f_equal. by destruct (Nat.odd y), (right_colour n σ col y).
    + unfold right_slot, right_wire. destruct (Nat.eqb_spec n 3) as [He|He]; [|lia].
      rewrite (H3 He). pose proof (three He) as [Hnl2 Hnr2]. pose proof (half_lt y 1 ltac:(lia)). cbn [Nat.b2n]. lia.
    + fields. rewrite Hlen. unfold right_slot, level_vars in *. destruct (Nat.eqb_spec n 3) as [He|He]; [lia|].
      pose proof (right_wires y (right_colour n σ col y) Hyr). lia.
  - rewrite Hc. cbn [id]. by destruct s.
Qed.

Lemma right_to_left_Ok s col y : follows s col -> let c := right_colour n σ col y in proper n σ (paintc (σ y) c col) -> (y < n)%nat -> y <> (n - 1)%nat -> rcol col y = None ->
  (n = 3%nat -> c = true) ->
  right_to_left n iv sb y s = Ok (next_left n σ y, paint (σ y) c (right_slot y c) s).
Proof.
  intros HF c HP Hy Hne Hc H3. destruct (Hσ y Hy) as [Hx Hpx]. pose proof (fo_lengths _ _ HF) as (L0 & L0' & L1 & L2 & L3 & L4 & L5 & L6).
  destruct (sub_bounds _ (σ y) _ HP Hx (paintc_eq _ _ _)) as [Hb1 Hb2]. rewrite Hpx in Hb2.
  pose proof (fo_left _ _ HF (σ y) Hx) as HL. pose proof (fo_right _ _ HF y Hy) as HR. unfold WakColor.rcol in HR, Hc. rewrite Hc in HR, HL. rewrite Hpx in HL.
  unfold right_to_left. rewrite (rd_lookup _ _ _ HR), res_bind_Ok. fields. rewrite (mark_left_Ok _ _ _ HL), res_bind_Ok.
  rewrite (mark_right_Ok _ _ {| data := d (σ y); src := σ y; dst := y; routed := false |}), res_bind_Ok by done. fields.
  rewrite (leave_right _ col y (d (σ y))); [|done|done|done| |done].
  2:{ intros Hyr. fields. apply (fo_rsw _ _ HF). apply half_lt. by rewrite <- nr_2. }
  fold c. rewrite res_bind_Ok.
  rewrite (enter_left _ (σ y) c (d (σ y))); [|done| |by fields; rewrite cond_insert_length].
  2:{ intros Hxl. fields. destruct (left_switch s col (σ y) c HF HP Hx Hc Hxl) as (o & Ho & Hb). exists o. split; [|done].
      rewrite cond_insert_ne; [done|]. intros _. pose proof (half_lt (σ y) lc ltac:(by rewrite <- nl_2)). lia. }
  rewrite res_bind_Ok, pass_Ok, res_bind_Ok; [|fields; destruct c; lia..]. fields. unfold paint, next_left, sub_packet. rewrite at_link_left, Hpx by done.
  f_equal. f_equal; [by destruct (σ y <? nl)%nat|]. f_equal.
  - apply cond_insert_commute. intros Hl%Nat.ltb_lt Hr%Nat.ltb_lt. pose proof (left_wires (σ y) c Hl). unfold right_slot. destruct (Nat.eqb_spec n 3) as [He|He].
    + pose proof (three He). lia.
    + pose proof (right_wires y c Hr). lia.
  - apply cond_insert_commute. intros Hl%Nat.ltb_lt Hr%Nat.ltb_lt. pose proof (half_lt (σ y) lc ltac:(by rewrite <- nl_2)). lia.
Qed.

(** *** All packets *)

Fixpoint left_over (m : nat) (col : colouring) : nat := match m with O => O | S m => left_over m col + if col m then 0 else 1 end.

Lemma left_over_paint x c col m : col x = None -> left_over m col = (left_over m (paintc x c col) + if (x <? m)%nat then 1 else 0)%nat.
Proof.
  clear. intros Hx. induction m as [|m IH]; [done|]. cbn [left_over]. rewrite IH. unfold WakColor.paintc. destruct (Nat.eqb_spec m x) as [->|Hne].
  - rewrite Hx, Nat.ltb_irrefl, (proj2 (Nat.ltb_lt x (S x))) by lia. lia.
  - destruct (Nat.ltb_spec x m), (Nat.ltb_spec x (S m)); lia.
Qed.

Lemma left_over_le m col : (left_over m col <= m)%nat.
Proof. clear. induction m as [|m IH]; [done|]. cbn [left_over]. destruct (col m); lia. Qed.

Lemma choose_spec (pkts : list packet_t) (f : colouring) next : length pkts = n ->
  (forall i, (i < n)%nat -> exists p, pkts !! i = Some p /\ routed p = some (f i)) -> (forall i, next = Some i -> (i < n)%nat) ->
  (exists x, choose n pkts next = Ok (Some x) /\ chosen n f next x) \/ (choose n pkts next = Ok None /\ forall i, (i < n)%nat -> is_Some (f i)).
Proof.
  clear. intros Hlen Hp Hnext.
  assert (Hfind : (exists x, fst <$> list_find (fun p => routed p = false) (take n pkts) = Some x /\ (x < n)%nat /\ f x = None /\ forall y, (y < x)%nat -> is_Some (f y)) \/
    (fst <$> list_find (fun p => routed p = false) (take n pkts) = None /\ forall i, (i < n)%nat -> is_Some (f i))).
  { rewrite firstn_all2 by lia. destruct (list_find _ pkts) as [[x p]|] eqn:Hf.
    - left. exists x. split; [done|]. apply list_find_Some in Hf as (Hx & Hr & Hbefore). pose proof (lookup_lt_Some _ _ _ Hx) as Hxn. rewrite Hlen in Hxn.
      split; [done|]. destruct (Hp x Hxn) as (p' & Hx' & Hr'). split.
      + destruct (f x); [|done]. cbn in Hr'. congruence.
      + intros y Hy. destruct (Hp y ltac:(lia)) as (q & Hq & Hrq). specialize (Hbefore y q Hq Hy). destruct (f y); [by eexists|done].
    - right. split; [done|]. intros i Hi. destruct (Hp i Hi) as (p & Hpi & Hr). apply list_find_None in Hf.
      pose proof (proj1 (Forall_lookup _ _) Hf i p Hpi) as Hn'. cbn in Hn'. destruct (f i); [by eexists|done]. }
  unfold choose, chosen. destruct next as [i|].
  - destruct (Hp i (Hnext i eq_refl)) as (p & Hpi & Hr). rewrite (rd_lookup _ _ _ Hpi), !res_bind_Ok, Hr. destruct (f i) as [c|] eqn:Hfi; cbn [some].
    + destruct Hfind as [(x & -> & Hx & Hfx & Hb)|[-> Hall]]; [left; by exists x|by right].
    + left. exists i. rewrite Hfi. split; [done|]. split; [by apply Hnext|done].
  - rewrite res_bind_Ok. destruct Hfind as [(x & -> & Hx & Hfx & Hb)|[-> Hall]]; [left; by exists x|by right].
Qed.

Lemma head_range col next i : Head n σ col next -> next = Some i -> (i < n)%nat.
Proof.
  clear Hiv Hsb. pose proof (sizes n Hn) as [Hnl _]. assert (nl <= n)%nat as Hle by (destruct (Nat.odd n); lia). destruct 1; intros Heq; simplify_eq; [|lia..].
  match goal with H : _ /\ _ |- _ => apply H end.
Qed.

Lemma mid_range col next j : Mid n σ col next -> next = Some j -> (j < n)%nat.
Proof.
  clear Hiv Hsb. pose proof (sizes n Hn) as [_ Hnr]. assert (nr <= n)%nat as Hle by (destruct (Nat.odd n); lia). destruct 1; intros Heq; simplify_eq; [|lia..].
  match goal with H : _ /\ _ |- _ => apply H end.
Qed.

Lemma all_right col : (forall j, (j < n)%nat -> is_Some (rcol col j)) -> forall i, (i < n)%nat -> is_Some (col i).
Proof. clear Hiv Hsb. intros Hall i Hi. destruct (Hπ i Hi) as [Hp Hs]. specialize (Hall (π i) Hp). unfold WakColor.rcol in Hall. by rewrite Hs in Hall. Qed.

Lemma route_packets_Ok fuel next s col : (left_over n col < fuel)%nat -> follows s col -> proper n σ col -> Head n σ col next ->
  exists s' col', route_packets n iv sb fuel next s = Ok s' /\ follows s' col' /\ proper n σ col' /\ forall i, (i < n)%nat -> is_Some (col' i).
Proof.
  revert next s col. induction fuel as [|fuel IH]; intros next s col Hfuel HF HP HH; [lia|]. cbn [route_packets].
  pose proof (fo_lengths _ _ HF) as (L0 & L0' & _).
  destruct (choose_spec (left_pkt s) col next L0) as [(x & -> & Hx)|[-> Hall]]; [|by intros i; apply head_range with col| |].
  { intros i Hi. eexists. split; [by apply (fo_left _ _ HF)|done]. }
  2:{ exists s, col. done. }
  rewrite res_bind_Ok. destruct (go_right n Hn π σ Hπ Hσ col next x HP HH Hx) as (HP' & HM & H3). destruct Hx as (Hxn & Hxc & _).
  rewrite (left_to_right_Ok s col x HF HP' Hxn Hxc) by (intros He; by apply H3). rewrite res_bind_Ok.
  set (c := left_colour n col x) in *.
  assert (HF' : follows (paint x c (right_wire (π x) c) s) (paintc x c col)).
  { apply follows_paint; try done. intros Hpr. unfold wire_ok. destruct (Nat.eqb_spec n 3) as [He|He]; [|done]. destruct (H3 He) as [Hcf Hro].
    split; [|by intros _]. rewrite Hcf. unfold right_wire. pose proof (three He) as [Hnl2 Hnr2]. pose proof (half_lt (π x) 1 ltac:(lia)). cbn [Nat.b2n]. lia. }
  set (s1 := paint _ _ _ _) in *. clearbody s1. clear s HF L0 L0'. pose proof (fo_lengths _ _ HF') as (L0 & L0' & _).
  pose proof (left_over_paint x c col n Hxc) as Hlo. rewrite (proj2 (Nat.ltb_lt x n) Hxn) in Hlo.
  set (col1 := paintc x c col) in *. clearbody col1.
  destruct (choose_spec (right_pkt s1) (rcol col1) (next_right n π x) L0') as [(y & -> & Hy)|[-> Hall]]; [|by intros j; apply mid_range with col1| |].
  { intros j Hj. eexists. split; [by apply (fo_right _ _ HF')|done]. }
  2:{ exists s1, col1. pose proof (all_right col1 Hall). done. }
  rewrite res_bind_Ok. destruct (go_left n Hn π σ Hπ Hσ col1 _ y HP' HM Hy) as (HP2 & HH2 & H32). destruct Hy as (Hyn & Hyc & _).
  assert (y <> n - 1)%nat as Hyl by (intros ->; pose proof (pr_last _ _ _ HP'); congruence).
  rewrite (right_to_left_Ok s1 col1 y HF' HP2 Hyn Hyl Hyc H32). rewrite res_bind_Ok. destruct (Hσ y Hyn) as [Hxn' Hpx].
  apply (IH _ _ (paintc (σ y) (right_colour n σ col1 y) col1)); try done.
  - pose proof (left_over_paint (σ y) (right_colour n σ col1 y) col1 n Hyc). lia.
  - apply follows_paint; try done. intros Hpr. unfold wire_ok, right_slot. rewrite Hpx. destruct (Nat.eqb_spec n 3) as [He|He]; [|done].
    split; [done|]. intros Hcf. rewrite (H32 He) in Hcf. done.
Qed.

(** *** A level as a whole *)

Lemma bottom_last : (bottomSize n - 1 = (n - 1) / 2)%nat.
Proof.
  clear Hiv Hsb Hπ Hσ. unfold bottomSize. destruct (Nat.Even_or_Odd n) as [[k Hk]|[k Hk]].
  - replace (n + 1)%nat with (1 + k * 2)%nat by lia. rewrite Nat.div_add by lia. replace (n - 1)%nat with (1 + (k - 1) * 2)%nat by lia. rewrite Nat.div_add by lia.
    cbn. lia.
  - replace (n + 1)%nat with ((k + 1) * 2)%nat by lia. rewrite Nat.div_mul by lia. replace (n - 1)%nat with (k * 2)%nat by lia. rewrite Nat.div_mul by lia. lia.
Qed.

Lemma route_last_Ok s : follows s (fun _ => None) -> route_last n iv sb s = Ok (next_left n σ (n - 1)%nat, paint (σ (n - 1)%nat) true 0 s).
Proof.
  intros HF. destruct (Hσ (n - 1)%nat ltac:(lia)) as [Hx Hpx]. set (x := σ (n - 1)%nat) in *.
  pose proof (fo_lengths _ _ HF) as (L0 & L0' & L1 & L2 & L3 & L4 & L5 & L6). pose proof (sizes n Hn) as [Hnl Hnr]. pose proof level_large as [Hv _].
  pose proof (fo_left _ _ HF x Hx) as HL. pose proof (fo_right _ _ HF (n - 1)%nat ltac:(lia)) as HR. fold x in HR. rewrite Hpx in HL.
  destruct (half_sizes n x Hx) as [Hb1 _]. destruct (half_sizes n (n - 1) ltac:(lia)) as [Hb2 _].
  unfold route_last. replace (Z.of_nat n - 1)%Z with (Z.of_nat (n - 1)) by lia. rewrite (rd_lookup _ _ _ HR), res_bind_Ok. fields.
  rewrite (mark_right_Ok _ _ _ HR), res_bind_Ok. rewrite (mark_left_Ok _ _ {| data := d x; src := x; dst := (n - 1)%nat; routed := false |}), res_bind_Ok by done. fields.
  rewrite bottom_last. assert (Hodd : Nat.odd x = true -> (x < nl)%nat).
  { intros Ho. destruct (Nat.odd n) eqn:Hon; [|lia]. apply Nat.odd_spec in Ho as [k Hk], Hon as [m Hm]. lia. }
  unfold next_left, paint, sub_packet. fold x. rewrite Hpx, at_link_left by done.
  assert ((n - 1 <? nr)%nat = false) as -> by (apply Nat.ltb_ge; destruct (Nat.odd n); lia). cbn [id].
  destruct (Nat.odd x) eqn:Ho; [|destruct (Nat.eqb_spec x (n - 1)) as [He|He]].
  - rewrite (proj2 (Nat.ltb_lt x nl)) by auto. pose proof (left_wires x true (Hodd eq_refl)) as Hw. pose proof (half_lt x lc ltac:(rewrite <- nl_2; auto)).
    rewrite set_switch_Ok, res_bind_Ok by (fields; lia). fields.
    rewrite (set_intermediate_Ok _ _ (left_wire x true)), !res_bind_Ok; [| |fields; lia].
    2:{ unfold left_wire. destruct (other_side_spec x) as (_ & _ & _ & _ & _ & Hx'). rewrite Ho in Hx'. cbn [Nat.b2n]. lia. }
    rewrite pass_Ok, res_bind_Ok by (fields; lia). fields. cbn [negb xorb]. do 3 f_equal. unfold other_side. by rewrite Ho.
  - assert (Hxl : (x <? nl)%nat = false).
    { apply Nat.ltb_ge. destruct (Nat.odd n) eqn:Hon; [lia|]. exfalso. rewrite <- Nat.negb_even in Ho, Hon. apply (f_equal negb) in Ho, Hon. rewrite !negb_involutive in Ho, Hon.
      apply Nat.even_spec in Ho as [k Hk], Hon as [m Hm]. cbn in *. lia. }
    rewrite Hxl. cbn [negb id]. rewrite res_bind_Ok, pass_Ok, res_bind_Ok by (fields; lia). fields. done.
  - assert (Hxl : (x < nl)%nat) by (destruct (Nat.odd n); lia). rewrite (proj2 (Nat.ltb_lt x nl)) by done. pose proof (left_wires x true Hxl) as Hw.
    pose proof (half_lt x lc ltac:(by rewrite <- nl_2)). rewrite set_switch_Ok, res_bind_Ok by (fields; lia). fields.
    rewrite (set_intermediate_Ok _ _ (left_wire x true)), !res_bind_Ok; [| |fields; lia].
    2:{ unfold left_wire. destruct (other_side_spec x) as (_ & _ & _ & _ & _ & Hx'). rewrite Ho in Hx'. cbn [Nat.b2n]. lia. }
    rewrite pass_Ok, res_bind_Ok by (fields; lia). fields. cbn [negb xorb]. do 3 f_equal. unfold other_side. by rewrite Ho.
Qed.

Lemma route_level_Ok s : follows s (fun _ => None) ->
  exists next s1 s' col', route_last n iv sb s = Ok (next, s1) /\ route_packets n iv sb (S n) next s1 = Ok s' /\
    follows s' col' /\ proper n σ col' /\ forall i, (i < n)%nat -> is_Some (col' i).
Proof.
  intros HF. destruct (go_first n Hn π σ Hπ Hσ) as [HP HH]. destruct (Hσ (n - 1)%nat ltac:(lia)) as [Hx Hpx]. pose proof (sizes n Hn) as [_ Hnr].
  assert (HF1 : follows (paint (σ (n - 1)%nat) true 0 s) (first_colouring n σ)).
  { apply follows_paint; try done. rewrite Hpx. intros Hr. destruct (Nat.odd n); lia. }
  destruct (route_packets_Ok (S n) _ _ _ (proj2 (Nat.lt_succ_r _ _) (left_over_le n _)) HF1 HP HH) as (s' & col' & Hrun & Hres).
  eexists _, _, s', col'. split; [by apply route_last_Ok|]. done.
Qed.

End Level.
