(* ===== verification/WakRoute.v ===== *)
(** The whole network: the router sets every switch, and the wires it fills in
    are what the switches make of their inputs. *)
From Stdlib Require Import ZArith Lia.
From stdpp Require Import base numbers list.
From S2P Require Import Prelude Waksman WakColor WakLevel.

#[local] Coercion Z.of_nat : nat >-> Z.

(** ** The network in the order of the router's arrays *)

Inductive wire : Type := WIn (i : nat) | WVar (i : nat) | WOut (i : nat).

#[export] Instance wire_eq_dec : EqDecision wire.
Proof. solve_decision. Defined.

(** A switch takes [s1] and [s2] to [t1] and [t2]. *)
Record gate : Type := { s1 : wire; s2 : wire; t1 : wire; t2 : wire; sw : nat }.

#[export] Instance gate_eq_dec : EqDecision gate.
Proof. solve_decision. Defined.

(** Which wire of a switch goes to the top or the bottom network; the last of
    an odd number goes to the bottom without a switch. *)
Definition sub_index (n : nat) (c : bool) (k : nat) : nat :=
  (if c then if (2 * k + 1 <? n)%nat then 2 * k + 1 else 2 * k else 2 * k)%nat.

Definition left_of (n iv : nat) (ins : nat -> wire) (k : nat) : wire :=
  if (k <? numLeftVars n)%nat then WVar (iv + k) else ins k.

Definition right_of (n iv : nat) (outs : nat -> wire) (k : nat) : wire :=
  if (k <? numRightVars n)%nat then
    if (n =? 3)%nat then if (k =? 0)%nat then WVar iv else WVar (iv + 2) else WVar (iv + numLeftVars n + k)
  else outs k.

(** The number of wires. *)
Definition num_intermediate (n : nat) : nat := (2 * numSwitches n - n)%nat.

Fixpoint network (fuel n iv sb : nat) (ins outs : nat -> wire) : list gate :=
  match fuel with
  | O => []
  | S fuel =>
      if (n <? 2)%nat then []
      else if (n =? 2)%nat then [ {| s1 := ins 0; s2 := ins 1; t1 := outs 0; t2 := outs 1; sw := sb |} ]%nat
      else
        let L := left_of n iv ins in
        let R := right_of n iv outs in
        let iv' := (iv + level_vars n)%nat in
        let sb' := (sb + leftSwitchCt n + rightSwitchCt n)%nat in
        tabulate (leftSwitchCt n) (fun k => {| s1 := ins (2 * k); s2 := ins (2 * k + 1); t1 := L (2 * k); t2 := L (2 * k + 1); sw := sb + k |})%nat ++
        tabulate (rightSwitchCt n) (fun k => {| s1 := R (2 * k); s2 := R (2 * k + 1); t1 := outs (2 * k); t2 := outs (2 * k + 1); sw := sb + leftSwitchCt n + k |})%nat ++
        network fuel (topSize n) iv' sb' (fun k => L (sub_index n false k)) (fun k => R (sub_index n false k)) ++
        network fuel (bottomSize n) (iv' + num_intermediate (topSize n)) (sb' + numSwitches (topSize n))
          (fun k => L (sub_index n true k)) (fun k => R (sub_index n true k))
  end.

(** The switch is set, and passes its inputs on as it is set. *)
Definition gate_holds (val : wire -> option data_t) (sws : list switch_t) (g : gate) : Prop :=
  exists b : bool, sws !! sw g = Some (Some b) /\ is_Some (val (s1 g)) /\ is_Some (val (s2 g)) /\
    val (t1 g) = (if b then val (s2 g) else val (s1 g)) /\ val (t2 g) = (if b then val (s1 g) else val (s2 g)).

(** ** Counting switches *)

Lemma numSwitches_S (n : nat) : numSwitches (S n) = (numSwitches n + Nat.log2_up (S n))%nat.
Proof. unfold numSwitches. by rewrite for_up_last by lia. Qed.

Lemma log2_up_odd k : (0 < k)%nat -> Nat.log2_up (2 * k + 1) = S (Nat.log2_up (k + 1)).
Proof.
  intros Hk. apply Nat.log2_up_unique; [lia|]. pose proof (Nat.log2_up_spec (k + 1) ltac:(lia)) as [Hlo Hhi].
  assert (0 < Nat.log2_up (k + 1))%nat as Hpos by (apply Nat.log2_up_pos; lia).
  cbn [Nat.pred] in *. split.
  - replace (Nat.log2_up (k + 1)) with (S (Nat.pred (Nat.log2_up (k + 1)))) by lia. rewrite Nat.pow_succ_r'. lia.
  - rewrite Nat.pow_succ_r'. lia.
Qed.

Lemma numSwitches_even (k : nat) : (0 < k)%nat -> numSwitches (2 * k) = (2 * numSwitches k + (2 * k - 1))%nat.
Proof.
  induction k as [|k IH]; [lia|]. intros _. destruct (decide (k = 0)%nat) as [->|Hk]; [done|].
  replace (2 * S k)%nat with (S (S (2 * k))) by lia. rewrite !numSwitches_S, IH by lia.
  replace (S (2 * k)) with (2 * k + 1)%nat by lia. replace (S (2 * k + 1)) with (2 * (k + 1))%nat by lia.
  rewrite log2_up_odd, Nat.log2_up_double by lia. replace (S k) with (k + 1)%nat by lia. lia.
Qed.

Lemma numSwitches_odd k : (0 < k)%nat -> numSwitches (2 * k + 1) = (numSwitches k + numSwitches (k + 1) + 2 * k)%nat.
Proof.
  intros Hk. replace (2 * k + 1)%nat with (S (2 * k)) at 1 by lia. rewrite numSwitches_S, numSwitches_even by lia.
  replace (S (2 * k)) with (2 * k + 1)%nat by lia. rewrite log2_up_odd by lia.
  replace (k + 1)%nat with (S k) by lia. rewrite numSwitches_S. lia.
Qed.

Lemma halves n : (2 <= n)%nat -> (leftSwitchCt n = topSize n /\ topSize n + bottomSize n = n /\ 1 <= topSize n /\ topSize n <= bottomSize n < n /\ bottomSize n <= topSize n + 1 /\
  leftSwitchCt n + rightSwitchCt n = n - 1 /\ numSwitches n = numSwitches (topSize n) + numSwitches (bottomSize n) + (n - 1))%nat.
Proof.
  intros Hn. unfold bottomSize, rightSwitchCt, leftSwitchCt, topSize. destruct (Nat.Even_or_Odd n) as [[k Hk]|[k Hk]]; subst n.
  - assert (2 * k / 2 = k)%nat as -> by (rewrite Nat.mul_comm; by apply Nat.div_mul).
    assert ((2 * k + 1) / 2 = k)%nat as -> by (rewrite Nat.add_comm, Nat.mul_comm, Nat.div_add; done).
    assert ((2 * k) mod 2 = 0)%nat as -> by (rewrite Nat.mul_comm; by apply Nat.Div0.mod_mul).
    rewrite numSwitches_even by lia. lia.
  - assert ((2 * k + 1 + 1) / 2 = k + 1)%nat as -> by (replace (2 * k + 1 + 1)%nat with ((k + 1) * 2)%nat by lia; by apply Nat.div_mul).
    assert ((2 * k + 1) / 2 = k)%nat as -> by (rewrite Nat.add_comm, Nat.mul_comm, Nat.div_add; done).
    assert ((2 * k + 1) mod 2 = 1)%nat as -> by (rewrite Nat.add_comm, Nat.mul_comm, Nat.Div0.mod_add; done).
    rewrite numSwitches_odd by lia. lia.
Qed.

Lemma enough_switches n : (n <= numSwitches n + 1)%nat.
Proof.
  induction n as [|n IH]; [lia|]. rewrite numSwitches_S. destruct (decide (n = 0)%nat) as [->|]; [done|].
  assert (0 < Nat.log2_up (S n))%nat by (apply Nat.log2_up_pos; lia). lia.
Qed.

Lemma num_intermediate_level n : (3 <= n)%nat ->
  num_intermediate n = (level_vars n + num_intermediate (topSize n) + num_intermediate (bottomSize n))%nat.
Proof.
  intros Hn. destruct (halves n ltac:(lia)) as (Hlt & Hsum & H1 & Hle & Hbt & Hsw & Hns). unfold num_intermediate, level_vars.
  pose proof (enough_switches (topSize n)). pose proof (enough_switches (bottomSize n)).
  destruct (Nat.eqb_spec n 3) as [->|He]; [done|]. unfold numLeftVars, numRightVars. rewrite Hns.
  assert (2 <= topSize n)%nat as H2 by (unfold topSize in *; change 2%nat with (4 / 2)%nat; apply Nat.Div0.div_le_mono; lia).
  assert (forall m, (2 <= m -> m <= 2 * numSwitches m)%nat) as Hm by (intros m Hm'; pose proof (enough_switches m); lia).
  pose proof (Hm _ H2). pose proof (Hm (bottomSize n) ltac:(lia)). lia.
Qed.

(** ** The packets of a level *)

(** The left packets, each at its source, are the right packets, each at its
    destination. *)
Record matched (n : nat) (L R : list packet_t) : Prop := {
  ma_length : length L = n /\ length R = n;
  ma_left : forall i, (i < n)%nat -> exists p, L !! i = Some p /\ src p = i /\ (dst p < n)%nat /\ routed p = false /\ R !! dst p = Some p;
  ma_right : forall j, (j < n)%nat -> exists p, R !! j = Some p /\ dst p = j /\ (src p < n)%nat /\ L !! src p = Some p
}.

Lemma all_packets_Ok (l : list (option packet_t)) : (forall k, (k < length l)%nat -> exists p, l !! k = Some (Some p)) ->
  exists ps, all_packets l = Ok ps /\ l = Some <$> ps.
Proof.
  induction l as [|o l IH]; intros Hl; [by exists []|]. destruct (Hl 0%nat ltac:(cbn; lia)) as [p [= ->]].
  destruct IH as (ps & Hps & ->); [intros k Hk; apply (Hl (S k)); cbn; lia|]. exists (p :: ps). cbn. by rewrite Hps.
Qed.

Section Solved.
Context (n : nat) (Hn : (3 <= n)%nat) (π σ : nat -> nat).
Context (Hπ : forall i, (i < n)%nat -> (π i < n)%nat /\ σ (π i) = i) (Hσ : forall j, (j < n)%nat -> (σ j < n)%nat /\ π (σ j) = j).
Context (d : nat -> data_t) (iv sb : nat) (sws0 : list switch_t) (inter0 : list (option data_t)).
Context (s : routing) (col : nat -> option bool) (HF : follows n π σ d iv sb sws0 inter0 s col) (HP : proper n σ col).
Context (Hall : forall i, (i < n)%nat -> is_Some (col i)).

Definition size_of (c : bool) : nat := if c then bottomSize n else topSize n.

Lemma sub_index_spec c k : (k < size_of c)%nat -> (sub_index n c k < n)%nat /\ (sub_index n c k / 2 = k)%nat /\
  (other_side (sub_index n c k) < n \/ c = true /\ sub_index n c k = n - 1 /\ Nat.odd n = true)%nat.
Proof.
  clear -Hn. intros Hk. destruct (halves n ltac:(lia)) as (Hlt & Hsum & H1 & Hle & Hbt & _). unfold size_of in Hk.
  assert (Hd : forall m, (2 * m / 2 = m /\ (2 * m + 1) / 2 = m)%nat).
  { intros m. split; [rewrite Nat.mul_comm; by apply Nat.div_mul|]. rewrite Nat.add_comm, Nat.mul_comm, Nat.div_add; done. }
  assert (Ho : forall m, other_side (2 * m) = (2 * m + 1)%nat /\ other_side (2 * m + 1) = (2 * m)%nat).
  { intros m. unfold other_side. rewrite Nat.odd_even, Nat.odd_odd. lia. }
  destruct (Hd k) as [D1 D2]. destruct (Ho k) as [O1 O2]. unfold sub_index. destruct c.
  - destruct (Nat.ltb_spec (2 * k + 1) n) as [Hl|Hl].
    + rewrite D2, O2. repeat split; [lia|]. left. lia.
    + assert (n = 2 * k + 1)%nat as -> by lia. rewrite D1. split; [lia|]. split; [done|]. right. split; [done|]. split; [lia|]. apply Nat.odd_odd.
  - rewrite D1, O1. repeat split; [lia|]. left. lia.
Qed.

(** Each half of the network has one packet per switch. *)
Lemma packet_left c k : (k < size_of c)%nat -> exists i, (i < n)%nat /\ (i / 2 = k)%nat /\ col i = Some c.
Proof.
  intros Hk. destruct (sub_index_spec c k Hk) as (Hi & Hik & Ho). set (i := sub_index n c k) in *. destruct (Hall i Hi) as [c' Hc'].
  destruct (decide (c' = c)) as [->|Hne]; [by exists i|]. assert (c' = negb c) as -> by (by destruct c, c').
  destruct Ho as [Ho|(-> & Hl & Hodd)]; [|rewrite Hl in Hc'; by destruct (pr_link _ _ _ HP Hodd)].
  exists (other_side i). split; [done|]. destruct (other_side_spec i) as (_ & _ & _ & -> & _ & _). split; [done|].
  destruct (Hall _ Ho) as [c2 Hc2]. rewrite Hc2. f_equal. destruct (decide (i < numLeftVars n)%nat) as [Hl|Hl].
  - pose proof (pr_left _ _ _ HP i _ Hl Hc') as Hpr. rewrite Hc2 in Hpr. destruct c, c2; done.
  - exfalso. pose proof (proj1 (sizes n Hn)) as Hnl. destruct (Nat.odd n) eqn:Hodd; [|lia]. assert (i = n - 1)%nat as Hin by lia.
    apply Nat.odd_spec in Hodd as [m Hm]. unfold other_side in Ho. rewrite Hin in Ho. replace (n - 1)%nat with (2 * m)%nat in Ho by lia.
    rewrite Nat.odd_even in Ho. lia.
Qed.

Lemma packet_right c k : (k < size_of c)%nat -> exists j, (j < n)%nat /\ (j / 2 = k)%nat /\ rcol σ col j = Some c.
Proof.
  intros Hk. destruct (sub_index_spec c k Hk) as (Hi & Hik & Ho). set (i := sub_index n c k) in *.
  assert (Hrall : forall j, (j < n)%nat -> is_Some (rcol σ col j)) by (intros j Hj; apply Hall, Hσ, Hj).
  destruct (Hrall i Hi) as [c' Hc']. destruct (decide (c' = c)) as [->|Hne]; [by exists i|]. assert (c' = negb c) as -> by (by destruct c, c').
  destruct Ho as [Ho|(-> & Hl & Hodd)]; [|exfalso; rewrite Hl, (pr_last _ _ _ HP) in Hc'; done].
  exists (other_side i). split; [done|]. destruct (other_side_spec i) as (_ & _ & _ & -> & _ & _). split; [done|].
  destruct (Hrall _ Ho) as [c2 Hc2]. rewrite Hc2. f_equal. pose proof (pr_right _ _ _ HP i _ Hi Ho Hc') as Hpr. rewrite Hc2 in Hpr. destruct c, c2; done.
Qed.

Definition subLeft (c : bool) : list (option packet_t) := if c then botLeft s else topLeft s.
Definition subRight (c : bool) : list (option packet_t) := if c then botRight s else topRight s.

Lemma sub_lengths c : length (subLeft c) = size_of c /\ length (subRight c) = size_of c.
Proof. destruct (fo_lengths _ _ _ _ _ _ _ _ _ _ HF) as (_ & _ & _ & _ & ? & ? & ? & ?). by destruct c. Qed.

(** The packets of a half match, and carry the data of its packets. *)
Lemma sub_matched c : exists L R, all_packets (subLeft c) = Ok L /\ all_packets (subRight c) = Ok R /\ matched (size_of c) L R /\
  (forall i, (i < n)%nat -> col i = Some c -> data <$> L !! (i / 2)%nat = Some (d i)) /\
  (forall j, (j < n)%nat -> rcol σ col j = Some c -> data <$> R !! (j / 2)%nat = Some (d (σ j))).
Proof.
  pose proof (sub_lengths c) as [Hl Hr].
  assert (Hsub : forall i, (i < n)%nat -> col i = Some c -> subLeft c !! (i / 2)%nat = Some (Some (sub_packet π d i)) /\ subRight c !! (π i / 2)%nat = Some (Some (sub_packet π d i))).
  { intros i Hi Hc. by apply (fo_sub _ _ _ _ _ _ _ _ _ _ HF). }
  destruct (all_packets_Ok (subLeft c)) as (L & HL & HLe).
  { rewrite Hl. intros k Hk. destruct (packet_left c k Hk) as (i & Hi & <- & Hc). eexists. by apply (Hsub i Hi Hc). }
  assert (Hrp : forall j, (j < n)%nat -> rcol σ col j = Some c -> subRight c !! (j / 2)%nat = Some (Some (sub_packet π d (σ j)))).
  { intros j Hj Hc. destruct (Hσ j Hj) as [Hs Hp]. rewrite <- Hp at 1. by apply (Hsub (σ j) Hs Hc). }
  destruct (all_packets_Ok (subRight c)) as (R & HR & HRe).
  { rewrite Hr. intros k Hk. destruct (packet_right c k Hk) as (j & Hj & <- & Hc). eexists. by apply Hrp. }
  assert (HLl : forall k p, subLeft c !! k = Some (Some p) -> L !! k = Some p) by (intros k p; rewrite HLe, list_lookup_fmap; destruct (L !! k); cbn; congruence).
  assert (HRl : forall k p, subRight c !! k = Some (Some p) -> R !! k = Some p) by (intros k p; rewrite HRe, list_lookup_fmap; destruct (R !! k); cbn; congruence).
  exists L, R. split; [done|]. split; [done|]. split; [split|split].
  - rewrite <- Hl, <- Hr at 1. rewrite HLe at 1. rewrite HRe. by rewrite !length_fmap.
  - intros k Hk. destruct (packet_left c k Hk) as (i & Hi & <- & Hc). destruct (Hsub i Hi Hc) as [H1 H2]. exists (sub_packet π d i).
    split; [by apply HLl|]. split; [done|]. split; [by apply (sub_bounds n π σ Hπ col i c)|]. split; [done|]. by apply HRl.
  - intros k Hk. destruct (packet_right c k Hk) as (j & Hj & <- & Hc). exists (sub_packet π d (σ j)). destruct (Hσ j Hj) as [Hs Hp].
    destruct (Hsub (σ j) Hs Hc) as [H1 H2]. split; [by apply HRl, Hrp|]. split; [cbn; by rewrite Hp|]. split; [by apply (sub_bounds n π σ Hπ col (σ j) c)|]. by apply HLl.
  - intros i Hi Hc. by rewrite (HLl _ _ (proj1 (Hsub i Hi Hc))).
  - intros j Hj Hc. by rewrite (HRl _ _ (Hrp j Hj Hc)).
Qed.

(** *** The wires of the level *)

Lemma paired_left i c : (i < n)%nat -> col i = Some c -> (i < numLeftVars n /\ sub_index n c (i / 2) = 2 * (i / 2) + Nat.b2n c /\ 2 * (i / 2) + Nat.b2n c < numLeftVars n)%nat \/
  (numLeftVars n <= i /\ sub_index n c (i / 2) = i)%nat.
Proof.
  intros Hi Hc. destruct (decide (i < numLeftVars n)%nat) as [Hl|Hl].
  - left. pose proof (half_lt i (leftSwitchCt n) ltac:(by rewrite <- nl_2)) as Hh. pose proof (proj1 (sizes n Hn)) as Hnl. rewrite nl_2 in *.
    split; [done|]. assert (2 * leftSwitchCt n <= n)%nat by (destruct (Nat.odd n); lia).
    split; [|destruct c; cbn [Nat.b2n]; lia]. unfold sub_index. destruct c; cbn [Nat.b2n]; [|lia]. by rewrite (proj2 (Nat.ltb_lt _ _)) by lia.
  - right. split; [lia|]. pose proof (proj1 (sizes n Hn)) as Hnl. destruct (Nat.odd n) eqn:Hodd; [|lia]. assert (i = n - 1)%nat as Hin by lia.
    assert (c = true) as -> by (destruct c; [done|]; rewrite Hin in Hc; by destruct (pr_link _ _ _ HP Hodd)).
    apply Nat.odd_spec in Hodd as [m Hm]. assert (i = 2 * m)%nat as -> by lia. unfold sub_index. rewrite (Nat.mul_comm 2 m), Nat.div_mul, (Nat.mul_comm m 2) by lia.
    by rewrite (proj2 (Nat.ltb_ge _ _)) by lia.
Qed.

Lemma paired_right j c : (j < n)%nat -> rcol σ col j = Some c -> (j < numRightVars n /\ sub_index n c (j / 2) = 2 * (j / 2) + Nat.b2n c /\ 2 * (j / 2) + Nat.b2n c < numRightVars n)%nat \/
  (numRightVars n <= j /\ sub_index n c (j / 2) = j)%nat.
Proof.
  intros Hj Hc. pose proof (proj2 (sizes n Hn)) as Hnr. pose proof (other_side_spec j) as (_ & _ & _ & _ & Ho & Hj').
  destruct (decide (j < numRightVars n)%nat) as [Hl|Hl].
  - left. pose proof (half_lt j (rightSwitchCt n) ltac:(by rewrite <- nr_2)) as Hh. rewrite nr_2 in *.
    split; [done|]. assert (2 * rightSwitchCt n <= n)%nat by (destruct (Nat.odd n); lia).
    split; [|destruct c; cbn [Nat.b2n]; lia]. unfold sub_index. destruct c; cbn [Nat.b2n]; [|lia]. by rewrite (proj2 (Nat.ltb_lt _ _)) by lia.
  - right. split; [lia|]. pose proof (pr_last _ _ _ HP) as Hlast. destruct (decide (j = n - 1)%nat) as [He|He].
    + rewrite <- He, Hc in Hlast. injection Hlast as ->. unfold sub_index. destruct (Nat.odd j); destruct (Nat.ltb_spec (2 * (j / 2) + 1) n); lia.
    + destruct (Nat.odd n) eqn:Hodd; [lia|]. assert (Nat.odd j = false) as Hoj.
      { destruct (Nat.odd j) eqn:Hoj; [|done]. rewrite <- Nat.negb_even in Hodd. apply (f_equal negb) in Hodd. rewrite negb_involutive in Hodd.
        apply Nat.even_spec in Hodd as [m Hm]. apply Nat.odd_spec in Hoj as [m' Hm']. lia. }
      rewrite Hoj in *. assert (c = false) as ->.
      { destruct c; [|done]. exfalso. apply (pr_right _ _ _ HP j true Hj); [lia|done|]. by replace (other_side j) with (n - 1)%nat by lia. }
      unfold sub_index. lia.
Qed.

(** Every wire and every switch of the level is set. *)
Lemma level_set k : (iv <= k < iv + level_vars n)%nat -> exists x, intermediate s !! k = Some (Some x).
Proof.
  intros Hk. pose proof (halves n ltac:(lia)) as (Hlt & Hsum & H1 & Hle & Hbt & Hlr & _).
  assert (Hdiv : forall m, exists b : bool, m = (2 * (m / 2) + Nat.b2n b)%nat).
  { intros m. destruct (other_side_spec m) as (_ & _ & _ & _ & _ & Hm). exists (Nat.odd m). destruct (Nat.odd m); cbn [Nat.b2n]; lia. }
  destruct (decide (k < iv + numLeftVars n)%nat) as [Hl|Hl].
  - destruct (Hdiv (k - iv)%nat) as [b Hb]. rewrite nl_2 in Hl. pose proof (half_lt (k - iv) (leftSwitchCt n) ltac:(lia)) as Hh.
    destruct (packet_left b ((k - iv) / 2)) as (i & Hi & Hik & Hc); [unfold size_of; destruct b; lia|].
    destruct (paired_left i b Hi Hc) as [(Hil & _ & _)|[Hil Hs]].
    + exists (d i). replace k with (left_wire iv i b) by (unfold left_wire; rewrite Hik; lia). by apply (fo_lint _ _ _ _ _ _ _ _ _ _ HF).
    + exfalso. rewrite nl_2 in Hil. pose proof (half_lt i (leftSwitchCt n)). destruct (other_side_spec i) as (_ & _ & _ & _ & _ & Hi'). rewrite Hik in Hi'. destruct (Nat.odd i); lia.
  - unfold level_vars in Hk. destruct (Nat.eqb_spec n 3) as [H3|H3].
    + pose proof (three n H3) as [Hnl2 Hnr2]. destruct (packet_right true 0) as (j & Hj & Hj0 & Hc); [unfold size_of; lia|].
      exists (d (σ j)). replace k with (right_slot n iv j true) by (unfold right_slot; rewrite H3; cbn; lia).
      apply (fo_rint _ _ _ _ _ _ _ _ _ _ HF); [|done|done]. destruct (other_side_spec j) as (_ & _ & _ & _ & _ & Hj'). rewrite Hj0 in Hj'. destruct (Nat.odd j); lia.
    + destruct (Hdiv (k - iv - numLeftVars n)%nat) as [b Hb]. rewrite nr_2 in Hk. pose proof (half_lt (k - iv - numLeftVars n) (rightSwitchCt n) ltac:(lia)) as Hh.
      destruct (packet_right b ((k - iv - numLeftVars n) / 2)) as (j & Hj & Hjk & Hc); [unfold size_of; destruct b; lia|].
      exists (d (σ j)). replace k with (right_slot n iv j b).
      2:{ unfold right_slot. rewrite (proj2 (Nat.eqb_neq _ _) H3). unfold right_wire. rewrite Hjk. lia. }
      apply (fo_rint _ _ _ _ _ _ _ _ _ _ HF); [|done|done]. rewrite nr_2. destruct (other_side_spec j) as (_ & _ & _ & _ & _ & Hj'). rewrite Hjk in Hj'. destruct (Nat.odd j); lia.
Qed.

Section Values.
Context (val : wire -> option data_t) (ins outs : nat -> wire) (sws : list switch_t).
Context (Hins : forall i, (i < n)%nat -> val (ins i) = Some (d i)) (Houts : forall j, (j < n)%nat -> val (outs j) = Some (d (σ j))).
Context (Hvar : forall k x, (iv <= k < iv + level_vars n)%nat -> intermediate s !! k = Some x -> val (WVar k) = x).
Context (Hsws : forall k, (sb <= k < sb + leftSwitchCt n + rightSwitchCt n)%nat -> sws !! k = switches s !! k).

Lemma left_value i c : (i < n)%nat -> col i = Some c -> val (left_of n iv ins (sub_index n c (i / 2))) = Some (d i).
Proof.
  intros Hi Hc. unfold left_of. destruct (paired_left i c Hi Hc) as [(Hl & -> & Hlt)|[Hl ->]].
  - rewrite (proj2 (Nat.ltb_lt _ _)) by done. apply Hvar; [|by apply (fo_lint _ _ _ _ _ _ _ _ _ _ HF)].
    pose proof (proj1 (level_large n)). lia.
  - rewrite (proj2 (Nat.ltb_ge _ _)) by done. by apply Hins.
Qed.

Lemma right_value j c : (j < n)%nat -> rcol σ col j = Some c -> val (right_of n iv outs (sub_index n c (j / 2))) = Some (d (σ j)).
Proof.
  intros Hj Hc. unfold right_of. destruct (paired_right j c Hj Hc) as [(Hl & -> & Hlt)|[Hl ->]].
  - rewrite (proj2 (Nat.ltb_lt _ _)) by done. destruct (Nat.eqb_spec n 3) as [H3|H3].
    + pose proof (three n H3) as [Hnl2 Hnr2]. pose proof (half_lt j 1 ltac:(lia)) as Hh. replace (j / 2)%nat with 0%nat by lia.
      unfold level_vars in Hvar. rewrite H3 in Hvar. cbn in Hvar. destruct c; cbn.
      * apply Hvar; [lia|]. pose proof (fo_rint _ _ _ _ _ _ _ _ _ _ HF j true Hl Hc ltac:(done)) as Hr. unfold right_slot in Hr. by rewrite H3 in Hr.
      * apply Hvar; [lia|]. destruct (Hσ j Hj) as [Hs _]. destruct (paired_left (σ j) false Hs Hc) as [(Hl' & _ & _)|[Hl' Hs']].
        -- pose proof (fo_lint _ _ _ _ _ _ _ _ _ _ HF (σ j) false Hl' Hc) as Hw. unfold left_wire in Hw. pose proof (half_lt (σ j) 1 ltac:(lia)).
           replace (σ j / 2)%nat with 0%nat in Hw by lia. cbn in Hw. by rewrite Nat.add_0_r in Hw.
        -- unfold sub_index in Hs'. pose proof (half_lt (σ j) 2 ltac:(lia)). exfalso. destruct (other_side_spec (σ j)) as (_ & _ & _ & _ & _ & Hsj).
           assert (σ j = 2)%nat as He by lia. pose proof (pr_link _ _ _ HP) as Hlink. rewrite H3 in Hlink. apply Hlink; [done|]. unfold rcol in Hc. by rewrite He in Hc.
    + apply Hvar.
      * pose proof (proj2 (level_large n) H3). lia.
      * pose proof (fo_rint _ _ _ _ _ _ _ _ _ _ HF j c Hl Hc ltac:(done)) as Hr. unfold right_slot, right_wire in Hr. rewrite (proj2 (Nat.eqb_neq _ _) H3) in Hr.
        by rewrite Nat.add_assoc in Hr.
  - rewrite (proj2 (Nat.ltb_ge _ _)) by done. by apply Houts.
Qed.

Lemma half_double k : (2 * k / 2 = k /\ (2 * k + 1) / 2 = k)%nat.
Proof. clear. split; [rewrite Nat.mul_comm; by apply Nat.div_mul|]. rewrite Nat.add_comm, Nat.mul_comm, Nat.div_add; done. Qed.

Lemma left_gate k : (k < leftSwitchCt n)%nat ->
  gate_holds val sws {| s1 := ins (2 * k)%nat; s2 := ins (2 * k + 1)%nat; t1 := left_of n iv ins (2 * k); t2 := left_of n iv ins (2 * k + 1); sw := (sb + k)%nat |}.
Proof.
  intros Hk. pose proof (proj1 (sizes n Hn)) as Hnl. rewrite nl_2 in Hnl. assert (2 * k + 1 < n)%nat as Hlt by (destruct (Nat.odd n); lia).
  destruct (Hall (2 * k)%nat ltac:(lia)) as [c Hc]. destruct (Hall (2 * k + 1)%nat ltac:(lia)) as [c' Hc'].
  assert (c' = negb c) as ->.
  { pose proof (pr_left _ _ _ HP (2 * k)%nat c ltac:(rewrite nl_2; lia) Hc) as Hne. unfold other_side in Hne. rewrite Nat.odd_even, Hc' in Hne. destruct c, c'; done. }
  exists c. cbn [sw s1 s2 t1 t2]. rewrite Hsws, (fo_lsw _ _ _ _ _ _ _ _ _ _ HF k Hk), Hc, !Hins by lia. split; [done|]. split; [by eexists|]. split; [by eexists|].
  pose proof (left_value (2 * k)%nat c ltac:(lia) Hc) as V1. pose proof (left_value (2 * k + 1)%nat (negb c) Hlt Hc') as V2.
  destruct (half_double k) as [D1 D2]. rewrite D1 in V1. rewrite D2 in V2. unfold sub_index in V1, V2. rewrite (proj2 (Nat.ltb_lt _ _) Hlt) in *.
  destruct c; cbn [negb] in *; by rewrite V1, V2.
Qed.

Lemma right_gate k : (k < rightSwitchCt n)%nat ->
  gate_holds val sws {| s1 := right_of n iv outs (2 * k); s2 := right_of n iv outs (2 * k + 1); t1 := outs (2 * k)%nat; t2 := outs (2 * k + 1)%nat; sw := (sb + leftSwitchCt n + k)%nat |}.
Proof.
  intros Hk. pose proof (proj2 (sizes n Hn)) as Hnr. rewrite nr_2 in Hnr. assert (2 * k + 1 < n)%nat as Hlt by (destruct (Nat.odd n); lia).
  assert (Hrall : forall j, (j < n)%nat -> is_Some (rcol σ col j)) by (intros j Hj; apply Hall, Hσ, Hj).
  destruct (Hrall (2 * k)%nat ltac:(lia)) as [c Hc]. destruct (Hrall (2 * k + 1)%nat ltac:(lia)) as [c' Hc'].
  assert (Ho : other_side (2 * k) = (2 * k + 1)%nat) by (unfold other_side; by rewrite Nat.odd_even).
  assert (c' = negb c) as ->.
  { pose proof (pr_right _ _ _ HP (2 * k)%nat c ltac:(lia) ltac:(lia) Hc) as Hne. rewrite Ho, Hc' in Hne. destruct c, c'; done. }
  exists c. cbn [sw s1 s2 t1 t2]. rewrite Hsws, (fo_rsw _ _ _ _ _ _ _ _ _ _ HF k Hk), Hc, !Houts by lia.
  pose proof (right_value (2 * k)%nat c ltac:(lia) Hc) as V1. pose proof (right_value (2 * k + 1)%nat (negb c) Hlt Hc') as V2.
  destruct (half_double k) as [D1 D2]. rewrite D1 in V1. rewrite D2 in V2. unfold sub_index in V1, V2. rewrite (proj2 (Nat.ltb_lt _ _) Hlt) in *.
  destruct c; cbn [negb] in *; rewrite V1, V2; eauto.
Qed.

End Values.
End Solved.

(** ** The recursion *)

Lemma data_equal_spec d1 d2 : data_equal d1 d2 = true <-> d1 = d2.
Proof.
  unfold data_equal. rewrite !andb_true_iff, !Z.eqb_eq. split; [|by intros ->]. intros [[[] ?] ?]. destruct d1, d2. cbn in *. congruence.
Qed.

Record routed_as (n iv sb : nat) (L R : list packet_t) (w w' : wires) : Prop := {
  ro_lengths : length w'.1 = length w.1 /\ length w'.2 = length w.2;
  ro_inter : forall k, (k < iv \/ iv + num_intermediate n <= k)%nat -> w'.1 !! k = w.1 !! k;
  ro_sws : forall k, (k < sb \/ sb + numSwitches n <= k)%nat -> w'.2 !! k = w.2 !! k;
  ro_inter_set : forall k, (iv <= k < iv + num_intermediate n)%nat -> exists x, w'.1 !! k = Some (Some x);
  ro_sws_set : forall k, (sb <= k < sb + numSwitches n)%nat -> exists b : bool, w'.2 !! k = Some (Some b);
  ro_gates : forall fuel val ins outs sws, (n <= fuel)%nat ->
    (forall i, (i < n)%nat -> val (ins i) = data <$> L !! i) -> (forall j, (j < n)%nat -> val (outs j) = data <$> R !! j) ->
    (forall k x, (iv <= k < iv + num_intermediate n)%nat -> w'.1 !! k = Some x -> val (WVar k) = x) ->
    (forall k, (sb <= k < sb + numSwitches n)%nat -> sws !! k = w'.2 !! k) ->
    Forall (gate_holds val sws) (network fuel n iv sb ins outs)
}.

Lemma matched_one L R : matched 1 L R -> exists p, L = [p] /\ R = [p].
Proof.
  intros [[HL HR] Hl _]. destruct (Hl 0%nat ltac:(lia)) as (p & Hp & _ & Hd & _ & Hr). exists p.
  destruct L as [|p0 [|]], R as [|q [|]]; try (cbn in *; lia). replace (dst p) with 0%nat in Hr by lia. cbn in *. by simplify_eq.
Qed.

Lemma matched_two L R : matched 2 L R -> exists p q, L = [p; q] /\ (R = [p; q] \/ R = [q; p]).
Proof.
  intros [[HL HR] Hl Hr]. destruct L as [|p [|q [|]]], R as [|p' [|q' [|]]]; try (cbn in *; lia). exists p, q. split; [done|].
  destruct (Hl 0%nat ltac:(lia)) as (? & [= <-] & Hp1 & Hp2 & _ & Hp). destruct (Hl 1%nat ltac:(lia)) as (? & [= <-] & Hq1 & Hq2 & _ & Hq).
  assert (dst p <> dst q) as Hne.
  { intros Heq. rewrite Heq, Hq in Hp. injection Hp as ->. lia. }
  destruct (dst p) as [|[|]] eqn:Ep; [| |lia]; destruct (dst q) as [|[|]] eqn:Eq; try lia; cbn in *; simplify_eq; auto.
Qed.

Lemma route_two fuel iv sb L R w : (2 <= fuel)%nat -> matched 2 L R -> w.2 !! sb = Some None ->
  exists w', route fuel L R w iv sb 2 = Ok w' /\ routed_as 2 iv sb L R w w'.
Proof.
  intros Hf Hm Hsb. destruct fuel as [|fuel]; [lia|]. cbn [route Nat.eqb]. destruct w as [inter sws]. cbn [snd] in Hsb.
  pose proof (lookup_lt_Some _ _ _ Hsb) as Hlt. unfold route_switch. rewrite (rd_lookup _ _ _ Hsb), res_bind_Ok.
  assert (Hns : numSwitches 2 = 1%nat) by done. assert (Hni : num_intermediate 2 = 0%nat) by done.
  assert (Hgo : forall b : bool, (forall j, (j < 2)%nat -> data <$> R !! j = data <$> L !! (if b then 1 - j else j)%nat) -> routed_as 2 iv sb L R (inter, sws) (inter, <[sb := Some b]> sws)).
  { intros b Hb. split; cbn [fst snd]; rewrite ?Hns, ?Hni.
    - by rewrite length_insert.
    - done.
    - intros k Hk. by rewrite list_lookup_insert_ne by lia.
    - intros k Hk. lia.
    - intros k Hk. replace k with sb by lia. exists b. by rewrite list_lookup_insert_eq.
    - intros [|fuel'] val ins outs sws' Hf' Hins Houts _ Hsws; [lia|]. cbn [network Nat.ltb Nat.leb Nat.eqb]. apply Forall_cons. split; [|by apply Forall_nil_2].
      destruct (matched_two _ _ Hm) as (p & q & -> & HR). exists b. cbn [s1 s2 t1 t2 sw].
      rewrite Hsws, list_lookup_insert_eq by lia. rewrite !Hins, !Houts by lia. pose proof (Hb 0%nat ltac:(lia)) as B0. pose proof (Hb 1%nat ltac:(lia)) as B1.
      rewrite B0, B1. clear. destruct b; cbn; split_and!; by try eexists. }
  destruct (matched_two _ _ Hm) as (p & q & -> & HR).
  assert (Hwr : forall b : bool, wr sws sb (Some b) = Ok (<[sb := Some b]> sws)) by (intros b; by apply wr_nat).
  destruct HR as [-> | ->].
  - change (rd [p; q] 0) with (Ok p). rewrite !res_bind_Ok, (proj2 (data_equal_spec _ _) eq_refl), Hwr, res_bind_Ok. eexists. split; [done|]. apply Hgo.
    by intros [|[|]] Hj; [| |lia].
  - change (rd [p; q] 0) with (Ok p). change (rd [q; p] 0) with (Ok q). change (rd [q; p] 1) with (Ok p). rewrite !res_bind_Ok.
    destruct (data_equal (data p) (data q)) eqn:Heq.
    + apply data_equal_spec in Heq. rewrite Hwr, res_bind_Ok. eexists. split; [done|]. apply Hgo. intros [|[|]] Hj; cbn; [by rewrite Heq..|lia].
    + rewrite (proj2 (data_equal_spec _ _) eq_refl), Hwr, res_bind_Ok. eexists. split; [done|]. apply Hgo. by intros [|[|]] Hj; [| |lia].
Qed.

Lemma route_one fuel iv sb L R w : (1 <= fuel)%nat -> matched 1 L R -> route fuel L R w iv sb 1 = Ok w /\ routed_as 1 iv sb L R w w.
Proof.
  intros Hf Hm. destruct fuel as [|fuel]; [lia|]. destruct (matched_one _ _ Hm) as (p & -> & ->). split.
  - cbn [route Nat.eqb]. change (rd [p] 0) with (Ok p). by rewrite !res_bind_Ok, (proj2 (data_equal_spec _ _) eq_refl).
  - change (num_intermediate 1) with 0%nat. split; change (num_intermediate 1) with 0%nat; change (numSwitches 1) with 0%nat; try done; try (intros; lia).
    intros [|] val ins outs sws _ _ _ _ _; by apply Forall_nil_2.
Qed.

(** The functions of [WakLevel.v] for given packets. *)
Definition dst_of (L : list packet_t) (i : nat) : nat := from_option dst 0%nat (L !! i).
Definition src_of (R : list packet_t) (j : nat) : nat := from_option src 0%nat (R !! j).
Definition junk : data_t := {| addr := 0; timestamp := 0; type_ := 0; value := 0 |}.
Definition data_of (L : list packet_t) (i : nat) : data_t := from_option data junk (L !! i).

Lemma matched_functions n L R : matched n L R ->
  (forall i, (i < n)%nat -> (dst_of L i < n)%nat /\ src_of R (dst_of L i) = i) /\ (forall j, (j < n)%nat -> (src_of R j < n)%nat /\ dst_of L (src_of R j) = j).
Proof.
  intros [_ Hl Hr]. split.
  - intros i Hi. destruct (Hl i Hi) as (p & Hp & Hs & Hd & _ & Hq). unfold dst_of, src_of. rewrite Hp. cbn. by rewrite Hq.
  - intros j Hj. destruct (Hr j Hj) as (p & Hp & Hs & Hd & Hq). unfold dst_of, src_of. rewrite Hp. cbn. by rewrite Hq.
Qed.

Lemma level_start n iv sb L R inter sws : (3 <= n)%nat -> matched n L R -> (iv + level_vars n <= length inter)%nat -> (sb + leftSwitchCt n + rightSwitchCt n <= length sws)%nat ->
  (forall k, (sb <= k < sb + leftSwitchCt n + rightSwitchCt n)%nat -> sws !! k = Some None) ->
  follows n (dst_of L) (src_of R) (data_of L) iv sb sws inter
    {| left_pkt := L; right_pkt := R; intermediate := inter; switches := sws; topLeft := replicate (topSize n) None; topRight := replicate (topSize n) None;
       botLeft := replicate (bottomSize n) None; botRight := replicate (bottomSize n) None |} (fun _ => None).
Proof.
  intros Hn [[HL HR] Hl Hr] Hiv Hsb Hsw. split; fields; try done.
  - intros i Hi. destruct (Hl i Hi) as (p & Hp & Hs & Hd & Hrt & Hq). unfold dst_of, data_of. rewrite Hp. cbn. subst i. by destruct p; cbn in *; subst.
  - intros j Hj. destruct (Hr j Hj) as (p & Hp & Hs & Hd & Hq). destruct (Hl (src p) Hd) as (p' & Hp' & _ & _ & Hrt & _). rewrite Hp' in Hq. injection Hq as ->.
    unfold src_of, data_of. rewrite Hp. cbn. rewrite Hp'. cbn. subst j. by destruct p; cbn in *; subst.
  - by rewrite !length_replicate.
  - intros k Hk. apply Hsw. lia.
  - intros k Hk. apply Hsw. lia.
Qed.

Lemma Forall_tabulate {A} (P : A -> Prop) (k : nat) (f : nat -> A) : (forall i, (i < k)%nat -> P (f i)) -> Forall P (tabulate k f).
Proof. intros Hf. apply Forall_fmap, Forall_seq. intros i Hi. apply Hf. lia. Qed.

(** A level and the two networks it leaves to be routed. *)
Section Glue.
Context (n : nat) (Hn : (3 <= n)%nat) (π σ : nat -> nat).
Context (Hσ : forall j, (j < n)%nat -> (σ j < n)%nat /\ π (σ j) = j).
Context (d : nat -> data_t) (iv sb : nat) (sws0 : list switch_t) (inter0 : list (option data_t)).
Context (s : routing) (col : nat -> option bool) (HF : follows n π σ d iv sb sws0 inter0 s col) (HP : proper n σ col).
Context (Hall : forall i, (i < n)%nat -> is_Some (col i)).
Context (L R TL TR BL BR : list packet_t) (w2 w3 : wires).
Abbreviation iv1 := (iv + level_vars n)%nat.
Abbreviation sb1 := (sb + leftSwitchCt n + rightSwitchCt n)%nat.
Abbreviation iv2 := (iv1 + num_intermediate (topSize n))%nat.
Abbreviation sb2 := (sb1 + numSwitches (topSize n))%nat.
Context (Htop : routed_as (topSize n) iv1 sb1 TL TR (intermediate s, switches s) w2) (Hbot : routed_as (bottomSize n) iv2 sb2 BL BR w2 w3).
Context (HL : forall i, (i < n)%nat -> data <$> L !! i = Some (d i)) (HR : forall j, (j < n)%nat -> data <$> R !! j = Some (d (σ j))).
Context (HTL : forall i c, (i < n)%nat -> col i = Some c -> data <$> (if c then BL else TL) !! (i / 2)%nat = Some (d i)).
Context (HTR : forall j c, (j < n)%nat -> rcol σ col j = Some c -> data <$> (if c then BR else TR) !! (j / 2)%nat = Some (d (σ j))).

(** Each array is the level's, then the top network's, then the bottom one's. *)
Lemma level_inter k : (k < iv1)%nat -> w3.1 !! k = intermediate s !! k.
Proof. intros Hk. rewrite (ro_inter _ _ _ _ _ _ _ Hbot) by lia. by rewrite (ro_inter _ _ _ _ _ _ _ Htop) by lia. Qed.

Lemma level_sws k : (k < sb1)%nat -> w3.2 !! k = switches s !! k.
Proof. intros Hk. rewrite (ro_sws _ _ _ _ _ _ _ Hbot) by lia. by rewrite (ro_sws _ _ _ _ _ _ _ Htop) by lia. Qed.

Lemma setting_set k : (sb <= k < sb1)%nat -> exists b : bool, switches s !! k = Some (Some b).
Proof.
  intros Hk. pose proof (sizes n Hn) as [Hnl Hnr]. rewrite nl_2, nr_2 in *.
  destruct (decide (k < sb + leftSwitchCt n)%nat) as [Hl|Hl].
  - replace k with (sb + (k - sb))%nat by lia. rewrite (fo_lsw _ _ _ _ _ _ _ _ _ _ HF) by lia.
    destruct (Hall (2 * (k - sb))%nat ltac:(destruct (Nat.odd n); lia)) as [c ->]. by exists c.
  - replace k with (sb + leftSwitchCt n + (k - sb - leftSwitchCt n))%nat by lia. rewrite (fo_rsw _ _ _ _ _ _ _ _ _ _ HF) by lia. unfold rcol.
    destruct (Hσ (2 * (k - sb - leftSwitchCt n))%nat ltac:(destruct (Nat.odd n); lia)) as [Hs _]. destruct (Hall _ Hs) as [c ->]. by exists c.
Qed.

Lemma glue_gates fuel val ins outs sws : (n <= fuel)%nat ->
  (forall i, (i < n)%nat -> val (ins i) = data <$> L !! i) -> (forall j, (j < n)%nat -> val (outs j) = data <$> R !! j) ->
  (forall k x, (iv <= k < iv + num_intermediate n)%nat -> w3.1 !! k = Some x -> val (WVar k) = x) ->
  (forall k, (sb <= k < sb + numSwitches n)%nat -> sws !! k = w3.2 !! k) ->
  Forall (gate_holds val sws) (network fuel n iv sb ins outs).
Proof.
  intros Hfuel Hins Houts Hvar Hsws. pose proof (halves n ltac:(lia)) as (Hlt & Hsum & H1 & Hle & Hbt & Hlr & Hns).
  pose proof (num_intermediate_level n Hn) as Hni. destruct fuel as [|fuel]; [lia|]. cbn [network].
  rewrite (proj2 (Nat.ltb_ge _ _)), (proj2 (Nat.eqb_neq _ _)) by lia.
  assert (Hins' : forall i, (i < n)%nat -> val (ins i) = Some (d i)) by (intros i Hi; rewrite Hins, HL by done; done).
  assert (Houts' : forall j, (j < n)%nat -> val (outs j) = Some (d (σ j))) by (intros j Hj; rewrite Houts, HR by done; done).
  assert (Hlev : forall k x, (iv <= k < iv1)%nat -> intermediate s !! k = Some x -> val (WVar k) = x).
  { intros k x Hk Hx. apply Hvar; [lia|]. by rewrite level_inter by lia. }
  assert (Hswl : forall k, (sb <= k < sb1)%nat -> sws !! k = switches s !! k) by (intros k Hk; rewrite Hsws, level_sws by lia; done).
  assert (HlV := left_value n Hn π σ d iv sb sws0 inter0 s col HF HP val ins Hins' Hlev).
  assert (HrV := right_value n Hn π σ Hσ d iv sb sws0 inter0 s col HF HP val outs Houts' Hlev).
  repeat (apply Forall_app; split).
  - apply Forall_tabulate. intros k Hk. by apply (left_gate n Hn π σ d iv sb sws0 inter0 s col HF HP Hall val ins sws Hins' Hlev Hswl).
  - apply Forall_tabulate. intros k Hk. by apply (right_gate n Hn π σ Hσ d iv sb sws0 inter0 s col HF HP Hall val outs sws Houts' Hlev Hswl).
  - apply (ro_gates _ _ _ _ _ _ _ Htop); [lia|..].
    + intros k Hk. destruct (packet_left n Hn σ col HP Hall false k Hk) as (i & Hi & <- & Hc). rewrite (HlV i false Hi Hc). by rewrite (HTL i false Hi Hc).
    + intros k Hk. destruct (packet_right n Hn π σ Hσ col HP Hall false k Hk) as (j & Hj & <- & Hc). rewrite (HrV j false Hj Hc). by rewrite (HTR j false Hj Hc).
    + intros k x Hk Hx. apply Hvar; [lia|]. by rewrite (ro_inter _ _ _ _ _ _ _ Hbot) by lia.
    + intros k Hk. rewrite Hsws by lia. by rewrite (ro_sws _ _ _ _ _ _ _ Hbot) by lia.
  - apply (ro_gates _ _ _ _ _ _ _ Hbot); [lia|..].
    + intros k Hk. destruct (packet_left n Hn σ col HP Hall true k Hk) as (i & Hi & <- & Hc). rewrite (HlV i true Hi Hc). by rewrite (HTL i true Hi Hc).
    + intros k Hk. destruct (packet_right n Hn π σ Hσ col HP Hall true k Hk) as (j & Hj & <- & Hc). rewrite (HrV j true Hj Hc). by rewrite (HTR j true Hj Hc).
    + intros k x Hk Hx. apply Hvar; [lia|done].
    + intros k Hk. by rewrite Hsws by lia.
Qed.

Lemma glue : routed_as n iv sb L R (inter0, sws0) w3.
Proof.
  pose proof (halves n ltac:(lia)) as (Hlt & Hsum & H1 & Hle & Hbt & Hlr & Hns). pose proof (num_intermediate_level n Hn) as Hni.
  pose proof (fo_lengths _ _ _ _ _ _ _ _ _ _ HF) as (_ & _ & Hls & Hli & _).
  pose proof (ro_lengths _ _ _ _ _ _ _ Htop) as [T1 T2]. pose proof (ro_lengths _ _ _ _ _ _ _ Hbot) as [B1 B2]. cbn [fst snd] in *. split; cbn [fst snd].
  - rewrite B1, B2, T1, T2. done.
  - intros k Hk. rewrite (ro_inter _ _ _ _ _ _ _ Hbot), (ro_inter _ _ _ _ _ _ _ Htop) by lia. apply (fo_int _ _ _ _ _ _ _ _ _ _ HF). lia.
  - intros k Hk. rewrite (ro_sws _ _ _ _ _ _ _ Hbot), (ro_sws _ _ _ _ _ _ _ Htop) by lia. apply (fo_sw _ _ _ _ _ _ _ _ _ _ HF). lia.
  - intros k Hk. destruct (decide (k < iv1)%nat); [|destruct (decide (k < iv2)%nat)].
    + rewrite level_inter by done. apply (level_set n Hn π σ Hσ d iv sb sws0 inter0 s col HF HP Hall). lia.
    + rewrite (ro_inter _ _ _ _ _ _ _ Hbot) by lia. apply (ro_inter_set _ _ _ _ _ _ _ Htop). lia.
    + apply (ro_inter_set _ _ _ _ _ _ _ Hbot). lia.
  - intros k Hk. destruct (decide (k < sb1)%nat); [|destruct (decide (k < sb2)%nat)].
    + rewrite level_sws by done. apply setting_set. lia.
    + rewrite (ro_sws _ _ _ _ _ _ _ Hbot) by lia. apply (ro_sws_set _ _ _ _ _ _ _ Htop). lia.
    + apply (ro_sws_set _ _ _ _ _ _ _ Hbot). lia.
  - intros. by apply glue_gates.
Qed.

End Glue.

Lemma route_Ok fuel : forall n iv sb L R w, (1 <= n <= fuel)%nat -> matched n L R ->
  (iv + num_intermediate n <= length w.1)%nat -> (sb + numSwitches n <= length w.2)%nat ->
  (forall k, (sb <= k < sb + numSwitches n)%nat -> w.2 !! k = Some None) ->
  exists w', route fuel L R w iv sb n = Ok w' /\ routed_as n iv sb L R w w'.
Proof.
  induction fuel as [|fuel IH]; intros n iv sb L R w Hn Hm Hiv Hsb Hun; [lia|].
  destruct (decide (n = 1)%nat) as [->|H1]; [exists w; apply route_one; [lia|done]|].
  destruct (decide (n = 2)%nat) as [->|H2]; [apply route_two; [lia|done|apply Hun; cbn; lia]|].
  assert (3 <= n)%nat as H3 by lia. pose proof (halves n ltac:(lia)) as (Hlt & Hsum & Ht1 & Hle & Hbt & Hlr & Hns). pose proof (num_intermediate_level n H3) as Hni.
  destruct w as [inter sws]. cbn [fst snd] in *. destruct (matched_functions _ _ _ Hm) as [Hπ Hσ].
  cbn [route]. rewrite !(proj2 (Nat.eqb_neq _ _)) by done. set (s0 := {| left_pkt := L |}).
  assert (HF0 : follows n (dst_of L) (src_of R) (data_of L) iv sb sws inter s0 (fun _ => None)).
  { apply level_start; try done; try lia. intros k Hk. apply Hun. lia. }
  destruct (route_level_Ok n H3 _ _ Hπ Hσ _ iv sb sws inter ltac:(lia) ltac:(lia) s0 HF0) as (next & s1 & s & col & -> & Hrun & HF & HP & Hall).
  rewrite res_bind_Ok, Hrun, res_bind_Ok.
  destruct (sub_matched n H3 _ _ Hπ Hσ _ _ _ _ _ _ _ HF HP Hall false) as (TL & TR & ETL & ETR & HT & DTL & DTR).
  destruct (sub_matched n H3 _ _ Hπ Hσ _ _ _ _ _ _ _ HF HP Hall true) as (BL & BR & EBL & EBR & HB & DBL & DBR).
  cbn [subLeft subRight size_of] in *. rewrite ETL, res_bind_Ok, ETR, res_bind_Ok, EBL, res_bind_Ok, EBR, res_bind_Ok.
  pose proof (fo_lengths _ _ _ _ _ _ _ _ _ _ HF) as (_ & _ & Hls & Hli & _).
  assert (Hrest : forall k, (sb + leftSwitchCt n + rightSwitchCt n <= k < sb + numSwitches n)%nat -> switches s !! k = Some None).
  { intros k Hk. rewrite (fo_sw _ _ _ _ _ _ _ _ _ _ HF) by lia. apply Hun. lia. }
  assert (exists w2, route fuel TL TR (intermediate s, switches s) (iv + numLeftVars n + numRightVars n) (sb + leftSwitchCt n + rightSwitchCt n) (topSize n) = Ok w2 /\
    routed_as (topSize n) (iv + level_vars n) (sb + leftSwitchCt n + rightSwitchCt n) TL TR (intermediate s, switches s) w2) as (w2 & -> & Htop).
  { destruct (decide (n = 3)%nat) as [He|He].
    - assert (Hts : topSize n = 1%nat) by (by rewrite He). rewrite Hts in *. eexists. split; [exact (proj1 (route_one fuel _ _ _ _ _ ltac:(lia) HT))|exact (proj2 (route_one fuel _ _ _ _ _ ltac:(lia) HT))].
    - rewrite <- Nat.add_assoc, <- (proj2 (level_large n) He). apply IH; [lia|done|cbn [fst]; lia|cbn [snd]; lia|]. intros k Hk. apply Hrest. lia. }
  rewrite res_bind_Ok. pose proof (ro_lengths _ _ _ _ _ _ _ Htop) as [HT1 HT2]. cbn [fst snd] in *.
  assert (Z.to_nat (Z.of_nat (iv + numLeftVars n + numRightVars n) + (Z.of_nat (2 * numSwitches (topSize n)) - Z.of_nat (topSize n))) =
    iv + level_vars n + num_intermediate (topSize n))%nat as ->.
  { unfold num_intermediate. destruct (decide (n = 3)%nat) as [He|He]; [by rewrite He; cbn; lia|]. rewrite (proj2 (level_large n) He).
    pose proof (enough_switches (topSize n)). assert (2 <= topSize n)%nat by lia. lia. }
  destruct (IH (bottomSize n) (iv + level_vars n + num_intermediate (topSize n))%nat (sb + leftSwitchCt n + rightSwitchCt n + numSwitches (topSize n))%nat BL BR w2) as (w3 & Hw3 & Hbot);
    [lia|done|lia|lia| |].
  { intros k Hk. rewrite (ro_sws _ _ _ _ _ _ _ Htop) by lia. apply Hrest. lia. }
  exists w3. split; [done|]. apply (glue n H3 _ _ Hσ _ iv sb sws inter s col HF HP Hall L R TL TR BL BR w2 w3 Htop Hbot).
  - intros i Hi. destruct (ma_left _ _ _ Hm i Hi) as (p & Hp & _). unfold data_of. by rewrite Hp.
  - intros j Hj. destruct (ma_right _ _ _ Hm j Hj) as (p & Hp & _ & Hs & Hq). unfold src_of, data_of. rewrite Hp. cbn. by rewrite Hq.
  - intros i [] Hi Hc; [by apply DBL|by apply DTL].
  - intros j [] Hj Hc; [by apply DBR|by apply DTR].
Qed.
