(* ===== verification/WakSort.v ===== *)
(** The router sorts, and the switches it sets take its inputs to its outputs. *)
From Stdlib Require Import ZArith Lia Sorting.Sorted.
From stdpp Require Import base numbers list sorting.
From S2P Require Import Prelude Waksman WakColor WakLevel WakRoute.

(** ** Sorting *)

Section Qsort.
Context (cmp : packet_t -> packet_t -> Z).

Lemma insert_permutation p l : insert cmp p l ≡ₚ p :: l.
Proof.
  induction l as [|q l IH]; [done|]. cbn [insert]. destruct (cmp p q <? 0)%Z; [done|]. rewrite IH. apply Permutation_swap.
Qed.

Lemma qsort_permutation l : qsort cmp l ≡ₚ l.
Proof. induction l as [|p l IH]; [done|]. cbn. by rewrite insert_permutation, IH. Qed.

(** The comparison of a total preorder. *)
Context (R : relation packet_t) `{!Transitive R}.
Context (Hlt : forall p q, (cmp p q < 0)%Z -> R p q) (Hge : forall p q, (0 <= cmp p q)%Z -> R q p).

Lemma insert_sorted p l : StronglySorted R l -> StronglySorted R (insert cmp p l).
Proof.
  induction l as [|q l IH]; intros Hs; [by repeat constructor|]. cbn [insert]. apply StronglySorted_inv in Hs as [Hs Hq].
  destruct (Z.ltb_spec (cmp p q) 0) as [Hl|Hl].
  - constructor; [by constructor|]. apply Forall_cons_2; [by apply Hlt|]. eapply Forall_impl; [exact Hq|]. intros x Hx. cbn in *. transitivity q; [by apply Hlt|done].
  - constructor; [by apply IH|]. rewrite insert_permutation. apply Forall_cons_2; [by apply Hge|done].
Qed.

Lemma qsort_sorted l : StronglySorted R (qsort cmp l).
Proof. induction l as [|p l IH]; [constructor|]. cbn. by apply insert_sorted. Qed.

End Qsort.

(** By address, then by time. *)
Definition mem_le (x y : data_t) : Prop := (addr x < addr y \/ addr x = addr y /\ timestamp x <= timestamp y)%Z.

#[export] Instance mem_le_trans : Transitive mem_le.
Proof. intros x y z. unfold mem_le. lia. Qed.

#[export] Instance mem_le_dec : RelDecision mem_le.
Proof. intros x y. unfold mem_le. apply _. Defined.

Lemma packet_cmp_le p q : ((packet_cmp p q < 0)%Z -> mem_le (data p) (data q)) /\ ((0 <= packet_cmp p q)%Z -> mem_le (data q) (data p)).
Proof.
  unfold packet_cmp, mem_le. destruct (Z.eqb_spec (addr (data p)) (addr (data q))); [destruct (Z.ltb_spec (timestamp (data p)) (timestamp (data q)))|destruct (Z.ltb_spec (addr (data p)) (addr (data q)))]; lia.
Qed.

Lemma StronglySorted_fmap {A B} (f : A -> B) (R : relation B) l : StronglySorted (fun x y => R (f x) (f y)) l -> StronglySorted R (f <$> l).
Proof. induction 1 as [|x l _ IH Hx]; [constructor|]. cbn. constructor; [done|]. by apply Forall_fmap. Qed.

Lemma StronglySorted_seq k n : StronglySorted le (seq k n).
Proof. revert k. induction n as [|n IH]; intros k; [constructor|]. cbn. constructor; [apply IH|]. apply Forall_seq. lia. Qed.

(** ** The packets *)

(** The sorted packets, each with its place in the input and its own place. *)
Definition sorted_packets (input : list data_t) : list packet_t :=
  imap with_dst (qsort packet_cmp (imap (fun i x => {| data := x; src := i; dst := O; routed := false |}) input)).

Lemma sorted_data input : data <$> sorted_packets input ≡ₚ input /\ StronglySorted mem_le (data <$> sorted_packets input).
Proof.
  unfold sorted_packets. rewrite fmap_imap. change (imap _ ?l) with (imap (const data) l). rewrite list.imap_const. split.
  - rewrite qsort_permutation, fmap_imap. change (imap _ input) with (imap (const id) input). by rewrite list.imap_const, list_fmap_id.
  - apply StronglySorted_fmap, qsort_sorted; [intros p q r; apply mem_le_trans|intros p q; apply packet_cmp_le..].
Qed.

Lemma sorted_length input : length (sorted_packets input) = length input.
Proof. unfold sorted_packets. by rewrite length_imap, qsort_permutation, length_imap. Qed.

Lemma sorted_dst input : dst <$> sorted_packets input = seq 0 (length input).
Proof.
  rewrite <- (sorted_length input). unfold sorted_packets. rewrite fmap_imap, length_imap. etransitivity; [|apply list_fmap_id]. exact (imap_seq_0 _ id).
Qed.

Lemma sort_packet_src input : src <$> sort_packet input = seq 0 (length input).
Proof.
  assert (StronglySorted le (src <$> sort_packet input)) as Hs.
  { apply StronglySorted_fmap, qsort_sorted; intros p q; [lia|..]; unfold src_cmp; destruct (Nat.ltb_spec (src p) (src q)); lia. }
  apply (StronglySorted_unique le); [done|apply StronglySorted_seq|]. unfold sort_packet. rewrite qsort_permutation, fmap_imap.
  change (imap _ ?l) with (imap (const src) l). rewrite list.imap_const, qsort_permutation, fmap_imap.
  apply eq_subrelation; [apply _|]. etransitivity; [exact (imap_seq_0 input id)|apply list_fmap_id].
Qed.

(** Each packet knows where in the input it comes from. *)
Lemma sort_packet_data input : data <$> sort_packet input = input.
Proof.
  assert (HF : Forall (fun p => input !! src p = Some (data p)) (sort_packet input)).
  { unfold sort_packet. rewrite qsort_permutation. apply Forall_lookup. intros k p Hk. rewrite list_lookup_imap in Hk.
    set (P := imap (fun i x => {| data := x; src := i; dst := 0%nat; routed := false |}) input) in *.
    destruct (qsort packet_cmp P !! k) as [q|] eqn:Hq; [|done]. cbn in Hk. injection Hk as <-. cbn.
    assert (q ∈ P) as [j Hj]%list_elem_of_lookup by (rewrite <- (qsort_permutation packet_cmp P); by eapply list_elem_of_lookup_2).
    unfold P in Hj. rewrite list_lookup_imap in Hj. destruct (input !! j) as [x|] eqn:Hx; [|done]. cbn in Hj. by injection Hj as <-. }
  pose proof (sort_packet_src input) as Hs. apply list_eq. intros i. rewrite list_lookup_fmap.
  assert (Hi : (src <$> sort_packet input) !! i = seq 0 (length input) !! i) by (by rewrite Hs). rewrite list_lookup_fmap in Hi.
  destruct (sort_packet input !! i) as [p|] eqn:Hp.
  - cbn in *. symmetry in Hi. apply lookup_seq in Hi as [Hi _]. rewrite <- (proj1 (Forall_lookup _ _) HF i p Hp). by rewrite Hi.
  - cbn in *. symmetry in Hi. apply lookup_ge_None in Hi. rewrite length_seq in Hi. symmetry. by apply lookup_ge_None.
Qed.

Lemma lookup_own {f : packet_t -> nat} (l : list packet_t) n i p : f <$> l = seq 0 n -> l !! i = Some p -> f p = i /\ (i < n)%nat.
Proof.
  intros Hf Hi. assert ((f <$> l) !! i = Some (f p)) as Hl by (by rewrite list_lookup_fmap, Hi). rewrite Hf in Hl. by apply lookup_seq in Hl as [-> ?].
Qed.

Lemma own_lookup {f : packet_t -> nat} (l : list packet_t) n i : f <$> l = seq 0 n -> (i < n)%nat -> exists p, l !! i = Some p.
Proof. intros Hf Hi. apply lookup_lt_is_Some. rewrite <- (length_fmap f), Hf. by rewrite length_seq. Qed.

Lemma matched_permutation n L R : L ≡ₚ R -> src <$> L = seq 0 n -> dst <$> R = seq 0 n -> Forall (fun p => routed p = false) L -> matched n L R.
Proof.
  intros HP HL HR Hr. split.
  - rewrite <- (length_fmap src L), <- (length_fmap dst R), HL, HR. by rewrite length_seq.
  - intros i Hi. destruct (own_lookup L n i HL Hi) as [p Hp]. exists p. split; [done|]. split; [by apply (lookup_own L n)|].
    assert (p ∈ R) as [j Hj]%list_elem_of_lookup by (rewrite <- HP; by eapply list_elem_of_lookup_2). destruct (lookup_own R n j p HR Hj) as [Hd Hjn].
    rewrite Hd. split; [done|]. split; [|done]. by apply (proj1 (Forall_lookup _ _) Hr i).
  - intros j Hj. destruct (own_lookup R n j HR Hj) as [p Hp]. exists p. split; [done|]. split; [by apply (lookup_own R n)|].
    assert (p ∈ L) as [i Hi]%list_elem_of_lookup by (rewrite HP; by eapply list_elem_of_lookup_2). destruct (lookup_own L n i p HL Hi) as [Hd Hin].
    by rewrite Hd.
Qed.

Lemma all_packets_Some R : all_packets (Some <$> R) = Ok R.
Proof. induction R as [|p R IH]; [done|]. cbn. by rewrite IH. Qed.

(** Each packet goes to its place on the right. *)
Lemma place_right_Ok n L R : matched n L R -> place_right n L = Ok (Some <$> R).
Proof.
  intros [[HLn HRn] HL HR]. unfold place_right.
  destruct (for_upM_ind (fun i r => length r = n /\ forall k p, (k < i)%nat -> L !! k = Some p -> r !! dst p = Some (Some p)) 0 n
    (fun i r => p ← rd L (Z.of_nat i); wr r (Z.of_nat (dst p)) (Some p)) (replicate n None)) as (r & -> & Hr & Hin); [lia| | |].
  - split; [by rewrite length_replicate|]. intros k p Hk. lia.
  - intros i r [_ Hi] [Hr Hin]. destruct (HL i Hi) as (p & Hp & Hs & Hd & _ & Hq). rewrite (rd_lookup _ _ _ Hp), res_bind_Ok, wr_nat by lia.
    eexists. split; [done|]. split; [by rewrite length_insert|]. intros k p' Hk Hp'. destruct (decide (k = i)) as [->|Hne].
    + rewrite Hp' in Hp. injection Hp as ->. by rewrite list_lookup_insert_eq by lia.
    + rewrite list_lookup_insert_ne; [apply (Hin k); [lia|done]|]. intros Hdd. destruct (HL k ltac:(lia)) as (p2 & Hp2 & Hs2 & _ & _ & Hq2).
      rewrite Hp' in Hp2. injection Hp2 as <-. rewrite <- Hdd, Hq in Hq2. injection Hq2 as ->. congruence.
  - f_equal. apply list_eq. intros j. destruct (decide (j < n)%nat) as [Hj|Hj].
    + destruct (HR j Hj) as (p & Hp & <- & Hs & Hq). rewrite (Hin (src p) p Hs Hq). rewrite list_lookup_fmap. by rewrite Hp.
    + rewrite !lookup_ge_None_2; [done|rewrite length_fmap; lia|lia].
Qed.

Lemma wires_set {A} (l : list (option A)) n : length l = n -> (forall k, (k < n)%nat -> exists x, l !! k = Some (Some x)) -> exists xs, l = Some <$> xs.
Proof.
  revert n. induction l as [|o l IH]; intros n Hn Hl; [by exists []|]. cbn in Hn. destruct (Hl 0%nat ltac:(lia)) as [x [= ->]].
  destruct (IH (length l) eq_refl) as [xs ->]; [intros k Hk; apply (Hl (S k)); lia|]. by exists (x :: xs).
Qed.

(** ** The router *)

Definition value_of (input inter output : list data_t) (x : wire) : option data_t :=
  match x with WIn i => input !! i | WVar i => inter !! i | WOut i => output !! i end.

Lemma route_sorted input : (2 <= length input)%nat ->
  let n := length input in
  exists inter output sws, wak_route input n (num_intermediate n) (numSwitches n) = Ok (Some <$> output, (Some <$> inter, Some <$> sws)) /\
    length inter = num_intermediate n /\ length sws = numSwitches n /\
    output ≡ₚ input /\ StronglySorted mem_le output /\
    Forall (gate_holds (value_of input inter output) (Some <$> sws)) (network n n 0 0 WIn WOut).
Proof.
  intros Hn n. set (L := unroute <$> sort_packet input). set (R := unroute <$> sorted_packets input).
  assert (Hproj : forall l : list packet_t, src <$> (unroute <$> l) = src <$> l /\ dst <$> (unroute <$> l) = dst <$> l /\ data <$> (unroute <$> l) = data <$> l).
  { intros l. by rewrite <- !list_fmap_compose. }
  assert (HM : matched n L R).
  { apply matched_permutation; unfold L, R.
    - unfold sort_packet. by rewrite (qsort_permutation src_cmp).
    - rewrite (proj1 (Hproj _)). apply sort_packet_src.
    - rewrite (proj1 (proj2 (Hproj _))). apply sorted_dst.
    - apply Forall_fmap, Forall_true. done. }
  destruct (sorted_data input) as [HP HS]. set (output := data <$> sorted_packets input) in *.
  destruct (route_Ok n n 0 0 L R (replicate (num_intermediate n) None, replicate (numSwitches n) None)) as ([inter sws] & Hrun & HR).
  { lia. } { done. } { cbn [fst]. by rewrite length_replicate. } { cbn [snd]. by rewrite length_replicate. }
  { intros k Hk. cbn [snd]. apply lookup_replicate_2. lia. }
  pose proof (ro_lengths _ _ _ _ _ _ _ HR) as [Hli Hls]. cbn [fst snd] in *. rewrite length_replicate in Hli. rewrite length_replicate in Hls.
  destruct (wires_set inter _ Hli) as [inter' ->]; [intros k Hk; apply (ro_inter_set _ _ _ _ _ _ _ HR); lia|].
  destruct (wires_set sws _ Hls) as [sws' ->]; [intros k Hk; apply (ro_sws_set _ _ _ _ _ _ _ HR); lia|].
  exists inter', output, sws'. rewrite length_fmap in Hli. rewrite length_fmap in Hls. split; [|split; [done|split; [done|split; [done|split; [done|]]]]].
  - unfold wak_route. rewrite (proj2 (Nat.ltb_ge _ _)) by done. fold L. rewrite (place_right_Ok _ _ _ HM), res_bind_Ok, all_packets_Some, res_bind_Ok.
    fold n. rewrite Hrun, res_bind_Ok. unfold R, output. by rewrite <- !list_fmap_compose.
  - assert (data <$> L = input) as HLi.
    { unfold L. rewrite (proj2 (proj2 (Hproj _))). apply sort_packet_data. }
    apply (ro_gates _ _ _ _ _ _ _ HR).
    + done.
    + intros i Hi. rewrite <- list_lookup_fmap, HLi. done.
    + intros j Hj. rewrite <- list_lookup_fmap. unfold R. by rewrite (proj2 (proj2 (Hproj _))).
    + intros k x Hk Hx. cbn [fst] in Hx. cbn [value_of]. rewrite list_lookup_fmap in Hx. by destruct (inter' !! k); simplify_eq/=.
    + intros k Hk. done.
Qed.

(** C4: For every memory of at least two operations the router ends without a
    failed assertion or a wire left unset; its outputs are the inputs sorted by
    address and time, and every switch of the network, set as the router says,
    takes the values of its two inputs to its two outputs. *)
Theorem wak_route_sorts input : (2 <= length input)%nat ->
  let n := length input in
  exists inter output sws, wak_route input n (num_intermediate n) (numSwitches n) = Ok (Some <$> output, (Some <$> inter, Some <$> sws)) /\
    length inter = num_intermediate n /\ length sws = numSwitches n /\
    output ≡ₚ input /\ StronglySorted mem_le output /\
    Forall (gate_holds (value_of input inter output) (Some <$> sws)) (network n n 0 0 WIn WOut).
Proof. apply route_sorted. Qed.

Definition three_operations : list data_t :=
  [ {| addr := 5; timestamp := 0; type_ := 1; value := 40 |}; {| addr := 3; timestamp := 1; type_ := 1; value := 41 |};
    {| addr := 5; timestamp := 2; type_ := 0; value := 42 |} ].

Lemma wak_route_sorts_witness : exists inter output sws,
  wak_route three_operations 3 (num_intermediate 3) (numSwitches 3) = Ok (Some <$> output, (Some <$> inter, Some <$> sws)) /\
  output ≡ₚ three_operations /\ StronglySorted mem_le output.
Proof.
  destruct (wak_route_sorts three_operations) as (inter & output & sws & Hr & _ & _ & HP & HS & _); [cbn; lia|].
  exists inter, output, sws. split; [exact Hr|]. split; [exact HP|exact HS].
Defined.
