(* ===== verification/WakNet.v ===== *)
(** The network the compiler builds for the router: [wak.py], and the
    variables and constraints [zcc_parser.py] makes of it.

    A line of [hooked] is the record of its words: a node, the switch it enters
    or leaves ([None] for the word [link]) and another node.  [Tsw4] and [Bsw4]
    are the two lines of switch 4. *)
From Stdlib Require Import ZArith Lia Sorting.Sorted.
From stdpp Require Import base numbers list sorting.
From S2P Require Import Prelude Waksman WakColor WakLevel WakRoute WakSort.

Record hook : Type := { h_source : wire; h_switch : bool * nat; h_target : wire }.

Record builder : Type := { hooked : list hook; varct : nat; swc : nat }.

Definition mkSwitches (n : nat) (st : builder) : list (bool * nat) * builder :=
  (concat (tabulate n (fun i => [(true, swc st + i); (false, swc st + i)]))%nat, {| hooked := hooked st; varct := varct st; swc := swc st + n |}).

Definition mkNode (st : builder) : wire * builder :=
  (WVar (varct st), {| hooked := hooked st; varct := S (varct st); swc := swc st |}).

Definition hook_line (h : hook) (st : builder) : builder := {| hooked := hooked st ++ [h]; varct := varct st; swc := swc st |}.

(** [hooked[-4]] gets the source of [hooked[-2]] as its last word. *)
Definition merge_single (st : builder) : builder :=
  let l := hooked st in
  {| hooked := match l !! (length l - 4)%nat, l !! (length l - 2)%nat with
               | Some a, Some b => <[(length l - 4)%nat := {| h_source := h_source a; h_switch := h_switch a; h_target := h_source b |}]> l
               | _, _ => l
               end;
     varct := varct st; swc := swc st |}.

#[export] Instance wire_inhabited : Inhabited wire := populate (WIn 0).

(** A column of switches; [None] is the word [link]. *)
Definition is_bottom (n i : nat) : bool := Nat.odd i || (Nat.odd n && (i =? n - 1)%nat).

Record sides : Type := { top_vars : list wire; bot_vars : list wire }.

Definition add_var (n i : nat) (var : wire) (v : sides) : sides :=
  if is_bottom n i then {| top_vars := top_vars v; bot_vars := bot_vars v ++ [var] |} else {| top_vars := top_vars v ++ [var]; bot_vars := bot_vars v |}.

Definition column (n : nat) (left : bool) (nodes : list wire) (sws : list (option (bool * nat))) (st : builder) : sides * builder :=
  for_up 0 n (fun i '(v, st) =>
    let node := nodes !!! i in
    match sws !!! i with
    | None => (add_var n i node v, st)
    | Some sw =>
        let '(var, st) := mkNode st in
        (add_var n i var v, hook_line (if left then {| h_source := node; h_switch := sw; h_target := var |}
                                       else {| h_source := var; h_switch := sw; h_target := node |}) st)
    end) ({| top_vars := []; bot_vars := [] |}, st).

Fixpoint buildwak (fuel : nat) (inputs outputs : list wire) (n : nat) (st : builder) : builder :=
  match fuel with
  | O => st
  | S fuel =>
      if (n =? 1)%nat then merge_single st
      else if (n =? 2)%nat then
        let '(sw, st) := mkSwitches 1 st in
        hook_line {| h_source := inputs !!! 1%nat; h_switch := sw !!! 1%nat; h_target := outputs !!! 1%nat |}
          (hook_line {| h_source := inputs !!! 0%nat; h_switch := sw !!! 0%nat; h_target := outputs !!! 0%nat |} st)
      else
        let leftSwitchCount := (n / 2)%nat in
        let rightSwitchCount := (leftSwitchCount - 1 + n mod 2)%nat in
        let '(lsw, st) := mkSwitches leftSwitchCount st in
        let leftSwitches := (Some <$> lsw) ++ (if Nat.odd n then [None] else []) in
        let '(rsw, st) := mkSwitches rightSwitchCount st in
        let rightSwitches := (Some <$> rsw) ++ (if Nat.odd n then [None] else [None; None]) in
        let '(lv, st) := column n true inputs leftSwitches st in
        let '(rv, st) := column n false outputs rightSwitches st in
        let st := buildwak fuel (top_vars lv) (top_vars rv) (n / 2) st in
        buildwak fuel (bot_vars lv) (bot_vars rv) ((n + 1) / 2) st
  end.

Definition waksman (n : nat) : list hook := hooked (buildwak n (WIn <$> seq 0 n) (WOut <$> seq 0 n) n {| hooked := []; varct := 0; swc := 0 |}).

(** [parseNet] of the lines, two by two. *)
Fixpoint parseNet (l : list hook) : list gate :=
  match l with
  | top :: bot :: l => {| s1 := h_source top; s2 := h_source bot; t1 := h_target top; t2 := h_target bot; sw := snd (h_switch top) |} :: parseNet l
  | _ => []
  end.

(** ** The variables *)

(** A name is added to the table once: the first mention numbers the node. *)
Definition mention (w : wire) (l : list nat) : list nat :=
  match w with WVar k => if bool_decide (k ∈ l) then l else l ++ [k] | _ => l end.

Definition intermediate_nodes (gs : list gate) : list nat :=
  foldl (fun l g => mention (t2 g) (mention (t1 g) (mention (s2 g) (mention (s1 g) l)))) [] gs.

Definition slot_of (l : list nat) (w : wire) : wire :=
  match w with WVar k => match list_find (fun k' => k' = k) l with Some (i, _) => WVar i | None => w end | _ => w end.

(** The network in the slots of the compiler's table of variables. *)
Definition compiled_network (n : nat) : list gate :=
  let gs := parseNet (waksman n) in
  let f := slot_of (intermediate_nodes gs) in
  (fun g => {| s1 := f (s1 g); s2 := f (s2 g); t1 := f (t1 g); t2 := f (t2 g); sw := sw g |}) <$> gs.

(** The outputs, each when a switch has it as a target. *)
Definition output_of (w : wire) : list nat := match w with WOut k => [k] | _ => [] end.
Definition outputs (gs : list gate) : list nat := concat ((fun g => output_of (t1 g) ++ output_of (t2 g)) <$> gs).

(** ** The constraints *)

Inductive term : Type :=
  | TConst (z : Z)
  | TInput (i k : nat)
  | TNode (w : wire) (k : nat)
  | TSwitch (j : nat).

(** [( a - b ) * ( c ) + ( d - e )] *)
Record basic_constraint : Type := { ca : term; cb : term; cc : term; cd : term; ce : term }.

(** The lines for a field of a switch; the three [yield]s stand in the innermost [else]. *)
Definition gen_field (g : gate) (k : nat) : list basic_constraint :=
  match s1 g with
  | WIn _ => []
  | _ =>
      match s2 g with
      | WIn _ => []
      | _ =>
          let source_index1 := TNode (s1 g) k in
          let source_index2 := TNode (s2 g) k in
          let sw_index := TSwitch (sw g) in
          [ {| ca := source_index2; cb := source_index1; cc := sw_index; cd := source_index1; ce := TNode (t1 g) k |};
            {| ca := source_index1; cb := source_index2; cc := sw_index; cd := source_index2; ce := TNode (t2 g) k |};
            {| ca := TConst 1; cb := sw_index; cc := sw_index; cd := TConst 0; ce := TConst 0 |} ]
      end
  end.

Definition waksman_network_as_basic_constraints (width : nat) : list basic_constraint :=
  concat ((fun g => concat (tabulate 4 (gen_field g))) <$> parseNet (waksman width)).

(** The fields of an operation, in the order of [vartypes]. *)
Definition field (k : nat) (x : data_t) : Z :=
  match k with O => addr x | 1%nat => timestamp x | 2%nat => type_ x | _ => value x end.

(** The value of a word when the variables hold these arrays, the wires in the
    slots of [names]. *)
Definition term_val (names : list nat) (input inter output : list data_t) (sws : list bool) (t : term) : option Z :=
  match t with
  | TConst z => Some z
  | TInput i k => field k <$> input !! i
  | TNode w k => field k <$> value_of [] inter output (slot_of names w)
  | TSwitch j => Z.b2z <$> sws !! j
  end.

Definition satisfied (val : term -> option Z) (c : basic_constraint) : bool :=
  match val (ca c), val (cb c), val (cc c), val (cd c), val (ce c) with
  | Some a, Some b, Some c, Some d, Some e => (a - b) * c + (d - e) =? 0
  | _, _, _, _, _ => false
  end%Z.

(** ** The mentions of the network *)

Definition mention_gate (l : list nat) (g : gate) : list nat := mention (t2 g) (mention (t1 g) (mention (s2 g) (mention (s1 g) l))).

Definition known (l : list nat) (w : wire) : Prop := match w with WVar k => k ∈ l | _ => True end.

Lemma mention_known w l : known l w -> mention w l = l.
Proof. destruct w; [done| |done]. cbn. intros Hk. by rewrite bool_decide_eq_true_2. Qed.

Lemma mention_new k l : k ∉ l -> mention (WVar k) l = l ++ [k].
Proof. intros Hk. cbn. by rewrite bool_decide_eq_false_2. Qed.

Lemma known_app l l' w : known l w -> known (l ++ l') w.
Proof. destruct w; [done| |done]. cbn. rewrite elem_of_app. auto. Qed.

Lemma known_seq l iv m k : (iv <= k < iv + m)%nat -> known (l ++ seq iv m) (WVar k).
Proof. intros Hk. cbn. apply elem_of_app. right. by apply elem_of_seq. Qed.

Definition below (b : nat) (l : list nat) : Prop := Forall (fun k => k < b)%nat l.

Lemma below_seq l iv m : below iv l -> below (iv + m) (l ++ seq iv m).
Proof. intros Hl. apply Forall_app. split; [eapply Forall_impl; [exact Hl|]; cbn; lia|]. apply Forall_seq. lia. Qed.

Lemma below_fresh l iv k : below iv l -> (iv <= k)%nat -> k ∉ l.
Proof. intros Hl Hk Hin. pose proof (proj1 (Forall_forall _ _) Hl k Hin). cbn in *. lia. Qed.

(** A new pair of wires, before or after two known ones. *)
Lemma mention_pair l iv m : below iv l -> mention (WVar (iv + (m + 1))) (mention (WVar (iv + m)) (l ++ seq iv m)) = l ++ seq iv (m + 2).
Proof.
  intros Hl. pose proof (below_seq l iv m Hl) as Hb. rewrite mention_new, mention_new.
  - rewrite <- !app_assoc. f_equal. replace (m + 2)%nat with (m + 1 + 1)%nat by lia. rewrite !seq_app, <- app_assoc. done.
  - by apply (below_fresh _ (iv + m)); [|lia].
  - pose proof (below_fresh _ _ (iv + m)%nat Hb ltac:(lia)). rewrite mention_new by done. rewrite elem_of_app, list_elem_of_singleton. intros [Hin|Heq]; [|lia].
    by apply (below_fresh _ _ (iv + (m + 1))%nat Hb) in Hin; [|lia].
Qed.

Lemma foldl_tabulate {A B} (f : B -> A -> B) (g : nat -> A) (h : nat -> B) m l0 lm : h 0%nat = l0 -> h m = lm ->
  (forall k, (k < m)%nat -> f (h k) (g k) = h (S k)) -> foldl f l0 (tabulate m g) = lm.
Proof.
  intros <- <-. induction m as [|m IH]; intros Hf; [done|]. unfold tabulate in *. rewrite seq_S, fmap_app, foldl_app. cbn [fmap list_fmap foldl]. rewrite IH by (intros k Hk; apply Hf; lia).
  apply Hf. lia.
Qed.

Lemma left_mentions n iv sb ins l : below iv l -> (forall i, (i < n)%nat -> known l (ins i)) -> (2 <= n)%nat ->
  foldl mention_gate l (tabulate (leftSwitchCt n) (fun k => {| s1 := ins (2 * k); s2 := ins (2 * k + 1); t1 := left_of n iv ins (2 * k); t2 := left_of n iv ins (2 * k + 1); sw := sb + k |})%nat) =
  l ++ seq iv (numLeftVars n).
Proof.
  intros Hl Hins Hn. destruct (halves n Hn) as (Hlt & Hsum & _ & Hle & _). rewrite nl_2. apply (foldl_tabulate _ _ (fun k => l ++ seq iv (2 * k))); [apply app_nil_r|done|].
  intros k Hk. unfold mention_gate. cbn [s1 s2 t1 t2].
  rewrite (mention_known (ins (2 * k)%nat)), (mention_known (ins (2 * k + 1)%nat)) by (apply known_app, Hins; lia). unfold left_of. rewrite nl_2, !(proj2 (Nat.ltb_lt _ _)) by lia.
  rewrite mention_pair by done. do 2 f_equal. lia.
Qed.

Lemma right_mentions n iv sb outs l : below iv l -> (forall i, (i < n)%nat -> known l (outs i)) -> (3 <= n)%nat ->
  foldl mention_gate (l ++ seq iv (numLeftVars n)) (tabulate (rightSwitchCt n) (fun k => {| s1 := right_of n iv outs (2 * k); s2 := right_of n iv outs (2 * k + 1); t1 := outs (2 * k); t2 := outs (2 * k + 1); sw := sb + k |})%nat) =
  l ++ seq iv (level_vars n).
Proof.
  intros Hl Houts Hn. destruct (halves n ltac:(lia)) as (Hlt & Hsum & H1 & Hle & Hbt & Hlr & _).
  pose proof (sizes n Hn) as [_ Hnr]. rewrite nr_2 in Hnr. assert (2 * rightSwitchCt n <= n)%nat as Hrn by (destruct (Nat.odd n); lia).
  unfold level_vars. destruct (Nat.eqb_spec n 3) as [->|He].
  - change (tabulate (rightSwitchCt 3) ?f) with [f 0%nat]. cbn [foldl]. unfold mention_gate. cbn [s1 s2 t1 t2]. change (numLeftVars 3) with 2%nat.
    change (right_of 3 iv outs (2 * 0)) with (WVar iv). change (right_of 3 iv outs (2 * 0 + 1)) with (WVar (iv + 2)). change (2 * 0 + 1)%nat with 1%nat. change (2 * 0)%nat with 0%nat.
    rewrite (mention_known (WVar iv)) by (apply known_seq; lia). rewrite mention_new by (apply (below_fresh _ (iv + 2)); [by apply below_seq|lia]).
    rewrite <- app_assoc. change [iv + 2]%nat with (seq (iv + 2) 1). rewrite <- seq_app. cbn [Nat.add].
    by rewrite (mention_known (outs 0%nat)), (mention_known (outs 1%nat)) by (apply known_app, Houts; lia).
  - rewrite nl_2, nr_2. apply (foldl_tabulate _ _ (fun k => l ++ seq iv (2 * k + 2 * leftSwitchCt n))); [done|by rewrite Nat.add_comm|].
    intros k Hk. unfold mention_gate. cbn [s1 s2 t1 t2]. unfold right_of. rewrite nl_2, nr_2, !(proj2 (Nat.ltb_lt _ _)), (proj2 (Nat.eqb_neq _ _)) by lia.
    set (m := (2 * k + 2 * leftSwitchCt n)%nat).
    replace (iv + 2 * leftSwitchCt n + (2 * k + 1))%nat with (iv + (m + 1))%nat by lia. replace (iv + 2 * leftSwitchCt n + 2 * k)%nat with (iv + m)%nat by lia. rewrite mention_pair by done.
    rewrite (mention_known (outs (2 * k)%nat)), (mention_known (outs (2 * k + 1)%nat)) by (apply known_app, Houts; lia). do 2 f_equal. lia.
Qed.

Lemma sub_index_lt (n : nat) (c : bool) (k : nat) : (3 <= n)%nat -> (k < if c then bottomSize n else topSize n)%nat -> (sub_index n c k < n)%nat.
Proof. intros Hn Hk. apply (sub_index_spec n Hn c k). by destruct c. Qed.

(** The slots of the wires of a level. *)
Lemma left_known n iv ins l i : (i < n)%nat -> (forall i, (i < n)%nat -> known l (ins i)) -> known (l ++ seq iv (level_vars n)) (left_of n iv ins i).
Proof.
  intros Hi Hins. unfold left_of. destruct (Nat.ltb_spec i (numLeftVars n)); [|by apply known_app, Hins]. apply known_seq. pose proof (level_large n). lia.
Qed.

Lemma right_known n iv outs l i : (i < n)%nat -> (forall i, (i < n)%nat -> known l (outs i)) -> known (l ++ seq iv (level_vars n)) (right_of n iv outs i).
Proof.
  intros Hi Houts. unfold right_of. destruct (Nat.ltb_spec i (numRightVars n)); [|by apply known_app, Houts]. unfold level_vars.
  destruct (Nat.eqb_spec n 3) as [He|He]; [destruct (i =? 0)%nat|]; apply known_seq; lia.
Qed.

(** The wires are numbered as they are mentioned. *)
Lemma network_mentions fuel : forall n iv sb ins outs l, (1 <= n <= fuel)%nat -> below iv l -> (forall i, (i < n)%nat -> known l (ins i)) -> (forall i, (i < n)%nat -> known l (outs i)) ->
  foldl mention_gate l (network fuel n iv sb ins outs) = l ++ seq iv (num_intermediate n).
Proof.
  induction fuel as [|fuel IH]; intros n iv sb ins outs l Hn Hl Hins Houts; [lia|]. cbn [network].
  destruct (Nat.ltb_spec n 2) as [H2|H2]; [replace n with 1%nat by lia; symmetry; apply app_nil_r|].
  destruct (Nat.eqb_spec n 2) as [->|Hne].
  { cbn [foldl mention_gate s1 s2 t1 t2]. unfold mention_gate. cbn [s1 s2 t1 t2].
    rewrite (mention_known (ins 0%nat)), (mention_known (ins 1%nat)), (mention_known (outs 0%nat)), (mention_known (outs 1%nat)) by (by apply Hins || apply Houts; lia).
    symmetry; apply app_nil_r. }
  assert (3 <= n)%nat as H3 by lia. destruct (halves n ltac:(lia)) as (Hlt & Hsum & H1 & Hle & Hbt & Hlr & _).
  rewrite !foldl_app, left_mentions, right_mentions by (done || lia). rewrite (IH (topSize n)); [|lia|by apply below_seq|..].
  2,3: intros i Hi; first [apply left_known|apply right_known]; [by apply sub_index_lt|done].
  rewrite (IH (bottomSize n)); [|lia|by apply below_seq, below_seq|..].
  2,3: intros i Hi; apply known_app; first [apply left_known|apply right_known]; [by apply sub_index_lt|done].
  rewrite <- !app_assoc. f_equal. rewrite <- !seq_app. f_equal. rewrite (num_intermediate_level n H3). lia.
Qed.

(** ** The outputs of the network *)

Lemma concat_tabulate_last {A} m (f : nat -> list A) : (forall k, (k < m)%nat -> f k = []) -> concat (tabulate (S m) f) = f m.
Proof.
  intros Hf. rewrite tabulate_S, concat_app. cbn [concat]. rewrite app_nil_r.
  assert (concat (tabulate m f) = []) as ->; [|done]. induction m as [|m IH]; [done|]. rewrite tabulate_S, concat_app. cbn [concat]. rewrite IH, Hf by (auto with lia). done.
Qed.

Lemma concat_tabulate_pairs {A} m (f : nat -> list A) : concat (tabulate m (fun k => f (2 * k) ++ f (2 * k + 1)))%nat = concat (tabulate (2 * m) f).
Proof.
  induction m as [|m IH]; [done|]. replace (2 * S m)%nat with (S (S (2 * m))) by lia. rewrite !tabulate_S, !concat_app, IH. cbn [concat].
  rewrite !app_nil_r, <- !app_assoc. replace (2 * m + 1)%nat with (S (2 * m)) by lia. done.
Qed.

Lemma outputs_app gs gs' : outputs (gs ++ gs') = outputs gs ++ outputs gs'.
Proof. unfold outputs. by rewrite fmap_app, concat_app. Qed.

Lemma left_outputs n iv sb ins : outputs (tabulate (leftSwitchCt n) (fun k => {| s1 := ins (2 * k); s2 := ins (2 * k + 1); t1 := left_of n iv ins (2 * k); t2 := left_of n iv ins (2 * k + 1); sw := sb + k |})%nat) = [].
Proof.
  unfold outputs. rewrite fmap_tabulate. cbn [t1 t2]. destruct (leftSwitchCt n) as [|m] eqn:Hm; [done|].
  assert (Hnil : forall k, (k < S m)%nat -> output_of (left_of n iv ins (2 * k)) ++ output_of (left_of n iv ins (2 * k + 1)) = []).
  { intros k Hk. unfold left_of. rewrite nl_2, Hm, !(proj2 (Nat.ltb_lt _ _)) by lia. done. }
  rewrite concat_tabulate_last; [apply Hnil; lia|]. intros k Hk. apply Hnil. lia.
Qed.

Lemma right_outputs n iv sb outs : outputs (tabulate (rightSwitchCt n) (fun k => {| s1 := right_of n iv outs (2 * k); s2 := right_of n iv outs (2 * k + 1); t1 := outs (2 * k); t2 := outs (2 * k + 1); sw := sb + k |})%nat) =
  concat (tabulate (numRightVars n) (fun k => output_of (outs k))).
Proof. unfold outputs. rewrite fmap_tabulate. cbn [t1 t2]. rewrite nr_2. apply (concat_tabulate_pairs _ (fun k => output_of (outs k))). Qed.

(** The wire of a half that is an output of the level, if there is one. *)
Lemma right_output n iv outs i : output_of (right_of n iv outs i) = if (i <? numRightVars n)%nat then [] else output_of (outs i).
Proof. unfold right_of. destruct (i <? numRightVars n)%nat; [|done]. destruct (n =? 3)%nat; [by destruct (i =? 0)%nat|done]. Qed.

Lemma half_outputs (n iv : nat) outs (c : bool) : (3 <= n)%nat ->
  concat (tabulate (if c then bottomSize n else topSize n) (fun k => output_of (right_of n iv outs (sub_index n c k)))) =
  if c then output_of (outs (n - 1)%nat) else if Nat.odd n then [] else output_of (outs (n - 2)%nat).
Proof.
  intros Hn. destruct (halves n ltac:(lia)) as (Hlt & Hsum & H1 & Hle & Hbt & Hlr & _). pose proof (sizes n Hn) as [_ Hnr].
  destruct (Nat.Even_or_Odd n) as [[m Hm]|[m Hm]].
  - assert (Ho : Nat.odd n = false) by (rewrite Hm; apply Nat.odd_even). rewrite Ho in *. destruct m as [|m]; [lia|].
    assert ((if c then bottomSize n else topSize n) = S m) as -> by (destruct c; lia).
    assert (Hi : forall k, (k <= m)%nat -> sub_index n c k = (2 * k + Nat.b2n c)%nat).
    { intros k Hk. unfold sub_index. destruct c; cbn [Nat.b2n]; [|lia]. by rewrite (proj2 (Nat.ltb_lt _ _)) by lia. }
    rewrite concat_tabulate_last.
    + rewrite right_output, Hi, (proj2 (Nat.ltb_ge _ _)) by (destruct c; cbn [Nat.b2n]; lia). destruct c; cbn [Nat.b2n]; do 2 f_equal; lia.
    + intros k Hk. by rewrite right_output, Hi, (proj2 (Nat.ltb_lt _ _)) by (destruct c; cbn [Nat.b2n]; lia).
  - assert (Ho : Nat.odd n = true) by (rewrite Hm; apply Nat.odd_odd). rewrite Ho in *. destruct c.
    + assert (bottomSize n = S m) as -> by lia. rewrite concat_tabulate_last.
      * rewrite right_output. unfold sub_index. rewrite (proj2 (Nat.ltb_ge (2 * m + 1) n)), (proj2 (Nat.ltb_ge _ _)) by lia. do 2 f_equal. lia.
      * intros k Hk. rewrite right_output. unfold sub_index. by rewrite (proj2 (Nat.ltb_lt (2 * k + 1) n)), (proj2 (Nat.ltb_lt _ _)) by lia.
    + destruct m as [|m]; [lia|]. assert (topSize n = S m) as -> by lia.
      assert (Hk : forall k, (k <= m)%nat -> output_of (right_of n iv outs (sub_index n false k)) = []).
      { intros k Hk. rewrite right_output. unfold sub_index. by rewrite (proj2 (Nat.ltb_lt _ _)) by lia. }
      rewrite concat_tabulate_last; [by apply Hk|]. intros k Hlt'. apply Hk. lia.
Qed.

Lemma tabulate_add {A} a b (f : nat -> A) : tabulate (a + b) f = tabulate a f ++ tabulate b (fun k => f (a + k)%nat).
Proof. induction b as [|b IH]; [by rewrite Nat.add_0_r, app_nil_r|]. rewrite Nat.add_succ_r, !tabulate_S, IH. by rewrite app_assoc. Qed.

(** The outputs come in order. *)
Lemma network_outputs fuel : forall n iv sb ins outs, (2 <= n <= fuel)%nat ->
  outputs (network fuel n iv sb ins outs) = concat (tabulate n (fun i => output_of (outs i))).
Proof.
  induction fuel as [|fuel IH]; intros n iv sb ins outs Hn; [lia|]. cbn [network].
  destruct (Nat.ltb_spec n 2) as [H2|H2]; [lia|]. destruct (Nat.eqb_spec n 2) as [->|Hne]; [cbn; by rewrite <- app_assoc|].
  assert (3 <= n)%nat as H3 by lia. destruct (halves n ltac:(lia)) as (Hlt & Hsum & H1 & Hle & Hbt & Hlr & _). pose proof (sizes n H3) as [_ Hnr].
  rewrite !outputs_app, left_outputs, right_outputs. cbn [app]. rewrite (IH (bottomSize n)), (half_outputs n iv outs true H3) by lia.
  assert (outputs (network fuel (topSize n) (iv + level_vars n) (sb + leftSwitchCt n + rightSwitchCt n) (fun k => left_of n iv ins (sub_index n false k)) (fun k => right_of n iv outs (sub_index n false k))) =
    if Nat.odd n then [] else output_of (outs (n - 2)%nat)) as ->.
  { rewrite <- (half_outputs n iv outs false H3). destruct (decide (topSize n = 1)%nat) as [Ht|Ht]; [|apply IH; lia]. rewrite Ht.
    assert (n = 3)%nat as -> by lia. by destruct fuel. }
  destruct (Nat.odd n).
  - assert (tabulate n (fun i => output_of (outs i)) = tabulate (S (numRightVars n)) (fun i => output_of (outs i))) as -> by (f_equal; lia).
    rewrite tabulate_S, concat_app. cbn [concat app]. rewrite app_nil_r. do 3 f_equal. lia.
  - assert (tabulate n (fun i => output_of (outs i)) = tabulate (S (S (numRightVars n))) (fun i => output_of (outs i))) as -> by (f_equal; lia).
    rewrite !tabulate_S, !concat_app. cbn [concat app]. rewrite !app_nil_r, <- app_assoc. f_equal. f_equal; do 2 f_equal; lia.
Qed.

(** ** Renaming wires *)

Definition ren (ρ : nat -> nat) (w : wire) : wire := match w with WVar k => WVar (ρ k) | _ => w end.
Definition ren_gate (ρ : nat -> nat) (g : gate) : gate := {| s1 := ren ρ (s1 g); s2 := ren ρ (s2 g); t1 := ren ρ (t1 g); t2 := ren ρ (t2 g); sw := sw g |}.
Definition wires_of (g : gate) : list wire := [s1 g; s2 g; t1 g; t2 g].
Definition wire_below (b : nat) (w : wire) : Prop := match w with WVar k => (k < b)%nat | _ => True end.
Definition gates_below (b : nat) (gs : list gate) : Prop := Forall (fun g => Forall (wire_below b) (wires_of g)) gs.
Definition inj_below (ρ : nat -> nat) (b : nat) : Prop := forall j k, (j < b)%nat -> (k < b)%nat -> ρ j = ρ k -> j = k.

Lemma ren_ext ρ ρ' b w : wire_below b w -> (forall k, (k < b)%nat -> ρ k = ρ' k) -> ren ρ w = ren ρ' w.
Proof. destruct w; [done| |done]. cbn. intros Hk Hρ. by rewrite Hρ. Qed.

Lemma ren_gates_ext ρ ρ' b gs : gates_below b gs -> (forall k, (k < b)%nat -> ρ k = ρ' k) -> ren_gate ρ <$> gs = ren_gate ρ' <$> gs.
Proof.
  intros Hg Hρ. apply list_fmap_ext. intros i g Hi. pose proof (proj1 (Forall_lookup _ _) Hg i g Hi) as Hw. unfold wires_of in Hw.
  rewrite !Forall_cons in Hw. destruct Hw as (H1 & H2 & H3 & H4 & _). unfold ren_gate. by rewrite !(ren_ext ρ ρ' b).
Qed.

Lemma mention_incl w l k : k ∈ l -> k ∈ mention w l.
Proof. destruct w; cbn; [done| |done]. case_bool_decide; [done|]. rewrite elem_of_app. auto. Qed.

Lemma mention_self w l : known (mention w l) w.
Proof. destruct w; cbn; [done| |done]. case_bool_decide; [done|]. rewrite elem_of_app, list_elem_of_singleton. auto. Qed.

Lemma known_incl l l' w : (forall k, k ∈ l -> k ∈ l') -> known l w -> known l' w.
Proof. destruct w; cbn; auto. Qed.

Lemma foldl_mention_incl gs : forall l k, k ∈ l -> k ∈ foldl mention_gate l gs.
Proof. induction gs as [|g gs IH]; intros l k Hk; [done|]. cbn. apply IH. unfold mention_gate. by do 4 apply mention_incl. Qed.

Lemma foldl_mention_known gs : forall l, Forall (fun g => Forall (known (foldl mention_gate l gs)) (wires_of g)) gs.
Proof.
  induction gs as [|g gs IH]; intros l; [constructor|]. cbn [foldl]. constructor; [|apply IH].
  assert (Forall (known (mention_gate l g)) (wires_of g)) as Hg.
  { unfold mention_gate, wires_of. repeat apply Forall_cons_2; [..|by apply Forall_nil_2].
    - do 3 (eapply known_incl; [apply mention_incl|]). apply mention_self.
    - do 2 (eapply known_incl; [apply mention_incl|]). apply mention_self.
    - eapply known_incl; [apply mention_incl|]. apply mention_self.
    - apply mention_self. }
  eapply Forall_impl; [exact Hg|]. intros w. apply known_incl. apply foldl_mention_incl.
Qed.

Lemma network_below fuel n iv sb ins outs : (1 <= n <= fuel)%nat -> (forall i, (i < n)%nat -> wire_below iv (ins i)) -> (forall i, (i < n)%nat -> wire_below iv (outs i)) ->
  gates_below (iv + num_intermediate n) (network fuel n iv sb ins outs).
Proof.
  intros Hn Hins Houts. assert (Hk : forall w, wire_below iv w -> known (seq 0 iv) w) by (intros []; cbn; rewrite ?elem_of_seq; auto with lia).
  pose proof (foldl_mention_known (network fuel n iv sb ins outs) (seq 0 iv)) as HF. rewrite network_mentions in HF; [|done|apply Forall_seq; lia|auto..].
  eapply Forall_impl; [exact HF|]. intros g Hg. eapply Forall_impl; [exact Hg|]. intros []; cbn; [done| |done]. rewrite elem_of_app, !elem_of_seq. lia.
Qed.

(** Mentions go through an injective renaming. *)
Lemma mention_ren ρ b w l : inj_below ρ b -> below b l -> wire_below b w -> mention (ren ρ w) (ρ <$> l) = ρ <$> mention w l /\ below b (mention w l).
Proof.
  intros Hi Hl. destruct w as [|k|]; cbn; [done| |done]. intros Hk. assert (ρ k ∈ ρ <$> l <-> k ∈ l) as Hin.
  { rewrite list_elem_of_fmap. split; [|by intros ?; exists k]. intros (j & Heq & Hj). pose proof (proj1 (Forall_forall _ _) Hl j Hj). by rewrite (Hi k j). }
  case_bool_decide as H1; case_bool_decide as H2; try tauto. split; [by rewrite fmap_app|]. apply Forall_app. split; [done|]. by apply Forall_cons_2; [|apply Forall_nil_2].
Qed.

Lemma foldl_mention_ren ρ b gs : forall l, inj_below ρ b -> below b l -> gates_below b gs -> foldl mention_gate (ρ <$> l) (ren_gate ρ <$> gs) = ρ <$> foldl mention_gate l gs.
Proof.
  induction gs as [|g gs IH]; intros l Hi Hl Hg; [done|]. apply Forall_cons in Hg as [Hg Hgs]. unfold wires_of in Hg. rewrite !Forall_cons in Hg. destruct Hg as (H1 & H2 & H3 & H4 & _).
  cbn [fmap list_fmap foldl]. destruct (mention_ren ρ b (s1 g) l Hi Hl H1) as [E1 B1]. destruct (mention_ren ρ b (s2 g) _ Hi B1 H2) as [E2 B2].
  destruct (mention_ren ρ b (t1 g) _ Hi B2 H3) as [E3 B3]. destruct (mention_ren ρ b (t2 g) _ Hi B3 H4) as [E4 B4].
  unfold mention_gate at 2. cbn [ren_gate s1 s2 t1 t2]. rewrite E1, E2, E3, E4. by apply IH.
Qed.

Lemma slot_of_ren ρ b w : inj_below ρ b -> wire_below b w -> slot_of (ρ <$> seq 0 b) (ren ρ w) = w.
Proof.
  intros Hi. destruct w as [|k|]; cbn [ren slot_of wire_below]; [done| |done]. intros Hk.
  assert (list_find (fun k' => k' = ρ k) (ρ <$> seq 0 b) = Some (k, ρ k)) as ->; [|done]. apply list_find_Some. rewrite list_lookup_fmap, lookup_seq_lt by lia.
  split; [done|]. split; [done|]. intros j y Hj Hjk. rewrite list_lookup_fmap, lookup_seq_lt in Hj by lia. cbn in Hj. injection Hj as <-. intros Heq. apply Hi in Heq; lia.
Qed.

Lemma outputs_ren ρ gs : outputs (ren_gate ρ <$> gs) = outputs gs.
Proof.
  unfold outputs. rewrite <- list_fmap_compose. f_equal. apply list_fmap_ext. intros _ g _. cbn. assert (forall w, output_of (ren ρ w) = output_of w) as Hw by (by intros []). by rewrite !Hw.
Qed.

(** ** The lines of a level *)

Lemma mkSwitches_list c st : mkSwitches c st = (tabulate (2 * c) (fun i => (Nat.even i, (swc st + i / 2)%nat)), {| hooked := hooked st; varct := varct st; swc := swc st + c |}).
Proof.
  unfold mkSwitches. f_equal. etransitivity; [|etransitivity; [apply (concat_tabulate_pairs c (fun i => [(Nat.even i, (swc st + i / 2)%nat)]))|]].
  - f_equal. apply tabulate_ext. intros i _. destruct (half_double i) as [-> ->]. rewrite Nat.even_even, Nat.even_odd. done.
  - generalize (2 * c)%nat. intros m. induction m as [|m IH]; [done|]. by rewrite !tabulate_S, concat_app, IH.
Qed.

Fixpoint even_list {A} (l : list A) : bool := match l with [] => true | [_] => false | _ :: _ :: l => even_list l end.

Lemma parseNet_app l l' : even_list l = true -> parseNet (l ++ l') = parseNet l ++ parseNet l'.
Proof.
  remember (length l) as m eqn:Hm. revert l Hm. induction m as [m IH] using lt_wf_ind. intros [|a [|b l]] Hm He; [done|done|]. cbn [app parseNet]. f_equal.
  apply (IH (length l)); [cbn in Hm; lia|done|done].
Qed.

Lemma even_list_app {A} (l l' : list A) : even_list l = true -> even_list (l ++ l') = even_list l'.
Proof.
  remember (length l) as m eqn:Hm. revert l Hm. induction m as [m IH] using lt_wf_ind. intros [|a [|b l]] Hm He; [done|done|]. cbn [app even_list].
  apply (IH (length l)); [cbn in Hm; lia|done|done].
Qed.

Lemma even_tabulate {A} c (h : nat -> A) : even_list (tabulate (2 * c) h) = true.
Proof.
  induction c as [|c IH]; [done|]. replace (2 * S c)%nat with (S (S (2 * c))) by lia. rewrite !tabulate_S, <- app_assoc. by rewrite even_list_app.
Qed.

Lemma parseNet_tabulate c (h : nat -> hook) :
  parseNet (tabulate (2 * c) h) = tabulate c (fun k => {| s1 := h_source (h (2 * k)); s2 := h_source (h (2 * k + 1)); t1 := h_target (h (2 * k)); t2 := h_target (h (2 * k + 1)); sw := snd (h_switch (h (2 * k))) |})%nat.
Proof.
  induction c as [|c IH]; [done|]. replace (2 * S c)%nat with (S (S (2 * c))) by lia. rewrite !tabulate_S, <- app_assoc, parseNet_app, IH by apply even_tabulate.
  cbn [app parseNet]. replace (2 * c + 1)%nat with (S (2 * c)) by lia. done.
Qed.

(** The sides of a level. *)
Lemma filter_sides n (P : nat -> Prop) `{!forall i, Decision (P i)} (c : bool) : (forall i, (i < n)%nat -> P i <-> is_bottom n i = c) -> (2 <= n)%nat ->
  filter P (seq 0 n) = tabulate (if c then bottomSize n else topSize n) (sub_index n c).
Proof.
  intros HPc Hn. destruct (halves n Hn) as (_ & Hsum & H1 & Hle & Hbt & _).
  assert (Hpre : forall m, (2 * m <= n)%nat -> filter P (seq 0 (2 * m)) = tabulate m (sub_index n c)).
  { induction m as [|m IH]; [done|]. intros Hm. replace (2 * S m)%nat with (S (S (2 * m))) by lia. rewrite !seq_S, tabulate_S, !filter_app, IH by lia.
    assert (is_bottom n (2 * m) = false /\ is_bottom n (S (2 * m)) = true) as [B1 B2].
    { unfold is_bottom. replace (S (2 * m)) with (2 * m + 1)%nat by lia. rewrite Nat.odd_even, Nat.odd_odd. split; [|done].
      destruct (Nat.eqb_spec (2 * m) (n - 1)); [lia|by destruct (Nat.odd n)]. }
    rewrite <- app_assoc. f_equal. cbn [Nat.add]. destruct c.
    - rewrite filter_cons_False by (rewrite HPc by lia; congruence). rewrite filter_nil, filter_cons_True by (rewrite HPc by lia; done). rewrite filter_nil. cbn [app].
      unfold sub_index. rewrite (proj2 (Nat.ltb_lt _ _)) by lia. do 2 f_equal. lia.
    - rewrite filter_cons_True by (rewrite HPc by lia; done). rewrite filter_nil, filter_cons_False by (rewrite HPc by lia; congruence). done. }
  destruct (Nat.Even_or_Odd n) as [[m Hm]|[m Hm]].
  - rewrite Hm at 1. rewrite Hpre by lia. f_equal. destruct c; lia.
  - rewrite Hm at 1. replace (2 * m + 1)%nat with (S (2 * m)) by lia. rewrite seq_S, filter_app, Hpre by lia. cbn [Nat.add].
    assert (is_bottom n (2 * m) = true) as HB. { unfold is_bottom. rewrite Hm, Nat.odd_odd. replace (2 * m + 1 - 1)%nat with (2 * m)%nat by lia. rewrite Nat.eqb_refl. by rewrite orb_true_r. }
    destruct c.
    + rewrite filter_cons_True by (rewrite HPc by lia; done). assert (bottomSize n = S m) as -> by lia. rewrite filter_nil, tabulate_S. unfold sub_index. by rewrite (proj2 (Nat.ltb_ge _ _)) by lia.
    + rewrite filter_cons_False by (rewrite HPc by lia; congruence). rewrite filter_nil, app_nil_r. f_equal. lia.
Qed.

Section Column.
Context (n : nat) (Hn : (2 <= n)%nat) (left : bool) (nodes : list wire) (sws : list (option (bool * nat))) (st : builder) (c : nat) (f : nat -> bool * nat).
Context (Hc : (2 * c <= n)%nat) (Hsws : forall i, (i < 2 * c)%nat -> sws !!! i = Some (f i)) (Hlink : forall i, (2 * c <= i < n)%nat -> sws !!! i = None).

Definition var (i : nat) : wire := if (i <? 2 * c)%nat then WVar (varct st + i) else nodes !!! i.
Definition line (i : nat) : hook :=
  if left then {| h_source := nodes !!! i; h_switch := f i; h_target := WVar (varct st + i) |} else {| h_source := WVar (varct st + i); h_switch := f i; h_target := nodes !!! i |}.

Lemma column_Ok : column n left nodes sws st =
  ({| top_vars := tabulate (topSize n) (fun k => var (sub_index n false k)); bot_vars := tabulate (bottomSize n) (fun k => var (sub_index n true k)) |},
   {| hooked := hooked st ++ tabulate (2 * c) line; varct := varct st + 2 * c; swc := swc st |}).
Proof.
  set (Inv := fun i => ({| top_vars := var <$> filter (fun j => is_bottom n j = false) (seq 0 i); bot_vars := var <$> filter (fun j => is_bottom n j = true) (seq 0 i) |},
    {| hooked := hooked st ++ tabulate (i `min` (2 * c)) line; varct := varct st + i `min` (2 * c); swc := swc st |})).
  transitivity (Inv n).
  2:{ unfold Inv. rewrite (Nat.min_r n) by lia. f_equal. f_equal; rewrite <- fmap_tabulate; f_equal; [by apply (filter_sides n _ false)|by apply (filter_sides n _ true)]. }
  unfold column. apply (for_up_ind (fun i r => r = Inv i)); [lia| |].
  { unfold Inv. cbn. rewrite app_nil_r, Nat.add_0_r. by destruct st. }
  unfold Inv.
  - intros i [v st'] Hi [= -> ->]. cbn zeta. rewrite !seq_S, !filter_app, !fmap_app. cbn [Nat.add].
    assert (Hadd : add_var n i (var i) {| top_vars := var <$> filter (fun j => is_bottom n j = false) (seq 0 i); bot_vars := var <$> filter (fun j => is_bottom n j = true) (seq 0 i) |} =
      {| top_vars := (var <$> filter (fun j => is_bottom n j = false) (seq 0 i)) ++ (var <$> filter (fun j => is_bottom n j = false) [i]);
         bot_vars := (var <$> filter (fun j => is_bottom n j = true) (seq 0 i)) ++ (var <$> filter (fun j => is_bottom n j = true) [i]) |}).
    { unfold add_var. rewrite !filter_cons, !filter_nil. destruct (is_bottom n i); cbn; by rewrite app_nil_r. }
    destruct (decide (i < 2 * c)%nat) as [Hl|Hl].
    + rewrite Hsws by done. cbn [mkNode varct]. rewrite !Nat.min_l by lia. f_equal.
      * rewrite <- Hadd. f_equal. unfold var. by rewrite (proj2 (Nat.ltb_lt _ _)).
      * unfold hook_line. cbn [hooked varct swc]. rewrite tabulate_S, <- app_assoc. f_equal. lia.
    + rewrite Hlink by lia. rewrite !Nat.min_r by lia. f_equal. rewrite <- Hadd. f_equal. unfold var. by rewrite (proj2 (Nat.ltb_ge _ _)) by lia.
Qed.

End Column.

(** ** The builder makes the network *)

(** What [buildwak] adds to the lines: the network, its wires renamed. *)
Record built (n iv : nat) (gs : list gate) (ρ0 : nat -> nat) (st st' : builder) (ρ : nat -> nat) (hs : list hook) : Prop := {
  bu_old : forall k, (k < iv)%nat -> ρ k = ρ0 k;
  bu_inj : inj_below ρ (iv + num_intermediate n);
  bu_below : forall k, (k < iv + num_intermediate n)%nat -> (ρ k < varct st')%nat;
  bu_lines : hooked st' = hooked st ++ hs /\ even_list hs = true;
  bu_swc : swc st' = (swc st + numSwitches n)%nat;
  bu_gates : parseNet hs = ren_gate ρ <$> gs
}.

Lemma build_two fuel iv ins outs st ρ0 : (1 <= fuel)%nat -> inj_below ρ0 iv -> (forall k, (k < iv)%nat -> (ρ0 k < varct st)%nat) ->
  let st' := buildwak fuel (tabulate 2 (fun i => ren ρ0 (ins i))) (tabulate 2 (fun i => ren ρ0 (outs i))) 2 st in
  exists hs, built 2 iv [ {| s1 := ins 0; s2 := ins 1; t1 := outs 0; t2 := outs 1; sw := swc st |} ]%nat ρ0 st st' ρ0 hs.
Proof.
  intros Hf Hi Hb st'. destruct fuel as [|fuel]; [lia|]. eexists. unfold st'. cbn [buildwak Nat.eqb]. rewrite mkSwitches_list. split; cbn [varct swc hooked].
  - done.
  - by rewrite Nat.add_0_r.
  - intros k Hk. apply Hb. change (num_intermediate 2) with 0%nat in Hk. lia.
  - unfold hook_line. cbn [hooked]. by rewrite <- app_assoc.
  - done.
  - cbn. unfold ren_gate. cbn. by rewrite Nat.add_0_r.
Qed.

Lemma merge_Ok l a b c d v k : merge_single {| hooked := l ++ [a; b; c; d]; varct := v; swc := k |} =
  {| hooked := l ++ [ {| h_source := h_source a; h_switch := h_switch a; h_target := h_source c |}; b; c; d]; varct := v; swc := k |}.
Proof.
  unfold merge_single. cbn [hooked varct swc]. f_equal. rewrite length_app. cbn [length]. replace (length l + 4 - 4)%nat with (length l + 0)%nat by lia.
  replace (length l + 4 - 2)%nat with (length l + 2)%nat by lia. rewrite !lookup_app_r by lia. replace (length l + 0 - length l)%nat with 0%nat by lia.
  replace (length l + 2 - length l)%nat with 2%nat by lia. cbn [lookup list_lookup]. rewrite insert_app_r_alt by lia. by replace (length l + 0 - length l)%nat with 0%nat by lia.
Qed.

Lemma build_three fuel iv ins outs st ρ0 : (3 <= fuel)%nat -> inj_below ρ0 iv -> (forall k, (k < iv)%nat -> (ρ0 k < varct st)%nat) ->
  (forall i, (i < 3)%nat -> wire_below iv (ins i)) -> (forall i, (i < 3)%nat -> wire_below iv (outs i)) ->
  let st' := buildwak fuel (tabulate 3 (fun i => ren ρ0 (ins i))) (tabulate 3 (fun i => ren ρ0 (outs i))) 3 st in
  exists ρ hs, built 3 iv (network fuel 3 iv (swc st) ins outs) ρ0 st st' ρ hs.
Proof.
  intros Hf Hi Hb Hins Houts st'. destruct fuel as [|[|[|fuel]]]; [lia..|].
  set (ρ := fun k => if (k <? iv)%nat then ρ0 k else if (k =? iv)%nat then (varct st + 2)%nat else if (k =? iv + 1)%nat then (varct st + 1)%nat else (varct st + 3)%nat).
  assert (R0 : ρ iv = (varct st + 2)%nat) by (unfold ρ; rewrite Nat.ltb_irrefl, Nat.eqb_refl; done).
  assert (R1 : ρ (iv + 1)%nat = (varct st + 1)%nat) by (unfold ρ; rewrite (proj2 (Nat.ltb_ge _ _)), (proj2 (Nat.eqb_neq _ _)), Nat.eqb_refl by lia; done).
  assert (R2 : ρ (iv + 2)%nat = (varct st + 3)%nat) by (unfold ρ; rewrite (proj2 (Nat.ltb_ge _ _)), !(proj2 (Nat.eqb_neq _ _)) by lia; done).
  assert (Hold : forall k, (k < iv)%nat -> ρ k = ρ0 k) by (intros k Hk; unfold ρ; by rewrite (proj2 (Nat.ltb_lt _ _))).
  assert (Hw : forall w, wire_below iv w -> ren ρ w = ren ρ0 w) by (intros w Hw; apply (ren_ext _ _ iv); done).
  exists ρ. eexists. change (num_intermediate 3) with 3%nat. split.
  - done.
  - intros j k Hj Hk. change (num_intermediate 3) with 3%nat in *. pose proof (Hb j). pose proof (Hb k). specialize (Hi j k). unfold ρ. bool_cases; lia.
  - intros k Hk. change (num_intermediate 3) with 3%nat in *. pose proof (Hb k). change (varct st') with (S (S (S (S (varct st))))). unfold ρ. bool_cases; lia.
  - split.
    + unfold st'. cbn -[merge_single]. unfold hook_line. cbn [hooked varct swc]. rewrite <- !app_assoc. cbn [app]. rewrite !merge_Ok. cbn [hooked swc h_source h_switch]. rewrite <- !app_assoc. reflexivity.
    + reflexivity.
  - unfold st'. cbn. lia.
  - cbn. unfold ren_gate. cbn. rewrite R0, R1, R2, !Hw by (apply Hins || apply Houts; lia). rewrite !Nat.add_0_r. repeat f_equal; lia.
Qed.

Lemma sws_lookup c k (links : list (option (bool * nat))) (f : nat -> bool * nat) n : length links = k -> (n = 2 * c + k)%nat -> (forall i, (i < k)%nat -> links !! i = Some None) ->
  (forall i, (i < 2 * c)%nat -> ((Some <$> tabulate (2 * c) f) ++ links) !!! i = Some (f i)) /\
  (forall i, (2 * c <= i < n)%nat -> ((Some <$> tabulate (2 * c) f) ++ links) !!! i = None).
Proof.
  intros Hk Hn Hl. split; intros i Hi; apply list_lookup_total_correct.
  - rewrite lookup_app_l by (rewrite length_fmap, tabulate_length; lia). rewrite list_lookup_fmap. unfold tabulate. by rewrite list_lookup_fmap, lookup_seq_lt.
  - rewrite lookup_app_r by (rewrite length_fmap, tabulate_length; lia). rewrite length_fmap, tabulate_length. apply Hl. lia.
Qed.

(** The names of a level's wires. *)
Definition level_names (iv v : nat) (ρ0 : nat -> nat) (k : nat) : nat := if (k <? iv)%nat then ρ0 k else (v + (k - iv))%nat.

Section Build.
Context (n : nat) (Hn : (4 <= n)%nat) (fuel iv : nat) (ins outs : nat -> wire) (st : builder) (ρ0 : nat -> nat).
Context (Hi : inj_below ρ0 iv) (Hb : forall k, (k < iv)%nat -> (ρ0 k < varct st)%nat).
Context (Hins : forall i, (i < n)%nat -> wire_below iv (ins i)) (Houts : forall i, (i < n)%nat -> wire_below iv (outs i)).

Abbreviation ρ1 := (level_names iv (varct st) ρ0).
Abbreviation L := (left_of n iv ins).
Abbreviation R := (right_of n iv outs).

Definition level_lines : list hook :=
  tabulate (numLeftVars n) (fun i => {| h_source := ren ρ0 (ins i); h_switch := (Nat.even i, (swc st + i / 2)%nat); h_target := WVar (varct st + i) |}) ++
  tabulate (numRightVars n) (fun i => {| h_source := WVar (varct st + numLeftVars n + i); h_switch := (Nat.even i, (swc st + leftSwitchCt n + i / 2)%nat); h_target := ren ρ0 (outs i) |}).

Definition level_builder : builder :=
  {| hooked := hooked st ++ level_lines; varct := varct st + level_vars n; swc := swc st + leftSwitchCt n + rightSwitchCt n |}.

Lemma names_old w : wire_below iv w -> ren ρ1 w = ren ρ0 w.
Proof. intros Hw. apply (ren_ext _ _ iv); [done|]. intros k Hk. unfold level_names. by rewrite (proj2 (Nat.ltb_lt _ _)). Qed.

Lemma names_new m : ren ρ1 (WVar (iv + m)) = WVar (varct st + m).
Proof. cbn. unfold level_names. rewrite (proj2 (Nat.ltb_ge _ _)) by lia. do 2 f_equal. lia. Qed.

Lemma names_left i : (i < n)%nat -> (if (i <? numLeftVars n)%nat then WVar (varct st + i) else ren ρ0 (ins i)) = ren ρ1 (L i).
Proof. intros Hin. unfold left_of. destruct (i <? numLeftVars n)%nat; [by rewrite names_new|]. symmetry. by apply names_old, Hins. Qed.

Lemma names_right i : (i < n)%nat -> (if (i <? numRightVars n)%nat then WVar (varct st + numLeftVars n + i) else ren ρ0 (outs i)) = ren ρ1 (R i).
Proof.
  intros Hin. unfold right_of. destruct (i <? numRightVars n)%nat; [|symmetry; by apply names_old, Houts]. rewrite (proj2 (Nat.eqb_neq _ _)) by lia.
  rewrite <- !Nat.add_assoc. by rewrite names_new.
Qed.

Lemma level_build :
  buildwak (S fuel) (tabulate n (fun i => ren ρ0 (ins i))) (tabulate n (fun i => ren ρ0 (outs i))) n st =
  buildwak fuel (tabulate (bottomSize n) (fun k => ren ρ1 (L (sub_index n true k)))) (tabulate (bottomSize n) (fun k => ren ρ1 (R (sub_index n true k)))) (bottomSize n)
    (buildwak fuel (tabulate (topSize n) (fun k => ren ρ1 (L (sub_index n false k)))) (tabulate (topSize n) (fun k => ren ρ1 (R (sub_index n false k)))) (topSize n) level_builder).
Proof.
  destruct (halves n ltac:(lia)) as (Hlt & Hsum & H1 & Hle & Hbt & Hlr & _). pose proof (sizes n ltac:(lia)) as [Hnl Hnr]. rewrite nl_2, nr_2 in *.
  cbn [buildwak]. rewrite !(proj2 (Nat.eqb_neq _ _)) by lia. fold (leftSwitchCt n). fold (rightSwitchCt n). rewrite !mkSwitches_list.
  destruct (sws_lookup (leftSwitchCt n) (n - 2 * leftSwitchCt n) (if Nat.odd n then [None] else []) (fun i => (Nat.even i, (swc st + i / 2)%nat)) n) as [SL1 SL2];
    [destruct (Nat.odd n); cbn [length]; lia|destruct (Nat.odd n); lia|destruct (Nat.odd n); intros [|i] Hlk; by (lia || cbn)|].
  destruct (sws_lookup (rightSwitchCt n) (n - 2 * rightSwitchCt n) (if Nat.odd n then [None] else [None; None]) (fun i => (Nat.even i, (swc st + leftSwitchCt n + i / 2)%nat)) n) as [SR1 SR2];
    [destruct (Nat.odd n); cbn [length]; lia|destruct (Nat.odd n); lia|destruct (Nat.odd n); intros [|[|i]] Hlk; by (lia || cbn)|].
  erewrite (column_Ok n ltac:(lia) true _ _ _ (leftSwitchCt n)); [|destruct (Nat.odd n); lia|exact SL1|exact SL2].
  erewrite (column_Ok n ltac:(lia) false _ _ _ (rightSwitchCt n)); [|destruct (Nat.odd n); lia|exact SR1|exact SR2].
  cbn [top_vars bot_vars hooked varct swc].
  assert (HVL : forall h k i, (i < n)%nat -> var (tabulate n (fun i => ren ρ0 (ins i))) {| hooked := h; varct := varct st; swc := k |} (leftSwitchCt n) i = ren ρ1 (L i)).
  { intros h k i Hi'. unfold var. cbn [varct]. rewrite tabulate_lookup by done. rewrite <- nl_2. by apply names_left. }
  assert (HVR : forall h k i, (i < n)%nat -> var (tabulate n (fun i => ren ρ0 (outs i))) {| hooked := h; varct := varct st + 2 * leftSwitchCt n; swc := k |} (rightSwitchCt n) i = ren ρ1 (R i)).
  { intros h k i Hi'. unfold var. cbn [varct]. rewrite tabulate_lookup by done. rewrite <- nr_2, <- nl_2. by apply names_right. }
  assert (HS : forall (c : bool) k, (k < if c then bottomSize n else topSize n)%nat -> (sub_index n c k < n)%nat) by (intros c k; apply sub_index_lt; lia).
  f_equal; [apply tabulate_ext; intros k Hk; apply HVL, (HS true), Hk|apply tabulate_ext; intros k Hk; apply HVR, (HS true), Hk|].
  f_equal; [apply tabulate_ext; intros k Hk; apply HVL, (HS false), Hk|apply tabulate_ext; intros k Hk; apply HVR, (HS false), Hk|].
  unfold level_builder, level_lines, level_vars. rewrite (proj2 (Nat.eqb_neq _ _)), nl_2, nr_2 by lia. f_equal; [|lia]. rewrite <- app_assoc. do 2 f_equal.
  - apply tabulate_ext. intros i Hi'. unfold line. cbn [varct]. by rewrite tabulate_lookup by (destruct (Nat.odd n); lia).
  - apply tabulate_ext. intros i Hi'. unfold line. cbn [varct]. by rewrite tabulate_lookup by (destruct (Nat.odd n); lia).
Qed.

Lemma level_inj : inj_below ρ1 (iv + level_vars n) /\ (forall k, (k < iv + level_vars n)%nat -> (ρ1 k < varct level_builder)%nat) /\ forall k, (k < iv)%nat -> ρ1 k = ρ0 k.
Proof.
  unfold level_names. split; [|split].
  - intros j k Hj Hk. pose proof (Hb j). pose proof (Hb k). specialize (Hi j k). bool_cases; lia.
  - intros k Hk. pose proof (Hb k). cbn [level_builder varct]. bool_cases; lia.
  - intros k Hk. by rewrite (proj2 (Nat.ltb_lt _ _)).
Qed.

(** The lines of the level are its switches. *)
Lemma level_lines_parse : even_list level_lines = true /\ parseNet level_lines = ren_gate ρ1 <$>
  tabulate (leftSwitchCt n) (fun k => {| s1 := ins (2 * k); s2 := ins (2 * k + 1); t1 := L (2 * k); t2 := L (2 * k + 1); sw := swc st + k |})%nat ++
  tabulate (rightSwitchCt n) (fun k => {| s1 := R (2 * k); s2 := R (2 * k + 1); t1 := outs (2 * k); t2 := outs (2 * k + 1); sw := swc st + leftSwitchCt n + k |})%nat.
Proof.
  destruct (halves n ltac:(lia)) as (Hlt & Hsum & H1 & Hle & Hbt & Hlr & _). pose proof (sizes n ltac:(lia)) as [Hnl Hnr].
  unfold level_lines. rewrite nl_2, nr_2 in *. assert (2 * leftSwitchCt n <= n /\ 2 * rightSwitchCt n <= n)%nat as [Hnl' Hnr'] by (destruct (Nat.odd n); lia).
  split; [by rewrite even_list_app by apply even_tabulate; apply even_tabulate|].
  rewrite parseNet_app, !parseNet_tabulate, fmap_app, !fmap_tabulate by apply even_tabulate. f_equal; apply tabulate_ext; intros k Hk;
    unfold ren_gate; cbn [s1 s2 t1 t2 sw h_source h_target h_switch snd]; rewrite (proj1 (half_double k)).
  - rewrite (names_old (ins (2 * k)%nat)), (names_old (ins (2 * k + 1)%nat)) by (apply Hins; lia).
    pose proof (names_left (2 * k)%nat ltac:(lia)) as N1. pose proof (names_left (2 * k + 1)%nat ltac:(lia)) as N2. rewrite nl_2, (proj2 (Nat.ltb_lt _ _)) in N1 by lia. rewrite nl_2, (proj2 (Nat.ltb_lt _ _)) in N2 by lia. by rewrite <- N1, <- N2.
  - rewrite (names_old (outs (2 * k)%nat)), (names_old (outs (2 * k + 1)%nat)) by (apply Houts; lia).
    pose proof (names_right (2 * k)%nat ltac:(lia)) as N1. pose proof (names_right (2 * k + 1)%nat ltac:(lia)) as N2. rewrite nr_2, nl_2, (proj2 (Nat.ltb_lt _ _)) in N1 by lia. rewrite nr_2, nl_2, (proj2 (Nat.ltb_lt _ _)) in N2 by lia. by rewrite <- N1, <- N2.
Qed.

End Build.

Lemma below_weaken b b' w : (b <= b')%nat -> wire_below b w -> wire_below b' w.
Proof. destruct w; cbn; lia. Qed.

Lemma left_below n iv ins i : (forall i, (i < n)%nat -> wire_below iv (ins i)) -> (i < n)%nat -> wire_below (iv + level_vars n) (left_of n iv ins i).
Proof.
  intros Hins Hi. unfold left_of. destruct (Nat.ltb_spec i (numLeftVars n)); [|apply (below_weaken iv); [lia|auto]]. cbn. pose proof (level_large n). lia.
Qed.

Lemma right_below n iv outs i : (forall i, (i < n)%nat -> wire_below iv (outs i)) -> (i < n)%nat -> wire_below (iv + level_vars n) (right_of n iv outs i).
Proof.
  intros Houts Hi. unfold right_of. destruct (Nat.ltb_spec i (numRightVars n)); [|apply (below_weaken iv); [lia|auto]]. unfold level_vars.
  destruct (Nat.eqb_spec n 3) as [He|He]; [destruct (i =? 0)%nat|]; cbn [wire_below]; lia.
Qed.

Lemma level_below n iv sb sb' ins outs : (3 <= n)%nat -> (forall i, (i < n)%nat -> wire_below iv (ins i)) -> (forall i, (i < n)%nat -> wire_below iv (outs i)) ->
  gates_below (iv + level_vars n)
  (tabulate (leftSwitchCt n) (fun k => {| s1 := ins (2 * k); s2 := ins (2 * k + 1); t1 := left_of n iv ins (2 * k); t2 := left_of n iv ins (2 * k + 1); sw := sb + k |})%nat ++
   tabulate (rightSwitchCt n) (fun k => {| s1 := right_of n iv outs (2 * k); s2 := right_of n iv outs (2 * k + 1); t1 := outs (2 * k); t2 := outs (2 * k + 1); sw := sb' + k |})%nat).
Proof.
  intros Hn Hins Houts. pose proof (sizes n ltac:(lia)) as [Hnl Hnr]. rewrite nl_2, nr_2 in *. assert (2 * leftSwitchCt n <= n /\ 2 * rightSwitchCt n <= n)%nat as [Hnl' Hnr'] by (destruct (Nat.odd n); lia).
  assert (Hw : forall w, wire_below iv w -> wire_below (iv + level_vars n) w) by (intros w; apply below_weaken; lia).
  apply Forall_app. split; apply Forall_tabulate; intros k Hk; unfold wires_of; cbn [s1 s2 t1 t2]; repeat apply Forall_cons_2; try apply Forall_nil_2;
    first [apply left_below|apply right_below|apply Hw, Hins|apply Hw, Houts]; (done || lia).
Qed.

Lemma build_Ok fuel : forall n iv ins outs st ρ0, (2 <= n <= fuel)%nat -> inj_below ρ0 iv -> (forall k, (k < iv)%nat -> (ρ0 k < varct st)%nat) ->
  (forall i, (i < n)%nat -> wire_below iv (ins i)) -> (forall i, (i < n)%nat -> wire_below iv (outs i)) ->
  let st' := buildwak fuel (tabulate n (fun i => ren ρ0 (ins i))) (tabulate n (fun i => ren ρ0 (outs i))) n st in
  exists ρ hs, built n iv (network fuel n iv (swc st) ins outs) ρ0 st st' ρ hs.
Proof.
  induction fuel as [|fuel IH]; intros n iv ins outs st ρ0 Hn Hi Hb Hins Houts st'; [lia|].
  destruct (decide (n = 2)%nat) as [->|H2]; [exists ρ0; apply build_two; [lia|done|done]|].
  destruct (decide (n = 3)%nat) as [->|H3]; [by apply build_three; [lia|..]|].
  assert (4 <= n)%nat as H4 by lia. destruct (halves n ltac:(lia)) as (Hlt & Hsum & H1 & Hle & Hbt & Hlr & Hns). pose proof (num_intermediate_level n ltac:(lia)) as Hni.
  unfold st'. rewrite (level_build n H4 fuel iv ins outs st ρ0 Hins Houts). set (ρ1 := level_names iv (varct st) ρ0). set (stl := level_builder n ins outs st ρ0).
  destruct (level_inj n H4 iv ins outs st ρ0 Hi Hb) as (I1 & B1 & O1). fold ρ1 stl in I1, B1, O1.
  set (L := left_of n iv ins). set (R := right_of n iv outs).
  assert (HL : forall (c : bool) i, (i < if c then bottomSize n else topSize n)%nat -> wire_below (iv + level_vars n) (L (sub_index n c i))) by (intros c i Hi'; apply left_below, sub_index_lt; [done|lia|done]).
  assert (HR : forall (c : bool) i, (i < if c then bottomSize n else topSize n)%nat -> wire_below (iv + level_vars n) (R (sub_index n c i))) by (intros c i Hi'; apply right_below, sub_index_lt; [done|lia|done]).
  destruct (IH (topSize n) (iv + level_vars n)%nat (fun k => L (sub_index n false k)) (fun k => R (sub_index n false k)) stl ρ1) as (ρ2 & hs2 & HT); [lia|done|done|apply (HL false)|apply (HR false)|].
  set (st2 := buildwak fuel _ _ (topSize n) stl) in *.
  destruct (IH (bottomSize n) (iv + level_vars n + num_intermediate (topSize n))%nat (fun k => L (sub_index n true k)) (fun k => R (sub_index n true k)) st2 ρ2) as (ρ3 & hs3 & HB).
  { lia. } { apply (bu_inj _ _ _ _ _ _ _ _ HT). } { apply (bu_below _ _ _ _ _ _ _ _ HT). }
  { intros i Hi'. apply (below_weaken (iv + level_vars n)); [lia|]. by apply (HL true). } { intros i Hi'. apply (below_weaken (iv + level_vars n)); [lia|]. by apply (HR true). }
  assert (Hren : forall (c : bool) (W : nat -> wire), (forall (c : bool) i, (i < if c then bottomSize n else topSize n)%nat -> wire_below (iv + level_vars n) (W (sub_index n c i))) ->
    tabulate (bottomSize n) (fun k => ren ρ2 (W (sub_index n true k))) = tabulate (bottomSize n) (fun k => ren ρ1 (W (sub_index n true k)))).
  { intros _ W HW. apply tabulate_ext. intros k Hk. apply (ren_ext _ _ (iv + level_vars n)); [by apply (HW true)|]. apply (bu_old _ _ _ _ _ _ _ _ HT). }
  rewrite (Hren true L HL), (Hren true R HR) in HB. exists ρ3, (level_lines n ins outs st ρ0 ++ hs2 ++ hs3).
  destruct (level_lines_parse n H4 iv ins outs st ρ0 Hins Houts) as [PE PG]. fold ρ1 L R in PG.
  destruct (bu_lines _ _ _ _ _ _ _ _ HT) as [TL TE]. destruct (bu_lines _ _ _ _ _ _ _ _ HB) as [BL BE].
  split.
  - intros k Hk. rewrite (bu_old _ _ _ _ _ _ _ _ HB), (bu_old _ _ _ _ _ _ _ _ HT) by lia. by apply O1.
  - rewrite Hni, !Nat.add_assoc. apply (bu_inj _ _ _ _ _ _ _ _ HB).
  - rewrite Hni, !Nat.add_assoc. apply (bu_below _ _ _ _ _ _ _ _ HB).
  - split; [rewrite BL, TL; cbn [stl level_builder hooked]; by rewrite <- !app_assoc|]. by rewrite !even_list_app by done.
  - rewrite (bu_swc _ _ _ _ _ _ _ _ HB), (bu_swc _ _ _ _ _ _ _ _ HT). cbn [stl level_builder swc]. lia.
  - rewrite !parseNet_app by done. rewrite PG, (bu_gates _ _ _ _ _ _ _ _ HT), (bu_gates _ _ _ _ _ _ _ _ HB), (bu_swc _ _ _ _ _ _ _ _ HT).
    cbn [network stl level_builder swc]. rewrite (proj2 (Nat.ltb_ge _ _)), (proj2 (Nat.eqb_neq _ _)) by lia. rewrite (app_assoc (tabulate _ _)), !fmap_app. f_equal; [|f_equal].
    + rewrite <- !fmap_app. apply (ren_gates_ext _ _ (iv + level_vars n)); [by apply level_below; [lia|..]|]. intros k Hk. rewrite (bu_old _ _ _ _ _ _ _ _ HB) by lia. symmetry. by apply (bu_old _ _ _ _ _ _ _ _ HT).
    + apply (ren_gates_ext _ _ (iv + level_vars n + num_intermediate (topSize n))); [apply network_below; [lia|apply (HL false)|apply (HR false)]|].
      intros k Hk. symmetry. by apply (bu_old _ _ _ _ _ _ _ _ HB).
Qed.

(** ** The compiler's network *)

Lemma compiled n : (2 <= n)%nat -> exists ρ, inj_below ρ (num_intermediate n) /\ parseNet (waksman n) = ren_gate ρ <$> network n n 0 0 WIn WOut /\
  gates_below (num_intermediate n) (network n n 0 0 WIn WOut).
Proof.
  intros Hn. destruct (build_Ok n n 0 WIn WOut {| hooked := []; varct := 0; swc := 0 |} id) as (ρ & hs & HB); [lia|intros j k Hj; lia|intros k Hk; lia|done|done|].
  cbn [swc] in HB. exists ρ. split; [apply (bu_inj _ _ _ _ _ _ _ _ HB)|]. split; [|by apply (network_below n n 0); [lia|..]].
  unfold waksman. rewrite <- (bu_gates _ _ _ _ _ _ _ _ HB). f_equal. apply (bu_lines _ _ _ _ _ _ _ _ HB).
Qed.

Lemma ren_slot ρ b gs : inj_below ρ b -> gates_below b gs ->
  (fun g => {| s1 := slot_of (ρ <$> seq 0 b) (s1 g); s2 := slot_of (ρ <$> seq 0 b) (s2 g); t1 := slot_of (ρ <$> seq 0 b) (t1 g); t2 := slot_of (ρ <$> seq 0 b) (t2 g); sw := sw g |}) <$> (ren_gate ρ <$> gs) = gs.
Proof.
  intros Hi Hg. rewrite <- list_fmap_compose. etransitivity; [|apply list_fmap_id]. apply list_fmap_ext. intros i g Hig. pose proof (proj1 (Forall_lookup _ _) Hg i g Hig) as Hw.
  unfold wires_of in Hw. rewrite !Forall_cons in Hw. destruct Hw as (H1 & H2 & H3 & H4 & _). cbn. rewrite !(slot_of_ren ρ b) by done. by destruct g.
Qed.

Lemma intermediate_nodes_compiled n ρ : (2 <= n)%nat -> inj_below ρ (num_intermediate n) -> gates_below (num_intermediate n) (network n n 0 0 WIn WOut) ->
  intermediate_nodes (ren_gate ρ <$> network n n 0 0 WIn WOut) = ρ <$> seq 0 (num_intermediate n).
Proof.
  intros Hn Hi Hg. etransitivity; [exact (foldl_mention_ren ρ _ _ [] Hi (Forall_nil_2 _) Hg)|]. f_equal. by apply (network_mentions n n 0 0 WIn WOut []); [lia|apply Forall_nil_2|..].
Qed.

(** C5: The network [wak.py] builds, its nodes numbered as the compiler first
    mentions them, is for every width the network in the order of the router's
    arrays; it has as many wires and the outputs stand in order. *)
Theorem compiled_network_is n : (2 <= n)%nat ->
  compiled_network n = network n n 0 0 WIn WOut /\
  length (intermediate_nodes (parseNet (waksman n))) = num_intermediate n /\
  outputs (parseNet (waksman n)) = seq 0 n.
Proof.
  intros Hn. destruct (compiled n Hn) as (ρ & Hi & Hp & Hb). unfold compiled_network. rewrite Hp, (intermediate_nodes_compiled n ρ Hn Hi Hb). split; [|split].
  - by apply ren_slot.
  - by rewrite length_fmap, length_seq.
  - rewrite outputs_ren, network_outputs by lia. clear. induction n as [|n IH]; [done|]. by rewrite tabulate_S, concat_app, IH, seq_S.
Qed.

Lemma compiled_network_is_witness : compiled_network 4 = network 4 4 0 0 WIn WOut.
Proof. apply (compiled_network_is 4). lia. Defined.

Lemma satisfied_intro val a b c d e va vb vc vd ve : val a = Some va -> val b = Some vb -> val c = Some vc -> val d = Some vd -> val e = Some ve ->
  ((va - vb) * vc + (vd - ve) = 0)%Z -> satisfied val {| ca := a; cb := b; cc := c; cd := d; ce := e |} = true.
Proof. intros H1 H2 H3 H4 H5 H. unfold satisfied. cbn. rewrite H1, H2, H3, H4, H5. by apply Z.eqb_eq. Qed.

(** No switch has an input as a target. *)
Definition is_input (w : wire) : bool := match w with WIn _ => true | _ => false end.

Lemma network_targets fuel : forall n iv sb ins outs, (n <= fuel)%nat -> (forall i, (i < n)%nat -> is_input (outs i) = false) ->
  Forall (fun g => is_input (t1 g) = false /\ is_input (t2 g) = false) (network fuel n iv sb ins outs).
Proof.
  induction fuel as [|fuel IH]; intros n iv sb ins outs Hn Houts; [apply Forall_nil_2|]. cbn [network].
  destruct (Nat.ltb_spec n 2) as [H2|H2]; [apply Forall_nil_2|]. destruct (Nat.eqb_spec n 2) as [->|Hne].
  { apply Forall_cons_2; [|apply Forall_nil_2]. split; apply Houts; lia. }
  destruct (halves n ltac:(lia)) as (Hlt & Hsum & H1 & Hle & Hbt & Hlr & _). pose proof (sizes n ltac:(lia)) as [Hnl Hnr]. rewrite nl_2, nr_2 in *.
  assert (HR : forall i, (i < n)%nat -> is_input (right_of n iv outs i) = false).
  { intros i Hi. unfold right_of. destruct (i <? numRightVars n)%nat; [|by apply Houts]. destruct (n =? 3)%nat; [by destruct (i =? 0)%nat|done]. }
  repeat (apply Forall_app; split).
  - apply Forall_tabulate. intros k Hk. cbn [t1 t2]. unfold left_of. by rewrite nl_2, !(proj2 (Nat.ltb_lt _ _)) by lia.
  - apply Forall_tabulate. intros k Hk. cbn [t1 t2]. split; apply Houts; destruct (Nat.odd n); lia.
  - apply IH; [lia|]. intros i Hi. apply HR, (sub_index_lt n false); [lia|done].
  - apply IH; [lia|]. intros i Hi. apply HR, (sub_index_lt n true); [lia|done].
Qed.

Lemma value_of_node input inter output w : is_input w = false -> value_of input inter output w = value_of [] inter output w.
Proof. by destruct w. Qed.

Lemma slot_not_input names w : is_input (slot_of names w) = is_input w.
Proof. destruct w; cbn; [done| |done]. by destruct (list_find _ names) as [[]|]. Qed.

(** A switch that passes its inputs on satisfies its constraints. *)
Lemma gate_satisfied names input input' inter output sws g k :
  gate_holds (value_of input inter output) (Some <$> sws) {| s1 := slot_of names (s1 g); s2 := slot_of names (s2 g); t1 := slot_of names (t1 g); t2 := slot_of names (t2 g); sw := sw g |} ->
  is_input (t1 g) = false -> is_input (t2 g) = false ->
  Forall (fun c => satisfied (term_val names input' inter output sws) c = true) (gen_field g k).
Proof.
  intros (b & Hsw & [x1 V1] & [x2 V2] & T1 & T2) I1 I2. cbn [s1 s2 t1 t2 sw] in *. unfold gen_field.
  destruct (is_input (s1 g)) eqn:I3; [destruct (s1 g); [apply Forall_nil_2|done..]|]. destruct (is_input (s2 g)) eqn:I4; [destruct (s1 g), (s2 g); done || apply Forall_nil_2|].
  rewrite V1, V2 in T1, T2. rewrite value_of_node in V1, V2, T1, T2 by (by rewrite slot_not_input).
  assert (VS : term_val names input' inter output sws (TSwitch (sw g)) = Some (Z.b2z b)).
  { cbn. rewrite list_lookup_fmap in Hsw. destruct (sws !! sw g) as [b'|]; [|done]. by injection Hsw as ->. }
  assert (VN : forall w x, value_of [] inter output (slot_of names w) = Some x -> term_val names input' inter output sws (TNode w k) = Some (field k x)).
  { intros w x Hw. unfold term_val. by rewrite Hw. }
  assert (Hall : Forall (fun c => satisfied (term_val names input' inter output sws) c = true)
    [ {| ca := TNode (s2 g) k; cb := TNode (s1 g) k; cc := TSwitch (sw g); cd := TNode (s1 g) k; ce := TNode (t1 g) k |};
      {| ca := TNode (s1 g) k; cb := TNode (s2 g) k; cc := TSwitch (sw g); cd := TNode (s2 g) k; ce := TNode (t2 g) k |};
      {| ca := TConst 1; cb := TSwitch (sw g); cc := TSwitch (sw g); cd := TConst 0; ce := TConst 0 |} ]).
  { pose proof (VN _ _ V1) as N1. pose proof (VN _ _ V2) as N2. destruct b; pose proof (VN _ _ T1) as N3; pose proof (VN _ _ T2) as N4; cbn [Z.b2z] in VS;
      repeat apply Forall_cons_2; try apply Forall_nil_2; (eapply satisfied_intro; [eassumption || reflexivity ..|lia]). }
  destruct (s1 g), (s2 g); (exact Hall || apply Forall_nil_2).
Qed.

Lemma network_satisfied input input' inter output sws n : (2 <= n)%nat ->
  Forall (gate_holds (value_of input inter output) (Some <$> sws)) (network n n 0 0 WIn WOut) ->
  let names := intermediate_nodes (parseNet (waksman n)) in
  Forall (fun c => satisfied (term_val names input' inter output sws) c = true) (waksman_network_as_basic_constraints n).
Proof.
  intros Hn HG names. destruct (compiled n Hn) as (ρ & Hi & Hp & Hb).
  assert (HN : names = ρ <$> seq 0 (num_intermediate n)) by (unfold names; by rewrite Hp, (intermediate_nodes_compiled n ρ Hn Hi Hb)).
  pose proof (network_targets n n 0 0 WIn WOut (Nat.le_refl n) ltac:(done)) as HT.
  assert (HT' : Forall (fun g => is_input (t1 g) = false /\ is_input (t2 g) = false) (parseNet (waksman n))).
  { rewrite Hp. apply Forall_fmap. eapply Forall_impl; [exact HT|]. intros g [T1 T2]. cbn. by destruct (t1 g), (t2 g). }
  rewrite <- (ren_slot ρ _ _ Hi Hb), <- HN, <- Hp in HG. rewrite Forall_fmap in HG.
  unfold waksman_network_as_basic_constraints. apply Forall_concat, Forall_fmap. pose proof (proj2 (Forall_and _ _) (conj HG HT')) as Hboth. eapply Forall_impl; [exact Hboth|].
  intros g [Hg [T1 T2]]. unfold compose. apply Forall_concat, Forall_tabulate. intros k _. by apply (gate_satisfied _ input).
Qed.

(** C6: A switch one of whose sources is an input of the network has no
    constraint, so the outputs are not bound to the inputs: the constraints for
    the inputs of one memory hold with the sorting of any other of the same
    length, the operations of that other memory in order. *)
Theorem waksman_network_unsound input input' : (2 <= length input)%nat -> length input' = length input ->
  let n := length input in
  exists inter output sws, output ≡ₚ input /\ StronglySorted mem_le output /\
    Forall (fun c => satisfied (term_val (intermediate_nodes (parseNet (waksman n))) input' inter output sws) c = true) (waksman_network_as_basic_constraints n).
Proof.
  intros Hn _ n. destruct (route_sorted input Hn) as (inter & output & sws & _ & _ & _ & HP & HS & HG). exists inter, output, sws. split; [done|]. split; [done|]. by apply (network_satisfied input).
Qed.

Lemma waksman_network_unsound_witness :
  let input' := [ {| addr := 5; timestamp := 0; type_ := 1; value := 7 |}; {| addr := 3; timestamp := 1; type_ := 1; value := 7 |}; {| addr := 5; timestamp := 2; type_ := 0; value := 7 |} ] in
  exists inter output sws, output ≡ₚ three_operations /\ StronglySorted mem_le output /\
    Forall (fun c => satisfied (term_val (intermediate_nodes (parseNet (waksman 3))) input' inter output sws) c = true) (waksman_network_as_basic_constraints 3).
Proof. intros input'. apply (waksman_network_unsound three_operations input'); [cbn; lia|reflexivity]. Defined.
