(* ===== verification/Prover.v ===== *)
(** The prover's interpreter of worksheets: [pepper/libv/computation_p.cpp].

    [compute_from_pws] reads the words of a worksheet one after the other and
    assigns values to the variables of the computation.  The state holds the
    variables and the scratch numbers of the object, since the code passes
    references to them around: [voc] gives a location, and the value of a
    constant lives in the scratch number its caller names.  Messages printed
    on the way are not modelled; [exit(1)], a failed assertion and an access
    outside an array are [Fault].

    A word is read into a buffer, the [char cmds[BUFLEN]] of the function that
    reads.  At the end of the worksheet the code prints a message and goes on
    with what the buffer holds, so the buffer is passed along: [None] is a
    buffer nothing was read into yet, whose use is [Fault].  The loops that
    look for a closing word have fuel for every word left and one round more;
    [NoFuel] is a loop that never comes to an end.

    GMP is the class [Gmp]; the block store and the Merkle memory are those of
    [LevelDb] and [MerkleRam]; the programs run by [EXO_COMPUTE] and
    [EXT_GADGET] are a parameter.  The index [F1_index], which the constructor
    sets to the identity and nothing changes, is left out. *)
From Stdlib Require Import ZArith Lia Ascii String.
From stdpp Require Import base numbers list strings pretty gmap.
From S2P Require Import Prelude Bits LevelDb GghHash MerkleRam Mpq Waksman.

Local Open Scope Z_scope.

(** ** The state *)

Section Prover.
Context `{HashBlockStore} `{HH : Hasher} `{CacheDB} `{G : Gmp}.
Context (DB_NUM_ADDRESSES : Z) (RAM_CELL_NUM_BITS NUM_COMMITMENT_BITS : nat).
Context (num_vars size_input size_output : nat) (prime : Z).
Context (execute_command : string -> string -> string -> list string) (AMat : nat -> Z).

Record ComputationProver : Type := {
  F1_q : list mpq_t;
  input_output_q : list mpq_t;
  temp_qs : list mpq_t;
  temp_q : mpq_t;
  temp_q2 : mpq_t;
  true_ram : gmap Z mpq_t;
  ram : RAMImpl;
  pws_file : list string
}.

Definition temp_stack_size : nat := 16.

(** References to rational numbers. *)
Inductive loc : Type := LF1 (i : nat) | LIO (i : nat) | LTemps (i : nat) | LTemp | LTemp2.

Definition prog (A : Type) : Type := ComputationProver -> res (A * ComputationProver).

#[local] Instance prog_ret : MRet prog := fun A a σ => Ok (a, σ).
#[local] Instance prog_bind : MBind prog := fun A B f m σ => '(a, σ) ← m σ; f a σ.

Definition fault {A} : prog A := fun _ => Fault.
Definition lift {A} (m : res A) : prog A := fun σ => a ← m; Ok (a, σ).
Definition gets {A} (f : ComputationProver -> res A) : prog A := fun σ => a ← f σ; Ok (a, σ).
Definition modify (f : ComputationProver -> res ComputationProver) : prog unit := fun σ => σ ← f σ; Ok (tt, σ).

Definition with_F1 (l : list mpq_t) (σ : ComputationProver) : ComputationProver :=
  {| F1_q := l; input_output_q := input_output_q σ; temp_qs := temp_qs σ; temp_q := temp_q σ; temp_q2 := temp_q2 σ;
     true_ram := true_ram σ; ram := ram σ; pws_file := pws_file σ |}.
Definition with_IO (l : list mpq_t) (σ : ComputationProver) : ComputationProver :=
  {| F1_q := F1_q σ; input_output_q := l; temp_qs := temp_qs σ; temp_q := temp_q σ; temp_q2 := temp_q2 σ;
     true_ram := true_ram σ; ram := ram σ; pws_file := pws_file σ |}.
Definition with_temps (l : list mpq_t) (σ : ComputationProver) : ComputationProver :=
  {| F1_q := F1_q σ; input_output_q := input_output_q σ; temp_qs := l; temp_q := temp_q σ; temp_q2 := temp_q2 σ;
     true_ram := true_ram σ; ram := ram σ; pws_file := pws_file σ |}.
Definition with_temp (q : mpq_t) (σ : ComputationProver) : ComputationProver :=
  {| F1_q := F1_q σ; input_output_q := input_output_q σ; temp_qs := temp_qs σ; temp_q := q; temp_q2 := temp_q2 σ;
     true_ram := true_ram σ; ram := ram σ; pws_file := pws_file σ |}.
Definition with_temp2 (q : mpq_t) (σ : ComputationProver) : ComputationProver :=
  {| F1_q := F1_q σ; input_output_q := input_output_q σ; temp_qs := temp_qs σ; temp_q := temp_q σ; temp_q2 := q;
     true_ram := true_ram σ; ram := ram σ; pws_file := pws_file σ |}.
Definition with_true_ram (m : gmap Z mpq_t) (σ : ComputationProver) : ComputationProver :=
  {| F1_q := F1_q σ; input_output_q := input_output_q σ; temp_qs := temp_qs σ; temp_q := temp_q σ; temp_q2 := temp_q2 σ;
     true_ram := m; ram := ram σ; pws_file := pws_file σ |}.
Definition with_ram (r : RAMImpl) (σ : ComputationProver) : ComputationProver :=
  {| F1_q := F1_q σ; input_output_q := input_output_q σ; temp_qs := temp_qs σ; temp_q := temp_q σ; temp_q2 := temp_q2 σ;
     true_ram := true_ram σ; ram := r; pws_file := pws_file σ |}.
Definition with_tokens (l : list string) (σ : ComputationProver) : ComputationProver :=
  {| F1_q := F1_q σ; input_output_q := input_output_q σ; temp_qs := temp_qs σ; temp_q := temp_q σ; temp_q2 := temp_q2 σ;
     true_ram := true_ram σ; ram := ram σ; pws_file := l |}.

Definition read_loc (σ : ComputationProver) (l : loc) : option mpq_t :=
  match l with
  | LF1 i => F1_q σ !! i
  | LIO i => input_output_q σ !! i
  | LTemps i => temp_qs σ !! i
  | LTemp => Some (temp_q σ)
  | LTemp2 => Some (temp_q2 σ)
  end.

Definition write_loc (l : loc) (q : mpq_t) (σ : ComputationProver) : ComputationProver :=
  match l with
  | LF1 i => with_F1 (<[i := q]> (F1_q σ)) σ
  | LIO i => with_IO (<[i := q]> (input_output_q σ)) σ
  | LTemps i => with_temps (<[i := q]> (temp_qs σ)) σ
  | LTemp => with_temp q σ
  | LTemp2 => with_temp2 q σ
  end.

Definition getq (l : loc) : prog mpq_t :=
  fun σ => match read_loc σ l with Some q => Ok (q, σ) | None => Fault end.

Definition setq (l : loc) (q : mpq_t) : prog unit :=
  fun σ => match read_loc σ l with Some _ => Ok (tt, write_loc l q σ) | None => Fault end.

(** [F1_q[F1_index[i]]] for an index computed by the code. *)
Definition F1_at (i : Z) : prog loc := if i <? 0 then fault else mret (LF1 (Z.to_nat i)).

(** [for (i = lo; i < hi; i++)] over the state. *)
Definition for_prog {S} (lo hi : nat) (body : nat -> S -> prog S) (s : S) : prog S :=
  fun σ => for_upM lo hi (fun i '(s, σ) => body i s σ) (s, σ).

(** ** Words *)

Definition try_next_token : prog (option string) :=
  fun σ => match pws_file σ with
           | [] => Ok (None, σ)
           | t :: ts => Ok (Some t, with_tokens ts σ)
           end.

(** The word read into the buffer [token]; at the end of the worksheet, what
    the buffer holds. *)
Definition next_token_or_error (token : option string) : prog string :=
  t ← try_next_token;
  match t with
  | Some t => mret t
  | None => match token with Some t => mret t | None => fault end
  end.

(** A word that is not the one expected, or no word, only prints a message. *)
Definition expect_next_token (expected : string) : prog unit :=
  _ ← try_next_token; mret tt.

(** [atoi(cmds + 1)] *)
Definition atoi1 (s : string) : Z := match s with String _ s => atoi s | EmptyString => 0 end.

Definition starts_with (c : ascii) (s : string) : bool :=
  match s with String c' _ => Ascii.eqb c' c | EmptyString => false end.

Definition voc (str : string) (use_if_constant : loc) : prog loc :=
  let index := atoi1 str in
  if starts_with "V"%char str then
    mret (if (index <? 0) || (index >=? Z.of_nat num_vars) then use_if_constant else LF1 (Z.to_nat index))
  else if starts_with "I"%char str then
    mret (if (index <? 0) || (index >=? Z.of_nat size_input) then use_if_constant else LIO (Z.to_nat index))
  else if starts_with "O"%char str then
    mret (if (index <? Z.of_nat size_input) || (index >=? Z.of_nat size_input + Z.of_nat size_output) then use_if_constant
          else LIO (Z.to_nat index))
  else
    q ← getq use_if_constant;
    setq use_if_constant (mpq_set_str str 10 q);;
    mret use_if_constant.

(** ** Polynomials *)

(** The flags of [compute_poly]. *)
Record poly_flags : Type := { hasTerms : bool; hasFactors : bool; isEmpty : bool; negate : bool }.

(** "Emit last term, if necessary". *)
Definition emit_term (tempNum : nat) (fl : poly_flags) : prog poly_flags :=
  if hasFactors fl then
    (if negate fl then t ← getq (LTemps (tempNum + 1)); setq (LTemps (tempNum + 1)) (mpq_neg t) else mret tt);;
    t ← getq (LTemps (tempNum + 1));
    (if negb (hasTerms fl) then setq (LTemps tempNum) t
     else p ← getq (LTemps tempNum); setq (LTemps tempNum) (mpq_add p t));;
    mret {| hasTerms := true; hasFactors := false; isEmpty := false; negate := false |}
  else mret fl.

(** A factor is the first of its term or multiplies those before it. *)
Definition add_factor (tempNum : nat) (fl : poly_flags) (factor : mpq_t) : prog poly_flags :=
  (if negb (hasFactors fl) then setq (LTemps (tempNum + 1)) factor
   else t ← getq (LTemps (tempNum + 1)); setq (LTemps (tempNum + 1)) (mpq_mul t factor));;
  mret {| hasTerms := hasTerms fl; hasFactors := true; isEmpty := isEmpty fl; negate := negate fl |}.

(** After the loop. *)
Definition finish_poly (tempNum : nat) (fl : poly_flags) : prog unit :=
  fl ← emit_term tempNum fl;
  if isEmpty fl then setq (LTemps tempNum) (int 0) else mret tt.

Definition fresh_flags : poly_flags := {| hasTerms := false; hasFactors := false; isEmpty := true; negate := false |}.

(** The loop over the words, and the recursion it makes at "(" : each round
    reads a word, so the number of words bounds the fuel. *)
Fixpoint poly_loop (fuel : nat) (tempNum : nat) (fl : poly_flags) : prog unit :=
  match fuel with
  | O => fun _ => NoFuel
  | S fuel =>
      tok ← try_next_token;
      match tok with
      | None => finish_poly tempNum fl
      | Some tok =>
          fl ← (if String.eqb tok "+" || String.eqb tok "-" then emit_term tempNum fl else mret fl);
          if String.eqb tok "(" then
            setq (LTemps (tempNum + 2)) (int 0);;
            (if (temp_stack_size - 1 <=? tempNum + 2)%nat then mret tt else poly_loop fuel (tempNum + 2) fresh_flags);;
            subresult ← getq (LTemps (tempNum + 2));
            fl ← add_factor tempNum fl subresult;
            poly_loop fuel tempNum fl
          else if String.eqb tok ")" then finish_poly tempNum fl
          else if String.eqb tok "E" then finish_poly tempNum fl
          else if String.eqb tok "+" || String.eqb tok "*" then poly_loop fuel tempNum fl
          else if String.eqb tok "-" then
            poly_loop fuel tempNum
              {| hasTerms := hasTerms fl; hasFactors := hasFactors fl; isEmpty := isEmpty fl; negate := negb (negate fl) |}
          else
            factor ← voc tok LTemp;
            q ← getq factor;
            fl ← add_factor tempNum fl q;
            poly_loop fuel tempNum fl
      end
  end.

Definition compute_poly (tempNum : nat) : prog unit :=
  fun σ =>
    (setq (LTemps tempNum) (int 0);;
     if (temp_stack_size - 1 <=? tempNum)%nat then mret tt
     else poly_loop (S (length (pws_file σ))) tempNum fresh_flags) σ.

(** ** Splitting a number into bits *)

Definition compute_split_unsignedint : prog unit :=
  cmds ← next_token_or_error None;
  in_ ← (if starts_with "V"%char cmds then F1_at (atoi1 cmds)
         else if starts_with "I"%char cmds then
           (if atoi1 cmds <? 0 then fault else mret (LIO (Z.to_nat (atoi1 cmds))))
         else fault);
  expect_next_token "into";;
  cmds ← next_token_or_error (Some cmds);
  let len := Z.to_nat (atoi cmds) in
  expect_next_token "bits";;
  expect_next_token "at";;
  cmds ← next_token_or_error (Some cmds);
  let output_start := atoi1 cmds in
  for_prog 0 len
    (fun i _ =>
       Ni ← F1_at (output_start + Z.of_nat i);
       q ← getq in_;
       setq Ni (int (mpz_tstbit (numref q) (Z.of_nat len - Z.of_nat i - 1)))) tt.

Definition compute_split_int_le : prog unit :=
  cmds ← next_token_or_error None;
  let isSigned := negb (starts_with "u"%char cmds) in
  expect_next_token "bits";;
  cmds ← next_token_or_error (Some cmds);
  let N := Z.to_nat (atoi cmds) in
  expect_next_token "X";;
  cmds ← next_token_or_error (Some cmds);
  in_ ← voc cmds LTemp;
  expect_next_token "Y0";;
  cmds ← next_token_or_error (Some cmds);
  let output_start := atoi1 cmds in
  q ← getq in_;
  let temp := numref q in
  let inIsNegative := temp <? 0 in
  let temp := if inIsNegative then temp + mpz_mul_2exp 1 (Z.of_nat N) else temp in
  _ ← for_prog 0 N
    (fun i temp =>
       Ni ← F1_at (output_start + Z.of_nat i);
       let '(temp, temp2) :=
         if (i =? N - 1)%nat && isSigned then
           let temp2 := if inIsNegative then 1 else 0 in (temp - temp2, temp2)
         else (mpz_tdiv_q_2exp temp 1, mpz_tdiv_r_2exp temp 1) in
       setq Ni (int temp2);;
       mret temp) temp;
  mret tt.

(** ** Comparisons *)

Definition compute_less_than_int : prog unit :=
  expect_next_token "N_0";;
  cmds ← next_token_or_error None;
  let N_start := atoi1 cmds in
  expect_next_token "N";;
  cmds ← next_token_or_error (Some cmds);
  let N := atoi cmds in
  expect_next_token "Mlt";;
  cmds ← next_token_or_error (Some cmds);
  Mlt ← voc cmds LTemp;
  expect_next_token "Meq";;
  cmds ← next_token_or_error (Some cmds);
  Meq ← voc cmds LTemp;
  expect_next_token "Mgt";;
  cmds ← next_token_or_error (Some cmds);
  Mgt ← voc cmds LTemp;
  expect_next_token "X1";;
  cmds ← next_token_or_error (Some cmds);
  X1 ← voc cmds LTemp;
  expect_next_token "X2";;
  cmds ← next_token_or_error (Some cmds);
  X2 ← voc cmds LTemp;
  expect_next_token "Y";;
  cmds ← next_token_or_error (Some cmds);
  Y ← voc cmds LTemp;
  x1 ← getq X1;
  x2 ← getq X2;
  let compare := mpq_cmp x1 x2 in
  (if compare <? 0 then
     setq Mlt (int 1);; setq Meq (int 0);; setq Mgt (int 0);;
     x1 ← getq X1; x2 ← getq X2; setq (LTemps 0) (mpq_sub x1 x2)
   else if compare =? 0 then
     setq Mlt (int 0);; setq Meq (int 1);; setq Mgt (int 0);;
     x1 ← getq X1; x2 ← getq X2; setq (LTemps 0) (mpq_sub x1 x2)
   else
     setq Mlt (int 0);; setq Meq (int 0);; setq Mgt (int 1);;
     x1 ← getq X1; x2 ← getq X2; setq (LTemps 0) (mpq_sub x2 x1));;
  m ← getq Mlt;
  setq Y m;;
  d ← getq (LTemps 0);
  let temp := mpz_mul_2exp 1 (N - 1) + numref d in
  _ ← for_prog 0 (Z.to_nat (N - 1))
    (fun i temp =>
       Ni ← F1_at (N_start + Z.of_nat i);
       setq Ni (int (mpz_tdiv_r_2exp temp 1));;
       q ← getq Ni;
       setq Ni (mpq_mul_2exp q (Z.of_nat i));;
       mret (mpz_tdiv_q_2exp temp 1)) temp;
  mret tt.

Definition compute_less_than_float : prog unit :=
  expect_next_token "N_0";;
  cmds ← next_token_or_error None;
  let N_start := atoi1 cmds in
  expect_next_token "Na";;
  cmds ← next_token_or_error (Some cmds);
  let Na := atoi cmds in
  expect_next_token "N";;
  cmds ← next_token_or_error (Some cmds);
  N ← voc cmds LTemp;
  expect_next_token "D_0";;
  cmds ← next_token_or_error (Some cmds);
  let D_start := atoi1 cmds in
  expect_next_token "Nb";;
  cmds ← next_token_or_error (Some cmds);
  let Nb := atoi cmds in
  expect_next_token "D";;
  cmds ← next_token_or_error (Some cmds);
  D ← voc cmds LTemp;
  expect_next_token "D";;
  cmds ← next_token_or_error (Some cmds);
  ND ← voc cmds LTemp;
  expect_next_token "Mlt";;
  cmds ← next_token_or_error (Some cmds);
  Mlt ← voc cmds LTemp;
  expect_next_token "Meq";;
  cmds ← next_token_or_error (Some cmds);
  Meq ← voc cmds LTemp;
  expect_next_token "Mgt";;
  cmds ← next_token_or_error (Some cmds);
  Mgt ← voc cmds LTemp;
  expect_next_token "X1";;
  cmds ← next_token_or_error (Some cmds);
  X1 ← voc cmds LTemp;
  expect_next_token "X2";;
  cmds ← next_token_or_error (Some cmds);
  X2 ← voc cmds LTemp;
  expect_next_token "Y";;
  cmds ← next_token_or_error (Some cmds);
  Y ← voc cmds LTemp;
  x1 ← getq X1;
  x2 ← getq X2;
  let compare := mpq_cmp x1 x2 in
  (if compare <? 0 then
     setq Mlt (int 1);; setq Meq (int 0);; setq Mgt (int 0);;
     x1 ← getq X1; x2 ← getq X2; setq LTemp (mpq_sub x1 x2);;
     t ← getq LTemp; setq N (int (numref t));;
     t ← getq LTemp; setq D (int (denref t))
   else if compare =? 0 then
     setq Mlt (int 0);; setq Meq (int 1);; setq Mgt (int 0);;
     setq N (int (-1));;
     setq D (int 1)
   else
     setq Mlt (int 0);; setq Meq (int 0);; setq Mgt (int 1);;
     x1 ← getq X1; x2 ← getq X2; setq LTemp (mpq_sub x2 x1);;
     t ← getq LTemp; setq N (int (numref t));;
     t ← getq LTemp; setq D (int (denref t)));;
  m ← getq Mlt;
  setq Y m;;
  n ← getq N;
  let temp := mpz_mul_2exp 1 Na + numref n in
  _ ← for_prog 0 (Z.to_nat Na)
    (fun i temp =>
       Ni ← F1_at (N_start + Z.of_nat i);
       setq Ni (int (mpz_tdiv_r_2exp temp 1));;
       q ← getq Ni;
       setq Ni (mpq_mul_2exp q (Z.of_nat i));;
       mret (mpz_tdiv_q_2exp temp 1)) temp;
  d ← getq D;
  _ ← for_prog 0 (Z.to_nat (Nb + 1))
    (fun i temp =>
       Di ← F1_at (D_start + Z.of_nat i);
       setq Di (int (mpz_tdiv_r_2exp temp 1));;
       mret (mpz_tdiv_q_2exp temp 1)) (numref d);
  d ← getq D;
  if numref d =? 0 then fault else
  setq D (mpq_inv d);;
  n ← getq N;
  d ← getq D;
  setq ND (mpq_mul n d).

(** ** The Merkle memory and the block store *)

(** [next_token_or_error(pws_file, cmds)] and [mpz_get_ui(mpq_numref(voc(cmds, temp_q)))] as a [uint32_t]. *)
Definition next_uint32 (cmds : option string) : prog (string * Z) :=
  cmds ← next_token_or_error cmds;
  l ← voc cmds LTemp;
  q ← getq l;
  mret (cmds, u32 (mpz_get_ui (numref q))).

(** [mpz_set_ui(mpq_numref(val), bit); mpq_canonicalize(val)] *)
Definition set_bit (val : loc) (bit : bool) : prog unit :=
  q ← getq val; setq val (mpq_canonicalize (set_numref (b2z bit) q)).

(** A word for each of [n] bits, which must be 0 or 1. *)
Definition next_bits (cmds : string) (n : nat) : prog (string * Bits) :=
  for_prog 0 n
    (fun i '(cmds, data) =>
       '(cmds, bit) ← next_uint32 (Some cmds);
       if negb (bit =? 0) && negb (bit =? 1) then fault else
       mret (cmds, <[i := bit =? 1]> data)) (cmds, replicate n false).

Definition compute_db_get_bits : prog unit :=
  '(cmds, idx) ← next_uint32 None;
  '(cmds, numBits) ← next_uint32 (Some cmds);
  data ← gets (fun σ => RAMImpl_get DB_NUM_ADDRESSES RAM_CELL_NUM_BITS (ram σ) idx);
  if negb (numBits =? Z.of_nat (length data)) then fault else
  _ ← for_prog 0 (Z.to_nat numBits)
    (fun i cmds =>
       cmds ← next_token_or_error (Some cmds);
       val ← voc cmds LTemp;
       set_bit val (data !!! i);;
       mret cmds) cmds;
  mret tt.

Definition compute_db_put_bits : prog unit :=
  '(cmds, idx) ← next_uint32 None;
  '(cmds, numBits) ← next_uint32 (Some cmds);
  '(_, data) ← next_bits cmds (Z.to_nat numBits);
  modify (fun σ => r ← RAMImpl_put DB_NUM_ADDRESSES RAM_CELL_NUM_BITS (ram σ) idx data; Ok (with_ram r σ)).

Definition compute_db_get_sibling_hash : prog unit :=
  '(cmds, idx) ← next_uint32 None;
  '(cmds, lvl) ← next_uint32 (Some cmds);
  cmds ← next_token_or_error (Some cmds);
  let hashVarStart := atoi1 cmds in
  '(found, hash) ← gets (fun σ => getSiblingHash (ram σ) idx (Z.to_nat lvl) []);
  if negb (found : bool) then fault else
  let numBits := getNumHashBits in
  for_prog 0 numBits
    (fun i _ =>
       hashVar ← F1_at (hashVarStart + Z.of_nat i);
       bit ← lift (rd hash (Z.of_nat (numBits - i - 1)));
       set_bit hashVar bit) tt.

Definition parse_hash (numHashBits : nat) : prog Bits :=
  '(_, outKey) ← for_prog 0 numHashBits
    (fun i '(cmds, outKey) =>
       cmds ← next_token_or_error cmds;
       if String.eqb cmds "NUM_X" || String.eqb cmds "NUM_Y" then fault else
       l ← voc cmds LTemp;
       q ← getq l;
       mret (Some cmds, <[i := negb (u32 (mpz_get_ui (numref q)) =? 0)]> outKey)) (None, replicate numHashBits false);
  mret outKey.

(** [key.any()] *)
Definition any (key : Bits) : bool := existsb id key.

(** The block under a key, and no block under the key of zeroes. *)
Definition get_block (key : Bits) : prog Bits :=
  if any key then
    '(found, block) ← gets (fun σ => get (blockStore (ram σ)) key []);
    if negb (found : bool) then fault else mret block
  else mret [].

(** The words after "Y" take the bits of the block, and zeroes after it. *)
Definition put_bits (cmds : option string) (block : Bits) : prog unit :=
  expect_next_token "NUM_Y";;
  '(cmds, numBits) ← next_uint32 cmds;
  expect_next_token "Y";;
  _ ← for_prog 0 (Z.to_nat numBits)
    (fun i cmds =>
       cmds ← next_token_or_error (Some cmds);
       val ← voc cmds LTemp;
       set_bit val (if (i <? length block)%nat then block !!! i else false);;
       mret cmds) cmds;
  mret tt.

Definition compute_get_block_by_hash : prog unit :=
  key ← parse_hash getNumHashBits;
  block ← get_block key;
  put_bits None block.

Definition with_blockStore (b : bstore) (σ : ComputationProver) : ComputationProver :=
  let r := ram σ in
  with_ram {| blockStore := b; numLevels := numLevels r; emptyHash := emptyHash r; rootHash := rootHash r;
              hashCache := hashCache r |} σ.

Definition compute_put_block_by_hash : prog unit :=
  key ← parse_hash getNumHashBits;
  expect_next_token "NUM_X";;
  '(cmds, numBits) ← next_uint32 None;
  expect_next_token "X";;
  '(_, block) ← next_bits cmds (Z.to_nat numBits);
  if any key then modify (fun σ => b ← put (blockStore (ram σ)) key block; Ok (with_blockStore b σ))
  else mret tt.

Definition compute_free_block_by_hash : prog unit :=
  key ← parse_hash getNumHashBits;
  modify (fun σ => b ← free (blockStore (ram σ)) key; Ok (with_blockStore b σ)).

Definition compute_genericget : prog unit :=
  expect_next_token "COMMITMENT";;
  expect_next_token "NUM_HASH_BITS";;
  cmds ← next_token_or_error None;
  expect_next_token "HASH_IN";;
  key ← parse_hash NUM_COMMITMENT_BITS;
  block ← get_block key;
  put_bits (Some cmds) block.

(** ** Lists of words, and programs run by the prover *)

(** The words before "]".  At the end of the worksheet every round finds the
    word that the buffer holds. *)
Fixpoint getL_loop (fuel : nat) (buf : option string) (inL : list string) : prog (string * list string) :=
  match fuel with
  | O => fun _ => NoFuel
  | S fuel =>
      buf ← next_token_or_error buf;
      if String.eqb buf "]" then mret (buf, inL)
      else getL_loop fuel (Some buf) (inL ++ [buf])
  end.

Definition getL (buf : option string) : prog (string * list string) :=
  fun σ => getL_loop (S (length (pws_file σ))) buf [] σ.

Fixpoint getLL_loop (fuel : nat) (buf : option string) (inLL : list (list string)) : prog (string * list (list string)) :=
  match fuel with
  | O => fun _ => NoFuel
  | S fuel =>
      buf ← next_token_or_error buf;
      if String.eqb buf "]" then mret (buf, inLL)
      else
        '(buf, tmpList) ← getL (Some buf);
        getLL_loop fuel (Some buf) (inLL ++ [tmpList])
  end.

Definition getLL (buf : option string) : prog (string * list (list string)) :=
  fun σ => getLL_loop (S (length (pws_file σ))) buf [] σ.

(** [for (it = l.begin(); it != l.end(); it++)] *)
Fixpoint for_each {A S} (l : list A) (body : A -> S -> prog S) (s : S) : prog S :=
  match l with
  | [] => mret s
  | a :: l => s ← body a s; for_each l body s
  end.

(** Assigning a word from another program; a word that is a constant, or no
    number, only prints a message. *)
Definition assign_output (var word : string) : prog unit :=
  vval ← voc var LTemp;
  match vval with
  | LTemp => mret tt
  | _ => q ← getq vval; setq vval (mpq_set_str word 0 q)
  end.

Definition compute_exo_compute : prog unit :=
  expect_next_token "EXOID";;
  cmds ← next_token_or_error None;
  let exoId := atoi cmds in
  expect_next_token "INPUTS";;
  expect_next_token "[";;
  '(cmds, inVarsStr) ← getLL (Some cmds);
  expect_next_token "OUTPUTS";;
  expect_next_token "[";;
  '(cmds, outVarsStr) ← getL (Some cmds);
  procIn ← for_each inVarsStr
    (fun it procIn =>
       procIn ← for_each it
         (fun jt procIn =>
            vval ← voc jt LTemp;
            q ← getq vval;
            mret (procIn +:+ mpz_get_str (numref q) +:+ "%" +:+ mpz_get_str (denref q) +:+ " ")) (procIn +:+ "[ ");
       mret (procIn +:+ "] ")) "";
  let pOutTok := execute_command ("./bin/exo" +:+ pretty exoId) (pretty (Z.of_nat (length outVarsStr))) procIn in
  for_each (zip outVarsStr pOutTok) (fun '(it, word) _ => assign_output it word) tt.

(** [assert(outTokIt != pOutTok.cend())] and the assignment. *)
Definition assign_outputs (vars : list string) (pOutTok : list string) : prog (list string) :=
  for_each vars
    (fun it pOutTok =>
       vval ← voc it LTemp;
       match pOutTok with
       | [] => fault
       | word :: pOutTok =>
           match vval with
           | LTemp => mret tt
           | _ => q ← getq vval; setq vval (mpq_set_str word 0 q)
           end;;
           mret pOutTok
       end) pOutTok.

Definition compute_ext_gadget : prog unit :=
  expect_next_token "GADGETID";;
  cmds ← next_token_or_error None;
  let gadgetId := atoi cmds in
  expect_next_token "INPUTS";;
  expect_next_token "[";;
  '(cmds, inVarsStr) ← getL (Some cmds);
  expect_next_token "OUTPUTS";;
  expect_next_token "[";;
  '(cmds, outVarsStr) ← getL (Some cmds);
  expect_next_token "INTERMEDIATE";;
  expect_next_token "[";;
  '(cmds, intermediateVarsStr) ← getL (Some cmds);
  procIn ← for_each inVarsStr
    (fun it procIn =>
       vval ← voc it LTemp;
       q ← getq vval;
       mret (procIn +:+ mpq_get_str q +:+ " ")) "";
  let pOutTok := execute_command ("./bin/gadget" +:+ pretty gadgetId) "witness" procIn in
  pOutTok ← for_each inVarsStr
    (fun it pOutTok =>
       vval ← voc it LTemp;
       q ← getq vval;
       match pOutTok with
       | [] => fault
       | word :: pOutTok => if String.eqb (mpq_get_str q) word then mret pOutTok else fault
       end) pOutTok;
  pOutTok ← assign_outputs outVarsStr pOutTok;
  pOutTok ← assign_outputs intermediateVarsStr pOutTok;
  match pOutTok with [] => mret tt | _ => fault end.

(** ** The fast memory *)

(** [true_ram], the addresses being [size_t]. *)
Definition addr_idx (addr : mpq_t) : Z := mpz_get_ui (numref addr).

(** The value at an address, 0 where there is none. *)
Definition ram_value (m : gmap Z mpq_t) (idx : Z) : mpq_t :=
  match m !! idx with Some v => v | None => int 0 end.

Definition compute_fast_ramget : prog unit :=
  expect_next_token "ADDR";;
  cmds ← next_token_or_error None;
  l ← voc cmds LTemp;
  addr ← getq l;
  expect_next_token "VALUE";;
  cmds ← next_token_or_error (Some cmds);
  value ← voc cmds LTemp;
  v ← gets (fun σ => Ok (ram_value (true_ram σ) (addr_idx addr)));
  setq value v.

(** Both branches of the conditional memory write. *)
Definition ram_store (idx : Z) (value : mpq_t) : prog unit := modify (fun σ => Ok (with_true_ram (<[idx := value]> (true_ram σ)) σ)).

Definition ram_keep (idx : Z) (target : loc) : prog unit :=
  v ← gets (fun σ => Ok (ram_value (true_ram σ) idx));
  setq target v.

Definition compute_fast_ramput : prog unit :=
  expect_next_token "ADDR";;
  cmds ← next_token_or_error None;
  l ← voc cmds LTemp;
  addr ← getq l;
  expect_next_token "VALUE";;
  cmds ← next_token_or_error (Some cmds);
  l ← voc cmds LTemp;
  value ← getq l;
  expect_next_token "CONDITION";;
  cmds ← next_token_or_error (Some cmds);
  l ← voc cmds LTemp;
  condition ← getq l;
  cmds ← next_token_or_error (Some cmds);
  let branch := String.eqb cmds "true" in
  cmds ← next_token_or_error (Some cmds);
  target ← voc cmds LTemp;
  let idx := addr_idx addr in
  if negb (numref condition =? 0) then
    if branch then ram_store idx value;; setq target value
    else ram_keep idx target
  else
    if negb branch then ram_store idx value
    else ram_keep idx target.

(** ** The other statements *)

(** The words of the format, up to "NUM_X". *)
Fixpoint scan_format (fuel : nat) (cmds : option string) : prog string :=
  match fuel with
  | O => fun _ => NoFuel
  | S fuel =>
      cmds ← next_token_or_error cmds;
      if String.eqb cmds "NUM_X" then mret cmds else scan_format fuel (Some cmds)
  end.

Definition compute_printf : prog unit :=
  cmds ← (fun σ => scan_format (S (length (pws_file σ))) None σ);
  cmds ← next_token_or_error (Some cmds);
  let num_args := atoi cmds in
  expect_next_token "X";;
  let num_args := if num_args >? 10 then 10 else num_args in
  _ ← for_prog 0 (Z.to_nat num_args)
    (fun _ cmds =>
       cmds ← next_token_or_error (Some cmds);
       l ← voc cmds LTemp;
       _ ← getq l;
       mret cmds) cmds;
  mret tt.

Definition compute_matrix_vec_mul : prog unit :=
  expect_next_token "NUM_ROWS";;
  cmds ← next_token_or_error None;
  let number_of_rows := Z.to_nat (atoi cmds) in
  expect_next_token "NUM_COLUMNS";;
  cmds ← next_token_or_error (Some cmds);
  let number_of_columns := Z.to_nat (atoi cmds) in
  expect_next_token "ACTUAL_NUM_COLUMNS";;
  cmds ← next_token_or_error (Some cmds);
  let actual_number_of_columns := Z.to_nat (atoi cmds) in
  expect_next_token "IN_VEC";;
  '(cmds, input) ← for_prog 0 actual_number_of_columns
    (fun _ '(cmds, input) =>
       cmds ← next_token_or_error (Some cmds);
       l ← voc cmds LTemp;
       q ← getq l;
       mret (cmds, input ++ [q])) (cmds, []);
  let result :=
    map (fun i =>
      for_up 0 actual_number_of_columns
        (fun j acc => mpq_add acc (mpq_mul (int (AMat (i * number_of_columns + j)%nat)) (input !!! j))) (int 0))
      (seq 0 number_of_rows) in
  expect_next_token "OUT_VEC";;
  _ ← for_prog 0 number_of_rows
    (fun i cmds =>
       cmds ← next_token_or_error (Some cmds);
       output ← voc cmds LTemp;
       setq output (result !!! i);;
       mret cmds) cmds;
  mret tt.

(** The statements in the body of [compute_from_pws] share its buffer [cmds].

    [P Y = polynomial] *)
Definition compute_P (cmds : option string) : prog (option string) :=
  cmds ← next_token_or_error cmds;
  Y ← voc cmds LTemp;
  expect_next_token "=";;
  compute_poly 0;;
  t ← getq (LTemps 0);
  setq Y t;;
  mret (Some cmds).

(** [!= M m X1 x1 X2 x2 Y y] *)
Definition compute_not_equal (cmds : option string) : prog (option string) :=
  expect_next_token "M";;
  cmds ← next_token_or_error cmds;
  M ← voc cmds LTemp;
  expect_next_token "X1";;
  cmds ← next_token_or_error (Some cmds);
  X1 ← voc cmds LTemp;
  expect_next_token "X2";;
  cmds ← next_token_or_error (Some cmds);
  X2 ← voc cmds LTemp2;
  expect_next_token "Y";;
  cmds ← next_token_or_error (Some cmds);
  Y ← voc cmds LTemp;
  x1 ← getq X1;
  x2 ← getq X2;
  if mpq_equal x1 x2 then
    setq M (int 0);;
    setq Y (int 0);;
    mret (Some cmds)
  else
    setq LTemp (mpq_sub x1 x2);;
    t ← getq LTemp;
    setq M (int (mpz_invert (numref t) prime * denref t));;
    setq Y (int 1);;
    mret (Some cmds).

(** [/ Y = x1 / x2], and the same with [/I] and [%I]. *)
Definition compute_binary (cmds : option string) (tok : string) : prog (option string) :=
  cmds ← next_token_or_error cmds;
  Y ← voc cmds LTemp;
  expect_next_token "=";;
  cmds ← next_token_or_error (Some cmds);
  X1 ← voc cmds LTemp;
  expect_next_token tok;;
  cmds ← next_token_or_error (Some cmds);
  X2 ← voc cmds LTemp2;
  x2 ← getq X2;
  (if numref x2 =? 0 then mret tt
   else
     x1 ← getq X1;
     if String.eqb tok "/" then setq Y (mpq_div x1 x2)
     else
       let z := if String.eqb tok "/I" then mpz_tdiv_q (numref x1) (numref x2) else mpz_tdiv_r (numref x1) (numref x2) in
       setq Y (int z));;
  mret (Some cmds).

(** [ASSERT_ZERO y] evaluates the word and prints a message. *)
Definition compute_assert_zero (cmds : option string) : prog (option string) :=
  cmds ← next_token_or_error cmds;
  Y ← voc cmds LTemp;
  _ ← getq Y;
  mret (Some cmds).

(** ** The sorting network of the fast memory *)

(** [mpz_get_si(mpq_numref(voc(cmds, temp_q)))] *)
Definition next_si (cmds : string) : prog (string * Z) :=
  cmds ← next_token_or_error (Some cmds);
  l ← voc cmds LTemp;
  q ← getq l;
  mret (cmds, mpz_get_si (numref q)).

Definition next_data (cmds : string) : prog (string * data_t) :=
  '(cmds, addr) ← next_si cmds;
  '(cmds, timestamp) ← next_si cmds;
  '(cmds, type_) ← next_si cmds;
  '(cmds, value) ← next_si cmds;
  mret (cmds, {| addr := u32 addr; timestamp := u32 timestamp; type_ := u32 type_; value := value |}).

(** [mpq_set_si(F1_q[F1_index[i]], n, 1)] *)
Definition set_F1 (i n : Z) : prog unit := l ← F1_at i; setq l (int n).

(** The value of an element that is set. *)
Definition value_at {A} (l : list (option A)) (i : nat) : prog A :=
  o ← lift (rd l (Z.of_nat i)); match o with Some a => mret a | None => fault end.

Definition num_elements : Z := 4.

(** The elements of an array, in variables from [offset]. *)
Definition put_data (l : list (option data_t)) (n : nat) (offset : Z) : prog unit :=
  for_prog 0 n
    (fun i _ =>
       d ← value_at l i;
       set_F1 (offset + Z.of_nat i * num_elements + 0) (addr d);;
       set_F1 (offset + Z.of_nat i * num_elements + 1) (timestamp d);;
       set_F1 (offset + Z.of_nat i * num_elements + 2) (type_ d);;
       set_F1 (offset + Z.of_nat i * num_elements + 3) (value d)) tt.

(** An array of a negative size cannot be allocated. *)
Definition compute_waksman_network : prog unit :=
  expect_next_token "WIDTH";;
  cmds ← next_token_or_error None;
  let width := Z.to_nat (atoi cmds) in
  expect_next_token "INPUT";;
  let num_switches := numSwitches width in
  let num_intermediate := Z.of_nat num_switches * 2 - atoi cmds in
  if (atoi cmds <? 0) || (num_intermediate <? 0) then fault else
  let num_intermediate := Z.to_nat num_intermediate in
  '(cmds, input) ← for_prog 0 width (fun _ '(cmds, input) => '(cmds, d) ← next_data cmds; mret (cmds, input ++ [d])) (cmds, []);
  '(output, (intermediate, switches)) ← lift (wak_route input width num_intermediate num_switches);
  expect_next_token "INTERMEDIATE";;
  cmds ← next_token_or_error (Some cmds);
  (if String.eqb cmds "NULL" then mret tt
   else put_data intermediate num_intermediate (atoi1 cmds));;
  expect_next_token "OUTPUT";;
  cmds ← next_token_or_error (Some cmds);
  put_data output width (atoi1 cmds);;
  expect_next_token "SWITCH";;
  cmds ← next_token_or_error (Some cmds);
  let switches_offset := atoi1 cmds in
  for_prog 0 num_switches
    (fun i _ =>
       swap ← value_at switches i;
       set_F1 (switches_offset + Z.of_nat i) (b2z swap)) tt.

Definition convert_to_z (q : mpq_t) : Z :=
  let z :=
    if denref q =? 1 then numref q
    else if denref q =? 0 then 0
    else mpz_invert (denref q) prime * numref q in
  mpz_mod z prime.

(** ** A worksheet *)

(** One round of the loop: the statement a word begins, with the buffer of the
    loop; the other statements read into buffers of their own. *)
Definition statement (cmds : option string) (tok : string) : prog (option string) :=
  let own (m : prog unit) : prog (option string) := m;; mret cmds in
  if String.eqb tok "P" then compute_P cmds
  else if String.eqb tok "<I" then own compute_less_than_int
  else if String.eqb tok "<F" then own compute_less_than_float
  else if String.eqb tok "!=" then compute_not_equal cmds
  else if String.eqb tok "/" || String.eqb tok "/I" || String.eqb tok "%I" then compute_binary cmds tok
  else if String.eqb tok "SI" then own compute_split_unsignedint
  else if String.eqb tok "SIL" then own compute_split_int_le
  else if String.eqb tok "MATRIX_VEC_MUL" then own compute_matrix_vec_mul
  else if String.eqb tok "DB_GET_BITS" then own compute_db_get_bits
  else if String.eqb tok "DB_PUT_BITS" then own compute_db_put_bits
  else if String.eqb tok "DB_GET_SIBLING_HASH" then own compute_db_get_sibling_hash
  else if String.eqb tok "GET_BLOCK_BY_HASH" then own compute_get_block_by_hash
  else if String.eqb tok "PUT_BLOCK_BY_HASH" then own compute_put_block_by_hash
  else if String.eqb tok "FREE_BLOCK_BY_HASH" then own compute_free_block_by_hash
  else if String.eqb tok "GENERICGET" then own compute_genericget
  else if String.eqb tok "PRINTF" then own compute_printf
  else if String.eqb tok "ASSERT_ZERO" then compute_assert_zero cmds
  else if String.eqb tok "RAMGET_FAST" then own compute_fast_ramget
  else if String.eqb tok "RAMPUT_FAST" then own compute_fast_ramput
  else if String.eqb tok "BENES_NETWORK" then mret cmds
  else if String.eqb tok "WAKSMAN_NETWORK" then own compute_waksman_network
  else if String.eqb tok "EXO_COMPUTE" then own compute_exo_compute
  else if String.eqb tok "EXT_GADGET" then own compute_ext_gadget
  else mret cmds.

Fixpoint run_statements (fuel : nat) (cmds : option string) : prog unit :=
  match fuel with
  | O => fun _ => NoFuel
  | S fuel =>
      tok ← try_next_token;
      match tok with
      | None => mret tt
      | Some tok => cmds ← statement cmds tok; run_statements fuel cmds
      end
  end.

(** The inputs, the outputs and the variables modulo the prime. *)
Record assignment : Type := { input : list Z; output : list Z; F1 : list Z }.

(** Each round reads a word of the worksheet. *)
Definition compute_from_pws (worksheet : list string) (σ : ComputationProver) : res (assignment * ComputationProver) :=
  '(_, σ) ← run_statements (S (length worksheet)) None (with_tokens worksheet σ);
  let io := map convert_to_z (input_output_q σ) in
  Ok ({| input := take size_input io; output := drop size_input io; F1 := map convert_to_z (F1_q σ) |}, σ).

End Prover.
