(* ===== verification/Worksheet.v ===== *)
(** How the statements of a worksheet run: locations and what a write leaves
    alone, the words for operands, and the polynomials of [P].

    The rules have the words left outermost in the state, so that a proof
    follows a statement by rewriting. *)
From Stdlib Require Import ZArith Lia Ascii String.
From stdpp Require Import base numbers list strings pretty gmap.
From S2P Require Import Prelude Bits LevelDb GghHash MerkleRam Mpq Prover.

Local Open Scope Z_scope.
#[local] Existing Instances prog_ret prog_bind.

#[export] Instance loc_eq_dec : EqDecision loc.
Proof. solve_decision. Defined.

(** ** Locations *)

Section State.
Context `{HashBlockStore} `{CacheDB}.

Lemma read_write_eq l q σ : is_Some (read_loc σ l) -> read_loc (write_loc l q σ) l = Some q.
Proof.
  destruct l; cbn; intros [x Hx]; try done; apply list_lookup_insert_eq; by apply lookup_lt_Some in Hx.
Qed.

Lemma read_write_ne l l' q σ : l <> l' -> read_loc (write_loc l q σ) l' = read_loc σ l'.
Proof. destruct l, l'; cbn; intros Hne; try done; rewrite list_lookup_insert_ne by congruence; done. Qed.

Lemma read_write_some l l' q σ : is_Some (read_loc (write_loc l q σ) l') <-> is_Some (read_loc σ l').
Proof.
  destruct l, l'; cbn; try done.
  all: rewrite !lookup_lt_is_Some, length_insert; done.
Qed.

Lemma with_tokens_write ts l q σ : with_tokens ts (write_loc l q σ) = write_loc l q (with_tokens ts σ).
Proof. by destruct l. Qed.

Lemma read_tokens ts σ l : read_loc (with_tokens ts σ) l = read_loc σ l.
Proof. by destruct l. Qed.

(** Values at consecutive variables. *)
Definition write_F1s (start : nat) (vs : list mpq_t) (σ : ComputationProver) : ComputationProver :=
  with_F1 (list_inserts start vs (F1_q σ)) σ.

Definition in_range_F1 (start n : nat) (l : loc) : Prop := exists i, (start <= i < start + n)%nat /\ l = LF1 i.

Lemma write_F1s_eq start vs σ i v : vs !! i = Some v -> (start + length vs <= length (F1_q σ))%nat ->
  read_loc (write_F1s start vs σ) (LF1 (start + i)) = Some v.
Proof.
  intros Hi Hlen. pose proof (lookup_lt_Some _ _ _ Hi). cbn. rewrite list_lookup_inserts by lia.
  by replace (start + i - start)%nat with i by lia.
Qed.

Lemma write_F1s_ne start vs σ l : ~ in_range_F1 start (length vs) l -> read_loc (write_F1s start vs σ) l = read_loc σ l.
Proof.
  intros Hl. destruct l as [i|i|i| |]; cbn; try done. destruct (decide (i < start)%nat).
  - by rewrite list_lookup_inserts_lt.
  - rewrite list_lookup_inserts_ge; [done|]. destruct (decide (start + length vs <= i)%nat); [done|].
    exfalso. apply Hl. exists i. split; [lia|done].
Qed.

Lemma write_F1s_snoc start vs v σ :
  write_loc (LF1 (start + length vs)) v (write_F1s start vs σ) = write_F1s start (vs ++ [v]) σ.
Proof.
  unfold write_F1s. cbn. unfold with_F1. cbn. f_equal. rewrite list_inserts_app_l. cbn. f_equal. lia.
Qed.

(** ** Running *)

Lemma run_bind {A B} (m : prog A) (f : A -> prog B) σ a σ' : m σ = Ok (a, σ') -> (m ≫= f) σ = f a σ'.
Proof. intros Hm. unfold mbind, prog_bind, mbind, res_bind. by rewrite Hm. Qed.

Lemma run_getq l q ts σ : read_loc σ l = Some q -> getq l (with_tokens ts σ) = Ok (q, with_tokens ts σ).
Proof. intros Hl. unfold getq. by rewrite read_tokens, Hl. Qed.

Lemma run_setq l q ts σ : is_Some (read_loc σ l) -> setq l q (with_tokens ts σ) = Ok (tt, with_tokens ts (write_loc l q σ)).
Proof. intros [x Hl]. unfold setq. by rewrite read_tokens, Hl, with_tokens_write. Qed.

(** A word that is there is read whatever the buffer held. *)
Lemma run_word b w ts σ : next_token_or_error b (with_tokens (w :: ts) σ) = Ok (w, with_tokens ts σ).
Proof. done. Qed.

Lemma run_expect e w ts σ : expect_next_token e (with_tokens (w :: ts) σ) = Ok (tt, with_tokens ts σ).
Proof. done. Qed.

Lemma run_F1_at i σ : 0 <= i -> F1_at i σ = Ok (LF1 (Z.to_nat i), σ).
Proof. intros Hi. unfold F1_at. destruct (Z.ltb_spec i 0); [lia|done]. Qed.

Lemma for_prog_ind {S} (P : nat -> S -> ComputationProver -> Prop) lo hi (body : nat -> S -> prog S) s σ :
  (lo <= hi)%nat -> P lo s σ ->
  (forall i s σ, (lo <= i < hi)%nat -> P i s σ -> exists s' σ', body i s σ = Ok (s', σ') /\ P (Datatypes.S i) s' σ') ->
  exists s' σ', for_prog lo hi body s σ = Ok (s', σ') /\ P hi s' σ'.
Proof.
  intros Hle H1 Hstep. unfold for_prog.
  destruct (for_upM_ind (fun i '(s, σ) => P i s σ) lo hi (fun i '(s, σ) => body i s σ) (s, σ) Hle H1) as ([s' σ'] & Heq & HP).
  - intros i [s1 σ1] Hi HP. destruct (Hstep i s1 σ1 Hi HP) as (s' & σ' & Heq & HP'). by exists (s', σ').
  - by exists s', σ'.
Qed.

(** A loop that writes consecutive variables. *)
Lemma for_prog_F1s {S} (n start : nat) (vs : list mpq_t) (st : nat -> S) (body : nat -> S -> prog S) ts σ :
  length vs = n -> (start + n <= length (F1_q σ))%nat ->
  (forall i v, vs !! i = Some v ->
     body i (st i) (with_tokens ts (write_F1s start (take i vs) σ)) =
     Ok (st (Datatypes.S i), with_tokens ts (write_loc (LF1 (start + i)) v (write_F1s start (take i vs) σ)))) ->
  for_prog 0 n body (st O) (with_tokens ts σ) = Ok (st n, with_tokens ts (write_F1s start vs σ)).
Proof.
  intros Hn Hlen Hbody.
  destruct (for_prog_ind (fun i s σ' => s = st i /\ σ' = with_tokens ts (write_F1s start (take i vs) σ)) 0 n body (st O)
              (with_tokens ts σ)) as (s' & σ' & Heq & -> & ->); [lia|by destruct σ| |by rewrite Heq, firstn_all2 by lia].
  intros i s σ' Hi [-> ->]. destruct (lookup_lt_is_Some_2 vs i) as [v Hv]; [lia|].
  eexists _, _. split; [by apply (Hbody i v)|]. split; [done|]. f_equal.
  rewrite (take_S_r _ _ _ Hv), <- write_F1s_snoc, length_take. by replace (i `min` length vs)%nat with i by lia.
Qed.

(** ** What is left alone *)

(** The locations of [X] apart, the two states are the same. *)
Record same_but (X : loc -> Prop) (σ σ' : ComputationProver) : Prop := {
  same_read : forall l, ~ X l -> read_loc σ' l = read_loc σ l;
  same_some : forall l, is_Some (read_loc σ' l) <-> is_Some (read_loc σ l);
  same_true_ram : true_ram σ' = true_ram σ;
  same_ram : ram σ' = ram σ
}.

Lemma same_refl X σ : same_but X σ σ.
Proof. by split. Qed.

Lemma same_trans X σ1 σ2 σ3 : same_but X σ1 σ2 -> same_but X σ2 σ3 -> same_but X σ1 σ3.
Proof.
  intros [r1 s1 t1 m1] [r2 s2 t2 m2]. split; [|intros l; by rewrite s2, s1|congruence..].
  intros l Hl. by rewrite r2, r1.
Qed.

Lemma same_weaken (X Y : loc -> Prop) σ σ' : (forall l, X l -> Y l) -> same_but X σ σ' -> same_but Y σ σ'.
Proof. intros HXY [r s t m]. split; try done. intros l Hl. apply r. intros HX. by apply Hl, HXY. Qed.

Lemma same_write (X : loc -> Prop) l q σ : X l -> same_but X σ (write_loc l q σ).
Proof.
  intros Hl. split; [|intros l'; apply read_write_some|by destruct l..].
  intros l' Hl'. apply read_write_ne. by intros ->.
Qed.

Lemma same_write_r (X : loc -> Prop) l q σ σ' : X l -> same_but X σ σ' -> same_but X σ (write_loc l q σ').
Proof. intros Hl Hs. apply (same_trans _ _ _ _ Hs). by apply same_write. Qed.

End State.

(** ** Operands *)

(** What a word stands for. *)
Inductive operand : Type := OVar (i : nat) | OIn (i : nat) | OOut (i : nat) | OConst (z : Z).

#[export] Instance operand_eq_dec : EqDecision operand.
Proof. solve_decision. Defined.

Definition word (o : operand) : string :=
  match o with
  | OVar i => String "V" (pretty (Z.of_nat i))
  | OIn i => String "I" (pretty (Z.of_nat i))
  | OOut i => String "O" (pretty (Z.of_nat i))
  | OConst z => pretty z
  end.

Definition place (o : operand) (tmp : loc) : loc :=
  match o with OVar i => LF1 i | OIn i | OOut i => LIO i | OConst _ => tmp end.

(** Numbers begin with a digit or a sign. *)
Lemma pretty_head (z : Z) : exists c r, pretty z = String c r /\ (c = "-"%char /\ r <> EmptyString \/ digit c <> None).
Proof.
  destruct z as [|p|p].
  - exists "0"%char, EmptyString. split; [done|]. by right.
  - destruct (pretty_go_digit (N.pos p) "") as (c & r & Hcr & Hc); [lia|]. exists c, r. split; [exact Hcr|]. by right.
  - destruct (pretty_go_digit (N.pos p) "") as (c & r & Hcr & Hc); [lia|]. exists "-"%char, (String c r).
    split; [|by left]. change (pretty (Z.neg p)) with (String "-" (pretty (N.pos p))). f_equal. exact Hcr.
Qed.

Lemma starts_with_pretty c (z : Z) : digit c = None -> c <> "-"%char -> starts_with c (pretty z) = false.
Proof.
  intros Hd Hm. destruct (pretty_head z) as (c' & r & -> & Hc). cbn. apply Ascii.eqb_neq. intros ->.
  by destruct Hc as [[-> _]|Hc].
Qed.

(** No word for an operand is a word of the syntax. *)
Lemma word_not_syntax o c : String.eqb (word o) (String c EmptyString) = true -> c = "V"%char \/ c = "I"%char \/ c = "O"%char \/ digit c <> None.
Proof.
  intros Heq%String.eqb_eq. destruct o as [i|i|i|z]; cbn in Heq; [injection Heq; auto..|].
  destruct (pretty_head z) as (c' & r & Hz & Hc). rewrite Hz in Heq. injection Heq as -> ->.
  destruct Hc as [[_ ?]|Hc]; [done|auto].
Qed.

Section Operands.
Context `{HashBlockStore} `{CacheDB} `{GL : GmpLaws}.
Context (num_vars size_input size_output : nat).

Definition operand_ok (o : operand) : Prop :=
  match o with
  | OVar i => (i < num_vars)%nat
  | OIn i => (i < size_input)%nat
  | OOut i => (size_input <= i < size_input + size_output)%nat
  | OConst _ => True
  end.

(** The state after the word: a constant is put in the scratch number. *)
Definition after (o : operand) (tmp : loc) (σ : ComputationProver) : ComputationProver :=
  match o with OConst z => write_loc tmp (int z) σ | _ => σ end.

(** The arrays have the sizes announced. *)
Record well_formed (σ : ComputationProver) : Prop := {
  F1_length : length (F1_q σ) = num_vars;
  IO_length : length (input_output_q σ) = (size_input + size_output)%nat;
  temps_length : length (temp_qs σ) = temp_stack_size
}.

Definition holds (σ : ComputationProver) (o : operand) (z : Z) : Prop :=
  match o with OConst z' => z = z' | _ => read_loc σ (place o LTemp) = Some (int z) end.

(** A variable, not a constant. *)
Definition variable (o : operand) : Prop := match o with OConst _ => False | _ => True end.

Lemma place_variable o tmp : variable o -> place o tmp = place o LTemp.
Proof. by destruct o. Qed.

Lemma after_variable o tmp σ : variable o -> after o tmp σ = σ.
Proof. by destruct o. Qed.

Lemma run_voc o tmp ts σ : operand_ok o -> is_Some (read_loc σ tmp) ->
  voc num_vars size_input size_output (word o) tmp (with_tokens ts σ) = Ok (place o tmp, with_tokens ts (after o tmp σ)).
Proof.
  intros Ho [q Hq]. unfold voc. destruct o as [i|i|i|z]; cbn [word place after].
  - cbn [starts_with Ascii.eqb Bool.eqb atoi1]. rewrite atoi_pretty. cbn in Ho.
    destruct (Z.ltb_spec (Z.of_nat i) 0); [lia|]. destruct (Z.geb_spec (Z.of_nat i) (Z.of_nat num_vars)); [lia|].
    cbn. by rewrite Nat2Z.id.
  - cbn [starts_with Ascii.eqb Bool.eqb atoi1]. rewrite atoi_pretty. cbn in Ho.
    destruct (Z.ltb_spec (Z.of_nat i) 0); [lia|]. destruct (Z.geb_spec (Z.of_nat i) (Z.of_nat size_input)); [lia|].
    cbn. by rewrite Nat2Z.id.
  - cbn [starts_with Ascii.eqb Bool.eqb atoi1]. rewrite atoi_pretty. cbn in Ho.
    destruct (Z.ltb_spec (Z.of_nat i) (Z.of_nat size_input)); [lia|].
    destruct (Z.geb_spec (Z.of_nat i) (Z.of_nat size_input + Z.of_nat size_output)); [lia|].
    cbn. by rewrite Nat2Z.id.
  - rewrite !starts_with_pretty by done. rewrite (run_bind _ _ _ _ _ (run_getq _ _ ts σ Hq)).
    rewrite (run_bind _ _ _ _ _ (run_setq tmp _ ts σ (mk_is_Some _ _ Hq))). by rewrite mpq_set_str_eq.
Qed.

Lemma step_word {A} b (f : string -> prog A) w ts σ : (next_token_or_error b ≫= f) (with_tokens (w :: ts) σ) = f w (with_tokens ts σ).
Proof. done. Qed.

(** At the end of the worksheet the buffer keeps its word. *)
Lemma step_stale {A} w (f : string -> prog A) σ : (next_token_or_error (Some w) ≫= f) (with_tokens [] σ) = f w (with_tokens [] σ).
Proof. done. Qed.

Lemma step_expect {A} e (f : unit -> prog A) w ts σ : (expect_next_token e ≫= f) (with_tokens (w :: ts) σ) = f tt (with_tokens ts σ).
Proof. done. Qed.

(** An operand: its word is read and turned into a location. *)
Lemma step_voc {A} b o tmp (f : string -> loc -> prog A) ts σ : operand_ok o -> is_Some (read_loc σ tmp) ->
  (next_token_or_error b ≫= fun cmds => voc num_vars size_input size_output cmds tmp ≫= f cmds) (with_tokens (word o :: ts) σ) =
  f (word o) (place o tmp) (with_tokens ts (after o tmp σ)).
Proof. intros Ho Ht. by rewrite step_word, (run_bind _ _ _ _ _ (run_voc o tmp ts σ Ho Ht)). Qed.

Lemma step_getq {A} l q (f : mpq_t -> prog A) ts σ : read_loc σ l = Some q -> (getq l ≫= f) (with_tokens ts σ) = f q (with_tokens ts σ).
Proof. intros Hl. by rewrite (run_bind _ _ _ _ _ (run_getq _ _ ts σ Hl)). Qed.

Lemma step_setq {A} l q (f : unit -> prog A) ts σ : is_Some (read_loc σ l) ->
  (setq l q ≫= f) (with_tokens ts σ) = f tt (with_tokens ts (write_loc l q σ)).
Proof. intros Hl. by rewrite (run_bind _ _ _ _ _ (run_setq l q ts σ Hl)). Qed.

Lemma read_after o tmp σ l : l <> tmp -> read_loc (after o tmp σ) l = read_loc σ l.
Proof. destruct o; cbn; try done. intros Hl. by apply read_write_ne. Qed.

Lemma after_some o tmp σ l : is_Some (read_loc (after o tmp σ) l) <-> is_Some (read_loc σ l).
Proof. destruct o; cbn; try done. apply read_write_some. Qed.

(** The value of a word just read. *)
Lemma read_place o tmp σ z : is_Some (read_loc σ tmp) -> holds σ o z -> read_loc (after o tmp σ) (place o tmp) = Some (int z).
Proof. intros Ht Hz. destruct o; cbn in *; try done. rewrite Hz. by apply read_write_eq. Qed.

(** An operand whose value is taken. *)
Lemma step_value {A} b o v (f : string -> mpq_t -> prog A) ts σ : operand_ok o -> holds σ o v ->
  (next_token_or_error b ≫= fun cmds => voc num_vars size_input size_output cmds LTemp ≫= fun l => getq l ≫= f cmds)
    (with_tokens (word o :: ts) σ) = f (word o) (int v) (with_tokens ts (after o LTemp σ)).
Proof. intros Ho Hv. rewrite step_voc by (try done; by eexists). apply step_getq, read_place; [by eexists|done]. Qed.

Lemma same_after (X : loc -> Prop) o tmp σ : X tmp -> same_but X σ (after o tmp σ).
Proof. intros Hl. destruct o; [apply same_refl..|by apply same_write]. Qed.

Lemma holds_same X σ σ' o z : same_but X σ σ' -> (variable o -> ~ X (place o LTemp)) -> holds σ o z -> holds σ' o z.
Proof.
  intros Hs HX Hz. destruct o as [i|i|i|z']; [| | |exact Hz]; cbn [holds place variable] in *;
    (rewrite (same_read _ _ _ Hs); [exact Hz|by apply HX]).
Qed.

Lemma operand_some o σ : well_formed σ -> operand_ok o -> is_Some (read_loc σ (place o LTemp)).
Proof.
  intros [? ? ?] Ho. destruct o; cbn in *; try done; apply lookup_lt_is_Some_2; lia.
Qed.

Lemma temps_some i σ : well_formed σ -> (i < temp_stack_size)%nat -> is_Some (read_loc σ (LTemps i)).
Proof. intros [? ? Ht] Hi. cbn. apply lookup_lt_is_Some_2. by rewrite Ht. Qed.

Lemma same_length {A B} (l : list A) (l' : list B) :
  (forall i, is_Some (l' !! i) <-> is_Some (l !! i)) -> length l' = length l.
Proof.
  intros Hs. setoid_rewrite lookup_lt_is_Some in Hs. destruct (Nat.lt_trichotomy (length l) (length l')) as [Hl|[?|Hl]]; [|done|].
  - apply Hs in Hl. lia.
  - apply Hs in Hl. lia.
Qed.

Lemma well_formed_same X σ σ' : same_but X σ σ' -> well_formed σ -> well_formed σ'.
Proof.
  intros Hs [W1 W2 W3]. split.
  - rewrite <- W1. apply same_length. intros i. apply (same_some _ _ _ Hs (LF1 i)).
  - rewrite <- W2. apply same_length. intros i. apply (same_some _ _ _ Hs (LIO i)).
  - rewrite <- W3. apply same_length. intros i. apply (same_some _ _ _ Hs (LTemps i)).
Qed.

End Operands.

(** ** A prover of twelve variables, two inputs and an output *)

Definition store : HashBlockStore := LevelDbStore (H := MapDB).

Definition empty_ram : RAMImpl (H := store) (H0 := MapCache) :=
  {| blockStore := (∅ : gmap (list Z) (list Z)); numLevels := 0; emptyHash := []; rootHash := []; hashCache := cache_new |}.

Definition sample (vars io : list Z) : ComputationProver (H := store) (H0 := MapCache) :=
  {| F1_q := map int vars; input_output_q := map int io; temp_qs := replicate temp_stack_size (int 0); temp_q := int 0; temp_q2 := int 0;
     true_ram := ∅; ram := empty_ram; pws_file := [] |}.

Lemma sample_prover_wf vars io : length vars = 12%nat -> length io = 3%nat -> well_formed 12 2 1 (sample vars io).
Proof. intros Hv Hi. split; cbn [F1_q input_output_q sample temp_qs]; [by rewrite length_map|by rewrite length_map|done]. Qed.
