(* ===== verification/ProverFacts.v ===== *)
(** Facts shared by the proofs about the prover: how its statements run, what
    a write leaves alone, that a worksheet whose lists and formats are closed
    is read to its end, and that one that ends inside them is not. *)
From Stdlib Require Import ZArith Lia Ascii String.
From stdpp Require Import base numbers list strings pretty gmap.
From S2P Require Import Prelude Bits LevelDb GghHash MerkleRam Mpq Waksman WakRoute WakSort Prover Worksheet.

Local Open Scope Z_scope.
#[local] Existing Instances prog_ret prog_bind.

(** ** Termination

    Most programs end whatever words are left; the loops that look for a
    closing word end when it comes. *)

Section Ends.
Context `{HashBlockStore} `{HH : Hasher} `{CacheDB} `{G : Gmp}.
Context (DB_NUM_ADDRESSES : Z) (RAM_CELL_NUM_BITS NUM_COMMITMENT_BITS : nat).
Context (num_vars size_input size_output : nat) (prime : Z).
Context (execute_command : string -> string -> string -> list string) (AMat : nat -> Z).

(** With the words [ws] left the program ends, and what it leaves of the words
    is as [Q] says. *)
Definition runs {A} (ws : list string) (m : prog A) (Q : A -> list string -> Prop) : Prop :=
  forall σ, pws_file σ = ws -> m σ <> NoFuel /\ forall a σ', m σ = Ok (a, σ') -> Q a (pws_file σ').

(** The program ends and adds no words. *)
Definition ends {A} (ws : list string) (m : prog A) : Prop := runs ws m (fun _ ws' => ws' `suffix_of` ws).

Lemma runs_bind {A B} ws (m : prog A) (f : A -> prog B) Q R :
  runs ws m Q -> (forall a ws', Q a ws' -> runs ws' (f a) R) -> runs ws (m ≫= f) R.
Proof.
  intros Hm Hf σ Hw. destruct (Hm σ Hw) as [H1 H2]. unfold mbind, prog_bind, mbind, res_bind.
  destruct (m σ) as [[a σ1]| |]; [|done|done]. by apply (Hf a (pws_file σ1)); [apply H2|].
Qed.

Lemma runs_weaken {A} ws (m : prog A) (Q R : A -> list string -> Prop) : runs ws m Q -> (forall a ws', Q a ws' -> R a ws') -> runs ws m R.
Proof. intros Hm HQ σ Hw. destruct (Hm σ Hw) as [H1 H2]. split; [done|]. intros a σ' Heq. by apply HQ, H2. Qed.

(** A program that ends with [r] left, and what follows. *)
Lemma ends_after {A B} ws r (m : prog A) (f : A -> prog B) :
  runs ws m (fun _ ws' => ws' = r) -> r `suffix_of` ws -> (forall a, ends r (f a)) -> ends ws (m ≫= f).
Proof.
  intros Hm Hr Hf. apply (runs_bind _ _ _ _ _ Hm). intros a _ ->. apply (runs_weaken _ _ _ _ (Hf a)).
  intros b ws' Hs. by etrans.
Qed.

Lemma ends_bind {A B} ws (m : prog A) (f : A -> prog B) :
  ends ws m -> (forall a ws', ws' `suffix_of` ws -> ends ws' (f a)) -> ends ws (m ≫= f).
Proof.
  intros Hm Hf. apply (runs_bind _ _ _ _ _ Hm). intros a ws' Hs. apply (runs_weaken _ _ _ _ (Hf a ws' Hs)).
  intros b ws2 Hs2. by etrans.
Qed.

(** What follows may rely on what the values are. *)
Lemma ends_bind_post {A B} (P : A -> Prop) ws (m : prog A) (f : A -> prog B) :
  ends ws m -> (forall σ a σ', m σ = Ok (a, σ') -> P a) -> (forall a ws', P a -> ends ws' (f a)) -> ends ws (m ≫= f).
Proof.
  intros Hm HP Hf. apply (runs_bind _ _ _ (fun a ws' => P a /\ ws' `suffix_of` ws)).
  - intros σ Hw. destruct (Hm σ Hw) as [H1 H2]. split; [done|]. intros a σ' Heq. split; [by apply (HP σ a σ')|by apply (H2 a σ')].
  - intros a ws' [Ha Hs]. apply (runs_weaken _ _ _ _ (Hf a ws' Ha)). intros b ws2 Hs2. by etrans.
Qed.

Lemma ends_words {A} ws (m : prog A) :
  (forall σ, m σ <> NoFuel) -> (forall σ a σ', m σ = Ok (a, σ') -> pws_file σ' = pws_file σ) -> ends ws m.
Proof. intros H1 H2 σ <-. split; [apply H1|]. intros a σ' Heq. by rewrite (H2 _ _ _ Heq). Qed.

Lemma ends_ret {A} ws (a : A) : ends ws (mret a).
Proof. apply ends_words; [done|]. by intros σ b σ' [= <- <-]. Qed.

Lemma ends_fault {A} ws : ends ws (A := A) fault.
Proof. by apply ends_words. Qed.

Lemma ends_getq ws l : ends ws (getq l).
Proof. apply ends_words; unfold getq; intros σ; destruct (read_loc σ l); try done. by intros a σ' [= _ <-]. Qed.

Lemma words_write_loc l q σ : pws_file (write_loc l q σ) = pws_file σ.
Proof. by destruct l. Qed.

Lemma ends_setq ws l q : ends ws (setq l q).
Proof.
  apply ends_words; unfold setq; intros σ; destruct (read_loc σ l); try done.
  intros a σ' [= _ <-]. apply words_write_loc.
Qed.

Lemma ends_gets {A} ws (f : ComputationProver -> res A) : (forall σ, f σ <> NoFuel) -> ends ws (gets f).
Proof.
  intros Hf. apply ends_words; unfold gets, mbind, res_bind; intros σ; specialize (Hf σ); destruct (f σ); try done.
  by intros a' σ' [= _ <-].
Qed.

Lemma ends_modify ws f : (forall σ, f σ <> NoFuel) -> (forall σ σ', f σ = Ok σ' -> pws_file σ' = pws_file σ) -> ends ws (modify f).
Proof.
  intros H1 H2. apply ends_words; unfold modify, mbind, res_bind; intros σ; specialize (H1 σ);
    destruct (f σ) as [σ1| |] eqn:Hf; try done. intros a σ' [= _ <-]. by apply H2.
Qed.

Lemma ends_lift {A} ws (m : res A) : m <> NoFuel -> ends ws (lift m).
Proof. intros Hm. apply ends_words; unfold lift, mbind, res_bind; destruct m; try done. by intros σ a' σ' [= _ <-]. Qed.

Lemma ends_rd {A} ws (l : list A) i : ends ws (lift (rd l i)).
Proof. apply ends_lift. unfold rd. destruct (0 <=? i); [|done]. by destruct (l !! Z.to_nat i). Qed.

(** Reading a word leaves the others. *)
Lemma runs_token {A} ws (f : option string -> prog A) Q :
  (ws = [] -> runs [] (f None) Q) -> (forall t ws', ws = t :: ws' -> runs ws' (f (Some t)) Q) -> runs ws (try_next_token ≫= f) Q.
Proof.
  intros H1 H2 σ Hw. unfold mbind, prog_bind, try_next_token, mbind, res_bind. rewrite Hw.
  destruct ws as [|t ts]; [by apply H1|]. by apply (H2 t ts eq_refl (with_tokens ts σ)).
Qed.

Lemma ends_token {A} ws (f : option string -> prog A) :
  ends [] (f None) -> (forall t ws', ws = t :: ws' -> ends ws' (f (Some t))) -> ends ws (try_next_token ≫= f).
Proof.
  intros H1 H2. apply runs_token; [by intros ->|]. intros t ws' ->. apply (runs_weaken _ _ _ _ (H2 t ws' eq_refl)).
  intros a ws2 Hs. by apply suffix_cons_r.
Qed.

Lemma runs_ret {A} ws (a : A) : runs ws (mret a) (fun b ws' => b = a /\ ws' = ws).
Proof. intros σ <-. split; [done|]. by intros b σ' [= <- <-]. Qed.

(** A word, or what the buffer holds. *)
Lemma runs_next_word ws b : runs ws (next_token_or_error b) (fun w ws' => ws' = drop 1 ws /\ (head ws = Some w \/ ws = [] /\ b = Some w)).
Proof.
  unfold next_token_or_error. apply runs_token.
  - intros ->. destruct b as [t|]; [|by intros σ _].
    apply (runs_weaken _ _ _ _ (runs_ret [] t)). intros a ws' [-> ->]. split; [done|]. by right.
  - intros t ws' ->. apply (runs_weaken _ _ _ _ (runs_ret ws' t)). intros a ws2 [-> ->]. split; [done|]. by left.
Qed.

Lemma suffix_drop (n : nat) (ws : list string) : drop n ws `suffix_of` ws.
Proof. exists (take n ws). by rewrite take_drop. Qed.

Lemma suffix_drop_more (m n : nat) (ws : list string) : drop (m + n) ws `suffix_of` drop m ws.
Proof. rewrite <- drop_drop. apply suffix_drop. Qed.

Lemma ends_next_word ws b : ends ws (next_token_or_error b).
Proof. apply (runs_weaken _ _ _ _ (runs_next_word ws b)). intros w ws' [-> _]. apply suffix_drop. Qed.

Lemma runs_expect ws e : runs ws (expect_next_token e) (fun _ ws' => ws' = drop 1 ws).
Proof.
  unfold expect_next_token. apply runs_token.
  - intros ->. apply (runs_weaken _ _ _ _ (runs_ret [] tt)). by intros _ ws' [_ ->].
  - intros t ws' ->. apply (runs_weaken _ _ _ _ (runs_ret ws' tt)). by intros _ ws2 [_ ->].
Qed.

Lemma ends_expect ws e : ends ws (expect_next_token e).
Proof. apply (runs_weaken _ _ _ _ (runs_expect ws e)). intros _ ws' ->. apply suffix_drop. Qed.

Lemma ends_for {S} ws lo hi (body : nat -> S -> prog S) s :
  (forall i s ws', ws' `suffix_of` ws -> ends ws' (body i s)) -> ends ws (for_prog lo hi body s).
Proof.
  intros Hb. unfold for_prog, for_upM. revert ws s Hb. generalize (hi - lo)%nat as k. intros k; revert lo.
  induction k as [|k IH]; intros lo ws s Hb σ Hw; [subst ws; split; [done|]; by intros a σ' [= _ <-]|].
  cbn [for_upM_n]. destruct (Hb lo s ws ltac:(done) σ Hw) as [H1 H2]. unfold mbind, res_bind.
  destruct (body lo s σ) as [[s1 σ1]| |]; [|done|done]. specialize (H2 s1 σ1 eq_refl).
  destruct (IH (Datatypes.S lo) (pws_file σ1) s1) with (σ := σ1) as [H3 H4]; [|done|].
  - intros i s' ws' Hs. apply Hb. by etrans.
  - split; [done|]. intros a σ' Heq. specialize (H4 a σ' Heq). by etrans.
Qed.

Lemma for_post {S} (P : nat -> S -> Prop) lo hi (body : nat -> S -> prog S) s σ s' σ' : (lo <= hi)%nat ->
  (forall i s σ s' σ', body i s σ = Ok (s', σ') -> P i s -> P (Datatypes.S i) s') -> P lo s -> for_prog lo hi body s σ = Ok (s', σ') -> P hi s'.
Proof.
  intros Hle Hb. unfold for_prog, for_upM. remember (hi - lo)%nat as k eqn:Hk. revert lo s σ Hle Hk. induction k as [|k IH]; intros lo s σ Hle Hk HP.
  - intros [= <- _]. by replace hi with lo by lia.
  - cbn [for_upM_n]. unfold mbind, res_bind. destruct (body lo s σ) as [[s1 σ1]| |] eqn:Hr; try done. intros Hrun.
    apply (IH (Datatypes.S lo) s1 σ1); [lia|lia| |done]. by apply (Hb lo s σ s1 σ1).
Qed.

Lemma ends_for_each {A S} ws (l : list A) (body : A -> S -> prog S) s :
  (forall a s ws', ws' `suffix_of` ws -> ends ws' (body a s)) -> ends ws (for_each l body s).
Proof.
  revert ws s. induction l as [|a l IH]; intros ws s Hb; cbn [for_each]; [apply ends_ret|].
  apply ends_bind; [by apply Hb|]. intros s' ws' Hs. apply IH. intros a' s2 ws2 Hs2. apply Hb. by etrans.
Qed.

End Ends.

Create HintDb ends.
#[export] Hint Resolve ends_ret ends_fault ends_getq ends_setq ends_rd ends_next_word ends_expect : ends.

(** Follows the program. *)
Ltac ends_step :=
  match goal with
  | |- ends _ (mbind _ _) => apply ends_bind
  | |- ends _ (for_prog _ _ _ _) => apply ends_for
  | |- ends _ (for_each _ _ _) => apply ends_for_each
  | |- ends _ (if ?b then _ else _) => destruct b
  | |- ends _ (let '_ := ?p in _) => destruct p
  | |- ends _ (match ?x with _ => _ end) => destruct x
  | |- ends _ ((match ?x with _ => _ end) _) => destruct x
  | |- forall _, _ => intros ?
  | |- ends _ _ => solve [eauto with ends]
  end.
Ltac ends_tac := repeat ends_step.

Section Statements.
Context `{HashBlockStore} `{HH : Hasher} `{CacheDB} `{G : Gmp}.
Context (DB_NUM_ADDRESSES : Z) (RAM_CELL_NUM_BITS NUM_COMMITMENT_BITS : nat).
Context (num_vars size_input size_output : nat) (prime : Z).
Context (execute_command : string -> string -> string -> list string) (AMat : nat -> Z).

(** The block store and the hash come to an end. *)
Record storage_ends : Prop := {
  get_ends : forall s k v, get s k v <> NoFuel;
  put_ends : forall s k v, put s k v <> NoFuel;
  getAddr_ends : forall s a v, getAddr s a v <> NoFuel;
  putAddr_ends : forall s a v, putAddr s a v <> NoFuel;
  free_ends : forall s k, free s k <> NoFuel;
  hash_ends : forall v, hash v <> NoFuel;
  hash2_ends : forall l r, hash2 l r <> NoFuel
}.

Lemma ends_voc ws s l : ends ws (voc num_vars size_input size_output s l).
Proof. unfold voc. ends_tac. Qed.
#[local] Hint Resolve ends_voc : ends.

Lemma ends_F1_at ws i : ends ws (F1_at i).
Proof. unfold F1_at. ends_tac. Qed.
#[local] Hint Resolve ends_F1_at : ends.

Lemma ends_emit_term ws t fl : ends ws (emit_term t fl).
Proof. unfold emit_term. ends_tac. Qed.
Lemma ends_add_factor ws t fl q : ends ws (add_factor t fl q).
Proof. unfold add_factor. ends_tac. Qed.
#[local] Hint Resolve ends_emit_term ends_add_factor : ends.

Lemma ends_finish_poly ws t fl : ends ws (finish_poly t fl).
Proof. unfold finish_poly. ends_tac. Qed.
#[local] Hint Resolve ends_finish_poly : ends.

(** The loop goes on with fewer words each round. *)
Lemma ends_poly_loop fuel ws t fl : (length ws < fuel)%nat -> ends ws (poly_loop num_vars size_input size_output fuel t fl).
Proof.
  revert ws t fl. induction fuel as [|fuel IH]; intros ws t fl Hn; [lia|]. cbn [poly_loop].
  apply ends_token; [ends_tac|]. intros tok ws' ->. cbn [length] in Hn.
  assert (forall ws2 t fl, ws2 `suffix_of` ws' -> ends ws2 (poly_loop num_vars size_input size_output fuel t fl)) as Hloop.
  { intros ws2 t2 fl2 Hs%suffix_length. apply IH. lia. }
  apply ends_bind; [ends_tac|]. intros fl1 ws1 Hs1. clear IH Hn.
  repeat match goal with |- ends _ (if ?b then _ else _) => destruct b end; try (by apply Hloop); ends_tac;
    apply Hloop; repeat (done || (etrans; [eassumption|])).
Qed.

(** A program whose fuel is the number of words left. *)
Lemma runs_fuel {A} ws (m : nat -> prog A) Q :
  runs ws (m (S (length ws))) Q -> runs ws (fun σ => m (S (length (pws_file σ))) σ) Q.
Proof. intros Hm σ Hw. rewrite Hw. by apply Hm. Qed.

Lemma ends_compute_poly ws t : ends ws (compute_poly num_vars size_input size_output t).
Proof.
  apply (runs_fuel ws (fun k => setq (LTemps t) (int 0);;
    if (temp_stack_size - 1 <=? t)%nat then mret tt else poly_loop num_vars size_input size_output k t fresh_flags)).
  apply ends_bind; [ends_tac|]. intros _ ws' Hs%suffix_length.
  pose proof (ends_poly_loop (S (length ws)) ws' t fresh_flags ltac:(lia)). ends_tac.
Qed.
#[local] Hint Resolve ends_compute_poly : ends.

(** *** The loops that look for a closing word *)

(** The words after the next [stop]. *)
Fixpoint after_word (stop : string) (ws : list string) : option (list string) :=
  match ws with
  | [] => None
  | w :: ws => if String.eqb w stop then Some ws else after_word stop ws
  end.

(** The words after the lists of [getLL]; [inside] one of them or not. *)
Fixpoint after_lists (inside : bool) (ws : list string) : option (list string) :=
  match ws with
  | [] => None
  | w :: ws =>
      if String.eqb w "]" then (if inside then after_lists false ws else Some ws)
      else after_lists true ws
  end.

Lemma after_word_suffix stop ws r : after_word stop ws = Some r -> r `suffix_of` ws.
Proof.
  induction ws as [|w ws IH]; cbn; [done|]. destruct (String.eqb w stop); intros Hr; [injection Hr as <-|]; apply suffix_cons_r; [done|by apply IH].
Qed.

Lemma after_lists_suffix inside ws r : after_lists inside ws = Some r -> r `suffix_of` ws.
Proof.
  revert inside. induction ws as [|w ws IH]; intros inside; cbn; [done|]. intros Hr. apply suffix_cons_r.
  destruct (String.eqb w "]"); [destruct inside|]; [by apply (IH false)|by injection Hr as <-|by apply (IH true)].
Qed.

(** Within a list, its end comes first. *)
Lemma after_lists_inside ws : after_lists true ws = r ← after_word "]" ws; after_lists false r.
Proof. induction ws as [|w ws IH]; cbn; [done|]. by destruct (String.eqb w "]"). Qed.

Lemma runs_next_bind {A} w ws b (f : string -> prog A) Q : runs ws (f w) Q -> runs (w :: ws) (next_token_or_error b ≫= f) Q.
Proof.
  intros Hf. apply (runs_bind _ _ _ _ _ (runs_next_word (w :: ws) b)). intros w' ws' [-> [Hw|[? _]]]; [|done].
  cbn in Hw. by injection Hw as <-.
Qed.

Lemma runs_getL_loop fuel ws b l r : (length ws < fuel)%nat -> after_word "]" ws = Some r ->
  runs ws (getL_loop fuel b l) (fun _ ws' => ws' = r).
Proof.
  revert ws b l. induction fuel as [|fuel IH]; intros ws b l Hf Hr; [lia|]. destruct ws as [|w ws]; [done|]. cbn in Hf, Hr |- *.
  apply runs_next_bind. destruct (String.eqb w "]"); [|apply IH; [lia|done]].
  injection Hr as ->. apply (runs_weaken _ _ _ _ (runs_ret r _)). by intros a ws' [_ ->].
Qed.

Lemma runs_getL ws b r : after_word "]" ws = Some r -> runs ws (getL b) (fun _ ws' => ws' = r).
Proof. intros Hr. apply (runs_fuel ws (fun k => getL_loop k b [])), runs_getL_loop; [lia|done]. Qed.

Lemma runs_getLL_loop fuel ws b l r : (length ws < fuel)%nat -> after_lists false ws = Some r ->
  runs ws (getLL_loop fuel b l) (fun _ ws' => ws' = r).
Proof.
  revert ws b l. induction fuel as [|fuel IH]; intros ws b l Hf Hr; [lia|]. destruct ws as [|w ws]; [done|]. cbn in Hf, Hr |- *.
  apply runs_next_bind. destruct (String.eqb w "]").
  - injection Hr as ->. apply (runs_weaken _ _ _ _ (runs_ret r _)). by intros a ws' [_ ->].
  - rewrite after_lists_inside in Hr. destruct (after_word "]" ws) as [r1|] eqn:Hr1; [|done]. cbn in Hr.
    apply (runs_bind _ _ _ _ _ (runs_getL ws (Some w) r1 Hr1)). intros [buf tmpList] ws' ->.
    apply IH; [|done]. apply after_word_suffix, suffix_length in Hr1. lia.
Qed.

Lemma runs_getLL ws b r : after_lists false ws = Some r -> runs ws (getLL b) (fun _ ws' => ws' = r).
Proof. intros Hr. apply (runs_fuel ws (fun k => getLL_loop k b [])), runs_getLL_loop; [lia|done]. Qed.

Lemma runs_scan_format fuel ws b r : (length ws < fuel)%nat -> after_word "NUM_X" ws = Some r ->
  runs ws (scan_format fuel b) (fun _ ws' => ws' = r).
Proof.
  revert ws b. induction fuel as [|fuel IH]; intros ws b Hf Hr; [lia|]. destruct ws as [|w ws]; [done|]. cbn in Hf, Hr |- *.
  apply runs_next_bind. destruct (String.eqb w "NUM_X"); [|apply IH; [lia|done]].
  injection Hr as ->. apply (runs_weaken _ _ _ _ (runs_ret r _)). by intros a ws' [_ ->].
Qed.

(** The words that follow a statement close what it opens: [EXOID n INPUTS \[]
    and lists of words, [OUTPUTS \[] and words; the three lists of a gadget;
    a format. *)
Definition exo_closed (ws : list string) : bool :=
  match (r ← after_lists false (drop 4 ws); after_word "]" (drop 2 r)) with Some _ => true | None => false end.

Definition gadget_closed (ws : list string) : bool :=
  match (r ← after_word "]" (drop 4 ws); r ← after_word "]" (drop 2 r); after_word "]" (drop 2 r)) with Some _ => true | None => false end.

Definition printf_closed (ws : list string) : bool :=
  match after_word "NUM_X" ws with Some _ => true | None => false end.

Definition statement_closed (tok : string) (ws : list string) : bool :=
  if String.eqb tok "EXO_COMPUTE" then exo_closed ws
  else if String.eqb tok "EXT_GADGET" then gadget_closed ws
  else if String.eqb tok "PRINTF" then printf_closed ws
  else true.

(** Every such word of a worksheet is followed by what closes it. *)
Fixpoint closed (ws : list string) : bool :=
  match ws with [] => true | w :: ws => statement_closed w ws && closed ws end.

Lemma closed_suffix ws ws' : ws' `suffix_of` ws -> closed ws = true -> closed ws' = true.
Proof. intros [k ->]. induction k as [|w k IH]; [done|]. cbn. by intros [_ ?]%andb_prop; apply IH. Qed.

(** Four words before the first list. *)
Lemma ends_four_words {A} ws e1 e2 e3 (f : string -> prog A) : (forall w, ends (drop 4 ws) (f w)) ->
  ends ws (expect_next_token e1;; cmds ← next_token_or_error None; expect_next_token e2;; expect_next_token e3;; f cmds).
Proof.
  intros Hf. apply (ends_after ws (drop 1 ws)); [apply runs_expect|apply suffix_drop|]. intros _.
  apply (ends_after _ (drop 2 ws)).
  { apply (runs_weaken _ _ _ _ (runs_next_word _ _)). intros w ws' [-> _]. by rewrite drop_drop. }
  { apply (suffix_drop_more 1 1). }
  intros w. apply (ends_after _ (drop 3 ws)).
  { apply (runs_weaken _ _ _ _ (runs_expect _ _)). intros _ ws' ->. by rewrite drop_drop. }
  { apply (suffix_drop_more 2 1). }
  intros _. apply (ends_after _ (drop 4 ws)).
  { apply (runs_weaken _ _ _ _ (runs_expect _ _)). intros _ ws' ->. by rewrite drop_drop. }
  { apply (suffix_drop_more 3 1). }
  intros _. apply Hf.
Qed.

Lemma ends_two_words {A} ws e1 e2 (m : prog A) : ends (drop 2 ws) m -> ends ws (expect_next_token e1;; expect_next_token e2;; m).
Proof.
  intros Hm. apply (ends_after ws (drop 1 ws)); [apply runs_expect|apply suffix_drop|]. intros _.
  apply (ends_after _ (drop 2 ws)); [|apply (suffix_drop_more 1 1)|done].
  apply (runs_weaken _ _ _ _ (runs_expect _ _)). intros _ ws' ->. by rewrite drop_drop.
Qed.

Lemma ends_getL {A} ws b r (f : string * list string -> prog A) : after_word "]" ws = Some r -> (forall x, ends r (f x)) -> ends ws (getL b ≫= f).
Proof. intros Hr Hf. apply (ends_after ws r); [by apply runs_getL|by apply (after_word_suffix "]")|done]. Qed.

Lemma ends_exo_compute ws : exo_closed ws = true -> ends ws (compute_exo_compute num_vars size_input size_output execute_command).
Proof.
  unfold exo_closed. intros Hc. destruct (after_lists false (drop 4 ws)) as [r|] eqn:Hr; [|done]. cbn in Hc.
  destruct (after_word "]" (drop 2 r)) as [r2|] eqn:Hr2; [|done]. unfold compute_exo_compute. apply ends_four_words. intros cmds.
  apply (ends_after _ r); [by apply runs_getLL|by apply (after_lists_suffix false)|]. intros [buf inVarsStr].
  apply ends_two_words, (ends_getL _ _ _ _ Hr2). intros [buf2 outVarsStr]. unfold assign_output. ends_tac.
Qed.

Lemma ends_ext_gadget ws : gadget_closed ws = true -> ends ws (compute_ext_gadget num_vars size_input size_output execute_command).
Proof.
  unfold gadget_closed. intros Hc. destruct (after_word "]" (drop 4 ws)) as [r|] eqn:Hr; [|done]. cbn in Hc.
  destruct (after_word "]" (drop 2 r)) as [r2|] eqn:Hr2; [|done]. cbn in Hc.
  destruct (after_word "]" (drop 2 r2)) as [r3|] eqn:Hr3; [|done]. unfold compute_ext_gadget. apply ends_four_words. intros cmds.
  apply (ends_getL _ _ _ _ Hr). intros [buf l1]. apply ends_two_words, (ends_getL _ _ _ _ Hr2). intros [buf2 l2].
  apply ends_two_words, (ends_getL _ _ _ _ Hr3). intros [buf3 l3]. unfold assign_outputs. ends_tac.
Qed.

Lemma ends_printf ws : printf_closed ws = true -> ends ws (compute_printf num_vars size_input size_output).
Proof.
  unfold printf_closed. intros Hc. destruct (after_word "NUM_X" ws) as [r|] eqn:Hr; [|done]. unfold compute_printf.
  apply (ends_after ws r); [|by apply (after_word_suffix "NUM_X")|intros cmds; ends_tac].
  apply (runs_fuel ws (fun k => scan_format k None)), runs_scan_format; [lia|done].
Qed.

Context (SE : storage_ends).

Lemma RAMImpl_get_ends s addr : RAMImpl_get DB_NUM_ADDRESSES RAM_CELL_NUM_BITS s addr <> NoFuel.
Proof.
  unfold RAMImpl_get. destruct (_ >? _); [done|]. unfold mbind, res_bind.
  pose proof (getAddr_ends SE (blockStore s) addr []). by destruct (getAddr _ _ _) as [[]| |].
Qed.

Lemma updateSubtree_ends fuel s addr level : (level <= numLevels s - 1)%nat -> (numLevels s - 1 < fuel + level)%nat ->
  updateSubtree DB_NUM_ADDRESSES RAM_CELL_NUM_BITS fuel s addr level <> NoFuel /\
  forall h s', updateSubtree DB_NUM_ADDRESSES RAM_CELL_NUM_BITS fuel s addr level = Ok (h, s') -> numLevels s' = numLevels s.
Proof.
  revert s addr level. induction fuel as [|fuel IH]; intros s addr level Hl Hf; [lia|]. cbn [updateSubtree].
  destruct (_ >=? DB_NUM_ADDRESSES); [split; [done|]; by intros h s' [= _ <-]|].
  destruct (getHash s addr level false []) as [[] h]; [split; [done|]; by intros h' s' [= _ <-]|].
  destruct (Nat.eqb_spec level (numLevels s - 1)) as [->|Hne].
  - unfold mbind, res_bind. pose proof (RAMImpl_get_ends s addr). destruct (RAMImpl_get _ _ s addr) as [c| |]; try done.
    pose proof (hash_ends SE c). destruct (hash c); try done. split; [done|]. by intros h' s' [= _ <-].
  - set (l := u32 (Z.shiftl addr 1)). destruct (IH s l (level + 1)%nat) as [Hr1 Hr2]; [lia..|].
    unfold mbind, res_bind. destruct (updateSubtree _ _ fuel s l (level + 1)) as [[h1 s1]| |]; try done.
    specialize (Hr2 h1 s1 eq_refl). destruct (IH s1 (Z.lor l 1) (level + 1)%nat) as [Hr3 Hr4]; [lia..|].
    destruct (updateSubtree _ _ fuel s1 (Z.lor l 1) (level + 1)) as [[h2 s2]| |]; try done.
    specialize (Hr4 h2 s2 eq_refl). pose proof (hash2_ends SE h1 h2). destruct (hash2 h1 h2); try done.
    split; [done|]. intros h' s' [= _ <-]. cbn. lia.
Qed.

Lemma RAMImpl_put_ends s addr v : RAMImpl_put DB_NUM_ADDRESSES RAM_CELL_NUM_BITS s addr v <> NoFuel.
Proof.
  unfold RAMImpl_put, updateHashes, mbind, res_bind. pose proof (putAddr_ends SE (blockStore s) addr v).
  destruct (putAddr _ _ _) as [b| |]; try done. set (s1 := invalidateHashes _ addr).
  destruct (updateSubtree_ends (S (numLevels s1)) s1 0 0) as [Hr1 _]; [lia..|]. by destruct (updateSubtree _ _ _ _ _ _) as [[]| |].
Qed.

Lemma ends_RAMImpl_get ws idx : ends ws (gets (fun σ => RAMImpl_get DB_NUM_ADDRESSES RAM_CELL_NUM_BITS (ram σ) idx)).
Proof. apply ends_gets. intros σ. apply RAMImpl_get_ends. Qed.

Lemma ends_RAMImpl_put ws idx data :
  ends ws (modify (fun σ => r ← RAMImpl_put DB_NUM_ADDRESSES RAM_CELL_NUM_BITS (ram σ) idx data; Ok (with_ram r σ))).
Proof.
  apply ends_modify; unfold mbind, res_bind; intros σ; pose proof (RAMImpl_put_ends (ram σ) idx data);
    destruct (RAMImpl_put _ _ _ _ _); try done. by intros σ' [= <-].
Qed.

Lemma ends_getSiblingHash ws idx lvl h : ends ws (gets (fun σ => getSiblingHash (ram σ) idx lvl h)).
Proof. apply ends_gets. intros σ. unfold getSiblingHash. by destruct (0 <? lvl)%nat. Qed.

Lemma ends_get ws k v : ends ws (gets (fun σ => get (blockStore (ram σ)) k v)).
Proof. apply ends_gets. intros σ. apply (get_ends SE). Qed.

Lemma ends_put ws k v : ends ws (modify (fun σ => b ← put (blockStore (ram σ)) k v; Ok (with_blockStore b σ))).
Proof.
  apply ends_modify; unfold mbind, res_bind; intros σ; pose proof (put_ends SE (blockStore (ram σ)) k v);
    destruct (put _ _ _); try done. by intros σ' [= <-].
Qed.

Lemma ends_free ws k : ends ws (modify (fun σ => b ← free (blockStore (ram σ)) k; Ok (with_blockStore b σ))).
Proof.
  apply ends_modify; unfold mbind, res_bind; intros σ; pose proof (free_ends SE (blockStore (ram σ)) k);
    destruct (free _ _); try done. by intros σ' [= <-].
Qed.

Lemma ends_ram_value ws idx : ends ws (gets (fun σ => Ok (ram_value (true_ram σ) idx))).
Proof. by apply ends_gets. Qed.

Lemma ends_ram_store ws idx v : ends ws (ram_store idx v).
Proof. apply ends_modify; [done|]. by intros σ σ' [= <-]. Qed.

#[local] Hint Resolve ends_RAMImpl_get ends_RAMImpl_put ends_getSiblingHash ends_get ends_put ends_free ends_ram_value ends_ram_store : ends.

(** The words of the network are read before it is routed. *)
Lemma wak_route_ends input width ni ns : length input = width -> (2 <= width -> ni = 2 * ns - width /\ ns = numSwitches width)%nat ->
  wak_route input width ni ns <> NoFuel.
Proof.
  intros Hl Hn. destruct (decide (width < 2)%nat) as [Hw|Hw].
  - unfold wak_route. by rewrite (proj2 (Nat.ltb_lt _ _) Hw).
  - destruct (Hn ltac:(lia)) as [-> ->]. subst width. destruct (route_sorted input ltac:(lia)) as (inter & output & sws & Hr & _). unfold num_intermediate in Hr. by rewrite Hr.
Qed.

Lemma bind_Ok_inv {A B} (m : prog A) (f : A -> prog B) σ b σ' : (m ≫= f) σ = Ok (b, σ') -> exists a σ1, m σ = Ok (a, σ1) /\ f a σ1 = Ok (b, σ').
Proof. unfold mbind, prog_bind, mbind, res_bind. destruct (m σ) as [[a σ1]| |]; try done. by exists a, σ1. Qed.

Lemma ends_compute_waksman_network ws : ends ws (compute_waksman_network num_vars size_input size_output).
Proof.
  assert (Hdata : forall ws cmds, ends ws (next_data num_vars size_input size_output cmds)) by (intros; unfold next_data, next_si; ends_tac).
  assert (Hput : forall ws l k off, ends ws (put_data l k off)) by (intros; unfold put_data, value_at, set_F1; ends_tac).
  unfold compute_waksman_network. apply ends_bind; [auto with ends|]. intros _ ws1 _. apply ends_bind; [auto with ends|]. intros cmds ws2 _.
  apply ends_bind; [auto with ends|]. intros _ ws3 _. set (width := Z.to_nat (atoi cmds)).
  destruct (Z.ltb_spec (atoi cmds) 0) as [|Hw]; [auto with ends|]. cbn [orb]. destruct (Z.ltb_spec (Z.of_nat (numSwitches width) * 2 - atoi cmds) 0) as [|Hi]; [auto with ends|].
  apply (ends_bind_post (fun x => length x.2 = width)).
  - apply ends_for. intros i [c s] ws4 _. apply ends_bind; [done|]. intros [c' d]. auto with ends.
  - intros σ [c input] σ'. apply (for_post (fun i x => length x.2 = i) 0 width); [lia| |done].
    intros i [c1 s] σ1 s' σ1' Hb Hlen. apply bind_Ok_inv in Hb as ([c2 d] & σ2 & _ & [= <- _]). cbn in *. rewrite length_app, Hlen. cbn. lia.
  - intros [c input] ws4 Hinput. cbn in Hinput. apply ends_bind; [|intros [output [inter sws]]; unfold value_at, set_F1; ends_tac].
    apply ends_lift, wak_route_ends; [done|]. intros _. split; [|done]. unfold width in *. lia.
Qed.

(** The statement that a word begins ends when what it opens is closed. *)
Lemma ends_statement ws cmds tok : statement_closed tok ws = true ->
  ends ws (statement DB_NUM_ADDRESSES RAM_CELL_NUM_BITS NUM_COMMITMENT_BITS num_vars size_input size_output prime
            execute_command AMat cmds tok).
Proof.
  intros Hc. unfold statement_closed in Hc.
  assert (String.eqb tok "PRINTF" = true -> printf_closed ws = true) as Hp by (intros ->%String.eqb_eq; exact Hc).
  assert (String.eqb tok "EXO_COMPUTE" = true -> exo_closed ws = true) as He by (intros Heq; by rewrite Heq in Hc).
  assert (String.eqb tok "EXT_GADGET" = true -> gadget_closed ws = true) as Hg by (intros ->%String.eqb_eq; exact Hc).
  clear Hc. unfold statement. repeat match goal with |- ends _ (if ?b then _ else _) => destruct b end;
    try (apply ends_bind; [first [apply ends_compute_waksman_network|by apply ends_printf, Hp|by apply ends_exo_compute, He|by apply ends_ext_gadget, Hg]|ends_tac]);
    clear Hp He Hg;
    unfold compute_P, compute_less_than_int, compute_less_than_float, compute_not_equal, compute_binary,
      compute_split_unsignedint, compute_split_int_le, compute_matrix_vec_mul, compute_db_get_bits, compute_db_put_bits,
      compute_db_get_sibling_hash, compute_get_block_by_hash, compute_put_block_by_hash, compute_free_block_by_hash,
      compute_genericget, compute_assert_zero, compute_fast_ramget, compute_fast_ramput,
      parse_hash, get_block, put_bits, next_bits, next_uint32, set_bit, ram_keep; ends_tac.
Qed.

Lemma ends_run_statements fuel ws cmds : (length ws < fuel)%nat -> closed ws = true ->
  ends ws (run_statements DB_NUM_ADDRESSES RAM_CELL_NUM_BITS NUM_COMMITMENT_BITS num_vars size_input size_output prime
            execute_command AMat fuel cmds).
Proof.
  revert ws cmds. induction fuel as [|fuel IH]; intros ws cmds Hn Hc; [lia|]. cbn [run_statements].
  apply ends_token; [apply ends_ret|]. intros tok ws' ->. cbn in Hn, Hc. apply andb_prop in Hc as [Hs Hc].
  apply ends_bind; [by apply ends_statement|]. intros cmds' ws2 Hws2. apply IH; [apply suffix_length in Hws2; lia|by apply (closed_suffix ws')].
Qed.

End Statements.

(** ** Termination *)

Section Ends.
Context `{HashBlockStore} `{HH : Hasher} `{CacheDB} `{G : Gmp}.
Context (DB_NUM_ADDRESSES : Z) (RAM_CELL_NUM_BITS NUM_COMMITMENT_BITS : nat).
Context (num_vars size_input size_output : nat) (prime : Z).
Context (execute_command : string -> string -> string -> list string) (AMat : nat -> Z).

(** C14: A worksheet in which every [EXO_COMPUTE], [EXT_GADGET] and [PRINTF] is
    followed by the words that close its lists or its format is read to its
    end or stops at a fault, whatever its other words: no statement loops. *)
Theorem worksheet_ends worksheet σ :
  storage_ends -> closed worksheet = true ->
  compute_from_pws DB_NUM_ADDRESSES RAM_CELL_NUM_BITS NUM_COMMITMENT_BITS num_vars size_input size_output prime
    execute_command AMat worksheet σ <> NoFuel.
Proof.
  intros SE Hc. unfold compute_from_pws, mbind, res_bind.
  destruct (ends_run_statements DB_NUM_ADDRESSES RAM_CELL_NUM_BITS NUM_COMMITMENT_BITS num_vars size_input size_output prime
    execute_command AMat SE (S (length worksheet)) worksheet None ltac:(lia) Hc (with_tokens worksheet σ))
    as [Hends _]; [done|].
  by destruct (run_statements _ _ _ _ _ _ _ _ _ _ _ _) as [[]| |].
Qed.

(** Without the closing word a loop finds, once the words are used up, the
    same word in its buffer in every round. *)
Lemma getL_loops fuel ts b l σ : "]"%string ∉ ts -> (exists w, b = Some w /\ w <> "]"%string) ->
  getL_loop fuel b l (with_tokens ts σ) = NoFuel.
Proof.
  revert ts b l. induction fuel as [|fuel IH]; intros ts b l Hts (w & -> & Hw); [done|]. cbn [getL_loop]. destruct ts as [|t ts].
  - rewrite step_stale, (proj2 (String.eqb_neq _ _) Hw). apply IH; eauto.
  - apply not_elem_of_cons in Hts as [Ht Hts]. rewrite step_word. destruct (String.eqb_spec t "]") as [->|Hne]; [done|].
    apply IH; eauto.
Qed.

Lemma getLL_loops fuel t ts b l σ : "]"%string ∉ t :: ts -> getLL_loop fuel b l (with_tokens (t :: ts) σ) = NoFuel.
Proof.
  intros [Ht Hts]%not_elem_of_cons. destruct fuel as [|fuel]; [done|]. cbn [getLL_loop]. rewrite step_word.
  destruct (String.eqb_spec t "]") as [->|Hne]; [done|]. unfold mbind, prog_bind, mbind, res_bind, getL. rewrite getL_loops; eauto.
Qed.

Lemma scan_format_loops fuel ts b σ : "NUM_X"%string ∉ ts -> (exists w, b = Some w /\ w <> "NUM_X"%string) ->
  scan_format fuel b (with_tokens ts σ) = NoFuel.
Proof.
  revert ts b. induction fuel as [|fuel IH]; intros ts b Hts (w & -> & Hw); [done|]. cbn [scan_format]. destruct ts as [|t ts].
  - rewrite step_stale, (proj2 (String.eqb_neq _ _) Hw). apply IH; eauto.
  - apply not_elem_of_cons in Hts as [Ht Hts]. rewrite step_word. destruct (String.eqb_spec t "NUM_X") as [->|Hne]; [done|].
    apply IH; eauto.
Qed.

(** The fuel of the model is enough: a loop that runs out of it runs out of any
    number of rounds. *)
Lemma getL_fuel fuel ts b l σ : (length ts < fuel)%nat -> getL_loop fuel b l (with_tokens ts σ) = NoFuel ->
  forall fuel', getL_loop fuel' b l (with_tokens ts σ) = NoFuel.
Proof.
  revert ts b l. induction fuel as [|fuel IH]; intros ts b l Hf Hn [|fuel']; try done; [lia|]. cbn [getL_loop] in *. destruct ts as [|t ts].
  - destruct b as [w|]; [|done]. rewrite step_stale in *. destruct (String.eqb_spec w "]") as [|Hw]; [done|].
    apply getL_loops; [apply not_elem_of_nil|eauto].
  - rewrite step_word in *. destruct (String.eqb t "]"); [done|]. apply IH; [cbn in Hf; lia|done].
Qed.

Lemma scan_format_fuel fuel ts b σ : (length ts < fuel)%nat -> scan_format fuel b (with_tokens ts σ) = NoFuel ->
  forall fuel', scan_format fuel' b (with_tokens ts σ) = NoFuel.
Proof.
  revert ts b. induction fuel as [|fuel IH]; intros ts b Hf Hn [|fuel']; try done; [lia|]. cbn [scan_format] in *. destruct ts as [|t ts].
  - destruct b as [w|]; [|done]. rewrite step_stale in *. destruct (String.eqb_spec w "NUM_X") as [|Hw]; [done|].
    apply scan_format_loops; [apply not_elem_of_nil|eauto].
  - rewrite step_word in *. destruct (String.eqb t "NUM_X"); [done|]. apply IH; [cbn in Hf; lia|done].
Qed.

Lemma getL_words fuel ts b l σ a σ' : getL_loop fuel b l (with_tokens ts σ) = Ok (a, σ') ->
  exists r, σ' = with_tokens r σ /\ (length r <= length ts)%nat.
Proof.
  revert ts b l. induction fuel as [|fuel IH]; intros ts b l; cbn [getL_loop]; [done|]. destruct ts as [|t ts].
  - destruct b as [w|]; [|done]. rewrite step_stale. destruct (String.eqb w "]"); [|apply IH]. intros [= _ <-]. by exists [].
  - rewrite step_word. destruct (String.eqb t "]"); [intros [= _ <-]; exists ts; split; [done|cbn; lia]|].
    intros (r & -> & Hr)%IH. exists r. split; [done|]. cbn. lia.
Qed.

Lemma getLL_fuel fuel ts b l σ : (length ts < fuel)%nat -> getLL_loop fuel b l (with_tokens ts σ) = NoFuel ->
  forall fuel', getLL_loop fuel' b l (with_tokens ts σ) = NoFuel.
Proof.
  revert ts b l. induction fuel as [|fuel IH]; intros ts b l Hf Hn [|fuel']; try done; [lia|]. cbn [getLL_loop] in *. destruct ts as [|t ts].
  - destruct b as [w|]; [|done]. rewrite step_stale in *. destruct (String.eqb_spec w "]") as [|Hw]; [done|].
    unfold mbind, prog_bind, mbind, res_bind, getL. rewrite getL_loops; [done|apply not_elem_of_nil|eauto].
  - rewrite step_word in *. destruct (String.eqb t "]"); [done|]. unfold mbind, prog_bind, mbind, res_bind in *.
    destruct (getL (Some t) (with_tokens ts σ)) as [[[buf tmpList] σ1]| |] eqn:Hg; [|done|done].
    apply getL_words in Hg as (r & -> & Hr). apply IH; [cbn in Hf, Hr; lia|done].
Qed.

Lemma statement_loops tok ws σ : (forall cmds, statement DB_NUM_ADDRESSES RAM_CELL_NUM_BITS NUM_COMMITMENT_BITS num_vars size_input
    size_output prime execute_command AMat cmds tok (with_tokens ws σ) = NoFuel) ->
  compute_from_pws DB_NUM_ADDRESSES RAM_CELL_NUM_BITS NUM_COMMITMENT_BITS num_vars size_input size_output prime
    execute_command AMat (tok :: ws) σ = NoFuel.
Proof.
  intros Hs. unfold compute_from_pws. cbn [length run_statements]. unfold mbind at 1, res_bind at 1.
  unfold mbind, prog_bind, try_next_token, mbind, res_bind. cbn [pws_file with_tokens]. by setoid_rewrite Hs.
Qed.

(** C27: A worksheet that goes on behind the start of a list or a format but ends
    before its closing word makes the interpreter loop: with any number of rounds, [getL], [getLL] and the
    scan of [compute_printf] run out of them. *)
Theorem unclosed_loops t ts σ :
  ("]"%string ∉ t :: ts -> forall fuel b l ll,
     getL_loop fuel b l (with_tokens (t :: ts) σ) = NoFuel /\ getLL_loop fuel b ll (with_tokens (t :: ts) σ) = NoFuel) /\
  ("]"%string ∉ t :: ts -> forall i,
     compute_from_pws DB_NUM_ADDRESSES RAM_CELL_NUM_BITS NUM_COMMITMENT_BITS num_vars size_input size_output prime
       execute_command AMat ("EXO_COMPUTE" :: "EXOID" :: i :: "INPUTS" :: "[" :: t :: ts)%string σ = NoFuel) /\
  ("NUM_X"%string ∉ t :: ts ->
     (forall fuel b, scan_format fuel b (with_tokens (t :: ts) σ) = NoFuel) /\
     compute_from_pws DB_NUM_ADDRESSES RAM_CELL_NUM_BITS NUM_COMMITMENT_BITS num_vars size_input size_output prime
       execute_command AMat ("PRINTF" :: t :: ts)%string σ = NoFuel).
Proof.
  assert (Hscan : "NUM_X"%string ∉ t :: ts -> forall fuel b, scan_format fuel b (with_tokens (t :: ts) σ) = NoFuel).
  { intros [Ht Hts]%not_elem_of_cons [|fuel] b; [done|]. cbn [scan_format]. rewrite step_word.
    destruct (String.eqb_spec t "NUM_X") as [->|Hne]; [done|]. apply scan_format_loops; eauto. }
  split; [|split].
  - intros Hin fuel b l ll. split; [|by apply getLL_loops]. apply not_elem_of_cons in Hin as [Ht Hts]. destruct fuel as [|fuel]; [done|].
    cbn [getL_loop]. rewrite step_word. destruct (String.eqb_spec t "]") as [->|Hne]; [done|]. apply getL_loops; eauto.
  - intros Hin i. apply statement_loops. intros cmds.
    cbv beta iota zeta delta [statement String.eqb Ascii.eqb Bool.eqb orb]. unfold compute_exo_compute.
    unfold mbind at 1, prog_bind at 1. rewrite step_expect, step_word, !step_expect.
    unfold mbind, prog_bind, mbind, res_bind, getLL. by rewrite getLL_loops.
  - intros Hin. split; [by apply Hscan|]. apply statement_loops. intros cmds.
    cbv beta iota zeta delta [statement String.eqb Ascii.eqb Bool.eqb orb]. unfold compute_printf, mbind, prog_bind, mbind, res_bind.
    by rewrite Hscan.
Qed.

End Ends.

Lemma for_upM_ends {S} lo hi (body : nat -> S -> res S) s : (forall i s, body i s <> NoFuel) -> for_upM lo hi body s <> NoFuel.
Proof.
  intros Hb. unfold for_upM. generalize (hi - lo)%nat as n. intros n. revert lo s. induction n as [|n IH]; intros lo s; [done|].
  cbn [for_upM_n]. unfold mbind, res_bind. specialize (Hb lo s). destruct (body lo s); [apply IH|done|done].
Qed.

Lemma wr_ends {A} (l : list A) i a : wr l i a <> NoFuel.
Proof. unfold wr. by destruct (_ && _). Qed.

Lemma bytes_ends bytes n bits off : BitsToByteArray bytes n bits off <> NoFuel.
Proof. unfold BitsToByteArray. destruct (_ <=? _)%nat; [|done]. apply for_upM_ends. intros; apply wr_ends. Qed.

Lemma to_bits_ends bytes n bits off : ByteArrayToBits bytes n bits off <> NoFuel.
Proof.
  unfold ByteArrayToBits. destruct (_ <=? _)%nat; [|done]. apply for_upM_ends. intros i s. unfold mbind, res_bind, rd.
  destruct (0 <=? _); [|done]. by destruct (bytes !! _).
Qed.

(** The LevelDB store and the null hash come to an end. *)
Lemma sample_storage_ends : storage_ends (H := store) (HH := NullHash.NullHash).
Proof.
  assert (forall d k v, getVal (H := MapDB) d k v <> NoFuel) as Hget.
  { intros d k v. unfold getVal. destruct (Get d k); [|done]. unfold mbind, res_bind.
    match goal with |- context [ByteArrayToBits ?a ?b ?c ?d] => pose proof (to_bits_ends a b c d); by destruct (ByteArrayToBits a b c d) end. }
  assert (forall d k v, putVal (H := MapDB) d k v <> NoFuel) as Hput.
  { intros d k v. unfold putVal, mbind, res_bind. pose proof (bytes_ends (replicate (length v / 8) 0) (length v / 8) v 0).
    by destruct (BitsToByteArray _ _ v 0). }
  assert (forall {A} k (f : list Z -> res A), (forall b, f b <> NoFuel) -> (key_bytes k ≫= f) <> NoFuel) as Hkey.
  { intros A k f Hf. unfold mbind, res_bind, key_bytes.
    pose proof (bytes_ends (replicate (length k / 8) 0) (length k / 8) k 0). destruct (BitsToByteArray _ _ k 0); [apply Hf|done|done]. }
  split; intros.
  - apply Hkey. intros; apply Hget.
  - apply Hkey. intros; apply Hput.
  - apply Hget.
  - apply Hput.
  - by apply Hkey.
  - done.
  - unfold hash2. cbn. unfold NullHash.null_hash. by destruct (_ =? _)%nat.
Qed.

(** A worksheet with a program to run and a message, closed, that stops in the
    middle of a polynomial. *)
Lemma worksheet_ends_witness :
  compute_from_pws (H := store) (HH := NullHash.NullHash) (H0 := MapCache) 4 8 0 12 2 1 17 (fun _ _ _ => ["7"]) (fun _ => 0)
    ["EXO_COMPUTE"; "EXOID"; "3"; "INPUTS"; "["; "["; "I0"; "]"; "]"; "OUTPUTS"; "["; "V1"; "]";
     "PRINTF"; "x"; "NUM_X"; "1"; "X"; "V1"; "P"; "V0"; "="; "I0"]
    (sample (replicate 12 0) [5; 4; 0]) <> NoFuel.
Proof.
  apply (worksheet_ends (H := store) (HH := NullHash.NullHash) (H0 := MapCache)); [exact sample_storage_ends|reflexivity].
Defined.

Lemma unclosed_loops_witness :
  compute_from_pws (H := store) (HH := NullHash.NullHash) (H0 := MapCache) 4 8 0 12 2 1 17 (fun _ _ _ => []) (fun _ => 0)
    ["PRINTF"; "x"] (sample (replicate 12 0) [5; 4; 0]) = NoFuel.
Proof.
  apply (unclosed_loops (H := store) (HH := NullHash.NullHash) (H0 := MapCache) 4 8 0 12 2 1 17 (fun _ _ _ => []) (fun _ => 0) "x" []).
  by apply (bool_decide_unpack _).
Defined.
