(* ===== verification/Poly.v ===== *)
(** The polynomials of a worksheet: the words the compiler writes for a
    polynomial, and that [compute_poly] leaves its value.

    A polynomial is a sum of terms with signs, a term a product of factors, a
    factor an operand or a polynomial in parentheses. *)
From Stdlib Require Import ZArith Lia Ascii String.
From stdpp Require Import base numbers list strings pretty gmap.
From S2P Require Import Prelude Bits LevelDb GghHash MerkleRam Mpq Prover Worksheet.

Local Open Scope Z_scope.
#[local] Existing Instances prog_ret prog_bind.

Inductive poly : Type :=
| PNil
| PCons (neg : bool) (t : term) (p : poly)
with term : Type :=
| TOne (f : factor)
| TMul (f : factor) (t : term)
with factor : Type :=
| FLeaf (o : operand)
| FParen (p : poly).

Scheme poly_mut := Induction for poly Sort Prop
with term_mut := Induction for term Sort Prop
with factor_mut := Induction for factor Sort Prop.
Combined Scheme poly_term_factor_ind from poly_mut, term_mut, factor_mut.

Fixpoint print_poly (first : bool) (p : poly) : list string :=
  match p with
  | PNil => []
  | PCons neg t p => (if neg then ["-"] else if first then [] else ["+"]) ++ print_term t ++ print_poly false p
  end
with print_term (t : term) : list string :=
  match t with
  | TOne f => print_factor f
  | TMul f t => print_factor f ++ "*" :: print_term t
  end
with print_factor (f : factor) : list string :=
  match f with
  | FLeaf o => [word o]
  | FParen p => "(" :: print_poly true p ++ [")"]
  end.

Section Value.
Context (ρ : operand -> Z).

Definition leaf (o : operand) : Z := match o with OConst z => z | _ => ρ o end.

Fixpoint poly_value (p : poly) : Z :=
  match p with
  | PNil => 0
  | PCons neg t p => (if neg then - term_value t else term_value t) + poly_value p
  end
with term_value (t : term) : Z :=
  match t with
  | TOne f => factor_value f
  | TMul f t => factor_value f * term_value t
  end
with factor_value (f : factor) : Z :=
  match f with
  | FLeaf o => leaf o
  | FParen p => poly_value p
  end.
End Value.

(** The greatest number of parentheses around a part of the polynomial. *)
Fixpoint poly_depth (p : poly) : nat :=
  match p with PNil => O | PCons _ t p => Nat.max (term_depth t) (poly_depth p) end
with term_depth (t : term) : nat :=
  match t with TOne f => factor_depth f | TMul f t => Nat.max (factor_depth f) (term_depth t) end
with factor_depth (f : factor) : nat :=
  match f with FLeaf _ => O | FParen p => S (poly_depth p) end.

Fixpoint poly_vars (p : poly) : list operand :=
  match p with PNil => [] | PCons _ t p => term_vars t ++ poly_vars p end
with term_vars (t : term) : list operand :=
  match t with TOne f => factor_vars f | TMul f t => factor_vars f ++ term_vars t end
with factor_vars (f : factor) : list operand :=
  match f with FLeaf o => [o] | FParen p => poly_vars p end.

(** ** The loop *)

Section Poly.
Context `{HashBlockStore} `{CacheDB} `{GL : GmpLaws}.
Context (num_vars size_input size_output : nat) (ρ : operand -> Z).

Abbreviation loop_at := (poly_loop num_vars size_input size_output).
Abbreviation wf := (well_formed num_vars size_input size_output).

(** The scratch numbers of a polynomial at [t]. *)
Definition scratch (t : nat) (l : loc) : Prop := l = LTemp \/ exists i, (t <= i)%nat /\ l = LTemps i.

Lemma scratch_le t t' l : (t <= t')%nat -> scratch t' l -> scratch t l.
Proof. intros Hle [->|(i & Hi & ->)]; [by left|right; exists i; split; [lia|done]]. Qed.

(** The sum so far is [P] and the product begun, if there is one, is [T]. *)
Record at_poly (t : nat) (fl : poly_flags) (P : Z) (T : option Z) (σ : ComputationProver) : Prop := {
  at_sum : read_loc σ (LTemps t) = Some (int P);
  at_terms : hasTerms fl = false -> P = 0;
  at_empty : isEmpty fl = negb (hasTerms fl);
  at_factors : hasFactors fl = bool_decide (is_Some T);
  at_product : forall v, T = Some v -> read_loc σ (LTemps (t + 1)) = Some (int v)
}.

Definition total (fl : poly_flags) (P : Z) (T : option Z) : Z :=
  P + match T with Some v => if negate fl then - v else v | None => 0 end.

(** The values of the operands. *)
Definition valued (σ : ComputationProver) (o : operand) : Prop :=
  operand_ok num_vars size_input size_output o /\ holds σ o (leaf ρ o).

Lemma valued_same t σ σ' o : same_but (scratch t) σ σ' -> valued σ o -> valued σ' o.
Proof.
  intros Hs [Ho Hh]. split; [done|]. apply (holds_same _ _ _ _ _ Hs); [|done]. by destruct o; intros Hv [Hl|(j & _ & Hl)].
Qed.

Lemma Forall_valued t σ σ' l : same_but (scratch t) σ σ' -> Forall (valued σ) l -> Forall (valued σ') l.
Proof. intros Hs Hl. apply (Forall_impl _ _ _ Hl). intros o. by apply valued_same with t. Qed.

Lemma run_emit t fl P T ts σ : wf σ -> (t < 15)%nat -> at_poly t fl P T σ ->
  exists fl' σ', emit_term t fl (with_tokens ts σ) = Ok (fl', with_tokens ts σ') /\
    at_poly t fl' (total fl P T) None σ' /\ same_but (scratch t) σ σ' /\
    (negate fl' = match T with Some _ => false | None => negate fl end).
Proof.
  intros Hwf Ht [Hsum Hterms Hempty Hfac Hprod]. unfold emit_term, total. destruct T as [v|]; rewrite Hfac; cbn [bool_decide].
  2:{ exists fl, σ. rewrite bool_decide_eq_false_2 by apply is_Some_None. rewrite Z.add_0_r.
      split; [done|]. split; [|split; [apply same_refl|done]]. split; try done. }
  rewrite bool_decide_eq_true_2 by done. specialize (Hprod v eq_refl).
  assert (is_Some (read_loc σ (LTemps t))) as Hs0 by (by eexists).
  assert (is_Some (read_loc σ (LTemps (t + 1)))) as Hs1 by (by eexists).
  set (w := if negate fl then - v else v).
  assert (exists σ1, (if negate fl then t0 ← getq (LTemps (t + 1)); setq (LTemps (t + 1)) (mpq_neg t0) else mret tt) (with_tokens ts σ)
            = Ok (tt, with_tokens ts σ1) /\ read_loc σ1 (LTemps (t + 1)) = Some (int w) /\
            read_loc σ1 (LTemps t) = Some (int P) /\ same_but (scratch t) σ σ1) as (σ1 & Hrun & Hw & HP & Hs).
  { subst w. destruct (negate fl).
    - eexists. rewrite (run_bind _ _ _ _ _ (run_getq _ _ ts σ Hprod)), run_setq by done. split; [done|].
      rewrite read_write_eq, read_write_ne by (try done; intros [=]; lia). rewrite mpq_neg_int.
      split; [done|]. split; [done|]. apply same_write. right. exists (t + 1)%nat. split; [lia|done].
    - exists σ. split; [done|]. split; [done|]. split; [done|]. apply same_refl. }
  rewrite (run_bind _ _ _ _ _ Hrun), (run_bind _ _ _ _ _ (run_getq _ _ ts σ1 Hw)).
  exists {| hasTerms := true; hasFactors := false; isEmpty := false; negate := false |}, (write_loc (LTemps t) (int (P + w)) σ1).
  assert (is_Some (read_loc σ1 (LTemps t))) as Hs2 by (by eexists).
  split; [|split; [|split; [|done]]].
  - destruct (hasTerms fl) eqn:Hh; cbn [negb].
    + erewrite run_bind; [|erewrite run_bind by (by apply run_getq); apply run_setq; done]. by rewrite mpq_add_int.
    + rewrite (Hterms eq_refl). by rewrite (run_bind _ _ _ _ _ (run_setq _ _ ts σ1 Hs2)).
  - split; cbn; try done. by apply (read_write_eq (LTemps t)).
  - apply same_write_r; [|done]. right. by exists t.
Qed.

Lemma run_add_factor t fl P T v ts σ : wf σ -> (t < 15)%nat -> at_poly t fl P T σ ->
  exists fl' σ', add_factor t fl (int v) (with_tokens ts σ) = Ok (fl', with_tokens ts σ') /\
    at_poly t fl' P (Some (default 1 T * v)) σ' /\ same_but (scratch t) σ σ' /\ negate fl' = negate fl.
Proof.
  intros Hwf Ht [Hsum Hterms Hempty Hfac Hprod]. unfold add_factor. rewrite Hfac.
  pose proof (temps_some num_vars size_input size_output (t + 1) σ Hwf ltac:(unfold temp_stack_size; lia)) as Hs1.
  eexists _, (write_loc (LTemps (t + 1)) (int (default 1 T * v)) σ). split; [|split; [|split]].
  - destruct T as [u|]; cbn [default from_option id].
    + rewrite bool_decide_eq_true_2 by done. cbn [negb].
      erewrite run_bind; [|rewrite (run_bind _ _ _ _ _ (run_getq _ _ ts σ (Hprod u eq_refl))); by apply run_setq].
      by rewrite mpq_mul_int.
    + rewrite bool_decide_eq_false_2 by apply is_Some_None. cbn [negb]. rewrite (run_bind _ _ _ _ _ (run_setq _ _ ts σ Hs1)).
      by rewrite Z.mul_1_l.
  - split; cbn; try done.
    + rewrite <- Hsum. apply (read_write_ne (LTemps (t + 1)) (LTemps t)). intros [=]; lia.
    + intros v' [= <-]. by apply (read_write_eq (LTemps (t + 1))).
  - apply same_write. right. exists (t + 1)%nat. split; [lia|done].
  - done.
Qed.

Lemma run_finish t fl P T ts σ : wf σ -> (t < 15)%nat -> at_poly t fl P T σ ->
  exists σ', finish_poly t fl (with_tokens ts σ) = Ok (tt, with_tokens ts σ') /\
    read_loc σ' (LTemps t) = Some (int (total fl P T)) /\ same_but (scratch t) σ σ'.
Proof.
  intros Hwf Ht Hat. destruct (run_emit t fl P T ts σ Hwf Ht Hat) as (fl' & σ1 & Hrun & [Hsum Hterms Hempty _ _] & Hs & _).
  unfold finish_poly. rewrite (run_bind _ _ _ _ _ Hrun), Hempty. destruct (hasTerms fl') eqn:Hh; cbn [negb].
  - exists σ1. done.
  - exists (write_loc (LTemps t) (int 0) σ1). assert (is_Some (read_loc σ1 (LTemps t))) as Hs1 by (by eexists).
    split; [by apply run_setq|]. split; [rewrite (Hterms eq_refl); by apply read_write_eq|].
    apply same_write_r; [|done]. right. by exists t.
Qed.

(** One round, by the word read. *)

Lemma loop_word fuel t fl w ts σ :
  loop_at (S fuel) t fl (with_tokens (w :: ts) σ) =
  (fl ← (if String.eqb w "+" || String.eqb w "-" then emit_term t fl else mret fl);
   if String.eqb w "(" then
     setq (LTemps (t + 2)) (int 0);;
     (if (temp_stack_size - 1 <=? t + 2)%nat then mret tt else loop_at fuel (t + 2) fresh_flags);;
     subresult ← getq (LTemps (t + 2));
     fl ← add_factor t fl subresult;
     loop_at fuel t fl
   else if String.eqb w ")" then finish_poly t fl
   else if String.eqb w "E" then finish_poly t fl
   else if String.eqb w "+" || String.eqb w "*" then loop_at fuel t fl
   else if String.eqb w "-" then
     loop_at fuel t
       {| hasTerms := hasTerms fl; hasFactors := hasFactors fl; isEmpty := isEmpty fl; negate := negb (negate fl) |}
   else
     factor ← voc num_vars size_input size_output w LTemp;
     q ← getq factor;
     fl ← add_factor t fl q;
     loop_at fuel t fl) (with_tokens ts σ).
Proof. reflexivity. Qed.

Lemma word_eqb o c : c <> "V"%char -> c <> "I"%char -> c <> "O"%char -> digit c = None ->
  String.eqb (word o) (String c EmptyString) = false.
Proof.
  intros HV HI HO Hd. destruct (String.eqb (word o) (String c EmptyString)) eqn:Heq; [|done].
  destruct (word_not_syntax o c Heq) as [?|[?|[?|?]]]; done.
Qed.

Definition factor_runs (f : factor) : Prop := forall t fl P T ts σ fuel,
  (t + 2 * factor_depth f <= 14)%nat -> wf σ -> at_poly t fl P T σ -> Forall (valued σ) (factor_vars f) ->
  (length (print_factor f ++ ts) < fuel)%nat ->
  exists fuel' fl' σ', loop_at fuel t fl (with_tokens (print_factor f ++ ts) σ) = loop_at fuel' t fl' (with_tokens ts σ') /\
    (length ts < fuel')%nat /\ at_poly t fl' P (Some (default 1 T * factor_value ρ f)) σ' /\
    same_but (scratch t) σ σ' /\ negate fl' = negate fl.

Definition term_runs (tm : term) : Prop := forall t fl P T ts σ fuel,
  (t + 2 * term_depth tm <= 14)%nat -> wf σ -> at_poly t fl P T σ -> Forall (valued σ) (term_vars tm) ->
  (length (print_term tm ++ ts) < fuel)%nat ->
  exists fuel' fl' σ', loop_at fuel t fl (with_tokens (print_term tm ++ ts) σ) = loop_at fuel' t fl' (with_tokens ts σ') /\
    (length ts < fuel')%nat /\ at_poly t fl' P (Some (default 1 T * term_value ρ tm)) σ' /\
    same_but (scratch t) σ σ' /\ negate fl' = negate fl.

Definition poly_runs (p : poly) : Prop := forall first t fl P T ts σ fuel,
  (t + 2 * poly_depth p <= 14)%nat -> wf σ -> at_poly t fl P T σ -> Forall (valued σ) (poly_vars p) ->
  (if first : bool then T = None /\ negate fl = false else is_Some T) ->
  (length (print_poly first p ++ ts) < fuel)%nat ->
  exists fuel' fl' P' T' σ', loop_at fuel t fl (with_tokens (print_poly first p ++ ts) σ) = loop_at fuel' t fl' (with_tokens ts σ') /\
    (length ts < fuel')%nat /\ at_poly t fl' P' T' σ' /\
    total fl' P' T' = total fl P T + poly_value ρ p /\ same_but (scratch t) σ σ'.

Lemma leaf_runs o : factor_runs (FLeaf o).
Proof.
  intros t fl P T ts σ fuel Hd Hwf Hat Hv Hf. cbn [print_factor app length factor_depth] in *.
  apply Forall_singleton in Hv as [Ho Hh]. destruct fuel as [|fuel]; [lia|]. rewrite loop_word.
  rewrite !word_eqb by done. cbn [orb]. rewrite (run_bind _ _ _ fl (with_tokens ts σ)) by done.
  assert (is_Some (read_loc σ LTemp)) as Htmp by (by eexists).
  rewrite (run_bind _ _ _ _ _ (run_voc _ _ _ o LTemp ts σ Ho Htmp)).
  rewrite (run_bind _ _ _ _ _ (run_getq _ _ ts _ (read_place o LTemp σ _ Htmp Hh))).
  assert (same_but (scratch t) σ (after o LTemp σ)) as Hs by (apply same_after; by left).
  assert (at_poly t fl P T (after o LTemp σ)) as Hat'.
  { destruct Hat as [Hsum Hterms Hempty Hfac Hprod]. split; try done.
    - by rewrite read_after.
    - intros v ->. rewrite read_after by done. by apply Hprod. }
  destruct (run_add_factor t fl P T (leaf ρ o) ts _ (well_formed_same _ _ _ _ _ _ Hs Hwf) ltac:(lia) Hat')
    as (fl' & σ' & Hrun & Hat'' & Hs' & Hneg).
  exists fuel, fl', σ'. rewrite (run_bind _ _ _ _ _ Hrun). split; [done|]. split; [lia|]. split; [done|].
  split; [|done]. by apply (same_trans _ _ _ _ Hs).
Qed.

Lemma paren_runs p : poly_runs p -> factor_runs (FParen p).
Proof.
  intros IH t fl P T ts σ fuel Hd Hwf Hat Hv Hf. cbn [print_factor app length factor_depth factor_vars factor_value] in *.
  destruct fuel as [|fuel]; [lia|]. rewrite loop_word. cbn [String.eqb Ascii.eqb Bool.eqb orb].
  rewrite (run_bind _ _ _ fl (with_tokens ((print_poly true p ++ [")"]) ++ ts) σ)) by done.
  assert (is_Some (read_loc σ (LTemps (t + 2)))) as Hs2.
  { apply (temps_some num_vars size_input size_output); [done|unfold temp_stack_size; lia]. }
  rewrite (run_bind _ _ _ _ _ (run_setq _ _ _ σ Hs2)). set (σ1 := write_loc (LTemps (t + 2)) (int 0) σ).
  destruct (Nat.leb_spec (temp_stack_size - 1) (t + 2)) as [Hle|_]; [unfold temp_stack_size in Hle; lia|].
  assert (same_but (scratch (t + 2)) σ σ1) as Hsame1 by (apply same_write; right; by exists (t + 2)%nat).
  pose proof (well_formed_same _ _ _ _ _ _ Hsame1 Hwf) as Hwf1.
  assert (at_poly (t + 2) fresh_flags 0 None σ1) as Hat1.
  { split; try done. by apply read_write_eq. }
  rewrite <- app_assoc in *.
  destruct (IH true (t + 2)%nat fresh_flags 0 None ([")"] ++ ts) σ1 fuel ltac:(lia) Hwf1 Hat1
              (Forall_valued _ _ _ _ Hsame1 Hv) (conj eq_refl eq_refl) ltac:(lia)) as (fuel2 & fl2 & P2 & T2 & σ2 & Hrun & Hf2 & Hat2 & Htot & Hsame2).
  cbn [app length] in Hf2, Hrun. destruct fuel2 as [|fuel2]; [lia|].
  pose proof (well_formed_same _ _ _ _ _ _ Hsame2 Hwf1) as Hwf2.
  destruct (run_finish (t + 2) fl2 P2 T2 ts σ2 Hwf2 ltac:(lia) Hat2) as (σ3 & Hfin & Hval & Hsame3).
  rewrite loop_word in Hrun. cbn [String.eqb Ascii.eqb Bool.eqb orb] in Hrun.
  rewrite (run_bind _ _ _ fl2 (with_tokens ts σ2)), Hfin in Hrun by done. cbn [app].
  rewrite (run_bind _ _ _ _ _ Hrun), (run_bind _ _ _ _ _ (run_getq _ _ ts σ3 Hval)).
  assert (same_but (scratch (t + 2)) σ σ3) as Hsame by (by eapply same_trans; [|eapply same_trans]).
  assert (at_poly t fl P T σ3) as Hat3.
  { destruct Hat as [Hsum Hterms Hempty Hfac Hprod]. split; try done.
    - rewrite (same_read _ _ _ Hsame); [done|]. intros [?|(i & Hi & [= ?])]; [done|lia].
    - intros v ->. rewrite (same_read _ _ _ Hsame); [by apply Hprod|]. intros [?|(i & Hi & [= ?])]; [done|lia]. }
  destruct (run_add_factor t fl P T (total fl2 P2 T2) ts σ3 (well_formed_same _ _ _ _ _ _ Hsame Hwf) ltac:(lia) Hat3)
    as (fl' & σ' & Hadd & Hat' & Hs' & Hneg).
  exists fuel, fl', σ'. rewrite (run_bind _ _ _ _ _ Hadd). split; [done|]. rewrite !length_app in Hf. cbn in Hf.
  split; [lia|]. rewrite Htot in Hat'. split; [exact Hat'|]. split; [|done].
  apply (same_trans _ _ σ3); [|done]. apply (same_weaken (scratch (t + 2))); [|done]. intros l. apply scratch_le. lia.
Qed.

Lemma product_runs f tm : factor_runs f -> term_runs tm -> term_runs (TMul f tm).
Proof.
  intros IHf IHt t fl P T ts σ fuel Hd Hwf Hat Hv Hf. cbn [print_term term_depth term_vars term_value] in *.
  apply Forall_app in Hv as [Hv1 Hv2]. rewrite <- app_assoc in *. cbn [app] in *.
  destruct (IHf t fl P T ("*" :: print_term tm ++ ts) σ fuel ltac:(lia) Hwf Hat Hv1 Hf)
    as (fuel1 & fl1 & σ1 & Hrun1 & Hf1 & Hat1 & Hs1 & Hn1).
  cbn [length] in Hf1. destruct fuel1 as [|fuel1]; [lia|]. rewrite loop_word in Hrun1.
  cbn [String.eqb Ascii.eqb Bool.eqb orb] in Hrun1. rewrite (run_bind _ _ _ fl1 (with_tokens (print_term tm ++ ts) σ1)) in Hrun1 by done.
  destruct (IHt t fl1 P _ ts σ1 fuel1 ltac:(lia) (well_formed_same _ _ _ _ _ _ Hs1 Hwf) Hat1 (Forall_valued _ _ _ _ Hs1 Hv2) ltac:(lia))
    as (fuel2 & fl2 & σ2 & Hrun2 & Hf2 & Hat2 & Hs2 & Hn2).
  exists fuel2, fl2, σ2. rewrite Hrun1, Hrun2. split; [done|]. split; [done|]. cbn in Hat2. rewrite Z.mul_assoc.
  split; [done|]. split; [by apply (same_trans _ _ σ1)|congruence].
Qed.

(** The sign before a term. *)
Lemma sign_runs (first neg : bool) t fl P T ts σ fuel : (t < 15)%nat -> wf σ -> at_poly t fl P T σ ->
  (if first then T = None /\ negate fl = false else is_Some T) ->
  (length ((if neg then ["-"] else if first then [] else ["+"]) ++ ts) < fuel)%nat ->
  exists fuel' fl' σ',
    loop_at fuel t fl (with_tokens ((if neg then ["-"] else if first then [] else ["+"]) ++ ts) σ) =
    loop_at fuel' t fl' (with_tokens ts σ') /\
    (length ts < fuel')%nat /\ at_poly t fl' (total fl P T) None σ' /\ same_but (scratch t) σ σ' /\ negate fl' = neg.
Proof.
  intros Ht Hwf Hat Hfirst Hf. destruct neg.
  - cbn [app length] in *. destruct fuel as [|fuel]; [lia|]. rewrite loop_word. cbn [String.eqb Ascii.eqb Bool.eqb orb].
    destruct (run_emit t fl P T ts σ Hwf Ht Hat) as (fl1 & σ1 & Hrun & [? ? ? ? ?] & Hs & Hn).
    rewrite (run_bind _ _ _ _ _ Hrun).
    eexists fuel, _, σ1. split; [done|]. split; [lia|]. split; [by split|]. split; [done|]. cbn. rewrite Hn.
    destruct first; [by destruct Hfirst as [-> ->]|by destruct Hfirst as [v ->]].
  - destruct first; cbn [app length] in *.
    + destruct Hfirst as [-> Hn]. exists fuel, fl, σ. split; [done|]. split; [lia|]. unfold total. rewrite Z.add_0_r.
      split; [done|]. split; [apply same_refl|done].
    + destruct fuel as [|fuel]; [lia|]. rewrite loop_word. cbn [String.eqb Ascii.eqb Bool.eqb orb].
      destruct (run_emit t fl P T ts σ Hwf Ht Hat) as (fl1 & σ1 & Hrun & Hat1 & Hs & Hn).
      rewrite (run_bind _ _ _ _ _ Hrun). exists fuel, fl1, σ1. split; [done|]. split; [lia|]. split; [done|].
      split; [done|]. by destruct Hfirst as [v ->].
Qed.

Lemma sum_runs neg tm p : term_runs tm -> poly_runs p -> poly_runs (PCons neg tm p).
Proof.
  intros IHt IHp first t fl P T ts σ fuel Hd Hwf Hat Hv Hfirst Hf.
  cbn [print_poly poly_depth poly_vars poly_value] in *. apply Forall_app in Hv as [Hv1 Hv2]. rewrite <- !app_assoc in *.
  destruct (sign_runs first neg t fl P T _ σ fuel ltac:(lia) Hwf Hat Hfirst Hf) as (fuel1 & fl1 & σ1 & Hrun1 & Hf1 & Hat1 & Hs1 & Hn1).
  destruct (IHt t fl1 _ None _ σ1 fuel1 ltac:(lia) (well_formed_same _ _ _ _ _ _ Hs1 Hwf) Hat1 (Forall_valued _ _ _ _ Hs1 Hv1) Hf1)
    as (fuel2 & fl2 & σ2 & Hrun2 & Hf2 & Hat2 & Hs2 & Hn2).
  pose proof (same_trans _ _ _ _ Hs1 Hs2) as Hs12.
  destruct (IHp false t fl2 _ _ ts σ2 fuel2 ltac:(lia) (well_formed_same _ _ _ _ _ _ Hs12 Hwf) Hat2
              (Forall_valued _ _ _ _ Hs12 Hv2) (mk_is_Some _ _ eq_refl) Hf2)
    as (fuel3 & fl3 & P3 & T3 & σ3 & Hrun3 & Hf3 & Hat3 & Htot3 & Hs3).
  exists fuel3, fl3, P3, T3, σ3. rewrite Hrun1, Hrun2, Hrun3. split; [done|]. split; [done|]. split; [done|].
  split; [|by apply (same_trans _ _ σ2)]. rewrite Htot3. unfold total at 1. rewrite Hn2, Hn1. cbn. destruct neg; lia.
Qed.

Lemma all_run : (forall p, poly_runs p) /\ (forall tm, term_runs tm) /\ (forall f, factor_runs f).
Proof.
  apply poly_term_factor_ind.
  - intros first t fl P T ts σ fuel Hd Hwf Hat Hv Hfirst Hf. exists fuel, fl, P, T, σ. cbn in *.
    split; [done|]. split; [done|]. split; [done|]. split; [lia|apply same_refl].
  - intros neg tm IHt p IHp. by apply sum_runs.
  - intros f IHf. exact IHf.
  - intros f IHf tm IHt. by apply product_runs.
  - apply leaf_runs.
  - apply paren_runs.
Qed.

(** [compute_poly] on a polynomial and the word that ends it. *)
Lemma run_compute_poly p ts σ : (poly_depth p <= 7)%nat -> wf σ -> Forall (valued σ) (poly_vars p) ->
  exists σ', compute_poly num_vars size_input size_output 0 (with_tokens (print_poly true p ++ "E" :: ts) σ) = Ok (tt, with_tokens ts σ') /\
    read_loc σ' (LTemps 0) = Some (int (poly_value ρ p)) /\ same_but (scratch 0) σ σ'.
Proof.
  intros Hd Hwf Hv. unfold compute_poly. cbn [temp_stack_size Nat.sub Nat.leb].
  pose proof (temps_some num_vars size_input size_output 0 σ Hwf ltac:(unfold temp_stack_size; lia)) as Hs0.
  rewrite (run_bind _ _ _ _ _ (run_setq _ _ _ σ Hs0)). set (σ1 := write_loc (LTemps 0) (int 0) σ).
  assert (same_but (scratch 0) σ σ1) as Hs1 by (apply same_write; right; by exists 0%nat).
  assert (at_poly 0 fresh_flags 0 None σ1) as Hat1 by (split; try done; by apply read_write_eq).
  pose proof (well_formed_same _ _ _ _ _ _ Hs1 Hwf) as Hwf1. cbn [with_tokens pws_file].
  destruct (proj1 all_run p true 0%nat fresh_flags 0 None ("E" :: ts) σ1 (S (length (print_poly true p ++ "E" :: ts))) ltac:(lia) Hwf1 Hat1
              (Forall_valued _ _ _ _ Hs1 Hv) (conj eq_refl eq_refl) ltac:(lia)) as (fuel2 & fl2 & P2 & T2 & σ2 & Hrun & Hf2 & Hat2 & Htot & Hs2).
  cbn [length] in Hf2. destruct fuel2 as [|fuel2]; [lia|].
  destruct (run_finish 0 fl2 P2 T2 ts σ2 (well_formed_same _ _ _ _ _ _ Hs2 Hwf1) ltac:(lia) Hat2) as (σ3 & Hfin & Hval & Hs3).
  rewrite loop_word in Hrun. cbn [String.eqb Ascii.eqb Bool.eqb orb] in Hrun.
  rewrite (run_bind _ _ _ fl2 (with_tokens ts σ2)), Hfin in Hrun by done.
  exists σ3. split; [exact Hrun|]. rewrite Htot in Hval. split; [exact Hval|]. by eapply same_trans; [|eapply same_trans].
Qed.

Abbreviation ok := (operand_ok num_vars size_input size_output).

Lemma run_P y p cmds ts σ : (poly_depth p <= 7)%nat -> wf σ -> Forall (valued σ) (poly_vars p) ->
  variable y -> ok y ->
  exists σ', compute_P num_vars size_input size_output cmds (with_tokens (word y :: "=" :: print_poly true p ++ "E" :: ts) σ) = Ok (Some (word y), with_tokens ts σ') /\
    read_loc σ' (place y LTemp) = Some (int (poly_value ρ p)) /\ same_but (fun l => l = place y LTemp \/ scratch 0 l) σ σ'.
Proof.
  intros Hd Hwf Hv Hy Hok. unfold compute_P. rewrite step_voc by (try done; by eexists). rewrite step_expect, (after_variable y) by done.
  destruct (run_compute_poly p ts σ Hd Hwf Hv) as (σ1 & Hrun & Hval & Hs).
  rewrite (run_bind _ _ _ _ _ Hrun), (step_getq _ _ _ _ _ Hval).
  pose proof (operand_some _ _ _ y _ (well_formed_same _ _ _ _ _ _ Hs Hwf) Hok) as Hy1.
  rewrite step_setq by done. eexists. split; [done|]. split; [by apply read_write_eq|].
  apply same_write_r; [by left|]. apply (same_weaken (scratch 0)); [by right|done].
Qed.

(** C16: A polynomial written out with at most seven parentheses around any
    part is evaluated: the target gets its value, and nothing but scratch
    numbers changes. *)
Theorem poly_statement_correct y p cmds ts σ : (poly_depth p <= 7)%nat -> wf σ ->
  Forall (valued σ) (poly_vars p) -> variable y -> ok y ->
  exists σ', compute_P num_vars size_input size_output cmds (with_tokens (word y :: "=" :: print_poly true p ++ "E" :: ts) σ) = Ok (Some (word y), with_tokens ts σ') /\
    read_loc σ' (place y LTemp) = Some (int (poly_value ρ p)) /\ same_but (fun l => l = place y LTemp \/ scratch 0 l) σ σ'.
Proof. apply run_P. Qed.

End Poly.

(** [V0 = ( I0 - 2 ) * ( I0 ) - ( I1 ) * 3] *)
Definition sample_poly : poly :=
  PCons false (TMul (FParen (PCons false (TOne (FLeaf (OIn 0))) (PCons true (TOne (FLeaf (OConst 2))) PNil)))
                    (TOne (FParen (PCons false (TOne (FLeaf (OIn 0))) PNil))))
    (PCons true (TMul (FParen (PCons false (TOne (FLeaf (OIn 1))) PNil)) (TOne (FLeaf (OConst 3)))) PNil).

Lemma poly_statement_witness :
  exists σ', compute_P (H := store) (H0 := MapCache) 12 2 1 None
      (with_tokens (["V0"; "="; "("; "I0"; "-"; "2"; ")"; "*"; "("; "I0"; ")"; "-"; "("; "I1"; ")"; "*"; "3"; "E"]) (sample (replicate 12 0) [5; 4; 0]))
    = Ok (Some "V0"%string, with_tokens [] σ') /\ read_loc σ' (LF1 0) = Some (int 3).
Proof.
  destruct (poly_statement_correct (H := store) (H0 := MapCache) 12 2 1 (fun o => match o with OIn 0 => 5 | _ => 4 end) (OVar 0) sample_poly None []
    (sample (replicate 12 0) [5; 4; 0])) as (σ' & Hrun & Hval & _).
  - cbn. lia.
  - by apply sample_prover_wf.
  - repeat constructor; cbn; lia.
  - done.
  - cbn. lia.
  - exists σ'. split; [exact Hrun|exact Hval].
Defined.
