(* ===== verification/Gadgets.v ===== *)
(** The statements of a worksheet that compare and split numbers: what the
    prover leaves in the variables of the statement.

    [less_words] and the like are the lines that the compiler writes
    ([generate_computation_less_i] and its neighbours of
    [compiler/backend/zcc_parser.py]). *)
From Stdlib Require Import ZArith Lia Ascii String.
From stdpp Require Import base numbers list strings pretty gmap.
From S2P Require Import Prelude Bits LevelDb GghHash MerkleRam Mpq Prover Worksheet.

Local Open Scope Z_scope.
#[local] Existing Instances prog_ret prog_bind.

(** ** The lines *)

Definition less_words (n0 : nat) (N : Z) (mlt meq mgt : nat) (x1 x2 y : operand) : list string :=
  ["N_0"; word (OVar n0); "N"; pretty N; "Mlt"; word (OVar mlt); "Meq"; word (OVar meq); "Mgt"; word (OVar mgt);
   "X1"; word x1; "X2"; word x2; "Y"; word y].

Definition not_equal_words (m : nat) (x1 x2 y : operand) : list string :=
  ["M"; word (OVar m); "X1"; word x1; "X2"; word x2; "Y"; word y].

Definition split_words (x : operand) (len : Z) (start : nat) : list string :=
  [word x; "into"; pretty len; "bits"; "at"; word (OVar start)].

Definition split_le_words (signed : bool) (N : Z) (x : operand) (start : nat) : list string :=
  [if signed then "int" else "uint"; "bits"; pretty N; "X"; word x; "Y0"; word (OVar start)].

(** The powers of two of which the number is the sum, one per bit. *)
Definition bit_powers (n : nat) (z : Z) : list Z := tabulate n (fun i => b2z (Z.testbit z (Z.of_nat i)) * 2 ^ Z.of_nat i).

(** The bits, the lowest first. *)
Definition bits_le (n : nat) (z : Z) : list Z := tabulate n (fun i => b2z (Z.testbit z (Z.of_nat i))).

Lemma int_tabulate n f : length (map int (tabulate n f)) = n.
Proof. by rewrite length_map, tabulate_length. Qed.

Lemma int_tabulate_lookup n f i v : map int (tabulate n f) !! i = Some v -> (i < n)%nat /\ v = int (f i).
Proof.
  intros Hv. pose proof (lookup_lt_Some _ _ _ Hv) as Hi. rewrite int_tabulate in Hi. split; [done|].
  unfold tabulate in Hv. rewrite !list_lookup_fmap, lookup_seq_lt in Hv by done. by injection Hv.
Qed.

Section Gadgets.
Context `{HashBlockStore} `{CacheDB} `{GL : GmpLaws}.
Context (num_vars size_input size_output : nat) (prime : Z).

Abbreviation wf := (well_formed num_vars size_input size_output).
Abbreviation ok := (operand_ok num_vars size_input size_output).

Lemma atoi1_var i : atoi1 (word (OVar i)) = Z.of_nat i.
Proof. cbn. apply atoi_pretty. Qed.

Lemma var_some i σ : wf σ -> (i < num_vars)%nat -> is_Some (read_loc σ (LF1 i)).
Proof. intros [Hl _ _] Hi. cbn. apply lookup_lt_is_Some_2. by rewrite Hl. Qed.

(** ** Taking off bits *)

Lemma shiftr_step z (i : nat) : Z.div2 (Z.shiftr z (Z.of_nat i)) = Z.shiftr z (Z.of_nat (S i)).
Proof. rewrite Z.div2_spec, Z.shiftr_shiftr by lia. f_equal. lia. Qed.

Lemma shiftr_odd z (i : nat) : Z.odd (Z.shiftr z (Z.of_nat i)) = Z.testbit z (Z.of_nat i).
Proof. rewrite <- Z.bit0_odd, Z.shiftr_spec by lia. f_equal. Qed.

Lemma low_bit_shiftr z (i : nat) : 0 <= z ->
  mpz_tdiv_r_2exp (Z.shiftr z (Z.of_nat i)) 1 = b2z (Z.testbit z (Z.of_nat i)) /\
  mpz_tdiv_q_2exp (Z.shiftr z (Z.of_nat i)) 1 = Z.shiftr z (Z.of_nat (S i)).
Proof.
  intros Hz. destruct (low_bit (Z.shiftr z (Z.of_nat i))) as [-> ->]; [by apply Z.shiftr_nonneg|].
  by rewrite shiftr_odd, shiftr_step.
Qed.

(** The loop of the comparisons. *)
Lemma run_power_loop (n0 n : nat) z ts σ : 0 <= z -> (n0 + n <= num_vars)%nat -> wf σ ->
  for_prog 0 n
    (fun i temp =>
       Ni ← F1_at (Z.of_nat n0 + Z.of_nat i);
       setq Ni (int (mpz_tdiv_r_2exp temp 1));;
       q ← getq Ni;
       setq Ni (mpq_mul_2exp q (Z.of_nat i));;
       mret (mpz_tdiv_q_2exp temp 1)) z (with_tokens ts σ)
  = Ok (Z.shiftr z (Z.of_nat n), with_tokens ts (write_F1s n0 (map int (bit_powers n z)) σ)).
Proof.
  intros Hz Hn Hwf. change z with (Z.shiftr z (Z.of_nat 0)) at 1.
  apply (for_prog_F1s n n0 (map int (bit_powers n z)) (fun i => Z.shiftr z (Z.of_nat i))).
  - apply int_tabulate.
  - rewrite (F1_length _ _ _ _ Hwf). lia.
  - intros i v [Hi ->]%int_tabulate_lookup.
    set (σi := write_F1s n0 _ σ). assert (is_Some (read_loc σi (LF1 (n0 + i)))) as Hs.
    { cbn. apply lookup_lt_is_Some_2. rewrite length_inserts, (F1_length _ _ _ _ Hwf). lia. }
    rewrite (run_bind _ _ _ _ _ (run_F1_at (Z.of_nat n0 + Z.of_nat i) _ ltac:(lia))). replace (Z.to_nat (Z.of_nat n0 + Z.of_nat i)) with (n0 + i)%nat by lia.
    rewrite step_setq by done. destruct (low_bit_shiftr z i Hz) as [-> ->].
    erewrite step_getq by (by apply read_write_eq). rewrite step_setq by (by apply read_write_some).
    rewrite mpq_mul_2exp_int by lia. unfold mret, prog_ret. f_equal. f_equal. f_equal.
    cbn. unfold with_F1. cbn. f_equal. by rewrite list_insert_insert_eq.
Qed.

(** Membership in a list that is written out. *)
Ltac listed := repeat first [apply list_elem_of_here | apply list_elem_of_further].

(** ** [<I] *)

Record less_layout (n0 : nat) (N : Z) (mlt meq mgt : nat) (x1 x2 y : operand) : Prop := {
  ll_N : 1 <= N;
  ll_flags : (mlt < num_vars)%nat /\ (meq < num_vars)%nat /\ (mgt < num_vars)%nat /\ mlt <> meq /\ mlt <> mgt /\ meq <> mgt;
  ll_bits : (n0 + Z.to_nat (N - 1) <= num_vars)%nat;
  ll_bits_flags : Forall (fun m => ~ in_range_F1 n0 (Z.to_nat (N - 1)) (LF1 m)) [mlt; meq; mgt];
  ll_y : variable y /\ ok y /\ ~ in_range_F1 n0 (Z.to_nat (N - 1)) (place y LTemp) /\
    Forall (fun m => place y LTemp <> LF1 m) [mlt; meq; mgt];
  ll_args : ok x1 /\ ok x2 /\ (variable x1 \/ variable x2) /\
    Forall (fun m => place x1 LTemp <> LF1 m /\ place x2 LTemp <> LF1 m) [mlt; meq; mgt]
}.

(** What the statement may change. *)
Definition less_writes (n0 : nat) (N : Z) (mlt meq mgt : nat) (y : operand) (l : loc) : Prop :=
  in_range_F1 n0 (Z.to_nat (N - 1)) l \/ l ∈ [LF1 mlt; LF1 meq; LF1 mgt; place y LTemp; LTemp; LTemps 0].

(** Two operands of which one is a variable keep their values together. *)
Lemma two_operands x1 x2 v1 v2 σ : variable x1 \/ variable x2 -> holds σ x1 v1 -> holds σ x2 v2 ->
  let σ' := after x2 LTemp (after x1 LTemp σ) in
  read_loc σ' (place x1 LTemp) = Some (int v1) /\ read_loc σ' (place x2 LTemp) = Some (int v2).
Proof.
  intros Hvar Hx1 Hx2. cbn zeta. destruct x2 as [i|i|i|z2]; cbn [after place];
    try (split; [by apply read_place|rewrite read_after by done; exact Hx2]).
  destruct Hvar as [Hvar|[]]. rewrite after_variable by done. split.
  - destruct x1; [..|done]; cbn [place holds] in *; (rewrite read_write_ne by done; exact Hx1).
  - rewrite Hx2. by apply read_write_eq.
Qed.

Lemma compare_cases x1 x2 :
  mpq_cmp (int x1) (int x2) < 0 /\ x1 < x2 \/ mpq_cmp (int x1) (int x2) = 0 /\ x1 = x2 \/
  0 < mpq_cmp (int x1) (int x2) /\ x2 < x1.
Proof.
  pose proof (mpq_cmp_int x1 x2) as Hc. destruct (Z.lt_trichotomy x1 x2) as [?|[->|?]].
  - left. rewrite (Z.sgn_neg (x1 - x2)) in Hc by lia. apply (proj1 (Z.sgn_neg_iff _)) in Hc. lia.
  - right; left. rewrite Z.sub_diag in Hc. apply (proj1 (Z.sgn_null_iff _)) in Hc. by split.
  - right; right. rewrite (Z.sgn_pos (x1 - x2)) in Hc by lia. apply (proj1 (Z.sgn_pos_iff _)) in Hc. lia.
Qed.

Abbreviation flags_written mlt meq mgt v1 v2 σ :=
  (write_loc (LTemps 0) (int (- Z.abs (v1 - v2)))
    (write_loc (LF1 mgt) (int (b2z (v2 <? v1))) (write_loc (LF1 meq) (int (b2z (v1 =? v2)))
      (write_loc (LF1 mlt) (int (b2z (v1 <? v2))) σ)))).

(** The flags and the difference. *)
Lemma run_flags mlt meq mgt p1 p2 v1 v2 ts σ : wf σ -> (mlt < num_vars)%nat -> (meq < num_vars)%nat -> (mgt < num_vars)%nat ->
  read_loc σ p1 = Some (int v1) -> read_loc σ p2 = Some (int v2) ->
  Forall (fun m => p1 <> LF1 m /\ p2 <> LF1 m) [mlt; meq; mgt] ->
  (let compare := mpq_cmp (int v1) (int v2) in
   if compare <? 0 then
     setq (LF1 mlt) (int 1);; setq (LF1 meq) (int 0);; setq (LF1 mgt) (int 0);;
     x1 ← getq p1; x2 ← getq p2; setq (LTemps 0) (mpq_sub x1 x2)
   else if compare =? 0 then
     setq (LF1 mlt) (int 0);; setq (LF1 meq) (int 1);; setq (LF1 mgt) (int 0);;
     x1 ← getq p1; x2 ← getq p2; setq (LTemps 0) (mpq_sub x1 x2)
   else
     setq (LF1 mlt) (int 0);; setq (LF1 meq) (int 0);; setq (LF1 mgt) (int 1);;
     x1 ← getq p1; x2 ← getq p2; setq (LTemps 0) (mpq_sub x2 x1)) (with_tokens ts σ)
  = Ok (tt, with_tokens ts (flags_written mlt meq mgt v1 v2 σ)).
Proof.
  intros Hwf Hlt Heq Hgt Hp1 Hp2 Hne. cbn zeta.
  apply Forall_cons in Hne as [[Hn1 Hn2] Hne]. apply Forall_cons in Hne as [[Hn3 Hn4] Hne]. apply Forall_cons in Hne as [[Hn5 Hn6] _].
  assert (forall a b c ts, (forall k, (setq (LF1 mlt) a;; setq (LF1 meq) b;; setq (LF1 mgt) c;; x1 ← getq p1; x2 ← getq p2; k x1 x2) (with_tokens ts σ)
    = k (int v1) (int v2) (with_tokens ts (write_loc (LF1 mgt) c (write_loc (LF1 meq) b (write_loc (LF1 mlt) a σ))))
    :> res (unit * _))) as Hstep.
  { intros a b c ts' k. rewrite step_setq by by apply var_some. rewrite step_setq by by rewrite read_write_some; apply var_some.
    rewrite step_setq by by rewrite !read_write_some; apply var_some.
    by rewrite (step_getq p1 (int v1)), (step_getq p2 (int v2)) by by rewrite !read_write_ne. }
  assert (forall a b c q, is_Some (read_loc (write_loc (LF1 mgt) c (write_loc (LF1 meq) b (write_loc (LF1 mlt) a σ))) (LTemps q)) <-> is_Some (read_loc σ (LTemps q)))
    as Hs by (intros; by rewrite !read_write_some).
  pose proof (temps_some _ _ _ 0 _ Hwf ltac:(unfold temp_stack_size; lia)) as H00.
  destruct (compare_cases v1 v2) as [[Hc Hv]|[[Hc Hv]|[Hc Hv]]].
  - rewrite (proj2 (Z.ltb_lt _ _) Hc), Hstep, run_setq, mpq_sub_int by by rewrite Hs.
    rewrite (proj2 (Z.ltb_lt v1 v2)), (proj2 (Z.eqb_neq v1 v2)), (proj2 (Z.ltb_ge v2 v1)) by lia.
    repeat f_equal; lia.
  - rewrite Hc. cbn [Z.ltb Z.eqb Z.compare]. rewrite Hstep, run_setq, mpq_sub_int by by rewrite Hs. subst v2.
    rewrite Z.ltb_irrefl, Z.eqb_refl. repeat f_equal; lia.
  - rewrite (proj2 (Z.ltb_ge _ _)), (proj2 (Z.eqb_neq (mpq_cmp _ _) 0)) by lia. rewrite Hstep, run_setq, mpq_sub_int by by rewrite Hs.
    rewrite (proj2 (Z.ltb_ge v1 v2)), (proj2 (Z.eqb_neq v1 v2)), (proj2 (Z.ltb_lt v2 v1)) by lia.
    repeat f_equal; lia.
Qed.

Lemma run_less_than n0 N mlt meq mgt x1 x2 y v1 v2 ts σ :
  less_layout n0 N mlt meq mgt x1 x2 y -> wf σ -> holds σ x1 v1 -> holds σ x2 v2 -> Z.abs (v1 - v2) <= 2 ^ (N - 1) ->
  compute_less_than_int num_vars size_input size_output (with_tokens (less_words n0 N mlt meq mgt x1 x2 y ++ ts) σ) =
  Ok (tt, with_tokens ts
    (write_F1s n0 (map int (bit_powers (Z.to_nat (N - 1)) (2 ^ (N - 1) - Z.abs (v1 - v2))))
      (write_loc (place y LTemp) (int (b2z (v1 <? v2)))
        (flags_written mlt meq mgt v1 v2 (after x2 LTemp (after x1 LTemp σ)))))).
Proof.
  intros [HN (Hlt & Heq & Hgt & Hne1 & Hne2 & Hne3) Hbits Hbf (Hy & Hoky & Hyb & Hyf) (Ho1 & Ho2 & Hvar & Hne)] Hwf Hx1 Hx2 Hd.
  destruct (two_operands x1 x2 v1 v2 σ Hvar Hx1 Hx2) as [Hp1 Hp2].
  assert (is_Some (read_loc σ LTemp)) as Htmp by (by eexists).
  unfold compute_less_than_int, less_words. cbn [app].
  rewrite step_expect, step_word, step_expect, step_word, step_expect.
  rewrite (step_voc _ _ _ _ (OVar mlt)), step_expect, (step_voc _ _ _ _ (OVar meq)), step_expect, (step_voc _ _ _ _ (OVar mgt)), step_expect by done.
  rewrite step_voc, step_expect, step_voc, step_expect by (try done; by apply after_some).
  rewrite step_voc by (try done; by apply after_some, after_some). rewrite (after_variable y) by done.
  set (σ0 := after x2 LTemp (after x1 LTemp σ)) in *. cbn [after place].
  assert (same_but (fun l => l = LTemp) σ σ0) as Hs0.
  { eapply same_trans; by apply same_after. }
  pose proof (well_formed_same _ _ _ _ _ _ Hs0 Hwf) as Hwf0.
  rewrite (step_getq _ (int v1)), (step_getq _ (int v2)) by done.
  rewrite (run_bind _ _ _ _ _ (run_flags mlt meq mgt _ _ v1 v2 ts σ0 Hwf0 Hlt Heq Hgt Hp1 Hp2 Hne)).
  assert (same_but (less_writes n0 N mlt meq mgt y) σ0 (flags_written mlt meq mgt v1 v2 σ0)) as Hs1.
  { repeat (apply same_write_r; [right; listed|]). apply same_refl. }
  set (σ1 := flags_written mlt meq mgt v1 v2 σ0) in *. pose proof (well_formed_same _ _ _ _ _ _ Hs1 Hwf0) as Hwf1.
  assert (read_loc σ1 (LF1 mlt) = Some (int (b2z (v1 <? v2)))) as Hm.
  { subst σ1. rewrite !read_write_ne by congruence. apply read_write_eq. by apply var_some. }
  rewrite (step_getq _ _ _ _ _ Hm), step_setq by (try done; by apply (operand_some num_vars size_input size_output)).
  erewrite step_getq; [|rewrite read_write_ne by (destruct y; try done; cbn; congruence); subst σ1; apply read_write_eq;
    rewrite !read_write_some; apply (temps_some num_vars size_input size_output); [done|unfold temp_stack_size; lia]].
  cbn zeta. rewrite atoi1_var, atoi_pretty, mpz_mul_2exp_eq, Z.mul_1_l by lia. cbn [numref int].
  replace (2 ^ (N - 1) + - Z.abs (v1 - v2)) with (2 ^ (N - 1) - Z.abs (v1 - v2)) by lia.
  erewrite run_bind; [|apply run_power_loop; [lia|done|]]; [done|].
  apply (well_formed_same _ _ _ (less_writes n0 N mlt meq mgt y) σ1); [|done]. apply same_write. right. listed.
Qed.

(** The values after [<I]. *)
Record less_result (n0 : nat) (N : Z) (mlt meq mgt : nat) (y : operand) (v1 v2 : Z) (σ σ' : ComputationProver) : Prop := {
  lr_lt : read_loc σ' (LF1 mlt) = Some (int (b2z (v1 <? v2)));
  lr_eq : read_loc σ' (LF1 meq) = Some (int (b2z (v1 =? v2)));
  lr_gt : read_loc σ' (LF1 mgt) = Some (int (b2z (v2 <? v1)));
  lr_y : read_loc σ' (place y LTemp) = Some (int (b2z (v1 <? v2)));
  lr_bits : forall i, (i < Z.to_nat (N - 1))%nat ->
    read_loc σ' (LF1 (n0 + i)) = Some (int (b2z (Z.testbit (2 ^ (N - 1) - Z.abs (v1 - v2)) (Z.of_nat i)) * 2 ^ Z.of_nat i));
  lr_same : same_but (less_writes n0 N mlt meq mgt y) σ σ'
}.

Lemma same_write_F1s (X : loc -> Prop) n0 vs σ σ' : (forall l, in_range_F1 n0 (length vs) l -> X l) -> same_but X σ σ' ->
  same_but X σ (write_F1s n0 vs σ').
Proof.
  intros HX Hs. apply (same_trans _ _ _ _ Hs). split; try done.
  - intros l Hl. apply write_F1s_ne. intros Hr. by apply Hl, HX.
  - intros [i|i|i| |]; cbn; try done. rewrite !lookup_lt_is_Some. by rewrite length_inserts.
Qed.

Lemma less_than_result n0 N mlt meq mgt x1 x2 y v1 v2 ts σ :
  less_layout n0 N mlt meq mgt x1 x2 y -> wf σ -> holds σ x1 v1 -> holds σ x2 v2 -> Z.abs (v1 - v2) <= 2 ^ (N - 1) ->
  exists σ', compute_less_than_int num_vars size_input size_output (with_tokens (less_words n0 N mlt meq mgt x1 x2 y ++ ts) σ)
    = Ok (tt, with_tokens ts σ') /\ less_result n0 N mlt meq mgt y v1 v2 σ σ'.
Proof.
  intros Hl Hwf Hx1 Hx2 Hd. eexists. split; [by apply run_less_than|].
  destruct Hl as [HN (Hlt & Heq & Hgt & Hne1 & Hne2 & Hne3) Hbits Hbf (Hy & Hoky & Hyb & Hyf) (Ho1 & Ho2 & Hvar & Hne)].
  apply Forall_cons in Hbf as [Hb1 Hbf]. apply Forall_cons in Hbf as [Hb2 Hbf]. apply Forall_cons in Hbf as [Hb3 _].
  apply Forall_cons in Hyf as [Hy1 Hyf]. apply Forall_cons in Hyf as [Hy2 Hyf]. apply Forall_cons in Hyf as [Hy3 _].
  set (σ0 := after x2 LTemp (after x1 LTemp σ)).
  assert (same_but (less_writes n0 N mlt meq mgt y) σ σ0) as Hs0 by (eapply same_trans; apply same_after; right; listed).
  pose proof (well_formed_same _ _ _ _ _ _ Hs0 Hwf) as Hwf0.
  assert (Hvs : length (map int (bit_powers (Z.to_nat (N - 1)) (2 ^ (N - 1) - Z.abs (v1 - v2)))) = Z.to_nat (N - 1)) by apply int_tabulate.
  split; [rewrite write_F1s_ne by (rewrite Hvs; done)..| |].
  - rewrite !read_write_ne by congruence. apply read_write_eq. by apply var_some.
  - rewrite !read_write_ne by congruence. apply read_write_eq. rewrite !read_write_some. by apply var_some.
  - rewrite !read_write_ne by congruence. apply read_write_eq. rewrite !read_write_some. by apply var_some.
  - apply read_write_eq. rewrite !read_write_some. by apply (operand_some num_vars size_input size_output).
  - intros i Hi. apply write_F1s_eq.
    + unfold bit_powers, tabulate. by rewrite !list_lookup_fmap, lookup_seq_lt by done.
    + rewrite Hvs. pose proof (F1_length _ _ _ _ Hwf0) as Hlen. destruct y; cbn; rewrite ?length_insert, Hlen; done.
  - apply same_write_F1s; [rewrite Hvs; by left|]. repeat (apply same_write_r; [right; listed|]). done.
Qed.

(** ** [!=] *)

Record not_equal_layout (m : nat) (x1 x2 y : operand) : Prop := {
  nl_m : (m < num_vars)%nat;
  nl_y : variable y /\ ok y /\ place y LTemp <> LF1 m;
  nl_args : ok x1 /\ ok x2
}.

Definition not_equal_writes (m : nat) (y : operand) (l : loc) : Prop := l ∈ [LF1 m; place y LTemp; LTemp; LTemp2].

Record not_equal_result (m : nat) (y : operand) (v1 v2 : Z) (σ σ' : ComputationProver) : Prop := {
  nr_m : read_loc σ' (LF1 m) = Some (int (if v1 =? v2 then 0 else mpz_invert (v1 - v2) prime));
  nr_y : read_loc σ' (place y LTemp) = Some (int (b2z (negb (v1 =? v2))));
  nr_same : same_but (not_equal_writes m y) σ σ'
}.

Lemma not_equal_correct m x1 x2 y v1 v2 cmds ts σ : not_equal_layout m x1 x2 y -> wf σ -> holds σ x1 v1 -> holds σ x2 v2 ->
  exists σ', compute_not_equal num_vars size_input size_output prime cmds (with_tokens (not_equal_words m x1 x2 y ++ ts) σ)
    = Ok (Some (word y), with_tokens ts σ') /\ not_equal_result m y v1 v2 σ σ'.
Proof.
  intros [Hm (Hy & Hoky & Hym) [Ho1 Ho2]] Hwf Hx1 Hx2.
  assert (is_Some (read_loc σ LTemp)) as Htmp by (by eexists). assert (is_Some (read_loc σ LTemp2)) as Htmp2 by (by eexists).
  unfold compute_not_equal, not_equal_words. cbn [app].
  rewrite step_expect, (step_voc _ _ _ _ (OVar m)), step_expect, step_voc, step_expect, step_voc, step_expect by (try done; by apply after_some).
  rewrite step_voc by (try done; by apply after_some, after_some). rewrite (after_variable y) by done. cbn [after].
  set (σ0 := after x2 LTemp2 (after x1 LTemp σ)). cbn [place].
  assert (same_but (not_equal_writes m y) σ σ0) as Hs0 by (eapply same_trans; apply same_after; listed).
  pose proof (well_formed_same _ _ _ _ _ _ Hs0 Hwf) as Hwf0.
  assert (read_loc σ0 (place x1 LTemp) = Some (int v1)) as Hp1.
  { subst σ0. rewrite read_after by (by destruct x1). by apply read_place. }
  assert (read_loc σ0 (place x2 LTemp2) = Some (int v2)) as Hp2.
  { subst σ0. destruct x2; cbn [after place] in *; [rewrite read_after by done; exact Hx2..|]. rewrite Hx2.
    apply read_write_eq. by apply after_some. }
  rewrite (step_getq _ (int v1)), (step_getq _ (int v2)), mpq_equal_int by done.
  pose proof (var_some m _ Hwf0 Hm) as Hsm. pose proof (operand_some _ _ _ y _ Hwf0 Hoky) as Hsy.
  destruct (v1 =? v2) eqn:Hv.
  - rewrite !step_setq by (try done; by apply read_write_some). eexists. split; [done|].
    split; [|rewrite Hv; by apply read_write_eq, read_write_some|].
    + rewrite Hv, read_write_ne by done. by apply read_write_eq.
    + by repeat (apply same_write_r; [listed|]).
  - rewrite step_setq by (by eexists). erewrite step_getq by (by apply read_write_eq).
    rewrite !step_setq by (by rewrite ?read_write_some). eexists. split; [done|].
    split; [|rewrite Hv; by rewrite read_write_eq by (by rewrite !read_write_some)|].
    + rewrite Hv, read_write_ne by done. rewrite read_write_eq by (by rewrite read_write_some).
      rewrite mpq_sub_int. cbn. by rewrite Z.mul_1_r.
    + by repeat (apply same_write_r; [listed|]).
Qed.

(** ** Splitting into bits *)

(** Only variables and inputs are split. *)
Definition splittable (x : operand) : Prop := match x with OVar _ | OIn _ => True | _ => False end.

Record split_result (start n : nat) (bit : nat -> Z) (σ σ' : ComputationProver) : Prop := {
  sr_bits : forall i, (i < n)%nat -> read_loc σ' (LF1 (start + i)) = Some (int (bit i));
  sr_same : same_but (fun l => in_range_F1 start n l \/ l = LTemp) σ σ'
}.

Lemma written_bits start n bit σ0 σ : (start + n <= num_vars)%nat -> wf σ -> same_but (fun l => l = LTemp) σ0 σ ->
  split_result start n bit σ0 (write_F1s start (map int (tabulate n bit)) σ).
Proof.
  intros Hn Hwf Hs. split.
  - intros i Hi. apply write_F1s_eq.
    + unfold tabulate. by rewrite !list_lookup_fmap, lookup_seq_lt.
    + rewrite int_tabulate, (F1_length _ _ _ _ Hwf). done.
  - apply same_write_F1s; [rewrite int_tabulate; by left|]. apply (same_weaken (fun l => l = LTemp)); [by right|done].
Qed.

Lemma split_correct x len start v ts σ : splittable x -> ok x -> 0 <= len -> (start + Z.to_nat len <= num_vars)%nat ->
  wf σ -> holds σ x v -> ~ in_range_F1 start (Z.to_nat len) (place x LTemp) ->
  exists σ', compute_split_unsignedint (with_tokens (split_words x len start ++ ts) σ) = Ok (tt, with_tokens ts σ') /\
    split_result start (Z.to_nat len) (fun i => b2z (Z.testbit v (len - 1 - Z.of_nat i))) σ σ'.
Proof.
  intros Hx Hok Hlen Hn Hwf Hv Hdisj. unfold compute_split_unsignedint, split_words. cbn [app]. rewrite step_word.
  set (n := Z.to_nat len) in *. assert (Hplace : exists i, (x = OVar i \/ x = OIn i)).
  { destruct x; try done; eauto. }
  assert (forall (k : loc -> prog unit) ts, (
     (if starts_with "V"%char (word x) then F1_at (atoi1 (word x))
         else if starts_with "I"%char (word x) then
           (if atoi1 (word x) <? 0 then fault else mret (LIO (Z.to_nat (atoi1 (word x)))))
         else fault) ≫= k) (with_tokens ts σ) = k (place x LTemp) (with_tokens ts σ)) as Hin.
  { intros k ts'. destruct Hplace as [i [-> | ->]].
    - cbn [word starts_with Ascii.eqb Bool.eqb place]. change (String "V" (pretty (Z.of_nat i))) with (word (OVar i)).
      rewrite atoi1_var, (run_bind _ _ _ _ _ (run_F1_at (Z.of_nat i) _ ltac:(lia))). by rewrite Nat2Z.id.
    - cbn [word starts_with Ascii.eqb Bool.eqb place atoi1]. rewrite atoi_pretty.
      destruct (Z.ltb_spec (Z.of_nat i) 0); [lia|]. by rewrite Nat2Z.id. }
  rewrite Hin, step_expect, step_word, step_expect, step_expect, step_word, atoi_pretty, atoi1_var.
  exists (write_F1s start (map int (tabulate n (fun i => b2z (Z.testbit v (len - 1 - Z.of_nat i))))) σ).
  split; [|apply written_bits; [done|done|apply same_refl]].
  apply (for_prog_F1s n start _ (fun _ => tt)); [apply int_tabulate|by rewrite (F1_length _ _ _ _ Hwf)|].
  intros i q [Hi ->]%int_tabulate_lookup. rewrite (run_bind _ _ _ _ _ (run_F1_at (Z.of_nat start + Z.of_nat i) _ ltac:(lia))).
  replace (Z.to_nat (Z.of_nat start + Z.of_nat i)) with (start + i)%nat by lia.
  erewrite step_getq.
  2:{ rewrite write_F1s_ne; [by destruct x|]. rewrite length_take, int_tabulate. intros (j & Hj & Heq). apply Hdisj. exists j. split; [lia|done]. }
  rewrite run_setq.
  2:{ cbn. apply lookup_lt_is_Some_2. rewrite length_inserts, (F1_length _ _ _ _ Hwf). lia. }
  subst n. cbn [numref int]. replace (Z.of_nat (Z.to_nat len) - Z.of_nat i - 1) with (len - 1 - Z.of_nat i) by lia.
  by rewrite mpz_tstbit_eq by lia.
Qed.

(** The sign bit, and the bits of the number wrapped to [N] bits below it. *)
Lemma wrapped_bit N v (i : nat) : 0 <= N -> Z.of_nat i < N ->
  Z.testbit (if v <? 0 then v + 2 ^ N else v) (Z.of_nat i) = Z.testbit v (Z.of_nat i).
Proof.
  intros HN Hi. destruct (v <? 0); [|done].
  rewrite <- (Z.mod_pow2_bits_low (v + 2 ^ N) N) by lia. replace (v + 2 ^ N) with (v + 1 * 2 ^ N) by lia.
  rewrite Z_mod_plus_full. apply Z.mod_pow2_bits_low. lia.
Qed.

Lemma sign_bit N v : 1 <= N -> in_s N v -> Z.testbit v (N - 1) = (v <? 0).
Proof.
  intros HN [Hlo Hhi]. rewrite Z.testbit_odd, Z.shiftr_div_pow2 by lia. destruct (Z.ltb_spec v 0).
  - by rewrite <- (Z.div_unique_pos v (2 ^ (N - 1)) (-1) (v + 2 ^ (N - 1))) by lia.
  - by rewrite Z.div_small by lia.
Qed.

Lemma split_le_correct (signed : bool) N x start v ts σ : ok x -> 1 <= N -> (start + Z.to_nat N <= num_vars)%nat ->
  wf σ -> holds σ x v -> (if signed then in_s N v else 0 <= v < 2 ^ N) ->
  exists σ', compute_split_int_le num_vars size_input size_output (with_tokens (split_le_words signed N x start ++ ts) σ) = Ok (tt, with_tokens ts σ') /\
    split_result start (Z.to_nat N) (fun i => b2z (Z.testbit v (Z.of_nat i))) σ σ'.
Proof.
  intros Hok HN Hn Hwf Hv Hr. assert (is_Some (read_loc σ LTemp)) as Htmp by (by eexists).
  unfold compute_split_int_le, split_le_words. cbn [app].
  rewrite step_word, step_expect, step_word, step_expect, step_voc, step_expect, step_word by done.
  rewrite atoi_pretty, atoi1_var. erewrite step_getq by (by apply read_place). cbn zeta. cbn [numref int].
  assert (same_but (fun l => l = LTemp) σ (after x LTemp σ)) as Hs by (by apply same_after).
  pose proof (well_formed_same _ _ _ _ _ _ Hs Hwf) as Hwf'.
  set (n := Z.to_nat N) in *. set (vs := map int (tabulate n (fun i => b2z (Z.testbit v (Z.of_nat i))))).
  exists (write_F1s start vs (after x LTemp σ)). split; [|by apply written_bits].
  rewrite mpz_mul_2exp_eq, Z.mul_1_l by lia. subst n. rewrite Z2Nat.id by lia. set (n := Z.to_nat N) in *.
  set (z := if v <? 0 then v + 2 ^ N else v).
  assert (0 <= z) as Hz.
  { subst z. destruct (Z.ltb_spec v 0); [|done]. destruct signed; [|lia]. destruct Hr.
    pose proof (Z.pow_le_mono_r 2 (N - 1) N). lia. }
  assert (starts_with "u"%char (if signed then "int" else "uint") = negb signed) as -> by (by destruct signed).
  rewrite negb_involutive.
  set (st := fun i => if (i <? n)%nat || negb signed then Z.shiftr z (Z.of_nat i) else Z.shiftr z (N - 1) - b2z (v <? 0)).
  erewrite run_bind; [done|]. change z with (Z.shiftr z (Z.of_nat 0)).
  replace (Z.shiftr z (Z.of_nat 0)) with (st O) by (unfold st; by rewrite (proj2 (Nat.ltb_lt 0 n)) by lia).
  apply (for_prog_F1s n start vs st); [apply int_tabulate|by rewrite (F1_length _ _ _ _ Hwf')|].
  intros i q [Hi ->]%int_tabulate_lookup. rewrite (run_bind _ _ _ _ _ (run_F1_at (Z.of_nat start + Z.of_nat i) _ ltac:(lia))).
  replace (Z.to_nat (Z.of_nat start + Z.of_nat i)) with (start + i)%nat by lia.
  assert (is_Some (read_loc (write_F1s start (take i vs) (after x LTemp σ)) (LF1 (start + i)))) as Hsi.
  { cbn. apply lookup_lt_is_Some_2. rewrite length_inserts, (F1_length _ _ _ _ Hwf'). lia. }
  assert (st i = Z.shiftr z (Z.of_nat i)) as -> by (unfold st; by rewrite (proj2 (Nat.ltb_lt i n))).
  assert (Hbit : forall k, (k < n)%nat -> Z.testbit z (Z.of_nat k) = Z.testbit v (Z.of_nat k)) by (intros; apply wrapped_bit; lia).
  destruct (Nat.eqb_spec i (n - 1)) as [->|Hne]; [destruct signed|]; cbn [andb].
  - rewrite step_setq by done. unfold st at 1. rewrite (proj2 (Nat.ltb_ge (S (n - 1)) n)) by lia. cbn [orb negb].
    replace (Z.of_nat (n - 1)) with (N - 1) by lia. by rewrite sign_bit.
  - destruct (low_bit_shiftr z (n - 1) Hz) as [-> ->]. rewrite step_setq, Hbit by (done || lia).
    unfold st. by rewrite orb_true_r.
  - destruct (low_bit_shiftr z i Hz) as [-> ->]. rewrite step_setq, Hbit by (done || lia).
    unfold st. by rewrite (proj2 (Nat.ltb_lt (S i) n)) by lia.
Qed.

End Gadgets.
