(* ===== verification/Constraints.v ===== *)
(** The constraints that the compiler writes for comparisons and for splits
    ([compiler/backend/zcc_parser.py]), and that they mean what the prover
    computes.

    A constraint [( A ) * ( B ) + ( C )] holds when its value is zero modulo
    the prime.  Completeness: the values the prover leaves satisfy the
    constraints.  Soundness: whatever values satisfy them, the result is
    right, as long as the numbers compared fit the bits allotted. *)
From Stdlib Require Import ZArith Znumtheory Lia Ascii String.
From stdpp Require Import base numbers list strings pretty gmap.
From S2P Require Import Prelude Bits LevelDb GghHash MerkleRam Mpq Prover Worksheet Gadgets.

Local Open Scope Z_scope.

(** ** Constraints *)

(** A name or a number, as an argument of a constraint. *)
Inductive arg : Type := ArgVar (name : string) | ArgConst (z : Z).

(** Sums of multiples. *)
Definition lin : Type := list (Z * arg).

Record constraint : Type := { polyA : lin; polyB : lin; polyC : lin }.

Section Value.
Context (asg : string -> Z).

Definition arg_value (a : arg) : Z := match a with ArgVar s => asg s | ArgConst z => z end.

Fixpoint lin_value (l : lin) : Z :=
  match l with [] => 0 | (c, a) :: l => c * arg_value a + lin_value l end.

Definition constraint_value (c : constraint) : Z := lin_value (polyA c) * lin_value (polyB c) + lin_value (polyC c).

Lemma lin_value_app l1 l2 : lin_value (l1 ++ l2) = lin_value l1 + lin_value l2.
Proof. induction l1 as [|[c a] l1 IH]; cbn; lia. Qed.
End Value.

Definition satisfied (p : Z) (asg : string -> Z) (c : constraint) : bool := constraint_value asg c mod p =? 0.

Definition all_satisfied (p : Z) (asg : string -> Z) (cs : list constraint) : bool := forallb (satisfied p asg) cs.

(** The name of an auxiliary variable of a target. *)
Definition aux (target varName : string) : string := target +:+ String "$" varName.

Definition bit_name (prefix : string) (i : nat) : string := prefix +:+ pretty (Z.of_nat i).

Definition one : arg := ArgConst 1.

Definition less_than_as_basic_constraints_i (na2 : Z) (arg0 arg1 : arg) (target : string) : list constraint :=
  let n := Z.to_nat (na2 - 1) in
  let Ni i := ArgVar (aux target (bit_name "N" i)) in
  let toRet := tabulate n (fun i => {| polyA := [(1, Ni i)]; polyB := [(2 ^ Z.of_nat i, one); (-1, Ni i)]; polyC := [] |}) in
  let diffFromPot := tabulate n (fun i => (-1, Ni i)) ++ [(2 ^ Z.of_nat n, one)] in
  let Mlt := ArgVar (aux target "Mlt") in
  let Meq := ArgVar (aux target "Meq") in
  let Mgt := ArgVar (aux target "Mgt") in
  toRet ++
  [ {| polyA := [(1, Mlt)]; polyB := [(1, Mlt); (-1, one)]; polyC := [] |};
    {| polyA := [(1, Meq)]; polyB := [(1, Meq); (-1, one)]; polyC := [] |};
    {| polyA := [(1, Mgt)]; polyB := [(1, Mgt); (-1, one)]; polyC := [] |};
    {| polyA := []; polyB := []; polyC := [(1, Mlt); (1, Meq); (1, Mgt); (-1, one)] |};
    {| polyA := [(1, Mlt)]; polyB := (1, arg0) :: (-1, arg1) :: diffFromPot; polyC := [] |};
    {| polyA := [(1, Meq)]; polyB := [(1, arg0); (-1, arg1)]; polyC := [] |};
    {| polyA := [(1, Mgt)]; polyB := (1, arg1) :: (-1, arg0) :: diffFromPot; polyC := [] |};
    {| polyA := []; polyB := []; polyC := [(1, Mlt); (-1, ArgVar target)] |} ].

(** [ginger_output]: the target is an output and the framework is GINGER. *)
Definition not_equal_as_basic_constraints (ginger_output : bool) (arg0 arg1 : arg) (target : string) : list constraint :=
  let M := ArgVar (aux target "M") in
  let Y := if ginger_output then ArgVar (aux target "M2") else ArgVar target in
  [ {| polyA := [(1, M)]; polyB := [(1, arg0); (-1, arg1)]; polyC := [(-1, Y)] |};
    {| polyA := [(1, Y)]; polyB := [(1, arg0); (-1, arg1)]; polyC := [(-1, arg0); (1, arg1)] |} ] ++
  (if ginger_output then [ {| polyA := []; polyB := []; polyC := [(1, Y); (-1, ArgVar target)] |} ] else []).

Definition bit_constraint (b : arg) : constraint := {| polyA := [(1, b)]; polyB := [(1, b); (-1, one)]; polyC := [] |}.

Definition split_int_le_as_basic_constraints (signed : bool) (numBits : nat) (toSplit : arg) (prefix : string) (output_start : nat) : list constraint :=
  let bitvar i := ArgVar (bit_name prefix (output_start + i)) in
  let signedPot i := if (i =? numBits - 1)%nat && signed then - 2 ^ Z.of_nat i else 2 ^ Z.of_nat i in
  tabulate numBits (fun i => bit_constraint (bitvar i)) ++
  [ {| polyA := []; polyB := []; polyC := tabulate numBits (fun i => (signedPot i, bitvar i)) ++ [(-1, toSplit)] |} ].

Definition split_unsignedint_as_basic_constraints (numBits : nat) (toSplit : arg) (prefix : string) (output_start : nat) : list constraint :=
  let bitvar i := ArgVar (bit_name prefix (output_start + i)) in
  tabulate numBits (fun i => bit_constraint (bitvar i)) ++
  [ {| polyA := []; polyB := []; polyC := tabulate numBits (fun i => (Z.shiftl 1 (Z.of_nat numBits - 1 - Z.of_nat i), bitvar i)) ++ [(-1, toSplit)] |} ].

(** ** Sums *)

Fixpoint sum_to (n : nat) (f : nat -> Z) : Z := match n with O => 0 | S n => sum_to n f + f n end.

Lemma lin_value_tabulate asg n (c : nat -> Z) (a : nat -> arg) :
  lin_value asg (tabulate n (fun i => (c i, a i))) = sum_to n (fun i => c i * arg_value asg (a i)).
Proof. induction n as [|n IH]; [done|]. rewrite tabulate_S, lin_value_app, IH. cbn. lia. Qed.

Lemma sum_to_ext n f g : (forall i, (i < n)%nat -> f i = g i) -> sum_to n f = sum_to n g.
Proof. induction n as [|n IH]; intros Hfg; [done|]. cbn. rewrite IH, Hfg by auto. done. Qed.

Lemma sum_to_opp n f : sum_to n (fun i => - f i) = - sum_to n f.
Proof. induction n as [|n IH]; cbn; lia. Qed.

Lemma sum_to_rev n f : sum_to n (fun i => f (n - 1 - i)%nat) = sum_to n f.
Proof.
  assert (forall n f, sum_to (S n) f = f O + sum_to n (fun i => f (S i))) as Hfirst.
  { clear. intros n f. induction n as [|n IH]; cbn in *; [lia|]. rewrite IH. lia. }
  revert f. induction n as [|n IH]; intros f; [done|]. rewrite Hfirst. cbn [sum_to].
  rewrite <- (IH f), Z.add_comm. replace (S n - 1 - 0)%nat with n by lia. f_equal. apply sum_to_ext. intros i Hi. f_equal. lia.
Qed.

(** The powers of the bits below [n] add up to the number modulo [2^n]. *)
Lemma sum_bits n z : sum_to n (fun i => b2z (Z.testbit z (Z.of_nat i)) * 2 ^ Z.of_nat i) = z mod 2 ^ Z.of_nat n.
Proof.
  induction n as [|n IH]; [by rewrite Z.mod_1_r|]. cbn [sum_to]. rewrite IH, Nat2Z.inj_succ, Z.pow_succ_r, (Z.mul_comm 2) by lia.
  rewrite Z.rem_mul_r by lia. rewrite Z.testbit_eqb by lia. pose proof (Z.mod_pos_bound (z / 2 ^ Z.of_nat n) 2).
  destruct (Z.eqb_spec ((z / 2 ^ Z.of_nat n) mod 2) 1); cbn; nia.
Qed.

(** Differences of known values. *)
Ltac known := repeat first [assumption | apply Z.divide_0_r | apply Z.divide_sub_r | apply Z.divide_add_r].

(** ** Soundness *)

Section Sound.
Context (p : Z) (Hp : Z.prime p) (asg : string -> Z).

Lemma satisfied_divide c : satisfied p asg c = true <-> (p | constraint_value asg c).
Proof. unfold satisfied. rewrite Z.eqb_eq. apply Z.mod_divide. pose proof (Z.prime_ge_2 p Hp). lia. Qed.

Lemma all_app cs1 cs2 : all_satisfied p asg (cs1 ++ cs2) = true <-> all_satisfied p asg cs1 = true /\ all_satisfied p asg cs2 = true.
Proof. unfold all_satisfied. by rewrite forallb_app, andb_true_iff. Qed.

Lemma all_tabulate n f : all_satisfied p asg (tabulate n f) = true <-> forall i, (i < n)%nat -> (p | constraint_value asg (f i)).
Proof.
  unfold all_satisfied. rewrite forallb_forall. unfold tabulate. split.
  - intros Hall i Hi. apply satisfied_divide, Hall, in_map_iff. exists i. split; [done|]. apply in_seq. lia.
  - intros Hall c (i & <- & Hi%in_seq)%in_map_iff. apply satisfied_divide, Hall. lia.
Qed.

Lemma all_cons c cs : all_satisfied p asg (c :: cs) = true <-> (p | constraint_value asg c) /\ all_satisfied p asg cs = true.
Proof. unfold all_satisfied. cbn. by rewrite andb_true_iff, satisfied_divide. Qed.

(** Representatives closer than [p]. *)
Lemma divide_zero z : (p | z) -> - p < z < p -> z = 0.
Proof. intros [k ->] Hz. pose proof (Z.prime_ge_2 p Hp). assert (k = 0) by nia. lia. Qed.

Lemma mod_of_divide a b : 0 <= b < p -> (p | a - b) -> a mod p = b.
Proof.
  intros Hb [k Hk]. replace a with (b + k * p) by lia. rewrite Z_mod_plus_full. by apply Z.mod_small.
Qed.

Lemma bit_sound b : (p | b * (b - 1)) -> (p | b - b2z false) \/ (p | b - b2z true).
Proof. intros [?|?]%(Z.divide_prime_mul _ _ p Hp); [left|by right]. by rewrite Z.sub_0_r. Qed.

Lemma testbit_add_high n s b (i : nat) : 0 <= s < 2 ^ Z.of_nat n -> (i <= n)%nat ->
  Z.testbit (s + b2z b * 2 ^ Z.of_nat n) (Z.of_nat i) = if (i =? n)%nat then b else Z.testbit s (Z.of_nat i).
Proof.
  intros Hs Hi. destruct (Nat.eqb_spec i n) as [->|Hne].
  - rewrite Z.testbit_odd, Z.shiftr_div_pow2, Z.div_add, Z.div_small by lia. by destruct b.
  - rewrite <- (Z.mod_pow2_bits_low (s + _) (Z.of_nat n)) by lia. by rewrite Z_mod_plus_full, Z.mod_small.
Qed.

Lemma sum_divide n f g : (forall i, (i < n)%nat -> (p | f i - g i)) -> (p | sum_to n f - sum_to n g).
Proof.
  induction n as [|n IH]; intros Hfg; [apply Z.divide_0_r|]. cbn [sum_to].
  replace (_ - _) with ((sum_to n f - sum_to n g) + (f n - g n)) by lia. apply Z.divide_add_r; auto.
Qed.

(** Values that are each nothing or a given weight. *)
Lemma choose_bits n (f c : nat -> Z) : (forall i, (i < n)%nat -> exists b, (p | f i - b2z b * c i)) ->
  exists s, 0 <= s < 2 ^ Z.of_nat n /\ forall i, (i < n)%nat -> (p | f i - b2z (Z.testbit s (Z.of_nat i)) * c i).
Proof.
  induction n as [|n IH]; intros Hf.
  - exists 0. split; [cbn; lia|]. lia.
  - destruct IH as (s & Hs & Hbits); [auto|]. destruct (Hf n ltac:(lia)) as [b Hb].
    exists (s + b2z b * 2 ^ Z.of_nat n). rewrite Nat2Z.inj_succ, Z.pow_succ_r by lia.
    split; [destruct b; cbn; lia|].
    intros i Hi. rewrite testbit_add_high by (done || lia). destruct (Nat.eqb_spec i n) as [->|Hne]; [done|]. apply Hbits. lia.
Qed.

(** Values that are each nothing or a power of two. *)
Lemma powers_sound n (f : nat -> Z) :
  (forall i, (i < n)%nat -> (p | f i * (2 ^ Z.of_nat i - f i))) ->
  exists s, 0 <= s < 2 ^ Z.of_nat n /\ (p | sum_to n f - s).
Proof.
  intros Hf. destruct (choose_bits n f (fun i => 2 ^ Z.of_nat i)) as (s & Hs & Hbits).
  - intros i Hi. destruct (proj1 (Z.divide_prime_mul _ _ p Hp) (Hf i Hi)) as [Hd|Hd].
    + exists false. replace (f i - b2z false * 2 ^ Z.of_nat i) with (f i) by (cbn; lia). done.
    + exists true. replace (f i - b2z true * 2 ^ Z.of_nat i) with (- (2 ^ Z.of_nat i - f i)) by (cbn; lia). by apply Z.divide_opp_r.
  - exists s. split; [done|]. pose proof (sum_divide _ _ _ Hbits) as HS. by rewrite sum_bits, Z.mod_small in HS.
Qed.

(** Values that are each 0 or 1, with their weighted sum. *)
Lemma bits_sound n (b : nat -> Z) : (forall i, (i < n)%nat -> (p | b i * (b i - 1))) ->
  exists s, 0 <= s < 2 ^ Z.of_nat n /\ (p | sum_to n (fun i => 2 ^ Z.of_nat i * b i) - s) /\
    forall i, (i < n)%nat -> (p | b i - b2z (Z.testbit s (Z.of_nat i))).
Proof.
  intros Hb. destruct (choose_bits n b (fun _ => 1)) as (s & Hs & Hbits).
  - intros i Hi. destruct (bit_sound _ (Hb i Hi)) as [Hd|Hd]; [exists false|exists true]; by rewrite Z.mul_1_r.
  - exists s. split; [done|]. assert (forall i, (i < n)%nat -> (p | b i - b2z (Z.testbit s (Z.of_nat i)))) as Hbits'.
    { intros i Hi. specialize (Hbits i Hi). by rewrite Z.mul_1_r in Hbits. }
    split; [|done]. rewrite <- (Z.mod_small s (2 ^ Z.of_nat n)), <- sum_bits by done. apply sum_divide. intros i Hi.
    replace (_ - _) with (2 ^ Z.of_nat i * (b i - b2z (Z.testbit s (Z.of_nat i)))) by lia. by apply Z.divide_mul_r, Hbits'.
Qed.

(** The flag that is set tells the order. *)
Lemma flags_sound lt eq gt : 3 < p -> (p | lt * (lt - 1)) -> (p | eq * (eq - 1)) -> (p | gt * (gt - 1)) -> (p | lt + eq + gt - 1) ->
  (p | lt - 1) \/ (p | lt) /\ ((p | eq - 1) \/ (p | gt - 1)).
Proof.
  intros Hp3 Hlt Heq Hgt Hsum. destruct (bit_sound lt Hlt) as [Hl|Hl]; [right|by left].
  cbn in Hl. rewrite Z.sub_0_r in Hl. split; [done|]. destruct (bit_sound eq Heq) as [He|He]; [right|by left].
  cbn in He. rewrite Z.sub_0_r in He. replace (gt - 1) with ((lt + eq + gt - 1) - (lt + eq)) by lia.
  apply Z.divide_sub_r; [done|]. by apply Z.divide_add_r.
Qed.

(** [x] and [y] stand for [v] and [w] in the field; [u - 1] and [u * z] vanish, so [z] does. *)
Lemma unit_divide u z : (p | u - 1) -> (p | u * z) -> (p | z).
Proof.
  intros Hu Huz. replace z with (u * z - (u - 1) * z) by lia. apply Z.divide_sub_r; [done|]. by apply Z.divide_mul_l.
Qed.

Lemma divide_eq a b : a = b -> (p | a) <-> (p | b).
Proof. by intros ->. Qed.

(** A hypothesis says that [p] divides the same number. *)
Ltac same_value :=
  match goal with
  | |- (_ | ?a) => match goal with H : (_ | ?b) |- _ => replace a with b by lia; exact H end
  end.

(** What the constraints of a comparison say. *)
Lemma less_than_facts na2 arg0 arg1 target : let n := Z.to_nat (na2 - 1) in
  let Ni i := asg (aux target (bit_name "N" i)) in
  let lt := asg (aux target "Mlt") in let eq := asg (aux target "Meq") in let gt := asg (aux target "Mgt") in
  let x0 := arg_value asg arg0 in let x1 := arg_value asg arg1 in
  all_satisfied p asg (less_than_as_basic_constraints_i na2 arg0 arg1 target) = true <->
  (forall i, (i < n)%nat -> (p | Ni i * (2 ^ Z.of_nat i - Ni i))) /\
  (p | lt * (lt - 1)) /\ (p | eq * (eq - 1)) /\ (p | gt * (gt - 1)) /\ (p | lt + eq + gt - 1) /\
  (p | lt * (x0 - x1 - sum_to n Ni + 2 ^ Z.of_nat n)) /\ (p | eq * (x0 - x1)) /\
  (p | gt * (x1 - x0 - sum_to n Ni + 2 ^ Z.of_nat n)) /\ (p | lt - asg target).
Proof.
  cbn zeta. unfold less_than_as_basic_constraints_i. set (n := Z.to_nat (na2 - 1)).
  rewrite all_app, all_tabulate, !all_cons. unfold constraint_value. cbn [polyA polyB polyC lin_value].
  rewrite lin_value_app, (lin_value_tabulate _ _ (fun _ => -1)). cbn [lin_value arg_value one].
  rewrite (sum_to_ext n _ (fun i => - asg (aux target (bit_name "N" i)))) by (intros; cbn; lia). rewrite sum_to_opp.
  split.
  - intros (Hbits & Hlt & Heq & Hgt & Hsum & Hclt & Hceq & Hcgt & Hy & _).
    split; [intros i Hi; specialize (Hbits i Hi); revert Hbits; apply divide_eq; lia|].
    repeat split; first [done | same_value].
  - intros (Hbits & Hlt & Heq & Hgt & Hsum & Hclt & Hceq & Hcgt & Hy).
    split; [intros i Hi; specialize (Hbits i Hi); revert Hbits; apply divide_eq; lia|].
    repeat split; first [done | same_value].
Qed.

Lemma less_than_sound_lemma na2 arg0 arg1 target v0 v1 : 1 <= na2 -> 2 ^ na2 < p -> 3 < p -> Z.abs (v0 - v1) <= 2 ^ (na2 - 1) ->
  (p | arg_value asg arg0 - v0) -> (p | arg_value asg arg1 - v1) ->
  all_satisfied p asg (less_than_as_basic_constraints_i na2 arg0 arg1 target) = true ->
  asg target mod p = b2z (v0 <? v1).
Proof.
  intros HN Hbig Hp3 Hd Hv0 Hv1 (Hbits & Hlt & Heq & Hgt & Hsum & Hclt & Hceq & Hcgt & Hy)%less_than_facts.
  set (n := Z.to_nat (na2 - 1)) in *. destruct (powers_sound n _ Hbits) as (s & Hs & Hss).
  set (S := sum_to n _) in *. set (lt := asg (aux target "Mlt")) in *. set (x0 := arg_value asg arg0) in *. set (x1 := arg_value asg arg1) in *.
  assert (2 ^ na2 = 2 * 2 ^ (na2 - 1)) as Hpow by (rewrite <- Z.pow_succ_r by lia; f_equal; lia).
  replace (2 ^ Z.of_nat n) with (2 ^ (na2 - 1)) in * by (f_equal; lia).
  assert (forall a b w z, (p | a - w) -> (p | b - z) -> Z.abs (w - z) <= 2 ^ (na2 - 1) -> (p | a - b - S + 2 ^ (na2 - 1)) -> w < z) as Hcase.
  { intros a b w z Ha Hb Hwz Hdiv. enough (w - z + 2 ^ (na2 - 1) - s = 0) by lia. apply divide_zero; [|lia].
    replace (w - z + 2 ^ (na2 - 1) - s) with ((a - b - S + 2 ^ (na2 - 1)) - (a - w) + (b - z) + (S - s)) by lia.
    repeat first [assumption | apply Z.divide_sub_r | apply Z.divide_add_r]. }
  assert (forall b, 0 <= b < p -> (p | lt - b) -> asg target mod p = b) as Htarget.
  { intros b Hb Hlb. apply mod_of_divide; [done|]. replace (asg target - b) with ((lt - b) - (lt - asg target)) by lia. by apply Z.divide_sub_r. }
  destruct (flags_sound _ _ _ Hp3 Hlt Heq Hgt Hsum) as [Hl|[Hl [He|Hg]]].
  - rewrite (proj2 (Z.ltb_lt v0 v1)); [by apply Htarget; [cbn; lia|]|]. apply (Hcase x0 x1); try done. by apply (unit_divide lt).
  - rewrite (proj2 (Z.ltb_ge v0 v1)); [apply Htarget; [cbn; lia|]; cbn; by rewrite Z.sub_0_r|].
    enough (v0 - v1 = 0) by lia. apply divide_zero; [|lia].
    replace (v0 - v1) with ((x0 - x1) - (x0 - v0) + (x1 - v1)) by lia.
    apply Z.divide_add_r; [apply Z.divide_sub_r|]; try done. by apply (unit_divide _ _ He).
  - rewrite (proj2 (Z.ltb_ge v0 v1)); [apply Htarget; [cbn; lia|]; cbn; by rewrite Z.sub_0_r|].
    apply Z.lt_le_incl, (Hcase x1 x0); try done; [lia|]. by apply (unit_divide _ _ Hg).
Qed.

Lemma divide_cong a a' b b' : (p | a - a') -> (p | b - b') -> (p | a * b - a' * b').
Proof.
  intros Ha Hb. replace (a * b - a' * b') with ((a - a') * b + a' * (b - b')) by ring.
  apply Z.divide_add_r; [by apply Z.divide_mul_l|by apply Z.divide_mul_r].
Qed.

(** A value known up to [p]. *)
Lemma divide_by a b : (p | a - b) -> b = 0 -> (p | a).
Proof. intros Hab ->. by rewrite Z.sub_0_r in Hab. Qed.

Lemma divide_prod a a' b b' : (p | a - a') -> (p | b - b') -> a' * b' = 0 -> (p | a * b).
Proof. intros Ha Hb. apply divide_by. by apply divide_cong. Qed.

Lemma less_than_complete_lemma na2 arg0 arg1 target v0 v1 : 1 <= na2 -> Z.abs (v0 - v1) <= 2 ^ (na2 - 1) ->
  (p | arg_value asg arg0 - v0) -> (p | arg_value asg arg1 - v1) ->
  (p | asg (aux target "Mlt") - b2z (v0 <? v1)) -> (p | asg (aux target "Meq") - b2z (v0 =? v1)) ->
  (p | asg (aux target "Mgt") - b2z (v1 <? v0)) -> (p | asg target - b2z (v0 <? v1)) ->
  (forall i, (i < Z.to_nat (na2 - 1))%nat ->
    (p | asg (aux target (bit_name "N" i)) - b2z (Z.testbit (2 ^ (na2 - 1) - Z.abs (v0 - v1)) (Z.of_nat i)) * 2 ^ Z.of_nat i)) ->
  all_satisfied p asg (less_than_as_basic_constraints_i na2 arg0 arg1 target) = true.
Proof.
  intros HN Hd Hx0 Hx1 Hlt Heq Hgt Hy Hbits. apply less_than_facts. set (n := Z.to_nat (na2 - 1)) in *.
  pose proof (sum_divide _ _ _ Hbits) as HS. rewrite sum_bits in HS. replace (2 ^ Z.of_nat n) with (2 ^ (na2 - 1)) in * by (f_equal; lia).
  set (x0 := arg_value asg arg0) in *. set (x1 := arg_value asg arg1) in *. set (S := sum_to n _) in *.
  set (lt := asg (aux target "Mlt")) in *. set (eq := asg (aux target "Meq")) in *. set (gt := asg (aux target "Mgt")) in *.
  assert (1 <= 2 ^ (na2 - 1)) as Hpos by (pose proof (Z.pow_pos_nonneg 2 (na2 - 1)); lia).
  set (m := (2 ^ (na2 - 1) - Z.abs (v0 - v1)) mod 2 ^ (na2 - 1)) in *.
  assert (v0 <> v1 -> m = 2 ^ (na2 - 1) - Z.abs (v0 - v1)) as Hm by (intros; apply Z.mod_small; lia).
  split; [|repeat split].
  - intros i Hi. eapply divide_prod; [by apply Hbits| |].
    + replace (2 ^ Z.of_nat i - asg _ - (2 ^ Z.of_nat i - b2z (Z.testbit (2 ^ (na2 - 1) - Z.abs (v0 - v1)) (Z.of_nat i)) * 2 ^ Z.of_nat i))
        with (- (asg (aux target (bit_name "N" i)) - b2z (Z.testbit (2 ^ (na2 - 1) - Z.abs (v0 - v1)) (Z.of_nat i)) * 2 ^ Z.of_nat i)) by lia.
      apply Z.divide_opp_r. by apply Hbits.
    + destruct (Z.testbit _ _); cbn; ring.
  - apply (divide_prod _ _ _ (b2z (v0 <? v1) - 1) Hlt); [|by destruct (v0 <? v1)]. by replace (lt - 1 - _) with (lt - b2z (v0 <? v1)) by lia.
  - apply (divide_prod _ _ _ (b2z (v0 =? v1) - 1) Heq); [|by destruct (v0 =? v1)]. by replace (eq - 1 - _) with (eq - b2z (v0 =? v1)) by lia.
  - apply (divide_prod _ _ _ (b2z (v1 <? v0) - 1) Hgt); [|by destruct (v1 <? v0)]. by replace (gt - 1 - _) with (gt - b2z (v1 <? v0)) by lia.
  - replace (lt + eq + gt - 1) with ((lt - b2z (v0 <? v1)) + (eq - b2z (v0 =? v1)) + (gt - b2z (v1 <? v0))); [known|].
    unfold b2z. destruct (Z.ltb_spec v0 v1), (Z.eqb_spec v0 v1), (Z.ltb_spec v1 v0); lia.
  - apply (divide_prod _ _ _ (v0 - v1 - m + 2 ^ (na2 - 1)) Hlt).
    + replace (_ - _) with ((x0 - v0) - (x1 - v1) - (S - m)) by lia. known.
    + destruct (Z.ltb_spec v0 v1); cbn; [rewrite Hm by lia; lia|done].
  - apply (divide_prod _ _ _ (v0 - v1) Heq).
    + replace (_ - _) with ((x0 - v0) - (x1 - v1)) by lia. known.
    + destruct (Z.eqb_spec v0 v1); cbn; lia.
  - apply (divide_prod _ _ _ (v1 - v0 - m + 2 ^ (na2 - 1)) Hgt).
    + replace (_ - _) with ((x1 - v1) - (x0 - v0) - (S - m)) by lia. known.
    + destruct (Z.ltb_spec v1 v0); cbn; [rewrite Hm by lia; lia|done].
  - replace (lt - asg target) with ((lt - b2z (v0 <? v1)) - (asg target - b2z (v0 <? v1))) by lia. known.
Qed.

(** *** [!=] *)

Lemma not_equal_facts ginger arg0 arg1 target :
  let M := asg (aux target "M") in let Y := asg (if ginger : bool then aux target "M2" else target) in
  let x0 := arg_value asg arg0 in let x1 := arg_value asg arg1 in
  all_satisfied p asg (not_equal_as_basic_constraints ginger arg0 arg1 target) = true <->
  (p | M * (x0 - x1) - Y) /\ (p | (Y - 1) * (x0 - x1)) /\ (p | Y - asg target).
Proof.
  cbn zeta. unfold not_equal_as_basic_constraints. destruct ginger; cbn [app]; rewrite !all_cons;
    unfold constraint_value; cbn [polyA polyB polyC lin_value arg_value one].
  - split.
    + intros (HA & HB & HC & _). repeat split; same_value.
    + intros (HA & HB & HC). repeat split; first [done | same_value].
  - split.
    + intros (HA & HB & _). repeat split; try same_value. by rewrite Z.sub_diag; apply Z.divide_0_r.
    + intros (HA & HB & HC). repeat split; first [done | same_value].
Qed.

Lemma not_equal_sound_lemma ginger arg0 arg1 target :
  all_satisfied p asg (not_equal_as_basic_constraints ginger arg0 arg1 target) = true ->
  asg target mod p = b2z (negb (arg_value asg arg0 mod p =? arg_value asg arg1 mod p)).
Proof.
  intros (HA & HB & HC)%not_equal_facts. set (x0 := arg_value asg arg0) in *. set (x1 := arg_value asg arg1) in *.
  set (Y := asg (if ginger then _ else _)) in *. pose proof (Z.prime_ge_2 p Hp).
  apply mod_of_divide; [destruct (_ =? _); cbn; lia|].
  replace (asg target - _) with ((Y - b2z (negb (x0 mod p =? x1 mod p))) - (Y - asg target)) by lia. apply Z.divide_sub_r; [|done].
  destruct (Z.eqb_spec (x0 mod p) (x1 mod p)) as [Heq|Hne]; cbn.
  - assert (p | x0 - x1) as Hx.
    { apply Z.mod_divide; [lia|]. by rewrite Zminus_mod, Heq, Z.sub_diag. }
    rewrite Z.sub_0_r. replace Y with (asg (aux target "M") * (x0 - x1) - (asg (aux target "M") * (x0 - x1) - Y)) by lia.
    apply Z.divide_sub_r; [by apply Z.divide_mul_r|done].
  - destruct (proj1 (Z.divide_prime_mul _ _ p Hp) HB) as [Hd|[k Hk]]; [done|]. destruct Hne.
    replace x0 with (x1 + k * p) by lia. apply Z_mod_plus_full.
Qed.

Lemma not_equal_complete_lemma arg0 arg1 target v0 v1 inv :
  (p | arg_value asg arg0 - v0) -> (p | arg_value asg arg1 - v1) ->
  (v0 <> v1 -> (p | (v0 - v1) * inv - 1)) ->
  (p | asg (aux target "M") - (if v0 =? v1 then 0 else inv)) -> (p | asg target - b2z (negb (v0 =? v1))) ->
  all_satisfied p asg (not_equal_as_basic_constraints false arg0 arg1 target) = true.
Proof.
  intros Hx0 Hx1 Hinv HM HY. apply not_equal_facts. set (x0 := arg_value asg arg0) in *. set (x1 := arg_value asg arg1) in *.
  assert (p | (x0 - x1) - (v0 - v1)) as Hd.
  { replace (_ - _) with ((x0 - v0) - (x1 - v1)) by lia. by apply Z.divide_sub_r. }
  split; [|split; [|rewrite Z.sub_diag; apply Z.divide_0_r]].
  - pose proof (divide_cong _ _ _ _ HM Hd) as Hmul. destruct (Z.eqb_spec v0 v1) as [Heq|Hne]; cbn in HY.
    + replace (asg (aux target "M") * (x0 - x1) - asg target)
        with ((asg (aux target "M") * (x0 - x1) - 0 * (v0 - v1)) - (asg target - 0)) by lia. by apply Z.divide_sub_r.
    + replace (asg (aux target "M") * (x0 - x1) - asg target)
        with ((asg (aux target "M") * (x0 - x1) - inv * (v0 - v1)) - (asg target - 1) + ((v0 - v1) * inv - 1)) by lia.
      apply Z.divide_add_r; [by apply Z.divide_sub_r|by apply Hinv].
  - apply (divide_prod _ (b2z (negb (v0 =? v1)) - 1) _ (v0 - v1)); [|done|].
    + by replace (asg target - 1 - _) with (asg target - b2z (negb (v0 =? v1))) by lia.
    + destruct (Z.eqb_spec v0 v1); cbn; lia.
Qed.

(** *** Splits *)

Lemma bit_constraints n (name : nat -> string) :
  all_satisfied p asg (tabulate n (fun i => bit_constraint (ArgVar (name i)))) = true <->
  forall i, (i < n)%nat -> (p | asg (name i) * (asg (name i) - 1)).
Proof.
  rewrite all_tabulate. unfold constraint_value, bit_constraint. cbn [polyA polyB polyC lin_value arg_value one].
  split; intros Hb i Hi; specialize (Hb i Hi); revert Hb; apply divide_eq; lia.
Qed.

Lemma split_sum n (c : nat -> Z) (name : nat -> string) x :
  constraint_value asg {| polyA := []; polyB := []; polyC := tabulate n (fun i => (c i, ArgVar (name i))) ++ [(-1, x)] |}
  = sum_to n (fun i => c i * asg (name i)) - arg_value asg x.
Proof. unfold constraint_value. cbn. rewrite lin_value_app, lin_value_tabulate. cbn. lia. Qed.

(** The weight of the sign bit is negative. *)
Lemma signed_sum n (b : nat -> Z) : (0 < n)%nat ->
  sum_to n (fun i => (if (i =? n - 1)%nat && true then - 2 ^ Z.of_nat i else 2 ^ Z.of_nat i) * b i)
  = sum_to n (fun i => 2 ^ Z.of_nat i * b i) - 2 ^ Z.of_nat n * b (n - 1)%nat.
Proof.
  intros Hn. destruct n as [|n]; [lia|]. cbn [sum_to]. replace (S n - 1)%nat with n by lia. rewrite Nat.eqb_refl. cbn [andb].
  rewrite (sum_to_ext n _ (fun i => 2 ^ Z.of_nat i * b i)).
  - rewrite Nat2Z.inj_succ, Z.pow_succ_r by lia. lia.
  - intros i Hi. by rewrite (proj2 (Nat.eqb_neq i n)) by lia.
Qed.

Lemma split_le_facts signed n x prefix start : let b i := asg (bit_name prefix (start + i)) in
  (signed = true -> (0 < n)%nat) ->
  all_satisfied p asg (split_int_le_as_basic_constraints signed n x prefix start) = true <->
  (forall i, (i < n)%nat -> (p | b i * (b i - 1))) /\
  (p | sum_to n (fun i => 2 ^ Z.of_nat i * b i) - (if signed then 2 ^ Z.of_nat n * b (n - 1)%nat else 0) - arg_value asg x).
Proof.
  cbn zeta. intros Hn. unfold split_int_le_as_basic_constraints. rewrite all_app, all_cons.
  rewrite (bit_constraints n (fun i => bit_name prefix (start + i))).
  rewrite (split_sum n _ (fun i => bit_name prefix (start + i))).
  assert (sum_to n (fun i => (if (i =? n - 1)%nat && signed then - 2 ^ Z.of_nat i else 2 ^ Z.of_nat i) * asg (bit_name prefix (start + i)))
    = sum_to n (fun i => 2 ^ Z.of_nat i * asg (bit_name prefix (start + i)))
      - (if signed then 2 ^ Z.of_nat n * asg (bit_name prefix (start + (n - 1))) else 0)) as ->; [|tauto].
  destruct signed; [by apply (signed_sum n (fun i => asg (bit_name prefix (start + i)))), Hn|].
  rewrite Z.sub_0_r. apply sum_to_ext. intros i _. by rewrite andb_false_r.
Qed.

Lemma split_facts n x prefix start : let b i := asg (bit_name prefix (start + i)) in
  all_satisfied p asg (split_unsignedint_as_basic_constraints n x prefix start) = true <->
  (forall i, (i < n)%nat -> (p | b i * (b i - 1))) /\
  (p | sum_to n (fun i => 2 ^ Z.of_nat i * b (n - 1 - i)%nat) - arg_value asg x).
Proof.
  cbn zeta. unfold split_unsignedint_as_basic_constraints. rewrite all_app, all_cons.
  rewrite (bit_constraints n (fun i => bit_name prefix (start + i))).
  rewrite (split_sum n _ (fun i => bit_name prefix (start + i))).
  rewrite <- (sum_to_rev n (fun i => Z.shiftl 1 _ * _)).
  rewrite (sum_to_ext n _ (fun i => 2 ^ Z.of_nat i * asg (bit_name prefix (start + (n - 1 - i))))); [tauto|].
  intros i Hi. rewrite Z.shiftl_mul_pow2, Z.mul_1_l by lia. do 2 f_equal. lia.
Qed.

(** The number below [2^n] that the bits make is the one split. *)
Lemma unsigned_sound n (b : nat -> Z) x v : (forall i, (i < n)%nat -> (p | b i * (b i - 1))) ->
  (p | sum_to n (fun i => 2 ^ Z.of_nat i * b i) - x) -> (p | x - v) -> 0 <= v < 2 ^ Z.of_nat n -> 2 ^ Z.of_nat n <= p ->
  forall i, (i < n)%nat -> (p | b i - b2z (Z.testbit v (Z.of_nat i))).
Proof.
  intros Hb Hsum Hx Hv Hbig. destruct (bits_sound n b Hb) as (s & Hs & HS & Hbits).
  replace v with s; [done|]. enough (s - v = 0) by lia. apply divide_zero; [|lia].
  replace (s - v) with ((sum_to n (fun i => 2 ^ Z.of_nat i * b i) - x) + (x - v) - (sum_to n (fun i => 2 ^ Z.of_nat i * b i) - s)) by lia.
  known.
Qed.

Lemma signed_sound n (b : nat -> Z) x v : (0 < n)%nat -> (forall i, (i < n)%nat -> (p | b i * (b i - 1))) ->
  (p | sum_to n (fun i => 2 ^ Z.of_nat i * b i) - 2 ^ Z.of_nat n * b (n - 1)%nat - x) -> (p | x - v) ->
  in_s (Z.of_nat n) v -> 2 ^ Z.of_nat n <= p ->
  forall i, (i < n)%nat -> (p | b i - b2z (Z.testbit v (Z.of_nat i))).
Proof.
  intros Hn Hb Hsum Hx [Hlo Hhi] Hbig. destruct (bits_sound n b Hb) as (s & Hs & HS & Hbits).
  set (t := Z.testbit s (Z.of_nat (n - 1))). pose proof (Hbits (n - 1)%nat ltac:(lia)) as Ht. fold t in Ht.
  assert (2 ^ Z.of_nat n = 2 * 2 ^ (Z.of_nat n - 1)) as Hpow by (rewrite <- Z.pow_succ_r by lia; f_equal; lia).
  assert (- 2 ^ (Z.of_nat n - 1) <= s - 2 ^ Z.of_nat n * b2z t < 2 ^ (Z.of_nat n - 1)) as Hrange.
  { subst t. rewrite Nat2Z.inj_sub, Z.testbit_odd, Z.shiftr_div_pow2 by lia. change (Z.of_nat 1) with 1.
    destruct (Z.lt_ge_cases s (2 ^ (Z.of_nat n - 1))).
    - rewrite Z.div_small by lia. cbn. lia.
    - rewrite <- (Z.div_unique_pos s (2 ^ (Z.of_nat n - 1)) 1 (s - 2 ^ (Z.of_nat n - 1))) by lia. cbn. lia. }
  assert (s - 2 ^ Z.of_nat n * b2z t - v = 0) as Heq.
  { apply divide_zero; [|lia].
    replace (_ - v) with ((sum_to n (fun i => 2 ^ Z.of_nat i * b i) - 2 ^ Z.of_nat n * b (n - 1)%nat - x) + (x - v)
      - (sum_to n (fun i => 2 ^ Z.of_nat i * b i) - s) + 2 ^ Z.of_nat n * (b (n - 1)%nat - b2z t)) by lia.
    apply Z.divide_add_r; [known|by apply Z.divide_mul_r]. }
  intros i Hi. replace v with (s + (- b2z t) * 2 ^ Z.of_nat n) by lia.
  rewrite <- (Z.mod_pow2_bits_low (s + _) (Z.of_nat n)), Z_mod_plus_full, Z.mod_small by lia. by apply Hbits.
Qed.

(** The bits of a number add up to it. *)
Lemma bits_sum n (b : nat -> Z) v : (forall i, (i < n)%nat -> (p | b i - b2z (Z.testbit v (Z.of_nat i)))) ->
  (p | sum_to n (fun i => 2 ^ Z.of_nat i * b i) - v mod 2 ^ Z.of_nat n).
Proof.
  intros Hb. rewrite <- sum_bits. apply sum_divide. intros i Hi.
  replace (_ - _) with (2 ^ Z.of_nat i * (b i - b2z (Z.testbit v (Z.of_nat i)))) by lia. by apply Z.divide_mul_r, Hb.
Qed.

Lemma bits_boolean n (b : nat -> Z) (t : nat -> bool) : (forall i, (i < n)%nat -> (p | b i - b2z (t i))) ->
  forall i, (i < n)%nat -> (p | b i * (b i - 1)).
Proof.
  intros Hb i Hi. apply (divide_prod _ (b2z (t i)) _ (b2z (t i) - 1)); [by apply Hb| |by destruct (t i)].
  replace (_ - _) with (b i - b2z (t i)) by lia. by apply Hb.
Qed.

End Sound.

(** ** What satisfied constraints say *)

Section Meaning.
Context (prime : Z) (Hprime : Z.prime prime).

(** C11: Values that satisfy the constraints of a comparison hold 1 in the
    target when the first number is less and 0 otherwise: a prover cannot
    pass another result, as long as the numbers' difference fits the bits
    allotted and the prime exceeds twice that range. *)
Theorem less_than_sound asg N arg0 arg1 target v0 v1 : 1 <= N -> 2 ^ N < prime -> 3 < prime -> Z.abs (v0 - v1) <= 2 ^ (N - 1) ->
  arg_value asg arg0 mod prime = v0 mod prime -> arg_value asg arg1 mod prime = v1 mod prime ->
  all_satisfied prime asg (less_than_as_basic_constraints_i N arg0 arg1 target) = true ->
  asg target mod prime = b2z (v0 <? v1).
Proof.
  intros HN Hbig H3 Hd Hv0 Hv1. pose proof (Z.prime_ge_2 prime Hprime).
  assert (forall x v, x mod prime = v mod prime -> (prime | x - v)) as Hdiv.
  { intros x v Hxv. apply Z.mod_divide; [lia|]. by rewrite Zminus_mod, Hxv, Z.sub_diag. }
  apply less_than_sound_lemma; auto.
Qed.

(** Values that satisfy the constraints of an inequality hold 1 in the
    target when the two arguments differ modulo the prime and 0 otherwise. *)
Theorem not_equal_sound asg ginger_output arg0 arg1 target :
  all_satisfied prime asg (not_equal_as_basic_constraints ginger_output arg0 arg1 target) = true ->
  asg target mod prime = b2z (negb (arg_value asg arg0 mod prime =? arg_value asg arg1 mod prime)).
Proof. by apply not_equal_sound_lemma. Qed.

End Meaning.

Lemma prime_17 : Z.prime 17.
Proof.
  split; [lia|]. intros n Hn [k Hk].
  assert (n = 2 \/ n = 3 \/ n = 4 \/ n = 5 \/ n = 6 \/ n = 7 \/ n = 8 \/ 9 <= n) as Hcases by lia.
  destruct Hcases as [->|[->|[->|[->|[->|[->|[->|Hbig]]]]]]]; try lia. assert (k < 2) by nia. assert (0 < k) by nia. assert (k = 1) by lia. lia.
Qed.

Definition less_values (s : string) : Z :=
  if String.eqb s "t" then 1
  else if String.eqb s "t$Mlt" then 1
  else if String.eqb s "t$N1" then 2
  else if String.eqb s "a" then 5
  else 0.

Lemma less_than_sound_witness :
  all_satisfied 17 less_values (less_than_as_basic_constraints_i 3 (ArgVar "a") (ArgConst 7) "t") = true /\
  less_values "t" mod 17 = b2z (5 <? 7).
Proof.
  split; [reflexivity|].
  apply (less_than_sound 17 prime_17 less_values 3 (ArgVar "a") (ArgConst 7) "t" 5 7); first [reflexivity|cbn; lia].
Defined.

Definition not_equal_values (s : string) : Z :=
  if String.eqb s "t" then 18
  else if String.eqb s "t$M" then 9
  else if String.eqb s "a" then 5
  else if String.eqb s "b" then 3
  else 0.

Lemma not_equal_sound_witness :
  all_satisfied 17 not_equal_values (not_equal_as_basic_constraints false (ArgVar "a") (ArgVar "b") "t") = true /\
  not_equal_values "t" mod 17 = 1.
Proof.
  split; [reflexivity|]. apply (not_equal_sound 17 prime_17 not_equal_values false (ArgVar "a") (ArgVar "b") "t"). reflexivity.
Defined.
