(* ===== verification/ProverProps.v ===== *)
(** What the prover's statements establish: the value of a polynomial, and the
    constraints of the compiler for comparisons and splits. *)
From Stdlib Require Import ZArith Lia Ascii String.
From stdpp Require Import base numbers list strings pretty gmap.
From S2P Require Import Prelude Bits LevelDb GghHash MerkleRam Mpq Prover ProverFacts Worksheet Poly Gadgets Constraints.

Local Open Scope Z_scope.
#[local] Existing Instances prog_ret prog_bind.

(** ** From names to variables *)

Section Symbols.
Context `{HashBlockStore} `{CacheDB} `{GL : GmpLaws}.
Context (num_vars size_input size_output : nat) (prime : Z) (Hprime : Z.prime prime).
Context (idx : string -> operand).

Abbreviation wf := (well_formed num_vars size_input size_output).
Abbreviation ok := (operand_ok num_vars size_input size_output).

Definition opd (a : arg) : operand := match a with ArgVar s => idx s | ArgConst z => OConst z end.

(** The field elements the prover ends with. *)
Definition solution (σ : ComputationProver) (s : string) : Z :=
  match read_loc σ (place (idx s) LTemp) with Some q => convert_to_z prime q | None => 0 end.

Lemma convert_int z : convert_to_z prime (int z) = z mod prime.
Proof. unfold convert_to_z. cbn. pose proof (Z.prime_ge_2 prime Hprime). by rewrite mpz_mod_eq by lia. Qed.

Lemma solution_int σ s l z : place (idx s) LTemp = l -> read_loc σ l = Some (int z) ->
  solution σ s = z mod prime /\ (prime | solution σ s - z).
Proof.
  intros Hl Hz. unfold solution. rewrite Hl, Hz, convert_int. split; [done|]. exists (- (z / prime)).
  pose proof (Z.prime_ge_2 prime Hprime). pose proof (Z.div_mod z prime). lia.
Qed.

(** An argument that the statement did not change. *)
Lemma arg_same X σ σ' a v : same_but X σ σ' -> (variable (opd a) -> ~ X (place (opd a) LTemp)) -> (forall s, a = ArgVar s -> variable (idx s)) ->
  holds σ (opd a) v -> (prime | arg_value (solution σ') a - v).
Proof.
  intros Hs HX Hvar Hv. destruct a as [s|z]; cbn in *.
  - specialize (Hvar s eq_refl). specialize (HX Hvar). eapply (solution_int σ' s); [done|].
    rewrite (same_read _ _ _ Hs) by done. destruct (idx s); done.
  - subst v. exists 0. lia.
Qed.

(** *** [<I] *)

Record less_symbols (target : string) (N : Z) (n0 mlt meq mgt : nat) (arg0 arg1 : arg) : Prop := {
  ls_flags : idx (aux target "Mlt") = OVar mlt /\ idx (aux target "Meq") = OVar meq /\ idx (aux target "Mgt") = OVar mgt;
  ls_bits : forall i, (i < Z.to_nat (N - 1))%nat -> idx (aux target (bit_name "N" i)) = OVar (n0 + i);
  ls_args : Forall (fun a => (forall s, a = ArgVar s -> variable (idx s)) /\
    (variable (opd a) -> ~ less_writes n0 N mlt meq mgt (idx target) (place (opd a) LTemp))) [arg0; arg1]
}.

(** C12: On the line that the compiler writes for a comparison of two numbers,
    at least one of them in a variable and at most 2^(N-1) apart, N being the
    bits allotted, the prover ends, sets the target to 1 when the first number
    is less and to 0 otherwise, and leaves values that satisfy every constraint
    of the comparison.  Two constants share a scratch number and are found
    equal (see [less_than_two_constants]). *)
Theorem less_than_complete target N n0 mlt meq mgt arg0 arg1 v0 v1 ts σ :
  less_symbols target N n0 mlt meq mgt arg0 arg1 ->
  less_layout num_vars size_input size_output n0 N mlt meq mgt (opd arg0) (opd arg1) (idx target) ->
  wf σ -> holds σ (opd arg0) v0 -> holds σ (opd arg1) v1 -> Z.abs (v0 - v1) <= 2 ^ (N - 1) ->
  exists σ', compute_less_than_int num_vars size_input size_output
      (with_tokens (less_words n0 N mlt meq mgt (opd arg0) (opd arg1) (idx target) ++ ts) σ) = Ok (tt, with_tokens ts σ') /\
    solution σ' target = b2z (v0 <? v1) /\
    all_satisfied prime (solution σ') (less_than_as_basic_constraints_i N arg0 arg1 target) = true.
Proof.
  intros [(Hlt & Heq & Hgt) Hbits Hargs] Hlay Hwf Hv0 Hv1 Hd.
  destruct (less_than_result num_vars size_input size_output n0 N mlt meq mgt _ _ _ _ _ ts σ Hlay Hwf Hv0 Hv1 Hd) as (σ' & Hrun & [Rlt Req Rgt Ry Rbits Rsame]).
  exists σ'. split; [done|]. split.
  - rewrite (proj1 (solution_int σ' target _ _ eq_refl Ry)). apply Z.mod_small. pose proof (Z.prime_ge_2 prime Hprime).
    destruct (v0 <? v1); cbn; lia.
  - apply Forall_cons in Hargs as [[Ha0 Hn0] Hargs]. apply Forall_cons in Hargs as [[Ha1 Hn1] _].
    apply (less_than_complete_lemma prime Hprime _ N arg0 arg1 target v0 v1); [apply Hlay|done|by eapply arg_same..| | | | |].
    + eapply solution_int; [|exact Rlt]. by rewrite Hlt.
    + eapply solution_int; [|exact Req]. by rewrite Heq.
    + eapply solution_int; [|exact Rgt]. by rewrite Hgt.
    + by eapply solution_int.
    + intros i Hi. eapply solution_int; [|by apply Rbits]. by rewrite Hbits.
Qed.

(** *** [!=] *)

Record not_equal_symbols (target : string) (m : nat) (arg0 arg1 : arg) : Prop := {
  ns_m : idx (aux target "M") = OVar m;
  ns_args : Forall (fun a => (forall s, a = ArgVar s -> variable (idx s)) /\
    (variable (opd a) -> ~ not_equal_writes m (idx target) (place (opd a) LTemp))) [arg0; arg1]
}.

(** On the line for an inequality the prover sets the target to 1 when
    the numbers differ and to 0 otherwise, and leaves values that satisfy the
    constraints, as long as different numbers also differ modulo the prime. *)
Theorem not_equal_complete target m arg0 arg1 v0 v1 cmds ts σ :
  not_equal_symbols target m arg0 arg1 ->
  not_equal_layout num_vars size_input size_output m (opd arg0) (opd arg1) (idx target) ->
  wf σ -> holds σ (opd arg0) v0 -> holds σ (opd arg1) v1 -> (v0 <> v1 -> v0 mod prime <> v1 mod prime) ->
  exists σ', compute_not_equal num_vars size_input size_output prime cmds
      (with_tokens (not_equal_words m (opd arg0) (opd arg1) (idx target) ++ ts) σ) = Ok (Some (word (idx target)), with_tokens ts σ') /\
    solution σ' target = b2z (negb (v0 =? v1)) /\
    all_satisfied prime (solution σ') (not_equal_as_basic_constraints false arg0 arg1 target) = true.
Proof.
  intros [Hm Hargs] Hlay Hwf Hv0 Hv1 Hne. pose proof (Z.prime_ge_2 prime Hprime).
  destruct (not_equal_correct num_vars size_input size_output prime m _ _ _ _ _ cmds ts σ Hlay Hwf Hv0 Hv1) as (σ' & Hrun & [Rm Ry Rsame]).
  exists σ'. split; [done|]. split.
  - rewrite (proj1 (solution_int σ' target _ _ eq_refl Ry)). apply Z.mod_small. destruct (v0 =? v1); cbn; lia.
  - apply Forall_cons in Hargs as [[Ha0 Hn0] Hargs]. apply Forall_cons in Hargs as [[Ha1 Hn1] _].
    apply (not_equal_complete_lemma prime Hprime _ arg0 arg1 target v0 v1 (mpz_invert (v0 - v1) prime)); [by eapply arg_same..| | |].
    + intros Hv. apply Z.mod_divide; [lia|]. rewrite Zminus_mod.
      destruct (mpz_invert_eq (v0 - v1) prime) as [_ ->]; [lia| |rewrite Z.mod_1_l by lia; by rewrite Z.mod_0_l by lia].
      rewrite Z.gcd_comm. apply Z.coprime_prime_l; [done|]. intros [k Hk]. apply (Hne Hv).
      replace v0 with (v1 + k * prime) by lia. apply Z_mod_plus_full.
    + eapply solution_int; [|exact Rm]. by rewrite Hm.
    + by eapply solution_int.
Qed.

(** *** Splits *)

(** The bits have the names [prefix0], [prefix1], ... at [start]. *)
Definition split_symbols (prefix : string) (first start n : nat) (x : arg) : Prop :=
  (forall i, (i < n)%nat -> idx (bit_name prefix (first + i)) = OVar (start + i)) /\
  (forall s, x = ArgVar s -> variable (idx s)) /\
  (variable (opd x) -> ~ in_range_F1 start n (place (opd x) LTemp)).

Lemma split_arg prefix first start n x bit σ σ' v : split_symbols prefix first start n x ->
  split_result start n bit σ σ' -> holds σ (opd x) v -> (prime | arg_value (solution σ') x - v).
Proof.
  intros (_ & Hvar & Hx) [_ Hs] Hv. apply (arg_same _ _ _ _ _ Hs); [|done|done].
  intros Hv' [Hr|Hr]; [by apply Hx|]. by destruct (opd x).
Qed.

Lemma split_bits prefix first start n x bit σ σ' : split_symbols prefix first start n x ->
  split_result start n bit σ σ' -> forall i, (i < n)%nat -> (prime | solution σ' (bit_name prefix (first + i)) - bit i).
Proof.
  intros (Hidx & _) [Hb _] i Hi. eapply solution_int; [|by apply Hb]. by rewrite Hidx.
Qed.

(** The two's complement number from its bits. *)
Lemma signed_value (signed : bool) N v : 1 <= N -> (if signed then in_s N v else 0 <= v < 2 ^ N) ->
  v mod 2 ^ N - (if signed then 2 ^ N * b2z (v <? 0) else 0) - v = 0.
Proof.
  intros HN Hv. destruct signed; [|rewrite Z.mod_small by lia; lia]. destruct Hv as [Hlo Hhi].
  assert (2 ^ N = 2 * 2 ^ (N - 1)) as Hpow by (rewrite <- Z.pow_succ_r by lia; f_equal; lia).
  pose proof (Z.pow_nonneg 2 (N - 1)). destruct (Z.ltb_spec v 0); cbn.
  - rewrite <- (Z.mod_unique_pos v (2 ^ N) (-1) (v + 2 ^ N)) by lia. lia.
  - rewrite Z.mod_small by lia. lia.
Qed.

Lemma split_le_complete_lemma (signed : bool) n prefix first x v asg :
  (0 < n)%nat -> (if signed then in_s (Z.of_nat n) v else 0 <= v < 2 ^ Z.of_nat n) -> (prime | arg_value asg x - v) ->
  (forall i, (i < n)%nat -> (prime | asg (bit_name prefix (first + i)) - b2z (Z.testbit v (Z.of_nat i)))) ->
  all_satisfied prime asg (split_int_le_as_basic_constraints signed n x prefix first) = true.
Proof.
  intros Hn Hv Hxv Hb. apply (split_le_facts prime Hprime); [by intros|].
  split; [by apply (bits_boolean prime n _ _ Hb)|]. pose proof (bits_sum prime n _ v Hb) as Hsum.
  eapply divide_by; [|apply (signed_value signed (Z.of_nat n) v); [lia|done]].
  replace (_ - _ - _ - _) with ((sum_to n (fun i => 2 ^ Z.of_nat i * asg (bit_name prefix (first + i))) - v mod 2 ^ Z.of_nat n)
    - ((if signed then 2 ^ Z.of_nat n * asg (bit_name prefix (first + (n - 1))) else 0) - (if signed then 2 ^ Z.of_nat n * b2z (v <? 0) else 0))
    - (arg_value asg x - v)) by lia.
  apply Z.divide_sub_r; [|done]. apply Z.divide_sub_r; [done|]. destruct signed; [|apply Z.divide_0_r].
  rewrite <- Z.mul_sub_distr_l. apply Z.divide_mul_r. rewrite <- (sign_bit (Z.of_nat n) v) by (done || lia).
  replace (Z.of_nat n - 1) with (Z.of_nat (n - 1)) by lia. apply Hb. lia.
Qed.

Lemma divide_of_mod x v : x mod prime = v mod prime -> (prime | x - v).
Proof.
  intros Hxv. pose proof (Z.prime_ge_2 prime Hprime). apply Z.mod_divide; [lia|]. by rewrite Zminus_mod, Hxv, Z.sub_diag.
Qed.

Lemma bit_of_divide a (t : bool) : (prime | a - b2z t) -> a mod prime = b2z t.
Proof. pose proof (Z.prime_ge_2 prime Hprime). apply mod_of_divide. destruct t; cbn; lia. Qed.

(** C17: On the line for a split into bits, lowest first, the prover writes
    the bits of the number in two's complement and leaves values that satisfy
    the constraints; values that satisfy them are those bits. *)
Theorem split_le_meaning (signed : bool) N prefix first start x v :
  1 <= N -> (if signed then in_s N v else 0 <= v < 2 ^ N) ->
  (forall ts σ, split_symbols prefix first start (Z.to_nat N) x -> ok (opd x) -> (start + Z.to_nat N <= num_vars)%nat ->
     wf σ -> holds σ (opd x) v ->
     exists σ', compute_split_int_le num_vars size_input size_output (with_tokens (split_le_words signed N (opd x) start ++ ts) σ)
         = Ok (tt, with_tokens ts σ') /\
       all_satisfied prime (solution σ') (split_int_le_as_basic_constraints signed (Z.to_nat N) x prefix first) = true) /\
  (forall asg, 2 ^ N <= prime -> arg_value asg x mod prime = v mod prime ->
     all_satisfied prime asg (split_int_le_as_basic_constraints signed (Z.to_nat N) x prefix first) = true ->
     forall i, (i < Z.to_nat N)%nat -> asg (bit_name prefix (first + i)) mod prime = b2z (Z.testbit v (Z.of_nat i))).
Proof.
  intros HN Hv. assert (Z.of_nat (Z.to_nat N) = N) as HnN by lia. split.
  - intros ts σ Hsym Hok Hn Hwf Hx.
    destruct (split_le_correct num_vars size_input size_output signed N (opd x) start v ts σ Hok HN Hn Hwf Hx Hv) as (σ' & Hrun & Hres).
    exists σ'. split; [done|]. apply split_le_complete_lemma with v; [lia|by rewrite HnN|by eapply split_arg|].
    by eapply split_bits.
  - intros asg Hbig Hxv%divide_of_mod Hall i Hi. apply bit_of_divide.
    apply (split_le_facts prime Hprime) in Hall as [Hb Hsum]; [|intros; lia]. destruct signed.
    + apply (signed_sound prime Hprime (Z.to_nat N) (fun i => asg (bit_name prefix (first + i))) _ v ltac:(lia) Hb Hsum Hxv); [by rewrite HnN..|done].
    + rewrite Z.sub_0_r in Hsum.
      apply (unsigned_sound prime Hprime (Z.to_nat N) (fun i => asg (bit_name prefix (first + i))) _ v Hb Hsum Hxv); [by rewrite HnN..|done].
Qed.

(** On the line for a split into bits, highest first, the prover writes
    the bits of the number and leaves values that satisfy the constraints;
    values that satisfy them are those bits. *)
Theorem split_meaning N prefix first start x v :
  0 <= N -> 0 <= v < 2 ^ N ->
  (forall ts σ, split_symbols prefix first start (Z.to_nat N) x -> splittable (opd x) -> ok (opd x) -> (start + Z.to_nat N <= num_vars)%nat ->
     wf σ -> holds σ (opd x) v ->
     exists σ', compute_split_unsignedint (with_tokens (split_words (opd x) N start ++ ts) σ) = Ok (tt, with_tokens ts σ') /\
       all_satisfied prime (solution σ') (split_unsignedint_as_basic_constraints (Z.to_nat N) x prefix first) = true) /\
  (forall asg, 2 ^ N <= prime -> arg_value asg x mod prime = v mod prime ->
     all_satisfied prime asg (split_unsignedint_as_basic_constraints (Z.to_nat N) x prefix first) = true ->
     forall i, (i < Z.to_nat N)%nat -> asg (bit_name prefix (first + i)) mod prime = b2z (Z.testbit v (N - 1 - Z.of_nat i))).
Proof.
  intros HN Hv. set (n := Z.to_nat N). assert (Z.of_nat n = N) as HnN by lia. split.
  - intros ts σ Hsym Hspl Hok Hn Hwf Hx. pose proof Hsym as (_ & _ & Hdisj).
    destruct (split_correct num_vars size_input size_output (opd x) N start v ts σ Hspl Hok HN Hn Hwf Hx) as (σ' & Hrun & Hres);
      [apply Hdisj; by destruct (opd x)|]. fold n in Hres.
    exists σ'. split; [done|]. apply (split_facts prime Hprime). pose proof (split_bits _ _ _ _ _ _ _ _ Hsym Hres) as Hb.
    split; [by apply (bits_boolean prime n _ _ Hb)|].
    pose proof (split_arg _ _ _ _ _ _ _ _ v Hsym Hres Hx) as Hxv.
    assert (prime | sum_to n (fun i => 2 ^ Z.of_nat i * solution σ' (bit_name prefix (first + (n - 1 - i)))) - v mod 2 ^ Z.of_nat n) as Hsum.
    { apply (bits_sum prime n (fun i => solution σ' (bit_name prefix (first + (n - 1 - i))))). intros i Hi.
      replace (Z.of_nat i) with (N - 1 - Z.of_nat (n - 1 - i)) by lia. apply Hb. lia. }
    rewrite HnN, Z.mod_small in Hsum by done.
    replace (_ - _) with ((sum_to n (fun i => 2 ^ Z.of_nat i * solution σ' (bit_name prefix (first + (n - 1 - i)))) - v) - (arg_value (solution σ') x - v)) by lia.
    by apply Z.divide_sub_r.
  - intros asg Hbig Hxv%divide_of_mod Hall i Hi. apply bit_of_divide. apply (split_facts prime Hprime) in Hall as [Hb Hsum].
    pose proof (unsigned_sound prime Hprime n (fun i => asg (bit_name prefix (first + (n - 1 - i)))) (arg_value asg x) v) as Hs. rewrite HnN in Hs.
    replace (N - 1 - Z.of_nat i) with (Z.of_nat (n - 1 - i)) by lia. replace i with (n - 1 - (n - 1 - i))%nat at 1 by lia.
    apply Hs; try done; [|lia]. intros j Hj. apply Hb. lia.
Qed.

End Symbols.

(** ** Polynomials and the fast memory *)

Section Statements.
Context `{HashBlockStore} `{CacheDB} `{GL : GmpLaws}.
Context (num_vars size_input size_output : nat).

Abbreviation wf := (well_formed num_vars size_input size_output).
Abbreviation ok := (operand_ok num_vars size_input size_output).

(** *** The fast memory *)

Definition ramput_words (addr value condition : operand) (branch : bool) (target : operand) : list string :=
  ["ADDR"; word addr; "VALUE"; word value; "CONDITION"; word condition; if branch then "true" else "false"; word target].

Definition ramget_words (addr value : operand) : list string := ["ADDR"; word addr; "VALUE"; word value].

(** The address of a number, as a [size_t]. *)
Definition ram_addr (a : Z) : Z := Z.abs a mod 2 ^ 64.

Lemma same_value o σ : same_but (fun l => l = LTemp) σ (after o LTemp σ).
Proof. by apply same_after. Qed.

Lemma holds_temp σ σ' o v : same_but (fun l => l = LTemp) σ σ' -> holds σ o v -> holds σ' o v.
Proof. intros Hs. apply (holds_same _ _ _ _ _ Hs). by destruct o. Qed.

Lemma step_gets {A B} (g : ComputationProver -> res A) (f : A -> prog B) ts σ a :
  g (with_tokens ts σ) = Ok a -> (gets g ≫= f) (with_tokens ts σ) = f a (with_tokens ts σ).
Proof. intros Hg. unfold gets. apply run_bind. unfold mbind, res_bind. by rewrite Hg. Qed.

(** A read gives the value at the address, or 0. *)
Lemma run_ramget addr value a ts σ : ok addr -> ok value -> variable value -> wf σ -> holds σ addr a ->
  exists σ', compute_fast_ramget num_vars size_input size_output (with_tokens (ramget_words addr value ++ ts) σ) = Ok (tt, with_tokens ts σ') /\
    read_loc σ' (place value LTemp) = Some (ram_value (true_ram σ) (ram_addr a)) /\
    same_but (fun l => l = place value LTemp \/ l = LTemp) σ σ'.
Proof.
  intros Ha Hv Hvar Hwf Hholds. unfold compute_fast_ramget, ramget_words. cbn [app]. rewrite step_expect.
  rewrite (step_value _ _ _ _ addr a), step_expect by done. pose proof (same_value addr σ) as Hs.
  pose proof (well_formed_same _ _ _ _ _ _ Hs Hwf) as Hwf1.
  rewrite step_voc by (try done; by eexists). rewrite (after_variable value) by done.
  erewrite step_gets by done. pose proof (operand_some _ _ _ value _ Hwf1 Hv) as Hsome. rewrite run_setq by done.
  eexists. split; [done|]. split.
  - rewrite read_write_eq by done. unfold addr_idx. rewrite mpz_get_ui_eq. cbn [numref int].
    change (true_ram (with_tokens ts (after addr LTemp σ))) with (true_ram (after addr LTemp σ)). by rewrite (same_true_ram _ _ _ Hs).
  - apply same_write_r; [by left|]. apply (same_weaken (fun l => l = LTemp)); [by right|done].
Qed.

(** Whether the memory is written, and what the target gets. *)
Definition ram_active (c : Z) (branch : bool) : bool := eqb (negb (c =? 0)) branch.

Record ramput_result (target : operand) (a v c : Z) (branch : bool) (σ σ' : ComputationProver) : Prop := {
  rr_ram : true_ram σ' = if ram_active c branch then <[ram_addr a := int v]> (true_ram σ) else true_ram σ;
  rr_target : read_loc σ' (place target LTemp) =
    if ram_active c branch then (if branch then Some (int v) else read_loc σ (place target LTemp))
    else Some (ram_value (true_ram σ) (ram_addr a));
  rr_read : forall l, l <> place target LTemp -> l <> LTemp -> read_loc σ' l = read_loc σ l;
  rr_merkle : ram σ' = ram σ;
  rr_wf : wf σ'
}.

Lemma ramput_result_temp target a v c branch σ σ1 σ' : place target LTemp <> LTemp -> same_but (fun l => l = LTemp) σ σ1 ->
  ramput_result target a v c branch σ1 σ' -> ramput_result target a v c branch σ σ'.
Proof.
  intros Ht [Hr _ Htr Hm] [R1 R2 R3 R4 R5]. split; [by rewrite R1, Htr| |intros l Hl1 Hl2; by rewrite R3, Hr|congruence|done].
  rewrite R2, Htr, Hr by done. done.
Qed.

(** The memory write itself. *)
Lemma run_ramput_tail target a v c (branch : bool) ts σ : wf σ -> ok target -> variable target ->
  exists σ', (if negb (c =? 0)
     then if branch then ram_store (ram_addr a) (int v);; setq (place target LTemp) (int v) else ram_keep (ram_addr a) (place target LTemp)
     else if negb branch then ram_store (ram_addr a) (int v) else ram_keep (ram_addr a) (place target LTemp)) (with_tokens ts σ)
    = Ok (tt, with_tokens ts σ') /\ ramput_result target a v c branch σ σ'.
Proof.
  intros Hwf Hok Hvar. pose proof (operand_some _ _ _ target _ Hwf Hok) as Hsome.
  assert (forall q, wf (write_loc (place target LTemp) q σ)) as Hwfw.
  { intros q. apply (well_formed_same _ _ _ (fun l => l = place target LTemp) σ); [by apply same_write|done]. }
  assert (Hkeep : exists σ', ram_keep (ram_addr a) (place target LTemp) (with_tokens ts σ) = Ok (tt, with_tokens ts σ') /\
    (ram_active c branch = false -> ramput_result target a v c branch σ σ')).
  { unfold ram_keep. erewrite step_gets by done. rewrite run_setq by done. eexists. split; [done|]. intros Hact.
    split; [rewrite Hact; by destruct target|rewrite Hact; by apply read_write_eq| |by destruct target|done].
    intros l Hl _. by apply read_write_ne. }
  unfold ram_active in *. destruct (negb (c =? 0)) eqn:Hc, branch; cbn [negb eqb] in *.
  - exists (write_loc (place target LTemp) (int v) (with_true_ram (<[ram_addr a := int v]> (true_ram σ)) σ)).
    split; [by apply (run_setq _ _ ts (with_true_ram (<[ram_addr a := int v]> (true_ram σ)) σ)); destruct target|].
    split; unfold ram_active; rewrite ?Hc; cbn [eqb].
    + by destruct target.
    + rewrite read_write_eq; [done|]. by destruct target.
    + intros l Hl _. rewrite read_write_ne by done. by destruct l.
    + by destruct target.
    + destruct (Hwfw (int v)) as [W1 W2 W3]. destruct target; (split; [exact W1|exact W2|exact W3]).
  - destruct Hkeep as (σ' & Hrun & Hres). exists σ'. split; [done|]. by apply Hres.
  - destruct Hkeep as (σ' & Hrun & Hres). exists σ'. split; [done|]. by apply Hres.
  - exists (with_true_ram (<[ram_addr a := int v]> (true_ram σ)) σ). split; [done|].
    split; unfold ram_active; rewrite ?Hc; cbn [eqb]; [done|by destruct target|intros l _ _; by destruct l|done|].
    destruct Hwf as [W1 W2 W3]. split; [exact W1|exact W2|exact W3].
Qed.

Lemma run_ramput addr value condition branch target a v c ts σ :
  ok addr -> ok value -> ok condition -> ok target -> variable target -> wf σ ->
  holds σ addr a -> holds σ value v -> holds σ condition c ->
  exists σ', compute_fast_ramput num_vars size_input size_output (with_tokens (ramput_words addr value condition branch target ++ ts) σ)
      = Ok (tt, with_tokens ts σ') /\ ramput_result target a v c branch σ σ'.
Proof.
  intros Ha Hv Hc Ht Hvar Hwf Haddr Hval Hcond. unfold compute_fast_ramput, ramput_words. cbn [app]. rewrite step_expect.
  rewrite (step_value _ _ _ _ addr a), step_expect by done. pose proof (same_value addr σ) as Hs1.
  pose proof (holds_temp _ _ _ _ Hs1 Hval) as Hval1. pose proof (holds_temp _ _ _ _ Hs1 Hcond) as Hcond1. set (σ1 := after addr LTemp σ) in *.
  rewrite (step_value _ _ _ _ value v), step_expect by done. pose proof (same_value value σ1) as Hs2.
  pose proof (holds_temp _ _ _ _ Hs2 Hcond1) as Hcond2. set (σ2 := after value LTemp σ1) in *.
  rewrite (step_value _ _ _ _ condition c), step_word by done. pose proof (same_value condition σ2) as Hs3. set (σ3 := after condition LTemp σ2) in *.
  rewrite step_voc by (try done; by eexists). rewrite (after_variable target) by done. cbn zeta.
  assert (String.eqb (if branch then "true" else "false") "true" = branch) as -> by (by destruct branch).
  assert (same_but (fun l => l = LTemp) σ σ3) as Hs by (eapply same_trans; [|eapply same_trans]; eassumption).
  unfold addr_idx. rewrite mpz_get_ui_eq. cbn [numref int]. fold (ram_addr a).
  destruct (run_ramput_tail target a v c branch ts σ3 (well_formed_same _ _ _ _ _ _ Hs Hwf) Ht Hvar) as (σ' & Hrun & Hres).
  exists σ'. split; [exact Hrun|]. apply (ramput_result_temp _ _ _ _ _ _ σ3); [by destruct target|done|done].
Qed.

(** C18: A write to the fast memory happens when its condition is set and it
    stands in the true branch, or the condition is not set and it stands in
    the false branch; the next read gets the value written at the same
    address and the old value elsewhere.  A write that does not happen gives
    its target the value in memory.  One that happens in the false branch
    leaves its target as it was, which the constraints ask to be the value. *)
Theorem fast_ram_correct addr value condition branch target a v c ts σ :
  ok addr -> ok value -> ok condition -> ok target -> variable target -> wf σ ->
  holds σ addr a -> holds σ value v -> holds σ condition c ->
  exists σ1, compute_fast_ramput num_vars size_input size_output (with_tokens (ramput_words addr value condition branch target ++ ts) σ)
      = Ok (tt, with_tokens ts σ1) /\ ramput_result target a v c branch σ σ1 /\
    forall addr' b value' ts', ok addr' -> ok value' -> variable value' -> holds σ1 addr' b ->
      exists σ2, compute_fast_ramget num_vars size_input size_output (with_tokens (ramget_words addr' value' ++ ts') σ1)
          = Ok (tt, with_tokens ts' σ2) /\
        read_loc σ2 (place value' LTemp) =
          Some (if ram_active c branch && (ram_addr a =? ram_addr b) then int v else ram_value (true_ram σ) (ram_addr b)).
Proof.
  intros Ha Hv Hc Ht Hvar Hwf Haddr Hval Hcond.
  destruct (run_ramput addr value condition branch target a v c ts σ) as (σ1 & Hrun & Hres); [done..|].
  exists σ1. split; [done|]. split; [done|]. intros addr' b value' ts' Ha' Hv' Hvar' Hb. destruct Hres as [R1 _ _ _ Hwf1].
  destruct (run_ramget addr' value' b ts' σ1 Ha' Hv' Hvar' Hwf1 Hb) as (σ2 & Hget & Hread & _). exists σ2. split; [done|].
  rewrite Hread, R1. f_equal. unfold ram_value. destruct (ram_active c branch); [|done]. cbn [andb].
  destruct (Z.eqb_spec (ram_addr a) (ram_addr b)) as [->|Hne]; [by rewrite lookup_insert_eq|by rewrite lookup_insert_ne].
Qed.

End Statements.

(** Variables V0 ... for a target "t", inputs "a" and "b". *)
Definition sample_idx (s : string) : operand :=
  if String.eqb s "t" then OOut 2
  else if String.eqb s "t$Mlt" then OVar 0
  else if String.eqb s "t$Meq" then OVar 1
  else if String.eqb s "t$Mgt" then OVar 2
  else if String.eqb s "t$N0" then OVar 3
  else if String.eqb s "t$N1" then OVar 4
  else if String.eqb s "t$M" then OVar 5
  else if String.eqb s "b0" then OVar 6
  else if String.eqb s "b1" then OVar 7
  else if String.eqb s "b2" then OVar 8
  else if String.eqb s "a" then OIn 0
  else OIn 1.

Ltac outside := intros (? & ? & [= ?]); lia.

Lemma less_than_complete_witness :
  exists σ', compute_less_than_int (H := store) (H0 := MapCache) 12 2 1
      (with_tokens (less_words 3 3 0 1 2 (OIn 0) (OConst 7) (OOut 2) ++ []) (sample (replicate 12 0) [5; 3; 0])) = Ok (tt, with_tokens [] σ') /\
    solution 17 sample_idx σ' "t" = 1 /\
    all_satisfied 17 (solution 17 sample_idx σ') (less_than_as_basic_constraints_i 3 (ArgVar "a") (ArgConst 7) "t") = true.
Proof.
  apply (less_than_complete (H := store) (H0 := MapCache) 12 2 1 17 prime_17 sample_idx "t" 3 3 0 1 2 (ArgVar "a") (ArgConst 7) 5 7 [] (sample (replicate 12 0) [5; 3; 0])).
  - split; [done| |].
    + intros [|[|i]] Hi; [done|done|cbn in Hi; lia].
    + apply Forall_cons. split; [split; [by intros s [= <-]|]|].
      * intros _ [(? & ? & ?)|Hin]; [done|]. by apply (bool_decide_pack (LIO 0 ∈ _)) in Hin.
      * apply Forall_cons. split; [by split|by apply Forall_nil].
  - split; [lia|cbn; lia|cbn; lia| | |].
    + repeat constructor; outside.
    + split; [done|]. split; [cbn; lia|]. split; [by intros (? & _ & ?)|repeat constructor; done].
    + split; [cbn; lia|]. split; [done|]. split; [by left|]. repeat constructor; done.
  - by apply sample_prover_wf.
  - reflexivity.
  - reflexivity.
  - cbn. lia.
Defined.

Lemma not_equal_complete_witness :
  exists σ', compute_not_equal (H := store) (H0 := MapCache) 12 2 1 17 None
      (with_tokens (not_equal_words 5 (OIn 0) (OIn 1) (OOut 2) ++ []) (sample (replicate 12 0) [5; 3; 0])) = Ok (Some "O2"%string, with_tokens [] σ') /\
    solution 17 sample_idx σ' "t" = 1 /\
    all_satisfied 17 (solution 17 sample_idx σ') (not_equal_as_basic_constraints false (ArgVar "a") (ArgVar "b") "t") = true.
Proof.
  apply (not_equal_complete (H := store) (H0 := MapCache) 12 2 1 17 prime_17 sample_idx "t" 5 (ArgVar "a") (ArgVar "b") 5 3 None [] (sample (replicate 12 0) [5; 3; 0])).
  - split; [done|]. apply Forall_cons. split; [|apply Forall_cons; split; [|by apply Forall_nil]].
    + split; [by intros s [= <-]|]. intros _ Hin. by apply (bool_decide_pack (LIO 0 ∈ _)) in Hin.
    + split; [by intros s [= <-]|]. intros _ Hin. by apply (bool_decide_pack (LIO 1 ∈ _)) in Hin.
  - split; [lia|split; [done|split; [cbn; lia|done]]|split; cbn; lia].
  - by apply sample_prover_wf.
  - reflexivity.
  - reflexivity.
  - by intros _.
Defined.

Lemma sample_split (first start : nat) : first = 0%nat -> start = 6%nat -> split_symbols sample_idx "b" first start 3 (ArgVar "a").
Proof.
  intros -> ->. split; [by intros [|[|[|i]]] Hi; [..|lia]|]. split; [by intros s [= <-]|]. intros _ (? & _ & ?). done.
Qed.

Lemma split_le_witness :
  (exists σ', compute_split_int_le (H := store) (H0 := MapCache) 12 2 1
      (with_tokens (split_le_words true 3 (OIn 0) 6 ++ []) (sample (replicate 12 0) [-3; 3; 0])) = Ok (tt, with_tokens [] σ') /\
    all_satisfied 17 (solution 17 sample_idx σ') (split_int_le_as_basic_constraints true 3 (ArgVar "a") "b" 0) = true) /\
  (forall i, (i < 3)%nat -> (fun s => if String.eqb s "a" then 14 else if String.eqb s "b1" then 0 else 1) (bit_name "b" (0 + i)) mod 17
     = b2z (Z.testbit (-3) (Z.of_nat i))).
Proof.
  destruct (split_le_meaning (H := store) (H0 := MapCache) 12 2 1 17 prime_17 sample_idx true 3 "b" 0 6 (ArgVar "a") (-3)) as [Hc Hs];
    [lia|split; cbn; lia|]. split.
  - apply Hc; [by apply sample_split|cbn; lia|cbn; lia|by apply sample_prover_wf|reflexivity].
  - apply (Hs (fun s => if String.eqb s "a" then 14 else if String.eqb s "b1" then 0 else 1)); [cbn; lia|reflexivity|reflexivity].
Defined.

Lemma split_witness :
  (exists σ', compute_split_unsignedint (H := store) (H0 := MapCache)
      (with_tokens (split_words (OIn 0) 3 6 ++ []) (sample (replicate 12 0) [6; 3; 0])) = Ok (tt, with_tokens [] σ') /\
    all_satisfied 17 (solution 17 sample_idx σ') (split_unsignedint_as_basic_constraints 3 (ArgVar "a") "b" 0) = true) /\
  (forall i, (i < 3)%nat -> (fun s => if String.eqb s "a" then 23 else if String.eqb s "b2" then 0 else 1) (bit_name "b" (0 + i)) mod 17
     = b2z (Z.testbit 6 (3 - 1 - Z.of_nat i))).
Proof.
  destruct (split_meaning (H := store) (H0 := MapCache) 12 2 1 17 prime_17 sample_idx 3 "b" 0 6 (ArgVar "a") 6) as [Hc Hs]; [lia|lia|]. split.
  - apply Hc; [by apply sample_split|done|cbn; lia|cbn; lia|by apply sample_prover_wf|reflexivity].
  - apply (Hs (fun s => if String.eqb s "a" then 23 else if String.eqb s "b2" then 0 else 1)); [cbn; lia|reflexivity|reflexivity].
Defined.

Lemma fast_ram_witness :
  exists σ1 σ2, compute_fast_ramput (H := store) (H0 := MapCache) 12 2 1
      (with_tokens (ramput_words (OConst 9) (OIn 0) (OConst 1) true (OVar 0) ++ []) (sample (replicate 12 0) [5; 4; 0])) = Ok (tt, with_tokens [] σ1) /\
    compute_fast_ramget (H := store) (H0 := MapCache) 12 2 1 (with_tokens (ramget_words (OConst 9) (OVar 1) ++ []) σ1) = Ok (tt, with_tokens [] σ2) /\
    read_loc σ2 (LF1 1) = Some (int 5).
Proof.
  destruct (fast_ram_correct (H := store) (H0 := MapCache) 12 2 1 (OConst 9) (OIn 0) (OConst 1) true (OVar 0) 9 5 1 []
    (sample (replicate 12 0) [5; 4; 0])) as (σ1 & Hput & _ & Hget); try done; [cbn; lia|cbn; lia|].
  destruct (Hget (OConst 9) 9 (OVar 1) []) as (σ2 & Hget2 & Hval); try done; [cbn; lia|].
  exists σ1, σ2. split; [exact Hput|]. split; [exact Hget2|exact Hval].
Defined.

(** ** Where the interpreter goes wrong *)

(** Eight parentheses around a factor: the code sets the scratch number after
    the last before it looks whether the limit is reached.  Seven are fine. *)
Definition nested (n : nat) : list string :=
  ["V0"; "="] ++ replicate n "("%string ++ ["I0"] ++ replicate n ")"%string ++ ["E"].

Definition read_after {A} (r : res (A * ComputationProver (H := store) (H0 := MapCache))) (l : loc) : option mpq_t :=
  match r with Ok (_, σ) => read_loc σ l | _ => None end.

Definition is_fault {A} (r : res A) : bool := match r with Fault => true | _ => false end.

Example poly_eight_deep :
  is_fault (compute_P (H := store) (H0 := MapCache) 12 2 1 None (with_tokens (nested 8) (sample (replicate 12 0) [5; 4; 0]))) = true /\
  read_after (compute_P (H := store) (H0 := MapCache) 12 2 1 None (with_tokens (nested 7) (sample (replicate 12 0) [5; 4; 0]))) (LF1 0) = Some (int 5).
Proof. split; vm_compute; reflexivity. Qed.

(** Two constants share a scratch number: 3 and 7 are found equal. *)
Example less_than_two_constants : forall r,
  r = compute_less_than_int (H := store) (H0 := MapCache) 12 2 1
      (with_tokens (less_words 3 4 0 1 2 (OConst 3) (OConst 7) (OOut 2)) (sample (replicate 12 0) [5; 4; 0])) ->
  read_after r (LF1 1) = Some (int 1) /\ read_after r (LIO 2) = Some (int 0).
Proof. intros r ->. split; vm_compute; reflexivity. Qed.
