(* ===== verification/ProverStore.v ===== *)
(** Blocks in a worksheet: a block put by its hash is got back, bit for bit,
    through the words of the worksheet and the block store. *)
From Stdlib Require Import ZArith Lia Ascii String.
From stdpp Require Import base numbers list strings pretty gmap.
From S2P Require Import Prelude Bits LevelDb GghHash MerkleRam Mpq Prover ProverFacts Worksheet Gadgets ProverProps.

Local Open Scope Z_scope.
#[local] Existing Instances prog_ret prog_bind.

Section Blocks.
Context `{HashBlockStoreLaws} `{HH : Hasher} `{CacheDB} `{GL : GmpLaws}.
Context (num_vars size_input size_output : nat).

Abbreviation wf := (well_formed num_vars size_input size_output).
Abbreviation ok := (operand_ok num_vars size_input size_output).

(** The operands hold the bits. *)
Definition holds_bits (σ : ComputationProver) (os : list operand) (b : Bits) : Prop :=
  Forall2 (fun o x => ok o /\ holds σ o (b2z x)) os b.

Lemma holds_bits_temp σ σ' os b : same_but (fun l => l = LTemp) σ σ' -> holds_bits σ os b -> holds_bits σ' os b.
Proof.
  intros Hs Hb. apply (Forall2_impl _ _ _ _ Hb). intros o x [Ho Hh]. split; [done|].
  apply (holds_same _ _ _ _ _ Hs); [by destruct o|done].
Qed.

Lemma bit_get_ui x : u32 (mpz_get_ui (b2z x)) = b2z x.
Proof. rewrite mpz_get_ui_eq. by destruct x. Qed.

(** A loop that reads a bit per round, its buffer of any type. *)
Lemma read_bits_loop {C} (buf : string -> C) (body : nat -> C * Bits -> prog (C * Bits)) c0 os b ts σ :
  holds_bits σ os b ->
  (forall i c acc o x ts σ, ok o -> holds σ o (b2z x) ->
     body i (c, acc) (with_tokens (word o :: ts) σ) = Ok ((buf (word o), <[i := x]> acc), with_tokens ts (after o LTemp σ))) ->
  exists c σ', for_prog 0 (length os) body (c0, replicate (length os) false) (with_tokens (map word os ++ ts) σ) = Ok ((c, b), with_tokens ts σ') /\
    same_but (fun l => l = LTemp) σ σ'.
Proof.
  intros Hb Hbody. pose proof (Forall2_length _ _ _ Hb) as Hlen.
  destruct (for_prog_ind (fun i (s : C * Bits) σ' => s.2 = take i b ++ replicate (length os - i) false /\
      exists σ1, σ' = with_tokens (map word (drop i os) ++ ts) σ1 /\ same_but (fun l => l = LTemp) σ σ1)
    0 (length os) body (c0, replicate (length os) false) (with_tokens (map word os ++ ts) σ)) as ([c acc] & σ' & Hrun & Hacc & σ1 & -> & Hs).
  - lia.
  - rewrite Nat.sub_0_r. split; [done|]. exists σ. split; [done|apply same_refl].
  - intros i [c acc] σ' Hi [Hacc (σ1 & -> & Hs)]. cbn in Hacc. subst acc.
    destruct (lookup_lt_is_Some_2 os i) as [o Ho]; [lia|]. destruct (Forall2_lookup_l _ _ _ _ _ Hb Ho) as (x & Hx & Hok & Hh).
    rewrite (drop_S _ _ _ Ho). cbn [map app].
    assert (holds σ1 o (b2z x)) as Hh1 by (apply (holds_same _ _ _ _ _ Hs); [by destruct o|done]).
    rewrite (Hbody i c _ o x _ σ1 Hok Hh1).
    eexists _, _. split; [done|]. split.
    + cbn [snd]. rewrite insert_app_r_alt by (rewrite length_take; lia). rewrite length_take, Nat.min_l, Nat.sub_diag by lia.
      replace (length os - i)%nat with (S (length os - S i)) by lia. cbn. by rewrite (take_S_r _ _ _ Hx), <- app_assoc.
    + eexists. split; [done|]. apply (same_trans _ _ σ1); [done|]. by apply same_after.
  - exists c, σ1. split; [|done]. cbn in Hacc. rewrite Hrun, Hacc, drop_all, Nat.sub_diag. cbn. by rewrite app_nil_r, firstn_all2 by lia.
Qed.

Lemma run_next_bits cmds os b ts σ : holds_bits σ os b ->
  exists c σ', next_bits num_vars size_input size_output cmds (length os) (with_tokens (map word os ++ ts) σ) = Ok ((c, b), with_tokens ts σ') /\
    same_but (fun l => l = LTemp) σ σ'.
Proof.
  intros Hb. unfold next_bits. apply (read_bits_loop id); [done|]. intros i c acc o x ts' σ1 Ho Hh.
  unfold next_uint32. erewrite run_bind; [|by rewrite (step_value _ _ _ _ o (b2z x)) by done].
  cbn [numref int]. rewrite bit_get_ui. by destruct x.
Qed.

(** A word that is not one of the words after a hash. *)
Lemma word_not_num o : String.eqb (word o) "NUM_X" || String.eqb (word o) "NUM_Y" = false.
Proof.
  assert (forall s, String.eqb (word o) (String "N" s) = false) as Hn; [|by rewrite !Hn].
  intros s. destruct (String.eqb (word o) (String "N" s)) eqn:Heq; [|done]. apply String.eqb_eq in Heq.
  destruct o as [i|i|i|z]; cbn in Heq; try done. destruct (pretty_head z) as (c & r & Hz & Hc). rewrite Hz in Heq.
  injection Heq as -> _. by destruct Hc as [[? _]|Hc].
Qed.

Lemma run_parse_hash os b ts σ : holds_bits σ os b ->
  exists σ', parse_hash num_vars size_input size_output (length os) (with_tokens (map word os ++ ts) σ) = Ok (b, with_tokens ts σ') /\
    same_but (fun l => l = LTemp) σ σ'.
Proof.
  intros Hb. unfold parse_hash. match goal with |- context [for_prog _ _ ?body (?c0, _)] =>
    destruct (read_bits_loop Some body c0 os b ts σ Hb) as (c & σ' & Hrun & Hs); [|rewrite (run_bind _ _ _ _ _ Hrun); by exists σ'] end.
  intros i c acc o x ts' σ1 Ho Hh. assert (is_Some (read_loc σ1 LTemp)) as Ht by (by eexists).
  rewrite step_word, word_not_num. rewrite (run_bind _ _ _ _ _ (run_voc _ _ _ o LTemp ts' σ1 Ho Ht)).
  erewrite step_getq by (by apply read_place). cbn [numref int]. rewrite bit_get_ui. by destruct x.
Qed.

(** The number that says how many bits follow. *)
Lemma run_count cmds n ts σ : 0 <= n < 2 ^ 32 ->
  next_uint32 num_vars size_input size_output cmds (with_tokens (word (OConst n) :: ts) σ) = Ok ((word (OConst n), n), with_tokens ts (write_loc LTemp (int n) σ)).
Proof.
  intros Hn. unfold next_uint32. rewrite (step_value _ _ _ _ (OConst n) n) by done. cbn [numref int]. rewrite mpz_get_ui_eq.
  rewrite Z.abs_eq, (Z.mod_small n (2 ^ 64)) by lia. unfold mret, prog_ret. do 3 f_equal. by apply wrapu_small.
Qed.

(** The locations of variables, which hold integers. *)
Definition targets (σ : ComputationProver) (ys : list operand) : Prop :=
  Forall (fun y => ok y /\ variable y /\ exists z, read_loc σ (place y LTemp) = Some (int z)) ys /\
  NoDup (map (fun y => place y LTemp) ys).

Definition in_places (ys : list operand) (l : loc) : Prop := l ∈ map (fun y => place y LTemp) ys.

Lemma run_set_bit l z bit ts σ : read_loc σ l = Some (int z) ->
  set_bit l bit (with_tokens ts σ) = Ok (tt, with_tokens ts (write_loc l (int (b2z bit)) σ)).
Proof.
  intros Hl. unfold set_bit. rewrite (step_getq _ _ _ _ _ Hl), run_setq by (by eexists).
  unfold set_numref. cbn [denref int]. change {| numref := b2z bit; denref := 1 |} with (int (b2z bit)).
  by rewrite mpq_canonicalize_int.
Qed.

(** A loop that writes a bit per round. *)
Lemma write_bits_loop (bit : nat -> bool) cmds ys ts σ : wf σ -> targets σ ys ->
  exists c σ', for_prog 0 (length ys) (fun i cmds => cmds ← next_token_or_error (Some cmds); val ← voc num_vars size_input size_output cmds LTemp; set_bit val (bit i);; mret cmds) cmds
      (with_tokens (map word ys ++ ts) σ) = Ok (c, with_tokens ts σ') /\
    (forall i y, ys !! i = Some y -> read_loc σ' (place y LTemp) = Some (int (b2z (bit i)))) /\
    same_but (in_places ys) σ σ'.
Proof.
  intros Hwf [Hys Hnd].
  destruct (for_prog_ind (fun i (_ : string) σ' => exists σ1, σ' = with_tokens (map word (drop i ys) ++ ts) σ1 /\ same_but (in_places (take i ys)) σ σ1 /\
      forall j y, (j < i)%nat -> ys !! j = Some y -> read_loc σ1 (place y LTemp) = Some (int (b2z (bit j))))
    0 (length ys) (fun i cmds => cmds ← next_token_or_error (Some cmds); val ← voc num_vars size_input size_output cmds LTemp; set_bit val (bit i);; mret cmds) cmds
    (with_tokens (map word ys ++ ts) σ)) as (c & σ' & Hrun & σ1 & -> & Hs & Hread).
  - lia.
  - exists σ. split; [done|]. split; [apply same_refl|]. lia.
  - intros i c σ' Hi (σ1 & -> & Hs & Hread). destruct (lookup_lt_is_Some_2 ys i) as [y Hy]; [lia|].
    destruct (proj1 (Forall_lookup _ _) Hys i y Hy) as (Hok & Hvar & z & Hz).
    rewrite (drop_S _ _ _ Hy). cbn [map app]. rewrite step_voc by (try done; by eexists). rewrite (after_variable y) by done.
    assert (Hne : forall j y', (j <> i)%nat -> ys !! j = Some y' -> place y' LTemp <> place y LTemp).
    { intros j y' Hj Hy' Heq. apply Hj. apply (NoDup_lookup _ _ _ (place y LTemp) Hnd); rewrite list_lookup_fmap.
      - rewrite Hy'. cbn. by rewrite Heq.
      - by rewrite Hy. }
    assert (~ in_places (take i ys) (place y LTemp)) as Hfresh.
    { intros (y' & Heq & Hin)%list_elem_of_fmap. apply list_elem_of_lookup in Hin as [j Hj].
      apply lookup_take_Some in Hj as [Hj Hji]. by apply (Hne j y' ltac:(lia) Hj). }
    erewrite run_bind; [|apply (run_set_bit _ z); by rewrite (same_read _ _ _ Hs)]. eexists _, _. split; [done|]. eexists. split; [done|]. split.
    + apply same_write_r.
      * apply list_elem_of_fmap. exists y. split; [done|]. rewrite (take_S_r _ _ _ Hy). apply elem_of_app. right. by apply list_elem_of_singleton.
      * apply (same_weaken (in_places (take i ys))); [|done]. intros l. unfold in_places. rewrite (take_S_r _ _ _ Hy), fmap_app, elem_of_app. by left.
    + intros j y' Hj Hy'. destruct (decide (j = i)) as [->|Hji].
      * rewrite Hy in Hy'. injection Hy' as <-. apply read_write_eq. rewrite (same_some _ _ _ Hs). by eexists.
      * rewrite read_write_ne by (intros Heq; by apply (Hne j y' Hji Hy')). apply Hread; [lia|done].
  - exists c, σ1. rewrite Hrun, drop_all. split; [done|]. rewrite firstn_all in Hs. split; [|done].
    intros i y Hy. apply Hread; [by apply lookup_lt_Some in Hy|done].
Qed.

(** ** The statements *)

Definition put_words (ks : list operand) (xs : list operand) : list string :=
  map word ks ++ ["NUM_X"; word (OConst (Z.of_nat (length xs))); "X"] ++ map word xs.

Definition get_words (ks : list operand) (ys : list operand) : list string :=
  map word ks ++ ["NUM_Y"; word (OConst (Z.of_nat (length ys))); "Y"] ++ map word ys.

Lemma run_put_block ks xs key data ts σ : length ks = getNumHashBits -> Z.of_nat (length xs) < 2 ^ 32 ->
  block_key key -> holds_bits σ ks key -> holds_bits σ xs data ->
  exists b σ', compute_put_block_by_hash num_vars size_input size_output (with_tokens (put_words ks xs ++ ts) σ) = Ok (tt, with_tokens ts σ') /\
    (forall l, l <> LTemp -> read_loc σ' l = read_loc σ l) /\ (wf σ -> wf σ') /\
    blockStore (ram σ') = b /\ (if any key then put (blockStore (ram σ)) key data = Ok b else ram σ' = ram σ).
Proof.
  intros Hks Hlen Hkey Hk Hx. unfold compute_put_block_by_hash, put_words. rewrite <- !app_assoc, <- Hks.
  destruct (run_parse_hash ks key (["NUM_X"; word (OConst (Z.of_nat (length xs))); "X"] ++ map word xs ++ ts) σ Hk) as (σ1 & Hrun & Hs1).
  rewrite (run_bind _ _ _ _ _ Hrun). cbn [app]. rewrite step_expect, (run_bind _ _ _ _ _ (run_count _ (Z.of_nat (length xs)) _ σ1 ltac:(lia))), step_expect.
  set (σ2 := write_loc LTemp _ σ1). assert (same_but (fun l => l = LTemp) σ σ2) as Hs2 by (by apply same_write_r).
  rewrite Nat2Z.id. destruct (run_next_bits (word (OConst (Z.of_nat (length xs)))) xs data ts σ2 (holds_bits_temp _ _ _ _ Hs2 Hx)) as (c & σ3 & Hrun3 & Hs3).
  rewrite (run_bind _ _ _ _ _ Hrun3). pose proof (same_trans _ _ _ _ Hs2 Hs3) as Hs. destruct (any key).
  - destruct (put_ok (blockStore (ram σ)) key data Hkey) as (b & Hput & _).
    exists b, (with_blockStore b σ3). split.
    + unfold modify, mbind, res_bind. change (ram (with_tokens ts σ3)) with (ram σ3). by rewrite (same_ram _ _ _ Hs), Hput.
    + split; [intros l Hl; rewrite <- (same_read _ _ _ Hs l Hl); by destruct l|]. split; [|done].
      intros Hwf. destruct (well_formed_same _ _ _ _ _ _ Hs Hwf) as [W1 W2 W3]. split; [exact W1|exact W2|exact W3].
  - exists (blockStore (ram σ3)), σ3. split; [done|]. split; [intros l Hl; by apply (same_read _ _ _ Hs)|].
    split; [by apply (well_formed_same _ _ _ _ _ _ Hs)|]. split; [done|]. apply (same_ram _ _ _ Hs).
Qed.

Lemma run_get_block ks ys key block ts σ : length ks = getNumHashBits -> Z.of_nat (length ys) < 2 ^ 32 ->
  holds_bits σ ks key -> wf σ -> targets σ ys ->
  (if any key then get (blockStore (ram σ)) key [] = Ok (true, block) else block = []) ->
  exists σ', compute_get_block_by_hash num_vars size_input size_output (with_tokens (get_words ks ys ++ ts) σ) = Ok (tt, with_tokens ts σ') /\
    forall i y, ys !! i = Some y -> read_loc σ' (place y LTemp) = Some (int (b2z (default false (block !! i)))).
Proof.
  intros Hks Hlen Hk Hwf Hys Hget. unfold compute_get_block_by_hash, get_words. rewrite <- !app_assoc, <- Hks.
  destruct (run_parse_hash ks key (["NUM_Y"; word (OConst (Z.of_nat (length ys))); "Y"] ++ map word ys ++ ts) σ Hk) as (σ1 & Hrun & Hs1).
  rewrite (run_bind _ _ _ _ _ Hrun). clear Hrun. set (tk := ["NUM_Y"; _; "Y"] ++ map word ys ++ ts).
  assert (get_block key (with_tokens tk σ1) = Ok (block, with_tokens tk σ1)) as Hgb.
  { unfold get_block. destruct (any key); [|by rewrite Hget].
    rewrite (step_gets _ _ _ _ (true, block)); [done|]. change (ram (with_tokens tk σ1)) with (ram σ1). by rewrite (same_ram _ _ _ Hs1). }
  rewrite (run_bind _ _ _ _ _ Hgb). unfold put_bits, tk. cbn [app].
  rewrite step_expect, (run_bind _ _ _ _ _ (run_count _ (Z.of_nat (length ys)) _ σ1 ltac:(lia))), step_expect, Nat2Z.id.
  set (σ2 := write_loc LTemp _ σ1). assert (same_but (fun l => l = LTemp) σ σ2) as Hs by (by apply same_write_r).
  destruct (write_bits_loop (fun i => if (i <? length block)%nat then block !!! i else false) (word (OConst (Z.of_nat (length ys)))) ys ts σ2) as (c & σ' & Hrun & Hread & _).
  - by apply (well_formed_same _ _ _ _ _ _ Hs).
  - destruct Hys as [Hys Hnd]. split; [|done]. apply (Forall_impl _ _ _ Hys). intros y (Hok & Hvar & z & Hz).
    split; [done|]. split; [done|]. exists z. rewrite (same_read _ _ _ Hs); [done|by destruct y].
  - exists σ'. split; [by rewrite (run_bind _ _ _ _ _ Hrun)|]. intros i y Hy. rewrite (Hread i y Hy). do 3 f_equal.
    destruct (Nat.ltb_spec i (length block)) as [Hi|Hi].
    + rewrite (list_lookup_lookup_total_lt _ _ Hi). done.
    + by rewrite lookup_ge_None_2.
Qed.

(** C15: A block put under a hash and then got by the same hash comes back to
    the variables bit for bit, as far as it fills whole bytes, with zeros
    after it.  The store takes the block under the hash; under the hash of
    zeros the memory and the store stay as they were, and zeros come back. *)
Theorem block_put_get ks xs ys key data ts ts' σ : length ks = getNumHashBits -> Z.of_nat (length xs) < 2 ^ 32 -> Z.of_nat (length ys) < 2 ^ 32 ->
  block_key key -> wf σ -> holds_bits σ ks key -> holds_bits σ xs data -> targets σ ys ->
  exists σ1 σ2, compute_put_block_by_hash num_vars size_input size_output (with_tokens (put_words ks xs ++ ts) σ) = Ok (tt, with_tokens ts σ1) /\
    (if any key then put (blockStore (ram σ)) key data = Ok (blockStore (ram σ1)) else ram σ1 = ram σ) /\
    compute_get_block_by_hash num_vars size_input size_output (with_tokens (get_words ks ys ++ ts') σ1) = Ok (tt, with_tokens ts' σ2) /\
    forall i y, ys !! i = Some y ->
      read_loc σ2 (place y LTemp) = Some (int (b2z (if any key then default false (whole data !! i) else false))).
Proof.
  intros Hks Hxs Hys Hkey Hwf Hk Hx Ht. destruct (run_put_block ks xs key data ts σ Hks Hxs Hkey Hk Hx) as (b & σ1 & Hput & Hsame & Hwf1 & Hb & Hstore).
  destruct (run_get_block ks ys key (if any key then whole data else []) ts' σ1 Hks Hys) as (σ2 & Hget & Hread).
  - apply (Forall2_impl _ _ _ _ Hk). intros o x [Ho Hh]. split; [done|]. destruct o; cbn [holds place] in *; try (by rewrite Hsame). done.
  - by apply Hwf1.
  - destruct Ht as [Ht Hnd]. split; [|done]. apply (Forall_impl _ _ _ Ht). intros y (Hok & Hvar & z & Hz).
    split; [done|]. split; [done|]. exists z. rewrite Hsame; [done|by destruct y].
  - destruct (any key); [|done]. rewrite Hb. destruct (put_ok (blockStore (ram σ)) key data Hkey) as (b' & Hput' & Hg & _).
    rewrite Hstore in Hput'. injection Hput' as <-. apply Hg.
  - exists σ1, σ2. split; [done|]. split; [by destruct (any key); [rewrite Hb|]|]. split; [done|]. intros i y Hy. rewrite (Hread i y Hy). by destruct (any key).
Qed.

End Blocks.

(** A block of nine bits under a hash of ones: eight come back. *)
Lemma block_put_get_witness :
  exists σ1 σ2, compute_put_block_by_hash (H := store) (HH := NullHash.NullHash) (H0 := MapCache) 12 2 1
      (with_tokens (put_words (replicate 128 (OConst 1)) (replicate 9 (OConst 1)) ++ []) (sample (replicate 12 0) [5; 4; 0])) = Ok (tt, with_tokens [] σ1) /\
    compute_get_block_by_hash (H := store) (HH := NullHash.NullHash) (H0 := MapCache) 12 2 1
      (with_tokens (get_words (replicate 128 (OConst 1)) (map OVar (seq 0 9)) ++ []) σ1) = Ok (tt, with_tokens [] σ2) /\
    read_loc σ2 (LF1 7) = Some (int 1) /\ read_loc σ2 (LF1 8) = Some (int 0).
Proof.
  destruct (block_put_get (H := store) (HH := NullHash.NullHash) (H1 := MapCache) 12 2 1 (replicate 128 (OConst 1)) (replicate 9 (OConst 1))
    (map OVar (seq 0 9)) (replicate 128 true) (replicate 9 true) [] [] (sample (replicate 12 0) [5; 4; 0])) as (σ1 & σ2 & Hput & _ & Hget & Hread).
  - reflexivity.
  - reflexivity.
  - reflexivity.
  - unfold block_key. rewrite length_replicate. by intros ?%Nat2Z.inj_iff.
  - by apply sample_prover_wf.
  - apply Forall2_replicate. by split.
  - apply Forall2_replicate. by split.
  - split.
    + repeat (apply Forall_cons; split; [split; [cbn; lia|split; [done|by exists 0]]|]). by apply Forall_nil.
    + by apply (bool_decide_unpack _).
  - exists σ1, σ2. split; [exact Hput|]. split; [exact Hget|]. split; [exact (Hread 7%nat (OVar 7) eq_refl)|exact (Hread 8%nat (OVar 8) eq_refl)].
Defined.
