(* ===== verification/ProverWaksman.v ===== *)
(** The statement [WAKSMAN_NETWORK]: the prover sorts the operations of the
    memory, and its variables satisfy the constraints of the network. *)
From Stdlib Require Import ZArith Lia Ascii String Sorting.Sorted.
From stdpp Require Import base numbers list strings pretty gmap.
From S2P Require Import Prelude Bits LevelDb GghHash MerkleRam Mpq Waksman WakRoute WakSort WakNet Prover Worksheet ProverFacts Gadgets.

Local Open Scope Z_scope.
#[local] Existing Instances prog_ret prog_bind.

(** An operation of the memory, as four words. *)
Record op : Type := { o_addr : operand; o_timestamp : operand; o_type : operand; o_value : operand }.

Definition op_words (o : op) : list string := map word [o_addr o; o_timestamp o; o_type o; o_value o].

Definition fields (x : data_t) : list Z := [addr x; timestamp x; type_ x; value x].

(** The numbers fit the fields of [data_t]. *)
Definition data_wf (x : data_t) : Prop := in_u 32 (addr x) /\ in_u 32 (timestamp x) /\ in_u 32 (type_ x) /\ in_s 64 (value x).

Definition waksman_words (ops : list op) (iv out sw : nat) : list string :=
  let n := length ops in
  ["WIDTH"; pretty (Z.of_nat n); "INPUT"] ++ concat (map op_words ops) ++
  ["INTERMEDIATE"; if (num_intermediate n =? 0)%nat then "NULL" else word (OVar iv); "OUTPUT"; word (OVar out); "SWITCH"; word (OVar sw)].

Section Statement.
Context `{HashBlockStore} `{CacheDB} `{GL : GmpLaws}.
Context (num_vars size_input size_output : nat).

Abbreviation wf := (well_formed num_vars size_input size_output).
Abbreviation ok := (operand_ok num_vars size_input size_output).

Definition op_holds (σ : ComputationProver) (o : op) (x : data_t) : Prop :=
  data_wf x /\ (ok (o_addr o) /\ holds σ (o_addr o) (addr x)) /\ (ok (o_timestamp o) /\ holds σ (o_timestamp o) (timestamp x)) /\
  (ok (o_type o) /\ holds σ (o_type o) (type_ x)) /\ (ok (o_value o) /\ holds σ (o_value o) (value x)).

(** *** Reading the operations *)

Lemma holds_after σ o o' v : holds σ o v -> holds (after o' LTemp σ) o v.
Proof. apply (holds_same (fun l => l = LTemp)); [by apply same_after|by destruct o]. Qed.

Lemma step_si {A} o z (f : string -> Z -> prog A) cmds ts σ : ok o -> holds σ o z -> in_s 64 z ->
  ('(cmds, x) ← next_si num_vars size_input size_output cmds; f cmds x) (with_tokens (word o :: ts) σ) =
  f (word o) z (with_tokens ts (after o LTemp σ)).
Proof.
  intros Ho Hz Hr. erewrite run_bind; [|unfold next_si; by rewrite (step_value _ _ _ _ o z) by done].
  cbn [numref int]. by rewrite mpz_get_si_eq.
Qed.

Lemma run_next_data σ o x cmds ts : op_holds σ o x ->
  exists c σ', next_data num_vars size_input size_output cmds (with_tokens (op_words o ++ ts) σ) = Ok ((c, x), with_tokens ts σ') /\ same_but (fun l => l = LTemp) σ σ'.
Proof.
  intros ((Ra & Rt & Ry & Rv) & [Oa Ha] & [Ot Ht] & [Oy Hy] & [Ov Hv]). unfold next_data, op_words. cbn [map app].
  assert (H32 : forall z, in_u 32 z -> in_s 64 z /\ u32 z = z) by (intros z Hz; split; [ranges|by apply wrapu_small]).
  destruct (H32 _ Ra) as [Sa Ua]. destruct (H32 _ Rt) as [St Ut]. destruct (H32 _ Ry) as [Sy Uy].
  rewrite (step_si (o_addr o) (addr x)) by done. rewrite (step_si (o_timestamp o) (timestamp x)) by (done || by apply holds_after).
  rewrite (step_si (o_type o) (type_ x)) by (done || by repeat apply holds_after). rewrite (step_si (o_value o) (value x)) by (done || by repeat apply holds_after).
  rewrite Ua, Ut, Uy. eexists _, _. split; [by destruct x|].
  apply (same_trans _ _ (after (o_addr o) LTemp σ)); [by apply same_after|]. eapply same_trans; [by apply same_after|]. eapply same_trans; by apply same_after.
Qed.

Lemma op_holds_same σ σ' o x : same_but (fun l => l = LTemp) σ σ' -> op_holds σ o x -> op_holds σ' o x.
Proof.
  intros Hs (Hx & [Oa Ha] & [Ot Ht] & [Oy Hy] & [Ov Hv]). assert (Hh : forall p z, holds σ p z -> holds σ' p z) by (intros p z; apply (holds_same _ _ _ _ _ Hs); by destruct p).
  split; [done|]. split_and!; auto.
Qed.

Lemma read_ops ops mem cmds ts σ : Forall2 (op_holds σ) ops mem ->
  exists c σ', for_prog 0 (length ops) (fun _ '(cmds, input) => '(cmds, d) ← next_data num_vars size_input size_output cmds; mret (cmds, input ++ [d])) (cmds, []) (with_tokens (concat (map op_words ops) ++ ts) σ) =
    Ok ((c, mem), with_tokens ts σ') /\ same_but (fun l => l = LTemp) σ σ'.
Proof.
  intros Hops. pose proof (Forall2_length _ _ _ Hops) as Hlen.
  destruct (for_prog_ind (fun i (s : string * list data_t) σ' => s.2 = take i mem /\ exists σ1, σ' = with_tokens (concat (map op_words (drop i ops)) ++ ts) σ1 /\ same_but (fun l => l = LTemp) σ σ1)
    0 (length ops) (fun _ '(cmds, input) => '(cmds, d) ← next_data num_vars size_input size_output cmds; mret (cmds, input ++ [d])) (cmds, []) (with_tokens (concat (map op_words ops) ++ ts) σ))
    as ([c acc] & σ' & Hrun & Hacc & σ1 & -> & Hs).
  - lia.
  - split; [done|]. exists σ. split; [done|apply same_refl].
  - intros i [c acc] σ' Hi [Hacc (σ1 & -> & Hs)]. cbn in Hacc. subst acc. destruct (lookup_lt_is_Some_2 ops i) as [o Ho]; [lia|].
    destruct (Forall2_lookup_l _ _ _ _ _ Hops Ho) as (x & Hx & Hh). rewrite (drop_S _ _ _ Ho). cbn [map concat]. rewrite <- app_assoc.
    destruct (run_next_data σ1 o x c (concat (map op_words (drop (S i) ops)) ++ ts)) as (c2 & σ2 & Hrun & Hs2); [by apply (op_holds_same σ)|].
    rewrite (run_bind _ _ _ _ _ Hrun). eexists _, _. split; [done|]. split; [by rewrite (take_S_r _ _ _ Hx)|].
    exists σ2. split; [done|]. by apply (same_trans _ _ σ1).
  - exists c, σ1. cbn in Hacc. rewrite Hrun, Hacc, drop_all, firstn_all2 by lia. done.
Qed.

(** *** Writing the arrays *)

Lemma run_set_F1 off vs (i z : Z) ts σ : i = Z.of_nat (off + length vs) -> (off + length vs < length (F1_q σ))%nat ->
  set_F1 i z (with_tokens ts (write_F1s off vs σ)) = Ok (tt, with_tokens ts (write_F1s off (vs ++ [int z]) σ)).
Proof.
  intros -> Hlen. unfold set_F1. rewrite (run_bind _ _ _ _ _ (run_F1_at _ _ (Nat2Z.is_nonneg _))), Nat2Z.id.
  rewrite run_setq; [by rewrite write_F1s_snoc|]. cbn. apply lookup_lt_is_Some_2. by rewrite length_inserts.
Qed.

Lemma step_set_F1 {A} off vs (i z : Z) (f : unit -> prog A) ts σ : i = Z.of_nat (off + length vs) -> (off + length vs < length (F1_q σ))%nat ->
  (set_F1 i z ≫= f) (with_tokens ts (write_F1s off vs σ)) = f tt (with_tokens ts (write_F1s off (vs ++ [int z]) σ)).
Proof. intros Hi Hlen. by rewrite (run_bind _ _ _ _ _ (run_set_F1 _ _ _ _ _ _ Hi Hlen)). Qed.

Lemma step_value_at {A B} (l : list A) i a (f : A -> prog B) σ : l !! i = Some a -> (value_at (Some <$> l) i ≫= f) σ = f a σ.
Proof.
  intros Ha. unfold value_at. erewrite run_bind; [reflexivity|]. erewrite run_bind; [|unfold lift; rewrite (rd_lookup _ _ (Some a)); [reflexivity|]]; [done|].
  by rewrite list_lookup_fmap, Ha.
Qed.

Lemma length_fields ds : length (concat (map fields ds)) = (4 * length ds)%nat.
Proof. induction ds as [|x ds IH]; [done|]. cbn [map concat]. rewrite length_app, IH. cbn. lia. Qed.

Lemma run_put_data (ds : list data_t) off ts σ : (off + 4 * length ds <= length (F1_q σ))%nat ->
  put_data (Some <$> ds) (length ds) (Z.of_nat off) (with_tokens ts σ) = Ok (tt, with_tokens ts (write_F1s off (map int (concat (map fields ds))) σ)).
Proof.
  intros Hlen. unfold put_data.
  destruct (for_prog_ind (fun i (_ : unit) σ' => σ' = with_tokens ts (write_F1s off (map int (concat (map fields (take i ds)))) σ)) 0 (length ds)
    (fun i _ => d ← value_at (Some <$> ds) i;
       set_F1 (Z.of_nat off + Z.of_nat i * num_elements + 0) (addr d);;
       set_F1 (Z.of_nat off + Z.of_nat i * num_elements + 1) (timestamp d);;
       set_F1 (Z.of_nat off + Z.of_nat i * num_elements + 2) (type_ d);;
       set_F1 (Z.of_nat off + Z.of_nat i * num_elements + 3) (value d)) tt (with_tokens ts σ)) as ([] & σ' & Hrun & ->).
  - lia.
  - by destruct σ.
  - intros i [] σ' Hi ->. destruct (lookup_lt_is_Some_2 ds i) as [x Hx]; [lia|]. rewrite (step_value_at _ _ _ _ _ Hx).
    set (vs := map int (concat (map fields (take i ds)))). assert (Hvs : length vs = (4 * i)%nat) by (unfold vs; rewrite length_map, length_fields, length_take; lia).
    rewrite (step_set_F1 off vs), (step_set_F1 off (vs ++ [_])), (step_set_F1 off ((vs ++ [_]) ++ [_])) by (unfold num_elements; rewrite ?length_app; cbn [length]; lia).
    rewrite (run_set_F1 off (((vs ++ [_]) ++ [_]) ++ [_])) by (unfold num_elements; rewrite ?length_app; cbn [length]; lia).
    eexists tt, _. split; [reflexivity|]. do 2 f_equal. rewrite (take_S_r _ _ _ Hx), map_app, concat_app, map_app. cbn. by rewrite <- !app_assoc.
  - by rewrite Hrun, firstn_all.
Qed.

Lemma run_put_switches (sws : list bool) off ts σ : (off + length sws <= length (F1_q σ))%nat ->
  for_prog 0 (length sws) (fun i _ => swap ← value_at (Some <$> sws) i; set_F1 (Z.of_nat off + Z.of_nat i) (b2z swap)) tt (with_tokens ts σ) =
  Ok (tt, with_tokens ts (write_F1s off (map (fun b => int (b2z b)) sws) σ)).
Proof.
  intros Hlen. apply (for_prog_F1s (length sws) off _ (fun _ => tt)); [by rewrite length_map|done|]. intros i v Hv.
  rewrite list_lookup_fmap in Hv. destruct (sws !! i) as [b|] eqn:Hb; [|done]. injection Hv as <-. rewrite (step_value_at _ _ _ _ _ Hb).
  pose proof (lookup_lt_Some _ _ _ Hb). assert (Hti : length (take i (map (fun b => int (b2z b)) sws)) = i) by (rewrite length_take, length_map; lia).
  rewrite run_set_F1 by (rewrite Hti; lia). rewrite <- write_F1s_snoc, Hti. done.
Qed.

Lemma fields_lookup ds j x k : ds !! j = Some x -> (k < 4)%nat -> map int (concat (map fields ds)) !! (4 * j + k)%nat = Some (int (field k x)).
Proof.
  revert j. induction ds as [|y ds IH]; intros j Hj Hk; [done|]. destruct j as [|j].
  - injection Hj as ->. cbn [map concat]. destruct k as [|[|[|[|k]]]]; [done..|lia].
  - cbn [map concat]. replace (4 * S j + k)%nat with (4 + (4 * j + k))%nat by lia. exact (IH j Hj Hk).
Qed.

(** The variables of the network follow each other. *)
Definition waksman_layout (n iv out sw : nat) : Prop := (iv + 4 * num_intermediate n <= out /\ out + 4 * n <= sw /\ sw + numSwitches n <= num_vars)%nat.

Record waksman_result (n iv out sw : nat) (inter output : list data_t) (sws : list bool) (σ σ' : ComputationProver) : Prop := {
  wr_inter : forall j x k, inter !! j = Some x -> (k < 4)%nat -> read_loc σ' (LF1 (iv + (4 * j + k))) = Some (int (field k x));
  wr_output : forall j x k, output !! j = Some x -> (k < 4)%nat -> read_loc σ' (LF1 (out + (4 * j + k))) = Some (int (field k x));
  wr_switches : forall j b, sws !! j = Some b -> read_loc σ' (LF1 (sw + j)) = Some (int (b2z b));
  wr_same : forall l, l <> LTemp -> ~ in_range_F1 iv (4 * num_intermediate n) l -> ~ in_range_F1 out (4 * n) l -> ~ in_range_F1 sw (numSwitches n) l ->
    read_loc σ' l = read_loc σ l
}.

Lemma range_iff start n i : in_range_F1 start n (LF1 i) <-> (start <= i < start + n)%nat.
Proof. split; [by intros (j & Hj & [= ->])|]. intros Hi. by exists i. Qed.

Lemma write_none start σ : write_F1s start [] σ = σ.
Proof. unfold write_F1s. cbn. by destruct σ. Qed.

Lemma pos_Nat z : Z.of_nat z <? 0 = false.
Proof. by apply Z.ltb_ge, Nat2Z.is_nonneg. Qed.

Lemma waksman_run ops mem iv out sw ts σ : (2 <= length ops)%nat -> wf σ -> waksman_layout (length ops) iv out sw -> Forall2 (op_holds σ) ops mem ->
  let n := length ops in
  exists σ' inter output sws, compute_waksman_network num_vars size_input size_output (with_tokens (waksman_words ops iv out sw ++ ts) σ) = Ok (tt, with_tokens ts σ') /\
    length inter = num_intermediate n /\ length sws = numSwitches n /\ output ≡ₚ mem /\ StronglySorted mem_le output /\
    Forall (gate_holds (value_of mem inter output) (Some <$> sws)) (network n n 0 0 WIn WOut) /\
    waksman_result n iv out sw inter output sws σ σ'.
Proof.
  intros Hn Hwf (L1 & L2 & L3) Hops n. pose proof (Forall2_length _ _ _ Hops) as Hlen. fold n in Hn, L1, L2, L3, Hlen.
  destruct (route_sorted mem ltac:(lia)) as (inter & output & sws & Hr & Hli & Hls & HP & HS & HG). rewrite <- Hlen in *.
  destruct (read_ops ops mem (pretty (Z.of_nat n)) (["INTERMEDIATE"; if (num_intermediate n =? 0)%nat then "NULL" else word (OVar iv); "OUTPUT"; word (OVar out); "SWITCH"; word (OVar sw)] ++ ts) σ Hops) as (c1 & σ1 & Hread & Hs1).
  assert (Hlo : length output = n) by (rewrite (Permutation_length HP); done). assert (HF1 : length (F1_q σ1) = num_vars) by (apply (F1_length _ _ _ _ (well_formed_same _ _ _ _ _ _ Hs1 Hwf))).
  set (σ2 := write_F1s iv (map int (concat (map fields inter))) σ1). set (σ3 := write_F1s out (map int (concat (map fields output))) σ2).
  exists (write_F1s sw (map (fun b => int (b2z b)) sws) σ3), inter, output, sws.
  assert (Hl1 : length (map int (concat (map fields inter))) = (4 * num_intermediate n)%nat) by (rewrite length_map, length_fields, Hli; done).
  assert (Hl2 : length (map int (concat (map fields output))) = (4 * n)%nat) by (rewrite length_map, length_fields, Hlo; done).
  assert (Hl3 : length (map (fun b => int (b2z b)) sws) = numSwitches n) by (by rewrite length_map).
  assert (Hf2 : length (F1_q σ2) = num_vars) by (cbn; by rewrite length_inserts). assert (Hf3 : length (F1_q σ3) = num_vars) by (cbn; by rewrite !length_inserts).
  assert (Hint : forall ts', let w := if (num_intermediate n =? 0)%nat then "NULL"%string else word (OVar iv) in
    (if String.eqb w "NULL" then mret tt else put_data (Some <$> inter) (num_intermediate n) (atoi1 w)) (with_tokens ts' σ1) = Ok (tt, with_tokens ts' σ2)).
  { intros ts' w. subst w. destruct (Nat.eqb_spec (num_intermediate n) 0) as [Hz|Hz].
    - cbn [String.eqb]. unfold σ2. destruct inter; [|cbn [length] in Hli; lia]. cbn [map concat]. by rewrite write_none.
    - cbn [word String.eqb Ascii.eqb Bool.eqb atoi1]. rewrite atoi_pretty, <- Hli. apply run_put_data. lia. }
  split.
  - unfold compute_waksman_network, waksman_words. fold n. rewrite <- app_assoc. cbn [app]. rewrite step_expect, step_word, step_expect, atoi_pretty, Nat2Z.id. cbn zeta.
    assert (2 * numSwitches n - n = num_intermediate n)%nat as Hni by done. pose proof (enough_switches n).
    replace (Z.of_nat (numSwitches n) * 2 - Z.of_nat n) with (Z.of_nat (num_intermediate n)) by lia. rewrite !pos_Nat, Nat2Z.id. cbn [orb].
    rewrite <- app_assoc. rewrite (run_bind _ _ _ _ _ Hread). erewrite run_bind; [|unfold lift; rewrite Hr; reflexivity]. cbn [app].
    rewrite step_expect, step_word, (run_bind _ _ _ _ _ (Hint _)).
    rewrite step_expect, step_word. unfold atoi1, word. rewrite !atoi_pretty.
    assert (Hout : forall ts', put_data (Some <$> output) n (Z.of_nat out) (with_tokens ts' σ2) = Ok (tt, with_tokens ts' σ3)) by (intros ts'; rewrite <- Hlo; apply run_put_data; lia).
    rewrite (run_bind _ _ _ _ _ (Hout _)). rewrite step_expect, step_word, atoi_pretty, <- Hls. apply run_put_switches. lia.
  - split_and!; try done. split.
    + intros j x k Hj Hk. pose proof (lookup_lt_Some _ _ _ Hj). rewrite write_F1s_ne by (rewrite Hl3, range_iff; lia). unfold σ3. rewrite write_F1s_ne by (rewrite Hl2, range_iff; lia).
      apply write_F1s_eq; [by apply fields_lookup|lia].
    + intros j x k Hj Hk. pose proof (lookup_lt_Some _ _ _ Hj). rewrite write_F1s_ne by (rewrite Hl3, range_iff; lia).
      apply write_F1s_eq; [by apply fields_lookup|lia].
    + intros j b Hj. apply write_F1s_eq; [by rewrite list_lookup_fmap, Hj|lia].
    + intros l Hl Hr1 Hr2 Hr3. rewrite write_F1s_ne by (by rewrite Hl3). unfold σ3. rewrite write_F1s_ne by (by rewrite Hl2). unfold σ2. rewrite write_F1s_ne by (by rewrite Hl1).
      by apply (same_read _ _ _ Hs1).
Qed.

(** The variable of a word of the constraints: the names of the nodes in the
    order of the compiler's table, an operation in four variables. *)
Definition variable_of (names : list nat) (iv out sw : nat) (t : term) : option nat :=
  match t with
  | TNode w k =>
      match slot_of names w with
      | WVar j => Some (iv + (4 * j + k))
      | WOut j => Some (out + (4 * j + k))
      | WIn _ => None
      end
  | TSwitch j => Some (sw + j)
  | _ => None
  end%nat.

Definition operand_of (k : nat) (o : op) : operand := match k with O => o_addr o | 1%nat => o_timestamp o | 2%nat => o_type o | _ => o_value o end.

(** Its value in the prover. *)
Definition variable_val (names : list nat) (ops : list op) (iv out sw : nat) (σ : ComputationProver) (t : term) : option Z :=
  match t with
  | TConst z => Some z
  | TInput i k => o ← ops !! i; numref <$> read_loc σ (place (operand_of k o) LTemp)
  | _ => v ← variable_of names iv out sw t; numref <$> read_loc σ (LF1 v)
  end.

Lemma satisfied_mono (val val' : term -> option Z) c : (forall t z, t ∈ [ca c; cb c; cc c; cd c; ce c] -> val t = Some z -> val' t = Some z) -> satisfied val c = true -> satisfied val' c = true.
Proof.
  intros Hv. assert (Hall : Forall (fun t => forall z, val t = Some z -> val' t = Some z) [ca c; cb c; cc c; cd c; ce c]) by (apply Forall_forall; auto).
  rewrite !Forall_cons in Hall. destruct Hall as (Ha & Hb & Hc & Hd & He & _). unfold satisfied.
  destruct (val (ca c)); [|done]. destruct (val (cb c)); [|done]. destruct (val (cc c)); [|done]. destruct (val (cd c)); [|done]. destruct (val (ce c)); [|done].
  by rewrite (Ha _ eq_refl), (Hb _ eq_refl), (Hc _ eq_refl), (Hd _ eq_refl), (He _ eq_refl).
Qed.

(** The fields of the constraints are the four of an operation. *)
Definition field_ok (t : term) : Prop := match t with TNode _ k => (k < 4)%nat | _ => True end.

Lemma fields_ok n : Forall (fun c => Forall field_ok [ca c; cb c; cc c; cd c; ce c]) (waksman_network_as_basic_constraints n).
Proof.
  unfold waksman_network_as_basic_constraints. apply Forall_concat, Forall_fmap, Forall_true. intros g. apply Forall_concat, Forall_tabulate. intros k Hk.
  unfold gen_field. destruct (s1 g), (s2 g); repeat (apply Forall_cons_2 || apply Forall_nil_2); done.
Qed.

(** C3: On the line the compiler writes for the memory of a program, the
    prover ends; its outputs are the operations sorted by address and time, and
    the values it leaves in the variables satisfy every constraint the compiler
    makes of the network. *)
Theorem waksman_statement_complete ops mem iv out sw ts σ :
  (2 <= length ops)%nat -> wf σ -> waksman_layout (length ops) iv out sw -> Forall2 (op_holds σ) ops mem ->
  exists σ' output, compute_waksman_network num_vars size_input size_output (with_tokens (waksman_words ops iv out sw ++ ts) σ) = Ok (tt, with_tokens ts σ') /\
    output ≡ₚ mem /\ StronglySorted mem_le output /\
    (forall j x k, output !! j = Some x -> (k < 4)%nat -> read_loc σ' (LF1 (out + (4 * j + k))) = Some (int (field k x))) /\
    Forall (fun c => satisfied (variable_val (intermediate_nodes (parseNet (waksman (length ops)))) ops iv out sw σ') c = true)
      (waksman_network_as_basic_constraints (length ops)).
Proof.
  intros Hn Hwf Hlay Hops. destruct (waksman_run ops mem iv out sw ts σ Hn Hwf Hlay Hops) as (σ' & inter & output & sws & Hrun & Hli & Hls & HP & HS & HG & [WI WO WS _]).
  exists σ', output. split_and!; try done. pose proof (network_satisfied mem [] inter output sws _ Hn HG) as Hsat. cbn zeta in Hsat. set (names := intermediate_nodes _) in *.
  pose proof (proj2 (Forall_and _ _) (conj Hsat (fields_ok (length ops)))) as Hboth. eapply Forall_impl; [exact Hboth|]. intros c [Hc Hf].
  apply (satisfied_mono (term_val names [] inter output sws)); [|done]. intros t z Ht. pose proof (proj1 (Forall_forall _ _) Hf t Ht) as Hk. destruct t as [z'|i k|w k|j]; cbn [field_ok] in Hk.
  - done.
  - by cbn.
  - unfold term_val, variable_val, variable_of. destruct (slot_of names w) as [j|j|j]; cbn [value_of]; [done|..].
    + destruct (inter !! j) as [x|] eqn:Hx; [|done]. intros [= <-]. change (numref <$> read_loc σ' (LF1 (iv + (4 * j + k))) = Some (field k x)). by rewrite (WI j x k).
    + destruct (output !! j) as [x|] eqn:Hx; [|done]. intros [= <-]. change (numref <$> read_loc σ' (LF1 (out + (4 * j + k))) = Some (field k x)). by rewrite (WO j x k).
  - unfold term_val. destruct (sws !! j) as [b|] eqn:Hb; [|done]. intros [= <-]. change (numref <$> read_loc σ' (LF1 (sw + j)) = Some (b2z b)). by rewrite (WS j b).
Qed.

End Statement.

(** ** A memory of three operations *)

Definition sample_op (a t ty v : Z) : op := {| o_addr := OConst a; o_timestamp := OConst t; o_type := OConst ty; o_value := OConst v |}.
Definition sample_ops : list op := [sample_op 5 0 1 40; sample_op 3 1 1 41; sample_op 5 2 0 42].
Definition sample_mem : list data_t :=
  [ {| addr := 5; timestamp := 0; type_ := 1; value := 40 |}; {| addr := 3; timestamp := 1; type_ := 1; value := 41 |};
    {| addr := 5; timestamp := 2; type_ := 0; value := 42 |} ].

Lemma waksman_statement_complete_witness :
  exists σ' output, compute_waksman_network (H := store) (H0 := MapCache) 30 0 0 (with_tokens (waksman_words sample_ops 2 14 26 ++ ["P"]) (sample (replicate 30 0) [])) = Ok (tt, with_tokens ["P"] σ') /\
    output ≡ₚ sample_mem /\ StronglySorted mem_le output.
Proof.
  destruct (waksman_statement_complete (H := store) (H0 := MapCache) 30 0 0 sample_ops sample_mem 2 14 26 ["P"] (sample (replicate 30 0) [])) as (σ' & output & Hrun & HP & HS & _).
  - cbn. lia.
  - by split.
  - unfold waksman_layout. vm_compute. lia.
  - assert (Hd : forall a t ty v, in_u 32 a -> in_u 32 t -> in_u 32 ty -> in_s 64 v ->
      op_holds (H := store) (H0 := MapCache) 30 0 0 (sample (replicate 30 0) []) (sample_op a t ty v) {| addr := a; timestamp := t; type_ := ty; value := v |}) by done.
    apply Forall2_cons_2; [|apply Forall2_cons_2; [|apply Forall2_cons_2; [|apply Forall2_nil_2]]]; apply Hd; ranges.
  - exists σ', output. split; [exact Hrun|]. split; [exact HP|exact HS].
Defined.
