(* ===== verification/Program.v ===== *)
(** Whole programs: the lines of a specification, the worksheet and the
    constraints that the compiler makes of them, and that the prover's values
    for the worksheet satisfy the constraints.

    A line assigns names.  The symbol table of the compiler, [to_var] and
    [prover_var], is a function [idx] from names to variables. *)
From Stdlib Require Import ZArith Lia Ascii String.
From stdpp Require Import base numbers list strings pretty gmap.
From S2P Require Import Prelude Bits LevelDb GghHash MerkleRam Mpq Prover Worksheet ProverFacts Poly Gadgets Constraints ProverProps.

Local Open Scope Z_scope.
#[local] Existing Instances prog_ret prog_bind.

(** ** Lines *)

Inductive line : Type :=
| LPoly (A B C : lin) (target : string)                          (** [( A ) * ( B ) + ( C - target )] *)
| LLess (na2 : Z) (arg0 arg1 : arg) (target : string)            (** [arg0 < arg1 - target] *)
| LNotEq (arg0 arg1 : arg) (target : string)                     (** [arg0 != arg1 - target] *)
| LSplit (n : nat) (x : arg) (prefix : string) (first : nat)     (** [SI x into n bits at prefix first] *)
| LSplitLe (signed : bool) (n : nat) (x : arg) (prefix : string) (first : nat).  (** [SIL int bits n X x Y0 prefix first] *)

(** [to_basic_constraints] *)
Definition to_basic_constraints (l : line) : list constraint :=
  match l with
  | LPoly A B C target => [ {| polyA := A; polyB := B; polyC := C ++ [(-1, ArgVar target)] |} ]
  | LLess na2 arg0 arg1 target => less_than_as_basic_constraints_i na2 arg0 arg1 target
  | LNotEq arg0 arg1 target => not_equal_as_basic_constraints false arg0 arg1 target
  | LSplit n x prefix first => split_unsignedint_as_basic_constraints n x prefix first
  | LSplitLe signed n x prefix first => split_int_le_as_basic_constraints signed n x prefix first
  end.

(** The values a line assigns. *)
Definition bindings (p : Z) (inv : Z -> Z) (l : line) (env : string -> Z) : list (string * Z) :=
  match l with
  | LPoly A B C target => [(target, lin_value env A * lin_value env B + lin_value env C)]
  | LLess na2 arg0 arg1 target =>
      let v0 := arg_value env arg0 in let v1 := arg_value env arg1 in
      [(target, b2z (v0 <? v1)); (aux target "Mlt", b2z (v0 <? v1)); (aux target "Meq", b2z (v0 =? v1)); (aux target "Mgt", b2z (v1 <? v0))] ++
      tabulate (Z.to_nat (na2 - 1)) (fun i =>
        (aux target (bit_name "N" i), b2z (Z.testbit (2 ^ (na2 - 1) - Z.abs (v0 - v1)) (Z.of_nat i)) * 2 ^ Z.of_nat i))
  | LNotEq arg0 arg1 target =>
      let v0 := arg_value env arg0 in let v1 := arg_value env arg1 in
      [(target, b2z (negb (v0 =? v1))); (aux target "M", if v0 =? v1 then 0 else inv (v0 - v1))]
  | LSplit n x prefix first =>
      tabulate n (fun i => (bit_name prefix (first + i), b2z (Z.testbit (arg_value env x) (Z.of_nat n - 1 - Z.of_nat i))))
  | LSplitLe signed n x prefix first =>
      tabulate n (fun i => (bit_name prefix (first + i), b2z (Z.testbit (arg_value env x) (Z.of_nat i))))
  end.

Fixpoint assoc (l : list (string * Z)) (s : string) : option Z :=
  match l with [] => None | (k, v) :: l => if String.eqb k s then Some v else assoc l s end.

(** What the line means: the names it assigns change. *)
Definition exec (p : Z) (inv : Z -> Z) (l : line) (env : string -> Z) : string -> Z :=
  fun s => default (env s) (assoc (bindings p inv l env) s).

Definition exec_all (p : Z) (inv : Z -> Z) (ls : list line) (env : string -> Z) : string -> Z :=
  foldl (fun env l => exec p inv l env) env ls.

Definition defs (l : line) : list string :=
  match l with
  | LPoly _ _ _ target => [target]
  | LLess na2 _ _ target =>
      [target; aux target "Mlt"; aux target "Meq"; aux target "Mgt"] ++ tabulate (Z.to_nat (na2 - 1)) (fun i => aux target (bit_name "N" i))
  | LNotEq _ _ target => [target; aux target "M"]
  | LSplit n _ prefix first | LSplitLe _ n _ prefix first => tabulate n (fun i => bit_name prefix (first + i))
  end.

Definition arg_names (a : arg) : list string := match a with ArgVar s => [s] | ArgConst _ => [] end.

Definition uses (l : line) : list string :=
  match l with
  | LPoly A B C _ => concat (map (fun t => arg_names t.2) (A ++ B ++ C))
  | LLess _ arg0 arg1 _ | LNotEq arg0 arg1 _ => arg_names arg0 ++ arg_names arg1
  | LSplit _ x _ _ | LSplitLe _ _ x _ _ => arg_names x
  end.

(** The numbers fit the bits allotted. *)
Definition valid (p : Z) (l : line) (env : string -> Z) : Prop :=
  match l with
  | LPoly _ _ _ _ => True
  | LLess na2 arg0 arg1 _ => 2 <= na2 /\ Z.abs (arg_value env arg0 - arg_value env arg1) <= 2 ^ (na2 - 1)
  | LNotEq arg0 arg1 _ => arg_value env arg0 <> arg_value env arg1 -> arg_value env arg0 mod p <> arg_value env arg1 mod p
  | LSplit n x _ _ => (0 < n)%nat /\ 0 <= arg_value env x < 2 ^ Z.of_nat n
  | LSplitLe signed n x _ _ => (0 < n)%nat /\ if signed then in_s (Z.of_nat n) (arg_value env x) else 0 <= arg_value env x < 2 ^ Z.of_nat n
  end.

(** What the constraints of a line determine, and the values beside it that
    help them do so. *)
Definition results (l : line) : list string :=
  match l with
  | LPoly _ _ _ target | LLess _ _ _ target | LNotEq _ _ target => [target]
  | LSplit n _ prefix first | LSplitLe _ n _ prefix first => tabulate n (fun i => bit_name prefix (first + i))
  end.

Definition hidden (l : line) : list string :=
  match l with
  | LLess na2 _ _ target =>
      [aux target "Mlt"; aux target "Meq"; aux target "Mgt"] ++ tabulate (Z.to_nat (na2 - 1)) (fun i => aux target (bit_name "N" i))
  | LNotEq _ _ target => [aux target "M"]
  | _ => []
  end.

Lemma defs_parts l : defs l = results l ++ hidden l.
Proof. destruct l; cbn; by rewrite ?app_nil_r. Qed.

(** The bits allotted fit the field. *)
Definition fits (p : Z) (l : line) : Prop :=
  match l with
  | LLess na2 _ _ _ => 2 ^ na2 < p
  | LSplit n _ _ _ | LSplitLe _ n _ _ _ => 2 ^ Z.of_nat n <= p
  | _ => True
  end.

(** Every name is assigned once, and not before it is read. *)
Fixpoint single_assignment (ls : list line) : Prop :=
  match ls with
  | [] => True
  | l :: ls =>
      NoDup (defs l) /\ (forall s, s ∈ uses l -> s ∉ defs l) /\
      (forall s, s ∈ defs l ++ uses l -> s ∉ concat (map defs ls)) /\ single_assignment ls
  end.

Fixpoint all_valid (p : Z) (inv : Z -> Z) (ls : list line) (env : string -> Z) : Prop :=
  match ls with [] => True | l :: ls => valid p l env /\ all_valid p inv ls (exec p inv l env) end.

(** ** The meaning of lines *)

Section Meaning.
Context (p : Z) (inv : Z -> Z).

Lemma fst_tabulate {A} n (f : nat -> string) (g : nat -> A) : map fst (tabulate n (fun i => (f i, g i))) = tabulate n f.
Proof. unfold tabulate. by rewrite map_map. Qed.

Lemma bindings_defs l env : map fst (bindings p inv l env) = defs l.
Proof. destruct l; cbn; try done; rewrite ?map_app, fst_tabulate; done. Qed.

Lemma assoc_None l s : s ∉ map fst l -> assoc l s = None.
Proof.
  induction l as [|[k v] l IH]; intros Hs; [done|]. cbn in *. apply not_elem_of_cons in Hs as [Hne Hs].
  rewrite (proj2 (String.eqb_neq _ _)) by congruence. by apply IH.
Qed.

Lemma assoc_Some l s v : NoDup (map fst l) -> (s, v) ∈ l -> assoc l s = Some v.
Proof.
  induction l as [|[k w] l IH]; intros Hnd Hin; [by apply not_elem_of_nil in Hin|]. cbn in *. apply NoDup_cons in Hnd as [Hk Hnd].
  apply elem_of_cons in Hin as [[= -> ->]|Hin]; [by rewrite String.eqb_refl|].
  rewrite (proj2 (String.eqb_neq _ _)); [by apply IH|]. intros ->. apply Hk. apply list_elem_of_fmap. by exists (s, v).
Qed.

Lemma exec_other l env s : s ∉ defs l -> exec p inv l env s = env s.
Proof. intros Hs. unfold exec. by rewrite assoc_None by by rewrite bindings_defs. Qed.

Lemma exec_binding l env s v : NoDup (defs l) -> (s, v) ∈ bindings p inv l env -> exec p inv l env s = v.
Proof. intros Hnd Hin. unfold exec. by rewrite (assoc_Some _ _ v) by by rewrite ?bindings_defs. Qed.

Lemma exec_all_other ls env s : s ∉ concat (map defs ls) -> exec_all p inv ls env s = env s.
Proof.
  revert env. induction ls as [|l ls IH]; intros env Hs; [done|]. cbn in *. apply not_elem_of_app in Hs as [Hl Hs].
  unfold exec_all in IH. rewrite IH by done. by apply exec_other.
Qed.

Lemma tabulate_elem {A} n (f : nat -> A) i : (i < n)%nat -> f i ∈ tabulate n f.
Proof. intros Hi. unfold tabulate. apply list_elem_of_fmap. exists i. split; [done|]. apply elem_of_seq. lia. Qed.

Lemma elem_tabulate {A} n (f : nat -> A) x : x ∈ tabulate n f -> exists i, (i < n)%nat /\ x = f i.
Proof. unfold tabulate. intros (i & -> & Hi%elem_of_seq)%list_elem_of_fmap. exists i. split; [lia|done]. Qed.

End Meaning.

Section Congruence.
Context (p : Z).

Lemma lin_cong (f g : string -> Z) (l : lin) : (forall s, s ∈ concat (map (fun t => arg_names t.2) l) -> (p | f s - g s)) ->
  (p | lin_value f l - lin_value g l).
Proof.
  induction l as [|[c a] l IH]; intros Hfg; cbn in *; [apply Z.divide_0_r|].
  replace (_ - _) with (c * (arg_value f a - arg_value g a) + (lin_value f l - lin_value g l)) by lia. apply Z.divide_add_r.
  - apply Z.divide_mul_r. destruct a; cbn in *; [|rewrite Z.sub_diag; apply Z.divide_0_r]. apply Hfg. by left.
  - apply IH. intros s Hs. apply Hfg, elem_of_app. by right.
Qed.

End Congruence.

Section Satisfied.
Context (p : Z) (Hp : Z.prime p) (inv : Z -> Z).
Context (Hinv : forall z, z mod p <> 0 -> (p | z * inv z - 1)).

(** Values that agree with those of the line, up to [p], satisfy its
    constraints. *)
Lemma line_satisfied l env asg : valid p l env -> NoDup (defs l) -> (forall s, s ∈ uses l -> s ∉ defs l) ->
  (forall s, s ∈ defs l \/ s ∈ uses l -> (p | asg s - exec p inv l env s)) ->
  all_satisfied p asg (to_basic_constraints l) = true.
Proof.
  intros Hv Hnd Hud Hasg.
  assert (forall s, s ∈ uses l -> (p | asg s - env s)) as Huse.
  { intros s Hs. rewrite <- (exec_other p inv l env s) by by apply Hud. apply Hasg. by right. }
  assert (forall s v, (s, v) ∈ bindings p inv l env -> (p | asg s - v)) as Hdef.
  { intros s v Hs. rewrite <- (exec_binding p inv l env s v Hnd Hs). apply Hasg. left. rewrite <- (bindings_defs p inv l env).
    apply list_elem_of_fmap. by exists (s, v). }
  assert (forall a, (forall s, s ∈ arg_names a -> s ∈ uses l) -> (p | arg_value asg a - arg_value env a)) as Harg.
  { intros [s|z] Ha; cbn; [|rewrite Z.sub_diag; apply Z.divide_0_r]. apply Huse, Ha. by apply list_elem_of_singleton. }
  destruct l as [A B C target|na2 arg0 arg1 target|arg0 arg1 target|n x prefix first|signed n x prefix first]; cbn [to_basic_constraints valid uses] in *.
  - apply (all_cons p Hp). split; [|done]. unfold constraint_value. cbn [polyA polyB polyC]. rewrite lin_value_app. cbn [lin_value arg_value].
    specialize (Hdef target _ (list_elem_of_here _ _)). rewrite !map_app, !concat_app in Huse.
    pose proof (divide_cong p _ _ _ _ (lin_cong p asg env A ltac:(set_solver)) (lin_cong p asg env B ltac:(set_solver))) as Hab.
    pose proof (lin_cong p asg env C ltac:(set_solver)) as Hc.
    replace (_ + _) with ((lin_value asg A * lin_value asg B - lin_value env A * lin_value env B) + (lin_value asg C - lin_value env C)
      - (asg target - (lin_value env A * lin_value env B + lin_value env C))) by lia. known.
  - destruct Hv as [HN Hd]. apply (less_than_complete_lemma p Hp asg na2 arg0 arg1 target (arg_value env arg0) (arg_value env arg1));
      [lia|done|apply Harg; set_solver|apply Harg; set_solver|apply Hdef; cbn; set_solver..|].
    intros i Hi. apply Hdef. cbn [bindings]. apply elem_of_app. right.
    apply (tabulate_elem _ (fun i => (aux target (bit_name "N" i), b2z (Z.testbit (2 ^ (na2 - 1) - Z.abs (arg_value env arg0 - arg_value env arg1)) (Z.of_nat i)) * 2 ^ Z.of_nat i)) i Hi).
  - apply (not_equal_complete_lemma p Hp asg arg0 arg1 target (arg_value env arg0) (arg_value env arg1) (inv (arg_value env arg0 - arg_value env arg1)));
      [apply Harg; set_solver|apply Harg; set_solver| |apply Hdef; cbn; set_solver..].
    intros Hne. apply Hinv. specialize (Hv Hne). intros Hz. apply Hv. apply Z.mod_divide in Hz as [k Hk]; [|pose proof (Z.prime_ge_2 p Hp); lia].
    replace (arg_value env arg0) with (arg_value env arg1 + k * p) by lia. apply Z_mod_plus_full.
  - destruct Hv as [Hn Hv]. apply (split_facts p Hp). assert (forall i, (i < n)%nat ->
      (p | asg (bit_name prefix (first + i)) - b2z (Z.testbit (arg_value env x) (Z.of_nat n - 1 - Z.of_nat i)))) as Hb.
    { intros i Hi. apply Hdef. apply (tabulate_elem n (fun i => (bit_name prefix (first + i), b2z (Z.testbit (arg_value env x) (Z.of_nat n - 1 - Z.of_nat i)))) i Hi). }
    split; [by apply (bits_boolean p n _ _ Hb)|]. pose proof (Harg x ltac:(done)) as Hx.
    pose proof (bits_sum p n (fun i => asg (bit_name prefix (first + (n - 1 - i)))) (arg_value env x)) as Hs. rewrite Z.mod_small in Hs by done.
    replace (_ - _) with ((sum_to n (fun i => 2 ^ Z.of_nat i * asg (bit_name prefix (first + (n - 1 - i)))) - arg_value env x)
      - (arg_value asg x - arg_value env x)) by lia. apply Z.divide_sub_r; [|done]. apply Hs. intros i Hi.
    replace (Z.of_nat i) with (Z.of_nat n - 1 - Z.of_nat (n - 1 - i)) by lia. apply Hb. lia.
  - destruct Hv as [Hn Hv]. apply (split_le_complete_lemma p Hp signed n prefix first x (arg_value env x)); [done|done|by apply Harg|].
    intros i Hi. apply Hdef. apply (tabulate_elem n (fun i => (bit_name prefix (first + i), b2z (Z.testbit (arg_value env x) (Z.of_nat i)))) i Hi).
Qed.

Lemma program_satisfied ls env asg : single_assignment ls -> all_valid p inv ls env ->
  (forall l s, l ∈ ls -> s ∈ defs l \/ s ∈ uses l -> (p | asg s - exec_all p inv ls env s)) ->
  all_satisfied p asg (concat (map to_basic_constraints ls)) = true.
Proof.
  revert env. induction ls as [|l ls IH]; intros env; [done|]. intros (Hnd & Hud & Hfresh & Hsa) [Hv Hvs] Hasg.
  cbn [map concat]. apply (all_app p). split.
  - apply (line_satisfied l env asg Hv Hnd Hud). intros s Hs. specialize (Hasg l s (list_elem_of_here _ _) Hs). cbn in Hasg.
    rewrite <- (exec_all_other p inv ls (exec p inv l env) s) by by apply Hfresh, elem_of_app. exact Hasg.
  - apply (IH (exec p inv l env)); [done|done|]. intros l' s Hl. apply Hasg. by apply list_elem_of_further.
Qed.

End Satisfied.

Section Sound.
Context (p : Z) (Hp : Z.prime p) (inv : Z -> Z).

Lemma mod_iff a b : (p | a - b) <-> a mod p = b mod p.
Proof.
  pose proof (Z.prime_ge_2 p Hp). split.
  - intros [k Hk]. replace a with (b + k * p) by lia. apply Z_mod_plus_full.
  - intros Hab. apply Z.mod_divide; [lia|]. by rewrite Zminus_mod, Hab, Z.sub_diag.
Qed.

(** Whatever values satisfy the constraints of a line agree with it on the
    names it determines. *)
Lemma line_sound l env asg : 3 < p -> valid p l env -> fits p l -> NoDup (defs l) ->
  (forall s, s ∈ uses l -> (p | asg s - env s)) -> all_satisfied p asg (to_basic_constraints l) = true ->
  forall s, s ∈ results l -> (p | asg s - exec p inv l env s).
Proof.
  intros Hp3 Hv Hf Hnd Huse Hall.
  assert (Hexec : forall s v, (s, v) ∈ bindings p inv l env -> asg s mod p = v mod p -> (p | asg s - exec p inv l env s)).
  { intros s v Hs Hv'. rewrite (exec_binding p inv l env s v Hnd Hs). by apply mod_iff. }
  assert (forall a, (forall s, s ∈ arg_names a -> s ∈ uses l) -> (p | arg_value asg a - arg_value env a)) as Harg.
  { intros [s|z] Ha; cbn; [|rewrite Z.sub_diag; apply Z.divide_0_r]. apply Huse, Ha. by apply list_elem_of_singleton. }
  destruct l as [A B C target|na2 arg0 arg1 target|arg0 arg1 target|n x prefix first|signed n x prefix first];
    cbn [to_basic_constraints valid uses fits results] in *; intros s Hs.
  - apply list_elem_of_singleton in Hs as ->. eapply Hexec; [by apply list_elem_of_singleton|]. apply mod_iff.
    apply (all_cons p Hp) in Hall as [Hall _]. unfold constraint_value in Hall. cbn [polyA polyB polyC] in Hall. rewrite lin_value_app in Hall. cbn [lin_value arg_value] in Hall.
    rewrite !map_app, !concat_app in Huse.
    pose proof (divide_cong p _ _ _ _ (lin_cong p asg env A ltac:(set_solver)) (lin_cong p asg env B ltac:(set_solver))) as Hab.
    pose proof (lin_cong p asg env C ltac:(set_solver)) as Hc.
    replace (asg target - _) with ((lin_value asg A * lin_value asg B - lin_value env A * lin_value env B) + (lin_value asg C - lin_value env C)
      - (lin_value asg A * lin_value asg B + (lin_value asg C + (-1 * asg target + 0)))) by lia. known.
  - apply list_elem_of_singleton in Hs as ->. destruct Hv as [HN Hd]. eapply Hexec; [by apply list_elem_of_here|].
    rewrite (less_than_sound_lemma p Hp asg na2 arg0 arg1 target (arg_value env arg0) (arg_value env arg1));
      [|lia|done|done|done|apply Harg; set_solver|apply Harg; set_solver|done].
    symmetry. apply Z.mod_small. destruct (_ <? _); cbn; lia.
  - apply list_elem_of_singleton in Hs as ->. eapply Hexec; [by apply list_elem_of_here|].
    rewrite (not_equal_sound_lemma p Hp asg false arg0 arg1 target) by done.
    rewrite (proj1 (mod_iff _ _) (Harg arg0 ltac:(set_solver))), (proj1 (mod_iff _ _) (Harg arg1 ltac:(set_solver))).
    destruct (Z.eqb_spec (arg_value env arg0) (arg_value env arg1)) as [->|Hne]; [by rewrite Z.eqb_refl|].
    rewrite (proj2 (Z.eqb_neq _ _) (Hv Hne)). symmetry. apply Z.mod_small. cbn. lia.
  - apply elem_tabulate in Hs as (i & Hi & ->). destruct Hv as [Hn Hv]. apply (Hexec _ (b2z (Z.testbit (arg_value env x) (Z.of_nat n - 1 - Z.of_nat i)))).
    { exact (tabulate_elem n (fun i => (bit_name prefix (first + i), b2z (Z.testbit (arg_value env x) (Z.of_nat n - 1 - Z.of_nat i)))) i Hi). }
    apply (split_facts p Hp) in Hall as [Hb Hsum]. apply mod_iff.
    replace (Z.of_nat n - 1 - Z.of_nat i) with (Z.of_nat (n - 1 - i)) by lia. replace i with (n - 1 - (n - 1 - i))%nat at 1 by lia.
    apply (unsigned_sound p Hp n (fun i => asg (bit_name prefix (first + (n - 1 - i)))) (arg_value asg x)); try done; [|by apply Harg|lia].
    intros j Hj. apply Hb. lia.
  - apply elem_tabulate in Hs as (i & Hi & ->). destruct Hv as [Hn Hv]. apply (Hexec _ (b2z (Z.testbit (arg_value env x) (Z.of_nat i)))).
    { exact (tabulate_elem n (fun i => (bit_name prefix (first + i), b2z (Z.testbit (arg_value env x) (Z.of_nat i)))) i Hi). }
    apply (split_le_facts p Hp) in Hall as [Hb Hsum]; [|done]. apply mod_iff. destruct signed.
    + by apply (signed_sound p Hp n (fun i => asg (bit_name prefix (first + i))) (arg_value asg x)); [..|apply Harg| | |].
    + rewrite Z.sub_0_r in Hsum. by apply (unsigned_sound p Hp n (fun i => asg (bit_name prefix (first + i))) (arg_value asg x)); [..|apply Harg| | |].
Qed.

Lemma program_sound_lemma ls env asg : 3 < p -> single_assignment ls -> all_valid p inv ls env -> Forall (fits p) ls ->
  (forall s, s ∈ concat (map hidden ls) -> s ∉ concat (map uses ls)) ->
  (forall s, s ∈ concat (map uses ls) -> s ∉ concat (map defs ls) -> (p | asg s - env s)) ->
  all_satisfied p asg (concat (map to_basic_constraints ls)) = true ->
  forall l s, l ∈ ls -> s ∈ results l -> (p | asg s - exec_all p inv ls env s).
Proof.
  intros Hp3. revert env. induction ls as [|l ls IH]; intros env; [by intros; exfalso; eapply not_elem_of_nil|].
  intros (Hnd & Hud & Hfresh & Hsa) [Hv Hvs] [Hf Hfs]%Forall_cons Hh Huse [Hl Hls]%(all_app p). cbn [map concat] in *.
  assert (Hhead : forall s, s ∈ results l -> (p | asg s - exec p inv l env s)).
  { apply line_sound; try done. intros s Hs. apply Huse; [apply elem_of_app; by left|]. rewrite elem_of_app. intros [Hd|Hd]; [by apply (Hud s)|].
    by apply (Hfresh s); [apply elem_of_app; right|]. }
  intros l' s [->|Hl']%elem_of_cons Hs.
  - change (exec_all p inv (l :: ls) env) with (exec_all p inv ls (exec p inv l env)). rewrite exec_all_other; [by apply Hhead|].
    apply Hfresh, elem_of_app. left. rewrite defs_parts. apply elem_of_app. by left.
  - apply (IH (exec p inv l env)) with l'; try done.
    + intros s' Hs' Hu. apply (Hh s'); apply elem_of_app; by right.
    + intros s' Hs' Hd'. destruct (decide (s' ∈ defs l)) as [Hd|Hd].
      * rewrite defs_parts in Hd. apply elem_of_app in Hd as [Hd|Hd]; [by apply Hhead|]. exfalso.
        apply (Hh s'); apply elem_of_app; [by left|by right].
      * rewrite exec_other by done. apply Huse; [apply elem_of_app; by right|]. rewrite elem_of_app. tauto.
Qed.

End Sound.

(** ** The worksheet *)

Section Worksheets.
Context (idx : string -> operand).

(** The number of a variable; only names of variables are asked for. *)
Definition vindex (s : string) : nat := match idx s with OVar i => i | _ => O end.

Fixpoint lin_poly (l : lin) : poly :=
  match l with
  | [] => PNil
  | (c, a) :: l => PCons false (TMul (FLeaf (OConst c)) (TOne (FLeaf (opd idx a)))) (lin_poly l)
  end.

(** The polynomial of a line, without the product when [A] is empty. *)
Definition line_poly (A B C : lin) : poly :=
  match A with
  | [] => lin_poly C
  | _ => PCons false (TMul (FParen (lin_poly A)) (TOne (FParen (lin_poly B)))) (lin_poly C)
  end.

(** [generate_computation_line]; [None] is the exception "nonempty A but empty
    B" of a polynomial line. *)
Definition generate_computation_line (l : line) : option (list string) :=
  match l with
  | LPoly A B C target =>
      match A, B with
      | [], _ :: _ | _ :: _, [] => None
      | _, _ => Some ("P" :: word (idx target) :: "=" :: print_poly true (line_poly A B C) ++ ["E"])
      end
  | LLess na2 arg0 arg1 target =>
      Some ("<I" :: less_words (vindex (aux target (bit_name "N" 0))) na2 (vindex (aux target "Mlt")) (vindex (aux target "Meq"))
                      (vindex (aux target "Mgt")) (opd idx arg0) (opd idx arg1) (idx target))
  | LNotEq arg0 arg1 target => Some ("!=" :: not_equal_words (vindex (aux target "M")) (opd idx arg0) (opd idx arg1) (idx target))
  | LSplit n x prefix first => Some ("SI" :: split_words (opd idx x) (Z.of_nat n) (vindex (bit_name prefix first)))
  | LSplitLe signed n x prefix first => Some ("SIL" :: split_le_words signed (Z.of_nat n) (opd idx x) (vindex (bit_name prefix first)))
  end.

(** [generate_computation_lines] *)
Fixpoint generate_computation_lines (ls : list line) : option (list string) :=
  match ls with
  | [] => Some []
  | l :: ls => w ← generate_computation_line l; ws ← generate_computation_lines ls; Some (w ++ ws)
  end.

(** The auxiliary names are variables, those of bits next to each other. *)
Definition line_symbols (l : line) : Prop :=
  match l with
  | LPoly _ _ _ _ => True
  | LLess na2 arg0 arg1 target =>
      Forall (fun s => idx s = OVar (vindex s)) [aux target "Mlt"; aux target "Meq"; aux target "Mgt"] /\
      (forall i, (i < Z.to_nat (na2 - 1))%nat -> idx (aux target (bit_name "N" i)) = OVar (vindex (aux target (bit_name "N" 0)) + i)) /\
      (variable (opd idx arg0) \/ variable (opd idx arg1))
  | LNotEq _ _ target => idx (aux target "M") = OVar (vindex (aux target "M"))
  | LSplit n x prefix first =>
      splittable (opd idx x) /\ forall i, (i < n)%nat -> idx (bit_name prefix (first + i)) = OVar (vindex (bit_name prefix first) + i)
  | LSplitLe _ n x prefix first =>
      forall i, (i < n)%nat -> idx (bit_name prefix (first + i)) = OVar (vindex (bit_name prefix first) + i)
  end.

Definition names (ls : list line) : list string := concat (map (fun l => defs l ++ uses l) ls).

Section Run.
Context `{HashBlockStore} `{CacheDB} `{GL : GmpLaws}.
Context (num_vars size_input size_output : nat) (prime : Z).

Abbreviation wf := (well_formed num_vars size_input size_output).
Abbreviation ok := (operand_ok num_vars size_input size_output).

(** The names of the program have variables of their own. *)
Record symbol_table (ss : list string) : Prop := {
  st_variable : forall s, s ∈ ss -> variable (idx s) /\ ok (idx s);
  st_distinct : forall s s', s ∈ ss -> s' ∈ ss -> place (idx s) LTemp = place (idx s') LTemp -> s = s'
}.

(** The variables hold the values. *)
Record models (ss : list string) (σ : ComputationProver) (env : string -> Z) : Prop := {
  md_wf : wf σ;
  md_read : forall s, s ∈ ss -> read_loc σ (place (idx s) LTemp) = Some (int (env s))
}.

Definition temporary (l : loc) : Prop := match l with LF1 _ | LIO _ => False | _ => True end.

Definition line_writes (l : line) (x : loc) : Prop := temporary x \/ exists s, s ∈ defs l /\ x = place (idx s) LTemp.

Context (ss : list string) (Hst : symbol_table ss).

Lemma ok_variable s : s ∈ ss -> variable (idx s).
Proof. intros Hs. by apply (st_variable _ Hst). Qed.

Lemma place_permanent s : s ∈ ss -> ~ temporary (place (idx s) LTemp).
Proof. intros Hs. pose proof (ok_variable s Hs) as Hv. destruct (idx s); cbn in *; tauto. Qed.

(** A run of a line that writes its bindings. *)
Lemma models_step inv l env σ σ' : (forall s, s ∈ defs l -> s ∈ ss) -> NoDup (defs l) -> models ss σ env ->
  same_but (line_writes l) σ σ' ->
  (forall s v, (s, v) ∈ bindings prime inv l env -> read_loc σ' (place (idx s) LTemp) = Some (int v)) ->
  models ss σ' (exec prime inv l env).
Proof.
  intros Hin Hnd [Hwf Hread] Hs Hb. split; [by apply (well_formed_same _ _ _ _ _ _ Hs)|]. intros s Hss.
  destruct (decide (s ∈ defs l)) as [Hd|Hd].
  - pose proof Hd as Hd'. rewrite <- (bindings_defs prime inv l env) in Hd'. apply list_elem_of_fmap in Hd' as ([s' v] & -> & Hsv).
    cbn. rewrite (Hb s' v Hsv). by rewrite (exec_binding prime inv l env s' v Hnd Hsv).
  - rewrite exec_other by done. rewrite (same_read _ _ _ Hs); [by apply Hread|].
    intros [Ht|(s' & Hs' & Heq)]; [by apply (place_permanent s)|]. apply Hd.
    by rewrite (st_distinct _ Hst s s' Hss (Hin s' Hs') Heq).
Qed.

Lemma models_arg σ env a : (forall s, s ∈ arg_names a -> s ∈ ss) -> models ss σ env ->
  ok (opd idx a) /\ holds σ (opd idx a) (arg_value env a).
Proof.
  intros Ha [_ Hread]. destruct a as [s|z]; [|done]. cbn in *. assert (s ∈ ss) as Hs by (apply Ha; by apply list_elem_of_singleton).
  destruct (st_variable _ Hst s Hs) as [Hvar Hok]. split; [done|]. specialize (Hread s Hs). revert Hvar Hread. by destruct (idx s).
Qed.

Lemma place_ne s s' : s ∈ ss -> s' ∈ ss -> s <> s' -> place (idx s) LTemp <> place (idx s') LTemp.
Proof. intros Hs Hs' Hne Heq. by apply Hne, (st_distinct _ Hst). Qed.

(** The bits of a line. *)
Lemma bits_in_range (n : nat) name (start : nat) : (forall i, (i < n)%nat -> name i ∈ ss /\ idx (name i) = OVar (start + i)) -> (0 < n)%nat ->
  (start + n <= num_vars)%nat /\ forall l, in_range_F1 start n l -> exists i, (i < n)%nat /\ l = place (idx (name i)) LTemp.
Proof.
  intros Hn Hpos. split.
  - destruct (Hn (n - 1)%nat ltac:(lia)) as [Hin Hi]. pose proof (proj2 (st_variable _ Hst _ Hin)) as Hok. rewrite Hi in Hok. cbn in Hok. lia.
  - intros l (j & Hj & ->). exists (j - start)%nat. split; [lia|]. rewrite (proj2 (Hn (j - start)%nat ltac:(lia))). cbn. f_equal. lia.
Qed.

Lemma variable_arg a : (forall s, s ∈ arg_names a -> s ∈ ss) -> variable (opd idx a) -> exists s, s ∈ arg_names a /\ opd idx a = idx s.
Proof. intros Ha Hv. destruct a as [s|z]; [|done]. exists s. split; [by apply list_elem_of_singleton|done]. Qed.

Lemma less_layout_of na2 arg0 arg1 target : (forall s, s ∈ defs (LLess na2 arg0 arg1 target) \/ s ∈ uses (LLess na2 arg0 arg1 target) -> s ∈ ss) ->
  NoDup (defs (LLess na2 arg0 arg1 target)) -> (forall s, s ∈ uses (LLess na2 arg0 arg1 target) -> s ∉ defs (LLess na2 arg0 arg1 target)) ->
  line_symbols (LLess na2 arg0 arg1 target) -> 2 <= na2 ->
  less_layout num_vars size_input size_output (vindex (aux target (bit_name "N" 0))) na2 (vindex (aux target "Mlt"))
    (vindex (aux target "Meq")) (vindex (aux target "Mgt")) (opd idx arg0) (opd idx arg1) (idx target).
Proof.
  intros Hin Hnd Hud (Hf & Hbits & Hvar) HN. cbn [defs uses] in *. set (n := Z.to_nat (na2 - 1)) in *.
  apply NoDup_app in Hnd as (Hnd4 & Hdis & _). set (bit := fun i => aux target (bit_name "N" i)) in *.
  apply Forall_cons in Hf as [Hlt Hf]. apply Forall_cons in Hf as [Heq Hf]. apply Forall_cons in Hf as [Hgt _].
  assert (forall s, s ∈ [target; aux target "Mlt"; aux target "Meq"; aux target "Mgt"] -> s ∈ ss) as Hin4.
  { intros s Hs. apply Hin. left. apply elem_of_app. by left. }
  assert (forall i, (i < n)%nat -> bit i ∈ tabulate n bit) as Hbit by (intros i Hi; by apply (tabulate_elem n bit)).
  assert (forall i, (i < n)%nat -> bit i ∈ ss) as Hinb.
  { intros i Hi. apply Hin. left. apply elem_of_app. right. by apply Hbit. }
  destruct (bits_in_range n bit (vindex (bit 0%nat))) as [Hrange Hr]; [intros i Hi; split; [by apply Hinb|by apply Hbits]|lia|].
  assert (forall s, s ∈ [target; aux target "Mlt"; aux target "Meq"; aux target "Mgt"] -> ~ in_range_F1 (vindex (bit 0%nat)) n (place (idx s) LTemp)) as Hnr.
  { intros s Hs (i & Hi & Heqp)%Hr. apply (place_ne s (bit i)); [by apply Hin4|by apply Hinb| |done]. intros ->. by apply (Hdis (bit i) Hs), Hbit. }
  repeat match goal with H : NoDup (_ :: _) |- _ => apply NoDup_cons in H as [? H] end. rewrite ?not_elem_of_cons in *.
  assert (forall s, idx s = OVar (vindex s) -> s ∈ ss -> (vindex s < num_vars)%nat) as Hlow.
  { intros s Hs Hss. pose proof (proj2 (st_variable _ Hst s Hss)) as Hok. by rewrite Hs in Hok. }
  assert (forall s s', idx s = OVar (vindex s) -> idx s' = OVar (vindex s') -> s ∈ ss -> s' ∈ ss -> s <> s' -> vindex s <> vindex s') as Hvne.
  { intros s s' Hs Hs' Hss Hss' Hne Hv. apply (place_ne s s' Hss Hss' Hne). by rewrite Hs, Hs', Hv. }
  assert (forall a m, (forall s, s ∈ arg_names a -> s ∈ ss /\ s ∉ [target; aux target "Mlt"; aux target "Meq"; aux target "Mgt"]) ->
    m ∈ [aux target "Mlt"; aux target "Meq"; aux target "Mgt"] -> idx m = OVar (vindex m) -> place (opd idx a) LTemp <> LF1 (vindex m)) as Hargne.
  { intros a m Ha Hm Hidx Hp. destruct a as [s|z]; [|done]. cbn in Hp. destruct (Ha s) as [Hs Hns]; [by apply list_elem_of_singleton|].
    apply (place_ne s m Hs); [apply Hin4; by right|intros ->; apply Hns; by right|]. by rewrite Hidx. }
  assert (Ha0 : forall s, s ∈ arg_names arg0 -> s ∈ ss /\ s ∉ [target; aux target "Mlt"; aux target "Meq"; aux target "Mgt"]).
  { intros s Hs. split; [apply Hin; right; apply elem_of_app; by left|]. intros Hd. apply (Hud s); [apply elem_of_app; by left|]. apply elem_of_app. by left. }
  assert (Ha1 : forall s, s ∈ arg_names arg1 -> s ∈ ss /\ s ∉ [target; aux target "Mlt"; aux target "Meq"; aux target "Mgt"]).
  { intros s Hs. split; [apply Hin; right; apply elem_of_app; by right|]. intros Hd. apply (Hud s); [apply elem_of_app; by right|]. apply elem_of_app. by left. }
  assert (aux target "Mlt" ∈ ss /\ aux target "Meq" ∈ ss /\ aux target "Mgt" ∈ ss /\ target ∈ ss) as (Slt & Seq & Sgt & Sy)
    by (repeat split; apply Hin4; rewrite !elem_of_cons; tauto).
  pose proof (Hnr target ltac:(rewrite !elem_of_cons; tauto)) as Ry. pose proof (Hnr (aux target "Mlt") ltac:(rewrite !elem_of_cons; tauto)) as Rlt.
  pose proof (Hnr (aux target "Meq") ltac:(rewrite !elem_of_cons; tauto)) as Req. pose proof (Hnr (aux target "Mgt") ltac:(rewrite !elem_of_cons; tauto)) as Rgt.
  rewrite Hlt in Rlt. rewrite Heq in Req. rewrite Hgt in Rgt. destruct (st_variable _ Hst target Sy) as [Hv Hoky].
  assert (forall a, (forall s, s ∈ arg_names a -> s ∈ ss) -> ok (opd idx a)) as Hok.
  { intros [s|z] Ha; [|done]. apply (st_variable _ Hst s), Ha. by apply list_elem_of_singleton. }
  split; [lia| |exact Hrange| | |].
  - repeat split; [by apply Hlow|by apply Hlow|by apply Hlow|..]; apply Hvne; try done; tauto.
  - by repeat apply Forall_cons_2.
  - repeat split; [done|done|done|]. pose proof (place_ne target (aux target "Mlt")) as Plt. pose proof (place_ne target (aux target "Meq")) as Peq.
    pose proof (place_ne target (aux target "Mgt")) as Pgt. rewrite Hlt in Plt. rewrite Heq in Peq. rewrite Hgt in Pgt.
    repeat apply Forall_cons_2; try done; [apply Plt|apply Peq|apply Pgt]; tauto.
  - repeat split; [apply Hok; by apply Ha0|apply Hok; by apply Ha1|done|].
    repeat apply Forall_cons_2; try done; split; apply Hargne; try done; rewrite !elem_of_cons; tauto.
Qed.

(** *** Lines of the worksheet *)

Context (DB_NUM_ADDRESSES : Z) (RAM_CELL_NUM_BITS NUM_COMMITMENT_BITS : nat).
Context `{Hasher}.
Context (execute_command : string -> string -> string -> list string) (AMat : nat -> Z).

Abbreviation run := (run_statements DB_NUM_ADDRESSES RAM_CELL_NUM_BITS NUM_COMMITMENT_BITS num_vars size_input size_output prime
  execute_command AMat).

Lemma run_statement tok cmds ws σ fuel :
  run (S fuel) cmds (with_tokens (tok :: ws) σ) =
  (statement DB_NUM_ADDRESSES RAM_CELL_NUM_BITS NUM_COMMITMENT_BITS num_vars size_input size_output prime
    execute_command AMat cmds tok ≫= run fuel) (with_tokens ws σ).
Proof. done. Qed.

(** A statement with a buffer of its own. *)
Lemma run_own tok cmds ws σ fuel (m : prog unit) σ' :
  statement DB_NUM_ADDRESSES RAM_CELL_NUM_BITS NUM_COMMITMENT_BITS num_vars size_input size_output prime
    execute_command AMat cmds tok = (m;; mret cmds) ->
  m (with_tokens ws σ) = Ok (tt, σ') -> run (S fuel) cmds (with_tokens (tok :: ws) σ) = run fuel cmds σ'.
Proof. intros Hs Hm. rewrite run_statement, Hs. erewrite run_bind; [done|]. by rewrite (run_bind _ _ _ _ _ Hm). Qed.

Lemma lin_poly_value σ env (l : lin) : models ss σ env -> (forall s, s ∈ concat (map (fun t => arg_names t.2) l) -> s ∈ ss) ->
  poly_value (fun o => match read_loc σ (place o LTemp) with Some q => numref q | None => 0 end) (lin_poly l) = lin_value env l.
Proof.
  intros Hm. induction l as [|[c a] l IH]; intros Hl; [done|]. cbn in *. rewrite IH by set_solver. f_equal. f_equal.
  destruct a as [s|z]; [|done]. cbn. assert (s ∈ ss) as Hs by (apply Hl; set_solver).
  pose proof (md_read _ _ _ Hm s Hs) as Hr. pose proof (ok_variable s Hs) as Hv. destruct (idx s); cbn in *; rewrite ?Hr; done.
Qed.

Lemma lin_poly_depth (l : lin) : poly_depth (lin_poly l) = O.
Proof. induction l as [|[c a] l IH]; [done|]. cbn. by rewrite IH. Qed.

Lemma lin_poly_vars (l : lin) o : o ∈ poly_vars (lin_poly l) -> (exists z, o = OConst z) \/ exists a, o = opd idx a /\ forall s, s ∈ arg_names a -> s ∈ concat (map (fun t => arg_names t.2) l).
Proof.
  induction l as [|[c a] l IH]; cbn; [by intros ?%not_elem_of_nil|]. intros [->|[->|Hin]%elem_of_cons]%elem_of_cons; [left; eauto| |].
  - right. exists a. split; [done|]. intros s Hs. apply elem_of_app. by left.
  - destruct (IH Hin) as [?|(a' & -> & Ha')]; [by left|]. right. exists a'. split; [done|]. intros s Hs. apply elem_of_app. right. by apply Ha'.
Qed.

Definition invert (z : Z) : Z := mpz_invert z prime.

(** One line: its words are read and its names take their values. *)
Definition line_runs (l : line) : Prop := forall env w cmds ws σ fuel,
  (forall s, s ∈ defs l \/ s ∈ uses l -> s ∈ ss) -> NoDup (defs l) -> (forall s, s ∈ uses l -> s ∉ defs l) ->
  line_symbols l -> valid prime l env -> models ss σ env -> generate_computation_line l = Some w ->
  exists cmds' σ', run (S fuel) cmds (with_tokens (w ++ ws) σ) = run fuel cmds' (with_tokens ws σ') /\ models ss σ' (exec prime invert l env).

Lemma poly_line_runs A B C target : line_runs (LPoly A B C target).
Proof.
  intros env w cmds ws σ fuel Hin Hnd Hud _ _ Hm Hw. cbn [defs uses] in *.
  assert (Hw' : w = "P" :: word (idx target) :: "=" :: print_poly true (line_poly A B C) ++ ["E"]) by (destruct A, B; by simplify_eq/=). subst w. clear Hw.
  assert (target ∈ ss) as Ht by (apply Hin; left; by apply list_elem_of_singleton).
  destruct (st_variable _ Hst target Ht) as [Hvar Hok].
  set (ρ := fun o => match read_loc σ (place o LTemp) with Some q => numref q | None => 0 end).
  rewrite !map_app, !concat_app in Hin.
  assert (HA : forall s, s ∈ concat (map (fun t => arg_names t.2) A) -> s ∈ ss) by set_solver.
  assert (HB : forall s, s ∈ concat (map (fun t => arg_names t.2) B) -> s ∈ ss) by set_solver.
  assert (HC : forall s, s ∈ concat (map (fun t => arg_names t.2) C) -> s ∈ ss) by set_solver.
  assert (Hvalue : poly_value ρ (line_poly A B C) = lin_value env A * lin_value env B + lin_value env C).
  { rewrite <- !(lin_poly_value σ env) by done. by destruct A. }
  assert (Hlin : forall l, (forall s, s ∈ concat (map (fun t => arg_names t.2) l) -> s ∈ ss) -> Forall (valued num_vars size_input size_output ρ σ) (poly_vars (lin_poly l))).
  { intros l Hl. apply Forall_forall. intros o Ho. destruct (lin_poly_vars l o Ho) as [[z ->]|(a & -> & Ha)]; [done|].
    destruct (models_arg σ env a ltac:(intros s Hs; by apply Hl, Ha) Hm) as [Hoka Hh]. split; [done|].
    destruct a as [s|z]; [|done]. cbn in *. subst ρ. destruct (idx s); cbn in *; by rewrite ?Hh. }
  destruct (run_P num_vars size_input size_output ρ (idx target) (line_poly A B C) cmds ws σ) as (σ' & Hrun & Hval & Hs); try done.
  - assert (Hd := lin_poly_depth). destruct A as [|ca A]; cbn [line_poly]; [rewrite Hd; lia|]. cbn [poly_depth term_depth factor_depth]. rewrite !Hd. cbn. lia.
  - apply Hm.
  - destruct A as [|ca A]; cbn [line_poly]; [by apply Hlin|]. cbn [poly_vars term_vars factor_vars]. rewrite !Forall_app. repeat split; by apply Hlin.
  - eexists _, σ'. split.
    + cbn [app]. rewrite run_statement. rewrite <- app_assoc. cbn [app]. by rewrite (run_bind _ _ _ _ _ Hrun).
    + apply (models_step _ _ _ σ); [set_solver|done|done| |].
      * apply (same_weaken (fun l => l = place (idx target) LTemp \/ scratch 0 l)); [|done]. intros l [->|[->|(i & _ & ->)]]; [right|by left|by left].
        exists target. split; [by apply list_elem_of_singleton|done].
      * cbn [bindings]. intros s v [= -> ->]%list_elem_of_singleton. by rewrite Hval, Hvalue.
Qed.

Lemma less_line_runs na2 arg0 arg1 target : line_runs (LLess na2 arg0 arg1 target).
Proof.
  intros env w cmds ws σ fuel Hin Hnd Hud Hsym [HN Hd] Hm [= <-].
  pose proof (less_layout_of na2 arg0 arg1 target Hin Hnd Hud Hsym HN) as Hlay.
  destruct (models_arg σ env arg0) as [_ Hv0]; [intros s Hs; apply Hin; right; apply elem_of_app; by left|done|].
  destruct (models_arg σ env arg1) as [_ Hv1]; [intros s Hs; apply Hin; right; apply elem_of_app; by right|done|].
  destruct (less_than_result num_vars size_input size_output _ _ _ _ _ _ _ _ _ _ ws σ Hlay (md_wf _ _ _ Hm) Hv0 Hv1 Hd)
    as (σ' & Hrun & [Rlt Req Rgt Ry Rbits Rsame]).
  destruct Hsym as (Hf & Hbits & _). apply Forall_cons in Hf as [Hlt Hf]. apply Forall_cons in Hf as [Heq Hf]. apply Forall_cons in Hf as [Hgt _].
  exists cmds, σ'. split; [by eapply run_own; [|exact Hrun]|].
  apply (models_step _ _ _ σ); [intros s Hs; apply Hin; by left|done|done| |].
  - apply (same_weaken _ _ _ _ (fun x Hx => Hx)) in Rsame. eapply same_weaken; [|exact Rsame]. intros x [(i & Hi & ->)|Hx].
    + right. exists (aux target (bit_name "N" (i - vindex (aux target (bit_name "N" 0))))). split.
      * cbn [defs]. apply elem_of_app. right. apply (tabulate_elem _ (fun i => aux target (bit_name "N" i))). lia.
      * rewrite Hbits by lia. cbn. f_equal. lia.
    + repeat (apply elem_of_cons in Hx as [->|Hx]); [..|by apply not_elem_of_nil in Hx]; try by left.
      * right. exists (aux target "Mlt"). rewrite Hlt. split; [|done]. cbn. rewrite !elem_of_cons. tauto.
      * right. exists (aux target "Meq"). rewrite Heq. split; [|done]. cbn. rewrite !elem_of_cons. tauto.
      * right. exists (aux target "Mgt"). rewrite Hgt. split; [|done]. cbn. rewrite !elem_of_cons. tauto.
      * right. exists target. split; [|done]. cbn. rewrite !elem_of_cons. tauto.
  - cbn [bindings]. intros s v Hsv. apply elem_of_app in Hsv as [Hsv|Hsv].
    + repeat (apply elem_of_cons in Hsv as [[= -> ->]|Hsv]); [..|by apply not_elem_of_nil in Hsv]; rewrite ?Hlt, ?Heq, ?Hgt; done.
    + apply elem_tabulate in Hsv as (i & Hi & [= -> ->]). rewrite Hbits by done. by apply Rbits.
Qed.

Lemma not_equal_line_runs arg0 arg1 target : line_runs (LNotEq arg0 arg1 target).
Proof.
  intros env w cmds ws σ fuel Hin Hnd Hud Hsym _ Hm [= <-]. cbn [defs uses line_symbols] in *.
  assert (target ∈ ss /\ aux target "M" ∈ ss) as [Ht HM] by (split; apply Hin; left; rewrite !elem_of_cons; tauto).
  destruct (models_arg σ env arg0) as [Ho0 Hv0]; [intros s Hs; apply Hin; right; apply elem_of_app; by left|done|].
  destruct (models_arg σ env arg1) as [Ho1 Hv1]; [intros s Hs; apply Hin; right; apply elem_of_app; by right|done|].
  destruct (st_variable _ Hst target Ht) as [Hvar Hok]. destruct (st_variable _ Hst _ HM) as [_ HokM]. rewrite Hsym in HokM.
  assert (not_equal_layout num_vars size_input size_output (vindex (aux target "M")) (opd idx arg0) (opd idx arg1) (idx target)) as Hlay.
  { split; [exact HokM| |done]. repeat split; [done|done|].
    pose proof (place_ne target (aux target "M") Ht HM) as Hne. rewrite Hsym in Hne. apply Hne.
    apply NoDup_cons in Hnd as [Hnd _]. rewrite elem_of_cons in Hnd. tauto. }
  destruct (not_equal_correct num_vars size_input size_output prime _ _ _ _ _ _ cmds ws σ Hlay (md_wf _ _ _ Hm) Hv0 Hv1) as (σ' & Hrun & [Rm Ry Rsame]).
  eexists _, σ'. split; [cbn [app]; by rewrite run_statement, (run_bind _ _ _ _ _ Hrun)|].
  apply (models_step _ _ _ σ); [intros s Hs; apply Hin; by left|done|done| |].
  - eapply same_weaken; [|exact Rsame]. intros x Hx.
    repeat (apply elem_of_cons in Hx as [->|Hx]); [..|by apply not_elem_of_nil in Hx]; try by left.
    + right. exists (aux target "M"). rewrite Hsym. split; [|done]. cbn. rewrite !elem_of_cons. tauto.
    + right. exists target. split; [|done]. cbn. rewrite !elem_of_cons. tauto.
  - cbn [bindings]. intros s v Hsv. repeat (apply elem_of_cons in Hsv as [[= -> ->]|Hsv]); [..|by apply not_elem_of_nil in Hsv]; rewrite ?Hsym; done.
Qed.

(** Lines that write bits. *)
Lemma bits_line l (n : nat) prefix first bit env σ σ' : (forall s, s ∈ defs l -> s ∈ ss) -> NoDup (defs l) -> models ss σ env ->
  bindings prime invert l env = tabulate n (fun i => (bit_name prefix (first + i), bit i)) ->
  (forall i, (i < n)%nat -> idx (bit_name prefix (first + i)) = OVar (vindex (bit_name prefix first) + i)) ->
  split_result (vindex (bit_name prefix first)) n bit σ σ' -> models ss σ' (exec prime invert l env).
Proof.
  intros Hin Hnd Hm Hb Hidx [Rb Rs]. apply (models_step _ _ _ σ); [done|done|done| |].
  - eapply same_weaken; [|exact Rs]. intros x [(i & Hi & ->)| ->]; [|by left]. right.
    exists (bit_name prefix (first + (i - vindex (bit_name prefix first)))). split.
    + rewrite <- (bindings_defs prime invert l env), Hb, fst_tabulate. apply (tabulate_elem n (fun i => bit_name prefix (first + i))). lia.
    + rewrite Hidx by lia. cbn. f_equal. lia.
  - intros s v. rewrite Hb. intros (i & Hi & [= -> ->])%elem_tabulate. rewrite Hidx by done. by apply Rb.
Qed.

Lemma split_line_runs n x prefix first : line_runs (LSplit n x prefix first).
Proof.
  intros env w cmds ws σ fuel Hin Hnd Hud [Hx Hidx] [Hn Hv] Hm [= <-]. cbn [defs uses] in *.
  assert (Hbits : forall i, (i < n)%nat -> bit_name prefix (first + i) ∈ ss).
  { intros i Hi. apply Hin. left. by apply (tabulate_elem n (fun i => bit_name prefix (first + i))). }
  destruct (models_arg σ env x) as [Hox Hvx]; [intros s Hs; apply Hin; by right|done|].
  destruct (bits_in_range n (fun i => bit_name prefix (first + i)) (vindex (bit_name prefix first))) as [Hrange Hr]; [auto|done|].
  destruct (split_correct num_vars size_input size_output (opd idx x) (Z.of_nat n) (vindex (bit_name prefix first)) (arg_value env x) ws σ)
    as (σ' & Hrun & Hres); rewrite ?Nat2Z.id in *; [done|done|lia|done|apply Hm|done| |].
  - intros (i & Hi & Heq)%Hr. destruct (variable_arg x) as (s & Hs & Hxs); [intros s Hs; apply Hin; by right|by destruct (opd idx x)|].
    rewrite Hxs in Heq. apply (place_ne s (bit_name prefix (first + i))); [apply Hin; by right|by apply Hbits| |done].
    intros ->. apply (Hud _ Hs). by apply (tabulate_elem n (fun i => bit_name prefix (first + i))).
  - exists cmds, σ'. split; [by eapply run_own; [|exact Hrun]|].
    eapply (bits_line (LSplit n x prefix first)); [intros s Hs; apply Hin; by left|done|exact Hm|reflexivity|done|exact Hres].
Qed.

Lemma split_le_line_runs signed n x prefix first : line_runs (LSplitLe signed n x prefix first).
Proof.
  intros env w cmds ws σ fuel Hin Hnd Hud Hidx [Hn Hv] Hm [= <-]. cbn [defs uses] in *.
  destruct (models_arg σ env x) as [Hox Hvx]; [intros s Hs; apply Hin; by right|done|].
  destruct (bits_in_range n (fun i => bit_name prefix (first + i)) (vindex (bit_name prefix first))) as [Hrange _]; [|done|].
  { intros i Hi. split; [|by apply Hidx]. apply Hin. left. by apply (tabulate_elem n (fun i => bit_name prefix (first + i))). }
  destruct (split_le_correct num_vars size_input size_output signed (Z.of_nat n) (opd idx x) (vindex (bit_name prefix first)) (arg_value env x) ws σ)
    as (σ' & Hrun & Hres); rewrite ?Nat2Z.id in *; [done|lia|done|apply Hm|done|done|].
  exists cmds, σ'. split; [by eapply run_own; [|exact Hrun]|].
  eapply (bits_line (LSplitLe signed n x prefix first)); [intros s Hs; apply Hin; by left|done|exact Hm|reflexivity|done|exact Hres].
Qed.

Lemma every_line_runs l : line_runs l.
Proof.
  destruct l; [apply poly_line_runs|apply less_line_runs|apply not_equal_line_runs|apply split_line_runs|apply split_le_line_runs].
Qed.

Lemma lines_run ls env cmds ws σ fuel : (length ls < fuel)%nat ->
  (forall l s, l ∈ ls -> s ∈ defs l \/ s ∈ uses l -> s ∈ ss) -> single_assignment ls -> Forall line_symbols ls ->
  all_valid prime invert ls env -> models ss σ env -> generate_computation_lines ls = Some ws ->
  exists σ', run fuel cmds (with_tokens ws σ) = Ok (tt, with_tokens [] σ') /\ models ss σ' (exec_all prime invert ls env).
Proof.
  revert env cmds ws σ fuel. induction ls as [|l ls IH]; intros env cmds ws σ [|fuel] Hf Hin Hsa Hsym Hv Hm Hws; cbn in Hf; try lia.
  - injection Hws as <-. by exists σ.
  - destruct Hsa as (Hnd & Hud & _ & Hsa). apply Forall_cons in Hsym as [Hl Hls]. destruct Hv as [Hv Hvs]. cbn in Hws.
    destruct (generate_computation_line l) as [w|] eqn:Hw; [|done]. cbn in Hws.
    destruct (generate_computation_lines ls) as [ws'|] eqn:Hws'; [|done]. injection Hws as <-.
    destruct (every_line_runs l env w cmds ws' σ fuel (fun s => Hin l s (list_elem_of_here _ _)) Hnd Hud Hl Hv Hm Hw) as (cmds1 & σ1 & -> & Hm1).
    destruct (IH (exec prime invert l env) cmds1 ws' σ1 fuel) as (σ2 & Hrun & Hm2); try done; [lia| |by exists σ2].
    intros l' s Hl'. apply Hin. by apply list_elem_of_further.
Qed.

Lemma generated_length ls ws : generate_computation_lines ls = Some ws -> (length ls <= length ws)%nat.
Proof.
  revert ws. induction ls as [|l ls IH]; intros ws; cbn; [intros; lia|].
  destruct (generate_computation_line l) as [w|] eqn:Hw; [|done]. cbn. destruct (generate_computation_lines ls) as [ws'|]; [|done].
  intros [= <-]. specialize (IH ws' eq_refl). rewrite length_app. enough (0 < length w)%nat by lia.
  destruct l as [[|] [|] ? ?| | | |]; cbn in Hw; simplify_eq/=; lia.
Qed.

(** The value of a name in the assignment that the prover returns. *)
Definition value_of (asg : assignment) (s : string) : Z :=
  match idx s with
  | OVar i => nth i (F1 asg) 0
  | OIn i => nth i (input asg) 0
  | OOut i => nth (i - size_input) (output asg) 0
  | OConst z => z
  end.

Lemma value_of_models σ env s : Z.prime prime -> s ∈ ss -> models ss σ env ->
  let io := map (convert_to_z prime) (input_output_q σ) in
  value_of {| input := take size_input io; output := drop size_input io; F1 := map (convert_to_z prime) (F1_q σ) |} s = env s mod prime.
Proof.
  intros Hp Hs Hm. cbn zeta. destruct (st_variable _ Hst s Hs) as [Hv Hok]. pose proof (md_read _ _ _ Hm s Hs) as Hr.
  unfold value_of. rewrite <- (convert_int prime Hp (env s)).
  destruct (idx s) as [i|i|i|z]; cbn in *; [..|done]; rewrite nth_lookup.
  - by rewrite list_lookup_fmap, Hr.
  - by rewrite lookup_take_lt, list_lookup_fmap, Hr.
  - rewrite lookup_drop, list_lookup_fmap. replace (size_input + (i - size_input))%nat with i by lia. by rewrite Hr.
Qed.

Lemma invert_law : Z.prime prime -> forall z, z mod prime <> 0 -> (prime | z * invert z - 1).
Proof.
  intros Hp z Hz. pose proof (Z.prime_ge_2 prime Hp). apply Z.mod_divide; [lia|]. rewrite Zminus_mod. unfold invert.
  destruct (mpz_invert_eq z prime) as [_ ->]; [lia| |rewrite Z.mod_1_l by lia; by rewrite Z.mod_0_l by lia].
  rewrite Z.gcd_comm. apply Z.coprime_prime_l; [done|]. intros Hd. by apply Hz, Z.mod_divide; [lia|].
Qed.

End Run.

(** ** Programs *)

Section Programs.
Context `{HashBlockStore} `{Hasher} `{CacheDB} `{GL : GmpLaws}.
Context (num_vars size_input size_output : nat) (prime : Z) (Hprime : Z.prime prime).

(** C1: The prover runs the worksheet of a program to its end, the values it
    returns are those of the program modulo the prime, and they satisfy every
    constraint of the program. *)
Theorem program_complete DB_NUM_ADDRESSES RAM_CELL_NUM_BITS NUM_COMMITMENT_BITS execute_command AMat ls ws env σ :
  symbol_table num_vars size_input size_output (names ls) -> models num_vars size_input size_output (names ls) σ env ->
  single_assignment ls -> Forall line_symbols ls -> all_valid prime (invert prime) ls env ->
  generate_computation_lines ls = Some ws ->
  exists asg σ', compute_from_pws DB_NUM_ADDRESSES RAM_CELL_NUM_BITS NUM_COMMITMENT_BITS num_vars size_input size_output prime
      execute_command AMat ws σ = Ok (asg, σ') /\
    (forall s, s ∈ names ls -> value_of size_input asg s = exec_all prime (invert prime) ls env s mod prime) /\
    all_satisfied prime (value_of size_input asg) (concat (map to_basic_constraints ls)) = true.
Proof.
  intros Hst Hm Hsa Hsym Hv Hws. assert (Hin : forall l s, l ∈ ls -> s ∈ defs l \/ s ∈ uses l -> s ∈ names ls).
  { intros l s Hl Hs. apply list_elem_of_In, in_concat. exists (defs l ++ uses l).
    split; [apply in_map_iff; exists l; split; [done|by apply list_elem_of_In]|]. apply list_elem_of_In. by apply elem_of_app. }
  pose proof (generated_length ls ws Hws) as Hlen.
  destruct (lines_run num_vars size_input size_output prime (names ls) Hst DB_NUM_ADDRESSES RAM_CELL_NUM_BITS NUM_COMMITMENT_BITS
    execute_command AMat ls env None ws σ (S (length ws)) ltac:(lia) Hin Hsa Hsym Hv Hm Hws) as (σ' & Hrun & Hm').
  unfold compute_from_pws. rewrite Hrun. do 2 eexists. split; [done|].
  assert (Hvalue : forall s, s ∈ names ls -> value_of size_input {| input := take size_input (map (convert_to_z prime) (input_output_q σ'));
    output := drop size_input (map (convert_to_z prime) (input_output_q σ')); F1 := map (convert_to_z prime) (F1_q σ') |} s =
    exec_all prime (invert prime) ls env s mod prime).
  { intros s Hs. by apply (value_of_models num_vars size_input size_output prime (names ls) Hst σ' _ s Hprime Hs Hm'). }
  split; [exact Hvalue|].
  apply (program_satisfied prime Hprime (invert prime) (invert_law prime Hprime) ls env); [done|done|].
  intros l s Hl Hs. cbn. apply (mod_iff prime Hprime). rewrite (Hvalue s (Hin l s Hl Hs)). apply Z.mod_mod. pose proof (Z.prime_ge_2 prime Hprime). lia.
Qed.

End Programs.
End Worksheets.

(** C2: Whatever values satisfy the constraints of a program are, for the names
    the constraints determine, those of the program, once they are for its
    inputs. *)
Theorem program_sound p inv ls env asg : Z.prime p -> 3 < p -> single_assignment ls -> all_valid p inv ls env -> Forall (fits p) ls ->
  (forall s, s ∈ concat (map hidden ls) -> s ∉ concat (map uses ls)) ->
  (forall s, s ∈ concat (map uses ls) -> s ∉ concat (map defs ls) -> asg s mod p = env s mod p) ->
  all_satisfied p asg (concat (map to_basic_constraints ls)) = true ->
  forall l s, l ∈ ls -> s ∈ results l -> asg s mod p = exec_all p inv ls env s mod p.
Proof.
  intros Hp Hp3 Hsa Hv Hf Hh Huse Hall l s Hl Hs. apply (mod_iff p Hp).
  apply (program_sound_lemma p Hp inv ls env asg) with l; try done. intros s' Hs' Hd. apply (mod_iff p Hp). by apply Huse.
Qed.

(** ** A program with a line of every kind

    [d = a * b + 3 * a; t = d < 7; o = t != b], and the bits of [d] and [a]. *)
Definition sample_lines : list line :=
  [ LPoly [(1, ArgVar "a")] [(1, ArgVar "b")] [(3, ArgVar "a")] "d";
    LLess 3 (ArgVar "d") (ArgConst 7) "t";
    LNotEq (ArgVar "t") (ArgVar "b") "o";
    LSplitLe false 2 (ArgVar "d") "s" 0;
    LSplit 2 (ArgVar "a") "u" 0 ].

Definition sample_table : list (string * operand) :=
  [ ("a", OIn 0); ("b", OIn 1); ("o", OOut 2); ("d", OVar 0); ("t", OVar 1); (aux "t" "Mlt", OVar 2); (aux "t" "Meq", OVar 3); (aux "t" "Mgt", OVar 4);
    (aux "t" "N0", OVar 5); (aux "t" "N1", OVar 6); (aux "o" "M", OVar 7); ("s0", OVar 8); ("s1", OVar 9); ("u0", OVar 10); ("u1", OVar 11) ]%string.

Definition sample_index (s : string) : operand := snd (default ("", OConst 0)%string (find (fun e => String.eqb s e.1) sample_table)).

(** The inputs are 1 and 0. *)
Definition sample_env (s : string) : Z := if String.eqb s "a" then 1 else 0.

Definition sample_words : list string :=
  default [] (generate_computation_lines sample_index sample_lines).

Example sample_worksheet : sample_words =
  ["P"; "V0"; "="; "("; "1"; "*"; "I0"; ")"; "*"; "("; "1"; "*"; "I1"; ")"; "+"; "3"; "*"; "I0"; "E";
   "<I"; "N_0"; "V5"; "N"; "3"; "Mlt"; "V2"; "Meq"; "V3"; "Mgt"; "V4"; "X1"; "V0"; "X2"; "7"; "Y"; "V1";
   "!="; "M"; "V7"; "X1"; "V1"; "X2"; "I1"; "Y"; "O2";
   "SIL"; "uint"; "bits"; "2"; "X"; "V0"; "Y0"; "V8"; "SI"; "I0"; "into"; "2"; "bits"; "at"; "V10"]%string.
Proof. reflexivity. Qed.

Ltac listed_in := match goal with |- forall s, s ∈ _ -> _ =>
  apply Forall_forall; apply (bool_decide_unpack _); by vm_compute end.

Lemma sample_single : single_assignment sample_lines.
Proof.
  cbn [single_assignment sample_lines]. repeat split; try listed_in; apply (bool_decide_unpack _); by vm_compute.
Qed.

Lemma sample_valid inv : all_valid 17 inv sample_lines sample_env.
Proof. cbn [all_valid sample_lines valid]. repeat split; vm_compute; try done; try (intros; lia). Qed.

Lemma sample_symbols : symbol_table sample_index 12 2 1 (names sample_lines).
Proof.
  split.
  - assert (Forall (fun s => match sample_index s with OVar i => (i <? 12)%nat | OIn i => (i <? 2)%nat | OOut i => (i =? 2)%nat | OConst _ => false end = true) (names sample_lines)) as HF
      by (apply (bool_decide_unpack _); by vm_compute).
    intros s Hs. pose proof (proj1 (Forall_forall _ _) HF s Hs) as Hi. cbn beta in Hi.
    destruct (sample_index s) as [i|i|i|z]; cbn; [apply Nat.ltb_lt in Hi|apply Nat.ltb_lt in Hi|apply Nat.eqb_eq in Hi|done]; split; done || lia.
  - assert (Forall (fun s => Forall (fun s' => place (sample_index s) LTemp = place (sample_index s') LTemp -> s = s') (names sample_lines)) (names sample_lines)) as HF
      by (apply (bool_decide_unpack _); by vm_compute).
    intros s s' Hs Hs'. exact (proj1 (Forall_forall _ _) (proj1 (Forall_forall _ _) HF s Hs) s' Hs').
Qed.

Lemma sample_models : models (H := store) (H0 := MapCache) sample_index 12 2 1 (names sample_lines)
  (sample (replicate 12 0) [1; 0; 0]) (fun s => if String.eqb s "a" then 1 else 0).
Proof.
  split; [by apply sample_prover_wf|]. apply Forall_forall. repeat (apply Forall_cons; split); try reflexivity. by apply Forall_nil.
Qed.

Lemma program_complete_witness :
  exists asg σ', compute_from_pws (H := store) (HH := NullHash.NullHash) (H0 := MapCache) 4 8 0 12 2 1 17 (fun _ _ _ => []) (fun _ => 0)
      sample_words (sample (replicate 12 0) [1; 0; 0]) = Ok (asg, σ') /\
    value_of sample_index 2 asg "o" = 1 /\
    all_satisfied 17 (value_of sample_index 2 asg) (concat (map to_basic_constraints sample_lines)) = true.
Proof.
  destruct (program_complete (H := store) (H0 := NullHash.NullHash) (H1 := MapCache) sample_index 12 2 1 17 prime_17 4 8 0 (fun _ _ _ => []) (fun _ => 0)
    sample_lines sample_words sample_env (sample (replicate 12 0) [1; 0; 0])) as (asg & σ' & Hrun & Hval & Hsat).
  - exact sample_symbols.
  - exact sample_models.
  - exact sample_single.
  - repeat (apply Forall_cons; split); [done|..|by apply Forall_nil].
    + split; [repeat constructor|]. split; [|by left]. intros [|[|i]] Hi; [done|done|cbn in Hi; lia].
    + done.
    + by intros [|[|i]] Hi; [..|lia].
    + split; [done|]. by intros [|[|i]] Hi; [..|lia].
  - apply sample_valid.
  - done.
  - exists asg, σ'. split; [exact Hrun|]. split; [|exact Hsat]. rewrite (Hval "o"%string); [by vm_compute|].
    apply (bool_decide_unpack _). by vm_compute.
Defined.

(** Values that satisfy the constraints of the program on inputs 18 and 17. *)
Definition sample_solution (s : string) : Z :=
  snd (default ("", 0)%string (find (fun e => String.eqb s e.1)
    [("a", 18); ("b", 17); ("o", 1); ("d", 20); ("t", 1); (aux "t" "Mlt", 18); (aux "o" "M", 1); ("s0", 1); ("s1", 1); ("u1", 18)]%string)).

Lemma program_sound_witness :
  all_satisfied 17 sample_solution (concat (map to_basic_constraints sample_lines)) = true /\
  sample_solution "o" mod 17 = exec_all 17 (fun _ => 1) sample_lines sample_env "o" mod 17.
Proof.
  assert (all_satisfied 17 sample_solution (concat (map to_basic_constraints sample_lines)) = true) as Hsat by by vm_compute.
  split; [exact Hsat|]. apply (program_sound 17 (fun _ => 1) sample_lines sample_env sample_solution) with (LNotEq (ArgVar "t") (ArgVar "b") "o").
  - exact prime_17.
  - lia.
  - exact sample_single.
  - apply sample_valid.
  - repeat (apply Forall_cons; split); by vm_compute || by apply Forall_nil.
  - listed_in.
  - assert (Forall (fun s => s ∈ concat (map defs sample_lines) \/ sample_solution s mod 17 = sample_env s mod 17) (concat (map uses sample_lines))) as HF
      by (apply (bool_decide_unpack _); by vm_compute).
    intros s Hs Hd. by destruct (proj1 (Forall_forall _ _) HF s Hs).
  - exact Hsat.
  - do 2 apply list_elem_of_further. by left.
  - by apply list_elem_of_singleton.
Defined.
